(* ===== verification/_CoqProject ===== *)
-Q . S2P
Prelude.v
Bytes.v
Float64.v
Rounding.v
Resp.v
Pattern.v
Kv.v
Fjall.v
Slate.v
Registry.v
StreamCodec.v
Op.v
Namespace.v
PubSub.v
Session.v
Atomic.v
Watch.v
Rand.v
Linked.v
Elements.v
Ranges.v
Hash.v
SetCmds.v
ZSet.v
ZSetStore.v
ZSetSpec.v
ZSetAlgebra.v
ZSetBlock.v
Bloom.v
BloomStore.v
BloomSpec.v
Hll.v
HllEstimate.v
HllSpec.v
ListCmds.v
Keys.v
Stream.v
StreamLog.v
StreamBlock.v
Strings.v
Bitmap.v
Conn.v
Commands.v
Listener.v
ServerCmds.v
CollectionCmds.v
ZSetCmds.v
SketchCmds.v
StreamCmds.v
Typed.v
