(* ===== verification/Prelude.v ===== *)
(** * A verification of Invar

    Invar (src/) is a server that speaks the Redis protocol and keeps its data in a
    transactional key-value store. A connection's bytes are decoded into commands
    (src/src/redis/resp.rs); a command is parsed into a queued operation with a
    database half, run in a transaction, and a wire half, which renders the reply
    (commands.rs, common/op.rs); the connection's [Session] collects the operations of
    a batch, one command or the commands between MULTI and EXEC, and dispatches them
    in an optimistic transaction that is retried on conflict (common/session.rs);
    connections that block on keys, and the versions WATCH compares, are in a shared
    [WatchRegistry] (common/registry.rs); subscribers and publishers meet in a shared
    registry of broadcast channels (pubsub.rs), served by the loop of each connection
    (listener.rs); the store is behind the traits of
    src/src/kv/kv.rs, with the backends fjall.rs and slate.rs. This library models
    those parts as executable definitions and proves what makes them correct.

    ** Files

    - Prelude: results and outcomes, machine integers (a w-bit integer is a [Z] with
      its casts and saturating operations written out), bytes as [Z], tactics. The
      hint databases [runs] (Kv), [listener] and [zset] automate running operations.
    - Bytes: decimal printing and parsing, big-endian integers, UTF-8 as
      [String::from_utf8_lossy] and [str::parse] treat it. Float64: [f64] as a bit pattern
      with IEEE 754 arithmetic, reading and printing. Rounding: how far rounding can move
      a result, for loops over numbers that have to end. All Rust standard library.
    - Resp: resp.rs. The decoder is a loop over turns ([decode_turn]); its state
      survives between calls. Theorems: the decoder inverts the encoder (the integer
      i64::MIN and line breaks in one-line strings are its limits), does not
      depend on how the input is cut into packets, keeps its invariant, terminates,
      and bounds what it buffers.
    - Pattern: pattern.rs. The matcher with its backtracking cut against an inductive
      definition of the dialect ([glob]).
    - Kv: kv/kv.rs. Entries, items and expiry; the traits [Tx] and [KeyValueStore] as
      the classes [TxOps] and [StoreOps], and what clients rely on as [TxLaws],
      [TxScanLaws] and [StoreLaws]. A transaction is a map from keys to items in which
      expired items are invisible ([Runs] states what an operation does to that map).
      A commit installs the changes of a transaction over the store of that moment
      ([overlay]) if no key it changed, and under serializable isolation none it read,
      has moved since it began. [MapTx] and [MapStore] are concrete instances, which
      show that the laws can hold and run the witnesses.
    - Fjall, Slate: kv/fjall.rs, kv/slate.rs. The database libraries are parameters
      ([FjallLib], [SlateLib]) with their documented behaviour as laws; proved is that
      the backends then satisfy the [Tx] contract, expiry included.
    - Registry: common/registry.rs, with the channels of the waiting clients as
      explicit state. A step relation interleaves registrations, claims, wakes,
      releases, notifications, timeouts and disconnects; its invariant, delivery to
      exactly the claimed client, the timeout race, fairness of claims.
    - Op: common/op.rs, common/mod.rs. Namespace: common/namespace.rs, the sentinels of
      compound values and the prefix their elements live under.
    - Session: common/session.rs. [dispatch_pending_ops] acts on a [World] (store and
      registry) that other connections change at every moment of a batch: the argument
      [env]. Atomic proves that a batch is applied entirely or not at all, in one step,
      and is linearizable when it touches one key. Watch proves what WATCH guarantees.
    - Strings, Bitmap, Conn: strings.rs, bitmap.rs, conn.rs. Each command's database
      half against its effect on the abstract store, on every branch.
    - Elements: what hash.rs and set.rs share: the keys of elements, the count in the
      sentinel, prefix scans, and the relation between a store and an abstract value
      ([stored]). Rand: their random choices, with the random words as arguments.
    - Hash, SetCmds: hash.rs, set.rs. Scripts of commands refine a machine on finite maps
      and sets; what a command leaves alone; set algebra, SMOVE, SPOP, random choices
      within bounds, cursors that visit everything once.
    - ZSet: zset.rs, the two indexes of a sorted set and all commands. ZSetStore: what the
      indexes hold of an abstract map from members to scores, and that the score index is
      ordered like the scores. ZSetSpec: scripts of commands refine a machine on such maps
      ([zstep]); a ZADD serves the client that waits longest. ZSetAlgebra: combinations of
      sets member by member ([combine_at]) and storing them. ZSetBlock: the steps of a
      client in BZPOPMIN or BZPOPMAX.
    - Bloom: bloom.rs, hashing, sizing, the record of the sub-filters and the pages of bits.
      BloomStore: the record decodes to what was encoded, and which bits the pages hold.
      BloomSpec: scripts of commands refine a machine on parameters and a set of bits
      ([bstep]), and an item that was added is always reported.
    - Hll: hll.rs, packed registers, hash, estimator and commands. HllEstimate: the loops of
      the estimator end on every sketch. HllSpec: registers do not disturb each other, the unrolled histogram counts them, and the commands refine
      operations on finite sets of elements ([pfnext]); what PFCOUNT replies is a function
      of the union of the sets.
    - Linked: the doubly linked chain of list.rs in memory, its invariant [chain] and a
      lemma per operation, and the generator of node keys, which never repeats within a
      nanosecond. ListCmds: the commands of list.rs over it, refining a machine on
      lists of values ([lstep]); loading a list ends on every store.
    - Ranges: what a scan between two keys yields, for the cursor of SCAN and the entry
      scans of streams.
    - StreamCodec, Stream: stream.rs, the ids and encodings of streams, then the stream
      commands. StreamLog: the machine on logs they refine ([xstep]), for every script of
      commands, and reading in pages. StreamBlock: the loop of a client blocked in XREAD
      ([client_step]) as one part of a world in which writers commit anything, deliver the
      notifications of XADD later, and other clients use the registry; no wakeup is lost
      while what the client waits for came with a notification, which is not so for a
      stream that RENAME or MOVE brings ([rename_not_announced]).
    - Keys: keys.rs. DEL and RENAME against what a value of any type owns ([owned]), expiry,
      SCAN followed to its end, in order and compared with KEYS.
    - PubSub: pubsub.rs. The broadcast channel of the tokio library is a class with laws
      ([Broadcast], [BroadcastLaws]); [Linked] says that the registry and the connections
      agree. What PUBLISH delivers and counts, and that the introspection tells the truth.
      Listener: listener.rs, one pass of a connection's loop ([loop_pass]) and a server of
      many connections ([server_step]): the agreement is kept whatever clients do as long as
      the check and the removal of [cleanup_name] are one step ([cleanup_race] shows that
      this is needed), messages arrive in order and before requests, and what the commands
      of subscribe mode do.
      PUBLISH is a step of the server; that a queued PUBLISH takes this step when its batch
      is rendered is not part of [World], which has the store and the watch registry only.
    - ServerCmds: server.rs. FLUSHDB over the administration of the store ([StoreAdmin]),
      which fjall.rs implements over its library; CLIENT, HELLO and INFO over the registry
      of clients, along any sequence of connections, commands, disconnections and panics of
      a handler, with the allocator of connection ids.
    - Commands: commands.rs. Parsing, and the lifecycle of a command in and out of
      MULTI; the command groups it leaves open are the argument [other].
      CollectionCmds fills in the list, set, hash and key commands
      ([with_collections]) and proves list commands end to end, from the text of the
      command to the reply and the committed store; ZSetCmds does the same for the sorted
      set commands on one key ([with_zsets]), and SketchCmds dispatches those on
      Bloom filters and sketches to the operations of their machines. StreamCmds parses the
      stream commands; a parser that panics is an outcome of the parse. Typed proves for all
      commands of these tables that a wire half is only given results it understands.

    ** Conventions, bounds and fuel

    The clock is an argument, in Unix milliseconds, constant during an operation and
    during an attempt of a batch; theorems assume it is after the epoch ([clock_ok]). A
    [Duration] is a number of nanoseconds. Lengths are those of lists, so a buffer is
    assumed to fit in memory; where the code casts a length or an offset the cast is
    modelled. A panic is an outcome of its own ([Panic]). Loops that are not structural
    carry fuel: [decode_loop] gets one turn more than there are bytes (each turn that
    goes on consumes one), [match_loop] one more than the length of the pattern,
    [commit_loop] one more than the retries, [load_list] as many steps as there are node
    keys, a walk over a chain two more than there are nodes, the option parsers of XADD,
    XREAD, ZINTER and ZUNION a turn for every argument, [decode_fields] one more than there
    are bytes, the two series of the HyperLogLog estimator 1100 turns (the first ends within
    26, because the number it squares underflows, the second within 1075, because the factor
    it halves does); that the fuel suffices is
    [decode_terminates], the correctness of [glob_match], [dispatch_terminates],
    [estimate_some] and [load_list_ends]; a walk that exceeds its fuel is on a chain that is circular, where
    the code does not return.
    A Bloom filter records at most 65535 sub-filters; its theorems assume that the items
    added do not open more. The natural logarithm is an argument of the sizing, and the
    theorems hold for every function.
    The WATCH pre-check is one step with respect to [env]; metrics, logging and the
    back-off delays are left out.

    ** Not modelled

    INCRBYFLOAT and HINCRBYFLOAT; WAIT and BGSAVE, which wait for
    the durability of the store. json.rs and script.rs rest on libraries (JSON, Lua). Of listener.rs, binding sockets and giving up a parked command
    when its client hangs up; publishing is one step with respect to subscribing. store.rs
    and main.rs are tasks and configuration. *)
From stdpp Require Export base list gmap strings sorting.
From Stdlib Require Export ZArith Lia.

#[global] Open Scope Z_scope.

(** ** Results, panics and the error monad *)

(** Rust's [Result<A, E>]. *)
Inductive result (A E : Type) : Type :=
| Ok (a : A)
| Err (e : E).
Arguments Ok {A E} _.
Arguments Err {A E} _.

Definition result_map {A B E} (f : A → B) (r : result A E) : result B E :=
  match r with Ok a => Ok (f a) | Err e => Err e end.

Definition is_err {A E} (r : result A E) : bool :=
  match r with Ok _ => false | Err _ => true end.

(** The three ways a Rust computation can end: a value, an [Err], a panic. *)
Inductive outcome (A E : Type) : Type :=
| Ret (a : A)
| Fail (e : E)
| Panic.
Arguments Ret {A E} _.
Arguments Fail {A E} _.
Arguments Panic {A E}.

(** ** Machine integers, kept as [Z] with their width written out *)

Definition u8_max : Z := 255.
Definition i32_min : Z := - 2 ^ 31.
Definition i32_max : Z := 2 ^ 31 - 1.
Definition u32_max : Z := 2 ^ 32 - 1.
Definition i64_min : Z := - 2 ^ 63.
Definition i64_max : Z := 2 ^ 63 - 1.
Definition u64_max : Z := 2 ^ 64 - 1.

Definition in_i64 (z : Z) : Prop := i64_min ≤ z ≤ i64_max.
Definition in_i64b (z : Z) : bool := (i64_min <=? z) && (z <=? i64_max).

(** [x as i64] / [x as i32]: two's complement truncation. *)
Definition wrap_signed (w z : Z) : Z := (z + 2 ^ (w - 1)) mod 2 ^ w - 2 ^ (w - 1).
Definition as_i64 (z : Z) : Z := wrap_signed 64 z.
Definition as_i32 (z : Z) : Z := wrap_signed 32 z.
Definition as_u64 (z : Z) : Z := z mod 2 ^ 64.
Definition as_u32 (z : Z) : Z := z mod 2 ^ 32.

(** [i64::saturating_add], [saturating_sub], [saturating_mul]. *)
Definition sat_i64 (z : Z) : Z := Z.max i64_min (Z.min i64_max z).
Definition saturating_add (a b : Z) : Z := sat_i64 (a + b).
Definition saturating_sub (a b : Z) : Z := sat_i64 (a - b).
Definition saturating_mul (a b : Z) : Z := sat_i64 (a * b).

(** Unfolds every width bound and leaves the goal to [lia]. *)
Ltac widths :=
  unfold in_i64, in_i64b, saturating_add, saturating_sub, saturating_mul, sat_i64,
    i32_min, i32_max, i64_min, i64_max, u32_max, u64_max, u8_max in *.
Ltac width_lia := widths; lia.

Lemma as_i64_id z : in_i64 z → as_i64 z = z.
Proof.
  unfold as_i64, wrap_signed. intros H. rewrite Z.mod_small; [lia|]. width_lia.
Qed.

Lemma as_i64_range z : in_i64 (as_i64 z).
Proof.
  unfold as_i64, wrap_signed.
  pose proof (Z.mod_pos_bound (z + 2 ^ (64 - 1)) (2 ^ 64) ltac:(lia)). width_lia.
Qed.

Lemma in_i64b_spec z : in_i64b z = true ↔ in_i64 z.
Proof. unfold in_i64b, in_i64. rewrite andb_true_iff, !Z.leb_le. done. Qed.

(** ** Bytes *)

(** A [u8] is a [Z] in [0, 256); byte strings are lists of them. *)
Abbreviation byte := Z (only parsing).
Abbreviation bytes := (list Z) (only parsing).

Definition is_byte (b : Z) : Prop := 0 ≤ b < 256.
#[export] Instance is_byte_dec b : Decision (is_byte b).
Proof. unfold is_byte. apply _. Defined.

(** [b"..."]: the bytes of an ASCII literal. *)
Definition B (s : string) : list Z :=
  (λ a, Z.of_nat (Ascii.nat_of_ascii a)) <$> String.list_ascii_of_string s.

#[global] Arguments B : simpl never.

(** Reads of a byte slice at a [usize] index that the caller has bounds-checked. *)
Definition byte_at (l : list Z) (i : nat) : Z := default 0 (l !! i).

Definition is_digit (b : Z) : bool := (48 <=? b) && (b <=? 57).

(** [u8::to_ascii_lowercase] and [to_ascii_uppercase]. *)
Definition to_lower (b : Z) : Z := if (65 <=? b) && (b <=? 90) then b + 32 else b.
Definition to_upper (b : Z) : Z := if (97 <=? b) && (b <=? 122) then b - 32 else b.
Definition lowercase (l : list Z) : list Z := to_lower <$> l.
Definition uppercase (l : list Z) : list Z := to_upper <$> l.
Definition eq_ignore_case (a b : list Z) : bool := bool_decide (lowercase a = lowercase b).

(** [slice::starts_with]. *)
Fixpoint starts_with (p l : list Z) : bool :=
  match p, l with
  | [], _ => true
  | _ :: _, [] => false
  | x :: p', y :: l' => (x =? y) && starts_with p' l'
  end.

Lemma starts_with_spec p l : starts_with p l = true ↔ ∃ s, l = p ++ s.
Proof.
  revert l. induction p as [|x p IH]; intros l; simpl.
  - split; [by exists l|done].
  - destruct l as [|y l].
    + split; [done|]. intros [s Hs]. done.
    + rewrite andb_true_iff, Z.eqb_eq, IH. split.
      * intros [-> [s ->]]. by exists s.
      * intros [s Hs]. injection Hs as -> ->. eauto.
Qed.

Lemma starts_with_app p s : starts_with p (p ++ s) = true.
Proof. apply starts_with_spec. eauto. Qed.

(** [iter().position(pred)]. *)
Fixpoint position (f : Z → bool) (l : list Z) : option nat :=
  match l with
  | [] => None
  | x :: l' => if f x then Some 0%nat else S <$> position f l'
  end.

Lemma position_app_hit f l1 x l2 :
  Forall (λ y, f y = false) l1 → f x = true → position f (l1 ++ x :: l2) = Some (length l1).
Proof.
  induction 1 as [|y l1 Hy _ IH]; simpl; intros Hx.
  - by rewrite Hx.
  - by rewrite Hy, IH.
Qed.

Lemma position_Some f l i :
  position f l = Some i →
  ∃ l1 x l2, l = l1 ++ x :: l2 ∧ length l1 = i ∧ f x = true ∧ Forall (λ y, f y = false) l1.
Proof.
  revert i. induction l as [|y l IH]; intros i; simpl; [done|].
  destruct (f y) eqn:Hy.
  - intros [= <-]. exists [], y, l. auto.
  - destruct (position f l) as [j|] eqn:E; simpl; [|done]. intros [= <-].
    destruct (IH j eq_refl) as (l1 & x & l2 & -> & <- & Hx & Hl1).
    exists (y :: l1), x, l2. repeat split; auto.
Qed.

Lemma position_None f l : position f l = None ↔ Forall (λ y, f y = false) l.
Proof.
  induction l as [|y l IH]; simpl; [split; auto|].
  destruct (f y) eqn:Hy.
  - split; [done|]. intros H. inversion H; subst. congruence.
  - destruct (position f l) as [j|]; simpl.
    + split; [done|]. intros H. inversion H; subst. by apply IH in H3.
    + split; auto. intros _. constructor; [done|]. by apply IH.
Qed.

Lemma suffix_cons_cases {A} (u l : list A) x :
  u `suffix_of` x :: l → u = x :: l ∨ u `suffix_of` l.
Proof.
  destruct u as [|y u]; [right; apply suffix_nil|]. apply suffix_cons_inv.
Qed.

(** Filters agree when their predicates agree on the members of the list. *)
Lemma list_filter_ext_elem {A} (P Q : A → Prop) `{!∀ x, Decision (P x), !∀ x, Decision (Q x)} (l : list A) :
  (∀ x, x ∈ l → P x ↔ Q x) → filter P l = filter Q l.
Proof.
  induction l as [|x l IH]; intros Hl; [done|]. rewrite !filter_cons.
  pose proof (Hl x ltac:(left)) as Hx. rewrite IH by (intros; apply Hl; by right).
  destruct (decide (P x)), (decide (Q x)); naive_solver.
Qed.

(** Counting by value is counting by pair when the predicates agree. *)
Lemma length_filter_snd {K A} (P : A → Prop) (Q : K * A → Prop)
    `{!∀ x, Decision (P x), !∀ x, Decision (Q x)} (l : list (K * A)) :
  (∀ k a, (k, a) ∈ l → P a ↔ Q (k, a)) → length (filter P (snd <$> l)) = length (filter Q l).
Proof.
  induction l as [|[k a] l IH]; intros Hl; [done|]. cbn [fmap list_fmap]. rewrite !filter_cons.
  pose proof (Hl k a ltac:(left)) as Hk. specialize (IH ltac:(intros; apply Hl; by right)).
  destruct (decide (P _)), (decide (Q _)); simpl in *; try naive_solver; by f_equal.
Qed.

Lemma map_size_filter_list {K A} `{Countable K} (Q : K * A → Prop) `{!∀ x, Decision (Q x)} (m : gmap K A) :
  size (filter Q m) = length (filter Q (map_to_list m)).
Proof.
  rewrite map_filter_alt, <- length_map_to_list, map_to_list_to_map; [done|].
  eapply sublist_NoDup; [apply (NoDup_fst_map_to_list m)|].
  apply fmap_sublist, sublist_filter.
Qed.

(** Induction on a list read two elements at a time. *)
Lemma list_pair_ind {A} (P : list A → Prop) :
  P [] → (∀ x, P [x]) → (∀ x y l, P l → P (x :: y :: l)) → ∀ l, P l.
Proof.
  intros H0 H1 H2. refine (fix IH l := _). destruct l as [|x [|y l]]; [done|apply H1|apply H2, IH].
Qed.

Lemma as_u64_range z : 0 ≤ as_u64 z < 2 ^ 64.
Proof. apply Z.mod_pos_bound. lia. Qed.
Lemma as_u64_id z : 0 ≤ z < 2 ^ 64 → as_u64 z = z.
Proof. apply Z.mod_small. Qed.
Lemma as_u32_small z : 0 ≤ z < 2 ^ 32 → as_u32 z = z.
Proof. apply Z.mod_small. Qed.
