(* ===== verification/Bytes.v ===== *)
(** * Byte-level encodings of the standard library the program relies on

    Decimal printing ([to_string] of the integer types), [str::parse::<i64>],
    big-endian integers ([to_be_bytes]/[from_be_bytes]) and UTF-8 validation
    with [String::from_utf8_lossy]. *)
From S2P Require Import Prelude.

(** ** Decimal printing *)

Fixpoint dec_loop (fuel : nat) (n : Z) (acc : list Z) : list Z :=
  match fuel with
  | O => acc
  | S fuel =>
      let acc := (48 + n mod 10) :: acc in
      if n <? 10 then acc else dec_loop fuel (n / 10) acc
  end.

Definition dec_fuel (n : Z) : nat := S (Z.to_nat (Z.log2 n)).

(** Digits of a non-negative integer. *)
Definition dec_nat (n : Z) : list Z := dec_loop (dec_fuel n) n [].

(** [n.to_string().into_bytes()] for a signed or unsigned integer. *)
Definition to_dec (n : Z) : list Z :=
  if n <? 0 then 45 :: dec_nat (- n) else dec_nat n.

(** The number a digit string denotes. *)
Definition digits_val (acc : Z) (l : list Z) : Z :=
  fold_left (λ a b, a * 10 + (b - 48)) l acc.

Lemma digits_val_app acc l1 l2 : digits_val acc (l1 ++ l2) = digits_val (digits_val acc l1) l2.
Proof. apply fold_left_app. Qed.

Lemma digits_val_mono l acc :
  0 ≤ acc → Forall (λ b, is_digit b = true) l → acc ≤ digits_val acc l.
Proof.
  intros Hacc Hl. revert acc Hacc. induction Hl as [|b l Hb _ IH]; intros acc Hacc; simpl; [lia|].
  unfold is_digit in Hb. apply andb_true_iff in Hb as [Hb%Z.leb_le _].
  specialize (IH (acc * 10 + (b - 48))). lia.
Qed.

Lemma dec_fuel_step n : 10 ≤ n → (dec_fuel (n / 10) < dec_fuel n)%nat.
Proof.
  intros Hn. unfold dec_fuel.
  assert (Z.log2 (n / 10) < Z.log2 n); [|pose proof (Z.log2_nonneg (n / 10)); lia].
  enough (Z.succ (Z.log2 (n / 10)) ≤ Z.log2 n) by lia.
  rewrite <- Z.log2_double by (apply Z.div_str_pos; lia).
  apply Z.log2_le_mono. pose proof (Z.mul_div_le n 10). lia.
Qed.

Lemma dec_loop_spec fuel n acc :
  0 ≤ n → (dec_fuel n ≤ fuel)%nat →
  ∃ ds, dec_loop fuel n acc = ds ++ acc ∧ ds ≠ [] ∧
        Forall (λ b, is_digit b = true) ds ∧ digits_val 0 ds = n.
Proof.
  revert n acc. induction fuel as [|fuel IH]; intros n acc Hn Hf; [unfold dec_fuel in Hf; lia|].
  simpl. pose proof (Z.mod_pos_bound n 10 ltac:(lia)) as Hm.
  assert (is_digit (48 + n mod 10) = true) as Hd.
  { unfold is_digit. apply andb_true_iff; rewrite !Z.leb_le; lia. }
  destruct (Z.ltb_spec n 10) as [Hlt|Hge].
  - exists [48 + n mod 10]. repeat split; auto. simpl. rewrite Z.mod_small; lia.
  - destruct (IH (n / 10) ((48 + n mod 10) :: acc)) as (ds & -> & Hne & Hds & Hv).
    + apply Z.div_pos; lia.
    + pose proof (dec_fuel_step n Hge). lia.
    + exists (ds ++ [48 + n mod 10]). repeat split.
      * by rewrite <- app_assoc.
      * by destruct ds.
      * apply Forall_app; auto.
      * rewrite digits_val_app, Hv. simpl. pose proof (Z.div_mod n 10). lia.
Qed.

Lemma dec_nat_spec n :
  0 ≤ n → dec_nat n ≠ [] ∧ Forall (λ b, is_digit b = true) (dec_nat n) ∧
          digits_val 0 (dec_nat n) = n.
Proof.
  intros Hn. destruct (dec_loop_spec (dec_fuel n) n [] Hn ltac:(lia)) as (ds & Hd & ?).
  unfold dec_nat. rewrite Hd, app_nil_r. done.
Qed.

Lemma dec_nat_digits n : 0 ≤ n → Forall (λ b, is_digit b = true) (dec_nat n).
Proof. intros. by apply dec_nat_spec. Qed.

Lemma dec_nat_nonempty n : 0 ≤ n → dec_nat n ≠ [].
Proof. intros. by apply dec_nat_spec. Qed.

Lemma dec_nat_inj m n : 0 ≤ m → 0 ≤ n → dec_nat m = dec_nat n → m = n.
Proof.
  intros Hm Hn E. destruct (dec_nat_spec m Hm) as (_ & _ & <-).
  destruct (dec_nat_spec n Hn) as (_ & _ & <-). by rewrite E.
Qed.

Lemma to_dec_nonneg n : 0 ≤ n → to_dec n = dec_nat n.
Proof. intros. unfold to_dec. destruct (Z.ltb_spec n 0); [lia|done]. Qed.

Lemma is_digit_bounds b : is_digit b = true ↔ 48 ≤ b ≤ 57.
Proof. unfold is_digit. rewrite andb_true_iff, !Z.leb_le. done. Qed.

(** A decimal literal never contains the delimiter byte [d] unless it is a digit. *)
Lemma dec_nat_no_byte n d :
  0 ≤ n → is_digit d = false → Forall (λ b, (b =? d) = false) (dec_nat n).
Proof.
  intros Hn Hd. eapply Forall_impl; [by apply dec_nat_digits|].
  intros b Hb. apply Z.eqb_neq. intros ->. simpl in Hb. congruence.
Qed.

Lemma length_dec_loop fuel n acc k :
  0 ≤ n < 10 ^ Z.of_nat (S k) → (length (dec_loop fuel n acc) ≤ S k + length acc)%nat.
Proof.
  revert n acc k. induction fuel as [|fuel IH]; intros n acc k Hn; simpl; [lia|].
  destruct (Z.ltb_spec n 10); [simpl; lia|].
  destruct k as [|k]; [simpl in Hn; lia|].
  specialize (IH (n / 10) ((48 + n mod 10) :: acc) k). simpl length in IH.
  enough (0 ≤ n / 10 < 10 ^ Z.of_nat (S k)) by (specialize (IH ltac:(done)); lia).
  rewrite (Nat2Z.inj_succ (S k)), Z.pow_succ_r in Hn by lia.
  split; [apply Z.div_pos; lia|apply Z.div_lt_upper_bound; lia].
Qed.

(** An [i64] prints in at most twenty bytes. *)
Lemma length_to_dec n : in_i64 n → (length (to_dec n) ≤ 20)%nat.
Proof.
  intros Hn.
  assert (∀ m, 0 ≤ m ≤ 2 ^ 63 → (length (dec_nat m) ≤ 19)%nat) as Hm.
  { intros m Hm. assert (2 ^ 63 < 10 ^ Z.of_nat 19) by done.
    pose proof (length_dec_loop (dec_fuel m) m [] 18 ltac:(lia)) as Hl.
    unfold dec_nat. cbn [length] in Hl. lia. }
  unfold to_dec. destruct (Z.ltb_spec n 0).
  - specialize (Hm (- n)). simpl. width_lia.
  - specialize (Hm n). width_lia.
Qed.

(** Bytes that are neither a digit nor the minus sign do not occur in a printed integer. *)
Lemma to_dec_no_byte n d :
  is_digit d = false → d ≠ 45 → Forall (λ b, b ≠ d) (to_dec n).
Proof.
  intros Hd H45.
  assert (∀ m, 0 ≤ m → Forall (λ b, b ≠ d) (dec_nat m)) as Hm.
  { intros m Hm. eapply Forall_impl; [by apply dec_nat_no_byte|]. intros b. apply Z.eqb_neq. }
  unfold to_dec. destruct (Z.ltb_spec n 0); [constructor; [lia|]|]; apply Hm; lia.
Qed.

(** ** [str::parse::<i64>] *)

Fixpoint parse_digits (neg : bool) (acc : Z) (l : list Z) : option Z :=
  match l with
  | [] => Some acc
  | b :: l' =>
      if is_digit b then
        let m := acc * 10 in
        if in_i64b m then
          let v := if neg then m - (b - 48) else m + (b - 48) in
          if in_i64b v then parse_digits neg v l' else None
        else None
      else None
  end.

Definition i64_from_str (s : list Z) : option Z :=
  match s with
  | [] => None
  | b :: s' =>
      if b =? 43 then match s' with [] => None | _ => parse_digits false 0 s' end
      else if b =? 45 then match s' with [] => None | _ => parse_digits true 0 s' end
      else parse_digits false 0 s
  end.

Lemma parse_digits_range neg acc l v : in_i64 acc → parse_digits neg acc l = Some v → in_i64 v.
Proof.
  revert acc. induction l as [|b l IH]; intros acc Hacc; simpl; [by intros [= <-]|].
  destruct (is_digit b); [|done]. destruct (in_i64b (acc * 10)); [|done].
  destruct (in_i64b _) eqn:Hv; [|done]. apply IH. by apply in_i64b_spec.
Qed.

Lemma parse_digits_pos l acc :
  0 ≤ acc → Forall (λ b, is_digit b = true) l → digits_val acc l ≤ i64_max →
  parse_digits false acc l = Some (digits_val acc l).
Proof.
  intros Hacc Hl. revert acc Hacc. induction Hl as [|b l Hb Hl IH]; intros acc Hacc Hmax; simpl; [done|].
  rewrite Hb. apply is_digit_bounds in Hb. simpl in Hmax.
  pose proof (digits_val_mono l (acc * 10 + (b - 48)) ltac:(lia) Hl).
  rewrite !(proj2 (in_i64b_spec _)) by width_lia. apply IH; [lia|done].
Qed.

Lemma parse_digits_neg l acc :
  0 ≤ acc → Forall (λ b, is_digit b = true) l → digits_val acc l ≤ - i64_min →
  parse_digits true (- acc) l = Some (- digits_val acc l).
Proof.
  intros Hacc Hl. revert acc Hacc. induction Hl as [|b l Hb Hl IH]; intros acc Hacc Hmax; simpl; [done|].
  rewrite Hb. apply is_digit_bounds in Hb. simpl in Hmax.
  pose proof (digits_val_mono l (acc * 10 + (b - 48)) ltac:(lia) Hl).
  rewrite !(proj2 (in_i64b_spec _)) by width_lia.
  replace (- acc * 10 - (b - 48)) with (- (acc * 10 + (b - 48))) by lia. apply IH; [lia|done].
Qed.

(** Printing then parsing an [i64] gives it back, [i64::MIN] included. *)
Lemma i64_from_str_to_dec n : in_i64 n → i64_from_str (to_dec n) = Some n.
Proof.
  intros Hn. unfold to_dec. destruct (Z.ltb_spec n 0).
  - destruct (dec_nat_spec (- n)) as (Hne & Hd & Hv); [lia|]. simpl.
    destruct (dec_nat (- n)) as [|d ds] eqn:E; [done|]. rewrite <- E in *.
    change 0 with (- 0). rewrite parse_digits_neg; [f_equal; lia|lia|done|]. rewrite Hv. width_lia.
  - destruct (dec_nat_spec n) as (Hne & Hd & Hv); [lia|].
    destruct (dec_nat n) as [|d ds] eqn:E; [done|]. pose proof (Forall_inv Hd) as Hd0.
    apply is_digit_bounds in Hd0. unfold i64_from_str.
    destruct (Z.eqb_spec d 43); [lia|]. destruct (Z.eqb_spec d 45); [lia|].
    rewrite <- E in *. rewrite parse_digits_pos; [by f_equal|lia|done|]. rewrite Hv. width_lia.
Qed.

(** ** Big-endian integers *)

Fixpoint be_bytes (n : nat) (z : Z) : list Z :=
  match n with
  | O => []
  | S n' => be_bytes n' (z / 256) ++ [z mod 256]
  end.

Definition from_be (l : list Z) : Z := fold_left (λ a b, a * 256 + b) l 0.

Lemma length_be_bytes n z : length (be_bytes n z) = n.
Proof. revert z. induction n as [|n IH]; intros z; simpl; [done|]. rewrite length_app, IH. simpl. lia. Qed.

Lemma be_bytes_is_byte n z : Forall is_byte (be_bytes n z).
Proof.
  revert z. induction n as [|n IH]; intros z; simpl; [constructor|].
  apply Forall_app; split; [apply IH|]. constructor; [|constructor].
  apply Z.mod_pos_bound; lia.
Qed.

Lemma from_be_be_bytes n z : 0 ≤ z < 256 ^ Z.of_nat n → from_be (be_bytes n z) = z.
Proof.
  unfold from_be. revert z. induction n as [|n IH]; intros z Hz; simpl be_bytes.
  - simpl in *. lia.
  - rewrite fold_left_app. rewrite Nat2Z.inj_succ, Z.pow_succ_r in Hz by lia. rewrite IH.
    + simpl. pose proof (Z.div_mod z 256). lia.
    + split; [apply Z.div_pos; lia|apply Z.div_lt_upper_bound; lia].
Qed.

Lemma be_bytes_from_be l :
  Forall is_byte l → be_bytes (length l) (from_be l) = l ∧ 0 ≤ from_be l.
Proof.
  unfold from_be. induction l as [|b l IH] using rev_ind; intros Hl; [done|].
  apply Forall_app in Hl as [Hl Hb]. apply Forall_cons_1 in Hb as [Hb _]. destruct (IH Hl) as [H1 H2].
  rewrite fold_left_app, length_app, Nat.add_comm. cbn [fold_left length Nat.add be_bytes].
  unfold is_byte in Hb. split; [|lia]. f_equal; [|f_equal].
  - etrans; [|exact H1]. f_equal. rewrite Z.div_add_l, Z.div_small by lia. lia.
  - rewrite Z.add_comm, Z.mod_add, Z.mod_small by lia. done.
Qed.

(** Little-endian integers. *)
Definition le_bytes (n : nat) (z : Z) : list Z := rev (be_bytes n z).
Definition from_le (l : list Z) : Z := from_be (rev l).

Lemma length_le_bytes n z : length (le_bytes n z) = n.
Proof. unfold le_bytes. by rewrite length_rev, length_be_bytes. Qed.

Lemma from_le_le_bytes n z : 0 ≤ z < 256 ^ Z.of_nat n → from_le (le_bytes n z) = z.
Proof. intros H. unfold from_le, le_bytes. rewrite rev_involutive. by apply from_be_be_bytes. Qed.

(** ** UTF-8 *)

Definition in_range (lo hi b : Z) : bool := (lo <=? b) && (b <=? hi).
Definition is_cont (b : Z) : bool := in_range 128 191 b.

(** Expected length of the sequence a leading byte starts ([None]: not a leading byte). *)
Definition utf8_width (b : Z) : option nat :=
  if in_range 0 127 b then Some 1%nat
  else if in_range 194 223 b then Some 2%nat
  else if in_range 224 239 b then Some 3%nat
  else if in_range 240 244 b then Some 4%nat
  else None.

(** Whether [b1] may follow the leading byte [b0] of a multi-byte sequence. *)
Definition second_ok (b0 b1 : Z) : bool :=
  if b0 =? 224 then in_range 160 191 b1
  else if b0 =? 237 then in_range 128 159 b1
  else if b0 =? 240 then in_range 144 191 b1
  else if b0 =? 244 then in_range 128 143 b1
  else is_cont b1.

(** One step of the decoder: the number of bytes of the next sequence and
    whether they are valid; an invalid one is a maximal subpart. *)
Definition utf8_step (l : list Z) : nat * bool :=
  match l with
  | [] => (0%nat, true)
  | b0 :: l1 =>
      match utf8_width b0 with
      | None => (1%nat, false)
      | Some 1%nat => (1%nat, true)
      | Some w =>
          match l1 with
          | b1 :: l2 =>
              if second_ok b0 b1 then
                if (w =? 2)%nat then (2%nat, true) else
                match l2 with
                | b2 :: l3 =>
                    if is_cont b2 then
                      if (w =? 3)%nat then (3%nat, true) else
                      match l3 with
                      | b3 :: _ => if is_cont b3 then (4%nat, true) else (3%nat, false)
                      | [] => (3%nat, false)
                      end
                    else (2%nat, false)
                | [] => (2%nat, false)
                end
              else (1%nat, false)
          | [] => (1%nat, false)
          end
      end
  end.

(** U+FFFD REPLACEMENT CHARACTER. *)
Definition replacement : list Z := [239; 191; 189].

Fixpoint utf8_loop (fuel : nat) (l : list Z) : bool * list Z :=
  match fuel with
  | O => (true, [])
  | S fuel =>
      match l with
      | [] => (true, [])
      | _ =>
          let '(n, ok) := utf8_step l in
          let '(ok', rest) := utf8_loop fuel (drop n l) in
          (ok && ok', (if ok then take n l else replacement) ++ rest)
      end
  end.

(** [std::str::from_utf8(l).is_ok()] and [String::from_utf8_lossy(l)]. *)
Definition utf8_valid (l : list Z) : bool := fst (utf8_loop (length l) l).
Definition from_utf8_lossy (l : list Z) : list Z := snd (utf8_loop (length l) l).

(** [std::str::from_utf8(b).ok()?.parse::<i64>().ok()]. *)
Definition parse_i64 (b : list Z) : option Z := if utf8_valid b then i64_from_str b else None.

Lemma utf8_step_pos b l : (1 ≤ fst (utf8_step (b :: l)) ≤ 4)%nat.
Proof. simpl. repeat case_match; simpl; lia. Qed.

Lemma utf8_loop_fuel fuel1 fuel2 l :
  (length l ≤ fuel1)%nat → (length l ≤ fuel2)%nat → utf8_loop fuel1 l = utf8_loop fuel2 l.
Proof.
  revert fuel2 l. induction fuel1 as [|fuel1 IH]; intros fuel2 l H1 H2.
  - destruct l; [by destruct fuel2|simpl in H1; lia].
  - destruct fuel2 as [|fuel2]; [destruct l; [done|simpl in H2; lia]|].
    destruct l as [|b l]; [done|]. cbn [utf8_loop].
    destruct (utf8_step (b :: l)) as [n ok] eqn:E.
    pose proof (utf8_step_pos b l) as Hn. rewrite E in Hn. simpl in Hn.
    rewrite (IH fuel2) by (rewrite length_drop; simpl in *; lia). done.
Qed.

(** One ASCII byte in front of a string goes through unchanged. *)
Lemma utf8_loop_ascii b l :
  0 ≤ b < 128 →
  utf8_valid (b :: l) = utf8_valid l ∧ from_utf8_lossy (b :: l) = b :: from_utf8_lossy l.
Proof.
  intros Hb. unfold utf8_valid, from_utf8_lossy. cbn [length utf8_loop].
  assert (utf8_step (b :: l) = (1%nat, true)) as ->.
  { simpl. unfold utf8_width, in_range.
    rewrite (proj2 (Z.leb_le 0 b)), (proj2 (Z.leb_le b 127)) by lia. done. }
  simpl. rewrite drop_0. by destruct (utf8_loop (length l) l).
Qed.

Lemma from_utf8_lossy_ascii_app p l :
  Forall (λ b, 0 ≤ b < 128) p → from_utf8_lossy (p ++ l) = p ++ from_utf8_lossy l.
Proof.
  induction 1 as [|b p Hb _ IH]; [done|]. simpl. rewrite (proj2 (utf8_loop_ascii _ _ Hb)). by rewrite IH.
Qed.

Lemma utf8_valid_ascii p : Forall (λ b, 0 ≤ b < 128) p → utf8_valid p = true.
Proof.
  induction 1 as [|b p Hb _ IH]; [done|]. by rewrite (proj1 (utf8_loop_ascii _ _ Hb)).
Qed.

(** The lossy conversion is the identity on valid UTF-8. *)
Lemma from_utf8_lossy_valid l : utf8_valid l = true → from_utf8_lossy l = l.
Proof.
  unfold utf8_valid, from_utf8_lossy.
  remember (length l) as n eqn:Hn. assert (length l ≤ n)%nat as Hle by lia. clear Hn.
  revert l Hle. induction n as [|n IH]; intros l Hle; [destruct l; [done|simpl in *; lia]|].
  destruct l as [|b l]; [done|]. cbn [utf8_loop].
  destruct (utf8_step (b :: l)) as [k ok] eqn:E.
  pose proof (utf8_step_pos b l) as Hk. rewrite E in Hk. simpl in Hk.
  destruct (utf8_loop n (drop k (b :: l))) as [ok' rest] eqn:E2. simpl.
  intros [-> ->]%andb_true_iff.
  specialize (IH (drop k (b :: l))). rewrite E2 in IH. simpl in IH.
  rewrite IH by (try done; rewrite length_drop; simpl in *; lia). apply (take_drop k (b :: l)).
Qed.

(** Printed integers are ASCII, so parsing what [to_string] wrote succeeds. *)
Lemma parse_i64_to_dec n : in_i64 n → parse_i64 (to_dec n) = Some n.
Proof.
  intros Hn. unfold parse_i64. rewrite utf8_valid_ascii; [by apply i64_from_str_to_dec|].
  assert (∀ m, 0 ≤ m → Forall (λ b, 0 ≤ b < 128) (dec_nat m)) as Hd.
  { intros m Hm. eapply Forall_impl; [by apply dec_nat_digits|].
    intros b Hb%is_digit_bounds. simpl. lia. }
  unfold to_dec. destruct (Z.ltb_spec n 0); [constructor; [lia|]|]; apply Hd; lia.
Qed.

Lemma parse_i64_range b n : parse_i64 b = Some n → in_i64 n.
Proof.
  unfold parse_i64, i64_from_str. intros H. repeat case_match; try done;
    (eapply parse_digits_range; [|eassumption]); width_lia.
Qed.

(** ** [str::parse::<usize>] *)

Fixpoint parse_udigits (acc : Z) (l : list Z) : option Z :=
  match l with
  | [] => Some acc
  | b :: l' =>
      if is_digit b then
        let v := acc * 10 + (b - 48) in
        if v <=? u64_max then parse_udigits v l' else None
      else None
  end.

Definition usize_from_str (s : list Z) : option Z :=
  match s with
  | [] => None
  | b :: s' => if b =? 43 then match s' with [] => None | _ => parse_udigits 0 s' end else parse_udigits 0 s
  end.

(** [std::str::from_utf8(b).ok()?.parse::<usize>().ok()]. *)
Definition parse_usize (b : list Z) : option Z := if utf8_valid b then usize_from_str b else None.

Lemma parse_udigits_val l acc :
  0 ≤ acc → Forall (λ b, is_digit b = true) l → digits_val acc l ≤ u64_max →
  parse_udigits acc l = Some (digits_val acc l).
Proof.
  intros Hacc Hl. revert acc Hacc. induction Hl as [|b l Hb Hl IH]; intros acc Hacc Hmax; simpl; [done|].
  rewrite Hb. apply is_digit_bounds in Hb. simpl in Hmax.
  pose proof (digits_val_mono l (acc * 10 + (b - 48)) ltac:(lia) Hl).
  rewrite (proj2 (Z.leb_le _ _)) by lia. apply IH; [lia|done].
Qed.

Lemma usize_from_str_dec n : 0 ≤ n ≤ u64_max → usize_from_str (dec_nat n) = Some n.
Proof.
  intros Hn. pose proof (dec_nat_digits n ltac:(lia)) as Hd. destruct (dec_nat_spec n ltac:(lia)) as (_ & _ & Hv).
  unfold usize_from_str. destruct (dec_nat n) as [|b l] eqn:E; [by destruct (dec_nat_nonempty n ltac:(lia))|].
  pose proof (Forall_inv Hd) as Hb. simpl in Hb. pose proof (proj1 (is_digit_bounds b) Hb).
  destruct (Z.eqb_spec b 43); [lia|]. rewrite (parse_udigits_val (b :: l)); [by rewrite Hv|lia|done|].
  rewrite Hv. lia.
Qed.

Lemma parse_usize_to_dec n : 0 ≤ n ≤ u64_max → parse_usize (to_dec n) = Some n.
Proof.
  intros Hn. rewrite to_dec_nonneg by lia. unfold parse_usize. rewrite utf8_valid_ascii; [by apply usize_from_str_dec|].
  eapply Forall_impl; [apply dec_nat_digits; lia|]. intros b Hb%is_digit_bounds. lia.
Qed.
