(* ===== verification/Float64.v ===== *)
(** * Double-precision numbers

    An [f64] is its bit pattern, a [Z] in the range of a [u64], as [to_bits] and
    [from_bits] convert it. Arithmetic and comparison are those of the standard library's
    specification of IEEE 754 binary64 ([SpecFloat]). [f64_from_str] is [str::parse], which
    rounds to the nearest number, and [f64_display] is [Display], which prints the shortest
    decimal that reads back as the number, without an exponent. Proved: the comparison is
    the comparison of the bit patterns as sign and magnitude. All Rust standard library. *)
From S2P Require Import Prelude Bytes.
From Stdlib Require Import SpecFloat.

(** ** Bit patterns *)

Definition f64_prec : Z := 53.
Definition f64_emax : Z := 1024.
Definition sign_bit : Z := 2 ^ 63.
Definition f64_ok (b : Z) : Prop := 0 ≤ b < 2 ^ 64.

(** The number with sign [s] and the lower 63 bits [a]. *)
Definition sf_of_magnitude (s : bool) (a : Z) : spec_float :=
  let e := a / 2 ^ 52 in
  let m := a mod 2 ^ 52 in
  if e =? 2047 then if m =? 0 then S754_infinity s else S754_nan
  else if e =? 0 then match m with Zpos p => S754_finite s p (-1074) | _ => S754_zero s end
  else S754_finite s (Z.to_pos (m + 2 ^ 52)) (e - 1075).

Definition sf_of_bits (b : Z) : spec_float := sf_of_magnitude (sign_bit <=? b) (b mod sign_bit).

Definition signed (s : bool) (a : Z) : Z := (if s then sign_bit else 0) + a.

(** All NaNs become the quiet one; the range is cut off for numbers that are not in the format. *)
Definition f64_nan : Z := 2047 * 2 ^ 52 + 2 ^ 51.
Definition bits_of_sf (f : spec_float) : Z :=
  as_u64 (match f with
          | S754_zero s => signed s 0
          | S754_infinity s => signed s (2047 * 2 ^ 52)
          | S754_nan => f64_nan
          | S754_finite s m e => signed s ((e + 1074) * 2 ^ 52 + Zpos m)
          end).

Definition f64_zero : Z := 0.
Definition f64_neg_zero : Z := sign_bit.
Definition f64_infinity : Z := 2047 * 2 ^ 52.
Definition f64_neg_infinity : Z := sign_bit + 2047 * 2 ^ 52.

Definition is_nan (b : Z) : bool := match sf_of_bits b with S754_nan => true | _ => false end.
Definition is_infinite (b : Z) : bool := match sf_of_bits b with S754_infinity _ => true | _ => false end.
Definition is_finite (b : Z) : bool := negb (is_nan b) && negb (is_infinite b).

(** ** Arithmetic and comparison *)

Definition f64_add (a b : Z) : Z := bits_of_sf (SFadd f64_prec f64_emax (sf_of_bits a) (sf_of_bits b)).
Definition f64_mul (a b : Z) : Z := bits_of_sf (SFmul f64_prec f64_emax (sf_of_bits a) (sf_of_bits b)).

Definition partial_cmp (a b : Z) : option comparison := SFcompare (sf_of_bits a) (sf_of_bits b).
Definition f64_lt (a b : Z) : bool := match partial_cmp a b with Some Lt => true | _ => false end.
Definition f64_gt (a b : Z) : bool := match partial_cmp a b with Some Gt => true | _ => false end.
Definition f64_le (a b : Z) : bool := match partial_cmp a b with Some (Lt | Eq) => true | _ => false end.
Definition f64_ge (a b : Z) : bool := match partial_cmp a b with Some (Gt | Eq) => true | _ => false end.
Definition f64_eq (a b : Z) : bool := match partial_cmp a b with Some Eq => true | _ => false end.

(** [f64::min] and [f64::max]: a NaN yields to the other number. *)
Definition f64_min (a b : Z) : Z := if is_nan a then b else if f64_lt b a then b else a.
Definition f64_max (a b : Z) : Z := if is_nan a then b else if f64_gt b a then b else a.

Definition f64_sub (a b : Z) : Z := bits_of_sf (SFsub f64_prec f64_emax (sf_of_bits a) (sf_of_bits b)).
Definition f64_div (a b : Z) : Z := bits_of_sf (SFdiv f64_prec f64_emax (sf_of_bits a) (sf_of_bits b)).
Definition f64_sqrt (a : Z) : Z := bits_of_sf (SFsqrt f64_prec f64_emax (sf_of_bits a)).
Definition f64_neg (a : Z) : Z := Z.lxor a sign_bit.

(** [z as f64], and an integral result of a rounding function, which keeps the sign. *)
Definition f64_of_Z (z : Z) : Z := bits_of_sf (binary_normalize f64_prec f64_emax z 0 false).
Definition f64_integral (s : bool) (n : Z) : Z := if n =? 0 then bits_of_sf (S754_zero s) else f64_of_Z (if s then - n else n).

(** [f64::ceil], and [f64::round], which rounds half away from zero. *)
Definition f64_ceil (a : Z) : Z :=
  match sf_of_bits a with
  | S754_finite s m e =>
      if 0 <=? e then a
      else f64_integral s (if s then Zpos m / 2 ^ (- e) else - ((- Zpos m) / 2 ^ (- e)))
  | _ => a
  end.
Definition f64_round (a : Z) : Z :=
  match sf_of_bits a with
  | S754_finite s m e => if 0 <=? e then a else f64_integral s ((2 * Zpos m + 2 ^ (- e)) / (2 * 2 ^ (- e)))
  | _ => a
  end.

(** [a as u64] and [a as u32], which saturate. *)
Definition f64_to_unsigned (max : Z) (a : Z) : Z :=
  match sf_of_bits a with
  | S754_nan | S754_zero _ | S754_finite true _ _ | S754_infinity true => 0
  | S754_infinity false => max
  | S754_finite false m e => Z.min max (if 0 <=? e then Zpos m * 2 ^ e else Zpos m / 2 ^ (- e))
  end.
Definition f64_to_u64 (a : Z) : Z := f64_to_unsigned u64_max a.
Definition f64_to_u32 (a : Z) : Z := f64_to_unsigned u32_max a.

(** [f64::powi], by squaring. *)
Definition f64_one : Z := 1023 * 2 ^ 52.
Fixpoint powi_pos (r a : Z) (n : positive) : Z :=
  match n with
  | xH => f64_mul r a
  | xO n' => powi_pos r (f64_mul a a) n'
  | xI n' => powi_pos (f64_mul r a) (f64_mul a a) n'
  end.
Definition powi (a n : Z) : Z :=
  match n with
  | Z0 => f64_one
  | Zpos p => powi_pos f64_one a p
  | Zneg p => f64_div f64_one (powi_pos f64_one a p)
  end.

(** [Iterator::sum], which starts from negative zero. *)
Definition f64_sum (l : list Z) : Z := fold_left f64_add l f64_neg_zero.

(** ** Reading *)

(** The number [m * 10^e], [m] not negative, rounded to nearest. *)
Definition f64_of_decimal (neg : bool) (m e : Z) : Z :=
  match m * 10 ^ Z.max e 0, 10 ^ Z.max (- e) 0 with
  | Zpos n, Zpos d => bits_of_sf (SFdiv f64_prec f64_emax (S754_finite neg n 0) (S754_finite false d 0))
  | _, _ => bits_of_sf (S754_zero neg)
  end.

Fixpoint take_digits (s : list Z) : list Z * list Z :=
  match s with
  | b :: s' => if is_digit b then let '(ds, r) := take_digits s' in (b :: ds, r) else ([], s)
  | [] => ([], [])
  end.

(** What follows an [e]: an optional sign and digits to the end. *)
Definition parse_exponent (s : list Z) : option Z :=
  let '(neg, s) := match s with
                   | 45 :: s' => (true, s')
                   | 43 :: s' => (false, s')
                   | _ => (false, s)
                   end in
  let '(ds, r) := take_digits s in
  if bool_decide (ds = []) || negb (bool_decide (r = [])) then None
  else Some (if neg then - digits_val 0 ds else digits_val 0 ds).

(** Digits with an optional point, at least one digit, and an optional exponent: the digits
    as a number and the power of ten. *)
Definition parse_number (s : list Z) : option (Z * Z) :=
  let '(ip, r) := take_digits s in
  let '(fp, r) := match r with 46 :: r' => take_digits r' | _ => ([], r) end in
  if bool_decide (ip ++ fp = []) then None
  else
    let m := digits_val 0 (ip ++ fp) in
    let e := - Z.of_nat (length fp) in
    match r with
    | [] => Some (m, e)
    | c :: r' => if (c =? 101) || (c =? 69) then (λ x, (m, e + x)) <$> parse_exponent r' else None
    end.

Definition parse_inf_nan (s : list Z) (neg : bool) : option Z :=
  if bool_decide (lowercase s = B "nan") then Some (if neg then sign_bit + f64_nan else f64_nan)
  else if bool_decide (lowercase s = B "inf") || bool_decide (lowercase s = B "infinity") then
    Some (if neg then f64_neg_infinity else f64_infinity)
  else None.

(** [str::parse::<f64>]. *)
Definition f64_from_str (s : list Z) : option Z :=
  let '(neg, r) := match s with
                   | 45 :: s' => (true, s')
                   | 43 :: s' => (false, s')
                   | _ => (false, s)
                   end in
  match parse_number r with
  | Some (m, e) => Some (f64_of_decimal neg m e)
  | None => parse_inf_nan r neg
  end.

(** ** White space *)

(** The length of a white space character at the head of UTF-8 text, 0 if there is none. *)
Definition white_space (s : list Z) : nat :=
  match s with
  | a :: s1 =>
      if in_range 9 13 a || (a =? 32) then 1%nat
      else match s1 with
           | b :: s2 =>
               if (a =? 194) && ((b =? 133) || (b =? 160)) then 2%nat
               else match s2 with
                    | c :: _ =>
                        if ((a =? 225) && (b =? 154) && (c =? 128)) ||
                           ((a =? 226) && (b =? 128) &&
                              (in_range 128 138 c || (c =? 168) || (c =? 169) || (c =? 175))) ||
                           ((a =? 226) && (b =? 129) && (c =? 159)) ||
                           ((a =? 227) && (b =? 128) && (c =? 128)) then 3%nat
                        else 0%nat
                    | [] => 0%nat
                    end
           | [] => 0%nat
           end
  | [] => 0%nat
  end.

Fixpoint trim_start (fuel : nat) (s : list Z) : list Z :=
  match fuel with
  | O => s
  | S fuel' => match white_space s with O => s | n => trim_start fuel' (drop n s) end
  end.

(** Everything from here on is white space. *)
Definition all_white (s : list Z) : bool := bool_decide (trim_start (length s) s = []).
Fixpoint trim_end (s : list Z) : list Z :=
  match s with
  | [] => []
  | b :: s' => if all_white s then [] else b :: trim_end s'
  end.

(** [str::trim]. *)
Definition trim (s : list Z) : list Z := trim_end (trim_start (length s) s).

(** ** Printing *)

(** [m * 2^e] as a fraction. *)
Definition fraction (m e : Z) : Z * Z := (m * 2 ^ Z.max e 0, 2 ^ Z.max (- e) 0).

(** The largest [q] with [10^q <= n/d], for numbers of the format. *)
Definition floor_log10 (n d : Z) : Z := Z.of_nat (length (dec_nat (n * 10 ^ 400 / d))) - 401.

(** The decimal [c * 10^q] closest to the number among those that read back as it, where
    [10^q] is the place of the last digit. *)
Definition decimal_at (b n d q : Z) : option Z :=
  let num := n * 10 ^ Z.max (- q) 0 in
  let den := d * 10 ^ Z.max q 0 in
  let c := num / den in
  let down := f64_of_decimal false c q =? b in
  let up := f64_of_decimal false (c + 1) q =? b in
  if down && up then Some (if den <=? 2 * (num mod den) then c + 1 else c)
  else if down then Some c
  else if up then Some (c + 1)
  else None.

(** As few digits as possible; 17 are always enough. *)
Fixpoint shortest (fuel : nat) (b n d q : Z) : Z * Z :=
  match fuel with
  | O => (n * 10 ^ Z.max (- q) 0 / (d * 10 ^ Z.max q 0), q)
  | S fuel' =>
      match decimal_at b n d q with
      | Some c => (c, q)
      | None => shortest fuel' b n d (q - 1)
      end
  end.

Fixpoint strip_zeros (fuel : nat) (c q : Z) : Z * Z :=
  match fuel with
  | O => (c, q)
  | S fuel' => if c mod 10 =? 0 then strip_zeros fuel' (c / 10) (q + 1) else (c, q)
  end.

(** Digits and the number of them before the point, without an exponent. *)
Definition place_point (ds : list Z) (k : Z) : list Z :=
  if k <=? 0 then B "0." ++ repeat 48 (Z.to_nat (- k)) ++ ds
  else if k <? Z.of_nat (length ds) then take (Z.to_nat k) ds ++ B "." ++ drop (Z.to_nat k) ds
  else ds ++ repeat 48 (Z.to_nat k - length ds).

Definition display_magnitude (m : positive) (e : Z) : list Z :=
  let '(n, d) := fraction (Zpos m) e in
  let '(c, q) := shortest 17 (bits_of_sf (S754_finite false m e)) n d (floor_log10 n d) in
  let '(c, q) := strip_zeros 17 c q in
  place_point (dec_nat c) (Z.of_nat (length (dec_nat c)) + q).

(** [Display for f64]. *)
Definition f64_display (b : Z) : list Z :=
  match sf_of_bits b with
  | S754_nan => B "NaN"
  | S754_infinity s => (if s then B "-" else []) ++ B "inf"
  | S754_zero s => (if s then B "-" else []) ++ B "0"
  | S754_finite s m e => (if s then B "-" else []) ++ display_magnitude m e
  end.

(** ** Comparison on bit patterns *)

(** A bit pattern as sign and magnitude: both zeros are 0. *)
Definition f64_rank (b : Z) : Z := if sign_bit <=? b then sign_bit - b else b.

(** The exponent and the digits of a finite number that is not zero. *)
Definition f64_exp (a : Z) : Z := Z.max (a / 2 ^ 52) 1 - 1075.
Definition f64_digits (a : Z) : Z := a - (f64_exp a + 1074) * 2 ^ 52.

Definition mag_inf : Z := 2047 * 2 ^ 52.

Lemma mag_fields a :
  0 ≤ a < 2 ^ 63 → 0 ≤ a / 2 ^ 52 < 2048 ∧ 0 ≤ a mod 2 ^ 52 < 2 ^ 52 ∧ a = 2 ^ 52 * (a / 2 ^ 52) + a mod 2 ^ 52.
Proof.
  intros Ha. pose proof (Z.mod_pos_bound a (2 ^ 52) ltac:(lia)). pose proof (Z.div_mod a (2 ^ 52) ltac:(lia)).
  split; [|lia]. split; [apply Z.div_pos; lia|]. apply Z.div_lt_upper_bound; lia.
Qed.

Lemma f64_digits_bounds a :
  0 < a < mag_inf →
  -1074 ≤ f64_exp a ∧ 0 < f64_digits a < 2 ^ 53 ∧ (-1074 < f64_exp a → 2 ^ 52 ≤ f64_digits a).
Proof.
  unfold mag_inf, f64_digits, f64_exp. intros Ha. destruct (mag_fields a ltac:(lia)) as (He & Hm & E).
  set (q := a / 2 ^ 52) in *. set (r := a mod 2 ^ 52) in *.
  destruct (Z.max_spec q 1) as [[Hq ->]|[Hq ->]]; lia.
Qed.

Lemma sf_of_magnitude_spec s a :
  0 ≤ a < 2 ^ 63 →
  (a = 0 ∧ sf_of_magnitude s a = S754_zero s) ∨
  (0 < a < mag_inf ∧ sf_of_magnitude s a = S754_finite s (Z.to_pos (f64_digits a)) (f64_exp a)) ∨
  (a = mag_inf ∧ sf_of_magnitude s a = S754_infinity s) ∨
  (mag_inf < a ∧ sf_of_magnitude s a = S754_nan).
Proof.
  intros Ha. destruct (mag_fields a Ha) as (He & Hm & E). unfold sf_of_magnitude, mag_inf, f64_digits, f64_exp.
  set (q := a / 2 ^ 52) in *. set (r := a mod 2 ^ 52) in *.
  destruct (Z.eqb_spec q 2047) as [Hq|Hq].
  { destruct (Z.eqb_spec r 0) as [Hr|Hr]; [right; right; left|right; right; right]; split; try done; lia. }
  destruct (Z.eqb_spec q 0) as [Hq0|Hq0].
  - destruct r as [|p|p] eqn:Er; [left|right; left|lia].
    + split; [lia|done].
    + split; [lia|]. rewrite Hq0. cbn [Z.max Z.compare]. f_equal. rewrite E, Hq0. done.
  - right. left. split; [lia|]. rewrite Z.max_l by lia. do 2 f_equal. lia.
Qed.

Lemma compare_finite m1 e1 m2 e2 a1 a2 :
  a1 = (e1 + 1074) * 2 ^ 52 + Zpos m1 → a2 = (e2 + 1074) * 2 ^ 52 + Zpos m2 →
  -1074 ≤ e1 → -1074 ≤ e2 → Zpos m1 < 2 ^ 53 → Zpos m2 < 2 ^ 53 →
  (-1074 < e1 → 2 ^ 52 ≤ Zpos m1) → (-1074 < e2 → 2 ^ 52 ≤ Zpos m2) →
  match Z.compare e1 e2 with Lt => Lt | Gt => Gt | Eq => Pos.compare_cont Eq m1 m2 end = Z.compare a1 a2.
Proof.
  intros -> -> H1 H2 B1 B2 L1 L2. destruct (Z.compare_spec e1 e2) as [->|Hlt|Hgt].
  - change (Pos.compare_cont Eq m1 m2) with (Z.compare (Zpos m1) (Zpos m2)).
    destruct (Z.compare_spec (Zpos m1) (Zpos m2)); symmetry; [apply Z.compare_eq_iff|apply Z.compare_lt_iff|apply Z.compare_gt_iff]; lia.
  - symmetry. apply Z.compare_lt_iff. lia.
  - symmetry. apply Z.compare_gt_iff. lia.
Qed.

Lemma is_nan_magnitude b : f64_ok b → is_nan b = (mag_inf <? b mod sign_bit).
Proof.
  intros Hb. unfold is_nan, sf_of_bits.
  destruct (sf_of_magnitude_spec (sign_bit <=? b) (b mod sign_bit)) as [[Ha ->]|[[Ha ->]|[[Ha ->]|[Ha ->]]]].
  - apply Z.mod_pos_bound. unfold sign_bit. lia.
  - rewrite Ha. done.
  - symmetry. apply Z.ltb_ge. lia.
  - rewrite Ha. symmetry. apply Z.ltb_irrefl.
  - symmetry. by apply Z.ltb_lt.
Qed.

Lemma sign_magnitude b : f64_ok b → b mod sign_bit = if sign_bit <=? b then b - sign_bit else b.
Proof.
  unfold f64_ok, sign_bit. intros Hb. destruct (Z.leb_spec (2 ^ 63) b).
  - symmetry. apply (Z.mod_unique_pos _ _ 1); lia.
  - apply Z.mod_small. lia.
Qed.

Lemma f64_rank_magnitude b :
  f64_ok b → f64_rank b = (if sign_bit <=? b then - (b mod sign_bit) else b mod sign_bit).
Proof. intros Hb. rewrite (sign_magnitude b Hb). unfold f64_rank. destruct (sign_bit <=? b); lia. Qed.

Lemma partial_cmp_swap a b : partial_cmp b a = CompOpp <$> partial_cmp a b.
Proof.
  unfold partial_cmp. destruct (sf_of_bits a) as [[]|[]| |[] m1 e1], (sf_of_bits b) as [[]|[]| |[] m2 e2]; try reflexivity; cbn;
    rewrite (Z.compare_antisym e1 e2); destruct (e1 ?= e2); cbn; try reflexivity;
    change (Pos.compare_cont Eq m2 m1) with (m2 ?= m1)%positive; change (Pos.compare_cont Eq m1 m2) with (m1 ?= m2)%positive;
    rewrite (Pos.compare_antisym m1 m2); by destruct (m1 ?= m2)%positive.
Qed.

(** Comparing numbers is comparing ranks. *)
Lemma partial_cmp_rank a b :
  f64_ok a → f64_ok b → is_nan a = false → is_nan b = false →
  partial_cmp a b = Some (Z.compare (f64_rank a) (f64_rank b)).
Proof.
  intros Ha Hb Na Nb. rewrite is_nan_magnitude in Na, Nb by done. apply Z.ltb_ge in Na, Nb.
  rewrite !f64_rank_magnitude by done. unfold partial_cmp, sf_of_bits.
  assert (∀ c, 0 ≤ c mod sign_bit < 2 ^ 63) as Hr by (intros c; apply Z.mod_pos_bound; unfold sign_bit; lia).
  pose proof (Hr a) as Ra. pose proof (Hr b) as Rb.
  set (x := a mod sign_bit) in *. set (y := b mod sign_bit) in *. clearbody x y.
  assert (mag_inf = 9218868437227405312) as Hinf by done.
  destruct (sf_of_magnitude_spec (sign_bit <=? a) x Ra) as [[Hx ->]|[[Hx ->]|[[Hx ->]|[Hx ->]]]]; [| | |lia];
  destruct (sf_of_magnitude_spec (sign_bit <=? b) y Rb) as [[Hy ->]|[[Hy ->]|[[Hy ->]|[Hy ->]]]]; try lia;
  cbn [SFcompare]; f_equal;
  try (destruct (sign_bit <=? a), (sign_bit <=? b); symmetry;
       first [apply Z.compare_eq_iff; lia|apply Z.compare_lt_iff; lia|apply Z.compare_gt_iff; lia]).
  destruct (f64_digits_bounds x Hx) as (E1 & D1 & L1). destruct (f64_digits_bounds y Hy) as (E2 & D2 & L2).
  assert (match Z.compare (f64_exp x) (f64_exp y) with
          | Lt => Lt | Gt => Gt
          | Eq => Pos.compare_cont Eq (Z.to_pos (f64_digits x)) (Z.to_pos (f64_digits y)) end = Z.compare x y) as Hc.
  { apply compare_finite; rewrite ?Z2Pos.id by lia; try lia; unfold f64_digits; lia. }
  destruct (sign_bit <=? a), (sign_bit <=? b).
  - rewrite Z.compare_opp, (Z.compare_antisym x y), <- Hc.
    destruct (Z.compare (f64_exp x) (f64_exp y)); done.
  - symmetry. apply Z.compare_lt_iff. lia.
  - symmetry. apply Z.compare_gt_iff. lia.
  - done.
Qed.

Lemma f64_ok_bits_of f : f64_ok (bits_of_sf f).
Proof. unfold f64_ok, bits_of_sf, as_u64. apply Z.mod_pos_bound. lia. Qed.
Lemma f64_ok_add a b : f64_ok (f64_add a b).
Proof. apply f64_ok_bits_of. Qed.
Lemma f64_ok_mul a b : f64_ok (f64_mul a b).
Proof. apply f64_ok_bits_of. Qed.

Lemma f64_ok_of_decimal neg m e : f64_ok (f64_of_decimal neg m e).
Proof. unfold f64_of_decimal. repeat case_match; apply f64_ok_bits_of. Qed.

Lemma f64_ok_from_str s b : f64_from_str s = Some b → f64_ok b.
Proof.
  unfold f64_from_str. destruct (match s with 45 :: s' => (true, s') | 43 :: s' => (false, s') | _ => (false, s) end) as [neg r].
  destruct (parse_number r) as [[m e]|].
  - intros [= <-]. apply f64_ok_of_decimal.
  - unfold parse_inf_nan. repeat case_match; try done; intros [= <-]; unfold f64_ok; vm_compute; intuition congruence.
Qed.

(** Saturating casts stay within their type. *)
Lemma f64_to_unsigned_range max a : 0 ≤ max → 0 ≤ f64_to_unsigned max a ≤ max.
Proof.
  intros Hmax. unfold f64_to_unsigned. destruct (sf_of_bits a) as [|[]| |[] m e]; try lia.
  assert (0 ≤ (if 0 <=? e then Z.pos m * 2 ^ e else Z.pos m / 2 ^ (- e))); [|lia].
  destruct (Z.leb_spec 0 e); [apply Z.mul_nonneg_nonneg; [lia|apply Z.pow_nonneg; lia]|].
  apply Z.div_pos; [lia|]. apply Z.pow_pos_nonneg; lia.
Qed.

(** A number that is at least one is cast to at least one. *)
Lemma f64_to_unsigned_one max a :
  f64_ok a → 1 ≤ max → is_nan a = false → f64_gt f64_one a = false → 1 ≤ f64_to_unsigned max a.
Proof.
  intros Ha Hmax Hn Hgt. unfold f64_gt in Hgt. rewrite partial_cmp_rank in Hgt by (done || (vm_compute; done)).
  assert (f64_one ≤ a < sign_bit) as Hr.
  { unfold f64_rank in Hgt. change (sign_bit <=? f64_one) with false in Hgt. cbv iota in Hgt.
    unfold f64_ok, sign_bit, f64_one in *. destruct (Z.leb_spec (2 ^ 63) a);
    match type of Hgt with context [?x ?= ?y] => destruct (Z.compare_spec x y) end; try done; lia. }
  unfold f64_to_unsigned. rewrite is_nan_magnitude in Hn by done. rewrite sign_magnitude in Hn by done.
  unfold sf_of_bits. rewrite sign_magnitude by done. rewrite (proj2 (Z.leb_gt _ _)) in * by lia.
  apply Z.ltb_ge in Hn. destruct (sf_of_magnitude_spec false a) as [[Hx ->]|[[Hx ->]|[[Hx ->]|[Hx ->]]]];
    [unfold f64_ok, f64_one, sign_bit in *; lia|unfold f64_one in *; lia| |done|lia].
  assert (1023 ≤ a / 2 ^ 52) as Hq by (apply Z.div_le_lower_bound; unfold f64_one in *; lia).
  pose proof (Z.div_mod a (2 ^ 52) ltac:(lia)) as Hdm. pose proof (Z.mod_pos_bound a (2 ^ 52) ltac:(lia)) as Hmod.
  assert (f64_exp a = a / 2 ^ 52 - 1075) as He by (unfold f64_exp; lia).
  assert (2 ^ 52 ≤ f64_digits a) as Hd by (unfold f64_digits; rewrite He; lia).
  rewrite Z2Pos.id by lia. apply Z.min_glb; [done|]. destruct (Z.leb_spec 0 (f64_exp a)) as [H0|H0].
  - pose proof (Z.pow_pos_nonneg 2 (f64_exp a) ltac:(lia) H0). nia.
  - apply Z.div_le_lower_bound; [apply Z.pow_pos_nonneg; lia|]. rewrite Z.mul_1_r.
    transitivity (2 ^ 52); [apply Z.pow_le_mono_r; lia|done].
Qed.
