(* ===== verification/Rounding.v ===== *)
(** * Rounding of double-precision numbers

    Bounds on the results of the arithmetic of [Float64]: a result is in the format, it is
    not above a number of the format that the exact value is not above, and a value of at
    most half the least positive number becomes zero. These are what the termination of the
    loops over numbers in src/redis/hll.rs rests on. All Rust standard library. *)
From S2P Require Import Prelude Bytes Float64.
From Stdlib Require Import SpecFloat.

#[local] Abbreviation fexp := (fexp f64_prec f64_emax).
#[local] Abbreviation binary_round_aux := (binary_round_aux f64_prec f64_emax).
#[local] Abbreviation binary_normalize := (binary_normalize f64_prec f64_emax).
#[local] Abbreviation shr_fexp := (shr_fexp f64_prec f64_emax).

(** ** Numbers of the format *)

Record canonical (m e : Z) : Prop := {
  cn_digits : 0 < m < 2 ^ 53;
  cn_exp : -1074 ≤ e ≤ 971;
  cn_normal : -1074 < e → 2 ^ 52 ≤ m
}.
Definition sf_ok (f : spec_float) : Prop :=
  match f with S754_finite _ m e => canonical (Zpos m) e | _ => True end.

Lemma fexp_eq x : fexp x = Z.max (x - 53) (-1074).
Proof. done. Qed.

Lemma sf_of_bits_ok b : sf_ok (sf_of_bits b).
Proof.
  unfold sf_of_bits. assert (0 ≤ b mod sign_bit < 2 ^ 63) as Ha by (apply Z.mod_pos_bound; unfold sign_bit; lia).
  destruct (sf_of_magnitude_spec (sign_bit <=? b) _ Ha) as [[_ ->]|[[Hm ->]|[[_ ->]|[_ ->]]]]; try done.
  destruct (f64_digits_bounds _ Hm) as (He & Hd & Hn). cbn [sf_ok]. rewrite Z2Pos.id by lia. split; [done| |done].
  split; [done|]. unfold f64_exp, mag_inf in *.
  assert (b mod sign_bit / 2 ^ 52 < 2047) by (apply Z.div_lt_upper_bound; lia). lia.
Qed.

(** Encoding a number and decoding it again. *)
Lemma sf_bits_id f : sf_ok f → sf_of_bits (bits_of_sf f) = f.
Proof.
  assert (∀ s a, 0 ≤ a < 2 ^ 63 → sf_of_bits (as_u64 (signed s a)) = sf_of_magnitude s a) as H.
  { intros s a Ha. unfold sf_of_bits, signed, as_u64, sign_bit. rewrite Z.mod_small by (destruct s; lia).
    destruct s.
    - destruct (Z.leb_spec (2 ^ 63) (2 ^ 63 + a)); [|lia]. f_equal. symmetry. apply (Z.mod_unique_pos _ _ 1); lia.
    - destruct (Z.leb_spec (2 ^ 63) (0 + a)); [lia|]. f_equal. rewrite Z.mod_small; lia. }
  destruct f as [s|s| |s m e]; intros Hf; unfold bits_of_sf.
  - rewrite H by lia. done.
  - rewrite H by lia. done.
  - done.
  - destruct Hf as [Hm He Hn]. rewrite H by lia. unfold sf_of_magnitude.
    destruct (Z.lt_ge_cases (Zpos m) (2 ^ 52)) as [Hlt|Hge].
    + assert (e = -1074) as -> by lia. replace ((-1074 + 1074) * 2 ^ 52 + Z.pos m) with (Z.pos m) by lia.
      rewrite Z.div_small, Z.mod_small by lia. done.
    + assert (((e + 1074) * 2 ^ 52 + Z.pos m) / 2 ^ 52 = e + 1075) as ->
        by (symmetry; apply (Z.div_unique_pos _ _ _ (Z.pos m - 2 ^ 52)); lia).
      assert (((e + 1074) * 2 ^ 52 + Z.pos m) mod 2 ^ 52 = Z.pos m - 2 ^ 52) as ->
        by (symmetry; apply (Z.mod_unique_pos _ _ (e + 1075)); lia).
      rewrite (proj2 (Z.eqb_neq _ _)), (proj2 (Z.eqb_neq _ _)) by lia. f_equal; lia.
Qed.

(** ** Digits *)
Lemma digits_bounds m : 0 < m → 0 < Zdigits2 m ∧ 2 ^ (Zdigits2 m - 1) ≤ m < 2 ^ Zdigits2 m.
Proof.
  destruct m as [|p|p]; try lia. intros _. cbn [Zdigits2]. split; [lia|].
  assert (∀ q, Zpos (Pos.succ q) - 1 = Zpos q) as Hs by lia.
  induction p as [p IH|p IH|]; cbn [digits2_pos]; [| |done]; rewrite Hs, Pos2Z.inj_succ, Z.pow_succ_r by lia;
    (assert (2 ^ Zpos (digits2_pos p) = 2 * 2 ^ (Zpos (digits2_pos p) - 1)) as E
      by (rewrite <- Z.pow_succ_r by lia; f_equal; lia)); lia.
Qed.

Lemma digits_unique m d : 0 < d → 2 ^ (d - 1) ≤ m < 2 ^ d → Zdigits2 m = d.
Proof.
  intros Hd [H1 H2]. assert (0 < m) as Hm by (assert (0 < 2 ^ (d - 1)) by (apply Z.pow_pos_nonneg; lia); lia).
  destruct (digits_bounds m Hm) as (Hz & H3 & H4).
  assert (d - 1 < Zdigits2 m) by (apply (Z.pow_lt_mono_r_iff 2); lia).
  assert (Zdigits2 m - 1 < d) by (apply (Z.pow_lt_mono_r_iff 2); lia). lia.
Qed.

(** ** Shifting *)

Definition inexact (l : location) : Z := match l with loc_Exact => 0 | _ => 1 end.
Definition sticky (r : shr_record) : Z := if shr_r r || shr_s r then 1 else 0.

Lemma iter_pos_nat {A} (f : A → A) p x : iter_pos f p x = Nat.iter (Pos.to_nat p) f x.
Proof.
  revert x. induction p as [p IH|p IH|]; intros x; cbn [iter_pos]; rewrite ?IH, <- ?Nat.iter_add; [|f_equal; lia|done].
  rewrite Pos2Nat.inj_xI. rewrite <- Nat.iter_succ_r. f_equal. lia.
Qed.

Lemma shr_1_m r : 0 ≤ shr_m r → shr_m (shr_1 r) = shr_m r / 2.
Proof.
  destruct r as [m r s]. cbn [shr_m]. intros Hm. destruct m as [|[p|p|]|]; cbn [shr_1 shr_m]; try lia; try done.
  - apply (Z.div_unique_pos _ _ _ 1); lia.
  - apply (Z.div_unique_pos _ _ _ 0); lia.
Qed.

Lemma shr_1_over r B : 0 ≤ shr_m r → shr_m r + sticky r ≤ 2 * B → shr_m (shr_1 r) + sticky (shr_1 r) ≤ B.
Proof.
  destruct r as [m r s]. unfold sticky. destruct m as [|[p|p|]|]; cbn [shr_1 shr_m shr_r shr_s orb]; destruct r, s; cbn [orb]; lia.
Qed.

Lemma shr_iter_m n r : 0 ≤ shr_m r → shr_m (Nat.iter n shr_1 r) = shr_m r / 2 ^ Z.of_nat n.
Proof.
  intros Hm. induction n as [|n IH]; [by rewrite Z.div_1_r|]. cbn [Nat.iter nat_rect].
  change (nat_rect _ r _ n) with (Nat.iter n shr_1 r).
  rewrite shr_1_m, IH; [|rewrite IH; apply Z.div_pos; lia]. rewrite Nat2Z.inj_succ, Z.pow_succ_r, Z.div_div by lia. f_equal. lia.
Qed.

Lemma shr_iter_over n r B :
  0 ≤ shr_m r → shr_m r + sticky r ≤ B * 2 ^ Z.of_nat n →
  shr_m (Nat.iter n shr_1 r) + sticky (Nat.iter n shr_1 r) ≤ B.
Proof.
  intros Hm. revert B. induction n as [|n IH]; intros B HB; [cbn in *; lia|]. cbn [Nat.iter nat_rect].
  change (nat_rect _ r _ n) with (Nat.iter n shr_1 r).
  apply shr_1_over; [rewrite shr_iter_m by done; apply Z.div_pos; lia|]. apply IH.
  rewrite Nat2Z.inj_succ, Z.pow_succ_r in HB by lia. lia.
Qed.

Lemma round_even_bounds r :
  0 ≤ shr_m r → shr_m r ≤ round_nearest_even (shr_m r) (loc_of_shr_record r) ≤ shr_m r + sticky r.
Proof. destruct r as [m [] []]; unfold sticky; cbn; try case_match; lia. Qed.

(** ** Rounding *)

(** The number [m * 2^e], on a scale on which all exponents are positive. *)
Definition scaled (m e : Z) : Z := m * 2 ^ (e + 3000).

Lemma scaled_shift m e k : 0 ≤ k → -3000 ≤ e → scaled (m * 2 ^ k) e = scaled m (e + k).
Proof. intros Hk He. unfold scaled. rewrite <- Z.mul_assoc, <- Z.pow_add_r by lia. do 2 f_equal. lia. Qed.

Lemma scaled_mono m m' e : m ≤ m' → scaled m e ≤ scaled m' e.
Proof. intros Hm. unfold scaled. apply Z.mul_le_mono_nonneg_r; [|done]. apply Z.pow_nonneg. lia. Qed.

Lemma scaled_le_iff m m' e : -3000 ≤ e → scaled m e ≤ scaled m' e ↔ m ≤ m'.
Proof. intros He. unfold scaled. symmetry. apply Z.mul_le_mono_pos_r. apply Z.pow_pos_nonneg; lia. Qed.

(** What a record of a number that was shifted starts from. *)
Lemma record_of_loc m l : shr_m (shr_record_of_loc m l) = m ∧ sticky (shr_record_of_loc m l) = inexact l.
Proof. destruct l as [|[]]; done. Qed.

Lemma shr_fexp_iter m e l :
  e ≤ fexp (Zdigits2 m + e) →
  shr_fexp m e l = (Nat.iter (Z.to_nat (fexp (Zdigits2 m + e) - e)) shr_1 (shr_record_of_loc m l), fexp (Zdigits2 m + e)).
Proof.
  intros He. unfold SpecFloat.shr_fexp, shr. destruct (fexp (Zdigits2 m + e) - e) as [|p|p] eqn:E; [|rewrite iter_pos_nat|lia].
  - f_equal. lia.
  - f_equal. lia.
Qed.

(** No shift is due. *)
Lemma shr_fexp_none m e l : fexp (Zdigits2 m + e) ≤ e → shr_fexp m e l = (shr_record_of_loc m l, e).
Proof. intros He. unfold SpecFloat.shr_fexp, shr. destruct (fexp (Zdigits2 m + e) - e) as [|p|p] eqn:E; [done|lia|done]. Qed.

(** The digits after rounding, and what is made of them. *)
Lemma round_aux_digits s m e l :
  0 < m → e ≤ fexp (Zdigits2 m + e) →
  let e1 := fexp (Zdigits2 m + e) in
  ∃ m1, m / 2 ^ (e1 - e) ≤ m1 ≤ 2 ^ 53 ∧ (-1074 < e1 → 2 ^ 52 ≤ m1) ∧
    (∀ B, m + inexact l ≤ B * 2 ^ (e1 - e) → m1 ≤ B) ∧
    binary_round_aux s m e l =
      if m1 =? 0 then S754_zero s
      else let '(m2, e2) := if m1 =? 2 ^ 53 then (2 ^ 52, e1 + 1) else (m1, e1) in
           if e2 <=? 971 then S754_finite s (Z.to_pos m2) e2 else S754_infinity s.
Proof.
  intros Hm He e1. destruct (digits_bounds m Hm) as (Hd & Hlo & Hhi). unfold SpecFloat.binary_round_aux.
  rewrite shr_fexp_iter by done. fold e1. destruct (record_of_loc m l) as [Em Es].
  set (n := Z.to_nat (e1 - e)). assert (Z.of_nat n = e1 - e) as En by lia.
  set (r := Nat.iter n shr_1 (shr_record_of_loc m l)).
  assert (shr_m r = m / 2 ^ (e1 - e)) as Er by (unfold r; rewrite shr_iter_m, Em, En by lia; done).
  assert (0 ≤ shr_m r) as Hr by (rewrite Er; apply Z.div_pos; [lia|apply Z.pow_pos_nonneg; lia]).
  pose proof (round_even_bounds r Hr) as Hround. set (m1 := round_nearest_even _ _) in *.
  assert (∀ B, m + inexact l ≤ B * 2 ^ (e1 - e) → m1 ≤ B) as Hup.
  { intros B HB. pose proof (shr_iter_over n (shr_record_of_loc m l) B) as H. fold r in H. rewrite Em, Es, En in H. lia. }
  assert (inexact l ≤ 1) as Hl by (destruct l; cbn; lia).
  assert (m1 ≤ 2 ^ 53) as H53.
  { apply Hup. transitivity (2 ^ Zdigits2 m); [lia|]. rewrite <- Z.pow_add_r by lia. apply Z.pow_le_mono_r; [lia|].
    unfold e1. rewrite fexp_eq. lia. }
  assert (-1074 < e1 → 2 ^ 52 ≤ m1) as H52.
  { intros H. assert (e1 = Zdigits2 m + e - 53) as E1 by (unfold e1 in *; rewrite fexp_eq in *; lia).
    transitivity (m / 2 ^ (e1 - e)); [|lia]. apply Z.div_le_lower_bound; [apply Z.pow_pos_nonneg; lia|].
    rewrite <- Z.pow_add_r by lia. etrans; [|exact Hlo]. apply Z.pow_le_mono_r; lia. }
  exists m1. split; [lia|]. split; [done|]. split; [done|].
  assert (-1074 ≤ e1) as He1 by (unfold e1; rewrite fexp_eq; lia).
  destruct (Z.eqb_spec m1 0) as [->|H0].
  { rewrite shr_fexp_none; [done|]. cbn [Zdigits2]. rewrite fexp_eq. lia. }
  destruct (Z.eqb_spec m1 (2 ^ 53)) as [->|Hne].
  - assert (Zdigits2 (2 ^ 53) = 54) as Hd1 by reflexivity.
    rewrite shr_fexp_iter by (rewrite Hd1, fexp_eq; lia). rewrite Hd1.
    assert (fexp (54 + e1) = e1 + 1) as -> by (rewrite fexp_eq; lia). assert (Z.to_nat (e1 + 1 - e1) = 1%nat) as -> by lia. reflexivity.
  - destruct (digits_bounds m1 ltac:(lia)) as (Hd1 & Hlo1 & Hhi1).
    assert (Zdigits2 m1 ≤ 53) as Hd53.
    { assert (Zdigits2 m1 - 1 < 53); [|lia]. apply (Z.pow_lt_mono_r_iff 2); lia. }
    rewrite shr_fexp_none by (rewrite fexp_eq; lia). cbn [shr_record_of_loc shr_m].
    destruct m1 as [|p|p]; [lia| |lia]. done.
Qed.

(** A result of rounding has the sign it was asked for, is in the format and is not a NaN;
    its exponent is not below the one that the size of the number calls for. *)
Definition rounded (s : bool) (e1 : Z) (f : spec_float) : Prop :=
  match f with
  | S754_zero s' | S754_infinity s' => s' = s
  | S754_finite s' m e => s' = s ∧ canonical (Zpos m) e ∧ e1 ≤ e
  | S754_nan => False
  end.

Lemma round_aux_rounded s m e l :
  0 < m → e ≤ fexp (Zdigits2 m + e) → rounded s (fexp (Zdigits2 m + e)) (binary_round_aux s m e l).
Proof.
  intros Hm He. destruct (round_aux_digits s m e l Hm He) as (m1 & [Hlo Hhi] & H52 & _ & ->).
  set (e1 := fexp (Zdigits2 m + e)) in *. assert (-1074 ≤ e1) as He1 by (unfold e1; rewrite fexp_eq; lia).
  assert (0 ≤ m / 2 ^ (e1 - e)) by (apply Z.div_pos; [lia|apply Z.pow_pos_nonneg; lia]).
  destruct (Z.eqb_spec m1 0) as [->|H0]; [done|]. destruct (Z.eqb_spec m1 (2 ^ 53)) as [->|Hne].
  - destruct (Z.leb_spec (e1 + 1) 971); [|done]. split; [done|]. split; [split|]; rewrite ?Z2Pos.id by lia; lia.
  - destruct (Z.leb_spec e1 971); [|done]. split; [done|]. split; [split|]; rewrite ?Z2Pos.id by lia; lia.
Qed.

(** Not negative and at most [C * 2^g]. *)
Definition upto (C g : Z) (f : spec_float) : Prop :=
  match f with
  | S754_zero false => True
  | S754_finite false m e => canonical (Zpos m) e ∧ scaled (Zpos m) e ≤ scaled C g
  | _ => False
  end.

Lemma round_aux_upto m e l C g :
  0 < m → -3000 ≤ e → e ≤ fexp (Zdigits2 m + e) → 0 < C < 2 ^ 53 → -1074 ≤ g ≤ 970 →
  scaled (m + inexact l) e ≤ scaled C g → upto C g (binary_round_aux false m e l).
Proof.
  intros Hm He3 He HC Hg HB. pose proof (round_aux_rounded false m e l Hm He) as Hr.
  destruct (round_aux_digits false m e l Hm He) as (m1 & [Hlo Hhi] & H52 & Hup & E). rewrite E in Hr |- *. clear E.
  set (e1 := fexp (Zdigits2 m + e)) in *. assert (-1074 ≤ e1) as He1 by (unfold e1; rewrite fexp_eq; lia).
  destruct (digits_bounds m Hm) as (Hd & Hlo' & Hhi').
  assert (0 ≤ inexact l) as Hl by (destruct l; cbn; lia).
  assert (e1 ≤ g) as Heg.
  { assert (Zdigits2 m - 1 + (e + 3000) < 53 + (g + 3000)); [|unfold e1; rewrite fexp_eq; lia].
    apply (Z.pow_lt_mono_r_iff 2); [lia|lia|]. rewrite (Z.pow_add_r 2 (Zdigits2 m - 1)), (Z.pow_add_r 2 53) by lia.
    apply Z.le_lt_trans with (scaled (m + inexact l) e); [unfold scaled; apply Z.mul_le_mono_nonneg_r; lia|].
    eapply Z.le_lt_trans; [exact HB|]. unfold scaled. apply Z.mul_lt_mono_pos_r; [apply Z.pow_pos_nonneg; lia|lia]. }
  assert (m1 ≤ C * 2 ^ (g - e1)) as Hm1.
  { apply Hup. apply (scaled_le_iff _ _ e He3). rewrite <- Z.mul_assoc, <- Z.pow_add_r by lia.
    rewrite scaled_shift by lia. replace (e + (g - e1 + (e1 - e))) with g by lia. exact HB. }
  assert (scaled m1 e1 ≤ scaled C g) as Hs.
  { transitivity (scaled (C * 2 ^ (g - e1)) e1); [by apply scaled_mono|]. rewrite scaled_shift by lia.
    by replace (e1 + (g - e1)) with g by lia. }
  assert (∀ m2 e2, 0 < m2 → scaled m2 e2 = scaled m1 e1 → -1074 ≤ e2 →
    (971 < e2 → 2 ^ 52 ≤ m2) → (if e2 <=? 971 then true else false) = true ∨ False) as Hfin.
  { intros m2 e2 Hm2 Hsc He2 Hbig. destruct (Z.leb_spec e2 971) as [|Hover]; [by left|]. exfalso.
    assert (2 ^ 52 * 2 ^ (e2 + 3000) ≤ scaled C g) as Hb.
    { rewrite <- Hs, <- Hsc. unfold scaled. apply Z.mul_le_mono_nonneg_r; [apply Z.pow_nonneg; lia|auto]. }
    assert (scaled C g < 2 ^ 53 * 2 ^ (g + 3000)) as Hb2.
    { unfold scaled. apply Z.mul_lt_mono_pos_r; [apply Z.pow_pos_nonneg; lia|lia]. }
    rewrite <- !Z.pow_add_r in Hb, Hb2 by lia.
    assert (52 + (e2 + 3000) < 53 + (g + 3000)); [|lia]. apply (Z.pow_lt_mono_r_iff 2); lia. }
  assert (0 ≤ m / 2 ^ (e1 - e)) by (apply Z.div_pos; [lia|apply Z.pow_pos_nonneg; lia]).
  revert Hr. destruct (Z.eqb_spec m1 0) as [_|H0]; [done|]. destruct (Z.eqb_spec m1 (2 ^ 53)) as [E53|Hne]; intros Hr.
  - rewrite E53 in Hs, Hfin. assert (scaled (2 ^ 52) (e1 + 1) = scaled (2 ^ 53) e1) as Hsc by (change (2 ^ 53) with (2 ^ 52 * 2 ^ 1); by rewrite scaled_shift by lia).
    destruct (Hfin (2 ^ 52) (e1 + 1)) as [Hle|[]]; [lia|done|lia|lia|].
    destruct (e1 + 1 <=? 971); [|done]. destruct Hr as (_ & Hc & _). split; [done|]. by rewrite Z2Pos.id, Hsc by lia.
  - destruct (Hfin m1 e1) as [Hle|[]]; [lia|done|lia|intros; apply H52; lia|].
    destruct (e1 <=? 971); [|done]. destruct Hr as (_ & Hc & _). split; [done|]. by rewrite Z2Pos.id by lia.
Qed.

(** Half of the least positive number, or less, is rounded to zero. *)
Lemma round_aux_zero s m e :
  0 < m → -3000 ≤ e → scaled (2 * m) e ≤ scaled 1 (-1074) → binary_round_aux s m e loc_Exact = S754_zero s.
Proof.
  intros Hm He3 HB. destruct (digits_bounds m Hm) as (Hd & Hlo & Hhi).
  assert (Zdigits2 m + e ≤ -1074) as Hde.
  { assert (Zdigits2 m + (e + 3000) ≤ -1074 + 3000); [|lia]. apply (Z.pow_le_mono_r_iff 2); [lia|lia|].
    rewrite Z.pow_add_r by lia. unfold scaled in HB. rewrite Z.mul_1_l in HB. etrans; [|exact HB].
    apply Z.mul_le_mono_nonneg_r; [apply Z.pow_nonneg; lia|].
    replace (Zdigits2 m) with (1 + (Zdigits2 m - 1)) by lia. rewrite Z.pow_add_r by lia. lia. }
  assert (fexp (Zdigits2 m + e) = -1074) as Ef by (rewrite fexp_eq; lia).
  unfold SpecFloat.binary_round_aux. rewrite shr_fexp_iter by lia. rewrite Ef. cbn [shr_record_of_loc].
  destruct (Z.to_nat (-1074 - e)) as [|n] eqn:En; [lia|].
  assert (m ≤ 2 ^ Z.of_nat n) as Hmn.
  { apply (scaled_le_iff _ _ (e + 1)); [lia|]. rewrite <- (Z.mul_1_l (2 ^ Z.of_nat n)), scaled_shift by lia.
    replace (e + 1 + Z.of_nat n) with (-1074) by lia. rewrite <- scaled_shift by lia. by rewrite Z.mul_comm. }
  cbn [Nat.iter nat_rect]. change (nat_rect _ ?r _ n) with (Nat.iter n shr_1 r).
  set (r0 := {| shr_m := m; shr_r := false; shr_s := false |}).
  pose proof (shr_iter_m n r0 ltac:(cbn; lia)) as Er. pose proof (shr_iter_over n r0 1 ltac:(cbn; lia) ltac:(cbn; lia)) as Ho.
  destruct (Nat.iter n shr_1 r0) as [q b1 b2]. unfold sticky in Ho. cbn [shr_m shr_r shr_s r0] in Er, Ho.
  assert (0 ≤ q) as Hq by (rewrite Er; apply Z.div_pos; lia).
  assert (q = 0 ∨ q = 1 ∧ b1 = false ∧ b2 = false) as [->|(-> & -> & ->)].
  { destruct b1, b2; cbn [orb] in Ho; [left; lia..|]. destruct (decide (q = 0)); [by left|right; split; [lia|done]]. }
  - cbn [shr_1 shr_m]. destruct (orb b1 b2); cbn; reflexivity.
  - reflexivity.
Qed.

(** ** Sums *)
Lemma iter_xO m d : Zpos (Pos.iter xO m d) = Zpos m * 2 ^ Zpos d.
Proof.
  induction d as [|d IH] using Pos.peano_ind; [cbn; lia|]. rewrite Pos.iter_succ, Pos2Z.inj_succ, Z.pow_succ_r by lia.
  rewrite Pos2Z.inj_xO, IH. lia.
Qed.

Lemma shl_align_spec m e e' :
  snd (shl_align m e e') = Z.min e e' ∧ Zpos (fst (shl_align m e e')) = Zpos m * 2 ^ (e - Z.min e e').
Proof.
  unfold shl_align. destruct (e' - e) as [|d|d] eqn:E; cbn [fst snd].
  - rewrite Z.min_l, Z.sub_diag by lia. cbn. lia.
  - rewrite Z.min_l, Z.sub_diag by lia. cbn. lia.
  - rewrite Z.min_r, iter_xO by lia. split; [done|]. do 2 f_equal. lia.
Qed.

Lemma digits_shift m k : 0 < m → 0 ≤ k → Zdigits2 (m * 2 ^ k) = Zdigits2 m + k.
Proof.
  intros Hm Hk. destruct (digits_bounds m Hm) as (Hd & Hlo & Hhi). apply digits_unique; [lia|].
  replace (Zdigits2 m + k - 1) with (Zdigits2 m - 1 + k) by lia. rewrite !Z.pow_add_r by lia.
  assert (0 < 2 ^ k) by (apply Z.pow_pos_nonneg; lia). split; [apply Z.mul_le_mono_nonneg_r; lia|apply Z.mul_lt_mono_pos_r; lia].
Qed.

(** Before a sum is rounded its digits are shifted to where they belong. *)
Lemma binary_round_shifts s m e :
  ∃ mz ez, binary_round f64_prec f64_emax s m e = binary_round_aux s mz ez loc_Exact ∧ 0 < mz ∧
    ez ≤ fexp (Zdigits2 mz + ez) ∧ Zdigits2 mz + ez = Zdigits2 (Zpos m) + e ∧ Z.min e (-1074) ≤ ez ≤ e ∧
    mz = Zpos m * 2 ^ (e - ez).
Proof.
  unfold binary_round. destruct (shl_align_spec m e (fexp (Zdigits2 (Zpos m) + e))) as [He Hm].
  change (Zpos (digits2_pos m)) with (Zdigits2 (Zpos m)). set (e1 := fexp (Zdigits2 (Zpos m) + e)) in *.
  destruct (shl_align m e e1) as [mz ez]. cbn [fst snd] in He, Hm. subst ez. exists (Zpos mz), (Z.min e e1).
  assert (Zdigits2 (Zpos mz) + Z.min e e1 = Zdigits2 (Zpos m) + e) as Ed by (rewrite Hm, digits_shift by lia; lia).
  split_and!; [done|lia|rewrite Ed; fold e1; lia|done|unfold e1; rewrite fexp_eq; lia|lia|done].
Qed.

Lemma normalize_rounded m e :
  m ≠ 0 → rounded (m <? 0) (fexp (Zdigits2 m + e)) (binary_normalize m e false).
Proof.
  destruct m as [|p|p]; [done|..]; intros _; cbn [SpecFloat.binary_normalize].
  - destruct (binary_round_shifts false p e) as (mz & ez & -> & Hz & He & Ed & _). rewrite <- Ed. by apply round_aux_rounded.
  - destruct (binary_round_shifts true p e) as (mz & ez & -> & Hz & He & Ed & _).
    change (Zdigits2 (Zneg p)) with (Zdigits2 (Zpos p)). rewrite <- Ed. by apply round_aux_rounded.
Qed.

Lemma normalize_upto m e C g :
  0 ≤ m → -3000 ≤ e → 0 < C < 2 ^ 53 → -1074 ≤ g ≤ 970 → scaled m e ≤ scaled C g →
  upto C g (binary_normalize m e false).
Proof.
  intros Hm He HC Hg Hs. destruct m as [|p|p]; [done| |lia]. cbn [SpecFloat.binary_normalize].
  destruct (binary_round_shifts false p e) as (mz & ez & -> & Hz & Hez & _ & Hr & Em).
  apply round_aux_upto; [done|lia|done|done|done|]. cbn [inexact]. rewrite Z.add_0_r, Em, scaled_shift by lia.
  by replace (ez + (e - ez)) with e by lia.
Qed.

(** ** Operations *)

(** A number that is not a NaN. *)
Definition number (f : spec_float) : Prop := sf_ok f ∧ f ≠ S754_nan.

Lemma upto_number C g f : upto C g f → number f.
Proof. destruct f as [[]|[]| |[] m e]; try done. by intros [H _]. Qed.

Lemma upto_weaken C g C' g' f : upto C g f → scaled C g ≤ scaled C' g' → upto C' g' f.
Proof. destruct f as [[]|[]| |[] m e]; try done. intros [H1 H2] H. split; [done|lia]. Qed.

Lemma rounded_number s e f : rounded s e f → number f.
Proof. destruct f as [s'|s'| |s' m e']; try done. by intros (_ & H & _). Qed.

(** A bounded number has a bounded exponent. *)
Lemma upto_exp m e C g : canonical m e → scaled m e ≤ scaled C g → 0 < C → -3000 ≤ g → scaled C g < scaled 1 53 → e ≤ 0.
Proof.
  intros [Hm He Hn] Hs HC Hg Hlt. destruct (Z.le_gt_cases e 0) as [|Hpos]; [done|]. exfalso.
  assert (scaled (2 ^ 52) e ≤ scaled m e) as H1 by (apply scaled_mono; lia).
  assert (scaled 1 53 ≤ scaled (2 ^ 52) e) as H2; [|lia].
  rewrite <- (Z.mul_1_l (2 ^ 52)), scaled_shift by lia. unfold scaled. rewrite !Z.mul_1_l. apply Z.pow_le_mono_r; lia.
Qed.

(** The exact product. *)
Lemma scaled_mul m1 e1 m2 e2 C1 g1 C2 g2 :
  0 ≤ m1 → 0 ≤ m2 → -1074 ≤ e1 → -1074 ≤ e2 → -1074 ≤ g1 → -1074 ≤ g2 →
  scaled m1 e1 ≤ scaled C1 g1 → scaled m2 e2 ≤ scaled C2 g2 → scaled (m1 * m2) (e1 + e2) ≤ scaled (C1 * C2) (g1 + g2).
Proof.
  intros Hm1 Hm2 He1 He2 Hg1 Hg2 H1 H2. apply (Z.mul_le_mono_pos_r _ _ (2 ^ 3000)); [apply Z.pow_pos_nonneg; lia|].
  assert (∀ a b e f, -1074 ≤ e → -1074 ≤ f → scaled (a * b) (e + f) * 2 ^ 3000 = scaled a e * scaled b f) as Heq.
  { intros a b e f He Hf. unfold scaled. rewrite <- Z.mul_assoc, <- Z.pow_add_r by lia.
    replace (a * 2 ^ (e + 3000) * (b * 2 ^ (f + 3000))) with (a * b * (2 ^ (e + 3000) * 2 ^ (f + 3000))) by lia.
    rewrite <- Z.pow_add_r by lia. do 2 f_equal. lia. }
  rewrite !Heq by done. assert (∀ a e, 0 ≤ a → 0 ≤ scaled a e) as Hpos.
  { intros a e Ha. apply Z.mul_nonneg_nonneg; [done|apply Z.pow_nonneg; lia]. }
  apply Z.mul_le_mono_nonneg; auto.
Qed.

Lemma mul_digits m1 e1 m2 e2 :
  canonical m1 e1 → canonical m2 e2 → e1 ≤ 0 → e2 ≤ 0 → e1 + e2 ≤ fexp (Zdigits2 (m1 * m2) + (e1 + e2)).
Proof.
  intros [H1 E1 N1] [H2 E2 N2] L1 L2. rewrite fexp_eq. destruct (Z.le_gt_cases (e1 + e2) (-1074)) as [|Hgt]; [lia|].
  assert (2 ^ 52 ≤ m1 * m2) as Hbig.
  { specialize (N1 ltac:(lia)). nia. }
  destruct (digits_bounds (m1 * m2) ltac:(lia)) as (Hd & _ & Hhi).
  assert (52 < Zdigits2 (m1 * m2)) by (apply (Z.pow_lt_mono_r_iff 2); lia). lia.
Qed.

Lemma mul_upto x y C1 g1 C2 g2 C g :
  upto C1 g1 x → upto C2 g2 y → 0 < C1 → 0 < C2 → -1074 ≤ g1 → -1074 ≤ g2 →
  scaled C1 g1 < scaled 1 53 → scaled C2 g2 < scaled 1 53 →
  0 < C < 2 ^ 53 → -1074 ≤ g ≤ 970 → scaled (C1 * C2) (g1 + g2) ≤ scaled C g →
  upto C g (SFmul f64_prec f64_emax x y).
Proof.
  destruct x as [[]|[]| |[] m1 e1], y as [[]|[]| |[] m2 e2]; try done.
  intros [K1 S1] [K2 S2] HC1 HC2 Hg1 Hg2 L1 L2 HC Hg HS. cbn [SFmul xorb].
  pose proof (upto_exp _ _ _ _ K1 S1 HC1 ltac:(lia) L1) as E1. pose proof (upto_exp _ _ _ _ K2 S2 HC2 ltac:(lia) L2) as E2.
  pose proof (cn_exp _ _ K1). pose proof (cn_exp _ _ K2).
  rewrite Pos2Z.inj_mul. apply round_aux_upto; [lia|lia|by apply mul_digits|done|done|]. cbn [inexact]. rewrite Z.add_0_r.
  etrans; [|exact HS]. apply scaled_mul; done || lia.
Qed.

Lemma mul_zero x y C1 g1 C2 g2 :
  upto C1 g1 x → upto C2 g2 y → 0 < C1 → 0 < C2 → -1074 ≤ g1 → -1074 ≤ g2 →
  scaled (2 * (C1 * C2)) (g1 + g2) ≤ scaled 1 (-1074) →
  SFmul f64_prec f64_emax x y = S754_zero false.
Proof.
  destruct x as [[]|[]| |[] m1 e1], y as [[]|[]| |[] m2 e2]; try done.
  intros [K1 S1] [K2 S2] HC1 HC2 Hg1 Hg2 HS. cbn [SFmul xorb]. pose proof (cn_exp _ _ K1). pose proof (cn_exp _ _ K2).
  rewrite Pos2Z.inj_mul. apply round_aux_zero; [lia|lia|]. etrans; [|exact HS].
  assert (∀ a e, scaled (2 * a) e = 2 * scaled a e) as H2 by (intros; unfold scaled; lia). rewrite !H2.
  pose proof (scaled_mul (Zpos m1) e1 (Zpos m2) e2 C1 g1 C2 g2 ltac:(lia) ltac:(lia) ltac:(lia) ltac:(lia) ltac:(lia) ltac:(lia) S1 S2). lia.
Qed.

Definition nonneg (f : spec_float) : Prop :=
  match f with
  | S754_zero false | S754_infinity false => True
  | S754_finite false m e => canonical (Zpos m) e
  | _ => False
  end.

Lemma upto_nonneg C g f : upto C g f → nonneg f.
Proof. destruct f as [[]|[]| |[] m e]; try done. by intros []. Qed.
Lemma nonneg_number f : nonneg f → number f.
Proof. by destruct f as [[]|[]| |[] m e]. Qed.

(** Two numbers brought to the same exponent. *)
Lemma aligned m e ez : ez ≤ e → Zpos (fst (shl_align m e ez)) = Zpos m * 2 ^ (e - ez).
Proof. intros He. destruct (shl_align_spec m e ez) as [_ ->]. by rewrite Z.min_r. Qed.
Lemma scaled_aligned m e ez : -3000 ≤ ez → ez ≤ e → scaled (Zpos m * 2 ^ (e - ez)) ez = scaled (Zpos m) e.
Proof. intros H3 He. rewrite scaled_shift by lia. by replace (ez + (e - ez)) with e by lia. Qed.

Lemma add_nonneg x y : nonneg x → nonneg y → nonneg (SFadd f64_prec f64_emax x y).
Proof.
  destruct x as [[]|[]| |[] m1 e1], y as [[]|[]| |[] m2 e2]; try done. intros K1 K2. cbn [SFadd cond_Zopp].
  set (d := _ + _). assert (0 < d) as Hd by (unfold d; lia).
  pose proof (normalize_rounded d (Z.min e1 e2) ltac:(lia)) as H. rewrite (proj2 (Z.ltb_ge d 0)) in H by lia.
  destruct (binary_normalize d (Z.min e1 e2) false) as [s|s| |s m e]; cbn [rounded] in H; [by subst..|done|]. by destruct H as (-> & H & _).
Qed.

(** A number added to itself. *)
Lemma double_upto x g : upto 1 g x → -1074 ≤ g < 970 → upto 1 (g + 1) (SFadd f64_prec f64_emax x x).
Proof.
  destruct x as [[]|[]| |[] m e]; try done. intros [K S] Hg. cbn [SFadd cond_Zopp]. rewrite Z.min_id, aligned by lia.
  pose proof (cn_exp _ _ K). apply normalize_upto; [lia..|]. rewrite Z.sub_diag, Z.pow_0_r, Z.mul_1_r.
  assert (scaled (Zpos m + Zpos m) e = 2 * scaled (Zpos m) e) as -> by (unfold scaled; lia).
  rewrite <- (scaled_shift 1 g 1) by lia. unfold scaled in *. lia.
Qed.

(** A difference that is not negative. *)
Lemma sub_upto m1 e1 m2 e2 C g :
  canonical (Zpos m1) e1 → canonical (Zpos m2) e2 → scaled (Zpos m2) e2 ≤ scaled (Zpos m1) e1 → scaled (Zpos m1) e1 ≤ scaled C g →
  0 < C < 2 ^ 53 → -1074 ≤ g ≤ 970 →
  upto C g (SFsub f64_prec f64_emax (S754_finite false m1 e1) (S754_finite false m2 e2)).
Proof.
  intros K1 K2 Hle Hs HC Hg. cbn [SFsub cond_Zopp]. pose proof (cn_exp _ _ K1). pose proof (cn_exp _ _ K2).
  set (ez := Z.min e1 e2). rewrite !aligned by lia.
  assert (scaled (Zpos m1 * 2 ^ (e1 - ez) - Zpos m2 * 2 ^ (e2 - ez)) ez = scaled (Zpos m1) e1 - scaled (Zpos m2) e2) as Ed.
  { rewrite <- (scaled_aligned m1 e1 ez), <- (scaled_aligned m2 e2 ez) by lia. unfold scaled. lia. }
  assert (0 ≤ Zpos m1 * 2 ^ (e1 - ez) - Zpos m2 * 2 ^ (e2 - ez)) as Hpos.
  { apply (scaled_le_iff 0 _ ez); [lia|]. rewrite Ed. change (scaled 0 ez) with 0. lia. }
  apply normalize_upto; [done|lia|done|done|]. rewrite Ed.
  assert (0 ≤ scaled (Zpos m2) e2) by (apply Z.mul_nonneg_nonneg; [lia|apply Z.pow_nonneg; lia]). lia.
Qed.

Lemma sub_number z C g w : number z → upto C g w → number (SFsub f64_prec f64_emax z w).
Proof.
  intros [Hz Hn] Hw. destruct z as [[]|[]| |s1 m1 e1], w as [[]|[]| |[] m2 e2]; try done.
  - split; [apply Hw|done].
  - split; [apply Hw|done].
  - cbn [SFsub]. set (d := _ - _). destruct (decide (d = 0)) as [->|Hd]; [done|]. eapply rounded_number, normalize_rounded, Hd.
Qed.

(** Taking away zero changes nothing, as far as a comparison shows. *)
Lemma compare_self f : number f → SFcompare f f = Some Eq.
Proof.
  intros [_ Hn]. destruct f as [s|[]| |[] m e]; try done; cbn [SFcompare]; rewrite Z.compare_refl;
    change (Pos.compare_cont Eq m m) with (Pos.compare m m); by rewrite Pos.compare_refl.
Qed.
Lemma sub_zero z : number z → SFcompare z (SFsub f64_prec f64_emax z (S754_zero false)) = Some Eq.
Proof. intros Hz. destruct z as [[]|[]| |s m e]; try done; try (by destruct Hz). by apply compare_self. Qed.
Lemma add_zero z : nonneg z → SFadd f64_prec f64_emax z (S754_zero false) = z.
Proof. by destruct z as [[]|[]| |[] m e]. Qed.

(** The root of a number between 0 and 1. *)
Lemma sqrt_upto x : upto 1 0 x → upto 1 0 (SFsqrt f64_prec f64_emax x).
Proof.
  destruct x as [[]|[]| |[] m e]; try done. intros [K S]. cbn [SFsqrt]. unfold SFsqrt_core_binary.
  destruct (digits_bounds (Zpos m) ltac:(lia)) as (Hd & Hlo & Hhi). set (d := Zdigits2 (Zpos m)) in *.
  rewrite !Z.div2_div. set (h := (d + e + 1) / 2). set (e' := Z.min (fexp h) (e / 2)).
  pose proof (cn_exp _ _ K) as He. assert (d + e ≤ 1) as Hde.
  { assert (d - 1 + (e + 3000) ≤ 3000); [|lia]. apply (Z.pow_le_mono_r_iff 2); [lia|lia|]. rewrite Z.pow_add_r by lia.
    unfold scaled in S. rewrite Z.mul_1_l in S. cbn [Z.add] in S. etrans; [|exact S]. apply Z.mul_le_mono_nonneg_r; [apply Z.pow_nonneg; lia|done]. }
  assert (2 * (e / 2) ≤ e < 2 * (e / 2) + 2) as Hdiv by (pose proof (Z.div_mod e 2 ltac:(lia)); pose proof (Z.mod_pos_bound e 2 ltac:(lia)); lia).
  assert (2 * h ≤ d + e + 1 < 2 * h + 2) as Hh by (unfold h; pose proof (Z.div_mod (d + e + 1) 2 ltac:(lia)); pose proof (Z.mod_pos_bound (d + e + 1) 2 ltac:(lia)); lia).
  assert (-1100 ≤ e' ≤ -1) as He' by (unfold e'; rewrite fexp_eq; lia).
  set (sh := e - 2 * e'). assert (0 ≤ sh) as Hsh by (unfold sh, e'; lia).
  assert ((match sh with Z0 => Zpos m | Zpos _ => Z.shiftl (Zpos m) sh | Zneg _ => 0 end) = Zpos m * 2 ^ sh) as ->.
  { destruct sh as [|p|p]; [lia|by rewrite Z.shiftl_mul_pow2 by lia|lia]. }
  assert (0 < 2 ^ sh) as Hp by (apply Z.pow_pos_nonneg; lia).
  pose proof (Z.sqrtrem_spec (Zpos m * 2 ^ sh) ltac:(lia)) as Hq.
  destruct (Z.sqrtrem (Zpos m * 2 ^ sh)) as [q r]. destruct Hq as [Eq Hr].
  assert (2 ^ (d + sh - 1) ≤ q * q + r < 2 ^ (d + sh)) as [HL HH].
  { rewrite <- Eq. replace (d + sh - 1) with (d - 1 + sh) by lia. rewrite !Z.pow_add_r by lia.
    split; [apply Z.mul_le_mono_nonneg_r; lia|apply Z.mul_lt_mono_pos_r; lia]. }
  assert (0 ≤ d + sh - 1) as Hds by lia.
  assert (0 < q) as Hq0 by (assert (0 < 2 ^ (d + sh - 1)) by (apply Z.pow_pos_nonneg; lia); nia).
  assert (Zdigits2 q = h - e') as Hdq.
  { destruct (digits_bounds q Hq0) as (Hdq & H1 & H2).
    assert (2 ^ (2 * (Zdigits2 q - 1)) < 2 ^ (d + sh)) as HA.
    { rewrite Z.mul_comm, Z.pow_mul_r by lia. nia. }
    assert (2 ^ (d + sh - 1) < 2 ^ (2 * Zdigits2 q)) as HB.
    { rewrite (Z.mul_comm 2), Z.pow_mul_r by lia. nia. }
    apply Z.pow_lt_mono_r_iff in HA, HB; lia. }
  apply round_aux_upto; [done|lia|rewrite Hdq; replace (h - e' + e') with h by lia; unfold e'; lia|lia|lia|].
  assert (Zpos m * 2 ^ sh ≤ 2 ^ (- (2 * e'))) as Hone.
  { apply (scaled_le_iff _ _ (2 * e')); [lia|]. rewrite scaled_shift by lia. rewrite <- (Z.mul_1_l (2 ^ _)), scaled_shift by lia.
    replace (2 * e' + sh) with e by lia. by replace (2 * e' + - (2 * e')) with 0 by lia. }
  assert (2 ^ (- (2 * e')) = 2 ^ (- e') * 2 ^ (- e')) as Hsq by (rewrite <- Z.pow_add_r by lia; f_equal; lia).
  assert (0 < 2 ^ (- e')) by (apply Z.pow_pos_nonneg; lia).
  assert (q + inexact (if r =? 0 then loc_Exact else loc_Inexact (if r <=? q then Lt else Gt)) ≤ 2 ^ (- e')) as Hover.
  { destruct (Z.eqb_spec r 0); cbn [inexact]; nia. }
  etrans; [apply scaled_mono, Hover|]. rewrite <- (Z.mul_1_l (2 ^ _)), scaled_shift by lia. by rewrite Z.add_opp_diag_r.
Qed.

(** An integer as a number. *)
Lemma of_Z_upto k : 0 ≤ k < 2 ^ 53 → upto (Z.max k 1) 0 (binary_normalize k 0 false).
Proof. intros Hk. apply normalize_upto; [lia..|]. apply scaled_mono. lia. Qed.

(** Numbers that are not tiny: the exponent is at least [k]. *)
Definition moderate (k : Z) (f : spec_float) : Prop := match f with S754_finite _ _ e => k ≤ e | _ => True end.

Lemma moderate_weaken k k' f : moderate k f → k' ≤ k → moderate k' f.
Proof. destruct f; cbn [moderate]; lia. Qed.

Lemma normalize_moderate m e : moderate (e - 52) (binary_normalize m e false).
Proof.
  destruct (decide (m = 0)) as [->|Hm]; [done|]. pose proof (normalize_rounded m e Hm) as H.
  assert (0 < Zdigits2 m) as Hd by (destruct m; [done|cbn; lia..]). rewrite fexp_eq in H.
  destruct (binary_normalize m e false) as [| | |s m' e']; cbn [rounded moderate] in *; [done..|]. destruct H as (_ & _ & H). lia.
Qed.

(** Division by 2^14. *)
Lemma div_upto x C g :
  upto C g x → moderate (-1000) x → 0 < C < 2 ^ 53 → -1000 ≤ g ≤ 970 →
  upto C (g - 14) (SFdiv f64_prec f64_emax x (S754_finite false (2 ^ 52)%positive (-38))).
Proof.
  destruct x as [[]|[]| |[] m e]; try done. intros [K S] Hmod HC Hg. cbn [moderate] in Hmod. cbn [SFdiv xorb]. unfold SFdiv_core_binary.
  destruct (digits_bounds (Zpos m) ltac:(lia)) as (Hd & Hlo & Hhi). set (d := Zdigits2 (Zpos m)) in *.
  pose proof (cn_exp _ _ K) as He. pose proof (cn_digits _ _ K) as Hm.
  assert (d ≤ 53) as Hd53 by (assert (d - 1 < 53); [apply (Z.pow_lt_mono_r_iff 2); lia|lia]).
  change (Zdigits2 (Z.pos (2 ^ 52))) with 53. replace (d + e - (53 + -38)) with (d + e - 15) by lia.
  replace (e - -38) with (e + 38) by lia. set (e' := Z.min (fexp (d + e - 15)) (e + 38)).
  assert (e' = fexp (d + e - 15) ∧ -1074 ≤ e' ≤ e - 14) as [Ee He'] by (unfold e'; rewrite fexp_eq; lia).
  set (sh := e + 38 - e'). assert (52 ≤ sh) as Hsh by lia.
  assert ((match sh with Z0 => Zpos m | Zpos _ => Z.shiftl (Zpos m) sh | Zneg _ => 0 end) = Zpos m * 2 ^ (sh - 52) * 2 ^ 52) as ->.
  { rewrite <- Z.mul_assoc, <- Z.pow_add_r by lia. replace (sh - 52 + 52) with sh by lia.
    destruct sh as [|p|p]; [lia|by rewrite Z.shiftl_mul_pow2 by lia|lia]. }
  set (q := Zpos m * 2 ^ (sh - 52)). assert (0 < 2 ^ (sh - 52)) by (apply Z.pow_pos_nonneg; lia).
  assert (Z.div_eucl (q * 2 ^ 52) (Z.pos (2 ^ 52)) = (q, 0)) as ->.
  { change (Z.pos (2 ^ 52)) with (2 ^ 52). rewrite (surjective_pairing (Z.div_eucl _ _)).
    change (fst (Z.div_eucl ?a ?b)) with (a / b). change (snd (Z.div_eucl ?a ?b)) with (a mod b).
    rewrite Z.div_mul, Z.mod_mul by lia. done. }
  change (new_location (Z.pos (2 ^ 52)) 0) with loc_Exact.
  apply round_aux_upto; [unfold q; lia|lia| |lia|lia|].
  - unfold q. rewrite digits_shift by lia. fold d. rewrite !fexp_eq in *. lia.
  - cbn [inexact]. rewrite Z.add_0_r. unfold q. rewrite scaled_shift by lia. replace (e' + (sh - 52)) with (e - 14) by lia.
    apply (Z.mul_le_mono_pos_r _ _ (2 ^ 14)); [lia|].
    assert (∀ a x, -2900 ≤ x → scaled a (x - 14) * 2 ^ 14 = scaled a x) as Hx.
    { intros a x Hx. unfold scaled. rewrite <- Z.mul_assoc, <- Z.pow_add_r by lia. do 2 f_equal. lia. }
    rewrite !Hx by lia. exact S.
Qed.
