(* ===== verification/Resp.v ===== *)
(** * RESP wire format: src/redis/resp.rs

    The stateful frame decoder ([RespDecoder], its loop [decode] and the array
    stack handled by [deliver]), the encoder and the line and integer readers.
    Proved: the decoder's loop terminates and obeys its one-step equation, it
    inverts the encoder, splitting the input over several reads never changes
    what is decoded, and declared sizes and the receive buffer stay bounded. *)
From S2P Require Import Prelude Bytes.

(** ** Data *)

Inductive RespError : Type :=
| Protocol (msg : list Z).

Inductive RespValue : Type :=
| SimpleString (s : list Z)
| Error (e : list Z)
| Integer (n : Z)
| BulkString (b : option (list Z))
| Array (items : option (list RespValue)).

Record ArrayFrame : Type := mkFrame {
  remaining : Z;
  elements : list RespValue
}.

(** The stack's head is the innermost array (the [last] of the [Vec]). *)
Record RespDecoder : Type := mkDecoder {
  max_bulk_len : Z;
  max_array_len : Z;
  max_depth : Z;
  stack : list ArrayFrame;
  pending_bulk_len : option Z
}.

Definition DEFAULT_MAX_BULK_LEN : Z := 128 * 1024 * 1024.
Definition DEFAULT_MAX_ARRAY_LEN : Z := 1024 * 1024.
Definition DEFAULT_MAX_DEPTH : Z := 64.

Definition with_limits (bulk array depth : Z) : RespDecoder :=
  mkDecoder bulk array depth [] None.

Definition default_decoder : RespDecoder :=
  with_limits DEFAULT_MAX_BULK_LEN DEFAULT_MAX_ARRAY_LEN DEFAULT_MAX_DEPTH.

Definition set_stack (d : RespDecoder) (st : list ArrayFrame) : RespDecoder :=
  mkDecoder (max_bulk_len d) (max_array_len d) (max_depth d) st (pending_bulk_len d).
Definition set_pending (d : RespDecoder) (p : option Z) : RespDecoder :=
  mkDecoder (max_bulk_len d) (max_array_len d) (max_depth d) (stack d) p.

Definition CR : Z := 13.
Definition LF : Z := 10.
Definition CRLF : list Z := [CR; LF].

(** ** Lines and integers *)

Fixpoint find_crlf (src : list Z) : option nat :=
  match src with
  | [] => None
  | a :: src' =>
      match src' with
      | [] => None
      | b :: _ => if (a =? CR) && (b =? LF) then Some 0%nat else S <$> find_crlf src'
      end
  end.

Definition protocol {A} (msg : list Z) : result A RespError := Err (Protocol msg).

Definition read_line (src : list Z) (max_len : Z) : result (option (nat * nat)) RespError :=
  match find_crlf src with
  | None =>
      if max_len <=? Z.of_nat (length src) then protocol (B "line exceeds maximum length")
      else Ok None
  | Some crlf =>
      let content_len := (crlf - 1)%nat in
      if max_len <? Z.of_nat content_len then protocol (B "line exceeds maximum length")
      else Ok (Some (content_len, (crlf + 2)%nat))
  end.

(** [{b:#04x}] *)
Definition hex_digit (n : Z) : Z := if n <? 10 then 48 + n else 87 + n.
Definition hex_byte (b : Z) : list Z := B "0x" ++ [hex_digit (b / 16); hex_digit (b mod 16)].

Fixpoint parse_int_loop (value : Z) (buf : list Z) : result Z RespError :=
  match buf with
  | [] => Ok value
  | b :: buf' =>
      if negb (is_digit b) then
        protocol (B "invalid integer: unexpected byte " ++ hex_byte b)
      else
        let m := value * 10 in
        if in_i64b m then
          let v := m + (b - 48) in
          if in_i64b v then parse_int_loop v buf'
          else protocol (B "integer out of range")
        else protocol (B "integer out of range")
  end.

Definition parse_int (buf : list Z) : result Z RespError :=
  let negative := match buf with b :: _ => b =? 45 | [] => false end in
  let digits := if negative then tail buf else buf in
  match digits with
  | [] => protocol (B "invalid integer: no digits")
  | _ =>
      match parse_int_loop 0 digits with
      | Ok value => Ok (if negative then - value else value)
      | Err e => Err e
      end
  end.

(** ** Decoder *)

(** Routes a completed value to the innermost open array; closing an array
    hands the array itself to the next one. *)
Fixpoint deliver (st : list ArrayFrame) (value : RespValue)
  : option RespValue * list ArrayFrame :=
  match st with
  | [] => (Some value, [])
  | top :: rest =>
      let top := mkFrame (remaining top - 1) (elements top ++ [value]) in
      if remaining top =? 0 then deliver rest (Array (Some (elements top)))
      else (None, top :: rest)
  end.

(** One turn of the decoding loop either returns or goes round again. *)
Inductive turn : Type :=
| Return (r : result (option RespValue) RespError)
| Continue.

Definition deliver_turn (d : RespDecoder) (v : RespValue) : turn * RespDecoder :=
  match deliver (stack d) v with
  | (Some v', st) => (Return (Ok (Some v')), set_stack d st)
  | (None, st) => (Continue, set_stack d st)
  end.

(** The [pending_bulk_len] branch: the payload of an announced bulk string. *)
Definition decode_pending (d : RespDecoder) (len : Z) (src : list Z)
  : turn * RespDecoder * list Z :=
  let d0 := set_pending d None in
  if Z.of_nat (length src) <? len + 2 then (Return (Ok None), set_pending d0 (Some len), src)
  else
    let n := Z.to_nat len in
    if negb (starts_with CRLF (take 2 (drop n src))) then
      (Return (protocol (B "bulk string payload not followed by CRLF")), d0, src)
    else
      let '(t, d1) := deliver_turn d0 (BulkString (Some (take n src))) in
      (t, d1, drop (n + 2) src).

(** [b'+'] and [b'-']: the line itself is the value. *)
Definition decode_line (mk : list Z → RespValue) (d : RespDecoder) (src : list Z)
  : turn * RespDecoder * list Z :=
  match read_line src (max_bulk_len d) with
  | Err e => (Return (Err e), d, src)
  | Ok None => (Return (Ok None), d, src)
  | Ok (Some (clen, consumed)) =>
      let value := mk (take clen (drop 1 src)) in
      let '(t, d1) := deliver_turn d value in
      (t, d1, drop consumed src)
  end.

(** [b':'], [b'$'] and [b'*']: the line is an integer, handled by [k] once the
    line has been consumed. *)
Definition decode_int_line (d : RespDecoder) (src : list Z)
    (k : Z → turn * RespDecoder) : turn * RespDecoder * list Z :=
  match read_line src (max_bulk_len d) with
  | Err e => (Return (Err e), d, src)
  | Ok None => (Return (Ok None), d, src)
  | Ok (Some (clen, consumed)) =>
      match parse_int (take clen (drop 1 src)) with
      | Err e => (Return (Err e), d, src)
      | Ok declared => let '(t, d1) := k declared in (t, d1, drop consumed src)
      end
  end.

Definition decode_bulk_header (d : RespDecoder) (declared : Z) : turn * RespDecoder :=
  if declared <? -1 then
    (Return (protocol (B "invalid bulk string length " ++ to_dec declared)), d)
  else if declared =? -1 then deliver_turn d (BulkString None)
  else if max_bulk_len d <? declared then
    (Return (protocol (B "bulk string length " ++ to_dec declared ++
       B " exceeds configured maximum " ++ to_dec (max_bulk_len d))), d)
  else (Continue, set_pending d (Some declared)).

Definition decode_array_header (d : RespDecoder) (declared : Z) : turn * RespDecoder :=
  if declared <? -1 then
    (Return (protocol (B "invalid array length " ++ to_dec declared)), d)
  else if declared =? -1 then deliver_turn d (Array None)
  else if max_array_len d <? declared then
    (Return (protocol (B "array length " ++ to_dec declared ++
       B " exceeds configured maximum " ++ to_dec (max_array_len d))), d)
  else if declared =? 0 then deliver_turn d (Array (Some []))
  else if max_depth d <=? Z.of_nat (length (stack d)) then
    (Return (protocol (B "maximum array nesting depth exceeded")), d)
  else (Continue, set_stack d (mkFrame declared [] :: stack d)).

(** The body of the [loop] in [Decoder::decode]. *)
Definition decode_turn (d : RespDecoder) (src : list Z) : turn * RespDecoder * list Z :=
  match pending_bulk_len d with
  | Some len => decode_pending d len src
  | None =>
      match src with
      | [] => (Return (Ok None), d, src)
      | b :: _ =>
          if b =? 43 then decode_line SimpleString d src
          else if b =? 45 then decode_line Error d src
          else if b =? 58 then decode_int_line d src (λ n, deliver_turn d (Integer n))
          else if b =? 36 then decode_int_line d src (decode_bulk_header d)
          else if b =? 42 then decode_int_line d src (decode_array_header d)
          else (Return (protocol (B "unexpected type byte " ++ hex_byte b)), d, src)
      end
  end.

(** [None] is running out of fuel. *)
Fixpoint decode_loop (fuel : nat) (d : RespDecoder) (src : list Z)
  : option (result (option RespValue) RespError * RespDecoder * list Z) :=
  match fuel with
  | O => None
  | S fuel =>
      match decode_turn d src with
      | (Return r, d', src') => Some (r, d', src')
      | (Continue, d', src') => decode_loop fuel d' src'
      end
  end.

(** Every turn that goes round again consumes at least one byte. *)
Definition decode (d : RespDecoder) (src : list Z)
  : option (result (option RespValue) RespError * RespDecoder * list Z) :=
  decode_loop (S (length src)) d src.

(** ** Encoder *)

Fixpoint encode_value (v : RespValue) : list Z :=
  match v with
  | SimpleString s => B "+" ++ s ++ CRLF
  | Error e => B "-" ++ e ++ CRLF
  | Integer n => B ":" ++ to_dec n ++ CRLF
  | BulkString (Some b) => B "$" ++ to_dec (Z.of_nat (length b)) ++ CRLF ++ b ++ CRLF
  | BulkString None => B "$-1" ++ CRLF
  | Array (Some items) =>
      B "*" ++ to_dec (Z.of_nat (length items)) ++ CRLF ++ concat (encode_value <$> items)
  | Array None => B "*-1" ++ CRLF
  end.

Definition ok_resp : RespValue := SimpleString (B "OK").

(** ** Progress of the loop *)
Lemma find_crlf_cons a b l :
  find_crlf (a :: b :: l) =
    if (a =? CR) && (b =? LF) then Some 0%nat else S <$> find_crlf (b :: l).
Proof. reflexivity. Qed.

Lemma find_crlf_lt src i : find_crlf src = Some i → (i + 2 ≤ length src)%nat.
Proof.
  revert i. induction src as [|a [|b src] IH]; intros i; [done..|].
  rewrite find_crlf_cons. destruct (_ && _).
  - intros [= <-]. simpl. lia.
  - destruct (find_crlf (b :: src)) as [j|]; simpl; [|done]. intros [= <-].
    specialize (IH j eq_refl). simpl in *. lia.
Qed.

Lemma find_crlf_app src more i : find_crlf src = Some i → find_crlf (src ++ more) = Some i.
Proof.
  revert i. induction src as [|a [|b src] IH]; intros i; [done..|].
  simpl app. rewrite !find_crlf_cons. destruct (_ && _); [done|].
  destruct (find_crlf (b :: src)) as [j|]; [|done]. intros Hi.
  specialize (IH j eq_refl). simpl app in IH. by rewrite IH.
Qed.

(** A line without CR LF is found whole by the scan. *)
Lemma find_crlf_line s rest : find_crlf s = None →
  find_crlf (s ++ CRLF ++ rest) = Some (length s).
Proof.
  induction s as [|a s IH]; intros Hs; [done|].
  destruct s as [|b s].
  - simpl. destruct (a =? CR); reflexivity.
  - rewrite find_crlf_cons in Hs. destruct (_ && _) eqn:E; [done|].
    destruct (find_crlf (b :: s)) as [j|]; [done|]. specialize (IH eq_refl).
    simpl app in *. rewrite find_crlf_cons, E, IH. done.
Qed.

Lemma read_line_consumed src m c k :
  read_line src m = Ok (Some (c, k)) →
  find_crlf src = Some (k - 2)%nat ∧ (2 ≤ k ≤ length src)%nat ∧ c = (k - 3)%nat ∧ Z.of_nat c ≤ m.
Proof.
  unfold read_line. destruct (find_crlf src) as [i|] eqn:E.
  - apply find_crlf_lt in E as Hi. destruct (Z.ltb_spec m (Z.of_nat (i - 1))); [done|].
    intros [= <- <-]. repeat split; try lia. f_equal. lia.
  - by destruct (_ <=? _).
Qed.

Lemma read_line_app src more m c k :
  read_line src m = Ok (Some (c, k)) → read_line (src ++ more) m = Ok (Some (c, k)).
Proof.
  intros H. apply read_line_consumed in H as (Hf & Hk & -> & Hm).
  unfold read_line. rewrite (find_crlf_app _ _ _ Hf).
  replace (k - 2 - 1)%nat with (k - 3)%nat by lia.
  destruct (Z.ltb_spec m (Z.of_nat (k - 3))); [lia|]. do 3 f_equal. lia.
Qed.

Lemma starts_with_take2 p l : length p = 2%nat → starts_with p (take 2 l) = true → (2 ≤ length l)%nat.
Proof.
  intros Hp [s Hs]%starts_with_spec. apply (f_equal length) in Hs.
  rewrite length_take, length_app in Hs. lia.
Qed.

Lemma decode_pending_progress d len src d' src' :
  decode_pending d len src = (Continue, d', src') → (length src' < length src)%nat.
Proof.
  unfold decode_pending. destruct (Z.ltb_spec (Z.of_nat (length src)) (len + 2)); [done|].
  destruct (starts_with _ _) eqn:E; simpl; [|done].
  apply starts_with_take2 in E; [|done]. rewrite length_drop in E.
  destruct (deliver_turn _ _) as [t d1]. intros [= _ _ <-]. rewrite length_drop. lia.
Qed.

Lemma decode_line_progress mk d src d' src' :
  decode_line mk d src = (Continue, d', src') → (length src' < length src)%nat.
Proof.
  unfold decode_line. destruct (read_line _ _) as [[[c k]|]|] eqn:E; [|done..].
  apply read_line_consumed in E as (_ & Hk & _).
  destruct (deliver_turn _ _) as [t d1]. intros [= _ _ <-]. rewrite length_drop. lia.
Qed.

Lemma decode_int_line_progress d src k d' src' :
  decode_int_line d src k = (Continue, d', src') → (length src' < length src)%nat.
Proof.
  unfold decode_int_line. destruct (read_line _ _) as [[[c n]|]|] eqn:E; [|done..].
  apply read_line_consumed in E as (_ & Hk & _). destruct (parse_int _); [|done].
  destruct (k _) as [t d1]. intros [= _ _ <-]. rewrite length_drop. lia.
Qed.

Lemma decode_turn_progress d src d' src' :
  decode_turn d src = (Continue, d', src') → (length src' < length src)%nat.
Proof.
  unfold decode_turn. destruct (pending_bulk_len d); [apply decode_pending_progress|].
  destruct src as [|b src]; [done|].
  repeat destruct (_ =? _); eauto using decode_line_progress, decode_int_line_progress. done.
Qed.

Lemma decode_loop_fuel f1 f2 d src :
  (length src < f1)%nat → (length src < f2)%nat → decode_loop f1 d src = decode_loop f2 d src.
Proof.
  revert f2 d src. induction f1 as [|f1 IH]; intros f2 d src H1 H2; [lia|].
  destruct f2 as [|f2]; [lia|]. cbn [decode_loop].
  destruct (decode_turn d src) as [[[r|] d'] src'] eqn:E; [done|].
  apply decode_turn_progress in E. apply IH; lia.
Qed.

(** The loop's equation: [decode] is its body followed by itself. *)
Lemma decode_unfold d src :
  decode d src =
    match decode_turn d src with
    | (Return r, d', src') => Some (r, d', src')
    | (Continue, d', src') => decode d' src'
    end.
Proof.
  unfold decode at 1. cbn [decode_loop].
  destruct (decode_turn d src) as [[[r|] d'] src'] eqn:E; [done|].
  apply decode_turn_progress in E. apply decode_loop_fuel; lia.
Qed.

(** Induction along the turns of [decode]. *)
Lemma decode_ind (P : RespDecoder → list Z → Prop) :
  (∀ d src,
     (∀ d' src', decode_turn d src = (Continue, d', src') → P d' src') → P d src) →
  ∀ d src, P d src.
Proof.
  intros Hstep d src. remember (length src) as n eqn:Hn.
  revert d src Hn. induction (lt_wf n) as [n _ IH]; intros d src ->.
  apply Hstep. intros d' src' E. apply decode_turn_progress in E. by eapply IH.
Qed.

Lemma decode_turn_idle d src d' src' :
  decode_turn d src = (Return (Ok None), d', src') → d' = d ∧ src' = src.
Proof.
  unfold decode_turn. destruct (pending_bulk_len d) as [len|] eqn:Hp.
  - unfold decode_pending. destruct (_ <? _).
    + intros [= <- <-]. split; [|done]. destruct d; simpl in *. by subst.
    + destruct (negb _); [done|]. unfold deliver_turn. destruct (deliver _ _) as [[]]; done.
  - destruct src as [|b src]; [by intros [= <- <-]|].
    unfold decode_line, decode_int_line, decode_bulk_header, decode_array_header, deliver_turn.
    intros H. repeat (case_match; simplify_eq/=; try done).
Qed.

(** ** The decoder's invariant *)

(** An open array still waits for elements and never holds more than the limit. *)
Definition frame_wf (d : RespDecoder) (f : ArrayFrame) : Prop :=
  1 ≤ remaining f ∧ remaining f + Z.of_nat (length (elements f)) ≤ max_array_len d.

Definition decoder_wf (d : RespDecoder) : Prop :=
  Forall (frame_wf d) (stack d) ∧
  Z.of_nat (length (stack d)) ≤ max_depth d ∧
  (∀ len, pending_bulk_len d = Some len → 0 ≤ len ≤ max_bulk_len d).

(** The configured limits never change. *)
Definition same_limits (d d' : RespDecoder) : Prop :=
  max_bulk_len d' = max_bulk_len d ∧ max_array_len d' = max_array_len d ∧
  max_depth d' = max_depth d.

Lemma with_limits_wf bulk array depth : 0 ≤ depth → decoder_wf (with_limits bulk array depth).
Proof. intros. split; [constructor|]. simpl. split; [lia|done]. Qed.

Lemma deliver_wf d st v o st' :
  Forall (frame_wf d) st → deliver st v = (o, st') →
  Forall (frame_wf d) st' ∧ (length st' ≤ length st)%nat.
Proof.
  revert v. induction st as [|f st IH]; intros v Hst; cbn [deliver]; [by intros [= <- <-]|].
  inversion Hst as [|?? Hf Hst']; subst. destruct (Z.eqb_spec (remaining f - 1) 0) as [|Hne]; simpl in *.
  - rewrite (proj2 (Z.eqb_eq _ _) e). intros Hd. destruct (IH _ Hst' Hd). split; [done|]. lia.
  - rewrite (proj2 (Z.eqb_neq _ _) Hne). intros [= <- <-]. split; [|simpl; lia].
    constructor; [|done]. unfold frame_wf in *. simpl. rewrite length_app. simpl. lia.
Qed.

(** What a turn preserves. *)
Definition turn_keeps (d : RespDecoder) (td : turn * RespDecoder) : Prop :=
  decoder_wf (snd td) ∧ same_limits d (snd td).

Lemma turn_keeps_refl d t : decoder_wf d → turn_keeps d (t, d).
Proof. done. Qed.

Lemma deliver_turn_keeps d v : decoder_wf d → turn_keeps d (deliver_turn d v).
Proof.
  intros (Hst & Hlen & Hp). unfold deliver_turn.
  destruct (deliver (stack d) v) as [o st] eqn:E.
  destruct (deliver_wf d _ _ _ _ Hst E). destruct o; (split; [|done]);
    (split; [done|]); (split; [simpl; lia|done]).
Qed.

Lemma decode_bulk_header_keeps d n : decoder_wf d → turn_keeps d (decode_bulk_header d n).
Proof.
  intros Hd. unfold decode_bulk_header.
  destruct (Z.ltb_spec n (-1)); [by apply turn_keeps_refl|].
  destruct (Z.eqb_spec n (-1)); [by apply deliver_turn_keeps|].
  destruct (Z.ltb_spec (max_bulk_len d) n); [by apply turn_keeps_refl|].
  destruct Hd as (? & ? & ?). split; [|done]. split; [done|]. split; [done|].
  simpl. intros len [= <-]. lia.
Qed.

Lemma decode_array_header_keeps d n : decoder_wf d → turn_keeps d (decode_array_header d n).
Proof.
  intros Hd. unfold decode_array_header.
  destruct (Z.ltb_spec n (-1)); [by apply turn_keeps_refl|].
  destruct (Z.eqb_spec n (-1)); [by apply deliver_turn_keeps|].
  destruct (Z.ltb_spec (max_array_len d) n); [by apply turn_keeps_refl|].
  destruct (Z.eqb_spec n 0); [by apply deliver_turn_keeps|].
  destruct (Z.leb_spec (max_depth d) (Z.of_nat (length (stack d)))); [by apply turn_keeps_refl|].
  destruct Hd as (? & ? & ?). split; [|done]. split; [|split; [simpl; lia|done]].
  constructor; [|done]. unfold frame_wf. simpl. lia.
Qed.

Lemma decode_turn_keeps d src t d' src' :
  decoder_wf d → decode_turn d src = (t, d', src') → decoder_wf d' ∧ same_limits d d'.
Proof.
  intros Hd. change (decoder_wf d' ∧ same_limits d d') with (turn_keeps d (t, d')).
  unfold decode_turn. destruct (pending_bulk_len d) as [len|] eqn:Hp.
  - assert (decoder_wf (set_pending d None)) as Hd0 by (destruct Hd as (? & ? & ?); done).
    unfold decode_pending. destruct (_ <? _).
    { intros [= <- <- <-]. split; [|done]. destruct Hd as (? & ? & Hl).
      split; [done|]. split; [done|]. simpl. intros ? [= <-]. by apply Hl. }
    destruct (negb _). { intros [= <- <- <-]. by split. }
    pose proof (deliver_turn_keeps _ (BulkString (Some (take (Z.to_nat len) src))) Hd0) as Hk.
    destruct (deliver_turn _ _) as [t1 d1]. by intros [= <- <- <-].
  - destruct src as [|b src]; [by intros [= <- <- <-]|].
    assert (∀ mk, decode_line mk d (b :: src) = (t, d', src') → turn_keeps d (t, d')) as Hline.
    { intros mk. unfold decode_line. destruct (read_line _ _) as [[[c k]|]|]; [|by intros [= <- <- <-]..].
      pose proof (deliver_turn_keeps d (mk (take c (drop 1 (b :: src)))) Hd) as Hk.
      destruct (deliver_turn _ _) as [t1 d1]. by intros [= <- <- <-]. }
    assert (∀ k, decode_int_line d (b :: src) k = (t, d', src') →
              (∀ n, turn_keeps d (k n)) → turn_keeps d (t, d')) as Hint.
    { intros k Heq Hk. revert Heq. unfold decode_int_line.
      destruct (read_line _ _) as [[[c m]|]|]; [|by intros [= <- <- <-]..].
      destruct (parse_int _) as [n|]; [|by intros [= <- <- <-]].
      specialize (Hk n). destruct (k n) as [t1 d1]. by intros [= <- <- <-]. }
    repeat destruct (_ =? _); intros Heq;
      eauto using deliver_turn_keeps, decode_bulk_header_keeps, decode_array_header_keeps.
    by injection Heq as <- <- <-.
Qed.

(** ** Input arriving in pieces *)

Definition line_too_long : RespError := Protocol (B "line exceeds maximum length").

(** A turn that neither waits for input nor gives up on an unfinished line does
    not depend on what follows in the buffer. *)
Definition settled (t : turn) : Prop :=
  t ≠ Return (Ok None) ∧ t ≠ Return (Err line_too_long).

Lemma read_line_unsettled src m :
  match read_line src m with
  | Ok (Some _) => True
  | Ok None => True
  | Err e => e = line_too_long
  end.
Proof.
  unfold read_line, protocol. destruct (find_crlf src); [destruct (_ <? _)|destruct (_ <=? _)]; done.
Qed.

Lemma decode_pending_app d len src more t d' src' :
  0 ≤ len → settled t → decode_pending d len src = (t, d', src') →
  decode_pending d len (src ++ more) = (t, d', src' ++ more).
Proof.
  intros Hlen [H1 _]. unfold decode_pending. rewrite length_app.
  destruct (Z.ltb_spec (Z.of_nat (length src)) (len + 2)); [by intros [= <- <- <-]|].
  destruct (Z.ltb_spec (Z.of_nat (length src + length more)) (len + 2)); [lia|].
  rewrite drop_app_le, !take_app_le, drop_app_le by (rewrite ?length_drop; lia).
  destruct (negb _); [by intros [= <- <- <-]|].
  destruct (deliver_turn _ _). by intros [= <- <- <-].
Qed.

Lemma decode_line_app mk d src more t d' src' :
  settled t → decode_line mk d src = (t, d', src') →
  decode_line mk d (src ++ more) = (t, d', src' ++ more).
Proof.
  intros [H1 H2]. unfold decode_line. pose proof (read_line_unsettled src (max_bulk_len d)) as Hu.
  destruct (read_line src (max_bulk_len d)) as [[[c k]|]|] eqn:E; simplify_eq/=;
    [|by intros [= <- <- <-]..].
  rewrite (read_line_app _ _ _ _ _ E). apply read_line_consumed in E as (_ & Hk & -> & _).
  rewrite drop_app_le by lia. rewrite take_app_le by (rewrite length_drop; lia).
  destruct (deliver_turn _ _). rewrite drop_app_le by lia. by intros [= <- <- <-].
Qed.

Lemma decode_int_line_app d src more k t d' src' :
  settled t → decode_int_line d src k = (t, d', src') →
  decode_int_line d (src ++ more) k = (t, d', src' ++ more).
Proof.
  intros [H1 H2]. unfold decode_int_line. pose proof (read_line_unsettled src (max_bulk_len d)) as Hu.
  destruct (read_line src (max_bulk_len d)) as [[[c n]|]|] eqn:E; simplify_eq/=;
    [|by intros [= <- <- <-]..].
  rewrite (read_line_app _ _ _ _ _ E). apply read_line_consumed in E as (_ & Hk & -> & _).
  rewrite drop_app_le by lia. rewrite take_app_le by (rewrite length_drop; lia).
  destruct (parse_int _) as [m|]; [|by intros [= <- <- <-]].
  destruct (k m). rewrite drop_app_le by lia. by intros [= <- <- <-].
Qed.

Lemma decode_turn_app d src more t d' src' :
  decoder_wf d → settled t → decode_turn d src = (t, d', src') →
  decode_turn d (src ++ more) = (t, d', src' ++ more).
Proof.
  intros (_ & _ & Hp) Ht. unfold decode_turn. destruct (pending_bulk_len d) as [len|].
  { apply decode_pending_app; [|done]. by apply Hp. }
  destruct src as [|b src]; [by intros [= <- <- <-]; destruct Ht|].
  change ((b :: src) ++ more) with (b :: (src ++ more)). cbv iota beta.
  destruct (b =? 43); [by apply (decode_line_app _ _ (b :: src))|].
  destruct (b =? 45); [by apply (decode_line_app _ _ (b :: src))|].
  destruct (b =? 58); [by apply (decode_int_line_app _ (b :: src))|].
  destruct (b =? 36); [by apply (decode_int_line_app _ (b :: src))|].
  destruct (b =? 42); [by apply (decode_int_line_app _ (b :: src))|].
  by intros [= <- <- <-].
Qed.

(** ** Theorems: termination, invariant, framing *)

(** Decoding always terminates: for every decoder state and buffer the loop
    returns (the fuel [S (length src)] never runs out). *)
Theorem decode_terminates d src :
  ∃ r d' src', decode d src = Some (r, d', src').
Proof.
  revert d src. apply decode_ind. intros d src IH. rewrite decode_unfold.
  destruct (decode_turn d src) as [[[r|] d'] src'] eqn:E; [eauto|]. by apply IH.
Qed.

(** From a well-formed decoder (every open array waits for at least one
    element and respects the array limit, nesting is at most [max_depth], an
    awaited bulk string respects the bulk limit) every decode, whatever its
    outcome, ends in a well-formed decoder with the same limits; so
    [remaining -= 1] never underflows and the stack never exceeds its bound. *)
Theorem decode_invariant d src r d' src' :
  decoder_wf d → decode d src = Some (r, d', src') → decoder_wf d' ∧ same_limits d d'.
Proof.
  revert d src. refine (decode_ind (λ d src, _) _). intros d src IH Hd. rewrite decode_unfold.
  destruct (decode_turn d src) as [[[r1|] d1] src1] eqn:E;
    destruct (decode_turn_keeps _ _ _ _ _ Hd E) as [Hd1 Hl1].
  - by intros [= <- <- <-].
  - intros H. destruct (IH _ _ eq_refl Hd1 H) as [? Hl2]. split; [done|].
    unfold same_limits in *. intuition congruence.
Qed.

Lemma decode_invariant_witness :
  decoder_wf (mkDecoder 1024 16 4 [] None) ∧
  ∃ d', decode (mkDecoder 1024 16 4 [] None) (B "*2" ++ CRLF ++ B "$3") =
    Some (Ok None, d', B "$3") ∧ decoder_wf d'.
Proof.
  split; [by apply (with_limits_wf 1024 16 4)|].
  eexists. split; [vm_compute; reflexivity|].
  eapply (decode_invariant (mkDecoder 1024 16 4 [] None) (B "*2" ++ CRLF ++ B "$3"));
    [by apply (with_limits_wf 1024 16 4)|vm_compute; reflexivity].
Defined.

(** C9: framing does not depend on how the bytes arrive. If a decode over the
    bytes received so far asks for more input, then decoding the whole input is
    the same as resuming from the saved state; if it returns a value, the same
    value is returned whatever follows, which is left in the buffer untouched; and
    an error other than an over-long unfinished line is final. *)
Theorem decode_resume d src more r d' src' :
  decoder_wf d → decode d src = Some (r, d', src') →
  match r with
  | Ok None => decode d (src ++ more) = decode d' (src' ++ more)
  | Ok (Some v) => decode d (src ++ more) = Some (Ok (Some v), d', src' ++ more)
  | Err e => e = line_too_long ∨ decode d (src ++ more) = Some (Err e, d', src' ++ more)
  end.
Proof.
  revert d src. refine (decode_ind (λ d src, _) _). intros d src IH Hd.
  rewrite (decode_unfold d src), (decode_unfold d (src ++ more)).
  destruct (decode_turn d src) as [[[r1|] d1] src1] eqn:E.
  - intros [= <- <- <-]. destruct r1 as [[v|]|e].
    + by rewrite (decode_turn_app _ _ more (Return (Ok (Some v))) _ _ Hd ltac:(done) E).
    + apply decode_turn_idle in E as [-> ->]. by rewrite <- decode_unfold.
    + destruct e as [msg]. destruct (decide (msg = B "line exceeds maximum length")) as [->|Hne].
      { by left. }
      right. assert (settled (Return (Err (Protocol msg)))) as Hs.
      { split; [done|]. unfold line_too_long. congruence. }
      by rewrite (decode_turn_app _ _ more _ _ _ Hd Hs E).
  - rewrite (decode_turn_app _ _ more Continue _ _ Hd ltac:(done) E).
    apply IH; [done|]. by eapply decode_turn_keeps.
Qed.

Lemma decode_resume_witness :
  ∃ d', decode (mkDecoder 1024 16 4 [] None) (B "*1" ++ CRLF ++ B "$3" ++ CRLF ++ B "fo") =
          Some (Ok None, d', B "fo") ∧
        decode (mkDecoder 1024 16 4 [] None)
          ((B "*1" ++ CRLF ++ B "$3" ++ CRLF ++ B "fo") ++ B "o" ++ CRLF) =
        decode d' (B "fo" ++ B "o" ++ CRLF).
Proof.
  eexists. split; [vm_compute; reflexivity|].
  apply (decode_resume (mkDecoder 1024 16 4 [] None)
    (B "*1" ++ CRLF ++ B "$3" ++ CRLF ++ B "fo") (B "o" ++ CRLF) (Ok None));
    [by apply (with_limits_wf 1024 16 4)|vm_compute; reflexivity].
Defined.

Lemma decode_turn_buffer d src d' src' :
  decoder_wf d → 0 < max_bulk_len d → decode_turn d src = (Return (Ok None), d', src') →
  Z.of_nat (length src') < max_bulk_len d + 2.
Proof.
  intros Hd Hb E. destruct (decode_turn_idle _ _ _ _ E) as [-> ->]. revert E.
  unfold decode_turn. destruct (pending_bulk_len d) as [len|] eqn:Hp.
  - destruct Hd as (_ & _ & Hlen). specialize (Hlen len Hp). unfold decode_pending.
    destruct (Z.ltb_spec (Z.of_nat (length src)) (len + 2)); [lia|].
    destruct (negb _); [done|]. unfold deliver_turn. destruct (deliver _ _) as [[]]; done.
  - destruct src as [|b src]; [simpl; lia|].
    assert (read_line (b :: src) (max_bulk_len d) = Ok None →
            Z.of_nat (length (b :: src)) < max_bulk_len d + 2) as Hnone.
    { unfold read_line, protocol. destruct (find_crlf _); [by destruct (_ <? _)|].
      destruct (Z.leb_spec (max_bulk_len d) (Z.of_nat (length (b :: src)))); [done|]. lia. }
    unfold decode_line, decode_int_line, decode_bulk_header, decode_array_header, deliver_turn.
    intros H. repeat (case_match; simplify_eq/=; auto; try done).
Qed.

(** The receive buffer of a client that never completes a frame is bounded:
    whenever the decoder asks for more input, fewer than [max_bulk_len + 2] bytes
    are left in the buffer. *)
Theorem decode_buffer_bounded d src d' src' :
  decoder_wf d → 0 < max_bulk_len d → decode d src = Some (Ok None, d', src') →
  Z.of_nat (length src') < max_bulk_len d + 2.
Proof.
  revert d src. refine (decode_ind (λ d src, _) _). intros d src IH Hd Hb. rewrite decode_unfold.
  destruct (decode_turn d src) as [[[r1|] d1] src1] eqn:E.
  - intros [= -> <- <-]. by eapply decode_turn_buffer.
  - destruct (decode_turn_keeps _ _ _ _ _ Hd E) as [Hd1 (Hl & _)].
    rewrite <- Hl in *. by apply IH.
Qed.

Lemma decode_buffer_bounded_witness :
  ∃ d', decode (mkDecoder 8 16 4 [] None) (B "$5" ++ CRLF ++ B "abcd") =
          Some (Ok None, d', B "abcd") ∧ Z.of_nat (length (B "abcd")) < 10.
Proof.
  eexists. split; [vm_compute; reflexivity|].
  eapply (decode_buffer_bounded (mkDecoder 8 16 4 [] None) (B "$5" ++ CRLF ++ B "abcd"));
    [by apply (with_limits_wf 8 16 4)|done|vm_compute; reflexivity].
Defined.

(** ** The decoder inverts the encoder *)

(** Induction on values with a hypothesis for every element of an array. *)
Lemma RespValue_nested_ind (P : RespValue → Prop) :
  (∀ s, P (SimpleString s)) → (∀ e, P (Error e)) → (∀ n, P (Integer n)) →
  (∀ b, P (BulkString b)) → P (Array None) →
  (∀ items, Forall P items → P (Array (Some items))) → ∀ v, P v.
Proof.
  intros Hs He Hi Hb Hn Ha. fix IH 1. intros [s|e|n|b|[items|]];
    [apply Hs|apply He|apply Hi|apply Hb| |apply Hn].
  apply Ha. induction items; constructor; [apply IH|done].
Qed.

(** The values the wire format can carry within the decoder's limits, at nesting
    depth [level]: one-line strings hold no CR LF, and no integer is [i64::MIN]. *)
Fixpoint encodable (d : RespDecoder) (level : Z) (v : RespValue) : bool :=
  match v with
  | SimpleString s | Error s =>
      match find_crlf s with Some _ => false | None => true end &&
      (Z.of_nat (length s) <=? max_bulk_len d)
  | Integer n => (i64_min <? n) && (n <=? i64_max)
  | BulkString (Some b) => Z.of_nat (length b) <=? max_bulk_len d
  | BulkString None => true
  | Array (Some items) =>
      (Z.of_nat (length items) <=? max_array_len d) &&
      (match items with [] => true | _ => level <? max_depth d end) &&
      forallb (encodable d (level + 1)) items
  | Array None => true
  end.

(** Limits a real decoder has: a header line fits, and sizes fit an [i64]. *)
Definition sane_limits (d : RespDecoder) : Prop :=
  20 ≤ max_bulk_len d ≤ i64_max ∧ max_array_len d ≤ i64_max.

Lemma find_crlf_no_cr l : Forall (λ b, b ≠ CR) l → find_crlf l = None.
Proof.
  induction 1 as [|a l Ha Hl IH]; [done|]. destruct l as [|b l]; [done|].
  rewrite find_crlf_cons. rewrite (proj2 (Z.eqb_neq _ _) Ha). by rewrite IH.
Qed.

Lemma parse_int_loop_pos l acc :
  0 ≤ acc → Forall (λ b, is_digit b = true) l → digits_val acc l ≤ i64_max →
  parse_int_loop acc l = Ok (digits_val acc l).
Proof.
  intros Hacc Hl. revert acc Hacc.
  induction Hl as [|b l Hb Hl IH]; intros acc Hacc Hmax; cbn [parse_int_loop]; [done|].
  rewrite Hb. apply is_digit_bounds in Hb. simpl in Hmax. cbn [negb].
  pose proof (digits_val_mono l (acc * 10 + (b - 48)) ltac:(lia) Hl).
  rewrite !(proj2 (in_i64b_spec _)) by width_lia. apply IH; [lia|done].
Qed.

(** Every integer but [i64::MIN] survives printing and parsing. *)
Lemma parse_int_to_dec n : i64_min < n ≤ i64_max → parse_int (to_dec n) = Ok n.
Proof.
  intros Hn. unfold to_dec. destruct (Z.ltb_spec n 0).
  - destruct (dec_nat_spec (- n)) as (Hne & Hd & Hv); [lia|].
    unfold parse_int. cbn [tail]. rewrite Z.eqb_refl.
    destruct (dec_nat (- n)) as [|x xs] eqn:E; [done|]. rewrite <- E in *.
    rewrite parse_int_loop_pos; [f_equal; lia|lia|done|]. rewrite Hv. width_lia.
  - destruct (dec_nat_spec n) as (Hne & Hd & Hv); [lia|]. unfold parse_int.
    destruct (dec_nat n) as [|x xs] eqn:E; [done|].
    pose proof (proj1 (is_digit_bounds _) (Forall_inv Hd)).
    destruct (Z.eqb_spec x 45); [lia|]. rewrite <- E in *.
    rewrite parse_int_loop_pos; [by f_equal|lia|done|]. rewrite Hv. width_lia.
Qed.

Section RoundTrip.
Context (d : RespDecoder) (Hlim : sane_limits d).

(** The decoder with its limits and the given stack, waiting for a type byte. *)
Definition at_stack (st : list ArrayFrame) : RespDecoder :=
  mkDecoder (max_bulk_len d) (max_array_len d) (max_depth d) st None.

(** What decoding a complete value [v] with [rest] behind it amounts to. *)
Definition after_value (st : list ArrayFrame) (v : RespValue) (rest : list Z)
  : option (result (option RespValue) RespError * RespDecoder * list Z) :=
  match deliver st v with
  | (Some v', st') => Some (Ok (Some v'), at_stack st', rest)
  | (None, st') => decode (at_stack st') rest
  end.

Lemma after_value_turn st v rest :
  match deliver_turn (at_stack st) v with
  | (Return r, d') => Some (r, d', rest)
  | (Continue, d') => decode d' rest
  end = after_value st v rest.
Proof. unfold deliver_turn, after_value. simpl. by destruct (deliver st v) as [[v'|] st']. Qed.

Lemma read_header b s rest :
  b ≠ CR → find_crlf s = None → Z.of_nat (length s) ≤ max_bulk_len d →
  read_line (b :: s ++ CRLF ++ rest) (max_bulk_len d) = Ok (Some (length s, (length s + 3)%nat)).
Proof.
  intros Hb Hs Hl. unfold read_line.
  assert (find_crlf (b :: s) = None) as Hbs.
  { destruct s as [|x s]; [done|]. rewrite find_crlf_cons, Hs. by rewrite (proj2 (Z.eqb_neq _ _) Hb). }
  pose proof (find_crlf_line (b :: s) rest Hbs) as Hf. cbn [app] in Hf. rewrite Hf. cbn [length].
  replace (S (length s) - 1)%nat with (length s) by lia.
  destruct (Z.ltb_spec (max_bulk_len d) (Z.of_nat (length s))); [lia|]. do 3 f_equal. lia.
Qed.

Lemma line_rest b (s rest : list Z) : drop (length s + 3) (b :: s ++ CRLF ++ rest) = rest.
Proof.
  replace (length s + 3)%nat with (S (length s + 2)) by lia. cbn [drop].
  rewrite <- drop_drop, drop_app_length. done.
Qed.

Lemma line_content b (s rest : list Z) : take (length s) (drop 1 (b :: s ++ CRLF ++ rest)) = s.
Proof. cbn [drop]. by rewrite drop_0, take_app_length. Qed.

Lemma decode_line_value mk b s rest st :
  b ≠ CR → find_crlf s = None → Z.of_nat (length s) ≤ max_bulk_len d →
  decode_line mk (at_stack st) (b :: s ++ CRLF ++ rest) =
    (deliver_turn (at_stack st) (mk s), rest).
Proof.
  intros Hb Hs Hl. unfold decode_line. simpl max_bulk_len. rewrite read_header by done.
  rewrite line_content, line_rest. by destruct (deliver_turn _ _).
Qed.

Lemma decode_int_line_value k b n rest st :
  b ≠ CR → i64_min < n ≤ i64_max →
  decode_int_line (at_stack st) (b :: to_dec n ++ CRLF ++ rest) k = (k n, rest).
Proof.
  intros Hb Hn. unfold decode_int_line. simpl max_bulk_len. rewrite read_header; [|done| |].
  - rewrite line_content, line_rest, parse_int_to_dec by done. by destruct (k n).
  - apply find_crlf_no_cr, to_dec_no_byte; done.
  - destruct Hlim. pose proof (length_to_dec n ltac:(width_lia)). lia.
Qed.

Lemma decode_bulk_payload st b rest :
  Z.of_nat (length b) ≤ max_bulk_len d →
  decode (set_pending (at_stack st) (Some (Z.of_nat (length b)))) (b ++ CRLF ++ rest) =
    after_value st (BulkString (Some b)) rest.
Proof.
  intros Hb. rewrite decode_unfold. unfold decode_turn. cbn [pending_bulk_len set_pending].
  unfold decode_pending. rewrite (proj2 (Z.ltb_ge _ _)) by (rewrite !length_app; simpl length; lia).
  rewrite Nat2Z.id, drop_app_length, take_app_length. cbn [app CRLF take starts_with].
  rewrite !Z.eqb_refl. cbn [negb andb].
  rewrite <- drop_drop, drop_app_length, <- after_value_turn.
  change (set_pending (set_pending (at_stack st) (Some (Z.of_nat (length b)))) None) with (at_stack st).
  by destruct (deliver_turn _ _) as [[]].
Qed.

(** A value that closes nothing yet leaves the enclosing array one element further. *)
Lemma after_value_frame st x acc n rest :
  2 ≤ n →
  after_value (mkFrame n acc :: st) x rest =
    decode (at_stack (mkFrame (n - 1) (acc ++ [x]) :: st)) rest.
Proof.
  intros Hn. unfold after_value. cbn [deliver remaining elements].
  by rewrite (proj2 (Z.eqb_neq (n - 1) 0)) by lia.
Qed.

Definition decodes_to (v : RespValue) : Prop :=
  ∀ st rest, encodable d (Z.of_nat (length st)) v = true →
    decode (at_stack st) (encode_value v ++ rest) = after_value st v rest.

Lemma decode_elements items st acc rest :
  Forall decodes_to items → items ≠ [] →
  forallb (encodable d (Z.of_nat (length st) + 1)) items = true →
  decode (at_stack (mkFrame (Z.of_nat (length items)) acc :: st))
    (concat (encode_value <$> items) ++ rest) = after_value st (Array (Some (acc ++ items))) rest.
Proof.
  intros Hall. revert acc. induction Hall as [|x items Hx Hall IH]; intros acc Hne Henc; [done|].
  cbn [forallb] in Henc. apply andb_true_iff in Henc as [Hx1 Hrest].
  rewrite fmap_cons. cbn [concat]. rewrite <- app_assoc, Hx;
    [|by rewrite length_cons, Nat2Z.inj_succ, <- Z.add_1_r].
  destruct items as [|y items].
  - unfold after_value at 1. cbn [deliver remaining elements length].
    replace (Z.of_nat 1 - 1) with 0 by lia. by rewrite Z.eqb_refl.
  - rewrite after_value_frame by (simpl length; lia).
    replace (Z.of_nat (length (x :: y :: items)) - 1) with (Z.of_nat (length (y :: items)))
      by (simpl length; lia).
    rewrite IH by done. by rewrite <- app_assoc.
Qed.

Lemma decode_array_value items st rest :
  Forall decodes_to items → encodable d (Z.of_nat (length st)) (Array (Some items)) = true →
  decode (at_stack st) (encode_value (Array (Some items)) ++ rest) =
    after_value st (Array (Some items)) rest.
Proof.
  intros Hall. cbn [encodable]. rewrite !andb_true_iff, Z.leb_le. intros [[Hlen Hdep] Henc].
  destruct Hlim as [Hb Ha]. cbn [encode_value]. rewrite <- !app_assoc.
  rewrite decode_unfold. unfold decode_turn. cbn [pending_bulk_len at_stack].
  change (B "*" ++ ?l) with (42 :: l). cbn [Z.eqb Pos.eqb].
  rewrite decode_int_line_value by (done || width_lia).
  unfold decode_array_header. cbn [max_array_len max_depth stack at_stack].
  rewrite (proj2 (Z.ltb_ge _ _)), (proj2 (Z.eqb_neq _ _)), (proj2 (Z.ltb_ge _ _)) by lia.
  destruct items as [|x items]; [by rewrite <- after_value_turn; destruct (deliver_turn _ _) as [[]]|].
  rewrite (proj2 (Z.eqb_neq _ _)) by (simpl length; lia).
  apply Z.ltb_lt in Hdep. rewrite (proj2 (Z.leb_gt _ _)) by done.
  by apply (decode_elements (x :: items) st []).
Qed.

Lemma decode_value v : decodes_to v.
Proof.
  induction v as [s|e|n|[b|]| |items Hall] using RespValue_nested_ind; intros st rest.
  7: by apply decode_array_value.
  all: cbn [encodable encode_value]; rewrite ?andb_true_iff, ?Z.leb_le, ?Z.ltb_lt; intros Hv;
    rewrite <- ?app_assoc, decode_unfold; unfold decode_turn; cbn [pending_bulk_len at_stack].
  - change (B "+" ++ ?l) with (43 :: l). cbn [Z.eqb Pos.eqb].
    destruct (find_crlf s) eqn:E; [by destruct Hv|]. rewrite decode_line_value by (done || lia).
    rewrite <- after_value_turn. by destruct (deliver_turn _ _) as [[]].
  - change (B "-" ++ ?l) with (45 :: l). cbn [Z.eqb Pos.eqb].
    destruct (find_crlf e) eqn:E; [by destruct Hv|]. rewrite decode_line_value by (done || lia).
    rewrite <- after_value_turn. by destruct (deliver_turn _ _) as [[]].
  - change (B ":" ++ ?l) with (58 :: l). cbn [Z.eqb Pos.eqb].
    rewrite decode_int_line_value by (done || lia).
    rewrite <- after_value_turn. by destruct (deliver_turn _ _) as [[]].
  - change (B "$" ++ ?l) with (36 :: l). cbn [Z.eqb Pos.eqb]. destruct Hlim as [Hb _].
    rewrite decode_int_line_value by (done || width_lia).
    unfold decode_bulk_header. cbn [max_bulk_len at_stack].
    rewrite (proj2 (Z.ltb_ge _ _)), (proj2 (Z.eqb_neq _ _)), (proj2 (Z.ltb_ge _ _)) by lia.
    by apply decode_bulk_payload.
  - change (B "$-1" ++ ?l) with (36 :: to_dec (-1) ++ l). cbn [Z.eqb Pos.eqb].
    rewrite decode_int_line_value by (done || width_lia).
    rewrite <- after_value_turn. unfold decode_bulk_header. simpl. by destruct (deliver_turn _ _) as [[]].
  - change (B "*-1" ++ ?l) with (42 :: to_dec (-1) ++ l). cbn [Z.eqb Pos.eqb].
    rewrite decode_int_line_value by (done || width_lia).
    rewrite <- after_value_turn. unfold decode_array_header. simpl. by destruct (deliver_turn _ _) as [[]].
Qed.
End RoundTrip.

(** The one integer the encoder writes and the decoder rejects. *)
Lemma decode_rejects_i64_min d rest :
  sane_limits d → stack d = [] → pending_bulk_len d = None →
  decode d (encode_value (Integer i64_min) ++ rest) =
    Some (Err (Protocol (B "integer out of range")), d, encode_value (Integer i64_min) ++ rest).
Proof.
  intros Hlim Hst Hp. rewrite decode_unfold. unfold decode_turn. rewrite Hp.
  cbn [encode_value]. rewrite <- !app_assoc. change (B ":" ++ ?l) with (58 :: l).
  cbn [Z.eqb Pos.eqb]. unfold decode_int_line.
  rewrite (read_header d 58 (to_dec i64_min)); [|done|by vm_compute|].
  - by rewrite line_content.
  - destruct Hlim as [[? _] _]. transitivity 20; [by vm_compute|lia].
Qed.

(** C5: the decoder inverts the encoder. Take an idle decoder whose limit on bulk strings is
    at least 20 bytes and whose limits fit an i64, and a value within its limits on bulk and
    line lengths, array lengths and nesting, in which no simple string or error contains CR LF
    and every integer is above i64::MIN. Decoding its encoding, followed by any bytes, returns
    exactly that value, goes back to the idle state and leaves the following bytes in the
    buffer. Both exclusions are about the wire format: of a simple string with CR LF inside,
    only the part before it is read, and the integer i64::MIN, which the encoder writes, is a
    protocol error that consumes nothing. *)
Theorem decode_encode_roundtrip d v rest :
  sane_limits d → stack d = [] → pending_bulk_len d = None →
  (encodable d 0 v = true → decode d (encode_value v ++ rest) = Some (Ok (Some v), d, rest)) ∧
  (∀ a b, encodable d 0 (SimpleString a) = true →
     decode d (encode_value (SimpleString (a ++ CRLF ++ b)) ++ rest) = Some (Ok (Some (SimpleString a)), d, b ++ CRLF ++ rest)) ∧
  decode d (encode_value (Integer i64_min) ++ rest) =
    Some (Err (Protocol (B "integer out of range")), d, encode_value (Integer i64_min) ++ rest).
Proof.
  intros Hlim Hst Hp. assert (at_stack d [] = d) as Hd.
  { destruct d; unfold at_stack; simpl in *. by subst. }
  assert (∀ v rest, encodable d 0 v = true → decode d (encode_value v ++ rest) = Some (Ok (Some v), d, rest)) as Hok.
  { intros v' rest' Hv. pose proof (decode_value d Hlim v' [] rest' Hv) as H. rewrite Hd in H. rewrite H.
    unfold after_value. simpl. by rewrite Hd. }
  split_and!; [apply Hok| |by apply decode_rejects_i64_min]. intros a b Ha. rewrite <- (Hok (SimpleString a) _ Ha).
  f_equal. cbn [encode_value]. by rewrite <- !app_assoc.
Qed.

Definition sample_command : RespValue :=
  Array (Some [BulkString (Some (B "SET")); BulkString (Some (B "foo")); Integer (-5);
               Array (Some [SimpleString (B "OK"); BulkString None]); Array None]).

Lemma decode_encode_roundtrip_witness :
  decode default_decoder (encode_value sample_command ++ B "*1") =
    Some (Ok (Some sample_command), default_decoder, B "*1").
Proof.
  apply (decode_encode_roundtrip default_decoder sample_command (B "*1")).
  - by vm_compute.
  - reflexivity.
  - reflexivity.
  - vm_compute. reflexivity.
Defined.

