(* ===== verification/Pattern.v ===== *)
(** * Glob patterns: src/redis/pattern.rs

    The port of Redis's [stringmatchlen] used by KEYS, the SCAN family and
    pub/sub, with its bounded backtracking ([skip_longer_matches]) and its star
    nesting limit, against a declarative reading of the dialect. Proved: the
    bounded matcher decides exactly the declarative relation whenever the pattern
    has at most [MAX_STAR_NESTING] stars, and never accepts more than it. *)
From S2P Require Import Prelude.

(** ** The matcher *)

Definition MAX_STAR_NESTING : Z := 1000.

Record GlobPattern : Type := mkGlob {
  pattern : list Z;
  nocase : bool;
  select_all : bool
}.

Definition glob_new (p : list Z) : GlobPattern := mkGlob p false false.
Definition glob_keyspace (p : list Z) : GlobPattern := mkGlob p false (bool_decide (p = B "*")).
Definition with_nocase (g : GlobPattern) (n : bool) : GlobPattern :=
  mkGlob (pattern g) n (select_all g).

Definition fold_case (nc : bool) (b : Z) : Z := if nc then to_lower b else b.

(** [while pat.first() == Some(&b'*')] *)
Fixpoint drop_stars (pat : list Z) : list Z :=
  match pat with
  | p :: pat' => if p =? 42 then drop_stars pat' else pat
  | [] => []
  end.

(** The [loop] over the members of a class, for the subject byte [c]: whether a
    member matched, and the pattern after the class. *)
Fixpoint class_loop (nc : bool) (c : Z) (pat : list Z) (matched : bool) : bool * list Z :=
  let plain first pat1 :=
    class_loop nc c pat1 (matched || (fold_case nc first =? fold_case nc c)) in
  match pat with
  | [] => (matched, [])
  | first :: pat1 =>
      match pat1 with
      | [] => if first =? 93 then (matched, pat1) else plain first pat1
      | second :: pat2 =>
          if first =? 92 then class_loop nc c pat2 (matched || (second =? c))
          else if first =? 93 then (matched, pat1)
          else
            match pat2 with
            | third :: pat3 =>
                if second =? 45 then
                  let '(start, stop) := if third <? first then (third, first) else (first, third) in
                  let x := fold_case nc c in
                  class_loop nc c pat3
                    (matched || ((fold_case nc start <=? x) && (x <=? fold_case nc stop)))
                else plain first pat1
            | [] => plain first pat1
            end
      end
  end.

(** The [while !s.is_empty()] loop of a star: [rec] tries the rest of the pattern. *)
Fixpoint star_loop (rec : list Z → bool → bool * bool) (s : list Z) (skip : bool) : bool * bool :=
  match s with
  | [] => (false, true)
  | _ :: s' =>
      let '(m, skip) := rec s skip in
      if m then (true, skip)
      else if skip then (false, skip)
      else star_loop rec s' skip
  end.

(** The loop of [match_at]; the [bool] threaded through is [*skip_longer_matches].
    Each turn consumes at least one byte of the pattern, so [S (length pat)] turns
    suffice. *)
Fixpoint match_loop (fuel : nat) (nc : bool) (nesting : Z) (pat s : list Z) (skip : bool)
  : bool * bool :=
  match fuel with
  | O => (false, skip)
  | S fuel =>
      let continue pat s :=
        match s with
        | [] => (match drop_stars pat with [] => true | _ => false end, skip)
        | _ => match_loop fuel nc nesting pat s skip
        end in
      match pat, s with
      | [], _ => (match s with [] => true | _ => false end, skip)
      | _ :: _, [] => (false, skip)
      | p :: pat1, c :: s1 =>
          if p =? 42 then
            match drop_stars pat1 with
            | [] => (true, skip)
            | pat2 =>
                star_loop (λ s skip,
                  if MAX_STAR_NESTING <? nesting + 1 then (false, skip)
                  else match_loop fuel nc (nesting + 1) pat2 s skip) s skip
            end
          else if p =? 63 then continue pat1 s1
          else if p =? 91 then
            let '(negate, pat1) :=
              match pat1 with
              | q :: pat2 => if q =? 94 then (true, pat2) else (false, pat1)
              | [] => (false, pat1)
              end in
            let '(matched, pat2) := class_loop nc c pat1 false in
            if Bool.eqb matched negate then (false, skip) else continue pat2 s1
          else
            let '(x, pat2) :=
              match pat1 with
              | q :: pat2 => if p =? 92 then (q, pat2) else (p, pat1)
              | [] => (p, pat1)
              end in
            if fold_case nc x =? fold_case nc c then continue pat2 s1 else (false, skip)
      end
  end.

Definition match_at (nc : bool) (nesting : Z) (pat s : list Z) (skip : bool) : bool * bool :=
  if MAX_STAR_NESTING <? nesting then (false, skip)
  else match_loop (S (length pat)) nc nesting pat s skip.

Definition glob_match (pat s : list Z) (nc : bool) : bool := fst (match_at nc 0 pat s false).

Definition is_match (g : GlobPattern) (candidate : list Z) : bool :=
  select_all g || glob_match (pattern g) candidate (nocase g).

(** ** The dialect, declaratively *)

(** Members of a class. *)
Inductive member : Type :=
| MEscaped (b : Z)
| MRange (a b : Z)
| MPlain (b : Z).

Definition member_has (nc : bool) (m : member) (c : Z) : bool :=
  match m with
  | MEscaped b => b =? c
  | MRange a b => (fold_case nc (Z.min a b) <=? fold_case nc c) &&
                  (fold_case nc c <=? fold_case nc (Z.max a b))
  | MPlain b => fold_case nc b =? fold_case nc c
  end.

Definition cons_member (m : member) (r : list member * list Z) : list member * list Z :=
  (m :: fst r, snd r).

(** The members a class body lists, and what follows it: [\b] is an escaped byte,
    []] ends the class, [a-b] is a range, anything else stands for itself; a class
    that is not closed extends to the end of the pattern. *)
Fixpoint parse_class (pat : list Z) : list member * list Z :=
  match pat with
  | [] => ([], [])
  | a :: rest =>
      if a =? 93 then ([], rest)
      else
        match rest with
        | [] => cons_member (MPlain a) (parse_class rest)
        | b :: rest1 =>
            if a =? 92 then cons_member (MEscaped b) (parse_class rest1)
            else
              match rest1 with
              | c :: rest2 =>
                  if b =? 45 then cons_member (MRange a c) (parse_class rest2)
                  else cons_member (MPlain a) (parse_class rest)
              | [] => cons_member (MPlain a) (parse_class rest)
              end
        end
  end.

Definition class_test (nc negate : bool) (r : list member * list Z) : (Z → bool) * list Z :=
  (λ c, xorb negate (existsb (λ m, member_has nc m c) (fst r)), snd r).

(** A pattern that does not start with a star starts with something that selects
    one byte: the test, and the rest of the pattern. *)
Definition one_byte (nc : bool) (pat : list Z) : option ((Z → bool) * list Z) :=
  match pat with
  | [] => None
  | p :: rest =>
      if p =? 42 then None
      else if p =? 63 then Some (λ _, true, rest)
      else if p =? 91 then
        match rest with
        | q :: body =>
            if q =? 94 then Some (class_test nc true (parse_class body))
            else Some (class_test nc false (parse_class rest))
        | [] => Some (class_test nc false (parse_class rest))
        end
      else
        match rest with
        | q :: rest1 =>
            if p =? 92 then Some (λ c, fold_case nc q =? fold_case nc c, rest1)
            else Some (λ c, fold_case nc p =? fold_case nc c, rest)
        | [] => Some (λ c, fold_case nc p =? fold_case nc c, rest)
        end
  end.

Inductive glob (nc : bool) : list Z → list Z → Prop :=
| glob_nil : glob nc [] []
| glob_star pat s1 s2 : glob nc pat s2 → glob nc (42 :: pat) (s1 ++ s2)
| glob_one pat f rest c s :
    one_byte nc pat = Some (f, rest) → f c = true → glob nc rest s → glob nc pat (c :: s).

Definition stars (pat : list Z) : Z := Z.of_nat (length (filter (λ b, b = 42) pat)).

(** ** The matcher decides the dialect *)
Lemma class_loop_members nc c pat matched :
  class_loop nc c pat matched =
    (matched || existsb (λ m, member_has nc m c) (fst (parse_class pat)), snd (parse_class pat)).
Proof.
  remember (length pat) as n eqn:Hn. assert (length pat ≤ n)%nat as Hle by lia. clear Hn.
  revert pat matched Hle. induction n as [|n IH]; intros pat matched Hle.
  { destruct pat; [simpl; by rewrite orb_false_r|simpl in Hle; lia]. }
  destruct pat as [|a rest]; [simpl; by rewrite orb_false_r|].
  cbn [class_loop parse_class]. simpl in Hle.
  destruct rest as [|b rest1].
  - destruct (a =? 93); simpl; by rewrite ?orb_false_r.
  - simpl in Hle. destruct (Z.eqb_spec a 92) as [->|].
    + cbn [Z.eqb Pos.eqb]. rewrite IH by lia. simpl. by rewrite orb_assoc.
    + destruct (a =? 93); [simpl; by rewrite orb_false_r|].
      destruct rest1 as [|c3 rest2]; [|simpl in Hle; destruct (b =? 45)].
      * rewrite IH by (simpl; lia). cbn [cons_member fst snd existsb member_has]. by rewrite orb_assoc.
      * destruct (Z.ltb_spec c3 a); rewrite IH by lia; cbn [cons_member fst snd existsb member_has];
          rewrite orb_assoc; [rewrite Z.min_r, Z.max_l by lia|rewrite Z.min_l, Z.max_r by lia]; done.
      * rewrite IH by (simpl; lia). cbn [cons_member fst snd existsb member_has]. by rewrite orb_assoc.
Qed.

Lemma parse_class_suffix pat : snd (parse_class pat) `suffix_of` pat.
Proof.
  remember (length pat) as n eqn:Hn. assert (length pat ≤ n)%nat as Hle by lia. clear Hn.
  revert pat Hle. induction n as [|n IH]; intros pat Hle; [destruct pat; [done|simpl in Hle; lia]|].
  destruct pat as [|a rest]; [done|]. cbn [parse_class]. simpl in Hle.
  destruct (a =? 93); [by apply suffix_cons_r|].
  destruct rest as [|b rest1]; [by apply suffix_nil|]. simpl in Hle.
  destruct (a =? 92); cbn [cons_member snd].
  { do 2 apply suffix_cons_r. apply IH. lia. }
  destruct rest1 as [|c rest2]; [|destruct (b =? 45)]; cbn [cons_member snd]; simpl in Hle.
  - apply suffix_cons_r, IH. simpl. lia.
  - do 3 apply suffix_cons_r. apply IH. lia.
  - apply suffix_cons_r, IH. simpl. lia.
Qed.

Lemma one_byte_suffix nc p pat f rest :
  one_byte nc (p :: pat) = Some (f, rest) → rest `suffix_of` pat.
Proof.
  cbn [one_byte]. destruct (p =? 42); [done|]. destruct (p =? 63); [by intros [= _ <-]|].
  destruct (p =? 91).
  - destruct pat as [|q body]; [|destruct (q =? 94)]; intros [= _ <-].
    + apply parse_class_suffix.
    + apply suffix_cons_r, parse_class_suffix.
    + apply parse_class_suffix.
  - destruct pat as [|q rest1]; [|destruct (p =? 92)]; intros [= _ <-]; try done.
    by apply suffix_cons_r.
Qed.

Lemma one_byte_some nc p pat : p ≠ 42 → ∃ f rest, one_byte nc (p :: pat) = Some (f, rest).
Proof.
  intros Hp. cbn [one_byte]. rewrite (proj2 (Z.eqb_neq _ _) Hp).
  repeat case_match; eauto.
Qed.

Lemma stars_suffix l1 l2 : l1 `suffix_of` l2 → stars l1 ≤ stars l2.
Proof. intros [k ->]. unfold stars. rewrite filter_app, length_app. lia. Qed.

Lemma stars_cons pat : stars (42 :: pat) = stars pat + 1.
Proof. unfold stars. rewrite filter_cons_True by done. simpl. lia. Qed.

Lemma drop_stars_suffix pat : drop_stars pat `suffix_of` pat.
Proof. induction pat as [|p pat IH]; simpl; [done|]. destruct (p =? 42); [by apply suffix_cons_r|done]. Qed.

Lemma drop_stars_head pat p rest : drop_stars pat = p :: rest → p ≠ 42.
Proof.
  induction pat as [|q pat IH]; simpl; [done|]. destruct (Z.eqb_spec q 42); [done|]. by intros [= <- _].
Qed.

Lemma glob_drop_stars nc pat s : glob nc (drop_stars pat) s → glob nc pat s.
Proof.
  induction pat as [|p pat IH]; simpl; [done|]. destruct (Z.eqb_spec p 42) as [->|]; [|done].
  intros H. apply (glob_star _ _ []). by apply IH.
Qed.

(** A star absorbs any prefix, so consecutive stars count once. *)
Lemma glob_star_inv nc pat s :
  glob nc (42 :: pat) s ↔ ∃ s1 s2, s = s1 ++ s2 ∧ glob nc (drop_stars pat) s2.
Proof.
  split.
  - revert s. induction pat as [|p pat IH]; intros s H;
      inversion H as [|? s1 s2 H2|? f rest c s' Hf]; subst; try done.
    + simpl. eauto.
    + cbn [drop_stars]. destruct (Z.eqb_spec p 42) as [->|]; [|eauto].
      apply IH in H2 as (t1 & t2 & -> & ?). exists (s1 ++ t1), t2. by rewrite <- app_assoc.
  - intros (s1 & s2 & -> & H). apply glob_star. by apply glob_drop_stars.
Qed.

Lemma glob_empty nc pat : glob nc pat [] ↔ drop_stars pat = [].
Proof.
  split.
  - intros H. remember [] as s eqn:Hs in H. induction H as [|pat s1 s2 _ IH|]; try done.
    apply app_eq_nil in Hs as [_ ->]. simpl. by apply IH.
  - intros H. apply glob_drop_stars. rewrite H. constructor.
Qed.

Lemma glob_one_inv nc pat f rest c s :
  one_byte nc pat = Some (f, rest) → glob nc pat (c :: s) ↔ f c = true ∧ glob nc rest s.
Proof.
  intros Hob. split.
  - intros H. inversion H as [|pat' s1 s2 ? E|? f' rest' ? ? Hob']; subst; [done|]. by simplify_eq.
  - intros [??]. by eapply glob_one.
Qed.

(** One turn of the loop on a pattern that starts with a one-byte test. *)
Lemma match_loop_one fuel nc nesting pat f rest c s skip :
  one_byte nc pat = Some (f, rest) →
  match_loop (S fuel) nc nesting pat (c :: s) skip =
    if f c then
      match s with
      | [] => (match drop_stars rest with [] => true | _ => false end, skip)
      | _ => match_loop fuel nc nesting rest s skip
      end
    else (false, skip).
Proof.
  destruct pat as [|p pat]; [done|]. cbn [one_byte match_loop].
  destruct (p =? 42); [done|]. destruct (p =? 63); [by intros [= <- <-]|].
  destruct (p =? 91).
  - assert (∀ negate body,
      Some (class_test nc negate (parse_class body)) = Some (f, rest) →
      (let '(matched, pat2) := class_loop nc c body false in
       if Bool.eqb matched negate then (false, skip)
       else match s with
            | [] => (match drop_stars pat2 with [] => true | _ => false end, skip)
            | _ => match_loop fuel nc nesting pat2 s skip
            end) =
      (if f c then
         match s with
         | [] => (match drop_stars rest with [] => true | _ => false end, skip)
         | _ => match_loop fuel nc nesting rest s skip
         end
       else (false, skip))) as Hclass.
    { intros negate body [= <- <-]. rewrite class_loop_members. cbn [orb].
      by destruct negate, (existsb _ _). }
    destruct pat as [|q body]; [|destruct (q =? 94)]; apply Hclass.
  - destruct pat as [|q rest1]; [|destruct (p =? 92)]; by intros [= <- <-].
Qed.

Lemma star_loop_spec (P : list Z → Prop) rec s :
  (∀ t, t ≠ [] → t `suffix_of` s →
     match rec t false with
     | (true, _) => P t
     | (false, false) => ¬ P t
     | (false, true) => ∀ u, u `suffix_of` t → ¬ P u
     end) →
  ¬ P [] →
  match star_loop rec s false with
  | (true, _) => ∃ u, u `suffix_of` s ∧ P u
  | (false, k) => k = true ∧ ∀ u, u `suffix_of` s → ¬ P u
  end.
Proof.
  intros Hrec Hnil. induction s as [|c s IH].
  - simpl. split; [done|]. by intros u ->%suffix_nil_inv.
  - cbn [star_loop]. pose proof (Hrec (c :: s) ltac:(done) ltac:(done)) as H.
    destruct (rec (c :: s) false) as [[|] k].
    + exists (c :: s). by split.
    + destruct k; [done|]. specialize (IH (λ t Ht Hs, Hrec t Ht (suffix_cons_r _ _ _ Hs))).
      destruct (star_loop rec s false) as [[|] k].
      * destruct IH as (u & Hu & ?). exists u. split; [by apply suffix_cons_r|done].
      * destruct IH as [-> IH]. split; [done|].
        intros u [->|Hu]%suffix_cons_cases; [done|]. by apply IH.
Qed.

(** The meaning of the pair the loop returns: [true] for a match; [(false, false)]
    for no match here; [(false, true)] for no match here nor at any later position,
    which is what lets an enclosing star give up. *)
Definition loop_post (nc : bool) (pat s : list Z) (r : bool * bool) : Prop :=
  match r with
  | (true, _) => glob nc pat s
  | (false, false) => ¬ glob nc pat s
  | (false, true) => ∀ t, t `suffix_of` s → ¬ glob nc pat t
  end.

Lemma match_loop_star_post fuel nc nesting pat c s :
  (∀ pat' s', (length pat' < S (length pat))%nat → nesting + 1 + stars pat' ≤ MAX_STAR_NESTING →
     s' ≠ [] → loop_post nc pat' s' (match_loop fuel nc (nesting + 1) pat' s' false)) →
  nesting + stars (42 :: pat) ≤ MAX_STAR_NESTING →
  loop_post nc (42 :: pat) (c :: s) (match_loop (S fuel) nc nesting (42 :: pat) (c :: s) false).
Proof.
  intros IH Hn. rewrite stars_cons in Hn. cbn [match_loop]. rewrite Z.eqb_refl.
  assert (stars (drop_stars pat) ≤ stars pat) as Hs by apply stars_suffix, drop_stars_suffix.
  assert (length (drop_stars pat) ≤ length pat)%nat as Hl by apply suffix_length, drop_stars_suffix.
  assert (0 ≤ stars pat) as Hpos by (unfold stars; lia).
  destruct (drop_stars pat) as [|p2 pat2] eqn:E.
  { cbn [loop_post]. apply glob_star_inv. exists (c :: s), []. rewrite app_nil_r, E.
    split; [done|constructor]. }
  rewrite (proj2 (Z.ltb_ge _ _)) by lia.
  assert (¬ glob nc (p2 :: pat2) []) as Hnil.
  { rewrite glob_empty. cbn [drop_stars].
    by rewrite (proj2 (Z.eqb_neq _ _) (drop_stars_head _ _ _ E)). }
  pose proof (star_loop_spec (glob nc (p2 :: pat2))
    (λ s skip, match_loop fuel nc (nesting + 1) (p2 :: pat2) s skip) (c :: s)) as H.
  specialize (H (λ t Ht _, IH (p2 :: pat2) t ltac:(lia) ltac:(lia) Ht) Hnil).
  destruct (star_loop _ _ _) as [[|] k]; cbn [loop_post].
  - destruct H as (u & [t Ht] & Hu). apply glob_star_inv. rewrite E. eauto.
  - destruct H as [-> H]. intros t Ht (s1 & s2 & -> & Hg)%glob_star_inv. rewrite E in Hg.
    eapply H; [|done]. etrans; [|done]. by exists s1.
Qed.

Lemma match_loop_post fuel nc nesting pat s :
  (length pat < fuel)%nat → nesting + stars pat ≤ MAX_STAR_NESTING → s ≠ [] →
  loop_post nc pat s (match_loop fuel nc nesting pat s false).
Proof.
  revert nesting pat s. induction fuel as [|fuel IH]; intros nesting pat s Hf Hn Hs; [lia|].
  destruct s as [|c s]; [done|]. destruct pat as [|p pat].
  { simpl. intros H. inversion H; subst; done. }
  simpl in Hf. destruct (decide (p = 42)) as [->|Hp].
  { apply match_loop_star_post; [|done]. intros pat' s' Hl Hn' Hs'. apply IH; [lia|done|done]. }
  destruct (one_byte_some nc p pat Hp) as (f & rest & Hob).
  rewrite (match_loop_one _ _ _ _ _ _ _ _ _ Hob).
  pose proof (one_byte_suffix _ _ _ _ _ Hob) as Hsuf.
  assert (stars rest ≤ stars (p :: pat)) by by apply stars_suffix, suffix_cons_r.
  apply suffix_length in Hsuf as Hl.
  destruct (f c) eqn:Hfc; [|cbn [loop_post]; rewrite (glob_one_inv _ _ _ _ _ _ Hob); intros [? _]; congruence].
  destruct s as [|c2 s].
  - destruct (drop_stars rest) eqn:E; cbn [loop_post];
      rewrite (glob_one_inv _ _ _ _ _ _ Hob), glob_empty, E; [done|naive_solver].
  - specialize (IH nesting rest (c2 :: s) ltac:(lia) ltac:(lia) ltac:(done)).
    destruct (match_loop fuel nc nesting rest (c2 :: s) false) as [[|] [|]]; cbn [loop_post] in *;
      rewrite ?(glob_one_inv _ _ _ _ _ _ Hob); [done..| |naive_solver].
    intros [|x t] Ht.
    + rewrite glob_empty. cbn [drop_stars]. by rewrite (proj2 (Z.eqb_neq _ _) Hp).
    + rewrite (glob_one_inv _ _ _ _ _ _ Hob). intros [_ Hg]. apply (IH t); [|done].
      apply suffix_cons_inv in Ht as [[= _ ->]|Ht]; [done|].
      etrans; [|done]. by apply suffix_cons_r.
Qed.

(** Whatever the limits, an accepted string is matched by the pattern. *)
Lemma match_loop_sound fuel nc nesting pat s skip :
  s ≠ [] → fst (match_loop fuel nc nesting pat s skip) = true → glob nc pat s.
Proof.
  revert nesting pat s skip. induction fuel as [|fuel IH]; intros nesting pat s skip Hs; [done|].
  destruct s as [|c s]; [done|]. destruct pat as [|p pat]; [done|].
  destruct (decide (p = 42)) as [->|Hp].
  - cbn [match_loop]. rewrite Z.eqb_refl. destruct (drop_stars pat) as [|p2 pat2] eqn:E.
    { intros _. apply glob_star_inv. exists (c :: s), []. rewrite app_nil_r, E. split; [done|constructor]. }
    intros H. apply glob_star_inv. rewrite E. revert H. generalize (c :: s) as t. intros t. revert skip.
    induction t as [|x t IHt]; intros skip; cbn [star_loop]; [done|].
    destruct (_ <? _); cbn [fst].
    { destruct skip; [done|]. intros H. destruct (IHt _ H) as (s1 & s2 & -> & ?). by exists (x :: s1), s2. }
    destruct (match_loop _ _ _ _ (x :: t) _) as [[|] k] eqn:Er.
    { intros _. exists [], (x :: t). split; [done|].
      eapply (IH (nesting + 1) _ _ skip); [done|]. by rewrite Er. }
    destruct k; [done|]. intros H. destruct (IHt _ H) as (s1 & s2 & -> & ?). by exists (x :: s1), s2.
  - destruct (one_byte_some nc p pat Hp) as (f & rest & Hob).
    rewrite (match_loop_one _ _ _ _ _ _ _ _ _ Hob), (glob_one_inv _ _ _ _ _ _ Hob).
    destruct (f c); [|done]. destruct s as [|c2 s].
    + rewrite glob_empty. by destruct (drop_stars rest).
    + intros H. split; [done|]. by eapply IH.
Qed.

(** What the doc comment calls a match: the empty string only by the empty pattern,
    any other string by the dialect. *)
Definition glob_spec (nc : bool) (pat s : list Z) : Prop :=
  match s with [] => pat = [] | _ => glob nc pat s end.

Lemma glob_match_nil pat nc : glob_match pat [] nc = true ↔ pat = [].
Proof. unfold glob_match, match_at. by destruct pat. Qed.

Lemma glob_match_decides pat s nc :
  stars pat ≤ MAX_STAR_NESTING → glob_match pat s nc = true ↔ glob_spec nc pat s.
Proof.
  intros Hstars. destruct s as [|c s]; [apply glob_match_nil|].
  unfold glob_match, match_at. cbn [glob_spec]. change (MAX_STAR_NESTING <? 0) with false. cbv iota.
  pose proof (match_loop_post (S (length pat)) nc 0 pat (c :: s) ltac:(lia) ltac:(lia) ltac:(done)) as H.
  destruct (match_loop _ _ _ _ _ _) as [[|] [|]]; cbn [loop_post fst] in *; try naive_solver.
Qed.

(** C10: the matcher with bounded backtracking decides the glob dialect: for every
    pattern with at most [MAX_STAR_NESTING] stars it accepts exactly the strings the
    dialect matches, so cutting the search with [skip_longer_matches] loses nothing. *)
Theorem glob_match_correct pat s nc :
  stars pat ≤ MAX_STAR_NESTING → glob_match pat s nc = true ↔ glob_spec nc pat s.
Proof. apply glob_match_decides. Qed.

Lemma glob_match_correct_witness :
  stars (B "a*[^x-z]*c") ≤ MAX_STAR_NESTING ∧
  glob_match (B "a*[^x-z]*c") (B "abbbc") false = true ∧ glob_spec false (B "a*[^x-z]*c") (B "abbbc").
Proof.
  assert (stars (B "a*[^x-z]*c") ≤ MAX_STAR_NESTING) as H by (vm_compute; discriminate).
  split; [done|]. split; [vm_compute; reflexivity|].
  apply (glob_match_correct (B "a*[^x-z]*c") (B "abbbc") false H). vm_compute. reflexivity.
Defined.

(** With no condition on the pattern, the matcher never accepts a string the
    dialect does not match: hitting the nesting limit can only reject. *)
Theorem glob_match_sound pat s nc : glob_match pat s nc = true → glob_spec nc pat s.
Proof.
  destruct s as [|c s]; [apply glob_match_nil|]. unfold glob_match, match_at.
  change (MAX_STAR_NESTING <? 0) with false. cbv iota. by apply match_loop_sound.
Qed.

Lemma glob_match_sound_witness : glob_spec true (B "H?LL*") (B "hello").
Proof. apply (glob_match_sound (B "H?LL*") (B "hello") true). vm_compute. reflexivity. Defined.

(** [KEYS *] and the SCAN commands select every name, the empty one included,
    while the same pattern built for pub/sub does not match the empty name. *)
Theorem keyspace_star_selects_all name :
  is_match (glob_keyspace (B "*")) name = true ∧
  (is_match (glob_new (B "*")) name = true ↔ name ≠ []).
Proof.
  split; [reflexivity|]. unfold is_match. cbn [select_all glob_new orb pattern nocase].
  rewrite glob_match_decides by (vm_compute; discriminate).
  destruct name as [|c name]; [naive_solver|]. split; [done|]. intros _.

  change (B "*") with [42]. rewrite <- (app_nil_r (c :: name)). cbn [glob_spec].
  apply glob_star. constructor.
Qed.
