(* ===== verification/Kv.v ===== *)
(** * The key-value abstraction: src/kv/kv.rs

    Entries and items with their TTL arithmetic, the error space, the [Tx] trait
    as an interface ([TxOps]) with the laws its clients rely on ([TxLaws]): a
    transaction behaves like a map from keys to items in which expired items are
    invisible. Also the [Runs] judgement used by every command proof: a database
    operation run against any lawful transaction takes one abstract map to
    another. The clock is the argument [now] (Unix milliseconds), constant during
    one operation. *)
From S2P Require Import Prelude.

(** ** Durations ([std::time::Duration], in nanoseconds) *)

Definition from_millis (ms : Z) : Z := ms * 1000000.
Definition from_secs (s : Z) : Z := s * 1000000000.
Definition as_millis (d : Z) : Z := d / 1000000.
Definition is_zero (d : Z) : bool := d =? 0.

(** ** Errors, entries and items *)

Inductive KvError : Type :=
| KeyNotFound
| Conflict
| DbClosed
| Undefined.

#[export] Instance KvError_eq_dec : EqDecision KvError.
Proof. solve_decision. Defined.

(** The [Display] text of each error. *)
Definition kv_error_text (e : KvError) : list Z :=
  match e with
  | KeyNotFound => B "Key not found"
  | Conflict => B "Conflict"
  | DbClosed => B "Closed"
  | Undefined => B "Undefined"
  end.

Record Entry : Type := mkEntry {
  entry_key : list Z;
  entry_value : list Z;
  entry_meta : Z;
  entry_ttl : Z
}.

Record Item : Type := mkItem {
  item_key : list Z;
  item_value : list Z;
  item_meta : Z;
  item_expire_ts : option Z
}.

#[export] Instance Item_eq_dec : EqDecision Item.
Proof. solve_decision. Defined.

(** [Entry::new], [Entry::metadata], [Entry::ttl]. *)
Definition entry_new (key value : list Z) : Entry := mkEntry key value 0 0.
Definition with_metadata (e : Entry) (data : Z) : Entry :=
  mkEntry (entry_key e) (entry_value e) data (entry_ttl e).
Definition with_ttl (e : Entry) (duration : Z) : Entry :=
  mkEntry (entry_key e) (entry_value e) (entry_meta e) duration.

(** [Item::ttl] and [Item::is_expired] at time [now]. *)
Definition item_ttl (now : Z) (i : Item) : option Z :=
  (λ ts, from_millis (Z.max (saturating_sub ts now) 0)) <$> item_expire_ts i.
Definition is_expired (now : Z) (i : Item) : bool :=
  match item_ttl now i with Some d => is_zero d | None => false end.

(** [Entry::keep_ttl_of]. *)
Definition keep_ttl_of (now : Z) (e : Entry) (i : Item) : Entry :=
  match item_ttl now i with Some remaining => with_ttl e remaining | None => e end.

Inductive TxIsolation : Type :=
| Snapshot
| SerializableSnapshot.

#[export] Instance TxIsolation_eq_dec : EqDecision TxIsolation.
Proof. solve_decision. Defined.

(** What a [KeyValueIterator] yields: the items [next] stops at, in order, then
    the error it ends with, if any. *)
Record Iter : Type := mkIter {
  iter_items : list Item;
  iter_err : option KvError
}.

(** [std::ops::Bound] *)
Inductive Bound : Type :=
| Included (k : list Z)
| Excluded (k : list Z)
| Unbounded.

(** ** The [Tx] trait *)

Class TxOps (T : Type) : Type := {
  tx_get : Z → list Z → T → result Item KvError * T;
  tx_set : Z → Entry → T → result () KvError * T;
  tx_delete : list Z → T → result () KvError * T;
  tx_prefix_iter : Z → list Z → T → result Iter KvError * T;
  tx_range_iter : Z → Bound → Bound → T → result Iter KvError * T
}.

(** The item an entry becomes when it is written at time [now]. *)
Definition item_of (now : Z) (e : Entry) : Item :=
  mkItem (entry_key e) (entry_value e) (entry_meta e)
    (if is_zero (entry_ttl e) then None
     else Some (saturating_add now (as_millis (entry_ttl e)))).

(** Reading key [k] of an abstract store: an expired item counts as absent. *)
Definition lookup_live (now : Z) (k : list Z) (m : gmap (list Z) Item) : result Item KvError :=
  match m !! k with
  | Some i => if is_expired now i then Err KeyNotFound else Ok i
  | None => Err KeyNotFound
  end.

(** Clocks after the epoch, and TTLs that fit the [i64] of milliseconds they are cast to. *)
Definition clock_ok (now : Z) : Prop := 0 < now ≤ i64_max.
Definition entry_ok (e : Entry) : Prop := 0 ≤ entry_ttl e ∧ as_millis (entry_ttl e) ≤ i64_max.

(** The contract of a transaction: [raw] is what it holds (expired items
    included), [ok] says that the backend reports no I/O error. *)
Class TxLaws (T : Type) `{!TxOps T} (raw : T → gmap (list Z) Item) (ok : T → Prop) : Prop := {
  tx_get_law now k t :
    clock_ok now → ok t →
    ∃ t', tx_get now k t = (lookup_live now k (raw t), t') ∧ ok t' ∧ raw t' = raw t;
  tx_set_law now e t :
    clock_ok now → entry_ok e → ok t →
    ∃ t', tx_set now e t = (Ok (), t') ∧ ok t' ∧
          raw t' = <[entry_key e := item_of now e]> (raw t);
  tx_delete_law k t :
    ok t →
    ∃ t', tx_delete k t = (Ok (), t') ∧ ok t' ∧ raw t' = delete k (raw t)
}.

(** ** The store behind the transactions *)

(** [KeyValueStore::begin], [Tx::commit] and [Tx::discard]. The write handle is its
    sequence number. *)
Class StoreOps (S T : Type) : Type := {
  st_begin : bool → TxIsolation → S → result T KvError * S;
  st_commit : T → S → result (option Z) KvError * S;
  st_discard : T → S → S
}.

(** How a transaction began: the content it sees as its snapshot, its isolation, and
    keys it has read since. *)
Record TxStart : Type := mkStart {
  ts_base : gmap (list Z) Item;
  ts_iso : TxIsolation;
  ts_read : gset (list Z)
}.

Definition note_read (k : list Z) (x : TxStart) : TxStart :=
  mkStart (ts_base x) (ts_iso x) ({[k]} ∪ ts_read x).

(** The content [cur] with the changes from [base] to [mine] installed. *)
Definition overlay (base mine cur : gmap (list Z) Item) : gmap (list Z) Item :=
  filter (λ ki, base !! ki.1 ≠ Some ki.2) mine ∪ (cur ∖ (base ∖ mine)).

(** A commit over [cur] loses no concurrent write: the keys the transaction changed
    are as they were when it began, and under serializable isolation so are the keys
    it read. *)
Definition conflict_free (x : TxStart) (mine cur : gmap (list Z) Item) : Prop :=
  (∀ k : list Z, mine !! k ≠ ts_base x !! k → cur !! k = ts_base x !! k) ∧
  (ts_iso x = SerializableSnapshot → ∀ k : list Z, k ∈ ts_read x → cur !! k = ts_base x !! k).

(** The contract of a store whose committed content is [abs]: a transaction begins on
    the current content ([ok x t]: it is healthy and began as [x] says), a commit
    installs the transaction's changes on the content of that moment unless a
    concurrent write is in the way, and a failed commit or a discard changes nothing. *)
Class StoreLaws (S T : Type) `{!TxOps T, !StoreOps S T} (abs : S → gmap (list Z) Item)
    (raw : T → gmap (list Z) Item) (ok : TxStart → T → Prop) : Prop := {
  store_tx_laws x : TxLaws T raw (ok x);
  read_law now k t x : clock_ok now → ok x t → ok (note_read k x) (snd (tx_get now k t));
  begin_law w iso st :
    abs (snd (st_begin w iso st)) = abs st ∧
    ∀ t, fst (st_begin w iso st) = Ok t → ok (mkStart (abs st) iso ∅) t ∧ raw t = abs st;
  commit_law t st x :
    ok x t →
    match fst (st_commit t st) with
    | Ok _ => conflict_free x (raw t) (abs st) ∧
              abs (snd (st_commit t st)) = overlay (ts_base x) (raw t) (abs st)
    | Err _ => abs (snd (st_commit t st)) = abs st
    end;
  discard_law t st : abs (st_discard t st) = abs st
}.

(** [KeyValueStore::update] and [KeyValueStore::read], the same text in both backends. *)
Definition kv_update {S T} `{!StoreOps S T} (f : T → result () KvError * T) (s : S)
  : result (option Z) KvError * S :=
  match st_begin true Snapshot s with
  | (Err e, s) => (Err e, s)
  | (Ok tx, s) =>
      match f tx with
      | (Ok _, tx) => st_commit tx s
      | (Err e, tx) => (Err e, st_discard tx s)
      end
  end.

Definition kv_read {S T R} `{!StoreOps S T} (f : T → result R KvError * T) (s : S)
  : result R KvError * S :=
  match st_begin false Snapshot s with
  | (Err e, s) => (Err e, s)
  | (Ok tx, s) =>
      match f tx with
      | (Ok v, tx) => (Ok v, st_discard tx s)
      | (Err e, tx) => (Err e, st_discard tx s)
      end
  end.

(** ** Lexicographic order of keys, the order iterators follow *)

Fixpoint bytes_le (a b : list Z) : bool :=
  match a, b with
  | [], _ => true
  | _ :: _, [] => false
  | x :: a', y :: b' => (x <? y) || ((x =? y) && bytes_le a' b')
  end.

Definition item_le (i j : Item) : Prop := bytes_le (item_key i) (item_key j) = true.
#[export] Instance item_le_dec : RelDecision item_le.
Proof. intros i j. unfold item_le. apply _. Defined.

(** The live items whose key satisfies [P], in key order. *)
Definition scan_where (now : Z) (P : list Z → bool) (m : gmap (list Z) Item) : list Item :=
  merge_sort item_le
    (filter (λ i, P (item_key i) = true ∧ is_expired now i = false)
       (snd <$> map_to_list m)).

(** Those whose key starts with [p], and those whose key is between two bounds. *)
Definition scan_prefix (now : Z) (p : list Z) (m : gmap (list Z) Item) : list Item :=
  scan_where now (starts_with p) m.

Definition above (lo : Bound) (k : list Z) : bool :=
  match lo with Included a => bytes_le a k | Excluded a => negb (bytes_le k a) | Unbounded => true end.
Definition below (hi : Bound) (k : list Z) : bool :=
  match hi with Included b => bytes_le k b | Excluded b => negb (bytes_le b k) | Unbounded => true end.
Definition in_bounds (lo hi : Bound) (k : list Z) : bool := above lo k && below hi k.

Definition scan_range (now : Z) (lo hi : Bound) (m : gmap (list Z) Item) : list Item :=
  scan_where now (in_bounds lo hi) m.

(** What a scan must agree on: key, value and metadata of each item. *)
Definition item_data (i : Item) : list Z * list Z * Z := (item_key i, item_value i, item_meta i).

(** No item an iterator yields has expired. *)
Definition all_live (now : Z) (it : Iter) : Prop := Forall (λ i, is_expired now i = false) (iter_items it).

(** The additional contract of a transaction whose iterators see the same
    live items as [tx_get] does. *)
Class TxScanLaws (T : Type) `{!TxOps T} (raw : T → gmap (list Z) Item) (ok : T → Prop) : Prop := {
  tx_scan_law now p t :
    clock_ok now → ok t →
    ∃ it t', tx_prefix_iter now p t = (Ok it, t') ∧ ok t' ∧ raw t' = raw t ∧
      iter_err it = None ∧ item_data <$> iter_items it = item_data <$> scan_prefix now p (raw t) ∧ all_live now it;
  tx_range_law now lo hi t :
    clock_ok now → ok t →
    ∃ it t', tx_range_iter now lo hi t = (Ok it, t') ∧ ok t' ∧ raw t' = raw t ∧
      iter_err it = None ∧ item_data <$> iter_items it = item_data <$> scan_range now lo hi (raw t) ∧ all_live now it
}.

(** ** Database operations *)

(** [DbError] of src/redis/common/op.rs. *)
Inductive DbError : Type :=
| Kv (e : KvError)
| WrongType
| KeyExists
| Redis (msg : list Z).

#[export] Instance DbError_eq_dec : EqDecision DbError.
Proof. solve_decision. Defined.

(** A computation against a transaction: [async fn(tx: &dyn Tx) -> Result<A, DbError>]. *)
Definition DbM (T A : Type) : Type := T → outcome A DbError * T.

#[export] Instance DbM_ret T : MRet (DbM T) := λ A a t, (Ret a, t).
#[export] Instance DbM_bind T : MBind (DbM T) := λ A B k m t,
  match m t with
  | (Ret a, t') => k a t'
  | (Fail e, t') => (Fail e, t')
  | (Panic, t') => (Panic, t')
  end.

Definition fail {T A} (e : DbError) : DbM T A := λ t, (Fail e, t).
Definition panic {T A} : DbM T A := λ t, (Panic, t).

Section DbM.
Context {T : Type} `{!TxOps T} (now : Z).

(** [tx.get(k).await], [tx.set(e)], [tx.delete(k)] as values to match on, and with [?]. *)
Definition get (k : list Z) : DbM T (result Item KvError) := λ t,
  let '(r, t') := tx_get now k t in (Ret r, t').
Definition set_res (e : Entry) : DbM T (result () KvError) := λ t,
  let '(r, t') := tx_set now e t in (Ret r, t').
Definition delete_res (k : list Z) : DbM T (result () KvError) := λ t,
  let '(r, t') := tx_delete k t in (Ret r, t').
Definition prefix_iter (p : list Z) : DbM T (result Iter KvError) := λ t,
  let '(r, t') := tx_prefix_iter now p t in (Ret r, t').
Definition range_iter (lo hi : Bound) : DbM T (result Iter KvError) := λ t,
  let '(r, t') := tx_range_iter now lo hi t in (Ret r, t').

(** The [?] operator on a kv result. *)
Definition try_kv {A} (r : result A KvError) : DbM T A :=
  match r with Ok a => mret a | Err e => fail (Kv e) end.

Definition set (e : Entry) : DbM T () := r ← set_res e; try_kv r.
Definition del (k : list Z) : DbM T () := r ← delete_res k; try_kv r.

(** [match tx.get(k).await { Ok(item) => Some(item), Err(KeyNotFound) => None, Err(e) => return Err(e.into()) }]. *)
Definition get_opt (k : list Z) : DbM T (option Item) :=
  r ← get k;
  match r with
  | Ok item => mret (Some item)
  | Err KeyNotFound => mret None
  | Err e => fail (Kv e)
  end.
End DbM.

(** ** Running an operation on an abstract store *)

(** The live item under [k], as an option. *)
Definition live (now : Z) (k : list Z) (m : gmap (list Z) Item) : option Item :=
  match lookup_live now k m with Ok i => Some i | Err _ => None end.

Section Runs.
Context {T : Type} `{!TxOps T} {raw : T → gmap (list Z) Item} {ok : T → Prop}.
Context `{!TxLaws T raw ok}.
Context {now : Z} (Hnow : clock_ok now).

(** [op] takes the abstract store [m] to [m'] and ends with [r], from any healthy
    transaction that holds [m]. *)
Definition Runs {A} (op : DbM T A) (m : gmap (list Z) Item)
    (r : outcome A DbError) (m' : gmap (list Z) Item) : Prop :=
  ∀ t, ok t → raw t = m → ∃ t', op t = (r, t') ∧ ok t' ∧ raw t' = m'.

Lemma runs_ret {A} (a : A) m : Runs (mret a) m (Ret a) m.
Proof. intros t Ht Hm. by exists t. Qed.

Lemma runs_fail {A} e m : Runs (A:=A) (fail e) m (Fail e) m.
Proof. intros t Ht Hm. by exists t. Qed.

Lemma runs_panic {A} m : Runs (A:=A) panic m Panic m.
Proof. intros t Ht Hm. by exists t. Qed.

Lemma runs_bind {A C} (op : DbM T A) (k : A → DbM T C) m a m1 r m2 :
  Runs op m (Ret a) m1 → Runs (k a) m1 r m2 → Runs (op ≫= k) m r m2.
Proof.
  intros H1 H2 t Ht Hm. destruct (H1 t Ht Hm) as (t1 & E1 & Ht1 & Hm1).
  destruct (H2 t1 Ht1 Hm1) as (t2 & E2 & Ht2 & Hm2). exists t2. split; [|done].
  unfold mbind, DbM_bind. by rewrite E1.
Qed.

Lemma runs_bind_fail {A C} (op : DbM T A) (k : A → DbM T C) m e m1 :
  Runs op m (Fail e) m1 → Runs (op ≫= k) m (Fail e) m1.
Proof.
  intros H1 t Ht Hm. destruct (H1 t Ht Hm) as (t1 & E1 & Ht1 & Hm1).
  exists t1. split; [|done]. unfold mbind, DbM_bind. by rewrite E1.
Qed.

Lemma runs_bind_assoc {A C D} (op : DbM T A) (k1 : A → DbM T C) (k2 : C → DbM T D) m r m' :
  Runs ((op ≫= k1) ≫= k2) m r m' → Runs (op ≫= λ a, k1 a ≫= k2) m r m'.
Proof.
  intros H t Ht Hm. destruct (H t Ht Hm) as (t' & E & H'). exists t'. split; [|done].
  rewrite <- E. unfold mbind, DbM_bind. by destruct (op t) as [[] ?].
Qed.

Lemma runs_get k m : Runs (get now k) m (Ret (lookup_live now k m)) m.
Proof.
  intros t Ht <-. destruct (tx_get_law now k t Hnow Ht) as (t' & E & Ht' & Hm').
  exists t'. split; [|done]. unfold get. by rewrite E.
Qed.

Lemma lookup_live_live k m :
  lookup_live now k m = match live now k m with Some i => Ok i | None => Err KeyNotFound end.
Proof.
  unfold live. destruct (lookup_live now k m) as [i|e] eqn:E; [done|]. revert E.
  unfold lookup_live. repeat case_match; congruence.
Qed.

Lemma runs_get_opt k m : Runs (get_opt now k) m (Ret (live now k m)) m.
Proof.
  eapply runs_bind; [apply runs_get|]. rewrite lookup_live_live.
  destruct (live now k m); apply runs_ret.
Qed.

Lemma runs_set_res e m :
  entry_ok e → Runs (set_res now e) m (Ret (Ok ())) (<[entry_key e := item_of now e]> m).
Proof.
  intros He t Ht <-. destruct (tx_set_law now e t Hnow He Ht) as (t' & E & Ht' & Hm').
  exists t'. split; [|done]. unfold set_res. by rewrite E.
Qed.

Lemma runs_set e m :
  entry_ok e → Runs (set now e) m (Ret ()) (<[entry_key e := item_of now e]> m).
Proof. intros He. eapply runs_bind; [by apply runs_set_res|]. apply runs_ret. Qed.

Lemma runs_delete_res k m : Runs (delete_res k) m (Ret (Ok ())) (delete k m).
Proof.
  intros t Ht <-. destruct (tx_delete_law k t Ht) as (t' & E & Ht' & Hm').
  exists t'. split; [|done]. unfold delete_res. by rewrite E.
Qed.

Lemma runs_del k m : Runs (del k) m (Ret ()) (delete k m).
Proof. eapply runs_bind; [apply runs_delete_res|]. apply runs_ret. Qed.
End Runs.

Create HintDb runs discriminated.
#[export] Hint Resolve runs_ret runs_fail runs_panic runs_get runs_get_opt runs_set runs_set_res
  runs_del runs_delete_res : runs.

(** Runs the next step of an operation and simplifies what it returned. *)
Ltac run_step := eapply runs_bind; [solve [eauto with runs]|]; cbn beta iota.
Ltac run_done := solve [eauto with runs].

(** ** TTL arithmetic *)

(** Expiry times a store holds are [i64] values. *)
Definition item_ok (i : Item) : Prop :=
  match item_expire_ts i with Some ts => in_i64 ts | None => True end.
Definition store_ok (m : gmap (list Z) Item) : Prop := map_Forall (λ _ i, item_ok i) m.

Lemma as_millis_from_millis ms : as_millis (from_millis ms) = ms.
Proof. unfold as_millis, from_millis. apply Z.div_mul. lia. Qed.

Lemma item_of_ok now e : item_ok (item_of now e).
Proof.
  unfold item_ok, item_of. simpl. destruct (is_zero (entry_ttl e)); [done|]. width_lia.
Qed.

Lemma is_expired_spec now i :
  clock_ok now → item_ok i →
  is_expired now i = match item_expire_ts i with Some ts => ts <=? now | None => false end.
Proof.
  unfold is_expired, item_ttl, item_ok, is_zero, from_millis, clock_ok.
  destruct (item_expire_ts i) as [ts|]; [|done]. simpl. intros Hn Hi.
  destruct (Z.leb_spec ts now), (Z.eqb_spec (Z.max (saturating_sub ts now) 0 * 1000000) 0);
    try done; width_lia.
Qed.

(** Rewriting a live item with [keep_ttl_of] keeps its absolute expiry. *)
Lemma keep_ttl_of_expiry now e i :
  clock_ok now → item_ok i → is_expired now i = false → entry_ttl e = 0 →
  item_expire_ts (item_of now (keep_ttl_of now e i)) = item_expire_ts i ∧
  entry_ok (keep_ttl_of now e i).
Proof.
  intros Hn Hi Hlive He. rewrite is_expired_spec in Hlive by done.
  unfold keep_ttl_of, item_ttl, item_of, item_ok, entry_ok, clock_ok in *.
  destruct (item_expire_ts i) as [ts|]; simpl.
  - apply Z.leb_gt in Hlive. rewrite as_millis_from_millis. unfold from_millis, is_zero.
    destruct (Z.eqb_spec (Z.max (saturating_sub ts now) 0 * 1000000) 0); [width_lia|].
    split; [f_equal; width_lia|]. width_lia.
  - unfold is_zero. rewrite He. simpl. split; [done|]. unfold as_millis. split; [done|].
    vm_compute. discriminate.
Qed.

Lemma live_Some now k m i :
  live now k m = Some i ↔ m !! k = Some i ∧ is_expired now i = false.
Proof.
  unfold live, lookup_live. destruct (m !! k) as [j|]; [|naive_solver].
  destruct (is_expired now j) eqn:E; naive_solver congruence.
Qed.

Lemma live_insert now e m :
  clock_ok now → entry_ok e → (is_zero (entry_ttl e) || (1000000 <=? entry_ttl e)) = true →
  now < i64_max → live now (entry_key e) (<[entry_key e := item_of now e]> m) = Some (item_of now e).
Proof.
  intros Hn He Hl Hmax. apply live_Some. split; [apply lookup_insert_eq|].
  rewrite is_expired_spec by (done || apply item_of_ok). unfold item_of. simpl.
  destruct (is_zero (entry_ttl e)); [done|]. simpl in Hl. apply Z.leb_le in Hl.
  apply Z.leb_gt. unfold entry_ok, clock_ok, as_millis in *.
  assert (1 ≤ entry_ttl e / 1000000) by (apply Z.div_le_lower_bound; lia). width_lia.
Qed.

Lemma live_insert_ne now k k' i m : k ≠ k' → live now k' (<[k := i]> m) = live now k' m.
Proof. intros. unfold live, lookup_live. by rewrite lookup_insert_ne. Qed.

Lemma live_delete now k m : live now k (delete k m) = None.
Proof. unfold live, lookup_live. by rewrite lookup_delete_eq. Qed.

Lemma live_ok now k m i : store_ok m → live now k m = Some i → item_ok i.
Proof. intros Hm [Hk _]%live_Some. by eapply (map_Forall_lookup_1 _ _ _ _ Hm). Qed.

Lemma store_ok_empty : store_ok ∅.
Proof. apply map_Forall_empty. Qed.

Lemma store_ok_insert k i m : store_ok m → item_ok i → store_ok (<[k := i]> m).
Proof. intros Hm Hi. by apply map_Forall_insert_2. Qed.

Lemma store_ok_delete k m : store_ok m → store_ok (delete k m).
Proof. intros Hm. by apply map_Forall_delete. Qed.

Lemma entry_ok_no_ttl e : entry_ttl e = 0 → entry_ok e.
Proof. intros H. unfold entry_ok, as_millis. rewrite H. split; [done|]. vm_compute. discriminate. Qed.

#[export] Hint Resolve item_of_ok store_ok_insert store_ok_delete entry_ok_no_ttl : runs.

(** ** Iterator order *)
Lemma bytes_le_refl a : bytes_le a a = true.
Proof. induction a as [|x a IH]; simpl; [done|]. by rewrite Z.eqb_refl, IH, orb_true_r. Qed.

Lemma bytes_le_trans a b c : bytes_le a b = true → bytes_le b c = true → bytes_le a c = true.
Proof.
  revert b c. induction a as [|x a IH]; intros [|y b] [|z c]; simpl; try done.
  rewrite !orb_true_iff, !andb_true_iff, !Z.ltb_lt, !Z.eqb_eq.
  intros [?|[-> ?]] [?|[-> ?]]; [left; lia..|]. right. eauto.
Qed.

Lemma bytes_le_total a b : bytes_le a b = true ∨ bytes_le b a = true.
Proof.
  revert b. induction a as [|x a IH]; intros [|y b]; simpl; auto.
  rewrite !orb_true_iff, !andb_true_iff, !Z.ltb_lt, !Z.eqb_eq.
  destruct (Z.lt_total x y) as [?|[->|?]]; [auto| |auto]. destruct (IH b); auto.
Qed.

Lemma bytes_le_antisym a b : bytes_le a b = true → bytes_le b a = true → a = b.
Proof.
  revert b. induction a as [|x a IH]; intros [|y b]; simpl; try done.
  rewrite !orb_true_iff, !andb_true_iff, !Z.ltb_lt, !Z.eqb_eq.
  intros [?|[-> ?]] [?|[? ?]]; try lia. f_equal. by apply IH.
Qed.

Lemma bytes_le_app p a b : bytes_le (p ++ a) (p ++ b) = bytes_le a b.
Proof. induction p as [|x p IH]; simpl; [done|]. by rewrite Z.ltb_irrefl, Z.eqb_refl, IH. Qed.

#[export] Instance item_le_trans : Transitive item_le.
Proof. intros i j k. apply bytes_le_trans. Qed.
#[export] Instance item_le_total : Total item_le.
Proof. intros i j. apply bytes_le_total. Qed.

(** A sorted list of a store's items is determined by its members. *)
Lemma sorted_items_unique (m : gmap (list Z) Item) l1 l2 :
  (∀ k i, m !! k = Some i → item_key i = k) →
  (∀ i, i ∈ l1 → ∃ k, m !! k = Some i) → (∀ i, i ∈ l2 → ∃ k, m !! k = Some i) →
  Sorted item_le l1 → Sorted item_le l2 → l1 ≡ₚ l2 → l1 = l2.
Proof.
  intros Hkey H1 H2 Hs1 Hs2 Hp.
  apply (Sorted_unique_strong item_le); [|done..].
  intros i j (ki & Hi)%H1 (kj & Hj)%H2 Hij Hji.
  pose proof (bytes_le_antisym _ _ Hij Hji) as E.
  rewrite (Hkey _ _ Hi), (Hkey _ _ Hj) in E. congruence.
Qed.

Lemma scan_where_elem now P m i :
  i ∈ scan_where now P m ↔
    (∃ k, m !! k = Some i) ∧ P (item_key i) = true ∧ is_expired now i = false.
Proof.
  unfold scan_where. rewrite merge_sort_Permutation, list_elem_of_filter, list_elem_of_fmap.
  split.
  - intros [? ([k j] & -> & Hin%elem_of_map_to_list)]. eauto.
  - intros [[k Hk] ?]. split; [done|]. exists (k, i). split; [done|]. by apply elem_of_map_to_list.
Qed.

Lemma scan_where_live now P m : all_live now (mkIter (scan_where now P m) None).
Proof. apply Forall_forall. by intros i (_ & _ & ?)%scan_where_elem. Qed.

Lemma scan_prefix_elem now p m i :
  i ∈ scan_prefix now p m ↔
    (∃ k, m !! k = Some i) ∧ starts_with p (item_key i) = true ∧ is_expired now i = false.
Proof. apply scan_where_elem. Qed.

(** ** The map itself as a transaction *)

Module MapTx.
#[export] Instance map_tx : TxOps (gmap (list Z) Item) := {|
  tx_get now k m := (lookup_live now k m, m);
  tx_set now e m := (Ok (), <[entry_key e := item_of now e]> m);
  tx_delete k m := (Ok (), delete k m);
  tx_prefix_iter now p m := (Ok (mkIter (scan_prefix now p m) None), m);
  tx_range_iter now lo hi m := (Ok (mkIter (scan_range now lo hi m) None), m)
|}.

#[export] Instance map_laws : TxLaws (gmap (list Z) Item) id (λ _, True).
Proof. split; simpl; eauto. Qed.

#[export] Instance map_scan_laws : TxScanLaws (gmap (list Z) Item) id (λ _, True).
Proof. split; simpl; intros; eexists _, _; eauto 8 using scan_where_live. Qed.
End MapTx.

(** ** Three-way merge *)
Lemma lookup_overlay (base mine cur : gmap (list Z) Item) (k : list Z) :
  overlay base mine cur !! k = if decide (mine !! k = base !! k) then cur !! k else mine !! k.
Proof.
  unfold overlay. rewrite lookup_union, map_lookup_filter, lookup_difference, lookup_difference.
  destruct (mine !! k) as [i|] eqn:Em, (base !! k) as [j|] eqn:Eb; simpl; repeat case_guard;
    repeat case_decide; simplify_eq; try done; by destruct (cur !! k).
Qed.

Lemma overlay_same (base mine : gmap (list Z) Item) : overlay base mine base = mine.
Proof. apply map_eq. intros k. rewrite lookup_overlay. by case_decide. Qed.

Lemma overlay_unchanged (base cur : gmap (list Z) Item) : overlay base base cur = cur.
Proof. apply map_eq. intros k. rewrite lookup_overlay. by rewrite decide_True. Qed.

(** A store with optimistic transactions: a transaction keeps its snapshot, the keys
    it read and those it wrote, and a commit conflicts when one of the latter, or under
    serializable isolation of the former, is no longer what it was in the snapshot. *)
Module MapStore.
Record OccTx : Type := mkOcc {
  occ_iso : TxIsolation;
  occ_base : gmap (list Z) Item;
  occ_read : gset (list Z);
  occ_written : gset (list Z);
  occ_map : gmap (list Z) Item
}.

Definition occ_begin (iso : TxIsolation) (st : gmap (list Z) Item) : OccTx := mkOcc iso st ∅ ∅ st.

(** The keys a commit validates. *)
Definition occ_checked (t : OccTx) : gset (list Z) :=
  match occ_iso t with
  | Snapshot => occ_written t
  | SerializableSnapshot => occ_written t ∪ occ_read t
  end.

Definition occ_valid (t : OccTx) (st : gmap (list Z) Item) : bool :=
  forallb (λ k, bool_decide (st !! k = occ_base t !! k)) (elements (occ_checked t)).

#[export] Instance occ_tx : TxOps OccTx := {|
  tx_get now k t :=
    (lookup_live now k (occ_map t),
     mkOcc (occ_iso t) (occ_base t) ({[k]} ∪ occ_read t) (occ_written t) (occ_map t));
  tx_set now e t :=
    (Ok (), mkOcc (occ_iso t) (occ_base t) (occ_read t) ({[entry_key e]} ∪ occ_written t)
              (<[entry_key e := item_of now e]> (occ_map t)));
  tx_delete k t :=
    (Ok (), mkOcc (occ_iso t) (occ_base t) (occ_read t) ({[k]} ∪ occ_written t) (delete k (occ_map t)));
  tx_prefix_iter now p t := (Ok (mkIter (scan_prefix now p (occ_map t)) None), t);
  tx_range_iter now lo hi t := (Ok (mkIter (scan_range now lo hi (occ_map t)) None), t)
|}.

#[export] Instance occ_store : StoreOps (gmap (list Z) Item) OccTx := {|
  st_begin _ iso st := (Ok (occ_begin iso st), st);
  st_commit t st :=
    if occ_valid t st then (Ok (Some 1), overlay (occ_base t) (occ_map t) st) else (Err Conflict, st);
  st_discard _ st := st
|}.

Definition occ_ok (x : TxStart) (t : OccTx) : Prop :=
  occ_base t = ts_base x ∧ occ_iso t = ts_iso x ∧ ts_read x ⊆ occ_read t ∧
  ∀ k : list Z, k ∉ occ_written t → occ_map t !! k = occ_base t !! k.

Lemma occ_valid_spec t st :
  occ_valid t st = true ↔ ∀ k : list Z, k ∈ occ_checked t → st !! k = occ_base t !! k.
Proof.
  unfold occ_valid. rewrite forallb_forall. split; intros H k Hk.
  - eapply bool_decide_eq_true, H, list_elem_of_In, elem_of_elements, Hk.
  - apply bool_decide_eq_true, H. by apply elem_of_elements, list_elem_of_In.
Qed.

Lemma occ_valid_base t : occ_valid t (occ_base t) = true.
Proof. by apply occ_valid_spec. Qed.

#[export] Instance occ_laws : StoreLaws (gmap (list Z) Item) OccTx id occ_map occ_ok.
Proof.
  split.
  - intros x. split; simpl; unfold occ_ok; simpl.
    + intros now k t _ (? & ? & ? & ?). eexists. split; [done|]. split_and!; try done. set_solver.
    + intros now e t _ _ (? & ? & ? & Hw). eexists. split; [done|]. split_and!; try done.
      intros k Hk. simpl in *. rewrite lookup_insert_ne by set_solver. apply Hw. set_solver.
    + intros k t (? & ? & ? & Hw). eexists. split; [done|]. split_and!; try done.
      intros k' Hk. simpl in *. rewrite lookup_delete_ne by set_solver. apply Hw. set_solver.
  - intros now k t x _ (? & ? & ? & ?). split_and!; simpl; try done. set_solver.
  - intros w iso st. simpl. split; [done|]. intros t [= <-]. split; [|done]. by split_and!.
  - intros t st x (Hb & Hi & Hr & Hw). unfold conflict_free. rewrite <- Hi, <- Hb. simpl. destruct (occ_valid t st) eqn:Ev; simpl; [|done].
    rewrite occ_valid_spec in Ev. split; [|done]. unfold occ_checked in Ev. split.
    + intros k Hk. apply Ev. assert (k ∈ occ_written t).
      { destruct (decide (k ∈ occ_written t)); [done|]. by destruct Hk; apply Hw. }
      destruct (occ_iso t); set_solver.
    + intros Hs k Hk. apply Ev. rewrite Hs. set_solver.
  - done.
Qed.
End MapStore.
