(* ===== verification/Fjall.v ===== *)
(** * The Fjall backend: src/kv/fjall.rs

    The value encoding (metadata byte, absolute expiry, payload), the iterator that
    skips expired entries, and the [Tx] implementation over Fjall's optimistic
    transactions. Fjall itself is the parameter [F] with the class [FjallLib] for its
    calls and [FjallLaws] for the documented behaviour the code relies on: a write
    transaction reads its own writes and iterates a prefix or a range in key order. Proved:
    the encoding round trips, and the backend implements the [Tx] contract. *)
From S2P Require Import Prelude Bytes Kv.

(** ** The library *)

(** [OptimisticWriteTx::get], [insert], [remove], [prefix] and [range]; the unit error is
    [fjall::Error]. *)
Class FjallLib (F : Type) : Type := {
  fj_get : list Z → F → result (option (list Z)) () * F;
  fj_insert : list Z → list Z → F → F;
  fj_remove : list Z → F → F;
  fj_prefix : list Z → F → list (result (list Z * list Z) ()) * F;
  fj_range : Bound → Bound → F → list (result (list Z * list Z) ()) * F
}.

(** ** Value encoding *)

Definition META_LEN : nat := 1.
Definition EXPIRY_LEN : nat := 8.
Definition HEADER_LEN : nat := META_LEN + EXPIRY_LEN.

Definition map_fjall_error (_ : ()) : KvError := Undefined.

Definition encode (now meta ttl : Z) (value : list Z) : list Z :=
  let expiry :=
    if is_zero ttl then 0 else as_u64 (saturating_add now (as_i64 (as_millis ttl))) in
  [meta] ++ be_bytes EXPIRY_LEN expiry ++ value.

Definition decode (stored : list Z) : Z * Z * list Z :=
  if (length stored <? HEADER_LEN)%nat then (0, 0, stored)
  else
    (byte_at stored 0, from_be (take EXPIRY_LEN (drop META_LEN stored)), drop HEADER_LEN stored).

Definition decode_item (now : Z) (key stored : list Z) : result Item KvError :=
  let '(meta, expiry, value) := decode stored in
  if negb (expiry =? 0) && (as_i64 expiry <=? now) then Err KeyNotFound
  else
    let expire_ts := if expiry =? 0 then None else Some (as_i64 expiry) in
    Ok (mkItem key value meta expire_ts).

(** ** Iterator *)

Record FjallIterator : Type := mkFjallIter {
  fi_iter : option (list (result (list Z * list Z) ()));
  fi_cur : option Item;
  fi_err : option KvError
}.

(** The [loop] of [FjallIterator::next] over the guards the library iterator yields. *)
Fixpoint next_loop (now : Z) (guards : list (result (list Z * list Z) ())) (cur : option Item)
  : bool * FjallIterator :=
  match guards with
  | [] => (false, mkFjallIter (Some []) None None)
  | Err e :: rest => (false, mkFjallIter (Some rest) cur (Some (map_fjall_error e)))
  | Ok (key, value) :: rest =>
      match decode_item now key value with
      | Ok item => (true, mkFjallIter (Some rest) (Some item) None)
      | Err KeyNotFound => next_loop now rest cur
      | Err e => (false, mkFjallIter (Some rest) cur (Some e))
      end
  end.

Definition next (now : Z) (it : FjallIterator) : bool * FjallIterator :=
  match fi_err it with
  | Some _ => (false, it)
  | None =>
      match fi_iter it with
      | None => (false, it)
      | Some guards => next_loop now guards (fi_cur it)
      end
  end.

(** [while it.next().await { .. it.item() .. }], then [it.err()]: what a client of
    the iterator sees. Each turn takes a guard, so their number bounds the turns. *)
Fixpoint drain (fuel : nat) (now : Z) (it : FjallIterator) : Iter :=
  match fuel with
  | O => mkIter [] (fi_err it)
  | S fuel =>
      match next now it with
      | (true, it') =>
          let rest := drain fuel now it' in
          mkIter (match fi_cur it' with Some i => i :: iter_items rest | None => iter_items rest end)
            (iter_err rest)
      | (false, it') => mkIter [] (fi_err it')
      end
  end.

(** ** Transaction *)

Record FjallTx (F : Type) : Type := mkFjallTx { fjall_tx : F }.
Arguments mkFjallTx {F} _.
Arguments fjall_tx {F} _.

Section Tx.
Context {F : Type} `{!FjallLib F}.

Definition fjall_get (now : Z) (key : list Z) (t : FjallTx F) : result Item KvError * FjallTx F :=
  match fj_get key (fjall_tx t) with
  | (Err e, f) => (Err (map_fjall_error e), mkFjallTx f)
  | (Ok (Some value), f) => (decode_item now key value, mkFjallTx f)
  | (Ok None, f) => (Err KeyNotFound, mkFjallTx f)
  end.

Definition fjall_set (now : Z) (e : Entry) (t : FjallTx F) : result () KvError * FjallTx F :=
  let stored := encode now (entry_meta e) (entry_ttl e) (entry_value e) in
  (Ok (), mkFjallTx (fj_insert (entry_key e) stored (fjall_tx t))).

Definition fjall_delete (key : list Z) (t : FjallTx F) : result () KvError * FjallTx F :=
  (Ok (), mkFjallTx (fj_remove key (fjall_tx t))).

Definition fjall_prefix_iter (now : Z) (prefix : list Z) (t : FjallTx F)
  : result Iter KvError * FjallTx F :=
  let '(guards, f) := fj_prefix prefix (fjall_tx t) in
  (Ok (drain (S (length guards)) now (mkFjallIter (Some guards) None None)), mkFjallTx f).

Definition fjall_range_iter (now : Z) (lo hi : Bound) (t : FjallTx F) : result Iter KvError * FjallTx F :=
  let '(guards, f) := fj_range lo hi (fjall_tx t) in
  (Ok (drain (S (length guards)) now (mkFjallIter (Some guards) None None)), mkFjallTx f).

#[export] Instance fjall_tx_ops : TxOps (FjallTx F) := {|
  tx_get := fjall_get;
  tx_set := fjall_set;
  tx_delete := fjall_delete;
  tx_prefix_iter := fjall_prefix_iter;
  tx_range_iter := fjall_range_iter
|}.
End Tx.

(** ** What the library promises *)

Definition key_le (a b : list Z * list Z) : Prop := bytes_le (fst a) (fst b) = true.
#[export] Instance key_le_dec : RelDecision key_le.
Proof. intros a b. unfold key_le. apply _. Defined.
#[export] Instance key_le_total : Total key_le.
Proof. intros a b. apply bytes_le_total. Qed.

Class FjallLaws (F : Type) `{!FjallLib F}
    (contents : F → gmap (list Z) (list Z)) (healthy : F → Prop) : Prop := {
  fj_get_law k f : healthy f →
    ∃ f', fj_get k f = (Ok (contents f !! k), f') ∧ healthy f' ∧ contents f' = contents f;
  fj_insert_law k v f : healthy f →
    healthy (fj_insert k v f) ∧ contents (fj_insert k v f) = <[k := v]> (contents f);
  fj_remove_law k f : healthy f →
    healthy (fj_remove k f) ∧ contents (fj_remove k f) = delete k (contents f);
  fj_prefix_law p f : healthy f →
    ∃ l f', fj_prefix p f = (Ok <$> l, f') ∧ healthy f' ∧ contents f' = contents f ∧
      Sorted key_le l ∧ NoDup (fst <$> l) ∧
      ∀ k v, (k, v) ∈ l ↔ contents f !! k = Some v ∧ starts_with p k = true;
  fj_range_law lo hi f : healthy f →
    ∃ l f', fj_range lo hi f = (Ok <$> l, f') ∧ healthy f' ∧ contents f' = contents f ∧
      Sorted key_le l ∧ NoDup (fst <$> l) ∧
      ∀ k v, (k, v) ∈ l ↔ contents f !! k = Some v ∧ in_bounds lo hi k = true
}.

(** The item a stored value stands for, expired or not. *)
Definition stored_item (key stored : list Z) : Item :=
  let '(meta, expiry, value) := decode stored in
  mkItem key value meta (if expiry =? 0 then None else Some (as_i64 expiry)).

(** ** Encoding round trip *)
Lemma decode_header meta expiry value :
  0 ≤ expiry < 2 ^ 64 → decode ([meta] ++ be_bytes EXPIRY_LEN expiry ++ value) = (meta, expiry, value).
Proof.
  intros Hx. unfold decode.
  rewrite (proj2 (Nat.ltb_ge _ _)) 
    by (rewrite !length_app, length_be_bytes; unfold HEADER_LEN, META_LEN, EXPIRY_LEN; simpl; lia).
  cbn [app]. change (drop META_LEN (meta :: ?l)) with (drop 0 l). rewrite drop_0.
  rewrite take_app_le, take_ge by (rewrite length_be_bytes; lia).
  rewrite from_be_be_bytes by (change (256 ^ Z.of_nat EXPIRY_LEN) with (2 ^ 64); lia).
  reflexivity.
Qed.

Lemma as_i64_as_u64 z : in_i64 z → as_i64 (as_u64 z) = z.
Proof.
  intros Hz. unfold as_u64, as_i64, wrap_signed.
  rewrite Zplus_mod_idemp_l. rewrite Z.mod_small; width_lia.
Qed.

Lemma as_u64_pos z : 0 < z ≤ i64_max → as_u64 z = z.
Proof. intros. unfold as_u64. apply Z.mod_small. width_lia. Qed.

(** Writing an entry and decoding what was stored gives the item the entry stands for. *)
Lemma stored_item_encode now e :
  clock_ok now → entry_ok e →
  stored_item (entry_key e) (encode now (entry_meta e) (entry_ttl e) (entry_value e)) = item_of now e.
Proof.
  intros Hn [He1 He2]. unfold stored_item, encode, item_of, clock_ok in *.
  destruct (is_zero (entry_ttl e)) eqn:Ez.
  - rewrite decode_header by lia. done.
  - rewrite decode_header by apply as_u64_range.
    rewrite as_i64_id by (unfold as_millis in *; assert (0 ≤ entry_ttl e / 1000000)
      by (apply Z.div_pos; lia); width_lia).
    assert (0 < saturating_add now (as_millis (entry_ttl e)) ≤ i64_max).
    { unfold as_millis in *. assert (0 ≤ entry_ttl e / 1000000) by (apply Z.div_pos; lia). width_lia. }
    rewrite as_u64_pos by done. rewrite (proj2 (Z.eqb_neq _ _)) by lia.
    rewrite as_i64_id by width_lia. done.
Qed.

Lemma stored_item_ok k v : item_ok (stored_item k v).
Proof.
  unfold stored_item, item_ok. destruct (decode v) as [[meta expiry] value]. simpl.
  destruct (expiry =? 0); [done|]. apply as_i64_range.
Qed.

Lemma stored_item_key k v : item_key (stored_item k v) = k.
Proof. unfold stored_item. by destruct (decode v) as [[meta expiry] value]. Qed.

(** Decoding hides exactly the expired items. *)
Lemma decode_item_stored now k v :
  clock_ok now →
  decode_item now k v =
    if is_expired now (stored_item k v) then Err KeyNotFound else Ok (stored_item k v).
Proof.
  intros Hn. rewrite is_expired_spec by (done || apply stored_item_ok).
  unfold decode_item, stored_item. destruct (decode v) as [[meta expiry] value]. simpl.
  by destruct (expiry =? 0).
Qed.

(** ** The backend implements the [Tx] contract *)

Section Laws.
Context {F : Type} `{!FjallLib F} {contents : F → gmap (list Z) (list Z)} {healthy : F → Prop}.
Context `{!FjallLaws F contents healthy}.

(** The abstract store of a transaction. *)
Definition fjall_raw (t : FjallTx F) : gmap (list Z) Item :=
  map_imap (λ k v, Some (stored_item k v)) (contents (fjall_tx t)).
Definition fjall_ok (t : FjallTx F) : Prop := healthy (fjall_tx t).

Lemma fjall_raw_lookup t k : fjall_raw t !! k = stored_item k <$> contents (fjall_tx t) !! k.
Proof. unfold fjall_raw. rewrite map_lookup_imap. by destruct (contents (fjall_tx t) !! k). Qed.

Lemma fjall_get_correct now k t :
  clock_ok now → fjall_ok t →
  ∃ t', fjall_get now k t = (lookup_live now k (fjall_raw t), t') ∧ fjall_ok t' ∧
        fjall_raw t' = fjall_raw t.
Proof.
  intros Hn Ht. destruct (fj_get_law k (fjall_tx t) Ht) as (f' & E & Hf & Hc).
  exists (mkFjallTx f'). unfold fjall_get, lookup_live. rewrite E, fjall_raw_lookup.
  split; [|split; [done|]].
  - destruct (contents (fjall_tx t) !! k) as [v|]; simpl; [|done]. by rewrite decode_item_stored.
  - unfold fjall_raw. simpl. by rewrite Hc.
Qed.

Lemma fjall_set_correct now e t :
  clock_ok now → entry_ok e → fjall_ok t →
  ∃ t', fjall_set now e t = (Ok (), t') ∧ fjall_ok t' ∧
        fjall_raw t' = <[entry_key e := item_of now e]> (fjall_raw t).
Proof.
  intros Hn He Ht. eexists. split; [reflexivity|].
  destruct (fj_insert_law (entry_key e)
    (encode now (entry_meta e) (entry_ttl e) (entry_value e)) (fjall_tx t) Ht) as [Hf Hc].
  split; [done|]. apply map_eq. intros k. rewrite fjall_raw_lookup. cbn [fjall_tx]. rewrite Hc.
  destruct (decide (entry_key e = k)) as [<-|Hne].
  - rewrite !lookup_insert_eq. simpl. by rewrite stored_item_encode.
  - rewrite !lookup_insert_ne by done. by rewrite fjall_raw_lookup.
Qed.

Lemma fjall_delete_correct k t :
  fjall_ok t →
  ∃ t', fjall_delete k t = (Ok (), t') ∧ fjall_ok t' ∧ fjall_raw t' = delete k (fjall_raw t).
Proof.
  intros Ht. eexists. split; [reflexivity|].
  destruct (fj_remove_law k (fjall_tx t) Ht) as [Hf Hc]. split; [done|].
  apply map_eq. intros k'. rewrite fjall_raw_lookup. cbn [fjall_tx]. rewrite Hc.
  destruct (decide (k = k')) as [<-|Hne].
  - by rewrite !lookup_delete_eq.
  - rewrite !lookup_delete_ne by done. by rewrite fjall_raw_lookup.
Qed.

(** The items an iterator over healthy guards yields: the unexpired ones, in order. *)
Definition live_items (now : Z) (l : list (list Z * list Z)) : list Item :=
  filter (λ i, is_expired now i = false) ((λ kv, stored_item (fst kv) (snd kv)) <$> l).

Lemma next_loop_live now l cur :
  clock_ok now →
  match live_items now l with
  | [] => next_loop now (Ok <$> l) cur = (false, mkFjallIter (Some []) None None)
  | i :: rest => ∃ l', next_loop now (Ok <$> l) cur = (true, mkFjallIter (Some (Ok <$> l')) (Some i) None) ∧
                       live_items now l' = rest ∧ (length l' < length l)%nat
  end.
Proof.
  intros Hn. induction l as [|[k v] l IH]; [done|]. unfold live_items.
  rewrite !fmap_cons. cbn [fst snd next_loop]. rewrite decode_item_stored by done.
  destruct (is_expired now (stored_item k v)) eqn:E.
  - rewrite filter_cons_False by congruence. fold (live_items now l).
    destruct (live_items now l) as [|i rest]; [done|].
    destruct IH as (l' & ? & ? & ?). exists l'. split; [done|]. split; [done|]. simpl. lia.
  - rewrite filter_cons_True by done. exists l. split; [done|]. split; [done|]. simpl. lia.
Qed.

Lemma drain_live now l fuel cur :
  clock_ok now → (length l < fuel)%nat →
  drain fuel now (mkFjallIter (Some (Ok <$> l)) cur None) = mkIter (live_items now l) None.
Proof.
  intros Hn. revert l cur. induction fuel as [|fuel IH]; intros l cur Hf; [lia|].
  cbn [drain next fi_err fi_iter fi_cur]. pose proof (next_loop_live now l cur Hn) as H.
  destruct (live_items now l) as [|i rest].
  - by rewrite H.
  - destruct H as (l' & -> & Hr & Hl). cbn [fi_cur]. rewrite IH by lia. by rewrite Hr.
Qed.

Lemma sorted_live_items now l : Sorted key_le l → Sorted item_le (live_items now l).
Proof.
  intros Hs. apply StronglySorted_Sorted. unfold live_items.
  assert (StronglySorted item_le ((λ kv, stored_item (fst kv) (snd kv)) <$> l)) as H.
  { apply Sorted_StronglySorted in Hs; [|intros a b c; apply bytes_le_trans].
    induction Hs as [|[k v] l Hs IH Hall]; simpl; constructor; [done|].
    apply Forall_fmap. eapply Forall_impl; [done|]. intros [k' v'] Hle. unfold item_le, key_le in *.
    simpl in *. by rewrite !stored_item_key. }
  clear Hs. induction H as [|i items Hs IH Hall]; [constructor|].
  rewrite filter_cons. case_decide; [|done]. constructor; [done|].
  apply Forall_forall. intros j [_ Hj]%list_elem_of_filter. by eapply Forall_forall in Hall.
Qed.

Lemma live_items_elem now P l t i :
  (∀ k v, (k, v) ∈ l ↔ contents (fjall_tx t) !! k = Some v ∧ P k = true) →
  i ∈ live_items now l ↔ i ∈ scan_where now P (fjall_raw t).
Proof.
  intros Hl. rewrite scan_where_elem. unfold live_items.
  rewrite list_elem_of_filter, list_elem_of_fmap. split.
  - intros [Hx ([k v] & -> & [Hk Hp]%Hl)]. cbn [fst snd] in *. split; [|by rewrite stored_item_key].
    exists k. by rewrite fjall_raw_lookup, Hk.
  - intros ([k Hk] & Hp & Hx). split; [done|]. rewrite fjall_raw_lookup in Hk.
    destruct (contents (fjall_tx t) !! k) as [v|] eqn:E; [|done]. injection Hk as <-.
    exists (k, v). split; [done|]. apply Hl. by rewrite stored_item_key in Hp.
Qed.

Lemma NoDup_live_items now l : NoDup (fst <$> l) → NoDup (live_items now l).
Proof.
  intros Hl. apply NoDup_filter. apply (NoDup_fmap_1 item_key).
  rewrite <- list_fmap_compose. erewrite list_fmap_ext; [exact Hl|].
  intros _ [k v] _. simpl. by rewrite stored_item_key.
Qed.

Lemma NoDup_scan_where now P t : NoDup (scan_where now P (fjall_raw t)).
Proof.
  unfold scan_where. rewrite merge_sort_Permutation. apply NoDup_filter.
  apply (NoDup_fmap_1 item_key). rewrite <- list_fmap_compose.
  erewrite (list_fmap_ext _ fst); [apply NoDup_fst_map_to_list|].
  intros i [k j] Hi. simpl. apply list_elem_of_lookup_2, elem_of_map_to_list in Hi.
  rewrite fjall_raw_lookup in Hi. destruct (_ !! k); [|done]. injection Hi as <-. apply stored_item_key.
Qed.

(** What a sorted library iterator over the keys in [P] is drained to. *)
Lemma drain_scan now P l t :
  clock_ok now → Sorted key_le l → NoDup (fst <$> l) →
  (∀ k v, (k, v) ∈ l ↔ contents (fjall_tx t) !! k = Some v ∧ P k = true) →
  drain (S (length (Ok (E:=()) <$> l))) now (mkFjallIter (Some (Ok <$> l)) None None) =
    mkIter (scan_where now P (fjall_raw t)) None.
Proof.
  intros Hn Hs Hnd Hl. rewrite length_fmap, drain_live by (done || lia). f_equal.
  apply (sorted_items_unique (fjall_raw t)).
  - intros k i Hi. rewrite fjall_raw_lookup in Hi. destruct (_ !! k); [|done].
    injection Hi as <-. apply stored_item_key.
  - intros i Hi. by apply (live_items_elem now P l t i Hl), scan_where_elem in Hi as [? _].
  - by intros i [? _]%scan_where_elem.
  - by apply sorted_live_items.
  - apply (Sorted_merge_sort item_le).
  - apply NoDup_Permutation; [by apply NoDup_live_items|apply NoDup_scan_where|].
    intros i. by apply live_items_elem.
Qed.

Lemma fjall_scan_correct now p t :
  clock_ok now → fjall_ok t →
  ∃ it t', fjall_prefix_iter now p t = (Ok it, t') ∧ fjall_ok t' ∧ fjall_raw t' = fjall_raw t ∧
    iter_err it = None ∧ iter_items it = scan_prefix now p (fjall_raw t).
Proof.
  intros Hn Ht. destruct (fj_prefix_law p (fjall_tx t) Ht) as (l & f' & E & Hf & Hc & Hs & Hnd & Hl).
  eexists _, (mkFjallTx f'). unfold fjall_prefix_iter. rewrite E.
  rewrite (drain_scan now (starts_with p) l t) by done. split_and!; try done.
  unfold fjall_raw. simpl. by rewrite Hc.
Qed.

Lemma fjall_range_correct now lo hi t :
  clock_ok now → fjall_ok t →
  ∃ it t', fjall_range_iter now lo hi t = (Ok it, t') ∧ fjall_ok t' ∧ fjall_raw t' = fjall_raw t ∧
    iter_err it = None ∧ iter_items it = scan_range now lo hi (fjall_raw t).
Proof.
  intros Hn Ht. destruct (fj_range_law lo hi (fjall_tx t) Ht) as (l & f' & E & Hf & Hc & Hs & Hnd & Hl).
  eexists _, (mkFjallTx f'). unfold fjall_range_iter. rewrite E.
  rewrite (drain_scan now (in_bounds lo hi) l t) by done. split_and!; try done.
  unfold fjall_raw. simpl. by rewrite Hc.
Qed.

#[export] Instance fjall_laws : TxLaws (FjallTx F) fjall_raw fjall_ok.
Proof.
  split; [apply fjall_get_correct|apply fjall_set_correct|apply fjall_delete_correct].
Qed.

#[export] Instance fjall_scan_laws : TxScanLaws (FjallTx F) fjall_raw fjall_ok.
Proof.
  split.
  - intros now p t Hn Ht. destruct (fjall_scan_correct now p t Hn Ht) as (it & t' & E & ? & ? & ? & Hi).
    exists it, t'. unfold all_live. rewrite Hi. split_and!; try done. apply scan_where_live.
  - intros now lo hi t Hn Ht. destruct (fjall_range_correct now lo hi t Hn Ht) as (it & t' & E & ? & ? & ? & Hi).
    exists it, t'. unfold all_live. rewrite Hi. split_and!; try done. apply scan_where_live.
Qed.
End Laws.

(** ** A map as the library *)

Module MapLib.
(** The entries whose key satisfies [P], in key order. *)
Definition sorted_where (P : list Z → bool) (m : gmap (list Z) (list Z)) : list (list Z * list Z) :=
  merge_sort key_le (filter (λ kv, P (fst kv) = true) (map_to_list m)).

#[export] Instance map_lib : FjallLib (gmap (list Z) (list Z)) := {|
  fj_get k m := (Ok (m !! k), m);
  fj_insert k v m := <[k := v]> m;
  fj_remove k m := delete k m;
  fj_prefix p m := (Ok <$> sorted_where (starts_with p) m, m);
  fj_range lo hi m := (Ok <$> sorted_where (in_bounds lo hi) m, m)
|}.

Lemma sorted_where_spec P m :
  Sorted key_le (sorted_where P m) ∧ NoDup (fst <$> sorted_where P m) ∧
  ∀ k v, (k, v) ∈ sorted_where P m ↔ m !! k = Some v ∧ P k = true.
Proof.
  unfold sorted_where. split; [apply (Sorted_merge_sort key_le)|]. split.
  - rewrite merge_sort_Permutation. eapply sublist_NoDup; [apply (NoDup_fst_map_to_list m)|].
    apply fmap_sublist, sublist_filter.
  - intros k v. rewrite merge_sort_Permutation, list_elem_of_filter, elem_of_map_to_list. naive_solver.
Qed.

#[export] Instance map_lib_laws : FjallLaws (gmap (list Z) (list Z)) id (λ _, True).
Proof.
  split; simpl; [by eauto..| |].
  - intros p m _. eexists _, m. split; [reflexivity|]. split; [done|]. split; [done|]. apply sorted_where_spec.
  - intros lo hi m _. eexists _, m. split; [reflexivity|]. split; [done|]. split; [done|]. apply sorted_where_spec.
Qed.
End MapLib.

(** ** Theorems *)

(** Values round trip through the Fjall encoding: an entry written at [now] and
    decoded at any later time reads back with its key, value, metadata and absolute
    expiry, or counts as missing once that expiry has passed. *)
Theorem fjall_value_roundtrip now now' e :
  clock_ok now → clock_ok now' → entry_ok e →
  decode_item now' (entry_key e) (encode now (entry_meta e) (entry_ttl e) (entry_value e)) =
    if is_expired now' (item_of now e) then Err KeyNotFound else Ok (item_of now e).
Proof. intros Hn Hn' He. by rewrite decode_item_stored, stored_item_encode. Qed.

Lemma fjall_value_roundtrip_witness :
  decode_item 5001 (B "0:k") (encode 1000 3 (from_secs 4) (B "v")) = Err KeyNotFound ∧
  decode_item 4999 (B "0:k") (encode 1000 3 (from_secs 4) (B "v")) =
    Ok (mkItem (B "0:k") (B "v") 3 (Some 5000)).
Proof.
  assert (entry_ok (mkEntry (B "0:k") (B "v") 3 (from_secs 4))) by (vm_compute; by split).
  split;
    (rewrite (fjall_value_roundtrip 1000 _ (mkEntry (B "0:k") (B "v") 3 (from_secs 4)));
     [vm_compute; reflexivity|vm_compute; by split..|done]).
Defined.

(** C11: over any library with Fjall's documented behaviour, the backend's transactions
    satisfy the [Tx] contract: [get] returns the live item last written, [set] and
    [delete] update it, and a prefix or range iterator yields exactly the live items of
    the prefix or range in key order. *)
Theorem fjall_implements_tx F `{!FjallLib F} contents healthy :
  FjallLaws F contents healthy →
  TxLaws (FjallTx F) (fjall_raw (contents:=contents)) (fjall_ok (healthy:=healthy)) ∧
  TxScanLaws (FjallTx F) (fjall_raw (contents:=contents)) (fjall_ok (healthy:=healthy)).
Proof. intros ?. split; apply _. Qed.

Import MapLib.

Lemma fjall_implements_tx_witness :
  TxLaws (FjallTx (gmap (list Z) (list Z))) (fjall_raw (contents:=id))
    (fjall_ok (healthy:=λ _, True)) ∧
  TxScanLaws (FjallTx (gmap (list Z) (list Z))) (fjall_raw (contents:=id))
    (fjall_ok (healthy:=λ _, True)).
Proof. apply fjall_implements_tx. apply MapLib.map_lib_laws. Defined.

(** A TTL whose milliseconds exceed an [i64] wraps around when it is cast, so an
    entry written with the largest TTL a client can ask for ([i64::MAX] seconds) is
    already expired when it is written. *)
Theorem fjall_huge_ttl_expires_at_once now key meta value :
  1000 < now ≤ i64_max →
  decode_item now key (encode now meta (from_secs i64_max) value) = Err KeyNotFound.
Proof.
  intros Hn. assert (as_i64 (as_millis (from_secs i64_max)) = -1000) as Hw by (vm_compute; done).
  unfold decode_item, encode. change (is_zero (from_secs i64_max)) with false. cbv iota. rewrite Hw.
  rewrite decode_header by apply as_u64_range.
  rewrite as_u64_pos by width_lia. rewrite (proj2 (Z.eqb_neq _ _)) by width_lia.
  rewrite as_i64_id by width_lia. rewrite (proj2 (Z.leb_le _ _)) by width_lia. done.
Qed.

Lemma fjall_huge_ttl_expires_at_once_witness :
  decode_item 1700000000000 (B "0:k") (encode 1700000000000 0 (from_secs i64_max) (B "v")) =
    Err KeyNotFound.
Proof. apply (fjall_huge_ttl_expires_at_once 1700000000000). vm_compute. by split. Defined.
