(* ===== verification/Slate.v ===== *)
(** * The SlateDB backend: src/kv/slate.rs

    Values are stored as a metadata byte and the payload; SlateDB keeps the TTL
    itself but stamps it only when a write lands, so the transaction remembers the
    expiry of its own writes in [pending_expiry]. SlateDB's transaction is the
    parameter [S] with the class [SlateLib] for its calls and [SlateLaws] for the
    behaviour the code documents: an uncommitted write reads back without an
    expiry, and an expired entry may already be hidden. Proved: with the
    pending-expiry map the backend implements the [Tx] contract. *)
From S2P Require Import Prelude Bytes Kv.

(** ** The library *)

(** [slatedb::ErrorKind], as far as the code distinguishes it. *)
Inductive ErrorKind : Type :=
| Transaction
| OtherKind.

Record KeyValue : Type := mkKeyValue {
  kv_key : list Z;
  kv_value : list Z;
  kv_expire_ts : option Z
}.

(** [DbTransaction::get_key_value], [put], [put_with_options] with
    [Ttl::ExpireAfterMillis], [delete], [scan_prefix] and [scan]; the first argument of the
    reads is SlateDB's own clock. *)
Class SlateLib (S : Type) : Type := {
  sl_get_key_value : Z → list Z → S → result (option KeyValue) ErrorKind * S;
  sl_put : list Z → list Z → S → result () ErrorKind * S;
  sl_put_ttl : list Z → list Z → Z → S → result () ErrorKind * S;
  sl_delete : list Z → S → result () ErrorKind * S;
  sl_scan_prefix : Z → list Z → S → result (list (result KeyValue ErrorKind)) ErrorKind * S;
  sl_scan : Z → Bound → Bound → S → result (list (result KeyValue ErrorKind)) ErrorKind * S
}.

Definition map_slate_error (kind : ErrorKind) : KvError :=
  match kind with Transaction => Conflict | OtherKind => Undefined end.

(** ** Value encoding *)

Definition encode_value (meta : Z) (val : list Z) : list Z := meta :: val.

Definition decode_value (stored : list Z) : list Z * Z :=
  match stored with [] => ([], 0) | meta :: val => (val, meta) end.

(** ** Transaction *)

Record SlateTx (S : Type) : Type := mkSlateTx {
  slate_tx : S;
  pending_expiry : gmap (list Z) (option Z)
}.
Arguments mkSlateTx {S} _ _.
Arguments slate_tx {S} _.
Arguments pending_expiry {S} _.

(** [SlateIterator]: what the library iterator still yields, the current item and the error. *)
Record SlateIterator : Type := mkSlateIter {
  si_iter : option (list (result KeyValue ErrorKind));
  si_err : option KvError;
  si_cur : option Item
}.

Definition next (it : SlateIterator) : bool * SlateIterator :=
  match si_err it, si_iter it with
  | Some _, _ => (false, it)
  | None, None => (false, it)
  | None, Some (Ok kv :: rest) =>
      let '(value, meta) := decode_value (kv_value kv) in
      (true, mkSlateIter (Some rest) None (Some (mkItem (kv_key kv) value meta (kv_expire_ts kv))))
  | None, Some [] => (false, it)
  | None, Some (Err e :: rest) =>
      (false, mkSlateIter (Some rest) (Some (map_slate_error e)) (si_cur it))
  end.

(** [while it.next().await { .. }], then [it.err()]. *)
Fixpoint drain (fuel : nat) (it : SlateIterator) : Iter :=
  match fuel with
  | O => mkIter [] (si_err it)
  | S fuel =>
      match next it with
      | (true, it') =>
          let rest := drain fuel it' in
          mkIter (match si_cur it' with Some i => i :: iter_items rest | None => iter_items rest end)
            (iter_err rest)
      | (false, it') => mkIter [] (si_err it')
      end
  end.

Section Tx.
Context {S : Type} `{!SlateLib S}.

Definition slate_get (now : Z) (key : list Z) (t : SlateTx S) : result Item KvError * SlateTx S :=
  match sl_get_key_value now key (slate_tx t) with
  | (Err e, s) => (Err (map_slate_error e), mkSlateTx s (pending_expiry t))
  | (Ok None, s) => (Err KeyNotFound, mkSlateTx s (pending_expiry t))
  | (Ok (Some kv), s) =>
      let '(value, meta) := decode_value (kv_value kv) in
      let expire_ts :=
        match pending_expiry t !! key with Some pending => pending | None => kv_expire_ts kv end in
      let item := mkItem (kv_key kv) value meta expire_ts in
      (if is_expired now item then Err KeyNotFound else Ok item, mkSlateTx s (pending_expiry t))
  end.

Definition slate_set (now : Z) (e : Entry) (t : SlateTx S) : result () KvError * SlateTx S :=
  let stored := encode_value (entry_meta e) (entry_value e) in
  let ttl := entry_ttl e in
  let pending :=
    <[entry_key e :=
        if is_zero ttl then None else Some (saturating_add now (as_i64 (as_millis ttl)))]>
      (pending_expiry t) in
  let '(r, s) :=
    if is_zero ttl then sl_put (entry_key e) stored (slate_tx t)
    else sl_put_ttl (entry_key e) stored (as_u64 (as_millis ttl)) (slate_tx t) in
  (match r with Ok _ => Ok () | Err k => Err (map_slate_error k) end, mkSlateTx s pending).

Definition slate_delete (key : list Z) (t : SlateTx S) : result () KvError * SlateTx S :=
  let pending := delete key (pending_expiry t) in
  let '(r, s) := sl_delete key (slate_tx t) in
  (match r with Ok _ => Ok () | Err k => Err (map_slate_error k) end, mkSlateTx s pending).

Definition slate_prefix_iter (now : Z) (prefix : list Z) (t : SlateTx S)
  : result Iter KvError * SlateTx S :=
  match sl_scan_prefix now prefix (slate_tx t) with
  | (Err e, s) => (Err (map_slate_error e), mkSlateTx s (pending_expiry t))
  | (Ok l, s) =>
      (Ok (drain (Datatypes.S (length l)) (mkSlateIter (Some l) None None)),
       mkSlateTx s (pending_expiry t))
  end.

Definition slate_range_iter (now : Z) (lo hi : Bound) (t : SlateTx S) : result Iter KvError * SlateTx S :=
  match sl_scan now lo hi (slate_tx t) with
  | (Err e, s) => (Err (map_slate_error e), mkSlateTx s (pending_expiry t))
  | (Ok l, s) =>
      (Ok (drain (Datatypes.S (length l)) (mkSlateIter (Some l) None None)),
       mkSlateTx s (pending_expiry t))
  end.

#[export] Instance slate_tx_ops : TxOps (SlateTx S) := {|
  tx_get := slate_get;
  tx_set := slate_set;
  tx_delete := slate_delete;
  tx_prefix_iter := slate_prefix_iter;
  tx_range_iter := slate_range_iter
|}.
End Tx.

(** ** What the library promises *)

(** [contents] maps a key to its stored value and the expiry SlateDB reports for it. *)
Class SlateLaws (S : Type) `{!SlateLib S}
    (contents : S → gmap (list Z) (list Z * option Z)) (healthy : S → Prop) : Prop := {
  sl_get_law now k s : healthy s →
    ∃ r s', sl_get_key_value now k s = (Ok r, s') ∧ healthy s' ∧ contents s' = contents s ∧
      (r = (λ c, mkKeyValue k (fst c) (snd c)) <$> contents s !! k ∨
       r = None ∧ ∃ v ts, contents s !! k = Some (v, Some ts) ∧ ts ≤ now);
  sl_put_law k v s : healthy s →
    ∃ s', sl_put k v s = (Ok (), s') ∧ healthy s' ∧ contents s' = <[k := (v, None)]> (contents s);
  sl_put_ttl_law k v ms s : healthy s →
    ∃ s', sl_put_ttl k v ms s = (Ok (), s') ∧ healthy s' ∧
          contents s' = <[k := (v, None)]> (contents s);
  sl_delete_law k s : healthy s →
    ∃ s', sl_delete k s = (Ok (), s') ∧ healthy s' ∧ contents s' = delete k (contents s);
  sl_expiry_law k v ts s : healthy s → contents s !! k = Some (v, Some ts) → in_i64 ts
}.

(** The item behind a stored value whose expiry is [expire_ts]. *)
Definition slate_item (k stored : list Z) (expire_ts : option Z) : Item :=
  mkItem k (fst (decode_value stored)) (snd (decode_value stored)) expire_ts.

(** The expiry in force: the pending one for a key written in this transaction. *)
Definition effective_expiry (pending : option (option Z)) (reported : option Z) : option Z :=
  match pending with Some p => p | None => reported end.

(** ** The backend implements the [Tx] contract *)

Section Laws.
Context {S : Type} `{!SlateLib S}.
Context {contents : S → gmap (list Z) (list Z * option Z)} {healthy : S → Prop}.
Context `{!SlateLaws S contents healthy}.

Definition slate_raw (t : SlateTx S) : gmap (list Z) Item :=
  map_imap (λ k c, Some (slate_item k (fst c) (effective_expiry (pending_expiry t !! k) (snd c))))
    (contents (slate_tx t)).

(** The invariant of [pending_expiry]: it only holds keys written in this
    transaction, for which SlateDB reports no expiry yet, and holds [i64] times. *)
Definition pending_ok (t : SlateTx S) : Prop :=
  ∀ k p, pending_expiry t !! k = Some p →
    (∃ v, contents (slate_tx t) !! k = Some (v, None)) ∧
    match p with Some ts => in_i64 ts | None => True end.

Definition slate_ok (t : SlateTx S) : Prop := healthy (slate_tx t) ∧ pending_ok t.

Lemma slate_raw_lookup t k :
  slate_raw t !! k =
    (λ c, slate_item k (fst c) (effective_expiry (pending_expiry t !! k) (snd c)))
      <$> contents (slate_tx t) !! k.
Proof. unfold slate_raw. rewrite map_lookup_imap. by destruct (contents (slate_tx t) !! k). Qed.

Lemma slate_raw_same t s :
  contents s = contents (slate_tx t) → slate_raw (mkSlateTx s (pending_expiry t)) = slate_raw t.
Proof. intros H. unfold slate_raw. simpl. by rewrite H. Qed.

Lemma slate_get_correct now k t :
  clock_ok now → slate_ok t →
  ∃ t', slate_get now k t = (lookup_live now k (slate_raw t), t') ∧ slate_ok t' ∧
        slate_raw t' = slate_raw t.
Proof.
  intros Hn [Hh Hp]. destruct (sl_get_law now k _ Hh) as (r & s' & E & Hh' & Hc & Hr).
  exists (mkSlateTx s' (pending_expiry t)). split; [|split; [split; [done|]|by apply slate_raw_same]].
  2: { intros k' p Hk'. simpl. rewrite Hc. by apply Hp. }
  unfold slate_get, lookup_live. rewrite E, slate_raw_lookup.
  destruct Hr as [->|(-> & v & ts & Hk & Hts)].
  - destruct (contents (slate_tx t) !! k) as [[v ex]|]; simpl; [|done].
    unfold slate_item. simpl. by destruct (decode_value v).
  - rewrite Hk. simpl. destruct (pending_expiry t !! k) as [p|] eqn:Hpk; simpl.
    { destruct (Hp _ _ Hpk) as [[v' Hv'] _]. congruence. }
    pose proof (sl_expiry_law _ _ _ _ Hh Hk) as Hi.
    rewrite is_expired_spec by done. simpl. by rewrite (proj2 (Z.leb_le _ _) Hts).
Qed.

(** Both kinds of put store the bytes with no expiry yet. *)
Lemma slate_put_any k v ms z s :
  healthy s →
  ∃ s', (if is_zero z then sl_put k v s else sl_put_ttl k v ms s) = (Ok (), s') ∧ healthy s' ∧
        contents s' = <[k := (v, None)]> (contents s).
Proof. intros Hs. destruct (is_zero z); [by apply sl_put_law|by apply sl_put_ttl_law]. Qed.

Lemma slate_set_correct now e t :
  clock_ok now → entry_ok e → slate_ok t →
  ∃ t', slate_set now e t = (Ok (), t') ∧ slate_ok t' ∧
        slate_raw t' = <[entry_key e := item_of now e]> (slate_raw t).
Proof.
  intros Hn [He1 He2] [Hh Hp].
  destruct (slate_put_any (entry_key e) (encode_value (entry_meta e) (entry_value e))
    (as_u64 (as_millis (entry_ttl e))) (entry_ttl e) _ Hh) as (s' & E & Hh' & Hc).
  unfold slate_set. rewrite E. eexists. split; [reflexivity|].
  assert (as_i64 (as_millis (entry_ttl e)) = as_millis (entry_ttl e)) as Hw.
  { apply as_i64_id. unfold as_millis in *.
    assert (0 ≤ entry_ttl e / 1000000) by (apply Z.div_pos; lia). width_lia. }
  rewrite Hw. split; [split; [done|]|].
  - intros k p. cbn [pending_expiry slate_tx]. rewrite Hc, !lookup_insert.
    destruct (decide (entry_key e = k)) as [<-|Hne]; [|apply Hp].
    intros [= <-]. split; [eauto|]. destruct (is_zero _); [done|]. width_lia.
  - apply map_eq. intros k. rewrite slate_raw_lookup. cbn [pending_expiry slate_tx].
    rewrite Hc, !lookup_insert, slate_raw_lookup. by destruct (decide (entry_key e = k)) as [<-|Hne].
Qed.

Lemma slate_delete_correct k t :
  slate_ok t →
  ∃ t', slate_delete k t = (Ok (), t') ∧ slate_ok t' ∧ slate_raw t' = delete k (slate_raw t).
Proof.
  intros [Hh Hp]. destruct (sl_delete_law k _ Hh) as (s' & E & Hh' & Hc).
  unfold slate_delete. rewrite E. eexists. split; [reflexivity|]. split; [split; [done|]|].
  - intros k' p. cbn [pending_expiry slate_tx]. rewrite Hc, !lookup_delete.
    destruct (decide (k = k')); [done|]. apply Hp.
  - apply map_eq. intros k'. rewrite slate_raw_lookup. cbn [pending_expiry slate_tx].
    rewrite Hc, !lookup_delete, slate_raw_lookup. by destruct (decide (k = k')).
Qed.

#[export] Instance slate_laws : TxLaws (SlateTx S) slate_raw slate_ok.
Proof. split; [apply slate_get_correct|apply slate_set_correct|apply slate_delete_correct]. Qed.
End Laws.

(** ** A map as the library *)

Module MapLib.
#[export] Instance map_lib : SlateLib (gmap (list Z) (list Z * option Z)) := {|
  sl_get_key_value now k m := (Ok ((λ c, mkKeyValue k (fst c) (snd c)) <$> m !! k), m);
  sl_put k v m := (Ok (), <[k := (v, None)]> m);
  sl_put_ttl k v ms m := (Ok (), <[k := (v, None)]> m);
  sl_delete k m := (Ok (), delete k m);
  sl_scan_prefix now p m :=
    (Ok ((λ kv, Ok (mkKeyValue (fst kv) (fst (snd kv)) (snd (snd kv)))) <$>
           filter (λ kv, starts_with p (fst kv) = true) (map_to_list m)), m);
  sl_scan now lo hi m :=
    (Ok ((λ kv, Ok (mkKeyValue (fst kv) (fst (snd kv)) (snd (snd kv)))) <$>
           filter (λ kv, in_bounds lo hi (fst kv) = true) (map_to_list m)), m)
|}.

(** Maps whose expiries are [i64] values. *)
Definition expiries_ok (m : gmap (list Z) (list Z * option Z)) : Prop :=
  ∀ k v ts, m !! k = Some (v, Some ts) → in_i64 ts.

#[export] Instance map_lib_laws :
  SlateLaws (gmap (list Z) (list Z * option Z)) id expiries_ok.
Proof.
  split; simpl.
  - intros now k m Hm. eexists _, m. eauto.
  - intros k v m Hm. eexists. split; [done|]. split; [|done].
    intros k' v' ts. rewrite lookup_insert. case_decide; [done|]. apply Hm.
  - intros k v ms m Hm. eexists. split; [done|]. split; [|done].
    intros k' v' ts. rewrite lookup_insert. case_decide; [done|]. apply Hm.
  - intros k m Hm. eexists. split; [done|]. split; [|done].
    intros k' v' ts. rewrite lookup_delete. case_decide; [done|]. apply Hm.
  - intros k v ts m Hm. apply Hm.
Qed.
End MapLib.

Import MapLib.

(** ** Theorems *)

(** C12: over any library that reads uncommitted writes back without their expiry,
    the SlateDB backend still satisfies the [Tx] contract: a key written in the
    transaction reads back with the TTL it was written with, because
    [pending_expiry] supplies it, and an expired item is absent whether or not
    SlateDB already hides it. *)
Theorem slate_implements_tx S `{!SlateLib S} contents healthy :
  SlateLaws S contents healthy →
  TxLaws (SlateTx S) (slate_raw (contents:=contents))
    (slate_ok (contents:=contents) (healthy:=healthy)).
Proof. intros ?. apply _. Qed.

Lemma slate_implements_tx_witness :
  TxLaws (SlateTx (gmap (list Z) (list Z * option Z))) (slate_raw (contents:=id))
    (slate_ok (contents:=id) (healthy:=expiries_ok)).
Proof. apply slate_implements_tx. apply map_lib_laws. Defined.
