(* ===== verification/Registry.v ===== *)
(** * Clients blocked on keys: src/redis/common/registry.rs

    The process-wide [WatchRegistry]: per-key FIFO queues of waiters shared between
    keys, the claim / wake / release protocol a writer follows around its
    transaction, the timeout race of a waiting client, and the write versions and
    flush epoch that WATCH relies on. The oneshot channel of a waiter is modelled
    by the set of waiters whose sender is still present and the map of values sent.
    Proved for every interleaving of these operations: the queues stay coherent, a
    claimed waiter is in no queue, a claim is served exactly once, and a client
    gives up only when no writer has claimed it. *)
From S2P Require Import Prelude.

(** ** Data *)

(** [score] is the bit pattern of the [f64]. *)
Record PopResult : Type := mkPop {
  pop_key : list Z;
  pop_member : list Z;
  pop_score : Z
}.

Inductive WaitKind : Type :=
| Pop (want_min : bool)
| Stream.

Inductive BlockResult : Type :=
| PopDone (r : PopResult)
| StreamDone (public_key : list Z).

Record Waiter : Type := mkWaiter {
  w_id : Z;
  w_keys : list (list Z);
  w_kind : WaitKind
}.

#[export] Instance WaitKind_eq_dec : EqDecision WaitKind.
Proof. solve_decision. Defined.
#[export] Instance Waiter_eq_dec : EqDecision Waiter.
Proof. solve_decision. Defined.

Record Claim : Type := mkClaim {
  c_waiter : Waiter;
  c_result : option BlockResult;
  c_notify : bool
}.

Record WatchRegistry : Type := mkRegistry {
  waiters : gmap (list Z) (list Waiter);
  next_id : Z;
  senders : gset Z;
  sent : gmap Z BlockResult;
  write_versions : gmap (list Z) Z;
  epoch : Z
}.

Definition registry_new : WatchRegistry := mkRegistry ∅ 1 ∅ ∅ ∅ 0.

Definition set_waiters (r : WatchRegistry) (m : gmap (list Z) (list Waiter)) : WatchRegistry :=
  mkRegistry m (next_id r) (senders r) (sent r) (write_versions r) (epoch r).

(** ** Versions and epoch *)

Definition get_version (r : WatchRegistry) (key : list Z) : Z := default 0 (write_versions r !! key).

(** [*v += 1] on a [u64] that starts at 0; the 2^64 writes to one key after which it would
    wrap are out of reach, and the version is a number without a bound here. *)
Definition bump_one (m : gmap (list Z) Z) (key : list Z) : gmap (list Z) Z :=
  <[key := default 0 (m !! key) + 1]> m.

Definition bump_versions (r : WatchRegistry) (keys : list (list Z)) : WatchRegistry :=
  mkRegistry (waiters r) (next_id r) (senders r) (sent r)
    (fold_left bump_one keys (write_versions r)) (epoch r).

Definition flush_epoch (r : WatchRegistry) : Z := epoch r.

Definition bump_flush_epoch (r : WatchRegistry) : WatchRegistry :=
  mkRegistry (waiters r) (next_id r) (senders r) (sent r) (write_versions r) (as_u64 (epoch r + 1)).

(** ** Queues *)

Definition is_stream_kind (k : WaitKind) : bool := match k with Stream => true | Pop _ => false end.

(** The queue under [key], removed from the map when it becomes empty. *)
Definition put_queue (key : list Z) (q : list Waiter) (m : gmap (list Z) (list Waiter))
  : gmap (list Z) (list Waiter) :=
  match q with [] => delete key m | _ => <[key := q]> m end.

(** [queue.retain(|w| w.id != id)] on one key, then on each key of a list. *)
Definition without (id : Z) (q : list Waiter) : list Waiter := filter (λ w, w_id w ≠ id) q.

Definition retain_key (id : Z) (m : gmap (list Z) (list Waiter)) (key : list Z)
  : gmap (list Z) (list Waiter) :=
  match m !! key with
  | Some q => put_queue key (without id q) m
  | None => m
  end.

Definition retain_keys (id : Z) (keys : list (list Z)) (m : gmap (list Z) (list Waiter))
  : gmap (list Z) (list Waiter) := fold_left (retain_key id) keys m.

(** [WatchRegistry::try_claim] *)
Definition try_claim (r : WatchRegistry) (public_key : list Z) : option Claim * WatchRegistry :=
  match waiters r !! public_key with
  | None => (None, r)
  | Some [] => (None, r)
  | Some (waiter :: queue) =>
      let m := put_queue public_key queue (waiters r) in
      let others := filter (λ k, k ≠ public_key) (w_keys waiter) in
      (Some (mkClaim waiter None false), set_waiters r (retain_keys (w_id waiter) others m))
  end.

Definition claim_want_min (c : Claim) : bool :=
  match w_kind (c_waiter c) with Pop b => b | Stream => false end.
Definition claim_is_stream (c : Claim) : bool := is_stream_kind (w_kind (c_waiter c)).
Definition set_result (c : Claim) (b : BlockResult) : Claim :=
  mkClaim (c_waiter c) (Some b) (c_notify c).

(** [WatchRegistry::stream_notification] *)
Definition stream_notification (public_key : list Z) : Claim :=
  mkClaim (mkWaiter 0 [public_key] Stream) None true.

(** Takes the sender of waiter [id] out of its slot and sends [b] through it. *)
Definition send_to (r : WatchRegistry) (id : Z) (b : option BlockResult) : WatchRegistry :=
  if decide (id ∈ senders r) then
    mkRegistry (waiters r) (next_id r) (senders r ∖ {[id]})
      (match b with Some b => <[id := b]> (sent r) | None => sent r end)
      (write_versions r) (epoch r)
  else r.

(** [WatchRegistry::wake_stream_waiters] *)
Definition wake_stream_waiters (r : WatchRegistry) (public_key : list Z) : WatchRegistry :=
  match waiters r !! public_key with
  | None => r
  | Some queue =>
      let woken := filter (λ w, is_stream_kind (w_kind w) = true) queue in
      let m := fold_left (λ m w, retain_keys (w_id w) (w_keys w) m) woken (waiters r) in
      fold_left (λ r w, send_to r (w_id w) (Some (StreamDone public_key))) woken (set_waiters r m)
  end.

(** [Claim::wake] *)
Definition wake (r : WatchRegistry) (c : Claim) : WatchRegistry :=
  if c_notify c then
    match w_keys (c_waiter c) with
    | k :: _ => wake_stream_waiters r k
    | [] => r
    end
  else send_to r (w_id (c_waiter c)) (c_result c).

(** [WatchRegistry::release_front] *)
Definition push_front (w : Waiter) (m : gmap (list Z) (list Waiter)) (key : list Z)
  : gmap (list Z) (list Waiter) := <[key := w :: default [] (m !! key)]> m.

Definition release_front (r : WatchRegistry) (c : Claim) : WatchRegistry :=
  if c_notify c then r
  else set_waiters r (fold_left (push_front (c_waiter c)) (w_keys (c_waiter c)) (waiters r)).

(** [WatchRegistry::register] *)
Definition push_back (w : Waiter) (m : gmap (list Z) (list Waiter)) (key : list Z)
  : gmap (list Z) (list Waiter) := <[key := default [] (m !! key) ++ [w]]> m.

Definition register (r : WatchRegistry) (keys : list (list Z)) (kind : WaitKind)
  : Waiter * WatchRegistry :=
  let id := next_id r in
  let w := mkWaiter id keys kind in
  (w, mkRegistry (fold_left (push_back w) keys (waiters r)) (id + 1) ({[id]} ∪ senders r)
        (sent r) (write_versions r) (epoch r)).

(** [WatchRegistry::remove_waiter]: whether the waiter was still in some queue. *)
Definition remove_step (id : Z) (s : bool * gmap (list Z) (list Waiter)) (key : list Z)
  : bool * gmap (list Z) (list Waiter) :=
  let '(removed, m) := s in
  match m !! key with
  | Some q =>
      let q' := without id q in
      (removed || negb (length q' =? length q)%nat, put_queue key q' m)
  | None => (removed, m)
  end.

Definition remove_waiter (r : WatchRegistry) (w : Waiter) : bool * WatchRegistry :=
  let '(removed, m) := fold_left (remove_step (w_id w)) (w_keys w) (false, waiters r) in
  (removed, set_waiters r m).

(** ** Waiting *)

(** Polling the receiver of waiter [id]: the value once it is sent, [Some None] once
    the sender is gone, [None] while it may still come. *)
Definition poll (r : WatchRegistry) (id : Z) : option (option BlockResult) :=
  match sent r !! id with
  | Some b => Some (Some b)
  | None => if decide (id ∈ senders r) then None else Some None
  end.

(** What [Registration::wait] does when its timeout elapses: give up, or go on
    waiting for the writer that claimed the waiter. *)
Inductive wait_decision : Type :=
| GiveUp
| KeepWaiting.

Definition on_timeout (r : WatchRegistry) (w : Waiter) : wait_decision * WatchRegistry :=
  let '(removed, r') := remove_waiter r w in
  (if removed then GiveUp else KeepWaiting, r').

(** [Drop for Registration] *)
Definition drop_registration (r : WatchRegistry) (w : Waiter) : WatchRegistry :=
  snd (remove_waiter r w).

(** ** Queue algebra *)

Definition queue (m : gmap (list Z) (list Waiter)) (k : list Z) : list Waiter := default [] (m !! k).

(** No empty queue is ever stored. *)
Definition no_empty (m : gmap (list Z) (list Waiter)) : Prop := ∀ k, m !! k ≠ Some [].

Lemma queue_put k q m k' : queue (put_queue k q m) k' = if decide (k = k') then q else queue m k'.
Proof.
  unfold queue, put_queue. destruct q; rewrite ?lookup_delete, ?lookup_insert; by case_decide.
Qed.

Lemma no_empty_put k q m : no_empty m → no_empty (put_queue k q m).
Proof.
  intros Hm k'. unfold put_queue. destruct q; rewrite ?lookup_delete, ?lookup_insert;
    case_decide; subst; done.
Qed.

Lemma without_idem id q : without id (without id q) = without id q.
Proof.
  unfold without. rewrite list_filter_filter. apply list_filter_iff. naive_solver.
Qed.

Lemma elem_of_without id q w : w ∈ without id q ↔ w ∈ q ∧ w_id w ≠ id.
Proof. unfold without. rewrite list_elem_of_filter. naive_solver. Qed.

Lemma without_absent id q : (∀ w, w ∈ q → w_id w ≠ id) → without id q = q.
Proof.
  intros H. induction q as [|w q IH]; [done|]. unfold without.
  rewrite filter_cons_True by (apply H; left). f_equal. apply IH. intros w' Hw'. apply H. by right.
Qed.

Lemma queue_retain_key id m k k' :
  queue (retain_key id m k) k' = if decide (k = k') then without id (queue m k') else queue m k'.
Proof.
  unfold retain_key. destruct (m !! k) as [q|] eqn:E.
  - rewrite queue_put. case_decide; [|done]. subst. unfold queue. by rewrite E.
  - case_decide; [|done]. subst. unfold queue. by rewrite E.
Qed.

Lemma queue_retain_keys id keys m k :
  queue (retain_keys id keys m) k = if decide (k ∈ keys) then without id (queue m k) else queue m k.
Proof.
  unfold retain_keys. revert m. induction keys as [|k0 keys IH]; intros m; cbn [fold_left].
  - case_decide; [set_solver|done].
  - rewrite IH, queue_retain_key.
    destruct (decide (k0 = k)) as [->|]; destruct (decide (k ∈ keys)), (decide (k ∈ _ :: keys));
      rewrite ?without_idem; try done; set_solver.
Qed.

Lemma no_empty_retain_keys id keys m : no_empty m → no_empty (retain_keys id keys m).
Proof.
  unfold retain_keys. revert m. induction keys as [|k0 keys IH]; intros m Hm; cbn [fold_left]; [done|].
  apply IH. unfold retain_key. destruct (m !! k0); [by apply no_empty_put|done].
Qed.

(** Pushing a waiter onto each of its distinct keys, at either end. *)
Definition push (front : bool) (w : Waiter) (q : list Waiter) : list Waiter :=
  if front then w :: q else q ++ [w].

Lemma queue_push (front : bool) w keys m k :
  NoDup keys →
  queue (fold_left (if front then push_front w else push_back w) keys m) k =
    if decide (k ∈ keys) then push front w (queue m k) else queue m k.
Proof.
  intros Hnd. revert m. induction Hnd as [|k0 keys Hk0 Hnd IH]; intros m; cbn [fold_left].
  { case_decide; [set_solver|done]. }
  assert (∀ k', queue ((if front then push_front w else push_back w) m k0) k' =
      if decide (k0 = k') then push front w (queue m k') else queue m k') as Hone.
  { intros k'. unfold queue. destruct front; unfold push_front, push_back;
      rewrite lookup_insert; destruct (decide (k0 = k')) as [<-|]; done. }
  rewrite IH, Hone. destruct (decide (k0 = k)) as [->|];
    destruct (decide (k ∈ keys)), (decide (k ∈ _ :: keys)); try done; set_solver.
Qed.

Lemma no_empty_push (front : bool) w keys m :
  no_empty m → no_empty (fold_left (if front then push_front w else push_back w) keys m).
Proof.
  revert m. induction keys as [|k0 keys IH]; intros m Hm; cbn [fold_left]; [done|]. apply IH. intros k.
  destruct front; unfold push_front, push_back; rewrite lookup_insert; case_decide; subst; try done.
  intros [= H]. by destruct (default [] (m !! k)).
Qed.

Lemma elem_of_push front w q w' : w' ∈ push front w q ↔ w' = w ∨ w' ∈ q.
Proof. destruct front; simpl; [|rewrite elem_of_app]; set_solver. Qed.

Lemma NoDup_push front w q : NoDup q → w ∉ q → NoDup (push front w q).
Proof.
  intros Hq Hw. destruct front; simpl; [by constructor|]. apply NoDup_app. split; [done|].
  split; [set_solver|apply NoDup_singleton].
Qed.

Lemma remove_waiter_queues r w :
  waiters (snd (remove_waiter r w)) = retain_keys (w_id w) (w_keys w) (waiters r).
Proof.
  unfold remove_waiter, retain_keys.
  assert (∀ keys b m, snd (fold_left (remove_step (w_id w)) keys (b, m)) =
                      fold_left (retain_key (w_id w)) keys m) as H.
  { intros keys. induction keys as [|k keys IH]; intros b m; cbn [fold_left]; [done|].
    unfold remove_step at 2, retain_key at 2. destruct (m !! k); apply IH. }
  specialize (H (w_keys w) false (waiters r)). by destruct (fold_left _ _ _).
Qed.

Lemma remove_waiter_found r w :
  fst (remove_waiter r w) = true ↔
    ∃ k w', k ∈ w_keys w ∧ w' ∈ queue (waiters r) k ∧ w_id w' = w_id w.
Proof.
  unfold remove_waiter.
  assert (∀ keys b m, fst (fold_left (remove_step (w_id w)) keys (b, m)) = true ↔
    b = true ∨ ∃ k w', k ∈ keys ∧ w' ∈ queue m k ∧ w_id w' = w_id w) as H.
  { intros keys. induction keys as [|k keys IH]; intros b m; cbn [fold_left].
    { set_solver. }
    unfold remove_step at 2. destruct (m !! k) as [q|] eqn:E.
    - rewrite IH. setoid_rewrite queue_put. rewrite orb_true_iff, negb_true_iff, Nat.eqb_neq.
      assert (length (without (w_id w) q) ≠ length q ↔ ∃ w', w' ∈ q ∧ w_id w' = w_id w) as Hq.
      { split.
        - intros Hl. destruct (decide (Exists (λ w', w_id w' = w_id w) q)) as [He|He].
          + by apply Exists_exists in He.
          + rewrite without_absent in Hl; [done|]. intros w' Hw' Hid. apply He, Exists_exists. eauto.
        - intros (w' & Hw' & Hid) Hl. apply list_elem_of_split in Hw' as (l1 & l2 & ->).
          unfold without in Hl. rewrite filter_app, filter_cons_False in Hl by naive_solver.
          pose proof (length_filter (λ w0, w_id w0 ≠ w_id w) l1).
          pose proof (length_filter (λ w0, w_id w0 ≠ w_id w) l2).
          rewrite !length_app in Hl. simpl in Hl. lia. }
      rewrite Hq. assert (queue m k = q) as Hmk by (unfold queue; by rewrite E).
      split.
      + intros [[?|(w' & ? & ?)]|(k' & w' & ? & Hin & ?)]; [by left|right; exists k, w'; set_solver|].
        right. exists k', w'. case_decide; [subst k'|set_solver].
        apply elem_of_without in Hin as [??]. done.
      + intros [?|(k' & w' & [->|?]%elem_of_cons & Hin & ?)]; [by do 2 left| |].
        * left. right. exists w'. by rewrite <- Hmk.
        * destruct (decide (k = k')) as [<-|]; [left; right; exists w'; by rewrite <- Hmk|].
          right. exists k', w'. by rewrite decide_False.
    - rewrite IH. split; [naive_solver set_solver|].
      intros [?|(k' & w' & [->|?]%elem_of_cons & Hin & ?)]; [by left| |naive_solver].
      unfold queue in Hin. rewrite E in Hin. set_solver. }
  specialize (H (w_keys w) false (waiters r)). destruct (fold_left _ _ _). simpl in *. naive_solver.
Qed.

(** ** Interleavings *)

(** The registry and the claims writers hold: made inside a transaction and not yet
    woken or released. *)
Record Sys : Type := mkSys {
  reg : WatchRegistry;
  claims : list Claim
}.

(** [w] is the waiter its id belongs to. *)
Definition genuine (r : WatchRegistry) (w : Waiter) : Prop :=
  ∀ k w', w' ∈ queue (waiters r) k → w_id w' = w_id w → w' = w.

(** One operation of some client or writer. Clients register under distinct keys. *)
Inductive step : Sys → Sys → Prop :=
| step_register r cs keys kind :
    NoDup keys → step (mkSys r cs) (mkSys (snd (register r keys kind)) cs)
| step_claim r cs key c r' :
    try_claim r key = (Some c, r') → step (mkSys r cs) (mkSys r' (c :: cs))
| step_wake r cs1 c cs2 b :
    step (mkSys r (cs1 ++ c :: cs2)) (mkSys (wake r (set_result c b)) (cs1 ++ cs2))
| step_release r cs1 c cs2 :
    step (mkSys r (cs1 ++ c :: cs2)) (mkSys (release_front r c) (cs1 ++ cs2))
| step_notify r cs key :
    step (mkSys r cs) (mkSys (wake r (stream_notification key)) cs)
| step_remove r cs w :
    genuine r w → step (mkSys r cs) (mkSys (drop_registration r w) cs)
| step_bump r cs keys : step (mkSys r cs) (mkSys (bump_versions r keys) cs)
| step_flush r cs : step (mkSys r cs) (mkSys (bump_flush_epoch r) cs).

Definition reachable (s : Sys) : Prop := rtc step (mkSys registry_new []) s.

(** ** The invariant *)

(** A queued waiter is queued under all its keys, which are distinct, and can still
    be sent a value. *)
Definition queued_ok (r : WatchRegistry) : Prop :=
  ∀ k w, w ∈ queue (waiters r) k →
    k ∈ w_keys w ∧ NoDup (w_keys w) ∧ (∀ k', k' ∈ w_keys w → w ∈ queue (waiters r) k') ∧
    w_id w ∈ senders r.

Definition unique_ids (r : WatchRegistry) : Prop :=
  ∀ k k' w w', w ∈ queue (waiters r) k → w' ∈ queue (waiters r) k' → w_id w = w_id w' → w = w'.

(** Ids are handed out in order, and a value is sent at most once per waiter. *)
Definition channels_ok (r : WatchRegistry) : Prop :=
  (∀ id, id ∈ senders r → id < next_id r ∧ sent r !! id = None) ∧
  (∀ id b, sent r !! id = Some b → id < next_id r).

(** A claimed waiter is in no queue and is still waiting for its value. *)
Definition claim_ok (r : WatchRegistry) (c : Claim) : Prop :=
  c_notify c = false ∧ NoDup (w_keys (c_waiter c)) ∧ w_id (c_waiter c) ∈ senders r ∧
  ∀ k w, w ∈ queue (waiters r) k → w_id w ≠ w_id (c_waiter c).

Definition claim_id (c : Claim) : Z := w_id (c_waiter c).

Record sys_wf (s : Sys) : Prop := {
  wf_no_empty : no_empty (waiters (reg s));
  wf_queued : queued_ok (reg s);
  wf_unique : unique_ids (reg s);
  wf_nodup : ∀ k, NoDup (queue (waiters (reg s)) k);
  wf_channels : channels_ok (reg s);
  wf_claims : Forall (claim_ok (reg s)) (claims s);
  wf_claims_nodup : NoDup (claim_id <$> claims s)
}.

Lemma init_wf : sys_wf (mkSys registry_new []).
Proof.
  assert (∀ k, queue (waiters registry_new) k = []) as Hq.
  { intros k. unfold queue, registry_new. simpl. by rewrite lookup_empty. }
  split; cbn [reg claims].
  - intros k. unfold registry_new. simpl. by rewrite lookup_empty.
  - intros k w. rewrite Hq. set_solver.
  - intros k k' w w'. rewrite Hq. set_solver.
  - intros k. rewrite Hq. constructor.
  - split; [set_solver|]. intros id b. unfold registry_new. simpl. by rewrite lookup_empty.
  - constructor.
  - constructor.
Qed.

(** Removing the waiter [id] from every queue it can be in. *)
Lemma queue_retain_genuine r id keys k :
  (∀ k w, w ∈ queue (waiters r) k → w_id w = id → k ∈ keys) →
  queue (retain_keys id keys (waiters r)) k = without id (queue (waiters r) k).
Proof.
  intros H. rewrite queue_retain_keys. case_decide as Hk; [done|].
  symmetry. apply without_absent. intros w Hw Hid. apply Hk. by eapply H.
Qed.

(** Dropping one waiter everywhere keeps the queues coherent, whoever it is. *)
Lemma wf_drop_id s m id :
  sys_wf s → no_empty m → (∀ k, queue m k = without id (queue (waiters (reg s)) k)) →
  sys_wf (mkSys (set_waiters (reg s) m) (claims s)).
Proof.
  intros [He Hq Hu Hn Hc Hcl Hcn] Hm Hk. split; simpl; try done.
  - intros k w. unfold set_waiters; simpl. rewrite Hk, elem_of_without. intros [Hw Hid].
    destruct (Hq _ _ Hw) as (? & ? & Hall & ?). repeat split; try done.
    intros k' Hk'. rewrite Hk, elem_of_without. auto.
  - intros k k' w w'. simpl. rewrite !Hk, !elem_of_without. intros [? _] [? _]. by eapply Hu.
  - intros k. rewrite Hk. apply NoDup_filter, Hn.
  - eapply Forall_impl; [done|]. intros c (? & ? & ? & Hno). repeat split; try done.
    intros k w. simpl. rewrite Hk, elem_of_without. intros [? _]. by eapply Hno.
Qed.

Lemma wf_register s keys kind :
  sys_wf s → NoDup keys → sys_wf (mkSys (snd (register (reg s) keys kind)) (claims s)).
Proof.
  intros [He Hq Hu Hn [Hs1 Hs2] Hcl Hcn] Hnd. set (w := mkWaiter (next_id (reg s)) keys kind).
  assert (∀ k, queue (fold_left (push_back w) keys (waiters (reg s))) k =
    if decide (k ∈ keys) then push false w (queue (waiters (reg s)) k)
    else queue (waiters (reg s)) k) as Hk by (intros k; by apply (queue_push false)).
  assert (∀ k w', w' ∈ queue (waiters (reg s)) k → w_id w' < next_id (reg s)) as Hlt.
  { intros k w' Hw'. destruct (Hq _ _ Hw') as (_ & _ & _ & Hid). by apply Hs1. }
  assert (∀ k w', w' ∈ queue (fold_left (push_back w) keys (waiters (reg s))) k →
      (w' = w ∧ k ∈ keys) ∨ w' ∈ queue (waiters (reg s)) k) as Hin.
  { intros k w'. rewrite Hk. case_decide; [|by right]. rewrite elem_of_push. naive_solver. }
  split; simpl.
  - by apply (no_empty_push false).
  - intros k w' [[-> Hkk]|Hw']%Hin.
    + repeat split; try done; [|set_solver]. intros k' Hk'. simpl. rewrite Hk.
      rewrite decide_True by done. apply elem_of_push. by left.
    + destruct (Hq _ _ Hw') as (? & ? & Hall & ?). repeat split; try done; [|set_solver].
      intros k' Hk'. simpl. rewrite Hk. case_decide; [|by apply Hall].
      apply elem_of_push. right. by apply Hall.
  - intros k k' w1 w2 [[-> _]|H1]%Hin [[-> _]|H2]%Hin Hid; try done.
    + apply Hlt in H2. simpl in Hid. lia.
    + apply Hlt in H1. simpl in Hid. lia.
    + by eapply Hu.
  - intros k. rewrite Hk. case_decide; [|done]. apply NoDup_push; [done|].
    intros Hw%Hlt. simpl in Hw. lia.
  - unfold channels_ok. simpl. split.
    + intros id [->%elem_of_singleton|Hid]%elem_of_union.
      * split; [lia|]. destruct (sent (reg s) !! next_id (reg s)) eqn:E; [|done].
        apply Hs2 in E. lia.
      * destruct (Hs1 id Hid). split; [lia|done].
    + intros id b Hb. specialize (Hs2 id b Hb). lia.
  - eapply Forall_impl; [done|]. intros c (? & ? & Hsc & Hno). repeat split; try done; [set_solver|].
    intros k w' [[-> _]|Hw']%Hin; [|by eapply Hno]. destruct (Hs1 _ Hsc). simpl. lia.
  - done.
Qed.

(** What a successful claim does to every queue. *)
Lemma try_claim_spec s key c r' :
  sys_wf s → try_claim (reg s) key = (Some c, r') →
  head (queue (waiters (reg s)) key) = Some (c_waiter c) ∧ c = mkClaim (c_waiter c) None false ∧
  (∀ k, queue (waiters r') k = without (claim_id c) (queue (waiters (reg s)) k)) ∧
  no_empty (waiters r') ∧ r' = set_waiters (reg s) (waiters r').
Proof.
  intros [He Hq Hu Hn _ _ _]. unfold try_claim.
  destruct (waiters (reg s) !! key) as [[|w q]|] eqn:E; [done| |done]. intros [= <- <-]. simpl.
  assert (queue (waiters (reg s)) key = w :: q) as Hqk by (unfold queue; by rewrite E).
  split; [by rewrite Hqk|]. split; [done|].
  split; [|split; [apply no_empty_retain_keys; by apply no_empty_put|done]].
  intros k. unfold claim_id. simpl. rewrite queue_retain_keys, queue_put.
  assert (w ∈ queue (waiters (reg s)) key) as Hw by (rewrite Hqk; left).
  destruct (decide (key = k)) as [<-|Hne].
  - rewrite decide_False by (rewrite list_elem_of_filter; naive_solver).
    rewrite Hqk. unfold without. rewrite filter_cons_False by naive_solver.
    symmetry. apply without_absent. intros w' Hw' Hid. specialize (Hn key). rewrite Hqk in Hn.
    apply NoDup_cons in Hn as [Hnot _]. apply Hnot.
    rewrite (Hu key key w w'); [done|done| |done]. rewrite Hqk. by right.
  - destruct (decide (k ∈ _)) as [|Hno]; [done|].
    symmetry. apply without_absent. intros w' Hw' Hid. apply Hno, list_elem_of_filter. split; [done|].
    rewrite <- (Hu _ _ _ _ Hw' Hw Hid). by apply Hq in Hw' as (? & _).
Qed.

Lemma wf_claim s key c r' :
  sys_wf s → try_claim (reg s) key = (Some c, r') → sys_wf (mkSys r' (c :: claims s)).
Proof.
  intros Hs E. destruct (try_claim_spec _ _ _ _ Hs E) as (Hh & Hc & Hk & He & Hr').
  pose proof (wf_drop_id s (waiters r') (claim_id c) Hs He Hk) as [He' Hq' Hu' Hn' Hch' Hcl' Hcn'].
  rewrite <- Hr' in *. simpl in *.
  assert (c_waiter c ∈ queue (waiters (reg s)) key) as Hw.
  { destruct (queue (waiters (reg s)) key); [done|]. injection Hh as ->. left. }
  destruct (wf_queued _ Hs _ _ Hw) as (? & ? & ? & Hsend).
  split; simpl; try done.
  - constructor; [|done]. split; [by rewrite Hc|]. split; [done|]. split; [by rewrite Hr'|].
    intros k w. rewrite Hk, elem_of_without. by intros [_ ?].
  - constructor; [|done]. intros (c' & Hid & Hin)%list_elem_of_fmap.
    pose proof (wf_claims _ Hs) as Hcls. rewrite Forall_forall in Hcls.
    destruct (Hcls _ Hin) as (_ & _ & _ & Hno). by apply (Hno _ _ Hw).
Qed.

(** Sending to a waiter that is in no queue and not otherwise claimed. *)
Lemma wf_send s id b :
  sys_wf s → (∀ k w, w ∈ queue (waiters (reg s)) k → w_id w ≠ id) →
  Forall (λ c, claim_id c ≠ id) (claims s) →
  sys_wf (mkSys (send_to (reg s) id (Some b)) (claims s)).
Proof.
  intros [He Hq Hu Hn [Hs1 Hs2] Hcl Hcn] Hno Hcs. unfold send_to. destruct (decide _) as [Hid|]; [|done].
  split; simpl; try done.
  - intros k w Hw. destruct (Hq _ _ Hw) as (? & ? & ? & ?). repeat split; try done.
    simpl. specialize (Hno _ _ Hw). set_solver.
  - unfold channels_ok. simpl. split.
    + intros id' [Hin Hne%not_elem_of_singleton]%elem_of_difference. destruct (Hs1 _ Hin).
      split; [done|]. simpl. by rewrite lookup_insert_ne.
    + intros id' b'. simpl. rewrite lookup_insert. case_decide; [subst|apply Hs2].
      intros _. by apply Hs1.
  - apply Forall_forall. intros c Hc. rewrite Forall_forall in Hcl, Hcs.
    destruct (Hcl c Hc) as (? & ? & ? & ?). specialize (Hcs c Hc). repeat split; try done.
    simpl. unfold claim_id in Hcs. set_solver.
Qed.

Lemma wf_drop_claim s c cs1 cs2 :
  sys_wf s → claims s = cs1 ++ c :: cs2 →
  sys_wf (mkSys (reg s) (cs1 ++ cs2)) ∧ claim_ok (reg s) c ∧
  Forall (λ c', claim_id c' ≠ claim_id c) (cs1 ++ cs2).
Proof.
  intros [He Hq Hu Hn Hc Hcl Hcn] E. rewrite E in *.
  assert (c :: cs1 ++ cs2 ≡ₚ cs1 ++ c :: cs2) as Hp by by rewrite Permutation_middle.
  rewrite <- Hp in Hcl, Hcn. apply Forall_cons in Hcl as [Hok Hcl].
  rewrite fmap_cons in Hcn. apply NoDup_cons in Hcn as [Hnot Hcn].
  split; [by split|]. split; [done|]. apply Forall_forall. intros c' Hc' Hid. apply Hnot.
  rewrite <- Hid. by apply list_elem_of_fmap_2.
Qed.

Lemma wf_release s c cs1 cs2 :
  sys_wf s → claims s = cs1 ++ c :: cs2 →
  sys_wf (mkSys (release_front (reg s) c) (cs1 ++ cs2)).
Proof.
  intros Hs E. destruct (wf_drop_claim _ _ _ _ Hs E) as ([He Hq Hu Hn Hch Hcl Hcn] & Hok & Hne).
  destruct Hok as (Hnot & Hnd & Hsend & Hno). unfold release_front. rewrite Hnot. simpl in *.
  set (w := c_waiter c) in *.
  assert (∀ k, queue (fold_left (push_front w) (w_keys w) (waiters (reg s))) k =
    if decide (k ∈ w_keys w) then push true w (queue (waiters (reg s)) k)
    else queue (waiters (reg s)) k) as Hk by (intros k; by apply (queue_push true)).
  assert (∀ k w', w' ∈ queue (fold_left (push_front w) (w_keys w) (waiters (reg s))) k →
      (w' = w ∧ k ∈ w_keys w) ∨ w' ∈ queue (waiters (reg s)) k) as Hin.
  { intros k w'. rewrite Hk. case_decide; [|by right]. rewrite elem_of_push. naive_solver. }
  split; simpl; try done.
  - by apply (no_empty_push true).
  - intros k w' [[-> Hkk]|Hw']%Hin.
    + repeat split; try done. intros k' Hk'. simpl. rewrite Hk, decide_True by done.
      apply elem_of_push. by left.
    + destruct (Hq _ _ Hw') as (? & ? & Hall & ?). repeat split; try done.
      intros k' Hk'. simpl. rewrite Hk. case_decide; [|by apply Hall].
      apply elem_of_push. right. by apply Hall.
  - intros k k' w1 w2 [[-> _]|H1]%Hin [[-> _]|H2]%Hin Hid; try done.
    + symmetry in Hid. by destruct (Hno _ _ H2).
    + by destruct (Hno _ _ H1).
    + by eapply Hu.
  - intros k. rewrite Hk. case_decide; [|done]. apply NoDup_push; [done|].
    intros Hw. by destruct (Hno _ _ Hw).
  - apply Forall_forall. intros c' Hc'. rewrite Forall_forall in Hcl, Hne.
    destruct (Hcl _ Hc') as (? & ? & ? & Hno'). repeat split; try done.
    intros k w' [[-> _]|Hw']%Hin; [|by eapply Hno']. intros Hid. by apply (Hne _ Hc').
Qed.

Lemma wf_remove s w :
  sys_wf s → genuine (reg s) w → sys_wf (mkSys (drop_registration (reg s) w) (claims s)).
Proof.
  intros Hs Hg. unfold drop_registration.
  assert (snd (remove_waiter (reg s) w) =
    set_waiters (reg s) (retain_keys (w_id w) (w_keys w) (waiters (reg s)))) as ->.
  { rewrite <- remove_waiter_queues. unfold remove_waiter. by destruct (fold_left _ _ _). }
  apply (wf_drop_id s _ (w_id w) Hs).
  - apply no_empty_retain_keys, Hs.
  - intros k. apply queue_retain_genuine. intros k' w' Hw' Hid.
    rewrite <- (Hg _ _ Hw' Hid). by apply (wf_queued _ Hs) in Hw' as (? & _).
Qed.

(** Waking the stream waiters one after the other: each is first taken out of all
    its queues; none of them is claimed by a writer. *)
Lemma wf_retain_all s ws :
  sys_wf s → (∀ w, w ∈ ws → genuine (reg s) w) →
  let m := fold_left (λ m w, retain_keys (w_id w) (w_keys w) m) ws (waiters (reg s)) in
  sys_wf (mkSys (set_waiters (reg s) m) (claims s)) ∧
  ∀ k w, w ∈ queue m k → w ∈ queue (waiters (reg s)) k ∧ ∀ w', w' ∈ ws → w_id w ≠ w_id w'.
Proof.
  revert s. induction ws as [|w ws IH]; intros s Hs Hg; cbn [fold_left].
  { split; [by destruct s as [[]]|set_solver]. }
  set (m1 := retain_keys (w_id w) (w_keys w) (waiters (reg s))).
  assert (∀ k, queue m1 k = without (w_id w) (queue (waiters (reg s)) k)) as Hk.
  { intros k. apply queue_retain_genuine. intros k' w' Hw' Hid.
    rewrite <- (Hg w ltac:(left) _ _ Hw' Hid). by apply (wf_queued _ Hs) in Hw' as (? & _). }
  assert (sys_wf (mkSys (set_waiters (reg s) m1) (claims s))) as Hs1.
  { apply (wf_drop_id s m1 (w_id w) Hs); [apply no_empty_retain_keys, Hs|done]. }
  destruct (IH (mkSys (set_waiters (reg s) m1) (claims s)) Hs1) as [Hwf Hin].
  { intros w' Hw' k w2. simpl. rewrite Hk, elem_of_without. intros [Hw2 _].
    apply (Hg w' ltac:(by right) _ _ Hw2). }
  split; [done|]. intros k w2 Hw2. destruct (Hin k w2 Hw2) as [Hw2' Hno]. simpl in Hw2'.
  rewrite Hk, elem_of_without in Hw2'. destruct Hw2' as [? ?]. split; [done|].
  intros w' [->|Hw']%elem_of_cons; [done|by apply Hno].
Qed.

Lemma wf_send_all s ws b :
  sys_wf s → (∀ w, w ∈ ws → ∀ k w', w' ∈ queue (waiters (reg s)) k → w_id w' ≠ w_id w) →
  (∀ w, w ∈ ws → Forall (λ c, claim_id c ≠ w_id w) (claims s)) →
  sys_wf (mkSys (fold_left (λ r w, send_to r (w_id w) (Some b)) ws (reg s)) (claims s)).
Proof.
  revert s. induction ws as [|w ws IH]; intros s Hs Hno Hcl; cbn [fold_left]; [by destruct s|].
  pose proof (wf_send s (w_id w) b Hs (Hno w ltac:(left)) (Hcl w ltac:(left))) as Hs1.
  apply (IH (mkSys (send_to (reg s) (w_id w) (Some b)) (claims s)) Hs1).
  - intros w' Hw' k w2. cbn [reg]. unfold send_to. case_decide; apply Hno; by right.
  - intros w' Hw'. apply Hcl. by right.
Qed.

Lemma wf_notify s key : sys_wf s → sys_wf (mkSys (wake (reg s) (stream_notification key)) (claims s)).
Proof.
  intros Hs. unfold wake, stream_notification, wake_stream_waiters. cbn [c_notify c_waiter w_keys].
  destruct (waiters (reg s) !! key) as [q|] eqn:E; [|by destruct s].
  assert (queue (waiters (reg s)) key = q) as Hq by (unfold queue; by rewrite E).
  set (ws := filter _ q).
  assert (∀ w, w ∈ ws → w ∈ queue (waiters (reg s)) key) as Hws.
  { intros w [_ Hw]%list_elem_of_filter. by rewrite Hq. }
  destruct (wf_retain_all s ws Hs) as [Hwf Hin].
  { intros w Hw k w' Hw' Hid. by eapply (wf_unique _ Hs); [|by apply Hws|]. }
  apply (wf_send_all (mkSys _ (claims s)) ws); [done| |].
  - intros w Hw k w' Hw'. simpl in Hw'. apply Hin in Hw' as [_ Hno]. by apply Hno.
  - intros w Hw. simpl. eapply Forall_impl; [apply (wf_claims _ Hs)|].
    intros c (_ & _ & _ & Hno) Hid. by apply (Hno _ _ (Hws w Hw)).
Qed.

Lemma step_wf s s' : sys_wf s → step s s' → sys_wf s'.
Proof.
  intros Hs Hst. destruct Hst as [r cs keys kind Hnd|r cs key c r' E|r cs1 c cs2 b|r cs1 c cs2
    |r cs key|r cs w Hg|r cs keys|r cs].
  - by apply (wf_register (mkSys r cs)).
  - by eapply (wf_claim (mkSys r cs)).
  - destruct (wf_drop_claim _ c cs1 cs2 Hs eq_refl) as (Hwf & (Hnot & _ & _ & Hno) & Hne).
    unfold wake, set_result. cbn [c_notify c_waiter c_result reg]. simpl in Hnot, Hno. rewrite Hnot.
    by apply (wf_send (mkSys r (cs1 ++ cs2))).
  - by apply (wf_release (mkSys r (cs1 ++ c :: cs2)) c).
  - by apply (wf_notify (mkSys r cs)).
  - by apply (wf_remove (mkSys r cs)).
  - by destruct Hs.
  - by destruct Hs.
Qed.

Lemma reachable_wf s : reachable s → sys_wf s.
Proof.
  unfold reachable. intros H. remember (mkSys registry_new []) as s0 eqn:E.
  assert (sys_wf s0) as H0 by (subst; apply init_wf). clear E.
  induction H as [|s0 s1 s2 Hst _ IH]; [done|]. apply IH. by eapply step_wf.
Qed.

(** ** Theorems *)

(** C6: the registry's invariant holds in every state reachable by any interleaving
    of registrations (under distinct keys), claims, wakes, releases, stream
    notifications, timeouts and disconnects: a queued waiter is in the queues of all
    its keys and of no other, no queue holds a waiter twice or is stored empty, and
    the waiter of an outstanding claim is in no queue, is claimed by nobody else and
    has not been sent anything. *)
Theorem registry_invariant s :
  reachable s → sys_wf s.
Proof. apply reachable_wf. Qed.

(** A client waiting on two keys, claimed by a writer through the first. *)
Definition sample_keys : list (list Z) := [B "0:a"; B "0:b"].
Definition sample_registered : WatchRegistry := snd (register registry_new sample_keys (Pop true)).
Definition sample_waiter : Waiter := mkWaiter 1 sample_keys (Pop true).

Lemma sample_reachable : reachable (mkSys sample_registered []).
Proof.
  eapply rtc_l; [|apply rtc_refl]. apply step_register.
  apply (bool_decide_unpack _). vm_compute. exact I.
Qed.

Lemma registry_invariant_witness : sys_wf (mkSys sample_registered []).
Proof. apply (registry_invariant (mkSys sample_registered [])). apply sample_reachable. Defined.

(** [try_claim] serves the longest-waiting client: the claim is for the front of
    the key's queue, and afterwards that waiter is in no queue at all while every
    other waiter keeps its place in every queue. *)
Theorem try_claim_takes_front s key c r' :
  reachable s → try_claim (reg s) key = (Some c, r') →
  head (queue (waiters (reg s)) key) = Some (c_waiter c) ∧
  ∀ k, queue (waiters r') k = filter (λ w, w ≠ c_waiter c) (queue (waiters (reg s)) k).
Proof.
  intros Hs%reachable_wf E. destruct (try_claim_spec _ _ _ _ Hs E) as (Hh & _ & Hk & _).
  split; [done|]. intros k. rewrite Hk. unfold without, claim_id. apply list_filter_ext_elem.
  intros w Hw. assert (c_waiter c ∈ queue (waiters (reg s)) key) as Hc.
  { destruct (queue (waiters (reg s)) key); [done|]. injection Hh as ->. left. }
  split; [congruence|]. intros Hne Hid. apply Hne. by eapply (wf_unique _ Hs).
Qed.

Lemma try_claim_takes_front_witness :
  ∃ c r', try_claim sample_registered (B "0:b") = (Some c, r') ∧
    head (queue (waiters sample_registered) (B "0:b")) = Some (c_waiter c) ∧
    ∀ k, queue (waiters r') k = filter (λ w, w ≠ c_waiter c) (queue (waiters sample_registered) k).
Proof.
  eexists _, _. split; [vm_compute; reflexivity|].
  eapply (try_claim_takes_front (mkSys sample_registered []) (B "0:b"));
    [apply sample_reachable|vm_compute; reflexivity].
Defined.

(** A claim is served exactly once. While a claim is outstanding its client's
    channel is still empty and open; waking the claim with a result delivers that
    result to that client, and to nobody else. *)
Theorem wake_delivers s c b cs1 cs2 :
  reachable s → claims s = cs1 ++ c :: cs2 →
  poll (reg s) (claim_id c) = None ∧
  poll (wake (reg s) (set_result c b)) (claim_id c) = Some (Some b) ∧
  ∀ id, id ≠ claim_id c → poll (wake (reg s) (set_result c b)) id = poll (reg s) id.
Proof.
  intros Hs%reachable_wf E. destruct (wf_drop_claim _ _ _ _ Hs E) as (_ & (Hnot & _ & Hsend & _) & _).
  destruct (wf_channels _ Hs) as [Hch _]. destruct (Hch _ Hsend) as [_ Hnone].
  assert (wake (reg s) (set_result c b) =
    mkRegistry (waiters (reg s)) (next_id (reg s)) (senders (reg s) ∖ {[claim_id c]})
      (<[claim_id c := b]> (sent (reg s))) (write_versions (reg s)) (epoch (reg s))) as ->.
  { unfold wake, set_result, send_to. cbn [c_notify c_waiter c_result]. rewrite Hnot.
    by rewrite (decide_True (P := w_id (c_waiter c) ∈ senders (reg s))). }
  unfold poll. cbn [sent senders].
  split; [unfold claim_id; by rewrite Hnone, decide_True|].
  split; [by rewrite lookup_insert_eq|].
  intros id Hid. rewrite lookup_insert_ne by done. destruct (sent (reg s) !! id); [done|].
  destruct (decide (id ∈ senders (reg s))), (decide (id ∈ senders (reg s) ∖ _)); set_solver.
Qed.

Lemma wake_delivers_witness :
  poll (wake (snd (try_claim sample_registered (B "0:a")))
         (set_result (mkClaim sample_waiter None false) (StreamDone (B "0:a")))) 1 =
    Some (Some (StreamDone (B "0:a"))).
Proof.
  apply (wake_delivers
    (mkSys (snd (try_claim sample_registered (B "0:a"))) [mkClaim sample_waiter None false])
    (mkClaim sample_waiter None false) (StreamDone (B "0:a")) [] []); [|reflexivity].
  eapply rtc_r; [apply sample_reachable|]. apply (step_claim _ _ (B "0:a")). vm_compute. reflexivity.
Defined.

(** The timeout race never loses a result. When its timeout elapses a client
    gives up exactly when no writer has claimed it, and then it is in no queue any
    more; otherwise the queues are untouched and it goes on waiting. *)
Theorem timeout_race s w k :
  reachable s → genuine (reg s) w → k ∈ w_keys w →
  (w ∈ queue (waiters (reg s)) k →
     fst (on_timeout (reg s) w) = GiveUp ∧
     ∀ k', w ∉ queue (waiters (snd (on_timeout (reg s) w))) k') ∧
  (w ∉ queue (waiters (reg s)) k →
     fst (on_timeout (reg s) w) = KeepWaiting ∧
     ∀ k', queue (waiters (snd (on_timeout (reg s) w))) k' = queue (waiters (reg s)) k').
Proof.
  intros Hs%reachable_wf Hg Hk. unfold on_timeout.
  pose proof (remove_waiter_found (reg s) w) as Hf.
  pose proof (remove_waiter_queues (reg s) w) as Hq.
  destruct (remove_waiter (reg s) w) as [removed r']. simpl in *.
  assert (∀ k', queue (waiters r') k' = without (w_id w) (queue (waiters (reg s)) k')) as Hr'.
  { intros k'. rewrite Hq. apply queue_retain_genuine. intros k2 w' Hw' Hid.
    rewrite <- (Hg _ _ Hw' Hid). by apply (wf_queued _ Hs) in Hw' as (? & _). }
  split; intros Hw.
  - rewrite (proj2 Hf) by eauto 10. split; [done|]. intros k'. rewrite Hr', elem_of_without. naive_solver.
  - assert (∀ k' w', w' ∈ queue (waiters (reg s)) k' → w_id w' ≠ w_id w) as Hno.
    { intros k' w' Hw' Hid. pose proof (Hg _ _ Hw' Hid) as ->. apply Hw.
      by apply (wf_queued _ Hs) in Hw' as (_ & _ & Hall & _); apply Hall. }
    destruct removed; [destruct (proj1 Hf eq_refl) as (? & ? & ? & ? & ?); naive_solver|].
    split; [done|]. intros k'. rewrite Hr'. apply without_absent. intros w' Hw'. by eapply Hno.
Qed.

Lemma sample_queued : sample_waiter ∈ queue (waiters sample_registered) (B "0:a").
Proof. apply (bool_decide_unpack _). vm_compute. exact I. Qed.

Lemma timeout_race_witness :
  fst (on_timeout sample_registered sample_waiter) = GiveUp ∧
  fst (on_timeout (snd (try_claim sample_registered (B "0:a"))) sample_waiter) = KeepWaiting.
Proof.
  split; [|vm_compute; reflexivity].
  apply (timeout_race (mkSys sample_registered []) sample_waiter (B "0:a")).
  - apply sample_reachable.
  - intros k w Hw Hid.
    exact (wf_unique _ (reachable_wf _ sample_reachable) _ _ _ _ Hw sample_queued Hid).
  - apply (bool_decide_unpack _). vm_compute. exact I.
  - apply sample_queued.
Defined.

(** Releasing a claim undoes it. The queue of the key it was claimed through is
    exactly what it was before, the waiter is again in the queues of all its keys
    (at their front), and every other waiter has kept its place. *)
Theorem release_undoes_claim s key c r' :
  reachable s → try_claim (reg s) key = (Some c, r') →
  queue (waiters (release_front r' c)) key = queue (waiters (reg s)) key ∧
  ∀ k, queue (waiters (release_front r' c)) k =
    if decide (k ∈ w_keys (c_waiter c))
    then c_waiter c :: without (claim_id c) (queue (waiters (reg s)) k)
    else queue (waiters (reg s)) k.
Proof.
  intros Hs%reachable_wf E. destruct (try_claim_spec _ _ _ _ Hs E) as (Hh & Hc' & Hk & _).
  assert (c_notify c = false) as Hnot by (by rewrite Hc').
  assert (∃ q, queue (waiters (reg s)) key = c_waiter c :: q) as [q Hq].
  { destruct (queue (waiters (reg s)) key); [done|]. injection Hh as ->. eauto. }
  assert (c_waiter c ∈ queue (waiters (reg s)) key) as Hc by (rewrite Hq; left).
  pose proof (wf_queued _ Hs _ _ Hc) as (Hkey & Hnd & Hall & _).
  assert (∀ k, queue (waiters (release_front r' c)) k =
    if decide (k ∈ w_keys (c_waiter c))
    then c_waiter c :: without (claim_id c) (queue (waiters (reg s)) k)
    else queue (waiters (reg s)) k) as H.
  { intros k. unfold release_front. rewrite Hnot. cbn [waiters set_waiters].
    rewrite (queue_push true) by done. rewrite Hk. case_decide as Hin; [done|].
    apply without_absent. intros w Hw Hid. apply Hin.
    rewrite <- (wf_unique _ Hs _ _ _ _ Hw Hc Hid). by apply (wf_queued _ Hs) in Hw as (? & _). }
  split; [|done]. rewrite H, decide_True, Hq by done. f_equal.
  pose proof (wf_nodup _ Hs key) as Hd. rewrite Hq in Hd. apply NoDup_cons in Hd as [Hnin _].
  unfold without. rewrite filter_cons_False by (unfold claim_id; naive_solver).
  apply (without_absent (claim_id c)). intros w Hw Hid. apply Hnin.
  rewrite <- (wf_unique _ Hs key key w (c_waiter c)); [done| |done|done]. rewrite Hq. by right.
Qed.

Lemma release_undoes_claim_witness :
  ∃ c r', try_claim sample_registered (B "0:b") = (Some c, r') ∧
    queue (waiters (release_front r' c)) (B "0:b") = queue (waiters sample_registered) (B "0:b").
Proof.
  eexists _, _. split; [vm_compute; reflexivity|].
  eapply (release_undoes_claim (mkSys sample_registered []) (B "0:b"));
    [apply sample_reachable|vm_compute; reflexivity].
Defined.

(** ** Where the protocol departs from its documentation *)

(** A client waiting on [b] since before a client waiting on [a] and [b]. The second
    is claimed through [a] and the claim is released: it is now served first on [b],
    although "the longest-waiting client is always the front". *)
Definition overtaken : WatchRegistry :=
  let r1 := snd (register registry_new [B "0:b"] (Pop true)) in
  let r2 := snd (register r1 [B "0:a"; B "0:b"] (Pop true)) in
  match try_claim r2 (B "0:a") with
  | (Some c, r3) => release_front r3 c
  | (None, r3) => r3
  end.

(** A released claim overtakes clients that have waited longer on the other keys
    of its waiter. *)
Theorem release_front_overtakes :
  w_id <$> queue (waiters overtaken) (B "0:b") = [2; 1].
Proof. vm_compute. reflexivity. Qed.

(** A client that names the same key twice is claimed twice by two writes to it,
    so the element the second write popped for it is delivered to nobody: its channel
    still holds the first result and no sender is left. *)
Theorem duplicate_key_claimed_twice first second :
  let r1 := snd (register registry_new [B "0:z"; B "0:z"] (Pop true)) in
  let c := mkClaim (mkWaiter 1 [B "0:z"; B "0:z"] (Pop true)) None false in
  let r2 := snd (try_claim r1 (B "0:z")) in
  let r3 := snd (try_claim r2 (B "0:z")) in
  fst (try_claim r1 (B "0:z")) = Some c ∧ fst (try_claim r2 (B "0:z")) = Some c ∧
  poll (wake (wake r3 (set_result c first)) (set_result c second)) 1 = Some (Some first).
Proof. split; [|split]; vm_compute; reflexivity. Qed.

(** A client that disconnects while a writer holds its claim is queued again when
    that writer releases the claim, and the next write claims the vanished client. *)
Theorem released_claim_of_dropped_client :
  let '(w, r1) := register registry_new [B "0:z"] (Pop true) in
  match try_claim r1 (B "0:z") with
  | (Some c, r2) =>
      fst (try_claim (release_front (drop_registration r2 w) c) (B "0:z")) = Some c
  | (None, _) => False
  end.
Proof. vm_compute. reflexivity. Qed.
