(* ===== verification/StreamCodec.v ===== *)
(** * Stream ids and their encodings: src/redis/stream.rs

    The id of a stream entry as text, as an argument of a command and as the suffix of
    its storage key; the 72-byte payload of a stream's sentinel; the fields of an entry.
    Proved: each encoding is inverted by its decoder, and the storage keys of entries are
    ordered like their ids, which is what the range scans rely on. *)
From S2P Require Import Prelude Bytes Kv.

(** ** Ids *)

Record StreamEntryId : Type := mkId { sid_ms : Z; sid_seq : Z }.

#[export] Instance StreamEntryId_eq_dec : EqDecision StreamEntryId.
Proof. solve_decision. Defined.

Definition ID_ZERO : StreamEntryId := mkId 0 0.

(** The derived order: first the time, then the sequence number. *)
Definition id_lt (a b : StreamEntryId) : Prop :=
  sid_ms a < sid_ms b ∨ (sid_ms a = sid_ms b ∧ sid_seq a < sid_seq b).
Definition id_le (a b : StreamEntryId) : Prop :=
  sid_ms a < sid_ms b ∨ (sid_ms a = sid_ms b ∧ sid_seq a ≤ sid_seq b).
#[export] Instance id_lt_dec : RelDecision id_lt.
Proof. intros a b. unfold id_lt. apply _. Defined.
#[export] Instance id_le_dec : RelDecision id_le.
Proof. intros a b. unfold id_le. apply _. Defined.

Definition ENTRY_ID_WIDTH : nat := 20.

(** [format!("{:0width$}", v, width = ENTRY_ID_WIDTH)]. *)
Definition pad (v : Z) : list Z := repeat 48 (ENTRY_ID_WIDTH - length (to_dec v)) ++ to_dec v.
Definition key_part (id : StreamEntryId) : list Z := pad (sid_ms id) ++ B "-" ++ pad (sid_seq id).
Definition display (id : StreamEntryId) : list Z := to_dec (sid_ms id) ++ B "-" ++ to_dec (sid_seq id).

(** [str::split_once]. *)
Fixpoint split_once (sep : Z) (s : list Z) : option (list Z * list Z) :=
  match s with
  | [] => None
  | b :: s' => if b =? sep then Some ([], s') else (λ p, (b :: p.1, p.2)) <$> split_once sep s'
  end.

(** [expect] panics on an id without a dash. *)
Definition from_str_bytes {E} (s : list Z) : outcome (option StreamEntryId) E :=
  if negb (utf8_valid s) then Ret None
  else
    match split_once 45 s with
    | None => Panic
    | Some (a, b) =>
        match usize_from_str a, usize_from_str b with
        | Some ms, Some seq => Ret (Some (mkId ms seq))
        | _, _ => Ret None
        end
    end.

(** The outer option is the parse, the inner one [None] for [$]. *)
Definition parse_stream_id_arg {E} (s : list Z) : outcome (option (option StreamEntryId)) E :=
  if bool_decide (s = B "$") then Ret (Some None)
  else
    match from_str_bytes s with
    | Ret (Some id) => Ret (Some (Some id))
    | Ret None => Ret None
    | Fail e => Fail e
    | Panic => Panic
    end.

(** [trim_start_matches('0').parse::<u64>().unwrap_or(0)]. *)
Fixpoint trim_zeros (s : list Z) : list Z :=
  match s with b :: s' => if b =? 48 then trim_zeros s' else s | [] => [] end.
Definition unpad (s : list Z) : Z := default 0 (usize_from_str (trim_zeros s)).

Definition entry_id_from_key {E} (key : list Z) (prefix_len : nat) : outcome (option StreamEntryId) E :=
  if (length key <? prefix_len)%nat then Ret None
  else
    let suffix := drop prefix_len key in
    if negb (utf8_valid suffix) then Ret None
    else
      match split_once 45 suffix with
      | None => Panic
      | Some (a, b) => Ret (Some (mkId (unpad a) (unpad b)))
      end.

Definition bump_seq (id : StreamEntryId) : StreamEntryId :=
  if sid_seq id <? u64_max then mkId (sid_ms id) (sid_seq id + 1) else mkId (as_u64 (sid_ms id + 1)) 0.

(** ** The sentinel *)

Record StreamMeta : Type := mkMeta {
  sm_version : Z;
  sm_count : Z;
  sm_last_id : StreamEntryId;
  sm_first_id : StreamEntryId;
  sm_max_deleted_id : StreamEntryId;
  sm_entries_added : Z
}.

Definition meta_new : StreamMeta := mkMeta 1 0 ID_ZERO ID_ZERO ID_ZERO 0.
Definition SENTINEL_SIZE : nat := 72.

Definition meta_encode (m : StreamMeta) : list Z :=
  be_bytes 8 (sm_version m) ++ be_bytes 8 (sm_count m) ++
  be_bytes 8 (sid_ms (sm_last_id m)) ++ be_bytes 8 (sid_seq (sm_last_id m)) ++
  be_bytes 8 (sid_ms (sm_first_id m)) ++ be_bytes 8 (sid_seq (sm_first_id m)) ++
  be_bytes 8 (sid_ms (sm_max_deleted_id m)) ++ be_bytes 8 (sid_seq (sm_max_deleted_id m)) ++
  be_bytes 8 (sm_entries_added m).

(** The [i]-th [u64] of the payload. *)
Definition u64_at (data : list Z) (i : nat) : Z := from_be (take 8 (drop (8 * i) data)).
Definition meta_decode (data : list Z) : option StreamMeta :=
  if (length data <? SENTINEL_SIZE)%nat then None
  else
    Some (mkMeta (u64_at data 0) (u64_at data 1) (mkId (u64_at data 2) (u64_at data 3))
            (mkId (u64_at data 4) (u64_at data 5)) (mkId (u64_at data 6) (u64_at data 7)) (u64_at data 8)).

(** ** Keys of entries *)

Definition entry_prefix (node_prefix : list Z) (version : Z) : list Z := node_prefix ++ [0] ++ to_dec version ++ B ":".
Definition stream_entry_key (node_prefix : list Z) (version : Z) (id : StreamEntryId) : list Z :=
  node_prefix ++ [0] ++ to_dec version ++ B ":" ++ key_part id.

Definition range_start_bound (node_prefix : list Z) (version : Z) (id : option StreamEntryId) : Bound :=
  match id with
  | Some id => Included (stream_entry_key node_prefix version id)
  | None => Included (entry_prefix node_prefix version)
  end.
Definition range_end_bound (node_prefix : list Z) (version : Z) (id : option StreamEntryId) : Bound :=
  match id with
  | Some id => Included (stream_entry_key node_prefix version id)
  | None => Unbounded
  end.

(** ** Fields of an entry *)

Abbreviation Fields := (list (list Z * list Z)).

Definition sized (v : list Z) : list Z := be_bytes 4 (as_u32 (Z.of_nat (length v))) ++ v.
Fixpoint encode_entry_value (fields : Fields) : list Z :=
  match fields with
  | [] => []
  | (field, value) :: fields' => sized field ++ sized value ++ encode_entry_value fields'
  end.

(** The loop over the rest [data] of the value; every turn but the last consumes bytes. *)
Fixpoint decode_fields (fuel : nat) (data : list Z) : option Fields :=
  match fuel with
  | O => None
  | S fuel' =>
      if (length data <? 4)%nat then Some []
      else
        let fl := Z.to_nat (from_be (take 4 data)) in
        let data1 := drop 4 data in
        if (length data1 <? fl + 4)%nat then None
        else
          let field := take fl data1 in
          let data2 := drop fl data1 in
          let vl := Z.to_nat (from_be (take 4 data2)) in
          let data3 := drop 4 data2 in
          if (length data3 <? vl)%nat then None
          else cons (field, take vl data3) <$> decode_fields fuel' (drop vl data3)
  end.
Definition decode_entry_value (data : list Z) : option Fields := decode_fields (S (length data)) data.

(** ** Ids as text *)

Definition sid_ok (id : StreamEntryId) : Prop := 0 ≤ sid_ms id < 2 ^ 64 ∧ 0 ≤ sid_seq id < 2 ^ 64.

Lemma id_lt_le a b : id_lt a b → id_le a b.
Proof. unfold id_lt, id_le. lia. Qed.
Lemma id_le_lt_eq a b : id_le a b ↔ id_lt a b ∨ a = b.
Proof.
  destruct a as [a1 a2], b as [b1 b2]. unfold id_lt, id_le. cbn. split; [|intros [?|[= -> ->]]; lia].
  intros H. destruct (decide (a1 = b1 ∧ a2 = b2)) as [[-> ->]|]; [by right|left; lia].
Qed.
Lemma id_lt_irrefl a : ¬ id_lt a a.
Proof. unfold id_lt. lia. Qed.
#[export] Instance id_lt_trans : Transitive id_lt.
Proof. intros a b c. unfold id_lt. lia. Qed.
Lemma id_lt_not_le a b : id_lt a b ↔ ¬ id_le b a.
Proof. unfold id_lt, id_le. lia. Qed.

(** Digit strings of one length are ordered like the numbers they denote. *)
Lemma digits_val_bound l acc :
  0 ≤ acc → Forall (λ b, is_digit b = true) l →
  acc * 10 ^ Z.of_nat (length l) ≤ digits_val acc l < (acc + 1) * 10 ^ Z.of_nat (length l).
Proof.
  intros Hacc Hl. revert acc Hacc. induction Hl as [|b l Hb _ IH]; intros acc Hacc; cbn [length digits_val fold_left].
  { simpl. lia. }
  apply is_digit_bounds in Hb. rewrite Nat2Z.inj_succ, Z.pow_succ_r by lia.
  specialize (IH (acc * 10 + (b - 48)) ltac:(lia)). unfold digits_val in IH.
  pose proof (Z.pow_pos_nonneg 10 (Z.of_nat (length l)) ltac:(lia) ltac:(lia)). nia.
Qed.

Lemma digits_le (l1 l2 : list Z) acc :
  0 ≤ acc → length l1 = length l2 → Forall (λ b, is_digit b = true) l1 → Forall (λ b, is_digit b = true) l2 →
  bytes_le l1 l2 = (digits_val acc l1 <=? digits_val acc l2).
Proof.
  intros Hacc Hlen H1. revert l2 acc Hacc Hlen. induction H1 as [|x l1 Hx H1 IH]; intros [|y l2] acc Hacc Hlen H2;
    [by rewrite Z.leb_refl|done|done|].
  apply Forall_cons in H2 as [Hy H2]. injection Hlen as Hlen. cbn [bytes_le digits_val fold_left].
  apply is_digit_bounds in Hx, Hy.
  pose proof (digits_val_bound l1 (acc * 10 + (x - 48)) ltac:(lia) H1) as B1.
  pose proof (digits_val_bound l2 (acc * 10 + (y - 48)) ltac:(lia) H2) as B2. rewrite <- Hlen in B2. unfold digits_val in *.
  pose proof (Z.pow_pos_nonneg 10 (Z.of_nat (length l1)) ltac:(lia) ltac:(lia)).
  destruct (Z.ltb_spec x y); cbn [orb].
  - symmetry. apply Z.leb_le. nia.
  - destruct (Z.eqb_spec x y) as [->|]; cbn [andb]; [by apply IH; [lia|..]|]. symmetry. apply Z.leb_gt. nia.
Qed.

Lemma length_pad v : 0 ≤ v < 2 ^ 64 → length (pad v) = ENTRY_ID_WIDTH.
Proof.
  intros Hv. unfold pad. rewrite length_app, repeat_length, to_dec_nonneg by lia.
  assert (2 ^ 64 < 10 ^ Z.of_nat 20) by done.
  pose proof (length_dec_loop (dec_fuel v) v [] 19 ltac:(lia)) as Hl. cbn [length] in Hl.
  unfold dec_nat, ENTRY_ID_WIDTH. lia.
Qed.

Lemma pad_digits v : 0 ≤ v → Forall (λ b, is_digit b = true) (pad v).
Proof.
  intros Hv. unfold pad. apply Forall_app. split.
  - apply Forall_forall. intros b Hb%list_elem_of_In%repeat_spec. by subst.
  - rewrite to_dec_nonneg by done. by apply dec_nat_digits.
Qed.

Lemma digits_val_zeros n l : digits_val 0 (repeat 48 n ++ l) = digits_val 0 l.
Proof. induction n as [|n IH]; [done|]. exact IH. Qed.

Lemma pad_val v : 0 ≤ v → digits_val 0 (pad v) = v.
Proof.
  intros Hv. unfold pad. rewrite digits_val_zeros, to_dec_nonneg by done. by apply dec_nat_spec.
Qed.

Lemma pad_inj v w : 0 ≤ v → 0 ≤ w → pad v = pad w → v = w.
Proof. intros Hv Hw H. by rewrite <- (pad_val v Hv), <- (pad_val w Hw), H. Qed.

Lemma bytes_le_app_eq a b c d : length a = length b → bytes_le (a ++ c) (b ++ d) = (bytes_le a b && (negb (bytes_le b a) || bytes_le c d)).
Proof.
  revert b. induction a as [|x a IH]; intros [|y b] Hl; try done. injection Hl as Hl. cbn [app bytes_le]. rewrite IH by done.
  destruct (Z.ltb_spec x y), (Z.ltb_spec y x), (Z.eqb_spec x y), (Z.eqb_spec y x); try lia; cbn; try done.
Qed.

(** Storage keys are ordered like ids. *)
Lemma key_part_le a b : sid_ok a → sid_ok b → bytes_le (key_part a) (key_part b) = bool_decide (id_le a b).
Proof.
  intros [Ha1 Ha2] [Hb1 Hb2]. unfold key_part.
  rewrite bytes_le_app_eq by (by rewrite !length_pad). rewrite bytes_le_app.
  rewrite (digits_le (pad (sid_ms a)) (pad (sid_ms b)) 0), (digits_le (pad (sid_ms b)) (pad (sid_ms a)) 0),
    (digits_le (pad (sid_seq a)) (pad (sid_seq b)) 0), !pad_val
    by (try lia; try (by rewrite !length_pad); try (by apply pad_digits; lia)).
  apply eq_true_iff_eq. rewrite bool_decide_eq_true, andb_true_iff, orb_true_iff, negb_true_iff, !Z.leb_le, Z.leb_gt.
  unfold id_le. lia.
Qed.

Lemma key_part_inj a b : sid_ok a → sid_ok b → key_part a = key_part b → a = b.
Proof.
  intros [Ha1 Ha2] [Hb1 Hb2] H. apply app_inj_1 in H as [H1 H2]; [|by rewrite !length_pad].
  injection H2 as H2. apply pad_inj in H1, H2; [|lia..]. destruct a, b. simpl in *. by subst.
Qed.

Lemma split_once_app a b : Forall (λ x, x ≠ 45) a → split_once 45 (a ++ B "-" ++ b) = Some (a, b).
Proof.
  induction 1 as [|x a Hx _ IH]; [done|]. cbn [app split_once]. rewrite (proj2 (Z.eqb_neq _ _) Hx).
  change (B "-" ++ b) with (45 :: b) in *. by rewrite IH.
Qed.

Lemma digits_not_dash l : Forall (λ b, is_digit b = true) l → Forall (λ x, x ≠ 45) l.
Proof. intros H. eapply Forall_impl; [exact H|]. intros b Hb%is_digit_bounds. lia. Qed.
Lemma digits_ascii l : Forall (λ b, is_digit b = true) l → Forall (λ b, 0 ≤ b < 128) l.
Proof. intros H. eapply Forall_impl; [exact H|]. intros b Hb%is_digit_bounds. lia. Qed.

(** A printed number other than 0 does not begin with a zero. *)
Lemma dec_loop_head fuel n acc :
  0 < n → (dec_fuel n ≤ fuel)%nat → ∃ b l, dec_loop fuel n acc = b :: l ∧ b ≠ 48.
Proof.
  revert n acc. induction fuel as [|fuel IH]; intros n acc Hn Hf; [unfold dec_fuel in Hf; lia|]. cbn [dec_loop].
  destruct (Z.ltb_spec n 10).
  - eexists _, _. split; [done|]. rewrite Z.mod_small by lia. lia.
  - apply IH; [apply Z.div_str_pos; lia|]. pose proof (dec_fuel_step n ltac:(done)). lia.
Qed.

Lemma trim_zeros_repeat n l : trim_zeros (repeat 48 n ++ l) = trim_zeros l.
Proof. by induction n. Qed.

Lemma unpad_pad v : 0 ≤ v < 2 ^ 64 → unpad (pad v) = v.
Proof.
  intros Hv. unfold unpad, pad. rewrite trim_zeros_repeat, to_dec_nonneg by lia.
  destruct (decide (v = 0)) as [->|Hne]; [done|].
  destruct (dec_loop_head (dec_fuel v) v [] ltac:(lia) ltac:(lia)) as (b & l & E & Hb).
  pose proof (usize_from_str_dec v ltac:(width_lia)) as Hp. unfold dec_nat in *. rewrite E in *. cbn [trim_zeros].
  rewrite (proj2 (Z.eqb_neq _ _) Hb), Hp. done.
Qed.

Lemma entry_id_from_key_part {E} pre id :
  sid_ok id → entry_id_from_key (E:=E) (pre ++ key_part id) (length pre) = Ret (Some id).
Proof.
  intros [H1 H2]. unfold entry_id_from_key. rewrite length_app. destruct (Nat.ltb_spec (length pre + length (key_part id)) (length pre)); [lia|].
  rewrite drop_app_length. unfold key_part. rewrite utf8_valid_ascii.
  2: { apply Forall_app. split; [by apply digits_ascii, pad_digits; lia|]. constructor; [by vm_compute|]. by apply digits_ascii, pad_digits; lia. }
  cbn [negb]. rewrite split_once_app by (apply digits_not_dash, pad_digits; lia). rewrite !unpad_pad by done. by destruct id.
Qed.

Lemma from_str_display {E} id : sid_ok id → from_str_bytes (E:=E) (display id) = Ret (Some id).
Proof.
  intros [H1 H2]. unfold from_str_bytes, display. rewrite !to_dec_nonneg by lia.
  pose proof (dec_nat_digits (sid_ms id) ltac:(lia)) as D1. pose proof (dec_nat_digits (sid_seq id) ltac:(lia)) as D2.
  rewrite utf8_valid_ascii by (apply Forall_app; split; [by apply digits_ascii|constructor; [by vm_compute|by apply digits_ascii]]).
  cbn [negb]. rewrite split_once_app by (by apply digits_not_dash).
  rewrite !usize_from_str_dec by width_lia. by destruct id.
Qed.

(** ** The sentinel and the fields *)

Definition meta_ok (m : StreamMeta) : Prop :=
  0 ≤ sm_version m < 2 ^ 64 ∧ 0 ≤ sm_count m < 2 ^ 64 ∧ sid_ok (sm_last_id m) ∧ sid_ok (sm_first_id m) ∧
  sid_ok (sm_max_deleted_id m) ∧ 0 ≤ sm_entries_added m < 2 ^ 64.

Lemma u64_at_head n l : 0 ≤ n < 2 ^ 64 → u64_at (be_bytes 8 n ++ l) 0 = n.
Proof.
  intros Hn. unfold u64_at. rewrite Nat.mul_0_r, drop_0, take_app_length' by (by rewrite length_be_bytes). by apply from_be_be_bytes.
Qed.
Lemma u64_at_tail n l i : u64_at (be_bytes 8 n ++ l) (S i) = u64_at l i.
Proof.
  unfold u64_at. replace (8 * S i)%nat with (length (be_bytes 8 n) + 8 * i)%nat by (rewrite length_be_bytes; lia).
  by rewrite drop_app_add.
Qed.

Lemma length_meta_encode m : length (meta_encode m) = SENTINEL_SIZE.
Proof. unfold meta_encode. by rewrite !length_app, !length_be_bytes. Qed.

Lemma meta_decode_encode m : meta_ok m → meta_decode (meta_encode m) = Some m.
Proof.
  intros (Hv & Hc & [Hl1 Hl2] & [Hf1 Hf2] & [Hd1 Hd2] & Ha). unfold meta_decode. rewrite length_meta_encode, Nat.ltb_irrefl.
  unfold meta_encode. rewrite !u64_at_tail, !u64_at_head by done.
  replace (u64_at (be_bytes 8 (sm_entries_added m)) 0) with (sm_entries_added m)
    by (rewrite <- (app_nil_r (be_bytes 8 (sm_entries_added m))); by rewrite u64_at_head).
  by destruct m as [? ? [] [] [] ?].
Qed.

Definition small (v : list Z) : Prop := Z.of_nat (length v) < 2 ^ 32.
Definition fields_ok (fields : Fields) : Prop := Forall (λ fv, small fv.1 ∧ small fv.2) fields.

Lemma sized_head v l :
  small v → from_be (take 4 (sized v ++ l)) = Z.of_nat (length v) ∧ drop 4 (sized v ++ l) = v ++ l.
Proof.
  intros Hv. unfold small in Hv. unfold sized. rewrite as_u32_small, <- app_assoc by lia.
  rewrite take_app_length' by (by rewrite length_be_bytes). rewrite drop_app_length' by (by rewrite length_be_bytes).
  by rewrite from_be_be_bytes by lia.
Qed.

Lemma decode_fields_encode fields fuel :
  fields_ok fields → (length fields < fuel)%nat → decode_fields fuel (encode_entry_value fields) = Some fields.
Proof.
  intros Hf. revert fuel. induction Hf as [|[f v] fields [Hf Hv] Hok IH]; intros fuel Hfuel; (destruct fuel as [|fuel]; [simpl in Hfuel; lia|]).
  { done. }
  cbn [length] in Hfuel. cbn [encode_entry_value decode_fields fst snd] in *.
  assert (∀ w l, small w → length (sized w ++ l) = (4 + length w + length l)%nat) as Hlen.
  { intros w l Hw. unfold sized. rewrite !length_app, length_be_bytes. lia. }
  destruct (sized_head f (sized v ++ encode_entry_value fields) Hf) as [E1 E2].
  destruct (sized_head v (encode_entry_value fields) Hv) as [E3 E4].
  rewrite Hlen by done. destruct (Nat.ltb_spec (4 + length f + length (sized v ++ encode_entry_value fields)) 4); [lia|].
  rewrite E1, E2, Nat2Z.id. rewrite length_app, Hlen by done.
  destruct (Nat.ltb_spec (length f + (4 + length v + length (encode_entry_value fields))) (length f + 4)); [lia|].
  rewrite take_app_length, drop_app_length, E3, E4, Nat2Z.id, length_app.
  destruct (Nat.ltb_spec (length v + length (encode_entry_value fields)) (length v)); [lia|].
  rewrite take_app_length, drop_app_length, IH by lia. done.
Qed.

Lemma length_encode_ge fields : (length fields ≤ length (encode_entry_value fields))%nat.
Proof.
  induction fields as [|[f v] fields IH]; [done|]. cbn [encode_entry_value length]. unfold sized.
  rewrite !length_app, !length_be_bytes. lia.
Qed.

Lemma decode_encode_entry fields : fields_ok fields → decode_entry_value (encode_entry_value fields) = Some fields.
Proof. intros Hf. apply decode_fields_encode; [done|]. pose proof (length_encode_ge fields). lia. Qed.

(** ** Properties *)

(** C38: the encodings of streams lose nothing: an id is read back from its text and from the
    storage key of its entry, the sentinel payload and the fields of an entry decode to what
    was encoded; and storage keys of a stream sort like the ids, so that a key range is an
    id range. *)
Theorem stream_encodings (p : list Z) (v : Z) (a b : StreamEntryId) (meta : StreamMeta) (fields : Fields) :
  sid_ok a → sid_ok b → meta_ok meta → fields_ok fields →
  from_str_bytes (E:=DbError) (display a) = Ret (Some a) ∧
  entry_id_from_key (E:=DbError) (stream_entry_key p v a) (length (entry_prefix p v)) = Ret (Some a) ∧
  (bytes_le (stream_entry_key p v a) (stream_entry_key p v b) = true ↔ id_le a b) ∧
  meta_decode (meta_encode meta) = Some meta ∧
  decode_entry_value (encode_entry_value fields) = Some fields.
Proof.
  intros Ha Hb Hm Hf.
  assert (∀ id, stream_entry_key p v id = entry_prefix p v ++ key_part id) as E.
  { intros id. unfold stream_entry_key, entry_prefix. by rewrite <- !app_assoc. }
  split_and!; [by apply from_str_display| | |by apply meta_decode_encode|by apply decode_encode_entry].
  - rewrite E. by apply entry_id_from_key_part.
  - rewrite !E, bytes_le_app, key_part_le by done. apply bool_decide_eq_true.
Qed.

Lemma stream_encodings_witness :
  entry_id_from_key (E:=DbError) (stream_entry_key (B "-0:s") 1 (mkId 5 0)) (length (entry_prefix (B "-0:s") 1)) = Ret (Some (mkId 5 0)) ∧
  id_le (mkId 5 0) (mkId 10 0).
Proof.
  destruct (stream_encodings (B "-0:s") 1 (mkId 5 0) (mkId 10 0) meta_new [(B "f", B "v")]) as (_ & H & Hle & _).
  - unfold sid_ok. cbn. lia.
  - unfold sid_ok. cbn. lia.
  - unfold meta_ok, sid_ok. cbn. lia.
  - repeat constructor.
  - split; [exact H|]. apply Hle. vm_compute. reflexivity.
Defined.

(** An id without a dash makes the parser panic instead of refusing the argument. *)
Lemma id_without_dash_panics : from_str_bytes (E:=DbError) (B "5") = Panic.
Proof. by vm_compute. Qed.
