(* ===== verification/Op.v ===== *)
(** * Command halves: src/redis/common/op.rs and src/redis/common/mod.rs

    A queued command is a database half, run inside a transaction, and a wire half
    that renders its outcome after the commit. The database half may also claim
    blocked clients in the registry; the wire half wakes them. The opaque [DbResult]
    is the sum of the result types of the commands that are modelled. *)
From S2P Require Import Prelude Bytes Resp Kv Registry StreamCodec.

(** ** Value types and results *)

Inductive ValueType : Type :=
| VString | VList | VSet | VSortedSet | VHash | VStream | VVectorSet | VBloom | VJson.

(** [ValueType as u8]: the metadata byte of an entry. *)
Definition type_byte (v : ValueType) : Z :=
  match v with
  | VString => 0 | VList => 1 | VSet => 2 | VSortedSet => 3 | VHash => 4
  | VStream => 5 | VVectorSet => 6 | VBloom => 7 | VJson => 8
  end.

(** The counters of BF.INFO. *)
Record BloomInfo : Type := mkBloomInfo {
  bi_capacity : Z;
  bi_size : Z;
  bi_num_filters : Z;
  bi_num_inserted : Z;
  bi_expansion : Z
}.

(** [Box<dyn Any>], one constructor per concrete type a command boxes. *)
Inductive DbResult : Type :=
| RUnit
| RInt (n : Z)
| RBool (b : bool)
| ROptBytes (v : option (list Z))
| RBytes (v : list Z)
| RString (v : list Z)
| RSet (modified : bool) (old : option (list Z))
| ROptInt (v : option Z)
| ROptInts (vs : list (option Z))
| RList (vs : list (list Z))
| ROptList (vs : option (list (list Z)))
| RListOpt (vs : list (option (list Z)))
| RHScan (cursor : list Z) (pairs : list (list Z))
| RSScan (cursor : list Z) (members : list (list Z))
| ROptUnit (v : option ())
| RScan (cursor : list Z) (keys : list (list Z))
| RClaims (n : Z) (cs : list Claim)
| RXAdd (id : list Z) (claim : Claim)
| REntries (entries : list (StreamEntryId * Fields))
| RStreams (streams : list (list Z * list (StreamEntryId * Fields)))
| RMeta (meta : StreamMeta)
| ROptF64 (v : option Z)
| RF64 (v : Z)
| RMembers (members : list (list Z * Z))
| RScores (scores : list (option Z))
| RZAdd (n : Z) (claim : option Claim)
| ROptPop (p : option PopResult)
| RInts (vs : list Z)
| RU64 (n : Z)
| RBloomInfo (info : BloomInfo).

Definition WRONG_TYPE_REPLY : list Z :=
  B "WRONGTYPE Operation against a key holding the wrong kind of value".

Definition err_resp (err : DbError) : RespValue :=
  match err with
  | WrongType => Error WRONG_TYPE_REPLY
  | KeyExists => Error (B "ERR key already exists")
  | Redis msg => Error (B "ERR " ++ msg)
  | Kv e => Error (B "ERR " ++ kv_error_text e)
  end.

(** The [Display] text of a [DbError]. *)
Definition db_error_text (err : DbError) : list Z :=
  match err with
  | Kv e => kv_error_text e
  | WrongType => WRONG_TYPE_REPLY
  | KeyExists => B "key already exists"
  | Redis msg => msg
  end.

(** ** The two halves *)

(** [WireOp::reply]: the reply, and what it does to the registry. *)
Definition WireOp : Type := result DbResult DbError → WatchRegistry → RespValue * WatchRegistry.

Definition pure_wire (f : result DbResult DbError → RespValue) : WireOp := λ r reg, (f r, reg).

(** The default [WireOp::reply] ([DefaultWire]). *)
Definition DefaultWire : WireOp := pure_wire (λ r,
  match r with
  | Ok _ => ok_resp
  | Err e => Error (db_error_text e)
  end).

(** [DbOp]: [run] at a time of the clock, and [release_claims]. *)
Record DbOp (T : Type) : Type := mkDbOp {
  run : Z → T → WatchRegistry → (outcome DbResult DbError * T) * WatchRegistry;
  op_release_claims : DbResult → WatchRegistry → WatchRegistry
}.
Arguments mkDbOp {T} _ _.
Arguments run {T} _ _ _ _.
Arguments op_release_claims {T} _ _ _.

(** A database half that only touches its transaction. *)
Definition tx_op {T} (op : Z → DbM T DbResult) : DbOp T :=
  mkDbOp (λ now t reg, (op now t, reg)) (λ _ reg, reg).

Definition NoOp {T} : DbOp T := tx_op (λ _, mret RUnit).

Record QueuedOp (T : Type) : Type := mkQueuedOp {
  db_op : DbOp T;
  wire_op : WireOp;
  is_mutating : bool;
  allowed_in_tx : bool;
  abort_in_tx : bool;
  op_keys : option (list (list Z))
}.
Arguments mkQueuedOp {T} _ _ _ _ _ _.
Arguments db_op {T} _.
Arguments wire_op {T} _.
Arguments is_mutating {T} _.
Arguments allowed_in_tx {T} _.
Arguments abort_in_tx {T} _.
Arguments op_keys {T} _.

Definition wire_only_op {T} (wire : WireOp) (allowed : bool) : QueuedOp T :=
  mkQueuedOp NoOp wire false allowed false None.

(** ** Writing without losing the expiry *)

Definition set_keeping_ttl {T} `{!TxOps T} (now : Z) (entry : Entry) : DbM T () :=
  r ← get now (entry_key entry);
  match r with
  | Ok existing => set now (keep_ttl_of now entry existing)
  | Err KeyNotFound => set now entry
  | Err e => fail (Kv e)
  end.

(** What [set_keeping_ttl] stores: the new value and type under the old expiry. *)
Definition kept (now : Z) (entry : Entry) (m : gmap (list Z) Item) : Item :=
  mkItem (entry_key entry) (entry_value entry) (entry_meta entry)
    (live now (entry_key entry) m ≫= item_expire_ts).

Lemma item_of_kept now entry m :
  clock_ok now → store_ok m → entry_ttl entry = 0 →
  item_of now (match live now (entry_key entry) m with
               | Some i => keep_ttl_of now entry i | None => entry end) = kept now entry m ∧
  entry_ok (match live now (entry_key entry) m with
            | Some i => keep_ttl_of now entry i | None => entry end).
Proof.
  intros Hn Hm He. unfold kept. destruct (live now (entry_key entry) m) as [i|] eqn:E; simpl.
  - pose proof (live_ok _ _ _ _ Hm E) as Hi. apply live_Some in E as [_ Hl].
    destruct (keep_ttl_of_expiry now entry i Hn Hi Hl He) as [Hts Hok]. split; [|done].
    revert Hts. unfold keep_ttl_of, item_of.
    destruct (item_ttl now i); simpl; by intros ->.
  - split; [|by apply entry_ok_no_ttl]. unfold item_of. by rewrite He.
Qed.

Section SetKeepingTtl.
Context {T : Type} `{!TxOps T} {raw : T → gmap (list Z) Item} {ok : T → Prop} `{!TxLaws T raw ok}.
Context {now : Z} (Hnow : clock_ok now).

Lemma runs_set_keeping_ttl entry m :
  store_ok m → entry_ttl entry = 0 →
  Runs (raw:=raw) (ok:=ok) (set_keeping_ttl now entry) m (Ret ())
    (<[entry_key entry := kept now entry m]> m).
Proof.
  intros Hm He. destruct (item_of_kept now entry m Hnow Hm He) as [Hk Hok].
  eapply runs_bind; [by apply runs_get|]. rewrite lookup_live_live.
  destruct (live now (entry_key entry) m) as [i|]; simpl in *; rewrite <- Hk.
  - replace (entry_key entry) with (entry_key (keep_ttl_of now entry i)) at 1
      by (unfold keep_ttl_of; by destruct (item_ttl now i)).
    by apply runs_set.
  - by apply runs_set.
Qed.
End SetKeepingTtl.

#[export] Hint Resolve runs_set_keeping_ttl : runs.

Lemma kept_ok now entry m : store_ok m → item_ok (kept now entry m).
Proof.
  intros Hm. unfold kept, item_ok. simpl.
  destruct (live now (entry_key entry) m) as [i|] eqn:E; simpl; [|done].
  by eapply (live_ok now).
Qed.

#[export] Hint Resolve kept_ok : runs.

(** The kept item stays live: its expiry is that of a live item, or none. *)
Lemma live_kept now entry m :
  live now (entry_key entry) (<[entry_key entry := kept now entry m]> m) = Some (kept now entry m).
Proof.
  apply live_Some. split; [apply lookup_insert_eq|]. unfold kept, is_expired, item_ttl. simpl.
  destruct (live now (entry_key entry) m) as [i|] eqn:E; [|done]. simpl.
  by apply live_Some in E as [_ E].
Qed.
