(* ===== verification/Namespace.v ===== *)
(** * Physical namespaces of compound values: src/redis/common/namespace.rs

    The sentinel of a compound value may record the prefix its elements live under,
    in a trailer that ends its value. Proved: the trailer decodes to exactly what was
    encoded and anything else is reported as corrupt, a sentinel is rewritten under
    its old expiry and never loses its namespace, and a prefix is moved to another
    database without touching the rest of it. The 16 random bytes of a fresh
    namespace are an argument. *)
From S2P Require Import Prelude Bytes Kv Op.
Import MapTx.

Definition NAMESPACE_FLAG : Z := 128.
Definition TRAILER_LEN_SIZE : nat := 4.
Definition NAMESPACE_ID_LEN : nat := 16.

Definition base_type (metadata : Z) : Z := Z.land metadata (255 - NAMESPACE_FLAG).
Definition is_namespaced (metadata : Z) : bool := negb (Z.land metadata NAMESPACE_FLAG =? 0).

Record ElementPrefix : Type := mkPrefix {
  prefix_bytes : list Z;
  explicit : bool
}.

Definition legacy_prefix (b : list Z) : ElementPrefix := mkPrefix b false.
Definition explicit_prefix (b : list Z) : ElementPrefix := mkPrefix b true.

Definition corrupt : DbError := Redis (B "internal error: corrupt namespace trailer").
Definition corrupt_prefix : DbError := Redis (B "internal error: malformed element prefix").
Definition dropped_namespace : DbError :=
  Redis (B "internal error: namespaced sentinel rewritten without its namespace").

(** ** The trailer *)

(** [usize::checked_sub] on lengths. *)
Definition checked_sub (a b : nat) : option nat := if (b <=? a)%nat then Some (a - b)%nat else None.

Definition split_trailer (value : list Z) : result (list Z * list Z) DbError :=
  match checked_sub (length value) TRAILER_LEN_SIZE with
  | None => Err corrupt
  | Some len_at =>
      let len := Z.to_nat (from_be (drop len_at value)) in
      match checked_sub len_at len with
      | None => Err corrupt
      | Some prefix_at => Ok (take prefix_at value, take (len_at - prefix_at) (drop prefix_at value))
      end
  end.

Definition payload (item : Item) : result (list Z) DbError :=
  if is_namespaced (item_meta item) then
    match split_trailer (item_value item) with Ok (p, _) => Ok p | Err e => Err e end
  else Ok (item_value item).

Definition prefix_of (item : Item) (legacy : list Z) : result ElementPrefix DbError :=
  if is_namespaced (item_meta item) then
    match split_trailer (item_value item) with
    | Ok (_, p) => Ok (explicit_prefix p)
    | Err e => Err e
    end
  else Ok (legacy_prefix legacy).

Definition encode_sentinel (pl : list Z) (tb : Z) (prefix : ElementPrefix) : list Z * Z :=
  if explicit prefix then
    (pl ++ prefix_bytes prefix ++ be_bytes 4 (as_u32 (Z.of_nat (length (prefix_bytes prefix)))),
     Z.lor tb NAMESPACE_FLAG)
  else (pl, tb).

(** ** Prefixes *)

Definition is_colon (b : Z) : bool := b =? 58.

(** Slicing [prefix[1..colon]] panics when the colon comes first. *)
Definition with_db (prefix : list Z) (db : Z) : outcome (option (list Z)) DbError :=
  match prefix with
  | [] => Ret None
  | kind :: rest =>
      match position is_colon prefix with
      | None => Ret None
      | Some O => Panic
      | Some (S n) =>
          let digits := take n rest in
          if bool_decide (digits = []) || negb (forallb is_digit digits) then Ret None
          else Ret (Some (kind :: to_dec db ++ drop n rest))
      end
  end.

Definition new_namespace (id : list Z) (legacy : list Z) : result ElementPrefix DbError :=
  match position is_colon legacy with
  | None => Err corrupt_prefix
  | Some O => Err corrupt_prefix
  | Some (S n) =>
      let db := take n (drop 1 legacy) in
      if bool_decide (db = []) || negb (forallb is_digit db) then Err corrupt_prefix
      else Ok (explicit_prefix (B "+" ++ db ++ B ":" ++ id))
  end.

(** ** Reading and writing sentinels *)

(** The [?] operator on a [Result<_, DbError>]. *)
Definition try_db {T A} (r : result A DbError) : DbM T A :=
  match r with Ok a => mret a | Err e => fail e end.

(** A result as the outcome of an operation. *)
Definition outcome_of {A} (r : result A DbError) : outcome A DbError :=
  match r with Ok a => Ret a | Err e => Fail e end.

Section Sentinels.
Context {T : Type} `{!TxOps T} (now : Z).

Definition resolve_prefix_for_write (id public_key legacy : list Z) : DbM T ElementPrefix :=
  r ← get now public_key;
  match r with
  | Ok item => try_db (prefix_of item legacy)
  | Err KeyNotFound => try_db (new_namespace id legacy)
  | Err e => fail (Kv e)
  end.

Definition resolve_prefix (public_key legacy : list Z) : DbM T ElementPrefix :=
  r ← get now public_key;
  match r with
  | Ok item => try_db (prefix_of item legacy)
  | Err KeyNotFound => mret (legacy_prefix legacy)
  | Err e => fail (Kv e)
  end.

Definition write_sentinel (public_key pl : list Z) (tb : Z) (prefix : ElementPrefix) : DbM T () :=
  existing ← get_opt now public_key;
  if (match existing with
      | Some item => is_namespaced (item_meta item) && negb (explicit prefix)
      | None => false
      end)
  then fail dropped_namespace
  else
    let '(value, metadata) := encode_sentinel pl tb prefix in
    let entry := with_metadata (entry_new public_key value) metadata in
    let entry := match existing with Some item => keep_ttl_of now entry item | None => entry end in
    set now entry.
End Sentinels.

(** ** Lemmas *)
Lemma checked_sub_Some a b c : checked_sub a b = Some c ↔ a = (b + c)%nat.
Proof. unfold checked_sub. destruct (Nat.leb_spec b a); split; [intros [= <-]; lia|intros ->; f_equal; lia|done|lia]. Qed.

Lemma split_trailer_encode pl p :
  Z.of_nat (length p) < 2 ^ 32 →
  split_trailer (pl ++ p ++ be_bytes 4 (Z.of_nat (length p))) = Ok (pl, p).
Proof.
  intros Hp. unfold split_trailer.
  rewrite (proj2 (checked_sub_Some _ _ (length pl + length p)%nat))
    by (rewrite !length_app, length_be_bytes; unfold TRAILER_LEN_SIZE; lia).
  rewrite app_assoc, drop_app_length' by (by rewrite length_app).
  rewrite from_be_be_bytes by lia. rewrite Nat2Z.id.
  rewrite (proj2 (checked_sub_Some _ _ (length pl))) by lia.
  rewrite <- app_assoc, take_app_length, drop_app_length. f_equal. f_equal.
  by rewrite take_app_length' by lia.
Qed.

Lemma split_trailer_inv value pl p :
  Forall is_byte value → split_trailer value = Ok (pl, p) →
  value = pl ++ p ++ be_bytes 4 (Z.of_nat (length p)).
Proof.
  intros Hv. unfold split_trailer.
  destruct (checked_sub (length value) TRAILER_LEN_SIZE) as [n|] eqn:E1; [|done].
  apply checked_sub_Some in E1. unfold TRAILER_LEN_SIZE in E1.
  destruct (checked_sub n _) as [k|] eqn:E2; [|done]. apply checked_sub_Some in E2.
  intros [= <- <-].
  assert (length (drop n value) = 4%nat) as Hl by (rewrite length_drop; lia).
  assert (Forall is_byte (drop n value)) as Hb by (by apply Forall_drop).
  set (d := from_be (drop n value)) in *.
  assert (be_bytes 4 d = drop n value ∧ 0 ≤ d) as [Hd Hd0].
  { rewrite <- Hl. by apply be_bytes_from_be. }
  rewrite length_take, length_drop, Nat.min_l by lia.
  replace (Z.of_nat (n - k)) with d by lia. rewrite Hd.
  rewrite <- (take_drop k value) at 1. f_equal.
  rewrite <- (take_drop (n - k) (drop k value)) at 1. f_equal. rewrite drop_drop. f_equal. lia.
Qed.

Lemma land_127_lor_128 tb : 0 ≤ tb < 128 → Z.land (Z.lor tb 128) 127 = tb.
Proof.
  intros H. rewrite Z.land_lor_distr_l. change (Z.land 128 127) with 0. rewrite Z.lor_0_r.
  change 127 with (Z.ones 7). rewrite Z.land_ones by lia. apply Z.mod_small. lia.
Qed.

Lemma land_128_small tb : 0 ≤ tb < 128 → Z.land tb 128 = 0.
Proof.
  intros H. replace tb with (Z.land tb (Z.ones 7)).
  - rewrite <- Z.land_assoc. change (Z.land (Z.ones 7) 128) with 0. apply Z.land_0_r.
  - rewrite Z.land_ones by lia. apply Z.mod_small. lia.
Qed.

Lemma is_namespaced_flag tb : is_namespaced (Z.lor tb NAMESPACE_FLAG) = true.
Proof.
  unfold is_namespaced, NAMESPACE_FLAG. rewrite Z.land_comm, Z.land_lor_distr_r.
  apply negb_true_iff, Z.eqb_neq. intros H%Z.lor_eq_0_iff. destruct H as [_ H]. by vm_compute in H.
Qed.

Lemma is_namespaced_plain tb : 0 ≤ tb < 128 → is_namespaced tb = false.
Proof. intros H. unfold is_namespaced, NAMESPACE_FLAG. by rewrite land_128_small. Qed.

Lemma type_byte_range v : 0 ≤ type_byte v < 128.
Proof. destruct v; simpl; lia. Qed.

(** The db number between the kind byte and the first colon of a prefix. *)
Lemma position_db kind db rest :
  is_colon kind = false → 0 ≤ db →
  position is_colon (kind :: dec_nat db ++ 58 :: rest) = Some (S (length (dec_nat db))) ∧
  forallb is_digit (dec_nat db) = true ∧ dec_nat db ≠ [].
Proof.
  intros Hk Hdb. pose proof (dec_nat_digits db Hdb) as Hd. split; [|split].
  - rewrite app_comm_cons. apply (position_app_hit _ (kind :: dec_nat db)); [|done].
    constructor; [done|]. eapply Forall_impl; [exact Hd|]. intros b Hb%is_digit_bounds.
    unfold is_colon. apply Z.eqb_neq. lia.
  - apply forallb_forall. intros b Hb. rewrite Forall_forall in Hd. apply Hd. by apply list_elem_of_In.
  - by apply dec_nat_nonempty.
Qed.

Lemma runs_write_sentinel {T} `{!TxOps T} {raw ok} `{!TxLaws T raw ok} now k pl tb prefix m :
  clock_ok now → store_ok m →
  (∀ i, live now k m = Some i → is_namespaced (item_meta i) = true → explicit prefix = true) →
  let '(value, meta) := encode_sentinel pl tb prefix in
  Runs (raw:=raw) (ok:=ok) (write_sentinel now k pl tb prefix) m (Ret ())
    (<[k := mkItem k value meta (live now k m ≫= item_expire_ts)]> m).
Proof.
  intros Hn Hm Hns. destruct (encode_sentinel pl tb prefix) as [value meta] eqn:E.
  eapply runs_bind; [by apply runs_get_opt|]. rewrite E.
  assert ((match live now k m with
           | Some item => is_namespaced (item_meta item) && negb (explicit prefix)
           | None => false end) = false) as ->.
  { destruct (live now k m) as [i|]; [|done]. destruct (is_namespaced (item_meta i)) eqn:En; [|done].
    by rewrite (Hns i). }
  set (entry := with_metadata (entry_new k value) meta).
  destruct (item_of_kept now entry m Hn Hm eq_refl) as [Hk Hok]. change (entry_key entry) with k in *.
  change (mkItem k value meta (live now k m ≫= item_expire_ts)) with (kept now entry m).
  rewrite <- Hk.
  assert (entry_key (match live now k m with
                     | Some i => keep_ttl_of now entry i | None => entry end) = k) as Hkey.
  { destruct (live now k m) as [i|]; [|done]. unfold keep_ttl_of. by destruct (item_ttl now i). }
  pose proof (runs_set (raw:=raw) (ok:=ok) Hn _ m Hok) as H. by rewrite Hkey in H.
Qed.

(** A sentinel decodes to what it was encoded from. *)
Lemma encode_sentinel_decodes pl tb prefix k ts legacy :
  0 ≤ tb < 128 → Z.of_nat (length (prefix_bytes prefix)) < 2 ^ 32 →
  let '(value, meta) := encode_sentinel pl tb prefix in
  payload (mkItem k value meta ts) = Ok pl ∧ base_type meta = tb ∧
  prefix_of (mkItem k value meta ts) legacy =
    Ok (if explicit prefix then prefix else legacy_prefix legacy).
Proof.
  intros Hv Hp. unfold encode_sentinel.
  destruct prefix as [p []]; simpl in *; unfold payload, prefix_of; cbn [item_meta item_value].
  - unfold as_u32. rewrite is_namespaced_flag, (Z.mod_small _ (2 ^ 32)), split_trailer_encode by lia.
    split; [done|]. split; [|done]. by apply land_127_lor_128.
  - rewrite is_namespaced_plain by done. split; [done|]. split; [|done].
    unfold base_type. change (255 - NAMESPACE_FLAG) with (Z.ones 7).
    rewrite Z.land_ones by lia. apply Z.mod_small. lia.
Qed.

(** ** Theorems *)

(** A sentinel decodes to what it was encoded from: its payload, its type and,
    when the prefix is explicit, that prefix; a sentinel that records no prefix
    resolves to the one derived from the key's name. *)
Theorem sentinel_roundtrip pl v prefix k ts legacy :
  Z.of_nat (length (prefix_bytes prefix)) < 2 ^ 32 →
  let '(value, meta) := encode_sentinel pl (type_byte v) prefix in
  payload (mkItem k value meta ts) = Ok pl ∧ base_type meta = type_byte v ∧
  prefix_of (mkItem k value meta ts) legacy =
    Ok (if explicit prefix then prefix else legacy_prefix legacy).
Proof. apply encode_sentinel_decodes, type_byte_range. Qed.

Lemma sentinel_roundtrip_witness :
  payload (mkItem (B "0:h") (fst (encode_sentinel [0; 0; 0; 7] 4 (explicit_prefix (B "+0:abc")))) 132 None)
    = Ok [0; 0; 0; 7].
Proof.
  apply (sentinel_roundtrip [0; 0; 0; 7] VHash (explicit_prefix (B "+0:abc")) (B "0:h") None (B "-0:h")).
  vm_compute. reflexivity.
Defined.

(** Splitting a trailer succeeds exactly on the values that end with one, and
    then returns its parts; every other value is reported as corrupt. *)
Theorem split_trailer_exact value :
  Forall is_byte value →
  (∃ pl p, value = pl ++ p ++ be_bytes 4 (Z.of_nat (length p)) ∧ split_trailer value = Ok (pl, p)) ∨
  (split_trailer value = Err corrupt ∧
   ∀ pl p, Z.of_nat (length p) < 2 ^ 32 → value ≠ pl ++ p ++ be_bytes 4 (Z.of_nat (length p))).
Proof.
  intros Hv. destruct (split_trailer value) as [[pl p]|e] eqn:E.
  - left. exists pl, p. split; [|done]. by apply split_trailer_inv.
  - right. split.
    + f_equal. revert E. unfold split_trailer. repeat case_match; congruence.
    + intros pl p Hp ->. by rewrite split_trailer_encode in E.
Qed.

Lemma split_trailer_exact_witness :
  split_trailer [1; 2; 3; 0; 0; 0; 2] = Ok ([1], [2; 3]) ∧ split_trailer [1; 0; 0; 0; 2] = Err corrupt.
Proof.
  split.
  - destruct (split_trailer_exact [1; 2; 3; 0; 0; 0; 2]) as [(pl & p & _ & E)|[E _]].
    + repeat (constructor; [unfold is_byte; lia|]). constructor.
    + reflexivity.
    + reflexivity.
  - reflexivity.
Defined.

(** Writing a sentinel stores the encoded payload under the key's current expiry
    and touches no other key, unless it would drop the namespace the live sentinel
    records: that is refused with an error and changes nothing. *)
Theorem write_sentinel_spec T `{!TxOps T} raw ok now k pl tb prefix m :
  TxLaws T raw ok → clock_ok now → store_ok m →
  if (match live now k m with
      | Some i => is_namespaced (item_meta i) && negb (explicit prefix)
      | None => false
      end)
  then Runs (raw:=raw) (ok:=ok) (write_sentinel now k pl tb prefix) m (Fail dropped_namespace) m
  else Runs (raw:=raw) (ok:=ok) (write_sentinel now k pl tb prefix) m (Ret ())
    (<[k := mkItem k (fst (encode_sentinel pl tb prefix)) (snd (encode_sentinel pl tb prefix))
              (live now k m ≫= item_expire_ts)]> m).
Proof.
  intros HT Hn Hm. destruct (match live now k m with Some _ => _ | None => _ end) eqn:E.
  - eapply runs_bind; [by apply runs_get_opt|]. rewrite E. apply runs_fail.
  - pose proof (runs_write_sentinel (raw:=raw) (ok:=ok) now k pl tb prefix m Hn Hm) as H.
    destruct (encode_sentinel pl tb prefix). apply H. intros i Hi Hns. rewrite Hi, Hns in E.
    by destruct (explicit prefix).
Qed.

Lemma write_sentinel_spec_witness :
  Runs (raw:=id) (ok:=λ _, True) (write_sentinel 5 (B "0:h") [7] 4 (explicit_prefix (B "+0:x"))) ∅ (Ret ())
    (<[B "0:h" := mkItem (B "0:h") ([7] ++ B "+0:x" ++ [0; 0; 0; 4]) 132 None]> ∅).
Proof.
  assert (clock_ok 5) as Hn by (unfold clock_ok; width_lia).
  exact (write_sentinel_spec (gmap (list Z) Item) id (λ _, True) 5 (B "0:h") [7] 4
    (explicit_prefix (B "+0:x")) ∅ map_laws Hn (map_Forall_empty _)).
Defined.

(** A command that creates or rewrites a compound value finds its elements again:
    after the sentinel is written with an explicit prefix, resolving the key yields
    that prefix. *)
Theorem write_then_resolve T `{!TxOps T} raw ok now k pl v p legacy m :
  TxLaws T raw ok → clock_ok now → store_ok m → Z.of_nat (length p) < 2 ^ 32 →
  ∃ m', Runs (raw:=raw) (ok:=ok)
    (write_sentinel now k pl (type_byte v) (explicit_prefix p) ≫= λ _, resolve_prefix now k legacy)
    m (Ret (explicit_prefix p)) m' ∧ ∀ k', k' ≠ k → m' !! k' = m !! k'.
Proof.
  intros HT Hn Hm Hp. set (prefix := explicit_prefix p).
  pose proof (runs_write_sentinel (raw:=raw) (ok:=ok) now k pl (type_byte v) prefix m Hn Hm
    (λ _ _ _, eq_refl)) as Hw.
  destruct (encode_sentinel pl (type_byte v) prefix) as [value meta] eqn:E.
  exists (<[k := mkItem k value meta (live now k m ≫= item_expire_ts)]> m).
  split; [|intros k' Hk'; by rewrite lookup_insert_ne].
  eapply runs_bind; [exact Hw|]. eapply runs_bind; [by apply runs_get|].
  set (entry := with_metadata (entry_new k value) meta).
  rewrite lookup_live_live.
  match goal with |- context [live now k ?m'] =>
    replace (live now k m') with (Some (kept now entry m)) by (symmetry; exact (live_kept now entry m))
  end.
  assert (prefix_of (kept now entry m) legacy = Ok prefix) as ->; [|apply runs_ret].
  unfold encode_sentinel in E. cbn [explicit prefix explicit_prefix prefix_bytes] in E.
  pose proof (f_equal fst E) as E1. pose proof (f_equal snd E) as E2. cbn [fst snd] in E1, E2.
  unfold prefix_of, as_u32. cbn [kept item_meta item_value entry with_metadata entry_meta entry_value].
  cbn [entry_new entry_value]. unfold as_u32 in E1. rewrite (Z.mod_small _ (2 ^ 32)) in E1 by lia.
  rewrite <- E1, <- E2, is_namespaced_flag.
  by rewrite split_trailer_encode.
Qed.

Lemma write_then_resolve_witness :
  ∃ m', Runs (raw:=id) (ok:=λ _, True)
    (write_sentinel 5 (B "0:h") [7] 4 (explicit_prefix (B "+0:x")) ≫= λ _, resolve_prefix 5 (B "0:h") (B "-0:h"))
    (∅ : gmap (list Z) Item) (Ret (explicit_prefix (B "+0:x"))) m' ∧ ∀ k', k' ≠ B "0:h" → m' !! k' = None.
Proof.
  destruct (write_then_resolve (gmap (list Z) Item) id (λ _, True) 5 (B "0:h") [7] VHash (B "+0:x")
    (B "-0:h") ∅ MapTx.map_laws) as (m' & H1 & H2).
  - unfold clock_ok. width_lia.
  - apply map_Forall_empty.
  - vm_compute. reflexivity.
  - exists m'. split; [exact H1|]. intros k' Hk'. rewrite (H2 k' Hk'). apply lookup_empty.
Defined.

Lemma new_namespace_db kind db rest id :
  is_colon kind = false → 0 ≤ db →
  new_namespace id (kind :: to_dec db ++ B ":" ++ rest) =
    Ok (explicit_prefix (B "+" ++ to_dec db ++ B ":" ++ id)).
Proof.
  intros Hk Hdb. rewrite (to_dec_nonneg db) by done. change (B ":" ++ rest) with (58 :: rest).
  destruct (position_db kind db rest Hk Hdb) as (Hpos & Hdig & Hne). unfold new_namespace. rewrite Hpos.
  cbn [drop]. by rewrite drop_0, take_app_length, Hdig, bool_decide_eq_false_2.
Qed.

(** Moving a prefix to another database replaces its db number and nothing else,
    and a fresh namespace of a key is ["+<db>:"] followed by the random id. *)
Theorem prefix_rewrites kind db db' rest id :
  is_colon kind = false → 0 ≤ db →
  with_db (kind :: to_dec db ++ B ":" ++ rest) db' = Ret (Some (kind :: to_dec db' ++ B ":" ++ rest)) ∧
  new_namespace id (kind :: to_dec db ++ B ":" ++ rest) =
    Ok (explicit_prefix (B "+" ++ to_dec db ++ B ":" ++ id)).
Proof.
  intros Hk Hdb. split; [|by apply new_namespace_db].
  rewrite (to_dec_nonneg db) by done. change (B ":" ++ rest) with (58 :: rest).
  destruct (position_db kind db rest Hk Hdb) as (Hpos & Hdig & Hne).
  unfold with_db. rewrite Hpos. by rewrite take_app_length, drop_app_length, Hdig, bool_decide_eq_false_2.
Qed.

Lemma prefix_rewrites_witness :
  with_db (B "-0:name") 3 = Ret (Some (B "-3:name")) ∧
  new_namespace (B "id") (B "-0:name") = Ok (explicit_prefix (B "+0:id")).
Proof. apply (prefix_rewrites 45 0 3 (B "name") (B "id")); [reflexivity|lia]. Defined.

(** A prefix that starts with a colon makes [with_db] panic, where its contract
    says it returns [None] for a prefix that is not of the expected form. *)
Theorem with_db_panics rest db : with_db (58 :: rest) db = Panic.
Proof. reflexivity. Qed.
