(* ===== verification/PubSub.v ===== *)
(** * Publish and subscribe: src/redis/pubsub.rs

    The process-wide registry maps each channel and each pattern to the sender of a
    broadcast channel; every subscribed connection holds a receiver of it. The broadcast
    channel of the tokio library is the class [Broadcast], with its documented behaviour
    as [BroadcastLaws]: what each live receiver has still to read, and how many messages
    it missed. Channels live in a heap, so that a receiver keeps its channel when the
    registry forgets the sender. The order in which a hash map or a stream map is walked
    is the parameter [iter].

    [Linked] says that the registry and the connections agree: the receivers of a name's
    channel are exactly those held by connections subscribed to that name. All operations
    keep it; from it follow what PUBLISH delivers and counts, and that the PUBSUB
    introspection tells the truth. Other threads can act between the two halves of
    [cleanup_channel]; that is its argument [between]. *)
From S2P Require Import Prelude Bytes Resp Pattern Kv Op.

(** ** Messages and broadcast channels *)

Definition BROADCAST_CAPACITY : nat := 512.

Record PubSubMsg : Type := mkMsg {
  msg_channel : list Z;
  msg_payload : list Z
}.

#[export] Instance PubSubMsg_eq_dec : EqDecision PubSubMsg.
Proof. solve_decision. Defined.

(** What a receiver is given: a message, or the news that it missed some. *)
Inductive Recv : Type :=
| Received (m : PubSubMsg)
| Lagged (n : nat).

(** [tokio::sync::broadcast], a sender and its receivers as one object. *)
Class Broadcast (Chan Rx : Type) : Type := {
  bc_channel : nat → Chan;
  bc_subscribe : Chan → Rx * Chan;
  bc_send : PubSubMsg → Chan → Chan;
  bc_receiver_count : Chan → nat;
  bc_recv : Rx → Chan → option Recv * Chan;
  bc_drop : Rx → Chan → Chan
}.

(** One more message for a receiver that missed [n] messages and has [q] to read: at
    capacity the oldest unread message is lost. *)
Definition enqueue (cap : nat) (m : PubSubMsg) (u : nat * list PubSubMsg) : nat * list PubSubMsg :=
  let '(n, q) := u in
  if (length q <? cap)%nat then (n, q ++ [m]) else (S n, tail q ++ [m]).

(** What a poll finds, and what is left to read. *)
Definition dequeue (u : nat * list PubSubMsg) : option Recv * (nat * list PubSubMsg) :=
  match u with
  | (S n, q) => (Some (Lagged (S n)), (O, q))
  | (O, m :: q) => (Some (Received m), (O, q))
  | (O, []) => (None, (O, []))
  end.

(** The documented behaviour: [view c] gives, for each live receiver, how many messages
    it missed and what it has still to read; [room c] is the capacity. *)
Class BroadcastLaws (Chan Rx : Type) `{!Broadcast Chan Rx} `{!EqDecision Rx} `{!Countable Rx}
    (view : Chan → gmap Rx (nat * list PubSubMsg)) (room : Chan → nat) : Prop := {
  channel_view cap : view (bc_channel cap) = ∅;
  channel_room : room (bc_channel BROADCAST_CAPACITY) = BROADCAST_CAPACITY;
  subscribe_fresh c : view c !! (bc_subscribe c).1 = None;
  subscribe_view c : view (bc_subscribe c).2 = <[(bc_subscribe c).1 := (O, [])]> (view c);
  subscribe_room c : room (bc_subscribe c).2 = room c;
  send_view m c : view (bc_send m c) = enqueue (room c) m <$> view c;
  send_room m c : room (bc_send m c) = room c;
  count_view c : bc_receiver_count c = size (view c);
  recv_item r c u : view c !! r = Some u → (bc_recv r c).1 = (dequeue u).1;
  recv_view r c u : view c !! r = Some u → view (bc_recv r c).2 = <[r := (dequeue u).2]> (view c);
  recv_room r c : room (bc_recv r c).2 = room c;
  drop_view r c : view (bc_drop r c) = delete r (view c);
  drop_room r c : room (bc_drop r c) = room c
}.

(** The order in which a hash map is walked. *)
Class Iteration : Type := iter : ∀ A : Type, gmap (list Z) A → list (list Z * A).
Arguments iter {_ _} _.
Class IterationLaw `{!Iteration} : Prop := iter_perm A (m : gmap (list Z) A) : iter m ≡ₚ map_to_list m.

(** ** The registry *)

(** The kind of a subscription. *)
Inductive SubKind : Type := Channel | Pattern.

#[export] Instance SubKind_eq_dec : EqDecision SubKind.
Proof. solve_decision. Defined.

(** [PubSubRegistry]: the senders are addresses in the heap of broadcast channels. *)
Record PubSubRegistry (Chan : Type) : Type := mkHub {
  heap : gmap nat Chan;
  channels : gmap (list Z) nat;
  patterns : gmap (list Z) nat
}.
Arguments mkHub {Chan} _ _ _.
Arguments heap {Chan} _.
Arguments channels {Chan} _.
Arguments patterns {Chan} _.

(** [ConnectionSubs]: the receivers a connection holds, by channel and by pattern. *)
Record ConnectionSubs (Rx : Type) : Type := mkSubs {
  channel_streams : gmap (list Z) (nat * Rx);
  pattern_streams : gmap (list Z) (nat * Rx)
}.
Arguments mkSubs {Rx} _ _.
Arguments channel_streams {Rx} _.
Arguments pattern_streams {Rx} _.

Section Registry.
Context {Chan Rx : Type} `{!Broadcast Chan Rx} `{!Iteration}.
Implicit Types (h : PubSubRegistry Chan) (s : ConnectionSubs Rx) (name ch : list Z).

#[local] Instance Chan_inhabited : Inhabited Chan := populate (bc_channel BROADCAST_CAPACITY).

Definition hub_new : PubSubRegistry Chan := mkHub ∅ ∅ ∅.

(** The map for a kind of subscription. *)
Definition names (k : SubKind) h : gmap (list Z) nat :=
  match k with Channel => channels h | Pattern => patterns h end.
Definition with_names (k : SubKind) (m : gmap (list Z) nat) h : PubSubRegistry Chan :=
  match k with
  | Channel => mkHub (heap h) m (patterns h)
  | Pattern => mkHub (heap h) (channels h) m
  end.
Definition chan_at h (l : nat) : Chan := heap h !!! l.
Definition with_chan (l : nat) (c : Chan) h : PubSubRegistry Chan :=
  mkHub (<[l := c]> (heap h)) (channels h) (patterns h).

(** [entry(name).or_insert_with(..).value().subscribe()]. *)
Definition subscribe_name (k : SubKind) (name : list Z) h : (nat * Rx) * PubSubRegistry Chan :=
  let '(l, c) := match names k h !! name with
                 | Some l => (l, chan_at h l)
                 | None => (fresh (dom (heap h)), bc_channel BROADCAST_CAPACITY)
                 end in
  let '(r, c') := bc_subscribe c in
  ((l, r), with_names k (<[name := l]> (names k h)) (with_chan l c' h)).

Definition registry_subscribe_channel := subscribe_name Channel.
Definition registry_subscribe_pattern := subscribe_name Pattern.

(** Removes a dead entry; [between] is what other threads do after the entry is
    released and before it is removed. *)
Definition cleanup_name (k : SubKind) (between : PubSubRegistry Chan → PubSubRegistry Chan)
    (name : list Z) h : PubSubRegistry Chan :=
  match names k h !! name with
  | Some l =>
      if (bc_receiver_count (chan_at h l) =? 0)%nat then
        let h := between h in with_names k (delete name (names k h)) h
      else h
  | None => h
  end.

Definition cleanup_channel := cleanup_name Channel.
Definition cleanup_pattern := cleanup_name Pattern.

(** Sends to one sender if it has receivers, and counts them. *)
Definition send_counted (m : PubSubMsg) (st : Z * PubSubRegistry Chan) (l : nat) : Z * PubSubRegistry Chan :=
  let '(total, h) := st in
  let count := bc_receiver_count (chan_at h l) in
  if (0 <? count)%nat then (total + Z.of_nat count, with_chan l (bc_send m (chan_at h l)) h)
  else (total, h).

Definition publish (channel payload : list Z) h : Z * PubSubRegistry Chan :=
  let m := mkMsg channel payload in
  let st := match channels h !! channel with
            | Some l => send_counted m (0, h) l
            | None => (0, h)
            end in
  fold_left (λ st e, if is_match (glob_new e.1) channel then send_counted m st e.2 else st)
    (iter (patterns h)) st.

(** *** Introspection *)

Definition has_receivers h (l : nat) : bool := (0 <? bc_receiver_count (chan_at h l))%nat.

Definition active_channels_val (pattern : option (list Z)) h : list (list Z) :=
  (List.filter (λ e, has_receivers h e.2 &&
     match pattern with Some p => is_match (glob_new p) e.1 | None => true end)
    (iter (channels h))).*1.

Definition numsub_value (names : list (list Z)) h : list (list Z * Z) :=
  (λ ch, (ch, match channels h !! ch with
              | Some l => Z.of_nat (bc_receiver_count (chan_at h l))
              | None => 0
              end)) <$> names.

Definition number_pattern_subscribers h : Z :=
  Z.of_nat (length (List.filter (λ e, has_receivers h e.2) (iter (patterns h)))).

(** ** Wire halves on the registry *)

Definition HubWire : Type := result DbResult DbError → PubSubRegistry Chan → RespValue * PubSubRegistry Chan.

Definition bulk (b : list Z) : RespValue := BulkString (Some b).

Definition NumSubOp (chs : list (list Z)) : HubWire := λ _ h,
  (Array (Some (flat_map (λ '(ch, n), [bulk ch; Integer n]) (numsub_value chs h))), h).

Definition PublishWireOp (channel payload : list Z) : HubWire := λ r h,
  match r with
  | Ok _ => let '(count, h') := publish channel payload h in (Integer count, h')
  | Err e => (err_resp e, h)
  end.

Definition HelpOp : HubWire := λ _ h,
  (Array (Some [
     bulk (B "PUBSUB <subcommand> [<arg> [value] [opt] ...]. subcommands are:");
     bulk (B "CHANNELS [<pattern>] -- Return the currently active channels matching a pattern (default: all).");
     bulk (B "NUMSUB [<channel> ...] -- Return listen count for channels.");
     bulk (B "NUMPAT -- Return the number of active patterns.")]), h).

Definition NumPatOp : HubWire := λ _ h, (Integer (number_pattern_subscribers h), h).

Definition ChannelsOp (pattern : option (list Z)) : HubWire := λ _ h,
  (Array (Some (bulk <$> active_channels_val pattern h)), h).

(** ** A connection's subscriptions *)

Definition subs_new : ConnectionSubs Rx := mkSubs ∅ ∅.

Definition streams (k : SubKind) s : gmap (list Z) (nat * Rx) :=
  match k with Channel => channel_streams s | Pattern => pattern_streams s end.
Definition with_streams (k : SubKind) (m : gmap (list Z) (nat * Rx)) s : ConnectionSubs Rx :=
  match k with
  | Channel => mkSubs m (pattern_streams s)
  | Pattern => mkSubs (channel_streams s) m
  end.

Definition total s : nat := (size (channel_streams s) + size (pattern_streams s))%nat.

Definition is_subscribed s : bool :=
  negb (bool_decide (channel_streams s = ∅)) || negb (bool_decide (pattern_streams s = ∅)).

Definition subs_subscribe (k : SubKind) (name : list Z) s h : bool * ConnectionSubs Rx * PubSubRegistry Chan :=
  match streams k s !! name with
  | Some _ => (false, s, h)
  | None =>
      let '(rx, h') := subscribe_name k name h in
      (true, with_streams k (<[name := rx]> (streams k s)) s, h')
  end.

Definition subscribe_channel := subs_subscribe Channel.
Definition subscribe_pattern := subs_subscribe Pattern.

(** Dropping a receiver. *)
Definition drop_rx (lr : nat * Rx) h : PubSubRegistry Chan :=
  with_chan lr.1 (bc_drop lr.2 (chan_at h lr.1)) h.

Definition subs_unsubscribe (k : SubKind) (between : PubSubRegistry Chan → PubSubRegistry Chan)
    (name : list Z) s h : bool * ConnectionSubs Rx * PubSubRegistry Chan :=
  match streams k s !! name with
  | Some rx => (true, with_streams k (delete name (streams k s)) s, cleanup_name k between name (drop_rx rx h))
  | None => (false, s, h)
  end.

Definition unsubscribe_channel := subs_unsubscribe Channel.
Definition unsubscribe_pattern := subs_unsubscribe Pattern.

(** One pass of the loop of [unsubscribe_all_channels]: removes one key and cleans up. *)
Definition unsubscribe_pass (k : SubKind) (between : PubSubRegistry Chan → PubSubRegistry Chan)
    (st : ConnectionSubs Rx * PubSubRegistry Chan) (key : list Z) : ConnectionSubs Rx * PubSubRegistry Chan :=
  let '(s, h) := st in
  match streams k s !! key with
  | Some rx => (with_streams k (delete key (streams k s)) s, cleanup_name k between key (drop_rx rx h))
  | None => (s, cleanup_name k between key h)
  end.

Definition unsubscribe_all (k : SubKind) (between : PubSubRegistry Chan → PubSubRegistry Chan) s h
  : list (list Z) * ConnectionSubs Rx * PubSubRegistry Chan :=
  let keys := (iter (streams k s)).*1 in
  let '(s', h') := fold_left (unsubscribe_pass k between) keys (s, h) in
  (keys, s', h').

Definition unsubscribe_all_channels := unsubscribe_all Channel.
Definition unsubscribe_all_patterns := unsubscribe_all Pattern.

(** Polling a receiver for the next message. *)
Definition poll_rx (lr : nat * Rx) h : option Recv * PubSubRegistry Chan :=
  let '(item, c) := bc_recv lr.2 (chan_at h lr.1) in (item, with_chan lr.1 c h).

(** The receivers still held when the connection's task ends are dropped with it;
    nothing is cleaned up then. *)
Definition drop_subs s h : PubSubRegistry Chan :=
  fold_left (λ h e, drop_rx e.2 h) (iter (channel_streams s) ++ iter (pattern_streams s)) h.
End Registry.

(** ** Push frames *)

Definition count_frame (kind : string) (name : list Z) (count : nat) : RespValue :=
  Array (Some [bulk (B kind); bulk name; Integer (as_i64 (Z.of_nat count))]).

Definition subscribe_resp := count_frame "subscribe".
Definition unsubscribe_resp := count_frame "unsubscribe".
Definition psubscribe_resp := count_frame "psubscribe".
Definition punsubscribe_resp := count_frame "punsubscribe".
Definition ssubscribe_resp := count_frame "ssubscribe".
Definition sunsubscribe_resp := count_frame "sunsubscribe".

Definition message_resp (channel payload : list Z) : RespValue :=
  Array (Some [bulk (B "message"); bulk channel; bulk payload]).
Definition pmessage_resp (pattern channel payload : list Z) : RespValue :=
  Array (Some [bulk (B "pmessage"); bulk pattern; bulk channel; bulk payload]).

(** ** The registry and the connections agree *)

(** Sums over lists. *)
Lemma sum_with_ext {A} (f g : A → nat) (l : list A) :
  (∀ x, x ∈ l → f x = g x) → sum_list_with f l = sum_list_with g l.
Proof.
  induction l as [|x l IH]; intros He; simpl; [done|].
  rewrite (He x), IH by (set_solver || (intros; apply He; set_solver)). done.
Qed.

Lemma sum_with_add {A} (f g : A → nat) (l : list A) :
  sum_list_with (λ x, f x + g x)%nat l = (sum_list_with f l + sum_list_with g l)%nat.
Proof. induction l as [|x l IH]; simpl; lia. Qed.

Lemma sum_with_swap {A C} (f : A → C → nat) (l : list A) (l' : list C) :
  sum_list_with (λ x, sum_list_with (f x) l') l = sum_list_with (λ y, sum_list_with (λ x, f x y) l) l'.
Proof.
  induction l as [|x l IH]; simpl; [by induction l'|]. by rewrite IH, <- sum_with_add.
Qed.

Lemma length_bind {A C} (f : A → list C) (l : list A) :
  length (l ≫= f) = sum_list_with (λ x, length (f x)) l.
Proof. induction l as [|x l IH]; [done|]. rewrite bind_cons, length_app, IH. done. Qed.

#[export] Instance filter_b_Permutation {A} (p : A → bool) : Proper ((≡ₚ) ==> (≡ₚ)) (List.filter p).
Proof.
  induction 1 as [|x l l' _ IH|x y l|l1 l2 l3 _ IH1 _ IH2]; simpl; [done| | |by rewrite IH1].
  - destruct (p x); by rewrite IH.
  - destruct (p x), (p y); first [apply Permutation_swap|done].
Qed.

(** The entries of a map under one key. *)
Lemma filter_key {A} (m : gmap (list Z) A) (k : list Z) :
  List.filter (λ e, bool_decide (e.1 = k)) (map_to_list m) ≡ₚ (pair k) <$> option_list (m !! k).
Proof.
  assert (∀ m' : gmap (list Z) A, m' !! k = None →
    List.filter (λ e, bool_decide (e.1 = k)) (map_to_list m') = []) as Hnone.
  { intros m' Hk. destruct (List.filter _ _) as [|e es] eqn:Ef; [done|].
    assert (In e (List.filter (λ e, bool_decide (e.1 = k)) (map_to_list m'))) as Hin by (rewrite Ef; by left).
    apply filter_In in Hin as [Hin He]. apply bool_decide_eq_true in He. apply list_elem_of_In in Hin.
    destruct e as [k' a]. apply elem_of_map_to_list in Hin. simpl in He. congruence. }
  destruct (m !! k) as [a|] eqn:Ek; [|by rewrite Hnone].
  rewrite <- (insert_delete_id m k a) by done.
  rewrite (map_to_list_insert (delete k m) k a) by apply lookup_delete_eq. simpl.
  rewrite bool_decide_eq_true_2 by done. by rewrite (Hnone (delete k m)) by apply lookup_delete_eq.
Qed.

(** Counting the keys of a map that pass a test, along a list that has them all. *)
Lemma sum_lookup_filter {A} (m : gmap (list Z) A) (p : list Z → bool) (l : list (list Z)) :
  NoDup l → (∀ x, x ∈ l → p x = true) → (∀ x, is_Some (m !! x) → p x = true → x ∈ l) →
  sum_list_with (λ x, length (option_list (m !! x))) l = length (List.filter (λ e, p e.1) (map_to_list m)).
Proof.
  revert m. induction l as [|x l IH]; intros m Hnd Hp Hall.
  - simpl. destruct (List.filter _ _) as [|e es] eqn:Ef; [done|].
    assert (In e (List.filter (λ e, p e.1) (map_to_list m))) as Hin by (rewrite Ef; by left).
    apply filter_In in Hin as [Hin Hpe]. apply list_elem_of_In in Hin. destruct e as [x a].
    apply elem_of_map_to_list in Hin. assert (x ∈ @nil (list Z)) by (apply Hall; eauto). set_solver.
  - apply NoDup_cons in Hnd as [Hx Hnd]. simpl.
    rewrite (sum_with_ext _ (λ y, length (option_list (delete x m !! y)))).
    2: { intros y Hy. rewrite lookup_delete_ne; [done|]. by intros ->. }
    rewrite (IH (delete x m)); [|done| |].
    + destruct (m !! x) as [a|] eqn:Ex; simpl.
      * rewrite <- (insert_delete_id m x a) at 2 by done.
        rewrite (map_to_list_insert (delete x m) x a) by apply lookup_delete_eq. simpl.
        by rewrite (Hp x) by set_solver.
      * by rewrite delete_id.
    + intros y Hy. apply Hp. set_solver.
    + intros y [a Ha] Hpy. apply lookup_delete_Some in Ha as [Hne Ha].
      assert (y ∈ x :: l) by (apply Hall; eauto). set_solver.
Qed.

Section Linked.
Context {Chan Rx : Type} `{!Broadcast Chan Rx} `{!EqDecision Rx} `{!Countable Rx} `{!Iteration}.
Context {view : Chan → gmap Rx (nat * list PubSubMsg)} {room : Chan → nat}.
Implicit Types (h : PubSubRegistry Chan) (s : ConnectionSubs Rx) (name ch : list Z).

(** The receivers of the channel a name is mapped to. *)
Definition members h (k : SubKind) (name : list Z) : list (nat * Rx) :=
  match names k h !! name with
  | Some l => pair l <$> (map_to_list (view (chan_at h l))).*1
  | None => []
  end.

(** What a receiver has missed and has still to read. *)
Definition unread h (lr : nat * Rx) : option (nat * list PubSubMsg) := view (chan_at h lr.1) !! lr.2.

(** [W k name] lists the receivers that connections hold for a name. *)
Record Linked h (W : SubKind → list Z → list (nat * Rx)) : Prop := mkLinked {
  lk_members k name : members h k name ≡ₚ W k name;
  lk_alloc k name l : names k h !! name = Some l → is_Some (heap h !! l);
  lk_inj k1 n1 k2 n2 l :
    names k1 h !! n1 = Some l → names k2 h !! n2 = Some l → k1 = k2 ∧ n1 = n2;
  lk_room l : room (chan_at h l) = BROADCAST_CAPACITY
}.

(** No entry without a receiver. *)
Definition Tight h : Prop :=
  ∀ k name l, names k h !! name = Some l → view (chan_at h l) ≠ ∅.

(** The receivers with one more for a name. *)
Definition holds (k : SubKind) (name : list Z) (lrs : list (nat * Rx))
    (W : SubKind → list Z → list (nat * Rx)) : SubKind → list Z → list (nat * Rx) :=
  λ k' n', if decide (k' = k ∧ n' = name) then lrs ++ W k' n' else W k' n'.

(** What one connection holds. *)
Definition own s (k : SubKind) (name : list Z) : list (nat * Rx) := option_list (streams k s !! name).

(** Whether a subscription hears a message published on [ch]. *)
Definition hears (k : SubKind) (name ch : list Z) : bool :=
  match k with
  | Channel => bool_decide (name = ch)
  | Pattern => is_match (glob_new name) ch
  end.

#[export] Instance Linked_proper h :
  Proper (pointwise_relation _ (pointwise_relation _ (≡ₚ)) ==> iff) (Linked h).
Proof.
  assert (∀ W1 W2, pointwise_relation _ (pointwise_relation _ (≡ₚ)) W1 W2 → Linked h W1 → Linked h W2) as Hp.
  { intros H1 H2 He [Hm Ha Hi Hr]. split; [|done..]. intros k name. by rewrite Hm, (He k name). }
  intros H1 H2 He. split; apply Hp; [done|]. intros k name. symmetry. apply He.
Qed.

(** *** Projections *)
Lemma names_with_chan k l c h : names k (with_chan l c h) = names k h.
Proof. by destruct k. Qed.

Lemma names_with_names k m h k' :
  names k' (with_names k m h) = if decide (k' = k) then m else names k' h.
Proof. by destruct k, k'. Qed.

Lemma chan_at_with_names k m h l : chan_at (with_names k m h) l = chan_at h l.
Proof. by destruct k. Qed.

Lemma heap_with_names k m h : heap (with_names k m h) = heap h.
Proof. by destruct k. Qed.

Lemma chan_at_with_chan l c h l' :
  chan_at (with_chan l c h) l' = if decide (l = l') then c else chan_at h l'.
Proof.
  unfold chan_at, with_chan. simpl. case_decide as Hl.
  - subst. by rewrite lookup_total_insert_eq.
  - by rewrite lookup_total_insert_ne.
Qed.

Lemma streams_with_streams k m s k' :
  streams k' (with_streams k m s) = if decide (k' = k) then m else streams k' s.
Proof. by destruct k, k'. Qed.

Lemma own_with_streams k m s k' name :
  own (with_streams k m s) k' name = if decide (k' = k) then option_list (m !! name) else own s k' name.
Proof. unfold own. rewrite streams_with_streams. by destruct (decide (k' = k)). Qed.

(** [members] through the address of a name. *)
Lemma members_at h k name l :
  names k h !! name = Some l → members h k name = pair l <$> (map_to_list (view (chan_at h l))).*1.
Proof. unfold members. by intros ->. Qed.

Lemma elem_of_members h k name lr :
  lr ∈ members h k name ↔ names k h !! name = Some lr.1 ∧ is_Some (unread h lr).
Proof.
  unfold members, unread. destruct lr as [l r]. simpl. destruct (names k h !! name) as [l'|]; [|set_solver].
  rewrite list_elem_of_fmap. split.
  - intros (r' & [= -> ->] & Hr). split; [done|]. apply list_elem_of_fmap in Hr as ([r'' u] & -> & Hu).
    apply elem_of_map_to_list in Hu. simpl. by exists u.
  - intros [[= ->] [u Hu]]. exists r. split; [done|]. apply list_elem_of_fmap. exists (r, u).
    split; [done|]. by apply elem_of_map_to_list.
Qed.

Lemma linked_held h W k name lr :
  Linked h W → lr ∈ W k name → names k h !! name = Some lr.1 ∧ is_Some (unread h lr).
Proof. intros HL. rewrite <- (lk_members _ _ HL). apply elem_of_members. Qed.

(** Two receivers of different names, or two of the same name, are different. *)
Lemma linked_distinct h W k1 n1 lr1 k2 n2 lr2 :
  Linked h W → lr1 ∈ W k1 n1 → lr2 ∈ W k2 n2 → lr1.1 = lr2.1 → k1 = k2 ∧ n1 = n2.
Proof.
  intros HL H1 H2 He. apply (linked_held _ _ _ _ _ HL) in H1 as [H1 _].
  apply (linked_held _ _ _ _ _ HL) in H2 as [H2 _]. rewrite He in H1. by eapply lk_inj.
Qed.

(** Same names, same receivers at every address that a name maps to. *)
Lemma members_ext h h' k name :
  names k h' = names k h →
  (∀ l, names k h !! name = Some l → dom (view (chan_at h' l)) = dom (view (chan_at h l))) →
  members h' k name ≡ₚ members h k name.
Proof.
  intros Hn Hd. unfold members. rewrite Hn. destruct (names k h !! name) as [l|]; [|done].
  apply fmap_Permutation. specialize (Hd l eq_refl).
  apply NoDup_Permutation; [apply NoDup_fst_map_to_list..|]. intros r.
  change (r ∈ ((map_to_list (view (chan_at h' l))).*1) ↔ r ∈ ((map_to_list (view (chan_at h l))).*1)).
  assert (∀ m : gmap Rx (nat * list PubSubMsg), r ∈ (map_to_list m).*1 ↔ r ∈ dom m) as Hm.
  { intros m. rewrite list_elem_of_fmap, elem_of_dom. split.
    - intros ([r' u] & -> & Hu). apply elem_of_map_to_list in Hu. by exists u.
    - intros [u Hu]. exists (r, u). split; [done|]. by apply elem_of_map_to_list. }
  by rewrite !Hm, Hd.
Qed.

(** *** Every operation keeps the link *)

Context `{!BroadcastLaws Chan Rx view room}.

Lemma holds_here k name lrs W : holds k name lrs W k name = lrs ++ W k name.
Proof. unfold holds. by rewrite decide_True by done. Qed.

Lemma holds_other k name lrs W k' n' : ¬ (k' = k ∧ n' = name) → holds k name lrs W k' n' = W k' n'.
Proof. intros Hne. unfold holds. by rewrite decide_False by done. Qed.

Lemma linked_new : Linked hub_new (λ _ _, []).
Proof.
  split.
  - intros k name. by destruct k.
  - intros k name l Hl. by destruct k.
  - intros k1 n1 k2 n2 l Hl. by destruct k1.
  - intros l. unfold chan_at. simpl. rewrite lookup_total_empty. apply channel_room.
Qed.

Lemma tight_new : Tight hub_new.
Proof. intros k name l Hl. by destruct k. Qed.

(** A change at one address only, under the same names. *)
Lemma linked_update h W W' k name l c :
  Linked h W → names k h !! name = Some l → room c = BROADCAST_CAPACITY →
  (∀ k' n', ¬ (k' = k ∧ n' = name) → W' k' n' ≡ₚ W k' n') →
  (pair l <$> (map_to_list (view c)).*1) ≡ₚ W' k name →
  Linked (with_chan l c h) W'.
Proof.
  intros HL Hl Hc Ho Hp. split.
  - intros k' n'. unfold members. rewrite names_with_chan. destruct (decide (k' = k ∧ n' = name)) as [[-> ->]|Hne].
    + by rewrite Hl, chan_at_with_chan, decide_True by done.
    + rewrite (Ho _ _ Hne), <- (lk_members _ _ HL k' n'). unfold members.
      destruct (names k' h !! n') as [l'|] eqn:El; [|done].
      rewrite chan_at_with_chan, decide_False; [done|]. intros <-. apply Hne. by eapply (lk_inj _ _ HL).
  - intros k' n' l' Hl'. rewrite names_with_chan in Hl'. unfold with_chan. simpl.
    destruct (decide (l = l')) as [->|Hne]; [rewrite lookup_insert_eq; eauto|].
    rewrite lookup_insert_ne by done. by eapply (lk_alloc _ _ HL).
  - intros k1 n1 k2 n2 l'. rewrite !names_with_chan. apply (lk_inj _ _ HL).
  - intros l'. rewrite chan_at_with_chan. case_decide; [done|apply (lk_room _ _ HL)].
Qed.

(** A new entry on a new channel that has no receivers. *)
Lemma linked_alloc h W k name l c :
  Linked h W → names k h !! name = None → heap h !! l = None → room c = BROADCAST_CAPACITY → view c = ∅ →
  Linked (with_names k (<[name := l]> (names k h)) (with_chan l c h)) W.
Proof.
  intros HL Hn Hl Hc Hv.
  assert (∀ k' n', names k' h !! n' ≠ Some l) as Hnew.
  { intros k' n' He. apply (lk_alloc _ _ HL) in He as [? He]. congruence. }
  assert (∀ k' n' l', names k' (with_names k (<[name := l]> (names k h)) (with_chan l c h)) !! n' = Some l' →
    (k' = k ∧ n' = name ∧ l' = l) ∨ (names k' h !! n' = Some l' ∧ l' ≠ l)) as Hinv.
  { intros k' n' l'. rewrite names_with_names, names_with_chan. case_decide as Hk.
    - subst. rewrite lookup_insert_Some. intros [[-> ->]|[_ He]]; [by left|]. right. split; [done|].
      intros ->. by eapply Hnew.
    - intros He. right. split; [done|]. intros ->. by eapply Hnew. }
  split.
  - intros k' n'. rewrite <- (lk_members _ _ HL k' n'). unfold members at 1.
    destruct (names k' _ !! n') as [l'|] eqn:El.
    + rewrite chan_at_with_names, chan_at_with_chan. apply Hinv in El as [(-> & -> & ->)|[El Hne]].
      * rewrite decide_True, Hv, map_to_list_empty by done. unfold members. by rewrite Hn.
      * rewrite decide_False by congruence. by rewrite (members_at _ _ _ l').
    + unfold members. destruct (names k' h !! n') as [l'|] eqn:El'; [|done]. revert El.
      rewrite names_with_names, names_with_chan. case_decide; [|congruence]. subst.
      rewrite lookup_insert_None. intros [? _]. congruence.
  - intros k' n' l' Hl'. rewrite heap_with_names. unfold with_chan. simpl.
    apply Hinv in Hl' as [(_ & _ & ->)|[Hl' Hne]]; [rewrite lookup_insert_eq; eauto|].
    rewrite lookup_insert_ne by done. by eapply (lk_alloc _ _ HL).
  - intros k1 n1 k2 n2 l' H1 H2. apply Hinv in H1 as [(-> & -> & ->)|[H1 Hne]];
      apply Hinv in H2 as [(-> & -> & E2)|[H2 Hne2]]; [done|done|done|]. by eapply (lk_inj _ _ HL).
  - intros l'. rewrite chan_at_with_names, chan_at_with_chan. case_decide; [done|apply (lk_room _ _ HL)].
Qed.

Lemma members_insert (l : nat) (m : gmap Rx (nat * list PubSubMsg)) r u :
  m !! r = None → (pair l <$> (map_to_list (<[r := u]> m)).*1) ≡ₚ (l, r) :: (pair l <$> (map_to_list m).*1).
Proof. intros Hr. by rewrite map_to_list_insert. Qed.

(** Subscribing once the name has an entry. *)
Lemma linked_subscribe_at h W k name l r c :
  Linked h W → names k h !! name = Some l → bc_subscribe (chan_at h l) = (r, c) →
  Linked (with_chan l c h) (holds k name [(l, r)] W).
Proof.
  intros HL Hl Hc. pose proof (subscribe_fresh (chan_at h l)) as Hf.
  pose proof (subscribe_view (chan_at h l)) as Hv. pose proof (subscribe_room (chan_at h l)) as Hr.
  rewrite Hc in Hf, Hv, Hr. simpl in *. eapply linked_update; [done|done| | |].
  - rewrite Hr. apply (lk_room _ _ HL).
  - intros k' n' Hne. by rewrite holds_other.
  - rewrite Hv, members_insert, holds_here by done. simpl. f_equiv.
    rewrite <- (lk_members _ _ HL k name). by rewrite (members_at _ _ _ l).
Qed.

Lemma linked_subscribe h W k name :
  Linked h W →
  Linked (subscribe_name k name h).2 (holds k name [(subscribe_name k name h).1] W).
Proof.
  intros HL. unfold subscribe_name. destruct (names k h !! name) as [l|] eqn:El.
  - destruct (bc_subscribe (chan_at h l)) as [r c] eqn:Ec. simpl. rewrite insert_id by done.
    assert (with_names k (names k h) (with_chan l c h) = with_chan l c h) as -> by (by destruct k).
    by apply linked_subscribe_at.
  - set (l := fresh (dom (heap h))). set (c0 := bc_channel BROADCAST_CAPACITY).
    destruct (bc_subscribe c0) as [r c] eqn:Ec. simpl.
    assert (heap h !! l = None) as Hl by (apply not_elem_of_dom, is_fresh).
    pose proof (linked_alloc h W k name l c0 HL El Hl channel_room (channel_view _)) as HL1.
    eapply (linked_subscribe_at _ W k name l r c) in HL1.
    + destruct k; unfold with_names, with_chan in *; simpl in *; by rewrite insert_insert_eq in HL1.
    + rewrite names_with_names, decide_True by done. apply lookup_insert_eq.
    + by rewrite chan_at_with_names, chan_at_with_chan, decide_True.
Qed.

(** Dropping a receiver takes it away. *)
Lemma linked_drop h W k name lr :
  Linked h (holds k name [lr] W) → Linked (drop_rx lr h) W.
Proof.
  intros HL. assert (lr ∈ holds k name [lr] W k name) as Hin by (rewrite holds_here; set_solver).
  destruct (linked_held _ _ _ _ _ HL Hin) as [Hn [u Hu]]. destruct lr as [l r]. simpl in *.
  unfold unread in Hu. simpl in Hu. unfold drop_rx. simpl. eapply linked_update; [done|done| | |].
  - rewrite drop_room. apply (lk_room _ _ HL).
  - intros k' n' Hne. by rewrite holds_other.
  - rewrite drop_view. pose proof (lk_members _ _ HL k name) as Hm.
    rewrite (members_at _ _ _ l), holds_here in Hm by done. simpl in Hm.
    rewrite <- (insert_delete_id (view (chan_at h l)) r u), members_insert in Hm
      by (done || apply lookup_delete_eq). by apply Permutation_cons_inv in Hm.
Qed.

(** Removing a dead entry changes no receiver. *)
Lemma linked_cleanup h W k name : Linked h W → Linked (cleanup_name k id name h) W.
Proof.
  intros HL. unfold cleanup_name. destruct (names k h !! name) as [l|] eqn:El; [|done].
  destruct (Nat.eqb_spec (bc_receiver_count (chan_at h l)) 0) as [H0|]; [|done]. simpl.
  rewrite count_view in H0. apply map_size_empty_inv in H0.
  assert (∀ k' n' l', names k' (with_names k (delete name (names k h)) h) !! n' = Some l' →
    names k' h !! n' = Some l') as Hsub.
  { intros k' n' l'. rewrite names_with_names. case_decide; [|done]. subst.
    rewrite lookup_delete_Some. by intros []. }
  split.
  - intros k' n'. rewrite <- (lk_members _ _ HL k' n'). unfold members at 1.
    destruct (names k' _ !! n') as [l'|] eqn:El'.
    + rewrite chan_at_with_names. apply Hsub in El'. by rewrite (members_at _ _ _ l').
    + revert El'. rewrite names_with_names. unfold members. case_decide as Hk.
      * subst. rewrite lookup_delete_None. intros [-> | ->]; [|done].
        by rewrite El, H0, map_to_list_empty.
      * by intros ->.
  - intros k' n' l' Hl. rewrite heap_with_names. by eapply (lk_alloc _ _ HL), Hsub.
  - intros k1 n1 k2 n2 l' H1 H2. by eapply (lk_inj _ _ HL); apply Hsub.
  - intros l'. rewrite chan_at_with_names. apply (lk_room _ _ HL).
Qed.

(** *** What the other receivers see *)
Lemma unread_with_chan l c h lr :
  unread (with_chan l c h) lr = if decide (l = lr.1) then view c !! lr.2 else unread h lr.
Proof. unfold unread. rewrite chan_at_with_chan. by destruct (decide (l = lr.1)). Qed.

Lemma unread_with_names k m h lr : unread (with_names k m h) lr = unread h lr.
Proof. unfold unread. by rewrite chan_at_with_names. Qed.

Lemma unread_cleanup k name h lr : unread (cleanup_name k id name h) lr = unread h lr.
Proof.
  unfold cleanup_name. destruct (names k h !! name) as [l|]; [|done].
  destruct (_ =? 0)%nat; [|done]. apply unread_with_names.
Qed.

Lemma unread_drop lr h lr' : lr' ≠ lr → unread (drop_rx lr h) lr' = unread h lr'.
Proof.
  intros Hne. unfold drop_rx. rewrite unread_with_chan. case_decide as Hl; [|done].
  rewrite drop_view, Hl. rewrite lookup_delete_ne; [done|]. intros Hr. apply Hne. by destruct lr, lr'; simpl in *; subst.
Qed.

Lemma unread_subscribe_new h k name :
  unread (subscribe_name k name h).2 (subscribe_name k name h).1 = Some (O, []).
Proof.
  unfold subscribe_name. set (lc := match names k h !! name with Some _ => _ | None => _ end).
  destruct lc as [l c]. pose proof (subscribe_view c) as Hv. destruct (bc_subscribe c) as [r c']. simpl in *.
  rewrite unread_with_names, unread_with_chan, decide_True by done. simpl. rewrite Hv. apply lookup_insert_eq.
Qed.

Lemma unread_subscribe h W k name k' n' lr :
  Linked h W → lr ∈ W k' n' → unread (subscribe_name k name h).2 lr = unread h lr.
Proof.
  intros HL Hin. destruct (linked_held _ _ _ _ _ HL Hin) as [Hn [u Hu]].
  unfold subscribe_name. destruct (names k h !! name) as [l|] eqn:El.
  - pose proof (subscribe_view (chan_at h l)) as Hv. pose proof (subscribe_fresh (chan_at h l)) as Hf.
    destruct (bc_subscribe (chan_at h l)) as [r c]. simpl in *. rewrite unread_with_names, unread_with_chan.
    case_decide as Hl; [|done]. rewrite Hv. unfold unread in *. rewrite <- Hl in *.
    rewrite lookup_insert_ne; [done|]. intros ->. congruence.
  - destruct (bc_subscribe _) as [r c]. simpl. rewrite unread_with_names, unread_with_chan, decide_False; [done|].
    intros Hl. apply (lk_alloc _ _ HL) in Hn. apply elem_of_dom in Hn. rewrite <- Hl in Hn.
    by apply is_fresh in Hn.
Qed.

(** Polling. *)
Lemma poll_rx_spec h lr u :
  unread h lr = Some u →
  (poll_rx lr h).1 = (dequeue u).1 ∧
  (∀ lr', unread (poll_rx lr h).2 lr' = if decide (lr' = lr) then Some (dequeue u).2 else unread h lr').
Proof.
  intros Hu. unfold poll_rx. pose proof (recv_item _ _ _ Hu) as Hi. pose proof (recv_view _ _ _ Hu) as Hv.
  destruct (bc_recv lr.2 (chan_at h lr.1)) as [item c]. simpl in *. split; [done|].
  intros lr'. rewrite unread_with_chan. destruct (decide (lr' = lr)) as [->|Hne].
  - rewrite decide_True by done. rewrite Hv. apply lookup_insert_eq.
  - case_decide as Hl; [|done]. rewrite Hv. unfold unread. rewrite Hl. apply lookup_insert_ne.
    intros Hr. apply Hne. by destruct lr, lr'; simpl in *; subst.
Qed.

Lemma linked_poll h W k name lr :
  Linked h W → lr ∈ W k name → Linked (poll_rx lr h).2 W.
Proof.
  intros HL Hin. destruct (linked_held _ _ _ _ _ HL Hin) as [Hn [u Hu]]. unfold unread in Hu.
  pose proof (recv_view _ _ _ Hu) as Hv. pose proof (recv_room lr.2 (chan_at h lr.1)) as Hr.
  unfold poll_rx. destruct (bc_recv lr.2 (chan_at h lr.1)) as [item c]. simpl in *.
  eapply linked_update; [done|done| |done|].
  - rewrite Hr. apply (lk_room _ _ HL).
  - rewrite <- (lk_members _ _ HL k name), (members_at _ _ _ lr.1) by done. rewrite Hv.
    rewrite <- (insert_delete_id (view (chan_at h lr.1)) lr.2 u) at 2 by done.
    rewrite <- insert_delete_eq, !members_insert by (apply lookup_delete_eq). done.
Qed.

(** *** No dead entries *)
Lemma tight_subscribe h k name : Tight h → Tight (subscribe_name k name h).2.
Proof.
  intros HT. unfold subscribe_name. set (lc := match names k h !! name with Some _ => _ | None => _ end).
  destruct lc as [l c]. pose proof (subscribe_view c) as Hv. destruct (bc_subscribe c) as [r c']. simpl in *.
  intros k' n' l'. rewrite names_with_names, names_with_chan, chan_at_with_names, chan_at_with_chan.
  destruct (decide (l = l')) as [->|Hne]; [intros _; rewrite Hv; apply insert_non_empty|].
  intros Hl. apply (HT k' n'). case_decide; [|done]. subst. apply lookup_insert_Some in Hl as [[_ ?]|[_ ?]]; done.
Qed.

Lemma tight_unsubscribe h W k name lr :
  Linked h (holds k name [lr] W) → Tight h → Tight (cleanup_name k id name (drop_rx lr h)).
Proof.
  intros HL HT. pose proof (linked_drop _ _ _ _ _ HL) as HL1.
  assert (lr ∈ holds k name [lr] W k name) as Hin by (rewrite holds_here; set_solver).
  destruct (linked_held _ _ _ _ _ HL Hin) as [Hn _].
  assert (∀ k' n' l', names k' (drop_rx lr h) !! n' = Some l' → ¬ (k' = k ∧ n' = name) →
    view (chan_at (drop_rx lr h) l') ≠ ∅) as Hrest.
  { unfold drop_rx. intros k' n' l'. rewrite names_with_chan, chan_at_with_chan. intros Hl Hne.
    rewrite decide_False; [by eapply HT|]. intros <-. apply Hne. by eapply (lk_inj _ _ HL). }
  unfold cleanup_name. unfold drop_rx at 1. rewrite names_with_chan, Hn.
  destruct (Nat.eqb_spec (bc_receiver_count (chan_at (drop_rx lr h) lr.1)) 0) as [H0|H0]; simpl.
  - intros k' n' l'. rewrite names_with_names, chan_at_with_names. case_decide as Hk.
    + subst. rewrite lookup_delete_Some. intros [Hne Hl]. apply (Hrest _ _ _ Hl). naive_solver.
    + intros Hl. apply (Hrest _ _ _ Hl). naive_solver.
  - intros k' n' l' Hl. destruct (decide (k' = k ∧ n' = name)) as [[-> ->]|Hne]; [|by apply (Hrest k' n')].
    unfold drop_rx in Hl. rewrite names_with_chan, Hn in Hl. injection Hl as <-.
    rewrite count_view in H0. intros He. apply H0. by rewrite He.
Qed.

Lemma tight_poll h lr u : unread h lr = Some u → Tight h → Tight (poll_rx lr h).2.
Proof.
  intros Hu HT. pose proof (recv_view _ _ _ Hu) as Hv. unfold poll_rx.
  destruct (bc_recv lr.2 (chan_at h lr.1)) as [item c]. simpl in *. intros k' n' l'.
  rewrite names_with_chan, chan_at_with_chan. case_decide; [|apply HT]. intros _. rewrite Hv. apply insert_non_empty.
Qed.

(** *** PUBLISH *)

(** The addresses a message goes to. *)
Definition targets (ch : list Z) h : list nat :=
  option_list (channels h !! ch) ++
  (List.filter (λ e, is_match (glob_new e.1) ch) (iter (patterns h))).*2.

Lemma fold_left_filter {A C} (f : A → C → A) (p : C → bool) (l : list C) (a : A) :
  fold_left (λ a x, if p x then f a x else a) l a = fold_left f (List.filter p l) a.
Proof. revert a. induction l as [|x l IH]; intros a; simpl; [done|]. rewrite IH. by destruct (p x). Qed.

Lemma fold_left_fmap {A C D} (f : A → D → A) (g : C → D) (l : list C) (a : A) :
  fold_left f (g <$> l) a = fold_left (λ a x, f a (g x)) l a.
Proof. revert a. induction l as [|x l IH]; intros a; simpl; [done|]. apply IH. Qed.

Lemma publish_targets ch payload h :
  publish ch payload h = fold_left (send_counted (mkMsg ch payload)) (targets ch h) (0, h).
Proof.
  unfold publish, targets. rewrite fold_left_app, fold_left_fmap.
  rewrite (fold_left_filter (λ st e, send_counted (mkMsg ch payload) st e.2)).
  f_equal. by destruct (channels h !! ch).
Qed.

(** What a message does to every channel: those in [ls] get it. *)
Definition Sent (m : PubSubMsg) (ls : list nat) h h' : Prop :=
  (∀ k, names k h' = names k h) ∧ dom (heap h) ⊆ dom (heap h') ∧
  ∀ l, room (chan_at h' l) = room (chan_at h l) ∧
    view (chan_at h' l) = (if decide (l ∈ ls) then enqueue BROADCAST_CAPACITY m else id) <$> view (chan_at h l).

Lemma send_counted_spec m t h l :
  (∀ l, room (chan_at h l) = BROADCAST_CAPACITY) →
  (send_counted m (t, h) l).1 = t + Z.of_nat (size (view (chan_at h l))) ∧
  Sent m [l] h (send_counted m (t, h) l).2.
Proof.
  intros Hroom. unfold send_counted. rewrite count_view.
  destruct (Nat.ltb_spec 0 (size (view (chan_at h l)))) as [Hpos|Hzero]; simpl.
  - split; [done|]. split; [intros k; apply names_with_chan|]. split; [simpl; rewrite dom_insert; set_solver|].
    intros l'. rewrite chan_at_with_chan. destruct (decide (l = l')) as [->|Hne].
    + rewrite send_room, send_view, Hroom. split; [done|]. by rewrite decide_True by set_solver.
    + rewrite decide_False by set_solver. by rewrite map_fmap_id.
  - assert (view (chan_at h l) = ∅) as Hv by (apply map_size_empty_inv; lia).
    rewrite Hv, map_size_empty. split; [lia|]. split; [done|]. split; [done|]. intros l'. split; [done|].
    case_decide as Hl; [|by rewrite map_fmap_id]. apply list_elem_of_singleton in Hl as ->. by rewrite Hv, fmap_empty.
Qed.

Lemma send_all_spec m ls t h :
  NoDup ls → (∀ l, room (chan_at h l) = BROADCAST_CAPACITY) →
  (fold_left (send_counted m) ls (t, h)).1 = t + Z.of_nat (sum_list_with (λ l, size (view (chan_at h l))) ls) ∧
  Sent m ls h (fold_left (send_counted m) ls (t, h)).2.
Proof.
  intros Hnd. revert t h. induction Hnd as [|l ls Hl Hnd IH]; intros t h Hroom.
  { simpl. split; [lia|]. split; [done|]. split; [done|]. intros l. split; [done|]. by rewrite map_fmap_id. }
  cbn [fold_left]. destruct (send_counted_spec m t h l Hroom) as [Ht (Hn & Hd & Hs)].
  destruct (send_counted m (t, h) l) as [t1 h1]. simpl in Ht, Hn, Hd, Hs.
  destruct (IH t1 h1) as [Ht2 (Hn2 & Hd2 & Hs2)]; [intros l'; by rewrite (proj1 (Hs l'))|].
  split; [|split; [intros k; by rewrite Hn2|split; [set_solver|]]].
  - rewrite Ht2, Ht. cbn [sum_list_with]. rewrite (sum_with_ext _ (λ l', size (view (chan_at h l'))) ls); [lia|].
    intros l' _. by rewrite (proj2 (Hs l')), map_size_fmap.
  - intros l'. rewrite (proj1 (Hs2 l')), (proj2 (Hs2 l')), (proj2 (Hs l')). split; [apply Hs|].
    destruct (decide (l' ∈ l :: ls)) as [Hin|Hin]; destruct (decide (l' ∈ ls)); destruct (decide (l' ∈ [l]));
      rewrite ?map_fmap_id; try done; set_solver.
Qed.

Lemma targets_nodup `{!IterationLaw} h W ch : Linked h W → NoDup (targets ch h).
Proof.
  intros HL. unfold targets. apply NoDup_app. split; [destruct (channels h !! ch); repeat constructor; set_solver|].
  assert (∀ p l, (p, l) ∈ List.filter (λ e, is_match (glob_new e.1) ch) (iter (patterns h)) →
    patterns h !! p = Some l) as Hp.
  { intros p l Hin. apply list_elem_of_In, filter_In in Hin as [Hin _]. apply list_elem_of_In in Hin.
    rewrite iter_perm in Hin. by apply elem_of_map_to_list in Hin. }
  split.
  - intros l Hl Hin. apply list_elem_of_fmap in Hin as ([p l'] & Hl' & Hin). simpl in Hl'. subst l'. apply Hp in Hin.
    destruct (channels h !! ch) as [l1|] eqn:El; [|set_solver]. apply list_elem_of_singleton in Hl as ->.
    by destruct (lk_inj _ _ HL Channel ch Pattern p l1 El Hin).
  - apply NoDup_fmap_2_strong.
    + intros [p1 l1] [p2 l2] H1 H2 He. simpl in He. subst. apply Hp in H1, H2.
      by destruct (lk_inj _ _ HL Pattern p1 Pattern p2 l2 H1 H2) as [_ ->].
    + apply NoDup_ListNoDup, List.NoDup_filter, NoDup_ListNoDup. rewrite iter_perm. apply NoDup_map_to_list.
Qed.

Lemma elem_of_targets `{!IterationLaw} h W ch k name l :
  Linked h W → names k h !! name = Some l → l ∈ targets ch h ↔ hears k name ch = true.
Proof.
  intros HL Hl. unfold targets. rewrite elem_of_app, list_elem_of_fmap.
  assert (∀ p l', (p, l') ∈ List.filter (λ e, is_match (glob_new e.1) ch) (iter (patterns h)) ↔
    patterns h !! p = Some l' ∧ is_match (glob_new p) ch = true) as Hp.
  { intros p l'. rewrite list_elem_of_In, filter_In, <- list_elem_of_In, iter_perm, elem_of_map_to_list. done. }
  split.
  - intros [Hc|([p l'] & Hl' & Hin)]; [|simpl in Hl'; subst l'].
    + destruct (channels h !! ch) as [l1|] eqn:El; [|set_solver]. apply list_elem_of_singleton in Hc as ->.
      destruct (lk_inj _ _ HL Channel ch k name l1 El Hl) as [<- <-]. by apply bool_decide_eq_true_2.
    + apply Hp in Hin as [Hin Hm]. destruct (lk_inj _ _ HL Pattern p k name l Hin Hl) as [<- <-]. done.
  - intros Hh. destruct k; simpl in Hh, Hl.
    + apply bool_decide_eq_true in Hh as ->. left. rewrite Hl. by apply list_elem_of_singleton.
    + right. exists (name, l). split; [done|]. by apply Hp.
Qed.

(** A message reaches the receivers of every name that hears it, and no other. *)
Lemma publish_unread `{!IterationLaw} h W ch payload k name lr u :
  Linked h W → lr ∈ W k name → unread h lr = Some u →
  unread (publish ch payload h).2 lr =
    Some (if hears k name ch then enqueue BROADCAST_CAPACITY (mkMsg ch payload) u else u).
Proof.
  intros HL Hin Hu. destruct (linked_held _ _ _ _ _ HL Hin) as [Hn _]. rewrite publish_targets.
  destruct (send_all_spec (mkMsg ch payload) (targets ch h) 0 h (targets_nodup h W ch HL) (lk_room _ _ HL))
    as [_ (_ & _ & Hs)]. unfold unread in *. rewrite (proj2 (Hs lr.1)), lookup_fmap, Hu. simpl. f_equal.
  pose proof (elem_of_targets h W ch k name lr.1 HL Hn) as Ht.
  destruct (hears k name ch); [rewrite decide_True by (by apply Ht)|rewrite decide_False by naive_solver]; done.
Qed.

Lemma linked_publish `{!IterationLaw} h W ch payload :
  Linked h W → Linked (publish ch payload h).2 W.
Proof.
  intros HL. rewrite publish_targets.
  destruct (send_all_spec (mkMsg ch payload) (targets ch h) 0 h (targets_nodup h W ch HL) (lk_room _ _ HL))
    as [_ (Hn & Hd & Hs)]. set (h' := (fold_left _ _ _).2) in *. split.
  - intros k name. rewrite <- (lk_members _ _ HL k name). apply members_ext; [apply Hn|].
    intros l _. by rewrite (proj2 (Hs l)), dom_fmap_L.
  - intros k name l. rewrite Hn. intros Hl. apply elem_of_dom, Hd, elem_of_dom. by eapply (lk_alloc _ _ HL).
  - intros k1 n1 k2 n2 l. rewrite !Hn. apply (lk_inj _ _ HL).
  - intros l. rewrite (proj1 (Hs l)). apply (lk_room _ _ HL).
Qed.

Lemma tight_publish `{!IterationLaw} h W ch payload :
  Linked h W → Tight h → Tight (publish ch payload h).2.
Proof.
  intros HL HT. rewrite publish_targets.
  destruct (send_all_spec (mkMsg ch payload) (targets ch h) 0 h (targets_nodup h W ch HL) (lk_room _ _ HL))
    as [_ (Hn & Hd & Hs)]. intros k name l. rewrite Hn, (proj2 (Hs l)). intros Hl He.
  apply fmap_empty_inv in He. by eapply HT.
Qed.

(** The names with an entry that hear a message. *)
Definition heard (ch : list Z) h (k : SubKind) : list (list Z) :=
  List.filter (λ name, hears k name ch) (map_to_list (names k h)).*1.

Lemma targets_heard `{!IterationLaw} h W ch :
  Linked h W →
  sum_list_with (λ l, size (view (chan_at h l))) (targets ch h) =
  (sum_list_with (λ name, length (W Channel name)) (heard ch h Channel) +
   sum_list_with (λ name, length (W Pattern name)) (heard ch h Pattern))%nat.
Proof.
  intros HL.
  assert (∀ k, sum_list_with (λ l, size (view (chan_at h l)))
     (List.filter (λ e, hears k e.1 ch) (map_to_list (names k h))).*2 =
     sum_list_with (λ name, length (W k name)) (heard ch h k)) as Hsum.
  { intros k. unfold heard. assert (∀ e, e ∈ map_to_list (names k h) → names k h !! e.1 = Some e.2) as He.
    { intros [p l]. apply elem_of_map_to_list. }
    induction (map_to_list (names k h)) as [|e es IH]; [done|].
    specialize (IH (λ x Hx, He x (list_elem_of_further _ _ _ Hx))). cbn [fmap list_fmap List.filter].
    destruct (hears k e.1 ch); [|exact IH]. cbn [fmap list_fmap sum_list_with].
    rewrite <- IH. f_equal. rewrite <- (lk_members _ _ HL k e.1), (members_at _ _ _ e.2) by (apply He; set_solver).
    rewrite !length_fmap. by rewrite length_map_to_list. }
  unfold targets. rewrite sum_list_with_app. f_equal.
  - rewrite <- Hsum. cbn [names]. unfold hears. rewrite (filter_key (channels h) ch).
    by destruct (channels h !! ch).
  - rewrite iter_perm. exact (Hsum Pattern).
Qed.

(** *** The connections *)

(** What all connections hold for a name. *)
Definition held (conns : gmap Z (ConnectionSubs Rx)) (k : SubKind) (name : list Z) : list (nat * Rx) :=
  (map_to_list conns).*2 ≫= λ s, own s k name.

(** How many subscriptions of a connection hear a message. *)
Definition hearing (ch : list Z) s : nat :=
  (length (List.filter (λ e, hears Channel e.1 ch) (map_to_list (channel_streams s))) +
   length (List.filter (λ e, hears Pattern e.1 ch) (map_to_list (pattern_streams s))))%nat.

Lemma held_insert conns c s k name :
  held (<[c := s]> conns) k name ≡ₚ own s k name ++ held (delete c conns) k name.
Proof.
  unfold held. rewrite <- insert_delete_eq.
  by rewrite (map_to_list_insert (delete c conns) c s) by apply lookup_delete_eq.
Qed.

Lemma held_split conns c s k name :
  conns !! c = Some s → held conns k name ≡ₚ own s k name ++ held (delete c conns) k name.
Proof. intros Hc. rewrite <- (insert_id conns c s) at 1 by done. apply held_insert. Qed.

Lemma elem_of_held conns c s k name lr :
  conns !! c = Some s → streams k s !! name = Some lr → lr ∈ held conns k name.
Proof.
  intros Hc Hs. rewrite (held_split _ c s) by done. apply elem_of_app. left. unfold own. rewrite Hs.
  by apply list_elem_of_singleton.
Qed.

(** Along the names with an entry, the subscriptions of a connection that hear a message. *)
Lemma hearing_heard h conns c s k ch :
  Linked h (held conns) → conns !! c = Some s →
  sum_list_with (λ name, length (own s k name)) (heard ch h k) =
  length (List.filter (λ e, hears k e.1 ch) (map_to_list (streams k s))).
Proof.
  intros HL Hc. unfold own. apply (sum_lookup_filter (streams k s) (λ name, hears k name ch)).
  - apply NoDup_ListNoDup, List.NoDup_filter, NoDup_ListNoDup, NoDup_fst_map_to_list.
  - intros name Hin. apply list_elem_of_In, filter_In in Hin. by destruct Hin.
  - intros name [lr Hlr] Hh. apply list_elem_of_In, filter_In. split; [|done]. apply list_elem_of_In.
    apply (elem_of_held conns c s) in Hlr; [|done]. apply (linked_held _ _ _ _ _ HL) in Hlr as [Hn _].
    apply list_elem_of_fmap. exists (name, lr.1). split; [done|]. by apply elem_of_map_to_list.
Qed.

Lemma publish_count `{!IterationLaw} h conns ch payload :
  Linked h (held conns) →
  (publish ch payload h).1 = Z.of_nat (sum_list_with (hearing ch) (map_to_list conns).*2).
Proof.
  intros HL. rewrite publish_targets.
  destruct (send_all_spec (mkMsg ch payload) (targets ch h) 0 h (targets_nodup _ _ ch HL) (lk_room _ _ HL)) as [-> _].
  rewrite (targets_heard h (held conns)), Z.add_0_l by done. f_equal.
  assert (∀ k, sum_list_with (λ name, length (held conns k name)) (heard ch h k) =
    sum_list_with (λ s, length (List.filter (λ e, hears k e.1 ch) (map_to_list (streams k s)))) (map_to_list conns).*2)
    as Hk.
  { intros k. rewrite (sum_with_ext _ (λ name, sum_list_with (λ s, length (own s k name)) (map_to_list conns).*2))
      by (intros name _; apply length_bind).
    rewrite sum_with_swap. apply sum_with_ext. intros s Hs. apply list_elem_of_fmap in Hs as ([c s'] & -> & Hs).
    apply elem_of_map_to_list in Hs. by apply (hearing_heard h conns c). }
  rewrite !Hk, <- sum_with_add. done.
Qed.

(** How many connections are subscribed to a name. *)
Definition subscribers (k : SubKind) (name : list Z) (conns : gmap Z (ConnectionSubs Rx)) : nat :=
  length (List.filter (λ s, bool_decide (is_Some (streams k s !! name))) (map_to_list conns).*2).

Lemma length_held conns k name : length (held conns k name) = subscribers k name conns.
Proof.
  unfold held, subscribers. rewrite length_bind. induction ((map_to_list conns).*2) as [|s ss IH]; [done|].
  simpl. unfold own at 1. destruct (streams k s !! name) as [lr|] eqn:E.
  - rewrite bool_decide_eq_true_2 by eauto. simpl. by rewrite IH.
  - rewrite bool_decide_eq_false_2 by (by intros [? ?]). simpl. by rewrite IH.
Qed.

(** The receivers of a name are the connections subscribed to it. *)
Lemma receiver_count_held h conns k name :
  Linked h (held conns) →
  match names k h !! name with Some l => bc_receiver_count (chan_at h l) | None => O end = subscribers k name conns.
Proof.
  intros HL. rewrite <- length_held, <- (lk_members _ _ HL k name). unfold members.
  destruct (names k h !! name) as [l|]; [|done]. rewrite count_view, !length_fmap. by rewrite length_map_to_list.
Qed.

(** *** One connection among the others *)

(** What a connection holds, beside what the others hold. *)
Definition focus s (R : SubKind → list Z → list (nat * Rx)) : SubKind → list Z → list (nat * Rx) :=
  λ k name, own s k name ++ R k name.

(** The other receivers keep what they have to read. *)
Definition Quiet (R : SubKind → list Z → list (nat * Rx)) h h' : Prop :=
  ∀ k name lr, lr ∈ R k name → unread h' lr = unread h lr.

Lemma quiet_refl R h : Quiet R h h.
Proof. done. Qed.

Lemma quiet_trans R h1 h2 h3 : Quiet R h1 h2 → Quiet R h2 h3 → Quiet R h1 h3.
Proof. intros H1 H2 k name lr Hin. rewrite (H2 _ _ _ Hin). by eapply H1. Qed.

Lemma focus_held conns c s :
  conns !! c = Some s →
  pointwise_relation _ (pointwise_relation _ (≡ₚ)) (held conns) (focus s (held (delete c conns))).
Proof. intros Hc k name. by apply held_split. Qed.

Lemma focus_held_insert conns c s :
  pointwise_relation _ (pointwise_relation _ (≡ₚ)) (held (<[c := s]> conns)) (focus s (held (delete c conns))).
Proof. intros k name. apply held_insert. Qed.

Lemma linked_focus conns c s h :
  conns !! c = Some s → Linked h (held conns) → Linked h (focus s (held (delete c conns))).
Proof. intros Hc. by rewrite (focus_held conns c s Hc). Qed.

Lemma linked_unfocus conns c s h :
  Linked h (focus s (held (delete c conns))) → Linked h (held (<[c := s]> conns)).
Proof. by rewrite (focus_held_insert conns c s). Qed.

Lemma held_empty : pointwise_relation _ (pointwise_relation _ (≡ₚ)) (held ∅) (λ _ _, []).
Proof. intros k name. unfold held. by rewrite map_to_list_empty. Qed.

(** A client connects. *)
Lemma linked_connect conns c h :
  conns !! c = None → Linked h (held conns) → Linked h (held (<[c := subs_new]> conns)).
Proof.
  intros Hc HL. apply linked_unfocus. rewrite delete_id by done. revert HL. apply Linked_proper.
  intros k name. by destruct k.
Qed.

Lemma focus_add k name lr s R :
  streams k s !! name = None →
  pointwise_relation _ (pointwise_relation _ (≡ₚ))
    (holds k name [lr] (focus s R)) (focus (with_streams k (<[name := lr]> (streams k s)) s) R).
Proof.
  intros Hn k' n'. unfold holds, focus. rewrite own_with_streams. case_decide as Hd.
  - destruct Hd as [-> ->]. rewrite decide_True by done. unfold own. by rewrite lookup_insert_eq, Hn.
  - case_decide as Hk; [|done]. subst. unfold own. rewrite lookup_insert_ne; [done|]. intros ->. by apply Hd.
Qed.

Lemma focus_remove k name lr s R :
  streams k s !! name = Some lr →
  pointwise_relation _ (pointwise_relation _ (≡ₚ))
    (focus s R) (holds k name [lr] (focus (with_streams k (delete name (streams k s)) s) R)).
Proof.
  intros Hn k' n'. unfold holds, focus. rewrite own_with_streams. case_decide as Hd.
  - destruct Hd as [-> ->]. rewrite decide_True by done. unfold own. by rewrite lookup_delete_eq, Hn.
  - case_decide as Hk; [|done]. subst. unfold own. rewrite lookup_delete_ne; [done|]. intros ->. by apply Hd.
Qed.

Lemma focus_subscribe k name s h R b s' h' :
  Linked h (focus s R) → subs_subscribe k name s h = (b, s', h') →
  Linked h' (focus s' R) ∧ (Tight h → Tight h') ∧ Quiet (focus s R) h h' ∧
  b = negb (bool_decide (is_Some (streams k s !! name))) ∧
  ∃ lr, streams k s' !! name = Some lr ∧ (∀ k' n', (k', n') ≠ (k, name) → streams k' s' !! n' = streams k' s !! n') ∧
    (b = true → unread h' lr = Some (O, [])) ∧ (b = false → s' = s).
Proof.
  intros HL. unfold subs_subscribe. destruct (streams k s !! name) as [lr|] eqn:Es.
  - intros [= <- <- <-]. split; [done|]. split; [done|]. split; [done|].
    split; [done|]. by exists lr.
  - pose proof (linked_subscribe h (focus s R) k name HL) as HL1. pose proof (tight_subscribe h k name) as HT.
    pose proof (unread_subscribe_new h k name) as Hn.
    pose proof (λ k' n' lr, unread_subscribe h (focus s R) k name k' n' lr HL) as Hq.
    destruct (subscribe_name k name h) as [lr h1]. simpl in *. intros [= <- <- <-].
    split; [by rewrite (focus_add k name lr s R) in HL1|]. split; [done|]. split; [exact Hq|].
    split; [done|]. exists lr.
    split; [rewrite streams_with_streams, decide_True by done; apply lookup_insert_eq|]. split; [|done].
    intros k' n' Hne. rewrite streams_with_streams. case_decide; [|done]. subst. apply lookup_insert_ne.
    intros ->. by apply Hne.
Qed.

(** A receiver is held once. *)
Lemma linked_apart k name lr h W k' n' lr' :
  Linked h (holds k name [lr] W) → lr' ∈ W k' n' → lr' ≠ lr.
Proof.
  intros HL Hin ->.
  assert (lr ∈ holds k name [lr] W k' n') as H1 by (unfold holds; case_decide; set_solver).
  assert (lr ∈ holds k name [lr] W k name) as H2 by (rewrite holds_here; set_solver).
  destruct (linked_distinct _ _ _ _ _ _ _ _ HL H1 H2 eq_refl) as [-> ->].
  assert (NoDup (holds k name [lr] W k name)) as Hnd.
  { rewrite <- (lk_members _ _ HL k name). unfold members. destruct (names k h !! name); [|constructor].
    apply NoDup_fmap_2; [|apply NoDup_fst_map_to_list]. by intros ?? [= ->]. }
  rewrite holds_here in Hnd. apply NoDup_cons in Hnd as [Hnd _]. done.
Qed.

Lemma quiet_drop k name lr h W : Linked h (holds k name [lr] W) → Quiet W h (drop_rx lr h).
Proof. intros HL k' n' lr' Hin. apply unread_drop. by eapply linked_apart. Qed.

Lemma quiet_cleanup W k name h : Quiet W h (cleanup_name k id name h).
Proof. intros k' n' lr _. apply unread_cleanup. Qed.

Lemma tight_cleanup k name h : Tight h → Tight (cleanup_name k id name h).
Proof.
  intros HT. unfold cleanup_name. destruct (names k h !! name) as [l|]; [|done].
  destruct (_ =? 0)%nat; [|done]. intros k' n' l'. rewrite names_with_names, chan_at_with_names. simpl.
  case_decide; [|apply HT]. subst. rewrite lookup_delete_Some. intros [_ Hl]. by eapply HT.
Qed.

Lemma focus_unsubscribe k name s h R b s' h' :
  Linked h (focus s R) → subs_unsubscribe k id name s h = (b, s', h') →
  Linked h' (focus s' R) ∧ (Tight h → Tight h') ∧ Quiet (focus s' R) h h' ∧
  b = bool_decide (is_Some (streams k s !! name)) ∧
  (∀ k', streams k' s' = if decide (k' = k) then delete name (streams k s) else streams k' s).
Proof.
  intros HL. unfold subs_unsubscribe. destruct (streams k s !! name) as [lr|] eqn:Es.
  - intros [= <- <- <-]. pose proof HL as HL1. rewrite (focus_remove k name lr s R Es) in HL1.
    split; [by apply linked_cleanup, (linked_drop h _ k name)|]. split; [by eapply tight_unsubscribe|].
    split; [eapply quiet_trans; [by eapply quiet_drop|apply quiet_cleanup]|]. split; [done|].
    intros k'. apply streams_with_streams.
  - intros [= <- <- <-]. split; [done|]. split; [done|]. split; [done|].
    split; [done|]. intros k'. case_decide; [|done]. subst.
    by rewrite delete_id.
Qed.

(** Taking the next message of a subscription. *)
Lemma focus_poll k name lr s h R :
  Linked h (focus s R) → streams k s !! name = Some lr →
  Linked (poll_rx lr h).2 (focus s R) ∧ (Tight h → Tight (poll_rx lr h).2) ∧
  ∃ u, unread h lr = Some u ∧ (poll_rx lr h).1 = (dequeue u).1 ∧
    unread (poll_rx lr h).2 lr = Some (dequeue u).2 ∧
    Quiet (focus (with_streams k (delete name (streams k s)) s) R) h (poll_rx lr h).2.
Proof.
  intros HL Hs. assert (lr ∈ focus s R k name) as Hin.
  { unfold focus, own. rewrite Hs. set_solver. }
  destruct (linked_held _ _ _ _ _ HL Hin) as [_ [u Hu]]. destruct (poll_rx_spec h lr u Hu) as [Hi Hp].
  split; [by eapply linked_poll|]. split; [by eapply tight_poll|]. exists u.
  split; [done|]. split; [done|]. split; [by rewrite Hp, decide_True|].
  intros k' n' lr' Hin'. rewrite Hp, decide_False; [done|].
  rewrite (focus_remove k name lr s R Hs) in HL. by eapply linked_apart.
Qed.

(** One pass of the loop, then the loop. *)
Lemma focus_unsubscribe_pass k key s h R s1 h1 :
  Linked h (focus s R) → unsubscribe_pass k id (s, h) key = (s1, h1) →
  Linked h1 (focus s1 R) ∧ (Tight h → Tight h1) ∧ Quiet (focus s1 R) h h1 ∧
  (∀ k', streams k' s1 = if decide (k' = k) then delete key (streams k s) else streams k' s).
Proof.
  intros HL. pose proof (focus_unsubscribe k key s h R) as Hu. unfold subs_unsubscribe in Hu.
  unfold unsubscribe_pass. destruct (streams k s !! key) as [lr|] eqn:Es; intros [= <- <-].
  - destruct (Hu _ _ _ HL eq_refl) as (? & ? & ? & _ & ?). done.
  - split; [by apply linked_cleanup|]. split; [apply tight_cleanup|].
    split; [apply quiet_cleanup|]. intros k'. case_decide; [|done]. subst. by rewrite delete_id.
Qed.

Lemma focus_unsubscribe_loop k keys s h R s' h' :
  Linked h (focus s R) → fold_left (unsubscribe_pass k id) keys (s, h) = (s', h') →
  Linked h' (focus s' R) ∧ (Tight h → Tight h') ∧ Quiet (focus s' R) h h' ∧
  (∀ k' n, streams k' s' !! n = if decide (k' = k ∧ n ∈ keys) then None else streams k' s !! n).
Proof.
  revert s h. induction keys as [|key keys IH]; intros s h HL; cbn [fold_left].
  { intros [= <- <-]. split; [done|]. split; [done|]. split; [done|]. intros k' n. by rewrite decide_False by set_solver. }
  destruct (unsubscribe_pass k id (s, h) key) as [s1 h1] eqn:E1.
  destruct (focus_unsubscribe_pass k key s h R s1 h1 HL E1) as (HL1 & HT1 & Hq1 & Hs1). intros E2.
  destruct (IH s1 h1 HL1 E2) as (HL2 & HT2 & Hq2 & Hs2).
  assert (∀ k' n, streams k' s' !! n =
    if decide (k' = k ∧ n ∈ key :: keys) then None else streams k' s !! n) as Hs3.
  { intros k' n. rewrite Hs2, Hs1. destruct (decide (k' = k)) as [->|Hk].
    - destruct (decide (n ∈ keys)); [by rewrite !decide_True by set_solver|].
      rewrite decide_False by naive_solver. destruct (decide (n = key)) as [->|].
      + rewrite decide_True by set_solver. apply lookup_delete_eq.
      + rewrite decide_False by set_solver. by apply lookup_delete_ne.
    - by rewrite !decide_False by naive_solver. }
  split; [done|]. split; [auto|]. split; [|exact Hs3].
  eapply quiet_trans; [|done]. intros k' n lr Hin. apply (Hq1 k' n). revert Hin. unfold focus, own.
  rewrite !elem_of_app, Hs2. case_decide; [|done]. set_solver.
Qed.

(** Unsubscribing from everything of one kind. *)
Lemma focus_unsubscribe_all `{!IterationLaw} k s h R keys s' h' :
  Linked h (focus s R) → unsubscribe_all k id s h = (keys, s', h') →
  Linked h' (focus s' R) ∧ (Tight h → Tight h') ∧ Quiet (focus s' R) h h' ∧
  keys ≡ₚ (map_to_list (streams k s)).*1 ∧
  (∀ k', streams k' s' = if decide (k' = k) then ∅ else streams k' s).
Proof.
  intros HL. unfold unsubscribe_all.
  destruct (fold_left _ _ _) as [s1 h1] eqn:E. intros [= <- <- <-].
  destruct (focus_unsubscribe_loop k (iter (streams k s)).*1 s h R s1 h1 HL E) as (HL1 & HT & Hq & Hs).
  split; [done|]. split; [done|]. split; [done|]. split; [by rewrite iter_perm|].
  intros k'. apply map_eq. intros n. rewrite Hs. destruct (decide (k' = k)) as [->|Hk];
    [|by rewrite decide_False by naive_solver]. rewrite lookup_empty. case_decide as Hd; [done|].
  destruct (streams k s !! n) as [lr|] eqn:El; [|done]. exfalso. apply Hd. split; [done|].
  rewrite iter_perm. apply list_elem_of_fmap. exists (n, lr). split; [done|]. by apply elem_of_map_to_list.
Qed.

(** Dropping a list of receivers. *)
Definition holds_all (es : list ((SubKind * list Z) * (nat * Rx))) (R : SubKind → list Z → list (nat * Rx)) :=
  foldr (λ e, holds e.1.1 e.1.2 [e.2]) R es.

Lemma linked_drop_all es h R :
  Linked h (holds_all es R) →
  Linked (fold_left (λ h e, drop_rx e.2 h) es h) R ∧ Quiet R h (fold_left (λ h e, drop_rx e.2 h) es h).
Proof.
  revert h. induction es as [|e es IH]; intros h HL; [done|]. cbn [fold_left]. cbn [holds_all foldr] in HL.
  destruct (IH _ (linked_drop _ _ _ _ _ HL)) as [HL1 Hq]. split; [done|]. eapply quiet_trans; [|done].
  intros k name lr Hin. eapply (quiet_drop _ _ _ _ _ HL k name). fold (holds_all es R).
  clear -Hin. induction es as [|e' es IH]; [done|]. simpl. unfold holds at 1. case_decide; set_solver.
Qed.

Definition tagged (k : SubKind) (e : list Z * (nat * Rx)) : (SubKind * list Z) * (nat * Rx) := ((k, e.1), e.2).

Lemma holds_all_app es1 es2 R : holds_all (es1 ++ es2) R = holds_all es1 (holds_all es2 R).
Proof. apply foldr_app. Qed.

Lemma holds_all_tagged k (es : list (list Z * (nat * Rx))) R k' n :
  holds_all (tagged k <$> es) R k' n =
  (if decide (k' = k) then (List.filter (λ e, bool_decide (e.1 = n)) es).*2 else []) ++ R k' n.
Proof.
  induction es as [|e es IH]; [by destruct (decide (k' = k))|]. cbn [fmap list_fmap holds_all foldr].
  fold (holds_all (tagged k <$> es) R). unfold holds at 1. cbn [tagged fst snd]. rewrite IH. clear IH.
  destruct (decide (k' = k)) as [->|Hk]; [|by rewrite decide_False by naive_solver].
  cbn [List.filter]. destruct (decide (e.1 = n)) as [<-|Hn].
  - rewrite decide_True, bool_decide_eq_true_2 by done. done.
  - rewrite decide_False, bool_decide_eq_false_2 by naive_solver. done.
Qed.

Lemma focus_drop `{!IterationLaw} s h R :
  Linked h (focus s R) → Linked (drop_subs s h) R ∧ Quiet R h (drop_subs s h).
Proof.
  intros HL. unfold drop_subs.
  assert (fold_left (λ h (e : list Z * (nat * Rx)), drop_rx e.2 h)
      (iter (channel_streams s) ++ iter (pattern_streams s)) h =
    fold_left (λ h (e : (SubKind * list Z) * (nat * Rx)), drop_rx e.2 h)
      ((tagged Channel <$> iter (channel_streams s)) ++ (tagged Pattern <$> iter (pattern_streams s))) h) as ->.
  { rewrite !fold_left_app, !fold_left_fmap. done. }
  apply linked_drop_all. rewrite holds_all_app. revert HL. apply Linked_proper. intros k n.
  unfold focus, own. rewrite !holds_all_tagged. destruct k; cbn [streams].
  - rewrite decide_True, decide_False by done. rewrite iter_perm, filter_key.
    by destruct (channel_streams s !! n).
  - rewrite decide_False, decide_True by done. rewrite iter_perm, filter_key.
    by destruct (pattern_streams s !! n).
Qed.
End Linked.

(** ** A broadcast channel that satisfies the laws *)

Module Simple.
Record Chan : Type := mkChan {
  capacity : nat;
  queues : gmap nat (nat * list PubSubMsg)
}.

#[global] Instance simple_broadcast : Broadcast Chan nat := {
  bc_channel cap := mkChan cap ∅;
  bc_subscribe c := let r := fresh (dom (queues c)) in (r, mkChan (capacity c) (<[r := (O, [])]> (queues c)));
  bc_send m c := mkChan (capacity c) (enqueue (capacity c) m <$> queues c);
  bc_receiver_count c := size (queues c);
  bc_recv r c := match queues c !! r with
                 | Some u => ((dequeue u).1, mkChan (capacity c) (<[r := (dequeue u).2]> (queues c)))
                 | None => (None, c)
                 end;
  bc_drop r c := mkChan (capacity c) (delete r (queues c))
}.

#[global] Instance simple_laws : BroadcastLaws Chan nat queues capacity.
Proof.
  split; try done.
  - intros c. simpl. apply not_elem_of_dom, is_fresh.
  - intros r c u Hu. simpl. by rewrite Hu.
  - intros r c u Hu. simpl. by rewrite Hu.
  - intros r c. simpl. by destruct (queues c !! r).
Qed.

#[global] Instance simple_iter : Iteration := λ A m, map_to_list m.
#[global] Instance simple_iter_law : IterationLaw.
Proof. by intros A m. Qed.

#[local] Abbreviation Hub := (PubSubRegistry Chan).
#[local] Abbreviation Subs := (ConnectionSubs nat).

(** Two clients of a fresh registry: one subscribed to [news], one to [n*] and [news]. *)
Definition one : Subs * Hub :=
  let '(_, s, h) := subscribe_channel (B "news") subs_new hub_new in (s, h).
Definition two : Subs * Hub :=
  let '(_, s, h) := subscribe_pattern (B "n*") subs_new (snd one) in
  let '(_, s, h) := subscribe_channel (B "news") s h in (s, h).
Definition clients : gmap Z Subs := {[1 := fst one; 2 := fst two]}.
Definition hub : Hub := snd two.
End Simple.

(** ** Theorems *)

Section Theorems.
Context {Chan Rx : Type} `{!Broadcast Chan Rx} `{!EqDecision Rx} `{!Countable Rx} `{!Iteration, !IterationLaw}.
Context {view : Chan → gmap Rx (nat * list PubSubMsg)} {room : Chan → nat}.
Context `{!BroadcastLaws Chan Rx view room}.
Implicit Types (h : PubSubRegistry Chan) (conns : gmap Z (ConnectionSubs Rx)).

(** C34: PUBLISH reaches exactly the subscriptions that hear the channel: the clients
    subscribed to the channel itself and, for each pattern that matches it, the clients
    subscribed to that pattern. Each of their receivers gets the message behind what it
    has still to read (losing its oldest unread message, and counting it as missed, when
    512 are waiting), no other receiver changes, and the reply is the number of
    subscriptions reached, summed over the clients. An error of the transaction is
    reported and publishes nothing. The registry is assumed to agree with the connections
    before ([Linked]: each entry's receivers are those the clients hold, one channel per
    name), as it does in every state the server reaches, and agrees with them after. *)
Theorem publish_reaches_subscribers h conns channel payload reply h' :
  Linked (view:=view) (room:=room) h (held conns) →
  PublishWireOp channel payload (Ok RUnit) h = (reply, h') →
  reply = Integer (Z.of_nat (sum_list_with (hearing channel) (map_to_list conns).*2)) ∧
  (∀ c s k name lr, conns !! c = Some s → streams k s !! name = Some lr →
     ∃ u, unread (view:=view) h lr = Some u ∧
       unread (view:=view) h' lr =
         Some (if hears k name channel then enqueue BROADCAST_CAPACITY (mkMsg channel payload) u else u)) ∧
  Linked (view:=view) (room:=room) h' (held conns) ∧
  (∀ e, PublishWireOp channel payload (Err e) h = (err_resp e, h)).
Proof.
  intros HL. cbn [PublishWireOp]. pose proof (publish_count h conns channel payload HL) as Hn.
  pose proof (linked_publish h _ channel payload HL) as HL'.
  pose proof (λ k name lr u, publish_unread h _ channel payload k name lr u HL) as Hu.
  destruct (publish channel payload h) as [n h1]. cbn [fst snd] in *. intros [= <- <-].
  split; [by rewrite Hn|]. split; [|done]. intros c s k name lr Hc Hs.
  pose proof (elem_of_held conns c s k name lr Hc Hs) as Hin.
  destruct (linked_held h _ k name lr HL Hin) as [_ [u Hlr]]. exists u. split; [done|]. by apply Hu.
Qed.

(** The names with receivers that pass a test, each once. *)
Lemma active_names h conns k (f : list Z → bool) (p : list Z * nat → bool) :
  Linked (view:=view) (room:=room) h (held conns) → (∀ e, p e = has_receivers h e.2 && f e.1) →
  NoDup (List.filter p (iter (names k h))).*1 ∧
  ∀ name, name ∈ (List.filter p (iter (names k h))).*1 ↔ (0 < subscribers k name conns)%nat ∧ f name = true.
Proof.
  intros HL Hp.
  assert (∀ name l, (name, l) ∈ List.filter p (iter (names k h)) ↔
    names k h !! name = Some l ∧ has_receivers h l = true ∧ f name = true) as Hin.
  { intros name l. rewrite list_elem_of_In, filter_In, <- list_elem_of_In, iter_perm, elem_of_map_to_list, Hp.
    by rewrite andb_true_iff. }
  split.
  - apply NoDup_fmap_2_strong.
    + intros [n1 l1] [n2 l2] H1 H2 He. simpl in He. subst. apply Hin in H1 as [H1 _], H2 as [H2 _]. congruence.
    + apply NoDup_ListNoDup, List.NoDup_filter, NoDup_ListNoDup. rewrite iter_perm. apply NoDup_map_to_list.
  - intros name. rewrite list_elem_of_fmap. rewrite <- (receiver_count_held h conns k name HL). split.
    + intros ([n l] & Hn & He). simpl in Hn. subst n. apply Hin in He as (-> & Hr & Hf).
      split; [by apply Nat.ltb_lt|done].
    + intros [Hr Hf]. destruct (names k h !! name) as [l|] eqn:El; [|lia].
      exists (name, l). split; [done|]. apply Hin. split; [done|]. split; [by apply Nat.ltb_lt|done].
Qed.

(** The PUBSUB introspection tells the truth about the connected clients: NUMSUB
    gives for each channel asked for the number of clients subscribed to it, in the order
    asked; CHANNELS lists each channel with a subscriber exactly once, and with a pattern
    only those it matches; NUMPAT counts the distinct patterns with a subscriber. None of
    them changes the registry. *)
Theorem introspection_tells_subscribers h conns result chs pattern :
  Linked (view:=view) (room:=room) h (held conns) →
  NumSubOp chs result h =
    (Array (Some (flat_map (λ ch, [bulk ch; Integer (Z.of_nat (subscribers Channel ch conns))]) chs)), h) ∧
  (∃ l, ChannelsOp pattern result h = (Array (Some (bulk <$> l)), h) ∧ NoDup l ∧
     ∀ ch, ch ∈ l ↔ (0 < subscribers Channel ch conns)%nat ∧
       match pattern with Some p => is_match (glob_new p) ch = true | None => True end) ∧
  (∃ l, NumPatOp result h = (Integer (Z.of_nat (length l)), h) ∧ NoDup l ∧
     ∀ p, p ∈ l ↔ (0 < subscribers Pattern p conns)%nat).
Proof.
  intros HL. split; [|split].
  - unfold NumSubOp, numsub_value. f_equal. f_equal. f_equal. induction chs as [|ch chs IH]; [done|].
    cbn [fmap list_fmap flat_map]. rewrite IH. pose proof (receiver_count_held h conns Channel ch HL) as Hc.
    cbn [names] in Hc. rewrite <- Hc. by destruct (channels h !! ch).
  - destruct (active_names h conns Channel
      (λ ch, match pattern with Some p => is_match (glob_new p) ch | None => true end)
      (λ e, has_receivers h e.2 && match pattern with Some p => is_match (glob_new p) e.1 | None => true end)
      HL (λ e, eq_refl)) as [Hnd Hl].
    eexists. split; [done|]. split; [exact Hnd|]. intros ch. rewrite Hl. destruct pattern; naive_solver.
  - destruct (active_names h conns Pattern (λ _, true) (λ e, has_receivers h e.2) HL) as [Hnd Hl].
    { intros e. by rewrite andb_true_r. }
    eexists. split; [|split; [exact Hnd|intros p; rewrite Hl; naive_solver]].
    unfold NumPatOp, number_pattern_subscribers. by rewrite length_fmap.
Qed.
End Theorems.

(** The two clients of [Simple]. *)
Lemma sample_linked : Linked (view:=Simple.queues) (room:=Simple.capacity) Simple.hub (held Simple.clients).
Proof.
  assert (∀ (conns : gmap Z (ConnectionSubs nat)) c s h k name b s' h',
    Linked (view:=Simple.queues) (room:=Simple.capacity) h (held conns) → conns !! c = Some s →
    subs_subscribe k name s h = (b, s', h') →
    Linked (view:=Simple.queues) (room:=Simple.capacity) h' (held (<[c := s']> conns))) as Hstep.
  { intros conns c s h k name b s' h' HL Hc He. apply linked_unfocus.
    by eapply (focus_subscribe k name s h _ b s' h'); [apply linked_focus|]. }
  assert (Linked (view:=Simple.queues) (room:=Simple.capacity) hub_new (held ∅)) as HL0.
  { rewrite held_empty. apply linked_new. }
  apply (linked_connect _ 1) in HL0; [|done].
  eapply (Hstep _ 1 _ _ Channel (B "news")) in HL0; [|vm_compute; reflexivity|vm_compute; reflexivity].
  apply (linked_connect _ 2) in HL0; [|vm_compute; reflexivity].
  eapply (Hstep _ 2 _ _ Pattern (B "n*")) in HL0; [|vm_compute; reflexivity|vm_compute; reflexivity].
  eapply (Hstep _ 2 _ _ Channel (B "news")) in HL0; [|vm_compute; reflexivity|vm_compute; reflexivity].
  clear Hstep. vm_compute in HL0. vm_compute. exact HL0.
Qed.

Lemma publish_reaches_subscribers_witness :
  fst (PublishWireOp (B "news") (B "hi") (Ok RUnit) Simple.hub) = Integer 3.
Proof.
  destruct (PublishWireOp (B "news") (B "hi") (Ok RUnit) Simple.hub) as [reply h'] eqn:E.
  destruct (publish_reaches_subscribers (view:=Simple.queues) (room:=Simple.capacity)
    Simple.hub Simple.clients (B "news") (B "hi") reply h' sample_linked E) as [-> _].
  vm_compute. reflexivity.
Defined.

Lemma introspection_tells_subscribers_witness :
  fst (NumSubOp [B "news"; B "olds"] (Ok RUnit) Simple.hub) =
    Array (Some [bulk (B "news"); Integer 2; bulk (B "olds"); Integer 0]).
Proof.
  destruct (introspection_tells_subscribers (view:=Simple.queues) (room:=Simple.capacity)
    Simple.hub Simple.clients (Ok RUnit) [B "news"; B "olds"] None sample_linked) as [-> _].
  vm_compute. reflexivity.
Defined.

(** *** The race in the clean-up

    Between the check that a channel has no receivers and the removal of its entry,
    another client can subscribe to it. The removal then takes away the entry of a client
    that is subscribed, and PUBLISH on that channel no longer reaches it. *)
Lemma cleanup_race :
  let '(s1, h1) := Simple.one in
  let other := subscribe_channel (B "news") subs_new in
  let between h := snd (other h) in
  let '(_, _, h2) := unsubscribe_channel between (B "news") s1 h1 in
  let '(_, s2, _) := other (drop_rx (0%nat, 0%nat) h1) in
  is_subscribed s2 = true ∧ channels h2 = ∅ ∧
  fst (PublishWireOp (B "news") (B "hi") (Ok RUnit) h2) = Integer 0.
Proof. vm_compute. done. Qed.
