(* ===== verification/Session.v ===== *)
(** * Connections and transactions: src/redis/common/session.rs

    The per-connection [Session] (current database, MULTI queue, WATCH set), the key
    derivations commands use, and [dispatch_pending_ops], which runs a batch of
    queued commands in a transaction with the WATCH checks, the conflict retries and
    the release of claims. The store and the registry, which all connections share,
    form the [World] a dispatch changes. What other connections do to them during
    attempt [n] of the batch is the argument [env n]: it acts before the transaction
    begins, between its begin and the WATCH check, before each command, before the
    commit and between the commit and the version bump. The clock at attempt [n] is
    [clock n]. Theorems hold for every [env]. *)
From S2P Require Import Prelude Bytes Resp Kv Registry Op Namespace.

(** ** Retry budget *)

Definition DEFAULT_CONFLICT_RETRY_COUNT : nat := 16.

Record ConflictRetries : Type := mkRetries {
  attempts : nat;
  max_attempts : nat
}.

Definition retries_new (m : nat) : ConflictRetries := mkRetries 0 m.

(** [ConflictRetries::next]; the metrics counters are left out. *)
Definition retries_next (r : ConflictRetries) : option nat * ConflictRetries :=
  if (max_attempts r <=? attempts r)%nat then (None, r)
  else (Some (S (attempts r)), mkRetries (S (attempts r)) (max_attempts r)).

Definition conflict_error : RespValue := Error (B "ERR Couldn't commit transaction").

(** ** State *)

Record Session (T : Type) : Type := mkSession {
  sess_id : Z;
  current_db : Z;
  latest_write : option Z;
  pending : list (QueuedOp T);
  in_multi : bool;
  dirty_exec : bool;
  in_script : bool;
  should_close : bool;
  watched_keys : gmap (list Z) (Z * bool);
  watch_flush_epoch : Z;
  client_name : list Z;
  lib_name : list Z;
  lib_ver : list Z;
  conflict_retry_count : nat
}.
Arguments mkSession {T}.
Arguments sess_id {T} _.
Arguments current_db {T} _.
Arguments latest_write {T} _.
Arguments pending {T} _.
Arguments in_multi {T} _.
Arguments dirty_exec {T} _.
Arguments in_script {T} _.
Arguments should_close {T} _.
Arguments watched_keys {T} _.
Arguments watch_flush_epoch {T} _.
Arguments client_name {T} _.
Arguments lib_name {T} _.
Arguments lib_ver {T} _.
Arguments conflict_retry_count {T} _.

(** What all connections share. *)
Record World (S : Type) : Type := mkWorld {
  w_store : S;
  w_registry : WatchRegistry
}.
Arguments mkWorld {S} _ _.
Arguments w_store {S} _.
Arguments w_registry {S} _.

(** When other connections can act on what is shared during one attempt, and what
    they do then. *)
Inductive moment : Type :=
| BeforeBegin
| BeforeCheck
| BeforeOp (i : nat)
| BeforeCommit
| BeforeBump.

Definition Env (S : Type) : Type := moment → World S → World S.

Section Session.
Context {T : Type}.
Implicit Types (s : Session T) (op : QueuedOp T).

Definition session_new (id : Z) : Session T :=
  mkSession id 0 None [] false false false false ∅ 0 [] [] [] DEFAULT_CONFLICT_RETRY_COUNT.

(** Field updates. *)
Definition with_queue s (q : list (QueuedOp T)) : Session T :=
  mkSession (sess_id s) (current_db s) (latest_write s) q (in_multi s) (dirty_exec s) (in_script s)
    (should_close s) (watched_keys s) (watch_flush_epoch s) (client_name s) (lib_name s) (lib_ver s)
    (conflict_retry_count s).
Definition with_multi s (m d : bool) : Session T :=
  mkSession (sess_id s) (current_db s) (latest_write s) (pending s) m d (in_script s)
    (should_close s) (watched_keys s) (watch_flush_epoch s) (client_name s) (lib_name s) (lib_ver s)
    (conflict_retry_count s).
Definition with_watch s (wk : gmap (list Z) (Z * bool)) (e : Z) : Session T :=
  mkSession (sess_id s) (current_db s) (latest_write s) (pending s) (in_multi s) (dirty_exec s)
    (in_script s) (should_close s) wk e (client_name s) (lib_name s) (lib_ver s)
    (conflict_retry_count s).
Definition with_latest_write s (h : option Z) : Session T :=
  mkSession (sess_id s) (current_db s) h (pending s) (in_multi s) (dirty_exec s) (in_script s)
    (should_close s) (watched_keys s) (watch_flush_epoch s) (client_name s) (lib_name s) (lib_ver s)
    (conflict_retry_count s).

Definition set_conflict_retry_count s (count : nat) : Session T :=
  mkSession (sess_id s) (current_db s) (latest_write s) (pending s) (in_multi s) (dirty_exec s)
    (in_script s) (should_close s) (watched_keys s) (watch_flush_epoch s) (client_name s) (lib_name s)
    (lib_ver s) count.
Definition switch_db s (db : Z) : Session T :=
  mkSession (sess_id s) db (latest_write s) (pending s) (in_multi s) (dirty_exec s) (in_script s)
    (should_close s) (watched_keys s) (watch_flush_epoch s) (client_name s) (lib_name s) (lib_ver s)
    (conflict_retry_count s).
Definition set_client (s : Session T) (name lib ver : list Z) : Session T :=
  mkSession (sess_id s) (current_db s) (latest_write s) (pending s) (in_multi s) (dirty_exec s)
    (in_script s) (should_close s) (watched_keys s) (watch_flush_epoch s) name lib ver
    (conflict_retry_count s).
Definition set_client_name s (name : list Z) : Session T := set_client s name (lib_name s) (lib_ver s).
Definition set_lib_name s (name : list Z) : Session T := set_client s (client_name s) name (lib_ver s).
Definition set_lib_ver s (v : list Z) : Session T := set_client s (client_name s) (lib_name s) v.
Definition with_script s (b : bool) : Session T :=
  mkSession (sess_id s) (current_db s) (latest_write s) (pending s) (in_multi s) (dirty_exec s) b
    (should_close s) (watched_keys s) (watch_flush_epoch s) (client_name s) (lib_name s) (lib_ver s)
    (conflict_retry_count s).
Definition enter_script s : Session T := with_script s true.
Definition exit_script s : Session T := with_script s false.
Definition should_block s : bool := negb (in_multi s) && negb (in_script s).
Definition request_close s : Session T :=
  mkSession (sess_id s) (current_db s) (latest_write s) (pending s) (in_multi s) (dirty_exec s)
    (in_script s) true (watched_keys s) (watch_flush_epoch s) (client_name s) (lib_name s) (lib_ver s)
    (conflict_retry_count s).

(** ** MULTI *)

Definition clear_queue s : Session T := with_queue s [].

Definition unwatch s : Session T := with_watch s ∅ (watch_flush_epoch s).

Definition enter_multi s : Session T := with_multi s true false.

Definition exit_multi s (discard : bool) : option (Session T) :=
  if negb (in_multi s) then None
  else
    let s := with_multi s false (dirty_exec s) in
    Some (if discard then unwatch (with_multi (clear_queue s) false false) else s).

Definition mark_dirty s : Session T :=
  if in_multi s then with_multi s true true else s.

(** ** Keys *)

Definition INTERNAL_PREFIX : list Z := B "-".

Definition prefix s : list Z := to_dec (current_db s) ++ B ":".
Definition private_prefix s : list Z := INTERNAL_PREFIX ++ prefix s.
Definition public_key s (key : list Z) : list Z := prefix s ++ key.
Definition public_key_for_db (db : Z) (key : list Z) : list Z := to_dec db ++ B ":" ++ key.
Definition private_key s (key : list Z) : list Z := INTERNAL_PREFIX ++ prefix s ++ key.
Definition new_public_entry s (key value : list Z) : Entry := entry_new (public_key s key) value.
Definition new_entry_for_db (db : Z) (key value : list Z) : Entry :=
  entry_new (public_key_for_db db key) value.
Definition new_private_entry s (key value : list Z) : Entry := entry_new (private_key s key) value.

Definition key_sv s (key : list Z) : list (list Z) := [from_utf8_lossy (public_key s key)].
Definition keys_sv s (keys : list (list Z)) : list (list Z) :=
  (λ k, from_utf8_lossy (public_key s k)) <$> keys.

(** ** Queueing *)

Definition enqueue_op s op : option RespValue * Session T :=
  let s := with_queue s (pending s ++ [op]) in
  (if in_multi s then Some (SimpleString (B "QUEUED")) else None, s).

Definition enqueue_wire_op s (wire : WireOp) : option RespValue * Session T :=
  enqueue_op s (mkQueuedOp NoOp wire false true false None).

Definition needs_ssi s : bool :=
  negb (bool_decide (watched_keys s = ∅)) &&
  existsb (λ op, match op_keys op with
                 | Some ks => existsb (λ k, bool_decide (is_Some (watched_keys s !! k))) ks
                 | None => false
                 end) (pending s).

Definition needs_writable_tx s : bool := existsb is_mutating (pending s).
End Session.

(** ** Transactions *)

Section Dispatch.
Context {S T : Type} `{!TxOps T, !StoreOps S T}.
Implicit Types (s : Session T) (w : World S).

(** [Session::snapshot_and_watch]: versions come from the registry, existence from a
    snapshot begun first. A failed [begin] records every key as absent. *)
Definition watch_one (now : Z) (reg : WatchRegistry) (st : gmap (list Z) (Z * bool) * option T)
    (sk : list Z) : gmap (list Z) (Z * bool) * option T :=
  let '(wk, tx) := st in
  match tx with
  | Some t =>
      let '(r, t') := tx_get now sk t in
      (<[sk := (get_version reg sk, negb (is_err r))]> wk, Some t')
  | None => (<[sk := (get_version reg sk, false)]> wk, None)
  end.

Definition snapshot_and_watch (now : Z) s w (raw_keys : list (list Z)) : Session T * World S :=
  let reg := w_registry w in
  let '(r, st) := st_begin false Snapshot (w_store w) in
  let tx := match r with Ok t => Some t | Err _ => None end in
  let '(wk, tx) := fold_left (watch_one now reg) (keys_sv s raw_keys) (watched_keys s, tx) in
  (with_watch s wk (flush_epoch reg),
   mkWorld (match tx with Some t => st_discard t st | None => st end) reg).

(** The WATCH pre-check of versions and existence, key by key. *)
Fixpoint watch_check (now : Z) (reg : WatchRegistry) (l : list (list Z * (Z * bool))) (t : T)
  : bool * T :=
  match l with
  | [] => (true, t)
  | (key, (watched_version, existed_at_watch)) :: l' =>
      if negb (get_version reg key =? watched_version) then (false, t)
      else
        match tx_get now key t with
        | (Ok _, t') => if existed_at_watch then watch_check now reg l' t' else (false, t')
        | (Err KeyNotFound, t') => if existed_at_watch then (false, t') else watch_check now reg l' t'
        | (Err _, t') => (false, t')
        end
  end.

(** [release_claims]: returns the claims of the successful ops. *)
Fixpoint release_claims (q : list (QueuedOp T)) (outcomes : list (result DbResult DbError))
    (reg : WatchRegistry) : WatchRegistry :=
  match q, outcomes with
  | op :: q', Ok r :: outcomes' => release_claims q' outcomes' (op_release_claims (db_op op) r reg)
  | _ :: q', Err _ :: outcomes' => release_claims q' outcomes' reg
  | _, _ => reg
  end.

(** How applying the queued commands to the transaction ends. *)
Inductive ops_end : Type :=
| OpsDone (outcomes : list (result DbResult DbError)) (t : T)
| OpsConflict (outcomes : list (result DbResult DbError)) (t : T)
| OpsFailed (op : QueuedOp T) (e : DbError) (outcomes : list (result DbResult DbError)) (t : T)
| OpsPanic (t : T).

Fixpoint run_ops (env : Env S) (now : Z) (batch : bool) (q : list (QueuedOp T))
    (outcomes : list (result DbResult DbError)) (t : T) w : ops_end * World S :=
  match q with
  | [] => (OpsDone outcomes t, w)
  | op :: q' =>
      let w0 := env (BeforeOp (length outcomes)) w in
      let '((outcome, t'), reg') := run (db_op op) now t (w_registry w0) in
      let w' := mkWorld (w_store w0) reg' in
      match outcome with
      | Panic => (OpsPanic t', w')
      | Fail (Kv Conflict) => (OpsConflict outcomes t', w')
      | Fail e =>
          if batch then run_ops env now batch q' (outcomes ++ [Err e]) t' w'
          else (OpsFailed op e outcomes t', w')
      | Ret v => run_ops env now batch q' (outcomes ++ [Ok v]) t' w'
      end
  end.

(** How one pass of the ['commit] loop ends. [unwatch] says whether that return path
    clears the WATCH set. *)
Inductive attempt_end : Type :=
| Stop (replies : list RespValue) (unwatches : bool)
| Committed (outcomes : list (result DbResult DbError)) (handle : option Z)
| Retry (retries : ConflictRetries)
| AttemptPanic.

Definition nil_reply : list RespValue := [Array None].

(** Keys whose versions a commit bumps. *)
Definition changed_keys (q : list (QueuedOp T)) : list (list Z) :=
  flat_map (λ op, default [] (op_keys op)) (List.filter is_mutating q).

(** A conflict under SSI ends the batch with nil; otherwise it spends a retry. *)
Definition on_conflict (iso : TxIsolation) (retries : ConflictRetries) : attempt_end :=
  match iso with
  | SerializableSnapshot => Stop nil_reply true
  | Snapshot =>
      match retries_next retries with
      | (Some _, retries') => Retry retries'
      | (None, _) => Stop [conflict_error] false
      end
  end.

(** Abandoning the transaction, and returning the claims of an attempt. *)
Definition discarded (t : T) w : World S := mkWorld (st_discard t (w_store w)) (w_registry w).
Definition released (q : list (QueuedOp T)) (outcomes : list (result DbResult DbError)) w : World S :=
  mkWorld (w_store w) (release_claims q outcomes (w_registry w)).

(** Applies the commands and commits. *)
Definition apply_and_commit (env : Env S) (now : Z) (batch : bool) (q : list (QueuedOp T))
    (iso : TxIsolation) (retries : ConflictRetries) (t : T) w : attempt_end * World S :=
  match run_ops env now batch q [] t w with
  | (OpsPanic t', w1) => (AttemptPanic, discarded t' w1)
  | (OpsConflict outcomes t', w1) => (on_conflict iso retries, discarded t' (released q outcomes w1))
  | (OpsFailed op e outcomes t', w1) =>
      let w2 := released q outcomes w1 in
      let '(reply, reg) := wire_op op (Err e) (w_registry w2) in
      (Stop [reply] false, discarded t' (mkWorld (w_store w2) reg))
  | (OpsDone outcomes t', w1) =>
      let w2 := env BeforeCommit w1 in
      match st_commit t' (w_store w2) with
      | (Ok handle, st') =>
          let w3 := env BeforeBump (mkWorld st' (w_registry w2)) in
          (Committed outcomes handle, mkWorld (w_store w3) (bump_versions (w_registry w3) (changed_keys q)))
      | (Err Conflict, st') =>
          (on_conflict iso retries, released q outcomes (mkWorld st' (w_registry w2)))
      | (Err e, st') =>
          (Stop [Error (B "ERR " ++ kv_error_text e)] false, released q outcomes (mkWorld st' (w_registry w2)))
      end
  end.

(** One pass of the loop: begin, WATCH pre-check, apply, commit. *)
Definition attempt (env : Env S) (now : Z) (batch : bool) s (mutating : bool) (iso : TxIsolation)
    (retries : ConflictRetries) w : attempt_end * World S :=
  let w0 := env BeforeBegin w in
  match st_begin mutating iso (w_store w0) with
  | (Err e, st) => (Stop [Error (B "ERR " ++ kv_error_text e)] false, mkWorld st (w_registry w0))
  | (Ok t, st) =>
      let w1 := env BeforeCheck (mkWorld st (w_registry w0)) in
      let reg := w_registry w1 in
      if batch && negb (bool_decide (watched_keys s = ∅)) then
        if negb (flush_epoch reg =? watch_flush_epoch s) then (Stop nil_reply true, discarded t w1)
        else
          match watch_check now reg (map_to_list (watched_keys s)) t with
          | (false, t') => (Stop nil_reply true, discarded t' w1)
          | (true, t') => apply_and_commit env now batch (pending s) iso retries t' w1
          end
      else apply_and_commit env now batch (pending s) iso retries t w1
  end.

(** The ['commit] loop. [None] means that [fuel] was not enough. *)
Fixpoint commit_loop (fuel : nat) (env : nat → Env S) (clock : nat → Z) (n : nat)
    (batch : bool) s (mutating : bool) (iso : TxIsolation) (retries : ConflictRetries) w
  : option (attempt_end * World S) :=
  match fuel with
  | O => None
  | Datatypes.S fuel' =>
      match attempt (env n) (clock n) batch s mutating iso retries w with
      | (Retry retries', w') => commit_loop fuel' env clock (Datatypes.S n) batch s mutating iso retries' w'
      | r => Some r
      end
  end.

(** Renders the outcomes, in order. *)
Fixpoint render (q : list (QueuedOp T)) (outcomes : list (result DbResult DbError))
    (reg : WatchRegistry) : list RespValue * WatchRegistry :=
  match q, outcomes with
  | op :: q', o :: outcomes' =>
      let '(reply, reg') := wire_op op o reg in
      let '(replies, reg'') := render q' outcomes' reg' in
      (reply :: replies, reg'')
  | _, _ => ([], reg)
  end.

Inductive dispatch_end : Type :=
| Replied (replies : list RespValue)
| Panicked
| OutOfFuel.

(** [Session::dispatch_pending_ops]. The loop passes at most
    [conflict_retry_count + 1] times, which is the fuel it gets. *)
Definition dispatch_pending_ops (env : nat → Env S) (clock : nat → Z) (batch : bool) s w
  : dispatch_end * Session T * World S :=
  if in_multi s then (Replied [], s, w)
  else if batch && dirty_exec s then
    (Replied [Error (B "EXECABORT Transaction discarded because of previous errors.")],
     unwatch (with_multi (clear_queue s) false false), w)
  else
    match pending s with
    | [] => (Replied (if batch then [Array (Some [])] else []), s, w)
    | _ =>
        let mutating := needs_writable_tx s in
        let iso := if needs_ssi s then SerializableSnapshot else Snapshot in
        match commit_loop (Datatypes.S (conflict_retry_count s)) env clock 0 batch s mutating iso
                (retries_new (conflict_retry_count s)) w with
        | None => (OutOfFuel, s, w)
        | Some (Retry _, w') => (OutOfFuel, s, w')
        | Some (AttemptPanic, w') => (Panicked, s, w')
        | Some (Stop replies u, w') =>
            (Replied replies, if u then unwatch (clear_queue s) else clear_queue s, w')
        | Some (Committed outcomes handle, w') =>
            let '(replies, reg') := render (pending s) outcomes (w_registry w') in
            let s' := clear_queue (with_latest_write s handle) in
            (Replied (if batch then [Array (Some replies)] else replies),
             if batch then unwatch s' else s', mkWorld (w_store w') reg')
        end
    end.
End Dispatch.

(** ** Loop lemmas *)

Section DispatchLemmas.
Context {S T : Type} `{!TxOps T, !StoreOps S T}.
Implicit Types (s : Session T) (w : World S).

Lemma on_conflict_retry iso r r' :
  on_conflict iso r = Retry r' →
  (attempts r < max_attempts r)%nat ∧ attempts r' = Datatypes.S (attempts r) ∧
  max_attempts r' = max_attempts r.
Proof.
  unfold on_conflict, retries_next. destruct iso; [|done].
  destruct (Nat.leb_spec (max_attempts r) (attempts r)); [done|]. intros [= <-]. simpl. lia.
Qed.

Lemma on_conflict_cases iso r :
  (∃ r', on_conflict iso r = Retry r') ∨ (∃ u, on_conflict iso r = Stop nil_reply u) ∨
  on_conflict iso r = Stop [conflict_error] false.
Proof. unfold on_conflict. destruct iso, (retries_next r) as [[]]; eauto. Qed.

Lemma run_ops_length env now batch (q : list (QueuedOp T)) outs t w outs' t' w' :
  run_ops env now batch q outs t w = (OpsDone outs' t', w') →
  length outs' = (length outs + length q)%nat.
Proof.
  revert outs t w. induction q as [|op q IH]; intros outs t w; simpl.
  { intros [=]; subst. lia. }
  destruct (run (db_op op) now t _) as [[[v|e|] t1] reg1]; [| |done].
  - intros H%IH. rewrite H, length_app. simpl. lia.
  - assert (∀ w1, run_ops env now batch q (outs ++ [Err e]) t1 w1 = (OpsDone outs' t', w') →
      length outs' = (length outs + Datatypes.S (length q))%nat) as H.
    { intros w1 H%IH. rewrite H, length_app. simpl. lia. }
    destruct e as [[]| | |]; destruct batch; try done; apply H.
Qed.

(** How [apply_and_commit] ends: with a conflict, with a commit of all the outcomes, with a
    single reply, or with a panic. *)
Lemma apply_and_commit_end env now batch (q : list (QueuedOp T)) iso r t w :
  let e := fst (apply_and_commit env now batch q iso r t w) in
  e = on_conflict iso r ∨ e = AttemptPanic ∨ (∃ reply, e = Stop [reply] false) ∨
  ∃ outs h, e = Committed outs h ∧ length outs = length q.
Proof.
  unfold apply_and_commit.
  destruct (run_ops env now batch q [] t w) as [[outs t'|outs t'|op er outs t'|t'] w1] eqn:E; simpl; auto.
  - apply run_ops_length in E. destruct (st_commit _ _) as [[h|[]] st']; simpl; eauto 10.
  - destruct (wire_op _ _ _). simpl. eauto.
Qed.

(** The same for a whole attempt. *)
Lemma attempt_end_cases env now batch s mutating iso r w :
  let e := fst (attempt env now batch s mutating iso r w) in
  e = on_conflict iso r ∨ e = AttemptPanic ∨ (∃ reply u, e = Stop [reply] u) ∨
  ∃ outs h, e = Committed outs h ∧ length outs = length (pending s).
Proof.
  unfold attempt. destruct (st_begin _ _ _) as [[t|er] st]; simpl; [|eauto 10].
  assert (∀ t w1, let e := fst (apply_and_commit env now batch (pending s) iso r t w1) in
    e = on_conflict iso r ∨ e = AttemptPanic ∨ (∃ reply u, e = Stop [reply] u) ∨
    ∃ outs h, e = Committed outs h ∧ length outs = length (pending s)) as H.
  { intros t1 w1. destruct (apply_and_commit_end env now batch (pending s) iso r t1 w1) as [?|[?|[[? ?]|?]]];
      simpl; eauto 10. }
  destruct (batch && _); [|apply H]. unfold nil_reply. destruct (negb _); [simpl; eauto 10|].
  destruct (watch_check _ _ _ _) as [[] t']; [apply H|simpl; eauto 10].
Qed.

Lemma attempt_retry env now batch s mutating iso r w r' w' :
  attempt env now batch s mutating iso r w = (Retry r', w') → on_conflict iso r = Retry r'.
Proof.
  intros E. pose proof (attempt_end_cases env now batch s mutating iso r w) as H. rewrite E in H. simpl in H.
  destruct H as [?|[?|[(? & ? & ?)|(? & ? & ? & ?)]]]; congruence.
Qed.

(** With one unit of fuel more than the retries left, the loop ends properly. *)
Lemma commit_loop_ends fuel env clock n batch s mutating iso r w :
  (max_attempts r - attempts r < fuel)%nat →
  ∃ e w', commit_loop fuel env clock n batch s mutating iso r w = Some (e, w') ∧ ∀ r', e ≠ Retry r'.
Proof.
  revert n r w. induction fuel as [|fuel IH]; intros n r w Hf; [lia|]. simpl.
  destruct (attempt _ _ _ _ _ _ _ _) as [e w'] eqn:E. destruct e; try by eauto.
  apply attempt_retry, on_conflict_retry in E as (? & ? & ?). apply IH. lia.
Qed.

(** The loop looks at the environment only in its first passes. *)
Lemma commit_loop_env fuel env env' clock clock' n batch s mutating iso r w :
  (∀ i, (n ≤ i < n + fuel)%nat → env i = env' i ∧ clock i = clock' i) →
  commit_loop fuel env clock n batch s mutating iso r w =
  commit_loop fuel env' clock' n batch s mutating iso r w.
Proof.
  revert n r w. induction fuel as [|fuel IH]; intros n r w H; [done|]. simpl.
  destruct (H n ltac:(lia)) as [-> ->].
  destruct (attempt _ _ _ _ _ _ _ _) as [[]]; try done. apply IH. intros i Hi. apply H. lia.
Qed.

Lemma render_length (q : list (QueuedOp T)) outs reg :
  length outs = length q → length (fst (render q outs reg)) = length q.
Proof.
  revert outs reg. induction q as [|op q IH]; intros [|o outs] reg; simpl; try done.
  intros [= Hl]. destruct (wire_op op o reg) as [reply reg1].
  specialize (IH outs reg1 Hl). destruct (render q outs reg1). simpl in *. congruence.
Qed.

(** A loop that ends stops with one reply, panics, or has run every command. *)
Lemma commit_loop_cases fuel env clock n batch s mutating iso r w e w' :
  commit_loop fuel env clock n batch s mutating iso r w = Some (e, w') →
  match e with
  | Stop rs _ => length rs = 1%nat
  | Committed outs _ => length outs = length (pending s)
  | Retry _ | AttemptPanic => True
  end.
Proof.
  revert n r w. induction fuel as [|fuel IH]; intros n r w; [done|]. simpl.
  pose proof (attempt_end_cases (env n) (clock n) batch s mutating iso r w) as H.
  destruct (attempt _ _ _ _ _ _ _ _) as [e1 w1]; simpl in H.
  destruct e1 as [rs u|outs h|r'|]; try (intros [= <- <-]); [| |apply IH|done].
  - destruct H as [H|[H|[(? & ? & H)|(? & ? & H & _)]]]; try (by simplify_eq).
    destruct (on_conflict_cases iso r) as [[? H']|[[? H']|H']]; rewrite H' in H; by simplify_eq.
  - destruct H as [H|[H|[(? & ? & H)|(? & ? & H & ?)]]]; try (by simplify_eq).
    destruct (on_conflict_cases iso r) as [[? H']|[[? H']|H']]; rewrite H' in H; by simplify_eq.
Qed.
End DispatchLemmas.

(** ** Theorems *)

Import MapStore.

(** A queued [SET k v] and a session holding it, for the witnesses. *)
Definition sample_op : QueuedOp OccTx :=
  mkQueuedOp (tx_op (λ now, set now (entry_new (B "0:k") (B "v")) ≫= λ _, mret RUnit)) DefaultWire
    true true false (Some [B "0:k"]).
Definition sample_session : Session OccTx := snd (enqueue_op (session_new 1) sample_op).
Definition sample_world : World (gmap (list Z) Item) := mkWorld ∅ registry_new.
(** A session that watched [k] while it was absent, and queued [SET k v]. *)
Definition watching_session : Session OccTx :=
  with_queue (fst (snapshot_and_watch 5 (session_new 2) sample_world [B "k"])) [sample_op].

(** Nobody else acts. *)
Definition quiet (n : nat) : Env (gmap (list Z) Item) := λ _ w, w.

Definition noon (n : nat) : Z := 5.

Lemma clock_ok_5 : clock_ok 5.
Proof. unfold clock_ok. width_lia. Qed.

(** C40: dispatching a batch always ends: the conflict retries run out. *)
Theorem dispatch_terminates S T `{!TxOps T, !StoreOps S T} env clock batch (s : Session T) (w : World S) :
  fst (fst (dispatch_pending_ops env clock batch s w)) ≠ OutOfFuel.
Proof.
  unfold dispatch_pending_ops. destruct (in_multi s); [done|]. destruct (batch && _); [done|].
  destruct (pending s) eqn:Ep; [done|].
  match goal with |- context [commit_loop ?f env clock 0 batch s ?mu ?iso ?r w] =>
    destruct (commit_loop_ends f env clock 0 batch s mu iso r w) as (e & w' & -> & He)
  end.
  { simpl. lia. }
  destruct e; try done; [by destruct (render _ _ _)|]. by destruct (He retries).
Qed.

(** A batch is attempted at most [conflict_retry_count + 1] times: what happens to
    the shared state, or to the clock, from attempt [conflict_retry_count + 1] on
    cannot influence the outcome. *)
Theorem dispatch_attempts_bounded S T `{!TxOps T, !StoreOps S T} env env' clock clock' batch
    (s : Session T) (w : World S) :
  (∀ n, (n ≤ conflict_retry_count s)%nat → env n = env' n ∧ clock n = clock' n) →
  dispatch_pending_ops env clock batch s w = dispatch_pending_ops env' clock' batch s w.
Proof.
  intros H. unfold dispatch_pending_ops. destruct (in_multi s); [done|]. destruct (batch && _); [done|].
  destruct (pending s) eqn:Ep; [done|].
  rewrite (commit_loop_env _ env env' clock clock'); [done|]. intros i Hi. apply H. lia.
Qed.

Lemma dispatch_attempts_bounded_witness :
  dispatch_pending_ops quiet noon false sample_session sample_world =
  dispatch_pending_ops (λ n, if (n <=? 16)%nat then quiet n else λ _ _, mkWorld ∅ registry_new) noon false
    sample_session sample_world.
Proof.
  apply (dispatch_attempts_bounded _ _ quiet _ noon noon false sample_session sample_world).
  intros n Hn. split; [|reflexivity].
  destruct (Nat.leb_spec n 16); [reflexivity|]. simpl in Hn. unfold DEFAULT_CONFLICT_RETRY_COUNT in Hn. lia.
Defined.

(** Outside MULTI a dispatch leaves nothing queued. EXEC gets exactly one reply
    and the abort flag is cleared; a plain batch gets one reply per command, or a
    single one when it was abandoned. *)
Theorem dispatch_replies S T `{!TxOps T, !StoreOps S T} env clock batch (s : Session T) (w : World S)
    replies s' w' :
  in_multi s = false →
  dispatch_pending_ops env clock batch s w = (Replied replies, s', w') →
  pending s' = [] ∧ in_multi s' = false ∧ (batch = true → dirty_exec s' = false) ∧
  (if batch then length replies = 1%nat
   else length replies = length (pending s) ∨ length replies = 1%nat).
Proof.
  intros Hm. unfold dispatch_pending_ops. rewrite Hm.
  destruct (batch && dirty_exec s) eqn:Hd.
  { apply andb_true_iff in Hd as [-> _]. by intros [= <- <- <-]. }
  assert (batch = true → dirty_exec s = false) as Hd' by (by intros ->).
  destruct (pending s) as [|op q] eqn:Ep.
  { intros [= <- <- <-]. destruct batch; auto. }
  rewrite <- Ep. destruct (commit_loop _ env clock 0 batch s _ _ _ w) as [[e w1]|] eqn:E; [|done].
  destruct e as [rs u|outs h|r|]; try done.
  - apply commit_loop_cases in E.
    intros [= <- <- <-]. destruct u; simpl; destruct batch; auto.
  - apply commit_loop_cases in E. pose proof (render_length _ _ (w_registry w1) E) as Hr.
    destruct (render (pending s) outs (w_registry w1)) as [rs reg']. intros [= <- <- <-].
    destruct batch; simpl; auto.
Qed.

Lemma dispatch_replies_witness :
  pending (snd (fst (dispatch_pending_ops quiet noon false sample_session sample_world))) = [].
Proof.
  destruct (dispatch_pending_ops quiet noon false sample_session sample_world)
    as [[[replies| |] s'] w'] eqn:E; [|vm_compute in E; discriminate E..].
  apply (dispatch_replies _ _ quiet noon false sample_session sample_world replies s' w');
    [reflexivity|exact E].
Defined.

(** An aborted transaction runs nothing. EXEC after a command that failed to
    queue replies EXECABORT, leaves the store and the registry alone and resets the
    queue, the WATCH set and the abort flag. *)
Theorem exec_abort S T `{!TxOps T, !StoreOps S T} env clock (s : Session T) (w : World S) :
  in_multi s = false → dirty_exec s = true →
  dispatch_pending_ops env clock true s w =
    (Replied [Error (B "EXECABORT Transaction discarded because of previous errors.")],
     unwatch (with_multi (clear_queue s) false false), w).
Proof. intros Hm Hd. unfold dispatch_pending_ops. by rewrite Hm, Hd. Qed.

Lemma exec_abort_witness :
  dispatch_pending_ops quiet noon true (with_multi sample_session false true) sample_world =
    (Replied [Error (B "EXECABORT Transaction discarded because of previous errors.")],
     unwatch (with_multi (clear_queue (with_multi sample_session false true)) false false), sample_world).
Proof.
  apply (exec_abort _ _ quiet noon (with_multi sample_session false true) sample_world); reflexivity.
Defined.

(** EXEC of an empty transaction returns before the WATCH set is cleared, so the
    keys stay watched, although the WATCH set is documented as cleared after every
    EXEC. *)
Theorem empty_exec_keeps_watch S T `{!TxOps T, !StoreOps S T} env clock (s : Session T) (w : World S) :
  in_multi s = false → dirty_exec s = false → pending s = [] →
  dispatch_pending_ops env clock true s w = (Replied [Array (Some [])], s, w).
Proof. intros Hm Hd Hp. unfold dispatch_pending_ops. by rewrite Hm, Hd, Hp. Qed.

Lemma empty_exec_keeps_watch_witness :
  watched_keys (snd (fst (dispatch_pending_ops quiet noon true (with_queue watching_session []) sample_world)))
    = {[B "0:k" := (0, false)]}.
Proof.
  rewrite (empty_exec_keeps_watch _ _ quiet noon (with_queue watching_session []) sample_world);
    [vm_compute|..]; reflexivity.
Defined.

(** ** Key spaces *)
Lemma colon_split_inj (a b x y : list Z) :
  Forall (λ c, c ≠ 58) a → Forall (λ c, c ≠ 58) b → a ++ 58 :: x = b ++ 58 :: y → a = b ∧ x = y.
Proof.
  intros Ha. revert b. induction Ha as [|c a Hc _ IH]; intros b Hb; destruct Hb as [|d b Hd Hb]; simpl.
  - by intros [= ->].
  - intros [= <- _]. done.
  - intros [= -> _]. done.
  - intros [= -> H]. destruct (IH b Hb H) as [-> ->]. done.
Qed.

Lemma db_no_colon db : 0 ≤ db → Forall (λ c, c ≠ 58) (dec_nat db).
Proof.
  intros H. eapply Forall_impl; [by apply dec_nat_digits|]. intros b Hb%is_digit_bounds. lia.
Qed.

Lemma db_key_inj db1 db2 k1 k2 :
  0 ≤ db1 → 0 ≤ db2 → to_dec db1 ++ 58 :: k1 = to_dec db2 ++ 58 :: k2 → db1 = db2 ∧ k1 = k2.
Proof.
  intros H1 H2. rewrite !to_dec_nonneg by done. intros E.
  apply colon_split_inj in E as [E ->]; [|by apply db_no_colon..]. split; [|done].
  by apply dec_nat_inj.
Qed.

Lemma db_first_digit db x c l :
  0 ≤ db → to_dec db ++ x = c :: l → is_digit c = true.
Proof.
  intros H. rewrite to_dec_nonneg by done. pose proof (dec_nat_nonempty db H) as Hne.
  pose proof (dec_nat_digits db H) as Hd. destruct (dec_nat db) as [|d ds]; [done|].
  intros [= -> _]. by inversion Hd.
Qed.

(** C39: the key layout keeps its four kinds of keys apart. With non-negative database
    numbers, public and private keys determine their database and user key, no public
    key is a private one, and no key under a fresh namespace is either. *)
Theorem keyspaces_disjoint T (s1 s2 : Session T) k1 k2 id suffix :
  0 ≤ current_db s1 → 0 ≤ current_db s2 →
  (public_key s1 k1 = public_key s2 k2 → current_db s1 = current_db s2 ∧ k1 = k2) ∧
  (private_key s1 k1 = private_key s2 k2 → current_db s1 = current_db s2 ∧ k1 = k2) ∧
  public_key s1 k1 ≠ private_key s2 k2 ∧
  ∃ p, new_namespace id (private_key s2 k2) = Ok p ∧
       prefix_bytes p ++ suffix ≠ public_key s1 k1 ∧ prefix_bytes p ++ suffix ≠ private_key s1 k1.
Proof.
  intros H1 H2. unfold private_key, public_key, prefix, INTERNAL_PREFIX.
  rewrite <- !app_assoc. change (B ":") with [58]. cbn [app].
  split; [by apply db_key_inj|]. split; [intros [= E]; by apply db_key_inj|]. split.
  - intros E. pose proof (db_first_digit _ _ _ _ H1 E). done.
  - eexists. split; [by apply (new_namespace_db 45)|].
    cbn [prefix_bytes explicit_prefix]. split.
    + intros E. symmetry in E. pose proof (db_first_digit _ _ _ _ H1 E). done.
    + done.
Qed.

Lemma keyspaces_disjoint_witness :
  public_key sample_session (B "a") ≠ private_key sample_session (B "b").
Proof. apply (keyspaces_disjoint _ sample_session sample_session (B "a") (B "b") [] []); simpl; lia. Defined.

(** The layout does break for a negative database number: the public keys of
    database [-1] are the private keys of database [1]. *)
Theorem negative_db_collides T (s : Session T) k :
  public_key (switch_db s (-1)) k = private_key (switch_db s 1) k.
Proof. reflexivity. Qed.
