(* ===== verification/Atomic.v ===== *)
(** * Atomicity of batches: dispatch_pending_ops of src/redis/common/session.rs

    What a dispatched batch does to the store, while other connections act on it at
    every moment of the batch. Commands are described by their effect on an abstract
    store ([implements]); a batch is their sequence ([seq_ops]). A dispatch either
    applies nothing, or runs the whole batch on a snapshot and installs its changes in
    one step over a store in which none of the changed keys has moved since. For
    commands on one key that is linearizability. *)
From S2P Require Import Prelude Bytes Resp Kv Registry Op Session.

(** ** The atomic specification of a batch *)

(** The effect of a command on an abstract store at a time of the clock. *)
Definition Effect : Type := Z → gmap (list Z) Item → outcome DbResult DbError * gmap (list Z) Item.

(** The commands one after the other; [None] when the batch is abandoned. *)
Fixpoint seq_ops (now : Z) (batch : bool) (fs : list Effect) (outcomes : list (result DbResult DbError))
    (m : gmap (list Z) Item) : option (list (result DbResult DbError) * gmap (list Z) Item) :=
  match fs with
  | [] => Some (outcomes, m)
  | f :: fs' =>
      match f now m with
      | (Panic, _) => None
      | (Fail (Kv Conflict), _) => None
      | (Fail e, m') => if batch then seq_ops now batch fs' (outcomes ++ [Err e]) m' else None
      | (Ret v, m') => seq_ops now batch fs' (outcomes ++ [Ok v]) m'
      end
  end.

(** The keys whose contents an attempt validates against concurrent writes. *)
Definition guarded {T} (batch : bool) (s : Session T) : gset (list Z) :=
  if batch then dom (watched_keys s) else ∅.

(** Keys in addition to [K] were read. *)
Definition note_reads (K : gset (list Z)) (x : TxStart) : TxStart :=
  mkStart (ts_base x) (ts_iso x) (K ∪ ts_read x).

Section Atomic.
Context {S T : Type} `{!TxOps T, !StoreOps S T}.
Context {abs : S → gmap (list Z) Item} {raw : T → gmap (list Z) Item}.
Context {ok : TxStart → T → Prop} `{HS : !StoreLaws S T abs raw ok}.
Implicit Types (s : Session T) (w : World S).

(** The command has effect [f] in every healthy transaction. *)
Definition implements (op : QueuedOp T) (f : Effect) : Prop :=
  ∀ now x t reg, clock_ok now → ok x t → store_ok (raw t) →
    ∃ t' reg', run (db_op op) now t reg = ((fst (f now (raw t)), t'), reg') ∧ ok x t' ∧
               raw t' = snd (f now (raw t)) ∧ store_ok (raw t').

(** The [Runs] specification of a database half gives its effect. *)
Lemma implements_tx_op op f wire mu al ab ks :
  (∀ now m x, clock_ok now → store_ok m →
     Runs (raw:=raw) (ok:=ok x) (op now) m (fst (f now m)) (snd (f now m)) ∧ store_ok (snd (f now m))) →
  implements (mkQueuedOp (tx_op op) wire mu al ab ks) f.
Proof.
  intros H now x t reg Hn Ht Hs. destruct (H now (raw t) x Hn Hs) as [Hr Hs'].
  destruct (Hr t Ht eq_refl) as (t' & E & Ht' & Hr'). exists t', reg. simpl. rewrite E, Hr'. auto.
Qed.

(** ** The WATCH pre-check *)

(** Whether a watched key is as it was: same version, same existence. *)
Definition unchanged (now : Z) (reg : WatchRegistry) (m : gmap (list Z) Item)
    (key : list Z) (x : Z * bool) : Prop :=
  get_version reg key = fst x ∧ bool_decide (is_Some (live now key m)) = snd x.

Lemma watch_check_spec now reg l x t :
  clock_ok now → ok x t →
  fst (watch_check now reg l t) = true ↔ Forall (λ kx, unchanged now reg (raw t) kx.1 kx.2) l.
Proof.
  intros Hn. revert t. induction l as [|[k [v ex]] l IH]; intros t Ht; simpl; [by split|].
  rewrite Forall_cons. unfold unchanged at 1. simpl.
  destruct (Z.eqb_spec (get_version reg k) v) as [->|Hv]; simpl; [|naive_solver].
  destruct (tx_get_law (TxLaws:=store_tx_laws x) now k t Hn Ht) as (t' & -> & Ht' & Hr').
  specialize (IH t' Ht'). rewrite Hr' in IH. rewrite lookup_live_live.
  destruct (live now k (raw t)) as [i|].
  - rewrite bool_decide_eq_true_2 by eauto. destruct ex; simpl; [rewrite IH|]; naive_solver.
  - rewrite bool_decide_eq_false_2 by (by intros [? ?]). destruct ex; simpl; [|rewrite IH]; naive_solver.
Qed.

(** EXEC saw every watched key unchanged in its snapshot [m] and the registry [reg]. *)
Definition watch_held (now : Z) (batch : bool) s (reg : WatchRegistry) (m : gmap (list Z) Item) : Prop :=
  batch = true → ∀ key x, watched_keys s !! key = Some x →
    flush_epoch reg = watch_flush_epoch s ∧ unchanged now reg m key x.

(** The registry an attempt checks the WATCH set against: that of the moment after it began. *)
Definition checked_registry (env : Env S) (mutating : bool) (iso : TxIsolation) w : WatchRegistry :=
  let w0 := env BeforeBegin w in
  w_registry (env BeforeCheck (mkWorld (snd (st_begin mutating iso (w_store w0))) (w_registry w0))).

(** The isolation a dispatch asks for. *)
Definition isolation s : TxIsolation := if needs_ssi s then SerializableSnapshot else Snapshot.

(** ** One attempt *)

(** [R] relates the store before and after anything the other connections do. *)
Context (R : relation (gmap (list Z) Item)) `{!PreOrder R}.

Definition env_within (env : Env S) : Prop :=
  ∀ mo w, R (abs (w_store w)) (abs (w_store (env mo w))).

(** The commands run on the transaction's own snapshot, whatever happens to the store. *)
Lemma run_ops_seq env now batch q fs x outs t w :
  env_within env → clock_ok now → Forall2 implements q fs → ok x t → store_ok (raw t) →
  let '(e, w') := run_ops env now batch q outs t w in
  R (abs (w_store w)) (abs (w_store w')) ∧
  match e with
  | OpsDone outs' t' => ok x t' ∧ seq_ops now batch fs outs (raw t) = Some (outs', raw t')
  | OpsFailed op _ _ _ => op ∈ q
  | OpsConflict _ _ | OpsPanic _ => True
  end.
Proof.
  intros He Hn Hq. revert outs t w. induction Hq as [|op f q fs Hop Hq IH]; intros outs t w Ht Hs; simpl.
  { done. }
  specialize (He (BeforeOp (length outs)) w). set (w0 := env (BeforeOp (length outs)) w) in *.
  destruct (Hop now x t (w_registry w0) Hn Ht Hs) as (t1 & reg1 & -> & Ht1 & Hr1 & Hs1).
  destruct (f now (raw t)) as [o m1]; simpl in *. subst m1.
  assert (∀ outs1, let '(e, w') := run_ops env now batch q outs1 t1 (mkWorld (w_store w0) reg1) in
    R (abs (w_store w)) (abs (w_store w')) ∧
    match e with
    | OpsDone outs' t' => ok x t' ∧ seq_ops now batch fs outs1 (raw t1) = Some (outs', raw t')
    | OpsFailed op' _ _ _ => op' ∈ op :: q
    | OpsConflict _ _ | OpsPanic _ => True
    end) as Hrec.
  { intros outs1. specialize (IH outs1 t1 (mkWorld (w_store w0) reg1) Ht1 Hs1).
    destruct (run_ops _ _ _ _ _ _ _) as [e w']. destruct IH as [IH1 IH2].
    split; [by etrans; [exact He|]|]. destruct e; try done. by right. }
  destruct o as [v|e|]; [by apply Hrec| |done].
  destruct batch; destruct e as [[]| | |]; try (by apply Hrec); split; try done; left.
Qed.

(** The single reply of a batch that was given up: an error, nil, or the rendering of a
    command's error. *)
Definition refusal (q : list (QueuedOp T)) (replies : list RespValue) : Prop :=
  ∃ r, replies = [r] ∧ ((∃ msg, r = Error msg) ∨ r = Array None ∨
    ∃ op e reg, op ∈ q ∧ r = fst (wire_op op (Err e) reg)).

(** What an attempt on store [m] did, given the store [m'] it leaves: if it committed,
    the batch ran on the store [mb] of its beginning, checked the WATCH set against the
    registry [reg], and its changes were installed at a later moment over [mc]. *)
Definition attempt_effect (now : Z) (batch : bool) s (iso : TxIsolation) (fs : list Effect)
    (e : attempt_end) (mb : gmap (list Z) Item) (reg : WatchRegistry) (m m' : gmap (list Z) Item) : Prop :=
  match e with
  | Committed outs _ =>
      ∃ mine mc, R m mb ∧ watch_held now batch s reg mb ∧
        seq_ops now batch fs [] mb = Some (outs, mine) ∧ R mb mc ∧
        conflict_free (mkStart mb iso (guarded batch s)) mine mc ∧ R (overlay mb mine mc) m'
  | Stop replies _ => R m m' ∧ refusal (pending s) replies
  | Retry _ | AttemptPanic => R m m'
  end.

Lemma on_conflict_effect now batch s iso fs r mb reg m m' :
  R m m' → attempt_effect now batch s iso fs (on_conflict iso r) mb reg m m'.
Proof.
  intros HR. destruct (on_conflict_cases iso r) as [[? ->]|[[? ->]| ->]]; simpl; [done|..];
    split; try done; unfold refusal, nil_reply, conflict_error; eauto.
Qed.

Lemma apply_and_commit_effect env now batch s fs iso r m mb reg K t w e w' :
  env_within env → clock_ok now → Forall2 implements (pending s) fs →
  ok (mkStart mb iso K) t → raw t = mb → store_ok mb → guarded batch s ⊆ K → watch_held now batch s reg mb →
  R m mb → R mb (abs (w_store w)) →
  apply_and_commit env now batch (pending s) iso r t w = (e, w') →
  attempt_effect now batch s iso fs e mb reg m (abs (w_store w')).
Proof.
  intros He Hn Hq Ht Hr Hs HK Hw Hm1 Hm2. unfold apply_and_commit. rewrite <- Hr in Hs.
  pose proof (run_ops_seq env now batch (pending s) fs _ [] t w He Hn Hq Ht Hs) as Hseq. rewrite Hr in Hseq.
  destruct (run_ops env now batch (pending s) [] t w) as [[outs t'|outs t'|op er outs t'|t'] w1];
    destruct Hseq as [HR1 Hseq].
  - destruct Hseq as [Ht' Hseq]. pose proof (He BeforeCommit w1) as HR2.
    pose proof (commit_law t' (w_store (env BeforeCommit w1)) _ Ht') as Hc.
    set (w2 := env BeforeCommit w1) in *.
    assert (R mb (abs (w_store w2))) as Hb by (etrans; [exact Hm2|]; by etrans).
    destruct (st_commit t' (w_store w2)) as [[h|er] st']; simpl in Hc.
    + intros [= <- <-]. simpl. destruct Hc as [[Hf1 Hf2] Hc]. simpl in *.
      exists (raw t'), (abs (w_store w2)). split_and!; try done.
      * split; [done|]. simpl. intros Hi k Hk. apply Hf2; [done|]. set_solver.
      * rewrite <- Hc. apply (He BeforeBump (mkWorld st' (w_registry w2))).
    + assert (R m (abs st')) by (rewrite Hc; by etrans).
      destruct er; intros [= <- <-]; simpl; try (by apply on_conflict_effect);
        (split; [done|]; unfold refusal; eauto).
  - intros [= <- <-]. simpl. rewrite discard_law. simpl. apply on_conflict_effect.
    etrans; [exact Hm1|]. by etrans.
  - destruct (wire_op op (Err er) _) as [reply reg'] eqn:Ew. intros [= <- <-]. simpl.
    rewrite discard_law. simpl. split; [etrans; [exact Hm1|]; by etrans|].
    exists reply. split; [done|]. right. right. eexists op, er, _. split; [done|]. by rewrite Ew.
  - intros [= <- <-]. simpl. rewrite discard_law. etrans; [exact Hm1|]. by etrans.
Qed.

(** The pre-check only reads, and its reads are noted. *)
Lemma watch_check_keeps now reg l x t :
  clock_ok now → ok x t →
  ok x (snd (watch_check now reg l t)) ∧ raw (snd (watch_check now reg l t)) = raw t ∧
  (fst (watch_check now reg l t) = true →
   ok (note_reads (list_to_set l.*1) x) (snd (watch_check now reg l t))).
Proof.
  intros Hn. revert x t. induction l as [|[k [v ex]] l IH]; intros x t Ht; simpl.
  { split_and!; try done. intros _. unfold note_reads. rewrite (left_id_L ∅ (∪)). by destruct x. }
  destruct (negb _); [done|].
  destruct (tx_get_law (TxLaws:=store_tx_laws x) now k t Hn Ht) as (t' & Hg & Ht' & Hr').
  pose proof (read_law now k t x Hn Ht) as Hread. rewrite Hg in Hread |- *. simpl in Hread.
  destruct (IH x t' Ht') as (H1 & H2 & _). destruct (IH (note_read k x) t' Hread) as (_ & _ & H3).
  assert (note_reads (list_to_set l.*1) (note_read k x) = note_reads ({[k]} ∪ list_to_set l.*1) x) as Heq.
  { unfold note_reads, note_read. simpl. f_equal. set_solver. }
  rewrite Heq in H3.
  destruct (lookup_live now k (raw t)) as [i|[]]; destruct ex; simpl; rewrite <- Hr'; done.
Qed.

Lemma attempt_effect_ok env now batch s fs mutating iso r w e w' :
  env_within env → (∀ m m', R m m' → store_ok m → store_ok m') → clock_ok now →
  store_ok (abs (w_store w)) → Forall2 implements (pending s) fs →
  attempt env now batch s mutating iso r w = (e, w') →
  attempt_effect now batch s iso fs e (abs (w_store (env BeforeBegin w))) (checked_registry env mutating iso w)
    (abs (w_store w)) (abs (w_store w')).
Proof.
  intros He Hok Hn Hs Hq. unfold attempt, checked_registry. pose proof (He BeforeBegin w) as HR0.
  set (w0 := env BeforeBegin w) in *. destruct (begin_law mutating iso (w_store w0)) as [Hst Hb].
  destruct (st_begin mutating iso (w_store w0)) as [[t|er] st]; simpl in *;
    [|intros [= <- <-]; simpl; rewrite Hst; split; [done|]; unfold refusal; eauto].
  destruct (Hb t eq_refl) as [Ht Hr]. pose proof (He BeforeCheck (mkWorld st (w_registry w0))) as HR1.
  simpl in HR1. rewrite Hst in HR1. set (w1 := env BeforeCheck (mkWorld st (w_registry w0))) in *.
  assert (store_ok (abs (w_store w0))) as Hs0 by (by eapply Hok).
  destruct (batch && _) eqn:Hbw.
  - destruct (Z.eqb_spec (flush_epoch (w_registry w1)) (watch_flush_epoch s)) as [Hep|]; simpl;
      [|intros [= <- <-]; simpl; rewrite discard_law; split; [by etrans|]; unfold refusal, nil_reply; eauto].
    pose proof (watch_check_keeps now (w_registry w1) (map_to_list (watched_keys s)) _ t Hn Ht)
      as (Hk1 & Hk2 & Hk3).
    pose proof (watch_check_spec now (w_registry w1) (map_to_list (watched_keys s)) _ t Hn Ht) as [Hsp _].
    destruct (watch_check _ _ _ t) as [[] t']; simpl in *;
      [|intros [= <- <-]; simpl; rewrite discard_law; split; [by etrans|]; unfold refusal, nil_reply; eauto].
    specialize (Hk3 eq_refl). unfold note_reads in Hk3. simpl in Hk3.
    eapply apply_and_commit_effect; try done; [congruence|..].
    + rewrite (right_id_L ∅ (∪)). unfold guarded. destruct batch; [|set_solver].
      intros k [v Hk]%elem_of_dom. apply elem_of_list_to_set, list_elem_of_fmap.
      exists (k, v). split; [done|]. by apply elem_of_map_to_list.
    + intros _ key x Hx. split; [done|]. rewrite <- Hr.
      specialize (Hsp eq_refl). rewrite Forall_forall in Hsp. apply (Hsp (key, x)).
      by apply elem_of_map_to_list.
  - assert (batch = true → watched_keys s = ∅) as Hbw'.
    { intros ->. by apply negb_false_iff, bool_decide_eq_true in Hbw. }
    eapply apply_and_commit_effect; try done.
    + unfold guarded. destruct batch; [|done]. by rewrite Hbw', dom_empty_L.
    + intros Hb' key x Hx. by rewrite Hbw', lookup_empty in Hx.
Qed.

(** ** The loop *)
Lemma commit_loop_effect fuel env clock n batch s fs mutating iso r w e w' :
  (∀ n, env_within (env n)) → (∀ m m', R m m' → store_ok m → store_ok m') → (∀ n, clock_ok (clock n)) →
  Forall2 implements (pending s) fs → store_ok (abs (w_store w)) →
  commit_loop fuel env clock n batch s mutating iso r w = Some (e, w') →
  ∃ i wi, (iso = SerializableSnapshot → i = n ∧ wi = w) ∧
    attempt_effect (clock i) batch s iso fs e (abs (w_store (env i BeforeBegin wi))) (checked_registry (env i) mutating iso wi)
      (abs (w_store w)) (abs (w_store w')).
Proof.
  intros He Hok Hc Hq. revert n r w. induction fuel as [|fuel IH]; intros n r w Hs; [done|]. simpl.
  destruct (attempt _ _ _ _ _ _ _ _) as [e1 w1] eqn:E.
  pose proof (attempt_effect_ok _ _ _ _ _ _ _ _ _ _ _ (He n) Hok (Hc n) Hs Hq E) as Ha.
  destruct e1; simpl in Ha; try (intros [= <- <-]; by exists n, w).
  intros Hl%IH; [|by eapply Hok]. destruct Hl as (i & wi & _ & Hi). exists i, wi.
  split; [intros ->; by apply attempt_retry in E|].
  destruct e as [| |r'|]; simpl in *; try (by etrans); [destruct Hi; split; [by etrans|done]|].
  destruct Hi as (mine & mc & HR1 & Hrest). exists mine, mc. split; [by etrans|done].
Qed.

(** A dispatch that replied either applied nothing, or is the commit of an attempt. *)
Lemma dispatch_effect env clock batch s fs w replies s' w' :
  (∀ n, env_within (env n)) → (∀ m m', R m m' → store_ok m → store_ok m') → (∀ n, clock_ok (clock n)) →
  Forall2 implements (pending s) fs → store_ok (abs (w_store w)) →
  dispatch_pending_ops env clock batch s w = (Replied replies, s', w') →
  (R (abs (w_store w)) (abs (w_store w')) ∧ (in_multi s = true ∨ pending s = [] ∨ refusal (pending s) replies)) ∨
  ∃ n wn outs h reg, replies = (let rs := fst (render (pending s) outs reg) in
                             if batch then [Array (Some rs)] else rs) ∧
    (needs_ssi s = true → n = 0%nat ∧ wn = w) ∧
    attempt_effect (clock n) batch s (isolation s) fs (Committed outs h) (abs (w_store (env n BeforeBegin wn)))
      (checked_registry (env n) (needs_writable_tx s) (isolation s) wn) (abs (w_store w)) (abs (w_store w')).
Proof.
  intros He Hok Hc Hq Hs. unfold dispatch_pending_ops.
  destruct (in_multi s); [intros H; simplify_eq; left; split; [reflexivity|auto]|].
  destruct (batch && dirty_exec s).
  { intros H; simplify_eq. left. split; [reflexivity|]. unfold refusal. eauto 10. }
  destruct (pending s) as [|op q] eqn:Ep; [intros H; simplify_eq; left; split; [reflexivity|auto]|]. rewrite <- Ep in *.
  clear Ep op q.
  destruct (commit_loop _ env clock 0 batch s _ _ _ w) as [[e w1]|] eqn:E; [|done].
  destruct (commit_loop_effect _ env clock 0 batch s fs _ _ _ w e w1 He Hok Hc Hq Hs E) as (n & wn & Hfirst & Hn).
  destruct e as [rs u|outs h|r|]; try done.
  - intros H. simplify_eq. left. destruct Hn. auto.
  - destruct (render (pending s) outs (w_registry w1)) as [rs reg'] eqn:Er. intros H. simplify_eq. right.
    exists n, wn, outs, h, (w_registry w1). rewrite Er. split_and!; [done| |done]. intros Hssi. apply Hfirst. by rewrite Hssi.
Qed.
End Atomic.

(** ** Commands on one key *)

(** The effect depends on the item under [k] only, and changes no other. *)
Definition local_to (k : list Z) (f : Effect) : Prop :=
  ∀ now (m m' : gmap (list Z) Item), m !! k = m' !! k →
    fst (f now m) = fst (f now m') ∧ snd (f now m) !! k = snd (f now m') !! k ∧
    ∀ k' : list Z, k' ≠ k → snd (f now m) !! k' = m !! k'.

Lemma seq_ops_local (k : list Z) (now : Z) (batch : bool) (fs : list Effect) (outs outs' : list (result DbResult DbError))
    (m m' m1 : gmap (list Z) Item) :
  Forall (local_to k) fs → m !! k = m' !! k →
  seq_ops now batch fs outs m = Some (outs', m1) →
  (∀ k' : list Z, k' ≠ k → m1 !! k' = m !! k') ∧
  ∃ m1', seq_ops now batch fs outs m' = Some (outs', m1') ∧ m1' !! k = m1 !! k ∧
    ∀ k' : list Z, k' ≠ k → m1' !! k' = m' !! k'.
Proof.
  intros Hfs. revert outs m m'. induction Hfs as [|f fs Hf _ IH]; intros outs m m' Hk; simpl.
  { intros [= <- <-]. eauto. }
  destruct (Hf now m m' Hk) as (Ho & Hk1 & Hoth). destruct (Hf now m' m (eq_sym Hk)) as (_ & _ & Hoth').
  destruct (f now m) as [o m2], (f now m') as [o' m2']; simpl in *. subst o'.
  assert (∀ outs1, seq_ops now batch fs outs1 m2 = Some (outs', m1) →
    (∀ k' : list Z, k' ≠ k → m1 !! k' = m !! k') ∧
    ∃ m1', seq_ops now batch fs outs1 m2' = Some (outs', m1') ∧ m1' !! k = m1 !! k ∧
      ∀ k' : list Z, k' ≠ k → m1' !! k' = m' !! k') as Hrec.
  { intros outs1 H. destruct (IH outs1 m2 m2' Hk1 H) as (H1 & m1' & H2 & H3 & H4). split.
    - intros k' Hne. by rewrite H1, Hoth.
    - exists m1'. split_and!; try done. intros k' Hne. by rewrite H4, Hoth'. }
  destruct o as [v|e|]; [apply Hrec| |done].
  destruct batch; destruct e as [[]| | |]; try done; apply Hrec.
Qed.

(** Snapshot isolation is serializable for a batch on one key. *)
Lemma local_serializable (R : relation (gmap (list Z) Item)) (k : list Z) (now : Z) (batch : bool) (fs : list Effect)
    (outs : list (result DbResult DbError)) (mb mine mc : gmap (list Z) Item) :
  Forall (local_to k) fs → seq_ops now batch fs [] mb = Some (outs, mine) →
  (∀ k' : list Z, mine !! k' ≠ mb !! k' → mc !! k' = mb !! k') → R mb mc →
  (seq_ops now batch fs [] mb = Some (outs, mb) ∧ R mb (overlay mb mine mc)) ∨
  seq_ops now batch fs [] mc = Some (outs, overlay mb mine mc).
Proof.
  intros Hfs Hseq Hfree HR.
  destruct (seq_ops_local k now batch fs [] outs mb mb mine Hfs eq_refl Hseq) as [Hoth _].
  destruct (decide (mine !! k = mb !! k)) as [Hsame|Hdiff].
  - assert (mine = mb) as ->.
    { apply map_eq. intros k'. destruct (decide (k' = k)) as [->|]; auto. }
    left. by rewrite overlay_unchanged.
  - right. destruct (seq_ops_local k now batch fs [] outs mb mc mine Hfs (eq_sym (Hfree k Hdiff)) Hseq)
      as (_ & m1 & H1 & H2 & H3).
    rewrite H1. do 2 f_equal. apply map_eq. intros k'. rewrite lookup_overlay.
    destruct (decide (k' = k)) as [->|Hne]; [by rewrite decide_False|].
    by rewrite decide_True, H3 by auto.
Qed.

Lemma dispatch_local S T `{!TxOps T, !StoreOps S T}
    (abs : S → gmap (list Z) Item) (raw : T → gmap (list Z) Item) (ok : TxStart → T → Prop)
    (R : relation (gmap (list Z) Item)) (k : list Z)
    env clock batch (s : Session T) (fs : list Effect) (w : World S) replies s' w' :
  StoreLaws S T abs raw ok → PreOrder R → (∀ n, env_within (abs:=abs) R (env n)) →
  (∀ m m', R m m' → store_ok m → store_ok m') → (∀ n, clock_ok (clock n)) →
  Forall2 (implements (raw:=raw) (ok:=ok)) (pending s) fs → Forall (local_to k) fs →
  store_ok (abs (w_store w)) →
  dispatch_pending_ops env clock batch s w = (Replied replies, s', w') →
  (R (abs (w_store w)) (abs (w_store w')) ∧ (in_multi s = true ∨ pending s = [] ∨ refusal (pending s) replies)) ∨
  ∃ n outs reg m0 m1,
    R (abs (w_store w)) m0 ∧ seq_ops (clock n) batch fs [] m0 = Some (outs, m1) ∧
    replies = (let rs := fst (render (pending s) outs reg) in if batch then [Array (Some rs)] else rs) ∧
    R m1 (abs (w_store w')).
Proof.
  intros HS HP He Hok Hc Hq Hl Hs H.
  destruct (dispatch_effect R env clock batch s fs w replies s' w' He Hok Hc Hq Hs H)
    as [?|(n & wn & outs & h & reg & Hrep & _ & mine & mc & H1 & _ & H2 & H3 & [H4 _] & H5)]; [by left|].
  right. exists n, outs, reg. set (mb := abs (w_store (env n BeforeBegin wn))) in *.
  destruct (local_serializable R k (clock n) batch fs outs mb mine mc Hl H2 H4 H3) as [[Hm HR]|Hm].
  - exists mb, mb. split_and!; try done. by etrans.
  - exists mc, (overlay mb mine mc). split_and!; try done. by etrans.
Qed.

(** ** Theorems *)

Import MapStore.

Definition sample_effect : Effect := λ now m,
  (Ret RUnit, <[B "0:k" := item_of now (entry_new (B "0:k") (B "v"))]> m).

Lemma sample_implements : implements (raw:=occ_map) (ok:=occ_ok) sample_op sample_effect.
Proof.
  apply (implements_tx_op (raw:=occ_map) (ok:=occ_ok)). intros now m x Hn Hm.
  split; [|apply store_ok_insert; [done|apply item_of_ok]].
  pose proof (store_tx_laws (StoreLaws:=occ_laws) x).
  eapply runs_bind; [|apply runs_ret]. apply (runs_set (raw:=occ_map)); [done|]. by apply entry_ok_no_ttl.
Qed.

(** Another connection that writes a key of its own at every moment, and what it may
    do to the store. *)
Definition busy (n : nat) : Env (gmap (list Z) Item) := λ _ w,
  mkWorld (<[B "0:o" := mkItem (B "0:o") (B "x") 0 None]> (w_store w)) (w_registry w).

Definition only_o (m m' : gmap (list Z) Item) : Prop :=
  delete (B "0:o") m = delete (B "0:o") m' ∧ (store_ok m → store_ok m').

#[export] Instance only_o_preorder : PreOrder only_o.
Proof.
  split; [done|]. intros m1 m2 m3 [E1 H1] [E2 H2]. split; [congruence|auto].
Qed.

Lemma busy_within n : env_within (abs:=id) only_o (busy n).
Proof.
  intros mo w. split; simpl; [by rewrite delete_insert_eq|]. intros Hs. by apply store_ok_insert.
Qed.

(** C1: a batch takes effect atomically. Whatever other connections do to the store and
    the registry before and during every attempt, a dispatch that replies either
    applied nothing, so that the store was changed by them only, and said so (with an
    error, nil or the error of a command), or applied all of its commands: they ran one after the other on the store of one moment, the client gets
    the rendering of exactly those outcomes, and their changes were installed together
    at a later moment at which every key they change was still as they saw it. *)
Theorem dispatch_atomic S T `{!TxOps T, !StoreOps S T}
    (abs : S → gmap (list Z) Item) (raw : T → gmap (list Z) Item) (ok : TxStart → T → Prop)
    (R : relation (gmap (list Z) Item))
    env clock batch (s : Session T) (fs : list Effect) (w : World S) replies s' w' :
  StoreLaws S T abs raw ok → PreOrder R → (∀ n, env_within (abs:=abs) R (env n)) →
  (∀ m m', R m m' → store_ok m → store_ok m') → (∀ n, clock_ok (clock n)) →
  Forall2 (implements (raw:=raw) (ok:=ok)) (pending s) fs → store_ok (abs (w_store w)) →
  dispatch_pending_ops env clock batch s w = (Replied replies, s', w') →
  (R (abs (w_store w)) (abs (w_store w')) ∧ (in_multi s = true ∨ pending s = [] ∨ refusal (pending s) replies)) ∨
  ∃ n outs reg mb mine mc,
    R (abs (w_store w)) mb ∧ seq_ops (clock n) batch fs [] mb = Some (outs, mine) ∧
    replies = (let rs := fst (render (pending s) outs reg) in if batch then [Array (Some rs)] else rs) ∧
    R mb mc ∧ (∀ k : list Z, mine !! k ≠ mb !! k → mc !! k = mb !! k) ∧
    R (overlay mb mine mc) (abs (w_store w')).
Proof.
  intros HS HP He Hok Hc Hq Hs H.
  destruct (dispatch_effect R env clock batch s fs w replies s' w' He Hok Hc Hq Hs H)
    as [?|(n & wn & outs & h & reg & Hrep & _ & mine & mc & H1 & _ & H2 & H3 & [H4 _] & H5)]; [by left|].
  right. by exists n, outs, reg, (abs (w_store (env n BeforeBegin wn))), mine, mc.
Qed.

Lemma dispatch_atomic_witness :
  ∃ replies s' w', dispatch_pending_ops busy noon false sample_session sample_world
    = (Replied replies, s', w') ∧ w_store w' !! B "0:k" = Some (mkItem (B "0:k") (B "v") 0 None) ∧
    ((only_o ∅ (w_store w') ∧ (in_multi sample_session = true ∨ pending sample_session = [] ∨
        refusal (pending sample_session) replies)) ∨ ∃ n outs reg mb mine mc,
      only_o ∅ mb ∧ seq_ops (noon n) false [sample_effect] [] mb = Some (outs, mine) ∧
      replies = fst (render (pending sample_session) outs reg) ∧
      only_o mb mc ∧ (∀ k : list Z, mine !! k ≠ mb !! k → mc !! k = mb !! k) ∧
      only_o (overlay mb mine mc) (w_store w')).
Proof.
  destruct (dispatch_pending_ops busy noon false sample_session sample_world)
    as [[[replies| |] s'] w'] eqn:E; [|vm_compute in E; discriminate E..].
  exists replies, s', w'. split; [reflexivity|]. split.
  - etrans; [symmetry; exact (f_equal (λ r, w_store (snd r) !! B "0:k") E)|vm_compute; reflexivity].
  - apply (dispatch_atomic _ _ id occ_map occ_ok only_o busy noon false sample_session
           [sample_effect] sample_world replies s' w').
    + apply occ_laws.
    + apply only_o_preorder.
    + apply busy_within.
    + intros m m' [_ H]. exact H.
    + intros n. apply clock_ok_5.
    + constructor; [apply sample_implements|constructor].
    + exact store_ok_empty.
    + exact E.
Defined.

(** C7: commands on one key are linearizable. When every command of the batch reads and
    changes the same key only, a dispatch that replies either applied nothing, or
    there is one moment between its start and its end such that the batch ran on the
    store of that moment, replied what it gave there, and left the store it gave
    there; everything else that happened to the store is due to other connections. So
    concurrent increments of a counter are never lost. *)
Theorem single_key_linearizable S T `{!TxOps T, !StoreOps S T}
    (abs : S → gmap (list Z) Item) (raw : T → gmap (list Z) Item) (ok : TxStart → T → Prop)
    (R : relation (gmap (list Z) Item)) (k : list Z)
    env clock batch (s : Session T) (fs : list Effect) (w : World S) replies s' w' :
  StoreLaws S T abs raw ok → PreOrder R → (∀ n, env_within (abs:=abs) R (env n)) →
  (∀ m m', R m m' → store_ok m → store_ok m') → (∀ n, clock_ok (clock n)) →
  Forall2 (implements (raw:=raw) (ok:=ok)) (pending s) fs → Forall (local_to k) fs →
  store_ok (abs (w_store w)) →
  dispatch_pending_ops env clock batch s w = (Replied replies, s', w') →
  (R (abs (w_store w)) (abs (w_store w')) ∧ (in_multi s = true ∨ pending s = [] ∨ refusal (pending s) replies)) ∨
  ∃ n outs reg m0 m1,
    R (abs (w_store w)) m0 ∧ seq_ops (clock n) batch fs [] m0 = Some (outs, m1) ∧
    replies = (let rs := fst (render (pending s) outs reg) in if batch then [Array (Some rs)] else rs) ∧
    R m1 (abs (w_store w')).
Proof. apply dispatch_local. Qed.

Lemma single_key_linearizable_witness :
  ∃ replies s' w', dispatch_pending_ops busy noon false sample_session sample_world
    = (Replied replies, s', w') ∧
    ((only_o ∅ (w_store w') ∧ (in_multi sample_session = true ∨ pending sample_session = [] ∨
        refusal (pending sample_session) replies)) ∨ ∃ n outs reg m0 m1,
      only_o ∅ m0 ∧ seq_ops (noon n) false [sample_effect] [] m0 = Some (outs, m1) ∧
      replies = fst (render (pending sample_session) outs reg) ∧ only_o m1 (w_store w')).
Proof.
  destruct (dispatch_pending_ops busy noon false sample_session sample_world)
    as [[[replies| |] s'] w'] eqn:E; [|vm_compute in E; discriminate E..].
  exists replies, s', w'. split; [reflexivity|].
  apply (single_key_linearizable _ _ id occ_map occ_ok only_o (B "0:k") busy noon false sample_session
           [sample_effect] sample_world replies s' w').
  - apply occ_laws.
  - apply only_o_preorder.
  - apply busy_within.
  - intros m m' [_ H]. exact H.
  - intros n. apply clock_ok_5.
  - constructor; [apply sample_implements|constructor].
  - constructor; [|constructor]. intros now m m' Hk. unfold sample_effect. cbn [fst snd].
    rewrite !lookup_insert_eq. split_and!; [reflexivity|reflexivity|]. intros k' Hne.
    by rewrite lookup_insert_ne.
  - exact store_ok_empty.
  - exact E.
Defined.
