(* ===== verification/Watch.v ===== *)
(** * WATCH: optimistic locking of src/redis/common/session.rs

    What EXEC promises about the watched keys, while other connections act at every
    moment of the batch: it replies nil when one of them was written, appeared,
    vanished or expired, or when the database was flushed, and a batch under
    serializable isolation commits only while they are still as the pre-check saw
    them. Also the three ways in which a concurrent change goes unnoticed. *)
From S2P Require Import Prelude Bytes Resp Kv Registry Op Session Atomic.
Import MapStore.

(** ** A broken WATCH *)

Section Broken.
Context {S T : Type} `{!TxOps T, !StoreOps S T}.
Context {abs : S → gmap (list Z) Item} {raw : T → gmap (list Z) Item}.
Context {ok : TxStart → T → Prop} `{HS : !StoreLaws S T abs raw ok}.
Implicit Types (s : Session T) (w : World S).

(** The shared state when an attempt begins its transaction, the answer of the store,
    and the shared state when it then checks the WATCH set. *)
Definition begin_result (env : Env S) s w : result T KvError * S :=
  st_begin (needs_writable_tx s) (isolation s) (w_store (env BeforeBegin w)).
Definition checked_world (env : Env S) s w : World S :=
  env BeforeCheck (mkWorld (snd (begin_result env s w)) (w_registry (env BeforeBegin w))).

(** Some watched key, or the database, is no longer what it was. *)
Definition watch_broken (env : Env S) (now : Z) s w : Prop :=
  ∃ key x, watched_keys s !! key = Some x ∧
    (flush_epoch (w_registry (checked_world env s w)) ≠ watch_flush_epoch s ∨
     ¬ unchanged now (w_registry (checked_world env s w)) (abs (w_store (env BeforeBegin w))) key x).

(** EXEC replied nil and did nothing: the shared state is what the other connections made it. *)
Definition exec_nil (env : nat → Env S) (clock : nat → Z) s w : Prop :=
  ∃ w', dispatch_pending_ops env clock true s w = (Replied [Array None], unwatch (clear_queue s), w') ∧
    w_registry w' = w_registry (checked_world (env 0%nat) s w) ∧
    abs (w_store w') = abs (w_store (checked_world (env 0%nat) s w)).

Lemma dispatch_watch_broken env clock s w :
  clock_ok (clock 0%nat) → in_multi s = false → dirty_exec s = false → pending s ≠ [] →
  is_err (fst (begin_result (env 0%nat) s w)) = false →
  watch_broken (env 0%nat) (clock 0%nat) s w → exec_nil env clock s w.
Proof.
  intros Hn Hm Hd Hp Hbeg (key & x & Hk & Hbad). unfold exec_nil, dispatch_pending_ops. rewrite Hm, Hd. simpl.
  destruct (pending s) as [|op q] eqn:Ep; [done|]. rewrite <- Ep. clear Ep Hp op q.
  unfold attempt, checked_world, begin_result, isolation in *.
  set (iso := if needs_ssi s then SerializableSnapshot else Snapshot) in *.
  destruct (begin_law (needs_writable_tx s) iso (w_store (env 0%nat BeforeBegin w))) as [_ Hb].
  destruct (st_begin _ iso _) as [[t|er] st]; simpl in *; [|done]. destruct (Hb t eq_refl) as [Ht Hr].
  set (w1 := env 0%nat BeforeCheck _) in *.
  rewrite bool_decide_eq_false_2 by (intros Hw; by rewrite Hw, lookup_empty in Hk). simpl.
  destruct (Z.eqb_spec (flush_epoch (w_registry w1)) (watch_flush_epoch s)) as [He|He]; simpl.
  - destruct Hbad as [?|Hbad]; [done|].
    pose proof (watch_check_spec (clock 0%nat) (w_registry w1) (map_to_list (watched_keys s)) _ t Hn Ht) as [Hc _].
    destruct (watch_check _ _ _ t) as [[] t']; simpl in *.
    + destruct Hbad. rewrite Hr in Hc. specialize (Hc eq_refl).
      rewrite Forall_forall in Hc. apply (Hc (key, x)). by apply elem_of_map_to_list.
    + eexists. split; [done|]. simpl. by rewrite discard_law.
  - eexists. split; [done|]. simpl. by rewrite discard_law.
Qed.
End Broken.

(** ** Versions *)

(** Versions only grow. *)
Definition version_le (r1 r2 : WatchRegistry) : Prop :=
  ∀ k, get_version r1 k ≤ get_version r2 k.

#[export] Instance version_le_preorder : PreOrder version_le.
Proof.
  split; [intros r k; lia|]. intros r1 r2 r3 H1 H2 k. specialize (H1 k). specialize (H2 k). lia.
Qed.

Lemma get_version_bump r keys k :
  get_version (bump_versions r keys) k = get_version r k + Z.of_nat (length (List.filter (λ k', bool_decide (k' = k)) keys)).
Proof.
  unfold get_version, bump_versions. simpl. generalize (write_versions r) as m. revert r.
  induction keys as [|k0 keys IH]; intros r m; simpl; [lia|]. rewrite IH by done.
  unfold bump_one at 1. rewrite lookup_insert. case_decide as Hk; subst; simpl.
  - rewrite bool_decide_eq_true_2 by done. simpl. lia.
  - by rewrite bool_decide_eq_false_2.
Qed.

Lemma version_bump_lt r keys k : k ∈ keys → get_version r k < get_version (bump_versions r keys) k.
Proof.
  intros Hk. rewrite get_version_bump.
  assert (k ∈ List.filter (λ k', bool_decide (k' = k)) keys) as H.
  { apply list_elem_of_In, filter_In. split; [by apply list_elem_of_In|]. by apply bool_decide_eq_true. }
  destruct (List.filter _ keys); [by apply not_elem_of_nil in H|]. simpl. lia.
Qed.

Definition versions_grow {S} (env : Env S) : Prop :=
  ∀ mo w, version_le (w_registry w) (w_registry (env mo w)).

(** The commands of a queue do not lower versions. *)
Definition keeps_versions {T} (op : QueuedOp T) : Prop :=
  ∀ now t reg, version_le reg (snd (run (db_op op) now t reg)).

Lemma run_ops_versions {S T} (env : Env S) now batch (q : list (QueuedOp T)) outs t (w : World S) :
  versions_grow env → Forall keeps_versions q →
  version_le (w_registry w) (w_registry (snd (run_ops env now batch q outs t w))).
Proof.
  intros He Hq. revert outs t w. induction Hq as [|op q Hop _ IH]; intros outs t w; simpl; [done|].
  specialize (He (BeforeOp (length outs)) w). set (w0 := env (BeforeOp (length outs)) w) in *.
  specialize (Hop now t (w_registry w0)).
  destruct (run (db_op op) now t (w_registry w0)) as [[o t'] reg']; simpl in Hop.
  assert (version_le (w_registry w) reg') as Hr by (by etrans).
  assert (∀ outs', version_le (w_registry w)
    (w_registry (snd (run_ops env now batch q outs' t' (mkWorld (w_store w0) reg'))))) as H.
  { intros outs'. etrans; [exact Hr|]. apply (IH outs' t' (mkWorld (w_store w0) reg')). }
  destruct o as [v|[[]| | |]|]; simpl; try done; destruct batch; simpl; try done; apply H.
Qed.

(** A commit bumps the version of every key its mutating commands name. *)
Lemma attempt_bumps {S T} `{!TxOps T, !StoreOps S T} (env : Env S) now batch (s : Session T) mutating iso r
    (w : World S) outs h w' key op :
  versions_grow env → Forall keeps_versions (pending s) →
  attempt env now batch s mutating iso r w = (Committed outs h, w') →
  op ∈ pending s → is_mutating op = true → key ∈ default [] (op_keys op) →
  get_version (w_registry w) key < get_version (w_registry w') key.
Proof.
  intros He Hq E Hop Hmu Hkey.
  assert (key ∈ changed_keys (pending s)) as Hin.
  { unfold changed_keys. apply list_elem_of_In, in_flat_map. exists op.
    split; [|by apply list_elem_of_In]. apply filter_In. split; [by apply list_elem_of_In|done]. }
  assert (∀ t w1, apply_and_commit env now batch (pending s) iso r t w1 = (Committed outs h, w') →
    get_version (w_registry w1) key < get_version (w_registry w') key) as Hac.
  { intros t w1. unfold apply_and_commit.
    pose proof (run_ops_versions env now batch (pending s) [] t w1 He Hq key) as Hv.
    destruct (run_ops env now batch (pending s) [] t w1) as [[] w2]; simpl in Hv.
    - pose proof (He BeforeCommit w2 key). set (w3 := env BeforeCommit w2) in *.
      destruct (st_commit _ _) as [[h'|[]] st']; intros [=]; subst; simpl;
        try (by destruct (on_conflict_cases iso r) as [[? ?]|[[? ?]|?]]; congruence).
      pose proof (He BeforeBump (mkWorld st' (w_registry w3)) key). simpl in *.
      pose proof (version_bump_lt (w_registry (env BeforeBump (mkWorld st' (w_registry w3)))) _ _ Hin). lia.
    - intros [= H _]. by destruct (on_conflict_cases iso r) as [[? ?]|[[? ?]|?]]; congruence.
    - by destruct (wire_op _ _ _).
    - done. }
  revert E. unfold attempt. pose proof (He BeforeBegin w key) as H0. set (w0 := env BeforeBegin w) in *.
  destruct (st_begin _ _ _) as [[t|er] st]; [|done].
  pose proof (He BeforeCheck (mkWorld st (w_registry w0)) key) as H1. simpl in H1.
  set (w1 := env BeforeCheck _) in *.
  destruct (batch && _); [|intros E%Hac; lia]. destruct (negb _); [done|].
  destruct (watch_check _ _ _ _) as [[] t']; [intros E%Hac; lia|done].
Qed.

Lemma snapshot_watches {S T} `{!TxOps T, !StoreOps S T} now (s : Session T) (w : World S) raw_keys k :
  k ∈ keys_sv s raw_keys →
  ∃ ex, watched_keys (fst (snapshot_and_watch now s w raw_keys)) !! k =
    Some (get_version (w_registry w) k, ex).
Proof.
  intros Hk. unfold snapshot_and_watch.
  destruct (st_begin false Snapshot (w_store w)) as [r st].
  set (tx := match r with Ok t => Some t | Err _ => None end).
  assert (∀ l (acc : gmap (list Z) (Z * bool) * option T),
    (k ∈ l ∨ ∃ ex, fst acc !! k = Some (get_version (w_registry w) k, ex)) →
    ∃ ex, fst (fold_left (watch_one now (w_registry w)) l acc) !! k =
      Some (get_version (w_registry w) k, ex)) as H.
  { intros l. induction l as [|k0 l IH]; intros acc Hacc; cbn [fold_left].
    { destruct Hacc as [?%not_elem_of_nil|?]; done. }
    apply IH. destruct (decide (k0 = k)) as [->|Hne].
    - right. unfold watch_one. destruct acc as [wk [t|]];
        [destruct (tx_get now k t)|]; simpl; rewrite lookup_insert_eq; eauto.
    - destruct Hacc as [Hin|[ex Hex]]; [left; set_solver|]. right. exists ex. unfold watch_one.
      destruct acc as [wk [t|]]; [destruct (tx_get now k0 t)|]; simpl in *; by rewrite lookup_insert_ne. }
  specialize (H (keys_sv s raw_keys) (watched_keys s, tx) (or_introl Hk)).
  by destruct (fold_left _ _ _).
Qed.

(** ** Theorems *)

(** A broken WATCH aborts EXEC. If, when EXEC runs, the flush epoch has moved or
    some watched key has another write version or has appeared or vanished (expiry
    included), the client gets a nil reply, the queue and the WATCH set are cleared,
    no command has run, and the store and the registry are untouched. *)
Theorem exec_aborts_on_broken_watch S T `{!TxOps T, !StoreOps S T}
    (abs : S → gmap (list Z) Item) (raw : T → gmap (list Z) Item) (ok : TxStart → T → Prop)
    env clock (s : Session T) (w : World S) :
  StoreLaws S T abs raw ok →
  clock_ok (clock 0%nat) → in_multi s = false → dirty_exec s = false → pending s ≠ [] →
  is_err (fst (begin_result (env 0%nat) s w)) = false →
  watch_broken (abs:=abs) (env 0%nat) (clock 0%nat) s w → exec_nil (abs:=abs) env clock s w.
Proof. intros HS. by apply dispatch_watch_broken. Qed.

(** The reply of an EXEC whose WATCH is broken, and the shared state when it gives up: a
    doomed transaction is discarded and an empty one replies an empty array, both before the
    WATCH set is looked at; a store that cannot begin is reported; otherwise nil. *)
Definition refused_exec {S T} `{!TxOps T, !StoreOps S T} (env : Env S) (s : Session T) (w : World S)
  : list RespValue * World S :=
  if dirty_exec s then ([Error (B "EXECABORT Transaction discarded because of previous errors.")], w)
  else match pending s with
       | [] => ([Array (Some [])], w)
       | _ =>
           match begin_result env s w with
           | (Err e, st) => ([Error (B "ERR " ++ kv_error_text e)], mkWorld st (w_registry (env BeforeBegin w)))
           | (Ok _, _) => ([Array None], checked_world env s w)
           end
       end.

(** The same for an EXEC in any state. *)
Lemma dispatch_refused {S T} `{!TxOps T, !StoreOps S T} (abs : S → gmap (list Z) Item) (raw : T → gmap (list Z) Item)
    (ok : TxStart → T → Prop) env clock (s : Session T) (w : World S) :
  StoreLaws S T abs raw ok → clock_ok (clock 0%nat) → in_multi s = false →
  watch_broken (abs:=abs) (env 0%nat) (clock 0%nat) s w →
  let refused := refused_exec (env 0%nat) s w in
  ∃ s' w', dispatch_pending_ops env clock true s w = (Replied refused.1, s', w') ∧ pending s' = [] ∧
    w_registry w' = w_registry refused.2 ∧ abs (w_store w') = abs (w_store refused.2).
Proof.
  intros HS Hn Hm Hb. cbv zeta. unfold refused_exec. destruct (dirty_exec s) eqn:Hd.
  { unfold dispatch_pending_ops. rewrite Hm, Hd. simpl. by eexists _, _. }
  destruct (pending s) as [|op q] eqn:Ep.
  { unfold dispatch_pending_ops. rewrite Hm, Hd, Ep. simpl. by eexists _, _. }
  destruct (begin_result (env 0%nat) s w) as [[t|e] st] eqn:Eb.
  - destruct (dispatch_watch_broken (abs:=abs) env clock s w Hn Hm Hd) as (w' & H1 & H2 & H3);
      [by rewrite Ep|by rewrite Eb|done|]. by eexists _, w'.
  - unfold begin_result, isolation in Eb. unfold dispatch_pending_ops. rewrite Hm, Hd, Ep. cbn [andb commit_loop].
    unfold attempt. rewrite Eb. by eexists _, _.
Qed.

(** Another connection creates [k] in the meantime. *)
Definition intruder (n : nat) : Env (gmap (list Z) Item) := λ _ w,
  mkWorld (<[B "0:k" := mkItem (B "0:k") (B "x") 0 None]> ∅) registry_new.

Lemma exec_aborts_on_broken_watch_witness :
  fst (fst (dispatch_pending_ops intruder noon true watching_session sample_world)) = Replied [Array None].
Proof.
  destruct (exec_aborts_on_broken_watch _ _ id occ_map occ_ok
    intruder noon watching_session sample_world) as (w' & -> & _).
  - apply occ_laws.
  - apply clock_ok_5.
  - reflexivity.
  - reflexivity.
  - discriminate.
  - reflexivity.
  - exists (B "0:k"), (0, false). split; [vm_compute; reflexivity|].
    right. intros [_ H]. vm_compute in H. discriminate H.
  - reflexivity.
Defined.

(** C2: WATCH detects every committed write. If a connection watches a key, and later
    a batch with a mutating command that names the key commits and its dispatch
    completes, then the EXEC of the first connection, whenever it runs after that, runs
    none of its commands, even when the write restored the old value: the store and the
    registry are what the other connections made them, and its queue is empty. It replies
    nil, except that a transaction doomed by a parse error replies EXECABORT, an empty one
    an empty array, and one whose transaction the store cannot begin that error. *)
Theorem watch_detects_write S T `{!TxOps T, !StoreOps S T}
    (abs : S → gmap (list Z) Item) (raw : T → gmap (list Z) Item) (ok : TxStart → T → Prop)
    (sB sB' : Session T) (w : World S) raw_keys key now
    envA (sA : Session T) nowA batch mutating iso r (wA wA' : World S) outs h op
    env clock (wB : World S) :
  StoreLaws S T abs raw ok →
  key ∈ keys_sv sB raw_keys →
  version_le (w_registry w) (w_registry wA) →
  versions_grow envA → Forall keeps_versions (pending sA) →
  attempt envA nowA batch sA mutating iso r wA = (Committed outs h, wA') →
  op ∈ pending sA → is_mutating op = true → key ∈ default [] (op_keys op) →
  version_le (w_registry wA') (w_registry wB) → versions_grow (env 0%nat) →
  watched_keys sB' = watched_keys (fst (snapshot_and_watch now sB w raw_keys)) →
  in_multi sB' = false → clock_ok (clock 0%nat) →
  let refused := refused_exec (env 0%nat) sB' wB in
  ∃ s' w', dispatch_pending_ops env clock true sB' wB = (Replied refused.1, s', w') ∧ pending s' = [] ∧
    w_registry w' = w_registry refused.2 ∧ abs (w_store w') = abs (w_store refused.2).
Proof.
  intros HS Hkey Hv1 HeA Hq E Hop Hmu Hk Hv2 Hev Hwk Hm Hc.
  destruct (snapshot_watches now sB w raw_keys key Hkey) as [ex Hex]. rewrite <- Hwk in Hex.
  apply (dispatch_refused abs raw ok); try done. eexists _, _. split; [exact Hex|]. right.
  intros [Hver _]. simpl in Hver.
  pose proof (attempt_bumps _ _ _ _ _ _ _ _ _ _ _ _ _ HeA Hq E Hop Hmu Hk).
  pose proof (Hev BeforeBegin wB key).
  pose proof (Hev BeforeCheck (mkWorld (snd (begin_result (env 0%nat) sB' wB))
                (w_registry (env 0%nat BeforeBegin wB))) key) as H1. simpl in H1.
  unfold checked_world in Hver. specialize (Hv1 key). specialize (Hv2 key). lia.
Qed.

Definition writer_world : World (gmap (list Z) Item) :=
  snd (attempt (quiet 0) 5 false sample_session true Snapshot (retries_new 16) sample_world).

Lemma watch_detects_write_witness :
  fst (fst (dispatch_pending_ops quiet noon true watching_session writer_world)) = Replied [Array None].
Proof.
  destruct (watch_detects_write _ _ id occ_map occ_ok (session_new 2) watching_session
    sample_world [B "k"] (B "0:k") 5 (quiet 0) sample_session 5 false true Snapshot (retries_new 16)
    sample_world writer_world [Ok RUnit] (Some 1) sample_op quiet noon writer_world) as (s' & st & -> & _).
  - apply occ_laws.
  - vm_compute. left.
  - reflexivity.
  - intros mo w. reflexivity.
  - constructor; [|constructor]. intros now t reg. reflexivity.
  - unfold writer_world. vm_compute. reflexivity.
  - left.
  - reflexivity.
  - vm_compute. left.
  - reflexivity.
  - intros mo w. reflexivity.
  - reflexivity.
  - reflexivity.
  - apply clock_ok_5.
  - vm_compute. reflexivity.
Defined.

(** A queued command names a watched key. *)
Definition names_watched {T} (s : Session T) : Prop :=
  ∃ op ks k, op ∈ pending s ∧ op_keys op = Some ks ∧ k ∈ ks ∧ is_Some (watched_keys s !! k).

Lemma needs_ssi_watched {T} (s : Session T) : names_watched s → needs_ssi s = true.
Proof.
  intros (op & ks & k & Hop & Hks & Hk & [x Hx]). unfold needs_ssi. apply andb_true_intro. split.
  - apply negb_true_iff, bool_decide_eq_false. intros H. rewrite H, lookup_empty in Hx. discriminate.
  - apply existsb_exists. exists op. split; [by apply list_elem_of_In|]. rewrite Hks.
    apply existsb_exists. exists k. split; [by apply list_elem_of_In|]. by apply bool_decide_eq_true.
Qed.

(** C3: EXEC under serializable isolation. When the queue names a watched key, an EXEC
    that does not abort began on the store [mb] of one moment. At the next, when it checked
    the WATCH set, the flush epoch of the registry and the version of every watched key were
    those WATCH recorded; the key existed in [mb] exactly if it did for WATCH. All commands
    ran on [mb], their outcomes are the reply, and they were committed at a moment [mc] at
    which every watched key still held exactly what [mb] held: no write slipped in between
    the beginning and the commit, whatever the other connections did. *)
Theorem watch_guards_commit S T `{!TxOps T, !StoreOps S T}
    (abs : S → gmap (list Z) Item) (raw : T → gmap (list Z) Item) (ok : TxStart → T → Prop)
    (R : relation (gmap (list Z) Item))
    env clock (s : Session T) (fs : list Effect) (w : World S) replies s' w' :
  StoreLaws S T abs raw ok → PreOrder R → (∀ n, env_within (abs:=abs) R (env n)) →
  (∀ m m', R m m' → store_ok m → store_ok m') → (∀ n, clock_ok (clock n)) →
  Forall2 (implements (raw:=raw) (ok:=ok)) (pending s) fs → store_ok (abs (w_store w)) →
  names_watched s →
  dispatch_pending_ops env clock true s w = (Replied replies, s', w') →
  (R (abs (w_store w)) (abs (w_store w')) ∧ (in_multi s = true ∨ pending s = [] ∨ refusal (pending s) replies)) ∨
  let mb := abs (w_store (env 0%nat BeforeBegin w)) in
  let checked := w_registry (checked_world (env 0%nat) s w) in
  ∃ outs mine mc reg,
    seq_ops (clock 0%nat) true fs [] mb = Some (outs, mine) ∧
    replies = [Array (Some (fst (render (pending s) outs reg)))] ∧
    (∀ key v existed, watched_keys s !! key = Some (v, existed) →
       flush_epoch checked = watch_flush_epoch s ∧ get_version checked key = v ∧
       (is_Some (live (clock 0%nat) key mb) ↔ existed = true) ∧ mc !! key = mb !! key) ∧
    R mb mc ∧ R (overlay mb mine mc) (abs (w_store w')).
Proof.
  intros HS HP He Hok Hc Hq Hs Hw H. pose proof (needs_ssi_watched _ Hw) as Hssi.
  destruct (dispatch_effect R env clock true s fs w replies s' w' He Hok Hc Hq Hs H)
    as [?|(n & wn & outs & h & reg & Hrep & Hn & mine & mc & _ & Hheld & H2 & H3 & [_ H4] & H5)]; [by left|].
  right. destruct (Hn Hssi) as [-> ->]. exists outs, mine, mc, reg. split_and!; try done. intros key v ex Hx.
  destruct (Hheld eq_refl key _ Hx) as [He1 [He2 He3]]. simpl in He2, He3. split_and!; try done.
  - rewrite <- He3. by rewrite bool_decide_eq_true.
  - apply H4; [unfold isolation; by rewrite Hssi|]. by apply elem_of_dom.
Qed.

Lemma watch_guards_commit_witness :
  ∃ replies s' w', dispatch_pending_ops busy noon true watching_session sample_world
    = (Replied replies, s', w') ∧
    ((only_o ∅ (w_store w') ∧ (in_multi watching_session = true ∨ pending watching_session = [] ∨
        refusal (pending watching_session) replies)) ∨
      let mb := w_store (busy 0 BeforeBegin sample_world) in
      let checked := w_registry (checked_world (busy 0) watching_session sample_world) in
      ∃ outs mine mc reg,
      seq_ops (noon 0) true [sample_effect] [] mb = Some (outs, mine) ∧
      replies = [Array (Some (fst (render (pending watching_session) outs reg)))] ∧
      (∀ key v existed, watched_keys watching_session !! key = Some (v, existed) →
        flush_epoch checked = watch_flush_epoch watching_session ∧ get_version checked key = v ∧
        (is_Some (live (noon 0) key mb) ↔ existed = true) ∧ mc !! key = mb !! key) ∧
      only_o mb mc ∧ only_o (overlay mb mine mc) (w_store w')).
Proof.
  destruct (dispatch_pending_ops busy noon true watching_session sample_world)
    as [[[replies| |] s'] w'] eqn:E; [|vm_compute in E; discriminate E..].
  exists replies, s', w'. split; [reflexivity|].
  apply (watch_guards_commit _ _ id occ_map occ_ok only_o busy noon watching_session
           [sample_effect] sample_world replies s' w').
  - apply occ_laws.
  - apply only_o_preorder.
  - apply busy_within.
  - intros m m' [_ H]. exact H.
  - intros n. apply clock_ok_5.
  - constructor; [apply sample_implements|constructor].
  - exact store_ok_empty.
  - exists sample_op, [B "0:k"], (B "0:k"). split_and!; [by left|done|by left|vm_compute; eauto].
  - exact E.
Defined.

(** ** Unnoticed changes *)

(** A key that exists with value [x], a command that sets [key] to [value], and a
    connection that watches [k] and has queued it. *)
Definition held_world : World (gmap (list Z) Item) :=
  mkWorld {[B "0:k" := mkItem (B "0:k") (B "x") 0 None]} registry_new.
Definition put_op (key value : list Z) : QueuedOp OccTx :=
  mkQueuedOp (tx_op (λ now, set now (entry_new key value) ≫= λ _, mret RUnit)) DefaultWire
    true true false (Some [key]).
Definition watcher (op : QueuedOp OccTx) : Session OccTx :=
  with_queue (fst (snapshot_and_watch 5 (session_new 2) held_world [B "k"])) [op].
Definition writer : Session OccTx := with_queue (session_new 1) [put_op (B "0:k") (B "a")].

(** Another connection's whole dispatch, at one moment of the first attempt. *)
Definition meanwhile (at_moment : moment) (batch : bool) (s : Session OccTx) (n : nat)
  : Env (gmap (list Z) Item) :=
  λ mo w, match mo, at_moment with
          | BeforeBump, BeforeBump | BeforeCommit, BeforeCommit =>
              snd (dispatch_pending_ops quiet noon batch s w)
          | _, _ => w
          end.

(** The version of a written key is bumped only after the commit. An EXEC that runs in
    between finds the version unchanged, begins on the store that already holds the
    write, and commits over it: the write of the other connection is lost, although
    the key was watched before it. *)
Theorem watch_misses_commit_before_bump :
  let final := dispatch_pending_ops (meanwhile BeforeBump true (watcher (put_op (B "0:k") (B "v")))) noon
                 false writer held_world in
  fst (fst final) = Replied [ok_resp] ∧
  item_value <$> w_store (snd final) !! B "0:k" = Some (B "v").
Proof. vm_compute. split; reflexivity. Qed.

(** Serializable isolation is used only when a queued command names a watched key.
    With [WATCH k] and a queue that writes another key, a write to [k] between the
    check and the commit goes unnoticed; with a queue that writes [k] the same write
    makes EXEC reply nil. *)
Theorem watch_of_unqueued_key_not_guarded :
  fst (fst (dispatch_pending_ops (meanwhile BeforeCommit false writer) noon true
              (watcher (put_op (B "0:o") (B "v"))) held_world)) = Replied [Array (Some [ok_resp])] ∧
  fst (fst (dispatch_pending_ops (meanwhile BeforeCommit false writer) noon true
              (watcher (put_op (B "0:k") (B "v"))) held_world)) = Replied [Array None].
Proof. vm_compute. split; reflexivity. Qed.

(** WATCH looks a key up under its name with invalid UTF-8 replaced, so a live binary
    key is recorded as absent, and its later expiry is not a change. *)
Theorem watch_binary_key_recorded_absent :
  let m := {[ B "0:" ++ [255] := mkItem (B "0:" ++ [255]) (B "x") 0 None ]} in
  live 5 (public_key (session_new (T:=OccTx) 2) [255]) m ≠ None ∧
  map_to_list (watched_keys (fst (snapshot_and_watch 5 (session_new (T:=OccTx) 2) (mkWorld m registry_new) [[255]])))
    = [(B "0:" ++ [239; 191; 189], (0, false))].
Proof. vm_compute. split; [discriminate|reflexivity]. Qed.
