(* ===== verification/Rand.v ===== *)
(** * The pseudo-random choices of src/redis/hash.rs and src/redis/set.rs

    Both files carry the same xorshift generator, seeded at every call with the wall
    clock and a counter. The seed of the [k]-th call of an operation is the argument
    [rng k]. Proved: an index is in range, and a shuffle never indexes out of its
    vector and yields a permutation, whatever the seeds. *)
From S2P Require Import Prelude.

(** The clock, in nanoseconds, and the counter a call reads. *)
Abbreviation Seed := (Z * Z)%type (only parsing).

Definition rand_index (seed : Seed) (n : Z) : Z :=
  if n =? 0 then 0
  else
    let '(epoch, count) := seed in
    let s0 := Z.lxor (as_u64 epoch) (as_u64 (as_u64 count * 0x9e3779b97f4a7c15)) in
    let s1 := Z.lxor s0 (Z.shiftr s0 12) in
    let s2 := Z.lxor s1 (as_u64 (Z.shiftl s1 25)) in
    let s3 := Z.lxor s2 (Z.shiftr s2 27) in
    as_u64 (s3 * 0x2545f491bf4d2d2d) mod n.

(** [Vec::swap], which panics out of range. *)
Definition swap {A} (i j : nat) (l : list A) : option (list A) :=
  match l !! i, l !! j with
  | Some x, Some y => Some (<[j := x]> (<[i := y]> l))
  | _, _ => None
  end.

(** [for i in (1..n).rev()]; [k] counts the calls of [rand_index]. [None] is a panic. *)
Fixpoint shuffle (rng : nat → Seed) (i k : nat) (perm : list nat) : option (list nat) :=
  match i with
  | O => Some perm
  | S i' =>
      let j := Z.to_nat (rand_index (rng k) (as_u32 (Z.of_nat (S i)))) in
      match swap i j perm with
      | Some perm' => shuffle rng i' (S k) perm'
      | None => None
      end
  end.

Definition rand_perm (rng : nat → Seed) (n : nat) : option (list nat) := shuffle rng (n - 1) 0 (seq 0 n).

(** Indexing a vector with each of [idxs]; out of range is a panic. *)
Definition pick {A} (l : list A) (idxs : list nat) : option (list A) := mapM (λ i, l !! i) idxs.

(** [n] independent indices into a vector of length [len]. *)
Definition rand_indices (rng : nat → Seed) (len n : nat) : list nat :=
  (λ k, Z.to_nat (rand_index (rng k) (as_u32 (Z.of_nat len)))) <$> seq 0 n.

(** ** Lemmas *)
Lemma rand_index_range seed n : 0 ≤ n → 0 ≤ rand_index seed n < Z.max n 1.
Proof.
  intros Hn. unfold rand_index. destruct (Z.eqb_spec n 0); [lia|]. destruct seed as [epoch count].
  rewrite Z.max_l by lia. apply Z.mod_pos_bound. lia.
Qed.

(** An index below the length of a non-empty vector. *)
Lemma rand_index_below seed n : (0 < n)%nat → (Z.to_nat (rand_index seed (as_u32 (Z.of_nat n))) < n)%nat.
Proof.
  intros Hn. assert (0 ≤ as_u32 (Z.of_nat n) ≤ Z.of_nat n).
  { unfold as_u32. pose proof (Z.mod_pos_bound (Z.of_nat n) (2 ^ 32) ltac:(lia)).
    pose proof (Z.mod_le (Z.of_nat n) (2 ^ 32) ltac:(lia) ltac:(lia)). lia. }
  pose proof (rand_index_range seed (as_u32 (Z.of_nat n)) ltac:(lia)). lia.
Qed.

Lemma swap_permutation {A} i j (l : list A) :
  (i < length l)%nat → (j < length l)%nat → ∃ l', swap i j l = Some l' ∧ l' ≡ₚ l.
Proof.
  intros Hi Hj. unfold swap.
  destruct (lookup_lt_is_Some_2 l i Hi) as [x Hx], (lookup_lt_is_Some_2 l j Hj) as [y Hy].
  rewrite Hx, Hy. eexists. split; [done|]. by apply Permutation_insert_swap.
Qed.

Lemma shuffle_permutation rng i k perm :
  (i < length perm)%nat ∨ i = 0%nat → ∃ perm', shuffle rng i k perm = Some perm' ∧ perm' ≡ₚ perm.
Proof.
  revert k perm. induction i as [|i IH]; intros k perm Hi; [by exists perm|]. cbn [shuffle].
  destruct (swap_permutation (S i) (Z.to_nat (rand_index (rng k) (as_u32 (Z.of_nat (S (S i)))))) perm)
    as (p1 & -> & Hp1); [lia| |].
  { pose proof (rand_index_below (rng k) (S (S i)) ltac:(lia)). lia. }
  destruct (IH (S k) p1) as (p2 & -> & Hp2).
  { left. rewrite Hp1. lia. }
  exists p2. split; [done|]. by rewrite Hp2.
Qed.

Lemma rand_perm_permutation rng n : ∃ perm, rand_perm rng n = Some perm ∧ perm ≡ₚ seq 0 n.
Proof. apply shuffle_permutation. rewrite length_seq. lia. Qed.

(** Picking is defined exactly on indices in range. *)
Lemma pick_Some {A} (l : list A) idxs :
  Forall (λ i, (i < length l)%nat) idxs → ∃ out, pick l idxs = Some out ∧ Forall2 (λ i x, l !! i = Some x) idxs out.
Proof.
  intros H. destruct (mapM (λ i, l !! i) idxs) as [out|] eqn:E.
  - exists out. split; [done|]. by apply mapM_Some.
  - apply mapM_None, Exists_exists in E as (i & Hi & Hl). rewrite Forall_forall in H.
    apply lookup_ge_None in Hl. specialize (H i Hi). lia.
Qed.

(** Distinct indices of a duplicate-free vector pick distinct values. *)
Lemma pick_nodup {A} (l : list A) idxs out :
  NoDup l → NoDup idxs → Forall2 (λ i x, l !! i = Some x) idxs out → NoDup out.
Proof.
  intros Hl Hi H. induction H as [|i x idxs out Hx H IH]; [constructor|].
  apply NoDup_cons in Hi as [Hn Hi]. constructor; [|auto]. intros (j & Hj)%list_elem_of_lookup.
  destruct (Forall2_lookup_r _ _ _ _ _ H Hj) as (i' & Hi' & Hx').
  pose proof (NoDup_lookup _ _ _ _ Hl Hx Hx') as ->. apply Hn. by eapply list_elem_of_lookup_2.
Qed.

Lemma picked_elem {A} (l : list A) idxs out :
  Forall2 (λ i x, l !! i = Some x) idxs out → ∀ x, x ∈ out → x ∈ l.
Proof.
  intros H x (j & Hj)%list_elem_of_lookup. destruct (Forall2_lookup_r _ _ _ _ _ H Hj) as (i & _ & Hi).
  by eapply list_elem_of_lookup_2.
Qed.

(** Sampling without replacement: [n] distinct positions. *)
Lemma sample_distinct {A} rng (l : list A) n :
  NoDup l → (n ≤ length l)%nat →
  ∃ perm out, rand_perm rng (length l) = Some perm ∧ pick l (take n perm) = Some out ∧
    length out = n ∧ NoDup out ∧ ∀ x, x ∈ out → x ∈ l.
Proof.
  intros Hl Hn. destruct (rand_perm_permutation rng (length l)) as (perm & E & Hp).
  destruct (pick_Some l (take n perm)) as (out & Ho & H).
  { apply Forall_take, Forall_forall. intros i. rewrite Hp, elem_of_seq. lia. }
  exists perm, out. split_and!; try done.
  - rewrite <- (Forall2_length _ _ _ H), length_take, Hp, length_seq. lia.
  - eapply pick_nodup; [done| |done]. eapply sublist_NoDup; [|apply sublist_take]. rewrite Hp. apply NoDup_seq.
  - by eapply picked_elem.
Qed.

(** Sampling with replacement never leaves the vector. *)
Lemma sample_independent {A} rng (l : list A) n :
  l ≠ [] → ∃ out, pick l (rand_indices rng (length l) n) = Some out ∧ length out = n ∧ ∀ x, x ∈ out → x ∈ l.
Proof.
  intros Hl. destruct (pick_Some l (rand_indices rng (length l) n)) as (out & Ho & H).
  { apply Forall_fmap, Forall_forall. intros k _. apply rand_index_below. destruct l; simpl; [done|lia]. }
  exists out. split_and!; [done| |by eapply picked_elem].
  rewrite <- (Forall2_length _ _ _ H). unfold rand_indices. by rewrite length_fmap, length_seq.
Qed.
