(* ===== verification/Linked.v ===== *)
(** * The in-memory chain of a list: [random_key], [ListNode] and [Linked] of src/redis/list.rs

    A list is loaded into a map from node keys to nodes with links to their neighbours,
    changed there, and written back. Proved: every operation on the chain is the
    corresponding operation on a sequence of keys and values ([chain]): the links agree
    in both directions, head, tail and size are those of the sequence, and every node
    that left the chain is on the [removed] list. Node keys are never the all-zero key
    that stands for a missing link, and differ from call to call. *)
From S2P Require Import Prelude Bytes.

Definition KEY_LENGTH : nat := 16.

(** ** Node keys *)

Definition is_zero_key (key : list Z) : bool := forallb (λ b, b =? 0) key.
Definition to_opt_key (bytes : list Z) : option (list Z) := if is_zero_key bytes then None else Some bytes.

(** One step of the generator on its 64-bit state: the new state and the word drawn. *)
Definition xorshift (state : Z) : Z :=
  let s1 := Z.lxor state (Z.shiftr state 12) in
  let s2 := Z.lxor s1 (as_u64 (Z.shiftl s1 25)) in
  Z.lxor s2 (Z.shiftr s2 27).
Definition scramble (state : Z) : Z := as_u64 (state * 0x2545f491bf4d2d2d).

(** [random_key] at the nanosecond [epoch], as the call number [count]. *)
Definition random_key (epoch count : Z) : list Z :=
  let state := Z.lxor epoch (as_u64 (count * 0x9e3779b97f4a7c15)) in
  let s1 := xorshift state in
  let s2 := xorshift s1 in
  let key := be_bytes 8 (scramble s1) ++ be_bytes 8 (scramble s2) in
  if is_zero_key key then <[0%nat := 1]> key else key.

(** ** The chain *)

Record ListNode : Type := mkNode {
  ln_key : list Z;
  ln_value : list Z;
  ln_prev : option (list Z);
  ln_next : option (list Z)
}.
Definition with_prev (q : option (list Z)) (n : ListNode) : ListNode :=
  mkNode (ln_key n) (ln_value n) q (ln_next n).
Definition with_next (q : option (list Z)) (n : ListNode) : ListNode :=
  mkNode (ln_key n) (ln_value n) (ln_prev n) q.
Definition with_value (v : list Z) (n : ListNode) : ListNode :=
  mkNode (ln_key n) v (ln_prev n) (ln_next n).

Record Linked : Type := mkLinked {
  ll_size : Z;
  ll_head : option (list Z);
  ll_tail : option (list Z);
  ll_nodes : gmap (list Z) ListNode;
  ll_removed : list (list Z)
}.

Definition new_empty : Linked := mkLinked 0 None None ∅ [].

(** [if let Some(k) = k { if let Some(n) = nodes.get_mut(&k) { n.prev = q } }], and for [next]. *)
Definition set_prev (k q : option (list Z)) (nodes : gmap (list Z) ListNode) : gmap (list Z) ListNode :=
  match k with Some k => alter (with_prev q) k nodes | None => nodes end.
Definition set_next (k q : option (list Z)) (nodes : gmap (list Z) ListNode) : gmap (list Z) ListNode :=
  match k with Some k => alter (with_next q) k nodes | None => nodes end.

Definition next_of (nodes : gmap (list Z) ListNode) (k : list Z) : option (list Z) :=
  nodes !! k ≫= ln_next.

(** Walks over the chain take no more steps than there are nodes; [None] for a walk that
    does not end, which a chain whose links form a cycle makes the code do. *)
Definition walk_fuel (ll : Linked) : nat := S (S (size (ll_nodes ll))).

Fixpoint ordered_from (fuel : nat) (nodes : gmap (list Z) ListNode) (cur : option (list Z))
  : option (list (list Z)) :=
  match cur, fuel with
  | None, _ => Some []
  | Some _, O => None
  | Some k, S fuel' => cons k <$> ordered_from fuel' nodes (next_of nodes k)
  end.
Definition ordered_keys (ll : Linked) : option (list (list Z)) :=
  ordered_from (walk_fuel ll) (ll_nodes ll) (ll_head ll).

(** [self.size += 1] and [self.size.saturating_sub(1)] on a [u32]. *)
Definition size_inc (n : Z) : Z := as_u32 (n + 1).
Definition size_dec (n : Z) : Z := Z.max 0 (n - 1).

Definition add_first (key value : list Z) (ll : Linked) : Linked :=
  let next := ll_head ll in
  let nodes := set_prev next (Some key) (ll_nodes ll) in
  let tail := match next with Some _ => ll_tail ll | None => Some key end in
  mkLinked (size_inc (ll_size ll)) (Some key) tail (<[key := mkNode key value None next]> nodes) (ll_removed ll).

Definition add_last (key value : list Z) (ll : Linked) : Linked :=
  let prev := ll_tail ll in
  let nodes := set_next prev (Some key) (ll_nodes ll) in
  let head := match prev with Some _ => ll_head ll | None => Some key end in
  mkLinked (size_inc (ll_size ll)) head (Some key) (<[key := mkNode key value prev None]> nodes) (ll_removed ll).

Definition remove_first (ll : Linked) : option (list Z) * Linked :=
  match ll_head ll with
  | None => (None, ll)
  | Some head =>
      match ll_nodes ll !! head with
      | None => (None, ll)
      | Some node =>
          let nodes := delete head (ll_nodes ll) in
          let new_head := ln_next node in
          (Some (ln_value node),
           mkLinked (size_dec (ll_size ll)) new_head
             (match new_head with Some _ => ll_tail ll | None => None end)
             (set_prev new_head None nodes) (ll_removed ll ++ [head]))
      end
  end.

Definition remove_last (ll : Linked) : option (list Z) * Linked :=
  match ll_tail ll with
  | None => (None, ll)
  | Some tail =>
      match ll_nodes ll !! tail with
      | None => (None, ll)
      | Some node =>
          let nodes := delete tail (ll_nodes ll) in
          let new_tail := ln_prev node in
          (Some (ln_value node),
           mkLinked (size_dec (ll_size ll)) (match new_tail with Some _ => ll_head ll | None => None end)
             new_tail (set_next new_tail None nodes) (ll_removed ll ++ [tail]))
      end
  end.

(** A node taken out: its neighbours [prev] and [next] linked to each other. *)
Definition unlink (k : list Z) (prev next : option (list Z)) (ll : Linked) : Linked :=
  mkLinked (size_dec (ll_size ll)) (ll_head ll) (ll_tail ll)
    (delete k (set_prev next prev (set_next prev next (ll_nodes ll)))) (ll_removed ll ++ [k]).

Definition holds (ll : Linked) (k value : list Z) : bool :=
  match ll_nodes ll !! k with Some n => bool_decide (ln_value n = value) | None => false end.

Fixpoint remove_matching_loop (fuel : nat) (count : Z) (value : list Z) (removed : Z)
    (new_head prev cur : option (list Z)) (ll : Linked) : option (Z * Linked) :=
  match cur, fuel with
  | None, _ => Some (removed, mkLinked (ll_size ll) new_head prev (ll_nodes ll) (ll_removed ll))
  | Some _, O => None
  | Some k, S fuel' =>
      let next := next_of (ll_nodes ll) k in
      if holds ll k value && ((count =? 0) || (removed <? count)) then
        remove_matching_loop fuel' count value (removed + 1) new_head prev next (unlink k prev next ll)
      else
        remove_matching_loop fuel' count value removed
          (match new_head with None => Some k | Some _ => new_head end) (Some k) next ll
  end.
Definition remove_matching (count : Z) (value : list Z) (ll : Linked) : option (Z * Linked) :=
  remove_matching_loop (walk_fuel ll) count value 0 None None (ll_head ll) ll.

Fixpoint from_tail_loop (target : Z) (value : list Z) (removed : Z) (keys : list (list Z)) (ll : Linked)
  : Z * Linked :=
  match keys with
  | [] => (removed, ll)
  | k :: keys' =>
      if target <=? removed then (removed, ll)
      else
        match ll_nodes ll !! k with
        | Some n =>
            if bool_decide (ln_value n = value)
            then from_tail_loop target value (removed + 1) keys' (unlink k (ln_prev n) (ln_next n) ll)
            else from_tail_loop target value removed keys' ll
        | None => from_tail_loop target value removed keys' ll
        end
  end.

(** [keys.iter().copied().find(|k| nodes.contains_key(k))]. *)
Definition find_key (nodes : gmap (list Z) ListNode) (keys : list (list Z)) : option (list Z) :=
  List.find (λ k, bool_decide (is_Some (nodes !! k))) keys.

Definition remove_matching_from_tail (count : Z) (value : list Z) (ll : Linked) : option (Z * Linked) :=
  keys ← ordered_keys ll;
  let target := as_u64 (as_i64 (- count)) in
  let '(removed, ll') := from_tail_loop target value 0 (reverse keys) ll in
  Some (removed,
    mkLinked (ll_size ll') (find_key (ll_nodes ll') keys) (find_key (ll_nodes ll') (reverse keys))
      (ll_nodes ll') (ll_removed ll')).

(** [trim_to]: the loop over the enumerated keys, then the new head, tail and size. *)
Record Trim : Type := mkTrim { tr_head : option (list Z); tr_tail : option (list Z); tr_prev : option (list Z) }.

Fixpoint trim_loop (start stop i : Z) (keys : list (list Z)) (st : Trim) (ll : Linked) : Trim * Linked :=
  match keys with
  | [] => (st, ll)
  | k :: keys' =>
      if (i <? start) || (stop <? i) then
        trim_loop start stop (i + 1) keys' st
          (mkLinked (ll_size ll) (ll_head ll) (ll_tail ll) (delete k (ll_nodes ll)) (ll_removed ll ++ [k]))
      else
        let nodes := alter (λ n, with_next None (with_prev (tr_prev st) n)) k (ll_nodes ll) in
        let nodes := set_next (tr_prev st) (Some k) nodes in
        trim_loop start stop (i + 1) keys'
          (mkTrim (match tr_head st with None => Some k | Some _ => tr_head st end) (Some k) (Some k))
          (mkLinked (ll_size ll) (ll_head ll) (ll_tail ll) nodes (ll_removed ll))
  end.

Definition trim_to (start stop : Z) (ll : Linked) : option Linked :=
  keys ← ordered_keys ll;
  let '(st, ll') := trim_loop start stop 0 keys (mkTrim None None None) ll in
  Some (mkLinked (as_u32 (stop - start + 1)) (tr_head st) (tr_tail st) (ll_nodes ll') (ll_removed ll')).

(** [insert] with the node key it draws; [None] inside for a pivot that is not there. *)
Definition insert_at (new_key : list Z) (before : bool) (pivot_key : list Z) (pivot_prev pivot_next : option (list Z))
    (value : list Z) (ll : Linked) : Linked :=
  let node := mkNode new_key value
    (if before then pivot_prev else Some pivot_key) (if before then Some pivot_key else pivot_next) in
  let nodes := <[new_key := node]> (ll_nodes ll) in
  if before then
    mkLinked (size_inc (ll_size ll)) (match pivot_prev with Some _ => ll_head ll | None => Some new_key end)
      (ll_tail ll) (set_prev (Some pivot_key) (Some new_key) (set_next pivot_prev (Some new_key) nodes)) (ll_removed ll)
  else
    mkLinked (size_inc (ll_size ll)) (ll_head ll) (match pivot_next with Some _ => ll_tail ll | None => Some new_key end)
      (set_next (Some pivot_key) (Some new_key) (set_prev pivot_next (Some new_key) nodes)) (ll_removed ll).

Definition insert (new_key : list Z) (before : bool) (pivot value : list Z) (ll : Linked) : option (bool * Linked) :=
  keys ← ordered_keys ll;
  match List.find (λ k, holds ll k pivot) keys with
  | None => Some (false, ll)
  | Some pivot_key =>
      match ll_nodes ll !! pivot_key with
      | None => Some (false, ll)
      | Some p => Some (true, insert_at new_key before pivot_key (ln_prev p) (ln_next p) value ll)
      end
  end.

(** [for _ in 0..n { cur = match cur { Some(k) => nodes.get(&k).and_then(|n| n.next), None => None } }]. *)
Definition walk (nodes : gmap (list Z) ListNode) (n : nat) (cur : option (list Z)) : option (list Z) :=
  Nat.iter n (λ cur, cur ≫= next_of nodes) cur.

(** ** The nodes of a sequence *)

(** The key before or after a sequence: of its first or last element, or what is outside. *)
Definition first_key (l : list (list Z * list Z)) (next : option (list Z)) : option (list Z) :=
  match l with [] => next | (k, _) :: _ => Some k end.
Fixpoint last_key (prev : option (list Z)) (l : list (list Z * list Z)) : option (list Z) :=
  match l with [] => prev | (k, _) :: l' => last_key (Some k) l' end.

(** A segment of the chain, linked to [prev] before it and [next] after it. *)
Fixpoint nodes_of (prev : option (list Z)) (l : list (list Z * list Z)) (next : option (list Z))
  : gmap (list Z) ListNode :=
  match l with
  | [] => ∅
  | (k, v) :: l' => <[k := mkNode k v prev (first_key l' next)]> (nodes_of (Some k) l' next)
  end.

(** [ll] is the chain of [l]; of the nodes [old] that it was loaded with, those that are
    no longer in it are recorded as removed. *)
Record chain (old : list (list Z)) (l : list (list Z * list Z)) (ll : Linked) : Prop := {
  ch_distinct : NoDup l.*1;
  ch_nodes : ll_nodes ll = nodes_of None l None;
  ch_head : ll_head ll = first_key l None;
  ch_tail : ll_tail ll = last_key None l;
  ch_size : ll_size ll = Z.of_nat (length l);
  ch_removed k : k ∈ old → k ∈ l.*1 ∨ k ∈ ll_removed ll
}.

Lemma first_key_app l1 l2 n : first_key (l1 ++ l2) n = first_key l1 (first_key l2 n).
Proof. by destruct l1 as [|[]]. Qed.
Lemma last_key_app p l1 l2 : last_key p (l1 ++ l2) = last_key (last_key p l1) l2.
Proof. revert p. induction l1 as [|[k v] l1 IH]; intros p; simpl; auto. Qed.
Lemma last_key_elem p l : l ≠ [] → ∃ k, last_key p l = Some k ∧ k ∈ l.*1.
Proof.
  destruct l as [|[k v] l] using rev_ind; [done|]. intros _. exists k. rewrite last_key_app, fmap_app.
  split; [done|]. set_solver.
Qed.

Lemma nodes_app p l1 l2 n :
  nodes_of p (l1 ++ l2) n = nodes_of p l1 (first_key l2 n) ∪ nodes_of (last_key p l1) l2 n.
Proof.
  revert p. induction l1 as [|[k v] l1 IH]; intros p; simpl; [by rewrite map_empty_union|].
  by rewrite IH, insert_union_l, first_key_app.
Qed.

Lemma nodes_none k p l n : k ∉ l.*1 → nodes_of p l n !! k = None.
Proof.
  revert p. induction l as [|[k' v] l IH]; intros p Hk; [done|]. simpl in *.
  rewrite lookup_insert_ne by set_solver. apply IH. set_solver.
Qed.
Lemma nodes_some k p l n : k ∈ l.*1 → is_Some (nodes_of p l n !! k).
Proof.
  revert p. induction l as [|[k' v] l IH]; intros p Hk; simpl in *; [set_solver|].
  destruct (decide (k = k')) as [->|]; [rewrite lookup_insert_eq; eauto|].
  rewrite lookup_insert_ne by done. apply IH. set_solver.
Qed.

Lemma nodes_mid p l1 k v l2 n :
  k ∉ l1.*1 → nodes_of p (l1 ++ (k, v) :: l2) n !! k = Some (mkNode k v (last_key p l1) (first_key l2 n)).
Proof.
  intros Hk. rewrite nodes_app, lookup_union_r by (by apply nodes_none). simpl. apply lookup_insert_eq.
Qed.

Lemma size_nodes p l n : NoDup l.*1 → size (nodes_of p l n) = length l.
Proof.
  revert p. induction l as [|[k v] l IH]; intros p Hd; [apply map_size_empty|]. simpl in *.
  apply NoDup_cons in Hd as [Hk Hd]. by rewrite map_size_insert_None, IH by (done || by apply nodes_none).
Qed.

Lemma alter_union_l {A} (f : A → A) (k : list Z) (m1 m2 : gmap (list Z) A) :
  is_Some (m1 !! k) → alter f k (m1 ∪ m2) = alter f k m1 ∪ m2.
Proof.
  intros [a Ha]. apply map_eq. intros j. rewrite lookup_alter, !lookup_union, lookup_alter.
  case_decide; [subst; by rewrite Ha; simpl; destruct (m2 !! _)|done].
Qed.
Lemma alter_union_r {A} (f : A → A) (k : list Z) (m1 m2 : gmap (list Z) A) :
  m1 !! k = None → alter f k (m1 ∪ m2) = m1 ∪ alter f k m2.
Proof.
  intros Ha. apply map_eq. intros j. rewrite lookup_alter, !lookup_union, lookup_alter.
  case_decide; [subst; rewrite Ha; simpl; by destruct (m2 !! _)|done].
Qed.

(** Links at the ends of a segment. *)
Lemma set_prev_first q p l n : set_prev (first_key l None) q (nodes_of p l n) = nodes_of q l n.
Proof. destruct l as [|[k v] l]; [done|]. simpl. by rewrite alter_insert_eq. Qed.

Lemma set_next_last q p l n : NoDup l.*1 → set_next (last_key None l) q (nodes_of p l n) = nodes_of p l q.
Proof.
  destruct l as [|[k v] l] using rev_ind; [done|]. clear IHl. rewrite fmap_app. intros (_ & Hk & _)%NoDup_app.
  rewrite last_key_app, !nodes_app. simpl. rewrite alter_union_r; [by rewrite alter_insert_eq|].
  apply nodes_none. intros Hin. apply (Hk _ Hin). set_solver.
Qed.

Lemma set_next_union q p l1 x M :
  NoDup l1.*1 → set_next (last_key None l1) q (nodes_of p l1 x ∪ M) = nodes_of p l1 q ∪ M.
Proof.
  intros Hd. rewrite <- (set_next_last q p l1 x) by done. destruct l1 as [|kv l1]; [done|].
  destruct (last_key_elem None (kv :: l1)) as (k & -> & Hk); [done|]. cbn [set_next].
  apply alter_union_l. by apply nodes_some.
Qed.
Lemma set_prev_union q y l2 n M :
  (∀ k, k ∈ l2.*1 → M !! k = None) →
  set_prev (first_key l2 None) q (M ∪ nodes_of y l2 n) = M ∪ nodes_of q l2 n.
Proof.
  intros Hk. rewrite <- (set_prev_first q y l2 n). destruct l2 as [|[k v] l2]; [done|].
  cbn [first_key set_prev]. apply alter_union_r, Hk. by left.
Qed.

(** Two segments joined. *)
Lemma join_nodes l1 l2 x y :
  NoDup (l1 ++ l2).*1 →
  set_prev (first_key l2 None) (last_key None l1)
    (set_next (last_key None l1) (first_key l2 None) (nodes_of None l1 x ∪ nodes_of y l2 None))
  = nodes_of None (l1 ++ l2) None.
Proof.
  rewrite fmap_app. intros (H1 & H12 & H2)%NoDup_app. rewrite nodes_app, set_next_union by done.
  apply set_prev_union. intros k Hk. apply nodes_none. intros Hin. by apply (H12 _ Hin).
Qed.

Lemma delete_set_prev k a q nodes : a ≠ Some k → delete k (set_prev a q nodes) = set_prev a q (delete k nodes).
Proof. destruct a as [a|]; [|done]. intros Hne. cbn. rewrite delete_alter_ne; [done|congruence]. Qed.
Lemma delete_set_next k a q nodes : a ≠ Some k → delete k (set_next a q nodes) = set_next a q (delete k nodes).
Proof. destruct a as [a|]; [|done]. intros Hne. cbn. rewrite delete_alter_ne; [done|congruence]. Qed.

Lemma first_key_notin k l : k ∉ l.*1 → first_key l None ≠ Some k.
Proof. destruct l as [|[k' v] l]; simpl; [done|]. intros Hk [= ->]. apply Hk. by left. Qed.
Lemma last_key_notin k l : k ∉ l.*1 → last_key None l ≠ Some k.
Proof.
  destruct l as [|kv l]; [done|]. intros Hk. destruct (last_key_elem None (kv :: l)) as (k' & -> & Hin); [done|].
  by intros [= ->].
Qed.

(** A node taken out of the middle. *)
Lemma unlink_nodes l1 k v l2 ll :
  NoDup (l1 ++ (k, v) :: l2).*1 → ll_nodes ll = nodes_of None (l1 ++ (k, v) :: l2) None →
  ll_nodes (unlink k (last_key None l1) (first_key l2 None) ll) = nodes_of None (l1 ++ l2) None.
Proof.
  rewrite fmap_app. intros Hd Hn. simpl in *. apply NoDup_app in Hd as (H1 & H12 & H2).
  apply NoDup_cons in H2 as [Hk H2].
  assert (k ∉ l1.*1) as Hk1 by (intros Hin; apply (H12 _ Hin); by left).
  rewrite Hn, delete_set_prev, delete_set_next by (by apply first_key_notin || by apply last_key_notin).
  rewrite nodes_app, delete_union. cbn [nodes_of].
  rewrite delete_id, delete_insert_id by (by apply nodes_none). apply join_nodes.
  rewrite fmap_app. apply NoDup_app. split_and!; [done| |done]. intros j Hj Hj'. apply (H12 _ Hj). by right.
Qed.

Lemma as_u32_size n : Z.of_nat n < 2 ^ 32 → as_u32 (Z.of_nat n) = Z.of_nat n.
Proof. intros H. apply as_u32_small. lia. Qed.

(** ** The operations on sequences *)
Lemma chain_empty : chain [] [] new_empty.
Proof. split; try done; [apply NoDup_nil_2|]. by intros k ?%not_elem_of_nil. Qed.

Lemma add_first_chain old k v l ll :
  chain old l ll → k ∉ l.*1 → Z.of_nat (length l) + 1 < 2 ^ 32 → chain old ((k, v) :: l) (add_first k v ll).
Proof.
  intros [Hd Hn Hh Ht Hs Hr] Hk Hlt. unfold add_first. split; simpl.
  - by apply NoDup_cons.
  - by rewrite Hn, Hh, set_prev_first.
  - done.
  - rewrite Hh, Ht. by destruct l as [|[]].
  - unfold size_inc. rewrite Hs, as_u32_small; lia.
  - intros j Hj. destruct (Hr j Hj); [left; by right|by right].
Qed.

Lemma add_last_chain old k v l ll :
  chain old l ll → k ∉ l.*1 → Z.of_nat (length l) + 1 < 2 ^ 32 → chain old (l ++ [(k, v)]) (add_last k v ll).
Proof.
  intros [Hd Hn Hh Ht Hs Hr] Hk Hlt. unfold add_last. split; simpl.
  - rewrite fmap_app. apply NoDup_app. split_and!; [done|set_solver|apply NoDup_singleton].
  - rewrite Hn, Ht, set_next_last by done. rewrite nodes_app. cbn [nodes_of first_key].
    rewrite insert_empty. by apply insert_union_singleton_r, nodes_none.
  - rewrite Hh, Ht, first_key_app. destruct l as [|kv l]; [done|].
    by destruct (last_key_elem None (kv :: l)) as (? & -> & _); [|destruct kv].
  - by rewrite last_key_app.
  - unfold size_inc. rewrite Hs, as_u32_small, length_app; simpl; lia.
  - intros j Hj. rewrite fmap_app. destruct (Hr j Hj); [left; set_solver|by right].
Qed.

Lemma remove_first_chain old k v l ll :
  chain old ((k, v) :: l) ll → ∃ ll', remove_first ll = (Some v, ll') ∧ chain old l ll'.
Proof.
  intros [Hd Hn Hh Ht Hs Hr]. unfold remove_first. rewrite Hh. cbn [first_key]. rewrite Hn. simpl in *.
  apply NoDup_cons in Hd as [Hk Hd]. rewrite lookup_insert_eq. eexists. split; [done|]. split; simpl.
  - done.
  - by rewrite delete_insert_id, set_prev_first by (by apply nodes_none).
  - done.
  - rewrite Ht. by destruct l as [|[]].
  - unfold size_dec. rewrite Hs. simpl. lia.
  - intros j Hj. apply Hr in Hj as [Hj|Hj]; set_solver.
Qed.

Lemma remove_last_chain old k v l ll :
  chain old (l ++ [(k, v)]) ll → ∃ ll', remove_last ll = (Some v, ll') ∧ chain old l ll'.
Proof.
  intros [Hd Hn Hh Ht Hs Hr]. unfold remove_last. rewrite Ht, last_key_app. cbn [last_key].
  rewrite fmap_app in Hd, Hr. apply NoDup_app in Hd as (Hd & Hdk & _).
  assert (k ∉ l.*1) as Hk by (intros Hin; apply (Hdk _ Hin); by left).
  rewrite Hn, nodes_mid by done. eexists. split; [done|]. split; simpl.
  - done.
  - rewrite nodes_app, delete_union. cbn [nodes_of]. rewrite delete_insert_eq, delete_empty, map_union_empty.
    rewrite delete_id by (by apply nodes_none). by apply set_next_last.
  - rewrite Hh, first_key_app. destruct l as [|kv l]; [done|].
    by destruct (last_key_elem None (kv :: l)) as (? & -> & _); [|destruct kv].
  - done.
  - unfold size_dec. rewrite Hs, length_app. simpl. lia.
  - intros j Hj. apply Hr in Hj as [Hj|Hj]; set_solver.
Qed.

Lemma remove_empty old ll : chain old [] ll → remove_first ll = (None, ll) ∧ remove_last ll = (None, ll).
Proof. intros [_ _ Hh Ht _ _]. unfold remove_first, remove_last. by rewrite Hh, Ht. Qed.

(** Walking the chain lists its keys. *)
Lemma next_of_mid l1 k v l2 :
  k ∉ l1.*1 → next_of (nodes_of None (l1 ++ (k, v) :: l2) None) k = first_key l2 None.
Proof. intros Hk. unfold next_of. by rewrite nodes_mid. Qed.

Lemma NoDup_mid {A} (l1 l2 : list A) x : NoDup (l1 ++ x :: l2) → (x ∉ l1) ∧ (x ∉ l2) ∧ NoDup (l1 ++ l2).
Proof.
  intros (H1 & H12 & H2)%NoDup_app. apply NoDup_cons in H2 as [Hx H2].
  split_and!; [intros Hin; apply (H12 _ Hin); by left|done|].
  apply NoDup_app. split_and!; [done| |done]. intros y Hy Hy'. apply (H12 _ Hy). by right.
Qed.

Lemma ordered_from_chain fuel l1 l2 :
  NoDup (l1 ++ l2).*1 → (length l2 < fuel)%nat →
  ordered_from fuel (nodes_of None (l1 ++ l2) None) (first_key l2 None) = Some l2.*1.
Proof.
  revert l1 l2. induction fuel as [|fuel IH]; intros l1 l2 Hd Hf; [lia|].
  destruct l2 as [|[k v] l2]; [done|]. cbn [first_key ordered_from length] in *.
  rewrite next_of_mid by (rewrite fmap_app in Hd; by apply NoDup_mid in Hd as [? _]).
  rewrite (cons_middle (k, v)), app_assoc in Hd |- *. rewrite IH by (done || lia). done.
Qed.

Lemma walk_fuel_chain old l ll : chain old l ll → walk_fuel ll = S (S (length l)).
Proof. intros [Hd Hn _ _ _ _]. unfold walk_fuel. by rewrite Hn, size_nodes. Qed.

Lemma ordered_keys_chain old l ll : chain old l ll → ordered_keys ll = Some l.*1.
Proof.
  intros Hc. unfold ordered_keys. rewrite (walk_fuel_chain _ _ _ Hc). destruct Hc as [Hd Hn Hh _ _ _].
  rewrite Hn, Hh. apply (ordered_from_chain _ []); [done|lia].
Qed.

(** ** Removing matches *)

(** The sequence without the first [n] elements that satisfy [P]. *)
Fixpoint remove_upto {A} (P : A → bool) (n : nat) (l : list A) : list A :=
  match l with
  | [] => []
  | x :: l' =>
      match n with
      | O => l
      | S n' => if P x then remove_upto P n' l' else x :: remove_upto P n l'
      end
  end.

Lemma remove_upto_0 {A} (P : A → bool) l : remove_upto P 0 l = l.
Proof. by destruct l. Qed.
Lemma remove_upto_fmap {A C} (f : A → C) P n l :
  remove_upto P n (f <$> l) = f <$> remove_upto (λ x, P (f x)) n l.
Proof.
  revert n. induction l as [|x l IH]; intros n; [done|]. destruct n as [|n]; [done|]. simpl.
  destruct (P (f x)); [apply IH|]. simpl. by rewrite IH.
Qed.
Lemma remove_upto_sublist {A} (P : A → bool) n l : remove_upto P n l `sublist_of` l.
Proof.
  revert n. induction l as [|x l IH]; intros n; [done|]. destruct n as [|n]; [done|]. simpl.
  destruct (P x); by constructor.
Qed.
Lemma remove_upto_length {A} (P : A → bool) n l : (length (remove_upto P n l) ≤ length l)%nat.
Proof. apply sublist_length, remove_upto_sublist. Qed.
Lemma remove_upto_all {A} (P : A → bool) n l :
  (length l ≤ n)%nat → remove_upto P n l = List.filter (λ x, negb (P x)) l.
Proof.
  revert n. induction l as [|x l IH]; intros n Hn; [done|]. destruct n as [|n]; simpl in *; [lia|].
  destruct (P x); simpl; rewrite IH by lia; done.
Qed.

(** The nodes that hold [value]. *)
Definition matches (value : list Z) (kv : list Z * list Z) : bool := bool_decide (kv.2 = value).

Lemma holds_mid l1 k v l2 value ll :
  ll_nodes ll = nodes_of None (l1 ++ (k, v) :: l2) None → k ∉ l1.*1 →
  holds ll k value = matches value (k, v).
Proof. intros Hn Hk. unfold holds. by rewrite Hn, nodes_mid. Qed.

(** How many more matches may go, when [removed] went already. *)
Definition budget (count removed : Z) (l : list (list Z * list Z)) (n : nat) : Prop :=
  (count = 0 ∧ (length l ≤ n)%nat) ∨ (0 < count ∧ n = Z.to_nat (count - removed)).
Lemma budget_test count removed kv l n :
  budget count removed (kv :: l) n → (count =? 0) || (removed <? count) = bool_decide (0 < n)%nat.
Proof.
  intros [[-> Hn]|[Hc ->]]; simpl in *; symmetry; [apply bool_decide_eq_true; lia|].
  rewrite (proj2 (Z.eqb_neq count 0)) by lia. simpl. destruct (Z.ltb_spec removed count);
    [apply bool_decide_eq_true|apply bool_decide_eq_false]; lia.
Qed.

Lemma remove_matching_loop_chain fuel old count value removed n l1 l2 ll :
  (length l2 < fuel)%nat → budget count removed l2 n →
  NoDup (l1 ++ l2).*1 → ll_nodes ll = nodes_of None (l1 ++ l2) None →
  ll_size ll = Z.of_nat (length (l1 ++ l2)) → (∀ k, k ∈ old → k ∈ (l1 ++ l2).*1 ∨ k ∈ ll_removed ll) →
  let l2' := remove_upto (matches value) n l2 in
  ∃ ll', remove_matching_loop fuel count value removed (first_key l1 None) (last_key None l1) (first_key l2 None) ll
         = Some (removed + Z.of_nat (length l2 - length l2'), ll') ∧ chain old (l1 ++ l2') ll'.
Proof.
  revert removed n l1 l2 ll. induction fuel as [|fuel IH]; intros removed n l1 l2 ll Hf Hb Hd Hn Hs Hr; [lia|].
  destruct l2 as [|[k v] l2]; cbn [first_key remove_matching_loop length] in *.
  - cbv zeta. cbn [remove_upto length]. eexists. split; [f_equal; f_equal; lia|]. rewrite app_nil_r in *. by split.
  - pose proof Hd as Hd'. rewrite fmap_app in Hd'. cbn [fmap list_fmap fst] in Hd'.
    apply NoDup_mid in Hd' as (Hk1 & Hk2 & Hd').
    rewrite Hn, next_of_mid by done. rewrite (holds_mid l1 k v l2) by done.
    rewrite (budget_test _ _ _ _ _ Hb).
    destruct (matches value (k, v) && bool_decide (0 < n)%nat) eqn:E.
    + apply andb_true_iff in E as [Em Hn0%bool_decide_eq_true]. destruct n as [|n]; [lia|].
      cbn [remove_upto]. rewrite Em.
      destruct (IH (removed + 1) n l1 l2 (unlink k (last_key None l1) (first_key l2 None) ll)) as (ll' & -> & Hc).
      * lia.
      * destruct Hb as [[-> Hb]|[Hc Hb]]; [left; simpl in Hb; split; lia|right; split; lia].
      * by rewrite fmap_app.
      * by apply unlink_nodes with v.
      * cbn [unlink ll_size]. unfold size_dec. rewrite Hs, !length_app. simpl. lia.
      * intros j Hj. cbn [unlink ll_removed]. destruct (Hr j Hj) as [Hin|Hin]; rewrite ?fmap_app in *; set_solver.
      * exists ll'. split; [|done]. f_equal. f_equal.
        pose proof (remove_upto_length (matches value) n l2). lia.
    + assert (remove_upto (matches value) n ((k, v) :: l2) = (k, v) :: remove_upto (matches value) n l2) as ->.
      { destruct n as [|n]; cbn [remove_upto]; [by rewrite remove_upto_0|].
        by rewrite (bool_decide_eq_true_2 _ (Nat.lt_0_succ n)), andb_true_r in E; rewrite E. }
      destruct (IH removed n (l1 ++ [(k, v)]) l2 ll) as (ll' & Hrun & Hc); rewrite <- ?app_assoc in *; try done; try lia.
      * destruct Hb as [[-> Hb]|Hb]; [left; simpl in Hb; split; lia|by right].
      * rewrite first_key_app, last_key_app in Hrun. exists ll'. split; [|done]. simpl length. rewrite Nat.sub_succ.
        rewrite <- Hrun. f_equal. by destruct l1 as [|[]].
Qed.

Lemma remove_matching_chain old count value l ll n :
  chain old l ll → budget count 0 l n →
  let l' := remove_upto (matches value) n l in
  ∃ ll', remove_matching count value ll = Some (Z.of_nat (length l - length l'), ll') ∧ chain old l' ll'.
Proof.
  intros Hc Hb. unfold remove_matching. rewrite (walk_fuel_chain _ _ _ Hc). destruct Hc as [Hd Hn Hh Ht Hs Hr].
  rewrite Hh. by apply (remove_matching_loop_chain _ old count value 0 n [] l); [lia|..].
Qed.

(** The first key of a subsequence, looked up in the keys of the whole. *)
Lemma find_first_key (P : list Z → bool) l' l :
  (∀ k, P k = bool_decide (k ∈ l'.*1)) → NoDup l.*1 → l' `sublist_of` l → List.find P l.*1 = first_key l' None.
Proof.
  intros HP Hd Hs. revert HP Hd. induction Hs as [|[k v] l' l Hs IH|[k v] l' l Hs IH]; intros HP Hd; [done|..];
    cbn [fmap list_fmap List.find first_key fst]; rewrite HP.
  - by rewrite bool_decide_eq_true_2 by (by left).
  - simpl in Hd. apply NoDup_cons in Hd as [Hk Hd].
    rewrite bool_decide_eq_false_2; [by apply IH|]. intros Hin. apply Hk.
    eapply elem_of_sublist; [exact Hin|]. by apply fmap_sublist.
Qed.

Lemma reverse_sublist {A} (l1 l2 : list A) : l1 `sublist_of` l2 → reverse l1 `sublist_of` reverse l2.
Proof.
  induction 1 as [|x l1 l2 _ IH|x l1 l2 _ IH]; [done|..]; rewrite !reverse_cons.
  - by apply sublist_app.
  - by apply sublist_inserts_r.
Qed.

Lemma last_first_key p l : last_key p l = first_key (reverse l) p.
Proof.
  revert p. induction l as [|[k v] l IH]; intros p; [done|]. simpl. rewrite IH, reverse_cons, first_key_app. done.
Qed.

Lemma find_key_nodes l l0 : NoDup l0.*1 → l `sublist_of` l0 → find_key (nodes_of None l None) l0.*1 = first_key l None.
Proof.
  intros Hd Hs. apply find_first_key; [|done..]. intros k. apply bool_decide_ext. split.
  - intros Hk. destruct (decide (k ∈ l.*1)) as [|Hn]; [done|]. rewrite nodes_none in Hk by done. by destruct Hk.
  - apply nodes_some.
Qed.

Lemma find_key_nodes_rev l l0 :
  NoDup l0.*1 → l `sublist_of` l0 → find_key (nodes_of None l None) (reverse l0.*1) = last_key None l.
Proof.
  intros Hd Hs. rewrite last_first_key, <- fmap_reverse. apply find_first_key.
  - intros k. apply bool_decide_ext. rewrite fmap_reverse, elem_of_reverse. split.
    + intros Hk. destruct (decide (k ∈ l.*1)) as [|Hn]; [done|]. rewrite nodes_none in Hk by done. by destruct Hk.
    + apply nodes_some.
  - rewrite fmap_reverse. by rewrite reverse_Permutation.
  - by apply reverse_sublist.
Qed.

Lemma from_tail_loop_chain (old : list (list Z)) target value removed n l1 l2 ll :
  n = Z.to_nat (target - removed) →
  NoDup (l1 ++ l2).*1 → ll_nodes ll = nodes_of None (l1 ++ l2) None →
  ll_size ll = Z.of_nat (length (l1 ++ l2)) → (∀ k, k ∈ old → k ∈ (l1 ++ l2).*1 ∨ k ∈ ll_removed ll) →
  let l1' := reverse (remove_upto (matches value) n (reverse l1)) in
  ∃ ll', from_tail_loop target value removed (reverse l1.*1) ll
         = (removed + Z.of_nat (length l1 - length l1'), ll') ∧
    ll_nodes ll' = nodes_of None (l1' ++ l2) None ∧ ll_size ll' = Z.of_nat (length (l1' ++ l2)) ∧
    ∀ k, k ∈ old → k ∈ (l1' ++ l2).*1 ∨ k ∈ ll_removed ll'.
Proof.
  intros Hn0. revert removed n Hn0 l2 ll. induction l1 as [|[k v] l1 IH] using rev_ind;
    intros removed n Hn0 l2 ll Hd Hn Hs Hr l1'; subst l1'.
  - exists ll. cbn. split; [f_equal; lia|done].
  - rewrite <- !fmap_reverse, !reverse_snoc. cbn [fmap list_fmap from_tail_loop fst remove_upto].
    destruct (Z.leb_spec target removed) as [Hle|Hlt].
    { replace n with O by lia. cbn [remove_upto]. rewrite reverse_cons, reverse_involutive.
      exists ll. split; [f_equal; lia|done]. }
    destruct n as [|n]; [lia|]. rewrite <- app_assoc in *. cbn [app] in *.
    pose proof Hd as Hd'. rewrite fmap_app in Hd'. cbn [fmap list_fmap fst] in Hd'.
    apply NoDup_mid in Hd' as (Hk1 & Hk2 & Hd'). rewrite Hn, nodes_mid by done. cbn [ln_value ln_prev ln_next].
    change (bool_decide (v = value)) with (matches value (k, v)).
    destruct (matches value (k, v)).
    + destruct (IH (removed + 1) n ltac:(lia) l2 (unlink k (last_key None l1) (first_key l2 None) ll)) as (ll' & Hrun & H').
      * by rewrite fmap_app.
      * by apply unlink_nodes with v.
      * cbn [unlink ll_size]. unfold size_dec. rewrite Hs, !length_app. simpl. lia.
      * intros j Hj. cbn [unlink ll_removed]. destruct (Hr j Hj) as [Hin|Hin]; rewrite ?fmap_app in *; set_solver.
      * exists ll'. split; [|done]. rewrite fmap_reverse, Hrun. f_equal. rewrite !length_reverse, length_app.
        pose proof (remove_upto_length (matches value) n (reverse l1)) as Hle. rewrite length_reverse in Hle. simpl. lia.
    + destruct (IH removed (S n) Hn0 ((k, v) :: l2) ll) as (ll' & Hrun & H'); [done..|].
      exists ll'. rewrite reverse_cons, <- app_assoc. split; [|done]. rewrite fmap_reverse, Hrun. f_equal.
      rewrite !length_app, !length_reverse. simpl. lia.
Qed.

Lemma remove_from_tail_chain old count value l ll :
  chain old l ll → i64_min < count < 0 →
  let l' := reverse (remove_upto (matches value) (Z.to_nat (- count)) (reverse l)) in
  ∃ ll', remove_matching_from_tail count value ll = Some (Z.of_nat (length l - length l'), ll') ∧ chain old l' ll'.
Proof.
  intros Hc Hcount l'. unfold remove_matching_from_tail. rewrite (ordered_keys_chain _ _ _ Hc). cbn [mbind option_bind].
  destruct Hc as [Hd Hn Hh Ht Hs Hr].
  replace (as_u64 (as_i64 (- count))) with (- count).
  2: { unfold as_u64. rewrite as_i64_id by (unfold in_i64; width_lia). symmetry. apply Z.mod_small. width_lia. }
  destruct (from_tail_loop_chain old (- count) value 0 (Z.to_nat (- count)) l [] ll) as (ll' & -> & Hn' & Hs' & Hr');
    rewrite ?app_nil_r in *; try done; [f_equal; lia|].
  eexists. split; [done|].
  assert (l' `sublist_of` l) as Hsub.
  { unfold l'. rewrite <- (reverse_involutive l) at 2. apply reverse_sublist, remove_upto_sublist. }
  split; cbn [ll_nodes ll_head ll_tail ll_size ll_removed].
  - eapply sublist_NoDup; [done|by apply fmap_sublist].
  - done.
  - rewrite Hn'. by apply find_key_nodes.
  - rewrite Hn'. by apply find_key_nodes_rev.
  - done.
  - done.
Qed.

(** ** Trimming *)

(** The elements of [l], which starts at index [i], whose index is from [start] to [stop]. *)
Fixpoint slice {A} (start stop i : Z) (l : list A) : list A :=
  match l with
  | [] => []
  | x :: l' => if (i <? start) || (stop <? i) then slice start stop (i + 1) l' else x :: slice start stop (i + 1) l'
  end.

Lemma slice_fmap {A C} (f : A → C) start stop i l : slice start stop i (f <$> l) = f <$> slice start stop i l.
Proof. revert i. induction l as [|x l IH]; intros i; [done|]. simpl. rewrite IH. by destruct (_ || _). Qed.

Lemma slice_take_drop {A} start stop i (l : list A) :
  start ≤ stop + 1 →
  slice start stop i l = take (Z.to_nat (stop + 1 - Z.max i start)) (drop (Z.to_nat (start - i)) l).
Proof.
  intros Hs. revert i. induction l as [|x l IH]; intros i; simpl; [by rewrite drop_nil, take_nil|]. rewrite IH.
  destruct (Z.ltb_spec i start); simpl.
  - replace (Z.to_nat (start - i)) with (S (Z.to_nat (start - (i + 1)))) by lia. simpl. f_equal. lia.
  - replace (Z.to_nat (start - i)) with O by lia. replace (Z.to_nat (start - (i + 1))) with O by lia. simpl.
    destruct (Z.ltb_spec stop i); simpl.
    + replace (Z.to_nat (stop + 1 - Z.max i start)) with O by lia.
      by replace (Z.to_nat (stop + 1 - Z.max (i + 1) start)) with O by lia.
    + by replace (Z.to_nat (stop + 1 - Z.max i start)) with (S (Z.to_nat (stop + 1 - Z.max (i + 1) start))) by lia.
Qed.

Lemma trim_loop_chain (old : list (list Z)) start stop i kept rest q st ll :
  NoDup (kept ++ rest).*1 → ll_nodes ll = nodes_of None kept None ∪ nodes_of q rest None →
  st = mkTrim (first_key kept None) (last_key None kept) (last_key None kept) →
  (∀ k, k ∈ old → k ∈ (kept ++ rest).*1 ∨ k ∈ ll_removed ll) →
  let l' := kept ++ slice start stop i rest in
  ∃ ll', trim_loop start stop i rest.*1 st ll = (mkTrim (first_key l' None) (last_key None l') (last_key None l'), ll') ∧
    ll_nodes ll' = nodes_of None l' None ∧ NoDup l'.*1 ∧ ∀ k, k ∈ old → k ∈ l'.*1 ∨ k ∈ ll_removed ll'.
Proof.
  revert i kept q st ll. induction rest as [|[k v] rest IH]; intros i kept q st ll Hd Hn -> Hr; cbn [slice fmap list_fmap trim_loop fst].
  { cbn [nodes_of] in Hn. rewrite map_union_empty in Hn. rewrite app_nil_r in *. by exists ll. }
  pose proof Hd as Hd'. rewrite fmap_app in Hd'. cbn [fmap list_fmap fst] in Hd'.
  apply NoDup_mid in Hd' as (Hk1 & Hk2 & Hd').
  assert (NoDup kept.*1) as Hdk by (by apply NoDup_app in Hd' as [? _]).
  destruct ((i <? start) || (stop <? i)).
  - apply (IH (i + 1) kept (Some k)).
    + by rewrite fmap_app.
    + cbn [ll_nodes]. rewrite Hn, delete_union. cbn [nodes_of].
      by rewrite delete_id, delete_insert_id by (by apply nodes_none).
    + done.
    + intros j Hj. cbn [ll_removed]. destruct (Hr j Hj) as [Hin|Hin]; rewrite ?fmap_app in *; set_solver.
  - rewrite cons_middle, app_assoc in Hd, Hr |- *.
    apply (IH (i + 1) (kept ++ [(k, v)]) (Some k)).
    + done.
    + cbn [ll_nodes tr_prev]. rewrite Hn, alter_union_r by (by apply nodes_none). cbn [nodes_of].
      rewrite alter_insert_eq. unfold with_next, with_prev. cbn [ln_key ln_value ln_prev ln_next].
      rewrite set_next_union by done. rewrite nodes_app, <- map_union_assoc. f_equal. cbn [nodes_of first_key].
      by rewrite <- insert_union_l, map_empty_union.
    + rewrite first_key_app, last_key_app. cbn. by destruct kept as [|[]].
    + done.
Qed.

Lemma trim_to_chain old start stop l ll :
  chain old l ll → 0 ≤ start ≤ stop → stop < Z.of_nat (length l) → Z.of_nat (length l) < 2 ^ 32 →
  let l' := take (Z.to_nat (stop + 1 - start)) (drop (Z.to_nat start) l) in
  ∃ ll', trim_to start stop ll = Some ll' ∧ chain old l' ll'.
Proof.
  intros Hc Hs Hlt Hmax l'. unfold trim_to. rewrite (ordered_keys_chain _ _ _ Hc). cbn [mbind option_bind].
  destruct Hc as [Hd Hn Hh Ht Hsz Hr].
  destruct (trim_loop_chain old start stop 0 [] l None (mkTrim None None None) ll) as (ll' & -> & Hn' & Hd' & Hr');
    [done|by rewrite Hn; cbn [nodes_of]; rewrite map_empty_union|done|done|].
  rewrite slice_take_drop, Z.max_r, Z.sub_0_r in * by lia. fold l' in Hn', Hd', Hr' |- *.
  eexists. split; [done|]. split; try done. cbn [ll_size].
  assert (length l' = Z.to_nat (stop + 1 - start)) as ->.
  { unfold l'. rewrite length_take, length_drop. lia. }
  rewrite as_u32_small; lia.
Qed.

(** ** Inserting and replacing *)
Lemma find_holds l1 l2 value ll :
  NoDup (l1 ++ l2).*1 → ll_nodes ll = nodes_of None (l1 ++ l2) None →
  match List.find (λ k, holds ll k value) l2.*1 with
  | None => Forall (λ kv, matches value kv = false) l2
  | Some k => ∃ a v b, l2 = a ++ (k, v) :: b ∧ Forall (λ kv, matches value kv = false) a ∧ v = value
  end.
Proof.
  revert l1. induction l2 as [|[k v] l2 IH]; intros l1 Hd Hn; [constructor|].
  pose proof Hd as Hd'. rewrite fmap_app in Hd'. cbn [fmap list_fmap fst] in Hd'.
  apply NoDup_mid in Hd' as (Hk1 & _ & _). cbn [fmap list_fmap fst List.find].
  rewrite (holds_mid l1 k v l2) by done. destruct (matches value (k, v)) eqn:E.
  - exists [], v, l2. split_and!; [done|constructor|]. by apply bool_decide_eq_true in E.
  - specialize (IH (l1 ++ [(k, v)])). rewrite <- app_assoc in IH. specialize (IH Hd Hn).
    destruct (List.find _ _) as [k'|].
    + destruct IH as (a & v' & b & -> & Ha & Hv). exists ((k, v) :: a), v', b. split_and!; [done| |done]. by constructor.
    + by constructor.
Qed.

Lemma insert_at_chain old nk (before : bool) k v value l1 l2 ll :
  chain old (l1 ++ (k, v) :: l2) ll → nk ∉ (l1 ++ (k, v) :: l2).*1 → Z.of_nat (length (l1 ++ (k, v) :: l2)) + 1 < 2 ^ 32 →
  chain old (if before then l1 ++ (nk, value) :: (k, v) :: l2 else l1 ++ (k, v) :: (nk, value) :: l2)
    (insert_at nk before k (last_key None l1) (first_key l2 None) value ll).
Proof.
  intros [Hd Hn Hh Ht Hs Hr] Hnk Hlt. rewrite fmap_app in Hnk, Hd. cbn [fmap list_fmap fst] in Hnk, Hd.
  apply not_elem_of_app in Hnk as [Hnk1 [Hne Hnk2]%not_elem_of_cons].
  pose proof Hd as (Hd1 & _ & _)%NoDup_app. apply NoDup_mid in Hd as (Hk1 & Hk2 & Hd').
  assert (NoDup (l1.*1 ++ k :: nk :: l2.*1)) as Hall.
  { rewrite <- (Permutation_middle l1.*1), <- (Permutation_middle l1.*1). apply NoDup_cons.
    rewrite not_elem_of_cons, not_elem_of_app, NoDup_cons, not_elem_of_app. by split_and!. }
  apply NoDup_app in Hd' as (_ & H12 & _).
  assert (∀ j (l : list (list Z * list Z)), j ∈ old → (∀ i, i ∈ (l1 ++ (k, v) :: l2).*1 → i ∈ l.*1) →
    j ∈ l.*1 ∨ j ∈ ll_removed ll) as Hkeep.
  { intros j l Hj Hl. destruct (Hr j Hj); auto. }
  unfold insert_at. destruct before; split; cbn [ll_nodes ll_head ll_tail ll_size ll_removed].
  - rewrite fmap_app. simpl. by rewrite (Permutation_swap k nk).
  - rewrite Hn, !nodes_app. cbn [nodes_of first_key].
    rewrite insert_union_r, set_next_union by (done || by apply nodes_none). cbn [set_prev].
    by rewrite alter_union_r, alter_insert_ne, alter_insert_eq by (done || by apply nodes_none).
  - rewrite Hh, !first_key_app. destruct l1 as [|kv l1]; [done|].
    by destruct (last_key_elem None (kv :: l1)) as (? & -> & _); [|destruct kv].
  - by rewrite Ht, !last_key_app.
  - unfold size_inc. rewrite Hs, as_u32_small, !length_app in *; simpl in *; lia.
  - intros j Hj. apply Hkeep; [done|]. intros i. rewrite !fmap_app, !elem_of_app. simpl. rewrite !elem_of_cons. tauto.
  - by rewrite fmap_app.
  - rewrite Hn, !nodes_app. cbn [nodes_of first_key].
    rewrite insert_union_r, insert_insert_ne by (done || by apply nodes_none).
    assert (∀ (N M : ListNode) q,
      set_prev (first_key l2 None) q (nodes_of None l1 (Some k) ∪ <[k:=M]> (<[nk:=N]> (nodes_of (Some k) l2 None)))
      = nodes_of None l1 (Some k) ∪ <[k:=M]> (<[nk:=N]> (nodes_of q l2 None))) as ->.
    { intros N M q. rewrite <- (set_prev_first q (Some k) l2 None). destruct l2 as [|[j w] l2]; [done|].
      cbn [first_key set_prev fmap list_fmap fst] in *. apply not_elem_of_cons in Hnk2 as [? _], Hk2 as [? _].
      rewrite alter_union_r by (apply nodes_none; intros Hin; apply (H12 _ Hin); by left).
      by rewrite !alter_insert_ne by done. }
    cbn [set_next]. by rewrite alter_union_r, alter_insert_eq by (by apply nodes_none).
  - by rewrite Hh, !first_key_app.
  - rewrite Ht, !last_key_app. cbn [last_key]. destruct l2 as [|[]]; done.
  - unfold size_inc. rewrite Hs, as_u32_small, !length_app in *; simpl in *; lia.
  - intros j Hj. apply Hkeep; [done|]. intros i. rewrite !fmap_app, !elem_of_app. simpl. rewrite !elem_of_cons. tauto.
Qed.

(** The sequence with [x] before or after the first element that satisfies [P]. *)
Fixpoint insert_near {A} (before : bool) (P : A → bool) (x : A) (l : list A) : option (list A) :=
  match l with
  | [] => None
  | y :: l' =>
      if P y then Some (if before then x :: y :: l' else y :: x :: l')
      else cons y <$> insert_near before P x l'
  end.

Lemma insert_near_fmap {A C} (f : A → C) before P x (l : list A) :
  insert_near before P (f x) (f <$> l) = (λ l : list A, f <$> l) <$> insert_near before (λ y, P (f y)) x l.
Proof.
  induction l as [|y l IH]; [done|]. rewrite fmap_cons. cbn [insert_near].
  destruct (P (f y)); [by destruct before|]. rewrite IH. by destruct (insert_near _ _ _ l).
Qed.
Lemma insert_near_none {A} before (P : A → bool) x l :
  Forall (λ y, P y = false) l → insert_near before P x l = None.
Proof. induction 1 as [|y l Hy _ IH]; [done|]. simpl. by rewrite Hy, IH. Qed.
Lemma insert_near_mid {A} before (P : A → bool) x a y b :
  Forall (λ y, P y = false) a → P y = true →
  insert_near before P x (a ++ y :: b) = Some (if before then a ++ x :: y :: b else a ++ y :: x :: b).
Proof.
  intros Ha Hy. induction Ha as [|z a Hz _ IH]; simpl; [rewrite Hy; by destruct before|].
  rewrite Hz, IH. by destruct before.
Qed.

Lemma insert_chain old nk before pivot value l ll :
  chain old l ll → nk ∉ l.*1 → Z.of_nat (length l) + 1 < 2 ^ 32 →
  match insert_near before (matches pivot) (nk, value) l with
  | None => insert nk before pivot value ll = Some (false, ll)
  | Some l' => ∃ ll', insert nk before pivot value ll = Some (true, ll') ∧ chain old l' ll'
  end.
Proof.
  intros Hc Hnk Hlt. unfold insert. rewrite (ordered_keys_chain _ _ _ Hc). cbn [mbind option_bind].
  pose proof (find_holds [] l pivot ll (ch_distinct _ _ _ Hc) (ch_nodes _ _ _ Hc)) as Hf.
  destruct (List.find _ _) as [k|].
  - destruct Hf as (a & v & b & -> & Ha & ->).
    rewrite insert_near_mid by (done || by apply bool_decide_eq_true).
    rewrite (ch_nodes _ _ _ Hc), nodes_mid.
    2: { pose proof (ch_distinct _ _ _ Hc) as Hd. rewrite fmap_app in Hd. by apply NoDup_mid in Hd as [? _]. }
    eexists. split; [done|]. cbn [ln_prev ln_next]. by apply insert_at_chain.
  - by rewrite insert_near_none.
Qed.

(** The key at an index, and the value there replaced. *)
Lemma walk_chain l1 l2 n :
  NoDup (l1 ++ l2).*1 → walk (nodes_of None (l1 ++ l2) None) n (first_key l2 None) = first_key (drop n l2) None.
Proof.
  intros Hd. unfold walk. induction n as [|n IH]; [done|]. simpl. rewrite IH.
  rewrite <- (take_drop n l2) in Hd at 1. rewrite <- (take_drop n l2) at 1. rewrite <- Nat.add_1_r, <- drop_drop.
  rewrite app_assoc in *. destruct (drop n l2) as [|[k v] r]; [done|]. simpl. apply next_of_mid.
  rewrite fmap_app in Hd. by apply NoDup_mid in Hd as [? _].
Qed.

Lemma walk_lookup old l ll n : chain old l ll → walk (ll_nodes ll) n (ll_head ll) = fst <$> l !! n.
Proof.
  intros [Hd Hn Hh _ _ _]. pose proof (walk_chain [] l n Hd) as H. rewrite Hn, Hh. cbn [app] in H. rewrite H.
  rewrite <- (Nat.add_0_r n) at 2. rewrite <- lookup_drop. by destruct (drop n l) as [|[]].
Qed.

Lemma chain_lookup old l ll n k v :
  chain old l ll → l !! n = Some (k, v) → ∃ p q, ll_nodes ll !! k = Some (mkNode k v p q).
Proof.
  intros [Hd Hn _ _ _ _] Hl. pose proof (take_drop_middle _ _ _ Hl) as E. rewrite Hn. rewrite <- E in Hd |- *.
  rewrite fmap_app in Hd. apply NoDup_mid in Hd as [Hk _]. rewrite nodes_mid by done. eauto.
Qed.

Lemma set_value_chain old l ll n k v v' :
  chain old l ll → l !! n = Some (k, v) →
  chain old (<[n := (k, v')]> l)
    (mkLinked (ll_size ll) (ll_head ll) (ll_tail ll) (alter (with_value v') k (ll_nodes ll)) (ll_removed ll)).
Proof.
  intros [Hd Hn Hh Ht Hs Hr] Hl. assert (n < length l)%nat as Hlen by (by eapply lookup_lt_Some).
  rewrite insert_take_drop by done. pose proof (take_drop_middle _ _ _ Hl) as E.
  set (a := take n l) in *. set (b := drop (S n) l) in *. clearbody a b. subst l.
  assert ((a ++ (k, v') :: b).*1 = (a ++ (k, v) :: b).*1) as Ek by (by rewrite !fmap_app).
  split; cbn [ll_nodes ll_head ll_tail ll_size ll_removed]; rewrite ?Ek; try done.
  - rewrite fmap_app in Hd. apply NoDup_mid in Hd as (Hk & _ & _). rewrite Hn, !nodes_app. cbn [nodes_of first_key].
    by rewrite alter_union_r, alter_insert_eq by (by apply nodes_none).
  - by rewrite Hh, !first_key_app.
  - by rewrite Ht, !last_key_app.
  - by rewrite Hs, !length_app.
Qed.

(** ** Node keys *)
Lemma as_u64_lxor a b : as_u64 (Z.lxor a b) = Z.lxor (as_u64 a) (as_u64 b).
Proof.
  unfold as_u64. rewrite <- !Z.land_ones by lia. apply Z.bits_inj'. intros n Hn.
  rewrite Z.land_spec, !Z.lxor_spec, !Z.land_spec. by destruct (Z.testbit a n), (Z.testbit b n), (Z.testbit (Z.ones 64) n).
Qed.
Lemma lxor_u64 a b : 0 ≤ a < 2 ^ 64 → 0 ≤ b < 2 ^ 64 → 0 ≤ Z.lxor a b < 2 ^ 64.
Proof.
  intros Ha Hb. rewrite <- (as_u64_id a), <- (as_u64_id b), <- as_u64_lxor by done. apply as_u64_range.
Qed.

(** Multiplication by a number with an inverse modulo 2^64 is injective. *)
Lemma mul_u64_inj c inv a b :
  as_u64 (c * inv) = 1 → 0 ≤ a < 2 ^ 64 → 0 ≤ b < 2 ^ 64 → as_u64 (a * c) = as_u64 (b * c) → a = b.
Proof.
  unfold as_u64. intros Hinv Ha Hb E.
  rewrite <- (Z.mod_small a (2 ^ 64)), <- (Z.mod_small b (2 ^ 64)) by done.
  rewrite <- (Z.mul_1_r a), <- (Z.mul_1_r b), <- Hinv, !Z.mul_mod_idemp_r, !Z.mul_assoc by lia.
  rewrite <- (Z.mul_mod_idemp_l (a * c)), <- (Z.mul_mod_idemp_l (b * c)), E by lia. done.
Qed.

Lemma xor_shiftr_inj n x y :
  0 < n → 0 ≤ x → 0 ≤ y → Z.lxor x (Z.shiftr x n) = Z.lxor y (Z.shiftr y n) → x = y.
Proof.
  intros Hn Hx Hy E. apply Z.lxor_eq. set (d := Z.lxor x y).
  assert (Z.lxor d (Z.shiftr d n) = 0) as H.
  { unfold d. rewrite Z.shiftr_lxor, Z.lxor_assoc, (Z.lxor_comm y), Z.lxor_assoc, (Z.lxor_comm (Z.shiftr y n)).
    rewrite <- Z.lxor_assoc, E. apply Z.lxor_nilpotent. }
  apply Z.lxor_eq in H. assert (0 ≤ d) as Hd by (by apply Z.lxor_nonneg). rewrite Z.shiftr_div_pow2 in H by lia.
  destruct (Z.eq_dec d 0) as [|Hne]; [done|]. exfalso.
  assert (d / 2 ^ n < d) by (apply Z.div_lt; [lia|]; apply Z.pow_gt_1; lia). lia.
Qed.

Lemma xor_shiftl_inj x y :
  0 ≤ x < 2 ^ 64 → 0 ≤ y < 2 ^ 64 →
  Z.lxor x (as_u64 (Z.shiftl x 25)) = Z.lxor y (as_u64 (Z.shiftl y 25)) → x = y.
Proof.
  intros Hx Hy E. apply Z.lxor_eq. set (d := Z.lxor x y).
  assert (Z.lxor d (as_u64 (Z.shiftl d 25)) = 0) as H.
  { unfold d. rewrite Z.shiftl_lxor, as_u64_lxor, Z.lxor_assoc, (Z.lxor_comm y), Z.lxor_assoc.
    rewrite (Z.lxor_comm (as_u64 (Z.shiftl y 25))), <- Z.lxor_assoc, E. apply Z.lxor_nilpotent. }
  apply Z.lxor_eq in H. assert (0 ≤ d < 2 ^ 64) as Hd by (by apply lxor_u64).
  rewrite Z.shiftl_mul_pow2 in H by lia.
  apply (mul_u64_inj (2 ^ 25 - 1) 0xfffbfffffdffffff); [by vm_compute|done|lia|].
  unfold as_u64 in *. rewrite Z.mul_sub_distr_l, Z.mul_1_r, Zminus_mod, <- H, (Z.mod_small d) by done.
  by rewrite Z.sub_diag.
Qed.

Lemma shiftr_u64 x n : 0 ≤ n → 0 ≤ x < 2 ^ 64 → 0 ≤ Z.shiftr x n < 2 ^ 64.
Proof.
  intros Hn Hx. rewrite Z.shiftr_div_pow2 by done. assert (0 < 2 ^ n) by lia. split.
  - apply Z.div_pos; lia.
  - apply Z.le_lt_trans with x; [|lia]. apply Z.div_le_upper_bound; nia.
Qed.

Lemma xorshift_range s : 0 ≤ s < 2 ^ 64 → 0 ≤ xorshift s < 2 ^ 64.
Proof.
  intros Hs. unfold xorshift. repeat first [apply lxor_u64|apply shiftr_u64|apply as_u64_range|lia].
Qed.

Lemma xorshift_inj x y : 0 ≤ x < 2 ^ 64 → 0 ≤ y < 2 ^ 64 → xorshift x = xorshift y → x = y.
Proof.
  intros Hx Hy. unfold xorshift. intros E.
  assert (∀ z, 0 ≤ z < 2 ^ 64 → 0 ≤ Z.lxor z (Z.shiftr z 12) < 2 ^ 64) as H1.
  { intros z Hz. by apply lxor_u64, shiftr_u64. }
  assert (∀ z, 0 ≤ z < 2 ^ 64 → 0 ≤ Z.lxor z (as_u64 (Z.shiftl z 25)) < 2 ^ 64) as H2.
  { intros z Hz. apply lxor_u64, as_u64_range. done. }
  apply xor_shiftr_inj in E; [|lia|by apply H2, H1..]. apply xor_shiftl_inj in E; [|by apply H1..].
  by apply xor_shiftr_inj in E; [|lia..].
Qed.

Lemma scramble_inj x y : 0 ≤ x < 2 ^ 64 → 0 ≤ y < 2 ^ 64 → scramble x = scramble y → x = y.
Proof. apply (mul_u64_inj _ 0x256af1461d8aaaa5). by vm_compute. Qed.

Lemma be_bytes_inj n x y :
  0 ≤ x < 256 ^ Z.of_nat n → 0 ≤ y < 256 ^ Z.of_nat n → be_bytes n x = be_bytes n y → x = y.
Proof. intros Hx Hy E. rewrite <- (from_be_be_bytes n x), E by done. by apply from_be_be_bytes. Qed.

Lemma random_key_tail epoch count :
  drop 8 (random_key epoch count) =
    be_bytes 8 (scramble (xorshift (xorshift (Z.lxor epoch (as_u64 (count * 0x9e3779b97f4a7c15)))))).
Proof.
  unfold random_key. cbv zeta. destruct (is_zero_key _); [rewrite drop_insert_lt by lia|];
    by rewrite drop_app_length' by (by rewrite length_be_bytes).
Qed.

Lemma random_key_length epoch count : length (random_key epoch count) = KEY_LENGTH.
Proof.
  unfold random_key. cbv zeta. destruct (is_zero_key _); by rewrite ?length_insert, length_app, !length_be_bytes.
Qed.

Lemma random_key_nonzero epoch count : is_zero_key (random_key epoch count) = false.
Proof.
  unfold random_key. cbv zeta. destruct (is_zero_key (_ ++ _)) eqn:E; [|done].
  match goal with |- is_zero_key (<[_:=_]> ?k) = _ => assert (length k = 16%nat) as Hl end.
  { by rewrite length_app, !length_be_bytes. }
  destruct (_ ++ _) as [|b l]; done.
Qed.

(** A key drawn later in the same nanosecond is another key. *)
Lemma random_key_inj epoch c1 c2 :
  0 ≤ epoch < 2 ^ 64 → 0 ≤ c1 < 2 ^ 64 → 0 ≤ c2 < 2 ^ 64 → random_key epoch c1 = random_key epoch c2 → c1 = c2.
Proof.
  intros He H1 H2 E. apply (f_equal (drop 8)) in E. rewrite !random_key_tail in E.
  assert (∀ c, 0 ≤ Z.lxor epoch (as_u64 (c * 0x9e3779b97f4a7c15)) < 2 ^ 64) as Hr.
  { intros c. apply lxor_u64; [done|apply as_u64_range]. }
  apply be_bytes_inj in E; [|apply as_u64_range..].
  apply scramble_inj in E; [|by apply xorshift_range, xorshift_range..].
  apply xorshift_inj in E; [|by apply xorshift_range..]. apply xorshift_inj in E; [|done..].
  apply (f_equal (Z.lxor epoch)) in E. rewrite <- !Z.lxor_assoc, Z.lxor_nilpotent, !Z.lxor_0_l in E.
  apply (mul_u64_inj _ 0xf1de83e19937733d) in E; [done|by vm_compute|done..].
Qed.

(** Node keys. A key drawn by [random_key] has 16 bytes, is never the all-zero key
    that stands for a missing link, and two draws in the same nanosecond differ, since
    the counter they mix in differs. *)
Theorem random_key_spec (epoch c1 c2 : Z) :
  0 ≤ epoch < 2 ^ 64 → 0 ≤ c1 < 2 ^ 64 → 0 ≤ c2 < 2 ^ 64 → c1 ≠ c2 →
  length (random_key epoch c1) = KEY_LENGTH ∧ to_opt_key (random_key epoch c1) = Some (random_key epoch c1) ∧
  random_key epoch c1 ≠ random_key epoch c2.
Proof.
  intros He H1 H2 Hne. split_and!; [apply random_key_length| |by intros ?%random_key_inj].
  unfold to_opt_key. by rewrite random_key_nonzero.
Qed.

Lemma random_key_spec_witness : random_key 1700000000000000000 7 ≠ random_key 1700000000000000000 8.
Proof. apply (random_key_spec 1700000000000000000 7 8); lia. Defined.
