(* ===== verification/Elements.v ===== *)
(** * Counted elements under a prefix: the layout shared by src/redis/hash.rs and src/redis/set.rs

    A hash and a set are a sentinel under the public key, which holds the number of
    elements (and, for values of this release, the prefix they live under), and one
    entry per element under the element prefix, a NUL byte and the name of the element.
    The two files carry the same storage helpers with their own type byte; here they
    take the type byte as an argument. Proved: what each helper does to the abstract
    value, a finite map from names to contents ([stored]), and that a prefix scan
    enumerates it in byte order. *)
From S2P Require Import Prelude Bytes Resp Kv Registry Op Namespace Session.

(** ** Keys of elements *)

Definition element_key (node_prefix name : list Z) : list Z := node_prefix ++ [0] ++ name.
Definition elements_prefix (node_prefix : list Z) : list Z := node_prefix ++ [0].

(** [key.iter().rposition(|&b| b == 0)], then everything after it. *)
Fixpoint after_last_nul (key : list Z) : option (list Z) :=
  match key with
  | [] => None
  | b :: key' =>
      match after_last_nul key' with
      | Some name => Some name
      | None => if b =? 0 then Some key' else None
      end
  end.
Definition element_from_key (key : list Z) : list Z := default [] (after_last_nul key).

(** ** Database helpers *)

(** An operation whose error the caller matches on. *)
Definition caught {T A} (op : DbM T A) : DbM T (result A DbError) := λ t,
  match op t with
  | (Ret a, t') => (Ret (Ok a), t')
  | (Fail e, t') => (Ret (Err e), t')
  | (Panic, t') => (Panic, t')
  end.

Section Helpers.
Context {T : Type} `{!TxOps T} (now : Z) (ty : Z).

Definition read_sentinel (public_key : list Z) : DbM T Z :=
  r ← get now public_key;
  item ← try_kv r;
  if negb (base_type (item_meta item) =? ty) then fail WrongType
  else
    val ← try_db (payload item);
    if (length val <? 4)%nat then fail (Kv KeyNotFound)
    else mret (from_be (take 4 val)).

(** The sentinel's count, [None] for a missing key. *)
Definition count_opt (public_key : list Z) : DbM T (option Z) :=
  r ← caught (read_sentinel public_key);
  match r with
  | Ok count => mret (Some count)
  | Err (Kv KeyNotFound) => mret None
  | Err e => fail e
  end.

Definition write_count (public_key : list Z) (count : Z) (prefix : ElementPrefix) : DbM T () :=
  write_sentinel now public_key (be_bytes 4 count) ty prefix.

(** The items a prefix iterator yields; an error of the iterator ends the operation. *)
Definition scan (prefix : list Z) : DbM T (list Item) :=
  r ← prefix_iter now prefix;
  it ← try_kv r;
  match iter_err it with
  | Some e => fail (Kv e)
  | None => mret (iter_items it)
  end.
End Helpers.

(** ** Lemmas on keys *)
Lemma element_key_inj p f g : element_key p f = element_key p g → f = g.
Proof. unfold element_key. intros H. apply app_inv_head in H. by injection H. Qed.

Lemma element_key_prefix p f : element_key p f = elements_prefix p ++ f.
Proof. unfold element_key, elements_prefix. by rewrite <- app_assoc. Qed.

Lemma after_last_nul_app l1 l2 :
  after_last_nul (l1 ++ l2) =
    match after_last_nul l2 with
    | Some name => Some name
    | None => (λ s, s ++ l2) <$> after_last_nul l1
    end.
Proof.
  induction l1 as [|b l1 IH]; simpl; [by destruct (after_last_nul l2)|]. rewrite IH.
  destruct (after_last_nul l2); [done|]. destruct (after_last_nul l1); [done|]. simpl.
  by destruct (b =? 0).
Qed.

Lemma after_last_nul_none l : 0 ∉ l → after_last_nul l = None.
Proof.
  induction l as [|b l IH]; intros Hl; [done|]. simpl. rewrite IH by set_solver.
  destruct (Z.eqb_spec b 0) as [->|]; [set_solver|done].
Qed.

(** Names without NUL bytes are recovered from their key. *)
Lemma element_from_key_key p f : 0 ∉ f → element_from_key (element_key p f) = f.
Proof.
  intros Hf. unfold element_from_key, element_key. rewrite after_last_nul_app. simpl.
  by rewrite after_last_nul_none.
Qed.

(** ** The abstract value *)

(** The entries under prefix [p] are exactly those of [h]. *)
Definition elements_at (now : Z) (m : gmap (list Z) Item) (p : list Z) (h : gmap (list Z) (list Z)) : Prop :=
  ∀ f, item_value <$> live now (element_key p f) m = h !! f.

(** Nothing but the entries under [p] differs. *)
Definition same_outside (p : list Z) (m m' : gmap (list Z) Item) : Prop :=
  ∀ k : list Z, (∀ f, k ≠ element_key p f) → m' !! k = m !! k.

#[export] Instance same_outside_preorder p : PreOrder (same_outside p).
Proof.
  split; [by intros m k|]. intros m1 m2 m3 H1 H2 k Hk. by rewrite (H2 k Hk), (H1 k Hk).
Qed.

(** Items carry their own key. *)
Definition keyed (m : gmap (list Z) Item) : Prop := ∀ k i, m !! k = Some i → item_key i = k.

(** What a transaction must keep true of its store. *)
Definition good (m : gmap (list Z) Item) : Prop := store_ok m ∧ keyed m.

(** The public key, the prefix derived from the name and the prefix [p] do not overlap. *)
Record layout (pk legacy : list Z) (p : ElementPrefix) : Prop := {
  lay_public f : element_key (prefix_bytes p) f ≠ pk;
  lay_legacy f : element_key legacy f ≠ pk;
  lay_explicit : explicit p = true → ∀ f g, element_key (prefix_bytes p) f ≠ element_key legacy g;
  lay_length : Z.of_nat (length (prefix_bytes p)) < 2 ^ 32
}.

(** A value of type [ty] with contents [h] under the public key [pk]: absent, which reads
    as empty, or a sentinel [i] with the count and prefix [p] and the elements under [p]. The prefix derived from the name holds no elements unless it is the one in use. *)
Record stored_at (now ty : Z) (m : gmap (list Z) Item) (pk legacy : list Z) (i : Item)
    (p : ElementPrefix) (h : gmap (list Z) (list Z)) : Prop := {
  sa_live : live now pk m = Some i;
  sa_type : base_type (item_meta i) = ty;
  sa_count : payload i = Ok (be_bytes 4 (Z.of_nat (size h)));
  sa_prefix : prefix_of i legacy = Ok p;
  sa_size : Z.of_nat (size h) < 2 ^ 32;
  sa_elements : elements_at now m (prefix_bytes p) h;
  sa_layout : layout pk legacy p;
  sa_legacy : explicit p = true → elements_at now m legacy ∅
}.

Inductive stored (now ty : Z) (m : gmap (list Z) Item) (pk legacy : list Z)
  : gmap (list Z) (list Z) → Prop :=
| stored_none : live now pk m = None → elements_at now m legacy ∅ → stored now ty m pk legacy ∅
| stored_some i p h : stored_at now ty m pk legacy i p h → stored now ty m pk legacy h.

(** A namespace that is not in use yet, for the random [id]. *)
Definition fresh (now : Z) (m : gmap (list Z) Item) (pk legacy id : list Z) : Prop :=
  ∃ p, new_namespace id legacy = Ok p ∧ elements_at now m (prefix_bytes p) ∅ ∧ layout pk legacy p.

(** The prefix [p] a writing command resolves to, and what it then finds there. *)
Record writable (now ty : Z) (m : gmap (list Z) Item) (pk legacy id : list Z)
    (p : ElementPrefix) (h : gmap (list Z) (list Z)) : Prop := {
  wr_sentinel :
    match live now pk m with
    | Some i => base_type (item_meta i) = ty ∧ prefix_of i legacy = Ok p ∧
                payload i = Ok (be_bytes 4 (Z.of_nat (size h)))
    | None => new_namespace id legacy = Ok p ∧ explicit p = true ∧ h = ∅
    end;
  wr_size : Z.of_nat (size h) < 2 ^ 32;
  wr_elements : elements_at now m (prefix_bytes p) h;
  wr_layout : layout pk legacy p;
  wr_legacy : explicit p = true → elements_at now m legacy ∅
}.

Lemma new_namespace_explicit id legacy p : new_namespace id legacy = Ok p → explicit p = true.
Proof. unfold new_namespace. repeat case_match; intros [= <-]; done. Qed.

Lemma stored_writable now ty m pk legacy id h :
  stored now ty m pk legacy h → fresh now m pk legacy id → ∃ p, writable now ty m pk legacy id p h.
Proof.
  intros [Hl Hleg|i p h' [Hl Hty Hc Hp Hs He Hlay Hleg]] (p0 & Hnew & Hfe & Hfl).
  - exists p0. split; try done; rewrite ?Hl, ?map_size_empty.
    split_and!; [done|by eapply new_namespace_explicit|done].
  - exists p. split; try done. by rewrite Hl.
Qed.

(** ** Reading *)

Section Runs.
Context {T : Type} `{!TxOps T} {raw : T → gmap (list Z) Item} {ok : T → Prop}.
Context `{HT : !TxLaws T raw ok} {now : Z} (Hnow : clock_ok now) (ty : Z).
#[local] Abbreviation Runs := (Runs (raw:=raw) (ok:=ok)).

Lemma runs_caught {A} (op : DbM T A) m a m' :
  Runs op m (Ret a) m' → Runs (caught op) m (Ret (Ok a)) m'.
Proof.
  intros H t Ht Hm. destruct (H t Ht Hm) as (t' & E & Ht' & Hm'). exists t'. split; [|done].
  unfold caught. by rewrite E.
Qed.

Lemma runs_caught_fail {A} (op : DbM T A) m e m' :
  Runs op m (Fail e) m' → Runs (caught op) m (Ret (Err e)) m'.
Proof.
  intros H t Ht Hm. destruct (H t Ht Hm) as (t' & E & Ht' & Hm'). exists t'. split; [|done].
  unfold caught. by rewrite E.
Qed.

Lemma runs_read_sentinel pk m :
  Runs (read_sentinel now ty pk) m
    (match live now pk m with
     | None => Fail (Kv KeyNotFound)
     | Some i =>
         if negb (base_type (item_meta i) =? ty) then Fail WrongType
         else match payload i with
              | Ok val => if (length val <? 4)%nat then Fail (Kv KeyNotFound) else Ret (from_be (take 4 val))
              | Err e => Fail e
              end
     end) m.
Proof.
  eapply runs_bind; [by apply runs_get|]. rewrite lookup_live_live.
  destruct (live now pk m) as [i|]; [|apply runs_bind_fail, runs_fail].
  eapply runs_bind; [apply runs_ret|]. destruct (negb _); [apply runs_fail|].
  destruct (payload i) as [val|e]; [|apply runs_bind_fail, runs_fail].
  eapply runs_bind; [apply runs_ret|]. destruct (length val <? 4)%nat; [apply runs_fail|apply runs_ret].
Qed.

Lemma from_be_count n : 0 ≤ n < 2 ^ 32 → from_be (take 4 (be_bytes 4 n)) = n.
Proof. intros H. rewrite take_ge by (by rewrite length_be_bytes). by apply from_be_be_bytes. Qed.

Lemma runs_read_count pk m i n :
  live now pk m = Some i → base_type (item_meta i) = ty → payload i = Ok (be_bytes 4 n) → 0 ≤ n < 2 ^ 32 →
  Runs (read_sentinel now ty pk) m (Ret n) m.
Proof.
  intros Hl Hty Hp Hn. pose proof (runs_read_sentinel pk m) as H.
  rewrite Hl, Hty, Hp, Z.eqb_refl, length_be_bytes, Nat.ltb_irrefl in H. cbn [negb] in H.
  by rewrite from_be_count in H.
Qed.

(** What [count_opt] sees of the abstract value. *)
Definition count_seen (m : gmap (list Z) Item) (pk : list Z) (h : gmap (list Z) (list Z)) : option Z :=
  match live now pk m with Some _ => Some (Z.of_nat (size h)) | None => None end.

Lemma runs_count_opt_writable pk legacy id m p h :
  writable now ty m pk legacy id p h → Runs (count_opt now ty pk) m (Ret (count_seen m pk h)) m.
Proof.
  intros [Hw Hs _ _ _]. unfold count_seen. destruct (live now pk m) as [i|] eqn:El.
  - destruct Hw as (Hty & _ & Hc). eapply runs_bind; [apply runs_caught; eapply runs_read_count; try done; lia|].
    apply runs_ret.
  - pose proof (runs_read_sentinel pk m) as H. rewrite El in H.
    eapply runs_bind; [apply runs_caught_fail, H|]. apply runs_ret.
Qed.

Lemma runs_count_opt pk legacy m h :
  stored now ty m pk legacy h → Runs (count_opt now ty pk) m (Ret (count_seen m pk h)) m.
Proof.
  intros Hs. unfold count_seen. pose proof (runs_read_sentinel pk m) as H.
  destruct Hs as [Hl _|i p h [Hl Hty Hc _ Hsz _ _ _]]; rewrite Hl in H |- *.
  - eapply runs_bind; [apply runs_caught_fail, H|]. apply runs_ret.
  - eapply runs_bind; [apply runs_caught; eapply runs_read_count; try done; lia|]. apply runs_ret.
Qed.

Lemma runs_count_wrong_type pk m i :
  live now pk m = Some i → base_type (item_meta i) ≠ ty →
  Runs (count_opt now ty pk) m (Fail WrongType) m.
Proof.
  intros Hl Hty. pose proof (runs_read_sentinel pk m) as H. rewrite Hl in H.
  rewrite (proj2 (Z.eqb_neq _ _) Hty) in H. eapply runs_bind; [apply runs_caught_fail, H|]. apply runs_fail.
Qed.

(** The prefix a reading command resolves to. *)
Lemma runs_resolve_prefix pk legacy m h :
  stored now ty m pk legacy h →
  ∃ p, Runs (resolve_prefix now pk legacy) m (Ret p) m ∧ elements_at now m (prefix_bytes p) h.
Proof.
  intros [Hl He|i p h' [Hl _ _ Hp _ He _ _]].
  - exists (legacy_prefix legacy). split; [|done]. eapply runs_bind; [by apply runs_get|].
    rewrite lookup_live_live, Hl. apply runs_ret.
  - exists p. split; [|done]. eapply runs_bind; [by apply runs_get|]. rewrite lookup_live_live, Hl, Hp. apply runs_ret.
Qed.

Lemma runs_resolve_for_write pk legacy id m p h :
  writable now ty m pk legacy id p h → Runs (resolve_prefix_for_write now id pk legacy) m (Ret p) m.
Proof.
  intros [Hw _ _ _ _]. eapply runs_bind; [by apply runs_get|]. rewrite lookup_live_live.
  destruct (live now pk m) as [i|]; [destruct Hw as (_ & -> & _)|destruct Hw as (-> & _)]; apply runs_ret.
Qed.

Lemma writable_absent m pk legacy id p h :
  writable now ty m pk legacy id p h → live now pk m = None → h = ∅.
Proof. intros [Hw _ _ _ _] Hl. rewrite Hl in Hw. by destruct Hw as (_ & _ & ?). Qed.

(** A writing command that resolves the prefix of a key that is there. *)
Lemma runs_resolve_existing pk legacy id m p h i :
  writable now ty m pk legacy id p h → live now pk m = Some i →
  Runs (resolve_prefix now pk legacy) m (Ret p) m.
Proof.
  intros [Hw _ _ _ _] Hl. rewrite Hl in Hw. destruct Hw as (_ & Hp & _).
  eapply runs_bind; [by apply runs_get|]. rewrite lookup_live_live, Hl, Hp. apply runs_ret.
Qed.

(** ** Writing *)
Lemma prefix_of_cases i legacy p :
  prefix_of i legacy = Ok p →
  (is_namespaced (item_meta i) = true ∧ explicit p = true) ∨
  (is_namespaced (item_meta i) = false ∧ p = legacy_prefix legacy).
Proof.
  unfold prefix_of. destruct (is_namespaced (item_meta i)).
  - destruct (split_trailer (item_value i)) as [[]|]; [|done]. intros [= <-]. by left.
  - intros [= <-]. by right.
Qed.

(** Writing a sentinel with payload [pl] over the key, whose prefix it keeps. *)
Lemma runs_write_payload pk legacy p pl m :
  0 ≤ ty < 128 → good m → Z.of_nat (length (prefix_bytes p)) < 2 ^ 32 →
  match live now pk m with Some i => prefix_of i legacy = Ok p | None => explicit p = true end →
  ∃ i, item_expire_ts i = (live now pk m ≫= item_expire_ts) ∧
    Runs (write_sentinel now pk pl ty p) m (Ret ()) (<[pk := i]> m) ∧
    good (<[pk := i]> m) ∧ live now pk (<[pk := i]> m) = Some i ∧ base_type (item_meta i) = ty ∧
    payload i = Ok pl ∧ prefix_of i legacy = Ok p.
Proof.
  intros Hty [Hok Hkey] Hlen Hp.
  pose proof (runs_write_sentinel (raw:=raw) (ok:=ok) now pk pl ty p m Hnow Hok) as Hw.
  pose proof (encode_sentinel_decodes pl ty p pk (live now pk m ≫= item_expire_ts) legacy Hty Hlen) as Hdec.
  destruct (encode_sentinel _ ty p) as [value meta]. destruct Hdec as (Hpl & Hbt & Hpre).
  eexists. split; [|split; [apply Hw|]]; [done| |].
  { intros i Hl Hns. rewrite Hl in Hp. apply prefix_of_cases in Hp as [[_ ?]|[? _]]; congruence. }
  set (i := mkItem pk value meta (live now pk m ≫= item_expire_ts)) in *.
  assert (item_ok i ∧ is_expired now i = false) as [Hi Hlive].
  { unfold item_ok, is_expired, item_ttl, i. simpl. destruct (live now pk m) as [j|] eqn:El; simpl; [|done].
    split; [exact (live_ok _ _ _ _ Hok El)|]. by apply live_Some in El as [_ El]. }
  split_and!; try done.
  - split; [by apply store_ok_insert|]. intros k j. rewrite lookup_insert. case_decide; [|apply Hkey].
    subst k. by intros [= <-].
  - apply live_Some. by rewrite lookup_insert_eq.
  - rewrite Hpre. destruct (explicit p) eqn:Ee; [done|]. destruct (live now pk m) as [j|]; [|done].
    by apply prefix_of_cases in Hp as [[_ ?]|[_ ->]]; [congruence|].
Qed.

(** Writing the count turns the elements found under the prefix into the stored value;
    the key keeps its expiry. *)
Lemma runs_write_count pk legacy p m h :
  0 ≤ ty < 128 → good m → layout pk legacy p →
  match live now pk m with Some i => prefix_of i legacy = Ok p | None => explicit p = true end →
  elements_at now m (prefix_bytes p) h → Z.of_nat (size h) < 2 ^ 32 →
  (explicit p = true → elements_at now m legacy ∅) →
  ∃ i, item_expire_ts i = (live now pk m ≫= item_expire_ts) ∧
    Runs (write_count now ty pk (Z.of_nat (size h)) p) m (Ret ()) (<[pk := i]> m) ∧
    good (<[pk := i]> m) ∧ stored_at now ty (<[pk := i]> m) pk legacy i p h.
Proof.
  intros Hty Hg Hlay Hp He Hs Hleg.
  destruct (runs_write_payload pk legacy p (be_bytes 4 (Z.of_nat (size h))) m) as (i & Hexp & Hrun & Hg' & Hl & ? & ? & ?);
    [done..|apply Hlay|done|].
  assert (∀ q hq, (∀ f, element_key q f ≠ pk) → elements_at now m q hq → elements_at now (<[pk := i]> m) q hq)
    as Hstep.
  { intros q hq Hne Hq f. rewrite live_insert_ne by (by symmetry). apply Hq. }
  exists i. split_and!; [done..|]. split; try done.
  - apply Hstep; [apply Hlay|done].
  - intros Hx. apply Hstep; [apply Hlay|auto].
Qed.

(** One element written or deleted. *)
Lemma elements_at_insert m p f v h i :
  elements_at now m p h → item_value i = v → is_expired now i = false →
  elements_at now (<[element_key p f := i]> m) p (<[f := v]> h).
Proof.
  intros He Hv Hl g. destruct (decide (g = f)) as [->|Hne].
  - rewrite lookup_insert_eq. rewrite (proj2 (live_Some _ _ _ i)); [by rewrite <- Hv|].
    by rewrite lookup_insert_eq.
  - rewrite lookup_insert_ne, live_insert_ne by (done || by intros ?%element_key_inj). apply He.
Qed.

Lemma elements_at_delete m p f h :
  elements_at now m p h → elements_at now (delete (element_key p f) m) p (delete f h).
Proof.
  intros He g. destruct (decide (g = f)) as [->|Hne].
  - by rewrite live_delete, lookup_delete_eq.
  - rewrite lookup_delete_ne by done. rewrite <- He. unfold live, lookup_live.
    by rewrite lookup_delete_ne by (by intros ?%element_key_inj).
Qed.

Lemma same_outside_insert p f i m : same_outside p m (<[element_key p f := i]> m).
Proof. intros k Hk. by rewrite lookup_insert_ne. Qed.
Lemma same_outside_delete p f m : same_outside p m (delete (element_key p f) m).
Proof. intros k Hk. by rewrite lookup_delete_ne. Qed.

(** What is outside the elements stays. *)
Lemma same_outside_live p m m' k :
  same_outside p m m' → (∀ f, k ≠ element_key p f) → live now k m' = live now k m.
Proof. intros Hs Hk. unfold live, lookup_live. by rewrite (Hs k Hk). Qed.

Lemma same_outside_elements p q m m' h :
  same_outside p m m' → (∀ f g, element_key p f ≠ element_key q g) →
  elements_at now m q h → elements_at now m' q h.
Proof.
  intros Hs Hne He g. rewrite (same_outside_live p m m' _ Hs); [apply He|].
  intros f Hf. exact (Hne f g (eq_sym Hf)).
Qed.

Lemma good_insert k v meta m : good m → good (<[k := mkItem k v meta None]> m).
Proof.
  intros [Hs Hk]. split; [by apply store_ok_insert|]. intros k' i. rewrite lookup_insert.
  case_decide; [|apply Hk]. subst. by intros [= <-].
Qed.
Lemma good_delete k m : good m → good (delete k m).
Proof.
  intros [Hs Hk]. split; [by apply store_ok_delete|]. intros k' i [_ Hi]%lookup_delete_Some. by apply Hk.
Qed.

(** The elements rewritten to [h'], everything else as it was. *)
Record rewritten (p : list Z) (m m' : gmap (list Z) Item) (h' : gmap (list Z) (list Z)) : Prop := {
  rw_good : good m';
  rw_elements : elements_at now m' p h';
  rw_outside : same_outside p m m'
}.

Lemma rewritten_refl p m h : good m → elements_at now m p h → rewritten p m m h.
Proof. by split. Qed.

Lemma rewritten_trans p m1 m2 m3 h2 h3 :
  rewritten p m1 m2 h2 → rewritten p m2 m3 h3 → rewritten p m1 m3 h3.
Proof. intros [_ _ H1] [? ? H2]. split; [done..|]. by transitivity m2. Qed.

(** One element set, without expiry, or deleted. *)
Lemma runs_set_element p f v meta m h :
  good m → elements_at now m p h →
  ∃ m', Runs (set now (with_metadata (entry_new (element_key p f) v) meta)) m (Ret ()) m' ∧
    rewritten p m m' (<[f := v]> h).
Proof.
  intros Hg He. eexists. split; [apply (runs_set Hnow); by apply entry_ok_no_ttl|]. simpl. split.
  - by apply good_insert.
  - by apply elements_at_insert.
  - apply same_outside_insert.
Qed.

Lemma rewritten_delete p f m h :
  good m → elements_at now m p h → rewritten p m (delete (element_key p f) m) (delete f h).
Proof.
  intros Hg He. split; [by apply good_delete|by apply elements_at_delete|apply same_outside_delete].
Qed.

Lemma runs_delete_element p f m h :
  good m → elements_at now m p h →
  ∃ m', Runs (del (element_key p f)) m (Ret ()) m' ∧ rewritten p m m' (delete f h).
Proof. intros Hg He. eexists. split; [apply runs_del|by apply rewritten_delete]. Qed.

(** Reading an element reads the abstract value. *)
Lemma live_element p f m h :
  elements_at now m p h →
  match live now (element_key p f) m with Some i => h !! f = Some (item_value i) | None => h !! f = None end.
Proof. intros He. rewrite <- (He f). by destruct (live now (element_key p f) m). Qed.

(** ** The whole value updated *)

(** The prefix the value uses, or would use when it is created. *)
Definition used_prefix (m : gmap (list Z) Item) (pk legacy id : list Z) : result ElementPrefix DbError :=
  match live now pk m with Some i => prefix_of i legacy | None => new_namespace id legacy end.

(** From [m] to [m'] the value under [pk] became [h']: nothing but its key and its
    elements under [p] changed, a key that is still there keeps prefix and expiry, and the
    key of a value that was emptied is gone. *)
Record updated (m : gmap (list Z) Item) (pk legacy : list Z) (p : ElementPrefix)
    (m' : gmap (list Z) Item) (h' : gmap (list Z) (list Z)) : Prop := {
  up_good : good m';
  up_stored : stored now ty m' pk legacy h';
  up_frame : ∀ k : list Z, k ≠ pk → (∀ f, k ≠ element_key (prefix_bytes p) f) → m' !! k = m !! k;
  up_key i : live now pk m' = Some i →
    prefix_of i legacy = Ok p ∧ item_expire_ts i = (live now pk m ≫= item_expire_ts);
  up_gone : h' = ∅ → live now pk m' = None ∨ m' = m
}.

Lemma writable_used m pk legacy id p h :
  writable now ty m pk legacy id p h → used_prefix m pk legacy id = Ok p.
Proof.
  intros [Hw _ _ _ _]. unfold used_prefix.
  destruct (live now pk m); [by destruct Hw as (_ & ? & _)|by destruct Hw].
Qed.

Lemma writable_unchanged m pk legacy id p h :
  good m → writable now ty m pk legacy id p h → (live now pk m = None → elements_at now m legacy ∅) →
  updated m pk legacy p m h.
Proof.
  intros Hg [Hw Hs He Hlay Hleg] Hn. destruct (live now pk m) as [i|] eqn:El.
  - destruct Hw as (? & ? & ?). split; [done| |done| |by right].
    + by eapply stored_some with i p.
    + intros j Hj. rewrite El in Hj. injection Hj as <-. split; [done|]. by rewrite El.
  - destruct Hw as (_ & _ & ->). split; [done| |done| |by right].
    + apply stored_none; auto.
    + intros j Hj. congruence.
Qed.

(** Writing the new count after the elements were rewritten. *)
Lemma runs_write_updated m pk legacy id p h m1 h' :
  0 ≤ ty < 128 → writable now ty m pk legacy id p h → rewritten (prefix_bytes p) m m1 h' →
  Z.of_nat (size h') < 2 ^ 32 → h' ≠ ∅ →
  ∃ m', Runs (write_count now ty pk (Z.of_nat (size h')) p) m1 (Ret ()) m' ∧ updated m pk legacy p m' h'.
Proof.
  intros Hty [Hw Hs He Hlay Hleg] [Hg He1 Ho] Hs' Hne.
  assert (live now pk m1 = live now pk m) as Hl.
  { apply (same_outside_live _ _ _ _ Ho). intros f Hf. by eapply (lay_public _ _ _ Hlay f). }
  destruct (runs_write_count pk legacy p m1 h') as (i & Hexp & Hrun & Hg' & Hst); try done.
  { rewrite Hl. destruct (live now pk m) as [j|]; [by destruct Hw as (_ & ? & _)|by destruct Hw as (_ & ? & _)]. }
  { intros Hx. apply (same_outside_elements _ _ _ _ _ Ho); [|auto]. by apply (lay_explicit _ _ _ Hlay). }
  exists (<[pk := i]> m1). split; [done|]. split; [done|by eapply stored_some| | |done].
  - intros k Hk Hf. rewrite lookup_insert_ne by done. by apply Ho.
  - intros j Hj. rewrite (sa_live _ _ _ _ _ _ _ _ Hst) in Hj. injection Hj as <-.
    split; [by apply Hst|]. by rewrite Hexp, Hl.
Qed.

(** Elements rewritten without a change of their number: the sentinel stays right. *)
Lemma rewritten_updated m pk legacy id p h m1 h' :
  writable now ty m pk legacy id p h → rewritten (prefix_bytes p) m m1 h' → size h' = size h → h' ≠ ∅ →
  is_Some (live now pk m) → updated m pk legacy p m1 h'.
Proof.
  intros [Hw Hs He Hlay Hleg] [Hg He1 Ho] Hsz Hne [i Hi].
  assert (live now pk m1 = live now pk m) as Hl.
  { apply (same_outside_live _ _ _ _ Ho). intros f Hf. by eapply (lay_public _ _ _ Hlay f). }
  rewrite Hi in Hw. destruct Hw as (Hty & Hp & Hc). split; [done| | | |done].
  - eapply stored_some with i p. split; rewrite ?Hl, ?Hsz; try done.
    intros Hx. apply (same_outside_elements _ _ _ _ _ Ho); [|auto]. by apply (lay_explicit _ _ _ Hlay).
  - intros k _ Hk. by apply Ho.
  - intros j. rewrite Hl, Hi. by intros [= <-].
Qed.

(** The count read after the elements were rewritten. *)
Lemma runs_count_after m pk legacy id p h m1 h' :
  writable now ty m pk legacy id p h → rewritten (prefix_bytes p) m m1 h' →
  Runs (count_opt now ty pk) m1 (Ret (count_seen m pk h)) m1.
Proof.
  intros [Hw Hs _ Hlay _] [_ _ Ho].
  assert (live now pk m1 = live now pk m) as Hl.
  { apply (same_outside_live _ _ _ _ Ho). intros f Hf. by eapply (lay_public _ _ _ Hlay f). }
  unfold count_seen. pose proof (runs_read_sentinel pk m1) as H. rewrite Hl in H.
  destruct (live now pk m) as [i|] eqn:El.
  - destruct Hw as (Hty & _ & Hc).
    eapply runs_bind; [apply runs_caught; eapply runs_read_count; try done; lia|]. apply runs_ret.
  - eapply runs_bind; [apply runs_caught_fail, H|]. apply runs_ret.
Qed.

(** Deleting the key after the last element was deleted. *)
Lemma runs_delete_updated m pk legacy id p h m1 :
  writable now ty m pk legacy id p h → rewritten (prefix_bytes p) m m1 ∅ →
  ∃ m', Runs (del pk) m1 (Ret ()) m' ∧ updated m pk legacy p m' ∅.
Proof.
  intros [Hw Hs He Hlay Hleg] [Hg He1 Ho]. exists (delete pk m1). split; [apply runs_del|].
  assert (∀ q hq, (∀ f, element_key q f ≠ pk) → elements_at now m1 q hq → elements_at now (delete pk m1) q hq)
    as Hstep.
  { intros q hq Hne Hq f. unfold live, lookup_live. rewrite lookup_delete_ne by (by symmetry). apply Hq. }
  split; [by apply good_delete| | | |by left; apply live_delete].
  - apply stored_none; [by apply live_delete|]. apply Hstep; [apply Hlay|].
    destruct (explicit p) eqn:Ee.
    + apply (same_outside_elements _ _ _ _ _ Ho); [by apply (lay_explicit _ _ _ Hlay)|auto].
    + destruct (live now pk m) as [j|]; [|by destruct Hw as (_ & ? & _); congruence].
      destruct Hw as (_ & Hp & _). by apply prefix_of_cases in Hp as [[_ ?]|[_ ->]]; [congruence|].
  - intros k Hk Hf. rewrite lookup_delete_ne by done. by apply Ho.
  - intros i. by rewrite live_delete.
Qed.

(** Removing elements: the key goes with the last of them. *)
Lemma runs_shrink m pk legacy id p h m1 h' :
  0 ≤ ty < 128 → writable now ty m pk legacy id p h → rewritten (prefix_bytes p) m m1 h' →
  Z.of_nat (size h') < 2 ^ 32 →
  ∃ m', Runs (if Z.of_nat (size h') =? 0 then del pk else write_count now ty pk (Z.of_nat (size h')) p)
          m1 (Ret ()) m' ∧ updated m pk legacy p m' h'.
Proof.
  intros Hty Hw Hr Hs. destruct (Z.eqb_spec (Z.of_nat (size h')) 0) as [H0|n].
  - assert (h' = ∅) as -> by (apply map_size_empty_inv; lia). by eapply runs_delete_updated.
  - eapply runs_write_updated; try done. intros ->. by rewrite map_size_empty in n.
Qed.

(** The contents of a value are determined by the store. *)
Lemma stored_unique m pk legacy h h' : stored now ty m pk legacy h → stored now ty m pk legacy h' → h = h'.
Proof.
  intros [Hl _|i p h1 H1] [Hl' _|i' p' h2 H2]; try done.
  - by rewrite (sa_live _ _ _ _ _ _ _ _ H2) in Hl.
  - by rewrite (sa_live _ _ _ _ _ _ _ _ H1) in Hl'.
  - pose proof (sa_live _ _ _ _ _ _ _ _ H1) as E. rewrite (sa_live _ _ _ _ _ _ _ _ H2) in E. injection E as ->.
    pose proof (sa_prefix _ _ _ _ _ _ _ _ H1) as E. rewrite (sa_prefix _ _ _ _ _ _ _ _ H2) in E. injection E as ->.
    apply map_eq. intros f. by rewrite <- (sa_elements _ _ _ _ _ _ _ _ H1 f), <- (sa_elements _ _ _ _ _ _ _ _ H2 f).
Qed.

Lemma stored_gone m pk legacy h : stored now ty m pk legacy h → live now pk m = None → h = ∅.
Proof. intros [Hl _|i p h' H]; [done|]. by rewrite (sa_live _ _ _ _ _ _ _ _ H). Qed.

(** An update keeps the keys of empty values gone. *)
Lemma updated_tidy m pk legacy p h m' h' :
  stored now ty m pk legacy h → updated m pk legacy p m' h' →
  (h = ∅ → live now pk m = None) → h' = ∅ → live now pk m' = None.
Proof.
  intros Hst Hu Ht He. destruct (up_gone _ _ _ _ _ _ Hu He) as [?| ->]; [done|]. apply Ht. rewrite <- He.
  by apply (stored_unique m pk legacy); [|apply Hu].
Qed.

Lemma stored_at_writable m pk legacy id i p h :
  stored_at now ty m pk legacy i p h → writable now ty m pk legacy id p h.
Proof. intros [Hl Hty Hc Hp Hs He Hlay Hleg]. split; try done. by rewrite Hl. Qed.
End Runs.

(** ** Several values in one store *)

(** The keys the value under [pk] is made of. *)
Definition in_value (now : Z) (m : gmap (list Z) Item) (pk legacy k : list Z) : Prop :=
  k = pk ∨ (∃ f, k = element_key legacy f) ∨
  ∃ i q f, live now pk m = Some i ∧ prefix_of i legacy = Ok q ∧ k = element_key (prefix_bytes q) f.

(** Writing under [pk'] and [p] does not touch the value under [pk]. *)
Definition apart (now : Z) (m : gmap (list Z) Item) (pk legacy pk' p : list Z) : Prop :=
  ∀ k, in_value now m pk legacy k → k ≠ pk' ∧ ∀ f, k ≠ element_key p f.

Lemma stored_frame now ty m m' pk legacy h :
  (∀ k : list Z, in_value now m pk legacy k → m' !! k = m !! k) →
  stored now ty m pk legacy h → stored now ty m' pk legacy h.
Proof.
  intros Hf Hst.
  assert (∀ k, in_value now m pk legacy k → live now k m' = live now k m) as Hl.
  { intros k Hk. unfold live, lookup_live. by rewrite Hf. }
  destruct Hst as [Hn He|i p h [Hi Hty Hc Hp Hs He Hlay Hleg]].
  - apply stored_none; [rewrite Hl; [done|by left]|].
    intros f. rewrite Hl; [apply He|]. right. left. eauto.
  - eapply stored_some with i p. split; try done.
    + rewrite Hl; [done|by left].
    + intros f. rewrite Hl; [apply He|]. right. right. eauto 10.
    + intros Hx f. rewrite Hl; [by apply Hleg|]. right. left. eauto.
Qed.

Lemma updated_other now ty ty2 m pk legacy p m' h' pk2 legacy2 h2 :
  updated (now:=now) ty m pk legacy p m' h' → apart now m pk2 legacy2 pk (prefix_bytes p) →
  stored now ty2 m pk2 legacy2 h2 → stored now ty2 m' pk2 legacy2 h2.
Proof.
  intros Hu Ha. apply stored_frame. intros k Hk. destruct (Ha k Hk) as [Hne Hf].
  by apply (up_frame _ _ _ _ _ _ _ Hu).
Qed.

(** An update keeps the value apart from what it was apart from. *)
Lemma updated_apart now ty m pk legacy p m' h' i pk' q :
  updated (now:=now) ty m pk legacy p m' h' → live now pk m = Some i → prefix_of i legacy = Ok p →
  apart now m pk legacy pk' q → apart now m' pk legacy pk' q.
Proof.
  intros Hu Hl Hp Ha k Hk. apply Ha. destruct Hk as [->|[[f ->]|(j & r & f & Hj & Hr & ->)]].
  - by left.
  - right. left. eauto.
  - destruct (up_key _ _ _ _ _ _ _ Hu j Hj) as [Hj' _]. rewrite Hr in Hj'. injection Hj' as ->.
    right. right. eauto 10.
Qed.

(** A key that is not touched resolves to the same prefix. *)
Lemma updated_used now ty m pk legacy p m' h' pk2 legacy2 id :
  updated (now:=now) ty m pk legacy p m' h' → apart now m pk2 legacy2 pk (prefix_bytes p) →
  used_prefix (now:=now) m' pk2 legacy2 id = used_prefix (now:=now) m pk2 legacy2 id.
Proof.
  intros Hu Ha. unfold used_prefix. destruct (Ha pk2 ltac:(by left)) as [Hne Hf].
  unfold live, lookup_live. by rewrite (up_frame _ _ _ _ _ _ _ Hu).
Qed.

Lemma updated_fresh now ty m pk legacy p m' h' pk2 legacy2 id i :
  updated (now:=now) ty m pk legacy p m' h' → live now pk m = Some i → prefix_of i legacy = Ok p →
  (∀ q, new_namespace id legacy2 = Ok q → apart now m pk legacy pk2 (prefix_bytes q)) →
  fresh now m pk2 legacy2 id → fresh now m' pk2 legacy2 id.
Proof.
  intros Hu Hl Hp Ha (q & Hq & He & Hlay). exists q. split_and!; [done| |done].
  specialize (Ha q Hq). intros f. unfold live, lookup_live. rewrite (up_frame _ _ _ _ _ _ _ Hu); [apply He| |].
  - destruct (Ha pk ltac:(by left)) as [_ Hf]. intros E. by apply (Hf f).
  - intros g E. destruct (Ha (element_key (prefix_bytes p) g)) as [_ Hf]; [right; right; eauto 10|].
    by apply (Hf f).
Qed.

(** ** Scanning *)

(** The elements in the order of their names. *)
Definition pair_le (a b : list Z * list Z) : Prop := bytes_le a.1 b.1 = true.
#[export] Instance pair_le_dec : RelDecision pair_le.
Proof. intros a b. unfold pair_le. apply _. Defined.
#[export] Instance pair_le_trans : Transitive pair_le.
Proof. intros a b c. apply bytes_le_trans. Qed.
#[export] Instance pair_le_total : Total pair_le.
Proof. intros a b. apply bytes_le_total. Qed.

Definition sorted_pairs (h : gmap (list Z) (list Z)) : list (list Z * list Z) :=
  merge_sort pair_le (map_to_list h).

Lemma sorted_pairs_elem h f v : (f, v) ∈ sorted_pairs h ↔ h !! f = Some v.
Proof. unfold sorted_pairs. by rewrite merge_sort_Permutation, elem_of_map_to_list. Qed.

Lemma sorted_pairs_nodup h : NoDup (sorted_pairs h).*1.
Proof. unfold sorted_pairs. rewrite merge_sort_Permutation. apply NoDup_fst_map_to_list. Qed.

Lemma sorted_pairs_length h : length (sorted_pairs h) = size h.
Proof. unfold sorted_pairs. by rewrite merge_sort_Permutation, length_map_to_list. Qed.

Lemma sorted_pairs_empty : sorted_pairs ∅ = [].
Proof. done. Qed.

Lemma scan_where_nodup now P m : keyed m → NoDup (item_key <$> scan_where now P m).
Proof.
  intros Hk. unfold scan_where. rewrite merge_sort_Permutation.
  eapply sublist_NoDup; [|apply fmap_sublist, sublist_filter]. rewrite <- list_fmap_compose.
  erewrite list_fmap_ext; [apply (NoDup_fst_map_to_list m)|].
  intros i [k x] Hi%list_elem_of_lookup_2%elem_of_map_to_list. by apply Hk.
Qed.
Lemma scan_keys_nodup now p m : keyed m → NoDup (item_key <$> scan_prefix now p m).
Proof. apply scan_where_nodup. Qed.

Definition key_value (i : Item) : list Z * list Z := (item_key i, item_value i).

(** A prefix scan of a collection sees its elements, by name. *)
Lemma scan_elements now m p h :
  keyed m → elements_at now m p h →
  key_value <$> scan_prefix now (elements_prefix p) m = prod_map (element_key p) id <$> sorted_pairs h.
Proof.
  intros Hk He.
  assert (∀ i, i ∈ scan_prefix now (elements_prefix p) m →
    ∃ f, item_key i = element_key p f ∧ h !! f = Some (item_value i)) as Hin.
  { intros i ([k Hi] & [f Hf]%starts_with_spec & Hl)%scan_prefix_elem. pose proof (Hk _ _ Hi). subst k.
    rewrite <- element_key_prefix in Hf. exists f. split; [done|]. rewrite <- He, <- Hf.
    by rewrite (proj2 (live_Some _ _ _ i)). }
  apply (Sorted_unique_strong pair_le).
  - intros x1 x2 (i & -> & Hi)%list_elem_of_fmap ([g v] & -> & Hg%sorted_pairs_elem)%list_elem_of_fmap H1 H2.
    destruct (Hin i Hi) as (f & Hf & Hv). unfold pair_le in *. simpl in *.
    pose proof (bytes_le_antisym _ _ H1 H2) as E. unfold key_value, prod_map. simpl. rewrite E.
    rewrite Hf in E. apply element_key_inj in E as ->. congruence.
  - eapply Sorted_fmap, Sorted_merge_sort; [|apply _]. done.
  - eapply Sorted_fmap, Sorted_merge_sort; [|apply _]. intros [a ?] [b ?]. unfold pair_le. simpl.
    by rewrite !element_key_prefix, bytes_le_app.
  - apply NoDup_Permutation.
    + apply (NoDup_fmap_1 fst). rewrite <- list_fmap_compose. by apply (scan_keys_nodup now _ m).
    + apply (NoDup_fmap_1 fst). rewrite <- list_fmap_compose.
      change (NoDup (element_key p ∘ fst <$> sorted_pairs h)). rewrite (list_fmap_compose fst (element_key p)).
      apply NoDup_fmap_2, sorted_pairs_nodup. intros a b. apply element_key_inj.
    + intros [k v]. rewrite !list_elem_of_fmap. split.
      * intros (i & [= -> ->] & Hi). destruct (Hin i Hi) as (f & Hf & Hv). exists (f, item_value i).
        rewrite sorted_pairs_elem. split; [|done]. unfold prod_map. simpl. by rewrite Hf.
      * intros ([f w] & [= -> ->] & Hf%sorted_pairs_elem). rewrite <- He in Hf.
        apply fmap_Some in Hf as (i & [Hi Hx]%live_Some & ->). exists i. pose proof (Hk _ _ Hi) as E.
        split; [unfold key_value; by rewrite E|]. apply scan_prefix_elem. split_and!; [eauto| |done].
        rewrite E, element_key_prefix. apply starts_with_app.
Qed.

(** Values come out in the order of the names, whatever the names. *)
Lemma scan_values now m p h items :
  keyed m → elements_at now m p h →
  item_data <$> items = item_data <$> scan_prefix now (elements_prefix p) m →
  item_value <$> items = (sorted_pairs h).*2.
Proof.
  intros Hk He Hi. apply (f_equal (fmap (λ d : list Z * list Z * Z, d.1.2))) in Hi.
  rewrite <- !list_fmap_compose in Hi. transitivity ((key_value <$> scan_prefix now (elements_prefix p) m).*2).
  - rewrite <- list_fmap_compose. exact Hi.
  - rewrite (scan_elements now m p h) by done. rewrite <- list_fmap_compose. by apply list_fmap_ext.
Qed.

Lemma scan_keys now m p h items :
  keyed m → elements_at now m p h →
  item_data <$> items = item_data <$> scan_prefix now (elements_prefix p) m →
  item_key <$> items = element_key p <$> (sorted_pairs h).*1.
Proof.
  intros Hk He Hi. apply (f_equal (fmap (λ d : list Z * list Z * Z, d.1.1))) in Hi.
  rewrite <- !list_fmap_compose in Hi. transitivity ((key_value <$> scan_prefix now (elements_prefix p) m).*1).
  - rewrite <- list_fmap_compose. exact Hi.
  - rewrite (scan_elements now m p h) by done. rewrite <- !list_fmap_compose. by apply list_fmap_ext.
Qed.

(** Names the separator does not cut. *)
Definition plain_names (h : gmap (list Z) (list Z)) : Prop := ∀ f v, h !! f = Some v → 0 ∉ f.

(** What a command makes of a scanned item: the name and the content. *)
Definition element_of (i : Item) : list Z * list Z := (element_from_key (item_key i), item_value i).

Lemma scan_names now m p h items :
  keyed m → elements_at now m p h → plain_names h →
  item_data <$> items = item_data <$> scan_prefix now (elements_prefix p) m →
  element_of <$> items = sorted_pairs h.
Proof.
  intros Hk He Hn Hi. apply (f_equal (fmap (λ d : list Z * list Z * Z, d.1))) in Hi.
  rewrite <- !list_fmap_compose in Hi. change (key_value <$> items = key_value <$> scan_prefix now (elements_prefix p) m) in Hi.
  rewrite (scan_elements now m p h) in Hi by done.
  apply (f_equal (fmap (prod_map element_from_key id))) in Hi. rewrite <- !list_fmap_compose in Hi.
  transitivity (prod_map element_from_key id ∘ key_value <$> items); [done|]. rewrite Hi.
  rewrite <- (list_fmap_id (sorted_pairs h)) at 2. apply list_fmap_ext.
  intros j [f v] Hj%list_elem_of_lookup_2%sorted_pairs_elem. unfold prod_map. simpl.
  by rewrite element_from_key_key by (by eapply Hn).
Qed.

Section RunsScan.
Context {T : Type} `{!TxOps T} {raw : T → gmap (list Z) Item} {ok : T → Prop}.
Context `{HT : !TxLaws T raw ok, HS : !TxScanLaws T raw ok} {now : Z} (Hnow : clock_ok now).
#[local] Abbreviation Runs := (Runs (raw:=raw) (ok:=ok)).

Lemma runs_scan_bind {A} prefix (k : list Item → DbM T A) m r m' :
  (∀ items, item_data <$> items = item_data <$> scan_prefix now prefix m → Runs (k items) m r m') →
  Runs (scan now prefix ≫= k) m r m'.
Proof.
  intros Hk t Ht Hm. destruct (tx_scan_law now prefix t Hnow Ht) as (it & t1 & E & Ht1 & Hm1 & Herr & Hit & _).
  rewrite Hm in Hit, Hm1. destruct (Hk (iter_items it) Hit t1 Ht1 Hm1) as (t2 & E2 & Ht2 & Hm2).
  exists t2. split; [|done]. unfold scan, prefix_iter, mbind, DbM_bind. rewrite E. simpl.
  unfold mret, DbM_ret. by rewrite Herr.
Qed.

(** The same for a command that holds the iterator. *)
Lemma runs_iter_bind {A} prefix (k : Iter → DbM T A) m r m' :
  (∀ it, iter_err it = None → item_data <$> iter_items it = item_data <$> scan_prefix now prefix m → all_live now it →
     Runs (k it) m r m') →
  Runs (r ← prefix_iter now prefix; it ← try_kv r; k it) m r m'.
Proof.
  intros Hk t Ht Hm. destruct (tx_scan_law now prefix t Hnow Ht) as (it & t1 & E & Ht1 & Hm1 & Herr & Hit & Hlv).
  rewrite Hm in Hit, Hm1. destruct (Hk it Herr Hit Hlv t1 Ht1 Hm1) as (t2 & E2 & Ht2 & Hm2).
  exists t2. split; [|done]. unfold prefix_iter, mbind, DbM_bind. by rewrite E.
Qed.

(** A command that goes through the elements sees the abstract value, in order. *)
Lemma runs_scan_elements {A} p h (k : list Item → DbM T A) m r m' :
  keyed m → elements_at now m p h → plain_names h →
  (∀ items, element_of <$> items = sorted_pairs h → Runs (k items) m r m') →
  Runs (scan now (elements_prefix p) ≫= k) m r m'.
Proof. intros Hkey He Hn Hk. apply runs_scan_bind. intros items Hi. by eapply Hk, scan_names. Qed.
End RunsScan.

(** ** The keys of a session *)

(** A command on one key, allowed in a transaction. *)
Definition on_key {T} (s : Session T) (key : list Z) (op : Z → DbM T DbResult) (w : WireOp) (mutating : bool)
  : QueuedOp T :=
  mkQueuedOp (tx_op op) w mutating true false (Some (key_sv s key)).

(** The namespace the random [id] gives in the database of [s]. *)
Definition namespace_of {T} (s : Session T) (id : list Z) : list Z :=
  B "+" ++ to_dec (current_db s) ++ B ":" ++ id.

(** Databases SELECT accepts, keys that fit a bulk string. *)
Definition session_ok {T} (s : Session T) : Prop := 0 ≤ current_db s ≤ i64_max.
Definition key_ok (key : list Z) : Prop := Z.of_nat (length key) < 2 ^ 31.
Definition id_ok (id : list Z) : Prop := length id = NAMESPACE_ID_LEN.

Section Layouts.
Context {T : Type} (s : Session T) (Hs : session_ok s).

Lemma session_namespace key id :
  new_namespace id (private_key s key) = Ok (explicit_prefix (namespace_of s id)).
Proof.
  unfold private_key, prefix. rewrite <- app_assoc. apply (new_namespace_db 45); [done|]. apply Hs.
Qed.

Lemma public_key_head key c l : public_key s key = c :: l → is_digit c = true.
Proof. unfold public_key, prefix. rewrite <- app_assoc. apply db_first_digit, Hs. Qed.

Lemma session_layout key p :
  key_ok key → p = legacy_prefix (private_key s key) ∨ (∃ id, id_ok id ∧ p = explicit_prefix (namespace_of s id)) →
  layout (public_key s key) (private_key s key) p.
Proof.
  intros Hk Hp. unfold session_ok, key_ok in *.
  assert (length (to_dec (current_db s)) ≤ 20)%nat by (apply length_to_dec; width_lia).
  assert (∀ c l, is_digit c = false → c :: l ≠ public_key s key) as Hne.
  { intros c l Hc E. symmetry in E. apply public_key_head in E. congruence. }
  split.
  - intros f. destruct Hp as [->|(id & _ & ->)]; by apply Hne.
  - intros f. by apply Hne.
  - destruct Hp as [->|(id & _ & ->)]; [done|]. intros _ f g. done.
  - destruct Hp as [->|(id & Hid & ->)]; unfold id_ok, NAMESPACE_ID_LEN in *; simpl;
      rewrite ?length_app; simpl; [unfold public_key, prefix; rewrite ?length_app; simpl|]; lia.
Qed.

(** Two namespaces do not overlap. *)
Lemma namespace_inj id1 id2 f g :
  id_ok id1 → id_ok id2 →
  element_key (namespace_of s id1) f = element_key (namespace_of s id2) g → id1 = id2.
Proof.
  intros H1 H2. unfold element_key, namespace_of. rewrite <- !app_assoc. intros E.
  do 3 apply app_inv_head in E. apply app_inj_1 in E as [? _]; [done|]. unfold id_ok in *. lia.
Qed.

Lemma namespace_apart id key f g : element_key (namespace_of s id) f ≠ element_key (private_key s key) g.
Proof. done. Qed.

Context (key : list Z) (Hkey : key_ok key).

(** The namespace of [id] is not in use. *)
Definition unused (now : Z) (m : gmap (list Z) Item) (id : list Z) : Prop :=
  id_ok id ∧ elements_at now m (namespace_of s id) ∅.

Lemma unused_fresh now m id : unused now m id → fresh now m (public_key s key) (private_key s key) id.
Proof.
  intros [Hid He]. exists (explicit_prefix (namespace_of s id)). split_and!; [by apply session_namespace|done|].
  apply session_layout; [done..|]. right. eauto.
Qed.

(** The namespaces of [ids] are free for commands to come. *)
Record spare (now : Z) (m : gmap (list Z) Item) (ids : list (list Z)) : Prop := {
  sp_distinct : NoDup ids;
  sp_unused : Forall (unused now m) ids;
  sp_apart : ∀ i p, live now (public_key s key) m = Some i → prefix_of i (private_key s key) = Ok p →
    Forall (λ id, ∀ f g, element_key (prefix_bytes p) f ≠ element_key (namespace_of s id) g) ids
}.

Lemma frame_spare now m id ids p m' :
  spare now m (id :: ids) → used_prefix (now:=now) m (public_key s key) (private_key s key) id = Ok p →
  (∀ k : list Z, k ≠ public_key s key → (∀ f, k ≠ element_key (prefix_bytes p) f) → m' !! k = m !! k) →
  (∀ i, live now (public_key s key) m' = Some i → prefix_of i (private_key s key) = Ok p) →
  spare now m' ids.
Proof.
  intros [Hd Hu Ha] Hp Hf Hk. apply NoDup_cons in Hd as [Hnotin Hd]. apply Forall_cons in Hu as [[Hid _] Hu].
  assert (Forall (λ id', ∀ f g, element_key (prefix_bytes p) f ≠ element_key (namespace_of s id') g) ids) as Hap.
  { unfold used_prefix in Hp. destruct (live now (public_key s key) m) as [i|] eqn:El.
    - specialize (Ha i p eq_refl Hp). by apply Forall_cons in Ha as [_ Ha].
    - rewrite session_namespace in Hp. injection Hp as <-. apply Forall_forall. intros id' Hin f g E.
      rewrite Forall_forall in Hu. destruct (Hu id' Hin) as [Hid' _].
      apply namespace_inj in E; [by subst|done..]. }
  split; [done| |].
  - rewrite Forall_forall in Hu, Hap |- *. intros id' Hin. destruct (Hu id' Hin) as [Hid' He]. split; [done|].
    intros f. specialize (Hap id' Hin). unfold live, lookup_live. rewrite Hf; [apply He| |].
    + apply (lay_public _ _ _ (session_layout key (explicit_prefix (namespace_of s id')) Hkey
        (or_intror (ex_intro _ id' (conj Hid' eq_refl)))) f).
    + intros g E. by apply (Hap g f).
  - intros i q Hl Hq. rewrite (Hk i Hl) in Hq. by injection Hq as <-.
Qed.
Lemma updated_spare now ty m id ids p m' h' :
  spare now m (id :: ids) → used_prefix (now:=now) m (public_key s key) (private_key s key) id = Ok p →
  updated (now:=now) ty m (public_key s key) (private_key s key) p m' h' → spare now m' ids.
Proof.
  intros Hsp Hp [_ _ Hf Hk]. eapply frame_spare; [done..|]. intros i Hi. by apply Hk.
Qed.
End Layouts.

(** ** Instances for concrete runs *)

Definition demo_session : Session (gmap (list Z) Item) := session_new 1.
Definition id_of (n : Z) : list Z := replicate 16 n.

Lemma good_empty : good ∅.
Proof. split; [apply store_ok_empty|]. by intros k i ?%lookup_empty_Some. Qed.
Lemma elements_at_empty now p : elements_at now ∅ p ∅.
Proof. intros f. unfold live, lookup_live. by rewrite !lookup_empty. Qed.
Lemma plain_names_empty : plain_names ∅.
Proof. by intros f v ?%lookup_empty_Some. Qed.

Lemma spare_empty {T} (s : Session T) key now ids :
  NoDup ids → Forall id_ok ids → spare s key now ∅ ids.
Proof.
  intros Hd Hi. split; [done| |done].
  eapply Forall_impl; [exact Hi|]. intros id Hid. split; [done|apply elements_at_empty].
Qed.
