(* ===== verification/Ranges.v ===== *)
(** * Scans between bounds

    What a range iterator yields, in terms of prefix scans: the items from a bound on,
    those with a prefix first, the items after a key, and filtered scans. Shared by the
    SCAN cursor of src/redis/keys.rs and the entry scans of src/redis/stream.rs. *)
From S2P Require Import Prelude Bytes Resp Kv Registry Op Namespace Session Elements.

Lemma sublist_filter_bool {A} (f : A → bool) l : List.filter f l `sublist_of` l.
Proof. induction l as [|x l IH]; simpl; [done|]. destruct (f x); by constructor. Qed.

Lemma starts_with_between p a b :
  bytes_le p a = true → starts_with p a = false → bytes_le a b = true → starts_with p b = false.
Proof.
  intros Hpa Hna Hab. destruct (starts_with p b) eqn:Hb; [|done]. exfalso. apply starts_with_spec in Hb as [s ->].
  assert (∃ r, a = p ++ r) as [r ->]; [|by rewrite starts_with_app in Hna].
  clear Hna. revert a Hpa Hab. induction p as [|x p IH]; intros [|y a]; simpl; [eauto..|done|].
  rewrite !orb_true_iff, !andb_true_iff, !Z.ltb_lt, !Z.eqb_eq. intros [?|[-> Hpa]] [?|[? Hab]]; try lia.
  destruct (IH a Hpa Hab) as [r ->]. by exists r.
Qed.

Lemma bytes_le_prefix p s : bytes_le p (p ++ s) = true.
Proof. rewrite <- (app_nil_r p) at 1. by rewrite bytes_le_app. Qed.

Section Ranges.
Context (now : Z) (m : gmap (list Z) Item) (Hk : keyed m).

Lemma scan_where_distinct P : NoDup (scan_where now P m).
Proof. by apply (NoDup_fmap_1 item_key), scan_where_nodup. Qed.

(** A sorted list of the items that satisfy [P] is the scan for them. *)
Lemma scan_where_unique P l :
  Sorted item_le l → NoDup l →
  (∀ i, i ∈ l ↔ (∃ k, m !! k = Some i) ∧ P (item_key i) = true ∧ is_expired now i = false) →
  scan_where now P m = l.
Proof.
  intros Hs Hnd Hl. apply (sorted_items_unique m); [done|..|done|].
  - intros i. rewrite scan_where_elem. tauto.
  - intros i. rewrite Hl. tauto.
  - apply Sorted_merge_sort. apply _.
  - apply NoDup_Permutation; [apply scan_where_distinct|done|].
    intros i. by rewrite scan_where_elem, Hl.
Qed.

Lemma scan_where_sorted P : StronglySorted item_le (scan_where now P m).
Proof. apply Sorted_StronglySorted; [apply _|]. apply Sorted_merge_sort. apply _. Qed.

(** The items from a bound on which is not below a prefix: first those with the prefix. *)
Lemma scan_range_split p lo hi :
  (∀ k, above lo k = true → bytes_le p k = true) →
  scan_range now lo hi m =
    scan_where now (λ k, in_bounds lo hi k && starts_with p k) m ++
    scan_where now (λ k, in_bounds lo hi k && negb (starts_with p k)) m.
Proof.
  intros Hlo. apply scan_where_unique.
  - apply StronglySorted_Sorted, StronglySorted_app_2; [|apply scan_where_sorted..].
    intros i j [_ [Hi _]]%scan_where_elem [_ [Hj _]]%scan_where_elem.
    apply andb_true_iff in Hi as [Hi1 Hi2], Hj as [Hj1 Hj2%negb_true_iff]. apply andb_true_iff in Hj1 as [Hj1 _].
    destruct (bytes_le_total (item_key i) (item_key j)) as [|H]; [done|].
    rewrite (starts_with_between p _ _ (Hlo _ Hj1) Hj2 H) in Hi2. done.
  - apply NoDup_app. split_and!; [apply scan_where_distinct| |apply scan_where_distinct].
    intros i [_ [Hi _]]%scan_where_elem [_ [Hj _]]%scan_where_elem.
    apply andb_true_iff in Hi as [_ Hi], Hj as [_ Hj]. by rewrite Hi in Hj.
  - intros i. rewrite elem_of_app, !scan_where_elem, !andb_true_iff.
    destruct (starts_with p (item_key i)); cbn [negb]; intuition done.
Qed.

Lemma scan_where_ext P Q : (∀ k, P k = Q k) → scan_where now P m = scan_where now Q m.
Proof. intros H. unfold scan_where. f_equal. apply list_filter_iff. intros i. by rewrite H. Qed.

Lemma scan_range_up p lo :
  (∀ k, above lo k = true → bytes_le p k = true) →
  scan_range now lo Unbounded m =
    scan_where now (λ k, above lo k && starts_with p k) m ++ scan_where now (λ k, above lo k && negb (starts_with p k)) m.
Proof.
  intros Hlo. rewrite (scan_range_split p lo Unbounded Hlo). f_equal; apply scan_where_ext; intros k;
    unfold in_bounds; cbn [below]; by rewrite andb_true_r.
Qed.

(** With the prefix itself as bound these are all items of the prefix; with a key of the
    prefix excluded, those that come after it. *)
Lemma scan_from_prefix p :
  scan_where now (λ k, above (Included p) k && starts_with p k) m = scan_prefix now p m.
Proof.
  apply scan_where_unique; [apply StronglySorted_Sorted, scan_where_sorted|apply scan_where_distinct|].
  intros i. unfold scan_prefix. rewrite scan_where_elem, andb_true_iff. cbn [above].
  split; [|tauto]. intros (? & Hs & ?). split_and!; [done| |done|done].
  apply starts_with_spec in Hs as [s ->]. apply bytes_le_prefix.
Qed.

Lemma scan_after_key p L1 x L2 :
  scan_prefix now p m = L1 ++ x :: L2 →
  scan_where now (λ k, above (Excluded (item_key x)) k && starts_with p k) m = L2.
Proof.
  intros HL. pose proof (scan_where_sorted (starts_with p)) as Hs. pose proof (scan_where_nodup now (starts_with p) m Hk) as Hnd.
  fold (scan_prefix now p m) in Hs, Hnd. rewrite HL in Hs, Hnd.
  apply StronglySorted_app in Hs as (H1 & _ & [H2 H2']%StronglySorted_inv). rewrite Forall_forall in H2'.
  pose proof (NoDup_fmap_1 _ _ Hnd) as Hnd'. apply NoDup_app in Hnd' as (_ & _ & [_ Hnd2]%NoDup_cons).
  apply scan_where_unique; [by apply StronglySorted_Sorted|done|]. intros i. split.
  - intros Hi. assert (i ∈ scan_prefix now p m) as (? & ? & ?)%scan_prefix_elem by (rewrite HL; set_solver).
    split_and!; [done| |done]. rewrite andb_true_iff. split; [|done]. cbn [above].
    destruct (bytes_le (item_key i) (item_key x)) eqn:E; [|done]. exfalso.
    pose proof (bytes_le_antisym _ _ E (H2' i Hi)) as Ek. rewrite fmap_app in Hnd.
    apply NoDup_app in Hnd as (_ & _ & [Hx _]%NoDup_cons). apply Hx. rewrite <- Ek. by apply list_elem_of_fmap_2.
  - intros (Hm & [Ha Hp]%andb_true_iff & He).
    assert (i ∈ L1 ++ x :: L2) as Hi by (rewrite <- HL; apply scan_prefix_elem; done).
    apply elem_of_app in Hi as [Hi|Hi].
    + assert (item_le i x) as H by (apply H1; [done|left]). cbn [above] in Ha. by rewrite H in Ha.
    + apply elem_of_cons in Hi as [->|]; [|done]. cbn [above] in Ha. by rewrite bytes_le_refl in Ha.
Qed.
(** A scan for more is a scan filtered. *)
Lemma scan_where_filter P Q :
  scan_where now (λ k, P k && Q k) m = List.filter (λ i, P (item_key i)) (scan_where now Q m).
Proof.
  apply scan_where_unique.
  - apply StronglySorted_Sorted. pose proof (scan_where_sorted Q) as H. induction H as [|x l Hl IH Hx]; simpl; [constructor|].
    destruct (P (item_key x)); [|done]. constructor; [done|]. rewrite Forall_forall in Hx |- *.
    intros y Hy%list_elem_of_In%filter_In. apply Hx, list_elem_of_In, Hy.
  - eapply sublist_NoDup; [apply (scan_where_distinct Q)|apply sublist_filter_bool].
  - intros i. rewrite list_elem_of_In, filter_In, <- list_elem_of_In, scan_where_elem, andb_true_iff. tauto.
Qed.
End Ranges.

Section RunsRange.
Context {T : Type} `{!TxOps T} {raw : T → gmap (list Z) Item} {ok : T → Prop}.
Context `{HT : !TxLaws T raw ok, HS : !TxScanLaws T raw ok} {now : Z} (Hnow : clock_ok now).
#[local] Abbreviation Runs := (Runs (raw:=raw) (ok:=ok)).

Lemma runs_range_bind {A} lo hi (k : Iter → DbM T A) m r m' :
  (∀ it, iter_err it = None → item_data <$> iter_items it = item_data <$> scan_range now lo hi m → Runs (k it) m r m') →
  Runs (r ← range_iter now lo hi; it ← try_kv r; k it) m r m'.
Proof.
  intros Hk t Ht Hm. destruct (tx_range_law now lo hi t Hnow Ht) as (it & t1 & E & Ht1 & Hm1 & Herr & Hit & _).
  rewrite Hm in Hit, Hm1. destruct (Hk it Herr Hit t1 Ht1 Hm1) as (t2 & E2 & Ht2 & Hm2).
  exists t2. split; [|done]. unfold range_iter, mbind, DbM_bind. rewrite E. simpl. exact E2.
Qed.
End RunsRange.
