(* ===== verification/Hash.v ===== *)
(** * Hash commands: src/redis/hash.rs

    The database half of every hash command but HINCRBYFLOAT, the wire halves and the
    queued commands. The contents of a hash are a finite map from fields to values,
    held as [Elements.stored] says. Proved: the commands that read or write fields
    refine operations on that map, one at a time and in sequence; HSCAN followed from
    cursor 0 visits every field once; HRANDFIELD returns fields of the hash, distinct
    ones for a positive count, and never indexes out of its vectors; a key of another
    type is reported and left alone by the commands that check it first. *)
From S2P Require Import Prelude Bytes Resp Pattern Kv Registry Op Namespace Session Rand Elements.
Import MapTx.

Definition TYPE_HASH : Z := type_byte VHash.

Definition internal_error : RespValue := Error (B "ERR internal error").

(** ** Storage layout *)

Definition field_key (node_prefix field : list Z) : list Z := element_key node_prefix field.
Definition fields_prefix (node_prefix : list Z) : list Z := elements_prefix node_prefix.
Definition field_from_internal_key (key : list Z) : list Z := element_from_key key.

Definition field_entry (fk value : list Z) : Entry := with_metadata (entry_new fk value) TYPE_HASH.

(** [Vec::with_capacity] of byte vectors, 24 bytes each, panics beyond [isize::MAX] bytes. *)
Definition capacity_ok (n : Z) : bool := n * 24 <=? i64_max.

Section Ops.
Context {T : Type} `{!TxOps T} (now : Z).

Definition no_op_result : DbM T DbResult := mret (RList []).

Definition read_hash_sentinel (public_key : list Z) : DbM T Z := read_sentinel now TYPE_HASH public_key.
Definition write_hash_sentinel (public_key : list Z) (count : Z) (prefix : ElementPrefix) : DbM T () :=
  write_count now TYPE_HASH public_key count prefix.

(** [match read_sentinel(..) { Ok(c) => c, Err(KeyNotFound) => 0, Err(e) => return Err(e) }]. *)
Definition hash_count (public_key : list Z) : DbM T Z :=
  c ← count_opt now TYPE_HASH public_key; mret (default 0 c).

(** ** Writing fields *)

Fixpoint hset_loop (node_prefix : list Z) (field_values : list (list Z)) (added count : Z)
  : DbM T (Z * Z) :=
  match field_values with
  | field :: value :: rest =>
      let fk := field_key node_prefix field in
      old ← get_opt now fk;
      set now (field_entry fk value) ;;
      match old with
      | Some _ => hset_loop node_prefix rest added count
      | None => hset_loop node_prefix rest (added + 1) (as_u32 (count + 1))
      end
  | _ => mret (added, count)
  end.

(** [id] is the random part of the namespace a new hash would get. *)
Definition HSetOp (id public_key node_prefix : list Z) (field_values : list (list Z)) : DbM T DbResult :=
  p ← resolve_prefix_for_write now id public_key node_prefix;
  count ← hash_count public_key;
  ac ← hset_loop (prefix_bytes p) field_values 0 count;
  write_hash_sentinel public_key ac.2 p ;;
  mret (RInt ac.1).

Definition HSetNxOp (id public_key node_prefix field value : list Z) : DbM T DbResult :=
  p ← resolve_prefix_for_write now id public_key node_prefix;
  let fk := field_key (prefix_bytes p) field in
  old ← get_opt now fk;
  match old with
  | Some _ => mret (RInt 0)
  | None =>
      set now (field_entry fk value) ;;
      count ← hash_count public_key;
      write_hash_sentinel public_key (as_u32 (count + 1)) p ;;
      mret (RInt 1)
  end.

Fixpoint hdel_loop (node_prefix : list Z) (fields : list (list Z)) (removed count : Z) : DbM T (Z * Z) :=
  match fields with
  | [] => mret (removed, count)
  | field :: rest =>
      let fk := field_key node_prefix field in
      old ← get_opt now fk;
      match old with
      | Some _ => del fk ;; hdel_loop node_prefix rest (removed + 1) (as_u32 (count - 1))
      | None => hdel_loop node_prefix rest removed count
      end
  end.

Definition HDelOp (public_key node_prefix : list Z) (fields : list (list Z)) : DbM T DbResult :=
  p ← resolve_prefix now public_key node_prefix;
  c ← count_opt now TYPE_HASH public_key;
  match c with
  | None => mret (RInt 0)
  | Some count =>
      rc ← hdel_loop (prefix_bytes p) fields 0 count;
      (if rc.2 =? 0 then del public_key else write_hash_sentinel public_key rc.2 p) ;;
      mret (RInt rc.1)
  end.

(** [current + amount] wraps. *)
Definition HIncrByOp (id public_key node_prefix field : list Z) (amount : Z) : DbM T DbResult :=
  p ← resolve_prefix_for_write now id public_key node_prefix;
  let fk := field_key (prefix_bytes p) field in
  old ← get_opt now fk;
  cf ← match old with
       | Some item =>
           match parse_i64 (item_value item) with
           | Some n => mret (n, true)
           | None => fail (Redis (B "hash value is not an integer"))
           end
       | None => mret (0, false)
       end;
  let new_val := as_i64 (cf.1 + amount) in
  set now (field_entry fk (to_dec new_val)) ;;
  (if (cf.2 : bool) then mret () : DbM T ()
   else
     count ← hash_count public_key;
     write_hash_sentinel public_key (as_u32 (count + 1)) p) ;;
  mret (RInt new_val).

(** ** Reading fields *)

Definition HGetOp (public_key node_prefix field : list Z) : DbM T DbResult :=
  p ← resolve_prefix now public_key node_prefix;
  old ← get_opt now (field_key (prefix_bytes p) field);
  mret (ROptBytes (item_value <$> old)).

Fixpoint hmget_loop (node_prefix : list Z) (fields : list (list Z)) : DbM T (list (option (list Z))) :=
  match fields with
  | [] => mret []
  | field :: rest =>
      old ← get_opt now (field_key node_prefix field);
      vs ← hmget_loop node_prefix rest;
      mret ((item_value <$> old) :: vs)
  end.

Definition HMGetOp (public_key node_prefix : list Z) (fields : list (list Z)) : DbM T DbResult :=
  p ← resolve_prefix now public_key node_prefix;
  vs ← hmget_loop (prefix_bytes p) fields;
  mret (RListOpt vs).

Definition HExistsOp (public_key node_prefix field : list Z) : DbM T DbResult :=
  p ← resolve_prefix now public_key node_prefix;
  r ← get now (field_key (prefix_bytes p) field);
  mret (RInt (if is_err r then 0 else 1)).

Definition HStrLenOp (public_key node_prefix field : list Z) : DbM T DbResult :=
  p ← resolve_prefix now public_key node_prefix;
  old ← get_opt now (field_key (prefix_bytes p) field);
  mret (RInt (match old with Some item => Z.of_nat (length (item_value item)) | None => 0 end)).

Definition HLenOp (public_key : list Z) : DbM T DbResult :=
  count ← hash_count public_key; mret (RInt count).

(** ** Enumerating fields *)

Definition HKeysOp (public_key node_prefix : list Z) : DbM T DbResult :=
  p ← resolve_prefix now public_key node_prefix;
  e ← get_opt now public_key;
  match e with
  | None => no_op_result
  | Some _ =>
      items ← scan now (fields_prefix (prefix_bytes p));
      mret (RList ((λ i, field_from_internal_key (item_key i)) <$> items))
  end.

Definition HValsOp (public_key node_prefix : list Z) : DbM T DbResult :=
  p ← resolve_prefix now public_key node_prefix;
  e ← get_opt now public_key;
  match e with
  | None => no_op_result
  | Some _ =>
      items ← scan now (fields_prefix (prefix_bytes p));
      mret (RList (item_value <$> items))
  end.

(** The field and the value an item contributes to a flat reply. *)
Definition field_and_value (i : Item) : list (list Z) :=
  [field_from_internal_key (item_key i); item_value i].

Definition HGetAllOp (public_key node_prefix : list Z) : DbM T DbResult :=
  p ← resolve_prefix now public_key node_prefix;
  e ← get_opt now public_key;
  match e with
  | None => no_op_result
  | Some _ =>
      items ← scan now (fields_prefix (prefix_bytes p));
      mret (RList (concat (field_and_value <$> items)))
  end.

(** The reply part for the fields at [idxs]; indexing out of range is a panic. *)
Definition pick_fields (with_values : bool) (field_list val_list : list (list Z)) (idxs : list nat)
  : option (list (list Z)) :=
  if with_values then
    fs ← pick field_list idxs; vs ← pick val_list idxs;
    mret (concat (zip_with (λ f v, [f; v]) fs vs))
  else pick field_list idxs.

Definition or_panic {A} (o : option A) : DbM T A := match o with Some a => mret a | None => panic end.

(** The fields HRANDFIELD returns, given what it scanned; [None] is a panic. [rng] gives
    the seed of each call of [rand_index]. *)
Definition hrand_choice (rng : nat → Z * Z) (count : Z) (with_values : bool) (field_list val_list : list (list Z))
  : option (list (list Z)) :=
  let len := length field_list in
  if (count =? 0) || bool_decide (field_list = []) then Some []
  else if 0 <? count then
    if Z.of_nat len <=? count then
      if with_values then pick_fields true field_list val_list (seq 0 len) else Some field_list
    else
      perm ← rand_perm rng len;
      pick_fields with_values field_list val_list (take (Z.to_nat count) perm)
  else
    let n := as_u64 (as_i64 (- count)) in
    if negb (capacity_ok (if with_values then as_u64 (n * 2) else n)) then None
    else pick_fields with_values field_list val_list (rand_indices rng len (Z.to_nat n)).

Definition HRandFieldOp (rng : nat → Z * Z) (public_key node_prefix : list Z) (count : Z) (with_values : bool)
  : DbM T DbResult :=
  p ← resolve_prefix now public_key node_prefix;
  e ← get_opt now public_key;
  match e with
  | None => mret (ROptList None)
  | Some _ =>
      items ← scan now (fields_prefix (prefix_bytes p));
      out ← or_panic (hrand_choice rng count with_values
                        ((λ i, field_from_internal_key (item_key i)) <$> items) (item_value <$> items));
      mret (ROptList (Some out))
  end.

(** ** HSCAN *)

(** [start_offset + count] and [start_offset * 2] wrap; slicing past the end or backwards
    panics. *)
Definition hscan_page (pairs : list (list Z)) (start_offset count : Z) : option (list Z * list (list Z)) :=
  let n_fields := Z.of_nat (length pairs) / 2 in
  let e := if 0 <? count then Z.min (as_u64 (start_offset + count)) n_fields else n_fields in
  let lo := as_u64 (start_offset * 2) in
  let hi := as_u64 (e * 2) in
  if (hi <? lo) || (Z.of_nat (length pairs) <? hi) then None
  else Some (if e <? n_fields then to_dec e else [],
             take (Z.to_nat (hi - lo)) (drop (Z.to_nat lo) pairs)).

(** The fields HSCAN keeps: an empty pattern keeps all. *)
Definition scan_keeps (pattern field : list Z) : bool :=
  if bool_decide (pattern = []) then true else is_match (glob_keyspace pattern) field.

Definition HScanOp (public_key node_prefix cursor pattern : list Z) (count0 : Z) : DbM T DbResult :=
  let count := Z.max count0 0 in
  p ← resolve_prefix now public_key node_prefix;
  e ← get_opt now public_key;
  match e with
  | None => mret (RHScan [] [])
  | Some _ =>
      let start_offset := default 0 (parse_usize cursor) in
      items ← scan now (fields_prefix (prefix_bytes p));
      let pairs := concat (field_and_value <$>
                     filter (λ i, scan_keeps pattern (field_from_internal_key (item_key i)) = true) items) in
      page ← or_panic (hscan_page pairs start_offset count);
      mret (RHScan page.1 page.2)
  end.
End Ops.

(** ** Wire halves *)

Definition bulk (v : list Z) : RespValue := BulkString (Some v).

Definition IntWire : WireOp := pure_wire (λ r,
  match r with Ok (RInt n) => Integer n | Ok _ => internal_error | Err e => err_resp e end).

Definition NullableBulkWire : WireOp := pure_wire (λ r,
  match r with Ok (ROptBytes v) => BulkString v | Ok _ => internal_error | Err e => err_resp e end).

Definition NullableArrayWire : WireOp := pure_wire (λ r,
  match r with
  | Ok (RListOpt vs) => Array (Some (BulkString <$> vs))
  | Ok _ => internal_error
  | Err e => err_resp e
  end).

Definition BulkArrayWire : WireOp := pure_wire (λ r,
  match r with
  | Ok (RList vs) => Array (Some (bulk <$> vs))
  | Ok _ => internal_error
  | Err e => err_resp e
  end).

Definition OkWire : WireOp := pure_wire (λ r,
  match r with Ok _ => SimpleString (B "OK") | Err e => err_resp e end).

Definition HRandFieldWire (count : Z) : WireOp := pure_wire (λ r,
  match r with
  | Ok (ROptList None) => BulkString None
  | Ok (ROptList (Some items)) =>
      match items with
      | item :: _ => if count =? 1 then bulk item else Array (Some (bulk <$> items))
      | [] => Array (Some [])
      end
  | Ok _ => internal_error
  | Err e => err_resp e
  end).

Definition HScanWire : WireOp := pure_wire (λ r,
  match r with
  | Ok (RHScan cursor pairs) =>
      Array (Some [bulk (if bool_decide (cursor = []) then B "0" else cursor); Array (Some (bulk <$> pairs))])
  | Ok _ => internal_error
  | Err e => err_resp e
  end).

(** ** The queued commands *)

Module Cmd.
Section Cmd.
Context {T : Type} `{!TxOps T}.
Implicit Types (s : Session T).

Definition hset s (id key : list Z) (field_values : list (list Z)) : QueuedOp T :=
  on_key s key (λ now, HSetOp now id (public_key s key) (private_key s key) field_values) IntWire true.
Definition hsetnx s (id key field value : list Z) : QueuedOp T :=
  on_key s key (λ now, HSetNxOp now id (public_key s key) (private_key s key) field value) IntWire true.
Definition hget s (key field : list Z) : QueuedOp T :=
  on_key s key (λ now, HGetOp now (public_key s key) (private_key s key) field) NullableBulkWire false.
Definition hmget s (key : list Z) (fields : list (list Z)) : QueuedOp T :=
  on_key s key (λ now, HMGetOp now (public_key s key) (private_key s key) fields) NullableArrayWire false.
Definition hdel s (key : list Z) (fields : list (list Z)) : QueuedOp T :=
  on_key s key (λ now, HDelOp now (public_key s key) (private_key s key) fields) IntWire true.
Definition hexists s (key field : list Z) : QueuedOp T :=
  on_key s key (λ now, HExistsOp now (public_key s key) (private_key s key) field) IntWire false.
Definition hlen s (key : list Z) : QueuedOp T :=
  on_key s key (λ now, HLenOp now (public_key s key)) IntWire false.
Definition hkeys s (key : list Z) : QueuedOp T :=
  on_key s key (λ now, HKeysOp now (public_key s key) (private_key s key)) BulkArrayWire false.
Definition hvals s (key : list Z) : QueuedOp T :=
  on_key s key (λ now, HValsOp now (public_key s key) (private_key s key)) BulkArrayWire false.
Definition hgetall s (key : list Z) : QueuedOp T :=
  on_key s key (λ now, HGetAllOp now (public_key s key) (private_key s key)) BulkArrayWire false.
Definition hmset s (id key : list Z) (field_values : list (list Z)) : QueuedOp T :=
  let inner := hset s id key field_values in
  mkQueuedOp (db_op inner) OkWire true true false (Some (key_sv s key)).
Definition hincrby s (id key field : list Z) (amount : Z) : QueuedOp T :=
  on_key s key (λ now, HIncrByOp now id (public_key s key) (private_key s key) field amount) IntWire true.
Definition hrandfield s (rng : nat → Z * Z) (key : list Z) (count : Z) (with_values : bool) : QueuedOp T :=
  on_key s key (λ now, HRandFieldOp now rng (public_key s key) (private_key s key) count with_values)
    (HRandFieldWire count) false.
Definition hstrlen s (key field : list Z) : QueuedOp T :=
  on_key s key (λ now, HStrLenOp now (public_key s key) (private_key s key) field) IntWire false.
Definition hscan s (key cursor pattern : list Z) (count : Z) : QueuedOp T :=
  on_key s key (λ now, HScanOp now (public_key s key) (private_key s key) cursor pattern count) HScanWire false.
End Cmd.
End Cmd.

(** ** The abstract machine *)

(** The commands that read or write fields. *)
Inductive hcmd : Type :=
| CSet (field_values : list (list Z))
| CSetNx (field value : list Z)
| CDel (fields : list (list Z))
| CIncrBy (field : list Z) (amount : Z)
| CGet (field : list Z)
| CMGet (fields : list (list Z))
| CExists (field : list Z)
| CStrLen (field : list Z)
| CLen
| CKeys
| CVals
| CGetAll.

Fixpoint set_fields (field_values : list (list Z)) (h : gmap (list Z) (list Z)) : gmap (list Z) (list Z) :=
  match field_values with
  | field :: value :: rest => set_fields rest (<[field := value]> h)
  | _ => h
  end.

Definition del_fields (fields : list (list Z)) (h : gmap (list Z) (list Z)) : gmap (list Z) (list Z) :=
  foldl (λ h field, delete field h) h fields.

Definition msize (h : gmap (list Z) (list Z)) : Z := Z.of_nat (size h).

(** Reply and new contents. *)
Definition hstep (c : hcmd) (h : gmap (list Z) (list Z)) : result DbResult DbError * gmap (list Z) (list Z) :=
  match c with
  | CSet fvs => (Ok (RInt (msize (set_fields fvs h) - msize h)), set_fields fvs h)
  | CSetNx field value =>
      match h !! field with Some _ => (Ok (RInt 0), h) | None => (Ok (RInt 1), <[field := value]> h) end
  | CDel fields => (Ok (RInt (msize h - msize (del_fields fields h))), del_fields fields h)
  | CIncrBy field amount =>
      match (match h !! field with Some v => parse_i64 v | None => Some 0 end) with
      | Some n => let n' := as_i64 (n + amount) in (Ok (RInt n'), <[field := to_dec n']> h)
      | None => (Err (Redis (B "hash value is not an integer")), h)
      end
  | CGet field => (Ok (ROptBytes (h !! field)), h)
  | CMGet fields => (Ok (RListOpt ((λ f, h !! f) <$> fields)), h)
  | CExists field => (Ok (RInt (if bool_decide (is_Some (h !! field)) then 1 else 0)), h)
  | CStrLen field => (Ok (RInt (Z.of_nat (length (default [] (h !! field))))), h)
  | CLen => (Ok (RInt (msize h)), h)
  | CKeys => (Ok (RList (sorted_pairs h).*1), h)
  | CVals => (Ok (RList (sorted_pairs h).*2), h)
  | CGetAll => (Ok (RList (concat ((λ kv, [kv.1; kv.2]) <$> sorted_pairs h))), h)
  end.

(** The operation of each command. *)
Definition hcmd_op {T} `{!TxOps T} (now : Z) (id pk legacy : list Z) (c : hcmd) : DbM T DbResult :=
  match c with
  | CSet fvs => HSetOp now id pk legacy fvs
  | CSetNx field value => HSetNxOp now id pk legacy field value
  | CDel fields => HDelOp now pk legacy fields
  | CIncrBy field amount => HIncrByOp now id pk legacy field amount
  | CGet field => HGetOp now pk legacy field
  | CMGet fields => HMGetOp now pk legacy fields
  | CExists field => HExistsOp now pk legacy field
  | CStrLen field => HStrLenOp now pk legacy field
  | CLen => HLenOp now pk
  | CKeys => HKeysOp now pk legacy
  | CVals => HValsOp now pk legacy
  | CGetAll => HGetAllOp now pk legacy
  end.

(** HSET and HMSET come with at least one pair: the parser rejects anything less. *)
Definition hcmd_ok (c : hcmd) : Prop := match c with CSet fvs => (2 ≤ length fvs)%nat | _ => True end.
#[export] Instance hcmd_ok_dec c : Decision (hcmd_ok c).
Proof. destruct c; apply _. Defined.

(** Fields a command may add. *)
Definition hcmd_room (c : hcmd) : Z :=
  match c with CSet fvs => Z.of_nat (length fvs) | CSetNx _ _ | CIncrBy _ _ => 1 | _ => 0 end.

(** Whether names are recovered from keys. *)
Definition names_read (c : hcmd) : bool := match c with CKeys | CGetAll => true | _ => false end.


(** ** Lemmas on the abstract machine *)
Lemma msize_insert f v h : msize (<[f := v]> h) = match h !! f with Some _ => msize h | None => msize h + 1 end.
Proof.
  unfold msize. destruct (h !! f) eqn:E.
  - by rewrite map_size_insert, E.
  - rewrite map_size_insert, E. lia.
Qed.

Lemma msize_delete f h : msize (delete f h) = match h !! f with Some _ => msize h - 1 | None => msize h end.
Proof.
  unfold msize. destruct (h !! f) eqn:E.
  - assert (size h ≠ 0)%nat by (intros H0%map_size_empty_inv; subst; by rewrite lookup_empty in E).
    rewrite map_size_delete, E. lia.
  - by rewrite map_size_delete, E.
Qed.

Lemma msize_nonneg h : 0 ≤ msize h.
Proof. unfold msize. lia. Qed.

Lemma set_fields_size fvs h : msize (set_fields fvs h) ≤ msize h + Z.of_nat (length fvs).
Proof.
  revert h. induction fvs as [| |f v fvs IH] using list_pair_ind; intros h; simpl; [lia..|].
  specialize (IH (<[f := v]> h)). rewrite msize_insert in IH. destruct (h !! f); lia.
Qed.

Lemma set_fields_mono fvs h : msize h ≤ msize (set_fields fvs h).
Proof.
  revert h. induction fvs as [| |f v fvs IH] using list_pair_ind; intros h; simpl; [lia..|].
  specialize (IH (<[f := v]> h)). rewrite msize_insert in IH. destruct (h !! f); lia.
Qed.

Lemma del_fields_size fields h : msize (del_fields fields h) ≤ msize h.
Proof.
  revert h. induction fields as [|f fields IH]; intros h; simpl; [lia|].
  specialize (IH (delete f h)). rewrite msize_delete in IH. destruct (h !! f); lia.
Qed.

(** ** The operations refine it *)

Section Refines.
Context {T : Type} `{!TxOps T} {raw : T → gmap (list Z) Item} {ok : T → Prop}.
Context `{HT : !TxLaws T raw ok, HS : !TxScanLaws T raw ok} {now : Z} (Hnow : clock_ok now).
#[local] Abbreviation Runs := (Runs (raw:=raw) (ok:=ok)).
Implicit Types (m : gmap (list Z) Item) (h : gmap (list Z) (list Z)).

Lemma runs_hset_loop p fvs added m h :
  good m → elements_at now m p h → msize h + Z.of_nat (length fvs) < 2 ^ 32 →
  ∃ m', Runs (hset_loop now p fvs added (msize h)) m
          (Ret (added + (msize (set_fields fvs h) - msize h), msize (set_fields fvs h))) m' ∧
    rewritten (now:=now) p m m' (set_fields fvs h).
Proof.
  revert added m h.
  induction fvs as [| |f v fvs IH] using list_pair_ind; intros added m h Hg He Hs; simpl.
  1, 2: exists m; split; [|by apply rewritten_refl]; rewrite Z.sub_diag, Z.add_0_r; apply runs_ret.
  destruct (runs_set_element (raw:=raw) (ok:=ok) Hnow p f v TYPE_HASH m h Hg He) as (m1 & Hrun & Hr).
  destruct Hr as [Hg1 He1 Ho1] eqn:Er. clear Er. pose proof (msize_insert f v h) as Hi.
  pose proof (live_element p f m h He) as Hf. pose proof (msize_nonneg h). simpl in Hs.
  destruct (live now (element_key p f) m) as [i|] eqn:El; rewrite Hf in Hi.
  - destruct (IH added m1 (<[f := v]> h)) as (m2 & Hrun2 & Hr2); [done|done|lia|].
    exists m2. split; [|by eapply rewritten_trans].
    eapply runs_bind; [by apply runs_get_opt|]. unfold field_key. rewrite El.
    eapply runs_bind; [exact Hrun|]. rewrite Hi in Hrun2. exact Hrun2.
  - destruct (IH (added + 1) m1 (<[f := v]> h)) as (m2 & Hrun2 & Hr2); [done|done|lia|].
    exists m2. split; [|by eapply rewritten_trans].
    eapply runs_bind; [by apply runs_get_opt|]. unfold field_key. rewrite El.
    eapply runs_bind; [exact Hrun|]. rewrite Hi in Hrun2. rewrite as_u32_small by lia.
    replace (added + (msize (set_fields fvs (<[f:=v]> h)) - msize h))
      with (added + 1 + (msize (set_fields fvs (<[f:=v]> h)) - (msize h + 1))) by lia. exact Hrun2.
Qed.

Lemma runs_hdel_loop p fields removed m h :
  good m → elements_at now m p h → msize h < 2 ^ 32 →
  ∃ m', Runs (hdel_loop now p fields removed (msize h)) m
          (Ret (removed + (msize h - msize (del_fields fields h)), msize (del_fields fields h))) m' ∧
    rewritten (now:=now) p m m' (del_fields fields h).
Proof.
  revert removed m h. induction fields as [|f fields IH]; intros removed m h Hg He Hs; simpl.
  { exists m. split; [|by apply rewritten_refl]. rewrite Z.sub_diag, Z.add_0_r. apply runs_ret. }
  pose proof (live_element p f m h He) as Hf. pose proof (msize_nonneg (delete f h)).
  pose proof (msize_delete f h) as Hd.
  destruct (live now (element_key p f) m) as [i|] eqn:El; rewrite Hf in Hd.
  - destruct (runs_delete_element (raw:=raw) (ok:=ok) (now:=now) p f m h Hg He) as (m1 & Hrun & Hr).
    destruct (IH (removed + 1) m1 (delete f h)) as (m2 & Hrun2 & Hr2); [apply Hr|apply Hr|lia|].
    exists m2. split; [|by eapply rewritten_trans].
    eapply runs_bind; [by apply runs_get_opt|]. unfold field_key. rewrite El.
    eapply runs_bind; [exact Hrun|]. rewrite Hd in Hrun2. rewrite as_u32_small by lia.
    replace (removed + (msize h - msize (del_fields fields (delete f h))))
      with (removed + 1 + (msize h - 1 - msize (del_fields fields (delete f h)))) by lia. exact Hrun2.
  - destruct (IH removed m h) as (m2 & Hrun2 & Hr2); [done..|].
    rewrite (delete_id h f) by done. exists m2. split; [|done].
    eapply runs_bind; [by apply runs_get_opt|]. unfold field_key. rewrite El. exact Hrun2.
Qed.

Lemma runs_hmget_loop p fields m h :
  elements_at now m p h →
  Runs (hmget_loop now p fields) m (Ret ((λ f, h !! f) <$> fields)) m.
Proof.
  intros He. induction fields as [|f fields IH]; simpl; [apply runs_ret|].
  eapply runs_bind; [by apply runs_get_opt|]. eapply runs_bind; [exact IH|].
  unfold field_key. rewrite He. apply runs_ret.
Qed.

(** The count a writing command starts from, also after it wrote fields. *)
Lemma runs_hash_count_after pk legacy id m p h m1 h1 :
  writable now TYPE_HASH m pk legacy id p h → rewritten (now:=now) (prefix_bytes p) m m1 h1 →
  Runs (hash_count now pk) m1 (Ret (msize h)) m1.
Proof.
  intros Hw Hr. eapply runs_bind; [by eapply (runs_count_after Hnow)|]. unfold count_seen.
  destruct Hw as [Hs _ _ _ _]. destruct (live now pk m).
  - apply runs_ret.
  - destruct Hs as (_ & _ & ->). apply runs_ret.
Qed.

Lemma runs_hash_count pk legacy id m p h :
  good m → writable now TYPE_HASH m pk legacy id p h → Runs (hash_count now pk) m (Ret (msize h)) m.
Proof. intros Hg Hw. eapply runs_hash_count_after; [done|]. apply rewritten_refl; [done|apply Hw]. Qed.

Lemma set_fields_nonempty fvs h : (2 ≤ length fvs)%nat → set_fields fvs h ≠ ∅.
Proof.
  intros Hl. assert (∀ fvs h, h ≠ ∅ → set_fields fvs h ≠ ∅) as Hkeep.
  { clear. intros fvs. induction fvs as [| |f v fvs IH] using list_pair_ind; intros h Hh; simpl; [done..|].
    apply IH, insert_non_empty. }
  destruct fvs as [|f [|v fvs]]; simpl in *; [lia..|]. apply Hkeep, insert_non_empty.
Qed.

Lemma runs_hset pk legacy id fvs m p h :
  good m → writable now TYPE_HASH m pk legacy id p h → msize h + Z.of_nat (length fvs) < 2 ^ 32 → (2 ≤ length fvs)%nat →
  ∃ m', Runs (HSetOp now id pk legacy fvs) m (Ret (RInt (msize (set_fields fvs h) - msize h))) m' ∧
    updated (now:=now) TYPE_HASH m pk legacy p m' (set_fields fvs h).
Proof.
  intros Hg Hw Hs Hlen.
  destruct (runs_hset_loop (prefix_bytes p) fvs 0 m h Hg (wr_elements _ _ _ _ _ _ _ _ Hw) Hs) as (m1 & H1 & Hr).
  pose proof (set_fields_size fvs h).
  destruct (runs_write_updated (raw:=raw) (ok:=ok) Hnow TYPE_HASH m pk legacy id p h m1 (set_fields fvs h))
    as (m2 & H2 & Hu); try done; [unfold msize in *; lia|by apply set_fields_nonempty|].
  exists m2. split; [|done].
  eapply runs_bind; [by eapply runs_resolve_for_write|]. eapply runs_bind; [by eapply runs_hash_count|].
  eapply runs_bind; [exact H1|]. eapply runs_bind; [exact H2|]. apply runs_ret.
Qed.

(** One field added to the hash and counted. *)
Lemma runs_add_field pk legacy id f v m p h :
  good m → writable now TYPE_HASH m pk legacy id p h → h !! f = None → msize h + 1 < 2 ^ 32 →
  ∃ m1 m', Runs (set now (field_entry (field_key (prefix_bytes p) f) v)) m (Ret ()) m1 ∧
    Runs (count ← hash_count now pk; write_hash_sentinel now pk (as_u32 (count + 1)) p) m1 (Ret ()) m' ∧
    updated (now:=now) TYPE_HASH m pk legacy p m' (<[f := v]> h).
Proof.
  intros Hg Hw Hf Hs. pose proof (msize_nonneg h).
  destruct (runs_set_element (raw:=raw) (ok:=ok) Hnow (prefix_bytes p) f v TYPE_HASH m h Hg
    (wr_elements _ _ _ _ _ _ _ _ Hw)) as (m1 & H1 & Hr).
  pose proof (msize_insert f v h) as Hi. rewrite Hf in Hi.
  destruct (runs_write_updated (raw:=raw) (ok:=ok) Hnow TYPE_HASH m pk legacy id p h m1 (<[f := v]> h))
    as (m2 & H2 & Hu); try done; [unfold msize in *; lia|apply insert_non_empty|].
  exists m1, m2. split_and!; [done| |done].
  eapply runs_bind; [by eapply runs_hash_count_after|]. rewrite as_u32_small by lia. rewrite <- Hi. exact H2.
Qed.

(** A field of the hash overwritten. *)
Lemma runs_overwrite_field pk legacy id f v m p h w :
  good m → writable now TYPE_HASH m pk legacy id p h → h !! f = Some w →
  ∃ m1, Runs (set now (field_entry (field_key (prefix_bytes p) f) v)) m (Ret ()) m1 ∧
    updated (now:=now) TYPE_HASH m pk legacy p m1 (<[f := v]> h).
Proof.
  intros Hg Hw Hf.
  destruct (runs_set_element (raw:=raw) (ok:=ok) Hnow (prefix_bytes p) f v TYPE_HASH m h Hg
    (wr_elements _ _ _ _ _ _ _ _ Hw)) as (m1 & H1 & Hr).
  exists m1. split; [done|]. eapply rewritten_updated; [done..| |apply insert_non_empty|].
  { pose proof (msize_insert f v h) as Hi. rewrite Hf in Hi. unfold msize in Hi. lia. }
  destruct Hw as [Hs _ _ _ _]. destruct (live now pk m); [done|]. destruct Hs as (_ & _ & ->). by rewrite lookup_empty in Hf.
Qed.

(** What a command does to a hash whose prefix is [p]. *)
Definition refines_at (c : hcmd) (m : gmap (list Z) Item) (pk legacy id : list Z) (p : ElementPrefix)
    (h : gmap (list Z) (list Z)) : Prop :=
  ∃ m', Runs (hcmd_op now id pk legacy c) m (outcome_of (hstep c h).1) m' ∧
    updated (now:=now) TYPE_HASH m pk legacy p m' (hstep c h).2.

Lemma refines_setnx pk legacy id f v m p h :
  good m → writable now TYPE_HASH m pk legacy id p h → updated (now:=now) TYPE_HASH m pk legacy p m h →
  msize h + 1 < 2 ^ 32 → refines_at (CSetNx f v) m pk legacy id p h.
Proof.
  intros Hg Hw Hu Hs. unfold refines_at. simpl.
  pose proof (live_element _ f m h (wr_elements _ _ _ _ _ _ _ _ Hw)) as Hf.
  destruct (h !! f) as [w|] eqn:Eh.
  - exists m. split; [|done]. eapply runs_bind; [by eapply runs_resolve_for_write|].
    eapply runs_bind; [by apply runs_get_opt|]. unfold field_key.
    destruct (live now _ m); [apply runs_ret|done].
  - destruct (runs_add_field pk legacy id f v m p h) as (m1 & m2 & H1 & H2 & Hu2); [done..|].
    exists m2. split; [|done]. eapply runs_bind; [by eapply runs_resolve_for_write|].
    eapply runs_bind; [by apply runs_get_opt|]. unfold field_key.
    destruct (live now _ m); [done|]. eapply runs_bind; [exact H1|].
    apply runs_bind_assoc. eapply runs_bind; [exact H2|]. apply runs_ret.
Qed.

Lemma refines_incrby pk legacy id f n m p h :
  good m → writable now TYPE_HASH m pk legacy id p h → updated (now:=now) TYPE_HASH m pk legacy p m h →
  msize h + 1 < 2 ^ 32 → refines_at (CIncrBy f n) m pk legacy id p h.
Proof.
  intros Hg Hw Hu Hs. unfold refines_at. simpl.
  pose proof (live_element _ f m h (wr_elements _ _ _ _ _ _ _ _ Hw)) as Hf.
  destruct (live now (element_key (prefix_bytes p) f) m) as [i|] eqn:El; rewrite Hf.
  - destruct (parse_i64 (item_value i)) as [x|] eqn:Ep; simpl.
    + destruct (runs_overwrite_field pk legacy id f (to_dec (as_i64 (x + n))) m p h (item_value i))
        as (m1 & H1 & Hu1); [done..|].
      exists m1. split; [|done]. eapply runs_bind; [by eapply runs_resolve_for_write|].
      eapply runs_bind; [by apply runs_get_opt|]. unfold field_key. rewrite El, Ep.
      eapply runs_bind; [apply runs_ret|]. eapply runs_bind; [exact H1|].
      eapply runs_bind; [apply runs_ret|]. apply runs_ret.
    + exists m. split; [|done]. eapply runs_bind; [by eapply runs_resolve_for_write|].
      eapply runs_bind; [by apply runs_get_opt|]. unfold field_key. rewrite El, Ep.
      apply runs_bind_fail, runs_fail.
  - destruct (runs_add_field pk legacy id f (to_dec (as_i64 (0 + n))) m p h) as (m1 & m2 & H1 & H2 & Hu2);
      [done..|].
    exists m2. split; [|done]. eapply runs_bind; [by eapply runs_resolve_for_write|].
    eapply runs_bind; [by apply runs_get_opt|]. unfold field_key. rewrite El.
    eapply runs_bind; [apply runs_ret|]. eapply runs_bind; [exact H1|].
    eapply runs_bind; [exact H2|]. apply runs_ret.
Qed.

Lemma del_fields_empty fields : del_fields fields ∅ = ∅.
Proof. induction fields as [|f fields IH]; simpl; [done|]. by rewrite delete_empty. Qed.

Lemma refines_del pk legacy id fields m p h :
  good m → stored now TYPE_HASH m pk legacy h → writable now TYPE_HASH m pk legacy id p h →
  updated (now:=now) TYPE_HASH m pk legacy p m h → refines_at (CDel fields) m pk legacy id p h.
Proof.
  intros Hg Hst Hw Hu. unfold refines_at. simpl.
  destruct (live now pk m) as [i|] eqn:El.
  - destruct (runs_hdel_loop (prefix_bytes p) fields 0 m h Hg (wr_elements _ _ _ _ _ _ _ _ Hw)
      (wr_size _ _ _ _ _ _ _ _ Hw)) as (m1 & H1 & Hr).
    pose proof (del_fields_size fields h). pose proof (wr_size _ _ _ _ _ _ _ _ Hw).
    destruct (runs_shrink (raw:=raw) (ok:=ok) Hnow TYPE_HASH m pk legacy id p h m1 (del_fields fields h))
      as (m2 & H2 & Hu2); try done; [unfold msize in *; lia|].
    exists m2. split; [|done]. eapply runs_bind; [by eapply runs_resolve_existing|].
    eapply runs_bind; [by eapply runs_count_opt|]. unfold count_seen. rewrite El.
    eapply runs_bind; [exact H1|]. eapply runs_bind; [exact H2|]. apply runs_ret.
  - pose proof (writable_absent _ _ _ _ _ _ _ Hw El). subst h.
    rewrite del_fields_empty. exists m. split; [|done].
    destruct (runs_resolve_prefix Hnow TYPE_HASH pk legacy m ∅ Hst) as (q & Hq & _).
    eapply runs_bind; [exact Hq|].
    eapply runs_bind; [by eapply runs_count_opt|]. unfold count_seen. rewrite El. apply runs_ret.
Qed.

(** The commands that only look fields up. *)
Lemma refines_lookup c pk legacy id m p h :
  stored now TYPE_HASH m pk legacy h → updated (now:=now) TYPE_HASH m pk legacy p m h →
  match c with CGet _ | CMGet _ | CExists _ | CStrLen _ => True | _ => False end →
  refines_at c m pk legacy id p h.
Proof.
  intros Hst Hu Hc. destruct (runs_resolve_prefix (raw:=raw) (ok:=ok) Hnow TYPE_HASH pk legacy m h Hst)
    as (q & Hq & He).
  assert (∀ f, live now (field_key (prefix_bytes q) f) m = None ∧ h !! f = None ∨
    ∃ i, live now (field_key (prefix_bytes q) f) m = Some i ∧ h !! f = Some (item_value i)) as Hf.
  { intros f. pose proof (live_element (prefix_bytes q) f m h He). unfold field_key.
    destruct (live now _ m); eauto. }
  destruct c as [| | | |f|fields|f|f| | | |]; try done; exists m; (split; [|done]); simpl.
  - eapply runs_bind; [exact Hq|]. eapply runs_bind; [by apply runs_get_opt|].
    destruct (Hf f) as [[-> ->]|(i & -> & ->)]; apply runs_ret.
  - eapply runs_bind; [exact Hq|]. eapply runs_bind; [by apply runs_hmget_loop|]. apply runs_ret.
  - eapply runs_bind; [exact Hq|]. eapply runs_bind; [by apply runs_get|]. rewrite lookup_live_live.
    destruct (Hf f) as [[-> ->]|(i & -> & ->)]; apply runs_ret.
  - eapply runs_bind; [exact Hq|]. eapply runs_bind; [by apply runs_get_opt|].
    destruct (Hf f) as [[-> ->]|(i & -> & ->)]; apply runs_ret.
Qed.

Lemma refines_len pk legacy id m p h :
  stored now TYPE_HASH m pk legacy h → updated (now:=now) TYPE_HASH m pk legacy p m h →
  refines_at CLen m pk legacy id p h.
Proof.
  intros Hst Hu. exists m. split; [|done]. assert (Runs (hash_count now pk) m (Ret (msize h)) m) as Hc.
  { eapply runs_bind; [by eapply runs_count_opt|]. unfold count_seen. destruct Hst as [Hl _|i q h Hst].
    - rewrite Hl. apply runs_ret.
    - rewrite (sa_live _ _ _ _ _ _ _ _ Hst). apply runs_ret. }
  eapply runs_bind; [exact Hc|]. apply runs_ret.
Qed.

(** A command that finds the key and goes through its elements. *)
Lemma runs_on_elements (none : DbM T DbResult) (k : list Item → DbM T DbResult) r pk legacy m h :
  good m → stored now TYPE_HASH m pk legacy h →
  (live now pk m = None → Runs none m r m) →
  (live now pk m ≠ None → ∀ items p, item_data <$> items = item_data <$> scan_prefix now (fields_prefix p) m →
     elements_at now m p h → Runs (k items) m r m) →
  Runs (p ← resolve_prefix now pk legacy;
        e ← get_opt now pk;
        match e with
        | None => none
        | Some _ => items ← scan now (fields_prefix (prefix_bytes p)); k items
        end) m r m.
Proof.
  intros [_ Hk] Hst Hnone Hsome.
  destruct (runs_resolve_prefix (raw:=raw) (ok:=ok) Hnow TYPE_HASH pk legacy m h Hst) as (q & Hq & He).
  eapply runs_bind; [exact Hq|]. eapply runs_bind; [by apply runs_get_opt|].
  destruct (live now pk m) as [i|] eqn:El; [|auto]. apply (runs_scan_bind Hnow). intros items Hi.
  by eapply (Hsome ltac:(done)).
Qed.

Lemma element_of_values items : (element_of <$> items).*2 = item_value <$> items.
Proof. by rewrite <- list_fmap_compose. Qed.
Lemma element_of_names items :
  (element_of <$> items).*1 = (λ i, field_from_internal_key (item_key i)) <$> items.
Proof. by rewrite <- list_fmap_compose. Qed.
Lemma element_of_flat items :
  concat ((λ kv, [kv.1; kv.2]) <$> (element_of <$> items)) = concat (field_and_value <$> items).
Proof. by rewrite <- list_fmap_compose. Qed.

Lemma refines_enumerate c pk legacy id m p h :
  good m → stored now TYPE_HASH m pk legacy h → updated (now:=now) TYPE_HASH m pk legacy p m h →
  (names_read c = true → plain_names h) →
  match c with CKeys | CVals | CGetAll => True | _ => False end → refines_at c m pk legacy id p h.
Proof.
  intros Hg Hst Hu Hn Hc. pose proof (proj2 Hg) as Hk.
  assert (live now pk m = None → h = ∅) as Hnone.
  { destruct Hst as [|i q h Hst]; [done|]. by rewrite (sa_live _ _ _ _ _ _ _ _ Hst). }
  destruct c; try done; exists m; (split; [|done]); simpl; (eapply runs_on_elements; [done..| |]);
    try (intros ->%Hnone; apply runs_ret); intros _ items q Hi He.
  - rewrite <- (scan_names now m q h items Hk He (Hn eq_refl) Hi), element_of_names. apply runs_ret.
  - rewrite <- (scan_values now m q h items Hk He Hi). apply runs_ret.
  - rewrite <- (scan_names now m q h items Hk He (Hn eq_refl) Hi), element_of_flat. apply runs_ret.
Qed.
End Refines.

(** ** Commands of a session *)

Section Session.
Context {T : Type} `{!TxOps T} {raw : T → gmap (list Z) Item} {ok : T → Prop}.
Context `{HT : !TxLaws T raw ok, HS : !TxScanLaws T raw ok} {now : Z} (Hnow : clock_ok now).
Context (s : Session T) (key : list Z) (Hs : session_ok s) (Hkey : key_ok key).
#[local] Abbreviation Runs := (Runs (raw:=raw) (ok:=ok)).
#[local] Abbreviation pk := (public_key s key).
#[local] Abbreviation legacy := (private_key s key).

(** The hash under [key] holds [h]. *)
Definition hash_at (m : gmap (list Z) Item) (h : gmap (list Z) (list Z)) : Prop :=
  stored now TYPE_HASH m pk legacy h.

Lemma hash_step id c m h :
  good m → hash_at m h → unused s now m id → msize h + hcmd_room c < 2 ^ 32 → hcmd_ok c →
  (names_read c = true → plain_names h) →
  ∃ p, used_prefix (now:=now) m pk legacy id = Ok p ∧ refines_at (raw:=raw) (ok:=ok) (now:=now) c m pk legacy id p h.
Proof.
  intros Hg Hh Hf Hroom Hok Hn. destruct (stored_writable _ _ _ _ _ _ _ Hh (unused_fresh s Hs key Hkey _ _ _ Hf)) as [p Hw].
  assert (updated (now:=now) TYPE_HASH m pk legacy p m h) as Hu.
  { eapply writable_unchanged; [done..|]. intros Hl. destruct Hh as [|i q h Hst]; [done|].
    by rewrite (sa_live _ _ _ _ _ _ _ _ Hst) in Hl. }
  exists p. split; [by eapply writable_used|]. unfold hash_at in Hh.
  destruct c as [fvs|f v|fields|f n|f|fields|f|f| | | |]; simpl in Hroom.
  - unfold refines_at. simpl. by apply (runs_hset Hnow).
  - by apply (refines_setnx Hnow).
  - by apply (refines_del Hnow).
  - by apply (refines_incrby Hnow).
  - by apply (refines_lookup Hnow).
  - by apply (refines_lookup Hnow).
  - by apply (refines_lookup Hnow).
  - by apply (refines_lookup Hnow).
  - by apply (refines_len Hnow).
  - by apply (refines_enumerate Hnow).
  - by apply (refines_enumerate Hnow).
  - by apply (refines_enumerate Hnow).
Qed.

(** ** Sequences of commands *)

(** Each command of a transaction with the id it would use; errors are confined. *)
Fixpoint hash_script (l : list (list Z * hcmd)) : DbM T (list (result DbResult DbError)) :=
  match l with
  | [] => mret []
  | (id, c) :: l' => r ← caught (hcmd_op now id pk legacy c); rs ← hash_script l'; mret (r :: rs)
  end.

Fixpoint hrun (l : list (list Z * hcmd)) (h : gmap (list Z) (list Z))
  : list (result DbResult DbError) * gmap (list Z) (list Z) :=
  match l with
  | [] => ([], h)
  | (_, c) :: l' => let '(r, h1) := hstep c h in let '(rs, h2) := hrun l' h1 in (r :: rs, h2)
  end.

(** Fields a command writes. *)
Fixpoint plain_fields (field_values : list (list Z)) : Prop :=
  match field_values with field :: _ :: rest => (0 ∉ field) ∧ plain_fields rest | _ => True end.
Definition plain_cmd (c : hcmd) : Prop :=
  match c with CSet fvs => plain_fields fvs | CSetNx f _ | CIncrBy f _ => 0 ∉ f | _ => True end.

Lemma plain_insert f v h : 0 ∉ f → plain_names h → plain_names (<[f := v]> h).
Proof. intros Hf Hh g w [[<- _]|[_ Hg]]%lookup_insert_Some; [done|]. by eapply Hh. Qed.

Lemma hstep_plain c h : plain_cmd c → plain_names h → plain_names (hstep c h).2.
Proof.
  intros Hc Hh. destruct c as [fvs|f v|fields|f n| | | | | | | |]; simpl in *; try done.
  - revert h Hh Hc. induction fvs as [| |f v fvs IH] using list_pair_ind; intros h Hh Hc; simpl in *; try done.
    destruct Hc. apply IH; [by apply plain_insert|done].
  - destruct (h !! f); [done|]. by apply plain_insert.
  - revert h Hh. induction fields as [|f fields IH]; intros h Hh; [done|]. apply IH.
    intros g w [_ Hg]%lookup_delete_Some. by eapply Hh.
  - destruct (h !! f) as [w|]; [destruct (parse_i64 w); [|done]|]; by apply plain_insert.
Qed.

Lemma hstep_room c h : msize (hstep c h).2 ≤ msize h + hcmd_room c.
Proof.
  pose proof (msize_insert) as Hi. destruct c as [fvs|f v|fields|f n| | | | | | | |]; simpl; try lia.
  - apply set_fields_size.
  - destruct (h !! f) eqn:E; simpl; [lia|]. rewrite Hi, E. lia.
  - pose proof (del_fields_size fields h). lia.
  - destruct (h !! f) as [w|] eqn:E; [destruct (parse_i64 w); simpl; [|lia]|simpl]; rewrite Hi, E; lia.
Qed.

Lemma hash_script_runs l m h :
  good m → hash_at m h → spare s key now m l.*1 → plain_names h → Forall (plain_cmd ∘ snd) l → Forall (hcmd_ok ∘ snd) l →
  msize h + foldr (λ x n, hcmd_room x.2 + n) 0 l < 2 ^ 32 →
  ∃ m', Runs (hash_script l) m (Ret (hrun l h).1) m' ∧ good m' ∧ hash_at m' (hrun l h).2 ∧
    ((h = ∅ → live now pk m = None) → (hrun l h).2 = ∅ → live now pk m' = None).
Proof.
  revert m h. induction l as [|[id c] l IH]; intros m h Hg Hh Hsp Hn Hc Hw Hroom.
  { exists m. split; [apply runs_ret|done]. }
  simpl in *. apply Forall_cons in Hc as [Hc Hcs]. simpl in Hc. apply Forall_cons in Hw as [Hw Hws].
  assert (0 ≤ foldr (λ x n, hcmd_room x.2 + n) 0 l).
  { clear. induction l as [|[? []] l IH]; simpl; lia. }
  destruct (hash_step id c m h) as (p & Hp & m1 & H1 & Hu); [done|done| |lia|done|done|].
  { pose proof (sp_unused _ _ _ _ _ Hsp) as Hu. by apply Forall_cons in Hu as [? _]. }
  pose proof (updated_spare s Hs key Hkey _ _ _ _ _ _ _ _ Hsp Hp Hu) as Hsp1. pose proof (hstep_room c h).
  pose proof (hstep_plain c h Hc Hn) as Hn1. pose proof (updated_tidy _ _ _ _ _ _ _ _ Hh Hu) as Ht. destruct (hstep c h) as [r h1]. simpl in *.
  destruct (IH m1 h1) as (m2 & H2 & Hg2 & Hh2 & Ht2); [apply Hu|apply Hu|done..|lia|].
  destruct (hrun l h1) as [rs h2]. simpl in *. exists m2. split; [|split_and!; [done..|]; intros Ht0; by apply Ht2, Ht].
  assert (Runs (caught (hcmd_op now id pk legacy c)) m (Ret r) m1) as Hr.
  { destruct r; [by apply runs_caught|by apply runs_caught_fail]. }
  eapply runs_bind; [exact Hr|]. eapply runs_bind; [exact H2|]. apply runs_ret.
Qed.
End Session.

(** ** HSCAN pages *)

Definition flat_pairs (l : list (list Z * list Z)) : list (list Z) := concat ((λ kv, [kv.1; kv.2]) <$> l).

Lemma flat_pairs_length l : length (flat_pairs l) = (2 * length l)%nat.
Proof.
  induction l as [|[f v] l IH]; [done|]. change (flat_pairs ((f, v) :: l)) with (f :: v :: flat_pairs l).
  simpl. rewrite IH. lia.
Qed.

Lemma flat_pairs_app l1 l2 : flat_pairs (l1 ++ l2) = flat_pairs l1 ++ flat_pairs l2.
Proof. unfold flat_pairs. by rewrite fmap_app, concat_app. Qed.

Lemma flat_pairs_drop n l : drop (2 * n) (flat_pairs l) = flat_pairs (drop n l).
Proof.
  rewrite <- (take_drop n l) at 1. rewrite flat_pairs_app. destruct (decide (n ≤ length l)%nat).
  - rewrite drop_app_length'; [done|]. rewrite flat_pairs_length, length_take. lia.
  - rewrite !(drop_ge l) by lia. rewrite drop_ge; [done|].
    rewrite app_nil_r, flat_pairs_length, length_take. lia.
Qed.

Lemma flat_pairs_take n l : take (2 * n) (flat_pairs l) = flat_pairs (take n l).
Proof.
  rewrite <- (take_drop n l) at 1. rewrite flat_pairs_app. destruct (decide (n ≤ length l)%nat).
  - rewrite take_app_length'; [done|]. rewrite flat_pairs_length, length_take. lia.
  - rewrite !(drop_ge l), app_nil_r by lia. rewrite take_ge; [done|].
    rewrite flat_pairs_length, length_take. lia.
Qed.

(** The page at an offset within the list: the next [count] fields, and the cursor that
    follows them unless they are the last. *)
Lemma hscan_page_spec l (start count : nat) :
  (0 < count)%nat → (start ≤ length l)%nat → Z.of_nat (length l) + Z.of_nat count < 2 ^ 63 →
  hscan_page (flat_pairs l) (Z.of_nat start) (Z.of_nat count) =
    Some (if (start + count <? length l)%nat then to_dec (Z.of_nat (start + count)) else [],
          flat_pairs (take count (drop start l))).
Proof.
  intros Hc Hs Hl. unfold hscan_page. rewrite flat_pairs_length.
  replace (Z.of_nat (2 * length l) / 2) with (Z.of_nat (length l))
    by (rewrite Nat2Z.inj_mul, Z.mul_comm, Z.div_mul by lia; done).
  assert (∀ z, 0 ≤ z < 2 ^ 64 → as_u64 z = z) as Hu by (intros z Hz; by apply Z.mod_small).
  rewrite (proj2 (Z.ltb_lt 0 _)) by lia. rewrite (Hu (_ + _)), (Hu (Z.min _ _ * 2)), (Hu (Z.of_nat start * 2)) by lia.
  rewrite (proj2 (Z.ltb_ge _ _)), (proj2 (Z.ltb_ge _ (Z.min _ _ * 2))) by lia. simpl. f_equal. f_equal.
  - destruct (Nat.ltb_spec (start + count) (length l)).
    + rewrite (proj2 (Z.ltb_lt _ _)) by lia. f_equal. lia.
    + by rewrite (proj2 (Z.ltb_ge _ _)) by lia.
  - replace (Z.to_nat (Z.of_nat start * 2)) with (2 * start)%nat by lia. rewrite flat_pairs_drop.
    replace (Z.to_nat _) with (2 * Nat.min count (length l - start))%nat by lia.
    rewrite flat_pairs_take. f_equal. destruct (decide (count ≤ length l - start)%nat).
    + by rewrite Nat.min_l by lia.
    + rewrite Nat.min_r, !take_ge by (rewrite ?length_drop; lia). done.
Qed.

Definition scanned (pattern : list Z) (h : gmap (list Z) (list Z)) : list (list Z * list Z) :=
  filter (λ kv, scan_keeps pattern kv.1 = true) (sorted_pairs h).

(** A client that follows the cursor until it is empty, which the wire shows as 0. *)
Fixpoint hscan_all {T} `{!TxOps T} (fuel : nat) (now : Z) (pk legacy cursor pattern : list Z) (count : Z)
  : DbM T (list (list Z)) :=
  match fuel with
  | O => fail (Redis (B "out of fuel"))
  | S fuel' =>
      r ← HScanOp now pk legacy cursor pattern count;
      match r with
      | RHScan next page =>
          if bool_decide (next = []) then mret page
          else rest ← hscan_all fuel' now pk legacy next pattern count; mret (page ++ rest)
      | _ => mret []
      end
  end.

Section Scan.
Context {T : Type} `{!TxOps T} {raw : T → gmap (list Z) Item} {ok : T → Prop}.
Context `{HT : !TxLaws T raw ok, HS : !TxScanLaws T raw ok} {now : Z} (Hnow : clock_ok now).
#[local] Abbreviation Runs := (Runs (raw:=raw) (ok:=ok)).

Lemma runs_hscan pk legacy m h cursor pattern count0 :
  good m → stored now TYPE_HASH m pk legacy h → plain_names h → live now pk m ≠ None →
  Runs (HScanOp now pk legacy cursor pattern count0) m
    (match hscan_page (flat_pairs (scanned pattern h)) (default 0 (parse_usize cursor)) (Z.max count0 0) with
     | Some page => Ret (RHScan page.1 page.2)
     | None => Panic
     end) m.
Proof.
  intros Hg Hst Hn Hl. apply (runs_on_elements Hnow _ _ _ pk legacy m h); [done..|].
  intros _ items p Hi He. pose proof (scan_names now m p h items (proj2 Hg) He Hn Hi) as Hnames.
  assert (concat (field_and_value <$> filter (λ i, scan_keeps pattern (field_from_internal_key (item_key i)) = true) items)
    = flat_pairs (scanned pattern h)) as ->.
  { unfold scanned. rewrite <- Hnames. unfold flat_pairs. f_equal. clear.
    induction items as [|i items IH]; [done|]. cbn [fmap list_fmap]. rewrite !filter_cons.
    destruct (decide (scan_keeps pattern (field_from_internal_key (item_key i)) = true)) as [Hk|Hk].
    - rewrite decide_True by done. cbn [fmap list_fmap]. f_equal. exact IH.
    - rewrite decide_False by done. exact IH. }
  destruct (hscan_page _ _ _) as [page|].
  - eapply runs_bind; [apply runs_ret|]. apply runs_ret.
  - intros t Ht Hm. by exists t.
Qed.

Lemma runs_hscan_all fuel pk legacy m h (start count : nat) cursor pattern :
  good m → stored now TYPE_HASH m pk legacy h → plain_names h → live now pk m ≠ None →
  (0 < count)%nat → (start ≤ length (scanned pattern h))%nat → (length (scanned pattern h) - start < fuel)%nat →
  Z.of_nat (length (scanned pattern h)) + Z.of_nat count < 2 ^ 63 →
  default 0 (parse_usize cursor) = Z.of_nat start →
  Runs (hscan_all fuel now pk legacy cursor pattern (Z.of_nat count)) m
    (Ret (flat_pairs (drop start (scanned pattern h)))) m.
Proof.
  intros Hg Hst Hn Hl Hc. revert start cursor.
  induction fuel as [|fuel IH]; intros start cursor Hs Hf Hmax Hcur; [lia|]. cbn [hscan_all].
  pose proof (runs_hscan pk legacy m h cursor pattern (Z.of_nat count) Hg Hst Hn Hl) as Hrun.
  rewrite Hcur, Z.max_l, hscan_page_spec in Hrun by (done || lia). eapply runs_bind; [exact Hrun|]. simpl.
  destruct (Nat.ltb_spec (start + count) (length (scanned pattern h))).
  - rewrite bool_decide_eq_false_2.
    2:{ rewrite to_dec_nonneg by lia. apply dec_nat_nonempty. lia. }
    eapply runs_bind; [apply (IH (start + count)%nat); try lia|].
    { rewrite parse_usize_to_dec by width_lia. done. }
    rewrite <- flat_pairs_app, <- drop_drop, take_drop. apply runs_ret.
  - rewrite bool_decide_eq_true_2 by done. rewrite take_ge by (rewrite length_drop; lia). apply runs_ret.
Qed.
End Scan.

(** ** HRANDFIELD *)

(** A reply of HRANDFIELD for the chosen fields. *)
Definition rand_reply (with_values : bool) (l : list (list Z * list Z)) : list (list Z) :=
  if with_values then flat_pairs l else l.*1.

Lemma pick_zip (l : list (list Z * list Z)) idxs out :
  pick l idxs = Some out → pick l.*1 idxs = Some out.*1 ∧ pick l.*2 idxs = Some out.*2.
Proof.
  unfold pick. intros H%mapM_Some. split; apply mapM_Some;
    (induction H as [|i x idxs out Hx H IH]; constructor; [|exact IH]);
    by rewrite list_lookup_fmap, Hx.
Qed.

Lemma zip_with_flat (l : list (list Z * list Z)) : zip_with (λ f v, [f; v]) l.*1 l.*2 = (λ kv, [kv.1; kv.2]) <$> l.
Proof. induction l as [|[f v] l IH]; [done|]. cbn [fmap list_fmap zip_with fst snd]. f_equal. exact IH. Qed.

Lemma pick_fields_pairs with_values (l : list (list Z * list Z)) idxs out :
  pick l idxs = Some out → pick_fields with_values l.*1 l.*2 idxs = Some (rand_reply with_values out).
Proof.
  intros [H1 H2]%pick_zip. unfold pick_fields, rand_reply. rewrite H1, H2. destruct with_values; [|done].
  unfold flat_pairs. by rewrite <- zip_with_flat.
Qed.

Lemma pick_all {A} (l : list A) : pick l (seq 0 (length l)) = Some l.
Proof.
  apply mapM_Some. apply Forall2_same_length_lookup_2; [by rewrite length_seq|].
  intros i j x Hj Hx. apply lookup_seq in Hj as [-> _]. done.
Qed.

(** The choice made among the fields [l], which is not empty. *)
Lemma hrand_choice_spec rng count with_values l :
  NoDup l.*1 → l ≠ [] → - 2 ^ 57 ≤ count →
  ∃ chosen, hrand_choice rng count with_values l.*1 l.*2 = Some (rand_reply with_values chosen) ∧
    (∀ x, x ∈ chosen → x ∈ l) ∧
    Z.of_nat (length chosen) = (if 0 <=? count then Z.min count (Z.of_nat (length l)) else - count) ∧
    (0 ≤ count → NoDup chosen.*1).
Proof.
  intros Hnd Hl Hmin. unfold hrand_choice. rewrite length_fmap.
  rewrite (bool_decide_eq_false_2 (l.*1 = [])), orb_false_r by (by intros ?%fmap_nil_inv).
  assert (NoDup l) as Hnl by (by eapply NoDup_fmap_1).
  destruct (Z.eqb_spec count 0) as [->|Hc0].
  { exists []. split_and!; [by destruct with_values|by intros x ?%not_elem_of_nil|simpl; lia|constructor]. }
  destruct (Z.ltb_spec 0 count); [destruct (Z.leb_spec (Z.of_nat (length l)) count)|].
  - exists l. rewrite (proj2 (Z.leb_le _ _)) by lia. split_and!; [|done|lia|done].
    destruct with_values; [|done]. apply pick_fields_pairs, pick_all.
  - destruct (sample_distinct rng l (Z.to_nat count) Hnl ltac:(lia)) as (perm & out & Hp & Ho & Hlen & Hno & Hin).
    exists out. rewrite (proj2 (Z.leb_le _ _)), Hp by lia. split_and!; [by apply pick_fields_pairs|done|lia|].
    intros _. apply NoDup_fmap_2_strong; [|done]. intros x y Hx%Hin Hy%Hin E.
    apply list_elem_of_lookup in Hx as [i Hi], Hy as [j Hj].
    assert (i = j) as -> by (eapply (NoDup_lookup l.*1); [done|by rewrite list_lookup_fmap, Hi|by rewrite list_lookup_fmap, Hj, E]).
    congruence.
  - assert (as_u64 (as_i64 (- count)) = - count) as ->.
    { rewrite as_i64_id by width_lia. apply Z.mod_small. lia. }
    rewrite (proj2 (Z.leb_gt _ _)) by lia.
    assert (capacity_ok (if with_values then as_u64 (- count * 2) else - count) = true) as ->.
    { unfold capacity_ok, as_u64. apply Z.leb_le. destruct with_values; [|width_lia].
      rewrite Z.mod_small by lia. width_lia. }
    destruct (sample_independent rng l (Z.to_nat (- count)) Hl) as (out & Ho & Hlen & Hin).
    exists out. split_and!; [by apply pick_fields_pairs|done|lia|lia].
Qed.

(** What goes over the wire for the chosen fields. *)
Definition rand_wire (count : Z) (with_values : bool) (chosen : list (list Z * list Z)) : RespValue :=
  match count =? 1, chosen with
  | true, (f, _) :: _ => bulk f
  | _, _ => Array (Some (bulk <$> rand_reply with_values chosen))
  end.

Lemma hrandfield_wire count with_values chosen reg :
  HRandFieldWire count (Ok (ROptList (Some (rand_reply with_values chosen)))) reg
  = (rand_wire count with_values chosen, reg).
Proof. unfold rand_wire, HRandFieldWire, pure_wire. destruct chosen as [|[f v] l], with_values, (count =? 1); done. Qed.

Section RandField.
Context {T : Type} `{!TxOps T} {raw : T → gmap (list Z) Item} {ok : T → Prop}.
Context `{HT : !TxLaws T raw ok, HS : !TxScanLaws T raw ok} {now : Z} (Hnow : clock_ok now).
#[local] Abbreviation Runs := (Runs (raw:=raw) (ok:=ok)).

Lemma runs_hrandfield rng pk legacy m h count with_values :
  good m → stored now TYPE_HASH m pk legacy h → plain_names h → h ≠ ∅ → - 2 ^ 57 ≤ count →
  ∃ chosen, Runs (HRandFieldOp now rng pk legacy count with_values) m
      (Ret (ROptList (Some (rand_reply with_values chosen)))) m ∧
    Forall (λ kv, h !! kv.1 = Some kv.2) chosen ∧
    Z.of_nat (length chosen) = (if 0 <=? count then Z.min count (msize h) else - count) ∧
    (0 ≤ count → NoDup chosen.*1).
Proof.
  intros Hg Hst Hn Hh Hmin. pose proof (sorted_pairs_length h) as Hlen.
  assert (sorted_pairs h ≠ []) as Hne.
  { intros E. rewrite E in Hlen. by destruct Hh; apply map_size_empty_inv. }
  destruct (hrand_choice_spec rng count with_values (sorted_pairs h)) as (chosen & Hc & Hin & Hl & Hd);
    [apply sorted_pairs_nodup|done..|].
  exists chosen. split_and!; [|by apply Forall_forall; intros [f v] Hx%Hin%sorted_pairs_elem| |done].
  2:{ rewrite Hl, Hlen. done. }
  apply (runs_on_elements Hnow _ _ _ pk legacy m h); [done..| |].
  - intros Hl0. destruct Hst as [|i q h Hst]; [done|]. by rewrite (sa_live _ _ _ _ _ _ _ _ Hst) in Hl0.
  - intros _ items p Hi He. pose proof (scan_names now m p h items (proj2 Hg) He Hn Hi) as Hnames.
    rewrite <- element_of_names, <- element_of_values, Hnames, Hc.
    eapply runs_bind; [apply runs_ret|]. apply runs_ret.
Qed.

Lemma runs_hrandfield_none rng pk legacy m h count with_values :
  good m → stored now TYPE_HASH m pk legacy h → live now pk m = None →
  Runs (HRandFieldOp now rng pk legacy count with_values) m (Ret (ROptList None)) m.
Proof.
  intros Hg Hst Hl. apply (runs_on_elements Hnow _ _ _ pk legacy m h); [done..| |].
  - intros _. apply runs_ret.
  - by rewrite Hl.
Qed.

(** A hash key left without fields. *)
Lemma runs_hrandfield_bare rng pk legacy m count with_values :
  good m → stored now TYPE_HASH m pk legacy ∅ → live now pk m ≠ None →
  Runs (HRandFieldOp now rng pk legacy count with_values) m (Ret (ROptList (Some []))) m.
Proof.
  intros Hg Hst Hl. apply (runs_on_elements Hnow _ _ _ pk legacy m ∅); [done..|].
  intros _ items p Hi He.
  pose proof (scan_names now m p ∅ items (proj2 Hg) He ltac:(done) Hi) as Hnames.
  rewrite <- element_of_names, <- element_of_values, Hnames.
  assert (sorted_pairs ∅ = []) as -> by (by apply nil_length_inv, (inj Z.of_nat); rewrite sorted_pairs_length).
  unfold hrand_choice. rewrite (bool_decide_eq_true_2 ([].*1 = [])), orb_true_r by done.
  eapply runs_bind; [apply runs_ret|]. apply runs_ret.
Qed.
End RandField.

(** ** Properties *)


(** C14: a sequence of hash commands refines the same operations on a finite map. Run one
    after the other in a transaction (errors confined to their command), HSET, HSETNX,
    HDEL, HINCRBY, HGET, HMGET, HEXISTS, HSTRLEN, HLEN, HKEYS, HVALS and HGETALL on one
    key reply what the map machine [hrun] replies, and the store ends with a hash that
    holds the machine's map, its count right. Unless the key already held an empty hash
    before, it is there in the end exactly if the map is not empty: HDEL of the last field
    deletes it. Namespaces drawn for new hashes are not in use and distinct; names have no
    NUL byte; HSET has at least one pair, which the parser demands; fewer than 2^32 fields. *)
Theorem hash_script_refines T `{!TxOps T} (raw : T → gmap (list Z) Item) (ok : T → Prop) (now : Z)
    (s : Session T) (key : list Z) (l : list (list Z * hcmd)) (m : gmap (list Z) Item) (h : gmap (list Z) (list Z)) :
  TxLaws T raw ok → TxScanLaws T raw ok → clock_ok now → session_ok s → key_ok key →
  good m → hash_at (now:=now) s key m h → spare s key now m l.*1 →
  plain_names h → Forall (plain_cmd ∘ snd) l → Forall (hcmd_ok ∘ snd) l →
  msize h + foldr (λ x n, hcmd_room x.2 + n) 0 l < 2 ^ 32 →
  ∃ m', Runs (raw:=raw) (ok:=ok) (hash_script (now:=now) s key l) m (Ret (hrun l h).1) m' ∧
    good m' ∧ hash_at (now:=now) s key m' (hrun l h).2 ∧
    ((h = ∅ → live now (public_key s key) m = None) →
     ((hrun l h).2 = ∅ ↔ live now (public_key s key) m' = None)).
Proof.
  intros HT HS Hnow Hs Hk Hg Hh Hsp Hn Hc Hw Hroom.
  destruct (hash_script_runs (raw:=raw) (ok:=ok) Hnow s key Hs Hk l m h Hg Hh Hsp Hn Hc Hw Hroom) as (m' & Hr & Hg' & Hh' & Ht).
  exists m'. split_and!; [done..|]. intros Ht0. split; [by apply Ht|]. by eapply stored_gone.
Qed.

Definition sample_script : list (list Z * hcmd) :=
  [(id_of 1, CSet [B "a"; B "1"; B "b"; B "2"]); (id_of 2, CIncrBy (B "a") 41); (id_of 3, CSetNx (B "b") (B "x"));
   (id_of 4, CDel [B "b"; B "c"]); (id_of 5, CIncrBy (B "a") (-1)); (id_of 6, CGetAll); (id_of 7, CDel [B "a"])].

Lemma hash_script_refines_witness :
  ∃ m', Runs (raw:=id) (ok:=λ _, True) (hash_script (now:=5) demo_session (B "h") sample_script) ∅
    (Ret [Ok (RInt 2); Ok (RInt 42); Ok (RInt 0); Ok (RInt 1); Ok (RInt 41); Ok (RList [B "a"; B "41"]); Ok (RInt 1)]) m' ∧
    hash_at (now:=5) demo_session (B "h") m' ∅ ∧ live 5 (B "0:h") m' = None.
Proof.
  destruct (hash_script_refines (gmap (list Z) Item) id (λ _, True) 5 demo_session (B "h") sample_script ∅ ∅)
    as (m' & H & _ & Hh & Hgone).
  - apply map_laws.
  - apply map_scan_laws.
  - unfold clock_ok. width_lia.
  - unfold session_ok. simpl. width_lia.
  - vm_compute. done.
  - apply good_empty.
  - apply stored_none; [done|apply elements_at_empty].
  - apply spare_empty; by apply (bool_decide_unpack _).
  - apply plain_names_empty.
  - repeat (constructor; [cbn; repeat split; apply (bool_decide_unpack _); vm_compute; exact I|]). constructor.
  - apply (bool_decide_unpack _). vm_compute. exact I.
  - vm_compute. done.
  - assert ((hrun sample_script ∅).2 = ∅) as He by (vm_compute; reflexivity). exists m'. split; [exact H|].
    split; [rewrite <- He; exact Hh|]. by apply Hgone.
Defined.

(** What one hash command leaves alone. Besides replying and updating the hash as the
    map machine does, a command changes no entry of the store but the key itself and the
    fields under the prefix it resolves to, and a key that is still there afterwards
    keeps the prefix and the expiry it had. *)
Theorem hash_command_frame T `{!TxOps T} (raw : T → gmap (list Z) Item) (ok : T → Prop) (now : Z)
    (s : Session T) (key id : list Z) (c : hcmd) (m : gmap (list Z) Item) (h : gmap (list Z) (list Z)) :
  TxLaws T raw ok → TxScanLaws T raw ok → clock_ok now → session_ok s → key_ok key →
  good m → hash_at (now:=now) s key m h → unused s now m id → msize h + hcmd_room c < 2 ^ 32 → hcmd_ok c →
  (names_read c = true → plain_names h) →
  let pk := public_key s key in
  let legacy := private_key s key in
  ∃ p m', used_prefix (now:=now) m pk legacy id = Ok p ∧
    Runs (raw:=raw) (ok:=ok) (hcmd_op now id pk legacy c) m (outcome_of (hstep c h).1) m' ∧
    hash_at (now:=now) s key m' (hstep c h).2 ∧
    (∀ k : list Z, k ≠ pk → (∀ f, k ≠ field_key (prefix_bytes p) f) → m' !! k = m !! k) ∧
    (∀ i, live now pk m' = Some i →
       prefix_of i legacy = Ok p ∧ item_expire_ts i = (live now pk m ≫= item_expire_ts)).
Proof.
  intros HT HS Hnow Hs Hk Hg Hh Hu Hroom Hok Hn.
  destruct (hash_step (raw:=raw) (ok:=ok) Hnow s key Hs Hk id c m h Hg Hh Hu Hroom Hok Hn) as (p & Hp & m' & Hr & Hup).
  exists p, m'. split_and!; [done|done|apply Hup|apply Hup|apply Hup].
Qed.

(** A hash with one field that expires at 9. *)
Definition expiring : gmap (list Z) Item :=
  {[B "0:h" := mkItem (B "0:h") (be_bytes 4 1) TYPE_HASH (Some 9);
    B "-0:h" ++ [0] ++ B "a" := mkItem (B "-0:h" ++ [0] ++ B "a") (B "x") TYPE_HASH None]}.

Lemma expiring_good : good expiring.
Proof.
  split.
  - apply map_Forall_insert_2; [unfold item_ok; simpl; width_lia|]. apply map_Forall_singleton. done.
  - intros k i. unfold expiring. rewrite lookup_insert_Some, lookup_singleton_Some. naive_solver.
Qed.

Lemma expiring_hash : hash_at (now:=5) demo_session (B "h") expiring {[B "a" := B "x"]}.
Proof.
  eapply stored_some with _ (legacy_prefix (B "-0:h")).
  assert (session_ok demo_session) by (unfold session_ok; simpl; width_lia).
  split; try (vm_compute; reflexivity).
  - intros f. unfold live, lookup_live, expiring. rewrite lookup_insert_ne by done.
    destruct (decide (f = B "a")) as [->|Hne]; [vm_compute; reflexivity|].
    rewrite !lookup_singleton_ne; [done|congruence|].
    intros E. apply Hne. symmetry. by apply (element_key_inj (B "-0:h")).
  - apply (session_layout demo_session); [done|vm_compute; done|by left].
  - done.
Qed.

Lemma hash_command_frame_witness :
  ∃ p m', Runs (raw:=id) (ok:=λ _, True) (hcmd_op 5 (id_of 1) (B "0:h") (B "-0:h") (CSet [B "b"; B "y"]))
      expiring (Ret (RInt 1)) m' ∧
    hash_at (now:=5) demo_session (B "h") m' (<[B "b" := B "y"]> {[B "a" := B "x"]}) ∧
    (∀ i, live 5 (B "0:h") m' = Some i → prefix_of i (B "-0:h") = Ok p ∧ item_expire_ts i = Some 9).
Proof.
  destruct (hash_command_frame (gmap (list Z) Item) id (λ _, True) 5 demo_session (B "h") (id_of 1)
    (CSet [B "b"; B "y"]) expiring {[B "a" := B "x"]}) as (p & m' & _ & H & Hh & _ & Hk).
  - apply map_laws.
  - apply map_scan_laws.
  - unfold clock_ok. width_lia.
  - unfold session_ok. simpl. width_lia.
  - vm_compute. done.
  - apply expiring_good.
  - apply expiring_hash.
  - split; [done|]. intros f. unfold live, lookup_live, expiring. rewrite lookup_insert_ne, lookup_singleton_ne by done.
    by rewrite !lookup_empty.
  - vm_compute. done.
  - cbn. lia.
  - done.
  - exists p, m'. split_and!; [exact H|exact Hh|exact Hk].
Defined.

(** HSCAN visits every field exactly once. A client that starts at cursor 0 and goes
    on with the cursor of each reply until it is 0 gets, page after page, the fields of
    the hash that match the pattern and their values, in the order of their names, none
    twice and none left out; and it gets there, after no more replies than there are
    matching fields, plus one. *)
Theorem hscan_visits_all T `{!TxOps T} (raw : T → gmap (list Z) Item) (ok : T → Prop) (now : Z)
    (pk legacy pattern : list Z) (count : nat) (m : gmap (list Z) Item) (h : gmap (list Z) (list Z)) :
  TxLaws T raw ok → TxScanLaws T raw ok → clock_ok now → good m → stored now TYPE_HASH m pk legacy h →
  plain_names h → h ≠ ∅ → (0 < count)%nat → msize h + Z.of_nat count < 2 ^ 63 →
  Runs (raw:=raw) (ok:=ok) (hscan_all (S (length (scanned pattern h))) now pk legacy (B "0") pattern (Z.of_nat count))
    m (Ret (flat_pairs (scanned pattern h))) m ∧
  NoDup (scanned pattern h).*1 ∧
  ∀ f v, (f, v) ∈ scanned pattern h ↔ h !! f = Some v ∧ scan_keeps pattern f = true.
Proof.
  intros HT HS Hnow Hg Hst Hn Hne Hc Hmax.
  assert (length (scanned pattern h) ≤ size h)%nat as Hlen.
  { rewrite <- sorted_pairs_length. apply length_filter. }
  split_and!.
  - apply (runs_hscan_all Hnow _ pk legacy m h 0 count (B "0") pattern); try done; unfold msize in *; try lia.
    destruct Hst as [|i p h Hst]; [done|]. by rewrite (sa_live _ _ _ _ _ _ _ _ Hst).
  - eapply sublist_NoDup; [apply (sorted_pairs_nodup h)|]. apply fmap_sublist, sublist_filter.
  - intros f v. unfold scanned. rewrite list_elem_of_filter, sorted_pairs_elem. simpl. tauto.
Qed.

Lemma expiring_plain : plain_names {[B "a" := B "x"]}.
Proof. intros f v [<- _]%lookup_singleton_Some. by apply (bool_decide_unpack _). Qed.

Lemma hscan_visits_all_witness :
  Runs (raw:=id) (ok:=λ _, True) (hscan_all 2 5 (B "0:h") (B "-0:h") (B "0") (B "*") 10) expiring
    (Ret [B "a"; B "x"]) expiring.
Proof.
  destruct (hscan_visits_all (gmap (list Z) Item) id (λ _, True) 5 (B "0:h") (B "-0:h") (B "*") 10 expiring
    {[B "a" := B "x"]}) as [H _].
  - apply map_laws.
  - apply map_scan_laws.
  - unfold clock_ok. width_lia.
  - apply expiring_good.
  - apply expiring_hash.
  - apply expiring_plain.
  - done.
  - lia.
  - vm_compute. done.
  - exact H.
Defined.

(** C15: HRANDFIELD replies with fields of the hash. Whatever the seeds of the generator,
    the command never indexes out of its vectors and leaves the store as it is. Where
    there is no key the reply is nil. Where there is a hash with at least one field, the
    database half chooses among its fields: for a count that is not negative, distinct
    ones, as many as asked for or all of them; for a negative count, exactly that many,
    repetitions allowed. The reply is the array of the chosen fields, each followed by
    its value with WITHVALUES, except for the count 1, where it is the chosen field alone
    as a bulk string, and alone also with WITHVALUES, whatever the comment in the code
    says of that case. This is for hashes whose field names contain no NUL byte (the
    code's internal keys are split at the last one) and for counts of at least -2^57, for
    which the vector of the reply can be allocated. *)
Theorem hrandfield_spec T `{!TxOps T} (raw : T → gmap (list Z) Item) (ok : T → Prop) (now : Z)
    (rng : nat → Z * Z) (pk legacy : list Z) (count : Z) (with_values : bool)
    (m : gmap (list Z) Item) (h : gmap (list Z) (list Z)) (reg : WatchRegistry) :
  TxLaws T raw ok → TxScanLaws T raw ok → clock_ok now → good m → stored now TYPE_HASH m pk legacy h →
  plain_names h → - 2 ^ 57 ≤ count →
  ∃ r, Runs (raw:=raw) (ok:=ok) (HRandFieldOp now rng pk legacy count with_values) m (Ret r) m ∧
    (live now pk m = None → HRandFieldWire count (Ok r) reg = (BulkString None, reg)) ∧
    (h ≠ ∅ → ∃ chosen,
       HRandFieldWire count (Ok r) reg = (rand_wire count with_values chosen, reg) ∧
       Forall (λ kv, h !! kv.1 = Some kv.2) chosen ∧
       Z.of_nat (length chosen) = (if 0 <=? count then Z.min count (msize h) else - count) ∧
       (0 ≤ count → NoDup chosen.*1)).
Proof.
  intros HT HS Hnow Hg Hst Hn Hc. destruct (live now pk m) as [i|] eqn:Hl.
  - destruct (decide (h = ∅)) as [->|Hh].
    + exists (ROptList (Some [])). split_and!; [by eapply (runs_hrandfield_bare Hnow); [..|rewrite Hl]|done|done].
    + destruct (runs_hrandfield Hnow rng pk legacy m h count with_values) as (chosen & Hr & Hin & Hlen & Hd); [done..|].
      exists (ROptList (Some (rand_reply with_values chosen))). split_and!; [done..|]. intros _.
      exists chosen. split_and!; [|done..]. by apply hrandfield_wire.
  - exists (ROptList None). split_and!; [by apply (runs_hrandfield_none Hnow _ _ _ _ h)|done|].
    intros Hh. by destruct Hh; eapply stored_gone.
Qed.

Lemma hrandfield_spec_witness :
  (∃ r chosen, Runs (raw:=id) (ok:=λ _, True) (HRandFieldOp 5 (λ k, (7, Z.of_nat k)) (B "0:h") (B "-0:h") (-3) true)
      expiring (Ret r) expiring ∧
    HRandFieldWire (-3) (Ok r) registry_new = (Array (Some (bulk <$> flat_pairs chosen)), registry_new) ∧
    length chosen = 3%nat ∧ Forall (λ kv : list Z * list Z, ({[B "a" := B "x"]} : gmap (list Z) (list Z)) !! kv.1 = Some kv.2) chosen) ∧
  (∃ r, Runs (raw:=id) (ok:=λ _, True) (HRandFieldOp 5 (λ k, (7, Z.of_nat k)) (B "0:h") (B "-0:h") 2 false)
      (∅ : gmap (list Z) Item) (Ret r) ∅ ∧
    HRandFieldWire 2 (Ok r) registry_new = (BulkString None, registry_new)).
Proof.
  split.
  - destruct (hrandfield_spec (gmap (list Z) Item) id (λ _, True) 5 (λ k, (7, Z.of_nat k)) (B "0:h") (B "-0:h") (-3)
      true expiring {[B "a" := B "x"]} registry_new) as (r & Hr & _ & H).
    + apply map_laws.
    + apply map_scan_laws.
    + unfold clock_ok. width_lia.
    + apply expiring_good.
    + apply expiring_hash.
    + apply expiring_plain.
    + lia.
    + destruct H as (chosen & H & Hin & Hl & _); [done|].
      exists r, chosen. split_and!; [exact Hr|exact H|simpl in Hl; lia|exact Hin].
  - destruct (hrandfield_spec (gmap (list Z) Item) id (λ _, True) 5 (λ k, (7, Z.of_nat k)) (B "0:h") (B "-0:h") 2
      false ∅ ∅ registry_new) as (r & Hr & H & _).
    + apply map_laws.
    + apply map_scan_laws.
    + unfold clock_ok. width_lia.
    + apply good_empty.
    + apply stored_none; [done|apply elements_at_empty].
    + by intros f v ?.
    + lia.
    + exists r. split; [exact Hr|by apply H].
Defined.

(** ** Keys of another type *)

(** A live key of another type, whose prefix can be read. *)
Definition wrong_type (now : Z) (m : gmap (list Z) Item) (pk legacy : list Z) (p : ElementPrefix) : Prop :=
  ∃ i, live now pk m = Some i ∧ base_type (item_meta i) ≠ TYPE_HASH ∧ prefix_of i legacy = Ok p.

Section WrongType.
Context {T : Type} `{!TxOps T} {raw : T → gmap (list Z) Item} {ok : T → Prop}.
Context `{HT : !TxLaws T raw ok} {now : Z} (Hnow : clock_ok now).
#[local] Abbreviation Runs := (Runs (raw:=raw) (ok:=ok)).

Lemma runs_resolve_wrong pk legacy id m p :
  wrong_type now m pk legacy p →
  Runs (resolve_prefix_for_write now id pk legacy) m (Ret p) m ∧ Runs (resolve_prefix now pk legacy) m (Ret p) m.
Proof.
  intros (i & Hl & _ & Hp).
  split; (eapply runs_bind; [by apply runs_get|]; rewrite lookup_live_live, Hl, Hp; apply runs_ret).
Qed.

Lemma runs_hash_count_wrong pk legacy m p :
  wrong_type now m pk legacy p → Runs (hash_count now pk) m (Fail WrongType) m.
Proof. intros (i & Hl & Hty & _). eapply runs_bind_fail. by eapply runs_count_wrong_type. Qed.

Lemma runs_hash_type_error pk legacy id fvs fields m p :
  wrong_type now m pk legacy p →
  Runs (HSetOp now id pk legacy fvs) m (Fail WrongType) m ∧
  Runs (HDelOp now pk legacy fields) m (Fail WrongType) m ∧
  Runs (HLenOp now pk) m (Fail WrongType) m.
Proof.
  intros Hw. pose proof (runs_resolve_wrong pk legacy id m p Hw) as [H1 H2].
  pose proof (runs_hash_count_wrong _ _ _ _ Hw) as Hc. split_and!.
  - eapply runs_bind; [exact H1|]. by apply runs_bind_fail.
  - eapply runs_bind; [exact H2|]. apply runs_bind_fail. destruct Hw as (i & Hl & Hty & _).
    by eapply runs_count_wrong_type.
  - by apply runs_bind_fail.
Qed.

(** HSETNX and HINCRBY write the field before they check the type. *)
Lemma runs_hsetnx_wrong pk legacy id f v m p :
  wrong_type now m pk legacy p → live now (field_key (prefix_bytes p) f) m = None →
  field_key (prefix_bytes p) f ≠ pk →
  Runs (HSetNxOp now id pk legacy f v) m (Fail WrongType)
    (<[field_key (prefix_bytes p) f := mkItem (field_key (prefix_bytes p) f) v TYPE_HASH None]> m).
Proof.
  intros Hw Hl Hne. pose proof (runs_resolve_wrong pk legacy id m p Hw) as [H1 _].
  eapply runs_bind; [exact H1|]. eapply runs_bind; [by apply runs_get_opt|]. rewrite Hl.
  eapply runs_bind; [apply (runs_set Hnow); by apply entry_ok_no_ttl|].
  apply runs_bind_fail. eapply (runs_hash_count_wrong pk legacy _ p). destruct Hw as (i & Hi & Hty & Hp).
  exists i. split_and!; [|done..]. by rewrite live_insert_ne.
Qed.
End WrongType.

(** C16: HSET, HDEL and HLEN on a key of another type fail with WRONGTYPE and change
    nothing. *)
Theorem hash_wrong_type T `{!TxOps T} (raw : T → gmap (list Z) Item) (ok : T → Prop) (now : Z)
    (pk legacy id : list Z) (fvs fields : list (list Z)) (m : gmap (list Z) Item) p :
  TxLaws T raw ok → clock_ok now → wrong_type now m pk legacy p →
  Runs (raw:=raw) (ok:=ok) (HSetOp now id pk legacy fvs) m (Fail WrongType) m ∧
  Runs (raw:=raw) (ok:=ok) (HDelOp now pk legacy fields) m (Fail WrongType) m ∧
  Runs (raw:=raw) (ok:=ok) (HLenOp now pk) m (Fail WrongType) m.
Proof. intros HT Hnow. by apply (runs_hash_type_error Hnow). Qed.

(** A string under the key a hash command is given. *)
Definition string_store : gmap (list Z) Item := {[B "0:h" := mkItem (B "0:h") (B "text") 0 None]}.

Lemma string_store_wrong : wrong_type 5 string_store (B "0:h") (B "-0:h") (legacy_prefix (B "-0:h")).
Proof. eexists. split; [vm_compute; reflexivity|]. split; [done|reflexivity]. Qed.

Lemma hash_wrong_type_witness :
  Runs (raw:=id) (ok:=λ _, True) (HSetOp 5 (id_of 1) (B "0:h") (B "-0:h") [B "a"; B "x"]) string_store
    (Fail WrongType) string_store.
Proof.
  apply (hash_wrong_type (gmap (list Z) Item) id (λ _, True) 5 (B "0:h") (B "-0:h") (id_of 1) [B "a"; B "x"] []
    string_store (legacy_prefix (B "-0:h"))).
  - apply map_laws.
  - unfold clock_ok. width_lia.
  - apply string_store_wrong.
Defined.

(** ** Where the code departs from its documentation *)

(** HSETNX on a key of another type fails only after it wrote the field, under the
    prefix derived from the key's name; inside MULTI, where the error of a command does not
    stop the transaction, the write is committed. *)
Theorem hsetnx_wrong_type_writes :
  HSetNxOp 5 (id_of 1) (B "0:h") (B "-0:h") (B "a") (B "x") string_store =
    (Fail WrongType, <[B "-0:h" ++ [0] ++ B "a" := mkItem (B "-0:h" ++ [0] ++ B "a") (B "x") 4 None]> string_store).
Proof. vm_compute. reflexivity. Qed.

(** HGET does not look at the type of the key: on a string it replies that the field is
    missing. *)
Theorem hget_ignores_type :
  fst (HGetOp 5 (B "0:h") (B "-0:h") (B "a") string_store) = Ret (ROptBytes None).
Proof. vm_compute. reflexivity. Qed.

(** A cursor past the last field makes HSCAN slice backwards, a panic. *)
Theorem hscan_past_end_panics :
  fst (HScanOp 5 (B "0:h") (B "-0:h") (B "7") [] 10 expiring) = Panic.
Proof. vm_compute. reflexivity. Qed.

(** A field name that holds a NUL byte is listed by what follows its last NUL. *)
Theorem hkeys_truncates_names :
  fst (HKeysOp 5 (B "0:h") (B "-0:h")
    (snd (HSetOp 5 (id_of 1) (B "0:h") (B "-0:h") [B "a" ++ [0] ++ B "b"; B "x"] (∅ : gmap (list Z) Item))))
  = Ret (RList [B "b"]).
Proof. vm_compute. reflexivity. Qed.

(** [current + amount] is not checked: in a release build the counter wraps around. *)
Theorem hincrby_wraps :
  fst (HIncrByOp 5 (id_of 1) (B "0:h") (B "-0:h") (B "n") 1
    (snd (HSetOp 5 (id_of 1) (B "0:h") (B "-0:h") [B "n"; to_dec i64_max] (∅ : gmap (list Z) Item))))
  = Ret (RInt i64_min).
Proof. vm_compute. reflexivity. Qed.

(** HRANDFIELD with count 1 and WITHVALUES replies the field alone. *)
Theorem hrandfield_one_drops_value :
  fst (HRandFieldWire 1 (Ok (ROptList (Some [B "a"; B "x"]))) registry_new) = BulkString (Some (B "a")).
Proof. reflexivity. Qed.
