(* ===== verification/SetCmds.v ===== *)
(** * Set commands: src/redis/set.rs

    The database half of every set command, the wire halves and the queued commands. A
    set is held as [Elements.stored] says, each member under its own name with itself as
    content. A [HashSet] is a [gset]; the order in which it is iterated is the argument
    [order], of which only that it lists the members once is assumed ([lists]). Proved:
    the single-set commands refine operations on finite sets, one at a time and in sequence;
    SMOVE moves; the set operations compute difference, intersection and union and store
    them; SPOP removes the member it returns; SSCAN visits every member once. *)
From S2P Require Import Prelude Bytes Resp Pattern Kv Registry Op Namespace Session Rand Elements.
From S2P Require Hash.
Import MapTx.

Definition TYPE_SET : Z := type_byte VSet.

Definition internal_error : RespValue := Error (B "ERR internal error").

(** ** Storage layout *)

Definition internal_member_key (node_prefix member : list Z) : list Z := element_key node_prefix member.
Definition members_prefix (node_prefix : list Z) : list Z := elements_prefix node_prefix.
Definition member_from_internal_key (key : list Z) : list Z := element_from_key key.

Definition member_entry (node_prefix member : list Z) : Entry :=
  with_metadata (entry_new (internal_member_key node_prefix member) member) TYPE_SET.

(** A pair of keys identifying a set on disk. *)
Record SetRef : Type := mkSetRef { ref_public_key : list Z; ref_node_prefix : list Z }.
Definition setref_new {T} (s : Session T) (key : list Z) : SetRef :=
  mkSetRef (public_key s key) (private_key s key).

Inductive BinarySetOpKind : Type := Diff | Inter | Union.

Section Ops.
Context {T : Type} `{!TxOps T} (order : gset (list Z) → list (list Z)) (now : Z).

Definition read_set_sentinel (public_key : list Z) : DbM T Z := read_sentinel now TYPE_SET public_key.
Definition set_count (public_key : list Z) : DbM T (option Z) := count_opt now TYPE_SET public_key.
Definition write_set_sentinel (public_key : list Z) (count : Z) (prefix : ElementPrefix) : DbM T () :=
  write_count now TYPE_SET public_key count prefix.

Definition load_set_members (public_key node_prefix : list Z) : DbM T (gset (list Z)) :=
  c ← set_count public_key;
  match c with
  | None => mret ∅
  | Some _ =>
      p ← resolve_prefix now public_key node_prefix;
      items ← scan now (members_prefix (prefix_bytes p));
      mret (list_to_set (item_value <$> items))
  end.

Fixpoint delete_all (keys : list (list Z)) : DbM T () :=
  match keys with
  | [] => mret ()
  | key :: keys' => del key ;; delete_all keys'
  end.

Definition clear_set (public_key node_prefix : list Z) : DbM T () :=
  p ← resolve_prefix now public_key node_prefix;
  items ← scan now (members_prefix (prefix_bytes p));
  delete_all (item_key <$> items) ;;
  del public_key.

Fixpoint write_members (node_prefix : list Z) (members : list (list Z)) : DbM T () :=
  match members with
  | [] => mret ()
  | member :: members' => set now (member_entry node_prefix member) ;; write_members node_prefix members'
  end.

(** [id] is the random part of the destination's namespace. *)
Definition store_set_result (id dest_public_key dest_node_prefix : list Z) (members : list (list Z)) : DbM T Z :=
  clear_set dest_public_key dest_node_prefix ;;
  dest_prefix ← try_db (new_namespace id dest_node_prefix);
  write_members (prefix_bytes dest_prefix) members ;;
  write_set_sentinel dest_public_key (as_u32 (Z.of_nat (length members))) dest_prefix ;;
  mret (Z.of_nat (length members)).

(** ** Adding and removing members *)

Fixpoint sadd_loop (node_prefix : list Z) (members : list (list Z)) (added count : Z) : DbM T (Z * Z) :=
  match members with
  | [] => mret (added, count)
  | member :: rest =>
      old ← get_opt now (internal_member_key node_prefix member);
      match old with
      | Some _ => sadd_loop node_prefix rest added count
      | None =>
          set now (member_entry node_prefix member) ;;
          sadd_loop node_prefix rest (added + 1) (as_u32 (count + 1))
      end
  end.

Definition SAddOp (id public_key node_prefix : list Z) (members : list (list Z)) : DbM T DbResult :=
  p ← resolve_prefix_for_write now id public_key node_prefix;
  c ← count_opt now TYPE_SET public_key;
  ac ← sadd_loop (prefix_bytes p) members 0 (default 0 c);
  write_set_sentinel public_key ac.2 p ;;
  mret (RInt ac.1).

Fixpoint srem_loop (node_prefix : list Z) (members : list (list Z)) (removed count : Z) : DbM T (Z * Z) :=
  match members with
  | [] => mret (removed, count)
  | member :: rest =>
      let internal := internal_member_key node_prefix member in
      old ← get_opt now internal;
      match old with
      | Some _ => del internal ;; srem_loop node_prefix rest (removed + 1) (as_u32 (count - 1))
      | None => srem_loop node_prefix rest removed count
      end
  end.

Definition SRemOp (public_key node_prefix : list Z) (members : list (list Z)) : DbM T DbResult :=
  p ← resolve_prefix now public_key node_prefix;
  c ← count_opt now TYPE_SET public_key;
  match c with
  | None => mret (RInt 0)
  | Some count =>
      rc ← srem_loop (prefix_bytes p) members 0 count;
      (if rc.2 =? 0 then del public_key else write_set_sentinel public_key rc.2 p) ;;
      mret (RInt rc.1)
  end.

(** ** Reading *)

Definition SCardOp (public_key : list Z) : DbM T DbResult :=
  c ← count_opt now TYPE_SET public_key; mret (RInt (default 0 c)).

Definition SMembersOp (public_key node_prefix : list Z) : DbM T DbResult :=
  p ← resolve_prefix now public_key node_prefix;
  members ← load_set_members public_key (prefix_bytes p);
  mret (RList (order members)).

Definition SIsMemberOp (public_key node_prefix member : list Z) : DbM T DbResult :=
  p ← resolve_prefix now public_key node_prefix;
  c ← set_count public_key;
  match c with
  | None => mret (RBool false)
  | Some _ =>
      r ← get now (internal_member_key (prefix_bytes p) member);
      mret (RBool (negb (is_err r)))
  end.

(** Deleting the member the iterator stands at. *)
Definition spop_take (item : option Item) : DbM T (option (list Z)) :=
  match item with
  | Some item =>
      d ← delete_res (item_key item);
      match d with
      | Err _ => fail (Kv Undefined)
      | Ok _ => mret (Some (member_from_internal_key (item_key item)))
      end
  | None => mret None
  end.

(** Counting it, after the iterator was closed. *)
Definition spop_count (public_key : list Z) (p : ElementPrefix) (count : Z) (member : option (list Z)) : DbM T DbResult :=
  match member with
  | None => mret (ROptBytes member)
  | Some _ =>
      let remaining := as_u32 (count - 1) in
      (if remaining =? 0 then del public_key else write_set_sentinel public_key remaining p) ;;
      mret (ROptBytes member)
  end.

(** The deletion happens while the iterator runs, its errors are reported after it. *)
Definition SPopOp (seed : Z * Z) (public_key node_prefix : list Z) : DbM T DbResult :=
  p ← resolve_prefix now public_key node_prefix;
  c ← count_opt now TYPE_SET public_key;
  match c with
  | None => mret (ROptBytes None)
  | Some count =>
      let idx := Z.to_nat (rand_index seed count) in
      r ← prefix_iter now (members_prefix (prefix_bytes p));
      it ← try_kv r;
      member ← spop_take (iter_items it !! idx);
      match iter_err it with
      | Some e => fail (Kv e)
      | None => spop_count public_key p count member
      end
  end.

(** The members SRANDMEMBER returns; [None] is a panic. *)
Definition srand_choice (rng : nat → Z * Z) (count : Z) (members : list (list Z)) : option (list (list Z)) :=
  let len := length members in
  if (count =? 0) || bool_decide (members = []) then Some []
  else if 0 <? count then
    if Z.of_nat len <=? count then Some members
    else perm ← rand_perm rng len; pick members (take (Z.to_nat count) perm)
  else
    let n := as_u64 (as_i64 (- count)) in
    if negb (Hash.capacity_ok n) then None else pick members (rand_indices rng len (Z.to_nat n)).

Definition SRandMemberOp (rng : nat → Z * Z) (public_key node_prefix : list Z) (count : Z) : DbM T DbResult :=
  p ← resolve_prefix now public_key node_prefix;
  all ← load_set_members public_key (prefix_bytes p);
  out ← Hash.or_panic (srand_choice rng count (order all));
  mret (RList out).

(** ** SMOVE *)

Definition SMoveOp (id src_public_key src_node_prefix dst_public_key dst_node_prefix member : list Z)
  : DbM T DbResult :=
  if bool_decide (src_public_key = dst_public_key) then
    c ← set_count src_public_key;
    match c with
    | None => mret (RBool false)
    | Some _ =>
        src_prefix ← resolve_prefix now src_public_key src_node_prefix;
        r ← get now (internal_member_key (prefix_bytes src_prefix) member);
        mret (RBool (negb (is_err r)))
    end
  else
    c ← set_count src_public_key;
    match c with
    | None => mret (RBool false)
    | Some src_count =>
        src_prefix ← resolve_prefix now src_public_key src_node_prefix;
        let src_internal := internal_member_key (prefix_bytes src_prefix) member in
        r ← get now src_internal;
        if is_err r then mret (RBool false)
        else
          del src_internal ;;
          let src_remaining := as_u32 (src_count - 1) in
          (if src_remaining =? 0 then del src_public_key
           else write_set_sentinel src_public_key src_remaining src_prefix) ;;
          dst_prefix ← resolve_prefix_for_write now id dst_public_key dst_node_prefix;
          old ← get_opt now (internal_member_key (prefix_bytes dst_prefix) member);
          match old with
          | Some _ => mret (RBool true)
          | None =>
              set now (member_entry (prefix_bytes dst_prefix) member) ;;
              dc ← set_count dst_public_key;
              write_set_sentinel dst_public_key (match dc with None => 1 | Some n => as_u32 (n + 1) end) dst_prefix ;;
              mret (RBool true)
          end
    end.

(** ** Difference, intersection and union *)

Definition combine (kind : BinarySetOpKind) (result other : gset (list Z)) : gset (list Z) :=
  match kind with Diff => result ∖ other | Inter => result ∩ other | Union => result ∪ other end.

Fixpoint combine_loop (kind : BinarySetOpKind) (sets : list SetRef) (result : gset (list Z)) : DbM T (gset (list Z)) :=
  match sets with
  | [] => mret result
  | set :: sets' =>
      other ← load_set_members (ref_public_key set) (ref_node_prefix set);
      combine_loop kind sets' (combine kind result other)
  end.

(** [&sets[1..]] of no sets is out of range. *)
Definition combined (kind : BinarySetOpKind) (sets : list SetRef) : DbM T (gset (list Z)) :=
  match sets with
  | [] => panic
  | first :: rest =>
      result ← load_set_members (ref_public_key first) (ref_node_prefix first);
      combine_loop kind rest result
  end.

Definition BinarySetOp (sets : list SetRef) (kind : BinarySetOpKind) : DbM T DbResult :=
  result ← combined kind sets; mret (RList (order result)).

Definition StoreOp (id : list Z) (dest : SetRef) (sets : list SetRef) (kind : BinarySetOpKind) : DbM T DbResult :=
  result ← combined kind sets;
  stored ← store_set_result id (ref_public_key dest) (ref_node_prefix dest) (order result);
  mret (RInt stored).

(** ** SSCAN *)

(** [start_offset + count] wraps; slicing past the end or backwards panics. *)
Definition sscan_page (filtered : list (list Z)) (start_offset count : Z) : option (list Z * list (list Z)) :=
  let n := Z.of_nat (length filtered) in
  let e := Z.min (as_u64 (start_offset + count)) n in
  if e <? start_offset then None
  else Some (if e <? n then to_dec e else [],
             take (Z.to_nat (e - start_offset)) (drop (Z.to_nat start_offset) filtered)).

Definition sscan_keeps (pattern : option (list Z)) (member : list Z) : bool :=
  match pattern with Some pat => is_match (glob_keyspace pat) member | None => true end.

Definition SScanOp (public_key node_prefix cursor : list Z) (count0 : Z) (pattern : option (list Z)) : DbM T DbResult :=
  let count := Z.max count0 1 in
  p ← resolve_prefix now public_key node_prefix;
  c ← set_count public_key;
  match c with
  | None => mret (RSScan [] [])
  | Some _ =>
      items ← scan now (members_prefix (prefix_bytes p));
      let start_offset := if bool_decide (cursor = []) then 0 else default 0 (parse_usize cursor) in
      let filtered := filter (λ m, sscan_keeps pattern m = true) (item_value <$> items) in
      page ← Hash.or_panic (sscan_page filtered start_offset count);
      mret (RSScan page.1 page.2)
  end.
End Ops.

(** ** Wire halves *)

Definition bulk (v : list Z) : RespValue := BulkString (Some v).

Definition IntWire : WireOp := pure_wire (λ r,
  match r with Ok (RInt n) => Integer n | Ok _ => internal_error | Err e => err_resp e end).

Definition BoolWire : WireOp := pure_wire (λ r,
  match r with Ok (RBool b) => Integer (if b then 1 else 0) | Ok _ => internal_error | Err e => err_resp e end).

Definition NullableBulkWire : WireOp := pure_wire (λ r,
  match r with Ok (ROptBytes v) => BulkString v | Ok _ => internal_error | Err e => err_resp e end).

Definition BulkArrayWire : WireOp := pure_wire (λ r,
  match r with
  | Ok (RList vs) => Array (Some (bulk <$> vs))
  | Ok _ => internal_error
  | Err e => err_resp e
  end).

Definition SRandMemberWire (count : Z) : WireOp := pure_wire (λ r,
  match r with
  | Ok (RList vs) => if count =? 1 then BulkString (head vs) else Array (Some (bulk <$> vs))
  | Ok _ => internal_error
  | Err e => err_resp e
  end).

Definition SScanWire : WireOp := pure_wire (λ r,
  match r with
  | Ok (RSScan cursor members) =>
      Array (Some [bulk (if bool_decide (cursor = []) then B "0" else cursor); Array (Some (bulk <$> members))])
  | Ok _ => internal_error
  | Err e => err_resp e
  end).

(** ** The queued commands *)

Module Cmd.
Section Cmd.
Context {T : Type} `{!TxOps T} (order : gset (list Z) → list (list Z)).
Implicit Types (s : Session T).

Definition sadd s (id key : list Z) (members : list (list Z)) : QueuedOp T :=
  on_key s key (λ now, SAddOp now id (public_key s key) (private_key s key) members) IntWire true.
Definition srem s (key : list Z) (members : list (list Z)) : QueuedOp T :=
  on_key s key (λ now, SRemOp now (public_key s key) (private_key s key) members) IntWire true.
Definition scard s (key : list Z) : QueuedOp T :=
  on_key s key (λ now, SCardOp now (public_key s key)) IntWire false.
Definition smembers s (key : list Z) : QueuedOp T :=
  on_key s key (λ now, SMembersOp order now (public_key s key) (private_key s key)) BulkArrayWire false.
Definition sismember s (key member : list Z) : QueuedOp T :=
  on_key s key (λ now, SIsMemberOp now (public_key s key) (private_key s key) member) BoolWire false.
Definition spop s (seed : Z * Z) (key : list Z) : QueuedOp T :=
  on_key s key (λ now, SPopOp now seed (public_key s key) (private_key s key)) NullableBulkWire true.
Definition srandmember s (rng : nat → Z * Z) (key : list Z) (count : Z) : QueuedOp T :=
  on_key s key (λ now, SRandMemberOp order now rng (public_key s key) (private_key s key) count)
    (SRandMemberWire count) false.

Definition smove s (id src dst member : list Z) : QueuedOp T :=
  mkQueuedOp (tx_op (λ now, SMoveOp now id (public_key s src) (private_key s src) (public_key s dst)
                              (private_key s dst) member)) BoolWire true true false
    (Some [from_utf8_lossy (public_key s src); from_utf8_lossy (public_key s dst)]).

Definition binary s (keys : list (list Z)) (kind : BinarySetOpKind) : QueuedOp T :=
  mkQueuedOp (tx_op (λ now, BinarySetOp order now (setref_new s <$> keys) kind)) BulkArrayWire false true false
    (Some (keys_sv s keys)).
Definition sdiff s (keys : list (list Z)) : QueuedOp T := binary s keys Diff.
Definition sinter s (keys : list (list Z)) : QueuedOp T := binary s keys Inter.
Definition sunion s (keys : list (list Z)) : QueuedOp T := binary s keys Union.

Definition binary_store s (id dest : list Z) (keys : list (list Z)) (kind : BinarySetOpKind) : QueuedOp T :=
  mkQueuedOp (tx_op (λ now, StoreOp order now id (setref_new s dest) (setref_new s <$> keys) kind)) IntWire
    true true false
    (Some (from_utf8_lossy (public_key s dest) :: ((λ k, from_utf8_lossy (public_key s k)) <$> keys))).
Definition sdiffstore s (id dest : list Z) (keys : list (list Z)) : QueuedOp T := binary_store s id dest keys Diff.
Definition sinterstore s (id dest : list Z) (keys : list (list Z)) : QueuedOp T := binary_store s id dest keys Inter.
Definition sunionstore s (id dest : list Z) (keys : list (list Z)) : QueuedOp T := binary_store s id dest keys Union.

Definition sscan s (key cursor0 : list Z) (count : Z) (pattern : option (list Z)) : QueuedOp T :=
  let cursor := if bool_decide (cursor0 = B "0") then [] else cursor0 in
  on_key s key (λ now, SScanOp now (public_key s key) (private_key s key) cursor count pattern) SScanWire false.
End Cmd.
End Cmd.

(** ** Finite sets as contents *)

(** Every member with itself as content. *)
Definition set_map (X : gset (list Z)) : gmap (list Z) (list Z) := set_to_map (λ x, (x, x)) X.

Lemma lookup_set_map X x : set_map X !! x = if decide (x ∈ X) then Some x else None.
Proof.
  unfold set_map. destruct (decide (x ∈ X)).
  - apply lookup_set_to_map; [naive_solver|]. eauto.
  - apply eq_None_not_Some. intros [v (y & Hy & [= -> ->])%lookup_set_to_map]; [done|naive_solver].
Qed.

Lemma set_map_add x X : set_map ({[x]} ∪ X) = <[x := x]> (set_map X).
Proof.
  apply map_eq. intros y. rewrite lookup_set_map. destruct (decide (y = x)) as [->|Hne].
  - rewrite lookup_insert_eq, decide_True by set_solver. done.
  - rewrite lookup_insert_ne, lookup_set_map by done. apply decide_ext. set_solver.
Qed.

Lemma set_map_del x X : set_map (X ∖ {[x]}) = delete x (set_map X).
Proof.
  apply map_eq. intros y. rewrite lookup_set_map. destruct (decide (y = x)) as [->|Hne].
  - rewrite lookup_delete_eq, decide_False by set_solver. done.
  - rewrite lookup_delete_ne, lookup_set_map by done. apply decide_ext. set_solver.
Qed.

Lemma set_map_empty : set_map ∅ = ∅.
Proof. apply map_eq. intros y. rewrite lookup_set_map, lookup_empty. by rewrite decide_False by set_solver. Qed.

Lemma sorted_set_map_names X : list_to_set (sorted_pairs (set_map X)).*2 = X ∧ NoDup (sorted_pairs (set_map X)).*2.
Proof.
  assert ((sorted_pairs (set_map X)).*2 = (sorted_pairs (set_map X)).*1) as E.
  { apply list_fmap_ext. intros i [x v] Hi%list_elem_of_lookup_2%sorted_pairs_elem.
    rewrite lookup_set_map in Hi. by case_decide; simplify_eq. }
  split; [|rewrite E; apply sorted_pairs_nodup].
  apply set_eq. intros x. rewrite elem_of_list_to_set, E, list_elem_of_fmap. split.
  - intros ([y v] & -> & Hi%sorted_pairs_elem). rewrite lookup_set_map in Hi. by case_decide.
  - intros Hx. exists (x, x). split; [done|]. apply sorted_pairs_elem. by rewrite lookup_set_map, decide_True.
Qed.

Lemma size_set_map X : size (set_map X) = size X.
Proof.
  rewrite <- sorted_pairs_length, <- (length_fmap snd). destruct (sorted_set_map_names X) as [E Hn].
  rewrite <- E at 2. symmetry. by apply size_list_to_set.
Qed.

Definition ssize (X : gset (list Z)) : Z := Z.of_nat (size X).

Lemma ssize_add x X : ssize ({[x]} ∪ X) = if decide (x ∈ X) then ssize X else ssize X + 1.
Proof.
  unfold ssize. case_decide.
  - by rewrite (subseteq_union_1_L {[x]} X) by set_solver.
  - rewrite size_union by set_solver. rewrite size_singleton. lia.
Qed.

Lemma ssize_del x X : ssize (X ∖ {[x]}) = if decide (x ∈ X) then ssize X - 1 else ssize X.
Proof.
  unfold ssize. case_decide.
  - rewrite size_difference by set_solver. rewrite size_singleton.
    assert (size X ≠ 0)%nat; [|lia]. intros H0%size_empty_inv. set_solver.
  - by rewrite difference_disjoint_L by set_solver.
Qed.

Lemma ssize_nonneg X : 0 ≤ ssize X.
Proof. unfold ssize. lia. Qed.

(** ** The abstract machine *)

Inductive scmd : Type :=
| CAdd (members : list (list Z))
| CRem (members : list (list Z))
| CCard
| CIsMember (member : list Z)
| CMembers.

Definition add_members (ms : list (list Z)) (X : gset (list Z)) : gset (list Z) := foldl (λ X x, {[x]} ∪ X) X ms.
Definition rem_members (ms : list (list Z)) (X : gset (list Z)) : gset (list Z) := foldl (λ X x, X ∖ {[x]}) X ms.

Definition sstep (order : gset (list Z) → list (list Z)) (c : scmd) (X : gset (list Z)) : DbResult * gset (list Z) :=
  match c with
  | CAdd ms => (RInt (ssize (add_members ms X) - ssize X), add_members ms X)
  | CRem ms => (RInt (ssize X - ssize (rem_members ms X)), rem_members ms X)
  | CCard => (RInt (ssize X), X)
  | CIsMember x => (RBool (bool_decide (x ∈ X)), X)
  | CMembers => (RList (order X), X)
  end.

Definition scmd_op {T} `{!TxOps T} (order : gset (list Z) → list (list Z)) (now : Z) (id pk legacy : list Z) (c : scmd)
  : DbM T DbResult :=
  match c with
  | CAdd ms => SAddOp now id pk legacy ms
  | CRem ms => SRemOp now pk legacy ms
  | CCard => SCardOp now pk
  | CIsMember x => SIsMemberOp now pk legacy x
  | CMembers => SMembersOp order now pk legacy
  end.

(** SADD comes with at least one member: the parser rejects anything less. *)
Definition scmd_ok (c : scmd) : Prop := match c with CAdd ms => ms ≠ [] | _ => True end.

Definition scmd_room (c : scmd) : Z := match c with CAdd ms => Z.of_nat (length ms) | _ => 0 end.

Lemma elem_of_add_members ms X x : x ∈ add_members ms X ↔ x ∈ ms ∨ x ∈ X.
Proof. unfold add_members. revert X. induction ms as [|y ms IH]; intros X; simpl; [set_solver|]. rewrite IH. set_solver. Qed.
Lemma elem_of_rem_members ms X x : x ∈ rem_members ms X ↔ x ∈ X ∧ x ∉ ms.
Proof. unfold rem_members. revert X. induction ms as [|y ms IH]; intros X; simpl; [set_solver|]. rewrite IH. set_solver. Qed.

Lemma add_members_size ms X : ssize X ≤ ssize (add_members ms X) ≤ ssize X + Z.of_nat (length ms).
Proof.
  unfold add_members. revert X. induction ms as [|x ms IH]; intros X; simpl; [lia|].
  specialize (IH ({[x]} ∪ X)). rewrite ssize_add in IH. case_decide; lia.
Qed.
Lemma rem_members_size ms X : ssize (rem_members ms X) ≤ ssize X.
Proof.
  unfold rem_members. revert X. induction ms as [|x ms IH]; intros X; simpl; [lia|].
  specialize (IH (X ∖ {[x]})). rewrite ssize_del in IH. case_decide; lia.
Qed.

(** ** The operations refine it *)

Section Refines.
Context {T : Type} `{!TxOps T} {raw : T → gmap (list Z) Item} {ok : T → Prop}.
Context `{HT : !TxLaws T raw ok, HS : !TxScanLaws T raw ok} {now : Z} (Hnow : clock_ok now).
#[local] Abbreviation Runs := (Runs (raw:=raw) (ok:=ok)).
Implicit Types (m : gmap (list Z) Item) (X : gset (list Z)).

(** Looking a member up. *)
Lemma live_member p x m X :
  elements_at now m p (set_map X) → is_Some (live now (internal_member_key p x) m) ↔ x ∈ X.
Proof.
  intros He. pose proof (live_element p x m _ He) as Hx. rewrite lookup_set_map in Hx.
  unfold internal_member_key. destruct (live now (element_key p x) m), (decide (x ∈ X)); naive_solver.
Qed.

Lemma live_member_cases p x m X :
  elements_at now m p (set_map X) →
  (x ∈ X ∧ ∃ i, live now (internal_member_key p x) m = Some i) ∨
  ((x ∉ X) ∧ live now (internal_member_key p x) m = None).
Proof.
  intros He. pose proof (live_member p x m X He) as H. destruct (live now (internal_member_key p x) m).
  - left. split; [apply H|]; eauto.
  - right. split; [|done]. intros Hx%H. by destruct Hx.
Qed.

Lemma runs_set_member p x m X :
  good m → elements_at now m p (set_map X) →
  ∃ m', Runs (set now (member_entry p x)) m (Ret ()) m' ∧ rewritten (now:=now) p m m' (set_map ({[x]} ∪ X)).
Proof. rewrite set_map_add. apply (runs_set_element Hnow). Qed.

Lemma runs_delete_member p x m X :
  good m → elements_at now m p (set_map X) →
  ∃ m', Runs (del (internal_member_key p x)) m (Ret ()) m' ∧ rewritten (now:=now) p m m' (set_map (X ∖ {[x]})).
Proof. rewrite set_map_del. apply runs_delete_element. Qed.

Lemma runs_sadd_loop p ms added m X :
  good m → elements_at now m p (set_map X) → ssize X + Z.of_nat (length ms) < 2 ^ 32 →
  ∃ m', Runs (sadd_loop now p ms added (ssize X)) m
          (Ret (added + (ssize (add_members ms X) - ssize X), ssize (add_members ms X))) m' ∧
    rewritten (now:=now) p m m' (set_map (add_members ms X)).
Proof.
  revert added m X. induction ms as [|x ms IH]; intros added m X Hg He Hs; cbn [length sadd_loop] in *.
  { exists m. split; [|by apply rewritten_refl]. cbn [add_members foldl]. rewrite Z.sub_diag, Z.add_0_r. apply runs_ret. }
  change (add_members (x :: ms) X) with (add_members ms ({[x]} ∪ X)). pose proof (ssize_add x X) as Ha. pose proof (ssize_nonneg X).
  destruct (live_member_cases p x m X He) as [(Hx & i & El)|(Hx & El)].
  - replace ({[x]} ∪ X) with X by set_solver. destruct (IH added m X Hg He ltac:(lia)) as (m2 & H2 & Hr2).
    exists m2. split; [|done]. eapply runs_bind; [by apply runs_get_opt|]. rewrite El. exact H2.
  - rewrite decide_False in Ha by done.
    destruct (runs_set_member p x m X Hg He) as (m1 & H1 & Hr).
    destruct (IH (added + 1) m1 ({[x]} ∪ X)) as (m2 & H2 & Hr2); [apply Hr|apply Hr|lia|].
    exists m2. split; [|by eapply rewritten_trans]. eapply runs_bind; [by apply runs_get_opt|]. rewrite El.
    eapply runs_bind; [exact H1|]. rewrite as_u32_small by lia. rewrite Ha in H2.
    replace (added + (ssize (add_members ms ({[x]} ∪ X)) - ssize X))
      with (added + 1 + (ssize (add_members ms ({[x]} ∪ X)) - (ssize X + 1))) by lia. exact H2.
Qed.

Lemma runs_srem_loop p ms removed m X :
  good m → elements_at now m p (set_map X) → ssize X < 2 ^ 32 →
  ∃ m', Runs (srem_loop now p ms removed (ssize X)) m
          (Ret (removed + (ssize X - ssize (rem_members ms X)), ssize (rem_members ms X))) m' ∧
    rewritten (now:=now) p m m' (set_map (rem_members ms X)).
Proof.
  revert removed m X. induction ms as [|x ms IH]; intros removed m X Hg He Hs; cbn [length srem_loop] in *.
  { exists m. split; [|by apply rewritten_refl]. cbn [rem_members foldl]. rewrite Z.sub_diag, Z.add_0_r. apply runs_ret. }
  change (rem_members (x :: ms) X) with (rem_members ms (X ∖ {[x]})). pose proof (ssize_del x X) as Hd. pose proof (ssize_nonneg (X ∖ {[x]})).
  destruct (live_member_cases p x m X He) as [(Hx & i & El)|(Hx & El)].
  - rewrite decide_True in Hd by done.
    destruct (runs_delete_member p x m X Hg He) as (m1 & H1 & Hr).
    destruct (IH (removed + 1) m1 (X ∖ {[x]})) as (m2 & H2 & Hr2); [apply Hr|apply Hr|lia|].
    exists m2. split; [|by eapply rewritten_trans]. eapply runs_bind; [by apply runs_get_opt|]. rewrite El.
    eapply runs_bind; [exact H1|]. rewrite as_u32_small by lia. rewrite Hd in H2.
    replace (removed + (ssize X - ssize (rem_members ms (X ∖ {[x]}))))
      with (removed + 1 + (ssize X - 1 - ssize (rem_members ms (X ∖ {[x]})))) by lia. exact H2.
  - replace (X ∖ {[x]}) with X by set_solver. destruct (IH removed m X Hg He Hs) as (m2 & H2 & Hr2).
    exists m2. split; [|done]. eapply runs_bind; [by apply runs_get_opt|]. rewrite El. exact H2.
Qed.

Lemma count_seen_size m pk X :
  count_seen (now:=now) m pk (set_map X) = match live now pk m with Some _ => Some (ssize X) | None => None end.
Proof. unfold count_seen, ssize. by rewrite size_set_map. Qed.

Lemma set_map_empty_inv X : set_map X = ∅ → X = ∅.
Proof. intros H. apply leibniz_equiv, size_empty_inv. by rewrite <- size_set_map, H, map_size_empty. Qed.

Lemma rem_members_empty ms : rem_members ms ∅ = ∅.
Proof. apply set_eq. intros x. rewrite elem_of_rem_members. set_solver. Qed.

Lemma stored_absent m pk legacy X :
  stored now TYPE_SET m pk legacy (set_map X) → live now pk m = None → X = ∅.
Proof.
  intros Hst Hl. apply set_map_empty_inv. destruct Hst as [|i q h Hst]; [done|].
  by rewrite (sa_live _ _ _ _ _ _ _ _ Hst) in Hl.
Qed.

(** Loading a set yields its members, also when the caller resolved the prefix before. *)
Lemma runs_load_at pk legacy legacy' m i q X :
  keyed m → stored_at now TYPE_SET m pk legacy i q (set_map X) → prefix_of i legacy' = Ok q →
  Runs (load_set_members now pk legacy') m (Ret X) m.
Proof.
  intros Hk Hst Hq. eapply runs_bind; [eapply (runs_count_opt Hnow); by eapply stored_some|].
  destruct Hst as [Hl _ _ _ _ He _ _]. rewrite count_seen_size, Hl.
  eapply runs_bind; [eapply runs_bind; [by apply runs_get|]; rewrite lookup_live_live, Hl, Hq; apply runs_ret|].
  apply (runs_scan_bind Hnow). intros items Hi. rewrite (scan_values now m _ _ items Hk He Hi).
  destruct (sorted_set_map_names X) as [-> _]. apply runs_ret.
Qed.

Lemma runs_load_none pk legacy legacy' m X :
  stored now TYPE_SET m pk legacy (set_map X) → live now pk m = None →
  Runs (load_set_members now pk legacy') m (Ret X) m.
Proof.
  intros Hst Hl. eapply runs_bind; [by eapply runs_count_opt|]. rewrite count_seen_size, Hl.
  rewrite (stored_absent _ _ _ _ Hst Hl). apply runs_ret.
Qed.

Lemma stored_cases m pk legacy X :
  stored now TYPE_SET m pk legacy (set_map X) →
  live now pk m = None ∨ ∃ i q, stored_at now TYPE_SET m pk legacy i q (set_map X).
Proof. intros Hst. inversion Hst; eauto. Qed.

Lemma runs_load pk legacy m X :
  good m → stored now TYPE_SET m pk legacy (set_map X) → Runs (load_set_members now pk legacy) m (Ret X) m.
Proof.
  intros [_ Hk] Hst. destruct (stored_cases _ _ _ _ Hst) as [Hn|(i & q & Hat)]; [by eapply runs_load_none|].
  eapply runs_load_at; [done..|]. apply Hat.
Qed.

Lemma runs_load_resolved {A} (pk legacy : list Z) m X (k : gset (list Z) → DbM T A) r m' :
  good m → stored now TYPE_SET m pk legacy (set_map X) → Runs (k X) m r m' →
  Runs (p ← resolve_prefix now pk legacy; members ← load_set_members now pk (prefix_bytes p); k members) m r m'.
Proof.
  intros [_ Hk] Hst Hr. destruct (stored_cases _ _ _ _ Hst) as [Hn|(i & q & Hat)].
  - eapply runs_bind; [eapply runs_bind; [by apply runs_get|]; rewrite lookup_live_live, Hn; apply runs_ret|].
    eapply runs_bind; [by eapply runs_load_none|done].
  - pose proof (sa_prefix _ _ _ _ _ _ _ _ Hat) as Hp.
    eapply runs_bind; [eapply runs_bind; [by apply runs_get|]; rewrite lookup_live_live,
      (sa_live _ _ _ _ _ _ _ _ Hat), Hp; apply runs_ret|].
    eapply runs_bind; [|exact Hr]. eapply runs_load_at; [done..|]. revert Hp. unfold prefix_of.
    destruct (is_namespaced (item_meta i)); [done|]. by intros [= <-].
Qed.

Context (order : gset (list Z) → list (list Z)).

(** What a command does to a set whose prefix is [p]. *)
Definition refines_at (c : scmd) (m : gmap (list Z) Item) (pk legacy id : list Z) (p : ElementPrefix)
    (X : gset (list Z)) : Prop :=
  ∃ m', Runs (scmd_op order now id pk legacy c) m (Ret (sstep order c X).1) m' ∧
    updated (now:=now) TYPE_SET m pk legacy p m' (set_map (sstep order c X).2).

Lemma add_members_nonempty ms X : ms ≠ [] → add_members ms X ≠ ∅.
Proof.
  assert (∀ ms X, X ≠ ∅ → add_members ms X ≠ ∅) as Hkeep.
  { clear. intros ms. induction ms as [|x ms IH]; intros X HX; cbn; [done|]. apply IH. set_solver. }
  destruct ms as [|x ms]; [done|]. intros _. cbn. apply Hkeep. set_solver.
Qed.

Lemma refines_sadd pk legacy id ms m p X :
  good m → writable now TYPE_SET m pk legacy id p (set_map X) → ssize X + Z.of_nat (length ms) < 2 ^ 32 → ms ≠ [] →
  refines_at (CAdd ms) m pk legacy id p X.
Proof.
  intros Hg Hw Hs Hms. unfold refines_at. simpl. pose proof (add_members_size ms X).
  destruct (runs_sadd_loop (prefix_bytes p) ms 0 m X Hg (wr_elements _ _ _ _ _ _ _ _ Hw) Hs) as (m1 & H1 & Hr).
  destruct (runs_write_updated (raw:=raw) (ok:=ok) Hnow TYPE_SET m pk legacy id p (set_map X) m1
    (set_map (add_members ms X))) as (m2 & H2 & Hu); try done; [rewrite size_set_map; unfold ssize in *; lia| |].
  { intros E%set_map_empty_inv. by apply (add_members_nonempty ms X). }
  exists m2. split; [|done]. rewrite size_set_map in H2.
  eapply runs_bind; [by eapply runs_resolve_for_write|]. eapply runs_bind; [by eapply runs_count_opt_writable|].
  rewrite count_seen_size. replace (default 0 _) with (ssize X).
  - eapply runs_bind; [exact H1|]. eapply runs_bind; [exact H2|]. apply runs_ret.
  - destruct (live now pk m) as [i|] eqn:El; [done|]. apply (writable_absent _ _ _ _ _ _ _ Hw) in El.
    by apply set_map_empty_inv in El as ->.
Qed.

Lemma refines_srem pk legacy id ms m p X :
  good m → stored now TYPE_SET m pk legacy (set_map X) → writable now TYPE_SET m pk legacy id p (set_map X) →
  updated (now:=now) TYPE_SET m pk legacy p m (set_map X) → refines_at (CRem ms) m pk legacy id p X.
Proof.
  intros Hg Hst Hw Hu. unfold refines_at. simpl. destruct (live now pk m) as [i|] eqn:El.
  - pose proof (wr_size _ _ _ _ _ _ _ _ Hw) as Hs. rewrite size_set_map in Hs.
    destruct (runs_srem_loop (prefix_bytes p) ms 0 m X Hg (wr_elements _ _ _ _ _ _ _ _ Hw) Hs) as (m1 & H1 & Hr).
    pose proof (rem_members_size ms X).
    destruct (runs_shrink (raw:=raw) (ok:=ok) Hnow TYPE_SET m pk legacy id p (set_map X) m1 (set_map (rem_members ms X)))
      as (m2 & H2 & Hu2); try done; [rewrite size_set_map; unfold ssize in *; lia|].
    exists m2. split; [|done]. rewrite size_set_map in H2. eapply runs_bind; [by eapply runs_resolve_existing|].
    eapply runs_bind; [by eapply runs_count_opt|]. rewrite count_seen_size, El.
    eapply runs_bind; [exact H1|]. eapply runs_bind; [exact H2|]. apply runs_ret.
  - pose proof (writable_absent _ _ _ _ _ _ _ Hw El) as HX. apply set_map_empty_inv in HX as ->.
    rewrite rem_members_empty. exists m. split; [|done].
    destruct (runs_resolve_prefix (raw:=raw) (ok:=ok) Hnow TYPE_SET pk legacy m _ Hst) as (q & Hq & _).
    eapply runs_bind; [exact Hq|]. eapply runs_bind; [by eapply runs_count_opt|]. rewrite count_seen_size, El.
    apply runs_ret.
Qed.

Lemma refines_scard pk legacy id m p X :
  stored now TYPE_SET m pk legacy (set_map X) → updated (now:=now) TYPE_SET m pk legacy p m (set_map X) →
  refines_at CCard m pk legacy id p X.
Proof.
  intros Hst Hu. exists m. split; [|done]. eapply runs_bind; [by eapply runs_count_opt|].
  rewrite count_seen_size. destruct (live now pk m) eqn:El; [apply runs_ret|].
  apply (stored_absent _ _ _ _ Hst) in El as ->. apply runs_ret.
Qed.

Lemma refines_sismember pk legacy id m p X x :
  stored now TYPE_SET m pk legacy (set_map X) → updated (now:=now) TYPE_SET m pk legacy p m (set_map X) →
  refines_at (CIsMember x) m pk legacy id p X.
Proof.
  intros Hst Hu. exists m. split; [|done]. simpl.
  destruct (runs_resolve_prefix (raw:=raw) (ok:=ok) Hnow TYPE_SET pk legacy m _ Hst) as (q & Hq & He).
  eapply runs_bind; [exact Hq|]. eapply runs_bind; [by eapply runs_count_opt|]. rewrite count_seen_size.
  destruct (live now pk m) eqn:El.
  - eapply runs_bind; [by apply runs_get|]. rewrite lookup_live_live.
    destruct (live_member_cases (prefix_bytes q) x m X He) as [(Hx & i' & ->)|(Hx & ->)].
    + rewrite bool_decide_eq_true_2 by done. apply runs_ret.
    + rewrite bool_decide_eq_false_2 by done. apply runs_ret.
  - apply (stored_absent _ _ _ _ Hst) in El as ->. apply runs_ret.
Qed.

Lemma refines_smembers pk legacy id m p X :
  good m → stored now TYPE_SET m pk legacy (set_map X) → updated (now:=now) TYPE_SET m pk legacy p m (set_map X) →
  refines_at CMembers m pk legacy id p X.
Proof. intros Hg Hst Hu. exists m. split; [|done]. eapply runs_load_resolved; [done..|]. apply runs_ret. Qed.
End Refines.

(** ** Commands of a session *)

Section Session.
Context {T : Type} `{!TxOps T} {raw : T → gmap (list Z) Item} {ok : T → Prop}.
Context `{HT : !TxLaws T raw ok, HS : !TxScanLaws T raw ok} {now : Z} (Hnow : clock_ok now).
Context (order : gset (list Z) → list (list Z)).
Context (s : Session T) (key : list Z) (Hs : session_ok s) (Hkey : key_ok key).
#[local] Abbreviation Runs := (Runs (raw:=raw) (ok:=ok)).
#[local] Abbreviation pk := (public_key s key).
#[local] Abbreviation legacy := (private_key s key).

(** The set under [key] holds [X]. *)
Definition set_at (m : gmap (list Z) Item) (X : gset (list Z)) : Prop :=
  stored now TYPE_SET m pk legacy (set_map X).

Lemma set_step id c m X :
  good m → set_at m X → unused s now m id → ssize X + scmd_room c < 2 ^ 32 → scmd_ok c →
  ∃ p, used_prefix (now:=now) m pk legacy id = Ok p ∧
    refines_at (raw:=raw) (ok:=ok) (now:=now) order c m pk legacy id p X.
Proof.
  intros Hg Hst Hf Hroom Hok.
  destruct (stored_writable _ _ _ _ _ _ _ Hst (unused_fresh s Hs key Hkey _ _ _ Hf)) as [p Hw].
  assert (updated (now:=now) TYPE_SET m pk legacy p m (set_map X)) as Hu.
  { eapply writable_unchanged; [done..|]. intros Hl. unfold set_at in Hst. inversion Hst as [|i q h Hat]; [done|].
    by rewrite (sa_live _ _ _ _ _ _ _ _ Hat) in Hl. }
  exists p. split; [by eapply writable_used|]. unfold set_at in Hst.
  destruct c as [ms|ms| |x|]; simpl in Hroom.
  - by apply (refines_sadd Hnow).
  - by apply (refines_srem Hnow).
  - by apply (refines_scard Hnow).
  - by apply (refines_sismember Hnow).
  - by apply (refines_smembers Hnow).
Qed.

(** Each command of a transaction with the id it would use. *)
Fixpoint set_script (l : list (list Z * scmd)) : DbM T (list DbResult) :=
  match l with
  | [] => mret []
  | (id, c) :: l' => r ← scmd_op order now id pk legacy c; rs ← set_script l'; mret (r :: rs)
  end.

Fixpoint srun (l : list (list Z * scmd)) (X : gset (list Z)) : list DbResult * gset (list Z) :=
  match l with
  | [] => ([], X)
  | (_, c) :: l' =>
      let '(r, X1) := sstep order c X in let '(rs, X2) := srun l' X1 in (r :: rs, X2)
  end.

Lemma sstep_room c X : ssize (sstep order c X).2 ≤ ssize X + scmd_room c.
Proof.
  destruct c as [ms|ms| |x|]; simpl; try lia.
  - apply add_members_size.
  - pose proof (rem_members_size ms X). lia.
Qed.

Lemma set_script_runs l m X :
  good m → set_at m X → spare s key now m l.*1 → Forall (scmd_ok ∘ snd) l →
  ssize X + foldr (λ x n, scmd_room x.2 + n) 0 l < 2 ^ 32 →
  ∃ m', Runs (set_script l) m (Ret (srun l X).1) m' ∧ good m' ∧ set_at m' (srun l X).2 ∧
    ((X = ∅ → live now pk m = None) → (srun l X).2 = ∅ → live now pk m' = None).
Proof.
  revert m X. induction l as [|[id c] l IH]; intros m X Hg Hst Hsp Hw Hroom.
  { exists m. split; [apply runs_ret|done]. }
  apply Forall_cons in Hw as [Hw Hws].
  simpl in *. assert (0 ≤ foldr (λ x n, scmd_room x.2 + n) 0 l).
  { clear. induction l as [|[? []] l IH]; simpl; lia. }
  destruct (set_step id c m X) as (p & Hp & m1 & H1 & Hu); [done|done| |lia|done|].
  { pose proof (sp_unused _ _ _ _ _ Hsp) as Hu. by apply Forall_cons in Hu as [? _]. }
  pose proof (updated_spare s Hs key Hkey _ _ _ _ _ _ _ _ Hsp Hp Hu) as Hsp1. pose proof (sstep_room c X).
  pose proof (updated_tidy _ _ _ _ _ _ _ _ Hst Hu) as Ht. destruct (sstep order c X) as [r X1]. simpl in *.
  destruct (IH m1 X1) as (m2 & H2 & Hg2 & Hh2 & Ht2); [apply Hu|apply Hu|done..|lia|].
  destruct (srun l X1) as [rs X2]. simpl in *. exists m2.
  split; [|split_and!; [done..|]; intros Ht0; apply Ht2; intros ->; apply Ht;
    [by intros E%set_map_empty_inv; apply Ht0|apply set_map_empty]].
  eapply runs_bind; [exact H1|]. eapply runs_bind; [exact H2|]. apply runs_ret.
Qed.
End Session.

(** ** SPOP *)

Section Pop.
Context {T : Type} `{!TxOps T} {raw : T → gmap (list Z) Item} {ok : T → Prop}.
Context `{HT : !TxLaws T raw ok, HS : !TxScanLaws T raw ok} {now : Z} (Hnow : clock_ok now).
#[local] Abbreviation Runs := (Runs (raw:=raw) (ok:=ok)).

Lemma runs_spop seed pk legacy m i p X :
  good m → stored_at now TYPE_SET m pk legacy i p (set_map X) → X ≠ ∅ → (∀ x, x ∈ X → 0 ∉ x) →
  ∃ x m', x ∈ X ∧ Runs (SPopOp now seed pk legacy) m (Ret (ROptBytes (Some x))) m' ∧
    updated (now:=now) TYPE_SET m pk legacy p m' (set_map (X ∖ {[x]})).
Proof.
  intros Hg Hat HX Hplain. pose proof (stored_at_writable TYPE_SET m pk legacy [] i p _ Hat) as Hw.
  pose proof (sa_size _ _ _ _ _ _ _ _ Hat) as Hs. rewrite size_set_map in Hs.
  assert (0 < size X)%nat as Hpos.
  { assert (size X ≠ 0)%nat; [|lia]. intros H0%size_empty_inv. by apply HX, leibniz_equiv. }
  set (idx := Z.to_nat (rand_index seed (ssize X))).
  assert (idx < length (sorted_pairs (set_map X)))%nat as Hidx.
  { rewrite sorted_pairs_length, size_set_map. unfold idx. pose proof (rand_index_below seed (size X) Hpos) as Hb.
    rewrite as_u32_small in Hb by lia. exact Hb. }
  apply lookup_lt_is_Some_2 in Hidx as [[x v] Hx]. pose proof (list_elem_of_lookup_2 _ _ _ Hx) as Hin.
  apply sorted_pairs_elem in Hin. rewrite lookup_set_map in Hin. case_decide as HxX; [|done]. clear Hin.
  pose proof (rewritten_delete (now:=now) (prefix_bytes p) x m _ Hg (sa_elements _ _ _ _ _ _ _ _ Hat)) as Hr.
  rewrite <- set_map_del in Hr.
  pose proof (ssize_del x X) as Hd. rewrite decide_True in Hd by done. unfold ssize in Hd.
  destruct (runs_shrink (raw:=raw) (ok:=ok) Hnow TYPE_SET m pk legacy [] p (set_map X)
    (delete (element_key (prefix_bytes p) x) m) (set_map (X ∖ {[x]})))
    as (m2 & H2 & Hu); try done; [rewrite size_set_map; lia|].
  rewrite size_set_map, Hd in H2.
  exists x, m2. split_and!; [done| |done].
  eapply runs_bind; [eapply (runs_resolve_existing Hnow); [done|apply Hat]|].
  eapply runs_bind; [eapply (runs_count_opt Hnow); by eapply stored_some|].
  rewrite count_seen_size, (sa_live _ _ _ _ _ _ _ _ Hat). fold idx.
  apply (runs_iter_bind Hnow). intros it Herr Hit _.
  pose proof (scan_keys now m (prefix_bytes p) _ (iter_items it) (proj2 Hg) (sa_elements _ _ _ _ _ _ _ _ Hat) Hit)
    as Hkeys.
  apply (f_equal (λ l, l !! idx)) in Hkeys. rewrite !list_lookup_fmap, Hx in Hkeys. simpl in Hkeys.
  destruct (iter_items it !! idx) as [item|]; [|done]. injection Hkeys as Hkey. rewrite Herr.
  eapply runs_bind; [eapply runs_bind; [by apply runs_delete_res|]; apply runs_ret|].
  rewrite Hkey. unfold member_from_internal_key. rewrite element_from_key_key by auto.
  unfold spop_count. rewrite as_u32_small by (unfold ssize; lia).
  eapply runs_bind; [exact H2|]. apply runs_ret.
Qed.
End Pop.

(** ** SMOVE *)

Section Move.
Context {T : Type} `{!TxOps T} {raw : T → gmap (list Z) Item} {ok : T → Prop}.
Context `{HT : !TxLaws T raw ok} {now : Z} (Hnow : clock_ok now).
#[local] Abbreviation Runs := (Runs (raw:=raw) (ok:=ok)).

(** Adding one member to the destination. *)
Lemma runs_move_in id pk legacy x m p Y :
  good m → stored now TYPE_SET m pk legacy (set_map Y) → writable now TYPE_SET m pk legacy id p (set_map Y) →
  ssize Y + 1 < 2 ^ 32 →
  ∃ m', Runs (dst_prefix ← resolve_prefix_for_write now id pk legacy;
          old ← get_opt now (internal_member_key (prefix_bytes dst_prefix) x);
          match old with
          | Some _ => mret (RBool true)
          | None =>
              set now (member_entry (prefix_bytes dst_prefix) x) ;;
              dc ← set_count now pk;
              write_set_sentinel now pk (match dc with None => 1 | Some n => as_u32 (n + 1) end) dst_prefix ;;
              mret (RBool true)
          end) m (Ret (RBool true)) m' ∧
    updated (now:=now) TYPE_SET m pk legacy p m' (set_map ({[x]} ∪ Y)).
Proof.
  intros Hg Hst Hw Hs. pose proof (ssize_nonneg Y).
  destruct (live_member_cases (prefix_bytes p) x m Y (wr_elements _ _ _ _ _ _ _ _ Hw)) as [(Hx & i & El)|(Hx & El)].
  - exists m. split.
    + eapply runs_bind; [by eapply runs_resolve_for_write|]. eapply runs_bind; [by apply runs_get_opt|].
      rewrite El. apply runs_ret.
    + replace ({[x]} ∪ Y) with Y by set_solver. eapply writable_unchanged; [done..|].
      intros Hl. inversion Hst as [|j q h Hat]; [done|]. by rewrite (sa_live _ _ _ _ _ _ _ _ Hat) in Hl.
  - destruct (runs_set_member (raw:=raw) (ok:=ok) Hnow (prefix_bytes p) x m Y Hg (wr_elements _ _ _ _ _ _ _ _ Hw))
      as (m1 & H1 & Hr).
    pose proof (ssize_add x Y) as Ha. rewrite decide_False in Ha by done. unfold ssize in Ha.
    destruct (runs_write_updated (raw:=raw) (ok:=ok) Hnow TYPE_SET m pk legacy id p (set_map Y) m1
      (set_map ({[x]} ∪ Y))) as (m2 & H2 & Hu); try done; [rewrite size_set_map; unfold ssize in *; lia| |].
    { intros E%set_map_empty_inv. set_solver. }
    exists m2. split; [|done]. rewrite size_set_map, Ha in H2.
    eapply runs_bind; [by eapply runs_resolve_for_write|]. eapply runs_bind; [by apply runs_get_opt|]. rewrite El.
    eapply runs_bind; [exact H1|]. eapply runs_bind; [by eapply (runs_count_after Hnow)|]. rewrite count_seen_size.
    eapply runs_bind; [|apply runs_ret]. destruct (live now pk m) as [j|] eqn:Ej.
    + rewrite as_u32_small by lia. exact H2.
    + rewrite (stored_absent _ _ _ _ Hst Ej) in H2. exact H2.
Qed.

Lemma runs_smove id pk1 legacy1 pk2 legacy2 x m i p X Y q :
  pk1 ≠ pk2 → good m → stored_at now TYPE_SET m pk1 legacy1 i p (set_map X) →
  stored now TYPE_SET m pk2 legacy2 (set_map Y) → fresh now m pk2 legacy2 id →
  used_prefix (now:=now) m pk2 legacy2 id = Ok q → ssize Y + 1 < 2 ^ 32 →
  apart now m pk2 legacy2 pk1 (prefix_bytes p) → apart now m pk1 legacy1 pk2 (prefix_bytes q) →
  (∀ r, new_namespace id legacy2 = Ok r → apart now m pk1 legacy1 pk2 (prefix_bytes r)) →
  x ∈ X →
  ∃ m', Runs (SMoveOp now id pk1 legacy1 pk2 legacy2 x) m (Ret (RBool true)) m' ∧ good m' ∧
    stored now TYPE_SET m' pk1 legacy1 (set_map (X ∖ {[x]})) ∧
    stored now TYPE_SET m' pk2 legacy2 (set_map ({[x]} ∪ Y)) ∧
    ∀ k : list Z, k ≠ pk1 → k ≠ pk2 → (∀ f, k ≠ element_key (prefix_bytes p) f) →
      (∀ f, k ≠ element_key (prefix_bytes q) f) → m' !! k = m !! k.
Proof.
  intros Hne Hg Hat Hdst Hfresh Hq Hs Ha1 Ha2 Ha3 Hx.
  pose proof (stored_at_writable TYPE_SET m pk1 legacy1 [] i p _ Hat) as Hw.
  pose proof (sa_size _ _ _ _ _ _ _ _ Hat) as HsX. rewrite size_set_map in HsX.
  pose proof (ssize_del x X) as Hd. rewrite decide_True in Hd by done. unfold ssize in Hd.
  assert (0 < size X)%nat as Hpos.
  { assert (size X ≠ 0)%nat; [|lia]. intros H0%size_empty_inv. set_solver. }
  destruct (runs_delete_member (raw:=raw) (ok:=ok) (now:=now) (prefix_bytes p) x m X Hg
    (sa_elements _ _ _ _ _ _ _ _ Hat)) as (m1 & H1 & Hr).
  destruct (runs_shrink (raw:=raw) (ok:=ok) Hnow TYPE_SET m pk1 legacy1 [] p (set_map X) m1 (set_map (X ∖ {[x]})))
    as (m2 & H2 & Hu); try done; [rewrite size_set_map; lia|]. rewrite size_set_map, Hd in H2.
  pose proof (updated_other _ _ _ _ _ _ _ _ _ _ _ _ Hu Ha1 Hdst) as Hdst2.
  pose proof (updated_fresh _ _ _ _ _ _ _ _ _ _ _ _ Hu (sa_live _ _ _ _ _ _ _ _ Hat) (sa_prefix _ _ _ _ _ _ _ _ Hat)
    Ha3 Hfresh) as Hfresh2.
  destruct (stored_writable _ _ _ _ _ _ _ Hdst2 Hfresh2) as [q' Hw2].
  assert (q' = q) as ->.
  { pose proof (writable_used _ _ _ _ _ _ _ Hw2) as E. rewrite (updated_used _ _ _ _ _ _ _ _ _ _ _ Hu Ha1) in E. congruence. }
  destruct (runs_move_in id pk2 legacy2 x m2 q Y (up_good _ _ _ _ _ _ _ Hu) Hdst2 Hw2 Hs) as (m3 & H3 & Hu3).
  pose proof (updated_apart _ _ _ _ _ _ _ _ _ _ _ Hu (sa_live _ _ _ _ _ _ _ _ Hat) (sa_prefix _ _ _ _ _ _ _ _ Hat) Ha2)
    as Ha2'.
  exists m3. split_and!; [|apply Hu3| |apply Hu3|].
  - unfold SMoveOp. rewrite bool_decide_eq_false_2 by done.
    eapply runs_bind; [eapply (runs_count_opt Hnow); by eapply stored_some|].
    rewrite count_seen_size, (sa_live _ _ _ _ _ _ _ _ Hat).
    eapply runs_bind; [eapply (runs_resolve_existing Hnow); [done|apply Hat]|].
    eapply runs_bind; [by apply runs_get|]. rewrite lookup_live_live.
    destruct (live_member_cases (prefix_bytes p) x m X (sa_elements _ _ _ _ _ _ _ _ Hat)) as [(_ & j & ->)|[? _]]; [|done].
    eapply runs_bind; [exact H1|]. rewrite as_u32_small by (unfold ssize; lia).
    eapply runs_bind; [exact H2|]. exact H3.
  - eapply updated_other; [exact Hu3|exact Ha2'|apply Hu].
  - intros k Hk1 Hk2 Hf Hf2. rewrite (up_frame _ _ _ _ _ _ _ Hu3) by done. by apply (up_frame _ _ _ _ _ _ _ Hu).
Qed.
End Move.

(** ** Combining sets *)

(** An order that lists every member once. *)
Definition lists (order : gset (list Z) → list (list Z)) : Prop := ∀ X, order X ≡ₚ base.elements X.

Section Combine.
Context {T : Type} `{!TxOps T} {raw : T → gmap (list Z) Item} {ok : T → Prop}.
Context `{HT : !TxLaws T raw ok, HS : !TxScanLaws T raw ok} {now : Z} (Hnow : clock_ok now).
#[local] Abbreviation Runs := (Runs (raw:=raw) (ok:=ok)).

Definition ref_holds (m : gmap (list Z) Item) (r : SetRef) (X : gset (list Z)) : Prop :=
  stored now TYPE_SET m (ref_public_key r) (ref_node_prefix r) (set_map X).

Lemma runs_combine_loop kind refs m Xs X :
  good m → Forall2 (ref_holds m) refs Xs →
  Runs (combine_loop now kind refs X) m (Ret (foldl (combine kind) X Xs)) m.
Proof.
  intros Hg H. revert X. induction H as [|r Y refs Xs Hr H IH]; intros X; simpl; [apply runs_ret|].
  eapply runs_bind; [by apply (runs_load Hnow)|]. apply IH.
Qed.

Lemma runs_combined kind refs m X Xs :
  good m → Forall2 (ref_holds m) refs (X :: Xs) →
  Runs (combined now kind refs) m (Ret (foldl (combine kind) X Xs)) m.
Proof.
  intros Hg H. inversion H; subst. eapply runs_bind; [by apply (runs_load Hnow)|]. by apply runs_combine_loop.
Qed.

(** ** Storing the result *)
Lemma runs_delete_all keys m :
  good m → Runs (delete_all keys) m (Ret ()) (foldl (λ m k, delete k m) m keys) ∧ good (foldl (λ m k, delete k m) m keys).
Proof.
  revert m. induction keys as [|k keys IH]; intros m Hg; simpl; [split; [apply runs_ret|done]|].
  destruct (IH (delete k m)) as [H Hg']; [by apply good_delete|]. split; [|done].
  eapply runs_bind; [apply runs_del|exact H].
Qed.

Lemma lookup_delete_keys (keys : list (list Z)) (m : gmap (list Z) Item) (k : list Z) :
  foldl (λ m k, delete k m) m keys !! k = if decide (k ∈ keys) then None else m !! k.
Proof.
  revert m. induction keys as [|k' keys IH]; intros m; [done|]. cbn [foldl]. rewrite IH. destruct (decide (k = k')) as [->|Hne].
  - rewrite lookup_delete_eq. repeat case_decide; try done; set_solver.
  - rewrite lookup_delete_ne by done. apply decide_ext. set_solver.
Qed.

(** The destination of a *STORE command emptied. *)
Lemma runs_clear pk legacy m Y p :
  good m → stored now TYPE_SET m pk legacy (set_map Y) → layout pk legacy (legacy_prefix legacy) →
  (match live now pk m with Some i => prefix_of i legacy | None => Ok (legacy_prefix legacy) end) = Ok p →
  ∃ m', Runs (clear_set now pk legacy) m (Ret ()) m' ∧ good m' ∧ live now pk m' = None ∧ elements_at now m' legacy ∅ ∧
    (∀ k : list Z, m' !! k = m !! k ∨ m' !! k = None) ∧
    ∀ k : list Z, k ≠ pk → (∀ f, k ≠ element_key (prefix_bytes p) f) → m' !! k = m !! k.
Proof.
  intros Hg Hst Hlay0 Hp.
  assert (elements_at now m (prefix_bytes p) (set_map Y) ∧ (explicit p = true → elements_at now m legacy ∅) ∧
          (explicit p = false → prefix_bytes p = legacy) ∧ Runs (resolve_prefix now pk legacy) m (Ret p) m)
    as (He & Hleg & Hex & Hres).
  { destruct (stored_cases _ _ _ _ Hst) as [Hn|(i & q & Hat)].
    - rewrite Hn in Hp. injection Hp as <-. simpl. inversion Hst as [_ He HY|i q h Hat].
      + split_and!; [done..|]. eapply runs_bind; [by apply runs_get|]. rewrite lookup_live_live, Hn. apply runs_ret.
      + by rewrite (sa_live _ _ _ _ _ _ _ _ Hat) in Hn.
    - destruct Hat as [Hl Hty Hc Hq Hs He Hlay Hleg]. rewrite Hl, Hq in Hp. injection Hp as <-. split_and!; [done..| |].
      + intros Hx. by apply prefix_of_cases in Hq as [[_ ?]|[_ ->]]; [congruence|].
      + eapply runs_bind; [by apply runs_get|]. rewrite lookup_live_live, Hl, Hq. apply runs_ret. }
  set (keys := element_key (prefix_bytes p) <$> (sorted_pairs (set_map Y)).*1).
  destruct (runs_delete_all keys m Hg) as [Hd Hg1]. set (m1 := foldl (λ m k, delete k m) m keys) in *.
  assert (∀ k : list Z, delete pk m1 !! k = if decide (k = pk ∨ k ∈ keys) then None else m !! k) as Hlk.
  { intros k. destruct (decide (k = pk)) as [->|Hne].
    - rewrite lookup_delete_eq, decide_True by auto. done.
    - rewrite lookup_delete_ne by done. unfold m1. rewrite lookup_delete_keys. apply decide_ext. naive_solver. }
  exists (delete pk m1). split_and!.
  - eapply runs_bind; [exact Hres|]. apply (runs_scan_bind Hnow). intros items Hi.
    rewrite (scan_keys now m (prefix_bytes p) _ items (proj2 Hg) He Hi). fold keys.
    eapply runs_bind; [exact Hd|]. apply runs_del.
  - by apply good_delete.
  - apply live_delete.
  - intros f. rewrite lookup_empty. apply fmap_None. unfold live, lookup_live. rewrite Hlk.
    case_decide as Hk; [done|]. destruct (explicit p) eqn:Ex.
    + specialize (Hleg eq_refl f). rewrite lookup_empty in Hleg. apply fmap_None in Hleg. exact Hleg.
    + specialize (Hex eq_refl). assert (set_map Y !! f = None) as HN.
      { apply eq_None_not_Some. intros [v Hv]. apply Hk. right. unfold keys. rewrite Hex. apply list_elem_of_fmap.
        exists f. split; [done|]. apply list_elem_of_fmap. exists (f, v). split; [done|]. by apply sorted_pairs_elem. }
      rewrite <- He, Hex in HN. apply fmap_None in HN. exact HN.
  - intros k. rewrite Hlk. case_decide; auto.
  - intros k Hk Hf. rewrite Hlk. apply decide_False. intros [->|(f & -> & _)%list_elem_of_fmap]; [done|]. by apply (Hf f).
Qed.

Lemma runs_write_members p ms m X :
  good m → elements_at now m p (set_map X) →
  ∃ m', Runs (write_members now p ms) m (Ret ()) m' ∧ rewritten (now:=now) p m m' (set_map (add_members ms X)).
Proof.
  revert m X. induction ms as [|x ms IH]; intros m X Hg He; cbn [write_members].
  { exists m. split; [apply runs_ret|by apply rewritten_refl]. }
  destruct (runs_set_member (raw:=raw) (ok:=ok) Hnow p x m X Hg He) as (m1 & H1 & Hr).
  destruct (IH m1 ({[x]} ∪ X)) as (m2 & H2 & Hr2); [apply Hr|apply Hr|].
  exists m2. split; [|by eapply rewritten_trans]. eapply runs_bind; [exact H1|exact H2].
Qed.

Lemma add_members_list ms : add_members ms ∅ = list_to_set ms.
Proof. apply set_eq. intros x. rewrite elem_of_add_members. set_solver. Qed.

Lemma runs_store id pk legacy members m Y p q :
  good m → stored now TYPE_SET m pk legacy (set_map Y) → layout pk legacy (legacy_prefix legacy) →
  (match live now pk m with Some i => prefix_of i legacy | None => Ok (legacy_prefix legacy) end) = Ok p →
  new_namespace id legacy = Ok q → layout pk legacy q → elements_at now m (prefix_bytes q) ∅ →
  NoDup members → Z.of_nat (length members) < 2 ^ 32 →
  ∃ m', Runs (store_set_result now id pk legacy members) m (Ret (Z.of_nat (length members))) m' ∧ good m' ∧
    stored now TYPE_SET m' pk legacy (set_map (list_to_set members)) ∧
    (live now pk m' ≫= item_expire_ts) = None ∧
    ∀ k : list Z, k ≠ pk → (∀ f, k ≠ element_key (prefix_bytes p) f) → (∀ f, k ≠ element_key (prefix_bytes q) f) →
      m' !! k = m !! k.
Proof.
  intros Hg Hst Hlay0 Hp Hq Hlay He Hnd Hlen.
  destruct (runs_clear pk legacy m Y p Hg Hst Hlay0 Hp) as (m1 & H1 & Hg1 & Hl1 & Hleg1 & Hor & Hf1).
  assert (elements_at now m1 (prefix_bytes q) (set_map ∅)) as He1.
  { rewrite set_map_empty. intros f. specialize (He f). rewrite lookup_empty in He |- *. apply fmap_None in He.
    apply fmap_None. revert He. unfold live, lookup_live. destruct (Hor (element_key (prefix_bytes q) f)) as [->| ->]; done. }
  destruct (runs_write_members (prefix_bytes q) members m1 ∅ Hg1 He1) as (m2 & H2 & [Hg2 He2 Ho]).
  rewrite add_members_list in He2.
  assert (size (set_map (list_to_set members)) = length members) as Hsz.
  { rewrite size_set_map. by apply size_list_to_set. }
  assert (live now pk m2 = None) as Hl2.
  { rewrite (same_outside_live _ _ _ _ Ho); [done|]. intros f Hf. by eapply (lay_public _ _ _ Hlay f). }
  assert (explicit q = true) as Hx by (by eapply new_namespace_explicit).
  destruct (runs_write_count (raw:=raw) (ok:=ok) Hnow TYPE_SET pk legacy q m2 (set_map (list_to_set members)))
    as (i & Hexp & H3 & Hg3 & Hat); try done; [by rewrite Hl2|by rewrite Hsz| |].
  { intros _. apply (same_outside_elements _ _ _ _ _ Ho); [|done]. by apply (lay_explicit _ _ _ Hlay). }
  rewrite Hsz in H3. eexists. split_and!; [|exact Hg3|by eapply stored_some| |].
  - eapply runs_bind; [exact H1|]. rewrite Hq. eapply runs_bind; [apply runs_ret|].
    eapply runs_bind; [exact H2|]. rewrite as_u32_small by lia. eapply runs_bind; [exact H3|]. apply runs_ret.
  - rewrite (sa_live _ _ _ _ _ _ _ _ Hat). simpl. by rewrite Hexp, Hl2.
  - intros k Hk Hfp Hfq. rewrite lookup_insert_ne by done. rewrite (Ho k) by done. by apply Hf1.
Qed.

End Combine.

Section Order.
Context (order : gset (list Z) → list (list Z)) (Horder : lists order).

Lemma order_nodup X : NoDup (order X).
Proof. rewrite (Horder X). apply NoDup_elements. Qed.
Lemma order_set X : list_to_set (order X) = X.
Proof. apply set_eq. intros x. rewrite elem_of_list_to_set, (Horder X). apply elem_of_elements. Qed.
Lemma order_length X : length (order X) = size X.
Proof. by rewrite (Horder X). Qed.
End Order.

(** ** SSCAN pages *)
Lemma sscan_page_spec l (start count : nat) :
  (start ≤ length l)%nat → Z.of_nat (length l) + Z.of_nat count < 2 ^ 63 →
  sscan_page l (Z.of_nat start) (Z.of_nat count) =
    Some (if (start + count <? length l)%nat then to_dec (Z.of_nat (start + count)) else [],
          take count (drop start l)).
Proof.
  intros Hs Hl. unfold sscan_page. unfold as_u64. rewrite Z.mod_small by lia.
  rewrite (proj2 (Z.ltb_ge _ _)) by lia. f_equal. f_equal.
  - destruct (Nat.ltb_spec (start + count) (length l)).
    + rewrite (proj2 (Z.ltb_lt _ _)) by lia. f_equal. lia.
    + by rewrite (proj2 (Z.ltb_ge _ _)) by lia.
  - rewrite Nat2Z.id. destruct (decide (count ≤ length l - start)%nat).
    + f_equal. lia.
    + rewrite !take_ge by (rewrite length_drop; lia). done.
Qed.

(** The members SSCAN goes through. *)
Definition sscanned (pattern : option (list Z)) (X : gset (list Z)) : list (list Z) :=
  filter (λ x, sscan_keeps pattern x = true) (sorted_pairs (set_map X)).*2.

Fixpoint sscan_all {T} `{!TxOps T} (fuel : nat) (now : Z) (pk legacy cursor : list Z) (count : Z)
    (pattern : option (list Z)) : DbM T (list (list Z)) :=
  match fuel with
  | O => fail (Redis (B "out of fuel"))
  | S fuel' =>
      r ← SScanOp now pk legacy cursor count pattern;
      match r with
      | RSScan next page =>
          if bool_decide (next = []) then mret page
          else rest ← sscan_all fuel' now pk legacy next count pattern; mret (page ++ rest)
      | _ => mret []
      end
  end.

Section Scan.
Context {T : Type} `{!TxOps T} {raw : T → gmap (list Z) Item} {ok : T → Prop}.
Context `{HT : !TxLaws T raw ok, HS : !TxScanLaws T raw ok} {now : Z} (Hnow : clock_ok now).
#[local] Abbreviation Runs := (Runs (raw:=raw) (ok:=ok)).

Lemma runs_sscan pk legacy m i p X cursor count pattern :
  good m → stored_at now TYPE_SET m pk legacy i p (set_map X) →
  Runs (SScanOp now pk legacy cursor count pattern) m
    (match sscan_page (sscanned pattern X) (if bool_decide (cursor = []) then 0 else default 0 (parse_usize cursor))
             (Z.max count 1) with
     | Some page => Ret (RSScan page.1 page.2)
     | None => Panic
     end) m.
Proof.
  intros [_ Hk] Hat. eapply runs_bind.
  { eapply (runs_resolve_existing Hnow TYPE_SET pk legacy []); [by eapply stored_at_writable|apply Hat]. }
  eapply runs_bind; [eapply (runs_count_opt Hnow); by eapply stored_some|].
  destruct Hat as [Hl _ _ _ _ He _ _]. rewrite count_seen_size, Hl. apply (runs_scan_bind Hnow). intros items Hi.
  rewrite (scan_values now m _ _ items Hk He Hi). fold (sscanned pattern X). cbv zeta.
  destruct (sscan_page _ _ _) as [page|].
  - eapply runs_bind; [apply runs_ret|]. apply runs_ret.
  - intros t Ht Hm. by exists t.
Qed.

Lemma runs_sscan_all fuel pk legacy m i p X (start count : nat) cursor pattern :
  good m → stored_at now TYPE_SET m pk legacy i p (set_map X) →
  (0 < count)%nat → (start ≤ length (sscanned pattern X))%nat → (length (sscanned pattern X) - start < fuel)%nat →
  Z.of_nat (length (sscanned pattern X)) + Z.of_nat count < 2 ^ 63 →
  (if bool_decide (cursor = []) then 0 else default 0 (parse_usize cursor)) = Z.of_nat start →
  Runs (sscan_all fuel now pk legacy cursor (Z.of_nat count) pattern) m (Ret (drop start (sscanned pattern X))) m.
Proof.
  intros Hg Hat Hc. revert start cursor.
  induction fuel as [|fuel IH]; intros start cursor Hs Hf Hmax Hcur; [lia|]. cbn [sscan_all].
  pose proof (runs_sscan pk legacy m i p X cursor (Z.of_nat count) pattern Hg Hat) as Hrun.
  rewrite Hcur, Z.max_l, sscan_page_spec in Hrun by (done || lia). eapply runs_bind; [exact Hrun|]. simpl.
  destruct (Nat.ltb_spec (start + count) (length (sscanned pattern X))).
  - assert (to_dec (Z.of_nat (start + count)) ≠ []) as Hne.
    { rewrite to_dec_nonneg by lia. apply dec_nat_nonempty. lia. }
    rewrite bool_decide_eq_false_2 by done.
    eapply runs_bind; [apply (IH (start + count)%nat); try lia|].
    { rewrite bool_decide_eq_false_2, parse_usize_to_dec by (done || width_lia). done. }
    rewrite <- drop_drop, take_drop. apply runs_ret.
  - rewrite bool_decide_eq_true_2 by done. rewrite take_ge by (rewrite length_drop; lia). apply runs_ret.
Qed.
End Scan.

(** ** SRANDMEMBER *)
Lemma srand_choice_spec rng count l :
  NoDup l → l ≠ [] → - 2 ^ 57 ≤ count →
  ∃ out, srand_choice rng count l = Some out ∧ (∀ x, x ∈ out → x ∈ l) ∧
    Z.of_nat (length out) = (if 0 <=? count then Z.min count (Z.of_nat (length l)) else - count) ∧
    (0 ≤ count → NoDup out).
Proof.
  intros Hnl Hl Hmin. unfold srand_choice. rewrite (bool_decide_eq_false_2 (l = [])), orb_false_r by done.
  destruct (Z.eqb_spec count 0) as [->|Hc0].
  { exists []. split_and!; [done|by intros x ?%not_elem_of_nil|simpl; lia|constructor]. }
  destruct (Z.ltb_spec 0 count); [destruct (Z.leb_spec (Z.of_nat (length l)) count)|].
  - exists l. rewrite (proj2 (Z.leb_le _ _)) by lia. split_and!; [done|done|lia|done].
  - destruct (sample_distinct rng l (Z.to_nat count) Hnl ltac:(lia)) as (perm & out & Hp & Ho & Hlen & Hno & Hin).
    exists out. rewrite (proj2 (Z.leb_le _ _)), Hp by lia. split_and!; [done|done|lia|done].
  - assert (as_u64 (as_i64 (- count)) = - count) as ->.
    { rewrite as_i64_id by width_lia. apply Z.mod_small. lia. }
    rewrite (proj2 (Z.leb_gt _ _)) by lia.
    assert (Hash.capacity_ok (- count) = true) as -> by (unfold Hash.capacity_ok; apply Z.leb_le; width_lia).
    destruct (sample_independent rng l (Z.to_nat (- count)) Hl) as (out & Ho & Hlen & Hin).
    exists out. split_and!; [done|done|lia|lia].
Qed.

(** ** Properties *)

(** The set {x, y} under the key a, as SADD makes it. *)
Definition demo_set : gmap (list Z) Item :=
  snd (SAddOp 5 (id_of 1) (B "0:a") (B "-0:a") [B "x"; B "y"] (∅ : gmap (list Z) Item)).
Definition demo_members : gset (list Z) := {[B "x"; B "y"]}.
Definition demo_prefix : ElementPrefix := explicit_prefix (namespace_of demo_session (id_of 1)).

Lemma clock_ok_demo : clock_ok 5.
Proof. unfold clock_ok. width_lia. Qed.
Lemma demo_session_ok : session_ok demo_session.
Proof. unfold session_ok. simpl. width_lia. Qed.

(** Running on the map itself computes the abstract store. *)
Lemma runs_map {A} (op : DbM (gmap (list Z) Item) A) m r m' :
  Runs (raw:=id) (ok:=λ _, True) op m r m' → op m = (r, m').
Proof. intros H. destruct (H m I eq_refl) as (t & -> & _ & Ht). unfold id in Ht. by subst. Qed.

Lemma demo_set_good :
  good demo_set ∧ set_at (now:=5) demo_session (B "a") demo_set demo_members.
Proof.
  destruct (set_script_runs (raw:=id) (ok:=λ _, True) clock_ok_demo base.elements demo_session (B "a") demo_session_ok
    ltac:(vm_compute; done) [(id_of 1, CAdd [B "x"; B "y"])] ∅ ∅) as (m' & H & Hg & Hh & _).
  - apply good_empty.
  - unfold set_at. rewrite set_map_empty. apply stored_none; [done|apply elements_at_empty].
  - apply spare_empty; by apply (bool_decide_unpack _).
  - by repeat constructor.
  - vm_compute. done.
  - apply runs_map, (f_equal snd) in H. assert (m' = demo_set) as ->.
    { etrans; [symmetry; exact H|]. vm_compute. reflexivity. }
    split; [done|]. assert ((srun base.elements [(id_of 1, CAdd [B "x"; B "y"])] ∅).2 = demo_members) as <-.
    { simpl. apply set_eq. intros x. unfold demo_members. set_solver. }
    exact Hh.
Qed.

Lemma demo_live : ∃ i, live 5 (B "0:a") demo_set = Some i ∧ prefix_of i (B "-0:a") = Ok demo_prefix.
Proof. eexists. split; vm_compute; reflexivity. Qed.

Lemma demo_at : ∃ i, stored_at 5 TYPE_SET demo_set (B "0:a") (B "-0:a") i demo_prefix (set_map demo_members).
Proof.
  destruct demo_set_good as [_ Hst], demo_live as (i & Hl & Hp). exists i.
  destruct (stored_cases _ _ _ _ Hst) as [Hn|(j & q & Hat)].
  - change (live 5 (B "0:a") demo_set = None) in Hn. congruence.
  - pose proof (sa_live _ _ _ _ _ _ _ _ Hat) as Hj. change (live 5 (B "0:a") demo_set = Some j) in Hj.
    assert (j = i) as -> by congruence. pose proof (sa_prefix _ _ _ _ _ _ _ _ Hat) as Hq.
    change (prefix_of i (B "-0:a") = Ok q) in Hq. assert (q = demo_prefix) as -> by congruence. exact Hat.
Qed.

(** C17: a sequence of set commands refines the same operations on a finite set. Run one
    after the other in a transaction, SADD, SREM, SCARD, SISMEMBER and SMEMBERS on one key
    reply what the set machine [srun] replies (SMEMBERS lists the members in the order
    of the hash set they are collected in), and the store ends with a set that holds the
    machine's set, its count right. Unless the key already held an empty set before, it is
    there in the end exactly if the set is not empty: SREM of the last member deletes it.
    Namespaces drawn for new sets are not in use and distinct; SADD has at least one member,
    which the parser demands; fewer than 2^32 members. *)
Theorem set_script_refines T `{!TxOps T} (raw : T → gmap (list Z) Item) (ok : T → Prop) (now : Z)
    (order : gset (list Z) → list (list Z)) (s : Session T) (key : list Z) (l : list (list Z * scmd))
    (m : gmap (list Z) Item) (X : gset (list Z)) :
  TxLaws T raw ok → TxScanLaws T raw ok → clock_ok now → session_ok s → key_ok key →
  good m → set_at (now:=now) s key m X → spare s key now m l.*1 → Forall (scmd_ok ∘ snd) l →
  ssize X + foldr (λ x n, scmd_room x.2 + n) 0 l < 2 ^ 32 →
  ∃ m', Runs (raw:=raw) (ok:=ok) (set_script (now:=now) order s key l) m (Ret (srun order l X).1) m' ∧
    good m' ∧ set_at (now:=now) s key m' (srun order l X).2 ∧
    ((X = ∅ → live now (public_key s key) m = None) →
     ((srun order l X).2 = ∅ ↔ live now (public_key s key) m' = None)).
Proof.
  intros HT HS Hnow Hs Hk Hg Hh Hsp Hw Hroom.
  destruct (set_script_runs (raw:=raw) (ok:=ok) Hnow order s key Hs Hk l m X Hg Hh Hsp Hw Hroom) as (m' & Hr & Hg' & Hh' & Ht).
  exists m'. split_and!; [done..|]. intros Ht0. split; [by apply Ht|]. intros Hl. by apply set_map_empty_inv, (stored_gone _ _ _ _ _ Hh').
Qed.

Definition sample_script : list (list Z * scmd) :=
  [(id_of 1, CAdd [B "x"; B "y"; B "x"]); (id_of 2, CRem [B "x"; B "z"]); (id_of 3, CIsMember (B "y")); (id_of 4, CCard);
   (id_of 5, CRem [B "y"])].

Lemma set_script_refines_witness :
  ∃ m', Runs (raw:=id) (ok:=λ _, True) (set_script (now:=5) base.elements demo_session (B "a") sample_script) ∅
    (Ret [RInt 2; RInt 1; RBool true; RInt 1; RInt 1]) m' ∧
    set_at (now:=5) demo_session (B "a") m' ∅ ∧ live 5 (B "0:a") m' = None.
Proof.
  destruct (set_script_refines (gmap (list Z) Item) id (λ _, True) 5 base.elements demo_session (B "a") sample_script ∅ ∅)
    as (m' & H & _ & Hh & Hgone).
  - apply map_laws.
  - apply map_scan_laws.
  - apply clock_ok_demo.
  - apply demo_session_ok.
  - vm_compute. done.
  - apply good_empty.
  - unfold set_at. rewrite set_map_empty. apply stored_none; [done|apply elements_at_empty].
  - apply spare_empty; by apply (bool_decide_unpack _).
  - by repeat constructor.
  - vm_compute. done.
  - assert ((srun base.elements sample_script ∅).2 = ∅) as He by (vm_compute; reflexivity).
    assert ((srun base.elements sample_script ∅).1 = [RInt 2; RInt 1; RBool true; RInt 1; RInt 1]) as Hr
      by (vm_compute; reflexivity). exists m'. rewrite <- Hr. split; [exact H|].
    split; [rewrite <- He; exact Hh|]. by apply Hgone.
Defined.

(** SMOVE moves. When the member is in the source set, it replies 1 and afterwards the
    source lacks the member (its key gone if it was the last), the destination has it
    (created in a namespace of its own if it was missing), and nothing else of the store
    changed. The two sets do not share keys. *)
Theorem smove_spec T `{!TxOps T} (raw : T → gmap (list Z) Item) (ok : T → Prop) (now : Z)
    (id pk1 legacy1 pk2 legacy2 x : list Z) (m : gmap (list Z) Item) (i : Item) (p q : ElementPrefix) (X Y : gset (list Z)) :
  TxLaws T raw ok → clock_ok now → pk1 ≠ pk2 → good m → stored_at now TYPE_SET m pk1 legacy1 i p (set_map X) →
  stored now TYPE_SET m pk2 legacy2 (set_map Y) → fresh now m pk2 legacy2 id →
  used_prefix (now:=now) m pk2 legacy2 id = Ok q → ssize Y + 1 < 2 ^ 32 →
  apart now m pk2 legacy2 pk1 (prefix_bytes p) → apart now m pk1 legacy1 pk2 (prefix_bytes q) →
  (∀ r, new_namespace id legacy2 = Ok r → apart now m pk1 legacy1 pk2 (prefix_bytes r)) →
  x ∈ X →
  ∃ m', Runs (raw:=raw) (ok:=ok) (SMoveOp now id pk1 legacy1 pk2 legacy2 x) m (Ret (RBool true)) m' ∧ good m' ∧
    stored now TYPE_SET m' pk1 legacy1 (set_map (X ∖ {[x]})) ∧
    stored now TYPE_SET m' pk2 legacy2 (set_map ({[x]} ∪ Y)) ∧
    ∀ k : list Z, k ≠ pk1 → k ≠ pk2 → (∀ f, k ≠ element_key (prefix_bytes p) f) →
      (∀ f, k ≠ element_key (prefix_bytes q) f) → m' !! k = m !! k.
Proof. intros HT Hnow. by apply (runs_smove Hnow). Qed.

Lemma demo_apart : apart 5 demo_set (B "0:a") (B "-0:a") (B "0:b") (namespace_of demo_session (id_of 2)).
Proof.
  intros k [->|[[f ->]|(i & q & f & Hi & Hq & ->)]]; [done..|].
  destruct demo_live as (j & Hl & Hp). assert (i = j) as -> by congruence. assert (q = demo_prefix) as -> by congruence.
  split; [done|]. intros g E. apply namespace_inj in E; [|done..].
  by apply (f_equal (λ l, bool_decide (l = id_of 1))) in E.
Qed.

Lemma demo_absent : stored 5 TYPE_SET demo_set (B "0:b") (B "-0:b") (set_map ∅).
Proof.
  rewrite set_map_empty. apply stored_none; [vm_compute; reflexivity|].
  assert (∀ k, is_Some (demo_set !! k) → head k ≠ Some 45) as Hk.
  { intros k Hk. apply elem_of_dom in Hk. revert k Hk.
    apply (bool_decide_unpack (set_Forall (λ k, head k ≠ Some 45) (dom demo_set))). vm_compute. exact I. }
  intros f. rewrite lookup_empty. apply fmap_None, eq_None_not_Some. intros [i [Hi _]%live_Some].
  by destruct (Hk (element_key (B "-0:b") f)).
Qed.

Lemma demo_unused : unused demo_session 5 demo_set (id_of 2).
Proof.
  split; [done|]. assert (∀ k, is_Some (demo_set !! k) → starts_with (B "+0:" ++ [2]) k = false) as Hk.
  { intros k Hk. apply elem_of_dom in Hk. revert k Hk.
    apply (bool_decide_unpack (set_Forall (λ k, starts_with (B "+0:" ++ [2]) k = false) (dom demo_set))).
    vm_compute. exact I. }
  intros f. rewrite lookup_empty. apply fmap_None, eq_None_not_Some. intros [j [Hj _]%live_Some].
  by specialize (Hk (element_key (namespace_of demo_session (id_of 2)) f) ltac:(eauto)).
Qed.

Lemma smove_spec_witness :
  ∃ m', Runs (raw:=id) (ok:=λ _, True) (SMoveOp 5 (id_of 2) (B "0:a") (B "-0:a") (B "0:b") (B "-0:b") (B "x"))
      demo_set (Ret (RBool true)) m' ∧
    stored 5 TYPE_SET m' (B "0:a") (B "-0:a") (set_map (demo_members ∖ {[B "x"]})) ∧
    stored 5 TYPE_SET m' (B "0:b") (B "-0:b") (set_map ({[B "x"]} ∪ ∅)).
Proof.
  destruct demo_at as [i Hat].
  destruct (smove_spec (gmap (list Z) Item) id (λ _, True) 5 (id_of 2) (B "0:a") (B "-0:a") (B "0:b") (B "-0:b") (B "x")
    demo_set i demo_prefix (explicit_prefix (namespace_of demo_session (id_of 2))) demo_members ∅)
    as (m' & H & _ & H1 & H2 & _).
  - apply map_laws.
  - apply clock_ok_demo.
  - done.
  - apply demo_set_good.
  - exact Hat.
  - apply demo_absent.
  - apply (unused_fresh demo_session demo_session_ok (B "b") ltac:(vm_compute; done)), demo_unused.
  - vm_compute. reflexivity.
  - vm_compute. done.
  - intros k [->|[[f ->]|(j & q & f & Hj & _ & _)]]; [done..|]. vm_compute in Hj. discriminate Hj.
  - apply demo_apart.
  - intros r Hr. vm_compute in Hr. injection Hr as <-. apply demo_apart.
  - unfold demo_members. set_solver.
  - exists m'. split_and!; [exact H|exact H1|exact H2].
Defined.

(** Membership in the combination of the first set with the others. *)
Definition combination (kind : BinarySetOpKind) (x : list Z) (X : gset (list Z)) (Xs : list (gset (list Z))) : Prop :=
  match kind with
  | Diff => x ∈ X ∧ Forall (λ Y, x ∉ Y) Xs
  | Inter => x ∈ X ∧ Forall (λ Y, x ∈ Y) Xs
  | Union => x ∈ X ∨ Exists (λ Y, x ∈ Y) Xs
  end.

Lemma elem_of_combined kind x X Xs : x ∈ foldl (combine kind) X Xs ↔ combination kind x X Xs.
Proof.
  revert X. induction Xs as [|Y Xs IH]; intros X; simpl.
  - destruct kind; simpl; rewrite ?Forall_nil, ?Exists_nil; tauto.
  - rewrite IH. destruct kind; simpl; rewrite ?Forall_cons, ?Exists_cons; set_solver.
Qed.

(** SDIFF, SINTER and SUNION reply, each once, exactly the members of the difference,
    intersection or union of the given sets, a missing key counting as the empty set, and
    change nothing; a SDIFFSTORE, SINTERSTORE or SUNIONSTORE stores that set
    under the destination, which may be one of the sources, in place of the set that was there, in a fresh
    namespace and without expiry, replies its size, and changes nothing else. *)
Theorem set_operations_spec T `{!TxOps T} (raw : T → gmap (list Z) Item) (ok : T → Prop) (now : Z)
    (order : gset (list Z) → list (list Z)) (s : Session T) (kind : BinarySetOpKind) (keys : list (list Z)) (dest id : list Z)
    (m : gmap (list Z) Item) (X Y : gset (list Z)) (Xs : list (gset (list Z))) (p : ElementPrefix) :
  TxLaws T raw ok → TxScanLaws T raw ok → lists order → clock_ok now → session_ok s → key_ok dest → good m →
  Forall2 (ref_holds (now:=now) m) (setref_new s <$> keys) (X :: Xs) →
  set_at (now:=now) s dest m Y → unused s now m id →
  (match live now (public_key s dest) m with
   | Some i => prefix_of i (private_key s dest) | None => Ok (legacy_prefix (private_key s dest)) end) = Ok p →
  ssize (foldl (combine kind) X Xs) < 2 ^ 32 →
  ∃ R, (∀ x, x ∈ R ↔ combination kind x X Xs) ∧
    Runs (raw:=raw) (ok:=ok) (BinarySetOp order now (setref_new s <$> keys) kind) m (Ret (RList (order R))) m ∧
    ∃ m', Runs (raw:=raw) (ok:=ok) (StoreOp order now id (setref_new s dest) (setref_new s <$> keys) kind) m
        (Ret (RInt (ssize R))) m' ∧ good m' ∧ set_at (now:=now) s dest m' R ∧
      (live now (public_key s dest) m' ≫= item_expire_ts) = None ∧
      ∀ k : list Z, k ≠ public_key s dest → (∀ f, k ≠ element_key (prefix_bytes p) f) →
        (∀ f, k ≠ element_key (namespace_of s id) f) → m' !! k = m !! k.
Proof.
  intros HT HS Horder Hnow Hs Hdest Hg Hrefs Hst [Hid Hun] Hp Hsize. exists (foldl (combine kind) X Xs).
  pose proof (runs_combined (raw:=raw) (ok:=ok) Hnow kind _ m X Xs Hg Hrefs) as Hc.
  set (R := foldl (combine kind) X Xs) in *. split; [intros x; apply elem_of_combined|].
  split; [eapply runs_bind; [exact Hc|]; apply runs_ret|].
  destruct (runs_store (raw:=raw) (ok:=ok) Hnow id (public_key s dest) (private_key s dest) (order R) m Y p
    (explicit_prefix (namespace_of s id))) as (m' & H & Hg' & Hst' & Hexp & Hf); try done.
  - apply session_layout; [done..|by left].
  - by apply session_namespace.
  - apply session_layout; [done..|]. right. eauto.
  - apply (order_nodup order Horder).
  - rewrite (order_length order Horder). exact Hsize.
  - exists m'. rewrite (order_length order Horder) in H. rewrite (order_set order Horder) in Hst'.
    split_and!; [|done..]. eapply runs_bind; [exact Hc|]. eapply runs_bind; [exact H|]. apply runs_ret.
Qed.

Lemma set_operations_spec_witness :
  ∃ R m', (∀ x, x ∈ R ↔ combination Union x demo_members [∅]) ∧
    Runs (raw:=id) (ok:=λ _, True) (StoreOp base.elements 5 (id_of 2) (setref_new demo_session (B "a"))
        [setref_new demo_session (B "a"); setref_new demo_session (B "b")] Union) demo_set (Ret (RInt (ssize R))) m' ∧
    set_at (now:=5) demo_session (B "a") m' R.
Proof.
  destruct (set_operations_spec (gmap (list Z) Item) id (λ _, True) 5 base.elements demo_session Union [B "a"; B "b"]
    (B "a") (id_of 2) demo_set demo_members demo_members [∅] demo_prefix) as (R & HR & _ & m' & H & _ & Hst & _).
  - apply map_laws.
  - apply map_scan_laws.
  - by intros Z.
  - apply clock_ok_demo.
  - apply demo_session_ok.
  - vm_compute. done.
  - apply demo_set_good.
  - constructor; [apply demo_set_good|]. constructor; [exact demo_absent|constructor].
  - apply demo_set_good.
  - apply demo_unused.
  - vm_compute. reflexivity.
  - vm_compute. done.
  - exists R, m'. split_and!; [exact HR|exact H|exact Hst].
Defined.

(** SPOP removes the member it returns. On a set that is not empty it replies some
    member of it and leaves exactly the others, the count one less, the key gone with the
    last member; the index it draws never misses. Names have no NUL byte. *)
Theorem spop_spec T `{!TxOps T} (raw : T → gmap (list Z) Item) (ok : T → Prop) (now : Z) (seed : Z * Z)
    (pk legacy : list Z) (m : gmap (list Z) Item) (i : Item) (p : ElementPrefix) (X : gset (list Z)) :
  TxLaws T raw ok → TxScanLaws T raw ok → clock_ok now → good m →
  stored_at now TYPE_SET m pk legacy i p (set_map X) → X ≠ ∅ → (∀ x, x ∈ X → 0 ∉ x) →
  ∃ x m', x ∈ X ∧ Runs (raw:=raw) (ok:=ok) (SPopOp now seed pk legacy) m (Ret (ROptBytes (Some x))) m' ∧
    updated (now:=now) TYPE_SET m pk legacy p m' (set_map (X ∖ {[x]})).
Proof. intros HT HS Hnow. by apply (runs_spop Hnow). Qed.

Lemma spop_spec_witness :
  ∃ x m', x ∈ demo_members ∧
    Runs (raw:=id) (ok:=λ _, True) (SPopOp 5 (9, 4) (B "0:a") (B "-0:a")) demo_set (Ret (ROptBytes (Some x))) m' ∧
    updated (now:=5) TYPE_SET demo_set (B "0:a") (B "-0:a") demo_prefix m' (set_map (demo_members ∖ {[x]})).
Proof.
  destruct demo_at as [i Hat].
  apply (spop_spec (gmap (list Z) Item) id (λ _, True) 5 (9, 4) (B "0:a") (B "-0:a") demo_set i demo_prefix demo_members).
  - apply map_laws.
  - apply map_scan_laws.
  - apply clock_ok_demo.
  - apply demo_set_good.
  - exact Hat.
  - unfold demo_members. set_solver.
  - apply (bool_decide_unpack (set_Forall (λ x, 0 ∉ x) demo_members)). vm_compute. exact I.
Defined.

(** SSCAN visits every member exactly once: followed from cursor 0 until the cursor
    is 0 again it returns the members that match the pattern, none twice and none left
    out, after no more replies than there are matching members, plus one. *)
Theorem sscan_visits_all T `{!TxOps T} (raw : T → gmap (list Z) Item) (ok : T → Prop) (now : Z)
    (pk legacy : list Z) (count : nat) (pattern : option (list Z)) (m : gmap (list Z) Item) (i : Item)
    (p : ElementPrefix) (X : gset (list Z)) :
  TxLaws T raw ok → TxScanLaws T raw ok → clock_ok now → good m →
  stored_at now TYPE_SET m pk legacy i p (set_map X) → (0 < count)%nat → ssize X + Z.of_nat count < 2 ^ 63 →
  Runs (raw:=raw) (ok:=ok) (sscan_all (S (length (sscanned pattern X))) now pk legacy [] (Z.of_nat count) pattern)
    m (Ret (sscanned pattern X)) m ∧
  NoDup (sscanned pattern X) ∧ ∀ x, x ∈ sscanned pattern X ↔ x ∈ X ∧ sscan_keeps pattern x = true.
Proof.
  intros HT HS Hnow Hg Hat Hc Hmax. destruct (sorted_set_map_names X) as [HX Hnd].
  assert (length (sscanned pattern X) ≤ size X)%nat as Hlen.
  { rewrite <- size_set_map, <- sorted_pairs_length, <- (length_fmap snd). apply length_filter. }
  split_and!.
  - apply (runs_sscan_all Hnow _ pk legacy m i p X 0 count [] pattern); try done; unfold ssize in *; lia.
  - unfold sscanned. by apply NoDup_filter.
  - intros x. unfold sscanned. rewrite list_elem_of_filter. rewrite <- HX at 2. rewrite elem_of_list_to_set. tauto.
Qed.

Lemma sscan_visits_all_witness :
  Runs (raw:=id) (ok:=λ _, True) (sscan_all 3 5 (B "0:a") (B "-0:a") [] 1 None) demo_set (Ret [B "x"; B "y"]) demo_set.
Proof.
  destruct demo_at as [i Hat].
  apply (sscan_visits_all (gmap (list Z) Item) id (λ _, True) 5 (B "0:a") (B "-0:a") 1 None demo_set i demo_prefix
    demo_members).
  - apply map_laws.
  - apply map_scan_laws.
  - apply clock_ok_demo.
  - apply demo_set_good.
  - exact Hat.
  - lia.
  - vm_compute. done.
Defined.

(** SRANDMEMBER returns members of the set, distinct ones for a count that is not
    negative, and never indexes out of its vector. *)
Theorem srandmember_spec T `{!TxOps T} (raw : T → gmap (list Z) Item) (ok : T → Prop) (now : Z)
    (order : gset (list Z) → list (list Z)) (rng : nat → Z * Z) (pk legacy : list Z) (count : Z)
    (m : gmap (list Z) Item) (X : gset (list Z)) :
  TxLaws T raw ok → TxScanLaws T raw ok → lists order → clock_ok now → good m →
  stored now TYPE_SET m pk legacy (set_map X) → X ≠ ∅ → - 2 ^ 57 ≤ count →
  ∃ out, Runs (raw:=raw) (ok:=ok) (SRandMemberOp order now rng pk legacy count) m (Ret (RList out)) m ∧
    (∀ x, x ∈ out → x ∈ X) ∧
    Z.of_nat (length out) = (if 0 <=? count then Z.min count (ssize X) else - count) ∧ (0 ≤ count → NoDup out).
Proof.
  intros HT HS Ho Hnow Hg Hst HX Hmin.
  destruct (srand_choice_spec rng count (order X)) as (out & Hc & Hin & Hlen & Hnd).
  - by apply order_nodup.
  - intros E. apply HX, leibniz_equiv, size_empty_inv. by rewrite <- (order_length order Ho), E.
  - done.
  - exists out. rewrite order_length in Hlen by done. split_and!; [|intros x Hx%Hin|done|done].
    + eapply (runs_load_resolved Hnow); [done..|]. rewrite Hc. eapply runs_bind; [apply runs_ret|]. apply runs_ret.
    + rewrite (Ho X) in Hx. by apply elem_of_elements.
Qed.

Lemma srandmember_spec_witness :
  ∃ out, Runs (raw:=id) (ok:=λ _, True) (SRandMemberOp base.elements 5 (λ k, (3, Z.of_nat k)) (B "0:a") (B "-0:a") (-4))
    demo_set (Ret (RList out)) demo_set ∧ length out = 4%nat.
Proof.
  destruct (srandmember_spec (gmap (list Z) Item) id (λ _, True) 5 base.elements (λ k, (3, Z.of_nat k)) (B "0:a") (B "-0:a")
    (-4) demo_set demo_members) as (out & H & _ & Hl & _).
  - apply map_laws.
  - apply map_scan_laws.
  - by intros Z.
  - apply clock_ok_demo.
  - apply demo_set_good.
  - apply demo_set_good.
  - unfold demo_members. set_solver.
  - lia.
  - exists out. split; [exact H|simpl in Hl; lia].
Defined.

(** ** Where the code departs from its documentation or from Redis *)

(** A string under the key of the destination. *)
Definition with_string : gmap (list Z) Item := <[B "0:b" := mkItem (B "0:b") (B "text") 0 None]> demo_set.

(** SMOVE to a key of another type fails only after it took the member out of the source
    and wrote it under the destination's prefix; inside MULTI the member is lost. *)
Theorem smove_wrong_type_loses_member :
  let r := SMoveOp 5 (id_of 2) (B "0:a") (B "-0:a") (B "0:b") (B "-0:b") (B "x") with_string in
  fst r = Fail WrongType ∧
  fst (SIsMemberOp 5 (B "0:a") (B "-0:a") (B "x") (snd r)) = Ret (RBool false).
Proof. vm_compute. done. Qed.

(** SPOP replies the part of the member after its last NUL byte. *)
Theorem spop_truncates :
  fst (SPopOp 5 (9, 4) (B "0:a") (B "-0:a")
    (snd (SAddOp 5 (id_of 1) (B "0:a") (B "-0:a") [B "x" ++ [0] ++ B "y"] (∅ : gmap (list Z) Item))))
  = Ret (ROptBytes (Some (B "y"))).
Proof. vm_compute. reflexivity. Qed.

(** A *STORE command with an empty result leaves the destination in place, with count 0. *)
Theorem store_empty_keeps_key :
  let r := StoreOp base.elements 5 (id_of 2) (setref_new demo_session (B "c")) [setref_new demo_session (B "b")] Inter demo_set in
  fst r = Ret (RInt 0) ∧ is_Some (live 5 (B "0:c") (snd r)).
Proof. vm_compute. split; [reflexivity|eauto]. Qed.

(** A cursor past the last member makes SSCAN slice backwards, a panic. *)
Theorem sscan_past_end_panics :
  fst (SScanOp 5 (B "0:a") (B "-0:a") (B "7") 10 None demo_set) = Panic.
Proof. vm_compute. reflexivity. Qed.
