(* ===== verification/ZSet.v ===== *)
(** * Sorted sets: src/redis/zset.rs

    A sorted set is a sentinel with the number of its members and two indexes under its
    prefix: by member, with the score as the value, and by score and member, whose keys sort
    like the scores. This file has the encodings, the helpers, the database and wire halves
    of the commands and the queued commands. A score is the bit pattern of an [f64]; a
    member with its score is a pair. The random words of a fresh namespace and of
    ZRANDMEMBER are arguments. A [HashMap] from members to scores is a [gmap]; where the
    code goes through one the order does not show in the result, unless a score is NaN. *)
From S2P Require Import Prelude Bytes Float64 Resp Kv Registry Op Namespace Session Rand Elements.
From S2P Require Hash.

Definition internal_error : RespValue := Error (B "ERR internal error").

Definition TYPE_SORTED_SET : Z := type_byte VSortedSet.

Abbreviation MemberScore := (list Z * Z)%type (only parsing).

(** ** Scores *)

Definition format_f64 (v : Z) : list Z :=
  if is_nan v then B "NaN"
  else if f64_gt v f64_zero && is_infinite v then B "inf"
  else if f64_lt v f64_zero && is_infinite v then B "-inf"
  else f64_display v.

(** The bits as an unsigned number that is ordered like the scores. *)
Definition flip_score (bits : Z) : Z :=
  if Z.shiftr bits 63 =? 1 then Z.lxor bits u64_max else Z.lxor bits (2 ^ 63).
Definition unflip_score (bits : Z) : Z :=
  if Z.shiftr bits 63 =? 1 then Z.lxor bits (2 ^ 63) else Z.lxor bits u64_max.

Definition encode_score (score : Z) : list Z := be_bytes 8 (flip_score score).
Definition decode_score (bytes : list Z) : Z := unflip_score (from_be bytes).
Definition score_bytes (score : Z) : list Z := be_bytes 8 score.

(** ** Storage layout *)

Record NodeRef : Type := mkNode { n_public : list Z; n_prefix : ElementPrefix }.

Definition node_new {T} (s : Session T) (key : list Z) : NodeRef :=
  mkNode (public_key s key) (legacy_prefix (private_key s key)).

Definition score_prefix (p : list Z) : list Z := p ++ B ":score:".
Definition member_prefix (p : list Z) : list Z := p ++ B ":member:".
Definition score_key (p : list Z) (score : Z) (member : list Z) : list Z :=
  p ++ B ":score:" ++ encode_score score ++ B ":" ++ member.
Definition member_key (p member : list Z) : list Z := p ++ B ":member:" ++ member.

Definition node_bytes (node : NodeRef) : list Z := prefix_bytes (n_prefix node).

(** The member and score in a key of the score index; slicing a key that is too short
    panics. *)
Definition member_of_key (prefix_len : nat) (key : list Z) : option MemberScore :=
  if (length key <? prefix_len + 8 + 1)%nat then None
  else Some (drop (prefix_len + 8 + 1) key, decode_score (take 8 (drop prefix_len key))).

(** ** Ranges and bounds *)

Definition range_indexes (n start stop : Z) : option (Z * Z) :=
  let start := if start <? 0 then start + n else start in
  let stop := if stop <? 0 then stop + n else stop in
  let start := if start <? 0 then 0 else start in
  let stop := if n <=? stop then n - 1 else stop in
  if (stop <? start) || (n <=? start) then None else Some (start, stop).

Definition not_a_float : DbError := Redis (B "min or max is not a float").
Definition not_a_lex : DbError := Redis (B "min or max not valid string range item").

Definition parse_float_bound (s : list Z) : result (Z * bool) DbError :=
  if bool_decide (s = B "+inf") || bool_decide (s = B "inf") then Ok (f64_infinity, false)
  else if bool_decide (s = B "-inf") then Ok (f64_neg_infinity, false)
  else
    match s with
    | 40 :: rest => match f64_from_str rest with Some v => Ok (v, true) | None => Err not_a_float end
    | _ => match f64_from_str s with Some v => Ok (v, false) | None => Err not_a_float end
    end.

Definition parse_lex_bound (s : list Z) : result (option (list Z) * bool) DbError :=
  if bool_decide (s = B "+") || bool_decide (s = B "-") then Ok (None, false)
  else
    match s with
    | 40 :: rest => Ok (Some rest, true)
    | 91 :: rest => Ok (Some rest, false)
    | _ => Err not_a_lex
    end.

(** The tests that skip a member in the loops over scores. *)
Definition score_in_range (min : Z * bool) (max : Z * bool) (score : Z) : bool :=
  negb ((min.2 && f64_le score min.1) || (negb min.2 && f64_lt score min.1) ||
        (max.2 && f64_ge score max.1) || (negb max.2 && f64_gt score max.1)).

Definition bytes_lt (a b : list Z) : bool := bytes_le a b && negb (bytes_le b a).
Definition lex_in_range (min max : option (list Z) * bool) (m : list Z) : bool :=
  match min with
  | (Some v, true) => bytes_lt v m
  | (Some v, false) => bytes_le v m
  | (None, _) => true
  end &&
  match max with
  | (Some v, true) => bytes_lt m v
  | (Some v, false) => bytes_le m v
  | (None, _) => true
  end.

Definition filter_lex_range (members : list (list Z)) (min_str max_str : list Z) : result (list (list Z)) DbError :=
  match parse_lex_bound min_str with
  | Err e => Err e
  | Ok min =>
      match parse_lex_bound max_str with
      | Err e => Err e
      | Ok max => Ok (List.filter (lex_in_range min max) members)
      end
  end.

(** [LIMIT offset count]; [count as usize] of a negative count does not occur. *)
Definition apply_limit {A} (limit : option (Z * Z)) (l : list A) : list A :=
  match limit with
  | None => l
  | Some (offset, count) =>
      let n := Z.of_nat (length l) in
      if (offset <? 0) || (n <=? offset) then []
      else
        let count := if count <? 0 then n - offset else count in
        let l := drop (Z.to_nat offset) l in
        if count <? Z.of_nat (length l) then take (Z.to_nat count) l else l
  end.

Definition flatten_members (members : list MemberScore) (with_scores : bool) : list (list Z) :=
  if with_scores then concat ((λ e, [e.1; format_f64 e.2]) <$> members) else fst <$> members.

(** [&entries[lo..=hi]] *)
Definition slice_incl {A} (lo hi : Z) (l : list A) : list A :=
  take (Z.to_nat (hi - lo + 1)) (drop (Z.to_nat lo) l).

(** ** Set algebra *)

Definition score_then_member_le (a b : MemberScore) : Prop :=
  match default Eq (partial_cmp a.2 b.2) with
  | Lt => True
  | Eq => bytes_le a.1 b.1 = true
  | Gt => False
  end.
#[export] Instance score_then_member_le_dec : RelDecision score_then_member_le.
Proof. intros a b. unfold score_then_member_le. destruct (default Eq (partial_cmp a.2 b.2)); apply _. Defined.

Definition zset_to_slice (m : gmap (list Z) Z) : list MemberScore :=
  merge_sort score_then_member_le (map_to_list m).

Definition aggregate_scores (aggregate : list Z) (scores : list Z) : Z :=
  let a := lowercase aggregate in
  if bool_decide (a = B "sum") then f64_sum scores
  else if bool_decide (a = B "min") then fold_left f64_min scores f64_infinity
  else if bool_decide (a = B "max") then fold_left f64_max scores f64_neg_infinity
  else default f64_zero (head scores).

Definition apply_weights (m : gmap (list Z) Z) (weights : list Z) : gmap (list Z) Z :=
  match weights with w :: _ => (λ score, f64_mul score w) <$> m | [] => m end.

(** The scores of [member], if it is in every map. *)
Definition scores_in (maps : list (gmap (list Z) Z)) (member : list Z) : option (list Z) :=
  mapM (λ m : gmap (list Z) Z, m !! member) maps.

Definition intersect_scores (aggregate : list Z) (maps : list (gmap (list Z) Z)) : gmap (list Z) Z :=
  match maps with
  | [] => ∅
  | first :: _ => map_imap (λ member _, aggregate_scores aggregate <$> scores_in maps member) first
  end.

(** [sources.entry(member).or_default().push(score)] for every member of a map. *)
Definition push_scores (m : gmap (list Z) Z) (sources : gmap (list Z) (list Z)) : gmap (list Z) (list Z) :=
  merge (λ old new, match new with
                    | Some score => Some (default [] old ++ [score])
                    | None => old
                    end) sources m.

Definition union_scores (aggregate : list Z) (maps : list (gmap (list Z) Z)) : gmap (list Z) Z :=
  (λ scores, match scores with [score] => score | _ => aggregate_scores aggregate scores end) <$>
    fold_left (λ sources m, push_scores m sources) maps (∅ : gmap (list Z) (list Z)).

Definition difference_scores (first : gmap (list Z) Z) (others : list (gmap (list Z) Z)) : gmap (list Z) Z :=
  fold_left (λ diff other, diff ∖ other) others first.

(** ** Database helpers *)

Section Ops.
Context {T : Type} `{!TxOps T} (now : Z).

Definition resolved (node : NodeRef) : DbM T NodeRef :=
  if explicit (n_prefix node) then mret node
  else
    p ← resolve_prefix now (n_public node) (node_bytes node);
    mret (mkNode (n_public node) p).

Definition resolved_for_write (id : list Z) (node : NodeRef) : DbM T NodeRef :=
  if explicit (n_prefix node) then mret node
  else
    p ← resolve_prefix_for_write now id (n_public node) (node_bytes node);
    mret (mkNode (n_public node) p).

Definition read_zset_sentinel (public_key : list Z) : DbM T Z := read_sentinel now TYPE_SORTED_SET public_key.
Definition zset_count (public_key : list Z) : DbM T (option Z) := count_opt now TYPE_SORTED_SET public_key.
Definition write_zset_sentinel (public_key : list Z) (count : Z) (prefix : ElementPrefix) : DbM T () :=
  write_count now TYPE_SORTED_SET public_key count prefix.

Definition load_all_members (node : NodeRef) : DbM T (list MemberScore) :=
  node ← resolved node;
  count ← zset_count (n_public node);
  match count with
  | None => mret []
  | Some _ =>
      let prefix := score_prefix (node_bytes node) in
      r ← prefix_iter now prefix;
      it ← try_kv r;
      members ← Hash.or_panic (mapM (λ i, member_of_key (length prefix) (item_key i)) (iter_items it));
      match iter_err it with
      | Some e => fail (Kv e)
      | None => mret members
      end
  end.

(** [for key in keys { tx.delete(&key)?; }] *)
Fixpoint delete_keys (keys : list (list Z)) : DbM T () :=
  match keys with
  | [] => mret ()
  | key :: keys' => del key ;; delete_keys keys'
  end.

Definition clear_internal_keys (node : NodeRef) : DbM T () :=
  node ← resolved node;
  score_items ← scan now (score_prefix (node_bytes node));
  member_items ← scan now (member_prefix (node_bytes node));
  delete_keys (item_key <$> score_items) ;;
  delete_keys (item_key <$> member_items) ;;
  del (n_public node).

(** The score a member index entry holds. *)
Definition stored_score (val : list Z) : Z := from_be (take 8 val).
Definition checked_score (item : Item) : DbM T Z :=
  if (length (item_value item) <? 8)%nat then fail (Kv KeyNotFound) else mret (stored_score (item_value item)).

Definition get_score (key : list Z) : DbM T (option Z) :=
  old ← get_opt now key;
  match old with
  | None => mret None
  | Some item => score ← checked_score item; mret (Some score)
  end.

(** The two entries of a member. *)
Definition set_member (p : list Z) (score : Z) (member : list Z) : DbM T () :=
  set now (entry_new (score_key p score member) []) ;;
  set now (entry_new (member_key p member) (score_bytes score)).
Definition delete_member (p : list Z) (e : MemberScore) : DbM T () :=
  del (member_key p e.1) ;; del (score_key p e.2 e.1).
Fixpoint delete_members (p : list Z) (members : list MemberScore) : DbM T () :=
  match members with
  | [] => mret ()
  | e :: members' => delete_member p e ;; delete_members p members'
  end.

(** The sentinel after members were removed: it goes with the last of them. *)
Definition put_count (node : NodeRef) (count : Z) : DbM T () :=
  if count =? 0 then del (n_public node) else write_zset_sentinel (n_public node) (as_u32 count) (n_prefix node).

(** [pop_one_min] and [pop_one_max]. *)
Definition pop_one (want_min : bool) (node : NodeRef) : DbM T (option MemberScore) :=
  node ← resolved node;
  entries ← load_all_members node;
  match (if want_min then head entries else last entries) with
  | None => mret None
  | Some e =>
      delete_member (node_bytes node) e ;;
      put_count node (Z.max 0 (as_u32 (Z.of_nat (length entries)) - 1)) ;;
      mret (Some e)
  end.

(** ** Reading commands *)

Definition ZCardOp (node : NodeRef) : DbM T DbResult :=
  count ← zset_count (n_public node);
  mret (RInt (default 0 count)).

Definition ZScoreOp (node : NodeRef) (member : list Z) : DbM T DbResult :=
  node ← resolved node;
  count ← zset_count (n_public node);
  match count with
  | None => mret (ROptF64 None)
  | Some _ =>
      score ← get_score (member_key (node_bytes node) member);
      mret (ROptF64 score)
  end.

Fixpoint get_scores (p : list Z) (members : list (list Z)) : DbM T (list (option Z)) :=
  match members with
  | [] => mret []
  | member :: members' =>
      score ← get_score (member_key p member);
      scores ← get_scores p members';
      mret (score :: scores)
  end.

Definition ZMScoreOp (node : NodeRef) (members : list (list Z)) : DbM T DbResult :=
  node ← resolved node;
  count ← zset_count (n_public node);
  match count with
  | None => mret (RScores (replicate (length members) None))
  | Some _ =>
      scores ← get_scores (node_bytes node) members;
      mret (RScores scores)
  end.

Definition RangeByRankOp (node : NodeRef) (start stop : Z) (with_scores reverse : bool) : DbM T DbResult :=
  node ← resolved node;
  entries ← load_all_members node;
  let n := Z.of_nat (length entries) in
  match range_indexes n start stop with
  | None => mret (RList [])
  | Some (lo, hi) =>
      mret (RList (if reverse then flatten_members (rev (slice_incl (n - 1 - hi) (n - 1 - lo) entries)) with_scores
                   else flatten_members (slice_incl lo hi entries) with_scores))
  end.

(** The position of [member] in [entries]. *)
Fixpoint rank_of (member : list Z) (entries : list MemberScore) (i : Z) : option Z :=
  match entries with
  | [] => None
  | e :: entries' => if bool_decide (e.1 = member) then Some i else rank_of member entries' (i + 1)
  end.

Definition RankOp (node : NodeRef) (member : list Z) (reverse : bool) : DbM T DbResult :=
  node ← resolved node;
  entries ← load_all_members node;
  mret (ROptInt ((λ i, if reverse then Z.of_nat (length entries) - 1 - i else i) <$> rank_of member entries 0)).

Definition in_score_range (entries : list MemberScore) (min max : Z * bool) : list MemberScore :=
  List.filter (λ e, score_in_range min max e.2) entries.

Definition ScoreRangeCountOp (node : NodeRef) (min_str max_str : list Z) : DbM T DbResult :=
  node ← resolved node;
  entries ← load_all_members node;
  min ← try_db (parse_float_bound min_str);
  max ← try_db (parse_float_bound max_str);
  mret (RInt (Z.of_nat (length (in_score_range entries min max)))).

Definition RangeByScoreOp (node : NodeRef) (min_str max_str : list Z) (with_scores : bool)
    (limit : option (Z * Z)) (reverse : bool) : DbM T DbResult :=
  node ← resolved node;
  entries ← load_all_members node;
  min ← try_db (parse_float_bound min_str);
  max ← try_db (parse_float_bound max_str);
  let filtered := in_score_range entries min max in
  mret (RList (flatten_members (apply_limit limit (if reverse then rev filtered else filtered)) with_scores)).

Definition RangeByLexOp (node : NodeRef) (min_str max_str : list Z) (limit : option (Z * Z)) (reverse : bool)
  : DbM T DbResult :=
  node ← resolved node;
  entries ← load_all_members node;
  filtered ← try_db (filter_lex_range (fst <$> entries) min_str max_str);
  mret (RList (apply_limit limit (if reverse then rev filtered else filtered))).

Definition LexCountOp (node : NodeRef) (min_str max_str : list Z) : DbM T DbResult :=
  node ← resolved node;
  entries ← load_all_members node;
  filtered ← try_db (filter_lex_range (fst <$> entries) min_str max_str);
  mret (RInt (Z.of_nat (length filtered))).

(** [-count] wraps on [i64::MIN], and reserving that much memory panics. *)
Definition ZRandMemberOp (rng : nat → Z * Z) (node : NodeRef) (count : Z) : DbM T DbResult :=
  node ← resolved node;
  entries ← load_all_members node;
  let n := Z.of_nat (length entries) in
  if (count =? 0) || (n =? 0) then mret (RMembers [])
  else
    let c := if count <? 0 then as_i64 (- count) else count in
    let c := if n <=? c then n else c in
    if c <? 0 then panic else
    perm ← Hash.or_panic (rand_perm rng (length entries));
    chosen ← Hash.or_panic (pick entries (take (Z.to_nat c) perm));
    mret (RMembers (if 0 <=? count then (λ e : MemberScore, (e.1, f64_zero)) <$> chosen else chosen)).

(** ** Writing commands *)

Fixpoint zrem_loop (p : list Z) (members : list (list Z)) (count removed : Z) : DbM T (Z * Z) :=
  match members with
  | [] => mret (count, removed)
  | member :: members' =>
      score ← get_score (member_key p member);
      match score with
      | None => zrem_loop p members' count removed
      | Some score => delete_member p (member, score) ;; zrem_loop p members' (as_u32 (count - 1)) (removed + 1)
      end
  end.

Definition ZRemOp (node : NodeRef) (members : list (list Z)) : DbM T DbResult :=
  node ← resolved node;
  count ← zset_count (n_public node);
  match count with
  | None => mret (RInt 0)
  | Some count =>
      r ← zrem_loop (node_bytes node) members count 0;
      put_count node r.1 ;;
      mret (RInt r.2)
  end.

Definition RemRangeByRankOp (node : NodeRef) (start stop : Z) : DbM T DbResult :=
  node ← resolved node;
  entries ← load_all_members node;
  let n := Z.of_nat (length entries) in
  match range_indexes n start stop with
  | None => mret (RInt 0)
  | Some (lo, hi) =>
      let gone := slice_incl lo hi entries in
      delete_members (node_bytes node) gone ;;
      put_count node (n - Z.of_nat (length gone)) ;;
      mret (RInt (Z.of_nat (length gone)))
  end.

(** The end of the two commands that remove a range they filtered. *)
Definition remove_filtered (node : NodeRef) (gone : list MemberScore) : DbM T DbResult :=
  delete_members (node_bytes node) gone ;;
  let removed := Z.of_nat (length gone) in
  if removed =? 0 then mret (RInt 0)
  else
    count ← zset_count (n_public node);
    match count with
    | None => fail (Kv KeyNotFound)
    | Some c => put_count node (c - removed) ;; mret (RInt removed)
    end.

Definition RemRangeByScoreOp (node : NodeRef) (min_str max_str : list Z) : DbM T DbResult :=
  node ← resolved node;
  entries ← load_all_members node;
  min ← try_db (parse_float_bound min_str);
  max ← try_db (parse_float_bound max_str);
  remove_filtered node (in_score_range entries min max).

Definition RemRangeByLexOp (node : NodeRef) (min_str max_str : list Z) : DbM T DbResult :=
  node ← resolved node;
  entries ← load_all_members node;
  to_remove ← try_db (filter_lex_range (fst <$> entries) min_str max_str);
  remove_filtered node (List.filter (λ e, bool_decide (e.1 ∈ to_remove)) entries).

Definition ZPopOp (node : NodeRef) (count : Z) (want_min : bool) : DbM T DbResult :=
  node ← resolved node;
  entries ← load_all_members node;
  let count := Z.min count (Z.of_nat (length entries)) in
  let popped := if want_min then take (Z.to_nat count) entries
                else drop (length entries - Z.to_nat count) entries in
  delete_members (node_bytes node) popped ;;
  put_count node (Z.of_nat (length entries) - count) ;;
  mret (RMembers popped).

Definition bad_score : DbError := Redis (B "resulting score is not a valid float").

Definition ZIncrByOp (id : list Z) (node : NodeRef) (increment : Z) (member : list Z) : DbM T DbResult :=
  node ← resolved_for_write id node;
  let p := node_bytes node in
  existing_count ← zset_count (n_public node);
  old ← get_opt now (member_key p member);
  match old with
  | None =>
      if is_nan increment then fail bad_score
      else
        set_member p increment member ;;
        write_zset_sentinel (n_public node) (match existing_count with Some c => as_u32 (c + 1) | None => 1 end)
          (n_prefix node) ;;
        mret (RF64 increment)
  | Some item =>
      score ← checked_score item;
      let new_score := f64_add score increment in
      if is_nan new_score then fail bad_score
      else
        del (score_key p score member) ;;
        set_member p new_score member ;;
        mret (RF64 new_score)
  end.

(** Stores [members] as a new sorted set under a namespace of its own. *)
Fixpoint set_members (p : list Z) (members : list MemberScore) : DbM T () :=
  match members with
  | [] => mret ()
  | e :: members' => set_member p e.2 e.1 ;; set_members p members'
  end.

Definition store_zset_result (id : list Z) (dest : NodeRef) (members : list MemberScore) : DbM T Z :=
  clear_internal_keys dest ;;
  p ← try_db (new_namespace id (node_bytes dest));
  set_members (prefix_bytes p) members ;;
  write_zset_sentinel (n_public dest) (as_u32 (Z.of_nat (length members))) p ;;
  mret (Z.of_nat (length members)).

Definition load_zset_map (node : NodeRef) : DbM T (gmap (list Z) Z) :=
  node ← resolved node;
  entries ← load_all_members node;
  mret (fold_left (λ m (e : MemberScore), <[e.1 := e.2]> m) entries ∅).

Fixpoint load_zset_maps (nodes : list NodeRef) : DbM T (list (gmap (list Z) Z)) :=
  match nodes with
  | [] => mret []
  | node :: nodes' => m ← load_zset_map node; ms ← load_zset_maps nodes'; mret (m :: ms)
  end.

Definition zdiff_map (nodes : list NodeRef) : DbM T (gmap (list Z) Z) :=
  match nodes with
  | [] => mret ∅
  | first :: others =>
      m ← load_zset_map first;
      ms ← load_zset_maps others;
      mret (difference_scores m ms)
  end.
Definition zinter_map (aggregate : list Z) (weights : list Z) (nodes : list NodeRef) : DbM T (gmap (list Z) Z) :=
  maps ← load_zset_maps nodes;
  mret (apply_weights (intersect_scores aggregate maps) weights).
Definition zunion_map (aggregate : list Z) (weights : list Z) (nodes : list NodeRef) : DbM T (gmap (list Z) Z) :=
  maps ← load_zset_maps nodes;
  mret (apply_weights (union_scores aggregate maps) weights).

Inductive SetOpKind : Type := Diff | Inter | Union.

Definition combined (kind : SetOpKind) (aggregate : list Z) (weights : list Z) (nodes : list NodeRef)
  : DbM T (gmap (list Z) Z) :=
  match kind with
  | Diff => zdiff_map nodes
  | Inter => zinter_map aggregate weights nodes
  | Union => zunion_map aggregate weights nodes
  end.

Definition SetOp (nodes : list NodeRef) (aggregate : list Z) (weights : list Z) (with_scores : bool) (kind : SetOpKind)
  : DbM T DbResult :=
  m ← combined kind aggregate weights nodes;
  mret (RList (flatten_members (zset_to_slice m) with_scores)).

Definition StoreSetOp (id : list Z) (dest : NodeRef) (nodes : list NodeRef) (aggregate : list Z) (weights : list Z)
    (kind : SetOpKind) : DbM T DbResult :=
  m ← combined kind aggregate weights nodes;
  n ← store_zset_result id dest (zset_to_slice m);
  mret (RInt n).

Definition ZRangeStoreOp (id : list Z) (dest src : NodeRef) (start stop : Z) : DbM T DbResult :=
  entries ← load_all_members src;
  n ← store_zset_result id dest
        (match range_indexes (Z.of_nat (length entries)) start stop with
         | Some (lo, hi) => slice_incl lo hi entries
         | None => []
         end);
  mret (RInt n).
End Ops.

(** ** ZADD *)

Record ZAddFlags : Type := mkFlags { nx : bool; xx : bool; ch : bool; gt : bool; lt : bool }.
Definition no_flags : ZAddFlags := mkFlags false false false false false.

(** The leading options, and the arguments after them. *)
Fixpoint zadd_flags (args : list (list Z)) (f : ZAddFlags) : ZAddFlags * list (list Z) :=
  match args with
  | [] => (f, [])
  | arg :: args' =>
      if eq_ignore_case arg (B "nx") then zadd_flags args' (mkFlags true (xx f) (ch f) (gt f) (lt f))
      else if eq_ignore_case arg (B "xx") then zadd_flags args' (mkFlags (nx f) true (ch f) (gt f) (lt f))
      else if eq_ignore_case arg (B "ch") then zadd_flags args' (mkFlags (nx f) (xx f) true (gt f) (lt f))
      else if eq_ignore_case arg (B "gt") then zadd_flags args' (mkFlags (nx f) (xx f) (ch f) true (lt f))
      else if eq_ignore_case arg (B "lt") then zadd_flags args' (mkFlags (nx f) (xx f) (ch f) (gt f) true)
      else (f, args)
  end.

Definition zadd_arity : DbError := Redis (B "wrong number of arguments for 'zadd' command").
Definition not_compatible : DbError :=
  Redis (B "XX and NX, XX and GT/LT, NX and GT/LT options are not compatible").
Definition gt_lt_not_compatible : DbError := Redis (B "GT and LT options are not compatible").
Definition not_valid_float : DbError := Redis (B "value is not a valid float").

Definition flags_error (f : ZAddFlags) : option DbError :=
  if nx f && xx f then Some not_compatible
  else if nx f && (gt f || lt f) then Some not_compatible
  else if xx f && (gt f || lt f) then Some not_compatible
  else if gt f && lt f then Some gt_lt_not_compatible
  else None.

Definition parse_score (arg : list Z) : option Z :=
  if utf8_valid arg then
    match f64_from_str arg with
    | Some score => if is_nan score then None else Some score
    | None => None
    end
  else None.

Definition is_gt (score old : Z) : bool := match partial_cmp score old with Some Gt => true | _ => false end.
Definition is_lt (score old : Z) : bool := match partial_cmp score old with Some Lt => true | _ => false end.

(** What the loop keeps count of: the members, those added and those changed. *)
Record Tally : Type := mkTally { t_count : Z; t_added : Z; t_changed : Z }.

Section ZAdd.
Context {T : Type} `{!TxOps T} (now : Z).

(** Entries for a new member. *)
Definition add_new (p : list Z) (score : Z) (member : list Z) (t : Tally) : DbM T Tally :=
  set_member now p score member ;;
  mret (mkTally (as_u32 (t_count t + 1)) (t_added t + 1) (t_changed t)).

(** One pair. An entry found although there is no sentinel is stale: its score index entry
    is deleted, ignoring an error. *)
Definition zadd_pair (p : list Z) (f : ZAddFlags) (is_new_key : bool) (score : Z) (member : list Z) (t : Tally)
  : DbM T Tally :=
  old ← get_opt now (member_key p member);
  match old with
  | None => if xx f then mret t else add_new p score member t
  | Some item =>
      if is_new_key then
        (if (8 <=? length (item_value item))%nat then
           r ← delete_res (score_key p (stored_score (item_value item)) member); mret ()
         else mret ()) ;;
        (if xx f then mret t else add_new p score member t)
      else if nx f then mret t
      else
        old_score ← checked_score item;
        if gt f && negb (is_gt score old_score) then mret t
        else if lt f && negb (is_lt score old_score) then mret t
        else if f64_eq old_score score then mret t
        else
          del (score_key p old_score member) ;;
          set_member now p score member ;;
          mret (mkTally (t_count t) (t_added t) (t_changed t + 1))
  end.

Fixpoint zadd_loop (p : list Z) (f : ZAddFlags) (is_new_key : bool) (pairs : list (list Z)) (t : Tally)
  : DbM T Tally :=
  match pairs with
  | score_str :: member :: pairs' =>
      match parse_score score_str with
      | None => fail not_valid_float
      | Some score => t ← zadd_pair p f is_new_key score member t; zadd_loop p f is_new_key pairs' t
      end
  | _ => mret t
  end.

(** The write, the options being parsed: the node it resolved to and the tally, or [None]
    when XX finds no key. *)
Definition zadd_apply (node : NodeRef) (f : ZAddFlags) (remaining : list (list Z))
  : DbM T (NodeRef * option (ZAddFlags * Tally)) :=
  count ← zset_count now (n_public node);
  if bool_decide (count = None) && xx f then mret (node, None)
  else
    t ← zadd_loop (node_bytes node) f (bool_decide (count = None)) remaining (mkTally (default 0 count) 0 0);
    (if (0 <? t_added t) || (0 <? t_changed t)
     then write_zset_sentinel now (n_public node) (t_count t) (n_prefix node)
     else mret ()) ;;
    mret (node, Some (f, t)).

Definition zadd_write (id : list Z) (node : NodeRef) (args : list (list Z))
  : DbM T (NodeRef * option (ZAddFlags * Tally)) :=
  node ← resolved_for_write now id node;
  if bool_decide (args = []) then fail zadd_arity
  else
    let '(f, remaining) := zadd_flags args no_flags in
    match flags_error f with
    | Some e => fail e
    | None =>
        if bool_decide (remaining = []) || Nat.odd (length remaining) then fail zadd_arity
        else zadd_apply node f remaining
    end.

(** [ZAddOp::run]: after the write, the client that waits longest for the key is claimed
    and served from the set. *)
Definition ZAddOp_run (id : list Z) (node : NodeRef) (raw_key : list Z) (args : list (list Z)) (t : T)
    (reg : WatchRegistry) : (outcome DbResult DbError * T) * WatchRegistry :=
  match zadd_write id node args t with
  | (Fail e, t) => ((Fail e, t), reg)
  | (Panic, t) => ((Panic, t), reg)
  | (Ret (_, None), t) => ((Ret (RZAdd 0 None), t), reg)
  | (Ret (node, Some (f, tally)), t) =>
      let n := if ch f then t_changed tally + t_added tally else t_added tally in
      if 0 <? t_added tally then
        match try_claim reg (n_public node) with
        | (None, reg) => ((Ret (RZAdd n None), t), reg)
        | (Some claim, reg) =>
            match pop_one now (claim_want_min claim) node t with
            | (Fail e, t) => ((Fail e, t), release_front reg claim)
            | (Panic, t) => ((Panic, t), reg)
            | (Ret None, t) => ((Ret (RZAdd n (Some claim)), t), reg)
            | (Ret (Some (member, score)), t) =>
                ((Ret (RZAdd n (Some (set_result claim (PopDone (mkPop raw_key member score))))), t), reg)
            end
        end
      else ((Ret (RZAdd n None), t), reg)
  end.
End ZAdd.

(** [ZAddOp::release_claims] *)
Definition zadd_release (res : DbResult) (reg : WatchRegistry) : WatchRegistry :=
  match res with RZAdd _ (Some claim) => release_front reg claim | _ => reg end.

(** ** Popping from the first of several sets *)

Section Pop.
Context {T : Type} `{!TxOps T} (now : Z).

Fixpoint try_pop (nodes : list (NodeRef * list Z)) (want_min : bool) : DbM T (option PopResult) :=
  match nodes with
  | [] => mret None
  | (node, raw_key) :: nodes' =>
      popped ← pop_one now want_min node;
      match popped with
      | Some (member, score) => mret (Some (mkPop raw_key member score))
      | None => try_pop nodes' want_min
      end
  end.

(** BZPOPMIN and BZPOPMAX that do not block. *)
Definition BzpopOp (nodes : list (NodeRef * list Z)) (want_min : bool) : DbM T DbResult :=
  p ← try_pop nodes want_min;
  mret (ROptPop p).
End Pop.

(** ** Wire halves *)

Definition bulk (v : list Z) : RespValue := BulkString (Some v).

Definition IntWire : WireOp := pure_wire (λ r,
  match r with Ok (RInt n) => Integer n | Ok _ => internal_error | Err e => err_resp e end).

Definition NullableIntWire : WireOp := pure_wire (λ r,
  match r with
  | Ok (ROptInt (Some n)) => Integer n
  | Ok (ROptInt None) => BulkString None
  | Ok _ => internal_error
  | Err e => err_resp e
  end).

(** Both variants of [ScoreWire] reply alike. *)
Definition ScoreWire : WireOp := pure_wire (λ r,
  match r with
  | Ok (ROptF64 (Some score)) => bulk (format_f64 score)
  | Ok (ROptF64 None) => BulkString None
  | Ok (RF64 score) => bulk (format_f64 score)
  | Ok _ => internal_error
  | Err e => err_resp e
  end).

Definition BulkArrayWire : WireOp := pure_wire (λ r,
  match r with Ok (RList vs) => Array (Some (bulk <$> vs)) | Ok _ => internal_error | Err e => err_resp e end).

Definition MemberScoreArrayWire (with_scores : bool) : WireOp := pure_wire (λ r,
  match r with
  | Ok (RMembers ms) =>
      Array (Some (concat ((λ e : MemberScore, bulk e.1 :: if with_scores then [bulk (format_f64 e.2)] else []) <$> ms)))
  | Ok _ => internal_error
  | Err e => err_resp e
  end).

Definition ZMScoreWire : WireOp := pure_wire (λ r,
  match r with
  | Ok (RScores scores) =>
      Array (Some ((λ s, match s with Some score => bulk (format_f64 score) | None => BulkString None end) <$> scores))
  | Ok _ => internal_error
  | Err e => err_resp e
  end).

(** Wakes the client the database half claimed. *)
Definition ZAddWire : WireOp := λ r reg,
  match r with
  | Ok (RZAdd n claim) => (Integer n, match claim with Some c => wake reg c | None => reg end)
  | Ok _ => (internal_error, reg)
  | Err e => (err_resp e, reg)
  end.

Definition bzpop_reply_value (p : PopResult) : RespValue :=
  Array (Some [bulk (pop_key p); bulk (pop_member p); bulk (format_f64 (pop_score p))]).

Definition BzpopWire : WireOp := pure_wire (λ r,
  match r with
  | Ok (ROptPop (Some p)) => bzpop_reply_value p
  | Ok (ROptPop None) => BulkString None
  | Ok _ => internal_error
  | Err e => err_resp e
  end).

(** ** The queued commands *)

Module Cmd.
Section Cmd.
Context {T : Type} `{!TxOps T}.
Implicit Types (s : Session T) (key member : list Z) (limit : option (Z * Z)).

(** A command on the sorted set under [key]. *)
Definition on_zset s key (op : Z → NodeRef → DbM T DbResult) (w : WireOp) (mutating : bool) : QueuedOp T :=
  on_key s key (λ now, op now (node_new s key)) w mutating.

Definition zadd s (id key : list Z) (args : list (list Z)) : QueuedOp T :=
  mkQueuedOp (mkDbOp (λ now t reg, ZAddOp_run now id (node_new s key) key args t reg) zadd_release)
    ZAddWire true true false (Some (key_sv s key)).
Definition zcard s key : QueuedOp T := on_zset s key ZCardOp IntWire false.
Definition zscore s key member : QueuedOp T := on_zset s key (λ now n, ZScoreOp now n member) ScoreWire false.
Definition zrem s key (members : list (list Z)) : QueuedOp T :=
  on_zset s key (λ now n, ZRemOp now n members) IntWire true.
Definition zrange s key (start stop : Z) (with_scores : bool) : QueuedOp T :=
  on_zset s key (λ now n, RangeByRankOp now n start stop with_scores false) BulkArrayWire false.
Definition zrevrange s key (start stop : Z) (with_scores : bool) : QueuedOp T :=
  on_zset s key (λ now n, RangeByRankOp now n start stop with_scores true) BulkArrayWire false.
Definition zrank s key member : QueuedOp T := on_zset s key (λ now n, RankOp now n member false) NullableIntWire false.
Definition zrevrank s key member : QueuedOp T := on_zset s key (λ now n, RankOp now n member true) NullableIntWire false.
Definition zcount s key (min_str max_str : list Z) : QueuedOp T :=
  on_zset s key (λ now n, ScoreRangeCountOp now n min_str max_str) IntWire false.
Definition zincrby s (id key : list Z) (increment : Z) member : QueuedOp T :=
  on_zset s key (λ now n, ZIncrByOp now id n increment member) ScoreWire true.
Definition zrangebyscore s key (min_str max_str : list Z) (with_scores : bool) limit : QueuedOp T :=
  on_zset s key (λ now n, RangeByScoreOp now n min_str max_str with_scores limit false) BulkArrayWire false.
Definition zrevrangebyscore s key (max_str min_str : list Z) (with_scores : bool) limit : QueuedOp T :=
  on_zset s key (λ now n, RangeByScoreOp now n min_str max_str with_scores limit true) BulkArrayWire false.
Definition zrangebylex s key (min_str max_str : list Z) limit : QueuedOp T :=
  on_zset s key (λ now n, RangeByLexOp now n min_str max_str limit false) BulkArrayWire false.
Definition zrevrangebylex s key (max_str min_str : list Z) limit : QueuedOp T :=
  on_zset s key (λ now n, RangeByLexOp now n min_str max_str limit true) BulkArrayWire false.
Definition zlexcount s key (min_str max_str : list Z) : QueuedOp T :=
  on_zset s key (λ now n, LexCountOp now n min_str max_str) IntWire false.
Definition zremrangebyrank s key (start stop : Z) : QueuedOp T :=
  on_zset s key (λ now n, RemRangeByRankOp now n start stop) IntWire true.
Definition zremrangebyscore s key (min_str max_str : list Z) : QueuedOp T :=
  on_zset s key (λ now n, RemRangeByScoreOp now n min_str max_str) IntWire true.
Definition zremrangebylex s key (min_str max_str : list Z) : QueuedOp T :=
  on_zset s key (λ now n, RemRangeByLexOp now n min_str max_str) IntWire true.
Definition zpopmin s key (count : Z) : QueuedOp T :=
  on_zset s key (λ now n, ZPopOp now n count true) (MemberScoreArrayWire true) true.
Definition zpopmax s key (count : Z) : QueuedOp T :=
  on_zset s key (λ now n, ZPopOp now n count false) (MemberScoreArrayWire true) true.
Definition zmscore s key (members : list (list Z)) : QueuedOp T :=
  on_zset s key (λ now n, ZMScoreOp now n members) ZMScoreWire false.
Definition zrandmember s (rng : nat → Z * Z) key (count : Z) : QueuedOp T :=
  on_zset s key (λ now n, ZRandMemberOp now rng n count) (MemberScoreArrayWire (count <? 0)) false.

(** A combination of sets, read or stored. *)
Definition combine s (keys : list (list Z)) (aggregate : list Z) (weights : list Z) (with_scores : bool)
    (kind : SetOpKind) : QueuedOp T :=
  mkQueuedOp (tx_op (λ now, SetOp now (node_new s <$> keys) aggregate weights with_scores kind)) BulkArrayWire
    false true false (Some (keys_sv s keys)).
Definition combine_store s (id dest : list Z) (keys : list (list Z)) (aggregate : list Z) (weights : list Z)
    (kind : SetOpKind) : QueuedOp T :=
  mkQueuedOp (tx_op (λ now, StoreSetOp now id (node_new s dest) (node_new s <$> keys) aggregate weights kind)) IntWire
    true true false (Some (keys_sv s (dest :: keys))).
Definition zdiff s (with_scores : bool) (keys : list (list Z)) : QueuedOp T := combine s keys [] [] with_scores Diff.
Definition zdiffstore s (id dest : list Z) (keys : list (list Z)) : QueuedOp T := combine_store s id dest keys [] [] Diff.
Definition zinter s (aggregate : list Z) (weights : list Z) (with_scores : bool) (keys : list (list Z)) : QueuedOp T :=
  combine s keys aggregate weights with_scores Inter.
Definition zinterstore s (id dest : list Z) (aggregate : list Z) (weights : list Z) (keys : list (list Z)) : QueuedOp T :=
  combine_store s id dest keys aggregate weights Inter.
Definition zunion s (aggregate : list Z) (weights : list Z) (with_scores : bool) (keys : list (list Z)) : QueuedOp T :=
  combine s keys aggregate weights with_scores Union.
Definition zunionstore s (id dest : list Z) (aggregate : list Z) (weights : list Z) (keys : list (list Z)) : QueuedOp T :=
  combine_store s id dest keys aggregate weights Union.
Definition zrangestore s (id dest src : list Z) (start stop : Z) : QueuedOp T :=
  mkQueuedOp (tx_op (λ now, ZRangeStoreOp now id (node_new s dest) (node_new s src) start stop)) IntWire
    true true false (Some (keys_sv s [dest; src])).

(** The pop of a session that may not block. *)
Definition bzpop s (keys : list (list Z)) (want_min : bool) : QueuedOp T :=
  mkQueuedOp (tx_op (λ now, BzpopOp now ((λ k, (node_new s k, k)) <$> keys) want_min)) BzpopWire
    true true false (Some (keys_sv s keys)).
End Cmd.
End Cmd.
