(* ===== verification/ZSetStore.v ===== *)
(** * Sorted sets in the store: src/redis/zset.rs

    What the helpers of ZSet do to the abstract value, a finite map from members to scores:
    the score encoding is inverted by its decoder and ordered like the numbers, both
    indexes hold exactly the map ([zentries]), scanning the score index enumerates it in
    order ([ranked]), and adding, changing and removing a member keep the indexes and the
    count in step ([zupdated]). *)
From S2P Require Import Prelude Bytes Float64 Resp Kv Registry StreamCodec Op Namespace Session Rand Elements ZSet.

(** ** The score encoding *)
Lemma shiftr_sign b : f64_ok b → (Z.shiftr b 63 =? 1) = (sign_bit <=? b).
Proof.
  unfold f64_ok, sign_bit. intros Hb. rewrite Z.shiftr_div_pow2 by lia.
  destruct (Z.leb_spec (2 ^ 63) b).
  - apply Z.eqb_eq. symmetry. apply (Z.div_unique_pos _ _ _ (b - 2 ^ 63)); lia.
  - rewrite Z.div_small by lia. done.
Qed.

Lemma lxor_ones b n : 0 ≤ n → 0 ≤ b < 2 ^ n → Z.lxor b (Z.ones n) = Z.ones n - b.
Proof.
  intros Hn Hb. rewrite Z.sub_nocarry_ldiff.
  - apply Z.bits_inj'. intros i Hi. rewrite Z.lxor_spec, Z.ldiff_spec.
    destruct (decide (i < n)).
    + rewrite Z.ones_spec_low by lia. by destruct (Z.testbit b i).
    + rewrite Z.ones_spec_high by lia. rewrite <- (Z.mod_small b (2 ^ n)) by lia. by rewrite Z.mod_pow2_bits_high by lia.
  - apply Z.bits_inj'. intros i Hi. rewrite Z.ldiff_spec, Z.bits_0.
    destruct (decide (i < n)).
    + rewrite Z.ones_spec_low by lia. by destruct (Z.testbit b i).
    + rewrite <- (Z.mod_small b (2 ^ n)) by lia. by rewrite Z.mod_pow2_bits_high by lia.
Qed.

Lemma lxor_sign b : 0 ≤ b < sign_bit → Z.lxor b (2 ^ 63) = b + sign_bit.
Proof.
  unfold sign_bit. intros Hb. symmetry. apply Z.add_nocarry_lxor. apply Z.bits_inj'. intros i Hi.
  rewrite Z.land_spec, Z.bits_0, Z.pow2_bits_eqb by lia. destruct (Z.eqb_spec 63 i) as [<-|]; [|by rewrite andb_false_r].
  rewrite <- (Z.mod_small b (2 ^ 63)) by lia. by rewrite Z.mod_pow2_bits_high by lia.
Qed.

Lemma flip_score_val b : f64_ok b → flip_score b = if sign_bit <=? b then u64_max - b else b + sign_bit.
Proof.
  intros Hb. unfold flip_score. rewrite shiftr_sign by done. unfold f64_ok in Hb. destruct (Z.leb_spec sign_bit b).
  - change u64_max with (Z.ones 64). apply lxor_ones; lia.
  - apply lxor_sign. lia.
Qed.

Lemma flip_score_ok b : f64_ok b → f64_ok (flip_score b).
Proof.
  intros Hb. rewrite flip_score_val by done. unfold f64_ok, u64_max, sign_bit in *. destruct (Z.leb_spec (2 ^ 63) b); lia.
Qed.

Lemma unflip_flip b : f64_ok b → unflip_score (flip_score b) = b.
Proof.
  intros Hb. unfold unflip_score. rewrite shiftr_sign by (by apply flip_score_ok). pose proof (flip_score_val b Hb) as E.
  unfold flip_score in *. rewrite shiftr_sign in * by done. unfold f64_ok, u64_max, sign_bit in *.
  destruct (Z.leb_spec (2 ^ 63) b); rewrite E at 1.
  - rewrite (proj2 (Z.leb_gt _ _)) by lia. by rewrite Z.lxor_assoc, Z.lxor_nilpotent, Z.lxor_0_r.
  - rewrite (proj2 (Z.leb_le _ _)) by lia. by rewrite Z.lxor_assoc, Z.lxor_nilpotent, Z.lxor_0_r.
Qed.

Lemma flip_score_inj a b : f64_ok a → f64_ok b → flip_score a = flip_score b → a = b.
Proof. intros Ha Hb H. by rewrite <- (unflip_flip a Ha), <- (unflip_flip b Hb), H. Qed.

Lemma length_encode_score s : length (encode_score s) = 8%nat.
Proof. apply length_be_bytes. Qed.

Lemma decode_encode_score s : f64_ok s → decode_score (encode_score s) = s.
Proof.
  intros Hs. unfold decode_score, encode_score. rewrite from_be_be_bytes; [by apply unflip_flip|].
  pose proof (flip_score_ok s Hs). unfold f64_ok in *. change (256 ^ Z.of_nat 8) with (2 ^ 64). lia.
Qed.

Lemma be_bytes_le n a b :
  0 ≤ a < 256 ^ Z.of_nat n → 0 ≤ b < 256 ^ Z.of_nat n → bytes_le (be_bytes n a) (be_bytes n b) = (a <=? b).
Proof.
  revert a b. induction n as [|n IH]; intros a b Ha Hb.
  { simpl in *. symmetry. apply Z.leb_le. lia. }
  rewrite Nat2Z.inj_succ, Z.pow_succ_r in Ha, Hb by lia. cbn [be_bytes].
  rewrite bytes_le_app_eq by (by rewrite !length_be_bytes).
  rewrite !IH by (split; [apply Z.div_pos; lia|apply Z.div_lt_upper_bound; lia]). cbn [bytes_le].
  pose proof (Z.div_mod a 256 ltac:(lia)). pose proof (Z.div_mod b 256 ltac:(lia)).
  pose proof (Z.mod_pos_bound a 256 ltac:(lia)). pose proof (Z.mod_pos_bound b 256 ltac:(lia)).
  set (qa := a / 256) in *. set (qb := b / 256) in *. set (ra := a mod 256) in *. set (rb := b mod 256) in *.
  apply eq_true_iff_eq. rewrite andb_true_iff, !orb_true_iff, negb_true_iff, !andb_true_iff, !Z.leb_le, Z.leb_gt, Z.ltb_lt, Z.eqb_eq.
  lia.
Qed.

Lemma encode_score_le a b : f64_ok a → f64_ok b → bytes_le (encode_score a) (encode_score b) = (flip_score a <=? flip_score b).
Proof.
  intros Ha Hb. apply flip_score_ok in Ha, Hb. unfold f64_ok in *. apply be_bytes_le; change (256 ^ Z.of_nat 8) with (2 ^ 64); lia.
Qed.

(** The order of the score index. *)
Definition ranked_le (a b : list Z * Z) : Prop :=
  flip_score a.2 < flip_score b.2 ∨ (flip_score a.2 = flip_score b.2 ∧ bytes_le a.1 b.1 = true).
#[export] Instance ranked_le_dec : RelDecision ranked_le.
Proof. intros a b. unfold ranked_le. apply _. Defined.
#[export] Instance ranked_le_trans : Transitive ranked_le.
Proof.
  intros a b c [H1|[H1 L1]] [H2|[H2 L2]]; [left; lia..|]. right. split; [lia|by eapply bytes_le_trans].
Qed.
#[export] Instance ranked_le_total : Total ranked_le.
Proof.
  intros a b. unfold ranked_le. destruct (Z.lt_total (flip_score a.2) (flip_score b.2)) as [H|[H|H]]; [by left; left| |by right; left].
  destruct (bytes_le_total a.1 b.1); [left|right]; right; done.
Qed.

(** Float order and index order agree, but for the two zeros, which the index tells apart. *)
Lemma flip_score_rank a b :
  f64_ok a → f64_ok b →
  (f64_rank a < f64_rank b → flip_score a < flip_score b) ∧
  (f64_rank a = f64_rank b → a = b ∨ (a = f64_neg_zero ∧ b = f64_zero) ∨ (a = f64_zero ∧ b = f64_neg_zero)).
Proof.
  intros Ha Hb. rewrite !flip_score_val by done. unfold f64_ok, f64_rank, u64_max, f64_neg_zero, f64_zero, sign_bit in *.
  destruct (Z.leb_spec (2 ^ 63) a), (Z.leb_spec (2 ^ 63) b); lia.
Qed.

Definition score_name (s : Z) (f : list Z) : list Z := encode_score s ++ B ":" ++ f.

Lemma score_name_le s s' f f' :
  f64_ok s → f64_ok s' → bytes_le (score_name s f) (score_name s' f') = true ↔ ranked_le (f, s) (f', s').
Proof.
  intros Hs Hs'. unfold score_name, ranked_le. rewrite bytes_le_app_eq by (by rewrite !length_encode_score).
  rewrite !encode_score_le, bytes_le_app by done. cbn [fst snd].
  rewrite andb_true_iff, orb_true_iff, negb_true_iff, Z.leb_le, Z.leb_gt.
  destruct (Z.lt_total (flip_score s) (flip_score s')) as [H|[H|H]]; intuition lia.
Qed.

Lemma score_name_inj s s' f f' : f64_ok s → f64_ok s' → score_name s f = score_name s' f' → s = s' ∧ f = f'.
Proof.
  intros Hs Hs' H. apply app_inj_1 in H as [H1 H2]; [|by rewrite !length_encode_score]. injection H2 as H2. split; [|done].
  rewrite <- (decode_encode_score s Hs), <- (decode_encode_score s' Hs'). by rewrite H1.
Qed.

(** ** The indexes *)

(** The keys of the two indexes under prefix [p]. *)
Definition zkey (p k : list Z) : Prop := (∃ g, k = score_prefix p ++ g) ∨ (∃ f, k = member_key p f).

Definition scores_ok (z : gmap (list Z) Z) : Prop := ∀ f s, z !! f = Some s → f64_ok s.

(** The indexes under [p] hold exactly [z]. *)
Record zentries (now : Z) (m : gmap (list Z) Item) (p : list Z) (z : gmap (list Z) Z) : Prop := {
  ze_member f : item_value <$> live now (member_key p f) m = be_bytes 8 <$> z !! f;
  ze_score g : is_Some (live now (score_prefix p ++ g) m) ↔ ∃ f s, z !! f = Some s ∧ g = score_name s f;
  ze_ok : scores_ok z
}.

Lemma score_key_name p s f : score_key p s f = score_prefix p ++ score_name s f.
Proof. unfold score_key, score_prefix, score_name. by rewrite <- !app_assoc. Qed.

Lemma member_key_inj p f g : member_key p f = member_key p g → f = g.
Proof. unfold member_key. intros H. by do 2 apply app_inv_head in H. Qed.

Lemma score_not_member p g f : score_prefix p ++ g ≠ member_key p f.
Proof.
  unfold score_prefix, member_key. rewrite <- app_assoc. intros H%app_inv_head. discriminate H.
Qed.

Create HintDb zset.

Lemma zkey_score p s f : zkey p (score_key p s f).
Proof. left. rewrite score_key_name. eauto. Qed.
Lemma zkey_member p f : zkey p (member_key p f).
Proof. right. eauto. Qed.
#[export] Hint Resolve zkey_score zkey_member : zset.

Lemma live_delete_ne now (k k' : list Z) m : k ≠ k' → live now k' (delete k m) = live now k' m.
Proof. intros H. unfold live, lookup_live. by rewrite lookup_delete_ne. Qed.

Lemma scores_ok_insert f s z : f64_ok s → scores_ok z → scores_ok (<[f := s]> z).
Proof. intros Hs Hz g t [[_ <-]|[_ Hg]]%lookup_insert_Some; [done|]. by eapply Hz. Qed.
Lemma scores_ok_delete f z : scores_ok z → scores_ok (delete f z).
Proof. intros Hz g t [_ Hg]%lookup_delete_Some. by eapply Hz. Qed.
Lemma scores_ok_empty : scores_ok ∅.
Proof. by intros f s ?%lookup_empty_Some. Qed.
#[export] Hint Resolve scores_ok_insert scores_ok_delete scores_ok_empty : zset.

(** What the member index tells. *)
Lemma zlive_member now p f m z :
  zentries now m p z →
  match live now (member_key p f) m with
  | Some i => ∃ s, z !! f = Some s ∧ item_value i = be_bytes 8 s
  | None => z !! f = None
  end.
Proof.
  intros He. pose proof (ze_member _ _ _ _ He f) as H. destruct (live now (member_key p f) m) as [i|], (z !! f) as [s|]; try done.
  injection H as H. eauto.
Qed.

(** A member that is not there is added to both indexes. *)
Lemma zentries_add now p f s m z :
  f64_ok s → zentries now m p z → z !! f = None →
  zentries now (<[member_key p f := mkItem (member_key p f) (be_bytes 8 s) 0 None]>
                 (<[score_key p s f := mkItem (score_key p s f) [] 0 None]> m)) p (<[f := s]> z).
Proof.
  intros Hs [Hm Hsc Hok] Hf. split; [| |by auto with zset].
  - intros g. destruct (decide (g = f)) as [->|Hne].
    + rewrite lookup_insert_eq. unfold live, lookup_live. by rewrite lookup_insert_eq.
    + rewrite lookup_insert_ne, live_insert_ne by (done || by intros ?%member_key_inj).
      rewrite live_insert_ne by (rewrite score_key_name; apply score_not_member). apply Hm.
  - intros g. rewrite live_insert_ne by (intros E; by eapply (score_not_member p g f)). rewrite score_key_name.
    destruct (decide (g = score_name s f)) as [->|Hne].
    + split; [|intros _]; [intros _; exists f, s; by rewrite lookup_insert_eq|]. unfold live, lookup_live. rewrite lookup_insert_eq. done.
    + rewrite live_insert_ne by (intros E%app_inv_head; congruence). rewrite Hsc. split.
      * intros (h & t & Hh & ->). exists h, t. split; [|done]. rewrite lookup_insert_ne; [done|]. intros ->. congruence.
      * intros (h & t & [[<- <-]|[_ Hh]]%lookup_insert_Some & ->); [done|]. eauto.
Qed.

(** A member is taken out of both indexes. *)
Lemma zentries_remove now p f s m z :
  zentries now m p z → z !! f = Some s →
  zentries now (delete (score_key p s f) (delete (member_key p f) m)) p (delete f z).
Proof.
  intros [Hm Hsc Hok] Hf. split; [| |by auto with zset].
  - intros g. rewrite live_delete_ne by (rewrite score_key_name; apply score_not_member).
    destruct (decide (g = f)) as [->|Hne].
    + by rewrite live_delete, lookup_delete_eq.
    + rewrite lookup_delete_ne, live_delete_ne by (done || by intros ?%member_key_inj). apply Hm.
  - intros g. rewrite score_key_name. destruct (decide (g = score_name s f)) as [->|Hne].
    + rewrite live_delete. split; [by intros []|]. intros (h & t & [Hne Hh]%lookup_delete_Some & E).
      apply score_name_inj in E as [<- <-]; [done|by eapply Hok..].
    + rewrite live_delete_ne by (intros E%app_inv_head; congruence).
      rewrite live_delete_ne by (intros E; symmetry in E; by eapply score_not_member). rewrite Hsc. split.
      * intros (h & t & Hh & ->). exists h, t. split; [|done]. rewrite lookup_delete_ne; [done|]. intros ->. congruence.
      * intros (h & t & [_ Hh]%lookup_delete_Some & ->). eauto.
Qed.

(** A member gets another score. *)
Lemma zentries_change now p f s0 s m z :
  f64_ok s → zentries now m p z → z !! f = Some s0 →
  zentries now (<[member_key p f := mkItem (member_key p f) (be_bytes 8 s) 0 None]>
                 (<[score_key p s f := mkItem (score_key p s f) [] 0 None]> (delete (score_key p s0 f) m))) p (<[f := s]> z).
Proof.
  intros Hs He Hf. pose proof (zentries_add now p f s _ _ Hs (zentries_remove now p f s0 m z He Hf) (lookup_delete_eq _ _)) as H.
  rewrite insert_delete_eq in H. revert H.
  rewrite delete_delete, (insert_insert_ne _ (member_key p f)), insert_delete_eq, (insert_insert_ne _ (member_key p f)) by
    (rewrite score_key_name; intros E; symmetry in E; by eapply score_not_member).
  done.
Qed.

(** Nothing but the indexes under [p] differs. *)
Definition zoutside (p : list Z) (m m' : gmap (list Z) Item) : Prop := ∀ k : list Z, ¬ zkey p k → m' !! k = m !! k.
#[export] Instance zoutside_preorder p : PreOrder (zoutside p).
Proof. split; [by intros m k|]. intros m1 m2 m3 H1 H2 k Hk. by rewrite (H2 k Hk), (H1 k Hk). Qed.

Lemma zoutside_insert p k i m : zkey p k → zoutside p m (<[k := i]> m).
Proof. intros Hk k' Hk'. rewrite lookup_insert_ne; [done|]. by intros ->. Qed.
Lemma zoutside_delete p k m : zkey p k → zoutside p m (delete k m).
Proof. intros Hk k' Hk'. rewrite lookup_delete_ne; [done|]. by intros ->. Qed.

Lemma zoutside_live now p m m' k : zoutside p m m' → ¬ zkey p k → live now k m' = live now k m.
Proof. intros Ho Hk. unfold live, lookup_live. by rewrite (Ho k Hk). Qed.

(** The indexes rewritten to [z'], everything else as it was. *)
Record zrewritten (now : Z) (p : list Z) (m m' : gmap (list Z) Item) (z' : gmap (list Z) Z) : Prop := {
  zr_good : good m';
  zr_entries : zentries now m' p z';
  zr_outside : zoutside p m m'
}.

Lemma zrewritten_refl now p m z : good m → zentries now m p z → zrewritten now p m m z.
Proof. by split. Qed.
Lemma zrewritten_trans now p m1 m2 m3 z2 z3 :
  zrewritten now p m1 m2 z2 → zrewritten now p m2 m3 z3 → zrewritten now p m1 m3 z3.
Proof. intros [_ _ H1] [? ? H2]. split; [done..|]. by transitivity m2. Qed.

(** ** The abstract value *)

(** The public key is in neither index. *)
Record zlayout (pk : list Z) (p : ElementPrefix) : Prop := {
  zl_public : ¬ zkey (prefix_bytes p) pk;
  zl_length : Z.of_nat (length (prefix_bytes p)) < 2 ^ 32
}.

(** A sorted set with contents [z] under [pk]: no key, which reads as empty, or a sentinel
    with the count and prefix [p] and the indexes under [p]. *)
Record zstored_at (now : Z) (m : gmap (list Z) Item) (pk legacy : list Z) (i : Item) (p : ElementPrefix)
    (z : gmap (list Z) Z) : Prop := {
  zs_live : live now pk m = Some i;
  zs_type : base_type (item_meta i) = TYPE_SORTED_SET;
  zs_count : payload i = Ok (be_bytes 4 (Z.of_nat (size z)));
  zs_prefix : prefix_of i legacy = Ok p;
  zs_size : Z.of_nat (size z) < 2 ^ 32;
  zs_entries : zentries now m (prefix_bytes p) z;
  zs_layout : zlayout pk p
}.

Inductive zstored (now : Z) (m : gmap (list Z) Item) (pk legacy : list Z) : gmap (list Z) Z → Prop :=
| zstored_none : live now pk m = None → zstored now m pk legacy ∅
| zstored_some i p z : zstored_at now m pk legacy i p z → zstored now m pk legacy z.

(** The prefix [p] a writing command resolves to, and what it then finds there. *)
Record zwritable (now : Z) (m : gmap (list Z) Item) (pk legacy id : list Z) (p : ElementPrefix)
    (z : gmap (list Z) Z) : Prop := {
  zw_sentinel :
    match live now pk m with
    | Some i => base_type (item_meta i) = TYPE_SORTED_SET ∧ prefix_of i legacy = Ok p ∧
                payload i = Ok (be_bytes 4 (Z.of_nat (size z)))
    | None => new_namespace id legacy = Ok p ∧ explicit p = true ∧ z = ∅
    end;
  zw_size : Z.of_nat (size z) < 2 ^ 32;
  zw_entries : zentries now m (prefix_bytes p) z;
  zw_layout : zlayout pk p
}.

(** From [m] to [m'] the value under [pk] became [z']: nothing but its key and its indexes
    under [p] changed, a key that is still there keeps prefix and expiry, and the key of a
    set that was emptied is gone. *)
Record zupdated (now : Z) (m : gmap (list Z) Item) (pk legacy : list Z) (p : ElementPrefix)
    (m' : gmap (list Z) Item) (z' : gmap (list Z) Z) : Prop := {
  zu_good : good m';
  zu_stored : zstored now m' pk legacy z';
  zu_frame : ∀ k : list Z, k ≠ pk → ¬ zkey (prefix_bytes p) k → m' !! k = m !! k;
  zu_key i : live now pk m' = Some i →
    prefix_of i legacy = Ok p ∧ item_expire_ts i = (live now pk m ≫= item_expire_ts);
  zu_gone : z' = ∅ → live now pk m' = None ∨ zstored now m pk legacy ∅ ∧ live now pk m' = live now pk m
}.

Lemma zstored_gone now m pk legacy z : zstored now m pk legacy z → live now pk m = None → z = ∅.
Proof. intros [Hl|i p z' H]; [done|]. by rewrite (zs_live _ _ _ _ _ _ _ H). Qed.

(** The indexes determine the members. *)
Lemma zstored_empty now m pk legacy z : zstored now m pk legacy ∅ → zstored now m pk legacy z → z = ∅.
Proof.
  intros H1 H2. inversion H1 as [Hl|i p z1 Ha]; [by eapply zstored_gone|]. inversion H2 as [|i' p' z2 Hb]; subst; [done|].
  pose proof (zs_count _ _ _ _ _ _ _ Ha) as Hc. pose proof (zs_live _ _ _ _ _ _ _ Ha) as E. rewrite (zs_live _ _ _ _ _ _ _ Hb) in E.
  injection E as ->. rewrite (zs_count _ _ _ _ _ _ _ Hb) in Hc. apply (f_equal (λ r, match r with Ok l => from_be l | Err _ => 0 end)) in Hc.
  pose proof (zs_size _ _ _ _ _ _ _ Hb). rewrite map_size_empty, !from_be_be_bytes in Hc by lia. apply map_size_empty_inv. lia.
Qed.

(** An update keeps the keys of empty sets gone. *)
Lemma zupdated_tidy now m pk legacy p z m' z' :
  zstored now m pk legacy z → zupdated now m pk legacy p m' z' →
  (z = ∅ → live now pk m = None) → z' = ∅ → live now pk m' = None.
Proof.
  intros Hst Hu Ht He. destruct (zu_gone _ _ _ _ _ _ _ Hu He) as [?|[H0 ->]]; [done|]. apply Ht. by eapply zstored_empty.
Qed.

(** A namespace that is not in use yet, for the random [id]. *)
Definition zfresh (now : Z) (m : gmap (list Z) Item) (pk legacy id : list Z) : Prop :=
  ∃ p, new_namespace id legacy = Ok p ∧ zentries now m (prefix_bytes p) ∅ ∧ zlayout pk p.

Lemma zstored_writable now m pk legacy id z :
  zstored now m pk legacy z → zfresh now m pk legacy id → ∃ p, zwritable now m pk legacy id p z.
Proof.
  intros [Hl|i p z' [Hl Hty Hc Hp Hs He Hlay]] (p0 & Hnew & Hfe & Hfl).
  - exists p0. split; try done; rewrite ?Hl, ?map_size_empty. split_and!; [done|by eapply new_namespace_explicit|done].
  - exists p. split; try done. by rewrite Hl.
Qed.

Lemma zstored_at_writable now m pk legacy id i p z : zstored_at now m pk legacy i p z → zwritable now m pk legacy id p z.
Proof. intros [Hl Hty Hc Hp Hs He Hlay]. split; try done. by rewrite Hl. Qed.

Lemma zwritable_unchanged now m pk legacy id p z :
  good m → zwritable now m pk legacy id p z → zupdated now m pk legacy p m z.
Proof.
  intros Hg [Hw Hs He Hlay]. destruct (live now pk m) as [i|] eqn:El.
  - destruct Hw as (? & ? & ?). assert (zstored now m pk legacy z) as Hst by (by eapply zstored_some with i p).
    split; [done..| |by intros ->; right]. intros j. rewrite El. by intros [= <-].
  - destruct Hw as (_ & _ & ->). split; [done|by apply zstored_none|done| |by left]. intros j Hj. congruence.
Qed.

Lemma zwritable_used now m pk legacy id p z : zwritable now m pk legacy id p z → used_prefix (now:=now) m pk legacy id = Ok p.
Proof.
  intros [Hw _ _ _]. unfold used_prefix. destruct (live now pk m); [by destruct Hw as (_ & ? & _)|by destruct Hw].
Qed.

(** ** Running the helpers *)

Section Runs.
Context {T : Type} `{!TxOps T} {raw : T → gmap (list Z) Item} {ok : T → Prop}.
Context `{HT : !TxLaws T raw ok} {now : Z} (Hnow : clock_ok now).
#[local] Abbreviation Runs := (Runs (raw:=raw) (ok:=ok)).

Lemma runs_zset_count m pk legacy id p z :
  zwritable now m pk legacy id p z →
  Runs (zset_count now pk) m (Ret (match live now pk m with Some _ => Some (Z.of_nat (size z)) | None => None end)) m.
Proof.
  intros [Hw Hs _ _]. pose proof (runs_read_sentinel (raw:=raw) (ok:=ok) Hnow TYPE_SORTED_SET pk m) as H.
  destruct (live now pk m) as [i|] eqn:El.
  - destruct Hw as (Hty & _ & Hc). eapply runs_bind; [apply runs_caught; eapply (runs_read_count Hnow); try done; lia|]. apply runs_ret.
  - eapply runs_bind; [apply runs_caught_fail, H|]. apply runs_ret.
Qed.

Lemma runs_resolved_for_write m pk legacy id p z :
  zwritable now m pk legacy id p z →
  Runs (resolved_for_write now id (mkNode pk (legacy_prefix legacy))) m (Ret (mkNode pk p)) m.
Proof.
  intros [Hw _ _ _]. unfold resolved_for_write. cbn [explicit legacy_prefix n_prefix].
  eapply runs_bind; [|apply runs_ret]. eapply runs_bind; [by apply runs_get|]. cbn [n_public]. rewrite lookup_live_live. unfold node_bytes. cbn.
  destruct (live now pk m) as [i|]; [destruct Hw as (_ & -> & _)|destruct Hw as (-> & _)]; apply runs_ret.
Qed.

(** A reading command resolves to the recorded prefix, or to the one of the name. *)
Lemma runs_resolved m pk legacy id p z :
  zwritable now m pk legacy id p z →
  ∃ q, Runs (resolved now (mkNode pk (legacy_prefix legacy))) m (Ret (mkNode pk q)) m ∧
    (is_Some (live now pk m) → q = p) ∧ (explicit q = false → q = legacy_prefix legacy).
Proof.
  intros [Hw _ _ _]. unfold resolved. cbn [explicit legacy_prefix n_prefix]. destruct (live now pk m) as [i|] eqn:El.
  - destruct Hw as (_ & Hp & _). exists p. split_and!; [|done|].
    + eapply runs_bind; [|apply runs_ret]. eapply runs_bind; [by apply runs_get|]. cbn [n_public]. rewrite lookup_live_live, El.
      unfold node_bytes. cbn. rewrite Hp. apply runs_ret.
    + by apply prefix_of_cases in Hp as [[_ ->]|[_ ->]].
  - exists (legacy_prefix legacy). split_and!; [|by intros []|done].
    eapply runs_bind; [|apply runs_ret]. eapply runs_bind; [by apply runs_get|]. cbn [n_public]. rewrite lookup_live_live, El. apply runs_ret.
Qed.

(** Resolving again changes nothing. *)
Lemma runs_resolved_again m pk legacy id p z q :
  zwritable now m pk legacy id p z → (is_Some (live now pk m) → q = p) → (explicit q = false → q = legacy_prefix legacy) →
  Runs (resolved now (mkNode pk q)) m (Ret (mkNode pk q)) m.
Proof.
  intros Hw Hq Hl. destruct (explicit q) eqn:Ee.
  - unfold resolved. cbn. rewrite Ee. apply runs_ret.
  - rewrite (Hl eq_refl) in *. destruct (runs_resolved m pk legacy id p z Hw) as (r & Hr & Hr1 & Hr2).
    destruct (live now pk m) eqn:El.
    + rewrite (Hr1 ltac:(done)), <- (Hq ltac:(done)) in Hr. done.
    + unfold resolved. cbn [explicit legacy_prefix n_prefix].
      eapply runs_bind; [|apply runs_ret]. eapply runs_bind; [by apply runs_get|]. cbn [n_public]. rewrite lookup_live_live, El. apply runs_ret.
Qed.

Lemma good_set (k v : list Z) m : good m → good (<[k := mkItem k v 0 None]> m).
Proof. apply good_insert. Qed.

Lemma runs_set_plain k v m : Runs (set now (entry_new k v)) m (Ret ()) (<[k := mkItem k v 0 None]> m).
Proof. apply (runs_set Hnow (entry_new k v) m). by apply entry_ok_no_ttl. Qed.

Lemma runs_zset_member p s f m :
  Runs (set_member now p s f) m (Ret ())
    (<[member_key p f := mkItem (member_key p f) (be_bytes 8 s) 0 None]>
      (<[score_key p s f := mkItem (score_key p s f) [] 0 None]> m)).
Proof. eapply runs_bind; [apply runs_set_plain|]. apply runs_set_plain. Qed.

Lemma runs_add_member p s f m z :
  f64_ok s → good m → zentries now m p z → z !! f = None →
  ∃ m', Runs (set_member now p s f) m (Ret ()) m' ∧ zrewritten now p m m' (<[f := s]> z).
Proof.
  intros Hs Hg He Hf. eexists. split; [apply runs_zset_member|]. split.
  - by do 2 apply good_set.
  - by apply zentries_add.
  - transitivity (<[score_key p s f := mkItem (score_key p s f) [] 0 None]> m); apply zoutside_insert; auto with zset.
Qed.

Lemma runs_change_member p s0 s f m z :
  f64_ok s → good m → zentries now m p z → z !! f = Some s0 →
  ∃ m1 m', Runs (del (score_key p s0 f)) m (Ret ()) m1 ∧ Runs (set_member now p s f) m1 (Ret ()) m' ∧
    zrewritten now p m m' (<[f := s]> z).
Proof.
  intros Hs Hg He Hf. eexists _, _. split; [apply runs_del|]. split; [apply runs_zset_member|]. split.
  - by do 2 apply good_set; apply good_delete.
  - by apply zentries_change.
  - transitivity (delete (score_key p s0 f) m); [apply zoutside_delete; auto with zset|].
    etransitivity; apply zoutside_insert; auto with zset.
Qed.

Lemma runs_zdel_member p e m z :
  good m → zentries now m p z → z !! e.1 = Some e.2 →
  ∃ m', Runs (delete_member p e) m (Ret ()) m' ∧ zrewritten now p m m' (delete e.1 z).
Proof.
  intros Hg He Hf. eexists. split; [eapply runs_bind; [apply runs_del|apply runs_del]|]. split.
  - by do 2 apply good_delete.
  - by apply zentries_remove.
  - etransitivity; apply zoutside_delete; auto with zset.
Qed.
End Runs.

(** ** Members in order *)

(** The members by score, and by name where scores are equal. *)
Definition ranked (z : gmap (list Z) Z) : list (list Z * Z) := merge_sort ranked_le (map_to_list z).

Lemma ranked_elem z f s : (f, s) ∈ ranked z ↔ z !! f = Some s.
Proof. unfold ranked. by rewrite merge_sort_Permutation, elem_of_map_to_list. Qed.
Lemma ranked_nodup z : NoDup (ranked z).*1.
Proof. unfold ranked. rewrite merge_sort_Permutation. apply NoDup_fst_map_to_list. Qed.
Lemma ranked_length z : length (ranked z) = size z.
Proof. unfold ranked. by rewrite merge_sort_Permutation, length_map_to_list. Qed.
Lemma ranked_empty : ranked ∅ = [].
Proof. done. Qed.
Lemma ranked_sorted z : Sorted ranked_le (ranked z).
Proof. apply Sorted_merge_sort, _. Qed.

Definition index_key (p : list Z) (e : list Z * Z) : list Z := score_prefix p ++ score_name e.2 e.1.

Lemma index_key_inj p e1 e2 : f64_ok e1.2 → f64_ok e2.2 → index_key p e1 = index_key p e2 → e1 = e2.
Proof.
  intros H1 H2 E. apply app_inv_head, score_name_inj in E as [E1 E2]; [|done..]. destruct e1, e2. cbn in *. by subst.
Qed.

#[local] Instance bytes_le_transitive : Transitive (λ a b : list Z, bytes_le a b = true).
Proof. intros a b c. apply bytes_le_trans. Qed.
#[local] Instance bytes_le_antisymm : AntiSymm (=) (λ a b : list Z, bytes_le a b = true).
Proof. intros a b. apply bytes_le_antisym. Qed.

Lemma Sorted_fmap_in {A B} (f : A → B) (R : relation A) (Q : relation B) l :
  (∀ x y, x ∈ l → y ∈ l → R x y → Q (f x) (f y)) → Sorted R l → Sorted Q (f <$> l).
Proof.
  intros H Hs. induction Hs as [|x l Hs IH Hh]; [constructor|]. rewrite fmap_cons. constructor.
  - apply IH. intros a b Ha Hb. apply H; by right.
  - destruct Hh as [|y l' Hxy]; [constructor|]. constructor. apply H; [left|right; left|done].
Qed.

(** A scan of the score index meets the members in order. *)
Lemma scan_scores now m p z :
  keyed m → zentries now m p z → item_key <$> scan_prefix now (score_prefix p) m = index_key p <$> ranked z.
Proof.
  intros Hk He.
  assert (∀ e, e ∈ ranked z → f64_ok e.2) as Hok.
  { intros [f s] Hf%ranked_elem. by eapply (ze_ok _ _ _ _ He). }
  apply (Sorted_unique (λ a b : list Z, bytes_le a b = true)).
  - eapply Sorted_fmap, Sorted_merge_sort; [|apply _]. done.
  - eapply Sorted_fmap_in; [|apply ranked_sorted]. intros [f s] [g t] Hf Hg Hle. unfold index_key. cbn [fst snd].
    rewrite bytes_le_app. apply score_name_le; [exact (Hok _ Hf)|exact (Hok _ Hg)|done].
  - apply NoDup_Permutation.
    + by apply (scan_keys_nodup now _ m).
    + assert (∀ l : list (list Z * Z), (∀ e, e ∈ l → f64_ok e.2) → NoDup l → NoDup (index_key p <$> l)) as Hnd.
      { intros l Hl Hn. induction Hn as [|e l Hnot Hn IH]; [constructor|]. rewrite fmap_cons. constructor.
        - intros (e' & E & He')%list_elem_of_fmap. apply index_key_inj in E as <-; [done|apply Hl; left|apply Hl; by right].
        - apply IH. intros e' He'. apply Hl. by right. }
      apply Hnd; [done|]. eapply NoDup_fmap_1, ranked_nodup.
    + intros k. rewrite !list_elem_of_fmap. split.
      * intros (i & -> & ([k' Hi] & [g Hg]%starts_with_spec & Hl)%scan_prefix_elem). pose proof (Hk _ _ Hi) as E. subst k'.
        destruct (proj1 (ze_score _ _ _ _ He g)) as (f & s & Hf & ->).
        { rewrite <- Hg. exists i. by apply live_Some. }
        exists (f, s). split; [done|]. by apply ranked_elem.
      * intros ([f s] & -> & Hf%ranked_elem). unfold index_key. cbn [fst snd].
        destruct (proj2 (ze_score _ _ _ _ He (score_name s f))) as [i [Hi Hx]%live_Some]; [eauto|].
        pose proof (Hk _ _ Hi) as E. exists i. split; [done|]. apply scan_prefix_elem. split_and!; [eauto| |done].
        rewrite E. apply starts_with_app.
Qed.

Lemma member_of_index_key p e :
  f64_ok e.2 → member_of_key (length (score_prefix p)) (index_key p e) = Some e.
Proof.
  intros He. unfold member_of_key, index_key. set (pre := score_prefix p).
  assert (length (score_name e.2 e.1) = 9 + length e.1)%nat as Hl.
  { unfold score_name. rewrite !length_app, length_encode_score. done. }
  rewrite length_app, Hl, (proj2 (Nat.ltb_ge _ _)) by lia. rewrite drop_app_length.
  replace (length pre + 8 + 1)%nat with (length pre + 9)%nat by lia. rewrite drop_app_add. unfold score_name.
  rewrite take_app_length' by (by rewrite length_encode_score). rewrite decode_encode_score by done.
  rewrite (app_assoc (encode_score e.2)), drop_app_length' by (by rewrite length_app, length_encode_score). by destruct e.
Qed.

Lemma mapM_member_of p (l : list (list Z * Z)) items :
  (∀ e, e ∈ l → f64_ok e.2) → item_key <$> items = index_key p <$> l →
  mapM (λ i, member_of_key (length (score_prefix p)) (item_key i)) items = Some l.
Proof.
  revert items. induction l as [|e l IH]; intros [|i items] Hl E; try done. injection E as E1 E2. cbn.
  rewrite E1, member_of_index_key by (apply Hl; left). rewrite (IH items); [done| |done]. intros e' He'. apply Hl. by right.
Qed.

Section RunsAll.
Context {T : Type} `{!TxOps T} {raw : T → gmap (list Z) Item} {ok : T → Prop}.
Context `{HT : !TxLaws T raw ok, HS : !TxScanLaws T raw ok} {now : Z} (Hnow : clock_ok now).
#[local] Abbreviation Runs := (Runs (raw:=raw) (ok:=ok)).

Lemma runs_load_all node m pk legacy id p z q :
  good m → zwritable now m pk legacy id p z →
  Runs (resolved now node) m (Ret (mkNode pk q)) m → (is_Some (live now pk m) → q = p) →
  Runs (load_all_members now node) m (Ret (ranked z)) m.
Proof.
  intros [Hok Hkey] Hw Hr Hq. eapply runs_bind; [exact Hr|]. eapply runs_bind; [by eapply (runs_zset_count Hnow)|].
  cbn [n_public]. destruct (live now pk m) as [i|] eqn:El.
  - rewrite (Hq ltac:(done)). unfold node_bytes. cbn [n_prefix].
    apply (runs_iter_bind (raw:=raw) (ok:=ok) Hnow (score_prefix (prefix_bytes p))). intros it Herr Hit _.
    apply (f_equal (fmap (λ d : list Z * list Z * Z, d.1.1))) in Hit. rewrite <- !list_fmap_compose in Hit.
    change (item_key <$> iter_items it = item_key <$> scan_prefix now (score_prefix (prefix_bytes p)) m) in Hit.
    pose proof (zw_entries _ _ _ _ _ _ _ Hw) as He. rewrite (scan_scores now m _ z) in Hit by done.
    rewrite (mapM_member_of _ (ranked z)), Herr; [|intros [f s] Hf%ranked_elem; by eapply (ze_ok _ _ _ _ He)|done].
    eapply runs_bind; apply runs_ret.
  - destruct Hw as [Hs _ _ _]. rewrite El in Hs. destruct Hs as (_ & _ & ->). rewrite ranked_empty. apply runs_ret.
Qed.

(** The members of a reading or removing command: the node it resolves to, and all members. *)
Lemma runs_members m pk legacy id p z :
  good m → zwritable now m pk legacy id p z →
  ∃ q, Runs (resolved now (mkNode pk (legacy_prefix legacy))) m (Ret (mkNode pk q)) m ∧
    Runs (load_all_members now (mkNode pk q)) m (Ret (ranked z)) m ∧ (is_Some (live now pk m) → q = p).
Proof.
  intros Hg Hw. destruct (runs_resolved Hnow m pk legacy id p z Hw) as (q & Hr & Hq & Hl). exists q. split_and!; [done| |done].
  eapply runs_load_all; [done..| |done]. by eapply (runs_resolved_again Hnow).
Qed.

(** Writing the count after the indexes were rewritten. *)
Lemma zrewritten_live m pk legacy id p z m1 z' :
  zwritable now m pk legacy id p z → zrewritten now (prefix_bytes p) m m1 z' → live now pk m1 = live now pk m.
Proof. intros Hw [_ _ Ho]. apply (zoutside_live _ _ _ _ _ Ho), (zl_public _ _ (zw_layout _ _ _ _ _ _ _ Hw)). Qed.

Lemma runs_zwrite_any m pk legacy id p z m1 z' :
  zwritable now m pk legacy id p z → zrewritten now (prefix_bytes p) m m1 z' → Z.of_nat (size z') < 2 ^ 32 →
  ∃ m', Runs (write_zset_sentinel now pk (Z.of_nat (size z')) p) m1 (Ret ()) m' ∧
    good m' ∧ zstored now m' pk legacy z' ∧
    (∀ k : list Z, k ≠ pk → ¬ zkey (prefix_bytes p) k → m' !! k = m !! k) ∧
    (∀ i, live now pk m' = Some i → prefix_of i legacy = Ok p ∧ item_expire_ts i = (live now pk m ≫= item_expire_ts)).
Proof.
  intros Hw Hr Hs'. pose proof (zrewritten_live _ _ _ _ _ _ _ _ Hw Hr) as Hl. destruct Hw as [Hw Hs He Hlay], Hr as [Hg He1 Ho].
  destruct (runs_write_payload (raw:=raw) (ok:=ok) Hnow TYPE_SORTED_SET pk legacy p (be_bytes 4 (Z.of_nat (size z'))) m1)
    as (i & Hexp & Hrun & Hg' & Hli & ? & ? & ?); [done|done|apply Hlay| |].
  { rewrite Hl. destruct (live now pk m) as [j|]; [by destruct Hw as (_ & ? & _)|by destruct Hw as (_ & ? & _)]. }
  exists (<[pk := i]> m1). split_and!; [done|done| | |].
  - eapply zstored_some with i p. split; try done. destruct He1 as [Hm Hsc Hok]. split; [| |done].
    + intros f. rewrite live_insert_ne; [apply Hm|]. intros ->. apply Hlay. by right; eauto.
    + intros g. rewrite live_insert_ne; [apply Hsc|]. intros ->. apply Hlay. by left; eauto.
  - intros k Hk Hz. rewrite lookup_insert_ne by done. by apply Ho.
  - intros j. rewrite Hli. intros [= <-]. split; [done|]. by rewrite Hexp, Hl.
Qed.

Lemma runs_zwrite m pk legacy id p z m1 z' :
  zwritable now m pk legacy id p z → zrewritten now (prefix_bytes p) m m1 z' → Z.of_nat (size z') < 2 ^ 32 → z' ≠ ∅ →
  ∃ m', Runs (write_zset_sentinel now pk (Z.of_nat (size z')) p) m1 (Ret ()) m' ∧ zupdated now m pk legacy p m' z'.
Proof.
  intros Hw Hr Hs Hne. destruct (runs_zwrite_any m pk legacy id p z m1 z' Hw Hr Hs) as (m' & H & Hg & Hst & Hf & Hk). by exists m'.
Qed.

(** Members changed without a change of their number. *)
Lemma zrewritten_updated m pk legacy id p z m1 z' :
  zwritable now m pk legacy id p z → zrewritten now (prefix_bytes p) m m1 z' → size z' = size z →
  is_Some (live now pk m) → zupdated now m pk legacy p m1 z'.
Proof.
  intros Hw Hr Hsz [i Hi]. pose proof (zrewritten_live _ _ _ _ _ _ _ _ Hw Hr) as Hl.
  destruct Hw as [Hw Hs He Hlay], Hr as [Hg He1 Ho]. rewrite Hi in Hw. destruct Hw as (Hty & Hp & Hc). split; [done| | | |].
  - eapply zstored_some with i p. split; rewrite ?Hl, ?Hsz; done.
  - intros k _ Hk. by apply Ho.
  - intros j. rewrite Hl, Hi. by intros [= <-].
  - intros ->. rewrite map_size_empty in Hsz. symmetry in Hsz. apply map_size_empty_inv in Hsz as ->. right. split; [|done].
    by eapply zstored_some with i p.
Qed.

Lemma runs_zdelete m pk legacy id p z m1 :
  zwritable now m pk legacy id p z → zrewritten now (prefix_bytes p) m m1 ∅ →
  ∃ m', Runs (del pk) m1 (Ret ()) m' ∧ zupdated now m pk legacy p m' ∅.
Proof.
  intros Hw [Hg He1 Ho]. exists (delete pk m1). split; [apply runs_del|]. split; [by apply good_delete| | | |by left; apply live_delete].
  - apply zstored_none, live_delete.
  - intros k Hk Hz. rewrite lookup_delete_ne by done. by apply Ho.
  - intros i. by rewrite live_delete.
Qed.

(** The sentinel after members were removed. *)
Lemma runs_put_count m pk legacy id p z m1 z' :
  zwritable now m pk legacy id p z → zrewritten now (prefix_bytes p) m m1 z' → Z.of_nat (size z') < 2 ^ 32 →
  ∃ m', Runs (put_count now (mkNode pk p) (Z.of_nat (size z'))) m1 (Ret ()) m' ∧ zupdated now m pk legacy p m' z'.
Proof.
  intros Hw Hr Hs. unfold put_count. cbn [n_public n_prefix]. destruct (Z.eqb_spec (Z.of_nat (size z')) 0) as [H0|n].
  - assert (z' = ∅) as -> by (apply map_size_empty_inv; lia). by eapply runs_zdelete.
  - rewrite as_u32_small by lia. eapply runs_zwrite; [done..|]. intros ->. by rewrite map_size_empty in n.
Qed.

(** Without a key there is nothing to put a count on. *)
Lemma runs_put_zero m pk legacy id p z q :
  good m → zwritable now m pk legacy id p z → live now pk m = None →
  ∃ m', Runs (put_count now (mkNode pk q) 0) m (Ret ()) m' ∧ zupdated now m pk legacy p m' z.
Proof.
  intros Hg Hw Hl. assert (z = ∅) as ->. { destruct Hw as [Hs _ _ _]. rewrite Hl in Hs. by destruct Hs as (_ & _ & ?). }
  exists (delete pk m). split; [apply runs_del|]. split; [by apply good_delete| | | |by left; apply live_delete].
  - apply zstored_none, live_delete.
  - intros k Hk _. by rewrite lookup_delete_ne.
  - intros i. by rewrite live_delete.
Qed.

Definition without (gone : list (list Z * Z)) (z : gmap (list Z) Z) : gmap (list Z) Z :=
  foldl (λ z e, delete e.1 z) z gone.

Lemma runs_delete_members p gone m z :
  good m → zentries now m p z → NoDup gone.*1 → (∀ e, e ∈ gone → z !! e.1 = Some e.2) →
  ∃ m', Runs (delete_members p gone) m (Ret ()) m' ∧ zrewritten now p m m' (without gone z).
Proof.
  revert m z. induction gone as [|e gone IH]; intros m z Hg He Hnd Hin.
  { exists m. split; [apply runs_ret|by apply zrewritten_refl]. }
  rewrite fmap_cons in Hnd. apply NoDup_cons in Hnd as [Hnot Hnd].
  destruct (runs_zdel_member (raw:=raw) (ok:=ok) p e m z Hg He (Hin e ltac:(left))) as (m1 & H1 & Hr1).
  destruct (IH m1 (delete e.1 z)) as (m2 & H2 & Hr2); [apply Hr1|apply Hr1|done| |].
  { intros e' He'. rewrite lookup_delete_ne; [apply Hin; by right|]. intros E. apply Hnot. rewrite E. by apply list_elem_of_fmap_2. }
  exists m2. split; [|by eapply zrewritten_trans]. eapply runs_bind; [exact H1|exact H2].
Qed.
End RunsAll.
