(* ===== verification/ZSetSpec.v ===== *)
(** * Sorted set commands as operations on finite maps

    The machine [zstep] on finite maps from members to scores, and that the commands of
    ZSet on one key refine it for every script. What ZADD does for a client that is
    blocked on the key. *)
From S2P Require Import Prelude Bytes Float64 Resp Kv Registry StreamCodec Op Namespace Session Rand Elements ZSet ZSetStore.
Import MapTx.

(** ** The machine *)

Inductive zcmd : Type :=
| CAdd (args : list (list Z))
| CRem (members : list (list Z))
| CIncrBy (increment : Z) (member : list Z)
| CPop (count : Z) (want_min : bool)
| CRemByRank (start stop : Z)
| CRemByScore (min max : list Z)
| CRemByLex (min max : list Z)
| CCard
| CScore (member : list Z)
| CMScore (members : list (list Z))
| CRange (start stop : Z) (with_scores reverse : bool)
| CRank (member : list Z) (reverse : bool)
| CCount (min max : list Z)
| CRangeByScore (min max : list Z) (with_scores : bool) (limit : option (Z * Z)) (reverse : bool)
| CRangeByLex (min max : list Z) (limit : option (Z * Z)) (reverse : bool)
| CLexCount (min max : list Z).

Definition zsize (z : gmap (list Z) Z) : Z := Z.of_nat (size z).

(** A pair of ZADD: the map, the members added and those changed. *)
Definition add_pair (f : ZAddFlags) (score : Z) (member : list Z) (st : gmap (list Z) Z * Z * Z)
  : gmap (list Z) Z * Z * Z :=
  let '(z, added, changed) := st in
  match z !! member with
  | None => if xx f then st else (<[member := score]> z, added + 1, changed)
  | Some old =>
      if nx f || (gt f && negb (is_gt score old)) || (lt f && negb (is_lt score old)) || f64_eq old score then st
      else (<[member := score]> z, added, changed + 1)
  end.

(** A pair with a score that does not parse is skipped; it does not occur in regular scripts. *)
Fixpoint add_pairs (f : ZAddFlags) (pairs : list (list Z)) (st : gmap (list Z) Z * Z * Z) : gmap (list Z) Z * Z * Z :=
  match pairs with
  | score_str :: member :: pairs' =>
      add_pairs f pairs' (match parse_score score_str with Some score => add_pair f score member st | None => st end)
  | _ => st
  end.

Definition zadd_step (args : list (list Z)) (z : gmap (list Z) Z) : result DbResult DbError * gmap (list Z) Z :=
  if bool_decide (args = []) then (Err zadd_arity, z)
  else
    let '(f, pairs) := zadd_flags args no_flags in
    match flags_error f with
    | Some e => (Err e, z)
    | None =>
        if bool_decide (pairs = []) || Nat.odd (length pairs) then (Err zadd_arity, z)
        else
          let '(z', added, changed) := add_pairs f pairs (z, 0, 0) in
          (Ok (RZAdd (if ch f then changed + added else added) None), z')
    end.

Definition rem_members (members : list (list Z)) (z : gmap (list Z) Z) : gmap (list Z) Z :=
  foldl (λ z f, delete f z) z members.

(** A range of members removed, the reply being their number. *)
Definition remove_all (gone : list (list Z * Z)) (z : gmap (list Z) Z) : result DbResult DbError * gmap (list Z) Z :=
  (Ok (RInt (Z.of_nat (length gone))), without gone z).

(** Something computed from two bounds, if both parse. *)
Definition with_bounds {A B E} (parse : list Z → result A E) (min max : list Z) (k : A → A → B) : result B E :=
  match parse min with
  | Err e => Err e
  | Ok a => match parse max with Err e => Err e | Ok b => Ok (k a b) end
  end.

Definition reversed {A} (reverse : bool) (l : list A) : list A := if reverse then rev l else l.

(** The members a range of scores or of names selects. *)
Definition by_score (min max : list Z) (z : gmap (list Z) Z) : result (list (list Z * Z)) DbError :=
  with_bounds parse_float_bound min max (in_score_range (ranked z)).
Definition by_lex (min max : list Z) (z : gmap (list Z) Z) : result (list (list Z * Z)) DbError :=
  with_bounds parse_lex_bound min max (λ a b, List.filter (λ e, lex_in_range a b e.1) (ranked z)).

(** Positions [start] to [stop] of a list, counted from its end when negative. *)
Definition by_rank {A} (start stop : Z) (l : list A) : list A :=
  match range_indexes (Z.of_nat (length l)) start stop with Some (lo, hi) => slice_incl lo hi l | None => [] end.

(** Reply and new contents. *)
Definition zstep (c : zcmd) (z : gmap (list Z) Z) : result DbResult DbError * gmap (list Z) Z :=
  match c with
  | CAdd args => zadd_step args z
  | CRem members => (Ok (RInt (zsize z - zsize (rem_members members z))), rem_members members z)
  | CIncrBy increment member =>
      let score := match z !! member with Some old => f64_add old increment | None => increment end in
      if is_nan score then (Err bad_score, z) else (Ok (RF64 score), <[member := score]> z)
  | CPop count want_min =>
      let popped := if want_min then take (Z.to_nat count) (ranked z)
                    else drop (size z - Z.to_nat count) (ranked z) in
      (Ok (RMembers popped), without popped z)
  | CRemByRank start stop => remove_all (by_rank start stop (ranked z)) z
  | CRemByScore min max => match by_score min max z with Ok gone => remove_all gone z | Err e => (Err e, z) end
  | CRemByLex min max => match by_lex min max z with Ok gone => remove_all gone z | Err e => (Err e, z) end
  | CCard => (Ok (RInt (zsize z)), z)
  | CScore member => (Ok (ROptF64 (z !! member)), z)
  | CMScore members => (Ok (RScores ((λ f, z !! f) <$> members)), z)
  | CRange start stop with_scores reverse =>
      (Ok (RList (flatten_members (by_rank start stop (reversed reverse (ranked z))) with_scores)), z)
  | CRank member reverse => (Ok (ROptInt (rank_of member (reversed reverse (ranked z)) 0)), z)
  | CCount min max => (result_map (λ l, RInt (Z.of_nat (length l))) (by_score min max z), z)
  | CRangeByScore min max with_scores limit reverse =>
      (result_map (λ l, RList (flatten_members (apply_limit limit (reversed reverse l)) with_scores)) (by_score min max z), z)
  | CRangeByLex min max limit reverse =>
      (result_map (λ l, RList (fst <$> apply_limit limit (reversed reverse l))) (by_lex min max z), z)
  | CLexCount min max => (result_map (λ l, RInt (Z.of_nat (length l))) (by_lex min max z), z)
  end.

(** The operation of each command; ZADD as it is when no client waits for the key. *)
Definition zadd_alone {T} `{!TxOps T} (now : Z) (id : list Z) (node : NodeRef) (args : list (list Z)) : DbM T DbResult :=
  r ← zadd_write now id node args;
  mret (match r with
        | (_, None) => RZAdd 0 None
        | (_, Some (f, t)) => RZAdd (if ch f then t_changed t + t_added t else t_added t) None
        end).

Definition zcmd_op {T} `{!TxOps T} (now : Z) (id : list Z) (node : NodeRef) (c : zcmd) : DbM T DbResult :=
  match c with
  | CAdd args => zadd_alone now id node args
  | CRem members => ZRemOp now node members
  | CIncrBy increment member => ZIncrByOp now id node increment member
  | CPop count want_min => ZPopOp now node count want_min
  | CRemByRank start stop => RemRangeByRankOp now node start stop
  | CRemByScore min max => RemRangeByScoreOp now node min max
  | CRemByLex min max => RemRangeByLexOp now node min max
  | CCard => ZCardOp now node
  | CScore member => ZScoreOp now node member
  | CMScore members => ZMScoreOp now node members
  | CRange start stop with_scores reverse => RangeByRankOp now node start stop with_scores reverse
  | CRank member reverse => RankOp now node member reverse
  | CCount min max => ScoreRangeCountOp now node min max
  | CRangeByScore min max with_scores limit reverse => RangeByScoreOp now node min max with_scores limit reverse
  | CRangeByLex min max limit reverse => RangeByLexOp now node min max limit reverse
  | CLexCount min max => LexCountOp now node min max
  end.

(** Members a command may add. *)
Definition zcmd_room (c : zcmd) : Z :=
  match c with CAdd args => Z.of_nat (length args) | CIncrBy _ _ => 1 | _ => 0 end.

Fixpoint pair_members (pairs : list (list Z)) : list (list Z) :=
  match pairs with _ :: member :: pairs' => member :: pair_members pairs' | _ => [] end.
Fixpoint pair_scores (pairs : list (list Z)) : list (list Z) :=
  match pairs with score :: _ :: pairs' => score :: pair_scores pairs' | _ => [] end.

(** The scores of ZADD are numbers, and a ZADD that creates the set names no member twice;
    an increment is a bit pattern and a number of members to pop is not negative. *)
Definition regular (c : zcmd) (z : gmap (list Z) Z) : Prop :=
  match c with
  | CAdd args =>
      let pairs := (zadd_flags args no_flags).2 in
      Forall (λ str, parse_score str ≠ None) (pair_scores pairs) ∧ (z = ∅ → NoDup (pair_members pairs))
  | CIncrBy increment _ => f64_ok increment
  | CPop count _ => 0 ≤ count
  | _ => True
  end.

(** ** Lists *)
Lemma fmap_filter_fst {A B} (p : A → bool) (l : list (A * B)) :
  fst <$> List.filter (λ e, p e.1) l = List.filter p (fst <$> l).
Proof. induction l as [|e l IH]; [done|]. rewrite fmap_cons. cbn [List.filter]. destruct (p e.1); [|done]. by rewrite fmap_cons, IH. Qed.

Lemma fmap_apply_limit {A B} (f : A → B) limit (l : list A) : f <$> apply_limit limit l = apply_limit limit (f <$> l).
Proof.
  unfold apply_limit. destruct limit as [[offset count]|]; [|done]. rewrite length_fmap. destruct (_ || _); [done|].
  cbv zeta. rewrite <- fmap_drop, length_fmap. destruct (_ <? Z.of_nat _); [by rewrite fmap_take|done].
Qed.

Lemma fmap_reversed {A B} (f : A → B) reverse (l : list A) : f <$> reversed reverse l = reversed reverse (f <$> l).
Proof. unfold reversed. destruct reverse; [apply map_rev|done]. Qed.

Lemma length_reversed {A} reverse (l : list A) : length (reversed reverse l) = length l.
Proof. unfold reversed. destruct reverse; [apply length_rev|done]. Qed.

Lemma range_indexes_bounds n start stop lo hi :
  range_indexes n start stop = Some (lo, hi) → 0 ≤ lo ≤ hi ∧ hi < n.
Proof.
  unfold range_indexes. set (s1 := if start <? 0 then start + n else start).
  set (s2 := if s1 <? 0 then 0 else s1). set (e1 := if stop <? 0 then stop + n else stop).
  set (e2 := if n <=? e1 then n - 1 else e1). destruct (Z.ltb_spec e2 s2), (Z.leb_spec n s2); try done.
  cbn. intros [= <- <-]. subst e2 s2. destruct (Z.ltb_spec s1 0), (Z.leb_spec n e1); lia.
Qed.

Lemma rev_slice_incl {A} lo hi (l : list A) :
  0 ≤ lo ≤ hi → hi < Z.of_nat (length l) →
  rev (slice_incl (Z.of_nat (length l) - 1 - hi) (Z.of_nat (length l) - 1 - lo) l) = slice_incl lo hi (rev l).
Proof.
  intros Hlo Hhi. unfold slice_incl. rewrite skipn_rev, firstn_rev, length_take, skipn_firstn_comm. do 2 f_equal; [lia|].
  f_equal. lia.
Qed.

Lemma rev_reverse {A} (l : list A) : rev l = reverse l.
Proof. apply rev_alt. Qed.

Lemma rank_of_found member (l : list (list Z * Z)) i j s :
  NoDup l.*1 → l !! j = Some (member, s) → rank_of member l i = Some (i + Z.of_nat j).
Proof.
  revert i j. induction l as [|e l IH]; intros i [|j] Hnd Hj; try done; rewrite fmap_cons in Hnd; apply NoDup_cons in Hnd as [Hnot Hnd].
  - cbn in Hj |- *. injection Hj as ->. rewrite bool_decide_true by done. f_equal. lia.
  - cbn in Hj |- *. rewrite bool_decide_false.
    + rewrite (IH (i + 1) j) by done. f_equal. lia.
    + intros <-. apply Hnot. apply list_elem_of_lookup_2 in Hj. exact (list_elem_of_fmap_2 fst _ _ Hj).
Qed.

Lemma rank_of_missing member (l : list (list Z * Z)) i : member ∉ l.*1 → rank_of member l i = None.
Proof.
  revert i. induction l as [|e l IH]; intros i Hm; [done|]. rewrite fmap_cons, not_elem_of_cons in Hm. destruct Hm as [Hne Hm].
  cbn. rewrite bool_decide_false by done. by apply IH.
Qed.

Lemma rank_of_rev member (l : list (list Z * Z)) :
  NoDup l.*1 → rank_of member (rev l) 0 = (λ i, Z.of_nat (length l) - 1 - i) <$> rank_of member l 0.
Proof.
  intros Hnd. assert (NoDup (rev l).*1) as Hnd'.
  { rewrite rev_reverse, fmap_reverse. by rewrite reverse_Permutation. }
  destruct (decide (member ∈ l.*1)) as [Hin|Hnot].
  - apply list_elem_of_fmap in Hin as ([f s] & -> & Hin). apply list_elem_of_lookup in Hin as [j Hj]. cbn [fst].
    pose proof (lookup_lt_Some _ _ _ Hj). rewrite (rank_of_found f l 0 j s), (rank_of_found f (rev l) 0 (length l - 1 - j) s); [|done| |done..].
    + cbn. f_equal. lia.
    + rewrite rev_reverse, reverse_lookup by lia. rewrite <- Hj. f_equal. lia.
  - rewrite !rank_of_missing; [done|done|]. by rewrite rev_reverse, fmap_reverse, elem_of_reverse.
Qed.

Lemma by_rank_reversed start stop (l : list (list Z * Z)) (with_scores reverse : bool) :
  match range_indexes (Z.of_nat (length l)) start stop with
  | None => RList []
  | Some (lo, hi) =>
      RList (if reverse
             then flatten_members (rev (slice_incl (Z.of_nat (length l) - 1 - hi) (Z.of_nat (length l) - 1 - lo) l)) with_scores
             else flatten_members (slice_incl lo hi l) with_scores)
  end = RList (flatten_members (by_rank start stop (reversed reverse l)) with_scores).
Proof.
  unfold by_rank. rewrite length_reversed. destruct (range_indexes _ start stop) as [[lo hi]|] eqn:E.
  - apply range_indexes_bounds in E as [Hlo Hhi]. destruct reverse; [|done]. by rewrite rev_slice_incl.
  - unfold flatten_members. by destruct with_scores.
Qed.

(** Reading what the code filters by name. *)
Lemma filter_lex_ranked (min max : list Z) (z : gmap (list Z) Z) :
  filter_lex_range (fst <$> ranked z) min max = result_map (fmap fst) (by_lex min max z).
Proof.
  unfold filter_lex_range, by_lex, with_bounds. destruct (parse_lex_bound min); [|done]. destruct (parse_lex_bound max); [|done].
  cbn. by rewrite fmap_filter_fst.
Qed.

(** Some of the members in order: distinct, with their scores. *)
Definition chosen_from (gone : list (list Z * Z)) (z : gmap (list Z) Z) : Prop :=
  NoDup gone.*1 ∧ ∀ e, e ∈ gone → z !! e.1 = Some e.2.

Lemma sublist_chosen gone z : sublist gone (ranked z) → chosen_from gone z.
Proof.
  intros Hs. split.
  - eapply sublist_NoDup; [apply ranked_nodup|]. by apply fmap_sublist.
  - intros [f s] He. apply ranked_elem. by eapply elem_of_sublist.
Qed.

Lemma sublist_list_filter {A} (p : A → bool) (l : list A) : sublist (List.filter p l) l.
Proof. induction l as [|x l IH]; cbn; [constructor|]. destruct (p x); by constructor. Qed.

Lemma sublist_by_rank {A} start stop (l : list A) : sublist (by_rank start stop l) l.
Proof.
  unfold by_rank. destruct (range_indexes _ start stop) as [[lo hi]|]; [|apply sublist_nil_l]. unfold slice_incl.
  etrans; [apply sublist_take|apply sublist_drop].
Qed.

Lemma zsize_delete (f : list Z) (z : gmap (list Z) Z) : zsize (delete f z) = match z !! f with Some _ => zsize z - 1 | None => zsize z end.
Proof.
  unfold zsize. destruct (z !! f) eqn:E.
  - assert (size z ≠ 0)%nat by (intros H0%map_size_empty_inv; subst; by rewrite lookup_empty in E).
    rewrite map_size_delete, E. lia.
  - by rewrite delete_id.
Qed.
Lemma zsize_insert (f : list Z) (s : Z) (z : gmap (list Z) Z) : zsize (<[f := s]> z) = match z !! f with Some _ => zsize z | None => zsize z + 1 end.
Proof. unfold zsize. rewrite map_size_insert. destruct (z !! f); unfold id; lia. Qed.

Lemma zsize_without gone z : chosen_from gone z → zsize (without gone z) = zsize z - Z.of_nat (length gone).
Proof.
  revert z. induction gone as [|e gone IH]; intros z [Hnd Hin]; [cbn; lia|].
  rewrite fmap_cons in Hnd. apply NoDup_cons in Hnd as [Hnot Hnd]. cbn [without foldl length].
  change (foldl _ (delete e.1 z) gone) with (without gone (delete e.1 z)). rewrite IH.
  - rewrite zsize_delete, (Hin e ltac:(left)). lia.
  - split; [done|]. intros e' He'. rewrite lookup_delete_ne; [apply Hin; by right|]. intros E. apply Hnot. rewrite E.
    by apply list_elem_of_fmap_2.
Qed.

Lemma bool_decide_ext_b (P : Prop) `{!Decision P} (b : bool) : (P ↔ b = true) → b = bool_decide P.
Proof. intros H. apply eq_true_iff_eq. rewrite bool_decide_eq_true. by rewrite H. Qed.

Lemma zsize_nonneg z : 0 ≤ zsize z.
Proof. unfold zsize. lia. Qed.

(** ** Commands one by one *)

Section Refines.
Context {T : Type} `{!TxOps T} {raw : T → gmap (list Z) Item} {ok : T → Prop}.
Context `{HT : !TxLaws T raw ok, HS : !TxScanLaws T raw ok} {now : Z} (Hnow : clock_ok now).
#[local] Abbreviation Runs := (Runs (raw:=raw) (ok:=ok)).

(** What a command does to a sorted set whose prefix is [p]. *)
Definition zrefines_at (c : zcmd) (m : gmap (list Z) Item) (pk legacy id : list Z) (p : ElementPrefix)
    (z : gmap (list Z) Z) : Prop :=
  ∃ m', Runs (zcmd_op now id (mkNode pk (legacy_prefix legacy)) c) m (outcome_of (zstep c z).1) m' ∧
    zupdated now m pk legacy p m' (zstep c z).2.

(** Loading the members, then something that depends on them. *)
Lemma runs_loaded {A} (k : NodeRef → list (list Z * Z) → DbM T A) m pk legacy id p z r m' :
  good m → zwritable now m pk legacy id p z →
  (∀ q, (is_Some (live now pk m) → q = p) → Runs (k (mkNode pk q) (ranked z)) m r m') →
  Runs (node ← resolved now (mkNode pk (legacy_prefix legacy)); entries ← load_all_members now node; k node entries) m r m'.
Proof.
  intros Hg Hw Hk. destruct (runs_members Hnow m pk legacy id p z Hg Hw) as (q & Hr & Hl & Hq).
  eapply runs_bind; [exact Hr|]. eapply runs_bind; [exact Hl|]. by apply Hk.
Qed.

(** Two bounds on scores, then something that depends on the members between them. *)
Lemma runs_by_score {A} (k : list (list Z * Z) → DbM T A) (a b : list Z) z m r m' :
  match by_score a b z with Ok l => Runs (k l) m r m' | Err e => r = Fail e ∧ m' = m end →
  Runs (x ← try_db (parse_float_bound a); y ← try_db (parse_float_bound b); k (in_score_range (ranked z) x y)) m r m'.
Proof.
  unfold by_score, with_bounds. destruct (parse_float_bound a) as [x|e]; [|intros [-> ->]; apply runs_bind_fail, runs_fail].
  intros Hk. eapply runs_bind; [apply runs_ret|].
  destruct (parse_float_bound b) as [y|e]; [|destruct Hk as [-> ->]; apply runs_bind_fail, runs_fail].
  eapply runs_bind; [apply runs_ret|done].
Qed.

(** Commands that reply something about the members in order. *)
Lemma zrefines_read c m pk legacy id p z :
  good m → zwritable now m pk legacy id p z →
  match c with
  | CRange _ _ _ _ | CRank _ _ | CCount _ _ | CRangeByScore _ _ _ _ _ | CRangeByLex _ _ _ _ | CLexCount _ _ => True
  | _ => False
  end → zrefines_at c m pk legacy id p z.
Proof.
  intros Hg Hw Hc. exists m. split; [|destruct c; try done; by eapply zwritable_unchanged].
  destruct c as [| | | | | | | | | |start stop ws rv|f rv|a b|a b ws lim rv|a b lim rv|a b]; try done;
    cbn [zcmd_op zstep fst]; (eapply runs_loaded; [exact Hg|exact Hw|]; intros q _).
  - pose proof (by_rank_reversed start stop (ranked z) ws rv) as E. cbv zeta.
    destruct (range_indexes _ start stop) as [[lo hi]|]; rewrite <- E; apply runs_ret.
  - destruct rv; cbn [reversed]; [rewrite rank_of_rev by apply ranked_nodup|rewrite option_fmap_id]; apply runs_ret.
  - apply (runs_by_score (λ l, mret (RInt (Z.of_nat (length l))))). destruct (by_score a b z); [apply runs_ret|done].
  - apply (runs_by_score (λ l, mret (RList (flatten_members (apply_limit lim (reversed rv l)) ws)))).
    destruct (by_score a b z); [apply runs_ret|done].
  - rewrite filter_lex_ranked. destruct (by_lex a b z) as [l|e]; [|apply runs_bind_fail, runs_fail].
    eapply runs_bind; [apply runs_ret|]. cbn [result_map outcome_of]. rewrite fmap_apply_limit, fmap_reversed. apply runs_ret.
  - rewrite filter_lex_ranked. destruct (by_lex a b z) as [l|e]; [|apply runs_bind_fail, runs_fail].
    eapply runs_bind; [apply runs_ret|]. cbn [result_map outcome_of]. rewrite length_fmap. apply runs_ret.
Qed.

Lemma runs_checked_score i s m : f64_ok s → item_value i = be_bytes 8 s → Runs (checked_score i) m (Ret s) m.
Proof.
  intros Hs Hi. unfold checked_score, stored_score. rewrite Hi, length_be_bytes. cbn [Nat.ltb Nat.leb].
  rewrite take_ge by (by rewrite length_be_bytes). rewrite from_be_be_bytes by (unfold f64_ok in Hs; change (256 ^ Z.of_nat 8) with (2 ^ 64); lia).
  apply runs_ret.
Qed.

Lemma runs_get_score p f m z : zentries now m p z → Runs (get_score now (member_key p f)) m (Ret (z !! f)) m.
Proof.
  intros He. pose proof (zlive_member now p f m z He) as Hl. eapply runs_bind; [by apply runs_get_opt|].
  destruct (live now (member_key p f) m) as [i|].
  - destruct Hl as (s & Hs & Hi). rewrite Hs. eapply runs_bind; [eapply runs_checked_score; [by eapply (ze_ok _ _ _ _ He)|done]|]. apply runs_ret.
  - rewrite Hl. apply runs_ret.
Qed.

Lemma runs_get_scores p fs m z : zentries now m p z → Runs (get_scores now p fs) m (Ret ((λ f, z !! f) <$> fs)) m.
Proof.
  intros He. induction fs as [|f fs IH]; [apply runs_ret|]. eapply runs_bind; [by apply runs_get_score|].
  eapply runs_bind; [exact IH|]. apply runs_ret.
Qed.

Lemma zwritable_absent m pk legacy id p z : zwritable now m pk legacy id p z → live now pk m = None → z = ∅.
Proof. intros [Hw _ _ _] Hl. rewrite Hl in Hw. by destruct Hw as (_ & _ & ?). Qed.

(** ZCARD, ZSCORE and ZMSCORE. *)
Lemma refines_lookups c m pk legacy id p z :
  good m → zwritable now m pk legacy id p z →
  match c with CCard | CScore _ | CMScore _ => True | _ => False end → zrefines_at c m pk legacy id p z.
Proof.
  intros Hg Hw Hc. exists m. split; [|destruct c; try done; by eapply zwritable_unchanged].
  pose proof (runs_zset_count Hnow m pk legacy id p z Hw) as Hcount. destruct (runs_resolved Hnow m pk legacy id p z Hw) as (q & Hr & Hq & _).
  destruct (live now pk m) as [i|] eqn:El.
  - rewrite (Hq ltac:(done)) in Hr. pose proof (zw_entries _ _ _ _ _ _ _ Hw) as He. destruct c; try done; cbn [zcmd_op zstep fst].
    + eapply runs_bind; [exact Hcount|]. apply runs_ret.
    + eapply runs_bind; [exact Hr|]. eapply runs_bind; [exact Hcount|]. eapply runs_bind; [by apply runs_get_score|]. apply runs_ret.
    + eapply runs_bind; [exact Hr|]. eapply runs_bind; [exact Hcount|]. eapply runs_bind; [by apply runs_get_scores|]. apply runs_ret.
  - rewrite (zwritable_absent _ _ _ _ _ _ Hw El). destruct c as [| | | | | | | |f|fs| | | | | |]; try done; cbn [zcmd_op zstep fst].
    + eapply runs_bind; [exact Hcount|]. apply runs_ret.
    + eapply runs_bind; [exact Hr|]. eapply runs_bind; [exact Hcount|]. rewrite lookup_empty. apply runs_ret.
    + eapply runs_bind; [exact Hr|]. eapply runs_bind; [exact Hcount|].
      replace ((λ f, (∅ : gmap (list Z) Z) !! f) <$> fs) with (replicate (length fs) (None : option Z)); [apply runs_ret|].
      clear. induction fs as [|f fs IH]; [done|]. cbn [length replicate]. rewrite IH. done.
Qed.

(** Members removed and the count put right. *)
Lemma runs_remove_chosen gone m pk legacy id p z q :
  good m → zwritable now m pk legacy id p z → chosen_from gone z → (is_Some (live now pk m) → q = p) →
  ∃ m1 m', Runs (delete_members (node_bytes (mkNode pk q)) gone) m (Ret ()) m1 ∧
    Runs (zset_count now pk) m1 (Ret (match live now pk m with Some _ => Some (zsize z) | None => None end)) m1 ∧
    Runs (put_count now (mkNode pk q) (zsize z - Z.of_nat (length gone))) m1 (Ret ()) m' ∧
    zupdated now m pk legacy p m' (without gone z).
Proof.
  intros Hg Hw Hch Hq. pose proof (zsize_without gone z Hch) as Hsz. destruct (live now pk m) as [i|] eqn:El.
  - rewrite (Hq ltac:(done)) in *. unfold node_bytes. cbn [n_prefix]. destruct Hch as [Hnd Hin].
    destruct (runs_delete_members (raw:=raw) (ok:=ok) (now:=now) (prefix_bytes p) gone m z) as (m1 & H1 & Hr1); [done|apply Hw|done..|].
    destruct (runs_put_count (raw:=raw) (ok:=ok) Hnow m pk legacy id p z m1 (without gone z)) as (m2 & H2 & Hu); [done..| |].
    { fold (zsize (without gone z)). pose proof (zw_size _ _ _ _ _ _ _ Hw). unfold zsize in *. lia. }
    exists m1, m2. fold (zsize (without gone z)) in H2. rewrite Hsz in H2. split_and!; [done| |done..].
    pose proof (zrewritten_live (now:=now) _ _ _ _ _ _ _ _ Hw Hr1) as Hl.
    destruct Hw as [Hs Hsize _ _]. rewrite El in Hs. destruct Hs as (Hty & _ & Hc).
    eapply runs_bind; [apply runs_caught; eapply (runs_read_count Hnow); [by rewrite Hl|done..|]|apply runs_ret]. lia.
  - pose proof (zwritable_absent _ _ _ _ _ _ Hw El) as ->.
    assert (gone = []) as ->.
    { destruct Hch as [_ Hin]. destruct gone as [|e gone]; [done|]. specialize (Hin e ltac:(left)). by rewrite lookup_empty in Hin. }
    destruct (runs_put_zero (raw:=raw) (ok:=ok) (now:=now) m pk legacy id p ∅ q) as (m1 & H1 & Hu); [done..|].
    exists m, m1. split_and!; [apply runs_ret| |done|done].
    pose proof (runs_zset_count Hnow m pk legacy id p ∅ Hw) as Hcount. by rewrite El in Hcount.
Qed.

Lemma runs_remove_filtered gone m pk legacy id p z q :
  good m → zwritable now m pk legacy id p z → chosen_from gone z → (is_Some (live now pk m) → q = p) →
  ∃ m', Runs (remove_filtered now (mkNode pk q) gone) m (Ret (RInt (Z.of_nat (length gone)))) m' ∧
    zupdated now m pk legacy p m' (without gone z).
Proof.
  intros Hg Hw Hch Hq. destruct gone as [|e gone].
  { exists m. split; [|by eapply zwritable_unchanged]. eapply runs_bind; apply runs_ret. }
  destruct (runs_remove_chosen (e :: gone) m pk legacy id p z q) as (m1 & m' & H1 & H2 & H3 & Hu); [done..|].
  exists m'. split; [|done]. eapply runs_bind; [exact H1|]. cbv zeta. rewrite (proj2 (Z.eqb_neq _ 0)) by (cbn [length]; lia).
  eapply runs_bind; [exact H2|]. destruct (live now pk m) eqn:El.
  - eapply runs_bind; [exact H3|]. apply runs_ret.
  - destruct Hch as [_ Hin]. specialize (Hin e ltac:(left)). rewrite (zwritable_absent _ _ _ _ _ _ Hw El) in Hin. by rewrite lookup_empty in Hin.
Qed.

Lemma refines_rem_range c m pk legacy id p z :
  good m → zwritable now m pk legacy id p z →
  match c with CRemByRank _ _ | CRemByScore _ _ | CRemByLex _ _ => True | _ => False end → zrefines_at c m pk legacy id p z.
Proof.
  intros Hg Hw Hc. destruct (runs_members Hnow m pk legacy id p z Hg Hw) as (q & Hr & Hl & Hq).
  assert (∀ (op : NodeRef → list (list Z * Z) → DbM T DbResult) r m',
    Runs (op (mkNode pk q) (ranked z)) m r m' →
    Runs (node ← resolved now (mkNode pk (legacy_prefix legacy)); entries ← load_all_members now node; op node entries) m r m') as Hop.
  { intros op r m' Hrun. eapply runs_bind; [exact Hr|]. by eapply runs_bind; [exact Hl|]. }
  pose proof (zwritable_unchanged now m pk legacy id p z Hg Hw) as Hsame.
  destruct c as [| | | |start stop|a b|a b| | | | | | | | |]; try done; unfold zrefines_at; cbn [zcmd_op zstep fst snd].
  - pose proof (sublist_chosen _ z (sublist_by_rank start stop (ranked z))) as Hch. unfold by_rank in *.
    destruct (range_indexes _ start stop) as [[lo hi]|] eqn:E.
    + destruct (runs_remove_chosen (slice_incl lo hi (ranked z)) m pk legacy id p z q) as (m1 & m' & H1 & _ & H3 & Hu); [done..|].
      exists m'. split; [|done]. apply Hop. cbv zeta. rewrite E, ranked_length. eapply runs_bind; [exact H1|].
      eapply runs_bind; [exact H3|]. apply runs_ret.
    + exists m. split; [|done]. apply Hop. cbv zeta. rewrite E. apply runs_ret.
  - destruct (by_score a b z) as [gone|e] eqn:E.
    + assert (chosen_from gone z) as Hch.
      { apply sublist_chosen. unfold by_score, with_bounds in E. destruct (parse_float_bound a), (parse_float_bound b); try done.
        injection E as <-. apply sublist_list_filter. }
      destruct (runs_remove_filtered gone m pk legacy id p z q) as (m' & H1 & Hu); [done..|]. exists m'. split; [|done].
      apply Hop. apply (runs_by_score (remove_filtered now (mkNode pk q))). by rewrite E.
    + exists m. split; [|done]. apply Hop. apply (runs_by_score (remove_filtered now (mkNode pk q))). by rewrite E.
  - destruct (by_lex a b z) as [gone|e] eqn:E.
    + destruct (runs_remove_filtered gone m pk legacy id p z q) as (m' & H1 & Hu); [done..| |done|].
      { apply sublist_chosen. unfold by_lex, with_bounds in E. destruct (parse_lex_bound a), (parse_lex_bound b); try done.
        injection E as <-. apply sublist_list_filter. }
      exists m'. split; [|done]. apply Hop. rewrite filter_lex_ranked, E. eapply runs_bind; [apply runs_ret|].
      replace (List.filter (λ e, bool_decide (e.1 ∈ gone.*1)) (ranked z)) with gone; [done|].
      unfold by_lex, with_bounds in E. destruct (parse_lex_bound a) as [x|], (parse_lex_bound b) as [y|]; try done. injection E as <-.
      apply List.filter_ext_in. intros e He. apply list_elem_of_In in He. rewrite fmap_filter_fst.
      apply bool_decide_ext_b. rewrite list_elem_of_In, filter_In, <- list_elem_of_In.
      split; [intros [_ H]; exact H|intros H; split; [by apply list_elem_of_fmap_2|exact H]].
    + exists m. split; [|done]. apply Hop. rewrite filter_lex_ranked, E. apply runs_bind_fail, runs_fail.
Qed.

Lemma zrefines_pop count want_min m pk legacy id p z :
  good m → zwritable now m pk legacy id p z → 0 ≤ count → zrefines_at (CPop count want_min) m pk legacy id p z.
Proof.
  intros Hg Hw Hcount. destruct (runs_members Hnow m pk legacy id p z Hg Hw) as (q & Hr & Hl & Hq).
  unfold zrefines_at. cbn [zcmd_op zstep fst snd].
  set (popped := if want_min then take (Z.to_nat count) (ranked z) else drop (size z - Z.to_nat count) (ranked z)).
  assert (Z.of_nat (length popped) = Z.min count (zsize z)) as Hlen.
  { unfold popped, zsize. destruct want_min; rewrite ?length_take, ?length_drop, ranked_length; lia. }
  destruct (runs_remove_chosen popped m pk legacy id p z q) as (m1 & m' & H1 & _ & H3 & Hu); [done..| |done|].
  { apply sublist_chosen. unfold popped. destruct want_min; [apply sublist_take|apply sublist_drop]. }
  exists m'. split; [|done]. eapply runs_bind; [exact Hr|]. eapply runs_bind; [exact Hl|]. cbv zeta. rewrite ranked_length.
  fold (zsize z). rewrite <- Hlen.
  replace (if want_min then take (Z.to_nat (Z.of_nat (length popped))) (ranked z)
           else drop (size z - Z.to_nat (Z.of_nat (length popped))) (ranked z)) with popped.
  - eapply runs_bind; [exact H1|]. eapply runs_bind; [exact H3|]. apply runs_ret.
  - rewrite Nat2Z.id. pose proof (ranked_length z). unfold popped, zsize in *. destruct want_min.
    + rewrite length_take, H. destruct (Nat.min_spec (Z.to_nat count) (size z)) as [[? ->]|[? ->]]; [done|].
      rewrite !take_ge by lia. done.
    + f_equal. rewrite length_drop, H. lia.
Qed.

Lemma rem_members_cons f fs z : rem_members (f :: fs) z = rem_members fs (delete f z).
Proof. done. Qed.

Lemma zrem_members_size fs z : zsize (rem_members fs z) ≤ zsize z.
Proof.
  revert z. induction fs as [|f fs IH]; intros z; [done|]. rewrite rem_members_cons. specialize (IH (delete f z)).
  pose proof (zsize_delete f z). destruct (z !! f); lia.
Qed.

Lemma runs_zrem_loop p fs m z removed :
  good m → zentries now m p z → zsize z < 2 ^ 32 →
  ∃ m', Runs (zrem_loop now p fs (zsize z) removed) m
          (Ret (zsize (rem_members fs z), removed + (zsize z - zsize (rem_members fs z)))) m' ∧
    zrewritten now p m m' (rem_members fs z).
Proof.
  revert m z removed. induction fs as [|f fs IH]; intros m z removed Hg He Hsz.
  { exists m. split; [|by apply zrewritten_refl]. rewrite Z.sub_diag, Z.add_0_r. apply runs_ret. }
  rewrite rem_members_cons. pose proof (zsize_delete f z) as Hd. pose proof (zsize_nonneg (delete f z)) as Hnn.
  destruct (z !! f) as [s|] eqn:Hf.
  - destruct (runs_zdel_member (raw:=raw) (ok:=ok) p (f, s) m z Hg He Hf) as (m1 & H1 & Hr1).
    destruct (IH m1 (delete f z) (removed + 1)) as (m2 & H2 & Hr2); [apply Hr1|apply Hr1|lia|].
    exists m2. split; [|by eapply zrewritten_trans]. eapply runs_bind; [by apply runs_get_score|]. rewrite Hf.
    eapply runs_bind; [exact H1|]. rewrite as_u32_small by lia. rewrite <- Hd. 
    replace (removed + (zsize z - _)) with (removed + 1 + (zsize (delete f z) - zsize (rem_members fs (delete f z)))) by lia. exact H2.
  - rewrite delete_id in * by done. destruct (IH m z removed) as (m2 & H2 & Hr2); [done..|]. exists m2. split; [|done].
    eapply runs_bind; [by apply runs_get_score|]. by rewrite Hf.
Qed.

Lemma zrem_members_empty fs : rem_members fs ∅ = ∅.
Proof. induction fs as [|f fs IH]; [done|]. by rewrite rem_members_cons, delete_empty. Qed.

Lemma zrefines_rem fs m pk legacy id p z :
  good m → zwritable now m pk legacy id p z → zrefines_at (CRem fs) m pk legacy id p z.
Proof.
  intros Hg Hw. unfold zrefines_at. cbn [zcmd_op zstep fst snd].
  pose proof (runs_zset_count Hnow m pk legacy id p z Hw) as Hcount. destruct (runs_resolved Hnow m pk legacy id p z Hw) as (q & Hr & Hq & _).
  destruct (live now pk m) as [i|] eqn:El.
  - rewrite (Hq ltac:(done)) in Hr. pose proof (zw_size _ _ _ _ _ _ _ Hw) as Hsz. fold (zsize z) in Hsz.
    destruct (runs_zrem_loop (prefix_bytes p) fs m z 0) as (m1 & H1 & Hr1); [done|apply Hw|done|].
    pose proof (zrem_members_size fs z). destruct (runs_put_count (raw:=raw) (ok:=ok) Hnow m pk legacy id p z m1 (rem_members fs z)) as (m2 & H2 & Hu);
      [done..|unfold zsize in *; lia|].
    exists m2. split; [|done]. eapply runs_bind; [exact Hr|]. eapply runs_bind; [exact Hcount|]. eapply runs_bind; [exact H1|].
    eapply runs_bind; [exact H2|]. apply runs_ret.
  - pose proof (zwritable_absent _ _ _ _ _ _ Hw El) as ->. rewrite zrem_members_empty. exists m. split; [|by eapply zwritable_unchanged].
    eapply runs_bind; [exact Hr|]. eapply runs_bind; [exact Hcount|]. apply runs_ret.
Qed.

Lemma zrefines_incrby increment f m pk legacy id p z :
  good m → zwritable now m pk legacy id p z → f64_ok increment → zsize z + 1 < 2 ^ 32 →
  zrefines_at (CIncrBy increment f) m pk legacy id p z.
Proof.
  intros Hg Hw Hok Hroom. unfold zrefines_at. cbn [zcmd_op zstep fst snd].
  pose proof (runs_zset_count Hnow m pk legacy id p z Hw) as Hcount.
  pose proof (runs_resolved_for_write Hnow m pk legacy id p z Hw) as Hr. pose proof (zw_entries _ _ _ _ _ _ _ Hw) as He.
  pose proof (zlive_member now (prefix_bytes p) f m z He) as Hf. pose proof (zwritable_unchanged now m pk legacy id p z Hg Hw) as Hsame.
  pose proof (zsize_nonneg z) as Hnn. destruct (live now (member_key (prefix_bytes p) f) m) as [i|] eqn:Em.
  - destruct Hf as (s & Hs & Hi). rewrite Hs. pose proof (ze_ok _ _ _ _ He f s Hs) as Hsok.
    pose proof (runs_checked_score i s m Hsok Hi) as Hck. destruct (is_nan (f64_add s increment)) eqn:En.
    + exists m. split; [|done]. eapply runs_bind; [exact Hr|]. eapply runs_bind; [exact Hcount|].
      eapply runs_bind; [by apply runs_get_opt|]. unfold node_bytes. cbn [n_prefix]. rewrite Em.
      eapply runs_bind; [exact Hck|]. cbv zeta. rewrite En. apply runs_fail.
    + destruct (runs_change_member (raw:=raw) (ok:=ok) Hnow (prefix_bytes p) s (f64_add s increment) f m z) as (m1 & m2 & H1 & H2 & Hr2);
        [apply f64_ok_add|done..|].
      exists m2. split.
      * eapply runs_bind; [exact Hr|]. eapply runs_bind; [exact Hcount|]. eapply runs_bind; [by apply runs_get_opt|].
        unfold node_bytes. cbn [n_prefix]. rewrite Em. eapply runs_bind; [exact Hck|]. cbv zeta. rewrite En.
        eapply runs_bind; [exact H1|]. eapply runs_bind; [exact H2|]. apply runs_ret.
      * eapply zrewritten_updated; [done..| |].
        -- pose proof (zsize_insert f (f64_add s increment) z) as Hz. rewrite Hs in Hz. apply Nat2Z.inj. exact Hz.
        -- destruct (live now pk m) eqn:El; [done|]. rewrite (zwritable_absent _ _ _ _ _ _ Hw El) in Hs. by rewrite lookup_empty in Hs.
  - rewrite Hf. destruct (is_nan increment) eqn:En.
    + exists m. split; [|done]. eapply runs_bind; [exact Hr|]. eapply runs_bind; [exact Hcount|].
      eapply runs_bind; [by apply runs_get_opt|]. unfold node_bytes. cbn [n_prefix]. rewrite Em, En. apply runs_fail.
    + destruct (runs_add_member (raw:=raw) (ok:=ok) Hnow (prefix_bytes p) increment f m z) as (m1 & H1 & Hr1); [done..|].
      pose proof (zsize_insert f increment z) as Hz. rewrite Hf in Hz.
      destruct (runs_zwrite (raw:=raw) (ok:=ok) Hnow m pk legacy id p z m1 (<[f := increment]> z)) as (m2 & H2 & Hu);
        [done..|unfold zsize in *; lia|apply insert_non_empty|].
      fold (zsize (<[f := increment]> z)) in H2. rewrite Hz in H2.
      exists m2. split; [|done]. eapply runs_bind; [exact Hr|]. eapply runs_bind; [exact Hcount|].
      eapply runs_bind; [by apply runs_get_opt|]. unfold node_bytes. cbn [n_prefix n_public]. rewrite Em, En.
      eapply runs_bind; [exact H1|].
      replace (match match live now pk m with Some _ => Some (Z.of_nat (size z)) | None => None end with
               | Some c => as_u32 (c + 1) | None => 1 end) with (zsize z + 1); [eapply runs_bind; [exact H2|apply runs_ret]|].
      destruct (live now pk m) eqn:El; [fold (zsize z); by rewrite as_u32_small by lia|].
      by rewrite (zwritable_absent _ _ _ _ _ _ Hw El).
Qed.

(** *** ZADD *)
Lemma parse_score_ok str s : parse_score str = Some s → f64_ok s.
Proof.
  unfold parse_score. destruct (utf8_valid str); [|done]. destruct (f64_from_str str) as [t|] eqn:E; [|done].
  destruct (is_nan t); [done|]. intros [= <-]. by eapply f64_ok_from_str.
Qed.

(** A pair, on a key that is there or for a member that is not. *)
Lemma runs_zadd_pair p f is_new s g m z added changed :
  good m → zentries now m p z → f64_ok s → zsize z + 1 < 2 ^ 32 → (is_new = true → z !! g = None) →
  let '(z', added', changed') := add_pair f s g (z, added, changed) in
  ∃ m', Runs (zadd_pair now p f is_new s g (mkTally (zsize z) added changed)) m (Ret (mkTally (zsize z') added' changed')) m' ∧
    zrewritten now p m m' z'.
Proof.
  intros Hg He Hs Hroom Hnew. unfold add_pair. pose proof (zlive_member now p g m z He) as Hl. pose proof (zsize_nonneg z) as Hnn.
  pose proof (zrewritten_refl now p m z Hg He) as Hsame.
  assert (∀ (op : option Item → DbM T Tally) r m', Runs (op (live now (member_key p g) m)) m r m' →
    Runs (old ← get_opt now (member_key p g); op old) m r m') as Hop.
  { intros op r m' Hrun. eapply runs_bind; [by apply runs_get_opt|done]. }
  destruct (live now (member_key p g) m) as [i|] eqn:El.
  - destruct Hl as (old & Hold & Hi). rewrite Hold in *. destruct is_new; [by specialize (Hnew eq_refl)|].
    pose proof (runs_checked_score i old m (ze_ok _ _ _ _ He g old Hold) Hi) as Hck.
    destruct (nx f) eqn:Enx; cbn [orb].
    { exists m. split; [|done]. apply Hop. cbn beta iota. rewrite Enx. apply runs_ret. }
    destruct (gt f && negb (is_gt s old)) eqn:Egt; cbn [orb].
    { exists m. split; [|done]. apply Hop. cbn beta iota. rewrite Enx. eapply runs_bind; [exact Hck|]. rewrite Egt. apply runs_ret. }
    destruct (lt f && negb (is_lt s old)) eqn:Elt; cbn [orb].
    { exists m. split; [|done]. apply Hop. cbn beta iota. rewrite Enx. eapply runs_bind; [exact Hck|]. rewrite Egt, Elt. apply runs_ret. }
    destruct (f64_eq old s) eqn:Eeq.
    { exists m. split; [|done]. apply Hop. cbn beta iota. rewrite Enx. eapply runs_bind; [exact Hck|]. rewrite Egt, Elt, Eeq. apply runs_ret. }
    destruct (runs_change_member (raw:=raw) (ok:=ok) Hnow p old s g m z) as (m1 & m2 & H1 & H2 & Hr2); [done..|].
    exists m2. split; [|done]. apply Hop. cbn beta iota. rewrite Enx. eapply runs_bind; [exact Hck|]. rewrite Egt, Elt, Eeq.
    eapply runs_bind; [exact H1|]. eapply runs_bind; [exact H2|]. cbn [t_count t_added t_changed].
    rewrite zsize_insert, Hold. apply runs_ret.
  - rewrite Hl. destruct (xx f) eqn:Exx.
    { exists m. split; [|done]. apply Hop. cbn beta iota. rewrite Exx. apply runs_ret. }
    destruct (runs_add_member (raw:=raw) (ok:=ok) Hnow p s g m z) as (m1 & H1 & Hr1); [done..|].
    exists m1. split; [|done]. apply Hop. cbn beta iota. rewrite Exx. eapply runs_bind; [exact H1|]. cbn [t_count t_added t_changed].
    rewrite zsize_insert, Hl, as_u32_small by lia. apply runs_ret.
Qed.

Lemma add_pair_bounds f s g z added changed :
  let '(z', added', changed') := add_pair f s g (z, added, changed) in
  added ≤ added' ∧ changed ≤ changed' ∧ zsize z' ≤ zsize z + 1 ∧ (added' = added → changed' = changed → z' = z) ∧
  (∀ h, h ≠ g → z' !! h = z !! h).
Proof.
  unfold add_pair. pose proof (zsize_insert g s z) as Hz. destruct (z !! g) as [old|] eqn:E.
  - destruct (_ || f64_eq old s); split_and!; try lia; try done. intros h Hne. by rewrite lookup_insert_ne.
  - destruct (xx f); split_and!; try lia; try done. intros h Hne. by rewrite lookup_insert_ne.
Qed.

Lemma add_pairs_bounds f pairs z added changed :
  let '(z', added', changed') := add_pairs f pairs (z, added, changed) in
  added ≤ added' ∧ changed ≤ changed' ∧ zsize z' ≤ zsize z + Z.of_nat (length pairs) ∧ (added' = added → changed' = changed → z' = z).
Proof.
  revert z added changed. induction pairs as [| |str g pairs IH] using list_pair_ind; intros z added changed; cbn [add_pairs length]; try (split_and!; [lia..|done]).
  destruct (parse_score str) as [s|].
  - pose proof (add_pair_bounds f s g z added changed) as H1. destruct (add_pair f s g (z, added, changed)) as [[z1 a1] c1].
    destruct H1 as (Ha & Hc & Hz & Hsame & _). specialize (IH z1 a1 c1). destruct (add_pairs f pairs (z1, a1, c1)) as [[z2 a2] c2].
    destruct IH as (Ha2 & Hc2 & Hz2 & Hsame2). split_and!; [lia..|]. intros -> ->. rewrite Hsame2 by lia. apply Hsame; lia.
  - specialize (IH z added changed). destruct (add_pairs f pairs (z, added, changed)) as [[z2 a2] c2].
    destruct IH as (Ha2 & Hc2 & Hz2 & Hsame2). split_and!; [lia..|done].
Qed.

Lemma runs_zadd_loop p f is_new pairs m z added changed :
  good m → zentries now m p z → Forall (λ str, parse_score str ≠ None) (pair_scores pairs) →
  zsize z + Z.of_nat (length pairs) < 2 ^ 32 →
  (is_new = true → NoDup (pair_members pairs) ∧ ∀ g, g ∈ pair_members pairs → z !! g = None) →
  let '(z', added', changed') := add_pairs f pairs (z, added, changed) in
  ∃ m', Runs (zadd_loop now p f is_new pairs (mkTally (zsize z) added changed)) m (Ret (mkTally (zsize z') added' changed')) m' ∧
    zrewritten now p m m' z'.
Proof.
  revert m z added changed. induction pairs as [| |str g pairs IH] using list_pair_ind; intros m z added changed Hg He Hsc Hroom Hnew;
    cbn [add_pairs zadd_loop pair_members pair_scores length] in *;
    [exists m; split; [apply runs_ret|by apply zrewritten_refl]..|].
  apply Forall_cons in Hsc as [Hstr Hsc]. destruct (parse_score str) as [s|] eqn:Es; [|done].
  pose proof (add_pair_bounds f s g z added changed) as Hb.
  pose proof (runs_zadd_pair p f is_new s g m z added changed Hg He (parse_score_ok _ _ Es) ltac:(lia)) as Hp.
  destruct (add_pair f s g (z, added, changed)) as [[z1 a1] c1]. destruct Hb as (_ & _ & Hz1 & _ & Hother).
  destruct Hp as (m1 & H1 & Hr1). { intros ->. destruct (Hnew eq_refl) as [_ Hin]. apply Hin. left. }
  specialize (IH m1 z1 a1 c1). destruct (add_pairs f pairs (z1, a1, c1)) as [[z2 a2] c2].
  destruct IH as (m2 & H2 & Hr2); [apply Hr1|apply Hr1|done|lia| |].
  { intros ->. destruct (Hnew eq_refl) as [[Hnot Hnd]%NoDup_cons Hin]. split; [done|]. intros h Hh.
    rewrite Hother; [apply Hin; by right|]. by intros ->. }
  exists m2. split; [|by eapply zrewritten_trans]. eapply runs_bind; [exact H1|exact H2].
Qed.

(** Nothing written: the value is as it was. *)
Lemma zrewritten_same m pk legacy id p z m1 :
  zwritable now m pk legacy id p z → zrewritten now (prefix_bytes p) m m1 z → zupdated now m pk legacy p m1 z.
Proof.
  intros Hw Hr. destruct (live now pk m) as [i|] eqn:El; [by eapply zrewritten_updated|].
  pose proof (zrewritten_live (now:=now) _ _ _ _ _ _ _ _ Hw Hr) as Hl. rewrite El in Hl.
  pose proof (zwritable_absent _ _ _ _ _ _ Hw El) as ->. destruct Hr as [Hg _ Ho]. split; [done|by apply zstored_none| | |by left].
  - intros k _ Hk. by apply Ho.
  - intros i. by rewrite Hl.
Qed.

(** With XX a missing set stays missing. *)
Lemma add_pairs_xx f pairs added changed : xx f = true → add_pairs f pairs (∅, added, changed) = (∅, added, changed).
Proof.
  intros Hx. induction pairs as [| |str g pairs IH] using list_pair_ind; cbn [add_pairs]; [done..|].
  destruct (parse_score str); [|done]. unfold add_pair. by rewrite lookup_empty, Hx.
Qed.

Lemma zadd_flags_length args f : (length (zadd_flags args f).2 ≤ length args)%nat.
Proof.
  revert f. induction args as [|a args IH]; intros f; cbn [zadd_flags]; [done|].
  repeat (destruct (eq_ignore_case a _); [etrans; [apply IH|cbn [length]; lia]|]). done.
Qed.

(** A ZADD that adds or changes a member leaves one. *)
Lemma add_pairs_nonempty f pairs z a c :
  let '(z', a', c') := add_pairs f pairs (z, a, c) in z ≠ ∅ ∨ a < a' ∨ c < c' → z' ≠ ∅.
Proof.
  revert z a c. induction pairs as [| |str g pairs IH] using list_pair_ind; intros z a c; cbn [add_pairs];
    [intros [?|[?|?]]; done || lia..|].
  destruct (parse_score str) as [s|]; [|apply IH]. unfold add_pair.
  destruct (z !! g) as [old|]; [destruct (_ || f64_eq old s)|destruct (xx f)]; try apply IH;
    pose proof (insert_non_empty z g s) as Hne.
  - specialize (IH (<[g := s]> z) a (c + 1)). destruct (add_pairs _ _ _) as [[z' a'] c']. auto.
  - specialize (IH (<[g := s]> z) (a + 1) c). destruct (add_pairs _ _ _) as [[z' a'] c']. auto.
Qed.

(** The write of ZADD: the node it resolves to, its tally, and the set it leaves. *)
Lemma runs_zadd_write args m pk legacy id p z :
  good m → zwritable now m pk legacy id p z → regular (CAdd args) z → zsize z + Z.of_nat (length args) < 2 ^ 32 →
  let '(f, pairs) := zadd_flags args no_flags in
  let '(z', added, changed) := add_pairs f pairs (z, 0, 0) in
  args ≠ [] → flags_error f = None → pairs ≠ [] → Nat.odd (length pairs) = false →
  ∃ m' r, Runs (zadd_write now id (mkNode pk (legacy_prefix legacy)) args) m (Ret (mkNode pk p, r)) m' ∧
    zupdated now m pk legacy p m' z' ∧
    match r with None => added = 0 ∧ changed = 0 | Some (f', t) => f' = f ∧ t = mkTally (zsize z') added changed end.
Proof.
  intros Hg Hw Hreg Hroom. pose proof (zadd_flags_length args no_flags) as Hlen. unfold regular in Hreg.
  destruct (zadd_flags args no_flags) as [f pairs] eqn:Ef. cbn [snd] in *. destruct Hreg as [Hsc Hnd].
  pose proof (runs_zset_count Hnow m pk legacy id p z Hw) as Hcount. pose proof (runs_resolved_for_write Hnow m pk legacy id p z Hw) as Hr.
  pose proof (add_pairs_bounds f pairs z 0 0) as Hb.
  pose proof (runs_zadd_loop (prefix_bytes p) f (bool_decide (live now pk m = None)) pairs m z 0 0 Hg (zw_entries _ _ _ _ _ _ _ Hw) Hsc ltac:(lia)) as Hloop.
  destruct (add_pairs f pairs (z, 0, 0)) as [[z' added] changed] eqn:Ez. destruct Hb as (Ha & Hc & Hz & Hsame).
  pose proof (add_pairs_nonempty f pairs z 0 0) as Hne. rewrite Ez in Hne. intros Hargs Herr Hpairs Hodd.
  assert (∀ r m', Runs (zadd_apply now (mkNode pk p) f pairs) m r m' → Runs (zadd_write now id (mkNode pk (legacy_prefix legacy)) args) m r m') as Hop.
  { intros r m' Hrun. eapply runs_bind; [exact Hr|]. rewrite (bool_decide_false (args = [])) by done. rewrite Ef, Herr.
    rewrite (bool_decide_false (pairs = [])), Hodd by done. exact Hrun. }
  destruct (decide (live now pk m = None ∧ xx f = true)) as [[El Hx]|Hnot].
  - pose proof (zwritable_absent _ _ _ _ _ _ Hw El) as ->. rewrite add_pairs_xx in Ez by done. injection Ez as <- <- <-.
    exists m, None. split_and!; [|by eapply zwritable_unchanged|done..]. apply Hop. eapply runs_bind; [exact Hcount|].
    rewrite El, Hx. apply runs_ret.
  - destruct Hloop as (m1 & H1 & Hr1).
    { intros El%bool_decide_eq_true. pose proof (zwritable_absent _ _ _ _ _ _ Hw El) as ->. split; [by apply Hnd|done]. }
    assert (∃ m2, Runs (if (0 <? added) || (0 <? changed) then write_zset_sentinel now pk (zsize z') p else mret ()) m1 (Ret ()) m2 ∧
      zupdated now m pk legacy p m2 z') as (m2 & H2 & Hu).
    { destruct (Z.ltb_spec 0 added), (Z.ltb_spec 0 changed); cbn [orb];
        try (eapply (runs_zwrite Hnow); [done..|unfold zsize in *; lia|by apply Hne; auto]).
      exists m1. split; [apply runs_ret|]. rewrite Hsame in * by lia. by eapply zrewritten_same. }
    exists m2, (Some (f, mkTally (zsize z') added changed)). split_and!; [|done..]. apply Hop. eapply runs_bind; [exact Hcount|].
    destruct (live now pk m) eqn:El; cbn [default from_option].
    + rewrite (bool_decide_false (Some _ = None)) in * by done. eapply runs_bind; [exact H1|]. cbn [t_added t_changed t_count].
      eapply runs_bind; [exact H2|]. apply runs_ret.
    + rewrite bool_decide_true in * by done. destruct (xx f) eqn:Hx; [by destruct Hnot|]. cbn [andb].
      pose proof (zwritable_absent _ _ _ _ _ _ Hw El) as ->. eapply runs_bind; [exact H1|]. cbn [t_added t_changed t_count].
      eapply runs_bind; [exact H2|]. apply runs_ret.
Qed.

Lemma refines_add args m pk legacy id p z :
  good m → zwritable now m pk legacy id p z → regular (CAdd args) z → zsize z + Z.of_nat (length args) < 2 ^ 32 →
  zrefines_at (CAdd args) m pk legacy id p z.
Proof.
  intros Hg Hw Hreg Hroom. pose proof (runs_zadd_write args m pk legacy id p z Hg Hw Hreg Hroom) as Hrun.
  pose proof (runs_resolved_for_write Hnow m pk legacy id p z Hw) as Hr. pose proof (zwritable_unchanged now m pk legacy id p z Hg Hw) as Hsame.
  unfold zrefines_at. cbn [zcmd_op zstep]. unfold zadd_step.
  destruct (decide (args = [])) as [->|Hargs].
  { exists m. split; [|done]. apply runs_bind_fail. eapply runs_bind; [exact Hr|]. apply runs_fail. }
  rewrite (bool_decide_false (args = [])) by done. destruct (zadd_flags args no_flags) as [f pairs] eqn:Ef.
  destruct (flags_error f) as [e|] eqn:Ee.
  { exists m. split; [|done]. apply runs_bind_fail. eapply runs_bind; [exact Hr|]. rewrite (bool_decide_false (args = [])) by done.
    rewrite Ef, Ee. apply runs_fail. }
  destruct (bool_decide (pairs = []) || Nat.odd (length pairs)) eqn:Ep.
  { exists m. split; [|done]. apply runs_bind_fail. eapply runs_bind; [exact Hr|]. rewrite (bool_decide_false (args = [])) by done.
    rewrite Ef, Ee, Ep. apply runs_fail. }
  apply orb_false_iff in Ep as [Ep%bool_decide_eq_false Ho]. destruct (add_pairs f pairs (z, 0, 0)) as [[z' added] changed].
  destruct (Hrun Hargs eq_refl Ep Ho) as (m' & r & H1 & Hu & Ht). exists m'. split; [|done]. eapply runs_bind; [exact H1|].
  destruct r as [[f' t]|]; [destruct Ht as [-> ->]|destruct Ht as [-> ->]]; [apply runs_ret|]. cbn [fst outcome_of].
  replace (if ch f then 0 + 0 else 0) with 0 by (by destruct (ch f)). apply runs_ret.
Qed.

(** Every command refines its step. *)
Lemma zset_refines c m pk legacy id p z :
  good m → zwritable now m pk legacy id p z → regular c z → zsize z + zcmd_room c < 2 ^ 32 →
  zrefines_at c m pk legacy id p z.
Proof.
  intros Hg Hw Hreg Hroom. destruct c; cbn [regular zcmd_room] in *;
    first [by apply refines_add|by apply zrefines_rem|by apply zrefines_incrby|by apply zrefines_pop|by apply refines_rem_range
          |by apply zrefines_read|by apply refines_lookups].
Qed.
End Refines.

(** ** Sequences of commands *)

Section Session.
Context {T : Type} `{!TxOps T} {raw : T → gmap (list Z) Item} {ok : T → Prop}.
Context `{HT : !TxLaws T raw ok, HS : !TxScanLaws T raw ok} {now : Z} (Hnow : clock_ok now).
Context (s : Session T) (key : list Z) (Hs : session_ok s) (Hkey : key_ok key).
#[local] Abbreviation Runs := (Runs (raw:=raw) (ok:=ok)).
#[local] Abbreviation pk := (public_key s key).
#[local] Abbreviation legacy := (private_key s key).

(** The sorted set under [key] holds [z]. *)
Definition zset_at (m : gmap (list Z) Item) (z : gmap (list Z) Z) : Prop := zstored now m pk legacy z.

Lemma zkey_head p k c l : zkey p k → p = c :: l → ∃ l', k = c :: l'.
Proof. intros [[g ->]|[f ->]] ->; eauto. Qed.

Lemma session_zlayout p :
  p = legacy_prefix legacy ∨ (∃ id, id_ok id ∧ p = explicit_prefix (namespace_of s id)) → zlayout pk p.
Proof.
  intros Hp. split; [|exact (lay_length _ _ _ (session_layout s Hs key p Hkey Hp))].
  assert (∃ c l, prefix_bytes p = c :: l ∧ is_digit c = false) as (c & l & Hc & Hd).
  { destruct Hp as [->|(id & _ & ->)].
    - exists 45, (tl (prefix_bytes (legacy_prefix legacy))). split; reflexivity.
    - exists 43, (tl (namespace_of s id)). split; reflexivity. }
  intros Hz. destruct (zkey_head _ _ _ _ Hz Hc) as [l' E]. apply (public_key_head s Hs) in E. congruence.
Qed.

(** The namespace of [id] holds no sorted set. *)
Definition zunused (m : gmap (list Z) Item) (id : list Z) : Prop := id_ok id ∧ zentries now m (namespace_of s id) ∅.

Lemma zunused_fresh m id : zunused m id → zfresh now m pk legacy id.
Proof.
  intros [Hid He]. exists (explicit_prefix (namespace_of s id)). split_and!; [by apply session_namespace|done|].
  apply session_zlayout. right. eauto.
Qed.

(** Two namespaces do not overlap. *)
Lemma zkey_namespace_inj id1 id2 k :
  id_ok id1 → id_ok id2 → zkey (namespace_of s id1) k → zkey (namespace_of s id2) k → id1 = id2.
Proof.
  intros H1 H2 K1 K2. unfold id_ok in *.
  assert (∀ id, zkey (namespace_of s id) k → ∃ g, k = (B "+" ++ to_dec (current_db s) ++ B ":") ++ id ++ g) as Hk.
  { intros id [[g ->]|[g ->]]; [exists (B ":score:" ++ g)|exists (B ":member:" ++ g)];
      unfold score_prefix, member_key, namespace_of; by rewrite <- !app_assoc. }
  apply Hk in K1 as [g1 ->]. apply Hk in K2 as [g2 E]. apply app_inv_head, app_inj_1 in E as [-> _]; [done|lia].
Qed.

(** The namespaces of [ids] are free for commands to come. *)
Record zspare (m : gmap (list Z) Item) (ids : list (list Z)) : Prop := {
  zsp_distinct : NoDup ids;
  zsp_unused : Forall (zunused m) ids;
  zsp_apart : ∀ i p, live now pk m = Some i → prefix_of i legacy = Ok p →
    Forall (λ id, ∀ k, zkey (prefix_bytes p) k → ¬ zkey (namespace_of s id) k) ids
}.

Lemma zentries_frame m m' p z :
  (∀ k : list Z, zkey p k → m' !! k = m !! k) → zentries now m p z → zentries now m' p z.
Proof.
  intros Hf [Hm Hsc Hok]. assert (∀ k, zkey p k → live now k m' = live now k m) as Hl.
  { intros k Hk. unfold live, lookup_live. by rewrite Hf. }
  split; [| |done].
  - intros f. rewrite Hl; [apply Hm|right; eauto].
  - intros g. rewrite Hl; [apply Hsc|left; eauto].
Qed.

Lemma zupdated_spare m id ids p m' z' :
  zspare m (id :: ids) → used_prefix (now:=now) m pk legacy id = Ok p → zupdated now m pk legacy p m' z' → zspare m' ids.
Proof.
  intros [Hd Hu Ha] Hp [_ _ Hf Hk]. apply NoDup_cons in Hd as [Hnotin Hd]. apply Forall_cons in Hu as [[Hid _] Hu].
  rewrite Forall_forall in Hu.
  assert (Forall (λ id', ∀ k, zkey (prefix_bytes p) k → ¬ zkey (namespace_of s id') k) ids) as Hap.
  { unfold used_prefix in Hp. destruct (live now pk m) as [i|] eqn:El.
    - specialize (Ha i p eq_refl Hp). by apply Forall_cons in Ha as [_ Ha].
    - rewrite session_namespace in Hp by done. injection Hp as <-. apply Forall_forall. intros id' Hin k K1 K2.
      destruct (Hu id' Hin) as [Hid' _]. apply (zkey_namespace_inj id id') in K1; [by subst|done..]. }
  split; [done| |].
  - rewrite Forall_forall in Hap |- *. intros id' Hin. destruct (Hu id' Hin) as [Hid' He]. split; [done|].
    eapply zentries_frame; [|exact He]. intros k Hzk. apply Hf.
    + intros ->. by eapply (zl_public _ _ (session_zlayout (explicit_prefix (namespace_of s id')) (or_intror (ex_intro _ id' (conj Hid' eq_refl))))).
    + intros K. by eapply Hap.
  - intros i q Hl Hq. destruct (Hk i Hl) as [Hi _]. rewrite Hi in Hq. by injection Hq as <-.
Qed.

(** Each command of a transaction with the id it would use; errors are confined. *)
Fixpoint zset_script (l : list (list Z * zcmd)) : DbM T (list (result DbResult DbError)) :=
  match l with
  | [] => mret []
  | (id, c) :: l' => r ← caught (zcmd_op now id (node_new s key) c); rs ← zset_script l'; mret (r :: rs)
  end.
End Session.

Fixpoint zrun (l : list (list Z * zcmd)) (z : gmap (list Z) Z) : list (result DbResult DbError) * gmap (list Z) Z :=
  match l with
  | [] => ([], z)
  | (_, c) :: l' => let '(r, z1) := zstep c z in let '(rs, z2) := zrun l' z1 in (r :: rs, z2)
  end.

(** Every command is regular when it is its turn, and the set stays below 2^32 members. *)
Fixpoint zregular_run (l : list (list Z * zcmd)) (z : gmap (list Z) Z) : Prop :=
  match l with
  | [] => True
  | (_, c) :: l' => regular c z ∧ zsize z + zcmd_room c < 2 ^ 32 ∧ zregular_run l' (zstep c z).2
  end.

#[export] Instance regular_dec c z : Decision (regular c z).
Proof. destruct c; cbn [regular]; cbv zeta; unfold f64_ok; apply _. Defined.
#[export] Instance zregular_run_dec l z : Decision (zregular_run l z).
Proof. revert z. induction l as [|[id c] l IH]; intros z; cbn [zregular_run]; apply _. Defined.

Section Script.
Context {T : Type} `{!TxOps T} {raw : T → gmap (list Z) Item} {ok : T → Prop}.
Context `{HT : !TxLaws T raw ok, HS : !TxScanLaws T raw ok} {now : Z} (Hnow : clock_ok now).
Context (s : Session T) (key : list Z) (Hs : session_ok s) (Hkey : key_ok key).
#[local] Abbreviation Runs := (Runs (raw:=raw) (ok:=ok)).

Lemma zset_script_runs l m z :
  good m → zset_at (now:=now) s key m z → zspare (now:=now) s key m l.*1 → zregular_run l z →
  ∃ m', Runs (zset_script (now:=now) s key l) m (Ret (zrun l z).1) m' ∧ good m' ∧ zset_at (now:=now) s key m' (zrun l z).2 ∧
    ((z = ∅ → live now (public_key s key) m = None) → (zrun l z).2 = ∅ → live now (public_key s key) m' = None).
Proof.
  revert m z. induction l as [|[id c] l IH]; intros m z Hg Hz Hsp Hreg.
  { exists m. split; [apply runs_ret|done]. }
  destruct Hreg as (Hc & Hroom & Hreg). rewrite fmap_cons in Hsp. cbn [fst] in Hsp.
  pose proof (zsp_unused _ _ _ _ Hsp) as Hun. apply Forall_cons in Hun as [Hun _].
  destruct (zstored_writable _ _ _ _ _ _ Hz (zunused_fresh s key Hs Hkey m id Hun)) as [p Hw].
  destruct (zset_refines (raw:=raw) (ok:=ok) Hnow c m _ _ id p z Hg Hw Hc Hroom) as (m1 & H1 & Hu).
  pose proof (zupdated_spare s key Hs Hkey m id _ p m1 _ Hsp (zwritable_used _ _ _ _ _ _ _ Hw) Hu) as Hsp1.
  pose proof (zupdated_tidy _ _ _ _ _ _ _ _ Hz Hu) as Ht. cbn [zrun zset_script]. destruct (zstep c z) as [r z1]. cbn [fst snd] in *.
  destruct (IH m1 z1) as (m2 & H2 & Hg2 & Hz2 & Ht2); [apply Hu|apply Hu|done..|]. destruct (zrun l z1) as [rs z2]. cbn [fst snd] in *.
  exists m2. split; [|split_and!; [done..|]; intros Ht0; by apply Ht2, Ht].
  assert (Runs (caught (zcmd_op now id (node_new s key) c)) m (Ret r) m1) as Hr.
  { destruct r; [by apply runs_caught|by apply runs_caught_fail]. }
  eapply runs_bind; [exact Hr|]. eapply runs_bind; [exact H2|]. apply runs_ret.
Qed.
End Script.

(** ** Clients that wait *)

(** The member a pop takes. *)
Definition extreme (want_min : bool) (z : gmap (list Z) Z) : option (list Z * Z) :=
  if want_min then head (ranked z) else last (ranked z).

Lemma extreme_lookup want_min z f s : extreme want_min z = Some (f, s) → z !! f = Some s.
Proof.
  intros H. apply ranked_elem. unfold extreme in H. destruct want_min.
  - destruct (ranked z); [done|]. injection H as ->. left.
  - by apply last_Some_elem_of.
Qed.

Lemma extreme_is_Some want_min z : z ≠ ∅ → is_Some (extreme want_min z).
Proof.
  intros Hz. assert (ranked z ≠ []) as Hr.
  { intros E. apply Hz, map_size_empty_inv. rewrite <- ranked_length. by rewrite E. }
  unfold extreme. destruct want_min; [|by apply last_is_Some]. destruct (ranked z); done.
Qed.

(** ZADD on a set with contents [z] for the clients registered in [reg]: the outcome, the
    contents and the registry afterwards. *)
Definition zadd_serving (key : list Z) (reg : WatchRegistry) (pk : list Z) (args : list (list Z)) (z : gmap (list Z) Z)
  : outcome DbResult DbError * gmap (list Z) Z * WatchRegistry :=
  match zadd_step args z with
  | (Ok (RZAdd n _), z') =>
      if zsize z <? zsize z' then
        match try_claim reg pk with
        | (None, reg') => (Ret (RZAdd n None), z', reg')
        | (Some c, reg') =>
            match extreme (claim_want_min c) z' with
            | Some (f, s) => (Ret (RZAdd n (Some (set_result c (PopDone (mkPop key f s))))), delete f z', reg')
            | None => (Ret (RZAdd n (Some c)), z', reg')
            end
        end
      else (Ret (RZAdd n None), z', reg)
  | (r, z') => (outcome_of r, z', reg)
  end.

Section Serving.
Context {T : Type} `{!TxOps T} {raw : T → gmap (list Z) Item} {ok : T → Prop}.
Context `{HT : !TxLaws T raw ok, HS : !TxScanLaws T raw ok} {now : Z} (Hnow : clock_ok now).
#[local] Abbreviation Runs := (Runs (raw:=raw) (ok:=ok)).

Lemma runs_pop_one want_min node m pk legacy id p z :
  good m → zwritable now m pk legacy id p z → is_Some (live now pk m) →
  Runs (resolved now node) m (Ret (mkNode pk p)) m →
  match extreme want_min z with
  | None => Runs (pop_one now want_min node) m (Ret None) m
  | Some e => ∃ m', Runs (pop_one now want_min node) m (Ret (Some e)) m' ∧ zupdated now m pk legacy p m' (delete e.1 z)
  end.
Proof.
  intros Hg Hw [i Hi] Hr.
  assert (explicit p = false → p = legacy_prefix legacy) as Hl.
  { pose proof (zw_sentinel _ _ _ _ _ _ _ Hw) as Hs. rewrite Hi in Hs. destruct Hs as (_ & Hp & _).
    by apply prefix_of_cases in Hp as [[_ ->]|[_ ->]]. }
  pose proof (runs_resolved_again Hnow m pk legacy id p z p Hw ltac:(done) Hl) as Hagain.
  pose proof (runs_load_all Hnow (mkNode pk p) m pk legacy id p z p Hg Hw Hagain ltac:(done)) as Hload.
  unfold extreme. destruct (if want_min then head (ranked z) else last (ranked z)) as [[f s]|] eqn:E.
  - assert (z !! f = Some s) as Hf by exact (extreme_lookup want_min z f s E).
    destruct (runs_zdel_member (raw:=raw) (ok:=ok) (prefix_bytes p) (f, s) m z Hg (zw_entries _ _ _ _ _ _ _ Hw) Hf) as (m1 & H1 & Hr1).
    pose proof (zsize_delete f z) as Hsz. rewrite Hf in Hsz. pose proof (zw_size _ _ _ _ _ _ _ Hw) as Hlt.
    pose proof (zsize_nonneg (delete f z)) as Hnn.
    destruct (runs_put_count (raw:=raw) (ok:=ok) Hnow m pk legacy id p z m1 (delete f z) Hw Hr1) as (m2 & H2 & Hu); [unfold zsize in *; lia|].
    exists m2. split; [|done]. eapply runs_bind; [exact Hr|]. eapply runs_bind; [exact Hload|]. rewrite E.
    eapply runs_bind; [exact H1|]. eapply runs_bind; [|apply runs_ret]. rewrite ranked_length, as_u32_small by lia.
    unfold zsize in *. rewrite Z.max_r by lia. by rewrite <- Hsz.
  - eapply runs_bind; [exact Hr|]. eapply runs_bind; [exact Hload|]. rewrite E. apply runs_ret.
Qed.

(** One change after another of a key that is there in between. *)
Lemma zupdated_trans m1 m2 m3 pk legacy p z2 z3 :
  is_Some (live now pk m2) → zupdated now m1 pk legacy p m2 z2 → zupdated now m2 pk legacy p m3 z3 → zupdated now m1 pk legacy p m3 z3.
Proof.
  intros [i2 Hi2] [_ Hst1 Hf1 Hk1 Hg1] [Hg Hst Hf2 Hk2 Hg2]. split; [done..| | |].
  - intros k Hne Hk. by rewrite Hf2, Hf1.
  - intros i Hi. destruct (Hk2 i Hi) as [Hp ->]. split; [done|]. rewrite Hi2. by destruct (Hk1 i2 Hi2) as [_ ?].
  - intros Hz. destruct (Hg2 Hz) as [?|[H0 ->]]; [by left|].
    destruct (Hg1 (zstored_empty _ _ _ _ _ H0 Hst1)) as [?|[? ->]]; [congruence|by right].
Qed.

Lemma add_pair_growth f s g z added changed :
  let '(z', added', _) := add_pair f s g (z, added, changed) in added' - added = zsize z' - zsize z.
Proof.
  unfold add_pair. pose proof (zsize_insert g s z) as Hz. destruct (z !! g) as [old|]; [destruct (_ || f64_eq old s)|destruct (xx f)]; lia.
Qed.

Lemma add_pairs_growth f pairs z added changed :
  let '(z', added', _) := add_pairs f pairs (z, added, changed) in added' - added = zsize z' - zsize z.
Proof.
  revert z added changed. induction pairs as [| |str g pairs IH] using list_pair_ind; intros z added changed; cbn [add_pairs]; [lia..|].
  destruct (parse_score str) as [s|]; [|apply IH]. pose proof (add_pair_growth f s g z added changed) as H1.
  destruct (add_pair f s g (z, added, changed)) as [[z1 a1] c1]. specialize (IH z1 a1 c1).
  destruct (add_pairs f pairs (z1, a1, c1)) as [[z2 a2] c2]. lia.
Qed.

(** The node a write resolved to resolves to itself. *)
Lemma zupdated_writable m pk legacy id p m' z' :
  zupdated now m pk legacy p m' z' → z' ≠ ∅ →
  zwritable now m' pk legacy id p z' ∧ is_Some (live now pk m') ∧
  Runs (resolved now (mkNode pk p)) m' (Ret (mkNode pk p)) m'.
Proof.
  intros [Hg Hst _ Hk _] Hne. destruct Hst as [|i q z' Hat]; [done|]. pose proof (zs_live _ _ _ _ _ _ _ Hat) as Hi.
  destruct (Hk i Hi) as [Hp _]. pose proof (zs_prefix _ _ _ _ _ _ _ Hat) as Hq. rewrite Hp in Hq. injection Hq as <-.
  pose proof (zstored_at_writable _ _ _ _ id _ _ _ Hat) as Hw. split_and!; [done|by eexists|].
  eapply (runs_resolved_again Hnow); [exact Hw|done|]. by apply prefix_of_cases in Hp as [[_ ->]|[_ ->]].
Qed.

Lemma zadd_op_runs args key reg t m pk legacy id p z :
  good m → zwritable now m pk legacy id p z → regular (CAdd args) z → zsize z + Z.of_nat (length args) < 2 ^ 32 →
  ok t → raw t = m →
  let '(r, z', reg') := zadd_serving key reg pk args z in
  ∃ t', ZAddOp_run now id (mkNode pk (legacy_prefix legacy)) key args t reg = ((r, t'), reg') ∧ ok t' ∧
    zupdated now m pk legacy p (raw t') z'.
Proof.
  intros Hg Hw Hreg Hroom Ht Hm. pose proof (runs_zadd_write (raw:=raw) (ok:=ok) Hnow args m pk legacy id p z Hg Hw Hreg Hroom) as Hrun.
  destruct (refines_add (raw:=raw) (ok:=ok) Hnow args m pk legacy id p z Hg Hw Hreg Hroom) as (ma & Halone & Hua).
  cbn [zstep zcmd_op] in *. unfold zadd_serving, ZAddOp_run. destruct (zadd_step args z) as [[res|e] z'] eqn:Estep; cbn [fst snd outcome_of] in *.
  - unfold zadd_step in Estep. destruct (bool_decide_reflect (args = [])) as [|Hargs]; [done|].
    destruct (zadd_flags args no_flags) as [f pairs]. destruct (flags_error f) eqn:Ee; [done|].
    destruct (bool_decide_reflect (pairs = [])) as [|Hp]; [done|]. cbn [orb] in Estep. destruct (Nat.odd (length pairs)) eqn:Eo; [done|].
    pose proof (add_pairs_growth f pairs z 0 0) as Hgrow.
    destruct (add_pairs f pairs (z, 0, 0)) as [[z1 added] changed]. injection Estep as <- <-.
    destruct (Hrun Hargs eq_refl Hp eq_refl) as (m1 & r & H1 & Hu & Hr). destruct (H1 t Ht Hm) as (t1 & -> & Ht1 & Hm1).
    rewrite <- Hm1 in *. clear H1 Hua Halone.
    assert ((zsize z <? zsize z1) = (0 <? added)) as -> by (apply eq_true_iff_eq; rewrite !Z.ltb_lt; lia).
    destruct r as [[f' tally]|]; destruct Hr as [-> ->].
    + cbn [t_added t_changed]. destruct (Z.ltb_spec 0 added) as [Hadd|_]; [|by exists t1].
      destruct (zupdated_writable m pk legacy id p (raw t1) z1 Hu) as (Hw1 & Hl1 & Hr1).
      { intros ->. pose proof (zsize_nonneg z). unfold zsize in Hgrow at 1. rewrite map_size_empty in Hgrow. lia. }
      cbn [n_public]. destruct (try_claim reg pk) as [[c|] reg1]; [|by exists t1].
      pose proof (runs_pop_one (claim_want_min c) (mkNode pk p) (raw t1) pk legacy id p z1 (zu_good _ _ _ _ _ _ _ Hu) Hw1 Hl1 Hr1) as Hpop.
      destruct (extreme (claim_want_min c) z1) as [[g s]|].
      * destruct Hpop as (m2 & H2 & Hu2). destruct (H2 t1 Ht1 eq_refl) as (t2 & -> & Ht2 & <-).
        exists t2. split_and!; [done..|]. by eapply zupdated_trans.
      * destruct (Hpop t1 Ht1 eq_refl) as (t2 & -> & Ht2 & Hm2). exists t2. split_and!; [done..|]. by rewrite Hm2.
    + cbn [Z.ltb Z.compare]. exists t1. split_and!; [|done..]. by destruct (ch f).
  - destruct (Halone t Ht Hm) as (t1 & E & Ht1 & <-). exists t1. split_and!; [|done..].
    unfold zadd_alone, mbind, DbM_bind in E. destruct (zadd_write now id _ args t) as [[[n r]|e'|] t2]; [done|by injection E as -> ->|done].
Qed.
End Serving.

(** ** The order of the score index *)

(** Members by score, then by name; the index tells the two zeros apart. *)
Definition by_score_then_name (a b : Z) (f g : list Z) : bool :=
  match partial_cmp a b with
  | Some Lt => true
  | Some Gt | None => false
  | Some Eq => if bool_decide (a = b) then bytes_le f g else bool_decide (a = f64_neg_zero)
  end.

(** C20: the score index is ordered like the scores. For scores that are not NaN, the bytes
    of two index keys compare as their scores do as floating-point numbers (with negative
    numbers, subnormals and infinities), as their members do when the scores are equal, and
    negative zero before zero; and the member and the very bits of the score are read back
    from the key. *)
Theorem score_index_order (p f g : list Z) (a b : Z) :
  f64_ok a → f64_ok b → is_nan a = false → is_nan b = false →
  bytes_le (score_key p a f) (score_key p b g) = by_score_then_name a b f g ∧
  member_of_key (length (score_prefix p)) (score_key p a f) = Some (f, a).
Proof.
  intros Ha Hb Na Nb. split; [|rewrite score_key_name; by apply (member_of_index_key p (f, a))].
  rewrite !score_key_name, bytes_le_app. unfold by_score_then_name. rewrite partial_cmp_rank by done.
  destruct (flip_score_rank a b Ha Hb) as [Hlt Heq]. destruct (flip_score_rank b a Hb Ha) as [Hgt _].
  pose proof (score_name_le a b f g Ha Hb) as Hle. unfold ranked_le in Hle. cbn [fst snd] in Hle.
  apply eq_true_iff_eq. rewrite Hle. destruct (Z.compare_spec (f64_rank a) (f64_rank b)) as [E|E|E].
  - destruct (Heq E) as [->|[[-> ->]|[-> ->]]].
    + rewrite bool_decide_true by done. intuition lia.
    + split; [done|]. intros _. left. done.
    + split; [|done]. intros [H|[H _]]; vm_compute in H; discriminate H.
  - specialize (Hlt E). intuition.
  - specialize (Hgt E). intuition lia.
Qed.

Definition f64_of (s : list Z) : Z := default f64_zero (f64_from_str s).

Lemma score_index_order_witness :
  bytes_le (score_key (B "+0:k") (f64_of (B "-2.5")) (B "z")) (score_key (B "+0:k") (f64_of (B "-1e-310")) (B "a")) = true ∧
  member_of_key (length (score_prefix (B "+0:k"))) (score_key (B "+0:k") (f64_of (B "-2.5")) (B "z")) = Some (B "z", f64_of (B "-2.5")).
Proof.
  destruct (score_index_order (B "+0:k") (B "z") (B "a") (f64_of (B "-2.5")) (f64_of (B "-1e-310"))) as [H1 H2];
    [vm_compute; split; done..|vm_compute; reflexivity|vm_compute; reflexivity|].
  split; [|exact H2]. rewrite H1. vm_compute. reflexivity.
Defined.

(** ** Scripts *)
Lemma zentries_empty now p : zentries now ∅ p ∅.
Proof.
  split; [done| |apply scores_ok_empty]. intros g. split; [by intros [? ?]|]. intros (f & s & H & _). done.
Qed.

Lemma zspare_empty {T} (s : Session T) key now ids : NoDup ids → Forall id_ok ids → zspare (now:=now) s key ∅ ids.
Proof.
  intros Hd Hi. split; [done| |done]. eapply Forall_impl; [exact Hi|]. intros id Hid. split; [done|apply zentries_empty].
Qed.

(** C19: a sequence of sorted set commands refines the same operations on a finite map from
    members to scores. Run one after the other in a transaction (errors confined to their
    command), ZADD with its options, ZREM, ZINCRBY, ZPOPMIN, ZPOPMAX, the three
    ZREMRANGEBY commands, ZCARD, ZSCORE, ZMSCORE, ZRANGE, ZRANK, ZCOUNT, ZRANGEBYSCORE,
    ZRANGEBYLEX, ZLEXCOUNT and the reversed readings on one key reply what the map machine
    [zrun] replies, the members being ranked by score and then by name, and the store ends
    with a sorted set that holds the machine's map: both indexes exactly and the count right.
    Unless the key already held an empty sorted set before, it is there in the end exactly if
    the map is not empty: taking the last member deletes it. Namespaces drawn for new sets are not in use and
    distinct; ZADD's scores parse and a ZADD that creates the set names no member twice;
    fewer than 2^32 members. *)
Theorem zset_script_refines T `{!TxOps T} (raw : T → gmap (list Z) Item) (ok : T → Prop) (now : Z)
    (s : Session T) (key : list Z) (l : list (list Z * zcmd)) (m : gmap (list Z) Item) (z : gmap (list Z) Z) :
  TxLaws T raw ok → TxScanLaws T raw ok → clock_ok now → session_ok s → key_ok key →
  good m → zset_at (now:=now) s key m z → zspare (now:=now) s key m l.*1 → zregular_run l z →
  ∃ m', Runs (raw:=raw) (ok:=ok) (zset_script (now:=now) s key l) m (Ret (zrun l z).1) m' ∧
    good m' ∧ zset_at (now:=now) s key m' (zrun l z).2 ∧
    ((z = ∅ → live now (public_key s key) m = None) →
     ((zrun l z).2 = ∅ ↔ live now (public_key s key) m' = None)).
Proof.
  intros HT HS Hnow Hs Hk Hg Hz Hsp Hreg.
  destruct (zset_script_runs (raw:=raw) (ok:=ok) Hnow s key Hs Hk l m z Hg Hz Hsp Hreg) as (m' & Hr & Hg' & Hz' & Ht).
  exists m'. split_and!; [done..|]. intros Ht0. split; [by apply Ht|]. by eapply zstored_gone.
Qed.

Definition zsample : list (list Z * zcmd) :=
  [(id_of 1, CAdd [B "2"; B "b"; B "-1.5"; B "a"; B "2"; B "ab"]); (id_of 2, CIncrBy (f64_of (B "4")) (B "a"));
   (id_of 3, CAdd [B "GT"; B "CH"; B "1"; B "b"; B "7"; B "c"]); (id_of 4, CRange 0 (-1) true false);
   (id_of 5, CRank (B "c") true); (id_of 6, CRangeByScore (B "(2") (B "+inf") false None true);
   (id_of 7, CPop 2 true); (id_of 8, CAdd [B "NX"; B "XX"; B "1"; B "a"]);
   (id_of 9, CRem [B "a"; B "c"])].

Lemma zset_script_refines_witness :
  ∃ m', Runs (raw:=id) (ok:=λ _, True) (zset_script (now:=5) demo_session (B "z") zsample) ∅
    (Ret [Ok (RZAdd 3 None); Ok (RF64 (f64_of (B "2.5"))); Ok (RZAdd 1 None);
          Ok (RList [B "ab"; B "2"; B "b"; B "2"; B "a"; B "2.5"; B "c"; B "7"]); Ok (ROptInt (Some 0));
          Ok (RList [B "c"; B "a"]); Ok (RMembers [(B "ab", f64_of (B "2")); (B "b", f64_of (B "2"))]); Err not_compatible; Ok (RInt 2)]) m' ∧
    zset_at (now:=5) demo_session (B "z") m' ∅ ∧ live 5 (B "0:z") m' = None.
Proof.
  destruct (zset_script_refines (gmap (list Z) Item) id (λ _, True) 5 demo_session (B "z") zsample ∅ ∅) as (m' & H & _ & Hz & Hgone).
  - apply map_laws.
  - apply map_scan_laws.
  - unfold clock_ok. width_lia.
  - unfold session_ok. simpl. width_lia.
  - vm_compute. done.
  - apply good_empty.
  - by apply zstored_none.
  - apply zspare_empty; by apply (bool_decide_unpack _).
  - apply (bool_decide_unpack _). vm_compute. exact I.
  - exists m'. replace ((zrun zsample ∅).1) with
      ([Ok (RZAdd 3 None); Ok (RF64 (f64_of (B "2.5"))); Ok (RZAdd 1 None);
          Ok (RList [B "ab"; B "2"; B "b"; B "2"; B "a"; B "2.5"; B "c"; B "7"]); Ok (ROptInt (Some 0));
          Ok (RList [B "c"; B "a"]); Ok (RMembers [(B "ab", f64_of (B "2")); (B "b", f64_of (B "2"))]); Err not_compatible; Ok (RInt 2)]
        : list (result DbResult DbError)) in H by (vm_compute; reflexivity).
    assert ((zrun zsample ∅).2 = ∅) as He by (vm_compute; reflexivity).
    split; [exact H|]. split; [rewrite <- He; exact Hz|]. by apply Hgone.
Defined.

(** ** Serving a blocked client *)

(** C21: ZADD serves the client that has waited longest. A client is first in the queue of
    the key for BZPOPMIN or BZPOPMAX and its channel is open; a ZADD that adds a member
    writes the set, takes its lowest or highest member out again, and its reply, once
    rendered, sends exactly that member with its score and the name of the key to that
    client and to no other; the writer is told the number of members added, the set is
    left without the member, and the registry changes by that claim and that message only. *)
Theorem zadd_serves_waiter T `{!TxOps T} (raw : T → gmap (list Z) Item) (ok : T → Prop) (now : Z)
    (s : Session T) (key id : list Z) (args : list (list Z)) (t : T) (z z' : gmap (list Z) Z)
    (reg : WatchRegistry) (w : Waiter) (queue : list Waiter) (want_min : bool) (n : Z) :
  TxLaws T raw ok → TxScanLaws T raw ok → clock_ok now → session_ok s → key_ok key →
  ok t → good (raw t) → zset_at (now:=now) s key (raw t) z → zunused (now:=now) s (raw t) id →
  regular (CAdd args) z → zsize z + Z.of_nat (length args) < 2 ^ 32 →
  zstep (CAdd args) z = (Ok (RZAdd n None), z') → zsize z < zsize z' →
  waiters reg !! public_key s key = Some (w :: queue) → w_kind w = Pop want_min → w_id w ∈ senders reg →
  ∃ t' claim reg' f score,
    ZAddOp_run now id (node_new s key) key args t reg = ((Ret (RZAdd n (Some claim)), t'), reg') ∧
    extreme want_min z' = Some (f, score) ∧ zset_at (now:=now) s key (raw t') (delete f z') ∧
    (ZAddWire (Ok (RZAdd n (Some claim))) reg').1 = Integer n ∧
    sent (ZAddWire (Ok (RZAdd n (Some claim))) reg').2 = <[w_id w := PopDone (mkPop key f score)]> (sent reg) ∧
    (ZAddWire (Ok (RZAdd n (Some claim))) reg').2 = send_to (try_claim reg (public_key s key)).2 (w_id w) (Some (PopDone (mkPop key f score))).
Proof.
  intros HT HS Hnow Hs Hk Ht Hg Hz Hun Hreg Hroom Hstep Hgrow Hq Hkind Hsend. cbn [zstep] in Hstep.
  destruct (zstored_writable _ _ _ _ _ _ Hz (zunused_fresh s key Hs Hk _ id Hun)) as [p Hw].
  pose proof (zadd_op_runs (raw:=raw) (ok:=ok) Hnow args key reg t _ _ _ id p z Hg Hw Hreg Hroom Ht eq_refl) as Hrun.
  unfold zadd_serving in Hrun. rewrite Hstep, (proj2 (Z.ltb_lt _ _) Hgrow) in Hrun. unfold try_claim in *. rewrite Hq in *.
  unfold claim_want_min in Hrun. cbn [c_waiter] in Hrun. rewrite Hkind in Hrun.
  destruct (extreme_is_Some want_min z') as [[f score] He].
  { intros ->. pose proof (zsize_nonneg z). unfold zsize in Hgrow. rewrite map_size_empty in Hgrow. lia. }
  rewrite He in Hrun. destruct Hrun as (t' & Hrun & _ & Hu). eexists t', _, _, f, score. split; [exact Hrun|].
  split_and!; [done|by apply Hu|done| |done]. cbn. unfold wake. cbn. unfold send_to. by rewrite decide_True.
Qed.

Lemma zadd_serves_waiter_witness :
  ∃ t' claim reg', ZAddOp_run 5 (id_of 1) (node_new demo_session (B "z")) (B "z") [B "2"; B "b"; B "1"; B "a"] (∅ : gmap (list Z) Item)
      (register registry_new [public_key demo_session (B "z")] (Pop true)).2 = ((Ret (RZAdd 2 (Some claim)), t'), reg') ∧
    zset_at (now:=5) demo_session (B "z") t' {[B "b" := f64_of (B "2")]}.
Proof.
  destruct (zadd_serves_waiter (gmap (list Z) Item) id (λ _, True) 5 demo_session (B "z") (id_of 1) [B "2"; B "b"; B "1"; B "a"] ∅ ∅
    {[B "a" := f64_of (B "1"); B "b" := f64_of (B "2")]} (register registry_new [public_key demo_session (B "z")] (Pop true)).2
    (mkWaiter 1 [public_key demo_session (B "z")] (Pop true)) [] true 2) as (t' & claim & reg' & f & score & Hrun & He & Hz & _).
  - apply map_laws.
  - apply map_scan_laws.
  - unfold clock_ok. width_lia.
  - unfold session_ok. simpl. width_lia.
  - vm_compute. done.
  - done.
  - apply good_empty.
  - by apply zstored_none.
  - split; [done|apply zentries_empty].
  - apply (bool_decide_unpack _). vm_compute. exact I.
  - vm_compute. done.
  - vm_compute. reflexivity.
  - vm_compute. done.
  - vm_compute. reflexivity.
  - done.
  - apply (bool_decide_unpack _). vm_compute. exact I.
  - exists t', claim, reg'. split; [exact Hrun|].
    assert (Some (B "a", f64_of (B "1")) = Some (f, score)) as E by (rewrite <- He; vm_compute; reflexivity).
    injection E as <- _. revert Hz.
    replace (delete (B "a") {[B "a" := f64_of (B "1"); B "b" := f64_of (B "2")]} : gmap (list Z) Z)
      with ({[B "b" := f64_of (B "2")]} : gmap (list Z) Z) by (vm_compute; reflexivity).
    intros Hz. exact Hz.
Defined.

(** ** Cases where the commands differ from what they are meant to do *)

Definition run_op {A} (op : DbM (gmap (list Z) Item) A) (m : gmap (list Z) Item) : outcome A DbError * gmap (list Z) Item := op m.
Definition zkeyed (k : list Z) : NodeRef := node_new demo_session k.
Definition after (op : DbM (gmap (list Z) Item) DbResult) : gmap (list Z) Item := (run_op op ∅).2.

(** A member named twice by the ZADD that creates the set counts twice. *)
Lemma zadd_counts_twice :
  let add := zadd_alone 5 (id_of 1) (zkeyed (B "z")) [B "1"; B "a"; B "2"; B "a"] in
  (run_op add ∅).1 = Ret (RZAdd 2 None) ∧
  (run_op (ZCardOp 5 (zkeyed (B "z"))) (after add)).1 = Ret (RInt 2) ∧
  (run_op (load_all_members 5 (zkeyed (B "z"))) (after add)).1 = Ret [(B "a", f64_of (B "2"))].
Proof. vm_compute. done. Qed.

(** ZPOPMAX replies from the lower to the higher score. *)
Lemma zpopmax_ascending :
  (zstep (CPop 2 false) {[B "a" := f64_of (B "1"); B "b" := f64_of (B "2")]}).1 =
  Ok (RMembers [(B "a", f64_of (B "1")); (B "b", f64_of (B "2"))]).
Proof. vm_compute. done. Qed.

(** NaN is a bound of a range, which then holds every score. *)
Lemma nan_bound_selects_all score :
  parse_float_bound (B "nan") = Ok (f64_nan, false) ∧ score_in_range (f64_nan, false) (f64_nan, false) score = true ∧
  score_in_range (f64_nan, true) (f64_nan, true) score = true.
Proof.
  split; [vm_compute; reflexivity|]. unfold score_in_range, f64_lt, f64_gt, f64_le, f64_ge, partial_cmp.
  change (sf_of_bits f64_nan) with SpecFloat.S754_nan. destruct (sf_of_bits score) as [[]|[]| |[] ? ?]; done.
Qed.

(** XX may not be combined with GT or LT, and INCR is read as a score. *)
Lemma zadd_options_refused :
  (zstep (CAdd [B "XX"; B "GT"; B "1"; B "a"]) ∅).1 = Err not_compatible ∧
  (run_op (zadd_alone 5 (id_of 1) (zkeyed (B "z")) [B "INCR"; B "1"; B "a"]) ∅).1 = Fail zadd_arity.
Proof. vm_compute. done. Qed.

(** All inputs of a combination get the first weight. *)
Lemma first_weight_only (m : gmap (list Z) Z) w1 w2 : apply_weights m [w1; w2] = apply_weights m [w1].
Proof. done. Qed.

(** An empty result is stored as a key with no members. *)
Lemma empty_result_is_a_key :
  let store := StoreSetOp 5 (id_of 1) (zkeyed (B "d")) [zkeyed (B "a")] [] [] Diff in
  (run_op store ∅).1 = Ret (RInt 0) ∧ is_Some (after store !! public_key demo_session (B "d")).
Proof. vm_compute. eauto. Qed.

(** A sum of infinities stores NaN as a score. *)
Lemma union_stores_nan :
  is_nan <$> union_scores (B "sum") [{[B "a" := f64_infinity]}; {[B "a" := f64_neg_infinity]}] !! B "a" = Some true.
Proof. vm_compute. done. Qed.
