(* ===== verification/ZSetAlgebra.v ===== *)
(** * Combinations of sorted sets: src/redis/zset.rs

    ZDIFF, ZINTER and ZUNION over several sorted sets and the commands that store a result.
    What a combination holds is said member by member ([combine_at]); the theorems are that
    the commands compute it from the stored sets, and that storing replaces whatever the
    destination held. *)
From S2P Require Import Prelude Bytes Float64 Resp Kv Registry StreamCodec Op Namespace Session Rand Elements ZSet ZSetStore ZSetSpec.
Import MapTx.

(** ** What a combination holds *)

Definition weigh (weights : list Z) (score : Z) : Z := match weights with w :: _ => f64_mul score w | [] => score end.

(** The scores a member has in the sets that hold it. *)
Definition scores_found (zs : list (gmap (list Z) Z)) (f : list Z) : list Z := omap (λ z : gmap (list Z) Z, z !! f) zs.

Definition combine_at (kind : SetOpKind) (aggregate weights : list Z) (zs : list (gmap (list Z) Z)) (f : list Z) : option Z :=
  match kind, zs with
  | _, [] => None
  | Diff, z :: zs' => if bool_decide (scores_found zs' f = []) then z !! f else None
  | Inter, _ => if bool_decide (length (scores_found zs f) = length zs)
                then Some (weigh weights (aggregate_scores aggregate (scores_found zs f))) else None
  | Union, _ => match scores_found zs f with
                | [] => None
                | [score] => Some (weigh weights score)
                | scores => Some (weigh weights (aggregate_scores aggregate scores))
                end
  end.

(** The map the code computes. *)
Definition combined_map (kind : SetOpKind) (aggregate weights : list Z) (zs : list (gmap (list Z) Z)) : gmap (list Z) Z :=
  match kind with
  | Diff => match zs with [] => ∅ | z :: zs' => difference_scores z zs' end
  | Inter => apply_weights (intersect_scores aggregate zs) weights
  | Union => apply_weights (union_scores aggregate zs) weights
  end.

Lemma apply_weights_lookup (m : gmap (list Z) Z) (weights f : list Z) : apply_weights m weights !! f = weigh weights <$> m !! f.
Proof. destruct weights as [|w ws]; cbn; [by destruct (m !! f)|]. by rewrite lookup_fmap. Qed.

Lemma difference_scores_lookup (zs : list (gmap (list Z) Z)) (z : gmap (list Z) Z) (f : list Z) :
  difference_scores z zs !! f = if bool_decide (scores_found zs f = []) then z !! f else None.
Proof.
  unfold difference_scores, scores_found. revert z. induction zs as [|z1 zs IH]; intros z; cbn; [done|].
  rewrite IH. destruct (z1 !! f) eqn:E.
  - rewrite (bool_decide_false (_ :: _ = [])) by done. destruct (bool_decide _); [|done]. apply lookup_difference_None. right. by eexists.
  - destruct (bool_decide _); [|done]. rewrite lookup_difference, E. done.
Qed.

Lemma scores_found_cons (z : gmap (list Z) Z) (zs : list (gmap (list Z) Z)) (f : list Z) :
  scores_found (z :: zs) f = match z !! f with Some s => s :: scores_found zs f | None => scores_found zs f end.
Proof. unfold scores_found. cbn. by destruct (z !! f). Qed.

Lemma scores_found_length (zs : list (gmap (list Z) Z)) (f : list Z) : (length (scores_found zs f) ≤ length zs)%nat.
Proof. induction zs as [|z zs IH]; [done|]. rewrite scores_found_cons. destruct (z !! f); cbn; lia. Qed.

Lemma scores_in_found (zs : list (gmap (list Z) Z)) (f : list Z) :
  scores_in zs f = if bool_decide (length (scores_found zs f) = length zs) then Some (scores_found zs f) else None.
Proof.
  unfold scores_in. induction zs as [|z zs IH]; [done|]. rewrite scores_found_cons. cbn [mapM length].
  pose proof (scores_found_length zs f) as Hle. destruct (z !! f) eqn:E; cbn.
  - rewrite IH. destruct (decide (length (scores_found zs f) = length zs)) as [H|H].
    + rewrite !bool_decide_true by lia. done.
    + rewrite !bool_decide_false by lia. done.
  - rewrite bool_decide_false by lia. done.
Qed.

Lemma push_scores_lookup (z : gmap (list Z) Z) (sources : gmap (list Z) (list Z)) (f : list Z) :
  push_scores z sources !! f = match z !! f with Some s => Some (default [] (sources !! f) ++ [s]) | None => sources !! f end.
Proof. unfold push_scores. rewrite lookup_merge. by destruct (sources !! f), (z !! f). Qed.

Lemma sources_lookup (zs : list (gmap (list Z) Z)) (sources : gmap (list Z) (list Z)) (f : list Z) :
  fold_left (λ sources m, push_scores m sources) zs sources !! f =
  match scores_found zs f with [] => sources !! f | scores => Some (default [] (sources !! f) ++ scores) end.
Proof.
  unfold scores_found. revert sources. induction zs as [|z zs IH]; intros sources; cbn; [done|].
  rewrite IH, push_scores_lookup. destruct (z !! f); [|done].
  destruct (omap _ zs); cbn; [done|]. by rewrite <- app_assoc.
Qed.

Lemma combined_map_lookup kind aggregate weights zs f :
  combined_map kind aggregate weights zs !! f = combine_at kind aggregate weights zs f.
Proof.
  destruct kind; cbn [combined_map combine_at].
  - destruct zs; [done|]. apply difference_scores_lookup.
  - rewrite apply_weights_lookup. destruct zs as [|z zs]; [done|]. unfold intersect_scores. rewrite map_lookup_imap.
    rewrite scores_in_found. destruct (bool_decide_reflect (length (scores_found (z :: zs) f) = length (z :: zs))) as [H|H]; [|by destruct (z !! f)].
    destruct (z !! f) eqn:E; [done|]. rewrite scores_found_cons, E in H. pose proof (scores_found_length zs f). cbn [length] in H. lia.
  - rewrite apply_weights_lookup. unfold union_scores. rewrite lookup_fmap, sources_lookup, lookup_empty.
    destruct zs as [|z zs]; [done|]. destruct (scores_found (z :: zs) f) as [|s1 [|s2 ss]]; done.
Qed.

(** Numbers stay numbers of the format. *)
Lemma f64_ok_fold (g : Z → Z → Z) l a : (∀ x y, f64_ok x → f64_ok y → f64_ok (g x y)) → f64_ok a → Forall f64_ok l → f64_ok (fold_left g l a).
Proof. intros Hg Ha Hl. revert a Ha. induction Hl as [|x l Hx Hl IH]; intros a Ha; [done|]. apply IH. by apply Hg. Qed.

Lemma f64_ok_aggregate aggregate scores : Forall f64_ok scores → f64_ok (aggregate_scores aggregate scores).
Proof.
  intros Hs. unfold aggregate_scores. repeat case_bool_decide.
  - apply f64_ok_fold; [intros; apply f64_ok_add|done|done].
  - apply f64_ok_fold; [|done|done]. intros x y Hx Hy. unfold f64_min. by repeat case_match.
  - apply f64_ok_fold; [|done|done]. intros x y Hx Hy. unfold f64_max. by repeat case_match.
  - destruct Hs; done.
Qed.

Lemma f64_ok_weigh weights score : f64_ok score → f64_ok (weigh weights score).
Proof. intros Hs. destruct weights; [done|]. apply f64_ok_mul. Qed.

Lemma scores_ok_combined kind aggregate weights zs : Forall scores_ok zs → scores_ok (combined_map kind aggregate weights zs).
Proof.
  intros Hok f s. rewrite combined_map_lookup. assert (Forall f64_ok (scores_found zs f)) as Hf.
  { induction Hok as [|z zs Hz Hok IH]; [constructor|]. rewrite scores_found_cons. destruct (z !! f) eqn:E; [|done]. constructor; [by eapply Hz|done]. }
  unfold combine_at. destruct kind, zs as [|z zs]; try done.
  - case_bool_decide; [|done]. intros E. apply Forall_cons in Hok as [Hz _]. by eapply Hz.
  - case_bool_decide; [|done]. intros [= <-]. by apply f64_ok_weigh, f64_ok_aggregate.
  - destruct (scores_found (z :: zs) f) as [|s1 [|s2 ss]]; [done|..]; intros [= <-]; apply f64_ok_weigh; [by apply Forall_cons in Hf as [? _]|].
    by apply f64_ok_aggregate.
Qed.

(** ** Loading the sets *)
Lemma fold_insert_lookup (l : list (list Z * Z)) (m : gmap (list Z) Z) (f : list Z) :
  NoDup l.*1 →
  fold_left (λ (m : gmap (list Z) Z) (e : list Z * Z), <[e.1 := e.2]> m) l m !! f =
  match (list_to_map l : gmap (list Z) Z) !! f with Some s => Some s | None => m !! f end.
Proof.
  revert m. induction l as [|[g s] l IH]; intros m Hnd; cbn [fold_left list_to_map fst snd]; [done|].
  apply NoDup_cons in Hnd as [Hnot Hnd]. rewrite IH by done. cbn. destruct (decide (f = g)) as [->|Hne].
  - rewrite lookup_insert_eq, (proj1 (not_elem_of_list_to_map l g)) by done. by rewrite lookup_insert_eq.
  - rewrite !lookup_insert_ne by done. done.
Qed.

Lemma fold_insert_ranked (z : gmap (list Z) Z) :
  fold_left (λ (m : gmap (list Z) Z) (e : list Z * Z), <[e.1 := e.2]> m) (ranked z) ∅ = z.
Proof.
  apply map_eq. intros f. rewrite fold_insert_lookup by apply ranked_nodup. rewrite lookup_empty.
  destruct (z !! f) as [s|] eqn:E.
  - rewrite (proj1 (elem_of_list_to_map (ranked z) f s (ranked_nodup z))); [done|]. by apply ranked_elem.
  - rewrite (proj1 (not_elem_of_list_to_map (ranked z) f)); [done|]. intros ([g s] & -> & Hg%ranked_elem)%list_elem_of_fmap.
    cbn in E. congruence.
Qed.

Section Runs.
Context {T : Type} `{!TxOps T} {raw : T → gmap (list Z) Item} {ok : T → Prop}.
Context `{HT : !TxLaws T raw ok, HS : !TxScanLaws T raw ok} {now : Z} (Hnow : clock_ok now).
#[local] Abbreviation Runs := (Runs (raw:=raw) (ok:=ok)).

Lemma runs_resolved_absent m pk legacy :
  live now pk m = None → Runs (resolved now (mkNode pk (legacy_prefix legacy))) m (Ret (mkNode pk (legacy_prefix legacy))) m.
Proof.
  intros El. unfold resolved. cbn [explicit legacy_prefix n_prefix].
  eapply runs_bind; [|apply runs_ret]. eapply runs_bind; [by apply runs_get|]. cbn [n_public]. rewrite lookup_live_live, El. apply runs_ret.
Qed.

Lemma runs_load_stored m pk legacy z :
  good m → zstored now m pk legacy z →
  ∃ q, Runs (resolved now (mkNode pk (legacy_prefix legacy))) m (Ret (mkNode pk q)) m ∧
    Runs (load_all_members now (mkNode pk q)) m (Ret (ranked z)) m ∧
    Runs (load_all_members now (mkNode pk (legacy_prefix legacy))) m (Ret (ranked z)) m.
Proof.
  intros Hg [El|i p z' Hat].
  - pose proof (runs_resolved_absent m pk legacy El) as Hr.
    assert (Runs (load_all_members now (mkNode pk (legacy_prefix legacy))) m (Ret (ranked ∅)) m) as Hload; [|by eexists].
    eapply runs_bind; [exact Hr|]. pose proof (runs_read_sentinel (raw:=raw) (ok:=ok) Hnow TYPE_SORTED_SET pk m) as H. rewrite El in H.
    eapply runs_bind; [eapply runs_bind; [apply runs_caught_fail, H|apply runs_ret]|]. apply runs_ret.
  - pose proof (zstored_at_writable _ _ _ _ [] _ _ _ Hat) as Hw.
    destruct (runs_members (raw:=raw) (ok:=ok) Hnow m pk legacy [] p z' Hg Hw) as (q & Hr & Hl & Hq).
    exists q. split_and!; [done..|]. by eapply (runs_load_all Hnow).
Qed.

Lemma runs_load_zset_map m pk legacy z :
  good m → zstored now m pk legacy z → Runs (load_zset_map now (mkNode pk (legacy_prefix legacy))) m (Ret z) m.
Proof.
  intros Hg Hz. destruct (runs_load_stored m pk legacy z Hg Hz) as (q & Hr & Hl & _).
  eapply runs_bind; [exact Hr|]. eapply runs_bind; [exact Hl|]. rewrite fold_insert_ranked. apply runs_ret.
Qed.

Lemma zstored_scores_ok m pk legacy z : zstored now m pk legacy z → scores_ok z.
Proof. intros [_|i p z' Hat]; [apply scores_ok_empty|]. by apply (zs_entries _ _ _ _ _ _ _ Hat). Qed.

Context (s : Session T).

(** The sets under [keys] hold [zs]. *)
Definition zsets_at (m : gmap (list Z) Item) (keys : list (list Z)) (zs : list (gmap (list Z) Z)) : Prop :=
  Forall2 (λ key z, zset_at (now:=now) s key m z) keys zs.

Lemma runs_load_zset_maps m keys zs :
  good m → zsets_at m keys zs → Runs (load_zset_maps now (node_new s <$> keys)) m (Ret zs) m.
Proof.
  intros Hg Hz. induction Hz as [|key z keys zs Hz Hzs IH]; [apply runs_ret|]. rewrite fmap_cons. cbn [load_zset_maps].
  eapply runs_bind; [by apply runs_load_zset_map|]. eapply runs_bind; [exact IH|]. apply runs_ret.
Qed.

Lemma zruns_combined kind aggregate weights m keys zs :
  good m → zsets_at m keys zs →
  Runs (combined now kind aggregate weights (node_new s <$> keys)) m (Ret (combined_map kind aggregate weights zs)) m.
Proof.
  intros Hg Hz. destruct kind; cbn [combined combined_map].
  - destruct Hz as [|key z keys zs Hz Hzs]; [apply runs_ret|]. rewrite fmap_cons. cbn [zdiff_map].
    eapply runs_bind; [by apply runs_load_zset_map|]. eapply runs_bind; [by apply runs_load_zset_maps|]. apply runs_ret.
  - eapply runs_bind; [by apply runs_load_zset_maps|]. apply runs_ret.
  - eapply runs_bind; [by apply runs_load_zset_maps|]. apply runs_ret.
Qed.

Lemma scores_ok_sets m keys zs : zsets_at m keys zs → Forall scores_ok zs.
Proof. intros Hz. induction Hz; constructor; [by eapply zstored_scores_ok|done]. Qed.
End Runs.

(** ** Members in the order of a reply *)

#[export] Instance score_then_member_total : Total score_then_member_le.
Proof.
  intros a b. unfold score_then_member_le. rewrite (partial_cmp_swap a.2 b.2).
  destruct (partial_cmp a.2 b.2) as [[]|]; cbn; [apply bytes_le_total|by left|by right|apply bytes_le_total].
Qed.

Lemma zset_to_slice_elem z f s : (f, s) ∈ zset_to_slice z ↔ z !! f = Some s.
Proof. unfold zset_to_slice. by rewrite merge_sort_Permutation, elem_of_map_to_list. Qed.
Lemma zset_to_slice_nodup z : NoDup (zset_to_slice z).*1.
Proof. unfold zset_to_slice. rewrite merge_sort_Permutation. apply NoDup_fst_map_to_list. Qed.
Lemma zset_to_slice_length z : Z.of_nat (length (zset_to_slice z)) = zsize z.
Proof. unfold zset_to_slice, zsize. by rewrite merge_sort_Permutation, length_map_to_list. Qed.
Lemma zset_to_slice_map (z : gmap (list Z) Z) : (list_to_map (zset_to_slice z) : gmap (list Z) Z) = z.
Proof.
  rewrite (list_to_map_proper (zset_to_slice z) (map_to_list z)); [apply list_to_map_to_list|apply zset_to_slice_nodup|].
  apply merge_sort_Permutation.
Qed.
Lemma zset_to_slice_sorted z : Sorted score_then_member_le (zset_to_slice z).
Proof. apply Sorted_merge_sort, _. Qed.

(** ** Storing a result *)

(** The prefix a reading command resolves to. *)
Definition read_prefix (now : Z) (m : gmap (list Z) Item) (pk legacy : list Z) : result ElementPrefix DbError :=
  match live now pk m with Some i => prefix_of i legacy | None => Ok (legacy_prefix legacy) end.

(** Nothing is left of what the node held under [q]; nothing else is gone. *)
Record cleared (now : Z) (pk : list Z) (q : ElementPrefix) (m m' : gmap (list Z) Item) : Prop := {
  cl_good : good m';
  cl_sub : m' ⊆ m;
  cl_public : m' !! pk = None;
  cl_gone k : zkey (prefix_bytes q) k → live now k m' = None;
  cl_frame k : k ≠ pk → ¬ zkey (prefix_bytes q) k → m' !! k = m !! k
}.

Definition delete_all (keys : list (list Z)) (m : gmap (list Z) Item) : gmap (list Z) Item := foldl (λ m k, delete k m) m keys.

Lemma delete_all_lookup (keys : list (list Z)) (m : gmap (list Z) Item) (k : list Z) :
  delete_all keys m !! k = if bool_decide (k ∈ keys) then None else m !! k.
Proof.
  unfold delete_all. revert m. induction keys as [|k' keys IH]; intros m; [by rewrite bool_decide_false by (by intros ?%not_elem_of_nil)|].
  cbn. rewrite IH. destruct (decide (k ∈ keys)) as [H|H].
  - rewrite !bool_decide_true by (done || by right). done.
  - rewrite (bool_decide_false (k ∈ keys)) by done. destruct (decide (k = k')) as [->|Hne].
    + rewrite lookup_delete_eq, bool_decide_true by left. done.
    + rewrite lookup_delete_ne, bool_decide_false by (done || by intros [?|?]%elem_of_cons). done.
Qed.

Lemma delete_all_good keys m : good m → good (delete_all keys m).
Proof. unfold delete_all. revert m. induction keys as [|k keys IH]; intros m Hg; [done|]. cbn. by apply IH, good_delete. Qed.

Lemma zkey_starts p k : zkey p k ↔ starts_with (score_prefix p) k = true ∨ starts_with (member_prefix p) k = true.
Proof.
  unfold zkey. rewrite !starts_with_spec. unfold member_prefix, member_key. split.
  - intros [H|[f ->]]; [by left|right]. exists f. by rewrite <- app_assoc.
  - intros [H|[f ->]]; [by left|right]. exists f. by rewrite <- app_assoc.
Qed.

Section Store.
Context {T : Type} `{!TxOps T} {raw : T → gmap (list Z) Item} {ok : T → Prop}.
Context `{HT : !TxLaws T raw ok, HS : !TxScanLaws T raw ok} {now : Z} (Hnow : clock_ok now).
#[local] Abbreviation Runs := (Runs (raw:=raw) (ok:=ok)).

Lemma zruns_delete_keys keys m : Runs (delete_keys keys) m (Ret ()) (delete_all keys m).
Proof. revert m. induction keys as [|k keys IH]; intros m; [apply runs_ret|]. eapply runs_bind; [apply runs_del|apply IH]. Qed.

Lemma runs_resolved_read m pk legacy q :
  read_prefix now m pk legacy = Ok q → Runs (resolved now (mkNode pk (legacy_prefix legacy))) m (Ret (mkNode pk q)) m.
Proof.
  intros Hq. unfold resolved. cbn [explicit legacy_prefix n_prefix]. eapply runs_bind; [|apply runs_ret].
  eapply runs_bind; [by apply runs_get|]. cbn [n_public]. rewrite lookup_live_live. unfold read_prefix in Hq. unfold node_bytes. cbn.
  destruct (live now pk m); [rewrite Hq|injection Hq as <-]; apply runs_ret.
Qed.

(** The keys a scan finds. *)
Definition keys_under (prefix : list Z) (m : gmap (list Z) Item) : list (list Z) := item_key <$> scan_prefix now prefix m.

Lemma scanned_keys prefix items m :
  item_data <$> items = item_data <$> scan_prefix now prefix m → item_key <$> items = keys_under prefix m.
Proof.
  intros Hit. apply (f_equal (fmap (λ d : list Z * list Z * Z, d.1.1))) in Hit. by rewrite <- !list_fmap_compose in Hit.
Qed.

Lemma keys_under_elem prefix m k :
  keyed m → k ∈ keys_under prefix m ↔ starts_with prefix k = true ∧ is_Some (live now k m).
Proof.
  intros Hk. unfold keys_under. rewrite list_elem_of_fmap. split.
  - intros (i & -> & ([k' Hi] & Hst & Hx)%scan_prefix_elem). pose proof (Hk _ _ Hi) as E. subst k'. split; [done|]. exists i. by apply live_Some.
  - intros [Hst [i [Hi Hx]%live_Some]]. pose proof (Hk _ _ Hi) as E. exists i. split; [done|]. apply scan_prefix_elem.
    split_and!; [eauto|by rewrite E|done].
Qed.

(** What clearing deletes. *)
Definition cleared_keys (q : ElementPrefix) (m : gmap (list Z) Item) : list (list Z) :=
  keys_under (score_prefix (prefix_bytes q)) m ++ keys_under (member_prefix (prefix_bytes q)) m.

Lemma delete_all_app ks1 ks2 m : delete_all (ks1 ++ ks2) m = delete_all ks2 (delete_all ks1 m).
Proof. apply foldl_app. Qed.

Lemma zruns_clear m pk legacy q :
  good m → read_prefix now m pk legacy = Ok q →
  ∃ m', Runs (clear_internal_keys now (mkNode pk (legacy_prefix legacy))) m (Ret ()) m' ∧ cleared now pk q m m'.
Proof.
  intros Hg Hq. exists (delete pk (delete_all (cleared_keys q m) m)). split.
  - eapply runs_bind; [by apply runs_resolved_read|]. apply (runs_scan_bind (raw:=raw) (ok:=ok) Hnow). intros items1 H1.
    apply (runs_scan_bind (raw:=raw) (ok:=ok) Hnow). intros items2 H2. rewrite (scanned_keys _ _ _ H1), (scanned_keys _ _ _ H2).
    eapply runs_bind; [apply zruns_delete_keys|]. eapply runs_bind; [apply zruns_delete_keys|]. rewrite <- delete_all_app. apply runs_del.
  - assert (∀ k, k ∈ cleared_keys q m ↔ zkey (prefix_bytes q) k ∧ is_Some (live now k m)) as Hin.
    { intros k. unfold cleared_keys. rewrite elem_of_app, !keys_under_elem, zkey_starts by apply Hg. tauto. }
    split.
    + by apply good_delete, delete_all_good.
    + etransitivity; [apply delete_subseteq|]. apply map_subseteq_spec. intros k i. rewrite delete_all_lookup. by case_bool_decide.
    + apply lookup_delete_eq.
    + intros k Hk. destruct (decide (k = pk)) as [->|Hne]; [apply live_delete|]. rewrite live_delete_ne by done.
      unfold live, lookup_live. rewrite delete_all_lookup. case_bool_decide as Hd; [done|].
      destruct (live now k m) as [i|] eqn:El; [exfalso; apply Hd, Hin; eauto|]. exact El.
    + intros k Hne Hk. rewrite lookup_delete_ne, delete_all_lookup by done. rewrite bool_decide_false; [done|]. intros [? _]%Hin. done.
Qed.

Lemma zentries_empty_sub m m' p : m' ⊆ m → zentries now m p ∅ → zentries now m' p ∅.
Proof.
  intros Hsub [Hm Hs Hok].
  assert (∀ k, live now k m = None → live now k m' = None) as Hl.
  { intros k Hk. destruct (live now k m') as [i|] eqn:E; [|done]. apply live_Some in E as [Hi Hx].
    rewrite (proj2 (live_Some now k m i)) in Hk; [done|]. split; [|done]. by eapply lookup_weaken. }
  split; [| |done].
  - intros f. specialize (Hm f). rewrite lookup_empty in *. rewrite Hl; [done|]. by destruct (live now (member_key p f) m).
  - intros g. split; [|by intros (f & t & Hf & _)]. rewrite Hl; [by intros []|].
    destruct (live now (score_prefix p ++ g) m) eqn:E; [|done]. destruct (proj1 (Hs g)) as (f & t & Hf & _); [by rewrite E|done].
Qed.

Lemma runs_set_members p l m z :
  good m → zentries now m p z → NoDup l.*1 → (∀ e, e ∈ l → z !! e.1 = None) → Forall (λ e, f64_ok e.2) l →
  ∃ m', Runs (set_members now p l) m (Ret ()) m' ∧
    zrewritten now p m m' (fold_left (λ (z : gmap (list Z) Z) (e : list Z * Z), <[e.1 := e.2]> z) l z).
Proof.
  revert m z. induction l as [|[f t] l IH]; intros m z Hg He Hnd Hnew Hok.
  { exists m. split; [apply runs_ret|by apply zrewritten_refl]. }
  rewrite fmap_cons in Hnd. apply NoDup_cons in Hnd as [Hnot Hnd]. apply Forall_cons in Hok as [Ht Hok].
  destruct (runs_add_member (raw:=raw) (ok:=ok) Hnow p t f m z) as (m1 & H1 & Hr1); [done..|apply (Hnew (f, t)); left|].
  destruct (IH m1 (<[f := t]> z)) as (m2 & H2 & Hr2); [apply Hr1|apply Hr1|done| |done|].
  { intros e He'. rewrite lookup_insert_ne; [apply Hnew; by right|]. intros E. apply Hnot. cbn. rewrite E. by apply list_elem_of_fmap_2. }
  exists m2. split; [|by eapply zrewritten_trans]. eapply runs_bind; [exact H1|exact H2].
Qed.

(** [members] replace whatever the destination held. *)
Lemma runs_store_result m pk legacy id p q members :
  good m → read_prefix now m pk legacy = Ok q → new_namespace id legacy = Ok p →
  zentries now m (prefix_bytes p) ∅ → zlayout pk p →
  NoDup members.*1 → Forall (λ e, f64_ok e.2) members → Z.of_nat (length members) < 2 ^ 32 →
  ∃ m1 m', Runs (store_zset_result now id (mkNode pk (legacy_prefix legacy)) members) m (Ret (Z.of_nat (length members))) m' ∧
    cleared now pk q m m1 ∧ good m' ∧ zstored now m' pk legacy (list_to_map members) ∧
    (∀ k : list Z, k ≠ pk → ¬ zkey (prefix_bytes p) k → m' !! k = m1 !! k).
Proof.
  intros Hg Hq Hnew He Hlay Hnd Hok Hlen. destruct (zruns_clear m pk legacy q Hg Hq) as (m1 & H1 & Hcl).
  pose proof (zentries_empty_sub m m1 _ (cl_sub _ _ _ _ _ Hcl) He) as He1.
  assert (live now pk m1 = None) as Hl1. { unfold live, lookup_live. by rewrite (cl_public _ _ _ _ _ Hcl). }
  assert (zwritable now m1 pk legacy id p ∅) as Hw.
  { split; [|done|done|done]. rewrite Hl1. split_and!; [done|by eapply new_namespace_explicit|done]. }
  destruct (runs_set_members (prefix_bytes p) members m1 ∅) as (m2 & H2 & Hr2); [apply Hcl|done..|].
  assert (fold_left (λ (z : gmap (list Z) Z) (e : list Z * Z), <[e.1 := e.2]> z) members ∅ = list_to_map members) as E.
  { apply map_eq. intros f. rewrite fold_insert_lookup by done. by destruct ((list_to_map members : gmap (list Z) Z) !! f). }
  rewrite E in Hr2.
  assert (size (list_to_map members : gmap (list Z) Z) = length members) as Hsz.
  { rewrite <- length_map_to_list. by rewrite map_to_list_to_map. }
  destruct (runs_zwrite_any (raw:=raw) (ok:=ok) Hnow m1 pk legacy id p ∅ m2 _ Hw Hr2) as (m3 & H3 & ? & ? & ? & _); [by rewrite Hsz|].
  exists m1, m3. split_and!; [|done..]. eapply runs_bind; [exact H1|]. unfold node_bytes. cbn [n_prefix n_public prefix_bytes legacy_prefix].
  rewrite Hnew. eapply runs_bind; [apply runs_ret|]. eapply runs_bind; [exact H2|]. eapply runs_bind; [|apply runs_ret].
  rewrite as_u32_small by lia. by rewrite Hsz in H3.
Qed.
End Store.

(** ** The commands *)
Lemma slice_ok z : scores_ok z → Forall (λ e : list Z * Z, f64_ok e.2) (zset_to_slice z).
Proof. intros Hz. apply Forall_forall. intros [f t] Hf%zset_to_slice_elem. by eapply Hz. Qed.

Lemma sublist_ranked_ok z l : scores_ok z → sublist l (ranked z) → Forall (λ e : list Z * Z, f64_ok e.2) l ∧ NoDup l.*1.
Proof.
  intros Hz Hl. destruct (sublist_chosen l z Hl) as [Hnd Hin]. split; [|done].
  apply Forall_forall. intros [f t] Hf. by eapply Hz, (Hin (f, t)).
Qed.

(** ZDIFF, ZINTER and ZUNION reply the combination of the sets. The reply lists, by
    score and then by name, exactly the members [combine_at] gives a score: for ZDIFF those
    of the first set that are in none of the others, with their scores; for ZINTER those of
    all sets and for ZUNION those of any, with the aggregate of the scores they have in the
    order of the keys, multiplied by the first weight. The sets are left as they are. *)
Theorem zset_combination_spec T `{!TxOps T} (raw : T → gmap (list Z) Item) (ok : T → Prop) (now : Z)
    (s : Session T) (keys : list (list Z)) (zs : list (gmap (list Z) Z)) (m : gmap (list Z) Item)
    (kind : SetOpKind) (aggregate weights : list Z) (with_scores : bool) :
  TxLaws T raw ok → TxScanLaws T raw ok → clock_ok now → good m → zsets_at (now:=now) s m keys zs →
  ∃ l, Runs (raw:=raw) (ok:=ok) (SetOp now (node_new s <$> keys) aggregate weights with_scores kind) m
      (Ret (RList (flatten_members l with_scores))) m ∧
    (∀ f t, (f, t) ∈ l ↔ combine_at kind aggregate weights zs f = Some t) ∧
    NoDup l.*1 ∧ Sorted score_then_member_le l.
Proof.
  intros HT HS Hnow Hg Hz. exists (zset_to_slice (combined_map kind aggregate weights zs)). split_and!.
  - eapply runs_bind; [by apply (zruns_combined Hnow)|]. apply runs_ret.
  - intros f t. rewrite zset_to_slice_elem. by rewrite combined_map_lookup.
  - apply zset_to_slice_nodup.
  - apply zset_to_slice_sorted.
Qed.

(** C22: ZDIFFSTORE, ZINTERSTORE and ZUNIONSTORE replace the destination by the combination,
    also when the destination is one of the sets. Afterwards the destination holds exactly
    the members [combine_at] gives a score, in a namespace of its own, the reply is their
    number, nothing is left of the indexes of the set it held, and no other entry of the
    store has changed. *)
Theorem zset_store_replaces T `{!TxOps T} (raw : T → gmap (list Z) Item) (ok : T → Prop) (now : Z)
    (s : Session T) (id dest : list Z) (keys : list (list Z)) (zs : list (gmap (list Z) Z)) (m : gmap (list Z) Item)
    (kind : SetOpKind) (aggregate weights : list Z) (q : ElementPrefix) :
  TxLaws T raw ok → TxScanLaws T raw ok → clock_ok now → session_ok s → key_ok dest →
  good m → zsets_at (now:=now) s m keys zs → zunused (now:=now) s m id →
  read_prefix now m (public_key s dest) (private_key s dest) = Ok q →
  zsize (combined_map kind aggregate weights zs) < 2 ^ 32 →
  ∃ m' z', Runs (raw:=raw) (ok:=ok) (StoreSetOp now id (node_new s dest) (node_new s <$> keys) aggregate weights kind) m
      (Ret (RInt (zsize z'))) m' ∧
    good m' ∧ zset_at (now:=now) s dest m' z' ∧ (∀ f, z' !! f = combine_at kind aggregate weights zs f) ∧
    (∀ k, k ≠ public_key s dest → zkey (prefix_bytes q) k → ¬ zkey (namespace_of s id) k → live now k m' = None) ∧
    (∀ k, k ≠ public_key s dest → ¬ zkey (prefix_bytes q) k → ¬ zkey (namespace_of s id) k → m' !! k = m !! k).
Proof.
  intros HT HS Hnow Hs Hd Hg Hz Hun Hq Hsize. set (z' := combined_map kind aggregate weights zs) in *.
  destruct (zunused_fresh s dest Hs Hd m id Hun) as (p & Hnew & He & Hlay).
  pose proof (session_namespace s Hs dest id) as Hns. rewrite Hnew in Hns. injection Hns as ->.
  destruct (runs_store_result (raw:=raw) (ok:=ok) Hnow m _ _ id _ q (zset_to_slice z') Hg Hq Hnew He Hlay) as (m1 & m' & Hrun & Hcl & Hg' & Hst & Hf).
  - apply zset_to_slice_nodup.
  - apply slice_ok, scores_ok_combined. by eapply scores_ok_sets.
  - by rewrite zset_to_slice_length.
  - rewrite zset_to_slice_map in Hst. rewrite zset_to_slice_length in Hrun. exists m', z'.
    split_and!; [|exact Hg'|exact Hst|intros f; apply combined_map_lookup| |].
    + eapply runs_bind; [by apply (zruns_combined Hnow)|]. eapply runs_bind; [exact Hrun|]. apply runs_ret.
    + intros k Hne Hk Hnk. unfold live, lookup_live. rewrite Hf by done. exact (cl_gone _ _ _ _ _ Hcl k Hk).
    + intros k Hne Hk Hnk. rewrite Hf by done. by apply (cl_frame _ _ _ _ _ Hcl).
Qed.

(** ZRANGESTORE: positions [start] to [stop] of the source, whatever the destination held. *)
Lemma zrangestore_spec T `{!TxOps T} (raw : T → gmap (list Z) Item) (ok : T → Prop) (now : Z)
    (s : Session T) (id dest src : list Z) (z : gmap (list Z) Z) (m : gmap (list Z) Item) (start stop : Z) (q : ElementPrefix) :
  TxLaws T raw ok → TxScanLaws T raw ok → clock_ok now → session_ok s → key_ok dest →
  good m → zset_at (now:=now) s src m z → zunused (now:=now) s m id →
  read_prefix now m (public_key s dest) (private_key s dest) = Ok q →
  let chosen := by_rank start stop (ranked z) in
  Z.of_nat (length chosen) < 2 ^ 32 →
  ∃ m', Runs (raw:=raw) (ok:=ok) (ZRangeStoreOp now id (node_new s dest) (node_new s src) start stop) m
      (Ret (RInt (Z.of_nat (length chosen)))) m' ∧
    good m' ∧ zset_at (now:=now) s dest m' (list_to_map chosen).
Proof.
  intros HT HS Hnow Hs Hd Hg Hz Hun Hq chosen Hlen. destruct (zunused_fresh s dest Hs Hd m id Hun) as (p & Hnew & He & Hlay).
  destruct (runs_load_stored (raw:=raw) (ok:=ok) Hnow m _ _ z Hg Hz) as (_ & _ & _ & Hload).
  destruct (sublist_ranked_ok z chosen (zstored_scores_ok _ _ _ _ Hz) (sublist_by_rank _ _ _)) as [Hok Hnd].
  destruct (runs_store_result (raw:=raw) (ok:=ok) Hnow m _ _ id _ q chosen Hg Hq Hnew He Hlay Hnd Hok Hlen) as (m1 & m' & Hrun & _ & Hg' & Hst & _).
  exists m'. split_and!; [|done..]. eapply runs_bind; [exact Hload|]. eapply runs_bind; [exact Hrun|]. apply runs_ret.
Qed.

(** ** A store with a set *)
Lemma zentries_unused (m : gmap (list Z) Item) now p : map_Forall (λ k _, starts_with p k = false) m → zentries now m p ∅.
Proof.
  intros Hm. assert (∀ g, live now (p ++ g) m = None) as Hl.
  { intros g. destruct (live now (p ++ g) m) as [i|] eqn:E; [|done]. apply live_Some in E as [Hi _].
    specialize (Hm _ _ Hi). cbn beta in Hm. by rewrite starts_with_app in Hm. }
  split; [| |apply scores_ok_empty].
  - intros f. unfold member_key. by rewrite Hl.
  - intros g. unfold score_prefix. rewrite <- app_assoc, Hl. split; [by intros []|]. by intros (f & t & H & _).
Qed.

Definition demo_add : list (list Z * zcmd) := [(id_of 1, CAdd [B "2"; B "b"; B "-1"; B "a"])].
Definition demo_store : gmap (list Z) Item := (zset_script (now:=5) demo_session (B "z") demo_add ∅).2.
Definition demo_set : gmap (list Z) Z := {[B "a" := f64_of (B "-1"); B "b" := f64_of (B "2")]}.

Lemma demo_clock : clock_ok 5.
Proof. unfold clock_ok. width_lia. Qed.
Lemma zdemo_session_ok : session_ok demo_session.
Proof. unfold session_ok. simpl. width_lia. Qed.

Lemma demo_stored : good demo_store ∧ zset_at (now:=5) demo_session (B "z") demo_store demo_set.
Proof.
  destruct (zset_script_runs (raw:=id) (ok:=λ _, True) (HT:=map_laws) (HS:=map_scan_laws) demo_clock demo_session (B "z") zdemo_session_ok
    ltac:(vm_compute; done) demo_add ∅ ∅) as (m' & Hrun & Hg & Hz & _).
  - apply good_empty.
  - by apply zstored_none.
  - apply zspare_empty; by apply (bool_decide_unpack _).
  - apply (bool_decide_unpack _). vm_compute. exact I.
  - destruct (Hrun ∅ I eq_refl) as (t' & E & _ & Ht). cbn [id] in Ht. subst t'.
    assert (demo_store = m') as -> by exact (f_equal snd E).
    replace demo_set with (zrun demo_add ∅).2 by (vm_compute; reflexivity). done.
Qed.

Lemma zset_combination_spec_witness :
  ∃ l, Runs (raw:=id) (ok:=λ _, True) (SetOp 5 (node_new demo_session <$> [B "z"; B "z"]) (B "sum") [f64_of (B "0.5")] true Union) demo_store
      (Ret (RList (flatten_members l true))) demo_store ∧ (B "b", f64_of (B "2")) ∈ l.
Proof.
  destruct (zset_combination_spec (gmap (list Z) Item) id (λ _, True) 5 demo_session [B "z"; B "z"] [demo_set; demo_set] demo_store
    Union (B "sum") [f64_of (B "0.5")] true) as (l & Hrun & Hl & _).
  - apply map_laws.
  - apply map_scan_laws.
  - apply demo_clock.
  - apply demo_stored.
  - repeat (constructor; [apply demo_stored|]). constructor.
  - exists l. split; [exact Hrun|]. apply Hl. vm_compute. reflexivity.
Defined.

Lemma zset_store_replaces_witness :
  ∃ m' z', Runs (raw:=id) (ok:=λ _, True)
      (StoreSetOp 5 (id_of 2) (node_new demo_session (B "z")) (node_new demo_session <$> [B "z"; B "z"]) (B "max") [f64_of (B "3")] Inter)
      demo_store (Ret (RInt (zsize z'))) m' ∧
    zset_at (now:=5) demo_session (B "z") m' z' ∧ z' !! B "a" = Some (f64_of (B "-3")).
Proof.
  destruct (zset_store_replaces (gmap (list Z) Item) id (λ _, True) 5 demo_session (id_of 2) (B "z") [B "z"; B "z"] [demo_set; demo_set] demo_store
    Inter (B "max") [f64_of (B "3")] (explicit_prefix (namespace_of demo_session (id_of 1)))) as (m' & z' & Hrun & _ & Hz & Hl & _).
  - apply map_laws.
  - apply map_scan_laws.
  - apply demo_clock.
  - apply zdemo_session_ok.
  - vm_compute. done.
  - apply demo_stored.
  - repeat (constructor; [apply demo_stored|]). constructor.
  - split; [done|]. apply zentries_unused. apply (bool_decide_unpack _). vm_compute. exact I.
  - vm_compute. reflexivity.
  - vm_compute. done.
  - exists m', z'. split; [exact Hrun|]. split; [exact Hz|]. rewrite Hl. vm_compute. reflexivity.
Defined.
