(* ===== verification/ZSetBlock.v ===== *)
(** * BZPOPMIN and BZPOPMAX: src/redis/zset.rs

    The pop from the first of several sorted sets that has members, in a transaction of the
    caller ([BzpopOp] of ZSet) and in a transaction of its own for a client that may wait:
    try, commit or discard, and only then register with the watch registry and wait.
    Proved: the pop takes the lowest or highest member of the first set that has one.
    Unlike XREAD the client registers after it has looked, and a ZADD in between is missed
    ([bzpop_misses_write]). *)
From S2P Require Import Prelude Bytes Float64 Resp Kv Registry StreamCodec Op Namespace Session Rand Elements ZSet ZSetStore ZSetSpec ZSetAlgebra.
Import MapTx.

(** ** The client *)

(** Where the client is: before its transaction; with the transaction begun; with nothing
    found and the transaction discarded; waiting; done. *)
Inductive bclient (T : Type) : Type :=
| BStart
| BTrying (now : Z) (t : T)
| BEmpty
| BWaiting (w : Waiter)
| BDone (r : outcome (option PopResult) DbError).
Arguments BStart {T}.
Arguments BTrying {T} _ _.
Arguments BEmpty {T}.
Arguments BWaiting {T} _.
Arguments BDone {T} _.

(** [Duration::from_secs_f64] panics from 2^64 seconds on. *)
Definition f64_2_64 : Z := 1087 * 2 ^ 52.
Definition wait_time (timeout : Z) : outcome (option Z) DbError :=
  if is_finite timeout && f64_gt timeout f64_zero
  then if f64_ge timeout f64_2_64 then Panic else Ret (Some timeout)
  else Ret None.
Definition has_deadline (timeout : Z) : bool := match wait_time timeout with Ret (Some _) => true | _ => false end.

Section Client.
Context {S T : Type} `{!TxOps T, !StoreOps S T}.
Context (nodes : list (NodeRef * list Z)) (timeout : Z) (want_min : bool).

Definition node_keys : list (list Z) := (λ e, n_public e.1) <$> nodes.

(** What [WatchRegistry::block] makes of what is received. *)
Definition received (b : option BlockResult) : option PopResult :=
  match b with Some (PopDone p) => Some p | Some (StreamDone _) | None => None end.

(** One step of the client, at a time when its deadline is [expired] or not. A client that
    waits without a deadline never expires. *)
Definition bclient_step (c : bclient T) (now : Z) (expired : bool) (st : S) (reg : WatchRegistry)
  : bclient T * S * WatchRegistry :=
  match c with
  | BStart =>
      match st_begin true Snapshot st with
      | (Ok t, st) => (BTrying now t, st, reg)
      | (Err e, st) => (BDone (Fail (Kv e)), st, reg)
      end
  | BTrying now t =>
      match try_pop now nodes want_min t with
      | (Ret (Some p), t) =>
          match st_commit t st with
          | (Ok _, st) => (BDone (Ret (Some p)), st, reg)
          | (Err e, st) => (BDone (Fail (Kv e)), st, reg)
          end
      | (Ret None, t) => (BEmpty, st_discard t st, reg)
      | (Fail e, t) => (BDone (Fail e), st_discard t st, reg)
      | (Panic, t) => (BDone Panic, st, reg)
      end
  | BEmpty =>
      match wait_time timeout with
      | Ret _ => let '(w, reg) := register reg node_keys (Pop want_min) in (BWaiting w, st, reg)
      | _ => (BDone Panic, st, reg)
      end
  | BWaiting w =>
      match poll reg (w_id w) with
      | Some b => (BDone (Ret (received b)), st, drop_registration reg w)
      | None =>
          if expired && has_deadline timeout then
            match on_timeout reg w with
            | (GiveUp, reg) => (BDone (Ret None), st, drop_registration reg w)
            | (KeepWaiting, reg) => (BWaiting w, st, reg)
            end
          else (c, st, reg)
      end
  | BDone _ => (c, st, reg)
  end.
End Client.

(** ** The first set that has members *)

(** The position, and the member taken. *)
Fixpoint first_pop (want_min : bool) (zs : list (gmap (list Z) Z)) : option (nat * (list Z * Z)) :=
  match zs with
  | [] => None
  | z :: zs' =>
      match extreme want_min z with
      | Some e => Some (0%nat, e)
      | None => (λ r, (Datatypes.S r.1, r.2)) <$> first_pop want_min zs'
      end
  end.

Lemma first_pop_none want_min zs : first_pop want_min zs = None ↔ Forall (λ z, z = ∅) zs.
Proof.
  induction zs as [|z zs IH]; cbn [first_pop]; [split; [by constructor|done]|]. rewrite Forall_cons.
  destruct (extreme want_min z) as [e|] eqn:E.
  - split; [done|]. intros [-> _]. unfold extreme in E. rewrite ranked_empty in E. by destruct want_min.
  - assert (z = ∅) as ->.
    { destruct (decide (z = ∅)); [done|]. destruct (extreme_is_Some want_min z) as [e He]; [done|congruence]. }
    rewrite fmap_None, IH. naive_solver.
Qed.

Lemma first_pop_some want_min zs i e :
  first_pop want_min zs = Some (i, e) →
  ∃ z, zs !! i = Some z ∧ extreme want_min z = Some e ∧ Forall (λ z, z = ∅) (take i zs).
Proof.
  revert i. induction zs as [|z zs IH]; intros i; cbn [first_pop]; [done|].
  destruct (extreme want_min z) as [e'|] eqn:E; [intros [= <- <-]; by exists z|].
  destruct (first_pop want_min zs) as [[j e']|] eqn:Ef; [|done]. intros [= <- <-].
  destruct (IH j eq_refl) as (z' & Hj & He & Hp). exists z'. split_and!; [done..|]. cbn [take]. constructor; [|done].
  destruct (decide (z = ∅)); [done|]. destruct (extreme_is_Some want_min z) as [x Hx]; [done|congruence].
Qed.

Section Runs.
Context {T : Type} `{!TxOps T} {raw : T → gmap (list Z) Item} {ok : T → Prop}.
Context `{HT : !TxLaws T raw ok, HS : !TxScanLaws T raw ok} {now : Z} (Hnow : clock_ok now).
#[local] Abbreviation Runs := (Runs (raw:=raw) (ok:=ok)).

(** A pop from a set, which may be missing. *)
Lemma runs_pop_stored want_min m pk legacy z :
  good m → zstored now m pk legacy z →
  match extreme want_min z with
  | None => Runs (pop_one now want_min (mkNode pk (legacy_prefix legacy))) m (Ret None) m
  | Some e => ∃ m' p, Runs (pop_one now want_min (mkNode pk (legacy_prefix legacy))) m (Ret (Some e)) m' ∧
      zupdated now m pk legacy p m' (delete e.1 z)
  end.
Proof.
  intros Hg Hz. destruct (runs_load_stored (raw:=raw) (ok:=ok) Hnow m pk legacy z Hg Hz) as (q & Hr & Hload & _).
  destruct Hz as [El|i p z' Hat].
  - unfold extreme. rewrite ranked_empty. destruct want_min; cbn [head last];
      (eapply runs_bind; [exact Hr|]; eapply runs_bind; [exact Hload|]; apply runs_ret).
  - pose proof (zstored_at_writable _ _ _ _ [] _ _ _ Hat) as Hw. pose proof (zs_live _ _ _ _ _ _ _ Hat) as Hl.
    destruct (runs_resolved (raw:=raw) (ok:=ok) Hnow m pk legacy [] p z' Hw) as (q' & Hr' & Hq & _).
    rewrite Hq in Hr' by (by eexists).
    pose proof (runs_pop_one (raw:=raw) (ok:=ok) Hnow want_min _ m pk legacy [] p z' Hg Hw ltac:(by eexists) Hr') as Hpop.
    destruct (extreme want_min z') as [e|]; [|done]. destruct Hpop as (m' & H1 & H2). by exists m', p.
Qed.

Context (s : Session T).

Lemma runs_try_pop want_min m keys zs :
  good m → zsets_at (now:=now) s m keys zs →
  match first_pop want_min zs with
  | None => Runs (try_pop now ((λ k, (node_new s k, k)) <$> keys) want_min) m (Ret None) m
  | Some (i, (f, score)) => ∃ m' p key z, keys !! i = Some key ∧ zs !! i = Some z ∧
      Runs (try_pop now ((λ k, (node_new s k, k)) <$> keys) want_min) m (Ret (Some (mkPop key f score))) m' ∧
      zupdated now m (public_key s key) (private_key s key) p m' (delete f z)
  end.
Proof.
  intros Hg Hz. induction Hz as [|key z keys zs Hz Hzs IH]; [apply runs_ret|]. rewrite fmap_cons. cbn [first_pop try_pop].
  pose proof (runs_pop_stored want_min m _ _ z Hg Hz) as Hpop. destruct (extreme want_min z) as [[f score]|].
  - destruct Hpop as (m' & p & H1 & Hu). exists m', p, key, z. split_and!; [done..| |done].
    eapply runs_bind; [exact H1|]. apply runs_ret.
  - destruct (first_pop want_min zs) as [[i [f score]]|]; cbn [fmap option_fmap option_map fst snd].
    + destruct IH as (m' & p & key' & z' & Hk & Hzi & H1 & Hu). exists m', p, key', z'. split_and!; [done..| |done].
      eapply runs_bind; [exact Hpop|exact H1].
    + eapply runs_bind; [exact Hpop|exact IH].
Qed.
End Runs.

(** BZPOPMIN and BZPOPMAX without waiting take from the first set that has members. In
    the order of the keys, the first set that is not empty loses its lowest or highest
    member by score and then by name, and the reply names that key, the member and its
    score; the other sets are not touched. When all sets are empty or missing nothing
    changes and there is no pop. *)
Theorem bzpop_takes_first T `{!TxOps T} (raw : T → gmap (list Z) Item) (ok : T → Prop) (now : Z)
    (s : Session T) (want_min : bool) (keys : list (list Z)) (zs : list (gmap (list Z) Z)) (m : gmap (list Z) Item) :
  TxLaws T raw ok → TxScanLaws T raw ok → clock_ok now → good m → zsets_at (now:=now) s m keys zs →
  let op := BzpopOp now ((λ k, (node_new s k, k)) <$> keys) want_min in
  match first_pop want_min zs with
  | None => Forall (λ z, z = ∅) zs ∧ Runs (raw:=raw) (ok:=ok) op m (Ret (ROptPop None)) m
  | Some (i, (f, score)) => ∃ m' p key z, keys !! i = Some key ∧ zs !! i = Some z ∧ z !! f = Some score ∧
      extreme want_min z = Some (f, score) ∧ Forall (λ z, z = ∅) (take i zs) ∧
      Runs (raw:=raw) (ok:=ok) op m (Ret (ROptPop (Some (mkPop key f score)))) m' ∧
      zupdated now m (public_key s key) (private_key s key) p m' (delete f z)
  end.
Proof.
  intros HT HS Hnow Hg Hz op. pose proof (runs_try_pop (raw:=raw) (ok:=ok) Hnow s want_min m keys zs Hg Hz) as Hrun.
  pose proof (first_pop_none want_min zs) as Hnone. destruct (first_pop want_min zs) as [[i [f score]]|] eqn:E.
  - destruct Hrun as (m' & p & key & z & Hk & Hzi & H1 & Hu). destruct (first_pop_some _ _ _ _ E) as (z' & Hz' & He & Hpre).
    assert (z' = z) as -> by congruence. exists m', p, key, z.
    split_and!; [done|done|by eapply extreme_lookup|done|done| |done]. eapply runs_bind; [exact H1|]. apply runs_ret.
  - split; [by apply Hnone|]. eapply runs_bind; [exact Hrun|]. apply runs_ret.
Qed.

Lemma bzpop_takes_first_witness :
  ∃ m' p, Runs (raw:=id) (ok:=λ _, True) (BzpopOp 5 ((λ k, (node_new demo_session k, k)) <$> [B "z"; B "z"]) false) demo_store
      (Ret (ROptPop (Some (mkPop (B "z") (B "b") (f64_of (B "2")))))) m' ∧
    zupdated 5 demo_store (public_key demo_session (B "z")) (private_key demo_session (B "z")) p m' (delete (B "b") demo_set).
Proof.
  assert (zsets_at (now:=5) demo_session demo_store [B "z"; B "z"] [demo_set; demo_set]) as Hz
    by (repeat (constructor; [apply demo_stored|]); constructor).
  pose proof (bzpop_takes_first (gmap (list Z) Item) id (λ _, True) 5 demo_session false [B "z"; B "z"] [demo_set; demo_set] demo_store
    map_laws map_scan_laws demo_clock (proj1 demo_stored) Hz) as H.
  assert (first_pop false [demo_set; demo_set] = Some (0%nat, (B "b", f64_of (B "2")))) as E by (vm_compute; reflexivity).
  cbv zeta in H. rewrite E in H. destruct H as (m' & p & key & z & Hk & Hz' & _ & _ & _ & Hrun & Hu).
  injection Hk as <-. injection Hz' as <-. exists m', p. split; [exact Hrun|exact Hu].
Defined.

(** ** A write that is missed *)

(** A client looks at an empty set, a ZADD commits while nobody is registered, and the
    client then registers and waits although the set has a member, which nobody will pop for
    it. *)
Section Missed.
Import MapStore.

Definition miss_nodes : list (NodeRef * list Z) := [(node_new (session_new 1 : Session OccTx) (B "z"), B "z")].
Definition client_moves (c : bclient OccTx) (st : gmap (list Z) Item) (reg : WatchRegistry) : bclient OccTx * gmap (list Z) Item * WatchRegistry :=
  bclient_step miss_nodes f64_zero true c 5 false st reg.

(** The ZADD of another client, committed. *)
Definition zadd_commits (st : gmap (list Z) Item) (reg : WatchRegistry) : gmap (list Z) Item * WatchRegistry :=
  let '((_, t), reg) := ZAddOp_run 5 (id_of 1) (node_new (session_new 1 : Session OccTx) (B "z")) (B "z") [B "1"; B "a"] (occ_begin Snapshot st) reg in
  ((st_commit t st).2, reg).

Definition missed_run : bclient OccTx * gmap (list Z) Item * WatchRegistry :=
  let '(c, st, reg) := client_moves BStart ∅ registry_new in
  let '(c, st, reg) := client_moves c st reg in
  let '(st, reg) := zadd_commits st reg in
  let '(c, st, reg) := client_moves c st reg in
  client_moves c st reg.

Definition still_waiting (c : bclient OccTx) (reg : WatchRegistry) : bool :=
  match c with BWaiting w => match poll reg (w_id w) with None => true | Some _ => false end | _ => false end.

Lemma bzpop_misses_write :
  still_waiting missed_run.1.1 missed_run.2 = true ∧
  (load_all_members 5 (node_new (session_new 1 : Session OccTx) (B "z")) (occ_begin Snapshot missed_run.1.2)).1 =
    Ret [(B "a", f64_of (B "1"))].
Proof. split; vm_compute; reflexivity. Qed.
End Missed.

(** A timeout of 2^64 seconds or more is accepted and panics when the client would wait. *)
Lemma bzpop_huge_timeout : wait_time (f64_of (B "1e20")) = Panic ∧ wait_time (f64_of (B "1e19")) ≠ Panic.
Proof. split; vm_compute; [reflexivity|discriminate]. Qed.
