(* ===== verification/Bloom.v ===== *)
(** * Bloom filters: src/redis/bloom.rs

    A filter is a sentinel with its parameters, one record per sub-filter, and pages of 4096
    bytes that hold the bits of the sub-filters. This file has the hash functions, the
    encodings, adding and probing, the database and wire halves of the commands and the
    queued commands. The natural logarithm, whose last bits the standard library leaves
    open, is the argument [ln]; the random words of a namespace are an argument too. *)
From S2P Require Import Prelude Bytes Float64 Resp Kv Registry Op Namespace Session Elements.
From S2P Require Hash.

Definition PAGE_SIZE : Z := 4096.
Definition PAGE_BITS : Z := PAGE_SIZE * 8.
Definition DEF_CAP : Z := 100.
Definition DEF_ERR : Z := 0x3F847AE147AE147B.
Definition DEF_EXP : Z := 2.
Definition META_HEADER : nat := 4.
Definition FILTER_META : nat := 60.
Definition MAX_HASHES : Z := 64.
Definition TYPE_BLOOM : Z := type_byte VBloom.
Definition internal_error : RespValue := Error (B "ERR internal error").

Record SubFilterMeta : Type := mkFilter {
  f_id : Z;
  f_capacity : Z;
  f_inserted : Z;
  f_error_rate : Z;
  f_num_hashes : Z;
  f_num_bits : Z;
  f_seed1 : Z;
  f_seed2 : Z
}.

Record BloomMeta : Type := mkBloomMeta {
  b_expansion : Z;
  b_non_scaling : bool;
  b_filters : list SubFilterMeta
}.

(** ** Hashing *)

Definition fnv1a64 (data : list Z) : Z :=
  fold_left (λ hash b, as_u64 (Z.lxor hash b * 0x100000001b3)) data 0xcbf29ce484222325.

Definition bloom_hash (data : list Z) (seed : Z) : Z := fnv1a64 (le_bytes 8 seed ++ data).

Definition sub_filter_seeds (filter_id : Z) : Z * Z :=
  (fnv1a64 (le_bytes 8 filter_id ++ le_bytes 8 0), fnv1a64 (le_bytes 8 filter_id ++ le_bytes 8 1)).

(** ** Parameters *)

Definition LN_2 : Z := 0x3FE62E42FEFA39EF.
Definition f64_half : Z := 1022 * 2 ^ 52.
Definition f64_two : Z := 1024 * 2 ^ 52.

Section Params.
Context (ln : Z → Z).

Definition compute_bloom_params (capacity error_rate : Z) : Z * Z :=
  let error_rate := if f64_le error_rate f64_zero then DEF_ERR else error_rate in
  let capacity := if capacity <? 1 then 1 else capacity in
  let num_bits :=
    f64_to_u64 (f64_max (f64_ceil (f64_div (f64_mul (f64_neg (f64_of_Z capacity)) (ln error_rate)) (f64_mul LN_2 LN_2))) f64_one) in
  let num_hashes :=
    f64_to_u32 (f64_min (f64_max (f64_round (f64_mul (f64_div (f64_of_Z num_bits) (f64_of_Z capacity)) LN_2)) f64_one)
                  (f64_of_Z MAX_HASHES)) in
  (num_bits, num_hashes).

Definition sub_filter_error_rate (target_rate index : Z) : Z := f64_mul target_rate (powi f64_half (as_i32 (index + 1))).

(** The product wraps. *)
Definition sub_filter_capacity (base_cap expansion index : Z) : Z :=
  as_u64 (base_cap * f64_to_u64 (powi (f64_of_Z expansion) (as_i32 index))).

Definition new_sub_filter (base_capacity error_rate expansion filter_id : Z) : SubFilterMeta :=
  let cap := sub_filter_capacity base_capacity expansion filter_id in
  let err_rate := sub_filter_error_rate error_rate filter_id in
  let '(num_bits, num_hashes) := compute_bloom_params cap err_rate in
  let '(s1, s2) := sub_filter_seeds filter_id in
  mkFilter filter_id cap 0 err_rate num_hashes num_bits s1 s2.

Definition new_initial_sub_filter (capacity error_rate expansion : Z) (non_scaling : bool) : SubFilterMeta :=
  if non_scaling then
    let '(num_bits, num_hashes) := compute_bloom_params capacity error_rate in
    let '(s1, s2) := sub_filter_seeds 0 in
    mkFilter 0 capacity 0 error_rate num_hashes num_bits s1 s2
  else new_sub_filter capacity error_rate expansion 0.
End Params.

(** ** Bits *)

(** Indexing past the end of a page panics. *)
Definition test_bit (page : list Z) (idx : Z) : option bool :=
  (λ b, negb (Z.land b (Z.shiftl 1 (idx mod 8)) =? 0)) <$> page !! Z.to_nat (idx / 8).
Definition set_bit (page : list Z) (idx : Z) : option (list Z) :=
  (λ b, <[Z.to_nat (idx / 8) := Z.lor b (Z.shiftl 1 (idx mod 8))]> page) <$> page !! Z.to_nat (idx / 8).

(** A remainder by zero panics. *)
Definition hash_positions (item : list Z) (num_hashes num_bits seed1 seed2 : Z) : option (list Z) :=
  let h1 := bloom_hash item seed1 in
  let h2 := bloom_hash item seed2 in
  if (num_bits =? 0) && (0 <? num_hashes) then None
  else Some ((λ i, as_u64 (h1 + as_u64 (Z.of_nat i * h2)) mod num_bits) <$> seq 0 (Z.to_nat num_hashes)).
Definition filter_positions (item : list Z) (f : SubFilterMeta) : option (list Z) :=
  hash_positions item (f_num_hashes f) (f_num_bits f) (f_seed1 f) (f_seed2 f).

(** ** Encoding *)

Definition encode_filter (f : SubFilterMeta) : list Z :=
  le_bytes 8 (f_id f) ++ le_bytes 8 (f_capacity f) ++ le_bytes 8 (f_inserted f) ++ le_bytes 8 (f_error_rate f) ++
  le_bytes 4 (f_num_hashes f) ++ le_bytes 8 (f_num_bits f) ++ le_bytes 8 (f_seed1 f) ++ le_bytes 8 (f_seed2 f).

Definition encode_meta (m : BloomMeta) : list Z :=
  let n := Nat.min (length (b_filters m)) (Z.to_nat 65535) in
  [if b_non_scaling m then 1 else 0; b_expansion m] ++ be_bytes 2 (Z.of_nat n) ++
  concat (encode_filter <$> take n (b_filters m)).

(** [data[off..off + len]] *)
Definition field (data : list Z) (off len : nat) : Z := from_le (take len (drop off data)).
Definition decode_filter (data : list Z) : SubFilterMeta :=
  mkFilter (field data 0 8) (field data 8 8) (field data 16 8) (field data 24 8) (field data 32 4) (field data 36 8)
    (field data 44 8) (field data 52 8).

Definition decode_meta (data : list Z) : result BloomMeta KvError :=
  match data with
  | flags :: expansion :: d2 :: d3 :: rest =>
      let n := Z.to_nat (from_be [d2; d3]) in
      if (length rest <? n * FILTER_META)%nat then Err KeyNotFound
      else Ok (mkBloomMeta expansion (negb (Z.land flags 1 =? 0))
                 ((λ i, decode_filter (drop (i * FILTER_META) rest)) <$> seq 0 n))
  | _ => Err KeyNotFound
  end.

Definition page_key (page_prefix : list Z) (filter_id page_num : Z) : list Z :=
  page_prefix ++ [0] ++ B "bf:" ++ to_dec filter_id ++ B ":p:" ++ to_dec page_num.

(** ** Adding and probing *)

Section Ops.
Context {T : Type} `{!TxOps T} (ln : Z → Z) (now : Z).

Definition read_meta (meta_key : list Z) : DbM T BloomMeta :=
  r ← get now meta_key;
  item ← try_kv r;
  pl ← try_db (payload item);
  try_kv (decode_meta pl).

Definition read_meta_or_nil (meta_key : list Z) : DbM T (option BloomMeta) :=
  r ← caught (read_meta meta_key);
  match r with
  | Ok m => mret (Some m)
  | Err (Kv KeyNotFound) => mret None
  | Err e => fail e
  end.

Definition write_meta (meta_key : list Z) (m : BloomMeta) (prefix : ElementPrefix) : DbM T () :=
  write_sentinel now meta_key (encode_meta m) TYPE_BLOOM prefix.

Definition read_page (key : list Z) : DbM T (list Z) :=
  item ← get_opt now key;
  mret (match item with Some item => item_value item | None => replicate (Z.to_nat PAGE_SIZE) 0 end).

Definition write_page (key data : list Z) : DbM T () := set now (with_metadata (entry_new key data) TYPE_BLOOM).

(** The pages of the positions, each read once. *)
Fixpoint load_pages (prefix : list Z) (id : Z) (positions : list Z) (pages : gmap Z (list Z)) : DbM T (gmap Z (list Z)) :=
  match positions with
  | [] => mret pages
  | pos :: positions' =>
      let n := pos / PAGE_BITS in
      match pages !! n with
      | Some _ => load_pages prefix id positions' pages
      | None =>
          data ← read_page (page_key prefix id n);
          load_pages prefix id positions' (<[n := data]> pages)
      end
  end.

(** [positions.iter().all(..)], which stops at the first bit that is not set. *)
Fixpoint all_set (pages : gmap Z (list Z)) (positions : list Z) : option bool :=
  match positions with
  | [] => Some true
  | pos :: positions' =>
      data ← pages !! (pos / PAGE_BITS);
      bit ← test_bit data (pos mod PAGE_BITS);
      if bit : bool then all_set pages positions' else Some false
  end.

Fixpoint set_bits (positions : list Z) (pages : gmap Z (list Z)) : option (gmap Z (list Z)) :=
  match positions with
  | [] => Some pages
  | pos :: positions' =>
      let n := pos / PAGE_BITS in
      data ← pages !! n;
      bit ← test_bit data (pos mod PAGE_BITS);
      if bit : bool then set_bits positions' pages
      else data' ← set_bit data (pos mod PAGE_BITS); set_bits positions' (<[n := data']> pages)
  end.

(** The order in which a [HashMap] is gone through does not show: the keys are different. *)
Fixpoint write_pages (prefix : list Z) (id : Z) (pages : list (Z * list Z)) : DbM T () :=
  match pages with
  | [] => mret ()
  | (n, data) :: pages' => write_page (page_key prefix id n) data ;; write_pages prefix id pages'
  end.

Definition default_meta : BloomMeta :=
  mkBloomMeta DEF_EXP false [new_initial_sub_filter ln DEF_CAP DEF_ERR DEF_EXP false].

(** A saturated filter that scales gets another sub-filter. [last.id + 1] does not wrap. *)
Definition expanded (meta : BloomMeta) (last : SubFilterMeta) : BloomMeta :=
  if (f_capacity last <=? f_inserted last) && negb (b_non_scaling meta) then
    mkBloomMeta (b_expansion meta) (b_non_scaling meta)
      (b_filters meta ++ [new_sub_filter ln (f_capacity last) (f64_mul (f_error_rate last) f64_two) (b_expansion meta) (f_id last + 1)])
  else meta.

(** [last.inserted += 1] of the last sub-filter. *)
Definition bump_last (meta : BloomMeta) : BloomMeta :=
  mkBloomMeta (b_expansion meta) (b_non_scaling meta)
    (match last (b_filters meta) with
     | Some f => removelast (b_filters meta) ++
                 [mkFilter (f_id f) (f_capacity f) (as_u64 (f_inserted f + 1)) (f_error_rate f) (f_num_hashes f) (f_num_bits f) (f_seed1 f) (f_seed2 f)]
     | None => []
     end).

Definition add_one (meta_key : list Z) (prefix : ElementPrefix) (item : list Z) : DbM T Z :=
  old ← read_meta_or_nil meta_key;
  meta ← (match old with
          | Some m => mret m
          | None => write_meta meta_key default_meta prefix ;; mret default_meta
          end);
  last_filter ← Hash.or_panic (last (b_filters meta));
  let meta := expanded meta last_filter in
  filter ← Hash.or_panic (last (b_filters meta));
  positions ← Hash.or_panic (filter_positions item filter);
  pages ← load_pages (prefix_bytes prefix) (f_id filter) positions ∅;
  present ← Hash.or_panic (all_set pages positions);
  if present : bool then mret 0
  else
    pages ← Hash.or_panic (set_bits positions pages);
    write_pages (prefix_bytes prefix) (f_id filter) (map_to_list pages) ;;
    write_meta meta_key (bump_last meta) prefix ;;
    mret 1.

(** Whether all positions are set, reading page by page until one is not. *)
Fixpoint probe (prefix : list Z) (id : Z) (positions : list Z) : DbM T bool :=
  match positions with
  | [] => mret true
  | pos :: positions' =>
      data ← read_page (page_key prefix id (pos / PAGE_BITS));
      bit ← Hash.or_panic (test_bit data (pos mod PAGE_BITS));
      if bit : bool then probe prefix id positions' else mret false
  end.

Fixpoint probe_filters (prefix item : list Z) (filters : list SubFilterMeta) : DbM T bool :=
  match filters with
  | [] => mret false
  | f :: filters' =>
      positions ← Hash.or_panic (filter_positions item f);
      found ← probe prefix (f_id f) positions;
      if found : bool then mret true else probe_filters prefix item filters'
  end.

Definition exists_one (meta_key prefix item : list Z) : DbM T bool :=
  meta ← read_meta_or_nil meta_key;
  match meta with
  | None => mret false
  | Some meta => probe_filters prefix item (rev (b_filters meta))
  end.

(** ** Commands *)

Definition ReserveOp (id meta_key page_prefix : list Z) (error_rate capacity expansion : Z) (non_scaling : bool) : DbM T DbResult :=
  r ← get now meta_key;
  match r with
  | Ok _ => fail KeyExists
  | Err KeyNotFound =>
      let exp := if expansion <? 1 then DEF_EXP else expansion in
      let meta := mkBloomMeta (exp mod 256) non_scaling [new_initial_sub_filter ln capacity error_rate exp non_scaling] in
      p ← try_db (new_namespace id page_prefix);
      write_meta meta_key meta p ;;
      mret RUnit
  | Err e => fail (Kv e)
  end.

Definition AddOp (id meta_key page_prefix item : list Z) : DbM T DbResult :=
  p ← resolve_prefix_for_write now id meta_key page_prefix;
  added ← add_one meta_key p item;
  mret (RInt added).

Definition ExistsOp (meta_key page_prefix item : list Z) : DbM T DbResult :=
  p ← resolve_prefix now meta_key page_prefix;
  present ← exists_one meta_key (prefix_bytes p) item;
  mret (RBool present).

Fixpoint add_all (meta_key : list Z) (p : ElementPrefix) (items : list (list Z)) : DbM T (list Z) :=
  match items with
  | [] => mret []
  | item :: items' => a ← add_one meta_key p item; rest ← add_all meta_key p items'; mret (a :: rest)
  end.

Definition MAddOp (id meta_key page_prefix : list Z) (items : list (list Z)) : DbM T DbResult :=
  p ← resolve_prefix_for_write now id meta_key page_prefix;
  results ← add_all meta_key p items;
  mret (RInts results).

Fixpoint exists_all (meta_key p : list Z) (items : list (list Z)) : DbM T (list Z) :=
  match items with
  | [] => mret []
  | item :: items' =>
      present ← exists_one meta_key p item;
      rest ← exists_all meta_key p items';
      mret ((if present : bool then 1 else 0) :: rest)
  end.

Definition MExistsOp (meta_key page_prefix : list Z) (items : list (list Z)) : DbM T DbResult :=
  p ← resolve_prefix now meta_key page_prefix;
  results ← exists_all meta_key (prefix_bytes p) items;
  mret (RInts results).

Record InsertInfo : Type := mkInsertInfo {
  ii_capacity : Z;
  ii_error : Z;
  ii_expansion : Z;
  ii_no_create : bool;
  ii_non_scaling : bool;
  ii_items : list (list Z)
}.

(** The filter BF.INSERT creates. *)
Definition insert_meta (info : InsertInfo) : BloomMeta :=
  let cap := if ii_capacity info =? 0 then DEF_CAP else ii_capacity info in
  let err_rate := if f64_le (ii_error info) f64_zero then DEF_ERR else ii_error info in
  let exp := if ii_expansion info <? 1 then DEF_EXP else ii_expansion info in
  mkBloomMeta (exp mod 256) (ii_non_scaling info) [new_initial_sub_filter ln cap err_rate exp (ii_non_scaling info)].

Definition InsertOp (id meta_key page_prefix : list Z) (info : InsertInfo) : DbM T DbResult :=
  p ← resolve_prefix_for_write now id meta_key page_prefix;
  old ← read_meta_or_nil meta_key;
  match old with
  | Some _ => mret ()
  | None => if ii_no_create info then fail (Kv KeyNotFound) else write_meta meta_key (insert_meta info) p
  end ;;
  results ← add_all meta_key p (ii_items info);
  mret (RInts results).

(** The sums wrap. *)
Definition total (field : SubFilterMeta → Z) (filters : list SubFilterMeta) : Z :=
  fold_left (λ n f, as_u64 (n + field f)) filters 0.

Definition InfoOp (meta_key : list Z) : DbM T DbResult :=
  old ← read_meta_or_nil meta_key;
  match old with
  | None => fail (Kv KeyNotFound)
  | Some meta =>
      mret (RBloomInfo (mkBloomInfo (total f_capacity (b_filters meta)) (total f_num_bits (b_filters meta))
              (Z.of_nat (length (b_filters meta))) (total f_inserted (b_filters meta)) (b_expansion meta)))
  end.
End Ops.

(** ** Wire halves *)

Definition OkWire : WireOp := pure_wire (λ r, match r with Ok _ => SimpleString (B "OK") | Err e => err_resp e end).
Definition IntWire : WireOp := pure_wire (λ r,
  match r with Ok (RInt n) => Integer n | Ok _ => internal_error | Err e => err_resp e end).
Definition BoolIntWire : WireOp := pure_wire (λ r,
  match r with Ok (RBool b) => Integer (if b then 1 else 0) | Ok _ => internal_error | Err e => err_resp e end).
Definition IntArrayWire : WireOp := pure_wire (λ r,
  match r with Ok (RInts vs) => Array (Some (Integer <$> vs)) | Ok _ => internal_error | Err e => err_resp e end).
Definition InfoWire : WireOp := pure_wire (λ r,
  match r with
  | Ok (RBloomInfo i) =>
      Array (Some [BulkString (Some (B "Capacity")); Integer (as_i64 (bi_capacity i));
                   BulkString (Some (B "Size")); Integer (as_i64 (bi_size i));
                   BulkString (Some (B "Number of filters")); Integer (bi_num_filters i);
                   BulkString (Some (B "Number of items inserted")); Integer (as_i64 (bi_num_inserted i));
                   BulkString (Some (B "Expansion rate")); Integer (bi_expansion i)])
  | Ok _ => internal_error
  | Err e => err_resp e
  end).

(** ** The queued commands *)

Module Cmd.
Section Cmd.
Context {T : Type} `{!TxOps T} (ln : Z → Z).
Implicit Types (s : Session T) (key : list Z).

Definition reserve s (id key : list Z) (error_rate capacity expansion : Z) (non_scaling : bool) : QueuedOp T :=
  on_key s key (λ now, ReserveOp ln now id (public_key s key) (private_key s key) error_rate capacity expansion non_scaling) OkWire true.
Definition add s (id key item : list Z) : QueuedOp T :=
  on_key s key (λ now, AddOp ln now id (public_key s key) (private_key s key) item) IntWire true.
Definition exists_ s key (item : list Z) : QueuedOp T :=
  on_key s key (λ now, ExistsOp now (public_key s key) (private_key s key) item) BoolIntWire false.
Definition madd s (id key : list Z) (items : list (list Z)) : QueuedOp T :=
  on_key s key (λ now, MAddOp ln now id (public_key s key) (private_key s key) items) IntArrayWire true.
Definition mexists s key (items : list (list Z)) : QueuedOp T :=
  on_key s key (λ now, MExistsOp now (public_key s key) (private_key s key) items) IntArrayWire false.
Definition insert s (id key : list Z) (info : InsertInfo) : QueuedOp T :=
  on_key s key (λ now, InsertOp ln now id (public_key s key) (private_key s key) info) IntArrayWire true.
Definition info s key : QueuedOp T := on_key s key (λ now, InfoOp now (public_key s key)) InfoWire false.
End Cmd.
End Cmd.
