(* ===== verification/BloomStore.v ===== *)
(** * Bloom filters in the store: src/redis/bloom.rs

    The record of the parameters decodes to what was encoded, the parameters computed for a
    sub-filter are within their widths whatever the logarithm returns, and the helpers of
    Bloom read and write the bits of the pages: the abstract content is the set of the
    bits that are set ([bits_at]). *)
From S2P Require Import Prelude Bytes Float64 Resp Kv Registry Op Namespace Session Elements Bloom.
From S2P Require Hash.
Import MapTx.

(** ** Encoding *)

Definition filter_ok (f : SubFilterMeta) : Prop :=
  0 ≤ f_id f < 2 ^ 64 ∧ 0 ≤ f_capacity f < 2 ^ 64 ∧ 0 ≤ f_inserted f < 2 ^ 64 ∧ 0 ≤ f_error_rate f < 2 ^ 64 ∧
  1 ≤ f_num_hashes f < 2 ^ 32 ∧ 1 ≤ f_num_bits f < 2 ^ 64 ∧ 0 ≤ f_seed1 f < 2 ^ 64 ∧ 0 ≤ f_seed2 f < 2 ^ 64.

#[export] Instance filter_ok_dec f : Decision (filter_ok f).
Proof. unfold filter_ok. apply _. Defined.

Lemma field_hit n z l : 0 ≤ z < 256 ^ Z.of_nat n → field (le_bytes n z ++ l) 0 n = z.
Proof.
  intros H. unfold field. rewrite drop_0, take_app_length' by (by rewrite length_le_bytes). by apply from_le_le_bytes.
Qed.
Lemma field_skip n z l off len : (n ≤ off)%nat → field (le_bytes n z ++ l) off len = field l (off - n) len.
Proof.
  intros H. unfold field. rewrite drop_app_ge by (by rewrite length_le_bytes). by rewrite length_le_bytes.
Qed.

Lemma length_encode_filter f : length (encode_filter f) = FILTER_META.
Proof. unfold encode_filter. by rewrite !length_app, !length_le_bytes. Qed.

Lemma decode_encode_filter f l : filter_ok f → decode_filter (encode_filter f ++ l) = f.
Proof.
  intros (H1 & H2 & H3 & H4 & H5 & H6 & H7 & H8). unfold decode_filter, encode_filter. rewrite <- !app_assoc.
  repeat first [rewrite field_skip by lia; cbn [Nat.sub]
               |rewrite field_hit by (change (256 ^ Z.of_nat 8) with (2 ^ 64); change (256 ^ Z.of_nat 4) with (2 ^ 32); lia)].
  by destruct f.
Qed.

Lemma drop_filters fs i : drop (i * FILTER_META) (concat (encode_filter <$> fs)) = concat (encode_filter <$> drop i fs).
Proof.
  revert i. induction fs as [|f fs IH]; intros i; [rewrite drop_nil; apply drop_nil|]. destruct i as [|i]; [done|].
  rewrite fmap_cons. cbn [concat drop]. rewrite <- IH, drop_app_ge by (rewrite length_encode_filter; lia).
  rewrite length_encode_filter. f_equal. lia.
Qed.

Lemma decode_filters fs i :
  Forall filter_ok fs → (i < length fs)%nat →
  fs !! i = Some (decode_filter (drop (i * FILTER_META) (concat (encode_filter <$> fs)))).
Proof.
  intros Hok [f Hf]%lookup_lt_is_Some. rewrite drop_filters, Hf, (drop_S _ _ _ Hf), fmap_cons. cbn [concat]. f_equal.
  symmetry. apply decode_encode_filter. by eapply Forall_lookup_1.
Qed.

Lemma length_filters fs : length (concat (encode_filter <$> fs)) = (length fs * FILTER_META)%nat.
Proof.
  induction fs as [|f fs IH]; [done|]. rewrite fmap_cons. cbn [concat]. rewrite length_app, IH, length_encode_filter. cbn [length]. lia.
Qed.

(** Parameters that are within their widths, with at most 65535 sub-filters. *)
Definition encodable (m : BloomMeta) : Prop :=
  0 ≤ b_expansion m < 256 ∧ Forall filter_ok (b_filters m) ∧ (length (b_filters m) ≤ Z.to_nat 65535)%nat.

Lemma decode_encode_meta m : encodable m → decode_meta (encode_meta m) = Ok m.
Proof.
  intros (He & Hf & Hn). unfold encode_meta. rewrite Nat.min_l, firstn_all by done.
  assert (Z.of_nat (length (b_filters m)) < 256 ^ Z.of_nat 2) as Hw by (change (256 ^ Z.of_nat 2) with 65536; lia).
  destruct (be_bytes 2 (Z.of_nat (length (b_filters m)))) as [|d2 [|d3 [|]]] eqn:E;
    try (apply (f_equal length) in E; rewrite length_be_bytes in E; discriminate E).
  cbn [app decode_meta]. rewrite <- E, from_be_be_bytes, Nat2Z.id, length_filters, Nat.ltb_irrefl by lia.
  f_equal. destruct m as [ex ns fs]. cbn [b_non_scaling b_expansion b_filters] in *. f_equal; [by destruct ns|].
  apply list_eq. intros i. rewrite list_lookup_fmap. destruct (decide (i < length fs)%nat) as [Hi|Hi].
  - rewrite lookup_seq_lt by done. cbn. by rewrite (decode_filters fs i Hf Hi).
  - rewrite (proj2 (lookup_ge_None fs i)) by lia. by rewrite lookup_seq_ge by lia.
Qed.

(** ** Parameters *)
Lemma fold_fnv_range data h : 0 ≤ h < 2 ^ 64 → 0 ≤ fold_left (λ hash b, as_u64 (Z.lxor hash b * 0x100000001b3)) data h < 2 ^ 64.
Proof.
  revert h. induction data as [|b data IH]; intros h Hh; [done|]. apply IH. apply as_u64_range.
Qed.
Lemma fnv1a64_range data : 0 ≤ fnv1a64 data < 2 ^ 64.
Proof. by apply fold_fnv_range. Qed.

Lemma f64_ok_rounded a : f64_ok a → f64_ok (f64_ceil a) ∧ f64_ok (f64_round a).
Proof.
  intros Ha. unfold f64_ceil, f64_round, f64_integral, f64_of_Z.
  split; destruct (sf_of_bits a); try done; repeat case_match; try done; apply f64_ok_bits_of.
Qed.

(** A number made at least one. *)
Lemma f64_max_one max a : f64_ok a → 1 ≤ max → 1 ≤ f64_to_unsigned max (f64_max a f64_one).
Proof.
  intros Ha Hmax. unfold f64_max. destruct (is_nan a) eqn:En; [by apply f64_to_unsigned_one|].
  destruct (f64_gt f64_one a) eqn:Eg; by apply f64_to_unsigned_one.
Qed.

Lemma f64_bits_range x : f64_ok x → 1 ≤ f64_to_u64 (f64_max x f64_one) < 2 ^ 64.
Proof.
  intros Hx. pose proof (f64_to_unsigned_range u64_max (f64_max x f64_one) ltac:(done)) as Hr.
  pose proof (f64_max_one u64_max x Hx ltac:(done)). assert (u64_max = 2 ^ 64 - 1) by done. unfold f64_to_u64. lia.
Qed.
Lemma f64_hashes_range y : f64_ok y → 1 ≤ f64_to_u32 (f64_min (f64_max y f64_one) (f64_of_Z MAX_HASHES)) < 2 ^ 32.
Proof.
  intros Hy. pose proof (f64_to_unsigned_range u32_max (f64_min (f64_max y f64_one) (f64_of_Z MAX_HASHES)) ltac:(done)) as Hr.
  assert (u32_max = 2 ^ 32 - 1) by done. unfold f64_to_u32. split; [|lia]. clear Hr.
  unfold f64_min. destruct (is_nan (f64_max y f64_one)); [by vm_compute|].
  destruct (f64_lt (f64_of_Z MAX_HASHES) (f64_max y f64_one)); [by vm_compute|]. by apply f64_max_one.
Qed.

Section Params.
Context (ln : Z → Z).

(** Whatever the logarithm returns, a sub-filter has a bit and a hash function. *)
Lemma bloom_params_ok capacity error_rate :
  1 ≤ (compute_bloom_params ln capacity error_rate).1 < 2 ^ 64 ∧ 1 ≤ (compute_bloom_params ln capacity error_rate).2 < 2 ^ 32.
Proof.
  unfold compute_bloom_params. cbv zeta. cbn [fst snd]. split.
  - apply f64_bits_range. apply f64_ok_rounded. apply f64_ok_bits_of.
  - apply f64_hashes_range. apply f64_ok_rounded. apply f64_ok_mul.
Qed.

Lemma new_sub_filter_ok base error_rate expansion id :
  0 ≤ id < 2 ^ 64 → filter_ok (new_sub_filter ln base error_rate expansion id) ∧ f_id (new_sub_filter ln base error_rate expansion id) = id.
Proof.
  intros Hid. unfold new_sub_filter.
  pose proof (bloom_params_ok (sub_filter_capacity base expansion id) (sub_filter_error_rate error_rate id)) as Hp.
  destruct (compute_bloom_params ln _ _) as [num_bits num_hashes]. cbn [fst snd] in Hp. split; [|done].
  pose proof (as_u64_range (base * f64_to_u64 (powi (f64_of_Z expansion) (as_i32 id)))).
  pose proof (f64_ok_mul error_rate (powi f64_half (as_i32 (id + 1)))) as Hm. unfold f64_ok in Hm.
  pose proof (fnv1a64_range (le_bytes 8 id ++ le_bytes 8 0)). pose proof (fnv1a64_range (le_bytes 8 id ++ le_bytes 8 1)).
  unfold filter_ok, sub_filter_seeds, sub_filter_capacity, sub_filter_error_rate. cbn [f_id f_capacity f_inserted f_error_rate f_num_hashes f_num_bits f_seed1 f_seed2].
  lia.
Qed.

Lemma new_initial_sub_filter_ok capacity error_rate expansion ns :
  0 ≤ capacity < 2 ^ 64 → f64_ok error_rate →
  filter_ok (new_initial_sub_filter ln capacity error_rate expansion ns) ∧ f_id (new_initial_sub_filter ln capacity error_rate expansion ns) = 0.
Proof.
  intros Hc He. unfold new_initial_sub_filter. destruct ns; [|by apply new_sub_filter_ok].
  pose proof (bloom_params_ok capacity error_rate) as Hp. destruct (compute_bloom_params ln _ _) as [num_bits num_hashes]. cbn [fst snd] in Hp.
  split; [|done]. pose proof (fnv1a64_range (le_bytes 8 0 ++ le_bytes 8 0)). pose proof (fnv1a64_range (le_bytes 8 0 ++ le_bytes 8 1)).
  unfold f64_ok in He. unfold filter_ok, sub_filter_seeds. cbn [f_id f_capacity f_inserted f_error_rate f_num_hashes f_num_bits f_seed1 f_seed2]. lia.
Qed.
End Params.

(** ** Positions *)
Definition positions (item : list Z) (f : SubFilterMeta) : list Z := default [] (filter_positions item f).

Lemma filter_positions_ok item f : filter_ok f → filter_positions item f = Some (positions item f).
Proof.
  intros (_ & _ & _ & _ & _ & Hb & _). unfold positions, filter_positions, hash_positions.
  rewrite (proj2 (Z.eqb_neq _ _)) by lia. done.
Qed.
Lemma positions_nonneg item f : filter_ok f → Forall (λ pos, 0 ≤ pos) (positions item f).
Proof.
  intros Hf. unfold positions. destruct (filter_positions item f) as [l|] eqn:E; [|done]. revert E.
  destruct Hf as (_ & _ & _ & _ & _ & Hb & _). unfold filter_positions, hash_positions.
  rewrite (proj2 (Z.eqb_neq _ _)) by lia. intros [= <-]. apply Forall_fmap, Forall_forall. intros i _. apply Z.mod_pos_bound. lia.
Qed.
Lemma positions_nonempty item f : filter_ok f → positions item f ≠ [].
Proof.
  intros (_ & _ & _ & _ & Hh & Hb & _). unfold positions, filter_positions, hash_positions.
  rewrite (proj2 (Z.eqb_neq _ _)) by lia. cbn [andb default]. destruct (Z.to_nat (f_num_hashes f)) eqn:E; [lia|done].
Qed.

(** ** Keys of pages *)
Definition page_name (id n : Z) : list Z := B "bf:" ++ to_dec id ++ B ":p:" ++ to_dec n.
Lemma page_key_element p id n : page_key p id n = element_key p (page_name id n).
Proof. done. Qed.

Lemma page_name_inj id n id' n' :
  0 ≤ id → 0 ≤ n → 0 ≤ id' → 0 ≤ n' → page_name id n = page_name id' n' → id = id' ∧ n = n'.
Proof.
  intros H1 H2 H3 H4 E. unfold page_name in E. rewrite !to_dec_nonneg in E by done. apply app_inv_head in E.
  assert (∀ l1 l2 r1 r2 : list Z, Forall (λ b, is_digit b = true) l1 → Forall (λ b, is_digit b = true) l2 →
    l1 ++ B ":p:" ++ r1 = l2 ++ B ":p:" ++ r2 → l1 = l2 ∧ r1 = r2) as Hsplit.
  { induction l1 as [|a l1 IH]; intros [|b l2] r1 r2 D1 D2 Hl.
    - split; [done|]. by injection Hl.
    - injection Hl as <- _. by apply Forall_cons in D2 as [? _].
    - injection Hl as -> _. by apply Forall_cons in D1 as [? _].
    - apply Forall_cons in D1 as [_ D1]. apply Forall_cons in D2 as [_ D2]. injection Hl as -> Hl.
      destruct (IH l2 r1 r2 D1 D2 Hl) as [-> ->]. done. }
  apply Hsplit in E as [E1 E2]; [|by apply dec_nat_digits..]. split; by apply dec_nat_inj.
Qed.

(** ** Bits of a page *)
Definition sized (data : list Z) : Prop := length data = Z.to_nat PAGE_SIZE.
Definition page_bit (data : list Z) (j : Z) : bool := default false (test_bit data j).

Lemma page_lookup data j : sized data → 0 ≤ j < PAGE_BITS → ∃ b, data !! Z.to_nat (j / 8) = Some b.
Proof.
  unfold sized, PAGE_BITS, PAGE_SIZE. intros Hd Hj. apply lookup_lt_is_Some_2. rewrite Hd.
  apply Z2Nat.inj_lt; [apply Z.div_pos; lia|lia|apply Z.div_lt_upper_bound; lia].
Qed.

Lemma land_bit b k : 0 ≤ k → negb (Z.land b (Z.shiftl 1 k) =? 0) = Z.testbit b k.
Proof.
  intros Hk. rewrite Z.shiftl_1_l. destruct (Z.testbit b k) eqn:E.
  - apply negb_true_iff, Z.eqb_neq. intros H. apply (f_equal (λ z, Z.testbit z k)) in H.
    by rewrite Z.land_spec, E, Z.pow2_bits_true, Z.bits_0 in H.
  - apply negb_false_iff, Z.eqb_eq, Z.bits_inj'. intros i Hi. rewrite Z.land_spec, Z.bits_0, Z.pow2_bits_eqb by done.
    destruct (Z.eqb_spec k i) as [<-|]; [by rewrite E|by rewrite andb_false_r].
Qed.

Lemma page_bit_lookup data j b : data !! Z.to_nat (j / 8) = Some b → page_bit data j = Z.testbit b (j mod 8).
Proof.
  intros H. unfold page_bit, test_bit. rewrite H. cbn [fmap option_fmap option_map default from_option].
  apply land_bit. apply Z.mod_pos_bound. lia.
Qed.

Lemma test_bit_ok data j : sized data → 0 ≤ j < PAGE_BITS → test_bit data j = Some (page_bit data j).
Proof. intros Hd Hj. destruct (page_lookup data j Hd Hj) as [b Hb]. unfold page_bit, test_bit. by rewrite Hb. Qed.

Lemma set_bit_ok data j :
  sized data → 0 ≤ j < PAGE_BITS →
  ∃ data', set_bit data j = Some data' ∧ sized data' ∧
    ∀ k, 0 ≤ k < PAGE_BITS → page_bit data' k = (j =? k) || page_bit data k.
Proof.
  intros Hd Hj. destruct (page_lookup data j Hd Hj) as [b Hb]. unfold set_bit. rewrite Hb. eexists. split; [done|].
  split; [unfold sized; by rewrite length_insert|]. intros k Hk.
  assert (0 ≤ j / 8 ∧ 0 ≤ k / 8) as [? ?] by (split; apply Z.div_pos; lia).
  pose proof (Z.div_mod j 8 ltac:(lia)). pose proof (Z.div_mod k 8 ltac:(lia)).
  pose proof (Z.mod_pos_bound j 8 ltac:(lia)). pose proof (Z.mod_pos_bound k 8 ltac:(lia)).
  destruct (decide (j / 8 = k / 8)) as [E|E].
  - erewrite page_bit_lookup by (rewrite E; apply list_lookup_insert_eq, lookup_lt_is_Some; rewrite <- E, Hb; done).
    rewrite E in Hb. rewrite (page_bit_lookup data k b Hb), Z.lor_spec, Z.shiftl_1_l, Z.pow2_bits_eqb, orb_comm by lia. f_equal.
    apply eq_true_iff_eq. rewrite !Z.eqb_eq. lia.
  - rewrite (proj2 (Z.eqb_neq j k)) by congruence. cbn [orb]. unfold page_bit, test_bit.
    rewrite list_lookup_insert_ne; [done|]. intros F%Z2Nat.inj; lia.
Qed.

Lemma page_bit_zeros j : page_bit (replicate (Z.to_nat PAGE_SIZE) 0) j = false.
Proof.
  unfold page_bit, test_bit. destruct (replicate _ 0 !! _) as [b|] eqn:E; [|done].
  apply lookup_replicate in E as [-> _]. done.
Qed.

(** A position is a page and a place in it. *)
Lemma pos_split pos : 0 ≤ pos → 0 ≤ pos / PAGE_BITS ∧ 0 ≤ pos mod PAGE_BITS < PAGE_BITS ∧ pos = pos / PAGE_BITS * PAGE_BITS + pos mod PAGE_BITS.
Proof.
  intros Hp. assert (0 < PAGE_BITS) by done. pose proof (Z.div_mod pos PAGE_BITS ltac:(lia)).
  pose proof (Z.mod_pos_bound pos PAGE_BITS ltac:(lia)). split; [by apply Z.div_pos|]. lia.
Qed.
Lemma pos_join n j : 0 ≤ j < PAGE_BITS → (n * PAGE_BITS + j) / PAGE_BITS = n ∧ (n * PAGE_BITS + j) mod PAGE_BITS = j.
Proof.
  intros Hj. split.
  - rewrite Z.div_add_l by lia. rewrite Z.div_small by done. lia.
  - rewrite Z.add_comm, Z.mod_add by lia. by apply Z.mod_small.
Qed.

(** ** Cached pages *)

(** The pages of the positions are in the cache and have their size. *)
Definition cached (pages : gmap Z (list Z)) (ps : list Z) : Prop :=
  Forall (λ pos, 0 ≤ pos ∧ is_Some (pages !! (pos / PAGE_BITS))) ps ∧ map_Forall (λ _ data, sized data) pages.

Definition cache_bit (pages : gmap Z (list Z)) (pos : Z) : bool :=
  default false ((λ data, page_bit data (pos mod PAGE_BITS)) <$> pages !! (pos / PAGE_BITS)).

Lemma cached_cons pages pos ps :
  cached pages (pos :: ps) →
  ∃ data, pages !! (pos / PAGE_BITS) = Some data ∧ sized data ∧ 0 ≤ pos ∧
    test_bit data (pos mod PAGE_BITS) = Some (cache_bit pages pos) ∧ cached pages ps.
Proof.
  intros [Hp Hs]. apply Forall_cons in Hp as [[Hpos [data Hd]] Hp]. exists data. pose proof (Hs _ _ Hd) as Hsz.
  split_and!; [done..| |by split]. unfold cache_bit. rewrite Hd. apply test_bit_ok; [done|]. by apply pos_split.
Qed.

Lemma all_set_ok pages ps : cached pages ps → all_set pages ps = Some (forallb (cache_bit pages) ps).
Proof.
  induction ps as [|pos ps IH]; intros Hc; [done|]. apply cached_cons in Hc as (data & Hd & _ & _ & Ht & Hc).
  cbn [all_set]. rewrite Hd. cbn [mbind option_bind]. rewrite Ht. cbn [mbind option_bind forallb].
  destruct (cache_bit pages pos); [by apply IH|done].
Qed.

(** Setting the bits of the positions changes those and no page is lost. *)
Lemma set_bits_ok ps pages :
  cached pages ps →
  ∃ pages', set_bits ps pages = Some pages' ∧ dom pages' = dom pages ∧ map_Forall (λ _ data, sized data) pages' ∧
    ∀ n data data', pages !! n = Some data → pages' !! n = Some data' →
      ∀ j, 0 ≤ j < PAGE_BITS → page_bit data' j = page_bit data j || bool_decide (n * PAGE_BITS + j ∈ ps).
Proof.
  revert pages. induction ps as [|pos ps IH]; intros pages Hc.
  { exists pages. split_and!; [done..|by destruct Hc|]. intros n data data' H1 H2 j Hj.
    rewrite bool_decide_eq_false_2 by (apply not_elem_of_nil). rewrite orb_false_r. congruence. }
  apply cached_cons in Hc as (data & Hd & Hsz & Hpos & Ht & Hc). cbn [set_bits]. rewrite Hd. cbn [mbind option_bind].
  rewrite Ht. cbn [mbind option_bind]. destruct (pos_split pos Hpos) as (Hn & Hj & Hsplit).
  assert (cache_bit pages pos = page_bit data (pos mod PAGE_BITS)) as Ec by (unfold cache_bit; by rewrite Hd).
  destruct (cache_bit pages pos) eqn:Eb.
  - destruct (IH pages Hc) as (pages' & -> & Hdom & Hs & Hb). exists pages'. split_and!; [done..|].
    intros n d d' H1 H2 j Hjj. rewrite (Hb n d d' H1 H2 j Hjj).
    destruct (decide (n * PAGE_BITS + j = pos)) as [E|E].
    + destruct (pos_join n j Hjj) as [E1 E2]. rewrite E in E1, E2. rewrite <- E1 in H1. rewrite Hd in H1. injection H1 as <-.
      rewrite <- E2, <- Ec. done.
    + f_equal. apply bool_decide_ext. rewrite elem_of_cons. naive_solver.
  - destruct (set_bit_ok data (pos mod PAGE_BITS) Hsz Hj) as (data1 & -> & Hsz1 & Hb1). cbn [mbind option_bind].
    destruct (IH (<[pos / PAGE_BITS := data1]> pages)) as (pages' & -> & Hdom & Hs & Hb).
    { destruct Hc as [Hc1 Hc2]. split; [|by apply map_Forall_insert_2]. eapply Forall_impl; [exact Hc1|].
      intros q [Hq [d Hqd]]. split; [done|]. rewrite lookup_insert. case_decide; eauto. }
    exists pages'. split_and!; [done| |done|].
    { rewrite Hdom, dom_insert_L. apply subseteq_union_1_L, singleton_subseteq_l, elem_of_dom. eauto. }
    intros n d d' H1 H2 j Hjj. destruct (decide (n = pos / PAGE_BITS)) as [->|Hne].
    + rewrite Hd in H1. injection H1 as <-. rewrite (Hb _ data1 d' (lookup_insert_eq _ _ _) H2 j Hjj), (Hb1 j Hjj).
      rewrite (orb_comm (_ =? j)), <- orb_assoc. f_equal. apply eq_true_iff_eq.
      rewrite orb_true_iff, !bool_decide_eq_true, elem_of_cons, Z.eqb_eq. split; (intros [E|E]; [left|by right]); lia.
    + rewrite (Hb n d d') by (done || by rewrite lookup_insert_ne). f_equal. apply bool_decide_ext. rewrite elem_of_cons.
      split; [by right|]. intros [E|E]; [|done]. destruct Hne. destruct (pos_join n j Hjj) as [E1 _]. by rewrite <- E, E1.
Qed.

(** ** Pages in the store *)

(** The page under a key; a missing one is all zeros. *)
Definition page (now : Z) (m : gmap (list Z) Item) (k : list Z) : list Z :=
  match live now k m with Some i => item_value i | None => replicate (Z.to_nat PAGE_SIZE) 0 end.

(** The pages under [p] hold exactly [bits], pairs of a sub-filter and a position. *)
Definition bits_at (now : Z) (m : gmap (list Z) Item) (p : list Z) (bits : gset (Z * Z)) : Prop :=
  ∀ id n, 0 ≤ id → 0 ≤ n →
    sized (page now m (page_key p id n)) ∧
    ∀ j, 0 ≤ j < PAGE_BITS → page_bit (page now m (page_key p id n)) j = bool_decide ((id, n * PAGE_BITS + j) ∈ bits).

Lemma bits_at_frame now m m' p bits :
  (∀ f, live now (element_key p f) m' = live now (element_key p f) m) → bits_at now m p bits → bits_at now m' p bits.
Proof.
  intros Hl Hb id n Hid Hn. specialize (Hb id n Hid Hn). unfold page in *. by rewrite page_key_element, Hl, <- page_key_element.
Qed.

Lemma bits_at_unused now m p : elements_at now m p ∅ → bits_at now m p ∅.
Proof.
  intros He id n Hid Hn. unfold page. rewrite page_key_element. specialize (He (page_name id n)). rewrite lookup_empty in He.
  apply fmap_None in He. rewrite He. split; [unfold sized; apply length_replicate|]. intros j _. apply page_bit_zeros.
Qed.

Lemma bits_at_pos now m p bits id pos :
  bits_at now m p bits → 0 ≤ id → 0 ≤ pos →
  page_bit (page now m (page_key p id (pos / PAGE_BITS))) (pos mod PAGE_BITS) = bool_decide ((id, pos) ∈ bits).
Proof.
  intros Hb Hid Hpos. destruct (pos_split pos Hpos) as (Hn & Hj & E). destruct (Hb id _ Hid Hn) as [_ H].
  rewrite (H _ Hj). by rewrite <- E.
Qed.

(** The bits of the positions of one sub-filter. *)
Definition pos_bits (id : Z) (ps : list Z) : gset (Z * Z) := list_to_set (pair id <$> ps).
Lemma elem_of_pos_bits id ps i pos : (i, pos) ∈ pos_bits id ps ↔ i = id ∧ pos ∈ ps.
Proof. unfold pos_bits. rewrite elem_of_list_to_set, list_elem_of_fmap. naive_solver. Qed.

(** All positions are set. *)
Definition all_in (bits : gset (Z * Z)) (id : Z) (ps : list Z) : bool := forallb (λ pos, bool_decide ((id, pos) ∈ bits)) ps.

Section Pages.
Context {T : Type} `{!TxOps T} {raw : T → gmap (list Z) Item} {ok : T → Prop}.
Context `{HT : !TxLaws T raw ok} {now : Z} (Hnow : clock_ok now).
#[local] Abbreviation Runs := (Runs (raw:=raw) (ok:=ok)).

Lemma runs_or_panic {A} (o : option A) a m : o = Some a → Runs (Hash.or_panic o) m (Ret a) m.
Proof. intros ->. apply runs_ret. Qed.

Lemma runs_read_page k m : Runs (read_page now k) m (Ret (page now m k)) m.
Proof. eapply runs_bind; [by apply runs_get_opt|]. unfold page. destruct (live now k m); apply runs_ret. Qed.

(** Probing one sub-filter. *)
Lemma runs_probe p id ps m bits :
  0 ≤ id → Forall (λ pos, 0 ≤ pos) ps → bits_at now m p bits → Runs (probe now p id ps) m (Ret (all_in bits id ps)) m.
Proof.
  intros Hid Hps Hb. induction ps as [|pos ps IH]; [apply runs_ret|]. apply Forall_cons in Hps as [Hpos Hps].
  destruct (pos_split pos Hpos) as (Hn & Hj & _). cbn [probe]. eapply runs_bind; [apply runs_read_page|].
  eapply runs_bind; [apply runs_or_panic, test_bit_ok; [by apply Hb|done]|].
  unfold all_in. cbn [forallb]. rewrite (bits_at_pos now m p bits id pos Hb Hid Hpos).
  destruct (bool_decide _); [by apply IH|apply runs_ret].
Qed.

Definition coherent (m : gmap (list Z) Item) (p : list Z) (id : Z) (pages : gmap Z (list Z)) : Prop :=
  map_Forall (λ n data, 0 ≤ n ∧ data = page now m (page_key p id n)) pages.

Lemma runs_load_pages p id ps pages m :
  Forall (λ pos, 0 ≤ pos) ps → coherent m p id pages →
  ∃ pages', Runs (load_pages now p id ps pages) m (Ret pages') m ∧ coherent m p id pages' ∧ dom pages ⊆ dom pages' ∧
    Forall (λ pos, 0 ≤ pos ∧ is_Some (pages' !! (pos / PAGE_BITS))) ps.
Proof.
  revert pages. induction ps as [|pos ps IH]; intros pages Hps Hc.
  { exists pages. by split_and!; [apply runs_ret| | |]. }
  apply Forall_cons in Hps as [Hpos Hps]. cbn [load_pages]. destruct (pages !! (pos / PAGE_BITS)) as [data|] eqn:Ed.
  - destruct (IH pages Hps Hc) as (pages' & H1 & H2 & H3 & H4). exists pages'. split_and!; [done..|].
    apply Forall_cons. split; [|done]. split; [done|]. apply elem_of_dom, H3, elem_of_dom. eauto.
  - destruct (IH (<[pos / PAGE_BITS := page now m (page_key p id (pos / PAGE_BITS))]> pages) Hps) as (pages' & H1 & H2 & H3 & H4).
    { apply map_Forall_insert_2; [|done]. split; [by apply pos_split|done]. }
    exists pages'. split_and!; [|done|set_solver|].
    + eapply runs_bind; [apply runs_read_page|]. exact H1.
    + apply Forall_cons. split; [|done]. split; [done|]. apply elem_of_dom, H3. set_solver.
Qed.

(** Writing pages: each key holds its page, nothing else changes. *)
Lemma runs_write_pages p id l m :
  0 ≤ id → NoDup l.*1 → Forall (λ '(n, _), 0 ≤ n) l → good m →
  ∃ m', Runs (write_pages now p id l) m (Ret ()) m' ∧ good m' ∧ same_outside p m m' ∧
    (∀ n data, (n, data) ∈ l → page now m' (page_key p id n) = data) ∧
    (∀ i n, 0 ≤ i → 0 ≤ n → i ≠ id ∨ n ∉ l.*1 → page now m' (page_key p i n) = page now m (page_key p i n)).
Proof.
  intros Hid. revert m. induction l as [|[n data] l IH]; intros m Hnd Hl Hg.
  { exists m. split_and!; [apply runs_ret|done..|by intros ? ? ?%elem_of_nil|done]. }
  rewrite fmap_cons in Hnd. apply NoDup_cons in Hnd as [Hnotin Hnd]. apply Forall_cons in Hl as [Hn Hl]. cbn [fst] in Hnotin.
  set (k := page_key p id n). set (m1 := <[k := mkItem k data TYPE_BLOOM None]> m).
  destruct (IH m1 Hnd Hl) as (m' & H1 & Hg' & Ho & Hin & Hout); [by apply good_insert|].
  exists m'. split_and!; [|done| | |].
  - cbn [write_pages]. eapply runs_bind; [|exact H1]. unfold write_page.
    pose proof (runs_set (raw:=raw) (ok:=ok) Hnow (with_metadata (entry_new k data) TYPE_BLOOM) m) as Hset.
    apply Hset, entry_ok_no_ttl. done.
  - etrans; [|exact Ho]. apply same_outside_insert.
  - intros n' data' [E|E]%elem_of_cons; [|by apply Hin]. injection E as -> ->. rewrite (Hout id n Hid Hn) by (by right).
    unfold page, m1. rewrite (proj2 (live_Some _ _ _ (mkItem k data TYPE_BLOOM None))); [done|]. by rewrite lookup_insert_eq.
  - intros i n' Hi Hn' Hne. rewrite Hout; [|done..|set_solver]. unfold page, m1. rewrite live_insert_ne; [done|].
    unfold k. rewrite !page_key_element. intros [-> ->]%element_key_inj%page_name_inj; [|done..]. set_solver.
Qed.

(** The bits of an item are added to a sub-filter. *)
Lemma runs_add_bits p id ps m bits :
  0 ≤ id → Forall (λ pos, 0 ≤ pos) ps → bits_at now m p bits → good m →
  ∃ pages, Runs (load_pages now p id ps ∅) m (Ret pages) m ∧ all_set pages ps = Some (all_in bits id ps) ∧
    ∃ pages' m', set_bits ps pages = Some pages' ∧ Runs (write_pages now p id (map_to_list pages')) m (Ret ()) m' ∧
      good m' ∧ same_outside p m m' ∧ bits_at now m' p (bits ∪ pos_bits id ps).
Proof.
  intros Hid Hps Hb Hg. destruct (runs_load_pages p id ps ∅ m Hps) as (pages & H1 & Hco & _ & Hld); [apply map_Forall_empty|].
  assert (cached pages ps) as Hca.
  { split; [done|]. intros n data Hd. destruct (Hco n data Hd) as [Hn ->]. by apply Hb. }
  exists pages. split; [exact H1|]. split.
  { rewrite (all_set_ok _ _ Hca). f_equal. unfold all_in. apply eq_true_iff_eq. rewrite !forallb_forall.
    assert (∀ pos, In pos ps → cache_bit pages pos = bool_decide ((id, pos) ∈ bits)) as Hc.
    { intros pos Hin%list_elem_of_In. rewrite Forall_forall in Hld. destruct (Hld pos Hin) as [Hpos [data Hd]].
      unfold cache_bit. rewrite Hd. destruct (Hco _ _ Hd) as [_ ->]. by apply bits_at_pos. }
    split; intros H pos Hin; [rewrite <- Hc by done|rewrite Hc by done]; by apply H. }
  destruct (set_bits_ok ps pages Hca) as (pages' & Hset & Hdom & Hsz & Hbit).
  assert (∀ n data', pages' !! n = Some data' → ∃ data, pages !! n = Some data) as Hback.
  { intros n data' Hd. apply elem_of_dom. rewrite <- Hdom. apply elem_of_dom. eauto. }
  destruct (runs_write_pages p id (map_to_list pages') m Hid) as (m' & H2 & Hg' & Ho & Hin & Hout); [apply NoDup_fst_map_to_list| |done|].
  { apply Forall_forall. intros [n data'] Hd%elem_of_map_to_list. destruct (Hback _ _ Hd) as [data Hd0]. by apply (Hco _ _ Hd0). }
  exists pages', m'. split_and!; [done..|]. intros i n Hi Hn.
  destruct (decide (i = id)) as [->|Hne]; [destruct (pages' !! n) as [data'|] eqn:Ed|].
  - destruct (Hback _ _ Ed) as [data Hd0]. destruct (Hco _ _ Hd0) as [_ Edata]. rewrite (Hin n data') by (by apply elem_of_map_to_list).
    split; [by apply (Hsz n)|]. intros j Hj. rewrite (Hbit n data data' Hd0 Ed j Hj), Edata. destruct (Hb id n Hi Hn) as [_ ->]; [|done].
    apply eq_true_iff_eq. rewrite orb_true_iff, !bool_decide_eq_true, elem_of_union, elem_of_pos_bits. naive_solver.
  - assert (n ∉ (map_to_list pages').*1) as Hni.
    { intros ([n' d] & -> & Hd%elem_of_map_to_list)%list_elem_of_fmap. cbn [fst] in Ed. congruence. }
    rewrite (Hout id n Hi Hn) by (by right). destruct (Hb id n Hi Hn) as [Hs Hbj]. split; [done|]. intros j Hj. rewrite (Hbj j Hj).
    apply bool_decide_ext. rewrite elem_of_union, elem_of_pos_bits. split; [by left|]. intros [?|[_ Hp]]; [done|].
    rewrite Forall_forall in Hld. destruct (Hld _ Hp) as [_ Hsome]. rewrite (proj1 (pos_join n j Hj)) in Hsome.
    apply elem_of_dom in Hsome. rewrite <- Hdom in Hsome. apply elem_of_dom in Hsome as [? ?]. congruence.
  - rewrite (Hout i n Hi Hn) by (by left). destruct (Hb i n Hi Hn) as [Hs Hbj]. split; [done|]. intros j Hj. rewrite (Hbj j Hj).
    apply bool_decide_ext. rewrite elem_of_union, elem_of_pos_bits. naive_solver.
Qed.
End Pages.

(** ** Theorems *)

(** The parameters of a filter survive the store: decoding the record of a filter gives back its
    flags, its expansion rate and its sub-filters in order, the first 65535 of them, whose
    number is all a record can tell. *)
Theorem bloom_meta_roundtrip (m : BloomMeta) :
  0 ≤ b_expansion m < 256 → Forall filter_ok (b_filters m) →
  decode_meta (encode_meta m) = Ok (mkBloomMeta (b_expansion m) (b_non_scaling m) (take (Z.to_nat 65535) (b_filters m))).
Proof.
  intros He Hf. set (m' := mkBloomMeta _ _ _).
  replace (encode_meta m) with (encode_meta m').
  - apply decode_encode_meta. split; [done|]. cbn [m' b_filters]. split; [by apply Forall_take|]. rewrite length_take. lia.
  - unfold encode_meta. cbn [m' b_non_scaling b_expansion b_filters]. rewrite length_take, take_take.
    set (n := length (b_filters m)). set (k := Z.to_nat 65535). clearbody n k.
    by replace (Nat.min (Nat.min k n) k) with (Nat.min n k) by lia; replace (Nat.min (Nat.min n k) k) with (Nat.min n k) by lia.
Qed.

Lemma bloom_meta_roundtrip_witness :
  decode_meta (encode_meta (mkBloomMeta 2 true [mkFilter 0 100 3 DEF_ERR 7 959 5 6])) = Ok (mkBloomMeta 2 true [mkFilter 0 100 3 DEF_ERR 7 959 5 6]).
Proof.
  apply (bloom_meta_roundtrip (mkBloomMeta 2 true [mkFilter 0 100 3 DEF_ERR 7 959 5 6])); [cbn; lia|].
  apply (bool_decide_unpack _). vm_compute. exact I.
Defined.
