(* ===== verification/BloomSpec.v ===== *)
(** * What a Bloom filter promises

    The abstract filter is its parameters and the set of the bits that are set. Proved: the
    commands of src/redis/bloom.rs refine steps of the abstract filter, whatever the
    logarithm returns, an item that was added is reported from then on, and a filter in
    another state than the documentation has it in the cases named at the end. *)
From S2P Require Import Prelude Bytes Float64 Resp Kv Registry Op Namespace Session Elements Bloom BloomStore.
From S2P Require Hash.
Import MapTx.

(** ** The abstract filter *)

(** Nothing, or the parameters and the bits: pairs of a sub-filter and a position. *)
Definition bloom : Type := option (BloomMeta * gset (Z * Z)).
Definition bits_of (a : bloom) : gset (Z * Z) := match a with Some (_, bits) => bits | None => ∅ end.
Definition filters_of (a : bloom) : list SubFilterMeta := match a with Some (meta, _) => b_filters meta | None => [] end.

(** Sub-filters are numbered from 0. *)
Record meta_ok (meta : BloomMeta) : Prop := {
  mo_encodable : encodable meta;
  mo_nonempty : b_filters meta ≠ [];
  mo_ids k f : b_filters meta !! k = Some f → f_id f = Z.of_nat k
}.

(** A well-formed filter: no bit of a sub-filter that does not exist is set. *)
Definition bloom_ok (a : bloom) : Prop :=
  match a with
  | Some (meta, bits) => meta_ok meta ∧ ∀ id pos, (id, pos) ∈ bits → id < Z.of_nat (length (b_filters meta))
  | None => True
  end.

(** Reported by one sub-filter, by any. *)
Definition reported (bits : gset (Z * Z)) (item : list Z) (f : SubFilterMeta) : bool := all_in bits (f_id f) (positions item f).
Definition possible (item : list Z) (a : bloom) : bool := existsb (reported (bits_of a) item) (filters_of a).

(** How sizes follow one another: the capacity of the sub-filter number [k] is that of the
    one before times the [k]th power of the expansion rate (and not times the rate), its
    error rate twice that of the one before times [2^-(k+1)]. *)
Definition growth (expansion : Z) (k : nat) : Z := f64_to_u64 (powi (f64_of_Z expansion) (Z.of_nat k)).
Definition next_generations (meta : BloomMeta) : Prop :=
  ∀ k f g, b_filters meta !! k = Some f → b_filters meta !! S k = Some g →
    f_capacity g = as_u64 (f_capacity f * growth (b_expansion meta) (S k)) ∧
    f_error_rate g = f64_mul (f64_mul (f_error_rate f) f64_two) (powi f64_half (Z.of_nat (S k) + 1)).
Definition generations (a : bloom) : Prop := match a with Some (meta, _) => next_generations meta | None => True end.

(** For the default rate the powers are exact. *)
Lemma growth_two k : (k < 64)%nat → growth 2 k = 2 ^ Z.of_nat k.
Proof.
  intros Hk. assert (forallb (λ k, growth 2 k =? 2 ^ Z.of_nat k) (seq 0 64) = true) as H by (by vm_compute).
  rewrite forallb_forall in H. apply Z.eqb_eq, H, in_seq. lia.
Qed.

(** The sub-filters of a filter with the default expansion rate. *)
Definition powers_of_two (a : bloom) : Prop :=
  match a with
  | Some (meta, _) => b_expansion meta = 2 → ∀ k f g, (S k < 64)%nat →
      b_filters meta !! k = Some f → b_filters meta !! S k = Some g →
      f_capacity g = (f_capacity f * 2 ^ Z.of_nat (S k)) mod 2 ^ 64
  | None => True
  end.
Lemma generations_powers a : generations a → powers_of_two a.
Proof.
  destruct a as [[meta bits]|]; [|done]. intros Hgen He k f g Hk Hf Hg. destruct (Hgen k f g Hf Hg) as [-> _].
  rewrite He, growth_two by done. done.
Qed.

Section Machine.
Context (ln : Z → Z).

(** Adding to the newest sub-filter, after a new one if that is full; an item the newest
    one reports changes nothing, but that the filter now exists. *)
Definition badd (item : list Z) (a : bloom) : Z * bloom :=
  let '(meta, bits) := default (default_meta ln, ∅) a in
  match last (b_filters meta) with
  | None => (0, a)
  | Some newest =>
      let meta' := expanded ln meta newest in
      match last (b_filters meta') with
      | None => (0, a)
      | Some f =>
          if reported bits item f then (0, Some (meta, bits))
          else (1, Some (bump_last meta', bits ∪ pos_bits (f_id f) (positions item f)))
      end
  end.

Fixpoint badds (items : list (list Z)) (a : bloom) : list Z * bloom :=
  match items with
  | [] => ([], a)
  | item :: items' => let '(n, a1) := badd item a in let '(ns, a2) := badds items' a1 in (n :: ns, a2)
  end.

Inductive bcmd : Type :=
| BReserve (error_rate capacity expansion : Z) (non_scaling : bool)
| BAdd (item : list Z)
| BExists (item : list Z)
| BMAdd (items : list (list Z))
| BMExists (items : list (list Z))
| BInsert (info : InsertInfo)
| BInfo.

Definition reserved (error_rate capacity expansion : Z) (non_scaling : bool) : BloomMeta :=
  let exp := if expansion <? 1 then DEF_EXP else expansion in
  mkBloomMeta (exp mod 256) non_scaling [new_initial_sub_filter ln capacity error_rate exp non_scaling].

Definition bstep (c : bcmd) (a : bloom) : result DbResult DbError * bloom :=
  match c with
  | BReserve err cap exp ns =>
      match a with
      | Some _ => (Err KeyExists, a)
      | None => (Ok RUnit, Some (reserved err cap exp ns, ∅))
      end
  | BAdd item => let '(n, a') := badd item a in (Ok (RInt n), a')
  | BExists item => (Ok (RBool (possible item a)), a)
  | BMAdd items => let '(ns, a') := badds items a in (Ok (RInts ns), a')
  | BMExists items => (Ok (RInts ((λ item, if possible item a then 1 else 0) <$> items)), a)
  | BInsert info =>
      match a with
      | None =>
          if ii_no_create info then (Err (Kv KeyNotFound), None)
          else let '(ns, a') := badds (ii_items info) (Some (insert_meta ln info, ∅)) in (Ok (RInts ns), a')
      | Some _ => let '(ns, a') := badds (ii_items info) a in (Ok (RInts ns), a')
      end
  | BInfo =>
      match a with
      | None => (Err (Kv KeyNotFound), a)
      | Some (meta, _) =>
          (Ok (RBloomInfo (mkBloomInfo (total f_capacity (b_filters meta)) (total f_num_bits (b_filters meta))
                 (Z.of_nat (length (b_filters meta))) (total f_inserted (b_filters meta)) (b_expansion meta))), a)
      end
  end.

(** The items a command adds. *)
Definition added_by (c : bcmd) : list (list Z) :=
  match c with BAdd item => [item] | BMAdd items => items | BInsert info => ii_items info | _ => [] end.

(** Capacities and error rates of their types. *)
Definition bregular (c : bcmd) : Prop :=
  match c with
  | BReserve err cap _ _ => 0 ≤ cap < 2 ^ 64 ∧ 0 ≤ err < 2 ^ 64
  | BInsert info => 0 ≤ ii_capacity info < 2 ^ 64 ∧ 0 ≤ ii_error info < 2 ^ 64
  | _ => True
  end.

#[export] Instance bregular_dec c : Decision (bregular c).
Proof. destruct c; apply _. Defined.

(** ** The invariant *)
Lemma meta_ok_last meta f : meta_ok meta → last (b_filters meta) = Some f → filter_ok f ∧ f_id f + 1 = Z.of_nat (length (b_filters meta)).
Proof.
  intros [[_ [Hf _]] Hne Hids] Hl. split; [eapply Forall_lookup_1; [exact Hf|]; rewrite last_lookup in Hl; exact Hl|].
  rewrite last_lookup in Hl. rewrite (Hids _ _ Hl). destruct (b_filters meta); [done|]. cbn [length]. lia.
Qed.

Lemma meta_last meta : meta_ok meta → ∃ f, last (b_filters meta) = Some f.
Proof. intros [_ Hne _]. by apply last_is_Some. Qed.

Lemma expanded_ok meta newest :
  meta_ok meta → last (b_filters meta) = Some newest → (length (b_filters meta) < Z.to_nat 65535)%nat → meta_ok (expanded ln meta newest).
Proof.
  intros Hok Hl Hroom. destruct (meta_ok_last meta newest Hok Hl) as [_ Hid]. unfold expanded. destruct (_ && _); [|done].
  destruct Hok as [[He [Hf _]] Hne Hids].
  destruct (new_sub_filter_ok ln (f_capacity newest) (f64_mul (f_error_rate newest) f64_two) (b_expansion meta) (f_id newest + 1) ltac:(lia)) as [Hnew Hnid].
  split.
  - split; [done|]. cbn [b_filters]. split; [by apply Forall_app_2; [|apply Forall_singleton]|]. rewrite length_app. cbn [length]. lia.
  - cbn [b_filters]. by destruct (b_filters meta).
  - cbn [b_filters]. intros k f [Hk|[Hk Hf']]%lookup_app_Some; [by apply Hids|]. apply list_lookup_singleton_Some in Hf' as [Hk' <-]. lia.
Qed.

(** The last sub-filter with another counter. *)
Definition bumped (f : SubFilterMeta) : SubFilterMeta :=
  mkFilter (f_id f) (f_capacity f) (as_u64 (f_inserted f + 1)) (f_error_rate f) (f_num_hashes f) (f_num_bits f) (f_seed1 f) (f_seed2 f).

Lemma bump_last_snoc meta fs f : b_filters meta = fs ++ [f] → b_filters (bump_last meta) = fs ++ [bumped f].
Proof. intros E. unfold bump_last. cbn [b_filters]. by rewrite E, last_snoc, removelast_last. Qed.

Lemma bump_last_ok meta : meta_ok meta → meta_ok (bump_last meta) ∧ length (b_filters (bump_last meta)) = length (b_filters meta).
Proof.
  intros [[He [Hf Hn]] Hne Hids]. destruct (exists_last Hne) as (fs & f & E). rewrite (bump_last_snoc meta fs f E).
  rewrite E in *. apply Forall_app in Hf as [Hf Hl]. apply (proj1 (Forall_singleton _ _)) in Hl. rewrite !length_app in *. split; [|done]. split.
  - split; [done|]. rewrite (bump_last_snoc meta fs f E). rewrite length_app. split; [|done]. apply Forall_app_2; [done|]. apply Forall_singleton.
    destruct Hl as (H1 & H2 & H3 & H4 & H5 & H6 & H7 & H8). pose proof (as_u64_range (f_inserted f + 1)).
    unfold filter_ok, bumped. cbn [f_id f_capacity f_inserted f_error_rate f_num_hashes f_num_bits f_seed1 f_seed2]. lia.
  - rewrite (bump_last_snoc meta fs f E). by destruct fs.
  - intros k g Hg. rewrite (bump_last_snoc meta fs f E) in Hg. apply lookup_app_Some in Hg as [Hg|[Hk Hg]].
    + apply Hids. by apply lookup_app_l_Some.
    + apply list_lookup_singleton_Some in Hg as [Hk' <-]. cbn [bumped f_id]. apply (Hids k f). rewrite lookup_app_r by done. by rewrite Hk'.
Qed.

Definition count_of (a : bloom) : Z := Z.of_nat (length (filters_of a)).

Lemma default_ok : meta_ok (default_meta ln).
Proof.
  destruct (new_initial_sub_filter_ok ln DEF_CAP DEF_ERR DEF_EXP false ltac:(done) ltac:(done)) as [H1 H2]. unfold default_meta. split.
  - split; [done|]. cbn [b_filters]. split; [by apply Forall_singleton|]. cbn [length]. lia.
  - done.
  - cbn [b_filters]. intros k f [-> <-]%list_lookup_singleton_Some. exact H2.
Qed.

Lemma created_ok cap err exp e ns :
  0 ≤ e < 256 → 0 ≤ cap < 2 ^ 64 → f64_ok err → bloom_ok (Some (mkBloomMeta e ns [new_initial_sub_filter ln cap err exp ns], ∅)).
Proof.
  intros He Hc Hr. destruct (new_initial_sub_filter_ok ln cap err exp ns Hc Hr) as [H1 H2]. split; [|set_solver]. split.
  - split; [done|]. cbn [b_filters]. split; [by apply Forall_singleton|]. cbn [length]. lia.
  - done.
  - cbn [b_filters]. intros k f [-> <-]%list_lookup_singleton_Some. exact H2.
Qed.

(** What [badd] does to a filter that exists. *)
Lemma badd_cases item meta bits :
  meta_ok meta → (length (b_filters meta) < Z.to_nat 65535)%nat →
  ∃ newest f, last (b_filters meta) = Some newest ∧ meta_ok (expanded ln meta newest) ∧
    last (b_filters (expanded ln meta newest)) = Some f ∧ filter_ok f ∧
    badd item (Some (meta, bits)) =
      if reported bits item f then (0, Some (meta, bits))
      else (1, Some (bump_last (expanded ln meta newest), bits ∪ pos_bits (f_id f) (positions item f))).
Proof.
  intros Hok Hroom. destruct (meta_last meta Hok) as [newest Hl]. pose proof (expanded_ok meta newest Hok Hl Hroom) as Hex.
  destruct (meta_last _ Hex) as [f Hf]. exists newest, f. split_and!; [done..|by eapply meta_ok_last|].
  unfold badd. cbn [default from_option id]. by rewrite Hl, Hf.
Qed.

Lemma badd_None item : badd item None = badd item (Some (default_meta ln, ∅)).
Proof.
  destruct (meta_last _ default_ok) as [f Hf]. destruct (meta_last _ (expanded_ok _ f default_ok Hf ltac:(cbn [default_meta b_filters length]; lia))) as [g Hg].
  unfold badd. cbn [default from_option id]. by rewrite Hf, Hg.
Qed.

Lemma expanded_length meta newest : (length (b_filters meta) ≤ length (b_filters (expanded ln meta newest)) ≤ S (length (b_filters meta)))%nat.
Proof. unfold expanded. destruct (_ && _); [|lia]. cbn [b_filters]. rewrite length_app. cbn [length]. lia. Qed.

Lemma badd_ok item a :
  bloom_ok a → count_of a < 65535 → bloom_ok (badd item a).2 ∧ count_of a ≤ count_of (badd item a).2 ≤ Z.max 1 (count_of a) + 1 ∧ is_Some (badd item a).2.
Proof.
  assert (∀ meta bits, bloom_ok (Some (meta, bits)) → count_of (Some (meta, bits)) < 65535 →
    bloom_ok (badd item (Some (meta, bits))).2 ∧
    count_of (Some (meta, bits)) ≤ count_of (badd item (Some (meta, bits))).2 ≤ count_of (Some (meta, bits)) + 1 ∧
    is_Some (badd item (Some (meta, bits))).2) as Hsome.
  { intros meta bits [Hok Hin] Hroom. unfold count_of in *. cbn [filters_of] in *.
    destruct (badd_cases item meta bits Hok ltac:(lia)) as (newest & f & Hl & Hex & Hf & Hfo & ->).
    destruct (reported bits item f); [by split_and!; [|cbn [snd filters_of]; lia..|]|]. cbn [snd filters_of].
    destruct (bump_last_ok _ Hex) as [Hb Hlen]. pose proof (expanded_length meta newest) as Hel. rewrite Hlen.
    split_and!; [|lia..|done]. split; [done|]. intros id pos [Hi|[-> _]%elem_of_pos_bits]%elem_of_union.
    - specialize (Hin id pos Hi). lia.
    - destruct (meta_ok_last _ f Hex Hf) as [_ E]. lia. }
  destruct a as [[meta bits]|]; intros Hok Hroom.
  - destruct (Hsome meta bits Hok Hroom) as (? & ? & ?). split_and!; [done|lia..|done].
  - rewrite badd_None. destruct (Hsome (default_meta ln) ∅) as (H1 & H2 & H3); [split; [apply default_ok|set_solver]|done|].
    split_and!; [done|change (count_of (Some (default_meta ln, ∅))) with 1 in H2; change (count_of None) with 0; lia..|done].
Qed.

(** ** No false negatives *)

(** Every sub-filter of the first is in the second, but for its counter, and no bit is lost. *)
Definition grows (a a' : bloom) : Prop :=
  bits_of a ⊆ bits_of a' ∧
  ∀ f, f ∈ filters_of a → ∃ g, g ∈ filters_of a' ∧ f_id g = f_id f ∧ ∀ item, positions item g = positions item f.

Lemma grows_trans a b c : grows a b → grows b c → grows a c.
Proof.
  intros [H1 F1] [H2 F2]. split; [by etrans|]. intros f Hf. destruct (F1 f Hf) as (g & Hg & I1 & P1).
  destruct (F2 g Hg) as (h & Hh & I2 & P2). exists h. split_and!; [done|by rewrite I2|]. intros item. by rewrite P2.
Qed.
Lemma grows_refl a : grows a a.
Proof. split; [done|]. eauto. Qed.
Lemma grows_None a : grows None a.
Proof. split; [set_solver|]. intros f Hf. by apply elem_of_nil in Hf. Qed.

Lemma possible_spec item a :
  possible item a = true ↔ ∃ f, f ∈ filters_of a ∧ ∀ pos, pos ∈ positions item f → (f_id f, pos) ∈ bits_of a.
Proof.
  unfold possible. rewrite existsb_exists. apply exist_proper. intros f. rewrite <- list_elem_of_In. apply and_iff_compat_l.
  unfold reported, all_in. rewrite forallb_forall. apply forall_proper. intros pos. by rewrite <- list_elem_of_In, bool_decide_eq_true.
Qed.

Lemma grows_possible item a a' : grows a a' → possible item a = true → possible item a' = true.
Proof.
  intros [Hb Hf] (f & Hin & Hp)%possible_spec. apply possible_spec. destruct (Hf f Hin) as (g & Hg & Hi & Hpos).
  exists g. split; [done|]. intros pos. rewrite Hpos, Hi. intros H. apply Hb, Hp, H.
Qed.

Lemma expanded_filters meta newest : ∃ l, b_filters (expanded ln meta newest) = b_filters meta ++ l.
Proof. unfold expanded. destruct (_ && _); [eexists; done|]. exists []. by rewrite app_nil_r. Qed.

Lemma bump_last_elem meta f : f ∈ b_filters meta → f ∈ b_filters (bump_last meta) ∨ bumped f ∈ b_filters (bump_last meta).
Proof.
  intros Hin. destruct (exists_last (l:=b_filters meta)) as (fs & g & E); [intros E; rewrite E in Hin; by apply elem_of_nil in Hin|].
  rewrite (bump_last_snoc meta fs g E). rewrite E in Hin. rewrite elem_of_app, list_elem_of_singleton in Hin. rewrite !elem_of_app, !list_elem_of_singleton.
  destruct Hin as [H|H]; [by left; left|right; right; by rewrite H].
Qed.
Lemma last_bumped meta f : last (b_filters meta) = Some f → bumped f ∈ b_filters (bump_last meta).
Proof. intros [fs E]%last_Some. rewrite (bump_last_snoc meta fs f E). rewrite elem_of_app, list_elem_of_singleton. by right. Qed.

Lemma badd_grows item a : bloom_ok a → count_of a < 65535 → grows a (badd item a).2.
Proof.
  destruct a as [[meta bits]|]; intros Hok Hroom; [|apply grows_None]. destruct Hok as [Hok _]. unfold count_of in Hroom. cbn [filters_of] in Hroom.
  destruct (badd_cases item meta bits Hok ltac:(lia)) as (newest & f & Hl & Hex & Hf & Hfo & ->).
  destruct (reported bits item f); [apply grows_refl|]. cbn [snd]. split; [cbn [bits_of]; set_solver|]. cbn [filters_of]. intros g Hg.
  destruct (expanded_filters meta newest) as [l E].
  destruct (bump_last_elem (expanded ln meta newest) g) as [H|H]; [rewrite E, elem_of_app; by left|by exists g|]. by exists (bumped g).
Qed.

(** An item is reported once it was added: a filter that is full gets an empty sub-filter. *)
Lemma badd_possible item a : bloom_ok a → count_of a < 65535 → possible item (badd item a).2 = true.
Proof.
  assert (∀ meta bits, bloom_ok (Some (meta, bits)) → count_of (Some (meta, bits)) < 65535 →
    possible item (badd item (Some (meta, bits))).2 = true) as Hsome.
  { intros meta bits [Hok Hin] Hroom. unfold count_of in Hroom. cbn [filters_of] in Hroom.
    destruct (badd_cases item meta bits Hok ltac:(lia)) as (newest & f & Hl & Hex & Hf & Hfo & ->).
    destruct (reported bits item f) eqn:Er; cbn [snd]; apply possible_spec; cbn [filters_of bits_of].
    - unfold reported, all_in in Er. rewrite forallb_forall in Er.
      assert (∀ pos, pos ∈ positions item f → (f_id f, pos) ∈ bits) as Hall.
      { intros pos Hpos. eapply bool_decide_eq_true, Er. by apply list_elem_of_In. }
      exists f. split; [|done]. unfold expanded in Hf. destruct (_ && _); [|by apply last_Some_elem_of].
      cbn [b_filters] in Hf. rewrite last_snoc in Hf. injection Hf as <-. exfalso. destruct (meta_ok_last meta newest Hok Hl) as [Hno Hid].
      destruct (new_sub_filter_ok ln (f_capacity newest) (f64_mul (f_error_rate newest) f64_two) (b_expansion meta) (f_id newest + 1)) as [Hnew Hnid];
        [destruct Hno; lia|].
      pose proof (positions_nonempty item _ Hnew) as Hne. destruct (positions item _) as [|pos ps] eqn:Ep; [done|].
      specialize (Hin _ _ (Hall pos ltac:(left))). lia.
    - exists (bumped f). split; [by apply last_bumped|]. intros pos Hpos. cbn [bumped f_id].
      rewrite elem_of_union, elem_of_pos_bits. right. by split. }
  destruct a as [[meta bits]|]; [apply Hsome|]. intros _ _. rewrite badd_None. apply Hsome; [split; [apply default_ok|set_solver]|done].
Qed.

Lemma badds_facts items a :
  bloom_ok a → Z.max 1 (count_of a) + Z.of_nat (length items) ≤ 65535 →
  bloom_ok (badds items a).2 ∧ Z.max 1 (count_of (badds items a).2) ≤ Z.max 1 (count_of a) + Z.of_nat (length items) ∧
  grows a (badds items a).2 ∧ Forall (λ item, possible item (badds items a).2 = true) items.
Proof.
  revert a. induction items as [|item items IH]; intros a Hok Hroom.
  { split_and!; [done|cbn [badds snd length]; lia|apply grows_refl|done]. }
  cbn [length badds] in *. destruct (badd_ok item a Hok ltac:(lia)) as (H1 & H2 & _). pose proof (badd_grows item a Hok ltac:(lia)) as H3.
  pose proof (badd_possible item a Hok ltac:(lia)) as H4. destruct (badd item a) as [n a1]. cbn [snd] in *.
  destruct (IH a1 H1 ltac:(lia)) as (I1 & I2 & I3 & I4). destruct (badds items a1) as [ns a2]. cbn [snd] in *.
  split_and!; [done|lia|by eapply grows_trans|]. apply Forall_cons. split; [by eapply grows_possible|done].
Qed.

(** Every command keeps the filter well-formed, loses nothing and adds its items. *)
Lemma bstep_facts c a :
  bregular c → bloom_ok a → Z.max 1 (count_of a) + Z.of_nat (length (added_by c)) ≤ 65535 →
  bloom_ok (bstep c a).2 ∧ Z.max 1 (count_of (bstep c a).2) ≤ Z.max 1 (count_of a) + Z.of_nat (length (added_by c)) ∧
  grows a (bstep c a).2 ∧ (is_err (bstep c a).1 = false → Forall (λ item, possible item (bstep c a).2 = true) (added_by c)).
Proof.
  intros Hreg Hok Hroom.
  assert (∀ items b, bloom_ok b → grows a b → Z.max 1 (count_of b) = Z.max 1 (count_of a) → added_by c = items →
    bloom_ok (badds items b).2 ∧ Z.max 1 (count_of (badds items b).2) ≤ Z.max 1 (count_of a) + Z.of_nat (length items) ∧
    grows a (badds items b).2 ∧ Forall (λ item, possible item (badds items b).2 = true) items) as Hadd.
  { intros items b Hb Hgr Hcount <-. destruct (badds_facts (added_by c) b Hb ltac:(lia)) as (I1 & I2 & I3 & I4).
    split_and!; [done|lia|by eapply grows_trans|done]. }
  destruct c as [err cap exp ns|item|item|items|items|info|]; cbn [added_by] in *; cbn [bstep].
  - destruct a as [[meta bits]|].
    { split_and!; [done|cbn [snd length]; lia|apply grows_refl|done]. }
    cbn [snd]. split_and!; [|unfold count_of; cbn [filters_of reserved b_filters length]; lia|apply grows_None|done].
    apply created_ok; [apply Z.mod_pos_bound; lia|apply Hreg|unfold f64_ok; apply Hreg].
  - pose proof (Hadd [item] a Hok (grows_refl a) eq_refl eq_refl) as H. cbn [badds] in H. destruct (badd item a) as [n a']. cbn [snd] in *. tauto.
  - split_and!; [done|cbn [snd length]; lia|apply grows_refl|done].
  - pose proof (Hadd items a Hok (grows_refl a) eq_refl eq_refl) as H. destruct (badds items a) as [n a']. cbn [snd] in *. tauto.
  - split_and!; [done|cbn [snd length]; lia|apply grows_refl|done].
  - destruct a as [[meta bits]|].
    + pose proof (Hadd (ii_items info) _ Hok (grows_refl _) eq_refl eq_refl) as H.
      destruct (badds (ii_items info) (Some (meta, bits))) as [n a']. cbn [snd] in *. tauto.
    + destruct (ii_no_create info); [split_and!; [done|cbn [snd]; lia|apply grows_refl|done]|].
      assert (bloom_ok (Some (insert_meta ln info, ∅))) as Hnew.
      { unfold insert_meta. apply created_ok; [apply Z.mod_pos_bound; lia| |]; destruct Hreg; repeat case_match; try done; unfold f64_ok; lia. }
      pose proof (Hadd (ii_items info) _ Hnew (grows_None _) eq_refl eq_refl) as H.
      destruct (badds (ii_items info) (Some (insert_meta ln info, ∅))) as [n a']. cbn [snd] in *. tauto.
  - destruct a as [[meta bits]|]; (split_and!; [done|cbn [snd length]; lia|apply grows_refl|done]).
Qed.
(** ** Generations *)

(** A sub-filter of the same size and error rate, whatever its counter. *)
Definition same_size (f g : SubFilterMeta) : Prop := f_capacity f = f_capacity g ∧ f_error_rate f = f_error_rate g.

Lemma bump_last_lookup meta k f :
  b_filters (bump_last meta) !! k = Some f → ∃ g, b_filters meta !! k = Some g ∧ same_size f g.
Proof.
  destruct (b_filters meta) as [|x l] eqn:E0; [unfold bump_last; cbn [b_filters]; by rewrite E0|].
  destruct (exists_last (l:=b_filters meta)) as (fs & g & E); [by rewrite E0|].
  rewrite <- E0. rewrite (bump_last_snoc meta fs g E), E. intros [H|[H1 H2]]%lookup_app_Some.
  - exists f. by split; [apply lookup_app_l_Some|].
  - apply list_lookup_singleton_Some in H2 as [H2 <-]. exists g. split; [|done].
    rewrite lookup_app_r by done. by rewrite H2.
Qed.

Lemma expanded_next_generation meta newest :
  meta_ok meta → last (b_filters meta) = Some newest → (length (b_filters meta) < Z.to_nat 65535)%nat →
  next_generations meta → next_generations (bump_last (expanded ln meta newest)).
Proof.
  intros Hok Hl Hroom Hgen. destruct (meta_ok_last meta newest Hok Hl) as [_ Hid].
  assert (next_generations (expanded ln meta newest)) as Hex.
  { unfold expanded. destruct (_ && _); [|done]. intros k f g Hf Hg. cbn [b_filters b_expansion] in *.
    apply lookup_app_Some in Hg as [Hg|[Hk Hg]].
    - rewrite lookup_app_l in Hf by (apply lookup_lt_Some in Hg; lia). by eapply Hgen.
    - apply list_lookup_singleton_Some in Hg as [Hk' <-]. assert (S k = length (b_filters meta)) as Ek by lia.
      rewrite lookup_app_l in Hf by lia. rewrite last_lookup, <- Ek in Hl. cbn [Nat.pred] in Hl. rewrite Hl in Hf.
      injection Hf as ->. unfold new_sub_filter, sub_filter_capacity, sub_filter_error_rate.
      destruct (compute_bloom_params ln _ _), (sub_filter_seeds _). cbn [f_capacity f_error_rate].
      assert (f_id f + 1 = Z.of_nat (S k)) as -> by lia.
      assert (∀ i, 0 ≤ i < 2 ^ 31 → as_i32 i = i) as Hi32 by (intros i Hi; unfold as_i32, wrap_signed; rewrite Z.mod_small; lia).
      rewrite !Hi32 by lia. done. }
  intros k f g Hf Hg.
  apply bump_last_lookup in Hf as (f' & Hf & Ef1 & Ef2), Hg as (g' & Hg & Eg1 & Eg2).
  destruct (Hex k f' g' Hf Hg) as [H1 H2]. rewrite Ef1, Ef2, Eg1, Eg2. by split.
Qed.

Lemma one_generation e ns f : next_generations (mkBloomMeta e ns [f]).
Proof. intros k g g' _ Hg. by destruct k. Qed.

Lemma badd_generations item a : bloom_ok a → count_of a < 65535 → generations a → generations (badd item a).2.
Proof.
  assert (∀ meta bits, meta_ok meta → (length (b_filters meta) < Z.to_nat 65535)%nat → next_generations meta →
    generations (badd item (Some (meta, bits))).2) as Hsome.
  { intros meta bits Hok Hroom Hgen. destruct (badd_cases item meta bits Hok Hroom) as (newest & f & Hl & _ & _ & _ & ->).
    destruct (reported bits item f); [done|]. by apply expanded_next_generation. }
  destruct a as [[meta bits]|]; intros Hok Hroom Hgen.
  - apply Hsome; [apply Hok| |done]. unfold count_of in Hroom. cbn [filters_of] in Hroom. lia.
  - rewrite badd_None. apply Hsome; [apply default_ok|cbn [default_meta b_filters length]; lia|apply one_generation].
Qed.

Lemma badds_generations items a :
  bloom_ok a → Z.max 1 (count_of a) + Z.of_nat (length items) ≤ 65535 → generations a → generations (badds items a).2.
Proof.
  revert a. induction items as [|item items IH]; intros a Hok Hroom Hgen; [done|]. cbn [length badds] in *.
  destruct (badd_ok item a Hok ltac:(lia)) as (H1 & H2 & _). pose proof (badd_generations item a Hok ltac:(lia) Hgen) as H3.
  destruct (badd item a) as [n a1]. cbn [snd] in *. specialize (IH a1 H1 ltac:(lia) H3).
  by destruct (badds items a1).
Qed.

Lemma bstep_generations c a :
  bregular c → bloom_ok a → Z.max 1 (count_of a) + Z.of_nat (length (added_by c)) ≤ 65535 →
  generations a → generations (bstep c a).2.
Proof.
  intros Hreg Hok Hroom Hgen. destruct c as [err cap exp ns|item|item|items|items|info|]; cbn [added_by] in *; cbn [bstep].
  - destruct a as [[meta bits]|]; [done|apply one_generation].
  - pose proof (badd_generations item a Hok ltac:(cbn [length] in *; lia) Hgen). by destruct (badd item a).
  - done.
  - pose proof (badds_generations items a Hok Hroom Hgen). by destruct (badds items a).
  - done.
  - destruct a as [[meta bits]|].
    + pose proof (badds_generations (ii_items info) _ Hok Hroom Hgen). by destruct (badds _ _).
    + destruct (ii_no_create info); [done|].
      assert (bloom_ok (Some (insert_meta ln info, ∅))) as Hnew.
      { unfold insert_meta. apply created_ok; [apply Z.mod_pos_bound; lia| |]; destruct Hreg; repeat case_match; try done; unfold f64_ok; lia. }
      pose proof (badds_generations (ii_items info) _ Hnew Hroom (one_generation _ _ _)). by destruct (badds _ _).
  - by destruct a as [[meta bits]|].
Qed.
End Machine.

(** ** The filter in the store *)

(** The prefix [p] in use, or about to be, holds the filter [a] of the key [pk]. *)
Record holds (now : Z) (m : gmap (list Z) Item) (pk legacy : list Z) (p : ElementPrefix) (a : bloom) : Prop := {
  ho_sentinel :
    match live now pk m, a with
    | Some i, Some (meta, _) => base_type (item_meta i) = TYPE_BLOOM ∧ payload i = Ok (encode_meta meta) ∧ prefix_of i legacy = Ok p
    | None, None => explicit p = true
    | _, _ => False
    end;
  ho_bits : bits_at now m (prefix_bytes p) (bits_of a);
  ho_ok : bloom_ok a;
  ho_layout : layout pk legacy p
}.

(** From [m] to [m'] the filter became [a']: nothing but its key and its pages changed, and
    the key keeps its expiry. *)
Record bupdated (now : Z) (m : gmap (list Z) Item) (pk legacy : list Z) (p : ElementPrefix)
    (m' : gmap (list Z) Item) (a' : bloom) : Prop := {
  bu_good : good m';
  bu_holds : holds now m' pk legacy p a';
  bu_frame : ∀ k : list Z, k ≠ pk → (∀ f, k ≠ element_key (prefix_bytes p) f) → m' !! k = m !! k;
  bu_expiry : (live now pk m' ≫= item_expire_ts) = (live now pk m ≫= item_expire_ts)
}.

Lemma bupdated_refl now m pk legacy p a : good m → holds now m pk legacy p a → bupdated now m pk legacy p m a.
Proof. by split. Qed.
Lemma bupdated_trans now m1 m2 m3 pk legacy p a2 a3 :
  bupdated now m1 pk legacy p m2 a2 → bupdated now m2 pk legacy p m3 a3 → bupdated now m1 pk legacy p m3 a3.
Proof. intros [_ _ F1 E1] [G H F2 E2]. split; [done..| |by rewrite E2]. intros k K1 K2. by rewrite F2, F1. Qed.

Section Refines.
Context {T : Type} `{!TxOps T} {raw : T → gmap (list Z) Item} {ok : T → Prop}.
Context `{HT : !TxLaws T raw ok} {now : Z} (Hnow : clock_ok now) (ln : Z → Z).
#[local] Abbreviation Runs := (Runs (raw:=raw) (ok:=ok)).

Lemma runs_read_meta m pk legacy p a :
  holds now m pk legacy p a → Runs (read_meta_or_nil now pk) m (Ret (fst <$> a)) m.
Proof.
  intros [Hs _ Hok _]. destruct (live now pk m) as [i|] eqn:El, a as [[meta bits]|]; try done.
  - destruct Hs as (_ & Hp & _). destruct Hok as [[He _ _] _]. eapply runs_bind; [apply runs_caught|apply runs_ret].
    eapply runs_bind; [by apply runs_get|]. rewrite lookup_live_live, El. eapply runs_bind; [apply runs_ret|].
    rewrite Hp. eapply runs_bind; [apply runs_ret|]. rewrite decode_encode_meta by done. apply runs_ret.
  - assert (Runs (read_meta now pk) m (Fail (Kv KeyNotFound)) m) as Hm.
    { eapply runs_bind; [by apply runs_get|]. rewrite lookup_live_live, El. apply runs_bind_fail, runs_fail. }
    eapply runs_bind; [apply runs_caught_fail, Hm|]. apply runs_ret.
Qed.

Lemma runs_write_meta m pk legacy p a meta :
  good m → holds now m pk legacy p a → bloom_ok (Some (meta, bits_of a)) →
  ∃ m', Runs (write_meta now pk meta p) m (Ret ()) m' ∧ bupdated now m pk legacy p m' (Some (meta, bits_of a)).
Proof.
  intros Hg [Hs Hb _ Hlay] Hok.
  destruct (runs_write_payload (raw:=raw) (ok:=ok) Hnow TYPE_BLOOM pk legacy p (encode_meta meta) m) as (i & Hexp & Hrun & Hg' & Hl & Hty & Hpl & Hpre);
    [done|done|apply Hlay|destruct (live now pk m), a as [[? ?]|]; try done; apply Hs|].
  exists (<[pk := i]> m). split; [exact Hrun|]. split; [done| |intros k Hk _; by rewrite lookup_insert_ne|by rewrite Hl].
  split; [by rewrite Hl| |done|done]. eapply bits_at_frame; [|exact Hb]. intros f. apply live_insert_ne. symmetry. apply Hlay.
Qed.

(** What [add_one] does once it has the parameters. *)
Definition add_tail (pk : list Z) (p : ElementPrefix) (item : list Z) (meta : BloomMeta) : DbM T Z :=
  last_filter ← Hash.or_panic (last (b_filters meta));
  filter ← Hash.or_panic (last (b_filters (expanded ln meta last_filter)));
  positions ← Hash.or_panic (filter_positions item filter);
  pages ← load_pages now (prefix_bytes p) (f_id filter) positions ∅;
  present ← Hash.or_panic (all_set pages positions);
  if present : bool then mret 0
  else
    pages ← Hash.or_panic (set_bits positions pages);
    write_pages now (prefix_bytes p) (f_id filter) (map_to_list pages) ;;
    write_meta now pk (bump_last (expanded ln meta last_filter)) p ;;
    mret 1.

Lemma add_one_tail pk p item :
  add_one ln now pk p item =
    (old ← read_meta_or_nil now pk;
     meta ← (match old with Some m => mret m | None => write_meta now pk (default_meta ln) p ;; mret (default_meta ln) end);
     add_tail pk p item meta).
Proof. reflexivity. Qed.

Lemma runs_add_tail m pk legacy p meta bits item :
  good m → holds now m pk legacy p (Some (meta, bits)) → count_of (Some (meta, bits)) < 65535 →
  ∃ m', Runs (add_tail pk p item meta) m (Ret (badd ln item (Some (meta, bits))).1) m' ∧
    bupdated now m pk legacy p m' (badd ln item (Some (meta, bits))).2.
Proof.
  intros Hg Hh Hroom. pose proof (ho_ok _ _ _ _ _ _ Hh) as [Hok Hin].
  destruct (badd_ok ln item (Some (meta, bits)) (conj Hok Hin) Hroom) as (Hok' & _ & _).
  unfold count_of in Hroom. cbn [filters_of] in Hroom.
  destruct (badd_cases ln item meta bits Hok ltac:(lia)) as (newest & f & Hl & Hex & Hf & Hfo & Hadd). rewrite Hadd in *.
  assert (0 ≤ f_id f) as Hid by (destruct Hfo; lia).
  destruct (runs_add_bits (raw:=raw) (ok:=ok) Hnow (prefix_bytes p) (f_id f) (positions item f) m bits Hid (positions_nonneg item f Hfo)
    (ho_bits _ _ _ _ _ _ Hh) Hg) as (pages & H1 & Hall & pages' & m1 & Hset & H2 & Hg1 & Ho & Hb1).
  change (all_in bits (f_id f) (positions item f)) with (reported bits item f) in Hall.
  assert (live now pk m1 = live now pk m) as Hlive.
  { eapply same_outside_live; [exact Ho|]. intros g E. symmetry in E. by apply (lay_public _ _ _ (ho_layout _ _ _ _ _ _ Hh) g). }
  destruct (runs_write_payload (raw:=raw) (ok:=ok) Hnow TYPE_BLOOM pk legacy p (encode_meta (bump_last (expanded ln meta newest))) m1)
    as (i & Hexp & Hrun & Hg' & Hli & Hty & Hpl & Hpr);
    [done|done|apply Hh|rewrite Hlive; pose proof (ho_sentinel _ _ _ _ _ _ Hh) as Hs; destruct (live now pk m); [apply Hs|done]|].
  exists (if reported bits item f then m else <[pk := i]> m1). split.
  - unfold add_tail. do 2 (eapply runs_bind; [by apply runs_or_panic|]). eapply runs_bind; [by apply runs_or_panic, filter_positions_ok|].
    eapply runs_bind; [exact H1|]. eapply runs_bind; [by apply runs_or_panic|]. destruct (reported bits item f); [apply runs_ret|].
    eapply runs_bind; [by apply runs_or_panic|]. eapply runs_bind; [exact H2|]. eapply runs_bind; [exact Hrun|]. apply runs_ret.
  - destruct (reported bits item f); cbn [snd] in *; [by apply bupdated_refl|]. split; [done| | |by rewrite Hli, <- Hlive].
    + split; [by rewrite Hli| |done|apply Hh]. eapply bits_at_frame; [|exact Hb1]. intros g. apply live_insert_ne. symmetry. apply Hh.
    + intros k K1 K2. rewrite lookup_insert_ne by done. by apply Ho.
Qed.

Lemma runs_add_one m pk legacy p a item :
  good m → holds now m pk legacy p a → count_of a < 65535 →
  ∃ m', Runs (add_one ln now pk p item) m (Ret (badd ln item a).1) m' ∧ bupdated now m pk legacy p m' (badd ln item a).2.
Proof.
  intros Hg Hh Hroom. rewrite add_one_tail. pose proof (runs_read_meta m pk legacy p a Hh) as Hr. destruct a as [[meta bits]|].
  - destruct (runs_add_tail m pk legacy p meta bits item Hg Hh Hroom) as (m1 & H1 & Hu). exists m1. split; [|done].
    eapply runs_bind; [exact Hr|]. eapply runs_bind; [apply runs_ret|]. exact H1.
  - destruct (runs_write_meta m pk legacy p None (default_meta ln) Hg Hh) as (m1 & H1 & Hu); [split; [apply default_ok|set_solver]|].
    cbn [bits_of] in Hu. destruct (runs_add_tail m1 pk legacy p (default_meta ln) ∅ item (bu_good _ _ _ _ _ _ _ Hu) (bu_holds _ _ _ _ _ _ _ Hu))
      as (m2 & H2 & Hu2); [done|].
    exists m2. rewrite badd_None. split; [|by eapply bupdated_trans].
    eapply runs_bind; [exact Hr|]. eapply runs_bind; [eapply runs_bind; [exact H1|apply runs_ret]|]. exact H2.
Qed.

Lemma runs_add_all items m pk legacy p a :
  good m → holds now m pk legacy p a → Z.max 1 (count_of a) + Z.of_nat (length items) ≤ 65535 →
  ∃ m', Runs (add_all ln now pk p items) m (Ret (badds ln items a).1) m' ∧ bupdated now m pk legacy p m' (badds ln items a).2.
Proof.
  revert m a. induction items as [|item items IH]; intros m a Hg Hh Hroom.
  { exists m. split; [apply runs_ret|by apply bupdated_refl]. }
  cbn [length badds add_all] in *. destruct (runs_add_one m pk legacy p a item Hg Hh ltac:(lia)) as (m1 & H1 & Hu1).
  destruct (badd_ok ln item a (ho_ok _ _ _ _ _ _ Hh) ltac:(lia)) as (_ & Hc & _). destruct (badd ln item a) as [n a1]. cbn [fst snd] in *.
  destruct (IH m1 a1 (bu_good _ _ _ _ _ _ _ Hu1) (bu_holds _ _ _ _ _ _ _ Hu1) ltac:(lia)) as (m2 & H2 & Hu2).
  destruct (badds ln items a1) as [ns a2]. cbn [fst snd] in *. exists m2. split; [|by eapply bupdated_trans].
  eapply runs_bind; [exact H1|]. eapply runs_bind; [exact H2|]. apply runs_ret.
Qed.

Lemma runs_probe_filters p item fs m bits :
  Forall filter_ok fs → bits_at now m p bits → Runs (probe_filters now p item fs) m (Ret (existsb (reported bits item) fs)) m.
Proof.
  intros Hf Hb. induction fs as [|f fs IH]; [apply runs_ret|]. apply Forall_cons in Hf as [Hfo Hf]. cbn [probe_filters existsb].
  eapply runs_bind; [by apply runs_or_panic, filter_positions_ok|].
  eapply runs_bind; [eapply runs_probe; [done|destruct Hfo; lia|by apply positions_nonneg|exact Hb]|].
  fold (reported bits item f). destruct (reported bits item f); [apply runs_ret|by apply IH].
Qed.

Lemma existsb_rev {A} (g : A → bool) l : existsb g (rev l) = existsb g l.
Proof. apply eq_true_iff_eq. rewrite !existsb_exists. setoid_rewrite <- in_rev. done. Qed.

Lemma runs_exists_one m pk legacy p a item :
  holds now m pk legacy p a → Runs (exists_one now pk (prefix_bytes p) item) m (Ret (possible item a)) m.
Proof.
  intros Hh. eapply runs_bind; [by eapply runs_read_meta|]. pose proof (ho_ok _ _ _ _ _ _ Hh) as Hok. destruct a as [[meta bits]|]; [|apply runs_ret].
  cbn [fmap option_fmap option_map fst]. unfold possible. cbn [bits_of filters_of]. rewrite <- existsb_rev.
  apply runs_probe_filters; [|apply Hh]. destruct Hok as [[(_ & Hf & _) _ _] _]. apply Forall_forall. intros f Hin.
  rewrite Forall_forall in Hf. apply Hf. by rewrite list_elem_of_In, in_rev, <- list_elem_of_In.
Qed.

Lemma runs_exists_all items m pk legacy p a :
  holds now m pk legacy p a →
  Runs (exists_all now pk (prefix_bytes p) items) m (Ret ((λ item, if possible item a then 1 else 0) <$> items)) m.
Proof.
  intros Hh. induction items as [|item items IH]; [apply runs_ret|]. cbn [exists_all]. rewrite fmap_cons.
  eapply runs_bind; [by eapply runs_exists_one|]. eapply runs_bind; [exact IH|]. apply runs_ret.
Qed.
End Refines.

(** The operation of each command. *)
Definition bcmd_op {T} `{!TxOps T} (ln : Z → Z) (now : Z) (id pk legacy : list Z) (c : bcmd) : DbM T DbResult :=
  match c with
  | BReserve err cap exp ns => ReserveOp ln now id pk legacy err cap exp ns
  | BAdd item => AddOp ln now id pk legacy item
  | BExists item => ExistsOp now pk legacy item
  | BMAdd items => MAddOp ln now id pk legacy items
  | BMExists items => MExistsOp now pk legacy items
  | BInsert info => InsertOp ln now id pk legacy info
  | BInfo => InfoOp now pk
  end.

Section Commands.
Context {T : Type} `{!TxOps T} {raw : T → gmap (list Z) Item} {ok : T → Prop}.
Context `{HT : !TxLaws T raw ok} {now : Z} (Hnow : clock_ok now) (ln : Z → Z).
#[local] Abbreviation Runs := (Runs (raw:=raw) (ok:=ok)).

(** The prefix a writing command resolves to is the one in use. *)
Lemma runs_bloom_prefix m pk legacy id p a :
  holds now m pk legacy p a → used_prefix (now:=now) m pk legacy id = Ok p →
  Runs (resolve_prefix_for_write now id pk legacy) m (Ret p) m.
Proof.
  intros Hh Hp. unfold used_prefix in Hp. eapply runs_bind; [by apply runs_get|]. rewrite lookup_live_live.
  destruct (live now pk m) as [i|]; rewrite Hp; apply runs_ret.
Qed.

(** A command that reads: the prefix does not matter when there is no filter. *)
Lemma runs_bloom_read m pk legacy p a :
  holds now m pk legacy p a →
  ∃ q, Runs (resolve_prefix now pk legacy) m (Ret q) m ∧ (a = None ∨ q = p).
Proof.
  intros [Hs _ _ _]. destruct (live now pk m) as [i|] eqn:El, a as [[meta bits]|]; try done.
  - exists p. split; [|by right]. eapply runs_bind; [by apply runs_get|]. rewrite lookup_live_live, El.
    destruct Hs as (_ & _ & ->). apply runs_ret.
  - exists (legacy_prefix legacy). split; [|by left]. eapply runs_bind; [by apply runs_get|]. rewrite lookup_live_live, El. apply runs_ret.
Qed.

Lemma runs_absent_exists m pk legacy p q item :
  holds now m pk legacy p None → Runs (exists_one now pk q item) m (Ret false) m.
Proof. intros Hh. eapply runs_bind; [by eapply (runs_read_meta Hnow)|]. apply runs_ret. Qed.

Lemma runs_absent_exists_all m pk legacy p q items :
  holds now m pk legacy p None → Runs (exists_all now pk q items) m (Ret ((λ _, 0) <$> items)) m.
Proof.
  intros Hh. induction items as [|item items IH]; [apply runs_ret|]. cbn [exists_all]. rewrite fmap_cons.
  eapply runs_bind; [by eapply runs_absent_exists|]. eapply runs_bind; [exact IH|]. apply runs_ret.
Qed.

Lemma runs_reserve m pk legacy id p a err cap exp ns :
  good m → holds now m pk legacy p a → used_prefix (now:=now) m pk legacy id = Ok p → bregular (BReserve err cap exp ns) →
  ∃ m', Runs (ReserveOp ln now id pk legacy err cap exp ns) m (outcome_of (bstep ln (BReserve err cap exp ns) a).1) m' ∧
    bupdated now m pk legacy p m' (bstep ln (BReserve err cap exp ns) a).2.
Proof.
  intros Hg Hh Hp [Hc He]. pose proof (ho_sentinel _ _ _ _ _ _ Hh) as Hs. cbn [bstep]. unfold used_prefix in Hp.
  destruct (live now pk m) as [i|] eqn:El, a as [[meta bits]|]; try done; cbn [fst snd].
  - exists m. split; [|by apply bupdated_refl]. eapply runs_bind; [by apply runs_get|]. rewrite lookup_live_live, El. apply runs_fail.
  - destruct (runs_write_meta (raw:=raw) (ok:=ok) Hnow m pk legacy p None (reserved ln err cap exp ns) Hg Hh) as (m1 & H1 & Hu).
    { apply created_ok; [apply Z.mod_pos_bound; lia|done|done]. }
    exists m1. split; [|done]. eapply runs_bind; [by apply runs_get|]. rewrite lookup_live_live, El. rewrite Hp.
    eapply runs_bind; [apply runs_ret|]. eapply runs_bind; [exact H1|]. apply runs_ret.
Qed.

Lemma runs_insert m pk legacy id p a info :
  good m → holds now m pk legacy p a → used_prefix (now:=now) m pk legacy id = Ok p → bregular (BInsert info) →
  Z.max 1 (count_of a) + Z.of_nat (length (ii_items info)) ≤ 65535 →
  ∃ m', Runs (InsertOp ln now id pk legacy info) m (outcome_of (bstep ln (BInsert info) a).1) m' ∧
    bupdated now m pk legacy p m' (bstep ln (BInsert info) a).2.
Proof.
  intros Hg Hh Hp [Hc He] Hroom. pose proof (runs_bloom_prefix m pk legacy id p a Hh Hp) as H1.
  pose proof (runs_read_meta Hnow m pk legacy p a Hh) as H2. cbn [bstep]. destruct a as [[meta bits]|].
  - destruct (runs_add_all (raw:=raw) (ok:=ok) Hnow ln (ii_items info) m pk legacy p _ Hg Hh Hroom) as (m1 & H3 & Hu).
    destruct (badds ln (ii_items info) (Some (meta, bits))) as [ns a']. exists m1. split; [|done].
    eapply runs_bind; [exact H1|]. eapply runs_bind; [exact H2|]. eapply runs_bind; [apply runs_ret|].
    eapply runs_bind; [exact H3|]. apply runs_ret.
  - destruct (ii_no_create info) eqn:En.
    { exists m. split; [|by apply bupdated_refl]. eapply runs_bind; [exact H1|]. eapply runs_bind; [exact H2|].
      cbn [fmap option_fmap option_map]. rewrite En. apply runs_bind_fail, runs_fail. }
    destruct (runs_write_meta (raw:=raw) (ok:=ok) Hnow m pk legacy p None (insert_meta ln info) Hg Hh) as (m1 & H3 & Hu).
    { unfold insert_meta. apply created_ok; [apply Z.mod_pos_bound; lia| |]; repeat case_match; done. }
    destruct (runs_add_all (raw:=raw) (ok:=ok) Hnow ln (ii_items info) m1 pk legacy p _ (bu_good _ _ _ _ _ _ _ Hu) (bu_holds _ _ _ _ _ _ _ Hu) Hroom)
      as (m2 & H4 & Hu2). cbn [bits_of] in H4, Hu2.
    destruct (badds ln (ii_items info) (Some (insert_meta ln info, ∅))) as [ns a']. exists m2. split; [|by eapply bupdated_trans].
    eapply runs_bind; [exact H1|]. eapply runs_bind; [exact H2|]. cbn [fmap option_fmap option_map]. rewrite En.
    eapply runs_bind; [exact H3|]. eapply runs_bind; [exact H4|]. apply runs_ret.
Qed.

(** Every command refines its step. *)
Lemma bloom_refines c m pk legacy id p a :
  good m → holds now m pk legacy p a → used_prefix (now:=now) m pk legacy id = Ok p → bregular c →
  Z.max 1 (count_of a) + Z.of_nat (length (added_by c)) ≤ 65535 →
  ∃ m', Runs (bcmd_op ln now id pk legacy c) m (outcome_of (bstep ln c a).1) m' ∧ bupdated now m pk legacy p m' (bstep ln c a).2.
Proof.
  intros Hg Hh Hp Hreg Hroom. destruct c as [err cap exp ns|item|item|items|items|info|]; cbn [bcmd_op added_by] in *.
  - by apply runs_reserve.
  - cbn [bstep length] in *. destruct (runs_add_one (raw:=raw) (ok:=ok) Hnow ln m pk legacy p a item Hg Hh ltac:(lia)) as (m1 & H1 & Hu).
    destruct (badd ln item a) as [n a']. exists m1. split; [|done]. eapply runs_bind; [by eapply runs_bloom_prefix|].
    eapply runs_bind; [exact H1|]. apply runs_ret.
  - exists m. split; [|by apply bupdated_refl]. cbn [bstep fst outcome_of]. destruct (runs_bloom_read m pk legacy p a Hh) as (q & Hq & Hc).
    eapply runs_bind; [exact Hq|]. destruct Hc as [->| ->].
    + eapply runs_bind; [by eapply runs_absent_exists|]. apply runs_ret.
    + eapply runs_bind; [by eapply (runs_exists_one Hnow)|]. apply runs_ret.
  - cbn [bstep] in *. destruct (runs_add_all (raw:=raw) (ok:=ok) Hnow ln items m pk legacy p a Hg Hh Hroom) as (m1 & H1 & Hu).
    destruct (badds ln items a) as [n a']. exists m1. split; [|done]. eapply runs_bind; [by eapply runs_bloom_prefix|].
    eapply runs_bind; [exact H1|]. apply runs_ret.
  - exists m. split; [|by apply bupdated_refl]. cbn [bstep fst outcome_of]. destruct (runs_bloom_read m pk legacy p a Hh) as (q & Hq & Hc).
    eapply runs_bind; [exact Hq|]. destruct Hc as [->| ->].
    + eapply runs_bind; [by eapply runs_absent_exists_all|]. apply runs_ret.
    + eapply runs_bind; [by eapply (runs_exists_all Hnow)|]. apply runs_ret.
  - by apply runs_insert.
  - exists m. pose proof (runs_read_meta Hnow m pk legacy p a Hh) as H1. cbn [bstep].
    destruct a as [[meta bits]|]; (split; [|by apply bupdated_refl]); (eapply runs_bind; [exact H1|]); [apply runs_ret|apply runs_fail].
Qed.
End Commands.

(** ** Sequences of commands *)

Fixpoint brun (ln : Z → Z) (l : list (list Z * bcmd)) (a : bloom) : list (result DbResult DbError) * bloom :=
  match l with
  | [] => ([], a)
  | (_, c) :: l' => let '(r, a1) := bstep ln c a in let '(rs, a2) := brun ln l' a1 in (r :: rs, a2)
  end.

(** The items the commands add, in order. *)
Definition all_added (l : list (list Z * bcmd)) : list (list Z) := l.*2 ≫= added_by.

(** Arguments within their types, and room for every item to open a sub-filter of its own. *)
Definition bregular_run (l : list (list Z * bcmd)) (a : bloom) : Prop :=
  Forall (λ ic, bregular ic.2) l ∧ Z.max 1 (count_of a) + Z.of_nat (length (all_added l)) ≤ 65535.

#[export] Instance bregular_run_dec l a : Decision (bregular_run l a).
Proof. unfold bregular_run. apply _. Defined.

Lemma bregular_run_cons ln id c l a :
  bregular_run ((id, c) :: l) a → bloom_ok a →
  bregular c ∧ Z.max 1 (count_of a) + Z.of_nat (length (added_by c)) ≤ 65535 ∧ bloom_ok (bstep ln c a).2 ∧ bregular_run l (bstep ln c a).2.
Proof.
  intros [Hreg Hroom] Hok. apply Forall_cons in Hreg as [Hc Hreg]. cbn [snd] in Hc. unfold all_added in Hroom.
  rewrite fmap_cons in Hroom. cbn [mbind list_bind snd] in Hroom. rewrite length_app in Hroom.
  destruct (bstep_facts ln c a Hc Hok ltac:(lia)) as (H1 & H2 & _). split_and!; [done|lia|done|]. split; [done|]. unfold all_added. lia.
Qed.

(** What a command that succeeded added is reported after the whole sequence. *)
Lemma brun_possible ln l a k id c r item :
  bregular_run l a → bloom_ok a → l !! k = Some (id, c) → (brun ln l a).1 !! k = Some (Ok r) → item ∈ added_by c →
  possible item (brun ln l a).2 = true.
Proof.
  assert (∀ l a, bregular_run l a → bloom_ok a → grows a (brun ln l a).2) as Hgrow.
  { clear. induction l as [|[id c] l IH]; intros a Hreg Hok; [apply grows_refl|].
    destruct (bregular_run_cons ln id c l a Hreg Hok) as (Hc & Hroom & Hok1 & Hreg1).
    destruct (bstep_facts ln c a Hc Hok Hroom) as (_ & _ & Hg & _). specialize (IH _ Hreg1 Hok1). cbn [brun].
    destruct (bstep ln c a) as [r a1]. cbn [fst snd] in *. destruct (brun ln l a1) as [rs a2]. cbn [snd] in *. by eapply grows_trans. }
  revert a k. induction l as [|[id' c'] l IH]; intros a k Hreg Hok Hk Hr Hin; [done|].
  destruct (bregular_run_cons ln id' c' l a Hreg Hok) as (Hc & Hroom & Hok1 & Hreg1).
  destruct (bstep_facts ln c' a Hc Hok Hroom) as (_ & _ & _ & Hp). specialize (Hgrow _ _ Hreg1 Hok1). specialize (IH (bstep ln c' a).2). revert Hr.
  cbn [brun]. destruct (bstep ln c' a) as [r1 a1]. cbn [fst snd] in *. destruct (brun ln l a1) as [rs a2]. cbn [fst snd] in *. intros Hr.
  destruct k as [|k]; [|by eapply (IH k)]. injection Hk as -> ->. injection Hr as ->. eapply grows_possible; [exact Hgrow|].
  specialize (Hp eq_refl). rewrite Forall_forall in Hp. by apply Hp.
Qed.

Lemma brun_generations ln l a : bregular_run l a → bloom_ok a → generations a → generations (brun ln l a).2.
Proof.
  revert a. induction l as [|[id c] l IH]; intros a Hreg Hok Hgen; [done|].
  destruct (bregular_run_cons ln id c l a Hreg Hok) as (Hc & Hroom & Hok1 & Hreg1).
  pose proof (bstep_generations ln c a Hc Hok Hroom Hgen) as Hgen1. specialize (IH _ Hreg1 Hok1 Hgen1). cbn [brun].
  destruct (bstep ln c a) as [r a1]. cbn [snd] in *. by destruct (brun ln l a1).
Qed.

Section Script.
Context {T : Type} `{!TxOps T} {raw : T → gmap (list Z) Item} {ok : T → Prop}.
Context `{HT : !TxLaws T raw ok} {now : Z} (Hnow : clock_ok now) (ln : Z → Z).
Context (s : Session T) (key : list Z) (Hs : session_ok s) (Hkey : key_ok key).
#[local] Abbreviation Runs := (Runs (raw:=raw) (ok:=ok)).
#[local] Abbreviation pk := (public_key s key).
#[local] Abbreviation legacy := (private_key s key).

(** The key holds the filter [a]. *)
Definition bloom_at (m : gmap (list Z) Item) (a : bloom) : Prop :=
  match a with
  | None => live now pk m = None
  | Some _ => ∃ p, holds now m pk legacy p a
  end.

(** The prefix in use, or the one a new filter would get. *)
Lemma bloom_at_holds m id ids a :
  bloom_at m a → spare s key now m (id :: ids) → ∃ p, holds now m pk legacy p a ∧ used_prefix (now:=now) m pk legacy id = Ok p.
Proof.
  intros Ha [_ Hu _]. apply Forall_cons in Hu as [[Hid He] _]. unfold used_prefix. destruct a as [[meta bits]|].
  - destruct Ha as [p Hh]. exists p. split; [done|]. pose proof (ho_sentinel _ _ _ _ _ _ Hh) as Hsent.
    destruct (live now pk m); [apply Hsent|done].
  - cbn [bloom_at] in Ha. exists (explicit_prefix (namespace_of s id)). rewrite Ha, session_namespace by done. split; [|done].
    split; [by rewrite Ha|by apply bits_at_unused|done|]. apply session_layout; [done..|]. right. eauto.
Qed.

Lemma holds_bloom_at m p a : holds now m pk legacy p a → bloom_at m a.
Proof.
  intros Hh. destruct a as [x|]; [by exists p|]. pose proof (ho_sentinel _ _ _ _ _ _ Hh) as Hsent. cbn [bloom_at].
  by destruct (live now pk m).
Qed.

Lemma bupdated_spare m id ids p m' a' :
  spare s key now m (id :: ids) → used_prefix (now:=now) m pk legacy id = Ok p → bupdated now m pk legacy p m' a' → spare s key now m' ids.
Proof.
  intros Hsp Hp [_ Hh Hf _]. eapply frame_spare; [done..|]. intros i Hi. pose proof (ho_sentinel _ _ _ _ _ _ Hh) as Hsent.
  rewrite Hi in Hsent. destruct a' as [[? ?]|]; [apply Hsent|done].
Qed.

(** Each command of a transaction with the id it would use; errors are confined. *)
Fixpoint bloom_script (l : list (list Z * bcmd)) : DbM T (list (result DbResult DbError)) :=
  match l with
  | [] => mret []
  | (id, c) :: l' => r ← caught (bcmd_op ln now id pk legacy c); rs ← bloom_script l'; mret (r :: rs)
  end.

Lemma bloom_script_runs l rest m a :
  good m → bloom_at m a → bloom_ok a → spare s key now m (l.*1 ++ rest) → bregular_run l a →
  ∃ m', Runs (bloom_script l) m (Ret (brun ln l a).1) m' ∧ good m' ∧ bloom_at m' (brun ln l a).2 ∧ spare s key now m' rest.
Proof.
  revert m a. induction l as [|[id c] l IH]; intros m a Hg Ha Hok Hsp Hreg.
  { exists m. split_and!; [apply runs_ret|done..]. }
  destruct (bregular_run_cons ln id c l a Hreg Hok) as (Hc & Hroom & Hok1 & Hreg1). rewrite fmap_cons in Hsp. cbn [fst app] in Hsp.
  destruct (bloom_at_holds m id _ a Ha Hsp) as (p & Hh & Hp).
  destruct (bloom_refines (raw:=raw) (ok:=ok) Hnow ln c m _ _ id p a Hg Hh Hp Hc Hroom) as (m1 & H1 & Hu).
  pose proof (bupdated_spare m id _ p m1 _ Hsp Hp Hu) as Hsp1. pose proof (holds_bloom_at m1 p _ (bu_holds _ _ _ _ _ _ _ Hu)) as Ha1.
  specialize (IH m1 _ (bu_good _ _ _ _ _ _ _ Hu) Ha1 Hok1 Hsp1 Hreg1). cbn [brun bloom_script].
  destruct (bstep ln c a) as [r a1]. cbn [fst snd] in *. destruct IH as (m2 & H2 & Hg2 & Ha2 & Hsp2).
  destruct (brun ln l a1) as [rs a2]. cbn [fst snd] in *. exists m2. split; [|done].
  assert (Runs (caught (bcmd_op ln now id pk legacy c)) m (Ret r) m1) as Hr.
  { destruct r; [by apply runs_caught|by apply runs_caught_fail]. }
  eapply runs_bind; [exact Hr|]. eapply runs_bind; [exact H2|]. apply runs_ret.
Qed.
End Script.

(** ** Theorems *)

(** A logarithm for concrete runs, right at 0.005. *)
Definition ln_sample (_ : Z) : Z := 0xC015317A1B949C53.

(** C24: a sequence of Bloom filter commands refines the same operations on an abstract filter:
    its parameters and the set of the bits that are set. Run one after the other in a
    transaction (errors confined to their command), BF.RESERVE, BF.ADD, BF.MADD, BF.INSERT,
    BF.EXISTS, BF.MEXISTS and BF.INFO on one key reply what the machine [brun] replies,
    whatever the logarithm returns, and the store ends with the machine's filter: the record
    of its parameters under the key and pages that hold exactly its bits. The sizes of its
    sub-filters follow this rule throughout: sub-filter k has the capacity of the one before
    times the kth power of the expansion rate, which for the default rate 2 is 2^k modulo
    2^64, and the error rate of the one before times 2 * 2^-(k+1). This is what the code
    does; the module documentation of bloom.rs, which has the capacity doubled and the
    error rate halved each time, is right for the second sub-filter only (100, 200, 800).
    Namespaces drawn for new filters are not in use and distinct; at most 65535
    sub-filters. *)
Theorem bloom_script_refines T `{!TxOps T} (raw : T → gmap (list Z) Item) (ok : T → Prop) (now : Z) (ln : Z → Z)
    (s : Session T) (key : list Z) (l : list (list Z * bcmd)) (m : gmap (list Z) Item) (a : bloom) :
  TxLaws T raw ok → clock_ok now → session_ok s → key_ok key →
  good m → bloom_at (now:=now) s key m a → bloom_ok a → spare s key now m l.*1 → bregular_run l a →
  ∃ m', Runs (raw:=raw) (ok:=ok) (bloom_script (now:=now) ln s key l) m (Ret (brun ln l a).1) m' ∧
    good m' ∧ bloom_at (now:=now) s key m' (brun ln l a).2 ∧
    (generations a → generations (brun ln l a).2 ∧ powers_of_two (brun ln l a).2).
Proof.
  intros HT Hnow Hs Hk Hg Ha Hok Hsp Hreg. rewrite <- (app_nil_r l.*1) in Hsp.
  destruct (bloom_script_runs (raw:=raw) (ok:=ok) Hnow ln s key Hs Hk l [] m a Hg Ha Hok Hsp Hreg) as (m' & H1 & H2 & H3 & _).
  exists m'. split_and!; [done..|]. intros Hgen%(brun_generations ln l a Hreg Hok). split; [done|by apply generations_powers].
Qed.

Definition bsample : list (list Z * bcmd) :=
  [(id_of 1, BReserve DEF_ERR 100 2 false); (id_of 2, BAdd (B "apple")); (id_of 3, BMAdd [B "apple"; B "pear"]);
   (id_of 4, BMExists [B "apple"; B "plum"; B "pear"]); (id_of 5, BReserve DEF_ERR 100 2 false); (id_of 6, BInfo)].

Definition bsample_replies : list (result DbResult DbError) :=
  [Ok RUnit; Ok (RInt 1); Ok (RInts [0; 1]); Ok (RInts [1; 0; 1]); Err KeyExists; Ok (RBloomInfo (mkBloomInfo 100 1103 1 2 2))].

Lemma bsample_runs : (brun ln_sample bsample None).1 = bsample_replies ∧ bregular_run bsample None ∧ spare demo_session (B "f") 5 ∅ bsample.*1.
Proof.
  split; [vm_compute; reflexivity|]. split; [apply (bool_decide_unpack _); vm_compute; exact I|].
  apply spare_empty; by apply (bool_decide_unpack _).
Qed.

Lemma bloom_script_refines_witness :
  ∃ m', Runs (raw:=id) (ok:=λ _, True) (bloom_script (now:=5) ln_sample demo_session (B "f") bsample) ∅ (Ret bsample_replies) m' ∧
    bloom_at (now:=5) demo_session (B "f") m' (brun ln_sample bsample None).2.
Proof.
  destruct bsample_runs as (E & Hreg & Hsp).
  destruct (bloom_script_refines (gmap (list Z) Item) id (λ _, True) 5 ln_sample demo_session (B "f") bsample ∅ None) as (m' & H & _ & Ha & _);
    [apply map_laws|unfold clock_ok; width_lia|unfold session_ok; simpl; width_lia|vm_compute; done|apply good_empty|done|done|exact Hsp|exact Hreg|].
  rewrite E in H. exists m'. split; [exact H|exact Ha].
Defined.

(** C25: No false negatives: an item that BF.ADD, BF.MADD or BF.INSERT added in a command that
    replied without an error is reported by BF.EXISTS after any further commands on the
    filter, also when the filter has grown new sub-filters since, and whatever the logarithm
    returns when their sizes are computed. *)
Theorem bloom_no_false_negatives T `{!TxOps T} (raw : T → gmap (list Z) Item) (ok : T → Prop) (now : Z) (ln : Z → Z)
    (s : Session T) (key : list Z) (l : list (list Z * bcmd)) (m : gmap (list Z) Item) (a : bloom)
    (k : nat) (id item : list Z) (c : bcmd) (r : DbResult) :
  TxLaws T raw ok → clock_ok now → session_ok s → key_ok key →
  good m → bloom_at (now:=now) s key m a → bloom_ok a → spare s key now m (l.*1 ++ [id]) → bregular_run l a →
  snd <$> l !! k = Some c → (brun ln l a).1 !! k = Some (Ok r) → item ∈ added_by c →
  ∃ m', Runs (raw:=raw) (ok:=ok)
    (rs ← bloom_script (now:=now) ln s key l; e ← ExistsOp now (public_key s key) (private_key s key) item; mret (rs, e))
    m (Ret ((brun ln l a).1, RBool true)) m'.
Proof.
  intros HT Hnow Hs Hk Hg Ha Hok Hsp Hreg Hc Hr Hin. apply fmap_Some in Hc as ([id' c'] & Hc & ->).
  pose proof (brun_possible ln l a k id' c' r item Hreg Hok Hc Hr Hin) as Hp.
  destruct (bloom_script_runs (raw:=raw) (ok:=ok) Hnow ln s key Hs Hk l [id] m a Hg Ha Hok Hsp Hreg) as (m1 & H1 & Hg1 & Ha1 & Hsp1).
  destruct (bloom_at_holds s key Hs Hk m1 id [] _ Ha1 Hsp1) as (p & Hh & Hpre).
  destruct (bloom_refines (raw:=raw) (ok:=ok) Hnow ln (BExists item) m1 _ _ id p _ Hg1 Hh Hpre I) as (m2 & H2 & _).
  { cbn [added_by length]. pose proof (ho_ok _ _ _ _ _ _ Hh) as Hok1. unfold count_of, bloom_ok in *.
    destruct (brun ln l a).2 as [[meta bits]|]; cbn [filters_of length]; [destruct Hok1 as [[[_ [_ Hn]] _ _] _]|]; lia. }
  exists m2. eapply runs_bind; [exact H1|]. eapply runs_bind; [exact H2|]. cbn [bstep fst outcome_of]. rewrite Hp. apply runs_ret.
Qed.

Lemma bloom_no_false_negatives_witness :
  ∃ m', Runs (raw:=id) (ok:=λ _, True)
    (rs ← bloom_script (now:=5) ln_sample demo_session (B "f") bsample;
     e ← ExistsOp 5 (public_key demo_session (B "f")) (private_key demo_session (B "f")) (B "pear"); mret (rs, e))
    (∅ : gmap (list Z) Item) (Ret (bsample_replies, RBool true)) m'.
Proof.
  destruct bsample_runs as (E & Hreg & _).
  destruct (bloom_no_false_negatives (gmap (list Z) Item) id (λ _, True) 5 ln_sample demo_session (B "f") bsample ∅ None
    2 (id_of 9) (B "pear") (BMAdd [B "apple"; B "pear"]) (RInts [0; 1])) as (m' & H);
    [apply map_laws|unfold clock_ok; width_lia|unfold session_ok; simpl; width_lia|vm_compute; done|apply good_empty|done|done
    |apply spare_empty; by apply (bool_decide_unpack _)|exact Hreg|reflexivity|rewrite E; reflexivity|right; left|].
  rewrite E in H. exists m'. exact H.
Defined.

(** ** Where the code and its documentation part *)

(** The capacity after the second growth is eight times the first one, and the error rate a
    quarter of the one before: the growth factors are taken to the power of the generation
    on top of the previous generation's values. *)
Lemma third_generation :
  let f0 := new_initial_sub_filter ln_sample 100 DEF_ERR 2 false in
  let grow f := new_sub_filter ln_sample (f_capacity f) (f64_mul (f_error_rate f) f64_two) 2 (f_id f + 1) in
  f_capacity <$> [f0; grow f0; grow (grow f0)] = [100; 200; 800] ∧
  f_error_rate (grow f0) = f64_mul (f_error_rate f0) f64_half ∧
  f_error_rate (grow (grow f0)) = f64_mul (f64_mul (f_error_rate (grow f0)) f64_half) f64_half.
Proof. vm_compute. done. Qed.

(** An expansion rate of 256 is recorded as 0, and then every new sub-filter is full. *)
Lemma expansion_truncated :
  let meta := reserved ln_sample DEF_ERR 100 256 false in
  b_expansion meta = 0 ∧
  f_capacity (new_sub_filter ln_sample 100 DEF_ERR (b_expansion meta) 1) = 0.
Proof. vm_compute. done. Qed.

(** The commands do not look at the type of the key: a string of less than four bytes reads
    as no filter at all, so that BF.ADD replaces it, and one that ends like an empty record
    makes BF.ADD panic. *)
Definition over_string (v : list Z) : gmap (list Z) Item :=
  {[ public_key demo_session (B "f") := mkItem (public_key demo_session (B "f")) v (type_byte VString) None ]}.

Lemma string_is_no_filter :
  (read_meta_or_nil 5 (public_key demo_session (B "f")) (over_string (B "abc"))).1 = Ret None ∧
  (AddOp ln_sample 5 (id_of 1) (public_key demo_session (B "f")) (private_key demo_session (B "f")) (B "x")
     (over_string [97; 98; 0; 0])).1 = Panic.
Proof. vm_compute. done. Qed.
