(* ===== verification/Hll.v ===== *)
(** * HyperLogLog: src/redis/hll.rs

    A sketch is a string: a header with a cached count and 16384 registers of six bits,
    packed. This file has the packing, the hash, the estimator, the database and wire halves
    of PFADD, PFCOUNT and PFMERGE and the queued commands. The two series of the estimator
    are loops that end when a sum no longer changes; they carry fuel, and a series that has
    not settled by then is [None], which does not occur ([HllEstimate]). *)
From S2P Require Import Prelude Bytes Float64 Resp Kv Registry Op Session Elements.
From S2P Require Hash.

Definition HLL_P : Z := 14.
Definition HLL_Q : Z := 64 - HLL_P.
Definition HLL_REGISTERS : Z := Z.shiftl 1 HLL_P.
Definition HLL_P_MASK : Z := HLL_REGISTERS - 1.
Definition HLL_BITS : Z := 6.
Definition HLL_REGISTER_MAX : Z := Z.shiftl 1 HLL_BITS - 1.
Definition HLL_HDR_SIZE : nat := 16.
Definition HLL_DENSE_SIZE : Z := Z.of_nat HLL_HDR_SIZE + (HLL_REGISTERS * HLL_BITS + 7) / 8.
Definition HLL_DENSE : Z := 0.
Definition HLL_ALPHA_INF : Z := 0x3FE71547652B82FE.
Definition TYPE_STRING : Z := type_byte VString.

(** ** The header *)

Definition create_hll : list Z := B "HYLL" ++ [HLL_DENSE] ++ replicate (Z.to_nat HLL_DENSE_SIZE - 5) 0.

Definition is_valid_hll (data : list Z) : bool :=
  bool_decide (Z.of_nat (length data) = HLL_DENSE_SIZE) && bool_decide (take 4 data = B "HYLL") && (byte_at data 4 =? HLL_DENSE).

Definition hll_invalidate_cache (data : list Z) : list Z := <[15%nat := Z.lor (byte_at data 15) (Z.shiftl 1 7)]> data.

Definition hll_get_cached_count (data : list Z) : Z * bool :=
  if negb (Z.land (byte_at data 15) (Z.shiftl 1 7) =? 0) then (0, false) else (from_le (take 8 (drop 8 data)), true).

Definition hll_set_cached_count (data : list Z) (count : Z) : list Z :=
  take 8 data ++ le_bytes 8 (Z.land count (2 ^ 63 - 1)) ++ drop 16 data.

(** ** Registers *)

(** Indexing past the end panics. *)
Definition get_register (p : list Z) (regnum : Z) : option Z :=
  let b := regnum * HLL_BITS / 8 in
  let fb := Z.land (regnum * HLL_BITS) 7 in
  x ← p !! Z.to_nat b;
  let b0 := Z.shiftr x fb in
  if Z.of_nat (length p) <=? b + 1 then Some (Z.land b0 HLL_REGISTER_MAX mod 256)
  else
    let fb8 := 8 - fb in
    y ← p !! Z.to_nat (b + 1);
    Some (Z.land (Z.lor b0 (Z.shiftl y fb8)) HLL_REGISTER_MAX mod 256).

Definition set_register (p : list Z) (regnum val : Z) : option (list Z) :=
  let b := regnum * HLL_BITS / 8 in
  let fb := Z.land (regnum * HLL_BITS) 7 in
  let mask1 := Z.shiftl HLL_REGISTER_MAX fb in
  x ← p !! Z.to_nat b;
  let p := <[Z.to_nat b := Z.lor (Z.land x (Z.lnot mask1)) (Z.shiftl val fb) mod 256]> p in
  if Z.of_nat (length p) <=? b + 1 then Some p
  else
    let fb8 := 8 - fb in
    let mask2 := Z.shiftr HLL_REGISTER_MAX fb8 in
    y ← p !! Z.to_nat (b + 1);
    Some (<[Z.to_nat (b + 1) := Z.lor (Z.land y (Z.lnot mask2)) (Z.shiftr val fb8) mod 256]> p).

(** ** Hashing *)

Definition murmur_m : Z := 0xc6a4a7935bd1e995.
Definition murmur_r : Z := 47.

Definition murmur_word (h k : Z) : Z :=
  let k := as_u64 (k * murmur_m) in
  let k := Z.lxor k (Z.shiftr k murmur_r) in
  let k := as_u64 (k * murmur_m) in
  as_u64 (Z.lxor h k * murmur_m).

Fixpoint murmur_tail (h i : Z) (rest : list Z) : Z :=
  match rest with
  | [] => h
  | byte :: rest' => murmur_tail (Z.lxor h (Z.shiftl byte (8 * i))) (i + 1) rest'
  end.

Fixpoint murmur_loop (h : Z) (data : list Z) : Z :=
  match data with
  | b0 :: b1 :: b2 :: b3 :: b4 :: b5 :: b6 :: b7 :: rest => murmur_loop (murmur_word h (from_le [b0; b1; b2; b3; b4; b5; b6; b7])) rest
  | [] => h
  | rest => as_u64 (murmur_tail h 0 rest * murmur_m)
  end.

Definition murmur_hash64a (data : list Z) (seed : Z) : Z :=
  let h := murmur_loop (Z.lxor seed (as_u64 (Z.of_nat (length data) * murmur_m))) data in
  let h := Z.lxor h (Z.shiftr h murmur_r) in
  let h := as_u64 (h * murmur_m) in
  Z.lxor h (Z.shiftr h murmur_r).

(** [u64::trailing_zeros] *)
Fixpoint trailing_zeros (width : nat) (z : Z) : Z :=
  match width with
  | O => 0
  | S width' => if Z.odd z then 0 else 1 + trailing_zeros width' (Z.shiftr z 1)
  end.

Definition hll_pat_len (ele : list Z) : Z * Z :=
  let hash := murmur_hash64a ele 0xadc83b19 in
  let index := Z.land hash HLL_P_MASK in
  let hash := Z.shiftr hash HLL_P in
  let hash := Z.lor hash (Z.shiftl 1 HLL_Q) in
  (index, trailing_zeros 64 hash + 1).

(** The registers and whether one changed. *)
Definition hll_dense_set (registers : list Z) (index count : Z) : option (bool * list Z) :=
  oldcount ← get_register registers index;
  if oldcount <? count then registers ← set_register registers index count; Some (true, registers)
  else Some (false, registers).

Definition hll_dense_add (registers ele : list Z) : option (bool * list Z) :=
  let '(index, count) := hll_pat_len ele in
  hll_dense_set registers index (count mod 256).

(** ** The estimator *)

(** The loops of the estimator run until their sum settles; 1100 turns are more than they
    ever take ([HllEstimate]). *)
Definition hll_fuel : nat := 1100.
Definition hll_half : Z := 1022 * 2 ^ 52.
Definition hll_three : Z := f64_of_Z 3.

Fixpoint sigma_loop (fuel : nat) (x y z : Z) : option Z :=
  match fuel with
  | O => None
  | S fuel' =>
      let x := f64_mul x x in
      let z' := f64_add z (f64_mul x y) in
      let y := f64_add y y in
      if f64_eq z z' then Some z' else sigma_loop fuel' x y z'
  end.
Definition hll_sigma (x : Z) : option Z := if f64_eq x f64_one then Some f64_infinity else sigma_loop hll_fuel x f64_one x.

Fixpoint tau_loop (fuel : nat) (x y z : Z) : option Z :=
  match fuel with
  | O => None
  | S fuel' =>
      let x := f64_sqrt x in
      let y := f64_mul y hll_half in
      let z' := f64_sub z (f64_mul (powi (f64_sub f64_one x) 2) y) in
      if f64_eq z z' then Some (f64_div z' hll_three) else tau_loop fuel' x y z'
  end.
Definition hll_tau (x : Z) : option Z :=
  if f64_eq x f64_zero || f64_eq x f64_one then Some f64_zero else tau_loop hll_fuel x f64_one (f64_sub f64_one x).

(** The sixteen registers of twelve bytes. *)
Definition reg_group (r : list Z) : list Z :=
  let b i := byte_at r i in
  let at0 q := Z.land (b q) 63 in
  let at1 q := Z.land (Z.lor (Z.shiftr (b q) 6) (Z.shiftl (b (q + 1)%nat) 2)) 63 in
  let at2 q := Z.land (Z.lor (Z.shiftr (b (q + 1)%nat) 4) (Z.shiftl (b (q + 2)%nat) 4)) 63 in
  let at3 q := Z.land (Z.shiftr (b (q + 2)%nat) 2) 63 in
  [at0 0%nat; at1 0%nat; at2 0%nat; at3 0%nat; at0 3%nat; at1 3%nat; at2 3%nat; at3 3%nat;
   at0 6%nat; at1 6%nat; at2 6%nat; at3 6%nat; at0 9%nat; at1 9%nat; at2 9%nat; at3 9%nat].

(** [h[r as usize] += 1], with [r] below 64. *)
Definition bump (h : list Z) (r : Z) : list Z := alter Z.succ (Z.to_nat r) h.

(** Every fourth register goes to the same one of the four histograms. *)
Definition histo_group (hs : list Z * list Z * list Z * list Z) (rs : list Z) : list Z * list Z * list Z * list Z :=
  let '(h0, h1, h2, h3) := hs in
  match rs with
  | [r0; r1; r2; r3; r4; r5; r6; r7; r8; r9; r10; r11; r12; r13; r14; r15] =>
      (fold_left bump [r0; r4; r8; r12] h0, fold_left bump [r1; r5; r9; r13] h1,
       fold_left bump [r2; r6; r10; r14] h2, fold_left bump [r3; r7; r11; r15] h3)
  | _ => hs
  end.

(** Slicing twelve bytes panics where there are fewer. *)
Fixpoint histo_loop (groups : nat) (registers : list Z) (hs : list Z * list Z * list Z * list Z)
  : option (list Z * list Z * list Z * list Z) :=
  match groups with
  | O => Some hs
  | S groups' =>
      if (length registers <? 12)%nat then None
      else histo_loop groups' (drop 12 registers) (histo_group hs (reg_group (take 12 registers)))
  end.

Definition hll_dense_reg_histo (registers : list Z) : option (list Z) :=
  let zero := replicate 64 0 in
  '(h0, h1, h2, h3) ← histo_loop 1024 registers (zero, zero, zero, zero);
  Some (zip_with Z.add (zip_with Z.add (zip_with Z.add h0 h1) h2) h3).

Definition hll_estimate (reghisto : list Z) : option Z :=
  let m := f64_of_Z HLL_REGISTERS in
  let h (j : nat) := f64_of_Z (byte_at reghisto j) in
  t ← hll_tau (f64_div (f64_sub m (h (Z.to_nat HLL_Q + 1)%nat)) m);
  let z := fold_left (λ z j, f64_mul (f64_add z (h j)) hll_half) (rev (seq 1 (Z.to_nat HLL_Q))) (f64_mul m t) in
  s ← hll_sigma (f64_div (h 0%nat) m);
  let z := f64_add z (f64_mul m s) in
  Some (f64_to_u64 (f64_round (f64_div (f64_mul (f64_mul HLL_ALPHA_INF m) m) z))).

(** The count and the sketch with the count in its header. *)
Definition hll_count (data : list Z) : option (Z * list Z) :=
  match hll_get_cached_count data with
  | (cached, true) => Some (cached, data)
  | (_, false) =>
      reghisto ← hll_dense_reg_histo (drop HLL_HDR_SIZE data);
      count ← hll_estimate reghisto;
      Some (count, hll_set_cached_count data count)
  end.

(** ** Unions *)

Fixpoint raise_slots (src_registers : list Z) (i : Z) (raw : list Z) : option (list Z) :=
  match raw with
  | [] => Some []
  | slot :: raw' =>
      val ← get_register src_registers i;
      rest ← raise_slots src_registers (i + 1) raw';
      Some ((if slot <? val then val else slot) :: rest)
  end.

Fixpoint hll_merge_to_raw (raw : list Z) (sources : list (list Z)) : option (list Z) :=
  match sources with
  | [] => Some raw
  | src :: sources' => raw ← raise_slots (drop HLL_HDR_SIZE src) 0 raw; hll_merge_to_raw raw sources'
  end.

Fixpoint set_registers (registers : list Z) (i : Z) (raw : list Z) : option (list Z) :=
  match raw with
  | [] => Some registers
  | val :: raw' => registers ← set_register registers i val; set_registers registers (i + 1) raw'
  end.

Definition hll_raw_to_dense (dest_dense raw : list Z) : option (list Z) :=
  registers ← set_registers (drop HLL_HDR_SIZE dest_dense) 0 raw;
  Some (hll_invalidate_cache (take HLL_HDR_SIZE dest_dense ++ registers)).

(** The sketch of the union of sketches. *)
Definition hll_union (valid : list (list Z)) : option (list Z) :=
  raw ← hll_merge_to_raw (replicate (Z.to_nat HLL_REGISTERS) 0) valid;
  hll_raw_to_dense create_hll raw.

(** ** Commands *)

Section Ops.
Context {T : Type} `{!TxOps T} (now : Z).

(** The registers after all elements, and 1 if one of them changed. *)
Fixpoint add_elements (registers : list Z) (updated : Z) (elements : list (list Z)) : option (Z * list Z) :=
  match elements with
  | [] => Some (updated, registers)
  | ele :: elements' =>
      '(changed, registers) ← hll_dense_add registers ele;
      add_elements registers (if changed : bool then 1 else updated) elements'
  end.

Definition PfAddOp (key : list Z) (elements : list (list Z)) : DbM T DbResult :=
  item ← get_opt now key;
  let hll_data := match item with Some item => item_value item | None => create_hll end in
  if negb (is_valid_hll hll_data) then mret (RInt 0)
  else
    '(updated, registers) ← Hash.or_panic (add_elements (drop HLL_HDR_SIZE hll_data) 0 elements);
    (if updated =? 1 then
       let hll_data := hll_invalidate_cache (take HLL_HDR_SIZE hll_data ++ registers) in
       set_keeping_ttl now (with_metadata (entry_new key hll_data) TYPE_STRING)
     else mret ()) ;;
    mret (RInt updated).

(** The valid sketches among the keys. *)
Fixpoint valid_sketches (keys : list (list Z)) : DbM T (list (list Z)) :=
  match keys with
  | [] => mret []
  | key :: keys' =>
      item ← get_opt now key;
      rest ← valid_sketches keys';
      mret (match item with
            | Some item => if is_valid_hll (item_value item) then item_value item :: rest else rest
            | None => rest
            end)
  end.

Definition PfCountOp (keys : list (list Z)) : DbM T DbResult :=
  match keys with
  | [] => mret (RU64 0)
  | [key] =>
      item ← get_opt now key;
      match item with
      | None => mret (RU64 0)
      | Some item =>
          if negb (is_valid_hll (item_value item)) then mret (RU64 0)
          else '(count, _) ← Hash.or_panic (hll_count (item_value item)); mret (RU64 count)
      end
  | _ =>
      valid ← valid_sketches keys;
      dense ← Hash.or_panic (hll_union valid);
      '(count, _) ← Hash.or_panic (hll_count dense);
      mret (RU64 count)
  end.

Definition PfMergeOp (dest : list Z) (sources : list (list Z)) : DbM T DbResult :=
  valid ← valid_sketches sources;
  dense ← Hash.or_panic (hll_union valid);
  set now (with_metadata (entry_new dest dense) TYPE_STRING) ;;
  mret RUnit.
End Ops.

(** ** Wire halves *)

Definition OkWire : WireOp := pure_wire (λ r, match r with Ok _ => SimpleString (B "OK") | Err e => err_resp e end).
Definition IntWire : WireOp := pure_wire (λ r,
  match r with Ok (RInt n) => Integer n | Ok _ => Error (B "ERR internal error: bad int result") | Err e => err_resp e end).
Definition CountWire : WireOp := pure_wire (λ r,
  match r with Ok (RU64 n) => Integer (as_i64 n) | Ok _ => Error (B "ERR internal error: bad count result") | Err e => err_resp e end).

(** ** The queued commands *)

Module Cmd.
Section Cmd.
Context {T : Type} `{!TxOps T}.
Implicit Types (s : Session T) (key : list Z).

Definition pfadd s key (elements : list (list Z)) : QueuedOp T :=
  on_key s key (λ now, PfAddOp now (public_key s key) elements) IntWire true.
Definition pfcount s (keys : list (list Z)) : QueuedOp T :=
  mkQueuedOp (tx_op (λ now, PfCountOp now (public_key s <$> keys))) CountWire false true false (Some (keys_sv s keys)).
Definition pfmerge s (dest : list Z) (sources : list (list Z)) : QueuedOp T :=
  mkQueuedOp (tx_op (λ now, PfMergeOp now (public_key s dest) (public_key s <$> sources))) OkWire true true false
    (Some (from_utf8_lossy (public_key s dest) :: keys_sv s sources)).
End Cmd.
End Cmd.
