(* ===== verification/HllEstimate.v ===== *)
(** * The estimator of a HyperLogLog sketch ends: src/redis/hll.rs

    The two loops of the estimator run until a sum of doubles no longer changes. Proved: for
    the arguments they are called with they end, [hll_sigma] after at most 26 turns, because
    the number that is squared in every turn underflows, and [hll_tau] after at most 1075,
    because the factor that is halved does; so the estimate of a histogram of 16384
    registers is always a number. *)
From S2P Require Import Prelude Bytes Float64 Rounding Op Hll.
From Stdlib Require Import SpecFloat.

#[local] Abbreviation F := sf_of_bits.

Lemma F_mul a b : number (SFmul f64_prec f64_emax (F a) (F b)) → F (f64_mul a b) = SFmul f64_prec f64_emax (F a) (F b).
Proof. intros [H _]. by apply sf_bits_id. Qed.
Lemma F_add a b : number (SFadd f64_prec f64_emax (F a) (F b)) → F (f64_add a b) = SFadd f64_prec f64_emax (F a) (F b).
Proof. intros [H _]. by apply sf_bits_id. Qed.
Lemma F_sub a b : number (SFsub f64_prec f64_emax (F a) (F b)) → F (f64_sub a b) = SFsub f64_prec f64_emax (F a) (F b).
Proof. intros [H _]. by apply sf_bits_id. Qed.
Lemma F_sqrt a : number (SFsqrt f64_prec f64_emax (F a)) → F (f64_sqrt a) = SFsqrt f64_prec f64_emax (F a).
Proof. intros [H _]. by apply sf_bits_id. Qed.
Lemma F_div a b : number (SFdiv f64_prec f64_emax (F a) (F b)) → F (f64_div a b) = SFdiv f64_prec f64_emax (F a) (F b).
Proof. intros [H _]. by apply sf_bits_id. Qed.

Lemma f64_eq_compare a b : SFcompare (F a) (F b) = Some Eq → f64_eq a b = true.
Proof. unfold f64_eq, partial_cmp. by intros ->. Qed.

(** ** Bounds on a number that is squared again and again *)

Record bound : Type := mkBound { bd_digits : Z; bd_exp : Z }.
Definition below (b : bound) (f : spec_float) : Prop := upto (bd_digits b) (bd_exp b) f.

(** The square, its digits rounded up to 21 bits. *)
Definition next_bound (b : bound) : bound :=
  let c := bd_digits b * bd_digits b in
  let j := Z.max 0 (Z.log2 c - 20) in
  mkBound (Z.shiftr c j + 1) (bd_exp b + bd_exp b + j).

(** At most one, and a bound of the format. *)
Definition bound_ok (b : bound) : bool :=
  (0 <? bd_digits b) && (bd_digits b <? 2 ^ 53) && (-1074 <=? bd_exp b) && (bd_exp b <=? 0) &&
  (scaled (bd_digits b) (bd_exp b) <=? scaled 1 0).
(** The square of a number below the bound is rounded to zero. *)
Definition vanishes (b : bound) : bool :=
  scaled (2 * (bd_digits b * bd_digits b)) (bd_exp b + bd_exp b) <=? scaled 1 (-1074).

(** The squares vanish within [n] turns. *)
Fixpoint vanish_within (n : nat) (b : bound) : bool :=
  bound_ok b &&
  (vanishes b ||
   match n with
   | O => false
   | S n' =>
       (scaled (bd_digits b * bd_digits b) (bd_exp b + bd_exp b) <=? scaled (bd_digits (next_bound b)) (bd_exp (next_bound b))) &&
       vanish_within n' (next_bound b)
   end).

Lemma bound_ok_spec b :
  bound_ok b = true → 0 < bd_digits b < 2 ^ 53 ∧ -1074 ≤ bd_exp b ≤ 0 ∧ scaled (bd_digits b) (bd_exp b) ≤ scaled 1 0.
Proof. unfold bound_ok. rewrite !andb_true_iff, !Z.ltb_lt, !Z.leb_le. tauto. Qed.

Lemma one_small i : i < 53 → -3000 ≤ i → scaled 1 i < scaled 1 53.
Proof. intros Hi H3. unfold scaled. rewrite !Z.mul_1_l. apply Z.pow_lt_mono_r; lia. Qed.

(** ** sigma *)
Lemma F_one : F f64_one = S754_finite false (2 ^ 52)%positive (-52).
Proof. reflexivity. Qed.
Lemma one_upto : upto 1 0 (F f64_one).
Proof. rewrite F_one. split; [split; lia|]. vm_compute. discriminate. Qed.

Lemma F_half : F hll_half = S754_finite false (2 ^ 52)%positive (-53).
Proof. reflexivity. Qed.
Lemma half_upto : upto 1 (-1) (F hll_half).
Proof. rewrite F_half. split; [split; lia|]. vm_compute. discriminate. Qed.

Lemma square_below b b' x :
  below b (F x) → bound_ok b = true → bound_ok b' = true →
  scaled (bd_digits b * bd_digits b) (bd_exp b + bd_exp b) ≤ scaled (bd_digits b') (bd_exp b') → below b' (F (f64_mul x x)).
Proof.
  intros Hx (HC & Hg & Hs)%bound_ok_spec (HC' & Hg' & _)%bound_ok_spec Hn.
  assert (scaled (bd_digits b) (bd_exp b) < scaled 1 53) as Hlt by (eapply Z.le_lt_trans; [exact Hs|apply one_small; lia]).
  assert (upto (bd_digits b') (bd_exp b') (SFmul f64_prec f64_emax (F x) (F x))) as Hm
    by (eapply mul_upto; [exact Hx|exact Hx|lia..|exact Hlt|exact Hlt|lia|lia|exact Hn]).
  unfold below. rewrite F_mul; [done|by eapply upto_number].
Qed.

Lemma zero_mul C g f : upto C g f → SFmul f64_prec f64_emax (S754_zero false) f = S754_zero false.
Proof. by destruct f as [[]|[]| |[] m e]. Qed.
Lemma mul_by_zero C g f : upto C g f → SFmul f64_prec f64_emax f (S754_zero false) = S754_zero false.
Proof. by destruct f as [[]|[]| |[] m e]. Qed.

(** The turn in which the square is zero is the last one. *)
Lemma sigma_last fuel x y z b i :
  vanishes b = true → bound_ok b = true → below b (F x) → upto 1 i (F y) → nonneg (F z) →
  is_Some (sigma_loop (S fuel) x y z).
Proof.
  intros Hv (HC & Hg & _)%bound_ok_spec Hx Hy Hz. apply Z.leb_le in Hv. cbn [sigma_loop].
  assert (F (f64_mul x x) = S754_zero false) as Ex.
  { assert (SFmul f64_prec f64_emax (F x) (F x) = S754_zero false) as E by (eapply mul_zero; [exact Hx|exact Hx|lia..|exact Hv]).
    rewrite F_mul; [done|by rewrite E]. }
  assert (F (f64_mul (f64_mul x x) y) = S754_zero false) as Ew.
  { rewrite F_mul; rewrite Ex, (zero_mul _ _ _ Hy); done. }
  rewrite f64_eq_compare; [eauto|]. rewrite F_add; rewrite Ew, add_zero by done; [|by apply nonneg_number].
  apply compare_self. by apply nonneg_number.
Qed.

Lemma sigma_ends n fuel x y z b i :
  vanish_within n b = true → (n < fuel)%nat → below b (F x) → upto 1 i (F y) → 0 ≤ i → i + Z.of_nat n < 52 → nonneg (F z) →
  is_Some (sigma_loop fuel x y z).
Proof.
  revert fuel x y z b i. induction n as [|n IH]; intros fuel x y z b i Hv Hf Hx Hy Hi Hin Hz;
    (destruct fuel as [|fuel]; [lia|]); cbn [vanish_within] in Hv; apply andb_true_iff in Hv as [Hok Hv].
  - apply orb_true_iff in Hv as [Hv|]; [|done]. by eapply sigma_last.
  - apply orb_true_iff in Hv as [Hv|Hv]; [by eapply sigma_last|]. apply andb_true_iff in Hv as [Hn Hv]. apply Z.leb_le in Hn.
    assert (bound_ok (next_bound b) = true) as Hok' by (destruct n; cbn [vanish_within] in Hv; by apply andb_true_iff in Hv as [? _]).
    pose proof (square_below b (next_bound b) x Hx Hok Hok' Hn) as Hx'. cbn [sigma_loop]. set (x' := f64_mul x x) in *.
    destruct (bound_ok_spec _ Hok') as (HC & Hg & Hs).
    assert (upto 1 0 (F x')) as Hx1 by (eapply upto_weaken; [exact Hx'|exact Hs]).
    assert (upto 1 i (SFmul f64_prec f64_emax (F x') (F y))) as Hw.
    { eapply mul_upto; [exact Hx1|exact Hy|lia..|apply one_small; lia|apply one_small; lia|lia|lia|done]. }
    assert (nonneg (SFadd f64_prec f64_emax (F z) (F (f64_mul x' y)))) as Hz'.
    { apply add_nonneg; [done|]. rewrite F_mul by (by eapply upto_number). by eapply upto_nonneg. }
    pose proof (double_upto (F y) i Hy ltac:(lia)) as Hy'.
    destruct (f64_eq z (f64_add z (f64_mul x' y))); [eauto|]. apply (IH _ _ _ _ (next_bound b) (i + 1)); try done; [lia| |lia|lia|].
    + rewrite F_add; [done|by eapply upto_number].
    + rewrite F_add; [done|by apply nonneg_number].
Qed.

(** [hll_sigma] of a number that is at most [1 - 2^-14]. *)
Lemma sigma_some x : upto 16383 (-14) (F x) → is_Some (hll_sigma x).
Proof.
  intros Hx. unfold hll_sigma. destruct (f64_eq x f64_one); [eauto|].
  apply (sigma_ends 25 hll_fuel x f64_one x (mkBound 16383 (-14)) 0); [vm_compute; reflexivity|unfold hll_fuel; lia|done|apply one_upto|lia|lia|by eapply upto_nonneg].
Qed.

(** ** tau *)
Lemma mul_unit a b g : upto 1 0 (F a) → upto 1 g (F b) → -1074 ≤ g ≤ 0 → upto 1 g (F (f64_mul a b)).
Proof.
  intros Ha Hb Hg. assert (upto 1 g (SFmul f64_prec f64_emax (F a) (F b))) as H.
  { eapply mul_upto; [exact Ha|exact Hb|lia..|apply one_small; lia|apply one_small; lia|lia|lia|done]. }
  rewrite F_mul; [done|by eapply upto_number].
Qed.

Lemma one_minus x : upto 1 0 (F x) → upto 1 0 (F (f64_sub f64_one x)).
Proof.
  intros Hx. assert (upto 1 0 (SFsub f64_prec f64_emax (F f64_one) (F x))) as H; [|rewrite F_sub; [done|by eapply upto_number]].
  pose proof one_upto as H1. rewrite F_one in *. destruct H1 as [K1 S1].
  destruct (F x) as [[]|[]| |[] m e]; try done. destruct Hx as [K S].
  apply sub_upto; [done|done| |done|lia|lia]. etrans; [exact S|]. vm_compute. discriminate.
Qed.

(** The number that is taken from the sum in a turn. *)
Lemma one_minus_squared x : upto 1 0 (F x) → upto 1 0 (F (powi (f64_sub f64_one x) 2)).
Proof.
  intros Hx. pose proof (one_minus x Hx) as Ha. set (a := f64_sub f64_one x) in *. clearbody a.
  assert (powi a 2 = f64_mul f64_one (f64_mul a a)) as -> by reflexivity.
  apply mul_unit; [apply one_upto| |lia]. apply mul_unit; [done|done|lia].
Qed.
Lemma tau_term x y g : upto 1 0 (F x) → upto 1 g (F y) → -1074 ≤ g ≤ 0 → upto 1 g (F (f64_mul (powi (f64_sub f64_one x) 2) y)).
Proof. intros Hx Hy Hg. apply mul_unit; [by apply one_minus_squared|done|done]. Qed.

(** The turn in which the factor is zero is the last one. *)
Lemma tau_last fuel x y z : upto 1 0 (F (f64_sqrt x)) → upto 1 (-1074) (F y) → number (F z) → is_Some (tau_loop (S fuel) x y z).
Proof.
  intros Hx Hy Hz. cbn [tau_loop]. assert (F (f64_mul y hll_half) = S754_zero false) as Ey.
  { assert (SFmul f64_prec f64_emax (F y) (F hll_half) = S754_zero false) as E
      by (eapply mul_zero; [exact Hy|exact half_upto|lia..|]; vm_compute; discriminate).
    rewrite F_mul; [done|by rewrite E]. }
  generalize dependent (f64_mul y hll_half). intros y' Ey. generalize dependent (f64_sqrt x). intros x' Hx.
  pose proof (one_minus_squared x' Hx) as Hp. generalize dependent (powi (f64_sub f64_one x') 2). intros p Hp.
  assert (SFmul f64_prec f64_emax (F p) (F y') = S754_zero false) as E by (rewrite Ey; exact (mul_by_zero _ _ _ Hp)).
  assert (F (f64_mul p y') = S754_zero false) as Ew by (rewrite F_mul; [done|by rewrite E]).
  generalize dependent (f64_mul p y'). intros w Ew. rewrite f64_eq_compare; [eauto|].
  assert (number (SFsub f64_prec f64_emax (F z) (F w))) as Hn by (rewrite Ew; by apply (sub_number _ 1 0)).
  rewrite (F_sub z w Hn), Ew. by apply sub_zero.
Qed.

Lemma tau_ends (n : nat) fuel x y z :
  (n ≤ 1074)%nat → (n < fuel)%nat → upto 1 0 (F x) → upto 1 (Z.of_nat n - 1074) (F y) → number (F z) →
  is_Some (tau_loop fuel x y z).
Proof.
  revert fuel x y z. induction n as [|n IH]; intros fuel x y z Hn Hf Hx Hy Hz; (destruct fuel as [|fuel]; [lia|]);
    (assert (upto 1 0 (F (f64_sqrt x))) as Hx' by (rewrite F_sqrt; [by apply sqrt_upto|by eapply upto_number, sqrt_upto])).
  - by apply tau_last.
  - assert (upto 1 (Z.of_nat n - 1074) (F (f64_mul y hll_half))) as Hy'.
    { assert (upto 1 (Z.of_nat n - 1074) (SFmul f64_prec f64_emax (F y) (F hll_half))) as H.
      { eapply mul_upto; [exact Hy|exact half_upto|lia..|apply one_small; lia|apply one_small; lia|lia|lia|].
        rewrite Z.mul_1_l. unfold scaled. rewrite !Z.mul_1_l. apply Z.pow_le_mono_r; lia. }
      rewrite F_mul; [done|by eapply upto_number]. }
    cbn [tau_loop]. generalize dependent (f64_mul y hll_half). intros y' Hy'. generalize dependent (f64_sqrt x). intros x' Hx'.
    pose proof (tau_term x' y' _ Hx' Hy' ltac:(lia)) as Hw. generalize dependent (f64_mul (powi (f64_sub f64_one x') 2) y'). intros w Hw.
    assert (number (SFsub f64_prec f64_emax (F z) (F w))) as Hz' by (by eapply sub_number).
    destruct (f64_eq z _); [eauto|]. apply IH; [lia|lia|done|done|]. by rewrite (F_sub z w Hz').
Qed.

Lemma tau_some x : upto 1 0 (F x) → is_Some (hll_tau x).
Proof.
  intros Hx. unfold hll_tau. destruct (_ || _); [eauto|]. apply (tau_ends 1074); [lia|unfold hll_fuel; lia|done|apply one_upto|].
  eapply upto_number, one_minus, Hx.
Qed.

(** ** The estimate *)
Lemma F_registers : F (f64_of_Z HLL_REGISTERS) = S754_finite false (2 ^ 52)%positive (-38).
Proof. reflexivity. Qed.

Lemma F_of_Z k : 0 ≤ k ≤ HLL_REGISTERS → F (f64_of_Z k) = binary_normalize f64_prec f64_emax k 0 false.
Proof. intros Hk. change HLL_REGISTERS with 16384 in Hk. apply sf_bits_id. by eapply upto_number, of_Z_upto; lia. Qed.

(** A number of registers as a share of all of them. *)
Lemma share_upto a C g :
  upto C g (F a) → moderate (-1000) (F a) → 0 < C < 2 ^ 53 → -1000 ≤ g ≤ 970 → upto C (g - 14) (F (f64_div a (f64_of_Z HLL_REGISTERS))).
Proof.
  intros Ha Hm HC Hg. pose proof (div_upto (F a) C g Ha Hm HC Hg) as H. rewrite <- F_registers in H.
  rewrite F_div; [done|by eapply upto_number].
Qed.

Lemma share_of_empty k : 0 ≤ k < HLL_REGISTERS → upto 16383 (-14) (F (f64_div (f64_of_Z k) (f64_of_Z HLL_REGISTERS))).
Proof.
  intros Hk. assert (HLL_REGISTERS = 16384) as Hr by reflexivity. rewrite Hr in Hk.
  apply (share_upto _ 16383 0); [|rewrite F_of_Z by lia; eapply moderate_weaken; [apply normalize_moderate|lia]|lia|lia].
  rewrite F_of_Z by lia. eapply upto_weaken; [apply of_Z_upto; lia|]. apply scaled_mono. lia.
Qed.

Lemma share_of_others k :
  0 ≤ k ≤ HLL_REGISTERS →
  upto 1 0 (F (f64_div (f64_sub (f64_of_Z HLL_REGISTERS) (f64_of_Z k)) (f64_of_Z HLL_REGISTERS))).
Proof.
  intros Hk. assert (HLL_REGISTERS = 16384) as Hr by reflexivity. rewrite Hr in Hk.
  assert (upto 1 14 (S754_finite false (2 ^ 52)%positive (-38))) as [K1 S1] by (split; [split; lia|vm_compute; discriminate]).
  assert (upto 16384 0 (F (f64_of_Z k)) ∧ moderate (-52) (F (f64_of_Z k))) as [Hu Hm].
  { rewrite F_of_Z by lia. split; [|apply (normalize_moderate k 0)].
    eapply upto_weaken; [apply of_Z_upto; lia|]. apply scaled_mono. lia. }
  assert (upto 1 14 (SFsub f64_prec f64_emax (F (f64_of_Z HLL_REGISTERS)) (F (f64_of_Z k))) ∧
    moderate (-1000) (SFsub f64_prec f64_emax (F (f64_of_Z HLL_REGISTERS)) (F (f64_of_Z k)))) as [Hs Hsm].
  { rewrite F_registers. destruct (F (f64_of_Z k)) as [[]|[]| |[] m e]; try done. destruct Hu as [K S]. cbn [moderate] in Hm. split.
    - apply sub_upto; [done|done| |done|lia|lia]. etrans; [exact S|]. vm_compute. discriminate.
    - cbn [SFsub]. eapply moderate_weaken; [apply normalize_moderate|lia]. }
  apply (share_upto _ 1 14); [by rewrite F_sub by (by eapply upto_number)|by rewrite F_sub by (by eapply upto_number)|lia|lia].
Qed.

(** The estimate of a histogram in which no counter is above the number of registers. *)
Lemma estimate_some (reghisto : list Z) :
  (∀ j, 0 ≤ byte_at reghisto j ≤ HLL_REGISTERS) → is_Some (hll_estimate reghisto).
Proof.
  intros Hr. unfold hll_estimate. destruct (tau_some _ (share_of_others _ (Hr (Z.to_nat HLL_Q + 1)%nat))) as [t ->].
  cbn [mbind option_bind]. pose proof (Hr 0%nat) as H0.
  assert (is_Some (hll_sigma (f64_div (f64_of_Z (byte_at reghisto 0)) (f64_of_Z HLL_REGISTERS)))) as [y ->]; [|eauto].
  destruct (decide (byte_at reghisto 0 = HLL_REGISTERS)) as [->|Hne]; [|apply sigma_some, share_of_empty; lia].
  by exists f64_infinity.
Qed.
