(* ===== verification/HllSpec.v ===== *)
(** * What a HyperLogLog sketch promises

    Proved of src/redis/hll.rs: the packed registers read back what was written and do not
    disturb each other, the unrolled histogram counts the registers, a sketch holds the
    maximum over its elements register by register, so that it depends only on the set of
    elements and the union of sketches is the sketch of the union, and PFADD, PFCOUNT and
    PFMERGE refine operations on finite sets of elements. *)
From S2P Require Import Prelude Bytes Float64 Resp Kv Registry Op Session Elements Bloom BloomStore Hll HllEstimate.
From S2P Require Hash.
Import MapTx.

(** ** Bits *)
Lemma testbit_above w x n : 0 ≤ w → 0 ≤ x < 2 ^ w → w ≤ n → Z.testbit x n = false.
Proof. intros Hw Hx Hn. rewrite <- (Z.mod_small x (2 ^ w)) by done. by apply Z.mod_pow2_bits_high. Qed.

Lemma testbit_max n : Z.testbit HLL_REGISTER_MAX n = bool_decide (0 ≤ n < 6).
Proof.
  change HLL_REGISTER_MAX with (Z.ones 6). destruct (decide (n < 0)).
  - rewrite Z.testbit_neg_r, bool_decide_eq_false_2 by lia. done.
  - destruct (decide (n < 6)).
    + rewrite Z.ones_spec_low, bool_decide_eq_true_2 by lia. done.
    + rewrite Z.ones_spec_high, bool_decide_eq_false_2 by lia. done.
Qed.

Lemma testbit_reg v n : 0 ≤ v < 64 → ¬ (0 ≤ n < 6) → Z.testbit v n = false.
Proof.
  intros Hv Hn. destruct (decide (n < 0)); [by apply Z.testbit_neg_r|]. apply (testbit_above 6); [lia|done|lia].
Qed.

Lemma testbit_byte z n : 0 ≤ n → Z.testbit (z mod 256) n = bool_decide (n < 8) && Z.testbit z n.
Proof.
  intros Hn. change 256 with (2 ^ 8). destruct (decide (n < 8)).
  - rewrite Z.mod_pow2_bits_low, bool_decide_eq_true_2 by lia. done.
  - rewrite Z.mod_pow2_bits_high, bool_decide_eq_false_2 by lia. done.
Qed.

Lemma land_max_range z : 0 ≤ Z.land z HLL_REGISTER_MAX < 64.
Proof. change HLL_REGISTER_MAX with (Z.ones 6). rewrite Z.land_ones by lia. apply Z.mod_pos_bound. lia. Qed.

Lemma reg_ext a b : 0 ≤ a < 64 → 0 ≤ b < 64 → (∀ n, 0 ≤ n < 6 → Z.testbit a n = Z.testbit b n) → a = b.
Proof.
  intros Ha Hb H. apply Z.bits_inj'. intros n Hn. destruct (decide (n < 6)); [by apply H|].
  rewrite !(testbit_reg _ n) by (done || lia). done.
Qed.

(** ** Registers of a block *)

Definition block_ok (p : list Z) : Prop := Forall is_byte p ∧ Z.of_nat (length p) = 12288.
Definition reg_index (i : Z) : Prop := 0 ≤ i < HLL_REGISTERS.
Definition reg (p : list Z) (i : Z) : Z := default 0 (get_register p i).
Definition block_bit (p : list Z) (k : Z) : bool := Z.testbit (byte_at p (Z.to_nat (k / 8))) (k mod 8).

Lemma reg_place i : reg_index i → 0 ≤ i * 6 / 8 < 12288 ∧ 0 ≤ Z.land (i * 6) 7 < 8 ∧ i * 6 = 8 * (i * 6 / 8) + Z.land (i * 6) 7 ∧
  (12288 ≤ i * 6 / 8 + 1 → Z.land (i * 6) 7 ≤ 2).
Proof.
  unfold reg_index. change HLL_REGISTERS with 16384. intros Hi. change 7 with (Z.ones 3). rewrite Z.land_ones by lia. change (2 ^ 3) with 8.
  pose proof (Z.div_mod (i * 6) 8 ltac:(lia)). pose proof (Z.mod_pos_bound (i * 6) 8 ltac:(lia)).
  split; [split; [apply Z.div_pos; lia|apply Z.div_lt_upper_bound; lia]|]. lia.
Qed.

Lemma block_lookup p b : block_ok p → 0 ≤ b < 12288 → p !! Z.to_nat b = Some (byte_at p (Z.to_nat b)) ∧ is_byte (byte_at p (Z.to_nat b)).
Proof.
  intros [Hb Hl] H. destruct (lookup_lt_is_Some_2 p (Z.to_nat b)) as [x Hx]; [lia|]. unfold byte_at. rewrite Hx. split; [done|].
  by eapply Forall_lookup_1.
Qed.

Lemma mod_small_reg z : Z.land z HLL_REGISTER_MAX mod 256 = Z.land z HLL_REGISTER_MAX.
Proof. pose proof (land_max_range z). apply Z.mod_small. lia. Qed.

Lemma get_register_ok p i : block_ok p → reg_index i → get_register p i = Some (reg p i) ∧ 0 ≤ reg p i < 64.
Proof.
  intros Hp Hi. destruct (reg_place i Hi) as (Hb & _). unfold reg, get_register. change HLL_BITS with 6.
  destruct (block_lookup p _ Hp Hb) as [-> _]. cbn [mbind option_bind]. destruct Hp as [Hp Hl].
  destruct (Z.leb_spec (Z.of_nat (length p)) (i * 6 / 8 + 1)).
  - rewrite mod_small_reg. split; [done|apply land_max_range].
  - destruct (block_lookup p (i * 6 / 8 + 1) (conj Hp Hl) ltac:(lia)) as [-> _]. cbn [mbind option_bind default from_option id].
    rewrite mod_small_reg. split; [done|apply land_max_range].
Qed.

(** The position of a bit by byte. *)
Lemma bit_place b r : 0 ≤ r < 8 → (8 * b + r) / 8 = b ∧ (8 * b + r) mod 8 = r.
Proof.
  intros Hr. rewrite (Z.mul_comm 8). split; [rewrite Z.div_add_l, Z.div_small by lia; lia|].
  rewrite Z.add_comm, Z.mod_add by lia. by apply Z.mod_small.
Qed.

Lemma reg_bits p i t : block_ok p → reg_index i → 0 ≤ t < 6 → Z.testbit (reg p i) t = block_bit p (i * 6 + t).
Proof.
  intros Hp Hi Ht. destruct (reg_place i Hi) as (Hb & Hf & E & Hlast). replace (i * 6 + t) with (8 * (i * 6 / 8) + Z.land (i * 6) 7 + t) by lia.
  unfold reg, get_register, block_bit. change HLL_BITS with 6. set (b := i * 6 / 8) in *. set (fb := Z.land (i * 6) 7) in *. clearbody b fb.
  destruct (block_lookup p b Hp Hb) as [-> Hx]. cbn [mbind option_bind]. unfold is_byte in Hx.
  assert (t + fb < 8 → (8 * b + fb + t) / 8 = b ∧ (8 * b + fb + t) mod 8 = t + fb) as Hlow.
  { intros ?. rewrite <- Z.add_assoc, (Z.add_comm fb). apply bit_place. lia. }
  destruct (Z.leb_spec (Z.of_nat (length p)) (b + 1)) as [Hle|Hgt].
  - destruct Hp as [_ Hl]. destruct (Hlow ltac:(lia)) as [-> ->]. cbn [default from_option id].
    rewrite mod_small_reg, Z.land_spec, testbit_max, Z.shiftr_spec, bool_decide_eq_true_2, andb_true_r by lia. done.
  - destruct (block_lookup p (b + 1) Hp) as [-> Hy]; [destruct Hp; lia|]. cbn [mbind option_bind default from_option id]. unfold is_byte in Hy.
    rewrite mod_small_reg, Z.land_spec, testbit_max, Z.lor_spec, Z.shiftr_spec, Z.shiftl_spec, bool_decide_eq_true_2, andb_true_r by lia.
    destruct (decide (t + fb < 8)) as [Hs|Hs].
    + destruct (Hlow Hs) as [-> ->]. rewrite (Z.testbit_neg_r _ (t - (8 - fb))) by lia. apply orb_false_r.
    + rewrite (testbit_above 8 _ (t + fb)) by (done || lia). cbn [orb].
      replace (8 * b + fb + t) with (8 * (b + 1) + (t - (8 - fb))) by lia. destruct (bit_place (b + 1) (t - (8 - fb))) as [-> ->]; [lia|done].
Qed.

(** Writing a byte of the block. *)
Lemma block_insert p b x : block_ok p → is_byte x → block_ok (<[b := x]> p).
Proof. intros [Hp Hl] Hx. split; [by apply Forall_insert|by rewrite length_insert]. Qed.

Lemma byte_at_insert p b x k :
  block_ok p → 0 ≤ b < 12288 → byte_at (<[Z.to_nat b := x]> p) k = if decide (k = Z.to_nat b) then x else byte_at p k.
Proof.
  intros [_ Hl] Hb. unfold byte_at. destruct (decide (k = Z.to_nat b)) as [->|Hne].
  - rewrite list_lookup_insert_eq by lia. done.
  - by rewrite list_lookup_insert_ne.
Qed.

(** The two bytes a register is in, after it was written. *)
Lemma low_byte_bits x v fb r :
  0 ≤ v < 64 → 0 ≤ fb → 0 ≤ r < 8 →
  Z.testbit (Z.lor (Z.land x (Z.lnot (Z.shiftl HLL_REGISTER_MAX fb))) (Z.shiftl v fb) mod 256) r =
    if bool_decide (0 ≤ r - fb < 6) then Z.testbit v (r - fb) else Z.testbit x r.
Proof.
  intros Hv Hf Hr. rewrite testbit_byte, Z.lor_spec, Z.land_spec, Z.lnot_spec, !Z.shiftl_spec, testbit_max by lia.
  rewrite (bool_decide_eq_true_2 (r < 8)) by lia. cbn [andb]. destruct (bool_decide_reflect (0 ≤ r - fb < 6)); cbn [negb].
  - by rewrite andb_false_r.
  - rewrite andb_true_r, (testbit_reg v) by done. apply orb_false_r.
Qed.
Lemma high_byte_bits y v fb8 r :
  0 ≤ v < 64 → 0 ≤ fb8 → 0 ≤ r < 8 →
  Z.testbit (Z.lor (Z.land y (Z.lnot (Z.shiftr HLL_REGISTER_MAX fb8))) (Z.shiftr v fb8) mod 256) r =
    if bool_decide (0 ≤ r + fb8 < 6) then Z.testbit v (r + fb8) else Z.testbit y r.
Proof.
  intros Hv Hf Hr. rewrite testbit_byte, Z.lor_spec, Z.land_spec, Z.lnot_spec, !Z.shiftr_spec, testbit_max by lia.
  rewrite (bool_decide_eq_true_2 (r < 8)) by lia. cbn [andb]. destruct (bool_decide_reflect (0 ≤ r + fb8 < 6)); cbn [negb].
  - by rewrite andb_false_r.
  - rewrite andb_true_r, (testbit_reg v) by done. apply orb_false_r.
Qed.

Lemma set_register_ok p i v :
  block_ok p → reg_index i → 0 ≤ v < 64 →
  ∃ p', set_register p i v = Some p' ∧ block_ok p' ∧
    ∀ k, 0 ≤ k < 98304 → block_bit p' k = if bool_decide (0 ≤ k - i * 6 < 6) then Z.testbit v (k - i * 6) else block_bit p k.
Proof.
  intros Hp Hi Hv. destruct (reg_place i Hi) as (Hb & Hf & E & Hlast). unfold set_register. change HLL_BITS with 6.
  set (b := i * 6 / 8) in *. set (fb := Z.land (i * 6) 7) in *. clearbody b fb. rewrite E. clear i Hi E.
  destruct (block_lookup p b Hp Hb) as [-> Hx]. cbn [mbind option_bind]. rewrite length_insert.
  set (x1 := _ mod 256). assert (is_byte x1) as Hx1 by (apply Z.mod_pos_bound; lia).
  pose proof (λ r, low_byte_bits (byte_at p (Z.to_nat b)) v fb r Hv ltac:(lia)) as Hb1. fold x1 in Hb1.
  pose proof (block_insert p (Z.to_nat b) x1 Hp Hx1) as Hp1. clearbody x1.
  assert (∀ k, 0 ≤ k < 98304 → block_bit (<[Z.to_nat b := x1]> p) k =
    if decide (k / 8 = b) then (if bool_decide (0 ≤ k - (8 * b + fb) < 6) then Z.testbit v (k - (8 * b + fb)) else block_bit p k) else block_bit p k) as Hk1.
  { intros k Hk. unfold block_bit. pose proof (Z.div_mod k 8 ltac:(lia)). pose proof (Z.mod_pos_bound k 8 ltac:(lia)).
    assert (0 ≤ k / 8) by (apply Z.div_pos; lia). rewrite (byte_at_insert p b x1 _ Hp Hb). destruct (decide (k / 8 = b)) as [Eb|Eb].
    - rewrite Eb, decide_True by done. rewrite Hb1 by lia. by replace (k mod 8 - fb) with (k - (8 * b + fb)) by lia.
    - rewrite decide_False; [done|]. intros F%Z2Nat.inj; lia. }
  destruct (Z.leb_spec (Z.of_nat (length p)) (b + 1)) as [Hle|Hgt].
  - eexists. split_and!; [done..|]. intros k Hk. rewrite (Hk1 k Hk). destruct (decide (k / 8 = b)) as [Eb|Eb]; [done|].
    rewrite bool_decide_eq_false_2; [done|]. destruct Hp as [_ Hl]. pose proof (Z.div_mod k 8 ltac:(lia)). pose proof (Z.mod_pos_bound k 8 ltac:(lia)). lia.
  - assert (0 ≤ b + 1 < 12288) as Hb2 by (destruct Hp; lia). destruct (block_lookup _ (b + 1) Hp1 Hb2) as [-> Hy]. cbn [mbind option_bind].
    rewrite (byte_at_insert p b x1 _ Hp Hb), decide_False in Hy |- * by (intros F%Z2Nat.inj; lia).
    set (y1 := _ mod 256). assert (is_byte y1) as Hy1 by (apply Z.mod_pos_bound; lia).
    pose proof (λ r, high_byte_bits (byte_at p (Z.to_nat (b + 1))) v (8 - fb) r Hv ltac:(lia)) as Hb3. fold y1 in Hb3.
    eexists. split_and!; [done|by apply block_insert|]. clearbody y1. intros k Hk.
    pose proof (Z.div_mod k 8 ltac:(lia)). pose proof (Z.mod_pos_bound k 8 ltac:(lia)). assert (0 ≤ k / 8) by (apply Z.div_pos; lia).
    destruct (decide (k / 8 = b + 1)) as [Eb|Eb].
    + unfold block_bit. rewrite (byte_at_insert _ (b + 1) y1 _ Hp1 Hb2), decide_True by (by rewrite Eb). rewrite Hb3 by lia.
      replace (k mod 8 + (8 - fb)) with (k - (8 * b + fb)) by lia. by rewrite Eb.
    + transitivity (block_bit (<[Z.to_nat b := x1]> p) k).
      { unfold block_bit. rewrite (byte_at_insert _ (b + 1) y1 _ Hp1 Hb2), decide_False; [done|]. intros F%Z2Nat.inj; lia. }
      rewrite (Hk1 k Hk). destruct (decide (k / 8 = b)); [done|]. rewrite bool_decide_eq_false_2; [done|]. lia.
Qed.

(** A register that was written holds the value, the others are as before. *)
Lemma reg_set p i v :
  block_ok p → reg_index i → 0 ≤ v < 64 →
  ∃ p', set_register p i v = Some p' ∧ block_ok p' ∧ ∀ j, reg_index j → reg p' j = if decide (j = i) then v else reg p j.
Proof.
  intros Hp Hi Hv. destruct (set_register_ok p i v Hp Hi Hv) as (p' & Hs & Hp' & Hbit). exists p'. split_and!; [done..|]. intros j Hj.
  unfold reg_index in *. change HLL_REGISTERS with 16384 in *.
  assert (∀ t, 0 ≤ t < 6 → Z.testbit (reg p' j) t = if bool_decide (0 ≤ j * 6 + t - i * 6 < 6) then Z.testbit v (j * 6 + t - i * 6) else Z.testbit (reg p j) t) as Ht.
  { intros t Ht. rewrite !reg_bits by done. apply Hbit. lia. }
  apply reg_ext; [by apply get_register_ok|destruct (decide (j = i)); [done|by apply get_register_ok]|]. intros t Htr. rewrite (Ht t Htr).
  destruct (decide (j = i)) as [->|Hne].
  - rewrite bool_decide_eq_true_2 by lia. f_equal. lia.
  - rewrite bool_decide_eq_false_2 by lia. done.
Qed.

(** ** Elements *)
Lemma trailing_zeros_bound width z n : 0 ≤ n < Z.of_nat width → Z.testbit z n = true → 0 ≤ trailing_zeros width z ≤ n.
Proof.
  revert z n. induction width as [|width IH]; intros z n Hn Hz; [lia|]. cbn [trailing_zeros]. destruct (Z.odd z) eqn:Eo; [lia|].
  destruct (decide (n = 0)) as [->|Hne]; [rewrite Z.bit0_odd in Hz; congruence|].
  specialize (IH (Z.shiftr z 1) (n - 1) ltac:(lia)). rewrite Z.shiftr_spec in IH by lia.
  replace (n - 1 + 1) with n in IH by lia. specialize (IH Hz). lia.
Qed.

(** An element has a register and a value between 1 and 51 for it. *)
Lemma pat_len_bounds e : reg_index (hll_pat_len e).1 ∧ 1 ≤ (hll_pat_len e).2 ≤ 51.
Proof.
  unfold hll_pat_len. cbn [fst snd]. split.
  - unfold reg_index. change HLL_P_MASK with (Z.ones 14). rewrite Z.land_ones by lia. change HLL_REGISTERS with (2 ^ 14). apply Z.mod_pos_bound. lia.
  - assert (0 ≤ trailing_zeros 64 (Z.lor (Z.shiftr (murmur_hash64a e 2915580697) HLL_P) (Z.shiftl 1 HLL_Q)) ≤ 50); [|lia].
    apply trailing_zeros_bound; [lia|]. rewrite Z.lor_spec. apply orb_true_iff. right. change (Z.shiftl 1 HLL_Q) with (2 ^ 50). by apply Z.pow2_bits_true.
Qed.

(** What an element asks of a register. *)
Definition contrib (e : list Z) (i : Z) : Z := if (hll_pat_len e).1 =? i then (hll_pat_len e).2 else 0.

Lemma contrib_range e i : 0 ≤ contrib e i < 64.
Proof. unfold contrib. pose proof (pat_len_bounds e) as [_ ?]. destruct (_ =? i); lia. Qed.

Lemma dense_add_ok p e :
  block_ok p →
  ∃ p', hll_dense_add p e = Some (reg p (hll_pat_len e).1 <? (hll_pat_len e).2, p') ∧ block_ok p' ∧
    ∀ i, reg_index i → reg p' i = Z.max (reg p i) (contrib e i).
Proof.
  intros Hp. unfold hll_dense_add, hll_dense_set, contrib. pose proof (pat_len_bounds e) as [Hi Hc]. destruct (hll_pat_len e) as [i c]. cbn [fst snd] in *.
  rewrite Z.mod_small by lia. destruct (get_register_ok p i Hp Hi) as [-> Hr]. cbn [mbind option_bind]. destruct (Z.ltb_spec (reg p i) c).
  - destruct (reg_set p i c Hp Hi ltac:(lia)) as (p' & -> & Hp' & Hreg). exists p'. split_and!; [done..|]. intros j Hj. rewrite (Hreg j Hj).
    destruct (decide (j = i)) as [->|Hne]; [rewrite Z.eqb_refl; lia|]. rewrite (proj2 (Z.eqb_neq i j)) by done.
    destruct (get_register_ok p j Hp Hj) as [_ ?]. lia.
  - exists p. split_and!; [done..|]. intros j Hj. destruct (get_register_ok p j Hp Hj) as [_ ?]. destruct (Z.eqb_spec i j) as [->|]; lia.
Qed.

(** The register of a sketch of elements. *)
Fixpoint sketch (els : list (list Z)) (i : Z) : Z :=
  match els with
  | [] => 0
  | e :: els' => Z.max (contrib e i) (sketch els' i)
  end.

Lemma sketch_le els i v : sketch els i ≤ v ↔ 0 ≤ v ∧ ∀ e, e ∈ els → contrib e i ≤ v.
Proof.
  induction els as [|e els IH]; cbn [sketch].
  - split; [|by intros [? _]]. intros H. split; [done|]. intros e He. by apply elem_of_nil in He.
  - rewrite Z.max_lub_iff, IH. setoid_rewrite elem_of_cons. split; [naive_solver|]. intros [H1 H2]. split_and!; auto.
Qed.

Lemma sketch_range els i : 0 ≤ sketch els i < 64.
Proof. induction els as [|e els IH]; cbn [sketch]; [lia|]. pose proof (contrib_range e i). lia. Qed.

(** A sketch depends only on the set of elements. *)
Lemma sketch_ext els els' i : (∀ e, e ∈ els ↔ e ∈ els') → sketch els i = sketch els' i.
Proof.
  intros H. apply Z.le_antisymm; apply sketch_le; (split; [apply sketch_range|]); intros e He;
    eapply (proj1 (sketch_le _ i _)); try reflexivity; by apply H.
Qed.

Lemma sketch_app els els' i : sketch (els ++ els') i = Z.max (sketch els i) (sketch els' i).
Proof.
  induction els as [|e els IH]; cbn [sketch app]; [pose proof (sketch_range els' i); lia|]. rewrite IH. lia.
Qed.

(** Whether one of the elements raises a register. *)
Definition raises (r : Z → Z) (els : list (list Z)) : bool := existsb (λ e, r (hll_pat_len e).1 <? (hll_pat_len e).2) els.

Lemma add_elements_ok p els u :
  block_ok p →
  ∃ p', add_elements p u els = Some (if raises (reg p) els then 1 else u, p') ∧ block_ok p' ∧
    ∀ i, reg_index i → reg p' i = Z.max (reg p i) (sketch els i).
Proof.
  revert p u. induction els as [|e els IH]; intros p u Hp.
  { exists p. split_and!; [done..|]. intros i Hi. destruct (get_register_ok p i Hp Hi). cbn [sketch]. lia. }
  cbn [add_elements]. destruct (dense_add_ok p e Hp) as (p1 & -> & Hp1 & Hr1). cbn [mbind option_bind].
  destruct (IH p1 (if reg p (hll_pat_len e).1 <? (hll_pat_len e).2 then 1 else u) Hp1) as (p2 & -> & Hp2 & Hr2). exists p2. split_and!; [|done|].
  - do 2 f_equal. unfold raises. cbn [existsb]. destruct (Z.ltb_spec (reg p (hll_pat_len e).1) (hll_pat_len e).2); cbn [orb]; [by destruct (existsb _ els)|].
    assert (existsb (λ e0, reg p1 (hll_pat_len e0).1 <? (hll_pat_len e0).2) els = existsb (λ e0, reg p (hll_pat_len e0).1 <? (hll_pat_len e0).2) els) as ->; [|done].
    clear -H Hr1 Hp Hp1. induction els as [|e' els IH]; [done|]. cbn [existsb]. rewrite IH. f_equal. rewrite Hr1 by apply pat_len_bounds.
    unfold contrib. destruct (Z.eqb_spec (hll_pat_len e).1 (hll_pat_len e').1) as [E|]; [rewrite <- E, Z.max_l by lia; done|].
    rewrite Z.max_l; [done|]. by apply get_register_ok, pat_len_bounds.
  - intros i Hi. rewrite (Hr2 i Hi), (Hr1 i Hi). cbn [sketch]. lia.
Qed.

(** ** Unions *)

(** The largest value of a register among sketches. *)
Definition max_reg (srcs : list (list Z)) (i : Z) : Z := foldr (λ src v, Z.max (reg src i) v) 0 srcs.

Lemma max_reg_range srcs i : Forall block_ok srcs → reg_index i → 0 ≤ max_reg srcs i < 64.
Proof.
  intros Hs Hi. induction Hs as [|src srcs Hsrc Hs IH]; cbn [max_reg foldr]; [lia|]. destruct (get_register_ok src i Hsrc Hi) as [_ ?].
  unfold max_reg in IH. lia.
Qed.

Lemma raise_slots_ok src i raw :
  block_ok src → 0 ≤ i → i + Z.of_nat (length raw) ≤ HLL_REGISTERS →
  raise_slots src i raw = Some (imap (λ k slot, Z.max slot (reg src (i + Z.of_nat k))) raw).
Proof.
  intros Hsrc. revert i. induction raw as [|slot raw IH]; intros i Hi Hl; [done|]. cbn [raise_slots length] in *.
  destruct (get_register_ok src i Hsrc) as [-> _]; [unfold reg_index; lia|]. cbn [mbind option_bind]. rewrite IH by lia.
  cbn [mbind option_bind imap]. do 2 f_equal.
  - rewrite Z.add_0_r. destruct (Z.ltb_spec slot (reg src i)); lia.
  - apply imap_ext. intros k x _. cbn. do 2 f_equal. lia.
Qed.

Lemma merge_to_raw_ok srcs raw :
  Forall (λ src, block_ok (drop HLL_HDR_SIZE src)) srcs → Z.of_nat (length raw) = HLL_REGISTERS → Forall (λ v, 0 ≤ v) raw →
  hll_merge_to_raw raw srcs = Some (imap (λ k slot, Z.max slot (max_reg (drop HLL_HDR_SIZE <$> srcs) (Z.of_nat k))) raw).
Proof.
  intros Hs. revert raw. induction Hs as [|src srcs Hsrc Hs IH]; intros raw Hl Hraw.
  - cbn [hll_merge_to_raw fmap list_fmap max_reg foldr]. f_equal. apply list_eq. intros k. rewrite list_lookup_imap. destruct (raw !! k) as [x|] eqn:Hx; [|done].
    pose proof (Forall_lookup_1 _ _ _ _ Hraw Hx). cbn [fmap option_fmap option_map]. f_equal. cbn in *. lia.
  - cbn [hll_merge_to_raw]. rewrite raise_slots_ok by (done || lia). cbn [mbind option_bind]. rewrite IH.
    + f_equal. apply list_eq. intros k. rewrite !list_lookup_imap. destruct (raw !! k) as [x|]; [|done]. cbn [fmap option_fmap option_map].
      f_equal. rewrite Z.add_0_l. unfold max_reg. rewrite fmap_cons. cbn [foldr]. lia.
    + by rewrite length_imap.
    + apply Forall_lookup_2. intros k x Hx. rewrite list_lookup_imap in Hx. apply fmap_Some in Hx as (y & Hy & ->).
      pose proof (Forall_lookup_1 _ _ _ _ Hraw Hy). cbn in *. lia.
Qed.

Lemma set_registers_ok p i raw :
  block_ok p → 0 ≤ i → i + Z.of_nat (length raw) ≤ HLL_REGISTERS → Forall (λ v, 0 ≤ v < 64) raw →
  ∃ p', set_registers p i raw = Some p' ∧ block_ok p' ∧
    ∀ j, reg_index j → reg p' j = if decide (i ≤ j < i + Z.of_nat (length raw)) then default 0 (raw !! Z.to_nat (j - i)) else reg p j.
Proof.
  revert p i. induction raw as [|v raw IH]; intros p i Hp Hi Hl Hraw.
  { exists p. split_and!; [done..|]. intros j Hj. cbn [length]. rewrite decide_False by lia. done. }
  apply Forall_cons in Hraw as [Hv Hraw]. cbn [set_registers length] in *.
  destruct (reg_set p i v Hp ltac:(unfold reg_index; lia) Hv) as (p1 & -> & Hp1 & H1). cbn [mbind option_bind].
  destruct (IH p1 (i + 1) Hp1 ltac:(lia) ltac:(lia) Hraw) as (p2 & -> & Hp2 & H2). exists p2. split_and!; [done..|]. intros j Hj. rewrite (H2 j Hj).
  destruct (decide (j = i)) as [->|Hne].
  - rewrite decide_False, decide_True by lia. rewrite (H1 i Hj), decide_True by done. by rewrite Z.sub_diag.
  - rewrite (H1 j Hj), (decide_False (P:=j = i)) by done. destruct (decide (i + 1 ≤ j < i + 1 + Z.of_nat (length raw))).
    + rewrite decide_True by lia. replace (Z.to_nat (j - i)) with (S (Z.to_nat (j - (i + 1)))) by lia. done.
    + rewrite decide_False by lia. done.
Qed.

(** ** The header *)

(** A valid sketch of bytes. *)
Definition sketch_data (data : list Z) : Prop := is_valid_hll data = true ∧ Forall is_byte data.

Lemma valid_spec data :
  is_valid_hll data = true ↔ Z.of_nat (length data) = 12304 ∧ take 4 data = B "HYLL" ∧ byte_at data 4 = 0.
Proof.
  unfold is_valid_hll. change HLL_DENSE_SIZE with 12304. change HLL_DENSE with 0.
  rewrite !andb_true_iff, !bool_decide_eq_true, Z.eqb_eq. tauto.
Qed.

Lemma sketch_block data : sketch_data data → block_ok (drop HLL_HDR_SIZE data).
Proof. intros [[Hl _]%valid_spec Hb]. split; [by apply Forall_drop|]. rewrite length_drop. unfold HLL_HDR_SIZE. lia. Qed.

Lemma create_is_sketch : sketch_data create_hll.
Proof.
  split.
  - apply valid_spec. split_and!; [|done..]. unfold create_hll. rewrite !length_app, length_replicate. change HLL_DENSE_SIZE with 12304. change (length (B "HYLL")) with 4%nat. cbn [length]. lia.
  - unfold create_hll. apply Forall_app_2; [|apply Forall_app_2].
    + change (B "HYLL") with [72; 89; 76; 76]. repeat (apply Forall_cons; split; [unfold is_byte; lia|]). by apply Forall_nil.
    + apply Forall_singleton. unfold is_byte, HLL_DENSE. lia.
    + apply Forall_replicate. unfold is_byte. lia.
Qed.

(** New registers under an old header, the cached count marked as stale. *)
Lemma rewrite_sketch data p :
  sketch_data data → block_ok p →
  let data' := hll_invalidate_cache (take HLL_HDR_SIZE data ++ p) in
  sketch_data data' ∧ drop HLL_HDR_SIZE data' = p ∧ (hll_get_cached_count data').2 = false.
Proof.
  intros [[Hl [Ht H4]]%valid_spec Hb] [Hpb Hpl]. set (d := take HLL_HDR_SIZE data ++ p). cbv zeta.
  assert (length (take HLL_HDR_SIZE data) = 16%nat) as Hlt by (rewrite length_take; unfold HLL_HDR_SIZE; lia).
  assert (Z.of_nat (length d) = 12304) as Hd by (unfold d; rewrite length_app; lia).
  assert (byte_at (hll_invalidate_cache d) 15 = Z.lor (byte_at d 15) 128) as H15.
  { unfold hll_invalidate_cache, byte_at at 1. rewrite list_lookup_insert_eq by lia. done. }
  assert (Forall is_byte d) as Hdb by (apply Forall_app_2; [by apply Forall_take|done]).
  split_and!; [split|..].
  - apply valid_spec. unfold hll_invalidate_cache. split_and!.
    + by rewrite length_insert.
    + rewrite take_insert_ge by lia. unfold d. rewrite take_app_le by (rewrite Hlt; lia). rewrite take_take. exact Ht.
    + unfold byte_at. rewrite list_lookup_insert_ne by lia. unfold d. rewrite lookup_app_l by (rewrite Hlt; lia).
      rewrite lookup_take_lt by (unfold HLL_HDR_SIZE; lia). exact H4.
  - apply Forall_insert; [done|]. destruct (lookup_lt_is_Some_2 d 15) as [x Hx]; [lia|]. unfold byte_at. rewrite Hx. cbn [default from_option id].
    pose proof (Forall_lookup_1 _ _ _ _ Hdb Hx) as Hxb. unfold is_byte in *. change (Z.shiftl 1 7) with 128. split; [apply Z.lor_nonneg; lia|].
    destruct (decide (Z.lor x 128 = 0)) as [->|]; [lia|]. apply (Z.log2_lt_pow2 _ 8); [pose proof (proj2 (Z.lor_nonneg x 128) ltac:(lia)); lia|].
    rewrite Z.log2_lor by lia. apply Z.max_lub_lt; [|done]. destruct (decide (x = 0)) as [->|]; [done|]. apply Z.log2_lt_pow2; lia.
  - unfold hll_invalidate_cache. rewrite drop_insert_lt by (unfold HLL_HDR_SIZE; lia). unfold d. by rewrite drop_app_length'.
  - unfold hll_get_cached_count. rewrite H15. rewrite land_bit by lia. rewrite Z.lor_spec. change (Z.testbit 128 7) with true. by rewrite orb_true_r.
Qed.

(** ** The histogram *)

Definition occurrences (v : Z) (l : list Z) : Z := Z.of_nat (length (filter (λ r, r = v) l)).
(** How often each value occurs. *)
Definition histogram (l : list Z) : list Z := (λ v, occurrences (Z.of_nat v) l) <$> seq 0 64.

Lemma occurrences_cons v r l : occurrences v (r :: l) = (if decide (r = v) then 1 else 0) + occurrences v l.
Proof. unfold occurrences. rewrite filter_cons. destruct (decide (r = v)); cbn [length]; lia. Qed.
Lemma occurrences_bound v l : 0 ≤ occurrences v l ≤ Z.of_nat (length l).
Proof. unfold occurrences. pose proof (length_filter (λ r, r = v) l). lia. Qed.
Lemma occurrences_app v l l' : occurrences v (l ++ l') = occurrences v l + occurrences v l'.
Proof. unfold occurrences. rewrite filter_app, length_app. lia. Qed.

(** A histogram of 64 places. *)
Definition entry (h : list Z) (v : nat) : Z := default 0 (h !! v).

Lemma bump_entry h r v :
  length h = 64%nat → 0 ≤ r < 64 → length (bump h r) = 64%nat ∧ entry (bump h r) v = entry h v + if decide (r = Z.of_nat v) then 1 else 0.
Proof.
  intros Hl Hr. unfold bump, entry. split; [by rewrite length_alter|]. destruct (decide (r = Z.of_nat v)) as [->|Hne].
  - rewrite Nat2Z.id, list_lookup_alter_eq. destruct (lookup_lt_is_Some_2 h v) as [x Hx]; [lia|]. rewrite Hx. cbn. lia.
  - rewrite list_lookup_alter_ne by lia. lia.
Qed.

Lemma bumps_entry rs h v :
  length h = 64%nat → Forall (λ r, 0 ≤ r < 64) rs →
  length (fold_left bump rs h) = 64%nat ∧ entry (fold_left bump rs h) v = entry h v + occurrences (Z.of_nat v) rs.
Proof.
  revert h. induction rs as [|r rs IH]; intros h Hl Hrs; [split; [done|]; unfold occurrences; cbn; lia|].
  apply Forall_cons in Hrs as [Hr Hrs]. cbn [fold_left]. destruct (bump_entry h r v Hl Hr) as [Hl1 He]. destruct (IH (bump h r) Hl1 Hrs) as [Hl2 ->].
  split; [done|]. rewrite He, occurrences_cons. lia.
Qed.

(** Four histograms together. *)
Definition quad_ok (hs : list Z * list Z * list Z * list Z) : Prop :=
  let '(h0, h1, h2, h3) := hs in length h0 = 64%nat ∧ length h1 = 64%nat ∧ length h2 = 64%nat ∧ length h3 = 64%nat.
Definition quad_entry (hs : list Z * list Z * list Z * list Z) (v : nat) : Z :=
  let '(h0, h1, h2, h3) := hs in entry h0 v + entry h1 v + entry h2 v + entry h3 v.

Lemma histo_group_ok hs rs v :
  quad_ok hs → length rs = 16%nat → Forall (λ r, 0 ≤ r < 64) rs →
  quad_ok (histo_group hs rs) ∧ quad_entry (histo_group hs rs) v = quad_entry hs v + occurrences (Z.of_nat v) rs.
Proof.
  destruct hs as [[[h0 h1] h2] h3]. intros (L0 & L1 & L2 & L3) Hl Hrs.
  do 16 (destruct rs as [|? rs]; [discriminate Hl|]). destruct rs; [|discriminate Hl]. cbn [histo_group].
  rewrite !Forall_cons in Hrs. destruct Hrs as (R0 & R1 & R2 & R3 & R4 & R5 & R6 & R7 & R8 & R9 & R10 & R11 & R12 & R13 & R14 & R15 & _).
  assert (∀ a b c d, 0 ≤ a < 64 → 0 ≤ b < 64 → 0 ≤ c < 64 → 0 ≤ d < 64 → Forall (λ r, 0 ≤ r < 64) [a; b; c; d]) as Hfour
    by (intros; repeat (apply Forall_cons; split; [done|]); by apply Forall_nil).
  edestruct (bumps_entry _ h0 v L0 (Hfour _ _ _ _ R0 R4 R8 R12)) as [K0 E0]. edestruct (bumps_entry _ h1 v L1 (Hfour _ _ _ _ R1 R5 R9 R13)) as [K1 E1].
  edestruct (bumps_entry _ h2 v L2 (Hfour _ _ _ _ R2 R6 R10 R14)) as [K2 E2]. edestruct (bumps_entry _ h3 v L3 (Hfour _ _ _ _ R3 R7 R11 R15)) as [K3 E3].
  split; [by split_and!|]. cbn [quad_entry]. rewrite E0, E1, E2, E3, !occurrences_cons. unfold occurrences. rewrite !filter_nil. cbn [length]. lia.
Qed.

(** The registers of a number of groups, in order. *)
Fixpoint group_regs (groups : nat) (p : list Z) : list Z :=
  match groups with O => [] | S groups' => reg_group (take 12 p) ++ group_regs groups' (drop 12 p) end.

Lemma reg_group_range r : length (reg_group r) = 16%nat ∧ Forall (λ r, 0 ≤ r < 64) (reg_group r).
Proof. split; [done|]. unfold reg_group. repeat (apply Forall_cons; split; [apply land_max_range|]). by apply Forall_nil. Qed.

Lemma histo_loop_ok groups p hs :
  (12 * groups ≤ length p)%nat → quad_ok hs →
  ∃ hs', histo_loop groups p hs = Some hs' ∧ quad_ok hs' ∧
    ∀ v, quad_entry hs' v = quad_entry hs v + occurrences (Z.of_nat v) (group_regs groups p).
Proof.
  revert p hs. induction groups as [|groups IH]; intros p hs Hl Hq.
  { exists hs. split_and!; [done..|]. intros v. cbn [group_regs]. unfold occurrences. cbn. lia. }
  cbn [histo_loop group_regs]. rewrite (proj2 (Nat.ltb_ge _ _)) by lia. destruct (reg_group_range (take 12 p)) as [Hg1 Hg2].
  destruct (IH (drop 12 p) (histo_group hs (reg_group (take 12 p)))) as (hs' & H1 & H2 & H3).
  { rewrite length_drop. lia. }
  { by apply (histo_group_ok hs _ 0). }
  exists hs'. split_and!; [done..|]. intros v. rewrite (H3 v), occurrences_app.
  destruct (histo_group_ok hs _ v Hq Hg1 Hg2) as [_ ->]. lia.
Qed.

(** A register read by the general formula, and where one byte is enough. *)
Lemma reg_two p i (b : nat) fb x y :
  i * 6 = 8 * Z.of_nat b + fb → 0 ≤ fb < 8 → p !! b = Some x → p !! S b = Some y →
  reg p i = Z.land (Z.lor (Z.shiftr x fb) (Z.shiftl y (8 - fb))) 63.
Proof.
  intros E Hf Hx Hy. unfold reg, get_register. change HLL_BITS with 6. change 7 with (Z.ones 3). rewrite Z.land_ones by lia. change (2 ^ 3) with 8.
  destruct (bit_place (Z.of_nat b) fb Hf) as [E1 E2]. rewrite E, E1, E2, Nat2Z.id, Hx. cbn [mbind option_bind].
  rewrite (proj2 (Z.leb_gt _ _)) by (apply lookup_lt_Some in Hy; lia). replace (Z.to_nat (Z.of_nat b + 1)) with (S b) by lia. rewrite Hy.
  cbn [mbind option_bind default from_option id]. by rewrite mod_small_reg.
Qed.

Lemma land_shiftl_63 a y n : 6 ≤ n → Z.land (Z.lor a (Z.shiftl y n)) 63 = Z.land a 63.
Proof.
  intros Hn. apply Z.bits_inj'. intros t Ht. rewrite !Z.land_spec, Z.lor_spec. change 63 with HLL_REGISTER_MAX. rewrite testbit_max.
  destruct (bool_decide_reflect (0 ≤ t < 6)); [|by rewrite !andb_false_r]. rewrite Z.shiftl_spec, (Z.testbit_neg_r y) by lia. by rewrite orb_false_r.
Qed.

Lemma reg_one p i (b : nat) fb x :
  i * 6 = 8 * Z.of_nat b + fb → 0 ≤ fb ≤ 2 → p !! b = Some x → reg p i = Z.land (Z.shiftr x fb) 63.
Proof.
  intros E Hf Hx. destruct (p !! S b) as [y|] eqn:Hy.
  - rewrite (reg_two p i b fb x y E ltac:(lia) Hx Hy). apply land_shiftl_63. lia.
  - unfold reg, get_register. change HLL_BITS with 6. change 7 with (Z.ones 3). rewrite Z.land_ones by lia. change (2 ^ 3) with 8.
    destruct (bit_place (Z.of_nat b) fb ltac:(lia)) as [E1 E2]. rewrite E, E1, E2, Nat2Z.id, Hx. cbn [mbind option_bind].
    rewrite (proj2 (Z.leb_le _ _)) by (apply lookup_ge_None in Hy; lia). cbn [default from_option id]. by rewrite mod_small_reg.
Qed.

(** The next register of a list, from one byte or from two. *)
Ltac by_one b fb := apply (f_equal2 cons); [symmetry; etrans; [eapply (reg_one _ _ b fb); [reflexivity|lia|reflexivity]|reflexivity]|].
Ltac by_two b fb := apply (f_equal2 cons); [symmetry; etrans; [eapply (reg_two _ _ b fb); [reflexivity|lia|reflexivity|reflexivity]|reflexivity]|].

Lemma reg_group_regs p : (12 ≤ length p)%nat → reg_group (take 12 p) = reg p <$> seqZ 0 16.
Proof.
  intros Hl. do 12 (destruct p as [|? p]; [cbn [length] in Hl; lia|]). cbn [take]. unfold reg_group, byte_at. cbn [lookup list_lookup default from_option id Nat.add].
  change (seqZ 0 16) with [0; 1; 2; 3; 4; 5; 6; 7; 8; 9; 10; 11; 12; 13; 14; 15]. cbn [fmap list_fmap].
  by_one 0%nat 0. by_two 0%nat 6. by_two 1%nat 4. by_one 2%nat 2.
  by_one 3%nat 0. by_two 3%nat 6. by_two 4%nat 4. by_one 5%nat 2.
  by_one 6%nat 0. by_two 6%nat 6. by_two 7%nat 4. by_one 8%nat 2.
  by_one 9%nat 0. by_two 9%nat 6. by_two 10%nat 4. by_one 11%nat 2.
  reflexivity.
Qed.

(** Sixteen registers further is twelve bytes further. *)
Lemma reg_drop p i : 0 ≤ i → (12 ≤ length p)%nat → reg (drop 12 p) i = reg p (16 + i).
Proof.
  intros Hi Hl. unfold reg, get_register. change HLL_BITS with 6. change 7 with (Z.ones 3). rewrite !Z.land_ones by lia. change (2 ^ 3) with 8.
  replace ((16 + i) * 6) with (i * 6 + 12 * 8) by lia. rewrite Z.div_add, Z.mod_add, !lookup_drop, length_drop by lia.
  assert (0 ≤ i * 6 / 8) by (apply Z.div_pos; lia).
  replace (12 + Z.to_nat (i * 6 / 8))%nat with (Z.to_nat (i * 6 / 8 + 12)) by lia.
  replace (12 + Z.to_nat (i * 6 / 8 + 1))%nat with (Z.to_nat (i * 6 / 8 + 12 + 1)) by lia.
  destruct (p !! Z.to_nat (i * 6 / 8 + 12)); [|done]. cbn [mbind option_bind].
  destruct (Z.leb_spec (Z.of_nat (length p - 12)) (i * 6 / 8 + 1)), (Z.leb_spec (Z.of_nat (length p)) (i * 6 / 8 + 12 + 1)); (done || lia).
Qed.

Lemma group_regs_all groups p :
  (12 * groups ≤ length p)%nat → group_regs groups p = reg p <$> seqZ 0 (16 * Z.of_nat groups).
Proof.
  revert p. induction groups as [|groups IH]; intros p Hl; [done|]. cbn [group_regs].
  rewrite IH by (rewrite length_drop; lia). rewrite reg_group_regs by lia.
  replace (16 * Z.of_nat (S groups)) with (16 + 16 * Z.of_nat groups) by lia. rewrite seqZ_app by lia. rewrite fmap_app. f_equal.
  replace (0 + 16) with (16 + 0) by lia. rewrite <- fmap_add_seqZ, <- list_fmap_compose. apply list_fmap_ext. intros k i Hi.
  apply lookup_seqZ in Hi as [-> _]. cbn [compose]. apply reg_drop; lia.
Qed.

Lemma reg_histo_ok p : block_ok p → hll_dense_reg_histo p = Some (histogram (reg p <$> seqZ 0 HLL_REGISTERS)).
Proof.
  intros [_ Hl]. unfold hll_dense_reg_histo. set (zero := replicate 64 0).
  assert (12 * 1024 ≤ length p)%nat as Hlen by lia.
  destruct (histo_loop_ok 1024 p (zero, zero, zero, zero) Hlen) as ([[[h0 h1] h2] h3] & -> & (L0 & L1 & L2 & L3) & He); [done|].
  cbn [mbind option_bind]. f_equal. unfold histogram. change HLL_REGISTERS with (16 * Z.of_nat 1024). rewrite <- group_regs_all by done.
  apply list_eq. intros v. rewrite list_lookup_fmap. destruct (decide (v < 64)%nat) as [Hv|Hv].
  - rewrite lookup_seq_lt by done. cbn [fmap option_fmap option_map Nat.add]. rewrite !lookup_zip_with.
    specialize (He v). cbn [quad_entry] in He. unfold entry in He. assert (zero !! v = Some 0) as Hz by (by apply lookup_replicate).
    destruct (lookup_lt_is_Some_2 h0 v) as [a0 A0]; [lia|]. destruct (lookup_lt_is_Some_2 h1 v) as [a1 A1]; [lia|].
    destruct (lookup_lt_is_Some_2 h2 v) as [a2 A2]; [lia|]. destruct (lookup_lt_is_Some_2 h3 v) as [a3 A3]; [lia|].
    rewrite A0, A1, A2, A3, Hz in He. rewrite A0, A1, A2, A3. cbn [mbind option_bind default from_option id] in *. f_equal. lia.
  - rewrite lookup_seq_ge by lia. rewrite lookup_ge_None_2; [done|]. rewrite !length_zip_with. lia.
Qed.

(** ** Sketches of sets *)

Definition sketch_set (S : gset (list Z)) (i : Z) : Z := sketch (base.elements S) i.

(** The estimate of the number of elements: a function of the registers. *)
Definition count_set (S : gset (list Z)) : option Z := hll_estimate (histogram (sketch_set S <$> seqZ 0 HLL_REGISTERS)).

Lemma count_set_eq S : hll_estimate (histogram (sketch_set S <$> seqZ 0 HLL_REGISTERS)) = count_set S.
Proof. exact eq_refl. Qed.

(** There always is an estimate: no counter is above the number of registers. *)
Lemma count_set_some S : is_Some (count_set S).
Proof.
  rewrite <- count_set_eq. apply estimate_some. intros j. unfold byte_at, histogram. rewrite list_lookup_fmap.
  destruct (seq 0 64 !! j) as [v|]; cbn [fmap option_fmap option_map default from_option id]; [|done].
  pose proof (occurrences_bound (Z.of_nat v) (sketch_set S <$> seqZ 0 HLL_REGISTERS)) as H.
  rewrite length_fmap, length_seqZ, Z2Nat.id in H by done. exact H.
Qed.

(** The number PFCOUNT replies with. *)
Definition cardinality (S : gset (list Z)) : Z := default 0 (count_set S).
Lemma count_cardinality S : count_set S = Some (cardinality S).
Proof. unfold cardinality. by destruct (count_set_some S) as [n ->]. Qed.
Lemma cardinality_count S n : count_set S = Some n → cardinality S = n.
Proof. unfold cardinality. by intros ->. Qed.

Lemma sketch_set_empty i : sketch_set ∅ i = 0.
Proof. unfold sketch_set. by rewrite elements_empty. Qed.
Lemma sketch_set_union S S' i : sketch_set (S ∪ S') i = Z.max (sketch_set S i) (sketch_set S' i).
Proof. unfold sketch_set. rewrite <- sketch_app. apply sketch_ext. intros e. rewrite elem_of_app, !elem_of_elements. set_solver. Qed.
Lemma sketch_set_list els i : sketch_set (list_to_set els) i = sketch els i.
Proof. apply sketch_ext. intros e. by rewrite elem_of_elements, elem_of_list_to_set. Qed.

Lemma count_set_ext S S' : (∀ i, reg_index i → sketch_set S i = sketch_set S' i) → count_set S = count_set S'.
Proof.
  intros H. rewrite <- !count_set_eq. do 2 f_equal. apply list_fmap_ext. intros k i Hi. apply lookup_seqZ in Hi as [-> Hk]. apply H. unfold reg_index. lia.
Qed.

(** The bytes [data] are a sketch of the set, and a count in the header is the right one. *)
Record represents (data : list Z) (S : gset (list Z)) : Prop := {
  rp_data : sketch_data data;
  rp_regs i : reg_index i → reg (drop HLL_HDR_SIZE data) i = sketch_set S i;
  rp_cache c : hll_get_cached_count data = (c, true) → count_set S = Some c
}.

Lemma represents_ext data S S' : (∀ i, reg_index i → sketch_set S i = sketch_set S' i) → represents data S → represents data S'.
Proof.
  intros H [H1 H2 H3]. split; [done| |]. { intros i Hi. rewrite <- H by done. by apply H2. }
  intros c Hc. rewrite <- (count_set_ext S S' H). by apply H3.
Qed.

Lemma bind_fst {A} (o : option A) (f : A → option Z) (g : Z → list Z) : fst <$> (a ← o; c ← f a; Some (c, g c)) = o ≫= f.
Proof. destruct o as [a|]; [|done]. cbn [mbind option_bind]. by destruct (f a). Qed.

Lemma hll_count_stale data c :
  hll_get_cached_count data = (c, false) → fst <$> hll_count data = hll_dense_reg_histo (drop HLL_HDR_SIZE data) ≫= hll_estimate.
Proof. intros E. unfold hll_count. rewrite E. apply bind_fst. Qed.

Lemma bind_some {A C} (f : A → option C) o a : o = Some a → o ≫= f = f a.
Proof. by intros ->. Qed.

Lemma regs_list data S :
  represents data S → reg (drop HLL_HDR_SIZE data) <$> seqZ 0 HLL_REGISTERS = sketch_set S <$> seqZ 0 HLL_REGISTERS.
Proof.
  intros Hr. apply list_fmap_ext. intros k i Hi. apply lookup_seqZ in Hi as [-> Hk]. apply (rp_regs _ _ Hr). unfold reg_index. lia.
Qed.

(** Counting a sketch is counting its set. *)
Lemma count_represents data S : represents data S → fst <$> hll_count data = count_set S.
Proof.
  intros Hr. destruct (hll_get_cached_count data) as [c b] eqn:E. destruct b.
  - rewrite (rp_cache _ _ Hr c E). unfold hll_count. by rewrite E.
  - rewrite (hll_count_stale data c E), (bind_some _ _ _ (reg_histo_ok _ (sketch_block data (rp_data _ _ Hr)))), (regs_list data S Hr).
    apply count_set_eq.
Qed.

Lemma occurrences_zeros v n : occurrences v (replicate n 0) = if decide (0 = v) then Z.of_nat n else 0.
Proof.
  induction n as [|n IH]; [by destruct (decide (0 = v))|]. cbn [replicate]. rewrite occurrences_cons, IH. destruct (decide (0 = v)); lia.
Qed.

Lemma histogram_zeros n : histogram (replicate n 0) = (λ v : nat, if decide (0 = Z.of_nat v) then Z.of_nat n else 0) <$> seq 0 64.
Proof. apply list_fmap_ext. intros k v _. apply occurrences_zeros. Qed.

Lemma fmap_zeros (f : Z → Z) n : (∀ i, f i = 0) → f <$> seqZ 0 n = replicate (Z.to_nat n) 0.
Proof.
  intros Hf. apply list_eq. intros k. rewrite list_lookup_fmap. destruct (decide (k < Z.to_nat n)%nat) as [Hk|Hk].
  - rewrite lookup_replicate_2 by done. rewrite lookup_seqZ_lt by lia. cbn [fmap option_fmap option_map]. by rewrite Hf.
  - rewrite lookup_seqZ_ge, (lookup_ge_None_2 (replicate _ _)) by (rewrite ?length_replicate; lia). done.
Qed.

Lemma count_set_empty : count_set ∅ = Some 0.
Proof.
  rewrite <- count_set_eq, (fmap_zeros (sketch_set ∅) HLL_REGISTERS sketch_set_empty), histogram_zeros, Z2Nat.id by done.
  vm_compute. reflexivity.
Qed.

Lemma reg_zeros n i : block_ok (replicate n 0) → reg_index i → reg (replicate n 0) i = 0.
Proof.
  intros Hp Hi. apply reg_ext; [by apply get_register_ok|lia|]. intros t Ht. rewrite reg_bits by done. unfold block_bit, byte_at.
  rewrite Z.bits_0. destruct (replicate n 0 !! _) as [x|] eqn:E; [apply lookup_replicate in E as [-> _]|]; apply Z.bits_0.
Qed.

Lemma represents_create : represents create_hll ∅.
Proof.
  split; [apply create_is_sketch| |].
  - intros i Hi. pose proof (sketch_block _ create_is_sketch) as Hb.
    assert (drop HLL_HDR_SIZE create_hll = replicate (Z.to_nat HLL_DENSE_SIZE - 5 - 11) 0) as E.
    { unfold create_hll, HLL_HDR_SIZE. change (drop 16 (B "HYLL" ++ [HLL_DENSE] ++ replicate (Z.to_nat HLL_DENSE_SIZE - 5) 0))
        with (drop 11 (replicate (Z.to_nat HLL_DENSE_SIZE - 5) 0)). by rewrite drop_replicate. }
    rewrite E in Hb |- *. generalize dependent (Z.to_nat HLL_DENSE_SIZE - 5 - 11)%nat. intros n Hb _.
    rewrite sketch_set_empty. exact (reg_zeros n i Hb Hi).
  - assert (hll_get_cached_count create_hll = (0, true)) as -> by (vm_compute; reflexivity). intros c [= <-]. apply count_set_empty.
Qed.

Lemma union_cons (S : gset (list Z)) Ss : ⋃ (S :: Ss) = S ∪ ⋃ Ss.
Proof. reflexivity. Qed.

(** The union of sketches is a sketch of the union of the sets. *)
Lemma union_represents (valid : list (list Z)) (Ss : list (gset (list Z))) :
  Forall2 represents valid Ss → ∃ dense, hll_union valid = Some dense ∧ represents dense (⋃ Ss).
Proof.
  intros HF. assert (Forall (λ src, block_ok (drop HLL_HDR_SIZE src)) valid) as Hb.
  { induction HF as [|v S vs Ss Hv _ IH]; [by apply Forall_nil|]. apply Forall_cons. split; [by apply sketch_block, Hv|done]. }
  assert (∀ i, reg_index i → max_reg (drop HLL_HDR_SIZE <$> valid) i = sketch_set (⋃ Ss) i) as Hmax.
  { intros i Hi. clear Hb. induction HF as [|v S vs Ss Hv _ IH]; [done|]. rewrite fmap_cons, union_cons, sketch_set_union. cbn [max_reg foldr].
    rewrite <- IH, (rp_regs _ _ Hv i Hi). done. }
  unfold hll_union. set (raw0 := replicate (Z.to_nat HLL_REGISTERS) 0).
  assert (Z.of_nat (length raw0) = HLL_REGISTERS) as Hlen0 by (unfold raw0; rewrite length_replicate; apply Z2Nat.id; vm_compute; discriminate).
  rewrite (merge_to_raw_ok valid raw0 Hb Hlen0) by (apply Forall_replicate; lia). cbn [mbind option_bind].
  set (raw := imap _ raw0). assert (∀ k, (k < Z.to_nat HLL_REGISTERS)%nat → raw !! k = Some (sketch_set (⋃ Ss) (Z.of_nat k))) as Hraw.
  { intros k Hk. unfold raw, raw0. rewrite list_lookup_imap, lookup_replicate_2 by done. cbn [fmap option_fmap option_map].
    rewrite Hmax by (unfold reg_index; lia). f_equal. apply Z.max_r, sketch_range. }
  assert (Z.of_nat (length raw) = HLL_REGISTERS) as Hlen by (unfold raw; rewrite length_imap; exact Hlen0).
  assert (Forall (λ v, 0 ≤ v < 64) raw) as Hrange.
  { apply Forall_lookup_2. intros k v Hk. rewrite Hraw in Hk by (apply lookup_lt_Some in Hk; lia). injection Hk as <-. apply sketch_range. }
  destruct (set_registers_ok (drop HLL_HDR_SIZE create_hll) 0 raw (sketch_block _ create_is_sketch)) as (p & Hset & Hp & Hr); [lia..|done|].
  exists (hll_invalidate_cache (take HLL_HDR_SIZE create_hll ++ p)). split; [unfold hll_raw_to_dense; rewrite Hset; reflexivity|].
  destruct (rewrite_sketch create_hll p create_is_sketch Hp) as (D1 & D2 & D3). split; [done| |].
  - intros i Hi. rewrite D2, (Hr i Hi). unfold reg_index in Hi. rewrite decide_True by lia. rewrite Hraw by lia. cbn [default from_option id]. f_equal. lia.
  - intros c Hc. rewrite Hc in D3. discriminate D3.
Qed.

(** Adding elements to a sketch. *)
Lemma add_represents data S els :
  represents data S →
  ∃ registers, add_elements (drop HLL_HDR_SIZE data) 0 els = Some (if raises (sketch_set S) els then 1 else 0, registers) ∧
    represents (if raises (sketch_set S) els then hll_invalidate_cache (take HLL_HDR_SIZE data ++ registers) else data) (S ∪ list_to_set els).
Proof.
  intros Hr. pose proof (rp_data _ _ Hr) as Hd. pose proof (sketch_block data Hd) as Hb.
  destruct (add_elements_ok (drop HLL_HDR_SIZE data) els 0 Hb) as (p & Ha & Hp & Hreg). exists p.
  assert (raises (reg (drop HLL_HDR_SIZE data)) els = raises (sketch_set S) els) as Er.
  { unfold raises. clear -Hr. induction els as [|e els IH]; [done|]. cbn [existsb]. rewrite IH, (rp_regs _ _ Hr) by apply pat_len_bounds. done. }
  rewrite Er in Ha. split; [done|]. destruct (raises (sketch_set S) els) eqn:E.
  - destruct (rewrite_sketch data p Hd Hp) as (D1 & D2 & D3). split; [done| |].
    + intros i Hi. rewrite D2, (Hreg i Hi), (rp_regs _ _ Hr i Hi), sketch_set_union, sketch_set_list. done.
    + intros c Hc. rewrite Hc in D3. discriminate D3.
  - eapply represents_ext; [|exact Hr]. intros i Hi. rewrite sketch_set_union, sketch_set_list, Z.max_l; [done|].
    apply sketch_le. split; [apply sketch_range|]. intros e He. unfold contrib. destruct (Z.eqb_spec (hll_pat_len e).1 i) as [<-|]; [|apply sketch_range].
    unfold raises in E. apply not_true_iff_false in E. rewrite existsb_exists in E. apply Z.nlt_ge. intros Hlt. apply E.
    exists e. split; [by apply list_elem_of_In|by apply Z.ltb_lt].
Qed.

(** ** The commands on sets of elements *)

(** The set under each key; a key that is not there holds the empty set. *)
#[local] Abbreviation sets := (gmap (list Z) (gset (list Z))).
Definition set_of (h : sets) (key : list Z) : gset (list Z) := default ∅ (h !! key).
Definition union_of (h : sets) (keys : list (list Z)) : gset (list Z) := ⋃ (set_of h <$> keys).

Inductive pfcmd : Type :=
| PAdd (key : list Z) (els : list (list Z))
| PCount (keys : list (list Z))
| PMerge (dest : list Z) (sources : list (list Z)).

Definition pfkeys (c : pfcmd) : list (list Z) :=
  match c with PAdd key _ => [key] | PCount keys => keys | PMerge dest sources => dest :: sources end.

(** PFADD tells whether a register of the sketch goes up; PFCOUNT estimates the size of the
    union. *)
Definition pfreply (c : pfcmd) (h : sets) : outcome DbResult DbError :=
  match c with
  | PAdd key els => Ret (RInt (if raises (sketch_set (set_of h key)) els then 1 else 0))
  | PCount keys => Ret (RU64 (cardinality (union_of h keys)))
  | PMerge _ _ => Ret RUnit
  end.

Definition pfnext (c : pfcmd) (h : sets) : sets :=
  match c with
  | PAdd key els => <[key := set_of h key ∪ list_to_set els]> h
  | PCount _ => h
  | PMerge dest sources => <[dest := union_of h sources]> h
  end.

Lemma set_of_insert (h : sets) (key : list Z) (S : gset (list Z)) (key' : list Z) : set_of (<[key := S]> h) key' = if decide (key' = key) then S else set_of h key'.
Proof. unfold set_of. destruct (decide (key' = key)) as [->|]; [by rewrite lookup_insert_eq|by rewrite lookup_insert_ne]. Qed.

Lemma pfreply_count (keys : list (list Z)) (h : sets) : Ret (RU64 (cardinality (union_of h keys))) = pfreply (PCount keys) h.
Proof. exact eq_refl. Qed.

Lemma cardinality_empty : cardinality ∅ = 0.
Proof. apply cardinality_count, count_set_empty. Qed.

Section Commands.
Context {T : Type} `{!TxOps T} {raw : T → gmap (list Z) Item} {ok : T → Prop}.
Context `{HT : !TxLaws T raw ok} {now : Z} (Hnow : clock_ok now) (s : Session T).
#[local] Abbreviation Runs := (Runs (raw:=raw) (ok:=ok)).

Definition pf_op (c : pfcmd) : DbM T DbResult :=
  match c with
  | PAdd key els => PfAddOp now (public_key s key) els
  | PCount keys => PfCountOp now (public_key s <$> keys)
  | PMerge dest sources => PfMergeOp now (public_key s dest) (public_key s <$> sources)
  end.

(** The key holds a sketch of its set, or nothing if that is empty. *)
Definition sketch_at (m : gmap (list Z) Item) (h : sets) (key : list Z) : Prop :=
  match live now (public_key s key) m with
  | Some i => represents (item_value i) (set_of h key)
  | None => set_of h key = ∅
  end.

Lemma public_key_inj key key' : public_key s key = public_key s key' → key = key'.
Proof. unfold public_key, prefix. intros H. by apply app_inv_head in H. Qed.

Lemma sketch_valid data S : represents data S → is_valid_hll data = true.
Proof. intros [[H _] _ _]. exact H. Qed.

Lemma sketch_at_other (m : gmap (list Z) Item) (h : sets) (key : list Z) (i : Item) (S : gset (list Z)) (key' : list Z) :
  key' ≠ key → sketch_at m h key' → sketch_at (<[public_key s key := i]> m) (<[key := S]> h) key'.
Proof.
  intros Hne H. unfold sketch_at in *. rewrite live_insert_ne by (intros E%public_key_inj; congruence).
  by rewrite set_of_insert, decide_False.
Qed.

Lemma sketch_at_same (m : gmap (list Z) Item) (h : sets) (key : list Z) (i : Item) (S : gset (list Z)) :
  live now (public_key s key) (<[public_key s key := i]> m) = Some i → represents (item_value i) S →
  sketch_at (<[public_key s key := i]> m) (<[key := S]> h) key.
Proof. intros Hl Hr. unfold sketch_at. rewrite Hl, set_of_insert, decide_True by done. exact Hr. Qed.

(** The sketches found under keys, for the union of their sets. *)
Lemma runs_valid_sketches (keys : list (list Z)) (m : gmap (list Z) Item) (h : sets) :
  Forall (sketch_at m h) keys →
  ∃ valid Ss, Runs (valid_sketches now (public_key s <$> keys)) m (Ret valid) m ∧ Forall2 represents valid Ss ∧ ⋃ Ss = union_of h keys.
Proof.
  intros Hk. induction Hk as [|key keys Hkey _ IH]; [exists [], []; split_and!; [apply runs_ret|constructor|done]|].
  destruct IH as (valid & Ss & H1 & H2 & H3). unfold sketch_at in Hkey. rewrite fmap_cons. cbn [valid_sketches]. unfold union_of in *. rewrite fmap_cons, union_cons.
  assert (∀ v, Runs (mret (match live now (public_key s key) m with
      | Some item => if is_valid_hll (item_value item) then item_value item :: valid else valid | None => valid end)) m (Ret v) m →
    Runs (item ← get_opt now (public_key s key); rest ← valid_sketches now (public_key s <$> keys);
      mret (match item with Some item => if is_valid_hll (item_value item) then item_value item :: rest else rest | None => rest end)) m (Ret v) m) as Hrun.
  { intros v Hv. eapply runs_bind; [by apply runs_get_opt|]. eapply runs_bind; [exact H1|]. exact Hv. }
  destruct (live now (public_key s key) m) as [i|].
  - exists (item_value i :: valid), (set_of h key :: Ss). split_and!; [|by constructor|by rewrite union_cons, H3].
    apply Hrun. rewrite (sketch_valid _ _ Hkey). apply runs_ret.
  - exists valid, Ss. split_and!; [apply Hrun, runs_ret|done|]. rewrite Hkey, H3. set_solver.
Qed.

Lemma runs_count data S m :
  represents data S →
  Runs ('(count, _) ← Hash.or_panic (hll_count data); mret (RU64 count)) m (Ret (RU64 (cardinality S))) m.
Proof.
  intros Hr. pose proof (count_represents data S Hr) as E. rewrite count_cardinality in E.
  destruct (hll_count data) as [[n d]|]; [|done]. injection E as <-. eapply runs_bind; [apply runs_ret|]. apply runs_ret.
Qed.

Lemma runs_pfcount (keys : list (list Z)) (m : gmap (list Z) Item) (h : sets) :
  Forall (sketch_at m h) keys → Runs (PfCountOp now (public_key s <$> keys)) m (pfreply (PCount keys) h) m.
Proof.
  intros Hk. rewrite <- pfreply_count. destruct keys as [|key [|key' keys]].
  - unfold union_of. cbn [fmap list_fmap]. change (⋃ []) with (∅ : gset (list Z)). rewrite cardinality_empty. apply runs_ret.
  - apply Forall_cons in Hk as [Hkey _]. unfold sketch_at in Hkey. unfold union_of. rewrite !fmap_cons, !fmap_nil, union_cons.
    change (⋃ []) with (∅ : gset (list Z)). rewrite (right_id_L ∅ (∪)). cbn [PfCountOp]. eapply runs_bind; [by apply runs_get_opt|]. destruct (live now (public_key s key) m) as [i|].
    + rewrite (sketch_valid _ _ Hkey). by apply runs_count.
    + rewrite Hkey, cardinality_empty. apply runs_ret.
  - destruct (runs_valid_sketches (key :: key' :: keys) m h Hk) as (valid & Ss & H1 & H2 & H3).
    destruct (union_represents valid Ss H2) as (dense & Hd & Hr). rewrite H3 in Hr.
    rewrite !fmap_cons in H1 |- *. cbn [PfCountOp]. eapply runs_bind; [exact H1|]. eapply runs_bind; [by apply runs_or_panic|]. by apply runs_count.
Qed.

Lemma runs_pfmerge (dest : list Z) (sources : list (list Z)) (m : gmap (list Z) Item) (h : sets) :
  Forall (sketch_at m h) sources →
  ∃ i, Runs (PfMergeOp now (public_key s dest) (public_key s <$> sources)) m (Ret RUnit) (<[public_key s dest := i]> m) ∧ item_ok i ∧
    live now (public_key s dest) (<[public_key s dest := i]> m) = Some i ∧ represents (item_value i) (union_of h sources).
Proof.
  intros Hk. destruct (runs_valid_sketches sources m h Hk) as (valid & Ss & H1 & H2 & H3).
  destruct (union_represents valid Ss H2) as (dense & Hd & Hr). rewrite H3 in Hr.
  set (e := with_metadata (entry_new (public_key s dest) dense) TYPE_STRING).
  exists (item_of now e). split_and!; [|apply item_of_ok|apply live_Some; by rewrite lookup_insert_eq|exact Hr].
  eapply runs_bind; [exact H1|]. eapply runs_bind; [by apply runs_or_panic|].
  eapply runs_bind; [|apply runs_ret]. apply (runs_set (raw:=raw) (ok:=ok) Hnow e m). by apply entry_ok_no_ttl.
Qed.

Lemma runs_pfadd (key : list Z) (els : list (list Z)) (m : gmap (list Z) Item) (h : sets) :
  store_ok m → sketch_at m h key →
  ∃ m', Runs (PfAddOp now (public_key s key) els) m (pfreply (PAdd key els) h) m' ∧ store_ok m' ∧
    (∀ k : list Z, k ≠ public_key s key → m' !! k = m !! k) ∧ sketch_at m' (pfnext (PAdd key els) h) key.
Proof.
  intros Hm Hk. set (data := match live now (public_key s key) m with Some i => item_value i | None => create_hll end).
  assert (represents data (set_of h key)) as Hr.
  { unfold data, sketch_at in *. destruct (live now (public_key s key) m); [done|]. rewrite Hk. apply represents_create. }
  destruct (add_represents data (set_of h key) els Hr) as (registers & Hadd & Hnew). cbn [pfreply pfnext].
  set (data' := hll_invalidate_cache (take HLL_HDR_SIZE data ++ registers)) in *.
  set (e := with_metadata (entry_new (public_key s key) data') TYPE_STRING).
  assert (∀ r m', Runs ((if (if raises (sketch_set (set_of h key)) els then 1 else 0) =? 1 then set_keeping_ttl now e else mret ()) ;;
      mret (RInt (if raises (sketch_set (set_of h key)) els then 1 else 0))) m r m' → Runs (PfAddOp now (public_key s key) els) m r m') as Hop.
  { intros r m' H. eapply runs_bind; [by apply runs_get_opt|]. cbv zeta. fold data. rewrite (sketch_valid _ _ Hr). cbn [negb].
    eapply runs_bind; [apply runs_or_panic; exact Hadd|]. exact H. }
  destruct (raises (sketch_set (set_of h key)) els) eqn:E.
  - exists (<[public_key s key := kept now e m]> m). split_and!.
    + apply Hop. eapply runs_bind; [by apply (runs_set_keeping_ttl (raw:=raw) (ok:=ok) Hnow e m)|]. apply runs_ret.
    + apply store_ok_insert; [done|by apply kept_ok].
    + intros k Hne. by rewrite lookup_insert_ne.
    + apply sketch_at_same; [exact (live_kept now e m)|exact Hnew].
  - exists m. split_and!; [apply Hop; eapply runs_bind; apply runs_ret|done..|]. unfold sketch_at, data in *. rewrite set_of_insert, decide_True by done.
    destruct (live now (public_key s key) m); [done|]. rewrite Hk in E |- *. destruct els as [|e' els]; [set_solver|]. exfalso.
    unfold raises in E. cbn [existsb] in E. apply orb_false_iff in E as [E _]. apply Z.ltb_ge in E. rewrite sketch_set_empty in E.
    destruct (pat_len_bounds e') as [_ ?]. lia.
Qed.

(** Every command refines the operation on sets. *)
Lemma pf_refines (c : pfcmd) (keys : list (list Z)) (m : gmap (list Z) Item) (h : sets) :
  store_ok m → Forall (sketch_at m h) keys → pfkeys c ⊆ keys →
  ∃ m', Runs (pf_op c) m (pfreply c h) m' ∧ store_ok m' ∧ Forall (sketch_at m' (pfnext c h)) keys ∧
    ∀ k : list Z, k ∉ public_key s <$> pfkeys c → m' !! k = m !! k.
Proof.
  intros Hm Hk Hsub. rewrite Forall_forall in Hk. destruct c as [key els|ks|dest sources]; cbn [pf_op pfkeys] in *.
  - destruct (runs_pfadd key els m h Hm (Hk key ltac:(set_solver))) as (m' & H1 & H2 & H3 & H4). exists m'. split_and!; [done..| |].
    + apply Forall_forall. intros k' Hin. destruct (decide (k' = key)) as [->|Hne]; [done|]. specialize (Hk k' Hin).
      unfold sketch_at, live, lookup_live in *. cbn [pfnext]. rewrite set_of_insert, decide_False by done. rewrite H3; [done|]. by intros ?%public_key_inj.
    + intros k Hnot. apply H3. intros ->. apply Hnot. set_solver.
  - exists m. split_and!; [|done|by apply Forall_forall|done]. apply runs_pfcount. apply Forall_forall. intros k Hin. apply Hk. set_solver.
  - destruct (runs_pfmerge dest sources m h) as (i & H1 & H2 & H3 & H4); [apply Forall_forall; intros k Hin; apply Hk; set_solver|].
    exists (<[public_key s dest := i]> m). split_and!; [done|by apply store_ok_insert| |].
    + apply Forall_forall. intros k' Hin. cbn [pfnext]. destruct (decide (k' = dest)) as [->|Hne]; [by apply sketch_at_same|].
      apply sketch_at_other; [done|by apply Hk].
    + intros k Hnot. apply lookup_insert_ne. intros <-. apply Hnot. set_solver.
Qed.
End Commands.

Lemma occurrences_fmap (f : Z → Z) v (l : list Z) : occurrences v (f <$> l) = Z.of_nat (length (filter (λ i, f i = v) l)).
Proof.
  induction l as [|i l IH]; [done|]. rewrite fmap_cons, occurrences_cons, IH, filter_cons. destruct (decide (f i = v)); cbn [length]; lia.
Qed.

(** ** Theorems *)

(** C27: The unrolled histogram is the histogram of the registers: on any block of registers it
    returns, without reading out of range, 64 counters of which the one of [v] is the number
    of registers that hold [v], where a register is what [get_register] reads. *)
Theorem histogram_counts_registers (p : list Z) :
  block_ok p →
  ∃ h, hll_dense_reg_histo p = Some h ∧ length h = 64%nat ∧
    ∀ v, 0 ≤ v < 64 →
      h !! Z.to_nat v = Some (Z.of_nat (length (filter (λ i, get_register p i = Some v) (seqZ 0 HLL_REGISTERS)))).
Proof.
  intros Hp. exists (histogram (reg p <$> seqZ 0 HLL_REGISTERS)). split_and!; [by apply reg_histo_ok|unfold histogram; by rewrite length_fmap, length_seq|].
  intros v Hv. unfold histogram. rewrite list_lookup_fmap, lookup_seq_lt by lia. cbn [fmap option_fmap option_map Nat.add]. f_equal.
  rewrite Z2Nat.id, occurrences_fmap by lia. do 2 f_equal. apply list_filter_ext_elem. intros i Hi. apply elem_of_seqZ in Hi. destruct (get_register_ok p i Hp) as [-> _]; [unfold reg_index; lia|].
  split; [by intros ->|congruence].
Qed.

Lemma histogram_counts_registers_witness :
  ∃ h, hll_dense_reg_histo (drop HLL_HDR_SIZE create_hll) = Some h ∧
    h !! 0%nat = Some (Z.of_nat (length (filter (λ i, get_register (drop HLL_HDR_SIZE create_hll) i = Some 0) (seqZ 0 HLL_REGISTERS)))).
Proof.
  destruct (histogram_counts_registers (drop HLL_HDR_SIZE create_hll)) as (h & H1 & _ & H2).
  - apply sketch_block, create_is_sketch.
  - exists h. split; [exact H1|]. apply (H2 0). lia.
Defined.

(** C26: PFADD, PFCOUNT and PFMERGE refine operations on finite sets of elements. Where every key
    of a group holds a sketch of its set, or nothing if the set is empty, a command on them
    returns, replies as the sets say and leaves sketches of the sets it should: PFADD adds its
    elements and says whether a register of the sketch went up, PFMERGE replaces the
    destination by the union of the sources, PFCOUNT of any number of keys is the estimate
    for the union of their sets ([cardinality], a function of the set alone: neither the order
    of insertion, nor repetitions, nor how the elements came together over several keys can
    change it). In particular PFCOUNT always returns a number: the loops of the estimator end
    on every sketch. No other key changes, and a count cached in a header is never a wrong one.
    Not said: how close the estimate is to the size of the set. *)
Theorem pf_commands_refine T `{!TxOps T} (raw : T → gmap (list Z) Item) (ok : T → Prop) (now : Z) (s : Session T)
    (c : pfcmd) (keys : list (list Z)) (m : gmap (list Z) Item) (h : gmap (list Z) (gset (list Z))) :
  TxLaws T raw ok → clock_ok now → store_ok m → Forall (sketch_at (now:=now) s m h) keys → pfkeys c ⊆ keys →
  (∀ S, count_set S = Some (cardinality S)) ∧
  ∃ m', Runs (raw:=raw) (ok:=ok) (pf_op (now:=now) s c) m (pfreply c h) m' ∧ store_ok m' ∧
    Forall (sketch_at (now:=now) s m' (pfnext c h)) keys ∧
    ∀ k : list Z, k ∉ public_key s <$> pfkeys c → m' !! k = m !! k.
Proof. intros HT Hnow Hm Hk Hsub. split; [exact count_cardinality|]. by apply (pf_refines Hnow). Qed.

Lemma pf_commands_refine_witness :
  ∃ m1 m2, Runs (raw:=id) (ok:=λ _, True) (pf_op (now:=5) demo_session (PAdd (B "k") [B "hello"; B "hello"])) (∅ : gmap (list Z) Item) (Ret (RInt 1)) m1 ∧
    Forall (sketch_at (now:=5) demo_session m1 {[B "k" := {[B "hello"]}]}) [B "k"] ∧
    Runs (raw:=id) (ok:=λ _, True) (pf_op (now:=5) demo_session (PCount [B "k"])) m1 (Ret (RU64 (cardinality {[B "hello"]}))) m2.
Proof.
  destruct (pf_commands_refine (gmap (list Z) Item) id (λ _, True) 5 demo_session (PAdd (B "k") [B "hello"; B "hello"]) [B "k"] ∅ ∅) as (_ & m1 & H1 & H2 & H3 & _).
  - apply map_laws.
  - unfold clock_ok. width_lia.
  - apply store_ok_empty.
  - apply Forall_singleton. reflexivity.
  - done.
  - assert (pfreply (PAdd (B "k") [B "hello"; B "hello"]) ∅ = Ret (RInt 1)) as E by (vm_compute; reflexivity). rewrite E in H1.
    assert (pfnext (PAdd (B "k") [B "hello"; B "hello"]) ∅ = {[B "k" := {[B "hello"]}]}) as E' by (apply (bool_decide_unpack _); vm_compute; exact I).
    rewrite E' in H3. destruct (pf_commands_refine (gmap (list Z) Item) id (λ _, True) 5 demo_session (PCount [B "k"]) [B "k"] m1 {[B "k" := {[B "hello"]}]})
      as (_ & m2 & H4 & _); [apply map_laws|unfold clock_ok; width_lia|exact H2|exact H3|done|].
    assert (union_of {[B "k" := {[B "hello"]}]} [B "k"] = {[B "hello"]}) as E2 by (apply (bool_decide_unpack _); vm_compute; exact I).
    rewrite <- pfreply_count, E2 in H4. exists m1, m2. split_and!; [exact H1|exact H3|exact H4].
Defined.

(** Merging loses nothing of the count: after PFMERGE, PFCOUNT of the destination replies what
    PFCOUNT of the sources replied. *)
Theorem pfmerge_counts_union T `{!TxOps T} (raw : T → gmap (list Z) Item) (ok : T → Prop) (now : Z) (s : Session T)
    (dest : list Z) (sources : list (list Z)) (m : gmap (list Z) Item) (h : gmap (list Z) (gset (list Z))) :
  TxLaws T raw ok → clock_ok now → Forall (sketch_at (now:=now) s m h) sources →
  ∃ m' r, Runs (raw:=raw) (ok:=ok) (PfCountOp now (public_key s <$> sources)) m r m ∧
    Runs (raw:=raw) (ok:=ok) (PfMergeOp now (public_key s dest) (public_key s <$> sources)) m (Ret RUnit) m' ∧
    Runs (raw:=raw) (ok:=ok) (PfCountOp now [public_key s dest]) m' r m'.
Proof.
  intros HT Hnow Hk. destruct (runs_pfmerge (raw:=raw) (ok:=ok) Hnow s dest sources m h Hk) as (i & H1 & _ & H3 & H4).
  exists (<[public_key s dest := i]> m), (pfreply (PCount sources) h). split_and!; [by apply runs_pfcount|done|].
  assert (union_of (<[dest := union_of h sources]> h) [dest] = union_of h sources) as E.
  { unfold union_of at 1. rewrite fmap_cons, fmap_nil, union_cons, set_of_insert, decide_True by done. apply (right_id_L ∅ (∪)). }
  rewrite <- pfreply_count, <- E, pfreply_count.
  apply (runs_pfcount (raw:=raw) (ok:=ok) Hnow s [dest]). apply Forall_singleton. by apply sketch_at_same.
Qed.

(** ** Other values *)

(** A string that is not a sketch is left alone, whatever its type: PFADD replies 0 and
    PFCOUNT counts nothing, where other commands answer WRONGTYPE. *)
Definition plain_string : gmap (list Z) Item :=
  {[ public_key demo_session (B "k") := mkItem (public_key demo_session (B "k")) (B "plain") (type_byte VHash) None ]}.

Lemma pfadd_ignores_other_values :
  PfAddOp 5 (public_key demo_session (B "k")) [B "x"] plain_string = (Ret (RInt 0), plain_string) ∧
  PfCountOp 5 [public_key demo_session (B "k")] plain_string = (Ret (RU64 0), plain_string).
Proof. split; reflexivity. Qed.
