(* ===== verification/ListCmds.v ===== *)
(** * List commands: src/redis/list.rs

    A list is a sentinel under the public key (size, head and tail) and one entry per
    node under the element prefix, a colon and the 16-byte key of the node, which holds
    the value and the keys of its neighbours. A command loads the chain ([Linked]),
    changes it and writes it back. Proved: a sequence of commands on a key refines the
    same operations on a sequence of values, with no node left behind; what a command
    leaves alone; RPOPLPUSH; and that loading ends on every store, corrupt ones
    included. The random words of namespaces and node keys are arguments. *)
From S2P Require Import Prelude Bytes Resp Kv Registry Op Namespace Session Elements Linked.
Import MapTx.

Definition SENTINEL_LENGTH : nat := 36.
Definition TYPE_LIST : Z := type_byte VList.

Definition internal_error : RespValue := Error (B "ERR internal error").

(** ** Storage layout *)

Definition node_key (node_prefix key : list Z) : list Z := node_prefix ++ B ":" ++ key.

(** An absent link is 16 zero bytes. *)
Definition ZERO_KEY : list Z := replicate KEY_LENGTH 0.
Definition link_bytes (k : option (list Z)) : list Z := default ZERO_KEY k.

(** The bytes of a sentinel and of a node. *)
Definition sentinel_bytes (head tail : option (list Z)) (size : Z) : list Z :=
  be_bytes 4 size ++ link_bytes head ++ link_bytes tail.
Definition node_bytes (n : ListNode) : list Z :=
  ln_value n ++ link_bytes (ln_prev n) ++ link_bytes (ln_next n).

(** The value and the two links of a stored node; [None] when it is too short. *)
Definition parse_node (key val : list Z) : option ListNode :=
  if (length val <? 2 * KEY_LENGTH)%nat then None
  else
    let split := (length val - 2 * KEY_LENGTH)%nat in
    Some (mkNode key (take split val) (to_opt_key (take KEY_LENGTH (drop split val)))
            (to_opt_key (drop (split + KEY_LENGTH) val))).

(** Links that point at nodes that are held. *)
Definition held (nodes : gmap (list Z) ListNode) (k : option (list Z)) : option (list Z) :=
  k ≫= λ k, if bool_decide (is_Some (nodes !! k)) then Some k else None.
Definition resolve_links (nodes : gmap (list Z) ListNode) : gmap (list Z) ListNode :=
  (λ n, with_next (held nodes (ln_next n)) (with_prev (held nodes (ln_prev n)) n)) <$> nodes.

(** A loop that runs until [step] yields a result, at most [p] times; [inl] when it did not. *)
Fixpoint loop_pos {T A R : Type} (step : A → DbM T (A + R)) (p : positive) (a : A) : DbM T (A + R) :=
  match p with
  | xH => step a
  | xO p' => r ← loop_pos step p' a; match r with inl a' => loop_pos step p' a' | inr x => mret (inr x) end
  | xI p' =>
      r ← step a;
      match r with
      | inl a' => r ← loop_pos step p' a'; match r with inl a'' => loop_pos step p' a'' | inr x => mret (inr x) end
      | inr x => mret (inr x)
      end
  end.

(** There are 2^128 keys, and loading stops at a key it has seen. *)
Definition load_fuel : positive := 2 ^ 128.

Section Ops.
Context {T : Type} `{!TxOps T} (now : Z).

Definition read_list_sentinel (public_key : list Z) : DbM T (Z * list Z * list Z) :=
  r ← get now public_key;
  item ← try_kv r;
  if negb (base_type (item_meta item) =? TYPE_LIST) then fail WrongType
  else
    val ← try_db (payload item);
    if (length val <? SENTINEL_LENGTH)%nat then fail (Kv KeyNotFound)
    else mret (from_be (take 4 val), take 16 (drop 4 val), take 16 (drop 20 val)).

Definition write_list_sentinel (public_key : list Z) (head tail : option (list Z)) (size : Z)
    (prefix : ElementPrefix) : DbM T () :=
  write_sentinel now public_key (sentinel_bytes head tail size) TYPE_LIST prefix.

Definition load_step (node_prefix : list Z) (st : gmap (list Z) ListNode * list Z)
  : DbM T ((gmap (list Z) ListNode * list Z) + gmap (list Z) ListNode) :=
  let '(nodes, current) := st in
  if is_zero_key current then mret (inr nodes)
  else if bool_decide (is_Some (nodes !! current)) then mret (inr nodes)
  else
    r ← get now (node_key node_prefix current);
    item ← try_kv r;
    match parse_node current (item_value item) with
    | None => fail (Kv KeyNotFound)
    | Some node =>
        let nodes' := <[current := node]> nodes in
        match ln_next node with
        | Some nx => mret (inl (nodes', nx))
        | None => mret (inr nodes')
        end
    end.

Definition load_list (public_key node_prefix : list Z) : DbM T Linked :=
  s ← read_list_sentinel public_key;
  let '(size, head_key, tail_key) := s in
  r ← loop_pos (load_step node_prefix) load_fuel (∅, head_key);
  match r with
  | inl _ => panic
  | inr nodes =>
      mret (mkLinked size (held nodes (Some head_key)) (held nodes (Some tail_key)) (resolve_links nodes) [])
  end.

Fixpoint delete_nodes_loop (node_prefix : list Z) (keys : list (list Z)) : DbM T () :=
  match keys with
  | [] => mret ()
  | k :: keys' => del (node_key node_prefix k) ;; delete_nodes_loop node_prefix keys'
  end.
Definition delete_removed_nodes (ll : Linked) (node_prefix : list Z) : DbM T () :=
  delete_nodes_loop node_prefix (ll_removed ll).
Definition delete_all_nodes (ll : Linked) (node_prefix : list Z) : DbM T () :=
  delete_removed_nodes ll node_prefix ;;
  delete_nodes_loop node_prefix (map_to_list (ll_nodes ll)).*1.

Definition node_entry (node_prefix : list Z) (n : ListNode) : Entry :=
  with_metadata (entry_new (node_key node_prefix (ln_key n)) (node_bytes n)) TYPE_LIST.
Fixpoint write_nodes (node_prefix : list Z) (nodes : list ListNode) : DbM T () :=
  match nodes with
  | [] => mret ()
  | n :: nodes' => set now (node_entry node_prefix n) ;; write_nodes node_prefix nodes'
  end.
Definition persist_list (public_key : list Z) (node_prefix : ElementPrefix) (ll : Linked) : DbM T () :=
  write_list_sentinel public_key (ll_head ll) (ll_tail ll) (ll_size ll) node_prefix ;;
  delete_removed_nodes ll (prefix_bytes node_prefix) ;;
  write_nodes (prefix_bytes node_prefix) (map_to_list (ll_nodes ll)).*2.

(** The list that is left: its entries deleted when it is empty. *)
Definition store_rest (public_key : list Z) (node_prefix : ElementPrefix) (ll : Linked) : DbM T () :=
  if ll_size ll =? 0 then delete_removed_nodes ll (prefix_bytes node_prefix) ;; del public_key
  else persist_list public_key node_prefix ll.

(** The result of a walk over the chain; a walk that does not end has none. *)
Definition walked {A} (o : option A) : DbM T A := match o with Some a => mret a | None => panic end.

(** [match load_list(..).await { Ok(ll) => .., Err(KeyNotFound) => missing, Err(e) => return Err(e) }]. *)
Definition load_or {A} (public_key : list Z) (node_prefix : ElementPrefix) (missing : DbM T A)
    (found : Linked → DbM T A) : DbM T A :=
  r ← caught (load_list public_key (prefix_bytes node_prefix));
  match r with
  | Ok ll => found ll
  | Err (Kv KeyNotFound) => missing
  | Err e => fail e
  end.

(** ** Commands *)

(** The [n]-th node key a command draws, at the time and as the call [rng n]. *)
Definition draw (rng : nat → Z * Z) (n : nat) : list Z := random_key (rng n).1 (rng n).2.

(** The pushes of PushOp. *)
Fixpoint push_values (rng : nat → Z * Z) (at_tail : bool) (n : nat) (values : list (list Z)) (ll : Linked) : Linked :=
  match values with
  | [] => ll
  | v :: values' =>
      push_values rng at_tail (S n) values' (if at_tail then add_last (draw rng n) v ll else add_first (draw rng n) v ll)
  end.

Definition PushOp (id : list Z) (rng : nat → Z * Z) (public_key node_prefix : list Z) (values : list (list Z))
    (at_tail only_if_exists : bool) : DbM T DbResult :=
  p ← resolve_prefix_for_write now id public_key node_prefix;
  let push (ll : Linked) : DbM T DbResult :=
    let ll' := push_values rng at_tail 0 values ll in
    persist_list public_key p ll' ;; mret (RInt (ll_size ll')) in
  load_or public_key p (if only_if_exists then mret (RInt 0) else push new_empty) push.

Definition PopOp (public_key node_prefix : list Z) (from_tail : bool) : DbM T DbResult :=
  p ← resolve_prefix now public_key node_prefix;
  load_or public_key p (mret (ROptBytes None)) (λ ll,
    let '(value, ll') := if from_tail then remove_last ll else remove_first ll in
    store_rest public_key p ll' ;; mret (ROptBytes value)).

Definition LLenOp (public_key : list Z) : DbM T DbResult :=
  r ← caught (read_list_sentinel public_key);
  match r with
  | Ok (size, _, _) => mret (RInt size)
  | Err (Kv KeyNotFound) => mret (RInt 0)
  | Err e => fail e
  end.

(** The range of LRANGE and LTRIM on a list of [size] elements; [None] when it is empty. *)
Definition clamp_range (size start stop : Z) : option (Z * Z) :=
  let start := if start <? 0 then start + size else start in
  let stop := if stop <? 0 then stop + size else stop in
  let start := if start <? 0 then 0 else start in
  let stop := if size <=? stop then size - 1 else stop in
  if (stop <? start) || (size <=? start) then None else Some (start, stop).

Definition LRangeOp (public_key node_prefix : list Z) (start stop : Z) : DbM T DbResult :=
  p ← resolve_prefix now public_key node_prefix;
  load_or public_key p (mret (RList [])) (λ ll,
    match clamp_range (ll_size ll) start stop with
    | None => mret (RList [])
    | Some (start, stop) =>
        keys ← walked (ordered_keys ll);
        mret (RList (omap (λ i, keys !! Z.to_nat i ≫= λ k, ln_value <$> ll_nodes ll !! k)
                       (seqZ start (stop + 1 - start))))
    end).

(** The index of LINDEX and LSET; [None] when it is out of range. *)
Definition clamp_index (size index : Z) : option Z :=
  let index := if index <? 0 then index + size else index in
  if (index <? 0) || (size <=? index) then None else Some index.

Definition LIndexOp (public_key node_prefix : list Z) (index : Z) : DbM T DbResult :=
  p ← resolve_prefix now public_key node_prefix;
  load_or public_key p (mret (ROptBytes None)) (λ ll,
    match clamp_index (ll_size ll) index with
    | None => mret (ROptBytes None)
    | Some index =>
        let cur := walk (ll_nodes ll) (Z.to_nat index) (ll_head ll) in
        mret (ROptBytes (cur ≫= λ k, ln_value <$> ll_nodes ll !! k))
    end).

Definition LSetOp (public_key node_prefix : list Z) (index : Z) (value : list Z) : DbM T DbResult :=
  p ← resolve_prefix now public_key node_prefix;
  load_or public_key p (fail (Kv KeyNotFound)) (λ ll,
    match clamp_index (ll_size ll) index with
    | None => fail (Kv KeyNotFound)
    | Some index =>
        match walk (ll_nodes ll) (Z.to_nat index) (ll_head ll) with
        | None => fail (Kv KeyNotFound)
        | Some k =>
            if bool_decide (is_Some (ll_nodes ll !! k)) then
              persist_list public_key p
                (mkLinked (ll_size ll) (ll_head ll) (ll_tail ll) (alter (with_value value) k (ll_nodes ll))
                   (ll_removed ll)) ;;
              mret RUnit
            else panic
        end
    end).

Definition LRemOp (public_key node_prefix : list Z) (count : Z) (value : list Z) : DbM T DbResult :=
  p ← resolve_prefix now public_key node_prefix;
  load_or public_key p (mret (RInt 0)) (λ ll,
    r ← walked (if count <? 0 then remove_matching_from_tail count value ll else remove_matching count value ll);
    let '(removed, ll') := (r : Z * Linked) in
    store_rest public_key p ll' ;; mret (RInt removed)).

Definition LTrimOp (public_key node_prefix : list Z) (start stop : Z) : DbM T DbResult :=
  p ← resolve_prefix now public_key node_prefix;
  load_or public_key p (mret RUnit) (λ ll,
    match clamp_range (ll_size ll) start stop with
    | None => delete_all_nodes ll (prefix_bytes p) ;; del public_key ;; mret RUnit
    | Some (start, stop) =>
        ll' ← walked (trim_to start stop ll);
        persist_list public_key p ll' ;; mret RUnit
    end).

Definition LInsertOp (rng : nat → Z * Z) (public_key node_prefix : list Z) (before : bool) (pivot value : list Z) : DbM T DbResult :=
  p ← resolve_prefix now public_key node_prefix;
  load_or public_key p (mret (RInt (-1))) (λ ll,
    r ← walked (insert (draw rng 0) before pivot value ll);
    let '(found, ll') := (r : bool * Linked) in
    if found then persist_list public_key p ll' ;; mret (RInt (ll_size ll')) else mret (RInt (-1))).

Definition RPopLPushOp (id : list Z) (rng : nat → Z * Z) (src_public src_prefix dst_public dst_prefix : list Z) : DbM T DbResult :=
  p ← resolve_prefix now src_public src_prefix;
  load_or src_public p (mret (ROptBytes None)) (λ src_ll,
    let '(v, src_ll') := remove_last src_ll in
    match v with
    | None => mret (ROptBytes None)
    | Some value =>
        store_rest src_public p src_ll' ;;
        q ← resolve_prefix_for_write now id dst_public dst_prefix;
        let push (dst_ll : Linked) : DbM T DbResult :=
          persist_list dst_public q (add_first (draw rng 0) value dst_ll) ;; mret (ROptBytes (Some value)) in
        load_or dst_public q (push new_empty) push
    end).

(** The walk of LPOS; [None] for one that does not end. A missing node is a panic. *)
Fixpoint lpos_loop (fuel : nat) (nodes : gmap (list Z) ListNode) (element : list Z) (pos : Z)
    (cur : option (list Z)) : option (outcome (option Z) DbError) :=
  match cur, fuel with
  | None, _ => Some (Ret None)
  | Some _, O => None
  | Some k, S fuel' =>
      match nodes !! k with
      | None => Some Panic
      | Some node =>
          if bool_decide (ln_value node = element) then Some (Ret (Some pos))
          else lpos_loop fuel' nodes element (pos + 1) (ln_next node)
      end
  end.

Definition LPosOp (public_key node_prefix element : list Z) : DbM T DbResult :=
  p ← resolve_prefix now public_key node_prefix;
  r ← get now public_key;
  if (match r with Ok item => negb (base_type (item_meta item) =? TYPE_LIST) | Err _ => false end)
  then fail WrongType
  else
    load_or public_key p (mret (ROptInt None)) (λ ll,
      o ← walked (lpos_loop (walk_fuel ll) (ll_nodes ll) element 0 (ll_head ll));
      match o with Ret v => mret (ROptInt v) | _ => panic end).

(** ** Moving and deleting the nodes of a key *)

(** The chain followed for at most [n] nodes, each handed to [act]. *)
Fixpoint follow_nodes (act : list Z → list Z → Item → DbM T ()) (prefix : list Z) (n : nat) (current : list Z) : DbM T () :=
  match n with
  | O => mret ()
  | S n' =>
      if bool_decide (current = ZERO_KEY) then mret ()
      else
        let key := node_key prefix current in
        r ← get now key;
        item ← try_kv r;
        let value := item_value item in
        if (length value <? 2 * KEY_LENGTH)%nat then fail (Kv KeyNotFound)
        else
          act current key item ;;
          follow_nodes act prefix n' (drop (length value - KEY_LENGTH) value)
  end.

Definition move_nodes (public_key from_prefix to_prefix : list Z) : DbM T () :=
  s ← read_list_sentinel public_key;
  let '(size, head, _) := s in
  follow_nodes (λ current from item,
      set now (with_metadata (entry_new (node_key to_prefix current) (item_value item)) (item_meta item)) ;; del from)
    from_prefix (Z.to_nat size) head.

Definition delete_nodes (public_key node_prefix : list Z) : DbM T () :=
  s ← read_list_sentinel public_key;
  let '(size, head, _) := s in
  follow_nodes (λ _ key _, del key) node_prefix (Z.to_nat size) head.
End Ops.

(** ** Replies *)

Definition IntWire : WireOp := pure_wire (λ r,
  match r with Ok (RInt n) => Integer n | Ok _ => internal_error | Err e => err_resp e end).
Definition NullableBulkWire : WireOp := pure_wire (λ r,
  match r with Ok (ROptBytes v) => BulkString v | Ok _ => internal_error | Err e => err_resp e end).
Definition BulkArrayWire : WireOp := pure_wire (λ r,
  match r with
  | Ok (RList vs) => Array (Some ((λ v, BulkString (Some v)) <$> vs))
  | Ok _ => internal_error
  | Err e => err_resp e
  end).
Definition OkWire : WireOp := pure_wire (λ r,
  match r with Ok _ => SimpleString (B "OK") | Err e => err_resp e end).
Definition LSetWire : WireOp := pure_wire (λ r,
  match r with
  | Ok _ => SimpleString (B "OK")
  | Err (Kv KeyNotFound) => Error (B "ERR no such key")
  | Err e => err_resp e
  end).
Definition NullableIntWire : WireOp := pure_wire (λ r,
  match r with
  | Ok (ROptInt (Some n)) => Integer n
  | Ok (ROptInt None) => BulkString None
  | Ok _ => internal_error
  | Err e => err_resp e
  end).

(** ** Command functions *)
Module Cmd.
Section Cmd.
Context {T : Type} `{!TxOps T} (s : Session T).

Definition lpush id (rng : nat → Z * Z) (key : list Z) (values : list (list Z)) : QueuedOp T :=
  on_key s key (λ now, PushOp now id rng (public_key s key) (private_key s key) values false false) IntWire true.
Definition rpush id (rng : nat → Z * Z) (key : list Z) (values : list (list Z)) : QueuedOp T :=
  on_key s key (λ now, PushOp now id rng (public_key s key) (private_key s key) values true false) IntWire true.
Definition lpushx id (rng : nat → Z * Z) (key value : list Z) : QueuedOp T :=
  on_key s key (λ now, PushOp now id rng (public_key s key) (private_key s key) [value] false true) IntWire true.
Definition rpushx id (rng : nat → Z * Z) (key value : list Z) : QueuedOp T :=
  on_key s key (λ now, PushOp now id rng (public_key s key) (private_key s key) [value] true true) IntWire true.
Definition lpop (key : list Z) : QueuedOp T :=
  on_key s key (λ now, PopOp now (public_key s key) (private_key s key) false) NullableBulkWire true.
Definition rpop (key : list Z) : QueuedOp T :=
  on_key s key (λ now, PopOp now (public_key s key) (private_key s key) true) NullableBulkWire true.
Definition llen (key : list Z) : QueuedOp T :=
  on_key s key (λ now, LLenOp now (public_key s key)) IntWire false.
Definition lrange (key : list Z) (start stop : Z) : QueuedOp T :=
  on_key s key (λ now, LRangeOp now (public_key s key) (private_key s key) start stop) BulkArrayWire false.
Definition lindex (key : list Z) (index : Z) : QueuedOp T :=
  on_key s key (λ now, LIndexOp now (public_key s key) (private_key s key) index) NullableBulkWire false.
Definition lset (key : list Z) (index : Z) (value : list Z) : QueuedOp T :=
  on_key s key (λ now, LSetOp now (public_key s key) (private_key s key) index value) LSetWire true.
Definition lrem (key : list Z) (count : Z) (value : list Z) : QueuedOp T :=
  on_key s key (λ now, LRemOp now (public_key s key) (private_key s key) count value) IntWire true.
Definition ltrim (key : list Z) (start stop : Z) : QueuedOp T :=
  on_key s key (λ now, LTrimOp now (public_key s key) (private_key s key) start stop) OkWire true.
Definition linsert (rng : nat → Z * Z) (key : list Z) (before : bool) (pivot value : list Z) : QueuedOp T :=
  on_key s key (λ now, LInsertOp now rng (public_key s key) (private_key s key) before pivot value) IntWire true.
Definition rpoplpush id (rng : nat → Z * Z) (source destination : list Z) : QueuedOp T :=
  mkQueuedOp
    (tx_op (λ now, RPopLPushOp now id rng (public_key s source) (private_key s source)
                     (public_key s destination) (private_key s destination)))
    NullableBulkWire true true false
    (Some [from_utf8_lossy (public_key s source); from_utf8_lossy (public_key s destination)]).
Definition lpos (key element : list Z) : QueuedOp T :=
  on_key s key (λ now, LPosOp now (public_key s key) (private_key s key) element) NullableIntWire false.
End Cmd.
End Cmd.

(** ** Loops *)

Section Loop.
Context {T A R : Type} (step : A → DbM T (A + R)).

Fixpoint loop_nat (n : nat) (a : A) : DbM T (A + R) :=
  match n with
  | O => mret (inl a)
  | S n' => r ← step a; match r with inl a' => loop_nat n' a' | inr x => mret (inr x) end
  end.

Lemma loop_nat_add m n a t :
  loop_nat (m + n) a t = (r ← loop_nat m a; match r with inl a' => loop_nat n a' | inr x => mret (inr x) end) t.
Proof.
  revert a t. induction m as [|m IH]; intros a t; [done|]. cbn [loop_nat Nat.add].
  unfold mbind, DbM_bind. destruct (step a t) as [[[a'|x]|e|] t']; [|done..]. apply IH.
Qed.

Lemma loop_pos_nat p a t : loop_pos step p a t = loop_nat (Pos.to_nat p) a t.
Proof.
  revert a t. induction p as [p IH|p IH|]; intros a t.
  - rewrite Pos2Nat.inj_xI. replace (2 * Pos.to_nat p)%nat with (Pos.to_nat p + Pos.to_nat p)%nat by lia.
    cbn [loop_pos loop_nat]. unfold mbind, DbM_bind.
    destruct (step a t) as [[[a'|x]|e|] t']; [|done..]. rewrite loop_nat_add. unfold mbind, DbM_bind. rewrite IH.
    destruct (loop_nat _ a' t') as [[[a''|x]|e|] t'']; [|done..]. apply IH.
  - rewrite Pos2Nat.inj_xO. replace (2 * Pos.to_nat p)%nat with (Pos.to_nat p + Pos.to_nat p)%nat by lia.
    rewrite loop_nat_add. cbn [loop_pos]. unfold mbind, DbM_bind. rewrite IH.
    destruct (loop_nat _ a t) as [[[a'|x]|e|] t']; [|done..]. apply IH.
  - change (Pos.to_nat 1) with 1%nat. cbn [loop_pos loop_nat]. unfold mbind, DbM_bind.
    by destruct (step a t) as [[[a'|x]|e|] t'].
Qed.
End Loop.

(** ** Stored lists *)

Definition good_key (k : list Z) : Prop := length k = KEY_LENGTH ∧ is_zero_key k = false.

(** The node entries under prefix [p] are exactly those of [N]. *)
Definition nodes_at (now : Z) (m : gmap (list Z) Item) (p : list Z) (N : gmap (list Z) ListNode) : Prop :=
  ∀ k : list Z, length k = KEY_LENGTH → item_value <$> live now (node_key p k) m = node_bytes <$> N !! k.

(** A list with nodes [l] under the public key [pk]: a sentinel [i] with size, head, tail
    and prefix [p], and the nodes under [p]. *)
Record list_stored (now : Z) (m : gmap (list Z) Item) (pk legacy : list Z) (i : Item)
    (p : ElementPrefix) (l : list (list Z * list Z)) : Prop := {
  ls_live : live now pk m = Some i;
  ls_type : base_type (item_meta i) = TYPE_LIST;
  ls_payload : payload i = Ok (sentinel_bytes (first_key l None) (last_key None l) (Z.of_nat (length l)));
  ls_prefix : prefix_of i legacy = Ok p;
  ls_nonempty : l ≠ []
}.

(** The prefix [p] that a command on [pk] uses, or would create, and the nodes [l] there. *)
Record list_at (now : Z) (m : gmap (list Z) Item) (pk legacy id : list Z) (p : ElementPrefix)
    (l : list (list Z * list Z)) : Prop := {
  la_sentinel :
    match live now pk m with
    | Some i => list_stored now m pk legacy i p l
    | None => new_namespace id legacy = Ok p ∧ l = []
    end;
  la_nodes : nodes_at now m (prefix_bytes p) (nodes_of None l None);
  la_keys : Forall good_key l.*1;
  la_distinct : NoDup l.*1;
  la_size : Z.of_nat (length l) < 2 ^ 32;
  la_public k : node_key (prefix_bytes p) k ≠ pk;
  la_length : Z.of_nat (length (prefix_bytes p)) < 2 ^ 32
}.

(** From [m] to [m'] the list under [pk] became [l']: nothing but its key and its nodes
    under [p] changed, those are the nodes of [l'], and a key that is still there keeps
    prefix and expiry. *)
Record list_updated (now : Z) (m : gmap (list Z) Item) (pk legacy : list Z) (p : ElementPrefix)
    (m' : gmap (list Z) Item) (l' : list (list Z * list Z)) : Prop := {
  lu_good : good m';
  lu_sentinel :
    match live now pk m' with
    | Some i => list_stored now m' pk legacy i p l' ∧ item_expire_ts i = (live now pk m ≫= item_expire_ts)
    | None => l' = []
    end;
  lu_nodes : nodes_at now m' (prefix_bytes p) (nodes_of None l' None);
  lu_keys : Forall good_key l'.*1;
  lu_distinct : NoDup l'.*1;
  lu_size : Z.of_nat (length l') < 2 ^ 32;
  lu_frame : ∀ k : list Z, k ≠ pk → (∀ j, k ≠ node_key (prefix_bytes p) j) → m' !! k = m !! k
}.

(** *** Encodings *)
Lemma to_opt_key_link k : (∀ j, k = Some j → good_key j) → to_opt_key (link_bytes k) = k.
Proof.
  intros Hk. destruct k as [j|]; [|done]. unfold to_opt_key. simpl. by rewrite (proj2 (Hk j eq_refl)).
Qed.
Lemma length_link k : (∀ j, k = Some j → good_key j) → length (link_bytes k) = KEY_LENGTH.
Proof. intros Hk. destruct k as [j|]; [|done]. apply (Hk j eq_refl). Qed.

Lemma parse_node_bytes k v p q :
  (∀ j, p = Some j → good_key j) → (∀ j, q = Some j → good_key j) →
  parse_node k (node_bytes (mkNode k v p q)) = Some (mkNode k v p q).
Proof.
  intros Hp Hn. unfold parse_node, node_bytes. cbn [ln_value ln_prev ln_next].
  pose proof (length_link _ Hp). pose proof (length_link _ Hn). rewrite !length_app. unfold KEY_LENGTH in *.
  destruct (Nat.ltb_spec (length v + (length (link_bytes p) + length (link_bytes q))) (2 * 16)) as [|_]; [lia|].
  replace (length v + (length (link_bytes p) + length (link_bytes q)) - 2 * 16)%nat with (length v) by lia.
  rewrite take_app_length, <- drop_drop, drop_app_length, take_app_length', drop_app_length' by done.
  by rewrite !to_opt_key_link by done.
Qed.

Lemma sentinel_fields h t n :
  (∀ j, h = Some j → good_key j) → (∀ j, t = Some j → good_key j) → 0 ≤ n < 2 ^ 32 →
  let val := sentinel_bytes h t n in
  length val = SENTINEL_LENGTH ∧ from_be (take 4 val) = n ∧ take 16 (drop 4 val) = link_bytes h ∧
  take 16 (drop 20 val) = link_bytes t.
Proof.
  intros Hh Ht Hn val. unfold val, sentinel_bytes. pose proof (length_link _ Hh) as Lh. pose proof (length_link _ Ht) as Lt.
  assert (length (be_bytes 4 n) = 4%nat) as Lb by apply length_be_bytes.
  split_and!.
  - by rewrite !length_app, Lb, Lh, Lt.
  - rewrite take_app_length' by done. by apply from_be_be_bytes.
  - by rewrite drop_app_length', take_app_length' by done.
  - rewrite app_assoc, drop_app_length' by (rewrite length_app, Lb, Lh; done). by rewrite take_ge by (by rewrite Lt).
Qed.

(** Every link of a segment is one of its keys or comes from outside. *)
Lemma nodes_links p l n k x :
  nodes_of p l n !! k = Some x →
  (ln_prev x = p ∨ ∃ j, ln_prev x = Some j ∧ j ∈ l.*1) ∧ (ln_next x = n ∨ ∃ j, ln_next x = Some j ∧ j ∈ l.*1).
Proof.
  revert p. induction l as [|[j v] l IH]; intros p; [done|]. cbn [nodes_of]. rewrite lookup_insert.
  case_decide as E.
  - intros [= <-]. simpl. split; [by left|]. destruct l as [|[j' v'] l]; simpl; [by left|right].
    exists j'. split; [done|]. right. by left.
  - intros Hx. destruct (IH _ Hx) as [Hp Hn]. split.
    + destruct Hp as [->|(j' & -> & Hj')]; right; [exists j; split; [done|by left]|exists j'; split; [done|by right]].
    + destruct Hn as [->|(j' & -> & Hj')]; [by left|right]. exists j'. split; [done|by right].
Qed.
Lemma nodes_key p l n k x : nodes_of p l n !! k = Some x → ln_key x = k ∧ k ∈ l.*1.
Proof.
  revert p. induction l as [|[j v] l IH]; intros p; [done|]. cbn [nodes_of]. rewrite lookup_insert. case_decide as E.
  - intros [= <-]. subst. split; [done|by left].
  - intros Hx. destruct (IH _ Hx). split; [done|by right].
Qed.

Lemma resolve_links_nodes l : NoDup l.*1 → resolve_links (nodes_of None l None) = nodes_of None l None.
Proof.
  intros Hd. apply map_eq. intros k. unfold resolve_links. rewrite lookup_fmap.
  destruct (nodes_of None l None !! k) as [x|] eqn:E; [|done]. simpl. f_equal.
  apply nodes_links in E as [Hp Hn].
  assert (∀ q, q = None ∨ (∃ j, q = Some j ∧ j ∈ l.*1) → held (nodes_of None l None) q = q) as Hheld.
  { intros q [->|(j & -> & Hj)]; [done|]. unfold held. simpl.
    by rewrite bool_decide_eq_true_2 by (by apply nodes_some). }
  unfold with_next, with_prev. simpl. rewrite !Hheld by done. by destruct x.
Qed.

Lemma held_first l : NoDup l.*1 → l ≠ [] → held (nodes_of None l None) (Some (link_bytes (first_key l None))) = first_key l None.
Proof.
  intros Hd Hl. destruct l as [|[k v] l]; [done|]. unfold held. simpl.
  by rewrite bool_decide_eq_true_2 by (rewrite lookup_insert_eq; eauto).
Qed.
Lemma held_last l : NoDup l.*1 → l ≠ [] → held (nodes_of None l None) (Some (link_bytes (last_key None l))) = last_key None l.
Proof.
  intros Hd Hl. destruct (last_key_elem None l Hl) as (k & -> & Hk). unfold held. simpl.
  by rewrite bool_decide_eq_true_2 by (by apply nodes_some).
Qed.

Lemma first_key_good l j : Forall good_key l.*1 → first_key l None = Some j → good_key j.
Proof. destruct l as [|[k v] l]; [done|]. intros Hk [= <-]. by apply Forall_cons in Hk as [? _]. Qed.
Lemma last_key_good l j : Forall good_key l.*1 → last_key None l = Some j → good_key j.
Proof.
  intros Hk. destruct l as [|kv l]; [done|]. destruct (last_key_elem None (kv :: l)) as (k & -> & Hin); [done|].
  intros [= <-]. rewrite Forall_forall in Hk. by apply Hk.
Qed.

(** *** Node entries *)
Lemma node_key_inj p j k : node_key p j = node_key p k → j = k.
Proof. unfold node_key. intros H. apply app_inv_head in H. by injection H. Qed.

Lemma nodes_at_insert now m p k n N i :
  nodes_at now m p N → item_value i = node_bytes n → is_expired now i = false →
  nodes_at now (<[node_key p k := i]> m) p (<[k := n]> N).
Proof.
  intros Hat Hv Hl j Hj. destruct (decide (j = k)) as [->|Hne].
  - rewrite lookup_insert_eq, (proj2 (live_Some _ _ _ i)); [by simpl; rewrite Hv|]. by rewrite lookup_insert_eq.
  - rewrite lookup_insert_ne, live_insert_ne by (done || by intros ?%node_key_inj). by apply Hat.
Qed.
Lemma nodes_at_delete now m p k N :
  nodes_at now m p N → nodes_at now (delete (node_key p k) m) p (delete k N).
Proof.
  intros Hat j Hj. destruct (decide (j = k)) as [->|Hne].
  - by rewrite live_delete, lookup_delete_eq.
  - rewrite lookup_delete_ne by done. rewrite <- (Hat j Hj). unfold live, lookup_live.
    by rewrite lookup_delete_ne by (by intros ?%node_key_inj).
Qed.
Lemma nodes_at_frame now m m' p N :
  (∀ k : list Z, m' !! node_key p k = m !! node_key p k) → nodes_at now m p N → nodes_at now m' p N.
Proof. intros Hf Hat k Hk. rewrite <- (Hat k Hk). unfold live, lookup_live. by rewrite Hf. Qed.

(** The nodes under [p] rewritten to [N'], everything else as it was. *)
Record renoded (now : Z) (p : list Z) (m m' : gmap (list Z) Item) (N' : gmap (list Z) ListNode) : Prop := {
  rn_good : good m';
  rn_nodes : nodes_at now m' p N';
  rn_outside : ∀ k : list Z, (∀ j, k ≠ node_key p j) → m' !! k = m !! k
}.

Lemma renoded_trans now p m1 m2 m3 N2 N3 :
  renoded now p m1 m2 N2 → renoded now p m2 m3 N3 → renoded now p m1 m3 N3.
Proof. intros [_ _ H1] [? ? H2]. split; [done..|]. intros k Hk. by rewrite H2, H1. Qed.

Lemma delete_foldl_None (removed : list (list Z)) (N : gmap (list Z) ListNode) (k : list Z) :
  k ∈ removed ∨ N !! k = None → foldl (λ N k, delete k N) N removed !! k = None.
Proof.
  revert N. induction removed as [|j removed IH]; intros N [Hk|Hk]; [by apply not_elem_of_nil in Hk|done|..]; simpl; apply IH.
  - apply elem_of_cons in Hk as [->|Hk]; [right; apply lookup_delete_eq|by left].
  - right. by rewrite lookup_delete_None; right.
Qed.

(** What is left of the old nodes is overwritten by the new ones. *)
Lemma nodes_overwritten (removed : list (list Z)) (M N : gmap (list Z) ListNode) :
  (∀ k : list Z, is_Some (N !! k) → k ∈ removed ∨ is_Some (M !! k)) →
  M ∪ foldl (λ N k, delete k N) N removed = M.
Proof.
  intros H. apply map_eq. intros k. destruct (M !! k) as [n|] eqn:E; [by apply lookup_union_Some_l|].
  rewrite lookup_union_r by done. apply delete_foldl_None. destruct (N !! k) as [x|] eqn:EN; [left|by right].
  destruct (H k) as [?|[y Hy]]; [by rewrite EN|done|congruence].
Qed.

Section Runs.
Context {T : Type} `{!TxOps T} {raw : T → gmap (list Z) Item} {ok : T → Prop}.
Context `{HT : !TxLaws T raw ok} {now : Z} (Hnow : clock_ok now).
#[local] Abbreviation Runs := (Runs (raw:=raw) (ok:=ok)).

(** *** Loading *)
Lemma runs_read_list_sentinel pk m :
  Runs (read_list_sentinel now pk) m
    (match live now pk m with
     | None => Fail (Kv KeyNotFound)
     | Some i =>
         if negb (base_type (item_meta i) =? TYPE_LIST) then Fail WrongType
         else match payload i with
              | Ok val =>
                  if (length val <? SENTINEL_LENGTH)%nat then Fail (Kv KeyNotFound)
                  else Ret (from_be (take 4 val), take 16 (drop 4 val), take 16 (drop 20 val))
              | Err e => Fail e
              end
     end) m.
Proof.
  eapply runs_bind; [by apply runs_get|]. rewrite lookup_live_live.
  destruct (live now pk m) as [i|]; [|apply runs_bind_fail, runs_fail].
  eapply runs_bind; [apply runs_ret|]. destruct (negb _); [apply runs_fail|].
  destruct (payload i) as [val|e]; [|apply runs_bind_fail, runs_fail].
  eapply runs_bind; [apply runs_ret|]. destruct (length val <? _)%nat; [apply runs_fail|apply runs_ret].
Qed.

Lemma runs_loop {A R} (step : A → DbM T (A + R)) p a m r m' :
  Runs (loop_nat step (Pos.to_nat p) a) m r m' → Runs (loop_pos step p a) m r m'.
Proof. intros H t Ht Hm. rewrite loop_pos_nat. by apply H. Qed.

Lemma runs_load_step p l1 k v l2 m :
  Forall good_key (l1 ++ (k, v) :: l2).*1 → NoDup (l1 ++ (k, v) :: l2).*1 →
  nodes_at now m p (nodes_of None (l1 ++ (k, v) :: l2) None) →
  let nodes := nodes_of None (l1 ++ [(k, v)]) (first_key l2 None) in
  Runs (load_step now p (nodes_of None l1 (Some k), k)) m
    (Ret (match first_key l2 None with Some nx => inl (nodes, nx) | None => inr nodes end)) m.
Proof.
  rewrite fmap_app. cbn [fmap list_fmap fst]. intros Hg (Hk1 & _ & _)%NoDup_mid Hat.
  set (nodes := nodes_of None (l1 ++ [(k, v)]) (first_key l2 None)).
  apply Forall_app in Hg as [Hg1 [[Hkl Hkz] Hg2]%Forall_cons].
  pose proof (Hat k Hkl) as Hv. rewrite nodes_mid in Hv by done. unfold load_step.
  rewrite Hkz, bool_decide_eq_false_2 by (rewrite nodes_none by done; by intros [? ?]).
  eapply runs_bind; [by apply runs_get|]. rewrite lookup_live_live.
  destruct (live now (node_key p k) m) as [i|]; [|done]. injection Hv as Hv.
  eapply runs_bind; [apply runs_ret|]. rewrite Hv.
  rewrite parse_node_bytes;
    [|by intros j; apply last_key_good|by intros j; apply first_key_good].
  cbv zeta. cbn [ln_next].
  assert (<[k := mkNode k v (last_key None l1) (first_key l2 None)]> (nodes_of None l1 (Some k)) = nodes) as ->.
  { unfold nodes. rewrite nodes_app. cbn [nodes_of first_key]. rewrite insert_empty.
    by apply insert_union_singleton_r, nodes_none. }
  destruct (first_key l2 None); apply runs_ret.
Qed.

Lemma runs_load_nodes p l1 k v l2 m n :
  Forall good_key (l1 ++ (k, v) :: l2).*1 → NoDup (l1 ++ (k, v) :: l2).*1 →
  nodes_at now m p (nodes_of None (l1 ++ (k, v) :: l2) None) → (length l2 < n)%nat →
  Runs (loop_nat (load_step now p) n (nodes_of None l1 (Some k), k)) m
    (Ret (inr (nodes_of None (l1 ++ (k, v) :: l2) None))) m.
Proof.
  revert l1 k v n. induction l2 as [|[k' v'] l2 IH]; intros l1 k v n Hg Hd Hat Hn; (destruct n as [|n]; [lia|]);
    cbn [loop_nat]; (eapply runs_bind; [by apply runs_load_step|]).
  - apply runs_ret.
  - specialize (IH (l1 ++ [(k, v)]) k' v' n). rewrite <- app_assoc in IH. cbn [app] in IH.
    exact (IH Hg Hd Hat ltac:(simpl in Hn; lia)).
Qed.

Lemma load_fuel_enough (n : nat) : Z.of_nat n < 2 ^ 128 → (n < Pos.to_nat load_fuel)%nat.
Proof.
  intros Hn. assert (Z.of_nat (Pos.to_nat load_fuel) = 2 ^ 128) by (rewrite positive_nat_Z; reflexivity). lia.
Qed.

(** A stored list is loaded as its chain. *)
Lemma runs_load_list pk legacy id p l m i :
  list_at now m pk legacy id p l → live now pk m = Some i →
  Runs (load_list now pk (prefix_bytes p)) m
    (Ret (mkLinked (Z.of_nat (length l)) (first_key l None) (last_key None l) (nodes_of None l None) [])) m ∧
  chain l.*1 l (mkLinked (Z.of_nat (length l)) (first_key l None) (last_key None l) (nodes_of None l None) []).
Proof.
  intros [Hs Hat Hg Hd Hsz _ _] Hl. rewrite Hl in Hs. destruct Hs as [_ Hty Hpl _ Hne].
  split; [|split; try done; intros k Hk; by left].
  destruct (sentinel_fields (first_key l None) (last_key None l) (Z.of_nat (length l))) as (Hlen & Hs & Hh & Ht);
    [by intros j; apply first_key_good|by intros j; apply last_key_good|lia|].
  pose proof (runs_read_list_sentinel pk m) as Hread.
  rewrite Hl, Hty, Hpl, Z.eqb_refl, Hlen, Nat.ltb_irrefl, Hs, Hh, Ht in Hread. cbn [negb] in Hread.
  eapply runs_bind; [exact Hread|]. cbv beta iota.
  eapply runs_bind.
  - apply runs_loop. destruct l as [|[k v] l]; [done|]. cbn [first_key link_bytes default].
    apply (runs_load_nodes _ [] k v l); [done..|]. apply load_fuel_enough. simpl in Hsz. lia.
  - cbv beta iota. rewrite resolve_links_nodes, held_first, held_last by done. apply runs_ret.
Qed.

Lemma runs_load_or {A} pk legacy id p l m (missing : DbM T A) found r m' :
  list_at now m pk legacy id p l →
  match live now pk m with
  | None => Runs missing m r m'
  | Some _ => ∀ ll, chain l.*1 l ll → Runs (found ll) m r m'
  end → Runs (load_or now pk p missing found) m r m'.
Proof.
  intros Hat H. pose proof (runs_read_list_sentinel pk m) as Hread.
  destruct (live now pk m) as [i|] eqn:El.
  - destruct (runs_load_list pk legacy id p l m i Hat El) as [Hload Hc].
    eapply runs_bind; [apply runs_caught, Hload|]. by apply H.
  - eapply runs_bind; [apply runs_caught_fail, runs_bind_fail, Hread|]. done.
Qed.

(** *** Writing *)
Lemma runs_delete_nodes_loop p keys m N :
  good m → nodes_at now m p N →
  ∃ m', Runs (delete_nodes_loop p keys) m (Ret ()) m' ∧ renoded now p m m' (foldl (λ N k, delete k N) N keys).
Proof.
  revert m N. induction keys as [|k keys IH]; intros m N Hg Hat; cbn [delete_nodes_loop foldl].
  - exists m. split; [apply runs_ret|by split].
  - destruct (IH (delete (node_key p k) m) (delete k N)) as (m' & Hrun & Hre).
    { by apply good_delete. } { by apply nodes_at_delete. }
    exists m'. split; [eapply runs_bind; [apply runs_del|exact Hrun]|]. eapply renoded_trans; [|exact Hre].
    split; [by apply good_delete|by apply nodes_at_delete|]. intros j Hj. by rewrite lookup_delete_ne.
Qed.

Lemma runs_write_nodes p (kns : list (list Z * ListNode)) m N :
  good m → nodes_at now m p N → NoDup kns.*1 → Forall (λ kn, ln_key kn.2 = kn.1) kns →
  ∃ m', Runs (write_nodes now p kns.*2) m (Ret ()) m' ∧ renoded now p m m' (list_to_map kns ∪ N).
Proof.
  revert m N. induction kns as [|[k n] kns IH]; intros m N Hg Hat Hd Hk; cbn [fmap list_fmap fst snd write_nodes list_to_map foldr].
  - exists m. split; [apply runs_ret|]. by split; rewrite ?map_empty_union.
  - apply NoDup_cons in Hd as [Hnot Hd]. apply Forall_cons in Hk as [Hkn Hk]. simpl in Hkn.
    set (m1 := <[node_key p k := item_of now (node_entry p n)]> m).
    assert (good m1 ∧ nodes_at now m1 p (<[k := n]> N)) as [Hg1 Hat1].
    { unfold m1, node_entry. rewrite Hkn. split; [by apply good_insert|by apply nodes_at_insert]. }
    destruct (IH m1 (<[k := n]> N) Hg1 Hat1 Hd Hk) as (m' & Hrun & Hre). exists m'. split.
    + eapply runs_bind; [|exact Hrun]. unfold m1.
      replace (node_key p k) with (entry_key (node_entry p n)) by (simpl; by rewrite Hkn).
      apply (runs_set Hnow). by apply entry_ok_no_ttl.
    + rewrite <- insert_union_r, insert_union_l in Hre by (by apply not_elem_of_list_to_map_1).
      eapply renoded_trans; [|exact Hre]. split; [done|exact Hat1|]. intros j Hj. unfold m1. by rewrite lookup_insert_ne.
Qed.

(** The removed nodes deleted and the chain written over the nodes of [l0]. *)
Lemma runs_rewrite_nodes p l0 l ll m :
  good m → nodes_at now m p (nodes_of None l0 None) → chain l0.*1 l ll →
  ∃ m', Runs (delete_removed_nodes ll p ;; write_nodes now p (map_to_list (ll_nodes ll)).*2) m (Ret ()) m' ∧
    renoded now p m m' (nodes_of None l None).
Proof.
  intros Hg Hat Hc. destruct (runs_delete_nodes_loop p (ll_removed ll) m _ Hg Hat) as (m1 & Hrun1 & Hre1).
  destruct (runs_write_nodes p (map_to_list (ll_nodes ll)) m1 _ (rn_good _ _ _ _ _ Hre1) (rn_nodes _ _ _ _ _ Hre1))
    as (m2 & Hrun2 & Hre2).
  { apply NoDup_fst_map_to_list. }
  { apply Forall_forall. intros [k n] Hin%elem_of_map_to_list. rewrite (ch_nodes _ _ _ Hc) in Hin.
    by apply nodes_key in Hin as [? _]. }
  exists m2. split; [by eapply runs_bind|]. rewrite list_to_map_to_list, nodes_overwritten in Hre2.
  - rewrite (ch_nodes _ _ _ Hc) in Hre2. by eapply renoded_trans.
  - intros k [x [_ Hk]%nodes_key]. destruct (ch_removed _ _ _ Hc k Hk) as [Hin|]; [right|by left].
    rewrite (ch_nodes _ _ _ Hc). by apply nodes_some.
Qed.

Lemma list_at_prefix pk legacy id p l m :
  list_at now m pk legacy id p l →
  match live now pk m with Some i => prefix_of i legacy = Ok p | None => explicit p = true end.
Proof.
  intros [Hs _ _ _ _ _ _]. destruct (live now pk m) as [i|]; [apply Hs|]. destruct Hs as [Hs _].
  by eapply new_namespace_explicit.
Qed.

Lemma runs_persist_list pk legacy id p l0 l ll m :
  good m → list_at now m pk legacy id p l0 → chain l0.*1 l ll → Forall good_key l.*1 → l ≠ [] →
  Z.of_nat (length l) < 2 ^ 32 →
  ∃ m', Runs (persist_list now pk p ll) m (Ret ()) m' ∧ list_updated now m pk legacy p m' l.
Proof.
  intros Hg Hat Hc Hk Hne Hsz. pose proof (list_at_prefix _ _ _ _ _ _ Hat) as Hp.
  destruct Hat as [_ Hn _ _ _ Hpub Hlen].
  destruct (runs_write_payload Hnow TYPE_LIST pk legacy p (sentinel_bytes (ll_head ll) (ll_tail ll) (ll_size ll)) m)
    as (i & Hexp & Hrun & Hg1 & Hl & Hty & Hpl & Hpre); [apply type_byte_range|done..|].
  destruct (runs_rewrite_nodes (prefix_bytes p) l0 l ll (<[pk := i]> m)) as (m' & Hrun' & [Hg' Hn' Ho]);
    [done| |done|].
  { eapply nodes_at_frame; [|exact Hn]. intros k. by rewrite lookup_insert_ne by (symmetry; apply Hpub). }
  exists m'. split; [by eapply runs_bind|].
  assert (live now pk m' = Some i) as Hl'.
  { rewrite <- Hl. unfold live, lookup_live. rewrite Ho; [done|]. intros j Hj. by apply (Hpub j). }
  split; try done.
  - rewrite Hl'. split; [|done]. split; try done. rewrite Hpl. by rewrite (ch_head _ _ _ Hc), (ch_tail _ _ _ Hc), (ch_size _ _ _ Hc).
  - apply Hc.
  - intros k Hkp Hkn. by rewrite Ho, lookup_insert_ne.
Qed.

(** All nodes gone and the key deleted. *)
Lemma runs_delete_list pk legacy id p l0 keys m :
  good m → list_at now m pk legacy id p l0 → (∀ k, k ∈ l0.*1 → k ∈ keys) →
  ∃ m', Runs (delete_nodes_loop (prefix_bytes p) keys ;; del pk) m (Ret ()) m' ∧
    list_updated now m pk legacy p m' [].
Proof.
  intros Hg [_ Hn _ _ _ Hpub _] Hk.
  destruct (runs_delete_nodes_loop (prefix_bytes p) keys m _ Hg Hn) as (m1 & Hrun & [Hg1 Hn1 Ho]).
  exists (delete pk m1). split; [eapply runs_bind; [exact Hrun|apply runs_del]|]. split.
  - by apply good_delete.
  - by rewrite live_delete.
  - eapply nodes_at_frame; [intros k; by rewrite lookup_delete_ne by (symmetry; apply Hpub)|].
    intros k Hlen. rewrite (Hn1 k Hlen). f_equal. apply delete_foldl_None.
    destruct (decide (k ∈ l0.*1)) as [Hin|Hin]; [left; auto|right; by apply nodes_none].
  - constructor.
  - constructor.
  - done.
  - intros k Hne Hj. rewrite lookup_delete_ne by done. by apply Ho.
Qed.

Lemma runs_store_rest pk legacy id p l0 l ll m :
  good m → list_at now m pk legacy id p l0 → chain l0.*1 l ll → Forall good_key l.*1 → Z.of_nat (length l) < 2 ^ 32 →
  ∃ m', Runs (store_rest now pk p ll) m (Ret ()) m' ∧ list_updated now m pk legacy p m' l.
Proof.
  intros Hg Hat Hc Hk Hsz. unfold store_rest. rewrite (ch_size _ _ _ Hc).
  destruct (Z.eqb_spec (Z.of_nat (length l)) 0) as [H0|H0].
  - assert (l = []) as -> by (destruct l; [done|simpl in H0; lia]).
    eapply runs_delete_list; [done..|]. intros k Hin. by destruct (ch_removed _ _ _ Hc k Hin) as [?%not_elem_of_nil|].
  - eapply runs_persist_list; try done. by intros ->.
Qed.

(** A command that changes nothing. *)
Lemma list_unchanged pk legacy id p l m :
  good m → list_at now m pk legacy id p l → list_updated now m pk legacy p m l.
Proof.
  intros Hg [Hs Hn Hk Hd Hsz Hpub Hlen]. split; try done. destruct (live now pk m) as [i|] eqn:El; [|by destruct Hs].
  by split.
Qed.
End Runs.

(** ** The machine on values *)

Inductive lcmd : Type :=
| CPush (at_tail only_if_exists : bool) (values : list (list Z))
| CPop (from_tail : bool)
| CLen
| CRange (start stop : Z)
| CIndex (index : Z)
| CSet (index : Z) (value : list Z)
| CRem (count : Z) (value : list Z)
| CTrim (start stop : Z)
| CInsert (before : bool) (pivot value : list Z)
| CPos (element : list Z).

Definition zlen {A} (l : list A) : Z := Z.of_nat (length l).

(** Negative indices count from the end. *)
Definition from_end {A} (vs : list A) (i : Z) : Z := if i <? 0 then i + zlen vs else i.

(** The elements whose index lies between [start] and [stop]. *)
Definition range_of {A} (vs : list A) (start stop : Z) : list A :=
  slice (from_end vs start) (from_end vs stop) 0 vs.
Definition at_index {A} (vs : list A) (i : Z) : option A :=
  let i := from_end vs i in if i <? 0 then None else vs !! Z.to_nat i.

(** Up to |[count]| elements equal to [value] removed: from the head, for a negative
    count from the tail, all of them for zero. *)
Definition lrem_of {A} (P : A → bool) (count : Z) (vs : list A) : list A :=
  if count <? 0 then reverse (remove_upto P (Z.to_nat (- count)) (reverse vs))
  else if count =? 0 then List.filter (λ x, negb (P x)) vs
  else remove_upto P (Z.to_nat count) vs.

Definition lstep (c : lcmd) (vs : list (list Z)) : result DbResult DbError * list (list Z) :=
  match c with
  | CPush at_tail only_if_exists values =>
      if only_if_exists && bool_decide (vs = []) then (Ok (RInt 0), vs)
      else let vs' := if at_tail then vs ++ values else reverse values ++ vs in (Ok (RInt (zlen vs')), vs')
  | CPop true => (Ok (ROptBytes (last vs)), take (length vs - 1) vs)
  | CPop false => (Ok (ROptBytes (head vs)), tail vs)
  | CLen => (Ok (RInt (zlen vs)), vs)
  | CRange start stop => (Ok (RList (range_of vs start stop)), vs)
  | CIndex i => (Ok (ROptBytes (at_index vs i)), vs)
  | CSet i v =>
      match at_index vs i with
      | Some _ => (Ok RUnit, <[Z.to_nat (from_end vs i) := v]> vs)
      | None => (Err (Kv KeyNotFound), vs)
      end
  | CRem count v =>
      let vs' := lrem_of (λ x, bool_decide (x = v)) count vs in (Ok (RInt (zlen vs - zlen vs')), vs')
  | CTrim start stop => (Ok RUnit, range_of vs start stop)
  | CInsert before pivot v =>
      match insert_near before (λ x, bool_decide (x = pivot)) v vs with
      | Some vs' => (Ok (RInt (zlen vs')), vs')
      | None => (Ok (RInt (-1)), vs)
      end
  | CPos v => (Ok (ROptInt ((λ ix, Z.of_nat ix.1) <$> list_find (λ x, x = v) vs)), vs)
  end.

(** The database half of a command, the node keys it draws, the elements it may add. *)
Definition lcmd_op {T} `{!TxOps T} (now : Z) (id : list Z) (rng : nat → Z * Z) (pk legacy : list Z) (c : lcmd) : DbM T DbResult :=
  match c with
  | CPush at_tail only values => PushOp now id rng pk legacy values at_tail only
  | CPop from_tail => PopOp now pk legacy from_tail
  | CLen => LLenOp now pk
  | CRange start stop => LRangeOp now pk legacy start stop
  | CIndex i => LIndexOp now pk legacy i
  | CSet i v => LSetOp now pk legacy i v
  | CRem count v => LRemOp now pk legacy count v
  | CTrim start stop => LTrimOp now pk legacy start stop
  | CInsert before pivot v => LInsertOp now rng pk legacy before pivot v
  | CPos v => LPosOp now pk legacy v
  end.
Definition lcmd_draws (rng : nat → Z * Z) (c : lcmd) : list (list Z) :=
  match c with
  | CPush _ _ values => draw rng <$> seq 0 (length values)
  | CInsert _ _ _ => [draw rng 0]
  | _ => []
  end.
(** What the parser guarantees: something to push, and a count that can be negated. *)
Definition lcmd_ok (c : lcmd) : Prop :=
  match c with CPush _ _ values => values ≠ [] | CRem count _ => i64_min < count | _ => True end.


(** *** Ranges and indices *)
Lemma clamp_range_spec {A} (vs : list A) start stop :
  match clamp_range (zlen vs) start stop with
  | None => range_of vs start stop = []
  | Some (x, y) => 0 ≤ x ≤ y ∧ y < zlen vs ∧
      range_of vs start stop = take (Z.to_nat (y + 1 - x)) (drop (Z.to_nat x) vs)
  end.
Proof.
  unfold clamp_range, range_of. fold (from_end vs start) (from_end vs stop).
  generalize (from_end vs start) as a. generalize (from_end vs stop) as b. intros b a. cbv zeta.
  assert (0 ≤ zlen vs) as H0 by (unfold zlen; lia).
  assert (∀ i l, (∀ j, i ≤ j < i + zlen l → j < a ∨ b < j) → slice a b i l = (@nil A)) as Hnil.
  { intros i l. revert i. induction l as [|x l IH]; intros i Hj; [done|]. simpl.
    assert ((i <? a) || (b <? i) = true) as ->.
    { destruct (Hj i) as [?|?]; [unfold zlen; simpl; lia|..]; apply orb_true_iff;
        [left; by apply Z.ltb_lt|right; by apply Z.ltb_lt]. }
    apply IH. intros j Hij. apply Hj. unfold zlen in *. simpl. lia. }
  destruct (_ || _) eqn:E.
  - apply Hnil. intros j Hj. apply orb_true_iff in E as [E%Z.ltb_lt|E%Z.leb_le];
      destruct (Z.ltb_spec a 0), (Z.leb_spec (zlen vs) b); lia.
  - apply orb_false_iff in E as [E1%Z.ltb_ge E2%Z.leb_gt].
    assert (∀ x y, x ≤ y → (x = if a <? 0 then 0 else a) → (y = if zlen vs <=? b then zlen vs - 1 else b) →
      0 ≤ x ≤ y ∧ y < zlen vs ∧ slice a b 0 vs = take (Z.to_nat (y + 1 - x)) (drop (Z.to_nat x) vs)) as H.
    { intros x y Hxy Hx Hy. assert (0 ≤ x) by (destruct (Z.ltb_spec a 0); lia).
      assert (y < zlen vs) by (destruct (Z.leb_spec (zlen vs) b); lia). split_and!; [lia..|].
      rewrite slice_take_drop by (destruct (Z.ltb_spec a 0), (Z.leb_spec (zlen vs) b); lia).
      replace (Z.to_nat (a - 0)) with (Z.to_nat x) by (destruct (Z.ltb_spec a 0); lia).
      replace (Z.max 0 a) with x by (destruct (Z.ltb_spec a 0); lia).
      destruct (Z.leb_spec (zlen vs) b); [|by subst y].
      rewrite !take_ge; [done|..]; rewrite length_drop; unfold zlen in *; lia. }
    by apply H.
Qed.

Lemma clamp_index_spec {A} (vs : list A) i :
  match clamp_index (zlen vs) i with
  | None => at_index vs i = None
  | Some j => j = from_end vs i ∧ 0 ≤ j < zlen vs ∧ at_index vs i = vs !! Z.to_nat j ∧ is_Some (vs !! Z.to_nat j)
  end.
Proof.
  unfold clamp_index, at_index. fold (from_end vs i). cbv zeta. generalize (from_end vs i) as j. intros j.
  destruct (Z.ltb_spec j 0); simpl; [done|]. destruct (Z.leb_spec (zlen vs) j).
  - apply lookup_ge_None. unfold zlen in *. lia.
  - split_and!; try done. apply lookup_lt_is_Some. unfold zlen in *. lia.
Qed.

Lemma length_fmap_snd (l : list (list Z * list Z)) : zlen l.*2 = zlen l.
Proof. unfold zlen. by rewrite length_fmap. Qed.

Lemma draw_good rng n : good_key (draw rng n).
Proof. split; [apply random_key_length|apply random_key_nonzero]. Qed.
Lemma draws_good rng c : Forall good_key (lcmd_draws rng c).
Proof.
  destruct c; simpl; try (by constructor); [|constructor; [apply draw_good|constructor]].
  apply Forall_forall. intros k (n & -> & _)%list_elem_of_fmap. apply draw_good.
Qed.

Lemma push_values_chain rng (at_tail : bool) n values old l ll :
  chain old l ll → let ks := draw rng <$> seq n (length values) in
  NoDup (l.*1 ++ ks) → zlen l + zlen values < 2 ^ 32 →
  chain old (if at_tail then l ++ zip ks values else reverse (zip ks values) ++ l) (push_values rng at_tail n values ll).
Proof.
  revert n l ll. induction values as [|v values IH]; intros n l ll Hc ks Hd Hsz; unfold ks in *;
    cbn [length seq fmap list_fmap zip zip_with push_values] in *.
  { destruct at_tail; [by rewrite app_nil_r|done]. }
  apply NoDup_mid in Hd as Hd'. destruct Hd' as (Hk & Hk2 & Hd'). unfold zlen in *. cbn [length] in Hsz.
  destruct at_tail.
  - specialize (IH (S n) (l ++ [(draw rng n, v)]) (add_last (draw rng n) v ll)). rewrite <- app_assoc in IH. cbn [app] in IH.
    apply IH; [apply add_last_chain; [done..|lia]| |rewrite length_app; simpl; lia].
    rewrite fmap_app, <- app_assoc. done.
  - specialize (IH (S n) ((draw rng n, v) :: l) (add_first (draw rng n) v ll)).
    rewrite reverse_cons, <- app_assoc. cbn [app]. apply IH; [apply add_first_chain; [done..|lia]| |simpl; lia].
    cbn [fmap list_fmap fst app]. by rewrite (Permutation_middle l.*1).
Qed.

Section Commands.
Context {T : Type} `{!TxOps T} {raw : T → gmap (list Z) Item} {ok : T → Prop}.
Context `{HT : !TxLaws T raw ok} {now : Z} (Hnow : clock_ok now).
#[local] Abbreviation Runs := (Runs (raw:=raw) (ok:=ok)).
Context (pk legacy id : list Z) (rng : nat → Z * Z) (p : ElementPrefix).

(** What a command does to a list, stated on its values. *)
Definition refines_at (c : lcmd) (m : gmap (list Z) Item) (l : list (list Z * list Z)) : Prop :=
  ∃ m' l', Runs (lcmd_op now id rng pk legacy c) m (outcome_of (lstep c l.*2).1) m' ∧
    list_updated now m pk legacy p m' l' ∧ l'.*2 = (lstep c l.*2).2 ∧
    ∀ k, k ∈ l'.*1 → k ∈ l.*1 ++ lcmd_draws rng c.

Lemma runs_for_write {A} m l (k : ElementPrefix → DbM T A) r m' :
  list_at now m pk legacy id p l → Runs (k p) m r m' → Runs (resolve_prefix_for_write now id pk legacy ≫= k) m r m'.
Proof.
  intros [Hs _ _ _ _ _ _] Hk. eapply runs_bind; [|exact Hk]. eapply runs_bind; [by apply runs_get|].
  rewrite lookup_live_live. destruct (live now pk m) as [i|].
  - rewrite (ls_prefix _ _ _ _ _ _ _ Hs). apply runs_ret.
  - destruct Hs as [-> _]. apply runs_ret.
Qed.

Lemma runs_missing {A} m q (missing : DbM T A) found r m' :
  live now pk m = None → Runs missing m r m' → Runs (load_or now pk q missing found) m r m'.
Proof.
  intros Hl H. pose proof (runs_read_list_sentinel Hnow pk m) as Hread. rewrite Hl in Hread.
  eapply runs_bind; [apply runs_caught_fail, runs_bind_fail, Hread|]. done.
Qed.

(** A command that resolves the prefix and loads the list. *)
Lemma runs_on_list {A} m l (k : ElementPrefix → DbM T A) r m' :
  list_at now m pk legacy id p l →
  (live now pk m = None → l = [] → Runs (k (legacy_prefix legacy)) m r m') →
  (is_Some (live now pk m) → l ≠ [] → Runs (k p) m r m') → Runs (resolve_prefix now pk legacy ≫= k) m r m'.
Proof.
  intros [Hs _ _ _ _ _ _] Hmiss Hk. destruct (live now pk m) as [i|] eqn:El.
  - eapply runs_bind; [|apply Hk; [eauto|apply Hs]]. eapply runs_bind; [by apply runs_get|].
    rewrite lookup_live_live, El, (ls_prefix _ _ _ _ _ _ _ Hs). apply runs_ret.
  - destruct Hs as [_ Hs]. eapply runs_bind; [|by apply Hmiss]. eapply runs_bind; [by apply runs_get|].
    rewrite lookup_live_live, El. apply runs_ret.
Qed.

Lemma runs_found {A} m l (missing : DbM T A) found r m' :
  list_at now m pk legacy id p l → is_Some (live now pk m) →
  (∀ ll, chain l.*1 l ll → Runs (found ll) m r m') → Runs (load_or now pk p missing found) m r m'.
Proof. intros Hat [i Hi] H. eapply (runs_load_or Hnow); [exact Hat|]. by rewrite Hi. Qed.

(** A command that reads. *)
Lemma refines_read c m l :
  good m → list_at now m pk legacy id p l → (lstep c l.*2).2 = l.*2 →
  Runs (lcmd_op now id rng pk legacy c) m (outcome_of (lstep c l.*2).1) m → refines_at c m l.
Proof.
  intros Hg Hat Hs Hr. exists m, l. split_and!; [done|by eapply list_unchanged|done|]. intros k Hk. apply elem_of_app. by left.
Qed.

Lemma refines_push at_tail only values m l :
  good m → list_at now m pk legacy id p l → values ≠ [] →
  NoDup (l.*1 ++ lcmd_draws rng (CPush at_tail only values)) → zlen l + zlen values < 2 ^ 32 →
  refines_at (CPush at_tail only values) m l.
Proof.
  intros Hg Hat Hv Hd Hsz.
  assert (∀ ll, chain l.*1 l ll → let vs' := if at_tail then l.*2 ++ values else reverse values ++ l.*2 in
    ∃ m' l', Runs (persist_list now pk p (push_values rng at_tail 0 values ll) ;;
                   mret (RInt (ll_size (push_values rng at_tail 0 values ll)))) m (Ret (RInt (zlen vs'))) m' ∧
      list_updated now m pk legacy p m' l' ∧ l'.*2 = vs' ∧
      ∀ k, k ∈ l'.*1 → k ∈ l.*1 ++ lcmd_draws rng (CPush at_tail only values)) as Hpush.
  { intros ll Hc vs'. pose proof (push_values_chain rng at_tail 0 values l.*1 l ll Hc Hd Hsz) as Hc'.
    set (ks := draw rng <$> seq 0 (length values)) in *.
    assert (length ks = length values) as Hks by (unfold ks; by rewrite length_fmap, length_seq).
    set (l' := if at_tail then _ else _) in Hc'.
    assert (l'.*2 = vs') as Hl2.
    { unfold l', vs'. destruct at_tail; rewrite fmap_app, ?fmap_reverse, snd_zip by lia; done. }
    assert (∀ k, k ∈ l'.*1 ↔ k ∈ l.*1 ++ ks) as Hin.
    { intros k. unfold l'. destruct at_tail; rewrite fmap_app, ?fmap_reverse, fst_zip by lia; [done|].
      rewrite !elem_of_app, elem_of_reverse. tauto. }
    assert (zlen l' = zlen l + zlen values) as Hlen.
    { unfold zlen. rewrite <- (length_fmap snd l'), Hl2. unfold vs'.
      destruct at_tail; rewrite length_app, ?length_reverse, length_fmap; lia. }
    destruct (runs_persist_list Hnow pk legacy id p l l' (push_values rng at_tail 0 values ll) m) as (m' & Hrun & Hup);
      try done.
    - apply Forall_forall. intros k Hk%Hin. apply elem_of_app in Hk as [Hk|Hk].
      + pose proof (la_keys _ _ _ _ _ _ _ Hat) as Hg'. rewrite Forall_forall in Hg'. by apply Hg'.
      + pose proof (draws_good rng (CPush at_tail only values)) as Hg'. rewrite Forall_forall in Hg'. by apply Hg'.
    - intros E. rewrite E in Hlen. destruct values; [done|]. unfold zlen in Hlen. simpl in Hlen. lia.
    - unfold zlen in *. lia.
    - exists m', l'. split_and!; [|done|done|by intros k ?%Hin]. eapply runs_bind; [exact Hrun|].
      rewrite (ch_size _ _ _ Hc'). rewrite <- Hl2. fold (zlen l'). rewrite length_fmap_snd. apply runs_ret. }
  unfold refines_at. cbn [lcmd_op lstep]. unfold PushOp.
  destruct (live now pk m) as [i|] eqn:El.
  - assert (l ≠ []) as Hl by (pose proof (la_sentinel _ _ _ _ _ _ _ Hat) as H; rewrite El in H; apply H).
    rewrite (bool_decide_eq_false_2 (l.*2 = [])) by (by intros ?%fmap_nil_inv). rewrite andb_false_r.
    destruct (runs_load_list Hnow pk legacy id p l m i Hat El) as [Hload Hc].
    destruct (Hpush _ Hc) as (m' & l' & Hrun & H). exists m', l'. split; [|exact H].
    eapply runs_for_write; [exact Hat|]. eapply runs_bind; [apply runs_caught, Hload|]. exact Hrun.
  - assert (l = []) as -> by (pose proof (la_sentinel _ _ _ _ _ _ _ Hat) as H; rewrite El in H; apply H).
    cbn [fmap list_fmap]. rewrite bool_decide_eq_true_2, andb_true_r by done. destruct only.
    + exists m, []. split_and!; [|by eapply list_unchanged|done|by intros k ?%not_elem_of_nil].
      eapply runs_for_write; [exact Hat|]. apply (runs_missing _ _ _ _ _ _ El), runs_ret.
    + destruct (Hpush _ chain_empty) as (m' & l' & Hrun & H). exists m', l'. split; [|exact H].
      eapply runs_for_write; [exact Hat|]. by apply runs_missing.
Qed.

(** A command on a missing list that replies without touching it. *)
Lemma refines_missing c m l :
  good m → list_at now m pk legacy id p l → (lstep c []).2 = [] →
  (live now pk m = None → Runs (lcmd_op now id rng pk legacy c) m (outcome_of (lstep c []).1) m) →
  (is_Some (live now pk m) → l ≠ [] → refines_at c m l) → refines_at c m l.
Proof.
  intros Hg Hat Hs Hmiss Hfound. destruct (live now pk m) as [i|] eqn:El.
  - apply Hfound; [eauto|]. pose proof (la_sentinel _ _ _ _ _ _ _ Hat) as H. rewrite El in H. apply H.
  - assert (l = []) as -> by (pose proof (la_sentinel _ _ _ _ _ _ _ Hat) as H; rewrite El in H; apply H).
    apply refines_read; auto.
Qed.

Lemma runs_resolve_missing {A} m (k : ElementPrefix → DbM T A) r m' :
  live now pk m = None → Runs (k (legacy_prefix legacy)) m r m' → Runs (resolve_prefix now pk legacy ≫= k) m r m'.
Proof.
  intros El Hk. eapply runs_bind; [|exact Hk]. eapply runs_bind; [by apply runs_get|].
  rewrite lookup_live_live, El. apply runs_ret.
Qed.

Lemma runs_resolve_found {A} m l (k : ElementPrefix → DbM T A) r m' :
  list_at now m pk legacy id p l → is_Some (live now pk m) → Runs (k p) m r m' →
  Runs (resolve_prefix now pk legacy ≫= k) m r m'.
Proof. intros Hat [i Hi] Hk. eapply runs_on_list; [exact Hat|congruence|done]. Qed.

Lemma sub_good l l' m :
  list_at now m pk legacy id p l → l' `sublist_of` l → Forall good_key l'.*1 ∧ Z.of_nat (length l') < 2 ^ 32 ∧
  ∀ k, k ∈ l'.*1 → k ∈ l.*1.
Proof.
  intros Hat Hs. assert (∀ k, k ∈ l'.*1 → k ∈ l.*1) as Hsub.
  { intros k Hk. eapply elem_of_sublist; [exact Hk|]. by apply fmap_sublist. }
  split_and!; [|apply sublist_length in Hs; pose proof (la_size _ _ _ _ _ _ _ Hat); lia|done].
  pose proof (la_keys _ _ _ _ _ _ _ Hat) as Hg. rewrite Forall_forall in Hg |- *. auto.
Qed.

(** What is left of the list written back, then the reply. *)
Lemma runs_rest c m l l' ll' (r : DbResult) :
  good m → list_at now m pk legacy id p l → chain l.*1 l' ll' → l' `sublist_of` l →
  ∃ m', Runs (store_rest now pk p ll' ;; mret r) m (Ret r) m' ∧
    list_updated now m pk legacy p m' l' ∧ ∀ k, k ∈ l'.*1 → k ∈ l.*1 ++ lcmd_draws rng c.
Proof.
  intros Hg Hat Hc Hsub. destruct (sub_good l l' m Hat Hsub) as (Hk & Hsz & Hin).
  destruct (runs_store_rest Hnow pk legacy id p l l' ll' m Hg Hat Hc Hk Hsz) as (m' & Hrun & Hup).
  exists m'. split_and!; [eapply runs_bind; [exact Hrun|apply runs_ret]|done|].
  intros k Hk'. apply elem_of_app. left. auto.
Qed.

Lemma refines_pop from_tail m l :
  good m → list_at now m pk legacy id p l → refines_at (CPop from_tail) m l.
Proof.
  intros Hg Hat. apply refines_missing; [done..|by destruct from_tail| |].
  { intros El. apply runs_resolve_missing; [done|]. apply runs_missing; [done|]. destruct from_tail; apply runs_ret. }
  intros Hl Hne. destruct Hl as [i Hi]. destruct (runs_load_list Hnow pk legacy id p l m i Hat Hi) as [Hload Hc].
  set (ll := mkLinked _ _ _ _ _) in *.
  assert (∃ v l' ll', (if from_tail then remove_last ll else remove_first ll) = (Some v, ll') ∧ chain l.*1 l' ll' ∧
    l' `sublist_of` l ∧ lstep (CPop from_tail) l.*2 = (Ok (ROptBytes (Some v)), l'.*2)) as (v & l' & ll' & Hrem & Hc' & Hsub & Hst).
  { destruct from_tail.
    - destruct l as [|[k v] l' _] using rev_ind; [done|]. destruct (remove_last_chain _ _ _ _ _ Hc) as (ll' & Hr & Hc').
      exists v, l', ll'. split_and!; [done..|by apply sublist_inserts_r|].
      cbn [lstep]. rewrite fmap_app. cbn [fmap list_fmap snd]. rewrite last_snoc, length_app. simpl.
      by rewrite Nat.add_sub, take_app_length.
    - destruct l as [|[k v] l']; [done|]. destruct (remove_first_chain _ _ _ _ _ Hc) as (ll' & Hr & Hc').
      exists v, l', ll'. split_and!; [done..|by apply sublist_cons|done]. }
  destruct (runs_rest (CPop from_tail) m l l' ll' (ROptBytes (Some v)) Hg Hat Hc' Hsub) as (m' & Hrun & Hup & Hin).
  exists m', l'. rewrite Hst. split_and!; [|done..]. cbn [lcmd_op].
  eapply runs_resolve_found; [exact Hat|eauto|]. eapply runs_bind; [apply runs_caught, Hload|]. cbv beta iota.
  by rewrite Hrem.
Qed.

Lemma refines_rem count value m l :
  good m → list_at now m pk legacy id p l → i64_min < count → refines_at (CRem count value) m l.
Proof.
  intros Hg Hat Hcount. apply refines_missing; [done..|by cbn; unfold lrem_of; repeat case_match| |].
  { intros El. apply runs_resolve_missing; [done|]. apply runs_missing; [done|].
    cbn [lstep]. unfold lrem_of. destruct (count <? 0), (count =? 0); apply runs_ret. }
  intros Hl Hne. destruct Hl as [i Hi]. destruct (runs_load_list Hnow pk legacy id p l m i Hat Hi) as [Hload Hc].
  set (ll := mkLinked _ _ _ _ _) in *. set (P := λ x : list Z, bool_decide (x = value)).
  assert (∃ l' ll', (if count <? 0 then remove_matching_from_tail count value ll else remove_matching count value ll)
      = Some (zlen l - zlen l', ll') ∧ chain l.*1 l' ll' ∧ l' `sublist_of` l ∧ lrem_of P count l.*2 = l'.*2)
    as (l' & ll' & Hrem & Hc' & Hsub & Hst).
  { assert (∀ n, remove_upto P n l.*2 = (remove_upto (matches value) n l).*2) as Hfm by (intros n; exact (remove_upto_fmap snd P n l)).
    unfold lrem_of. destruct (Z.ltb_spec count 0) as [Hneg|Hpos].
    - destruct (remove_from_tail_chain l.*1 count value l ll Hc ltac:(lia)) as (ll' & Hr & Hc').
      eexists _, ll'. split_and!; [rewrite Hr; f_equal; f_equal|exact Hc'| |].
      + pose proof (remove_upto_length (matches value) (Z.to_nat (- count)) (reverse l)) as Hle.
        unfold zlen. rewrite !length_reverse in *. lia.
      + rewrite <- (reverse_involutive l) at 2. apply reverse_sublist, remove_upto_sublist.
      + rewrite <- fmap_reverse, (remove_upto_fmap snd P), fmap_reverse. done.
    - set (n := if count =? 0 then length l else Z.to_nat count).
      assert (budget count 0 l n) as Hb.
      { unfold n, budget. destruct (Z.eqb_spec count 0); [left; split; [done|lia]|right; split; [lia|f_equal; lia]]. }
      destruct (remove_matching_chain l.*1 count value l ll n Hc Hb) as (ll' & Hr & Hc').
      eexists _, ll'. split_and!; [rewrite Hr; f_equal; f_equal|exact Hc'|apply remove_upto_sublist|].
      + pose proof (remove_upto_length (matches value) n l). unfold zlen. lia.
      + rewrite <- Hfm. unfold n. destruct (count =? 0); [|done]. symmetry. apply remove_upto_all. by rewrite length_fmap. }
  destruct (runs_rest (CRem count value) m l l' ll' (RInt (zlen l - zlen l')) Hg Hat Hc' Hsub) as (m' & Hrun & Hup & Hin).
  exists m', l'. cbn [lstep]. cbv zeta. fold P. rewrite Hst, !length_fmap_snd. split_and!; [|done..]. cbn [lcmd_op].
  eapply runs_resolve_found; [exact Hat|eauto|]. eapply runs_bind; [apply runs_caught, Hload|]. cbv beta iota.
  rewrite Hrem. eapply runs_bind; [apply runs_ret|]. exact Hrun.
Qed.

Lemma refines_llen m l : good m → list_at now m pk legacy id p l → refines_at CLen m l.
Proof.
  intros Hg Hat. apply refines_read; [done..|]. cbn [lcmd_op lstep outcome_of].
  pose proof (runs_read_list_sentinel Hnow pk m) as Hread. destruct Hat as [Hs _ Hk _ Hsz _ _].
  destruct (live now pk m) as [i|].
  - destruct Hs as [_ Hty Hpl _ _]. rewrite length_fmap_snd.
    destruct (sentinel_fields (first_key l None) (last_key None l) (Z.of_nat (length l))) as (Hlen & Hs & _ & _);
      [by intros j; apply first_key_good|by intros j; apply last_key_good|lia|].
    rewrite Hty, Hpl, Z.eqb_refl, Hlen, Nat.ltb_irrefl, Hs in Hread. cbn [negb] in Hread.
    eapply runs_bind; [apply runs_caught, Hread|]. apply runs_ret.
  - destruct Hs as [_ ->]. eapply runs_bind; [apply runs_caught_fail, Hread|]. apply runs_ret.
Qed.

(** A reading command that loads the list. *)
Lemma refines_load c m l missing found :
  good m → list_at now m pk legacy id p l → (∀ vs, (lstep c vs).2 = vs) →
  lcmd_op now id rng pk legacy c = (q ← resolve_prefix now pk legacy; load_or now pk q missing found) →
  Runs missing m (outcome_of (lstep c []).1) m →
  (∀ ll, chain l.*1 l ll → l ≠ [] → Runs (found ll) m (outcome_of (lstep c l.*2).1) m) → refines_at c m l.
Proof.
  intros Hg Hat Hs Hop Hmiss Hfound. apply refines_missing; [done..| |].
  - intros El. rewrite Hop. apply runs_resolve_missing; [done|]. by apply runs_missing.
  - intros Hl Hne. apply refines_read; [done..|]. rewrite Hop. eapply runs_resolve_found; [exact Hat|done|].
    eapply runs_found; [exact Hat|done|]. intros ll Hc. by apply Hfound.
Qed.

Lemma values_at l ll (ks : list Z) :
  chain l.*1 l ll →
  omap (λ i, l.*1 !! Z.to_nat i ≫= λ k, ln_value <$> ll_nodes ll !! k) ks = omap (λ i, l.*2 !! Z.to_nat i) ks.
Proof.
  intros Hc. apply list_omap_ext. apply Forall2_same_length_lookup_2; [done|]. intros n i j Hi Hj.
  rewrite Hi in Hj. injection Hj as <-. rewrite !list_lookup_fmap.
  destruct (l !! Z.to_nat i) as [[k v]|] eqn:E; [|done]. simpl.
  by destruct (chain_lookup _ _ _ _ _ _ Hc E) as (a & b & ->).
Qed.

Lemma omap_seqZ {A} (vs : list A) x n :
  0 ≤ x → 0 ≤ n → x + n ≤ zlen vs →
  omap (λ i, vs !! Z.to_nat i) (seqZ x n) = take (Z.to_nat n) (drop (Z.to_nat x) vs).
Proof.
  intros Hx Hn Hle. rewrite <- (Z2Nat.id n) in Hle |- * by done. rewrite Nat2Z.id. clear Hn.
  revert x Hx Hle. induction (Z.to_nat n) as [|k IH]; intros x Hx Hle; [by rewrite take_0|].
  rewrite seqZ_cons by lia. cbn [omap list_omap].
  destruct (lookup_lt_is_Some_2 vs (Z.to_nat x)) as [v Hv]; [unfold zlen in Hle; lia|]. rewrite Hv.
  rewrite (drop_S _ _ _ Hv). cbn [take]. f_equal.
  replace (Z.pred (Z.of_nat (S k))) with (Z.of_nat k) by lia. rewrite IH by lia.
  by replace (Z.to_nat (Z.succ x)) with (S (Z.to_nat x)) by lia.
Qed.

Lemma refines_range start stop m l :
  good m → list_at now m pk legacy id p l → refines_at (CRange start stop) m l.
Proof.
  intros Hg Hat. eapply refines_load; [done..| |]; cbn [lstep outcome_of fst].
  - unfold range_of. simpl. apply runs_ret.
  - intros ll Hc _. rewrite (ch_size _ _ _ Hc). pose proof (clamp_range_spec l.*2 start stop) as Hr.
    rewrite length_fmap_snd in Hr. change (Z.of_nat (length l)) with (zlen l).
    destruct (clamp_range (zlen l) start stop) as [[x y]|].
    + destruct Hr as (Hxy & Hy & ->). rewrite (ordered_keys_chain _ _ _ Hc). eapply runs_bind; [apply runs_ret|].
      rewrite (values_at _ _ _ Hc), omap_seqZ by (rewrite ?length_fmap_snd; lia). apply runs_ret.
    + rewrite Hr. apply runs_ret.
Qed.

Lemma refines_index i m l : good m → list_at now m pk legacy id p l → refines_at (CIndex i) m l.
Proof.
  intros Hg Hat. eapply refines_load; [done..| |]; cbn [lstep outcome_of fst].
  - pose proof (clamp_index_spec (@nil (list Z)) i) as Hi.
    destruct (clamp_index (zlen (@nil (list Z))) i) as [j|]; [unfold zlen in Hi; simpl in Hi; lia|]. rewrite Hi. apply runs_ret.
  - intros ll Hc _. rewrite (ch_size _ _ _ Hc). pose proof (clamp_index_spec l.*2 i) as Hi.
    rewrite length_fmap_snd in Hi. change (Z.of_nat (length l)) with (zlen l).
    destruct (clamp_index (zlen l) i) as [j|]; [|rewrite Hi; apply runs_ret].
    destruct Hi as (_ & _ & -> & Hj). rewrite (walk_lookup _ _ _ _ Hc). rewrite list_lookup_fmap in *.
    destruct (l !! Z.to_nat j) as [[k v]|] eqn:E; [|by destruct Hj]. simpl.
    destruct (chain_lookup _ _ _ _ _ _ Hc E) as (a & b & ->). apply runs_ret.
Qed.

Lemma lpos_loop_chain fuel l1 l2 v pos :
  NoDup (l1 ++ l2).*1 → (length l2 < fuel)%nat →
  lpos_loop fuel (nodes_of None (l1 ++ l2) None) v pos (first_key l2 None) =
    Some (Ret ((λ ix, pos + Z.of_nat ix.1) <$> list_find (λ x, x = v) l2.*2)).
Proof.
  revert l1 l2 pos. induction fuel as [|fuel IH]; intros l1 l2 pos Hd Hf; [lia|].
  destruct l2 as [|[k w] l2]; [done|]. cbn [first_key lpos_loop length] in *.
  rewrite nodes_mid by (rewrite fmap_app in Hd; by apply NoDup_mid in Hd as [? _]).
  cbn [ln_value ln_next fmap list_fmap snd list_find]. destruct (decide (w = v)) as [->|Hne].
  - rewrite bool_decide_eq_true_2 by done. simpl. by rewrite Z.add_0_r.
  - rewrite bool_decide_eq_false_2 by done. specialize (IH (l1 ++ [(k, w)]) l2 (pos + 1)).
    rewrite <- app_assoc in IH. cbn [app] in IH. rewrite IH by (done || lia). f_equal. f_equal.
    destruct (list_find _ _) as [[n x]|]; [|done]. simpl. f_equal. lia.
Qed.

Lemma refines_pos v m l : good m → list_at now m pk legacy id p l → refines_at (CPos v) m l.
Proof.
  intros Hg Hat. apply refines_missing; [done..| |].
  - intros El. apply runs_resolve_missing; [done|]. eapply runs_bind; [by apply runs_get|].
    rewrite lookup_live_live, El. apply runs_missing; [done|]. apply runs_ret.
  - intros [i Hi] Hne. apply refines_read; [done..|]. eapply runs_resolve_found; [exact Hat|eauto|].
    eapply runs_bind; [by apply runs_get|]. rewrite lookup_live_live, Hi.
    pose proof (la_sentinel _ _ _ _ _ _ _ Hat) as Hs. rewrite Hi in Hs. rewrite (ls_type _ _ _ _ _ _ _ Hs), Z.eqb_refl.
    cbn [negb]. eapply runs_found; [exact Hat|eauto|]. intros ll Hc. rewrite (walk_fuel_chain _ _ _ Hc).
    destruct Hc as [Hd Hn Hh _ _ _]. rewrite Hn, Hh. pose proof (lpos_loop_chain (S (S (length l))) [] l v 0 Hd ltac:(lia)) as Hl.
    cbn [app] in Hl. rewrite Hl. eapply runs_bind; [apply runs_ret|]. apply runs_ret.
Qed.

Lemma fmap_neq_nil {A C} (f : A → C) l : l ≠ [] → f <$> l ≠ [].
Proof. by destruct l. Qed.

(** The changed list written back, then the reply. *)
Lemma runs_persisted m l l' ll' (r : DbResult) :
  good m → list_at now m pk legacy id p l → chain l.*1 l' ll' → l' ≠ [] → Forall good_key l'.*1 →
  Z.of_nat (length l') < 2 ^ 32 →
  ∃ m', Runs (persist_list now pk p ll' ;; mret r) m (Ret r) m' ∧ list_updated now m pk legacy p m' l'.
Proof.
  intros Hg Hat Hc Hne Hk Hsz.
  destruct (runs_persist_list Hnow pk legacy id p l l' ll' m Hg Hat Hc Hk Hne Hsz) as (m' & Hrun & Hup).
  exists m'. split; [eapply runs_bind; [exact Hrun|apply runs_ret]|done].
Qed.

Lemma refines_set i v m l : good m → list_at now m pk legacy id p l → refines_at (CSet i v) m l.
Proof.
  intros Hg Hat. assert (at_index (@nil (list Z)) i = None) as Hnil.
  { unfold at_index. destruct (_ <? 0); [done|]. apply lookup_nil. }
  apply refines_missing; [done..|by cbn [lstep]; rewrite Hnil| |].
  { intros El. cbn [lstep]. rewrite Hnil. apply runs_resolve_missing; [done|]. apply runs_missing; [done|]. apply runs_fail. }
  intros [j Hj] Hne. destruct (runs_load_list Hnow pk legacy id p l m j Hat Hj) as [Hload Hc].
  set (ll := mkLinked _ _ _ _ _) in *. unfold refines_at. cbn [lcmd_op lstep]. unfold LSetOp.
  assert (∀ r m', Runs (match clamp_index (ll_size ll) i with
      | None => fail (Kv KeyNotFound)
      | Some index =>
          match walk (ll_nodes ll) (Z.to_nat index) (ll_head ll) with
          | None => fail (Kv KeyNotFound)
          | Some k => if bool_decide (is_Some (ll_nodes ll !! k)) then
              persist_list now pk p (mkLinked (ll_size ll) (ll_head ll) (ll_tail ll)
                (alter (with_value v) k (ll_nodes ll)) (ll_removed ll)) ;; mret RUnit else panic
          end end) m r m' → Runs (LSetOp now pk legacy i v) m r m') as Hop.
  { intros r m' H. eapply runs_resolve_found; [exact Hat|eauto|]. eapply runs_bind; [apply runs_caught, Hload|]. exact H. }
  pose proof (clamp_index_spec l.*2 i) as Hi. rewrite length_fmap_snd in Hi. change (zlen l) with (ll_size ll) in Hi.
  destruct (clamp_index (ll_size ll) i) as [n|].
  - destruct Hi as (Hn & Hrange & Hat' & [w Hw]). rewrite Hat', Hw, <- Hn. rewrite list_lookup_fmap in Hw.
    destruct (l !! Z.to_nat n) as [[k w']|] eqn:E; [|done]. injection Hw as ->.
    pose proof (set_value_chain _ _ _ _ _ _ v Hc E) as Hc'.
    assert ((<[Z.to_nat n := (k, v)]> l).*1 = l.*1) as Ek.
    { rewrite list_fmap_insert. cbn. apply list_insert_id. by rewrite list_lookup_fmap, E. }
    destruct (runs_persisted m l (<[Z.to_nat n := (k, v)]> l) _ RUnit Hg Hat Hc') as (m' & Hrun & Hup).
    { intros H. apply (f_equal length) in H. rewrite length_insert in H. by destruct l. }
    { rewrite Ek. apply (la_keys _ _ _ _ _ _ _ Hat). }
    { rewrite length_insert. apply (la_size _ _ _ _ _ _ _ Hat). }
    eexists m', _. split_and!; [|exact Hup|by rewrite list_fmap_insert|].
    + apply Hop. rewrite (walk_lookup _ _ _ _ Hc), E. cbn.
      destruct (chain_lookup _ _ _ _ _ _ Hc E) as (a & b & Hnode). cbn in Hnode.
      rewrite bool_decide_eq_true_2 by (rewrite Hnode; eauto). exact Hrun.
    + intros k'. rewrite Ek, elem_of_app. by left.
  - rewrite Hi. exists m, l. split_and!; [apply Hop, runs_fail|by eapply list_unchanged|done|].
    intros k' Hk'. apply elem_of_app. by left.
Qed.

Lemma refines_trim start stop m l : good m → list_at now m pk legacy id p l → refines_at (CTrim start stop) m l.
Proof.
  intros Hg Hat. apply refines_missing; [done..| |].
  { intros El. apply runs_resolve_missing; [done|]. apply runs_missing; [done|]. apply runs_ret. }
  intros [j Hj] Hne. destruct (runs_load_list Hnow pk legacy id p l m j Hat Hj) as [Hload Hc].
  set (ll := mkLinked _ _ _ _ _) in *. pose proof (clamp_range_spec l.*2 start stop) as Hr.
  rewrite length_fmap_snd in Hr. change (zlen l) with (ll_size ll) in Hr.
  unfold refines_at. cbn [lcmd_op lstep outcome_of fst snd].
  assert (∀ r m', Runs (match clamp_range (ll_size ll) start stop with
      | None => delete_all_nodes ll (prefix_bytes p) ;; del pk ;; mret RUnit
      | Some (start, stop) => ll' ← walked (trim_to start stop ll); persist_list now pk p ll' ;; mret RUnit
      end) m r m' → Runs (LTrimOp now pk legacy start stop) m r m') as Hop.
  { intros r m' H. eapply runs_resolve_found; [exact Hat|eauto|]. eapply runs_bind; [apply runs_caught, Hload|]. exact H. }
  destruct (clamp_range (ll_size ll) start stop) as [[x y]|].
  - destruct Hr as (Hxy & Hy & Hr). pose proof (la_size _ _ _ _ _ _ _ Hat) as Hsz.
    destruct (trim_to_chain _ x y l ll Hc) as (ll' & Htrim & Hc'); [done..|].
    set (l' := take _ _) in Hc'.
    assert (l' `sublist_of` l) as Hsub.
    { unfold l'. etransitivity; [apply sublist_take|apply sublist_drop]. }
    assert (l'.*2 = range_of l.*2 start stop) as Hl2 by (unfold l'; by rewrite Hr, fmap_take, fmap_drop).
    destruct (sub_good l l' m Hat Hsub) as (Hk & Hsz' & Hin).
    destruct (runs_persisted m l l' ll' RUnit Hg Hat Hc') as (m' & Hrun & Hup); [|done..|].
    { intros H. apply (f_equal length) in H. unfold l' in H. rewrite length_take, length_drop in H.
      cbn [ll ll_size] in Hy. simpl in H. lia. }
    exists m', l'. split_and!; [|done|done|intros k ?; apply elem_of_app; left; auto].
    apply Hop. rewrite Htrim. eapply runs_bind; [apply runs_ret|]. exact Hrun.
  - destruct (runs_delete_list pk legacy id p l (map_to_list (ll_nodes ll)).*1 m Hg Hat) as (m' & Hrun & Hup).
    { intros k Hk. apply (nodes_some k None l None) in Hk as [n Hn]. apply list_elem_of_fmap. exists (k, n).
      split; [done|]. by apply elem_of_map_to_list. }
    exists m', []. rewrite Hr. split_and!; [|done|done|by intros k ?%not_elem_of_nil]. apply Hop.
    intros t Ht Hm. destruct (Hrun t Ht Hm) as (t' & E & H'). exists t'. split; [|done]. revert E. clear.
    unfold delete_all_nodes, delete_removed_nodes, mbind, DbM_bind. cbn [ll_removed ll delete_nodes_loop mret DbM_ret].
    destruct (delete_nodes_loop _ _ t) as [[u|e|] t1]; [|done..]. by destruct (del pk t1) as [[[]|e|] t2]; intros [= ->].
Qed.

Lemma insert_near_Permutation {A} before (P : A → bool) x l l' : insert_near before P x l = Some l' → l' ≡ₚ x :: l.
Proof.
  revert l'. induction l as [|y l IH]; intros l'; [done|]. cbn [insert_near]. destruct (P y).
  - intros [= <-]. destruct before; [done|]. apply Permutation_swap.
  - destruct (insert_near before P x l) as [r|]; [|done]. intros [= <-]. rewrite (IH r eq_refl). apply Permutation_swap.
Qed.

Lemma refines_insert before pivot v m l :
  good m → list_at now m pk legacy id p l → NoDup (l.*1 ++ [draw rng 0]) → zlen l + 1 < 2 ^ 32 →
  refines_at (CInsert before pivot v) m l.
Proof.
  intros Hg Hat Hd Hsz. apply refines_missing; [done..| |].
  { intros El. apply runs_resolve_missing; [done|]. apply runs_missing; [done|]. apply runs_ret. }
  intros [j Hj] Hne. destruct (runs_load_list Hnow pk legacy id p l m j Hat Hj) as [Hload Hc].
  set (ll := mkLinked _ _ _ _ _) in *.
  assert (draw rng 0 ∉ l.*1) as Hk by (by apply NoDup_mid in Hd as [? _]).
  pose proof (insert_chain _ _ before pivot v l ll Hc Hk Hsz) as Hins.
  unfold refines_at. cbn [lcmd_op lstep]. unfold LInsertOp.
  assert (insert_near before (λ x, bool_decide (x = pivot)) v l.*2 =
    (λ l : list (list Z * list Z), l.*2) <$> insert_near before (matches pivot) (draw rng 0, v) l) as ->.
  { exact (insert_near_fmap snd before (λ x, bool_decide (x = pivot)) (draw rng 0, v) l). }
  destruct (insert_near before (matches pivot) (draw rng 0, v) l) as [l'|] eqn:En; cbn [fmap option_fmap option_map].
  - destruct Hins as (ll' & Hrun & Hc'). pose proof (insert_near_Permutation _ _ _ _ _ En) as Hperm.
    assert (l'.*1 ≡ₚ draw rng 0 :: l.*1) as Hp1 by (by rewrite Hperm).
    destruct (runs_persisted m l l' ll' (RInt (ll_size ll')) Hg Hat Hc') as (m' & Hrun' & Hup).
    + intros ->. by apply Permutation_nil_cons in Hperm.
    + rewrite Hp1. constructor; [apply draw_good|apply (la_keys _ _ _ _ _ _ _ Hat)].
    + rewrite Hperm. simpl. unfold zlen in Hsz. lia.
    + exists m', l'. cbn [fst snd outcome_of]. split_and!; [|done|done|].
      * eapply runs_resolve_found; [exact Hat|eauto|]. eapply runs_bind; [apply runs_caught, Hload|]. cbv beta iota.
        rewrite Hrun. eapply runs_bind; [apply runs_ret|]. cbv beta iota.
        rewrite length_fmap_snd. unfold zlen. rewrite <- (ch_size _ _ _ Hc'). exact Hrun'.
      * intros k Hk'. rewrite Hp1 in Hk'. apply elem_of_app. apply elem_of_cons in Hk' as [->|?]; [right; by left|by left].
  - exists m, l. cbn [fst snd outcome_of]. split_and!; [|by eapply list_unchanged|done|intros k ?; apply elem_of_app; by left].
    eapply runs_resolve_found; [exact Hat|eauto|]. eapply runs_bind; [apply runs_caught, Hload|]. cbv beta iota.
    rewrite Hins. eapply runs_bind; [apply runs_ret|]. apply runs_ret.
Qed.

Lemma list_refines c m l :
  good m → list_at now m pk legacy id p l → lcmd_ok c → NoDup (l.*1 ++ lcmd_draws rng c) →
  zlen l + zlen (lcmd_draws rng c) < 2 ^ 32 → refines_at c m l.
Proof.
  intros Hg Hat Hok Hd Hsz. destruct c; simpl in *.
  - apply refines_push; try done. unfold zlen in Hsz |- *. by rewrite length_fmap, length_seq in Hsz.
  - by apply refines_pop.
  - by apply refines_llen.
  - by apply refines_range.
  - by apply refines_index.
  - by apply refines_set.
  - by apply refines_rem.
  - by apply refines_trim.
  - by apply refines_insert.
  - by apply refines_pos.
Qed.
End Commands.

(** ** Several commands on a key of a session *)

Section Script.
Context {T : Type} `{!TxOps T} {now : Z} (s : Session T) (key : list Z).

(** The list under the key, whatever namespace a command would draw. *)
Definition list_here (m : gmap (list Z) Item) (l : list (list Z * list Z)) : Prop :=
  (live now (public_key s key) m = None ∧ l = []) ∨
  (is_Some (live now (public_key s key) m) ∧
   ∃ p, list_at now m (public_key s key) (private_key s key) [] p l).

(** The namespaces of [ids] are free for commands to come. *)
Record node_spare (m : gmap (list Z) Item) (ids : list (list Z)) : Prop := {
  ns_distinct : NoDup ids;
  ns_unused : Forall (λ id, id_ok id ∧ nodes_at now m (namespace_of s id) ∅) ids;
  ns_apart : ∀ i p, live now (public_key s key) m = Some i → prefix_of i (private_key s key) = Ok p →
    Forall (λ id, ∀ j k, node_key (prefix_bytes p) j ≠ node_key (namespace_of s id) k) ids
}.

Record lcall : Type := mkCall { call_id : list Z; call_rng : nat → Z * Z; call_cmd : lcmd }.
Definition call_draws (c : lcall) : list (list Z) := lcmd_draws (call_rng c) (call_cmd c).

(** The commands one after the other, an error confined to its command. *)
Fixpoint list_script (cs : list lcall) : DbM T (list (result DbResult DbError)) :=
  match cs with
  | [] => mret []
  | c :: cs' =>
      r ← caught (lcmd_op now (call_id c) (call_rng c) (public_key s key) (private_key s key) (call_cmd c));
      rs ← list_script cs';
      mret (r :: rs)
  end.

Fixpoint lrun (cs : list lcall) (vs : list (list Z)) : list (result DbResult DbError) * list (list Z) :=
  match cs with
  | [] => ([], vs)
  | c :: cs' => let '(r, vs1) := lstep (call_cmd c) vs in let '(rs, vs2) := lrun cs' vs1 in (r :: rs, vs2)
  end.

Context (Hs : session_ok s) (Hkey : key_ok key).

Lemma namespace_node_inj id1 id2 j k :
  id_ok id1 → id_ok id2 → node_key (namespace_of s id1) j = node_key (namespace_of s id2) k → id1 = id2.
Proof.
  intros H1 H2. unfold node_key, namespace_of. rewrite <- !app_assoc. intros E.
  do 3 apply app_inv_head in E. apply app_inj_1 in E as [? _]; [done|]. unfold id_ok in *. lia.
Qed.

Lemma namespace_length id : id_ok id → Z.of_nat (length (namespace_of s id)) < 2 ^ 32.
Proof.
  intros Hid. unfold session_ok, id_ok, NAMESPACE_ID_LEN in *.
  assert (length (to_dec (current_db s)) ≤ 20)%nat by (apply length_to_dec; width_lia).
  unfold namespace_of. rewrite !length_app. simpl. lia.
Qed.

Lemma namespace_not_public id k : node_key (namespace_of s id) k ≠ public_key s key.
Proof. intros E. symmetry in E. by apply (public_key_head s Hs) in E. Qed.

Lemma list_here_at m l id ids :
  list_here m l → node_spare m (id :: ids) →
  ∃ p, list_at now m (public_key s key) (private_key s key) id p l ∧
    Forall (λ id', ∀ j k, node_key (prefix_bytes p) j ≠ node_key (namespace_of s id') k) ids.
Proof.
  intros Hl [Hd Hu Ha]. apply NoDup_cons in Hd as [Hnot Hd]. apply Forall_cons in Hu as [[Hid Hun] Hu].
  destruct Hl as [[Hl ->]|[[i Hi] [p Hat]]].
  - exists (explicit_prefix (namespace_of s id)). split.
    + split; rewrite ?Hl; try done; [split; [by apply session_namespace|done]|apply NoDup_nil_2|apply namespace_not_public|].
      by apply namespace_length.
    + rewrite Forall_forall in Hu |- *. intros id' Hin j k E. destruct (Hu id' Hin) as [Hid' _].
      apply namespace_node_inj in E; [by subst|done..].
  - exists p. destruct Hat as [Hst ? ? ? ? ? ?]. rewrite Hi in Hst. split; [by split; rewrite ?Hi|].
    specialize (Ha i p Hi (ls_prefix _ _ _ _ _ _ _ Hst)). by apply Forall_cons in Ha as [_ Ha].
Qed.

Lemma list_updated_here m id p l m' l' ids :
  list_at now m (public_key s key) (private_key s key) id p l →
  Forall (λ id', ∀ j k, node_key (prefix_bytes p) j ≠ node_key (namespace_of s id') k) ids →
  node_spare m (id :: ids) → list_updated now m (public_key s key) (private_key s key) p m' l' →
  list_here m' l' ∧ node_spare m' ids.
Proof.
  intros Hat Hap [Hd Hu _] [_ Hst Hn Hk Hdist Hsz Hf].
  apply NoDup_cons in Hd as [_ Hd]. apply Forall_cons in Hu as [_ Hu]. split.
  - destruct (live now (public_key s key) m') as [i|] eqn:El; [right|by left].
    split; [eauto|]. exists p. destruct Hst as [Hst _]. split; rewrite ?El; try done; apply Hat.
  - split; [done| |].
    + rewrite Forall_forall in Hu, Hap |- *. intros id' Hin. destruct (Hu id' Hin) as [Hid' Hun]. split; [done|].
      eapply nodes_at_frame; [|exact Hun]. intros k. apply Hf; [apply namespace_not_public|].
      intros j E. by apply (Hap id' Hin j k).
    + intros i q Hl Hq. rewrite Hl in Hst. destruct Hst as [Hst _].
      rewrite (ls_prefix _ _ _ _ _ _ _ Hst) in Hq. by injection Hq as <-.
Qed.

(** Node entries under the prefix [q] belong to the list that is there. *)
Definition no_orphans (m : gmap (list Z) Item) (l : list (list Z * list Z)) (q : list Z) : Prop :=
  ∀ k, length k = KEY_LENGTH → is_Some (live now (node_key q k) m) →
    k ∈ l.*1 ∧ ∃ i p, live now (public_key s key) m = Some i ∧ prefix_of i (private_key s key) = Ok p ∧ prefix_bytes p = q.

(** The prefix of the list before, and those the commands may create. *)
Definition prefix_in_use (m : gmap (list Z) Item) : list (list Z) :=
  match live now (public_key s key) m with
  | Some i => match prefix_of i (private_key s key) with Ok p => [prefix_bytes p] | Err _ => [] end
  | None => []
  end.
Definition prefixes_of (m : gmap (list Z) Item) (ids : list (list Z)) : list (list Z) :=
  prefix_in_use m ++ (namespace_of s <$> ids).

(** Two prefixes are the same or have no node key in common. *)
Definition same_or_apart (p q : list Z) : Prop := p = q ∨ ∀ j k, node_key p j ≠ node_key q k.

Lemma nodes_at_orphans m p N k : nodes_at now m p N → length k = KEY_LENGTH → is_Some (live now (node_key p k) m) → is_Some (N !! k).
Proof. intros Hn Hk [i Hi]. specialize (Hn k Hk). rewrite Hi in Hn. by destruct (N !! k). Qed.

Lemma list_at_used m id p l :
  list_at now m (public_key s key) (private_key s key) id p l → [prefix_bytes p] = prefix_in_use m ∨
  (live now (public_key s key) m = None ∧ prefix_bytes p = namespace_of s id).
Proof.
  intros [Hst _ _ _ _ _ _]. unfold prefix_in_use. destruct (live now (public_key s key) m) as [i|].
  - left. by rewrite (ls_prefix _ _ _ _ _ _ _ Hst).
  - right. destruct Hst as [Hp _]. rewrite session_namespace in Hp by done. by injection Hp as <-.
Qed.

Lemma updated_no_orphans m id p l m' l' q :
  list_at now m (public_key s key) (private_key s key) id p l →
  list_updated now m (public_key s key) (private_key s key) p m' l' →
  same_or_apart (prefix_bytes p) q → (∀ k, node_key q k ≠ public_key s key) → no_orphans m l q → no_orphans m' l' q.
Proof.
  intros Hat Hup [<-|Hap] Hpub Ho k Hk Hl.
  - apply (nodes_at_orphans _ _ _ _ (lu_nodes _ _ _ _ _ _ _ Hup) Hk) in Hl as [x Hx]. apply nodes_key in Hx as [_ Hin].
    split; [done|]. pose proof (lu_sentinel _ _ _ _ _ _ _ Hup) as Hs'.
    destruct (live now (public_key s key) m') as [i|]; [|subst l'; by apply not_elem_of_nil in Hin].
    exists i, p. split_and!; [done|apply Hs'|done].
  - assert (live now (node_key q k) m' = live now (node_key q k) m) as E.
    { unfold live, lookup_live. rewrite (lu_frame _ _ _ _ _ _ _ Hup); [done|apply Hpub|]. intros j Ej. by apply (Hap j k). }
    rewrite E in Hl. destruct (Ho k Hk Hl) as (_ & i & p' & Hi & Hp' & <-). destruct Hat as [Hst _ _ _ _ _ _]. rewrite Hi in Hst.
    rewrite (ls_prefix _ _ _ _ _ _ _ Hst) in Hp'. injection Hp' as <-. by destruct (Hap k k).
Qed.

(** Before the first command: the nodes under the prefix in use are those of the list, and
    there are none under the namespaces to come. *)
Lemma no_orphans_before m l ids q :
  list_here m l → node_spare m ids → q ∈ prefixes_of m ids →
  no_orphans m l q ∧ Forall (λ p, same_or_apart p q) (prefixes_of m ids) ∧ (∀ k, node_key q k ≠ public_key s key).
Proof.
  intros Hl [Hd Hu Ha] Hq. unfold prefixes_of in *. rewrite Forall_forall in Hu.
  assert (∀ id1 id2, id1 ∈ ids → id2 ∈ ids → same_or_apart (namespace_of s id1) (namespace_of s id2)) as Hids.
  { intros id1 id2 H1 H2. destruct (decide (id1 = id2)) as [->|Hne]; [by left|]. right. intros j k E.
    apply namespace_node_inj in E; [done|by apply Hu..]. }
  destruct Hl as [[Hl ->]|[[i Hi] [p Hat]]].
  - unfold prefix_in_use in *. rewrite Hl in *. simpl in *. apply list_elem_of_fmap in Hq as (id & -> & Hin). split_and!.
    + intros k Hk Hx. apply (nodes_at_orphans _ _ _ _ (proj2 (Hu id Hin)) Hk) in Hx as [x Hx]. by rewrite lookup_empty in Hx.
    + apply Forall_forall. intros p (id' & -> & Hin')%list_elem_of_fmap. by apply Hids.
    + apply namespace_not_public.
  - pose proof (la_sentinel _ _ _ _ _ _ _ Hat) as Hst. rewrite Hi in Hst. pose proof (ls_prefix _ _ _ _ _ _ _ Hst) as Hp.
    unfold prefix_in_use in *. rewrite Hi, Hp in *. specialize (Ha i p eq_refl Hp). rewrite Forall_forall in Ha.
    rewrite Forall_app, Forall_singleton, Forall_fmap, Forall_forall. apply elem_of_app in Hq as [->%list_elem_of_singleton|(id & -> & Hin)%list_elem_of_fmap].
    + split_and!; [|by left| |apply Hat].
      * intros k Hk Hx. apply (nodes_at_orphans _ _ _ _ (la_nodes _ _ _ _ _ _ _ Hat) Hk) in Hx as [x Hx].
        apply nodes_key in Hx as [_ Hin]. eauto 10.
      * intros id Hin. right. intros j k E. symmetry in E. by apply (Ha id Hin) in E.
    + split_and!; [|by right; apply (Ha id Hin)|intros id' Hin'; by apply Hids|apply namespace_not_public].
      intros k Hk Hx. apply (nodes_at_orphans _ _ _ _ (proj2 (Hu id Hin)) Hk) in Hx as [x Hx]. by rewrite lookup_empty in Hx.
Qed.

Context {raw : T → gmap (list Z) Item} {ok : T → Prop} `{HT : !TxLaws T raw ok} (Hnow : clock_ok now).

Lemma runs_list_script cs m l :
  good m → list_here m l → node_spare m (call_id <$> cs) → Forall (λ c, lcmd_ok (call_cmd c)) cs →
  NoDup (l.*1 ++ concat (call_draws <$> cs)) → zlen l + zlen (concat (call_draws <$> cs)) < 2 ^ 32 →
  ∃ m' l', Runs (raw:=raw) (ok:=ok) (list_script cs) m (Ret (lrun cs l.*2).1) m' ∧
    good m' ∧ list_here m' l' ∧ l'.*2 = (lrun cs l.*2).2 ∧
    (∀ q, no_orphans m l q → Forall (λ p, same_or_apart p q) (prefixes_of m (call_id <$> cs)) →
       (∀ k, node_key q k ≠ public_key s key) → no_orphans m' l' q).
Proof.
  revert m l. induction cs as [|c cs IH]; intros m l Hg Hl Hsp Hok Hd Hsz; cbn [list_script lrun fmap list_fmap concat] in *.
  { exists m, l. split_and!; [apply runs_ret|done..]. }
  apply Forall_cons in Hok as [Hok Hoks]. destruct (list_here_at m l _ _ Hl Hsp) as (p & Hat & Hap).
  rewrite app_assoc in Hd. pose proof Hd as (Hd1 & Hd12 & Hd2)%NoDup_app.
  unfold zlen in Hsz. rewrite length_app in Hsz.
  destruct (list_refines Hnow (public_key s key) (private_key s key) (call_id c) (call_rng c) p (call_cmd c) m l)
    as (m1 & l1 & Hrun & Hup & Hv & Hin); [done..|unfold zlen, call_draws in *; lia|].
  destruct (list_updated_here m _ p l m1 l1 _ Hat Hap Hsp Hup) as [Hl1 Hsp1].
  assert (length l1 ≤ length l + length (call_draws c))%nat as Hlen.
  { rewrite <- (length_fmap fst l1), <- (length_fmap fst l), <- length_app.
    apply submseteq_length, NoDup_submseteq; [apply Hup|done]. }
  destruct (IH m1 l1) as (m2 & l2 & Hrun2 & Hg2 & Hl2 & Hv2 & Ho2); [apply Hup|done..| |unfold zlen; lia|].
  { apply NoDup_app. split_and!; [apply Hup| |done]. intros k Hk. apply Hd12. auto. }
  exists m2, l2. rewrite Hv in Hrun2, Hv2. destruct (lstep (call_cmd c) l.*2) as [r vs1].
  cbn [fst snd] in *. destruct (lrun cs vs1) as [rs vs2]. cbn [fst snd] in *.
  assert (Runs (raw:=raw) (ok:=ok)
    (caught (lcmd_op now (call_id c) (call_rng c) (public_key s key) (private_key s key) (call_cmd c))) m (Ret r) m1) as Hr.
  { destruct r; [apply runs_caught, Hrun|apply runs_caught_fail, Hrun]. }
  split; [eapply runs_bind; [exact Hr|]; eapply runs_bind; [exact Hrun2|apply runs_ret]|]. split_and!; [done..|].
  intros q Hq [Huse Hids]%Forall_app Hpub. rewrite fmap_cons in Hids. apply Forall_cons in Hids as [Hid Hids].
  assert (same_or_apart (prefix_bytes p) q) as Hpq.
  { destruct (list_at_used _ _ _ _ Hat) as [E|[_ ->]]; [|done]. rewrite <- E in Huse. by apply Forall_cons in Huse as [? _]. }
  apply Ho2; [by eapply updated_no_orphans| |done]. apply Forall_app. split; [|done].
  pose proof (lu_sentinel _ _ _ _ _ _ _ Hup) as Hs1. unfold prefix_in_use.
  destruct (live now (public_key s key) m1) as [i|]; [|by apply Forall_nil]. destruct Hs1 as [Hst _].
  rewrite (ls_prefix _ _ _ _ _ _ _ Hst). by apply Forall_singleton.
Qed.
End Script.

(** ** Two lists *)

Section TwoLists.
Context {T : Type} `{!TxOps T} {raw : T → gmap (list Z) Item} {ok : T → Prop}.
Context `{HT : !TxLaws T raw ok} {now : Z} (Hnow : clock_ok now).
#[local] Abbreviation Runs := (Runs (raw:=raw) (ok:=ok)).

(** Writing the list under [pk1] and [p1] does not touch the one under [pk2] and [p2]. *)
Definition lists_apart (pk1 : list Z) (p1 : ElementPrefix) (pk2 : list Z) (p2 : ElementPrefix) : Prop :=
  pk2 ≠ pk1 ∧ (∀ j, pk2 ≠ node_key (prefix_bytes p1) j) ∧
  (∀ k, node_key (prefix_bytes p2) k ≠ pk1) ∧ ∀ j k, node_key (prefix_bytes p2) k ≠ node_key (prefix_bytes p1) j.

Lemma list_at_frame m m' pk legacy id p l :
  m' !! pk = m !! pk → (∀ k : list Z, m' !! node_key (prefix_bytes p) k = m !! node_key (prefix_bytes p) k) →
  list_at now m pk legacy id p l → list_at now m' pk legacy id p l.
Proof.
  intros Hpk Hn [Hs Hat Hk Hd Hsz Hpub Hlen]. assert (live now pk m' = live now pk m) as Hl.
  { unfold live, lookup_live. by rewrite Hpk. }
  split; try done; [|by eapply nodes_at_frame]. rewrite Hl. destruct (live now pk m) as [i|] eqn:El; [|done].
  destruct Hs. by split; rewrite ?Hl.
Qed.

Lemma list_updated_other m pk1 legacy1 p1 m' l1 pk2 legacy2 id2 p2 l2 :
  list_updated now m pk1 legacy1 p1 m' l1 → lists_apart pk1 p1 pk2 p2 →
  list_at now m pk2 legacy2 id2 p2 l2 → list_at now m' pk2 legacy2 id2 p2 l2.
Proof.
  intros Hu (H1 & H2 & H3 & H4). apply list_at_frame.
  - by apply (lu_frame _ _ _ _ _ _ _ Hu).
  - intros k. apply (lu_frame _ _ _ _ _ _ _ Hu); [apply H3|]. intros j. apply H4.
Qed.

(** An update leaves the list, for any namespace to be drawn when it is empty. *)
Lemma list_updated_at m pk legacy id p l m' l' :
  list_at now m pk legacy id p l → list_updated now m pk legacy p m' l' → l' ≠ [] → list_at now m' pk legacy id p l'.
Proof.
  intros Hat Hu Hne. destruct Hu as [_ Hs Hn Hk Hd Hsz _]. destruct (live now pk m') as [i|] eqn:El; [|done].
  split; try done; [|apply Hat..]. rewrite El. apply Hs.
Qed.

Lemma runs_push_front pk legacy id p l m k v (r : DbResult) :
  good m → list_at now m pk legacy id p l → good_key k → k ∉ l.*1 → zlen l + 1 < 2 ^ 32 →
  let push ll := persist_list now pk p (add_first k v ll) ;; mret r in
  ∃ m', Runs (load_or now pk p (push new_empty) push) m (Ret r) m' ∧ list_updated now m pk legacy p m' ((k, v) :: l).
Proof.
  intros Hg Hat Hk Hnot Hsz push.
  assert (∃ ll, chain l.*1 l ll ∧ ∀ m', Runs (push ll) m (Ret r) m' → Runs (load_or now pk p (push new_empty) push) m (Ret r) m')
    as (ll & Hc & Hrun).
  { destruct (live now pk m) as [i|] eqn:El.
    - destruct (runs_load_list Hnow pk legacy id p l m i Hat El) as [Hload Hc]. eexists. split; [exact Hc|].
      intros m' H. eapply runs_bind; [apply runs_caught, Hload|]. exact H.
    - assert (l = []) as -> by (pose proof (la_sentinel _ _ _ _ _ _ _ Hat) as H; rewrite El in H; apply H).
      exists new_empty. split; [apply chain_empty|]. intros m' H. by apply (runs_missing Hnow). }
  destruct (runs_persisted Hnow pk legacy id p m l ((k, v) :: l) (add_first k v ll) r Hg Hat) as (m' & H & Hup).
  - by apply add_first_chain.
  - done.
  - constructor; [done|apply (la_keys _ _ _ _ _ _ _ Hat)].
  - unfold zlen in Hsz. simpl. lia.
  - exists m'. split; [|done]. by apply Hrun.
Qed.

(** The first half of RPOPLPUSH: the last element taken from the source, which is written back. *)
Lemma runs_rpop pk1 legacy1 id1 p1 l k v m :
  good m → list_at now m pk1 legacy1 id1 p1 (l ++ [(k, v)]) →
  ∃ m1, list_updated now m pk1 legacy1 p1 m1 l ∧
    ∀ (rest : list Z → DbM T DbResult) r m', Runs (rest v) m1 r m' →
    Runs (q ← resolve_prefix now pk1 legacy1;
          load_or now pk1 q (mret (ROptBytes None)) (λ src_ll,
            let '(v, src_ll') := remove_last src_ll in
            match v with None => mret (ROptBytes None) | Some value => store_rest now pk1 q src_ll' ;; rest value end))
      m r m'.
Proof.
  intros Hg Hat. pose proof (la_sentinel _ _ _ _ _ _ _ Hat) as Hs.
  destruct (live now pk1 m) as [i|] eqn:El; [|destruct Hs as [_ Hs]; by destruct l].
  destruct (runs_load_list Hnow pk1 legacy1 id1 p1 _ m i Hat El) as [Hload Hc].
  destruct (remove_last_chain _ _ _ _ _ Hc) as (ll' & Hr & Hc').
  destruct (sub_good pk1 legacy1 id1 p1 (l ++ [(k, v)]) l m Hat) as (Hk & Hsz & _); [by apply sublist_inserts_r|].
  destruct (runs_store_rest Hnow pk1 legacy1 id1 p1 (l ++ [(k, v)]) l ll' m Hg Hat Hc' Hk Hsz) as (m1 & Hrun & Hup).
  exists m1. split; [done|]. intros rest r m' Hrest. eapply runs_resolve_found; [done|exact Hat|eauto|].
  eapply runs_bind; [apply runs_caught, Hload|]. cbv beta iota. rewrite Hr. eapply runs_bind; [exact Hrun|]. auto.
Qed.

Lemma runs_rpoplpush id rng pk1 legacy1 id1 p1 l1 k v pk2 legacy2 p2 l2 m :
  good m → list_at now m pk1 legacy1 id1 p1 (l1 ++ [(k, v)]) → list_at now m pk2 legacy2 id p2 l2 →
  lists_apart pk1 p1 pk2 p2 → lists_apart pk2 p2 pk1 p1 → draw rng 0 ∉ l2.*1 → zlen l2 + 1 < 2 ^ 32 →
  ∃ m1 m', Runs (RPopLPushOp now id rng pk1 legacy1 pk2 legacy2) m (Ret (ROptBytes (Some v))) m' ∧
    list_updated now m pk1 legacy1 p1 m1 l1 ∧ list_updated now m1 pk2 legacy2 p2 m' ((draw rng 0, v) :: l2).
Proof.
  intros Hg Hat1 Hat2 Ha12 Ha21 Hk Hsz. destruct (runs_rpop _ _ _ _ _ _ _ _ Hg Hat1) as (m1 & Hup & Hrun).
  pose proof (list_updated_other _ _ _ _ _ _ _ _ _ _ _ Hup Ha12 Hat2) as Hat2'.
  destruct (runs_push_front pk2 legacy2 id p2 l2 m1 (draw rng 0) v (ROptBytes (Some v)))
    as (m' & Hpush & Hup'); [apply Hup|done|apply draw_good|done..|].
  exists m1, m'. split_and!; [|done..]. apply Hrun. by eapply runs_for_write.
Qed.

(** The same list as source and destination. *)
Lemma runs_rotate id rng pk legacy p l k v m :
  good m → list_at now m pk legacy id p (l ++ [(k, v)]) → l ≠ [] → draw rng 0 ∉ l.*1 →
  ∃ m1 m', Runs (RPopLPushOp now id rng pk legacy pk legacy) m (Ret (ROptBytes (Some v))) m' ∧
    list_updated now m pk legacy p m1 l ∧ list_updated now m1 pk legacy p m' ((draw rng 0, v) :: l).
Proof.
  intros Hg Hat Hne Hk. destruct (runs_rpop _ _ _ _ _ _ _ _ Hg Hat) as (m1 & Hup & Hrun).
  pose proof (list_updated_at _ _ _ _ _ _ _ _ Hat Hup Hne) as Hat'.
  pose proof (la_size _ _ _ _ _ _ _ Hat) as Hsz. rewrite length_app in Hsz. simpl in Hsz.
  destruct (runs_push_front pk legacy id p l m1 (draw rng 0) v (ROptBytes (Some v)))
    as (m' & Hpush & Hup'); [apply Hup|done|apply draw_good|done|unfold zlen; lia|].
  exists m1, m'. split_and!; [|done..]. apply Hrun. by eapply runs_for_write.
Qed.
End TwoLists.

(** ** Loading ends *)

Section LoadEnds.
Context {T : Type} `{!TxOps T} {raw : T → gmap (list Z) Item} {ok : T → Prop}.
Context `{HT : !TxLaws T raw ok} {now : Z} (Hnow : clock_ok now).
#[local] Abbreviation Runs := (Runs (raw:=raw) (ok:=ok)).

(** Every node read so far is an entry of the store. *)
Definition read_from (m : gmap (list Z) Item) (p : list Z) (nodes : gmap (list Z) ListNode) : Prop :=
  ∀ k, is_Some (nodes !! k) → is_Some (m !! node_key p k).

Lemma read_from_size m p nodes : read_from m p nodes → (size nodes ≤ size m)%nat.
Proof.
  intros Hr. rewrite <- !length_map_to_list, <- (length_fmap fst (map_to_list nodes)), <- (length_fmap fst (map_to_list m)).
  rewrite <- (length_fmap (node_key p)). apply submseteq_length, NoDup_submseteq.
  - apply NoDup_fmap_2; [intros j k; apply node_key_inj|apply NoDup_fst_map_to_list].
  - intros x (k & -> & Hk)%list_elem_of_fmap. apply list_elem_of_fmap in Hk as ([k' n] & -> & Hk).
    apply elem_of_map_to_list in Hk. destruct (Hr k') as [i Hi]; [eauto|].
    apply list_elem_of_fmap. exists (node_key p k', i). split; [done|]. by apply elem_of_map_to_list.
Qed.

Lemma runs_load_step_any p m nodes current :
  ∃ r, Runs (load_step now p (nodes, current)) m r m ∧
    match r with
    | Ret (inl (nodes', _)) => ∃ node, nodes' = <[current := node]> nodes ∧ nodes !! current = None ∧
        is_Some (m !! node_key p current)
    | Panic => False
    | _ => True
    end.
Proof.
  unfold load_step. destruct (is_zero_key current).
  { eexists. split; [apply runs_ret|done]. }
  destruct (bool_decide_reflect (is_Some (nodes !! current))) as [Hin|Hnot].
  { eexists. split; [apply runs_ret|done]. }
  destruct (live now (node_key p current) m) as [i|] eqn:El.
  2: { exists (Fail (Kv KeyNotFound)). split; [|done]. eapply runs_bind; [by apply runs_get|].
       rewrite lookup_live_live, El. apply runs_bind_fail, runs_fail. }
  assert (∀ r, Runs (match parse_node current (item_value i) with
      | None => fail (Kv KeyNotFound)
      | Some node => let nodes' := <[current := node]> nodes in
          match ln_next node with Some nx => mret (inl (nodes', nx)) | None => mret (inr nodes') end end) m r m →
    Runs (r ← get now (node_key p current); item ← try_kv r;
      match parse_node current (item_value item) with
      | None => fail (Kv KeyNotFound)
      | Some node => let nodes' := <[current := node]> nodes in
          match ln_next node with Some nx => mret (inl (nodes', nx)) | None => mret (inr nodes') end end) m r m) as Hop.
  { intros r H. eapply runs_bind; [by apply runs_get|]. rewrite lookup_live_live, El. eapply runs_bind; [apply runs_ret|]. exact H. }
  destruct (parse_node current (item_value i)) as [node|].
  2: { exists (Fail (Kv KeyNotFound)). split; [|done]. apply Hop, runs_fail. }
  cbv zeta in Hop. destruct (ln_next node) as [nx|]; eexists; (split; [apply Hop, runs_ret|]); [|done].
  exists node. split_and!; [done|by apply eq_None_not_Some|]. apply live_Some in El as [El _]. eauto.
Qed.

Lemma runs_load_loop_ends p m n nodes current :
  read_from m p nodes → (size m < size nodes + n)%nat →
  ∃ r, Runs (loop_nat (load_step now p) n (nodes, current)) m r m ∧
    (∀ a, r ≠ Ret (inl a)) ∧ r ≠ Panic.
Proof.
  revert nodes current. induction n as [|n IH]; intros nodes current Hr Hn.
  { pose proof (read_from_size _ _ _ Hr). lia. }
  cbn [loop_nat]. destruct (runs_load_step_any p m nodes current) as ([[[nodes' nx]|res]|e|] & Hrun & Hst); [..|done].
  - destruct Hst as (node & -> & Hnone & Hin). destruct (IH (<[current := node]> nodes) nx) as (r & Hrun' & Hr').
    + intros k. rewrite lookup_insert. case_decide; [by subst|apply Hr].
    + rewrite map_size_insert_None by done. lia.
    + exists r. split; [|done]. by eapply runs_bind.
  - eexists. split; [eapply runs_bind; [exact Hrun|apply runs_ret]|done].
  - exists (Fail e). split; [|done]. by apply runs_bind_fail.
Qed.

Lemma runs_load_ends pk p m :
  Z.of_nat (size m) < 2 ^ 128 → ∃ r, Runs (load_list now pk p) m r m ∧ r ≠ Panic.
Proof.
  intros Hm. pose proof (runs_read_list_sentinel Hnow pk m) as Hread.
  destruct (match live now pk m with Some _ => _ | None => _ end) as [[[size head] tail]|e|] eqn:E.
  - destruct (runs_load_loop_ends p m (Pos.to_nat load_fuel) ∅ head) as (r & Hrun & Hr & Hp).
    { intros k [? ?]. done. } { pose proof (load_fuel_enough _ Hm). rewrite map_size_empty. lia. }
    apply runs_loop in Hrun. destruct r as [[a|nodes]|e|]; [by destruct (Hr a)|..|done].
    + eexists. split; [eapply runs_bind; [exact Hread|]; eapply runs_bind; [exact Hrun|]; apply runs_ret|done].
    + exists (Fail e). split; [|done]. eapply runs_bind; [exact Hread|]. by apply runs_bind_fail.
  - exists (Fail e). split; [|done]. by apply runs_bind_fail.
  - by repeat case_match.
Qed.
End LoadEnds.

(** ** Properties *)

(** C18: a sequence of list commands refines the same operations on a sequence of values.
    Run one after the other in a transaction (errors confined to their command), LPUSH,
    RPUSH, LPUSHX, RPUSHX, LPOP, RPOP, LLEN, LRANGE, LINDEX, LSET, LREM, LTRIM, LINSERT
    and LPOS on one key reply what the machine [lrun] replies, and the store ends with a
    list that holds the machine's values, chain, head, tail and size right in both
    directions. The key is there exactly if the list is not empty, and no node is left
    behind: under the prefix the list had before and under every namespace the commands
    could draw, a node entry is live only if it is a node of the list the key now holds.
    (The module comment of list.rs says that the nodes of an emptied list stay; the code
    deletes them.) The node keys and namespaces drawn are not in use and distinct; fewer
    than 2^32 elements. *)
Theorem list_script_refines T `{!TxOps T} (raw : T → gmap (list Z) Item) (ok : T → Prop) (now : Z)
    (s : Session T) (key : list Z) (cs : list lcall) (m : gmap (list Z) Item) (l : list (list Z * list Z)) :
  TxLaws T raw ok → clock_ok now → session_ok s → key_ok key →
  good m → list_here (now:=now) s key m l → node_spare (now:=now) s key m (call_id <$> cs) →
  Forall (λ c, lcmd_ok (call_cmd c)) cs →
  NoDup (l.*1 ++ concat (call_draws <$> cs)) → zlen l + zlen (concat (call_draws <$> cs)) < 2 ^ 32 →
  ∃ m' l', Runs (raw:=raw) (ok:=ok) (list_script (now:=now) s key cs) m (Ret (lrun cs l.*2).1) m' ∧
    good m' ∧ list_here (now:=now) s key m' l' ∧ l'.*2 = (lrun cs l.*2).2 ∧
    (live now (public_key s key) m' = None ↔ (lrun cs l.*2).2 = []) ∧
    Forall (no_orphans (now:=now) s key m' l') (prefixes_of (now:=now) s key m (call_id <$> cs)).
Proof.
  intros HT Hnow Hs Hk Hg Hl Hsp Hok Hd Hsz.
  destruct (runs_list_script (raw:=raw) (ok:=ok) s key Hs Hnow cs m l Hg Hl Hsp Hok Hd Hsz) as (m' & l' & Hrun & Hg' & Hl' & Hv & Ho).
  exists m', l'. split_and!; [done..| |].
  - rewrite <- Hv. destruct Hl' as [[-> ->]|[[i Hi] [p [Hst _ _ _ _ _ _]]]]; [done|]. rewrite Hi in *. split; [done|].
    intros E%fmap_nil_inv. by destruct (ls_nonempty _ _ _ _ _ _ _ Hst).
  - apply Forall_forall. intros q Hq. destruct (no_orphans_before s key Hs m l _ q Hl Hsp Hq) as (H1 & H2 & H3). by apply Ho.
Qed.

Definition demo_rng (epoch : Z) (n : nat) : Z * Z := (epoch, Z.of_nat n).
Definition sample_calls : list lcall :=
  [mkCall (id_of 1) (demo_rng 1) (CPush true false [B "a"; B "b"; B "a"]);
   mkCall (id_of 2) (demo_rng 2) (CPush false false [B "x"; B "y"]);
   mkCall (id_of 3) (demo_rng 3) (CRem (-1) (B "a"));
   mkCall (id_of 4) (demo_rng 4) (CInsert false (B "x") (B "z"));
   mkCall (id_of 5) (demo_rng 5) (CSet (-1) (B "c"));
   mkCall (id_of 6) (demo_rng 6) (CSet 9 (B "c"));
   mkCall (id_of 7) (demo_rng 7) (CTrim 1 (-1));
   mkCall (id_of 8) (demo_rng 8) (CPop false);
   mkCall (id_of 9) (demo_rng 9) (CRange 0 (-1)); mkCall (id_of 10) (demo_rng 10) (CTrim 5 9)].

Lemma node_spare_empty {T} (s : Session T) key now ids :
  NoDup ids → Forall id_ok ids → node_spare (now:=now) s key ∅ ids.
Proof.
  intros Hd Hi. split; [done| |done]. eapply Forall_impl; [exact Hi|]. intros id Hid. split; [done|].
  intros k _. unfold live, lookup_live. by rewrite !lookup_empty.
Qed.

Lemma list_script_refines_witness :
  ∃ m' l', Runs (raw:=id) (ok:=λ _, True) (list_script (now:=5) demo_session (B "l") sample_calls) ∅
    (Ret [Ok (RInt 3); Ok (RInt 5); Ok (RInt 1); Ok (RInt 5); Ok RUnit; Err (Kv KeyNotFound); Ok RUnit;
          Ok (ROptBytes (Some (B "x"))); Ok (RList [B "z"; B "a"; B "c"]); Ok RUnit]) m' ∧
    list_here (now:=5) demo_session (B "l") m' l' ∧ live 5 (B "0:l") m' = None ∧
    no_orphans (now:=5) demo_session (B "l") m' l' (namespace_of demo_session (id_of 1)).
Proof.
  destruct (list_script_refines (gmap (list Z) Item) id (λ _, True) 5 demo_session (B "l") sample_calls ∅ [])
    as (m' & l' & H & _ & Hh & _ & Hgone & Ho).
  - apply map_laws.
  - unfold clock_ok. width_lia.
  - unfold session_ok. simpl. width_lia.
  - vm_compute. done.
  - apply good_empty.
  - by left.
  - apply node_spare_empty; apply (bool_decide_unpack _); vm_compute; exact I.
  - repeat (constructor; [cbn; try done; width_lia|]). constructor.
  - apply (bool_decide_unpack _). vm_compute. exact I.
  - vm_compute. done.
  - exists m', l'. split; [exact H|]. split; [exact Hh|]. split.
    + apply Hgone. vm_compute. reflexivity.
    + rewrite Forall_forall in Ho. apply Ho. vm_compute. left.
Defined.

(** What one list command leaves alone. Besides replying and changing the values as
    the machine does, a command changes no entry of the store but the key itself and
    node entries under the prefix it resolves to; afterwards the node entries under that
    prefix are exactly those of the list, even when the list is gone; and a key that is
    still there keeps its prefix and its expiry. *)
Theorem list_command_frame T `{!TxOps T} (raw : T → gmap (list Z) Item) (ok : T → Prop) (now : Z)
    (pk legacy id : list Z) (rng : nat → Z * Z) (p : ElementPrefix) (c : lcmd)
    (m : gmap (list Z) Item) (l : list (list Z * list Z)) :
  TxLaws T raw ok → clock_ok now → good m → list_at now m pk legacy id p l → lcmd_ok c →
  NoDup (l.*1 ++ lcmd_draws rng c) → zlen l + zlen (lcmd_draws rng c) < 2 ^ 32 →
  ∃ m' l', Runs (raw:=raw) (ok:=ok) (lcmd_op now id rng pk legacy c) m (outcome_of (lstep c l.*2).1) m' ∧
    l'.*2 = (lstep c l.*2).2 ∧
    (∀ k : list Z, k ≠ pk → (∀ j, k ≠ node_key (prefix_bytes p) j) → m' !! k = m !! k) ∧
    (∀ k : list Z, length k = KEY_LENGTH → is_Some (live now (node_key (prefix_bytes p) k) m') ↔ k ∈ l'.*1) ∧
    match live now pk m' with
    | Some i => l' ≠ [] ∧ prefix_of i legacy = Ok p ∧ item_expire_ts i = (live now pk m ≫= item_expire_ts)
    | None => l' = []
    end.
Proof.
  intros HT Hnow Hg Hat Hok Hd Hsz.
  destruct (list_refines (raw:=raw) (ok:=ok) Hnow pk legacy id rng p c m l Hg Hat Hok Hd Hsz)
    as (m' & l' & Hrun & [_ Hs Hn _ _ _ Hf] & Hv & _).
  exists m', l'. split_and!; [done..| |].
  - intros k Hk. specialize (Hn k Hk). split.
    + intros [i Hi]. rewrite Hi in Hn. destruct (nodes_of None l' None !! k) as [x|] eqn:E; [|done].
      by apply nodes_key in E as [_ ?].
    + intros Hin. destruct (nodes_some k None l' None Hin) as [x Hx]. rewrite Hx in Hn.
      destruct (live now (node_key (prefix_bytes p) k) m'); [eauto|done].
  - destruct (live now pk m') as [i|]; [|done]. destruct Hs as [[] ?]. done.
Qed.

(** A missing list in an empty store. *)
Definition demo_prefix (n : Z) : ElementPrefix := explicit_prefix (B "+0:" ++ id_of n).
Lemma demo_empty_at name n : (∀ k, node_key (prefix_bytes (demo_prefix n)) k ≠ B "0:" ++ name) →
  list_at 5 ∅ (B "0:" ++ name) (B "-0:" ++ name) (id_of n) (demo_prefix n) [].
Proof.
  intros Hne. split; try done. by apply NoDup_nil_2.
Qed.

Lemma list_command_frame_witness :
  ∃ m' l', Runs (raw:=id) (ok:=λ _, True)
      (lcmd_op 5 (id_of 1) (demo_rng 1) (B "0:l") (B "-0:l") (CPush true false [B "a"; B "b"])) ∅ (Ret (RInt 2)) m' ∧
    l'.*2 = [B "a"; B "b"] ∧
    ∀ k : list Z, length k = KEY_LENGTH → is_Some (live 5 (node_key (B "+0:" ++ id_of 1) k) m') ↔ k ∈ l'.*1.
Proof.
  destruct (list_command_frame (gmap (list Z) Item) id (λ _, True) 5 (B "0:l") (B "-0:l") (id_of 1) (demo_rng 1)
    (demo_prefix 1) (CPush true false [B "a"; B "b"]) ∅ []) as (m' & l' & H & Hv & _ & Hn & _).
  - apply map_laws.
  - unfold clock_ok. width_lia.
  - apply good_empty.
  - by apply (demo_empty_at (B "l") 1).
  - done.
  - apply (bool_decide_unpack _). vm_compute. exact I.
  - vm_compute. done.
  - exists m', l'. split; [exact H|]. split; [exact Hv|exact Hn].
Defined.

(** RPOPLPUSH moves the last element of the source to the head of the destination. It
    replies with that element; afterwards the source holds its other elements (its key
    gone if there are none), the destination has the element in front of its own, and
    nothing else of the store changed. The two lists do not share keys. *)
Theorem rpoplpush_spec T `{!TxOps T} (raw : T → gmap (list Z) Item) (ok : T → Prop) (now : Z)
    (id : list Z) (rng : nat → Z * Z) (pk1 legacy1 id1 pk2 legacy2 k v : list Z) (p1 p2 : ElementPrefix)
    (l1 l2 : list (list Z * list Z)) (m : gmap (list Z) Item) :
  TxLaws T raw ok → clock_ok now → good m →
  list_at now m pk1 legacy1 id1 p1 (l1 ++ [(k, v)]) → list_at now m pk2 legacy2 id p2 l2 →
  lists_apart pk1 p1 pk2 p2 → lists_apart pk2 p2 pk1 p1 → draw rng 0 ∉ l2.*1 → zlen l2 + 1 < 2 ^ 32 →
  ∃ m', Runs (raw:=raw) (ok:=ok) (RPopLPushOp now id rng pk1 legacy1 pk2 legacy2) m (Ret (ROptBytes (Some v))) m' ∧
    (if bool_decide (l1 = []) then live now pk1 m' = None else list_at now m' pk1 legacy1 id1 p1 l1) ∧
    list_at now m' pk2 legacy2 id p2 ((draw rng 0, v) :: l2) ∧
    ∀ q : list Z, q ≠ pk1 → q ≠ pk2 → (∀ j, q ≠ node_key (prefix_bytes p1) j) →
      (∀ j, q ≠ node_key (prefix_bytes p2) j) → m' !! q = m !! q.
Proof.
  intros HT Hnow Hg Hat1 Hat2 Ha12 Ha21 Hk Hsz.
  destruct (runs_rpoplpush (raw:=raw) (ok:=ok) Hnow id rng _ _ _ _ _ _ _ _ _ _ _ _ Hg Hat1 Hat2 Ha12 Ha21 Hk Hsz)
    as (m1 & m' & Hrun & Hup1 & Hup2).
  exists m'. split_and!; [done| | |].
  - case_bool_decide as E.
    + pose proof (lu_sentinel _ _ _ _ _ _ _ Hup1) as Hs. destruct Ha21 as (Hne & Hnk & _ & _).
      unfold live, lookup_live. rewrite (lu_frame _ _ _ _ _ _ _ Hup2) by done.
      destruct (live now pk1 m1) as [i|] eqn:El; [|exact El]. destruct Hs as [[] _]. done.
    + eapply list_updated_other; [exact Hup2|exact Ha21|]. by eapply list_updated_at.
  - eapply list_updated_at; [|exact Hup2|done]. by eapply list_updated_other.
  - intros q H1 H2 H3 H4. by rewrite (lu_frame _ _ _ _ _ _ _ Hup2), (lu_frame _ _ _ _ _ _ _ Hup1).
Qed.

Lemma rpoplpush_spec_witness :
  ∃ m m', good m ∧
    Runs (raw:=id) (ok:=λ _, True) (RPopLPushOp 5 (id_of 2) (demo_rng 2) (B "0:l") (B "-0:l") (B "0:k") (B "-0:k")) m
      (Ret (ROptBytes (Some (B "b")))) m' ∧
    list_at 5 m' (B "0:k") (B "-0:k") (id_of 2) (demo_prefix 2) [(draw (demo_rng 2) 0, B "b")].
Proof.
  assert (clock_ok 5) as Hnow by (unfold clock_ok; width_lia).
  pose proof map_laws as HT.
  destruct (list_refines (raw:=id) (ok:=λ _, True) Hnow (B "0:l") (B "-0:l") (id_of 1) (demo_rng 1) (demo_prefix 1)
    (CPush true false [B "a"; B "b"]) ∅ [] good_empty) as (m & l & _ & Hup & Hv & _).
  { by apply (demo_empty_at (B "l") 1). } { done. }
  { apply (bool_decide_unpack _). vm_compute. exact I. } { vm_compute. done. }
  destruct l as [|[ka va] [|[kb vb] []]]; try done. injection Hv as -> ->.
  assert (list_at 5 m (B "0:k") (B "-0:k") (id_of 2) (demo_prefix 2) []) as Hat2.
  { eapply list_updated_other; [exact Hup| |by apply (demo_empty_at (B "k") 2)]. by split_and!. }
  destruct (rpoplpush_spec (gmap (list Z) Item) id (λ _, True) 5 (id_of 2) (demo_rng 2) (B "0:l") (B "-0:l") (id_of 1)
    (B "0:k") (B "-0:k") kb (B "b") (demo_prefix 1) (demo_prefix 2) [(ka, B "a")] [] m) as (m' & H & _ & H' & _).
  - exact HT.
  - exact Hnow.
  - apply Hup.
  - eapply list_updated_at; [|exact Hup|done]. by apply (demo_empty_at (B "l") 1).
  - exact Hat2.
  - by split_and!.
  - by split_and!.
  - by apply not_elem_of_nil.
  - vm_compute. done.
  - exists m, m'. split; [apply Hup|]. split; [exact H|exact H'].
Defined.

(** Loading a list ends on every store. Whatever the entries hold, a chain of links
    that runs in a circle or into a missing or malformed node included, [load_list]
    returns a list or an error, as long as the store has fewer entries than there are
    node keys. *)
Theorem load_list_ends T `{!TxOps T} (raw : T → gmap (list Z) Item) (ok : T → Prop) (now : Z)
    (pk p : list Z) (m : gmap (list Z) Item) :
  TxLaws T raw ok → clock_ok now → Z.of_nat (size m) < 2 ^ 128 →
  ∃ r, Runs (raw:=raw) (ok:=ok) (load_list now pk p) m r m ∧ r ≠ Panic.
Proof. intros HT Hnow. by apply runs_load_ends. Qed.

(** A list whose only node is its own successor. *)
Definition circular : gmap (list Z) Item :=
  let k := replicate 16 1 in
  list_to_map [(B "0:l", mkItem (B "0:l") (be_bytes 4 1 ++ k ++ k) 1 None);
               (node_key (B "-0:l") k, mkItem (node_key (B "-0:l") k) (B "v" ++ ZERO_KEY ++ k) 1 None)].

Lemma load_list_ends_witness :
  ∃ r, Runs (raw:=id) (ok:=λ _, True) (load_list 5 (B "0:l") (B "-0:l")) circular r circular ∧ r ≠ Panic.
Proof.
  apply (load_list_ends (gmap (list Z) Item) id (λ _, True)).
  - apply map_laws.
  - unfold clock_ok. width_lia.
  - vm_compute. done.
Defined.

(** Walking a chain that was loaded from links in a circle does not end, so LRANGE on it
    never replies. *)
Lemma circular_walk_diverges :
  match load_list 5 (B "0:l") (B "-0:l") circular with
  | (Ret ll, _) => ordered_keys ll = None
  | _ => False
  end.
Proof. vm_compute. reflexivity. Qed.
