(* ===== verification/Keys.v ===== *)
(** * Keyspace commands: src/redis/keys.rs

    Commands on keys of any type: EXISTS, MGET, MOVE, RENAME, RENAMENX, EXPIRE, PEXPIRE,
    PERSIST, TTL, PTTL, TYPE, DEL, SCAN and KEYS. Proved: DEL removes a key with all its
    elements or nodes and nothing else; RENAME gives a value another name with its
    contents, its elements where they are and its expiry; a SCAN followed from cursor to
    cursor visits every key once; EXPIRE, TTL and PERSIST agree on the expiry. *)
From S2P Require Import Prelude Bytes Resp Pattern Kv Registry Op Namespace Session Elements Ranges Linked ListCmds.
Import MapTx.

(** ** Types *)

Definition type_name (meta : Z) : list Z :=
  if meta =? type_byte VString then B "string"
  else if meta =? type_byte VList then B "list"
  else if meta =? type_byte VSet then B "set"
  else if meta =? type_byte VSortedSet then B "zset"
  else if meta =? type_byte VHash then B "hash"
  else if meta =? type_byte VStream then B "stream"
  else if meta =? type_byte VVectorSet then B "vectorset"
  else if meta =? type_byte VBloom then B "bloom"
  else if meta =? type_byte VJson then B "json"
  else B "unknown".

(** [type_byte] of a type name. *)
Definition type_byte_of (name : list Z) : option Z :=
  if bool_decide (name = B "string") then Some (type_byte VString)
  else if bool_decide (name = B "list") then Some (type_byte VList)
  else if bool_decide (name = B "set") then Some (type_byte VSet)
  else if bool_decide (name = B "zset") then Some (type_byte VSortedSet)
  else if bool_decide (name = B "hash") then Some (type_byte VHash)
  else if bool_decide (name = B "stream") then Some (type_byte VStream)
  else if bool_decide (name = B "vectorset") then Some (type_byte VVectorSet)
  else if bool_decide (name = B "bloom") then Some (type_byte VBloom)
  else if bool_decide (name = B "json") then Some (type_byte VJson)
  else None.

Definition element_prefixes (ty : Z) (prefix : list Z) : list (list Z) :=
  if (ty =? type_byte VSet) || (ty =? type_byte VHash) || (ty =? type_byte VStream) || (ty =? type_byte VBloom)
  then [prefix ++ [0]]
  else if ty =? type_byte VSortedSet then [prefix ++ B ":score:"; prefix ++ B ":member:"]
  else [].

Definition has_elements (ty : Z) : bool :=
  existsb (λ t, type_byte t =? ty) [VList; VSet; VSortedSet; VHash; VStream; VBloom].

(** The prefix derived from the name of a public key. *)
Definition legacy_of (public : list Z) : list Z := B "-" ++ public.

Section Ops.
Context {T : Type} `{!TxOps T} (now : Z).

(** ** Reading *)

Fixpoint exists_loop (keys : list (list Z)) (count : Z) : DbM T Z :=
  match keys with
  | [] => mret count
  | key :: keys' =>
      old ← get_opt now key;
      exists_loop keys' (match old with Some _ => count + 1 | None => count end)
  end.
Definition ExistsOp (keys : list (list Z)) : DbM T DbResult := n ← exists_loop keys 0; mret (RInt n).

Fixpoint mget_loop (keys : list (list Z)) : DbM T (list (option (list Z))) :=
  match keys with
  | [] => mret []
  | key :: keys' =>
      old ← get_opt now key;
      values ← mget_loop keys';
      mret ((item_value <$> old) :: values)
  end.
Definition MGetOp (keys : list (list Z)) : DbM T DbResult := values ← mget_loop keys; mret (RListOpt values).

Inductive TimeUnit : Type := Seconds | Millis.

Definition ttl_value (key : list Z) (time_unit : TimeUnit) : DbM T Z :=
  r ← get now key;
  mret (match r with
        | Ok item =>
            match item_ttl now item with
            | Some ttl => match time_unit with Seconds => as_i64 (ttl / 1000000000) | Millis => as_i64 (as_millis ttl) end
            | None => -1
            end
        | Err _ => -2
        end).
Definition TtlOp (key : list Z) : DbM T DbResult := n ← ttl_value key Seconds; mret (RInt n).
Definition PTtlOp (key : list Z) : DbM T DbResult := n ← ttl_value key Millis; mret (RInt n).

Definition TypeOp (key : list Z) : DbM T DbResult :=
  old ← get_opt now key;
  mret (RString (match old with Some item => type_name (base_type (item_meta item)) | None => B "none" end)).

(** ** Expiry *)

(** [u64::try_from(n).ok().map(unit).unwrap_or(Duration::ZERO)]. *)
Definition duration_or_zero (unit : Z → Z) (n : Z) : Z := if n <? 0 then 0 else unit n.

Definition rewrite_ttl (key : list Z) (item : Item) (ttl : Z) : DbM T DbResult :=
  set now (with_ttl (with_metadata (entry_new key (item_value item)) (item_meta item)) ttl) ;;
  mret (RInt 1).

Definition ExpireOp (key : list Z) (seconds : Z) : DbM T DbResult :=
  old ← get_opt now key;
  match old with
  | None => mret (RInt 0)
  | Some item => rewrite_ttl key item (duration_or_zero from_secs seconds)
  end.
Definition PExpireOp (key : list Z) (milliseconds : Z) : DbM T DbResult :=
  old ← get_opt now key;
  match old with
  | None => mret (RInt 0)
  | Some item => rewrite_ttl key item (duration_or_zero from_millis milliseconds)
  end.
Definition PersistOp (key : list Z) : DbM T DbResult :=
  old ← get_opt now key;
  match old with
  | None => mret (RInt 0)
  | Some item =>
      if (match item_ttl now item with Some ttl => is_zero ttl | None => false end) then mret (RInt 0)
      else
        set now (with_metadata (entry_new key (item_value item)) (item_meta item)) ;;
        mret (RInt 1)
  end.

(** ** Elements of a value *)

Fixpoint move_items (from to : list Z) (items : list Item) : DbM T () :=
  match items with
  | [] => mret ()
  | i :: items' =>
      set now (with_metadata (entry_new (to ++ drop (length from) (item_key i)) (item_value i)) (item_meta i)) ;;
      del (item_key i) ;;
      move_items from to items'
  end.
Definition move_prefix (from to : list Z) : DbM T () := items ← scan now from; move_items from to items.

Fixpoint move_prefixes (pairs : list (list Z * list Z)) : DbM T () :=
  match pairs with [] => mret () | (from, to) :: pairs' => move_prefix from to ;; move_prefixes pairs' end.
Definition move_elements (public_key : list Z) (ty : Z) (from to : list Z) : DbM T () :=
  if ty =? type_byte VList then move_nodes now public_key from to
  else move_prefixes (zip (element_prefixes ty from) (element_prefixes ty to)).

Fixpoint delete_keys (keys : list (list Z)) : DbM T () :=
  match keys with [] => mret () | k :: keys' => del k ;; delete_keys keys' end.
Fixpoint clear_prefixes (prefixes : list (list Z)) : DbM T () :=
  match prefixes with
  | [] => mret ()
  | p :: prefixes' => items ← scan now p; delete_keys (item_key <$> items) ;; clear_prefixes prefixes'
  end.
Definition clear_compound_entries (public_key node_prefix : list Z) (metadata : Z) : DbM T () :=
  if base_type metadata =? type_byte VList then delete_nodes now public_key node_prefix
  else clear_prefixes (element_prefixes (base_type metadata) node_prefix).

(** ** Deleting, renaming and moving *)

Fixpoint del_loop (keys : list (list Z * list Z)) (count : Z) : DbM T Z :=
  match keys with
  | [] => mret count
  | (public_key, legacy) :: keys' =>
      old ← get_opt now public_key;
      match old with
      | None => del_loop keys' count
      | Some item =>
          prefix ← try_db (prefix_of item legacy);
          clear_compound_entries public_key (prefix_bytes prefix) (item_meta item) ;;
          del public_key ;;
          del_loop keys' (count + 1)
      end
  end.
Definition DelOp (keys : list (list Z * list Z)) : DbM T DbResult := n ← del_loop keys 0; mret (RInt n).

Definition rename_entry (old new : list Z) (item : Item) : DbM T () :=
  if bool_decide (old = new) then mret ()
  else
    existing ← get_opt now new;
    match existing with
    | Some e =>
        prefix ← try_db (prefix_of e (legacy_of new));
        clear_compound_entries new (prefix_bytes prefix) (item_meta e)
    | None => mret ()
    end ;;
    source ← try_db (prefix_of item (legacy_of old));
    let '(value, metadata) :=
      if explicit source || negb (has_elements (base_type (item_meta item))) then (item_value item, item_meta item)
      else encode_sentinel (item_value item) (item_meta item) (explicit_prefix (prefix_bytes source)) in
    set now (keep_ttl_of now (with_metadata (entry_new new value) metadata) item) ;;
    del old.

Definition RenameOp (old new : list Z) : DbM T DbResult :=
  i ← get_opt now old;
  match i with
  | None => mret (ROptUnit None)
  | Some item => rename_entry old new item ;; mret (ROptUnit (Some ()))
  end.
Definition RenameNXOp (old new : list Z) : DbM T DbResult :=
  e ← get_opt now new;
  match e with
  | Some _ => mret (ROptInt (Some 0))
  | None =>
      i ← get_opt now old;
      match i with
      | None => mret (ROptInt None)
      | Some item => rename_entry old new item ;; mret (ROptInt (Some 1))
      end
  end.

Definition MoveOp (source target : list Z) (target_db : Z) (same_db : bool) : DbM T DbResult :=
  if same_db then fail (Redis (B "source and destination objects are the same"))
  else
    s ← get_opt now source;
    match s with
    | None => mret (RInt 0)
    | Some item =>
        t ← get_opt now target;
        match t with
        | Some _ => mret (RInt 0)
        | None =>
            from ← try_db (prefix_of item (legacy_of source));
            to ← (if explicit from then
                    match with_db (prefix_bytes from) target_db with
                    | Ret (Some p) => mret (explicit_prefix p)
                    | Ret None => fail corrupt_prefix
                    | Fail e => fail e
                    | Panic => panic
                    end
                  else mret (legacy_prefix (legacy_of target)));
            move_elements source (base_type (item_meta item)) (prefix_bytes from) (prefix_bytes to) ;;
            vm ← (if explicit to
                  then pl ← try_db (payload item); mret (encode_sentinel pl (base_type (item_meta item)) to)
                  else mret (item_value item, item_meta item));
            set now (keep_ttl_of now (with_metadata (entry_new target vm.1) vm.2) item) ;;
            del source ;;
            mret (RInt 1)
        end
    end.

(** ** Listing *)

Definition KeysOp (prefix pattern : list Z) : DbM T DbResult :=
  r ← prefix_iter now prefix;
  it ← try_kv r;
  let names := (λ i, drop (length prefix) (item_key i)) <$> List.filter (λ i, negb (is_expired now i)) (iter_items it) in
  match iter_err it with
  | Some e => fail (Kv e)
  | None => mret (RList (List.filter (is_match (glob_keyspace pattern)) names))
  end.

(** What SCAN keeps of a page so far: the keys, the last name seen, whether it came to the
    end, and the items not looked at yet. *)
Record ScanPage : Type := mkPage {
  pg_keys : list (list Z); pg_last : list Z; pg_exhausted : bool; pg_rest : list Item }.

Definition scan_wanted (pattern : option (list Z)) (type_filter : option Z) (name : list Z) (meta : Z) : bool :=
  (match pattern with Some p => is_match (glob_keyspace p) name | None => true end) &&
  (match type_filter with Some want => base_type meta =? want | None => true end).

Fixpoint scan_loop (prefix : list Z) (count : Z) (pattern : option (list Z)) (type_filter : option Z)
    (items : list Item) (keys : list (list Z)) (last_seen : list Z) : ScanPage :=
  if Z.of_nat (length keys) <? count then
    match items with
    | [] => mkPage keys last_seen true []
    | item :: items' =>
        if negb (starts_with prefix (item_key item)) then mkPage keys last_seen true items'
        else
          let name := drop (length prefix) (item_key item) in
          scan_loop prefix count pattern type_filter items'
            (if scan_wanted pattern type_filter name (item_meta item) then keys ++ [name] else keys) name
    end
  else mkPage keys last_seen false items.

(** The reply made of the items an iterator yields: the next cursor and the keys. *)
Definition scan_reply (prefix : list Z) (count : Z) (pattern : option (list Z)) (type_filter : option Z)
    (items : list Item) : DbResult :=
  let page := scan_loop prefix count pattern type_filter items [] [] in
  let exhausted := pg_exhausted page ||
    ((Z.of_nat (length (pg_keys page)) =? count) &&
     match pg_rest page with [] => true | i :: _ => negb (starts_with prefix (item_key i)) end) in
  let cursor := if exhausted then [] else default (pg_last page) (last (pg_keys page)) in
  RScan cursor (pg_keys page).

Definition ScanOp (prefix cursor : list Z) (count0 : Z) (pattern : option (list Z)) (type_filter : option Z)
  : DbM T DbResult :=
  let count := Z.max count0 1 in
  r ← range_iter now (if bool_decide (cursor = []) then Included prefix else Excluded (prefix ++ cursor)) Unbounded;
  it ← try_kv r;
  mret (scan_reply prefix count pattern type_filter (iter_items it)).
End Ops.

(** ** Replies *)

Definition IntWire : WireOp := pure_wire (λ r,
  match r with Ok (RInt n) => Integer n | Ok _ => Error (B "ERR internal error: bad int result") | Err e => err_resp e end).
Definition MGetWire : WireOp := pure_wire (λ r,
  match r with
  | Ok (RListOpt vs) => Array (Some (BulkString <$> vs))
  | Ok _ => Error (B "ERR internal error: bad bulk result")
  | Err e => err_resp e
  end).
Definition RenameWire : WireOp := pure_wire (λ r,
  match r with
  | Ok (ROptUnit (Some _)) => SimpleString (B "OK")
  | Ok (ROptUnit None) => Error (B "ERR no such key")
  | Ok _ => Error (B "ERR internal error: bad rename result")
  | Err e => err_resp e
  end).
Definition RenameNXWire : WireOp := pure_wire (λ r,
  match r with
  | Ok (ROptInt (Some n)) => Integer n
  | Ok (ROptInt None) => Error (B "no such key")
  | Ok _ => Error (B "ERR internal error: bad renamenx result")
  | Err e => err_resp e
  end).
Definition TypeWire : WireOp := pure_wire (λ r,
  match r with
  | Ok (RString name) => SimpleString name
  | Ok _ => Error (B "ERR internal error: bad type result")
  | Err e => err_resp e
  end).
Definition KeysWire : WireOp := pure_wire (λ r,
  match r with
  | Ok (RList names) => Array (Some ((λ n, BulkString (Some n)) <$> names))
  | Ok _ => Error (B "ERR internal error: bad keys result")
  | Err e => err_resp e
  end).
Definition cursor_reply (cursor : list Z) : list Z := if bool_decide (cursor = []) then B "0" else cursor.
Definition ScanWire : WireOp := pure_wire (λ r,
  match r with
  | Ok (RScan cursor keys) =>
      Array (Some [BulkString (Some (cursor_reply cursor));
                   Array (Some ((λ k, BulkString (Some k)) <$> keys))])
  | Ok _ => Error (B "ERR internal error: bad scan result")
  | Err e => err_resp e
  end).
Definition NullWire : WireOp := pure_wire (λ _, Array None).

(** ** Command functions *)
Module Cmd.
Section Cmd.
Context {T : Type} `{!TxOps T} (s : Session T).

Definition exists_ (keys : list (list Z)) : QueuedOp T :=
  mkQueuedOp (tx_op (λ now, ExistsOp now (public_key s <$> keys))) IntWire false true false (Some (keys_sv s keys)).
Definition mget (keys : list (list Z)) : QueuedOp T :=
  mkQueuedOp (tx_op (λ now, MGetOp now (public_key s <$> keys))) MGetWire false true false (Some (keys_sv s keys)).
Definition move_op (key : list Z) (target_db : Z) : QueuedOp T :=
  on_key s key (λ now, MoveOp now (public_key s key) (public_key_for_db target_db key) target_db
                         (target_db =? current_db s)) IntWire true.
Definition both_keys (k1 k2 : list Z) : option (list (list Z)) :=
  Some [from_utf8_lossy (public_key s k1); from_utf8_lossy (public_key s k2)].
Definition rename (old_key new_key : list Z) : QueuedOp T :=
  mkQueuedOp (tx_op (λ now, RenameOp now (public_key s old_key) (public_key s new_key))) RenameWire true true false
    (both_keys old_key new_key).
Definition rename_nx (old_key new_key : list Z) : QueuedOp T :=
  mkQueuedOp (tx_op (λ now, RenameNXOp now (public_key s old_key) (public_key s new_key))) RenameNXWire true true false
    (both_keys old_key new_key).
Definition expire (key : list Z) (seconds : Z) : QueuedOp T :=
  on_key s key (λ now, ExpireOp now (public_key s key) seconds) IntWire true.
Definition pexpire (key : list Z) (milliseconds : Z) : QueuedOp T :=
  on_key s key (λ now, PExpireOp now (public_key s key) milliseconds) IntWire true.
Definition persist (key : list Z) : QueuedOp T :=
  on_key s key (λ now, PersistOp now (public_key s key)) IntWire true.
Definition ttl (key : list Z) : QueuedOp T := on_key s key (λ now, TtlOp now (public_key s key)) IntWire false.
Definition pttl (key : list Z) : QueuedOp T := on_key s key (λ now, PTtlOp now (public_key s key)) IntWire false.
Definition key_type (key : list Z) : QueuedOp T := on_key s key (λ now, TypeOp now (public_key s key)) TypeWire false.
Definition del (keys : list (list Z)) : QueuedOp T :=
  mkQueuedOp (tx_op (λ now, DelOp now ((λ k, (public_key s k, private_key s k)) <$> keys))) IntWire true true false
    (Some (keys_sv s keys)).
Definition cursor_arg (cursor : list Z) : list Z := if bool_decide (cursor = B "0") then [] else cursor.
Definition scan (cursor : list Z) (count : Z) (pattern : option (list Z)) (type_filter : option Z) : QueuedOp T :=
  mkQueuedOp (tx_op (λ now, ScanOp now (prefix s) (cursor_arg cursor) count pattern type_filter)) ScanWire false true false None.
Definition keys (pattern : list Z) : QueuedOp T :=
  mkQueuedOp (tx_op (λ now, KeysOp now (prefix s) pattern)) KeysWire false true false None.
Definition idle_time : QueuedOp T := mkQueuedOp NoOp NullWire false true false None.
End Cmd.
End Cmd.

(** ** Expiry *)

(** The item with another expiry. *)
Definition with_expiry (i : Item) (key : list Z) (ts : option Z) : Item := mkItem key (item_value i) (item_meta i) ts.

Section Expiry.
Context {T : Type} `{!TxOps T} {raw : T → gmap (list Z) Item} {ok : T → Prop}.
Context `{HT : !TxLaws T raw ok} {now : Z} (Hnow : clock_ok now).
#[local] Abbreviation Runs := (Runs (raw:=raw) (ok:=ok)).

Lemma runs_rewrite_ttl key i ttl m :
  0 ≤ ttl → as_millis ttl ≤ i64_max →
  Runs (rewrite_ttl now key i ttl) m (Ret (RInt 1))
    (<[key := with_expiry i key (if is_zero ttl then None else Some (saturating_add now (as_millis ttl)))]> m).
Proof. intros H0 H1. eapply runs_bind; [|apply runs_ret]. apply (runs_set Hnow). by split. Qed.

Lemma runs_expire_ops key n m :
  Runs (ExpireOp now key n) m (match live now key m with
    | None => Ret (RInt 0) | Some i => Ret (RInt 1) end)
    (match live now key m with
     | None => m
     | Some i => <[key := with_expiry i key (if n <=? 0 then None else Some (saturating_add now (n * 1000)))]> m end) ∨
  i64_max < n * 1000.
Proof.
  destruct (Z.lt_ge_cases i64_max (n * 1000)) as [|Hn]; [by right|left].
  eapply runs_bind; [by apply runs_get_opt|]. destruct (live now key m) as [i|]; [|apply runs_ret].
  assert (∀ ttl, 0 ≤ ttl → as_millis ttl ≤ i64_max →
    (if n <=? 0 then None else Some (saturating_add now (n * 1000)))
      = (if is_zero ttl then None else Some (saturating_add now (as_millis ttl))) →
    Runs (rewrite_ttl now key i ttl) m (Ret (RInt 1))
      (<[key := with_expiry i key (if n <=? 0 then None else Some (saturating_add now (n * 1000)))]> m)) as H.
  { intros ttl H0 H1 ->. by apply runs_rewrite_ttl. }
  assert (as_millis (from_secs n) = n * 1000) as Hms.
  { unfold as_millis, from_secs. replace (n * 1000000000) with (n * 1000 * 1000000) by lia. apply Z.div_mul. lia. }
  unfold duration_or_zero. destruct (Z.ltb_spec n 0).
  - apply H; [done|by vm_compute|]. destruct (Z.leb_spec n 0); [done|lia].
  - apply H; [unfold from_secs; lia|by rewrite Hms|]. rewrite Hms. unfold is_zero, from_secs.
    destruct (Z.leb_spec n 0), (Z.eqb_spec (n * 1000000000) 0); try done; lia.
Qed.

Lemma runs_ttl_value key unit m :
  Runs (ttl_value now key unit) m (Ret (match live now key m with
    | None => -2
    | Some i => match item_ttl now i with
                | None => -1
                | Some ttl => match unit with Seconds => as_i64 (ttl / 1000000000) | Millis => as_i64 (as_millis ttl) end
                end end)) m.
Proof.
  eapply runs_bind; [by apply runs_get|]. rewrite lookup_live_live. destruct (live now key m); apply runs_ret.
Qed.

Lemma runs_persist key m :
  Runs (PersistOp now key) m (match live now key m with None => Ret (RInt 0) | Some _ => Ret (RInt 1) end)
    (match live now key m with None => m | Some i => <[key := with_expiry i key None]> m end).
Proof.
  eapply runs_bind; [by apply runs_get_opt|]. destruct (live now key m) as [i|] eqn:El; [|apply runs_ret].
  apply live_Some in El as [_ El]. unfold is_expired in El. rewrite El.
  eapply runs_bind; [|apply runs_ret]. apply (runs_set Hnow). by apply entry_ok_no_ttl.
Qed.
End Expiry.

(** C32: EXPIRE, TTL and PERSIST agree. On a live key, EXPIRE with a positive number of
    seconds replies 1 and keeps value and type; from then on TTL and PTTL reply the
    seconds and milliseconds left, the key is there until the deadline and gone from it
    on; PERSIST replies 1 and takes the expiry away again, after which TTL replies -1;
    no other key changes. The deadline fits the [i64] of milliseconds. *)
Theorem expire_ttl_persist T `{!TxOps T} (raw : T → gmap (list Z) Item) (ok : T → Prop) (now : Z)
    (key : list Z) (n : Z) (m : gmap (list Z) Item) (i : Item) :
  TxLaws T raw ok → clock_ok now → live now key m = Some i → 0 < n → now + n * 1000 ≤ i64_max →
  ∃ m1 m2, Runs (raw:=raw) (ok:=ok) (ExpireOp now key n) m (Ret (RInt 1)) m1 ∧
    (∀ later, now ≤ later < now + n * 1000 →
       (∃ j, live later key m1 = Some j ∧ item_value j = item_value i ∧ item_meta j = item_meta i) ∧
       Runs (raw:=raw) (ok:=ok) (TtlOp later key) m1 (Ret (RInt ((now + n * 1000 - later) / 1000))) m1 ∧
       Runs (raw:=raw) (ok:=ok) (PTtlOp later key) m1 (Ret (RInt (now + n * 1000 - later))) m1) ∧
    (∀ later, now + n * 1000 ≤ later ≤ i64_max → live later key m1 = None) ∧
    Runs (raw:=raw) (ok:=ok) (PersistOp now key) m1 (Ret (RInt 1)) m2 ∧
    Runs (raw:=raw) (ok:=ok) (TtlOp now key) m2 (Ret (RInt (-1))) m2 ∧
    m2 !! key = Some (with_expiry i key None) ∧ ∀ k, k ≠ key → m1 !! k = m !! k ∧ m2 !! k = m !! k.
Proof.
  intros HT Hnow Hl Hn Hmax. unfold clock_ok in Hnow.
  set (j := with_expiry i key (Some (now + n * 1000))). set (m1 := <[key := j]> m).
  assert (∀ later, 0 < later ≤ i64_max → is_expired later j = (now + n * 1000 <=? later)) as Hexp.
  { intros later Hlater. rewrite is_expired_spec; [done..|]. unfold item_ok, j. simpl. unfold in_i64. width_lia. }
  assert (∀ later, now ≤ later < now + n * 1000 → live later key m1 = Some j) as Hlive.
  { intros later Hlater. apply live_Some. split; [apply lookup_insert_eq|]. rewrite Hexp by lia. apply Z.leb_gt. lia. }
  assert (∀ later, now ≤ later < now + n * 1000 → item_ttl later j = Some (from_millis (now + n * 1000 - later))) as Httl.
  { intros later Hlater. unfold item_ttl, j. simpl. f_equal. f_equal. width_lia. }
  exists m1, (<[key := with_expiry i key None]> m1). split_and!.
  - destruct (runs_expire_ops (raw:=raw) (ok:=ok) (now:=now) Hnow key n m) as [H|]; [|lia]. rewrite Hl in H.
    destruct (Z.leb_spec n 0); [lia|]. replace (saturating_add now (n * 1000)) with (now + n * 1000) in H by width_lia.
    exact H.
  - intros later Hlater. split_and!; [exists j; split; [by apply Hlive|done]|..].
    + eapply runs_bind; [apply runs_ttl_value; unfold clock_ok; lia|]. rewrite Hlive, Httl by done.
      unfold from_millis. replace ((now + n * 1000 - later) * 1000000 / 1000000000) with ((now + n * 1000 - later) / 1000).
      2: { rewrite <- (Z.div_mul_cancel_r (now + n * 1000 - later) 1000 1000000) by lia. done. }
      rewrite as_i64_id; [apply runs_ret|]. unfold in_i64.
      assert (0 ≤ (now + n * 1000 - later) / 1000) by (apply Z.div_pos; lia).
      assert ((now + n * 1000 - later) / 1000 ≤ now + n * 1000 - later) by (apply Z.div_le_upper_bound; lia). width_lia.
    + eapply runs_bind; [apply runs_ttl_value; unfold clock_ok; lia|]. rewrite Hlive, Httl by done.
      rewrite as_millis_from_millis, as_i64_id; [apply runs_ret|]. unfold in_i64. width_lia.
  - intros later Hlater. destruct (live later key m1) as [x|] eqn:E; [|done]. exfalso.
    apply live_Some in E as [E1 E2]. unfold m1 in E1. rewrite lookup_insert_eq in E1. injection E1 as <-.
    rewrite Hexp in E2 by lia. apply Z.leb_gt in E2. lia.
  - pose proof (runs_persist (raw:=raw) (ok:=ok) (now:=now) Hnow key m1) as H. rewrite Hlive in H by lia. exact H.
  - eapply runs_bind; [by apply runs_ttl_value|].
    rewrite (proj2 (live_Some _ _ _ (with_expiry i key None))); [apply runs_ret|]. by rewrite lookup_insert_eq.
  - apply lookup_insert_eq.
  - intros k Hk. unfold m1. by rewrite !lookup_insert_ne.
Qed.

Lemma expire_ttl_persist_witness :
  ∃ m1 m2, Runs (raw:=id) (ok:=λ _, True) (ExpireOp 5 (B "0:k") 10) {[B "0:k" := mkItem (B "0:k") (B "v") 0 None]}
      (Ret (RInt 1)) m1 ∧
    Runs (raw:=id) (ok:=λ _, True) (TtlOp 2005 (B "0:k")) m1 (Ret (RInt 8)) m1 ∧
    live 10005 (B "0:k") m1 = None ∧
    Runs (raw:=id) (ok:=λ _, True) (TtlOp 5 (B "0:k")) m2 (Ret (RInt (-1))) m2.
Proof.
  destruct (expire_ttl_persist (gmap (list Z) Item) id (λ _, True) 5 (B "0:k") 10
    {[B "0:k" := mkItem (B "0:k") (B "v") 0 None]} (mkItem (B "0:k") (B "v") 0 None))
    as (m1 & m2 & H1 & H2 & H3 & _ & H5 & _).
  - apply map_laws.
  - unfold clock_ok. width_lia.
  - vm_compute. reflexivity.
  - lia.
  - width_lia.
  - exists m1, m2. split; [exact H1|]. split; [exact (proj1 (proj2 (H2 2005 ltac:(lia))))|].
    split; [apply H3; width_lia|exact H5].
Defined.

(** EXPIRE with a number of seconds that is not positive takes the expiry away instead of
    the key, and PERSIST on a key without an expiry replies 1. *)
Lemma expire_nonpositive_persists :
  (ExpireOp 5 (B "0:k") (-1) ({[B "0:k" := mkItem (B "0:k") (B "v") 0 (Some 99)]} : gmap (list Z) Item))
  = (Ret (RInt 1), {[B "0:k" := mkItem (B "0:k") (B "v") 0 None]}).
Proof. vm_compute. reflexivity. Qed.
Lemma persist_without_expiry :
  fst (PersistOp 5 (B "0:k") ({[B "0:k" := mkItem (B "0:k") (B "v") 0 None]} : gmap (list Z) Item)) = Ret (RInt 1).
Proof. vm_compute. reflexivity. Qed.

(** ** Deleting *)
Lemma foldl_delete_lookup (ks : list (list Z)) (m : gmap (list Z) Item) (k : list Z) :
  foldl (λ m k, delete k m) m ks !! k = if bool_decide (k ∈ ks) then None else m !! k.
Proof.
  revert m. induction ks as [|j ks IH]; intros m; cbn [foldl].
  - by rewrite bool_decide_eq_false_2 by apply not_elem_of_nil.
  - rewrite IH. destruct (decide (k = j)) as [->|Hne].
    + rewrite (bool_decide_eq_true_2 (j ∈ j :: ks)) by (by left). case_bool_decide; [done|apply lookup_delete_eq].
    + rewrite lookup_delete_ne by done. erewrite (bool_decide_ext (k ∈ j :: ks)); [done|]. rewrite elem_of_cons. naive_solver.
Qed.

Lemma foldl_delete_good (ks : list (list Z)) (m : gmap (list Z) Item) : good m → good (foldl (λ m k, delete k m) m ks).
Proof. revert m. induction ks as [|j ks IH]; intros m Hg; [done|]. by apply IH, good_delete. Qed.

(** The keys under one of the prefixes. *)
Definition under (prefixes : list (list Z)) (k : list Z) : Prop := ∃ q, q ∈ prefixes ∧ starts_with q k = true.

(** The entries a value of the item [i] under [pk] consists of besides its key: the nodes
    of a list, which are found by following its chain, and for a value of any other type
    everything under the prefixes of its type (none for a string or a JSON document, one
    for a set, a hash, a stream or a Bloom filter, two for a sorted set). *)
Inductive owned (now : Z) (m : gmap (list Z) Item) (pk legacy : list Z) (i : Item) (p : ElementPrefix)
  : (list Z → Prop) → Prop :=
| owned_scanned :
    prefix_of i legacy = Ok p → base_type (item_meta i) ≠ type_byte VList →
    ¬ under (element_prefixes (base_type (item_meta i)) (prefix_bytes p)) pk →
    owned now m pk legacy i p (under (element_prefixes (base_type (item_meta i)) (prefix_bytes p)))
| owned_nodes l :
    list_at now m pk legacy [] p l → live now pk m = Some i →
    owned now m pk legacy i p (λ k, ∃ j, length j = KEY_LENGTH ∧ k = node_key (prefix_bytes p) j).

(** What a hash or a set owns are its elements. *)
Lemma under_elements p k : under [p ++ [0]] k ↔ ∃ f, k = element_key p f.
Proof.
  unfold under. split.
  - intros (q & ->%list_elem_of_singleton & [f ->]%starts_with_spec). exists f. unfold element_key. by rewrite app_assoc.
  - intros [f ->]. exists (p ++ [0]). split; [by left|]. apply starts_with_spec. exists f. unfold element_key. by rewrite app_assoc.
Qed.

Lemma scanned_key_here now q m items k :
  keyed m → item_data <$> items = item_data <$> scan_prefix now q m →
  k ∈ item_key <$> items ↔ starts_with q k = true ∧ is_Some (live now k m).
Proof.
  intros Hk Hi. assert (item_key <$> items = item_key <$> scan_prefix now q m) as ->.
  { apply (f_equal (fmap (λ d : list Z * list Z * Z, d.1.1))) in Hi. rewrite <- !list_fmap_compose in Hi. exact Hi. }
  rewrite list_elem_of_fmap. split.
  - intros (i & -> & ([j Hj] & Hs & Hx)%scan_prefix_elem). split; [done|]. exists i. apply live_Some. by rewrite (Hk _ _ Hj).
  - intros [Hs [i [Hl Hx]%live_Some]]. exists i. rewrite (Hk _ _ Hl). split; [done|]. apply scan_prefix_elem.
    rewrite (Hk _ _ Hl). eauto.
Qed.

Section Deleting.
Context {T : Type} `{!TxOps T} {raw : T → gmap (list Z) Item} {ok : T → Prop}.
Context `{HT : !TxLaws T raw ok, HS : !TxScanLaws T raw ok} {now : Z} (Hnow : clock_ok now).
#[local] Abbreviation Runs := (Runs (raw:=raw) (ok:=ok)).

Lemma runs_delete_keys ks m : Runs (delete_keys ks) m (Ret ()) (foldl (λ m k, delete k m) m ks).
Proof.
  revert m. induction ks as [|k ks IH]; intros m; cbn [delete_keys foldl]; [apply runs_ret|].
  eapply runs_bind; [apply runs_del|apply IH].
Qed.

(** The entries under some prefixes, cleared. *)
Lemma runs_clear_prefixes prefixes m :
  good m →
  ∃ m', Runs (clear_prefixes now prefixes) m (Ret ()) m' ∧ good m' ∧
    (∀ k, under prefixes k ∨ live now k m = None → live now k m' = None) ∧ ∀ k, ¬ under prefixes k → m' !! k = m !! k.
Proof.
  revert m. induction prefixes as [|q prefixes IH]; intros m Hg.
  { exists m. split_and!; [apply runs_ret|done| |done]. intros k [(q & []%not_elem_of_nil & _)|]; done. }
  set (gone := item_key <$> scan_prefix now q m).
  destruct (IH (foldl (λ m k, delete k m) m gone)) as (m' & Hrun & Hg' & Hgone & Hkeep); [by apply foldl_delete_good|].
  pose proof (scanned_key_here now q m (scan_prefix now q m)) as Hsc.
  exists m'. split_and!; [|done|..].
  - cbn [clear_prefixes]. apply (runs_scan_bind Hnow). intros items Hi.
    assert (item_key <$> items = gone) as ->.
    { apply (f_equal (fmap (λ d : list Z * list Z * Z, d.1.1))) in Hi. rewrite <- !list_fmap_compose in Hi. exact Hi. }
    eapply runs_bind; [apply runs_delete_keys|exact Hrun].
  - intros k Hk. apply Hgone.
    destruct (decide (live now k (foldl (λ m k, delete k m) m gone) = None)) as [|Hlive]; [by right|left].
    unfold live, lookup_live in Hlive. rewrite foldl_delete_lookup in Hlive. case_bool_decide as Hin; [done|].
    change (live now k m ≠ None) in Hlive. destruct Hk as [(q' & [->|Hq']%elem_of_cons & Hs)|]; [|by exists q'|done].
    destruct Hin. apply Hsc; [apply Hg|done|]. split; [done|]. by apply not_eq_None_Some.
  - intros k Hk. rewrite Hkeep, foldl_delete_lookup, bool_decide_eq_false_2; [done|..].
    + intros [Hs _]%Hsc; [|apply Hg|done]. apply Hk. exists q. split; [by left|done].
    + intros (q' & Hq' & Hs). apply Hk. exists q'. split; [by right|done].
Qed.

(** The nodes of a chain, followed and deleted. *)
Lemma runs_follow_delete (p : list Z) (l1 l2 : list (list Z * list Z)) (n : nat) (m m0 : gmap (list Z) Item) :
  Forall good_key (l1 ++ l2).*1 → NoDup (l1 ++ l2).*1 → nodes_at now m0 p (nodes_of None (l1 ++ l2) None) →
  (∀ k, k ∈ l2.*1 → m !! node_key p k = m0 !! node_key p k) → (length l2 ≤ n)%nat →
  Runs (follow_nodes now (λ _ key _, del key) p n (link_bytes (first_key l2 None))) m (Ret ())
    (foldl (λ m k, delete k m) m (node_key p <$> l2.*1)).
Proof.
  revert l1 n m. induction l2 as [|[k v] l2 IH]; intros l1 n m Hg Hd Hat Hsame Hn.
  { destruct n; [apply runs_ret|]. cbn [follow_nodes first_key]. rewrite bool_decide_eq_true_2 by done. apply runs_ret. }
  destruct n as [|n]; [simpl in Hn; lia|]. cbn [follow_nodes first_key fmap list_fmap fst foldl].
  change (link_bytes (Some k)) with k.
  pose proof Hg as Hg'. rewrite fmap_app in Hg'. apply Forall_app in Hg' as [Hg1 [[Hkl Hkz] Hg2]%Forall_cons].
  pose proof Hd as Hd'. rewrite fmap_app in Hd'. apply NoDup_mid in Hd' as (Hk1 & Hk2 & _).
  rewrite bool_decide_eq_false_2 by (intros ->; done).
  pose proof (Hat k Hkl) as Hv. rewrite nodes_mid in Hv by done.
  assert (live now (node_key p k) m = live now (node_key p k) m0) as El.
  { unfold live, lookup_live. rewrite Hsame; [done|]. by left. }
  eapply runs_bind; [by apply runs_get|]. rewrite lookup_live_live, El.
  destruct (live now (node_key p k) m0) as [i|]; [|done]. injection Hv as Hv.
  eapply runs_bind; [apply runs_ret|]. rewrite Hv. unfold node_bytes. cbn [ln_value ln_prev ln_next].
  assert (length (link_bytes (last_key None l1)) = KEY_LENGTH) as L1 by (apply length_link; intros j; by apply last_key_good).
  assert (length (link_bytes (first_key l2 None)) = KEY_LENGTH) as L2 by (apply length_link; intros j; by apply first_key_good).
  rewrite !length_app, L1, L2. unfold KEY_LENGTH. destruct (Nat.ltb_spec (length v + (16 + 16)) (2 * 16)) as [|_]; [lia|].
  eapply runs_bind; [apply runs_del|].
  rewrite app_assoc, drop_app_length' by (rewrite length_app, L1; unfold KEY_LENGTH; lia).
  rewrite cons_middle, app_assoc in Hg, Hd, Hat. apply (IH (l1 ++ [(k, v)])); [done..| |simpl in Hn; lia].
  intros j Hj. rewrite lookup_delete_ne; [apply Hsame; by right|]. intros E%node_key_inj. by subst.
Qed.

Lemma runs_delete_nodes pk legacy id p l m i :
  list_at now m pk legacy id p l → live now pk m = Some i →
  Runs (delete_nodes now pk (prefix_bytes p)) m (Ret ())
    (foldl (λ m k, delete k m) m (node_key (prefix_bytes p) <$> l.*1)).
Proof.
  intros [Hs Hat Hg Hd Hsz _ _] Hl. rewrite Hl in Hs. destruct Hs as [_ Hty Hpl _ Hne].
  destruct (sentinel_fields (first_key l None) (last_key None l) (Z.of_nat (length l))) as (Hlen & Hsize & Hh & _);
    [by intros j; apply first_key_good|by intros j; apply last_key_good|lia|].
  pose proof (runs_read_list_sentinel Hnow pk m) as Hread.
  rewrite Hl, Hty, Hpl, Z.eqb_refl, Hlen, Nat.ltb_irrefl, Hsize, Hh in Hread. cbn [negb] in Hread.
  eapply runs_bind; [exact Hread|]. cbv beta iota. rewrite Nat2Z.id.
  by apply (runs_follow_delete _ [] l _ m m).
Qed.

(** Clearing a value deletes exactly the entries it owns. *)
Lemma runs_clear_owned (pk legacy : list Z) (i : Item) (p : ElementPrefix) (m : gmap (list Z) Item) (own : list Z → Prop) :
  good m → live now pk m = Some i → owned now m pk legacy i p own →
  ∃ m', Runs (clear_compound_entries now pk (prefix_bytes p) (item_meta i)) m (Ret ()) m' ∧ good m' ∧
    prefix_of i legacy = Ok p ∧ (∀ k, own k → k ≠ pk ∧ live now k m' = None) ∧ ∀ k, ¬ own k → m' !! k = m !! k.
Proof.
  intros Hg Hl Hown. unfold clear_compound_entries.
  destruct Hown as [Hp Hty Hpk|l Hat Hl'].
  - destruct (runs_clear_prefixes (element_prefixes (base_type (item_meta i)) (prefix_bytes p)) m Hg)
      as (m' & Hrun & Hg' & Hgone & Hkeep).
    exists m'. rewrite (proj2 (Z.eqb_neq _ _)) by done. split_and!; [done..| |done].
    intros k Hk. split; [by intros ->|]. by apply Hgone; left.
  - pose proof (la_sentinel _ _ _ _ _ _ _ Hat) as Hs. rewrite Hl in Hs.
    rewrite (ls_type _ _ _ _ _ _ _ Hs), Z.eqb_refl.
    eexists. split_and!; [by eapply runs_delete_nodes|by apply foldl_delete_good|apply Hs|..].
    + intros k (j & Hj & ->). split; [apply Hat|]. pose proof (la_nodes _ _ _ _ _ _ _ Hat j Hj) as Hn.
      unfold live, lookup_live in Hn |- *. rewrite foldl_delete_lookup. case_bool_decide as Hin; [done|].
      rewrite nodes_none in Hn.
      * destruct (m !! node_key (prefix_bytes p) j) as [x|]; [|done]. by destruct (is_expired now x).
      * intros Hj'. apply Hin. apply list_elem_of_fmap. eauto.
    + intros k Hk. rewrite foldl_delete_lookup, bool_decide_eq_false_2; [done|].
      intros (j & -> & Hj)%list_elem_of_fmap. apply Hk. exists j. split; [|done].
      pose proof (la_keys _ _ _ _ _ _ _ Hat) as Hgk. rewrite Forall_forall in Hgk. by apply (Hgk j Hj).
Qed.

Lemma runs_del_one pk legacy i p m own :
  good m → live now pk m = Some i → owned now m pk legacy i p own →
  ∃ m', good m' ∧ live now pk m' = None ∧ (∀ k, own k → live now k m' = None) ∧
    (∀ k, k ≠ pk → ¬ own k → m' !! k = m !! k) ∧
    ∀ rest count r m2, Runs (del_loop now rest (count + 1)) m' r m2 →
      Runs (del_loop now ((pk, legacy) :: rest) count) m r m2.
Proof.
  intros Hg Hl Hown. destruct (runs_clear_owned pk legacy i p m own Hg Hl Hown) as (m1 & Hrun & Hg1 & Hp & Hgone & Hkeep).
  exists (delete pk m1). split_and!.
  - by apply good_delete.
  - apply live_delete.
  - intros k Hk. destruct (Hgone k Hk) as [Hne Hnone]. unfold live, lookup_live in *. by rewrite lookup_delete_ne.
  - intros k Hne Hk. rewrite lookup_delete_ne by done. by apply Hkeep.
  - intros rest count r m2 Hrest. cbn [del_loop]. eapply runs_bind; [by apply runs_get_opt|]. rewrite Hl.
    rewrite Hp. eapply runs_bind; [apply runs_ret|]. eapply runs_bind; [exact Hrun|].
    eapply runs_bind; [apply runs_del|exact Hrest].
Qed.
End Deleting.

(** DEL removes a key with everything that belongs to it. A missing key is passed
    over; for a live key the count goes up by one and the store DEL goes on with has
    neither the key nor an entry the value owned (the nodes of a list, everything under
    the element prefixes for other types), and is otherwise unchanged. *)
Theorem del_spec T `{!TxOps T} (raw : T → gmap (list Z) Item) (ok : T → Prop) (now : Z)
    (pk legacy : list Z) (m : gmap (list Z) Item) (p : ElementPrefix) (own : list Z → Prop)
    (rest : list (list Z * list Z)) (count : Z) :
  TxLaws T raw ok → TxScanLaws T raw ok → clock_ok now → good m →
  (∀ i, live now pk m = Some i → owned now m pk legacy i p own) →
  ∃ m' n, (live now pk m = None → m' = m ∧ n = 0) ∧
    (is_Some (live now pk m) → n = 1 ∧ (∀ k, own k → live now k m' = None) ∧
       ∀ k, k ≠ pk → ¬ own k → m' !! k = m !! k) ∧
    live now pk m' = None ∧ good m' ∧
    ∀ r m2, Runs (raw:=raw) (ok:=ok) (del_loop now rest (count + n)) m' r m2 →
      Runs (raw:=raw) (ok:=ok) (del_loop now ((pk, legacy) :: rest) count) m r m2.
Proof.
  intros HT HS Hnow Hg Hown. destruct (live now pk m) as [i|] eqn:El.
  - destruct (runs_del_one (raw:=raw) (ok:=ok) Hnow pk legacy i p m own Hg El (Hown i eq_refl)) as (m' & ? & ? & ? & ? & H).
    exists m', 1. split_and!; [done|done|done|done|]. intros r m2. apply H.
  - exists m, 0. split_and!; [done|by intros [? ?]|done|done|]. intros r m2 Hrest. rewrite Z.add_0_r in Hrest.
    cbn [del_loop]. eapply runs_bind; [by apply runs_get_opt|]. by rewrite El.
Qed.

Lemma owned_demo : ∃ m i own, good m ∧ live 5 (B "0:l") m = Some i ∧
  owned 5 m (B "0:l") (B "-0:l") i (ListCmds.demo_prefix 1) own ∧ own (node_key (B "+0:" ++ id_of 1) (draw (demo_rng 1) 0)).
Proof.
  assert (clock_ok 5) as Hnow by (unfold clock_ok; width_lia). pose proof map_laws as HT.
  destruct (list_refines (raw:=id) (ok:=λ _, True) Hnow (B "0:l") (B "-0:l") (id_of 1) (demo_rng 1) (ListCmds.demo_prefix 1)
    (CPush true false [B "a"; B "b"]) ∅ [] good_empty) as (m & l & _ & Hup & Hv & _).
  { by apply (demo_empty_at (B "l") 1). } { done. }
  { apply (bool_decide_unpack _). vm_compute. exact I. } { vm_compute. done. }
  assert (l ≠ []) as Hne by (intros ->; done).
  pose proof (lu_sentinel _ _ _ _ _ _ _ Hup) as Hs. destruct (live 5 (B "0:l") m) as [i|] eqn:El; [|done].
  assert (list_at 5 m (B "0:l") (B "-0:l") [] (ListCmds.demo_prefix 1) l) as Hat.
  { destruct Hup. by split; rewrite ?El; try apply Hs. }
  exists m, i. eexists. split_and!; [apply Hup|done|by apply (owned_nodes _ _ _ _ _ _ l)|].
  exists (draw (demo_rng 1) 0). split; [apply random_key_length|done].
Qed.

Lemma del_spec_witness :
  ∃ m m', is_Some (live 5 (B "0:l") m) ∧
    Runs (raw:=id) (ok:=λ _, True) (DelOp 5 [(B "0:l", B "-0:l")]) m (Ret (RInt 1)) m' ∧
    live 5 (B "0:l") m' = None ∧ live 5 (node_key (B "+0:" ++ id_of 1) (draw (demo_rng 1) 0)) m' = None.
Proof.
  destruct owned_demo as (m & i & own & Hg & Hl & Hown & Hk).
  destruct (del_spec (gmap (list Z) Item) id (λ _, True) 5 (B "0:l") (B "-0:l") m (ListCmds.demo_prefix 1) own [] 0)
    as (m' & n & _ & Hsome & Hgone & _ & Hrun).
  - apply map_laws.
  - apply map_scan_laws.
  - unfold clock_ok. width_lia.
  - exact Hg.
  - intros j Hj. rewrite Hl in Hj. injection Hj as <-. exact Hown.
  - destruct Hsome as (-> & Hown' & _); [eauto|]. exists m, m'. split; [eauto|]. split.
    + eapply runs_bind; [apply (Hrun (Ret 1) m'), runs_ret|apply runs_ret].
    + split; [exact Hgone|auto].
Defined.

(** ** Renaming *)
Lemma plain_meta_small meta : 0 ≤ meta < 256 → is_namespaced meta = false → 0 ≤ meta < 128.
Proof.
  intros Hm Hn. assert (forallb (λ z, is_namespaced z || (z <? 128)) (seqZ 0 256) = true) as Hall by (by vm_compute).
  rewrite forallb_forall in Hall. specialize (Hall meta). rewrite Hn in Hall. cbn in Hall.
  assert ((meta <? 128) = true) as H%Z.ltb_lt; [|lia]. apply Hall, list_elem_of_In, elem_of_seqZ. lia.
Qed.

Lemma base_type_small meta : 0 ≤ meta < 128 → base_type meta = meta.
Proof.
  intros Hm. assert (forallb (λ z, base_type z =? z) (seqZ 0 128) = true) as Hall by (by vm_compute).
  rewrite forallb_forall in Hall. apply Z.eqb_eq, Hall, list_elem_of_In, elem_of_seqZ. lia.
Qed.

(** The item under the new name: same type, payload and elements, whose place it records. *)
Record renamed (i i' : Item) (p : ElementPrefix) (new : list Z) : Prop := {
  rn_key : item_key i' = new;
  rn_expiry : item_expire_ts i' = item_expire_ts i;
  rn_type : base_type (item_meta i') = base_type (item_meta i);
  rn_payload : payload i' = payload i;
  rn_prefix : has_elements (base_type (item_meta i)) = true →
    prefix_of i' (legacy_of new) = Ok (explicit_prefix (prefix_bytes p))
}.

Definition renamed_value (i : Item) (source : ElementPrefix) : list Z * Z :=
  if explicit source || negb (has_elements (base_type (item_meta i))) then (item_value i, item_meta i)
  else encode_sentinel (item_value i) (item_meta i) (explicit_prefix (prefix_bytes source)).

Lemma renamed_value_spec i p old new :
  0 ≤ item_meta i < 256 → prefix_of i (legacy_of old) = Ok p → Z.of_nat (length (prefix_bytes p)) < 2 ^ 32 →
  renamed i (mkItem new (renamed_value i p).1 (renamed_value i p).2 (item_expire_ts i)) p new.
Proof.
  intros Hm Hp Hlen. unfold renamed_value. destruct (explicit p) eqn:Ee; cbn [orb].
  - split; try done. intros _. cbn [fst snd].
    unfold prefix_of in *. cbn [item_meta item_value]. destruct (is_namespaced (item_meta i)).
    + destruct (split_trailer (item_value i)) as [[]|]; [|done]. by injection Hp as <-.
    + injection Hp as <-. done.
  - unfold prefix_of in Hp. destruct (is_namespaced (item_meta i)) eqn:En.
    { destruct (split_trailer (item_value i)) as [[]|]; [|done]. injection Hp as <-. done. }
    pose proof (plain_meta_small _ Hm En) as Hsmall.
    destruct (has_elements (base_type (item_meta i))) eqn:Eh; cbn [negb]; [|by split; try rewrite Eh].
    pose proof (encode_sentinel_decodes (item_value i) (item_meta i) (explicit_prefix (prefix_bytes p)) new
      (item_expire_ts i) (legacy_of new) Hsmall Hlen) as Hdec.
    destruct (encode_sentinel _ _ _) as [value meta]. destruct Hdec as (Hpl & Hbt & Hpre). cbn [fst snd].
    split; try done.
    + cbn [item_meta]. by rewrite Hbt, base_type_small.
    + rewrite Hpl. unfold payload. by rewrite En.
Qed.

Section Renaming.
Context {T : Type} `{!TxOps T} {raw : T → gmap (list Z) Item} {ok : T → Prop}.
Context `{HT : !TxLaws T raw ok, HS : !TxScanLaws T raw ok} {now : Z} (Hnow : clock_ok now).
#[local] Abbreviation Runs := (Runs (raw:=raw) (ok:=ok)).

Lemma runs_rename_entry old new i p q own m :
  good m → live now old m = Some i → old ≠ new → 0 ≤ item_meta i < 256 →
  prefix_of i (legacy_of old) = Ok p → Z.of_nat (length (prefix_bytes p)) < 2 ^ 32 →
  (∀ j, live now new m = Some j → owned now m new (legacy_of new) j q own) →
  ∃ i' m1, renamed i i' p new ∧ Runs (rename_entry now old new i) m (Ret ()) (delete old (<[new := i']> m1)) ∧
    good m1 ∧ is_expired now i' = false ∧
    (live now new m = None → m1 = m) ∧ (is_Some (live now new m) → (∀ k, own k → live now k m1 = None) ∧ ∀ k, ¬ own k → m1 !! k = m !! k).
Proof.
  intros Hg Hl Hne Hm Hp Hlen Hdest.
  pose proof (live_ok _ _ _ _ (proj1 Hg) Hl) as Hi. apply live_Some in Hl as [_ Hexp].
  pose proof (renamed_value_spec i p old new Hm Hp Hlen) as Hren.
  destruct (renamed_value i p) as [value meta] eqn:Ev. cbn [fst snd] in Hren.
  set (entry := with_metadata (entry_new new value) meta).
  destruct (keep_ttl_of_expiry now entry i Hnow Hi Hexp eq_refl) as [Hts Heok].
  set (i' := mkItem new value meta (item_expire_ts i)) in *.
  assert (entry_key (keep_ttl_of now entry i) = new ∧ item_of now (keep_ttl_of now entry i) = i') as [Hk Hit].
  { revert Hts. unfold keep_ttl_of, item_of. destruct (item_ttl now i); simpl; intros ->; done. }
  assert (∀ m1, Runs (source ← try_db (prefix_of i (legacy_of old));
      let '(value, metadata) :=
        if explicit source || negb (has_elements (base_type (item_meta i))) then (item_value i, item_meta i)
        else encode_sentinel (item_value i) (item_meta i) (explicit_prefix (prefix_bytes source)) in
      set now (keep_ttl_of now (with_metadata (entry_new new value) metadata) i) ;; del old) m1 (Ret ())
      (delete old (<[new := i']> m1))) as Hwrite.
  { intros m1. rewrite Hp. eapply runs_bind; [apply runs_ret|]. fold (renamed_value i p). rewrite Ev.
    eapply runs_bind; [apply (runs_set Hnow), Heok|]. cbv beta.
    change (with_metadata (entry_new new value) meta) with entry. rewrite Hk, Hit. apply runs_del. }
  assert (is_expired now i' = false) as Hexp' by exact Hexp.
  unfold rename_entry. rewrite bool_decide_eq_false_2 by done. destruct (live now new m) as [j|] eqn:Ej.
  - destruct (runs_clear_owned (raw:=raw) (ok:=ok) Hnow new (legacy_of new) j q m own Hg Ej (Hdest j eq_refl))
      as (m1 & Hrun & Hg1 & Hq & Hgone & Hkeep).
    exists i', m1. split_and!; [done| |done|done|done|].
    + eapply runs_bind; [by apply runs_get_opt|]. rewrite Ej. eapply runs_bind; [|apply Hwrite].
      rewrite Hq. eapply runs_bind; [apply runs_ret|exact Hrun].
    + intros _. split; [|done]. intros k Hk'. by apply Hgone.
  - exists i', m. split_and!; [done| |done|done|done|by intros [? ?]].
    eapply runs_bind; [by apply runs_get_opt|]. rewrite Ej. eapply runs_bind; [apply runs_ret|apply Hwrite].
Qed.

Lemma runs_rename_live (old new : list Z) (i : Item) (p q : ElementPrefix) (own : list Z → Prop) (m : gmap (list Z) Item) :
  good m → live now old m = Some i → old ≠ new → 0 ≤ item_meta i < 256 →
  prefix_of i (legacy_of old) = Ok p → Z.of_nat (length (prefix_bytes p)) < 2 ^ 32 →
  (∀ j, live now new m = Some j → owned now m new (legacy_of new) j q own) →
  ∃ i' m', Runs (rename_entry now old new i) m (Ret ()) m' ∧ renamed i i' p new ∧
    live now old m' = None ∧ live now new m' = Some i' ∧
    (is_Some (live now new m) → ∀ k, own k → k ≠ new → live now k m' = None) ∧
    ∀ k, k ≠ old → k ≠ new → (is_Some (live now new m) → ¬ own k) → m' !! k = m !! k.
Proof.
  intros Hg Hl Hne Hm Hp Hlen Hdest.
  destruct (runs_rename_entry old new i p q own m) as (i' & m1 & Hren & Hrun & Hg1 & Hexp & Hnone & Hsome); [done..|].
  exists i', (delete old (<[new := i']> m1)). split_and!; [done|done|apply live_delete|..].
  - apply live_Some. rewrite lookup_delete_ne by done. by rewrite lookup_insert_eq.
  - intros Hs k Hk Hkn. destruct (Hsome Hs) as [Hgone _]. specialize (Hgone k Hk). unfold live, lookup_live in *.
    destruct (decide (k = old)) as [->|Hko]; [by rewrite lookup_delete_eq|].
    by rewrite lookup_delete_ne, lookup_insert_ne.
  - intros k Hko Hkn Hk. rewrite lookup_delete_ne, lookup_insert_ne by done.
    destruct (live now new m) as [j|]; [|by rewrite Hnone]. apply (Hsome ltac:(eauto)), Hk; eauto.
Qed.
End Renaming.

(** C30: RENAME gives a value another name. A missing source is reported and nothing
    changes; a key renamed to its own name is left as it is. For two different names the
    source name is gone and the new name holds an item with the same type, payload and
    expiry, which records where the elements or nodes are; the entries that the value
    formerly under the new name owned are gone (the chain of a list; for any other type,
    sorted sets, streams and Bloom filters included, everything under the prefixes of its
    elements); every other entry, so also the elements or nodes of the source, which do not
    move, is as before. The source may be of any type. (The trailers of both items are
    readable, the prefix of the source is shorter than 2^32 bytes, and a list under the
    new name is well formed.) *)
Theorem rename_spec T `{!TxOps T} (raw : T → gmap (list Z) Item) (ok : T → Prop) (now : Z)
    (old new : list Z) (m : gmap (list Z) Item) (p q : ElementPrefix) (own : list Z → Prop) :
  TxLaws T raw ok → TxScanLaws T raw ok → clock_ok now → good m →
  (∀ i, live now old m = Some i → 0 ≤ item_meta i < 256 ∧ prefix_of i (legacy_of old) = Ok p) →
  Z.of_nat (length (prefix_bytes p)) < 2 ^ 32 →
  (∀ j, live now new m = Some j → owned now m new (legacy_of new) j q own) →
  (live now old m = None → Runs (raw:=raw) (ok:=ok) (RenameOp now old new) m (Ret (ROptUnit None)) m) ∧
  ∀ i, live now old m = Some i →
    (old = new → Runs (raw:=raw) (ok:=ok) (RenameOp now old new) m (Ret (ROptUnit (Some ()))) m) ∧
    (old ≠ new →
     ∃ i' m', Runs (raw:=raw) (ok:=ok) (RenameOp now old new) m (Ret (ROptUnit (Some ()))) m' ∧ renamed i i' p new ∧
      live now old m' = None ∧ live now new m' = Some i' ∧
      (is_Some (live now new m) → ∀ k, own k → k ≠ new → live now k m' = None) ∧
      ∀ k, k ≠ old → k ≠ new → (is_Some (live now new m) → ¬ own k) → m' !! k = m !! k).
Proof.
  intros HT HS Hnow Hg Hsrc Hlen Hdest. split.
  - intros Hl. eapply runs_bind; [by apply runs_get_opt|]. rewrite Hl. apply runs_ret.
  - intros i Hl. destruct (Hsrc i Hl) as [Hm Hp]. split.
    { intros ->. eapply runs_bind; [by apply runs_get_opt|]. rewrite Hl. unfold rename_entry.
      rewrite bool_decide_eq_true_2 by done. eapply runs_bind; apply runs_ret. }
    intros Hne.
    destruct (runs_rename_live (raw:=raw) (ok:=ok) Hnow old new i p q own m) as (i' & m' & Hrun & H); [done..|].
    exists i', m'. split; [|exact H]. eapply runs_bind; [by apply runs_get_opt|]. rewrite Hl.
    eapply runs_bind; [exact Hrun|apply runs_ret].
Qed.

(** After a RENAME the elements of a hash or a set are those of the new name. *)
Lemma renamed_stored (now ty : Z) (m m' : gmap (list Z) Item) (old new : list Z) (i i' : Item) (p : ElementPrefix) h :
  ty = type_byte VSet ∨ ty = type_byte VHash → stored_at now ty m old (legacy_of old) i p h →
  renamed i i' p new → live now new m' = Some i' → layout new (legacy_of new) (explicit_prefix (prefix_bytes p)) →
  (∀ f, m' !! element_key (prefix_bytes p) f = m !! element_key (prefix_bytes p) f) →
  elements_at now m' (legacy_of new) ∅ →
  stored_at now ty m' new (legacy_of new) i' (explicit_prefix (prefix_bytes p)) h.
Proof.
  intros Hty [Hl Ht Hc Hp Hsz He _ _] [_ _ Rt Rp Rx] Hl' Hlay Hsame Hleg.
  split; [done|by rewrite Rt|by rewrite Rp| |done| |done|done].
  - apply Rx. rewrite Ht. by destruct Hty as [->| ->].
  - intros f. rewrite <- (He f). unfold live, lookup_live. cbn [prefix_bytes explicit_prefix]. by rewrite Hsame.
Qed.

(** A hash of one field under the prefix derived from its name, and a string. *)
Definition hash_store : gmap (list Z) Item :=
  <[B "0:h" := mkItem (B "0:h") [0; 0; 0; 1] (type_byte VHash) None]>
  (<[element_key (B "-0:h") (B "f") := mkItem (element_key (B "-0:h") (B "f")) (B "v") 0 None]>
  (<[B "0:b" := mkItem (B "0:b") (B "w") 0 None]> ∅)).

(** The same with a sorted set of one member. *)
Definition hash_zset_store : gmap (list Z) Item :=
  <[B "0:z" := mkItem (B "0:z") [0; 0; 0; 1] (type_byte VSortedSet) None]>
  (<[B "-0:z:score:s" := mkItem (B "-0:z:score:s") [] 0 None]>
  (<[B "-0:z:member:m" := mkItem (B "-0:z:member:m") [] 0 None]> hash_store)).

Lemma rename_spec_witness :
  ∃ i' m', Runs (raw:=id) (ok:=λ _, True) (RenameOp 5 (B "0:h") (B "0:z")) hash_zset_store (Ret (ROptUnit (Some ()))) m' ∧
    live 5 (B "0:h") m' = None ∧ live 5 (B "0:z") m' = Some i' ∧ payload i' = Ok [0; 0; 0; 1] ∧
    prefix_of i' (B "-0:z") = Ok (explicit_prefix (B "-0:h")) ∧
    m' !! element_key (B "-0:h") (B "f") = hash_zset_store !! element_key (B "-0:h") (B "f") ∧
    live 5 (B "-0:z:score:s") m' = None ∧ live 5 (B "-0:z:member:m") m' = None.
Proof.
  destruct (rename_spec (gmap (list Z) Item) id (λ _, True) 5 (B "0:h") (B "0:z") hash_zset_store
    (legacy_prefix (B "-0:h")) (legacy_prefix (B "-0:z")) (under [B "-0:z:score:"; B "-0:z:member:"])) as [_ H].
  - apply map_laws.
  - apply map_scan_laws.
  - unfold clock_ok. width_lia.
  - apply good_insert, good_insert, good_insert, good_insert, good_insert, good_insert, good_empty.
  - intros i Hi. injection Hi as <-. split; [by vm_compute|reflexivity].
  - by vm_compute.
  - intros j Hj. injection Hj as <-.
    apply (owned_scanned 5 _ (B "0:z") (B "-0:z") (mkItem (B "0:z") [0; 0; 0; 1] (type_byte VSortedSet) None)
      (legacy_prefix (B "-0:z"))); [reflexivity|by vm_compute|].
    intros (q & [->|[->|[]%elem_of_nil]%elem_of_cons]%elem_of_cons & Hq); discriminate Hq.
  - destruct (H (mkItem (B "0:h") [0; 0; 0; 1] (type_byte VHash) None)) as [_ H'].
    { reflexivity. }
    destruct H' as (i' & m' & Hrun & Hren & H1 & H2 & H3 & H4); [by vm_compute|].
    exists i', m'. split; [exact Hrun|]. split; [exact H1|]. split; [exact H2|].
    split; [exact (rn_payload _ _ _ _ Hren)|]. split; [exact (rn_prefix _ _ _ _ Hren eq_refl)|]. split; [|split].
    + apply H4; [by vm_compute|by vm_compute|].
      intros _ (q & [->|[->|[]%elem_of_nil]%elem_of_cons]%elem_of_cons & Hq); discriminate Hq.
    + apply H3; [by eexists|exists (B "-0:z:score:"); split; [by left|reflexivity]|by vm_compute].
    + apply H3; [by eexists|exists (B "-0:z:member:"); split; [by right; left|reflexivity]|by vm_compute].
Defined.

(** ** Listing keys *)
(** *** Pages *)
Section Pages.
Context (prefix : list Z) (count : Z) (pattern : option (list Z)) (ty : option Z).

Definition name_of (i : Item) : list Z := drop (length prefix) (item_key i).
Definition wanted (i : Item) : bool := scan_wanted pattern ty (name_of i) (item_meta i).
Definition names_of (l : list Item) : list (list Z) := name_of <$> List.filter wanted l.

Lemma names_of_app l1 l2 : names_of (l1 ++ l2) = names_of l1 ++ names_of l2.
Proof. unfold names_of. by rewrite List.filter_app, fmap_app. Qed.

(** What the loop of a page makes of items with the prefix followed by items without it:
    it takes the names wanted up to the count and stops right after the last of them. *)
Lemma scan_loop_spec L rest keys last_seen page :
  Forall (λ i, starts_with prefix (item_key i) = true) L → Forall (λ i, starts_with prefix (item_key i) = false) rest →
  Z.of_nat (length keys) < count → scan_loop prefix count pattern ty (L ++ rest) keys last_seen = page →
  (pg_exhausted page = true ∧ pg_keys page = keys ++ names_of L) ∨
  ∃ A x D, L = A ++ x :: D ∧ pg_exhausted page = false ∧ pg_keys page = keys ++ names_of A ++ [name_of x] ∧
    wanted x = true ∧ pg_rest page = D ++ rest ∧ Z.of_nat (length (pg_keys page)) = count.
Proof.
  revert keys last_seen. induction L as [|y L IH]; intros keys last_seen HL Hrest Hlt Hpage.
  - left. assert (pg_exhausted page = true ∧ pg_keys page = keys) as [? ->]; [|split; [done|by rewrite app_nil_r]].
    subst page. destruct rest as [|r rest]; cbn [app scan_loop]; rewrite (proj2 (Z.ltb_lt _ _) Hlt); [done|].
    apply Forall_cons in Hrest as [Hr _]. by rewrite Hr.
  - apply Forall_cons in HL as [Hy HL].
    cbn [app scan_loop] in Hpage. rewrite (proj2 (Z.ltb_lt _ _) Hlt), Hy in Hpage. cbn [negb] in Hpage.
    fold (name_of y) in Hpage. fold (wanted y) in Hpage. destruct (wanted y) eqn:Ew.
    + destruct (Z.lt_ge_cases (Z.of_nat (length (keys ++ [name_of y]))) count) as [Hlt'|Hge].
      * destruct (IH _ _ HL Hrest Hlt' Hpage) as [[Hx Hks]|(A & x & D & -> & Hx & Hks & Hw & Hr & Hc)].
        -- left. split; [done|]. rewrite Hks. unfold names_of. cbn [List.filter]. rewrite Ew. by rewrite <- app_assoc.
        -- right. exists (y :: A), x, D. split_and!; try done. rewrite Hks. unfold names_of. cbn [List.filter].
           rewrite Ew. by rewrite <- !app_assoc.
      * right. exists [], y, L. rewrite length_app in Hge. cbn [length] in Hge.
        assert (Z.of_nat (length (keys ++ [name_of y])) = count) as Hc by (rewrite length_app; cbn [length]; lia).
        assert (page = mkPage (keys ++ [name_of y]) (name_of y) false (L ++ rest)) as ->.
        { subst page. destruct (L ++ rest); cbn [scan_loop]; by rewrite (proj2 (Z.ltb_ge _ _)) by lia. }
        split_and!; done.
    + destruct (IH _ _ HL Hrest Hlt Hpage) as [[Hx Hks]|(A & x & D & -> & Hx & Hks & Hw & Hr & Hc)].
      * left. split; [done|]. rewrite Hks. unfold names_of. cbn [List.filter]. by rewrite Ew.
      * right. exists (y :: A), x, D. split_and!; try done. rewrite Hks. unfold names_of. cbn [List.filter]. by rewrite Ew.
Qed.

(** The reply depends on keys and metadata only. *)
Lemma scan_loop_data l1 l2 keys last_seen :
  item_data <$> l1 = item_data <$> l2 →
  let page1 := scan_loop prefix count pattern ty l1 keys last_seen in
  let page2 := scan_loop prefix count pattern ty l2 keys last_seen in
  pg_keys page1 = pg_keys page2 ∧ pg_last page1 = pg_last page2 ∧ pg_exhausted page1 = pg_exhausted page2 ∧
  item_data <$> pg_rest page1 = item_data <$> pg_rest page2.
Proof.
  revert l2 keys last_seen. induction l1 as [|i l1 IH]; intros [|j l2] keys last_seen Hd; try done; cbn [scan_loop].
  injection Hd as Ek Ev Em Hd. destruct (_ <? _).
  - rewrite Ek, Em. destruct (starts_with _ _); cbn [negb]; [by apply IH|done].
  - cbn. unfold item_data at 1 3. rewrite Ek, Ev, Em. split_and!; try done. f_equal. exact Hd.
Qed.

Lemma scan_reply_data l1 l2 :
  item_data <$> l1 = item_data <$> l2 → scan_reply prefix count pattern ty l1 = scan_reply prefix count pattern ty l2.
Proof.
  intros Hd. destruct (scan_loop_data l1 l2 [] [] Hd) as (E1 & E2 & E3 & E4). unfold scan_reply. rewrite E1, E2, E3.
  destruct (pg_rest (scan_loop prefix count pattern ty l1 [] [])), (pg_rest (scan_loop prefix count pattern ty l2 [] []));
    try done. injection E4 as Ek _ _ _. by rewrite Ek.
Qed.

(** A page either finishes the keys left or stops at a key it returns. *)
Lemma scan_reply_spec L rest :
  0 < count →
  Forall (λ i, starts_with prefix (item_key i) = true) L → Forall (λ i, starts_with prefix (item_key i) = false) rest →
  scan_reply prefix count pattern ty (L ++ rest) = RScan [] (names_of L) ∨
  ∃ A x D, L = A ++ x :: D ∧
    scan_reply prefix count pattern ty (L ++ rest) = RScan (name_of x) (names_of (A ++ [x])).
Proof.
  intros Hc HL Hrest. unfold scan_reply.
  destruct (scan_loop_spec L rest [] [] _ HL Hrest Hc eq_refl) as [[-> ->]|(A & x & D & -> & -> & Hks & Hw & -> & ->)].
  - by left.
  - assert (names_of (A ++ [x]) = names_of A ++ [name_of x]) as Hx.
    { rewrite names_of_app. f_equal. unfold names_of. cbn [List.filter]. by rewrite Hw. }
    rewrite Hks, Z.eqb_refl. cbn [app orb andb]. rewrite <- Hx.
    destruct D as [|d D]; cbn [app].
    + left. destruct rest as [|r rest]; [done|]. apply Forall_cons in Hrest as [-> _]. done.
    + right. exists A, x, (d :: D). split; [done|]. apply Forall_app in HL as [_ [_ [Hd _]%Forall_cons]%Forall_cons].
      rewrite Hd, Hx. cbn [negb]. by rewrite last_snoc.
Qed.
End Pages.

(** A client that follows SCAN from cursor to cursor until the server replies 0. *)
Fixpoint scan_all {T} `{!TxOps T} (fuel : nat) (now : Z) (prefix cursor : list Z) (count : Z)
    (pattern : option (list Z)) (ty : option Z) : DbM T (list (list Z)) :=
  match fuel with
  | O => fail (Redis (B "out of fuel"))
  | S fuel' =>
      r ← ScanOp now prefix (Cmd.cursor_arg cursor) count pattern ty;
      match r with
      | RScan next page =>
          if bool_decide (cursor_reply next = B "0") then mret page
          else rest ← scan_all fuel' now prefix (cursor_reply next) count pattern ty; mret (page ++ rest)
      | _ => mret []
      end
  end.

Section Scanning.
Context {T : Type} `{!TxOps T} {raw : T → gmap (list Z) Item} {ok : T → Prop}.
Context `{HT : !TxLaws T raw ok, HS : !TxScanLaws T raw ok} {now : Z} (Hnow : clock_ok now).
#[local] Abbreviation Runs := (Runs (raw:=raw) (ok:=ok)).

Lemma runs_scan_op (prefix cursor : list Z) (count : Z) (pattern : option (list Z)) (ty : option Z) (m : gmap (list Z) Item) :
  Runs (ScanOp now prefix cursor count pattern ty) m
    (Ret (scan_reply prefix (Z.max count 1) pattern ty (scan_range now
       (if bool_decide (cursor = []) then Included prefix else Excluded (prefix ++ cursor)) Unbounded m))) m.
Proof.
  apply (runs_range_bind Hnow). intros it _ Hit. rewrite <- (scan_reply_data _ _ _ _ _ _ Hit). apply runs_ret.
Qed.

(** What is left after a cursor: the items of the prefix behind it, then others. *)
Definition left_after (prefix cursor : list Z) (m : gmap (list Z) Item) (L : list Item) : Prop :=
  if bool_decide (cursor = []) then L = scan_prefix now prefix m
  else ∃ L1 x, scan_prefix now prefix m = L1 ++ x :: L ∧ item_key x = prefix ++ cursor.

Lemma scan_range_left prefix cursor m L :
  keyed m → left_after prefix cursor m L →
  ∃ rest, scan_range now (if bool_decide (cursor = []) then Included prefix else Excluded (prefix ++ cursor)) Unbounded m
      = L ++ rest ∧
    Forall (λ i, starts_with prefix (item_key i) = true) L ∧ Forall (λ i, starts_with prefix (item_key i) = false) rest.
Proof.
  intros Hk. unfold left_after.
  assert (∀ lo, Forall (λ i, starts_with prefix (item_key i) = false)
    (scan_where now (λ k, above lo k && negb (starts_with prefix k)) m)) as Hrest.
  { intros lo. apply Forall_forall. intros i (_ & Hi & _)%scan_where_elem. by apply andb_true_iff in Hi as [_ ?%negb_true_iff]. }
  assert (Forall (λ i, starts_with prefix (item_key i) = true) (scan_prefix now prefix m)) as Hall.
  { apply Forall_forall. by intros i (_ & Hi & _)%scan_prefix_elem. }
  case_bool_decide as Hc; [intros ->|intros (L1 & x & HL & Hx)].
  - eexists. split_and!; [|apply Hall|apply Hrest]. rewrite (scan_range_up now m Hk prefix), scan_from_prefix by done. done.
  - eexists. split_and!; [| |apply Hrest].
    + rewrite (scan_range_up now m Hk prefix). { rewrite <- Hx. by rewrite (scan_after_key now m Hk _ _ _ _ HL). }
      intros k Ha. cbn [above] in Ha. apply negb_true_iff in Ha.
      destruct (bytes_le_total (prefix ++ cursor) k) as [H|H]; [|by rewrite H in Ha].
      eapply bytes_le_trans; [apply bytes_le_prefix|exact H].
    + rewrite HL in Hall. by apply Forall_app in Hall as [_ [_ ?]%Forall_cons].
Qed.

Lemma item_key_name prefix m i : i ∈ scan_prefix now prefix m → item_key i = prefix ++ name_of prefix i.
Proof.
  intros (_ & [s Hs]%starts_with_spec & _)%scan_prefix_elem. unfold name_of. rewrite Hs. by rewrite drop_app_length.
Qed.

Lemma left_after_next prefix cursor m L A x D :
  left_after prefix cursor m L → L = A ++ x :: D → name_of prefix x ≠ [] → left_after prefix (name_of prefix x) m D.
Proof.
  intros HL -> Hx. unfold left_after in *. rewrite (bool_decide_eq_false_2 _ Hx).
  assert (∃ L0, scan_prefix now prefix m = L0 ++ x :: D) as [L0 E].
  { case_bool_decide; [eauto|]. destruct HL as (L1 & y & E & _). exists (L1 ++ y :: A). by rewrite E, <- app_assoc. }
  exists L0, x. split; [done|]. apply (item_key_name _ m). rewrite E. apply elem_of_app. right. left.
Qed.

Lemma runs_scan_all (prefix : list Z) (count : Z) (pattern : option (list Z)) (ty : option Z) (m : gmap (list Z) Item) (L : list Item) (cursor : list Z) (fuel : nat) :
  keyed m → (∀ i, i ∈ scan_prefix now prefix m → name_of prefix i ≠ [] ∧ name_of prefix i ≠ B "0") →
  left_after prefix (Cmd.cursor_arg cursor) m L → (length L < fuel)%nat →
  Runs (scan_all fuel now prefix cursor count pattern ty) m (Ret (names_of prefix pattern ty L)) m.
Proof.
  intros Hk Hnames. revert L cursor. induction fuel as [|fuel IH]; intros L cursor HL Hf; [lia|]. cbn [scan_all].
  eapply runs_bind; [apply runs_scan_op|]. cbv beta.
  destruct (scan_range_left _ _ _ _ Hk HL) as (rest & -> & HLp & Hrest).
  destruct (scan_reply_spec prefix (Z.max count 1) pattern ty L rest) as [->|(A & x & D & E & ->)]; [lia|done..| |].
  - apply runs_ret.
  - assert (x ∈ scan_prefix now prefix m) as Hin.
    { unfold left_after in HL. assert (x ∈ L) by (rewrite E; apply elem_of_app; right; left).
      case_bool_decide; [by subst L|]. destruct HL as (? & ? & -> & _). apply elem_of_app. right. by right. }
    destruct (Hnames x Hin) as [Hne H0]. unfold cursor_reply. rewrite (bool_decide_eq_false_2 _ Hne).
    rewrite (bool_decide_eq_false_2 _ H0).
    eapply runs_bind; [apply (IH D)|].
    + unfold Cmd.cursor_arg. rewrite (bool_decide_eq_false_2 _ H0). by eapply left_after_next.
    + rewrite E, length_app in Hf. cbn [length] in Hf. lia.
    + rewrite <- names_of_app, <- app_assoc, E. apply runs_ret.
Qed.

Lemma runs_keys_op (prefix pattern : list Z) (m : gmap (list Z) Item) :
  Runs (KeysOp now prefix pattern) m (Ret (RList (names_of prefix (Some pattern) None (scan_prefix now prefix m)))) m.
Proof.
  apply runs_iter_bind; [done|]. intros it Herr Hit Hlive. rewrite Herr.
  assert (List.filter (is_match (glob_keyspace pattern))
      ((λ i, drop (length prefix) (item_key i)) <$> List.filter (λ i, negb (is_expired now i)) (iter_items it))
    = names_of prefix (Some pattern) None (scan_prefix now prefix m)) as ->; [|apply runs_ret].
  revert Hit Hlive. unfold all_live, names_of. generalize (iter_items it) (scan_prefix now prefix m).
  intros l. induction l as [|i l IH]; intros [|j l2] Hd Hl; try done.
  injection Hd as Ek _ _ Hd. apply Forall_cons in Hl as [Hi Hl]. cbn [List.filter]. rewrite Hi. cbn [negb].
  unfold wanted, scan_wanted, name_of. rewrite andb_true_r. cbn [fmap list_fmap List.filter]. rewrite Ek.
  destruct (is_match _ _); [cbn [fmap list_fmap]|]; by rewrite (IH l2).
Qed.

(** Without a pattern SCAN selects what [KEYS *] does. *)
Lemma names_of_star prefix l :
  names_of prefix None None l = names_of prefix (Some (B "*")) None l.
Proof. done. Qed.

Lemma names_of_sorted prefix pattern ty m :
  StronglySorted (λ a b, bytes_le a b = true) (names_of prefix pattern ty (scan_prefix now prefix m)).
Proof.
  assert (Forall (λ i, item_key i = prefix ++ name_of prefix i) (scan_prefix now prefix m)) as Hn.
  { apply Forall_forall. apply item_key_name. }
  pose proof (scan_where_sorted now m (starts_with prefix)) as Hs. fold (scan_prefix now prefix m) in Hs.
  revert Hn. unfold names_of. induction Hs as [|x l _ IH Hx]; intros Hn; [constructor|].
  apply Forall_cons in Hn as [Hnx Hn]. cbn [List.filter]. destruct (wanted prefix pattern ty x); [|by apply IH].
  constructor; [by apply IH|]. apply Forall_fmap, Forall_forall. intros y [Hy _]%list_elem_of_In%filter_In.
  apply list_elem_of_In in Hy. rewrite Forall_forall in Hx, Hn. pose proof (Hx y Hy) as Hle.
  unfold item_le in Hle. by rewrite Hnx, (Hn y Hy), bytes_le_app in Hle.
Qed.
End Scanning.

(** C31: SCAN visits every key exactly once. Followed from cursor 0 until the server
    replies 0, whatever the COUNT, with no write in between, it ends after no more replies
    than there are keys, plus one, and returns the live keys of the database that match
    MATCH and TYPE, each once and in the order of their bytes; with no TYPE these are, in
    the same order, the keys KEYS replies with for that pattern, or for * where there is
    no MATCH. This needs that no key of the database is named by the empty string or "0",
    which the cursor could not tell from its own end. *)
Theorem scan_visits_all T `{!TxOps T} (raw : T → gmap (list Z) Item) (ok : T → Prop) (now : Z)
    (prefix : list Z) (count : Z) (pattern : option (list Z)) (ty : option Z) (m : gmap (list Z) Item) :
  TxLaws T raw ok → TxScanLaws T raw ok → clock_ok now → keyed m →
  live now prefix m = None → live now (prefix ++ B "0") m = None →
  ∃ names, Runs (raw:=raw) (ok:=ok) (scan_all (S (length (scan_prefix now prefix m))) now prefix (B "0") count pattern ty)
      m (Ret names) m ∧
    NoDup names ∧ StronglySorted (λ a b, bytes_le a b = true) names ∧
    (∀ k, k ∈ names ↔ ∃ i, live now (prefix ++ k) m = Some i ∧ scan_wanted pattern ty k (item_meta i) = true) ∧
    (ty = None → Runs (raw:=raw) (ok:=ok) (KeysOp now prefix (default (B "*") pattern)) m (Ret (RList names)) m).
Proof.
  intros HT HS Hnow Hk He H0.
  assert (∀ i, i ∈ scan_prefix now prefix m ↔ live now (prefix ++ name_of prefix i) m = Some i ∧ item_key i = prefix ++ name_of prefix i) as Hin.
  { intros i. split.
    - intros Hi. pose proof (item_key_name _ _ _ Hi) as E. apply scan_prefix_elem in Hi as ([k Hki] & _ & Hx).
      rewrite <- E. split; [|done]. apply live_Some. by rewrite (Hk _ _ Hki).
    - intros [[Hl Hx]%live_Some E]. apply scan_prefix_elem. split_and!; [eauto| |done]. rewrite E. apply starts_with_app. }
  exists (names_of prefix pattern ty (scan_prefix now prefix m)). split_and!.
  - apply (runs_scan_all (raw:=raw) (ok:=ok) Hnow); [done| |done|lia].
    intros i [Hl _]%Hin. split; intros E; rewrite E in Hl; [rewrite app_nil_r in Hl|]; congruence.
  - unfold names_of. pose proof (scan_keys_nodup now prefix m Hk) as Hnd.
    eapply sublist_NoDup; [|apply fmap_sublist]; [|apply sublist_filter_bool].
    apply (NoDup_fmap_1 (app prefix)). rewrite <- list_fmap_compose. erewrite <- list_fmap_ext; [exact Hnd|].
    intros ? i Hi%list_elem_of_lookup_2. simpl. by eapply item_key_name.
  - apply names_of_sorted.
  - intros k. unfold names_of. rewrite list_elem_of_fmap. split.
    + intros (i & -> & [Hi Hw]%list_elem_of_In%filter_In). exists i. split; [|done]. by apply Hin, list_elem_of_In.
    + intros (i & Hl & Hw). assert (item_key i = prefix ++ k) as E by (apply live_Some in Hl as [Hl _]; by apply Hk in Hl).
      assert (name_of prefix i = k) as En by (unfold name_of; by rewrite E, drop_app_length). exists i. split; [done|].
      apply list_elem_of_In, filter_In. split; [apply list_elem_of_In, Hin; by rewrite En|]. unfold wanted. by rewrite En.
  - intros ->. destruct pattern; [|rewrite names_of_star]; by apply runs_keys_op.
Qed.

Lemma scan_visits_all_witness :
  Runs (raw:=id) (ok:=λ _, True) (scan_all 3 5 (B "0:") (B "0") 1 None None) hash_store (Ret [B "b"; B "h"]) hash_store.
Proof.
  destruct (scan_visits_all (gmap (list Z) Item) id (λ _, True) 5 (B "0:") 1 None None hash_store) as (names & H & _).
  - apply map_laws.
  - apply map_scan_laws.
  - unfold clock_ok. width_lia.
  - apply (good_insert _ _ _ _ (good_insert _ _ _ _ (good_insert _ _ _ _ good_empty))).
  - reflexivity.
  - reflexivity.
  - replace names with [B "b"; B "h"] in H; [exact H|]. destruct (H hash_store I eq_refl) as (t & E & _).
    assert ((Ret names : outcome (list (list Z)) DbError) = Ret [B "b"; B "h"]) as E2; [|by injection E2].
    transitivity (fst (scan_all 3 5 (B "0:") (B "0") 1 None None hash_store)).
    + apply (f_equal fst) in E. symmetry. exact E.
    + vm_compute. reflexivity.
Defined.

(** A key named 0 ends the iteration with the keys after it not visited. *)
Lemma scan_stops_at_zero :
  let m : gmap (list Z) Item := <[B "0:0" := mkItem (B "0:0") [] 0 None]> (<[B "0:a" := mkItem (B "0:a") [] 0 None]> ∅) in
  fst (scan_all 9 5 (B "0:") (B "0") 1 None None m) = Ret [B "0"].
Proof. vm_compute. reflexivity. Qed.
