(* ===== verification/StreamLog.v ===== *)
(** * The log a stream implements: src/redis/stream.rs

    A stream is a list of entries in the order of their ids, with the last id given out,
    the first id and the greatest deleted id recorded for XINFO, and the number of entries
    ever added. The stream commands are steps of a machine on such logs ([xstep]); here it
    is proved that the operations of [Stream], on the stored entries, refine it, for every
    sequence of commands, and that the ids of a log stay in strict order. *)
From S2P Require Import Prelude Bytes Resp Kv Registry StreamCodec Op Namespace Session Elements Ranges Stream.
Import MapTx.

(** ** Logs *)

Record Log : Type := mkLog {
  lg_entries : Entries;
  lg_last : StreamEntryId;
  lg_first : StreamEntryId;
  lg_max_deleted : StreamEntryId;
  lg_added : Z
}.

Definition log_new : Log := mkLog [] ID_ZERO ID_ZERO ID_ZERO 0.
Definition lg_ids (l : Log) : list StreamEntryId := (lg_entries l).*1.
Definition lg_len (l : Log) : Z := Z.of_nat (length (lg_entries l)).

(** What the sentinel holds. *)
Definition meta_of (l : Log) : StreamMeta :=
  mkMeta 1 (lg_len l) (lg_last l) (lg_first l) (lg_max_deleted l) (lg_added l).

Definition id_max (a b : StreamEntryId) : StreamEntryId := if bool_decide (id_lt a b) then b else a.

(** An emptied log forgets its ids. *)
Definition log_reset (l : Log) : Log :=
  match lg_entries l with [] => mkLog [] ID_ZERO ID_ZERO (lg_max_deleted l) (lg_added l) | _ => l end.

Definition log_append (id : StreamEntryId) (fields : Fields) (l : Log) : Log :=
  mkLog (lg_entries l ++ [(id, fields)]) id (match lg_entries l with [] => id | _ => lg_first l end)
    (lg_max_deleted l) (as_u64 (lg_added l + 1)).

Definition in_ids (start end_ : option StreamEntryId) (id : StreamEntryId) : bool :=
  from_option (λ a, bool_decide (id_le a id)) true start && from_option (λ b, bool_decide (id_le id b)) true end_.

(** The first [count] entries of a range, at least one. *)
Definition log_range (start end_ : option StreamEntryId) (count : Z) (l : Log) : Entries :=
  take (Z.to_nat (Z.max 1 count)) (List.filter (λ e, in_ids start end_ e.1) (lg_entries l)).

Definition log_after (id : StreamEntryId) (count : Z) (l : Log) : Entries :=
  take (Z.to_nat (Z.max 1 count)) (List.filter (λ e, bool_decide (id_lt id e.1)) (lg_entries l)).

Definition keep (P : StreamEntryId → bool) (es : Entries) : Entries := List.filter (λ e, P e.1) es.

(** Without the entries [ids], and the greatest id deleted. *)
Definition log_remove (ids : list StreamEntryId) (l : Log) : Log :=
  mkLog (keep (λ id, negb (bool_decide (id ∈ ids))) (lg_entries l)) (lg_last l) (lg_first l)
    (fold_left id_max (filter (.∈ lg_ids l) ids) (lg_max_deleted l)) (lg_added l).
Definition log_delete (ids : list StreamEntryId) (l : Log) : Log := log_reset (log_remove ids l).

(** The last [limit] entries. *)
Definition log_trim_len (limit : Z) (l : Log) : Log :=
  let kept := drop (Z.to_nat (lg_len l - limit)) (lg_entries l) in
  log_reset (mkLog kept (lg_last l) (match kept with e :: _ => e.1 | [] => lg_first l end)
    (lg_max_deleted l) (lg_added l)).

(** The entries from [min] on. *)
Definition log_trim_id (min : StreamEntryId) (l : Log) : Log :=
  let kept := keep (λ id, bool_decide (id_le min id)) (lg_entries l) in
  let first := if (length kept <? length (lg_entries l))%nat then min else lg_first l in
  let l' := log_reset (mkLog kept (lg_last l) first (lg_max_deleted l) (lg_added l)) in
  mkLog (lg_entries l') (lg_last l') (lg_first l') (id_max (lg_max_deleted l') min) (lg_added l').

(** A limit that is met ends the trimming. *)
Definition log_trim (max_len : option Z) (min_id : option StreamEntryId) (l : Log) : Log :=
  let by_id l := match min_id, lg_entries l with Some min, _ :: _ => log_trim_id min l | _, _ => l end in
  match max_len with
  | None => by_id l
  | Some limit => if lg_len l <=? limit then l else by_id (log_trim_len limit l)
  end.

(** ** The machine *)

Inductive xcmd : Type :=
| XAdd (nomkstream : bool) (max_len : option Z) (min_id id : option StreamEntryId) (field_values : list (list Z))
| XLen
| XRange (start end_ : option StreamEntryId) (count : Z) (rev : bool)
| XRead (name : list Z) (after : option StreamEntryId) (count : Z)
| XDel (ids : list StreamEntryId)
| XTrim (max_len : option Z) (min_id : option StreamEntryId)
| XSetId (id : StreamEntryId)
| XInfo.

(** The id of an entry to add: one in use or passed is refused. *)
Definition next_id_of (now : Z) (explicit_id : option StreamEntryId) (last : StreamEntryId)
  : result StreamEntryId DbError :=
  match explicit_id with
  | Some id =>
      if bool_decide (id = ID_ZERO) then
        Err (Redis (if bool_decide (last = ID_ZERO) then B "ERR The ID specified in XADD must be greater than 0-0"
                    else bad_top_item))
      else if bool_decide (id_lt last id) then Ok id else Err (Redis bad_top_item)
  | None => Ok (if sid_ms last <? now then mkId now 0 else mkId (sid_ms last) (sid_seq last + 1))
  end.

Definition xadd_step (now : Z) (pk : list Z) (nomkstream : bool) (max_len : option Z) (min_id id : option StreamEntryId)
    (field_values : list (list Z)) (o : option Log) : result DbResult DbError * option Log :=
  if bool_decide (o = None) && nomkstream then (Err (Redis (B "no such key")), o)
  else
    let l := default log_new o in
    match next_id_of now id (lg_last l) with
    | Err e => (Err e, o)
    | Ok id =>
        if Nat.odd (length field_values) then (Err (Redis (B "ERR wrong number of arguments for XADD")), o)
        else (Ok (RXAdd (display id) (stream_notification pk)),
              Some (log_trim max_len min_id (log_append id (field_pairs field_values) l)))
    end.

Definition xstep (now : Z) (pk : list Z) (c : xcmd) (o : option Log) : result DbResult DbError * option Log :=
  match c with
  | XAdd nomk max_len min_id id fvs => xadd_step now pk nomk max_len min_id id fvs o
  | XLen => (Ok (RInt (from_option lg_len 0 o)), o)
  | XRange start end_ count rev =>
      let es := from_option (log_range start end_ count) [] o in
      (Ok (REntries (if rev then reverse es else es)), o)
  | XRead name after count =>
      (Ok (RStreams [(name, from_option (λ l, log_after (default (lg_last l) after) count l) [] o)]), o)
  | XDel ids =>
      match o with
      | None => (Ok (RInt 0), None)
      | Some l => let l' := log_delete ids l in (Ok (RInt (lg_len l - lg_len l')), Some l')
      end
  | XTrim max_len min_id =>
      match o with
      | None => (Ok (RInt 0), None)
      | Some l => let l' := log_trim max_len min_id l in (Ok (RInt (lg_len l - lg_len l')), Some l')
      end
  | XSetId id =>
      let l := default log_new o in
      (Ok RUnit, Some (mkLog (lg_entries l) id (lg_first l) (lg_max_deleted l) (lg_added l)))
  | XInfo => match o with Some l => (Ok (RMeta (meta_of l)), o) | None => (Err (Kv KeyNotFound), o) end
  end.

(** ** Well-formed logs *)

Definition bumpable (id : StreamEntryId) : Prop := sid_ms id < u64_max ∨ sid_seq id < u64_max.

Definition sentry_ok (e : StreamEntryId * Fields) : Prop := sid_ok e.1 ∧ fields_ok e.2.

Record log_ok (l : Log) : Prop := {
  lok_sorted : StronglySorted id_lt (lg_ids l);
  lok_entries : Forall sentry_ok (lg_entries l);
  lok_last : Forall (λ id, id_le id (lg_last l)) (lg_ids l);
  lok_first : Forall (id_le (lg_first l)) (lg_ids l);
  lok_ids : sid_ok (lg_last l) ∧ sid_ok (lg_first l) ∧ sid_ok (lg_max_deleted l);
  lok_added : 0 ≤ lg_added l < 2 ^ 64;
  lok_len : lg_len l < 2 ^ 63
}.

Lemma id_zero_ok : sid_ok ID_ZERO.
Proof. unfold sid_ok. simpl. lia. Qed.
#[export] Hint Resolve id_zero_ok : core.

Lemma log_new_ok : log_ok log_new.
Proof. split; [constructor..| | |]; [by split_and!|done|done]. Qed.

Lemma meta_of_ok l : log_ok l → meta_ok (meta_of l).
Proof.
  intros [_ _ _ _ (? & ? & ?) ? ?]. unfold lg_len in *. unfold meta_ok, meta_of, lg_len. simpl. split_and!; try done; lia.
Qed.

Lemma id_max_ok a b : sid_ok a → sid_ok b → sid_ok (id_max a b).
Proof. unfold id_max. by case_bool_decide. Qed.
Lemma id_le_refl a : id_le a a.
Proof. apply id_le_lt_eq. by right. Qed.
#[export] Instance id_le_trans : Transitive id_le.
Proof. intros a b c. unfold id_le. lia. Qed.
Lemma zero_le id : sid_ok id → id_le ID_ZERO id.
Proof. unfold sid_ok, id_le. simpl. lia. Qed.

(** Part of a log's entries is a log, with the bounds moved outwards or reset. *)
Lemma sorted_sublist {A} (R : A → A → Prop) l1 l2 : l1 `sublist_of` l2 → StronglySorted R l2 → StronglySorted R l1.
Proof.
  intros Hs. induction Hs as [|x l1 l2 Hs IH|x l1 l2 Hs IH]; intros Hl; [done| |].
  - apply StronglySorted_inv in Hl as [Hl Hx]. constructor; [auto|].
    rewrite Forall_forall in Hx |- *. intros y Hy. apply Hx. by eapply elem_of_sublist.
  - apply StronglySorted_inv in Hl as [Hl Hx]. auto.
Qed.
Lemma Forall_sublist' {A} (P : A → Prop) l1 l2 : l1 `sublist_of` l2 → Forall P l2 → Forall P l1.
Proof. intros Hs. rewrite !Forall_forall. intros H y Hy. apply H. by eapply elem_of_sublist. Qed.

Lemma log_shrink l es first md :
  log_ok l → es `sublist_of` lg_entries l → Forall (id_le first) es.*1 → sid_ok first → sid_ok md →
  log_ok (mkLog es (lg_last l) first md (lg_added l)).
Proof.
  intros [Hs He Hl _ (? & ? & ?) ? Hlen] Hsub Hf ? ?. pose proof (fmap_sublist fst _ _ Hsub) as Hi.
  split; unfold lg_ids, lg_len in *; simpl; try done.
  - by eapply sorted_sublist.
  - by eapply Forall_sublist'.
  - by eapply Forall_sublist'.
  - pose proof (sublist_length _ _ Hsub). lia.
Qed.

Lemma log_reset_ok l : log_ok l → log_ok (log_reset l).
Proof.
  intros Hl. unfold log_reset. destruct (lg_entries l) eqn:E; [|done]. destruct Hl as [_ _ _ _ (? & ? & ?) ? _].
  split; [constructor..| |done|done]. by split_and!.
Qed.
Lemma log_reset_entries l : lg_entries (log_reset l) = lg_entries l.
Proof. unfold log_reset. by destruct (lg_entries l) eqn:E. Qed.
Lemma log_reset_added l : lg_added (log_reset l) = lg_added l.
Proof. unfold log_reset. by destruct (lg_entries l) eqn:E. Qed.

Lemma keep_sublist P es : keep P es `sublist_of` es.
Proof. apply sublist_filter_bool. Qed.

Lemma log_remove_ok ids l : log_ok l → Forall sid_ok ids → log_ok (log_remove ids l).
Proof.
  intros Hl Hids. apply log_shrink; [done|apply keep_sublist| |apply Hl|].
  - eapply Forall_sublist'; [apply fmap_sublist, keep_sublist|]. apply Hl.
  - assert (Forall sid_ok (filter (.∈ lg_ids l) ids)) as Hf by (eapply Forall_sublist'; [apply sublist_filter|done]).
    pose proof (proj2 (proj2 (lok_ids _ Hl))) as Hm. revert Hm. generalize (lg_max_deleted l).
    induction Hf as [|id ids' Hid _ IH]; intros md Hm; [done|]. apply IH. by apply id_max_ok.
Qed.

Lemma log_trim_len_ok limit l : log_ok l → log_ok (log_trim_len limit l).
Proof.
  intros Hl. pose proof (sublist_drop (lg_entries l) (Z.to_nat (lg_len l - limit))) as Hsub.
  apply log_reset_ok, log_shrink; [done|done| | |apply Hl].
  - pose proof (sorted_sublist _ _ _ (fmap_sublist fst _ _ Hsub) (lok_sorted _ Hl)) as Hs.
    destruct (drop _ _) as [|e es]; [constructor|]. apply StronglySorted_inv in Hs as [_ Hs].
    constructor; [apply id_le_refl|]. eapply Forall_impl; [exact Hs|]. intros id. apply id_lt_le.
  - pose proof (Forall_sublist' _ _ _ Hsub (lok_entries _ Hl)) as He.
    destruct (drop _ _) as [|e es]; [apply Hl|]. by apply Forall_cons in He as [[? _] _].
Qed.

Lemma log_with_deleted l md : log_ok l → sid_ok md → log_ok (mkLog (lg_entries l) (lg_last l) (lg_first l) md (lg_added l)).
Proof. intros Hl Hmd. apply log_shrink; [done..|apply Hl|apply Hl|done]. Qed.

Lemma log_trim_id_ok min l : log_ok l → sid_ok min → log_ok (log_trim_id min l).
Proof.
  intros Hl Hmin. apply log_with_deleted.
  2: { apply id_max_ok; [|done]. unfold log_reset. simpl. by destruct (keep _ _); apply Hl. }
  apply log_reset_ok, log_shrink; [done|apply keep_sublist| |by destruct (_ <? _)%nat; [|apply Hl]|apply Hl].
  destruct (_ <? _)%nat.
  - apply Forall_forall. intros id (e & -> & He)%list_elem_of_fmap.
    apply list_elem_of_In, filter_In in He as [_ He]. by apply bool_decide_eq_true in He.
  - eapply Forall_sublist'; [apply fmap_sublist, keep_sublist|]. apply Hl.
Qed.

Lemma log_trim_ok max_len min_id l : log_ok l → from_option sid_ok True min_id → log_ok (log_trim max_len min_id l).
Proof.
  intros Hl Hmin.
  assert (∀ l, log_ok l → log_ok match min_id, lg_entries l with Some min, _ :: _ => log_trim_id min l | _, _ => l end) as Hid.
  { intros l' Hl'. destruct min_id; [|done]. destruct (lg_entries l'); [done|]. by apply log_trim_id_ok. }
  unfold log_trim. destruct max_len as [limit|]; [|auto]. destruct (_ <=? _); [done|]. by apply Hid, log_trim_len_ok.
Qed.

Lemma log_append_ok id fields l :
  log_ok l → sid_ok id → fields_ok fields → id_lt (lg_last l) id → lg_len l + 1 < 2 ^ 63 → log_ok (log_append id fields l).
Proof.
  intros [Hs He Hl Hf (? & ? & ?) ? Hlen] Hid Hfs Hlt Hn. split; unfold lg_ids, lg_len in *; simpl.
  - rewrite fmap_app. apply StronglySorted_app_2; [|done|repeat constructor].
    intros x y Hx ->%list_elem_of_singleton. rewrite Forall_forall in Hl. specialize (Hl x Hx).
    apply id_le_lt_eq in Hl as [Hl| ->]; [by etrans|done].
  - apply Forall_app. split; [done|]. constructor; [done|constructor].
  - rewrite fmap_app. apply Forall_app. split; [|constructor; [apply id_le_refl|constructor]].
    eapply Forall_impl; [exact Hl|]. intros x Hx. etrans; [exact Hx|]. by apply id_lt_le.
  - rewrite fmap_app. apply Forall_app. destruct (lg_entries l) as [|e es].
    + split; [constructor|]. constructor; [apply id_le_refl|constructor].
    + split; [done|]. constructor; [|constructor]. apply Forall_cons in Hf as [Hf _], Hl as [Hl _].
      etrans; [exact Hf|]. etrans; [exact Hl|]. by apply id_lt_le.
  - split_and!; [done| |done]. by destruct (lg_entries l).
  - apply as_u64_range.
  - rewrite length_app. simpl. lia.
Qed.

(** ** Entries as elements *)

Definition entry_name (id : StreamEntryId) : list Z := to_dec 1 ++ B ":" ++ key_part id.
Definition entry_pair (e : StreamEntryId * Fields) : list Z * list Z := (entry_name e.1, encode_entry_value e.2).
Definition names (es : Entries) : gmap (list Z) (list Z) := list_to_map (entry_pair <$> es).

Lemma stream_entry_key_element p id : stream_entry_key p 1 id = element_key p (entry_name id).
Proof. done. Qed.
Lemma entry_key_prefix p id : stream_entry_key p 1 id = entry_prefix p 1 ++ key_part id.
Proof. unfold stream_entry_key, entry_prefix. by rewrite <- !app_assoc. Qed.

Lemma entry_name_inj a b : sid_ok a → sid_ok b → entry_name a = entry_name b → a = b.
Proof. intros Ha Hb H. unfold entry_name in H. do 2 apply app_inv_head in H. by apply key_part_inj. Qed.

Lemma sorted_nodup (l : list StreamEntryId) : StronglySorted id_lt l → NoDup l.
Proof.
  induction 1 as [|x l _ IH Hx]; constructor; [|done]. rewrite Forall_forall in Hx.
  intros Hin. by apply (id_lt_irrefl x), Hx.
Qed.

Lemma names_nodup es : StronglySorted id_lt es.*1 → Forall sentry_ok es → NoDup (entry_pair <$> es).*1.
Proof.
  intros Hs%sorted_nodup He. rewrite <- list_fmap_compose. change (fst ∘ entry_pair) with (entry_name ∘ @fst StreamEntryId Fields).
  rewrite list_fmap_compose. apply NoDup_fmap_2_strong; [|done].
  intros x y (e & -> & Hx)%list_elem_of_fmap (f & -> & Hy)%list_elem_of_fmap. rewrite Forall_forall in He.
  apply entry_name_inj; by apply He.
Qed.

(** The name order of the entries is the order of their ids. *)
Lemma sorted_names es :
  StronglySorted id_lt es.*1 → Forall sentry_ok es → sorted_pairs (names es) = entry_pair <$> es.
Proof.
  intros Hs He. pose proof (names_nodup es Hs He) as Hnd. unfold sorted_pairs, names.
  apply (Sorted_unique_strong pair_le).
  - intros [f v] [g w] Hf Hg H1 H2. rewrite merge_sort_Permutation, map_to_list_to_map in Hf by done.
    pose proof (bytes_le_antisym _ _ H1 H2) as E. simpl in E. subst g. f_equal.
    apply elem_of_list_to_map in Hf, Hg; [|done..]. congruence.
  - apply Sorted_merge_sort. apply _.
  - clear Hnd. apply StronglySorted_Sorted. induction He as [|e es He Hes IH]; simpl in *; [constructor|].
    apply StronglySorted_inv in Hs as [Hs Hx]. constructor; [auto|].
    rewrite Forall_forall in Hx. rewrite Forall_forall in Hes. apply Forall_forall. intros y (e' & -> & Hy)%list_elem_of_fmap.
    unfold pair_le, entry_pair, entry_name. cbn [fst]. rewrite !bytes_le_app, key_part_le; [|apply He|by apply Hes].
    apply bool_decide_eq_true, id_lt_le, Hx, list_elem_of_fmap. eauto.
  - by rewrite merge_sort_Permutation, map_to_list_to_map.
Qed.

Lemma names_at es id :
  Forall sentry_ok es → sid_ok id → entry_name id ∈ (entry_pair <$> es).*1 ↔ id ∈ es.*1.
Proof.
  intros He Hid. rewrite Forall_forall in He. rewrite !list_elem_of_fmap. split.
  - intros (? & H & (e & -> & Hin)%list_elem_of_fmap). exists e. split; [|done].
    apply entry_name_inj; [done|by apply He|done].
  - intros (e & -> & Hin). exists (entry_pair e). split; [done|]. by apply list_elem_of_fmap_2.
Qed.

Lemma names_none es id : Forall sentry_ok es → sid_ok id → names es !! entry_name id = None ↔ id ∉ es.*1.
Proof. intros He Hid. unfold names. by rewrite <- not_elem_of_list_to_map, names_at. Qed.

Lemma names_snoc es id fields :
  Forall sentry_ok es → sid_ok id → id ∉ es.*1 →
  names (es ++ [(id, fields)]) = <[entry_name id := encode_entry_value fields]> (names es).
Proof.
  intros He Hid Hn. unfold names. rewrite fmap_app. apply list_to_map_snoc. by rewrite names_at.
Qed.

Lemma names_delete es id :
  Forall sentry_ok es → sid_ok id →
  delete (entry_name id) (names es) = names (keep (λ x, negb (bool_decide (x = id))) es).
Proof.
  intros He Hid. induction He as [|e es [Hx Hf] He IH]; [apply delete_empty|].
  unfold names, keep in *. cbn [fmap list_fmap List.filter]. case_bool_decide as E; cbn [negb].
  - rewrite E in *. rewrite <- IH. unfold entry_pair at 1. rewrite E. cbn [list_to_map foldr uncurry]. apply delete_insert_eq.
  - cbn [fmap list_fmap list_to_map foldr uncurry entry_pair fst snd] in *. rewrite delete_insert_ne; [by f_equal|].
    intros H. apply E. by apply entry_name_inj.
Qed.

(** ** Scans of entries *)

(** A stored entry as the iterators show it. *)
Definition entry_kv (p : list Z) (e : StreamEntryId * Fields) : list Z * list Z :=
  (stream_entry_key p 1 e.1, encode_entry_value e.2).

Lemma filter_fmap_bool {A C} (f : A → C) (P : C → bool) l :
  List.filter P (f <$> l) = f <$> List.filter (λ x, P (f x)) l.
Proof. induction l as [|x l IH]; [done|]. cbn [fmap list_fmap List.filter]. rewrite IH. by destruct (P (f x)). Qed.
Lemma filter_all {A} (P : A → bool) l : (∀ x, x ∈ l → P x = true) → List.filter P l = l.
Proof.
  induction l as [|x l IH]; intros H; [done|]. simpl. rewrite H by left. f_equal. apply IH. intros y Hy. apply H. by right.
Qed.
Lemma filter_ext_in_bool {A} (P Q : A → bool) l : (∀ x, x ∈ l → P x = Q x) → List.filter P l = List.filter Q l.
Proof.
  induction l as [|x l IH]; intros H; [done|]. simpl. rewrite (H x), IH; [done| |by left]. intros y Hy. apply H. by right.
Qed.

Section Scans.
Context (now : Z) (m : gmap (list Z) Item) (p : list Z) (es : Entries).
Context (Hk : keyed m) (He : elements_at now m p (names es)) (Hs : StronglySorted id_lt es.*1) (Hok : Forall sentry_ok es).

Lemma prefix_items :
  key_value <$> scan_prefix now (entry_prefix p 1) m = entry_kv p <$> es.
Proof.
  transitivity (key_value <$> scan_where now (λ k, starts_with (entry_prefix p 1) k && starts_with (elements_prefix p) k) m).
  { f_equal. apply scan_where_ext. intros k. destruct (starts_with (entry_prefix p 1) k) eqn:E; [|done].
    apply starts_with_spec in E as [s ->]. unfold entry_prefix, elements_prefix. rewrite <- !app_assoc, !(app_assoc p).
    by rewrite starts_with_app. }
  rewrite scan_where_filter by done.
  rewrite <- (filter_fmap_bool key_value (λ kv, starts_with (entry_prefix p 1) kv.1)).
  change (scan_where now (starts_with (elements_prefix p)) m) with (scan_prefix now (elements_prefix p) m).
  rewrite (scan_elements now m p (names es)), sorted_names by done. rewrite <- list_fmap_compose.
  change (prod_map (element_key p) id ∘ entry_pair) with (entry_kv p). apply filter_all.
  intros x (e & -> & _)%list_elem_of_fmap. unfold entry_kv. simpl. rewrite entry_key_prefix. apply starts_with_app.
Qed.

(** The items of a range that starts within the prefix: entries, then other keys. *)
Lemma range_items lo hi :
  (∀ k, above lo k = true → bytes_le (entry_prefix p 1) k = true) →
  ∃ rest, key_value <$> scan_range now lo hi m =
    (entry_kv p <$> List.filter (λ e, in_bounds lo hi (stream_entry_key p 1 e.1)) es) ++ rest ∧
    Forall (λ kv, starts_with (entry_prefix p 1) kv.1 = false ∧ in_bounds lo hi kv.1 = true) rest.
Proof.
  intros Hlo. rewrite (scan_range_split now m Hk (entry_prefix p 1) lo hi Hlo), fmap_app.
  eexists. split; [f_equal|].
  - rewrite scan_where_filter by done. rewrite <- (filter_fmap_bool key_value (λ kv, in_bounds lo hi kv.1)).
    change (scan_where now (starts_with (entry_prefix p 1)) m) with (scan_prefix now (entry_prefix p 1) m).
    rewrite prefix_items, filter_fmap_bool. done.
  - apply Forall_fmap, Forall_forall. intros i [_ [[Hb Hi]%andb_true_iff _]]%scan_where_elem.
    by apply negb_true_iff in Hi.
Qed.

Lemma above_start start k :
  above (range_start_bound p 1 start) k = true → bytes_le (entry_prefix p 1) k = true.
Proof.
  destruct start as [id|]; cbn [range_start_bound above]; [|done]. intros H.
  eapply bytes_le_trans; [|exact H]. rewrite entry_key_prefix. apply bytes_le_prefix.
Qed.

Lemma in_bounds_ids start end_ id :
  sid_ok id → from_option sid_ok True start → from_option sid_ok True end_ →
  in_bounds (range_start_bound p 1 start) (range_end_bound p 1 end_) (stream_entry_key p 1 id) = in_ids start end_ id.
Proof.
  intros Hid Hst Hen. unfold in_bounds, in_ids. f_equal.
  - destruct start as [a|]; cbn [range_start_bound above from_option].
    + by rewrite !entry_key_prefix, bytes_le_app, key_part_le.
    + rewrite entry_key_prefix. apply bytes_le_prefix.
  - destruct end_ as [b|]; cbn [range_end_bound below from_option]; [|done].
    by rewrite !entry_key_prefix, bytes_le_app, key_part_le.
Qed.
End Scans.

(** ** The loops over scanned items *)
Lemma key_value_cons items kv kvs :
  key_value <$> items = kv :: kvs → ∃ i items', items = i :: items' ∧ key_value i = kv ∧ key_value <$> items' = kvs.
Proof. destruct items as [|i items']; [done|]. intros [= H1 H2]. eauto. Qed.

Lemma scan_entries_loop_spec p count items es rest results :
  key_value <$> items = (entry_kv p <$> es) ++ rest → Forall sentry_ok es →
  Forall (λ kv : list Z * list Z, starts_with (entry_prefix p 1) kv.1 = false) rest →
  ∃ b, scan_entries_loop (entry_prefix p 1) count items results =
    Ret (results ++ take (Z.to_nat (Z.max 1 (count - Z.of_nat (length results)))) es, b).
Proof.
  intros Hi Hok Hrest. revert items results Hi. induction Hok as [|[id fs] es [Hid Hfs] _ IH]; intros items results Hi.
  - rewrite take_nil, app_nil_r. simpl in Hi. destruct items as [|i items]; [by eexists|]. destruct rest as [|kv rest]; [done|].
    injection Hi as Hi _. apply Forall_cons in Hrest as [Hr _]. subst kv. unfold key_value in Hr. cbn [fst] in Hr.
    cbn [scan_entries_loop]. rewrite Hr. by eexists.
  - cbn [fmap list_fmap app] in Hi. apply key_value_cons in Hi as (i & items' & -> & [= Hkey Hv] & Hi). cbn [fst snd] in *.
    cbn [scan_entries_loop]. rewrite Hkey, Hv. rewrite entry_key_prefix, starts_with_app. cbn [negb].
    rewrite entry_id_from_key_part, decode_encode_entry by done. change (default [] (Some fs)) with fs.
    rewrite length_app. cbn [length]. destruct (Z.leb_spec count (Z.of_nat (length results + 1))).
    + replace (Z.to_nat _) with 1%nat by lia. by eexists.
    + destruct (IH items' (results ++ [(id, fs)]) Hi) as [b Hb]. exists b. rewrite Hb.
      rewrite length_app. cbn [length]. replace (Z.to_nat (Z.max 1 (count - Z.of_nat (length results))))
        with (S (Z.to_nat (Z.max 1 (count - Z.of_nat (length results + 1))))) by lia.
      by rewrite <- app_assoc.
Qed.

(** The other keys end a loop over the entries. *)
Lemma trim_scan_end p n items rest seen keys first :
  key_value <$> items = rest → Forall (λ kv : list Z * list Z, starts_with (entry_prefix p 1) kv.1 = false) rest →
  ∃ b, trim_scan (entry_prefix p 1) n seen items keys first = Ret (keys, first, b).
Proof.
  intros Hi Hr. destruct items as [|i items]; [by eexists|]. destruct rest as [|kv rest]; [done|].
  injection Hi as Hi _. apply Forall_cons in Hr as [Hr _]. subst kv. cbn [trim_scan]. unfold key_value in Hr. cbn [fst] in Hr.
  rewrite Hr. by eexists.
Qed.

Lemma trim_scan_kept p n items es rest seen keys id :
  key_value <$> items = (entry_kv p <$> es) ++ rest →
  Forall (λ kv : list Z * list Z, starts_with (entry_prefix p 1) kv.1 = false) rest →
  0 ≤ n ≤ seen → seen + Z.of_nat (length es) < 2 ^ 64 →
  ∃ b, trim_scan (entry_prefix p 1) n seen items keys (Some id) = Ret (keys, Some id, b).
Proof.
  intros Hi Hrest. revert items seen Hi. induction es as [|e es IH]; intros items seen Hi Hn Hlen.
  { by apply (trim_scan_end p n items rest). }
  cbn [fmap list_fmap app] in Hi. apply key_value_cons in Hi as (i & items' & -> & [= Hkey Hv] & Hi). cbn [length] in Hlen.
  cbn [trim_scan]. rewrite Hkey, entry_key_prefix, starts_with_app. cbn [negb].
  rewrite as_u64_id by lia. destruct (Z.leb_spec (seen + 1) n); [lia|]. apply IH; [done|lia..].
Qed.

Lemma trim_scan_spec p n items es rest seen keys :
  key_value <$> items = (entry_kv p <$> es) ++ rest → Forall sentry_ok es →
  Forall (λ kv : list Z * list Z, starts_with (entry_prefix p 1) kv.1 = false) rest →
  0 ≤ seen ≤ n → seen + Z.of_nat (length es) < 2 ^ 64 →
  ∃ b, trim_scan (entry_prefix p 1) n seen items keys None =
    Ret (keys ++ (stream_entry_key p 1 ∘ fst <$> take (Z.to_nat (n - seen)) es),
         fst <$> head (drop (Z.to_nat (n - seen)) es), b).
Proof.
  intros Hi Hok Hrest. revert items seen keys Hi. induction Hok as [|[id fs] es [Hid _] _ IH]; intros items seen keys Hi Hn Hlen.
  { rewrite take_nil, drop_nil. cbn [fmap list_fmap head option_fmap option_map]. rewrite app_nil_r.
    by apply (trim_scan_end p n items rest). }
  cbn [fmap list_fmap app] in Hi. apply key_value_cons in Hi as (i & items' & -> & [= Hkey Hv] & Hi). cbn [length fst snd] in *.
  cbn [trim_scan]. rewrite Hkey, as_u64_id by lia.
  replace (starts_with (entry_prefix p 1) (stream_entry_key p 1 id)) with true
    by (rewrite entry_key_prefix; symmetry; apply starts_with_app).
  cbn [negb]. destruct (Z.leb_spec (seen + 1) n).
  - destruct (IH items' (seen + 1) (keys ++ [stream_entry_key p 1 id]) Hi) as [b Hb]; [lia..|]. exists b. rewrite Hb.
    replace (Z.to_nat (n - seen)) with (S (Z.to_nat (n - (seen + 1)))) by lia. by rewrite <- app_assoc.
  - replace (Z.to_nat (n - seen)) with 0%nat by lia. rewrite (entry_key_prefix p id), entry_id_from_key_part by done.
    cbn [take drop head fmap list_fmap option_fmap option_map fst]. rewrite app_nil_r.
    apply (trim_scan_kept p n items' es rest); [done..|lia|lia].
Qed.

(** ** Stored logs *)

Definition entries_of (o : option Log) : Entries := from_option lg_entries [] o.

Record stream_at (now : Z) (m : gmap (list Z) Item) (pk legacy : list Z) (i : Item) (p : ElementPrefix) (l : Log) : Prop := {
  sta_live : live now pk m = Some i;
  sta_type : base_type (item_meta i) = TYPE_STREAM;
  sta_payload : payload i = Ok (meta_encode (meta_of l));
  sta_prefix : prefix_of i legacy = Ok p;
  sta_log : log_ok l;
  sta_entries : elements_at now m (prefix_bytes p) (names (lg_entries l));
  sta_layout : layout pk legacy p;
  sta_legacy : explicit p = true → elements_at now m legacy ∅
}.

(** The stream under [pk], absent or a log. *)
Inductive stream_stored (now : Z) (m : gmap (list Z) Item) (pk legacy : list Z) : option Log → Prop :=
| stream_none : live now pk m = None → elements_at now m legacy ∅ → stream_stored now m pk legacy None
| stream_some i p l : stream_at now m pk legacy i p l → stream_stored now m pk legacy (Some l).

(** The prefix [p] a command resolves to, or would with the namespace [id], and what it finds there. *)
Record stream_writable (now : Z) (m : gmap (list Z) Item) (pk legacy id : list Z) (p : ElementPrefix) (o : option Log) : Prop := {
  sw_sentinel :
    match o with
    | Some l => ∃ i, live now pk m = Some i ∧ base_type (item_meta i) = TYPE_STREAM ∧ prefix_of i legacy = Ok p ∧
                payload i = Ok (meta_encode (meta_of l))
    | None => live now pk m = None ∧ new_namespace id legacy = Ok p ∧ explicit p = true
    end;
  sw_log : from_option log_ok True o;
  sw_entries : elements_at now m (prefix_bytes p) (names (entries_of o));
  sw_layout : layout pk legacy p;
  sw_legacy : explicit p = true → elements_at now m legacy ∅
}.

Lemma stream_stored_writable now m pk legacy id o :
  stream_stored now m pk legacy o → fresh now m pk legacy id → ∃ p, stream_writable now m pk legacy id p o.
Proof.
  intros [Hl Hleg|i p l [Hl Hty Hpl Hp Hlog He Hlay Hleg]] (p0 & Hnew & Hfe & Hfl).
  - exists p0. split; try done. split_and!; [done..|by eapply new_namespace_explicit].
  - exists p. split; try done. by exists i.
Qed.

Lemma stream_at_writable now m pk legacy id i p l :
  stream_at now m pk legacy i p l → stream_writable now m pk legacy id p (Some l).
Proof. intros [Hl Hty Hpl Hp Hlog He Hlay Hleg]. split; try done. by exists i. Qed.

Lemma stream_writable_used now m pk legacy id p o :
  stream_writable now m pk legacy id p o → used_prefix (now:=now) m pk legacy id = Ok p.
Proof.
  intros [Hw _ _ _ _]. unfold used_prefix. destruct o as [l|].
  - by destruct Hw as (i & -> & _ & ? & _).
  - by destruct Hw as (-> & ? & _).
Qed.

(** From [m] to [m'] the stream under [pk] became [o']: nothing but its key and its
    entries under [p] changed, and its key keeps prefix and expiry. *)
Record stream_updated (now : Z) (m : gmap (list Z) Item) (pk legacy : list Z) (p : ElementPrefix)
    (m' : gmap (list Z) Item) (o' : option Log) : Prop := {
  su_good : good m';
  su_stored : stream_stored now m' pk legacy o';
  su_frame : ∀ k : list Z, k ≠ pk → (∀ f, k ≠ element_key (prefix_bytes p) f) → m' !! k = m !! k;
  su_key i : live now pk m' = Some i →
    prefix_of i legacy = Ok p ∧ item_expire_ts i = (live now pk m ≫= item_expire_ts)
}.

Lemma stream_unchanged now m pk legacy id p o :
  good m → stream_writable now m pk legacy id p o → stream_updated now m pk legacy p m o.
Proof.
  intros Hg [Hw Hlog He Hlay Hleg]. split; [done| |done|].
  - destruct o as [l|].
    + destruct Hw as (i & ? & ? & ? & ?). by eapply stream_some with i p.
    + destruct Hw as (? & _ & ?). apply stream_none; auto.
  - intros j Hj. rewrite Hj. split; [|done]. destruct o as [l|].
    + destruct Hw as (i & Hi & _ & ? & _). congruence.
    + destruct Hw as (? & _). congruence.
Qed.

Lemma stream_updated_trans now m1 m2 m3 pk legacy p l2 o3 :
  stream_updated now m1 pk legacy p m2 (Some l2) → stream_updated now m2 pk legacy p m3 o3 →
  stream_updated now m1 pk legacy p m3 o3.
Proof.
  intros [_ Hs2 Hf2 Hk2] [Hg3 Hs3 Hf3 Hk3]. split; [done..| |].
  - intros k Hk Hf. by rewrite Hf3, Hf2.
  - intros i Hi. destruct (Hk3 i Hi) as [? ->]. split; [done|]. inversion Hs2 as [|j q l Hst]; subst.
    destruct (Hk2 j) as [_ Hj]; [apply Hst|]. by rewrite (sta_live _ _ _ _ _ _ _ Hst).
Qed.

Section Runs.
Context {T : Type} `{!TxOps T} {raw : T → gmap (list Z) Item} {ok : T → Prop}.
Context `{HT : !TxLaws T raw ok, HS : !TxScanLaws T raw ok} {now : Z} (Hnow : clock_ok now).
#[local] Abbreviation Runs := (Runs (raw:=raw) (ok:=ok)).

(** ** The sentinel *)
Lemma runs_read_stream pk m :
  Runs (read_stream_sentinel now pk) m
    (match live now pk m with
     | None => Fail (Kv KeyNotFound)
     | Some i =>
         if negb (base_type (item_meta i) =? TYPE_STREAM) then Fail WrongType
         else match payload i with
              | Ok val => match meta_decode val with Some x => Ret x | None => Fail (Kv KeyNotFound) end
              | Err e => Fail e
              end
     end) m.
Proof.
  eapply runs_bind; [by apply runs_get|]. rewrite lookup_live_live.
  destruct (live now pk m) as [i|]; [|apply runs_bind_fail, runs_fail].
  eapply runs_bind; [apply runs_ret|]. destruct (negb _); [apply runs_fail|].
  destruct (payload i) as [val|e]; [|apply runs_bind_fail, runs_fail].
  eapply runs_bind; [apply runs_ret|]. destruct (meta_decode val); [apply runs_ret|apply runs_fail].
Qed.

Lemma runs_read_log pk m i l :
  live now pk m = Some i → base_type (item_meta i) = TYPE_STREAM → payload i = Ok (meta_encode (meta_of l)) → log_ok l →
  Runs (read_stream_sentinel now pk) m (Ret (meta_of l)) m.
Proof.
  intros Hl Hty Hp Hok. pose proof (runs_read_stream pk m) as H.
  rewrite Hl, Hty, Hp, Z.eqb_refl in H. cbn [negb] in H. by rewrite meta_decode_encode in H by (by apply meta_of_ok).
Qed.

(** The two ways [on_stream] goes on. *)
Lemma runs_on_stream {A} pk legacy m o (missing : DbM T A) found r m' :
  stream_stored now m pk legacy o →
  match o with Some l => Runs (found (meta_of l)) m r m' | None => Runs missing m r m' end →
  Runs (on_stream now pk missing found) m r m'.
Proof.
  intros Hs Hr. destruct Hs as [Hl _|i p l [Hl Hty Hpl _ Hlog _ _ _]].
  - pose proof (runs_read_stream pk m) as H. rewrite Hl in H. eapply runs_bind; [apply runs_caught_fail, H|exact Hr].
  - eapply runs_bind; [apply runs_caught; by eapply runs_read_log|exact Hr].
Qed.

Lemma stream_resolve pk legacy id m p o :
  stream_writable now m pk legacy id p o → Runs (resolve_prefix_for_write now id pk legacy) m (Ret p) m.
Proof.
  intros [Hw _ _ _ _]. eapply runs_bind; [by apply runs_get|]. rewrite lookup_live_live. destruct o as [l|].
  - destruct Hw as (i & -> & _ & -> & _). apply runs_ret.
  - destruct Hw as (-> & -> & _). apply runs_ret.
Qed.

(** The prefix a command resolves to that does not create the key. *)
Lemma stream_resolve_read pk legacy id m p o :
  stream_writable now m pk legacy id p o →
  Runs (resolve_prefix now pk legacy) m (Ret (match o with Some _ => p | None => legacy_prefix legacy end)) m.
Proof.
  intros [Hw _ _ _ _]. eapply runs_bind; [by apply runs_get|]. rewrite lookup_live_live. destruct o as [l|].
  - destruct Hw as (i & -> & _ & -> & _). apply runs_ret.
  - destruct Hw as (-> & _). apply runs_ret.
Qed.

(** Writing the sentinel after the entries were rewritten. *)
Lemma runs_write_log m pk legacy id p o m1 l' :
  stream_writable now m pk legacy id p o → rewritten (now:=now) (prefix_bytes p) m m1 (names (lg_entries l')) → log_ok l' →
  ∃ m', Runs (write_stream_sentinel now pk (meta_of l') p) m1 (Ret ()) m' ∧ stream_updated now m pk legacy p m' (Some l').
Proof.
  intros [Hw Hlog He Hlay Hleg] [Hg He1 Ho] Hok.
  assert (live now pk m1 = live now pk m) as Hl.
  { apply (same_outside_live _ _ _ _ Ho). intros f Hf. by eapply (lay_public _ _ _ Hlay f). }
  destruct (runs_write_payload (raw:=raw) (ok:=ok) Hnow TYPE_STREAM pk legacy p (meta_encode (meta_of l')) m1)
    as (i & Hexp & Hrun & Hg' & Hl' & Hty & Hpl & Hpre); [done|done|apply Hlay| |].
  { rewrite Hl. destruct o as [l|]; [by destruct Hw as (j & -> & _ & ? & _)|by destruct Hw as (-> & _ & ?)]. }
  assert (∀ q hq, (∀ f, element_key q f ≠ pk) → elements_at now m1 q hq → elements_at now (<[pk := i]> m1) q hq) as Hstep.
  { intros q hq Hne Hq f. rewrite live_insert_ne by (by symmetry). apply Hq. }
  exists (<[pk := i]> m1). split; [exact Hrun|]. split; [done| | |].
  - eapply stream_some with i p. split; try done.
    + apply Hstep; [apply Hlay|done].
    + intros Hx. apply Hstep; [apply Hlay|]. apply (same_outside_elements _ _ _ _ _ Ho); [|auto]. by apply (lay_explicit _ _ _ Hlay).
  - intros k Hk Hf. rewrite lookup_insert_ne by done. by apply Ho.
  - intros j Hj. rewrite Hl' in Hj. injection Hj as <-. split; [done|]. by rewrite Hexp, Hl.
Qed.

(** ** Scanning and trimming *)
Lemma key_value_data (items items' : list Item) : item_data <$> items = item_data <$> items' → key_value <$> items = key_value <$> items'.
Proof.
  intros H. apply (f_equal (fmap fst)) in H. rewrite <- !list_fmap_compose in H. exact H.
Qed.

Lemma runs_ret_eq {A} (a b : A) m : a = b → Runs (mret a) m (Ret b) m.
Proof. intros ->. apply runs_ret. Qed.

Lemma runs_check_end {A} (it : Iter) b (k : DbM T A) m r m' :
  iter_err it = None → Runs k m r m' → Runs (check_end it b ;; k) m r m'.
Proof. intros Hit Hk. unfold check_end. rewrite Hit. eapply runs_bind; [apply runs_ret|exact Hk]. Qed.

Lemma runs_scan_entries m p l start end_ count :
  keyed m → elements_at now m p (names (lg_entries l)) → log_ok l →
  from_option sid_ok True start → from_option sid_ok True end_ →
  Runs (scan_entries now p 1 start end_ count) m (Ret (log_range start end_ count l)) m.
Proof.
  intros Hk He Hl Hst Hen. apply (runs_range_bind Hnow). intros it Hit Hi%key_value_data.
  destruct (range_items now m p (lg_entries l) Hk He (lok_sorted _ Hl) (lok_entries _ Hl)
    (range_start_bound p 1 start) (range_end_bound p 1 end_) (above_start p start)) as (rest & Hr & Hrest).
  rewrite Hr in Hi.
  assert (List.filter (λ e, in_bounds (range_start_bound p 1 start) (range_end_bound p 1 end_) (stream_entry_key p 1 e.1)) (lg_entries l)
    = List.filter (λ e, in_ids start end_ e.1) (lg_entries l)) as E.
  { apply filter_ext_in_bool. intros e Hin. apply in_bounds_ids; [|done..].
    pose proof (lok_entries _ Hl) as H. rewrite Forall_forall in H. by apply H. }
  rewrite E in Hi. destruct (scan_entries_loop_spec p count (iter_items it) _ rest [] Hi) as [b Hb].
  { eapply Forall_sublist'; [apply sublist_filter_bool|apply Hl]. }
  { eapply Forall_impl; [exact Hrest|]. by intros kv []. }
  rewrite Hb. cbn [lift app length]. eapply runs_bind; [apply runs_ret|]. apply (runs_check_end it b); [done|].
  cbn [fst]. rewrite Z.sub_0_r. apply runs_ret.
Qed.

Lemma keep_keep P Q es : keep P (keep Q es) = keep (λ id, Q id && P id) es.
Proof.
  unfold keep. induction es as [|e es IH]; [done|]. cbn [List.filter]. destruct (Q e.1); cbn [List.filter andb]; [|done].
  by rewrite IH.
Qed.
Lemma keep_all P es : (∀ e, e ∈ es → P e.1 = true) → keep P es = es.
Proof. apply filter_all. Qed.
Lemma keep_ext P Q es : (∀ e, e ∈ es → P e.1 = Q e.1) → keep P es = keep Q es.
Proof. apply filter_ext_in_bool. Qed.

(** Deleting the keys of [ids]. *)
Lemma runs_delete_entries p ids m es :
  good m → elements_at now m p (names es) → Forall sentry_ok es → Forall sid_ok ids →
  ∃ m', Runs (delete_entries (stream_entry_key p 1 <$> ids)) m (Ret ()) m' ∧
    rewritten (now:=now) p m m' (names (keep (λ id, negb (bool_decide (id ∈ ids))) es)).
Proof.
  intros Hg He Hok Hids. revert m es Hg He Hok. induction Hids as [|id ids Hid _ IH]; intros m es Hg He Hok.
  { exists m. split; [apply runs_ret|]. rewrite keep_all; [by apply rewritten_refl|]. intros e _. by rewrite bool_decide_false by set_solver. }
  destruct (runs_delete_element (raw:=raw) (ok:=ok) (now:=now) p (entry_name id) m _ Hg He) as (m1 & H1 & Hr1).
  rewrite names_delete in Hr1 by done.
  destruct (IH m1 _ (rw_good _ _ _ _ Hr1) (rw_elements _ _ _ _ Hr1)) as (m2 & H2 & Hr2).
  { eapply Forall_sublist'; [apply keep_sublist|done]. }
  exists m2. split; [eapply runs_bind; [exact H1|exact H2]|].
  rewrite keep_keep in Hr2. erewrite keep_ext; [by eapply rewritten_trans|].
  intros e _. cbn beta. rewrite <- negb_orb. f_equal. apply eq_true_iff_eq.
  rewrite orb_true_iff, !bool_decide_eq_true. set_solver.
Qed.

Lemma keep_drop n es : NoDup es.*1 → keep (λ id, negb (bool_decide (id ∈ (take n es).*1))) es = drop n es.
Proof.
  revert n. induction es as [|e es IH]; intros [|n] Hnd; [done..| |].
  { apply keep_all. intros e' _. by rewrite bool_decide_false by set_solver. }
  cbn [fmap list_fmap] in Hnd. apply NoDup_cons in Hnd as [Hn Hnd]. cbn [take drop fmap list_fmap keep List.filter].
  rewrite bool_decide_true by set_solver. cbn [negb]. rewrite <- (IH n Hnd). apply filter_ext_in_bool. intros e' He'.
  do 2 f_equal. apply bool_decide_ext. rewrite elem_of_cons. split; [|by right]. intros [E|]; [|done].
  exfalso. apply Hn. rewrite <- E. by apply list_elem_of_fmap_2.
Qed.

(** The counters written after entries went. *)
Lemma meta_reset l : reset_if_empty (meta_of l) = meta_of (log_reset l).
Proof.
  unfold reset_if_empty, log_reset, meta_of, lg_len. cbn [sm_count].
  by destruct l as [[|e es] ? ? ? ?].
Qed.

Lemma entry_ids_ok es : Forall sentry_ok es → Forall sid_ok es.*1.
Proof. intros H. apply Forall_fmap. eapply Forall_impl; [exact H|]. by intros e []. Qed.

Lemma runs_trim_maxlen m p l limit :
  good m → elements_at now m p (names (lg_entries l)) → log_ok l → 0 ≤ limit < lg_len l →
  ∃ m', Runs (trim_maxlen now p limit (meta_of l)) m (Ret (meta_of (log_trim_len limit l))) m' ∧
    rewritten (now:=now) p m m' (names (lg_entries (log_trim_len limit l))).
Proof.
  intros Hg He Hl Hlim. pose proof (lok_len _ Hl) as Hlen. pose proof (lok_entries _ Hl) as Hok.
  set (n := Z.to_nat (lg_len l - limit)).
  destruct (runs_delete_entries p (take n (lg_entries l)).*1 m (lg_entries l) Hg He Hok) as (m' & Hrun & Hrw).
  { apply entry_ids_ok. eapply Forall_sublist'; [apply sublist_take|done]. }
  rewrite keep_drop in Hrw by (apply sorted_nodup, Hl).
  exists m'. split; [|unfold log_trim_len; by rewrite log_reset_entries].
  apply (runs_range_bind Hnow). intros it Hit Hi%key_value_data.
  destruct (range_items now m p (lg_entries l) (proj2 Hg) He (lok_sorted _ Hl) Hok
    (range_start_bound p 1 None) Unbounded (above_start p None)) as (rest & Hr & Hrest).
  cbn [range_start_bound] in Hr. cbn [meta_of sm_version] in Hi. rewrite Hr, filter_all in Hi.
  2: { intros e _. unfold in_bounds. cbn [above below]. rewrite entry_key_prefix, bytes_le_prefix. done. }
  cbn [meta_of sm_version sm_count].
  destruct (trim_scan_spec p (lg_len l - limit) (iter_items it) (lg_entries l) rest 0 [] Hi Hok) as [b Hb]; [|lia| |].
  { eapply Forall_impl; [exact Hrest|]. by intros kv []. }
  { unfold lg_len in Hlen. lia. }
  rewrite Hb, Z.sub_0_r. cbn [lift app]. eapply runs_bind; [apply runs_ret|]. apply (runs_check_end it b); [done|].
  rewrite list_fmap_compose. fold n. eapply runs_bind; [exact Hrun|]. cbn beta.
  cbv zeta. apply runs_ret_eq.
  unfold log_trim_len. fold n. rewrite <- meta_reset. f_equal. unfold with_first, with_count, meta_of, lg_len in *. cbn.
  rewrite length_drop. destruct (drop n (lg_entries l)) as [|e es]; cbn; f_equal; lia.
Qed.

Lemma runs_trim_minid m p l min :
  good m → elements_at now m p (names (lg_entries l)) → log_ok l → sid_ok min →
  ∃ m', Runs (trim_minid now p min (meta_of l)) m (Ret (meta_of (log_trim_id min l))) m' ∧
    rewritten (now:=now) p m m' (names (lg_entries (log_trim_id min l))).
Proof.
  intros Hg He Hl Hmin. pose proof (lok_len _ Hl) as Hlen. pose proof (lok_entries _ Hl) as Hok.
  set (gone := keep (λ id, negb (bool_decide (id_le min id))) (lg_entries l)).
  set (kept := keep (λ id, bool_decide (id_le min id)) (lg_entries l)).
  assert (keep (λ id, negb (bool_decide (id ∈ gone.*1))) (lg_entries l) = kept) as Ekept.
  { apply keep_ext. intros e Hin. rewrite <- (negb_involutive (bool_decide (id_le min e.1))). f_equal. apply eq_true_iff_eq.
    rewrite bool_decide_eq_true, list_elem_of_fmap. unfold gone, keep. setoid_rewrite list_elem_of_In. setoid_rewrite filter_In.
    split; [by intros (e' & -> & _ & ?)|]. intros H. exists e. split_and!; [done| |done]. by apply list_elem_of_In. }
  assert (length gone + length kept = length (lg_entries l))%nat as Elen.
  { unfold gone, kept, keep. clear. induction (lg_entries l) as [|e es IH]; [done|]. cbn [List.filter].
    destruct (bool_decide (id_le min e.1)); cbn [negb length]; lia. }
  destruct (runs_delete_entries p gone.*1 m (lg_entries l) Hg He Hok) as (m' & Hrun & Hrw).
  { apply entry_ids_ok. eapply Forall_sublist'; [apply keep_sublist|done]. }
  rewrite Ekept in Hrw. exists m'. split; [|unfold log_trim_id; cbn [lg_entries]; by rewrite log_reset_entries].
  apply (runs_range_bind Hnow). intros it Hit Hi%key_value_data.
  destruct (range_items now m p (lg_entries l) (proj2 Hg) He (lok_sorted _ Hl) Hok
    (range_start_bound p 1 None) (Excluded (stream_entry_key p 1 min)) (above_start p None)) as (rest & Hr & Hrest).
  assert (rest = []) as ->.
  { destruct rest as [|kv rest]; [done|]. apply Forall_cons in Hrest as [[Hn [Ha Hb]%andb_true_iff] _]. exfalso.
    cbn [range_start_bound above below] in Ha, Hb. rewrite negb_true_iff in Hb.
    destruct (bytes_le_total kv.1 (stream_entry_key p 1 min)) as [H|H]; [|by rewrite H in Hb].
    pose proof (starts_with_between _ _ _ Ha Hn H) as Hx. by rewrite entry_key_prefix, starts_with_app in Hx. }
  assert (item_key <$> iter_items it = stream_entry_key p 1 <$> gone.*1) as Ekeys.
  { cbn [range_start_bound] in Hr. cbn [meta_of sm_version] in Hi. rewrite Hr, app_nil_r in Hi. apply (f_equal (fmap fst)) in Hi. rewrite <- !list_fmap_compose in Hi.
    transitivity (fst ∘ key_value <$> iter_items it); [done|]. rewrite Hi. rewrite <- list_fmap_compose. unfold gone, keep.
    change (stream_entry_key p 1 ∘ fst) with (fst ∘ entry_kv p). f_equal. apply filter_ext_in_bool. intros e Hin.
    rewrite Forall_forall in Hok. unfold in_bounds. cbn [above below]. rewrite !entry_key_prefix, bytes_le_prefix, bytes_le_app, key_part_le; [done|done|].
    by apply Hok. }
  apply (runs_check_end it true); [done|]. rewrite Ekeys. eapply runs_bind; [exact Hrun|]. cbn beta.
  cbv zeta. rewrite !length_fmap. apply runs_ret_eq.
  replace (with_count _ (meta_of l)) with (meta_of (mkLog kept (lg_last l) (lg_first l) (lg_max_deleted l) (lg_added l)))
    by (unfold with_count, meta_of, lg_len; cbn; f_equal; lia).
  assert ((length kept <? length (lg_entries l))%nat = (0 <? Z.of_nat (length gone))) as Elt
    by (apply eq_true_iff_eq; rewrite Nat.ltb_lt, Z.ltb_lt; lia).
  unfold log_trim_id. fold kept. rewrite Elt.
  unfold id_max, meta_of, lg_len, reset_if_empty, log_reset, with_last, with_first, with_max_deleted. clear.
  destruct (0 <? _), kept as [|e es]; cbn [lg_entries length sm_count];
    [change (Z.of_nat 0 =? 0) with true|rewrite (proj2 (Z.eqb_neq _ 0)) by lia
    |change (Z.of_nat 0 =? 0) with true|rewrite (proj2 (Z.eqb_neq _ 0)) by lia]; cbn; by case_bool_decide.
Qed.

Lemma runs_do_trim m p l max_len min_id :
  good m → elements_at now m p (names (lg_entries l)) → log_ok l →
  from_option (λ n, 0 ≤ n) True max_len → from_option sid_ok True min_id →
  ∃ m', Runs (do_trim now p (meta_of l) max_len min_id) m (Ret (meta_of (log_trim max_len min_id l))) m' ∧
    rewritten (now:=now) p m m' (names (lg_entries (log_trim max_len min_id l))).
Proof.
  intros Hg He Hl Hmax Hmin.
  assert (∀ m l, good m → elements_at now m p (names (lg_entries l)) → log_ok l →
    let l' := match min_id, lg_entries l with Some min, _ :: _ => log_trim_id min l | _, _ => l end in
    ∃ m', Runs match min_id with
               | None => mret (meta_of l)
               | Some min => if sm_count (meta_of l) =? 0 then mret (meta_of l) else trim_minid now p min (meta_of l)
               end m (Ret (meta_of l')) m' ∧ rewritten (now:=now) p m m' (names (lg_entries l'))) as Hid.
  { clear m l Hg He Hl. intros m l Hg He Hl. destruct min_id as [min|].
    2: { exists m. split; [apply runs_ret|by apply rewritten_refl]. }
    unfold meta_of at 1, lg_len. cbn [sm_count]. destruct (lg_entries l) as [|e es] eqn:E.
    - exists m. split; [apply runs_ret|]. rewrite E. by apply rewritten_refl.
    - rewrite <- E in He. cbn [length]. rewrite (proj2 (Z.eqb_neq _ 0)) by lia. by apply runs_trim_minid. }
  unfold do_trim. destruct (Z.eqb_spec (sm_count (meta_of l)) 0) as [H0|H0]; cbn [meta_of sm_count] in H0; unfold lg_len in H0.
  - assert (lg_entries l = []) as E by (destruct (lg_entries l); [done|simpl in H0; lia]).
    assert (log_trim max_len min_id l = l) as ->.
    { unfold log_trim, lg_len. destruct max_len as [n|]; [simpl in Hmax; rewrite E; cbn [length]; by rewrite (proj2 (Z.leb_le _ _)) by lia|].
      rewrite E. by destruct min_id. }
    exists m. split; [apply runs_ret|by apply rewritten_refl].
  - unfold log_trim. destruct max_len as [limit|]; cycle 1.
    { pose proof (Hid m l Hg He Hl) as H. cbv zeta in H. rewrite (proj2 (Z.eqb_neq (sm_count (meta_of l)) 0)) in H by done. exact H. }
    cbn [meta_of sm_count]. simpl in Hmax.
    destruct (Z.leb_spec (lg_len l) limit) as [Hle|Hgt].
    + exists m. split; [apply runs_ret|by apply rewritten_refl].
    + destruct (runs_trim_maxlen m p l limit Hg He Hl ltac:(lia)) as (m1 & H1 & Hr1).
      destruct (Hid m1 (log_trim_len limit l)) as (m2 & H2 & Hr2); [apply Hr1|apply Hr1|by apply log_trim_len_ok|].
      exists m2. split; [|by eapply rewritten_trans]. eapply runs_bind; [exact H1|exact H2].
Qed.

(** Ids that are not above the accumulator do not matter for the maximum. *)
Lemma fold_max_skip (P Q : StreamEntryId → Prop) `{!∀ x, Decision (P x), !∀ x, Decision (Q x)} id ids acc :
  id_le id acc → (∀ x, Q x ↔ P x ∧ x ≠ id) → fold_left id_max (filter P ids) acc = fold_left id_max (filter Q ids) acc.
Proof.
  intros Hle HQ. revert acc Hle. induction ids as [|x ids IH]; intros acc Hle; [done|].
  rewrite !filter_cons. destruct (decide (Q x)) as [Hq|Hq].
  - rewrite decide_True by (by apply HQ). cbn [fold_left]. apply IH. unfold id_max. case_bool_decide; [|done].
    etrans; [exact Hle|by apply id_lt_le].
  - destruct (decide (P x)) as [Hp|Hp]; [|auto]. assert (x = id) as -> by (destruct (decide (x = id)); [done|]; exfalso; apply Hq, HQ; done).
    cbn [fold_left]. replace (id_max acc id) with acc; [auto|]. unfold id_max. rewrite bool_decide_false; [done|].
    by intros Hx%id_lt_not_le.
Qed.

(** One entry removed. *)
Definition log_remove_one (id : StreamEntryId) (l : Log) : Log :=
  mkLog (keep (λ x, negb (bool_decide (x = id))) (lg_entries l)) (lg_last l) (lg_first l) (id_max (lg_max_deleted l) id) (lg_added l).

Lemma elem_of_keep P es id : id ∈ (keep P es).*1 ↔ id ∈ es.*1 ∧ P id = true.
Proof.
  rewrite !list_elem_of_fmap. unfold keep. setoid_rewrite list_elem_of_In. setoid_rewrite filter_In. split.
  - intros (e & -> & ? & ?). eauto.
  - intros ((e & -> & ?) & ?). eauto.
Qed.

Lemma keep_one_length id es :
  NoDup es.*1 → id ∈ es.*1 → S (length (keep (λ x, negb (bool_decide (x = id))) es)) = length es.
Proof.
  intros Hnd Hin. induction es as [|e es IH]; [by apply not_elem_of_nil in Hin|].
  cbn [fmap list_fmap keep List.filter] in *. apply NoDup_cons in Hnd as [Hn Hnd]. case_bool_decide as E; cbn [negb].
  - f_equal. fold (keep (λ x, negb (bool_decide (x = id))) es). rewrite keep_all; [done|]. intros e' He'.
    rewrite bool_decide_false; [done|]. intros E'. apply Hn. rewrite E, <- E'. by apply list_elem_of_fmap_2.
  - cbn [length]. f_equal. apply IH; [done|]. apply elem_of_cons in Hin as [Hin|]; [|done]. by symmetry in Hin.
Qed.

Lemma log_remove_found id ids l :
  id ∈ lg_ids l → log_remove ids (log_remove_one id l) = log_remove (id :: ids) l.
Proof.
  intros Hin. unfold log_remove. rewrite filter_cons_True by done.
  cbn [fold_left log_remove_one lg_entries lg_last lg_first lg_max_deleted lg_added].
  f_equal.
  - rewrite keep_keep. apply keep_ext. intros e _. cbn beta. rewrite <- negb_orb. f_equal. apply eq_true_iff_eq.
    rewrite orb_true_iff, !bool_decide_eq_true. set_solver.
  - symmetry. apply (fold_max_skip _ _ id).
    + unfold id_max. case_bool_decide as H; [apply id_le_refl|]. unfold id_lt in H. unfold id_le. lia.
    + intros x. unfold lg_ids. cbn [log_remove_one lg_entries]. rewrite elem_of_keep, negb_true_iff, bool_decide_eq_false. done.
Qed.

Lemma log_remove_missing id ids l : id ∉ lg_ids l → log_remove (id :: ids) l = log_remove ids l.
Proof.
  intros Hn. unfold log_remove. rewrite filter_cons_False by done. f_equal. apply keep_ext. intros e He. do 2 f_equal.
  apply bool_decide_ext. rewrite elem_of_cons. split; [|by right]. intros [E|]; [|done]. exfalso. apply Hn. rewrite <- E.
  by apply list_elem_of_fmap_2.
Qed.

Lemma log_remove_one_ok id l : log_ok l → sid_ok id → log_ok (log_remove_one id l).
Proof.
  intros Hl Hid. apply log_shrink; [done|apply keep_sublist| |apply Hl|by apply id_max_ok; [apply Hl|]].
  eapply Forall_sublist'; [apply fmap_sublist, keep_sublist|apply Hl].
Qed.

Lemma runs_xdel_loop p ids deleted m l :
  good m → elements_at now m p (names (lg_entries l)) → log_ok l → Forall sid_ok ids →
  ∃ m', Runs (xdel_loop now p ids deleted (meta_of l)) m
          (Ret (deleted + (lg_len l - lg_len (log_remove ids l)), meta_of (log_remove ids l))) m' ∧
    rewritten (now:=now) p m m' (names (lg_entries (log_remove ids l))).
Proof.
  intros Hg He Hl Hids. revert deleted m l Hg He Hl. induction Hids as [|id ids Hid Hids IH]; intros deleted m l Hg He Hl.
  { assert (log_remove [] l = l) as ->.
    { unfold log_remove. rewrite keep_all; [by destruct l|]. intros e _. by rewrite bool_decide_false by set_solver. }
    exists m. split; [|by apply rewritten_refl]. cbn [xdel_loop]. apply runs_ret_eq. f_equal. lia. }
  pose proof (live_element _ (entry_name id) m _ He) as Hlive. pose proof (lok_entries _ Hl) as Hok.
  cbn [xdel_loop]. change (stream_entry_key p (sm_version (meta_of l)) id) with (element_key p (entry_name id)).
  destruct (live now (element_key p (entry_name id)) m) as [i|] eqn:El.
  - assert (id ∈ lg_ids l) as Hin.
    { destruct (decide (id ∈ lg_ids l)); [done|]. rewrite (proj2 (names_none _ _ Hok Hid)) in Hlive by done. done. }
    destruct (runs_delete_element (raw:=raw) (ok:=ok) (now:=now) p (entry_name id) m _ Hg He) as (m1 & H1 & Hr1).
    rewrite names_delete in Hr1 by done. change (keep _ (lg_entries l)) with (lg_entries (log_remove_one id l)) in Hr1.
    pose proof (keep_one_length id (lg_entries l) (sorted_nodup _ (lok_sorted _ Hl)) Hin) as Hone.
    destruct (IH (deleted + 1) m1 (log_remove_one id l)) as (m2 & H2 & Hr2); [apply Hr1|apply Hr1|by apply log_remove_one_ok|].
    rewrite log_remove_found in H2, Hr2 by done. exists m2. split; [|by eapply rewritten_trans].
    eapply runs_bind; [by apply runs_get_opt|]. rewrite El. eapply runs_bind; [exact H1|]. cbv zeta.
    match goal with |- Runs (xdel_loop _ _ _ _ ?x) _ _ _ => replace x with (meta_of (log_remove_one id l)) end.
    + assert (lg_len l = lg_len (log_remove_one id l) + 1) as -> by (unfold lg_len, log_remove_one; cbn [lg_entries]; lia).
      by replace (deleted + (lg_len (log_remove_one id l) + 1 - lg_len (log_remove (id :: ids) l)))
        with (deleted + 1 + (lg_len (log_remove_one id l) - lg_len (log_remove (id :: ids) l))) by lia.
    + unfold meta_of, log_remove_one, with_count, with_max_deleted, id_max, lg_len. cbn.
      case_bool_decide; cbn; f_equal; lia.
  - rewrite names_none in Hlive by done. destruct (IH deleted m l Hg He Hl) as (m2 & H2 & Hr2). exists m2.
    rewrite log_remove_missing by done. split; [|done]. eapply runs_bind; [by apply runs_get_opt|]. by rewrite El.
Qed.
End Runs.

(** ** The operations refine the machine *)

Definition xcmd_op {T} `{!TxOps T} (now : Z) (id pk legacy : list Z) (c : xcmd) : DbM T DbResult :=
  match c with
  | XAdd nomk max_len min_id explicit_id fvs => XAddOp now id pk legacy nomk max_len min_id explicit_id fvs
  | XLen => XLenOp now pk
  | XRange start end_ count rev => XRangeOp now pk legacy start end_ count rev
  | XRead name after count => XReadOp now [mkXStream pk legacy name] [after] count
  | XDel ids => XDelOp now pk legacy ids
  | XTrim max_len min_id => XTrimOp now pk legacy max_len min_id
  | XSetId last_id => XSetIdOp now id pk legacy last_id
  | XInfo => XInfoStreamOp now pk
  end.

(** What a command may ask for: ids are pairs of 64-bit numbers and sizes fit the format.
    An explicit id that is not above the last one must not pass the code's comparison,
    which looks at the two halves of an id separately; the sequence numbers are not
    exhausted; XSETID does not go below an entry. *)
Definition last_of (o : option Log) : StreamEntryId := lg_last (default log_new o).
Definition xregular (c : xcmd) (o : option Log) : Prop :=
  match c with
  | XAdd _ max_len min_id explicit_id fvs =>
      from_option (λ n, 0 ≤ n) True max_len ∧ from_option sid_ok True min_id ∧ fields_ok (field_pairs fvs) ∧
      from_option lg_len 0 o + 1 < 2 ^ 63 ∧
      match explicit_id with
      | Some id => sid_ok id ∧ (id_lt (last_of o) id ∨ sid_ms id ≤ sid_ms (last_of o) ∧ sid_seq id ≤ sid_seq (last_of o))
      | None => sid_seq (last_of o) < u64_max
      end
  | XRange start end_ _ _ => from_option sid_ok True start ∧ from_option sid_ok True end_
  | XRead _ after _ => from_option sid_ok True after ∧ bumpable (default (last_of o) after)
  | XDel ids => Forall sid_ok ids
  | XTrim max_len min_id => from_option (λ n, 0 ≤ n) True max_len ∧ from_option sid_ok True min_id
  | XSetId id => sid_ok id ∧ Forall (λ x, id_le x id) (entries_of o).*1
  | XLen | XInfo => True
  end.

Lemma bump_seq_spec a :
  sid_ok a → bumpable a → sid_ok (bump_seq a) ∧ ∀ b, sid_ok b → id_le (bump_seq a) b ↔ id_lt a b.
Proof.
  unfold sid_ok, bumpable, bump_seq, id_le, id_lt, u64_max. intros [Ha1 Ha2] Hb.
  destruct (Z.ltb_spec (sid_seq a) (2 ^ 64 - 1)); cbn [sid_ms sid_seq].
  - split; [lia|]. intros b ?. lia.
  - rewrite as_u64_id by lia. split; [lia|]. intros b ?. lia.
Qed.

Lemma log_after_range a count l :
  log_ok l → sid_ok a → bumpable a → log_range (Some (bump_seq a)) None count l = log_after a count l.
Proof.
  intros Hl Ha Hb. unfold log_range, log_after. f_equal. apply filter_ext_in_bool. intros e He.
  unfold in_ids. cbn [from_option]. rewrite andb_true_r. apply bool_decide_ext. apply bump_seq_spec; [done..|].
  pose proof (lok_entries _ Hl) as H. rewrite Forall_forall in H. by apply H.
Qed.

Lemma new_entry_id_spec now explicit_id last :
  clock_ok now → sid_ok last →
  match explicit_id with
  | Some id => sid_ok id ∧ (id_lt last id ∨ sid_ms id ≤ sid_ms last ∧ sid_seq id ≤ sid_seq last)
  | None => sid_seq last < u64_max
  end →
  new_entry_id now explicit_id last = next_id_of now explicit_id last ∧
  ∀ id, next_id_of now explicit_id last = Ok id → sid_ok id ∧ id_lt last id.
Proof.
  intros Hnow [Hl1 Hl2] H. destruct explicit_id as [id|]; cbn [new_entry_id next_id_of].
  - destruct H as [[Hi1 Hi2] H]. destruct id as [ms seq], last as [lms lseq]. unfold id_lt, ID_ZERO, sid_ok in *. cbn [sid_ms sid_seq] in *.
    destruct (decide (mkId ms seq = mkId 0 0)) as [E|E].
    + injection E as -> ->. rewrite (bool_decide_true (mkId 0 0 = _)) by done. split; [|done].
      rewrite !(proj2 (Z.leb_le _ _)) by lia. cbn. by case_bool_decide.
    + rewrite !(bool_decide_false (mkId ms seq = _)) by done.
      assert ((ms =? 0) && (seq =? 0) = false) as E0.
      { apply not_true_iff_false. rewrite andb_true_iff, !Z.eqb_eq. intros [-> ->]. done. }
      rewrite E0. cbn [andb negb]. rewrite andb_true_r. case_bool_decide as Hlt.
      * replace ((ms <=? lms) && (seq <=? lseq)) with false by (symmetry; apply andb_false_iff; rewrite !Z.leb_gt; lia).
        split; [done|]. intros ? [= <-]. cbn. lia.
      * rewrite !(proj2 (Z.leb_le _ _)) by lia. done.
  - unfold clock_ok, u64_max, i64_max in *. destruct (Z.ltb_spec (sid_ms last) now).
    + split; [done|]. intros id [= <-]. unfold sid_ok, id_lt. cbn. lia.
    + rewrite as_u64_id by lia. split; [done|]. intros id [= <-]. unfold sid_ok, id_lt. cbn. lia.
Qed.

Section Refines.
Context {T : Type} `{!TxOps T} {raw : T → gmap (list Z) Item} {ok : T → Prop}.
Context `{HT : !TxLaws T raw ok, HS : !TxScanLaws T raw ok} {now : Z} (Hnow : clock_ok now).
#[local] Abbreviation Runs := (Runs (raw:=raw) (ok:=ok)).

Definition xrefines (m : gmap (list Z) Item) (pk legacy id : list Z) (p : ElementPrefix) (o : option Log) (c : xcmd) : Prop :=
  ∃ m', Runs (xcmd_op now id pk legacy c) m (outcome_of (xstep now pk c o).1) m' ∧
    stream_updated now m pk legacy p m' (xstep now pk c o).2.

Lemma writable_stored m pk legacy id p o :
  good m → stream_writable now m pk legacy id p o → stream_stored now m pk legacy o.
Proof. intros Hg Hw. exact (su_stored _ _ _ _ _ _ _ (stream_unchanged _ _ _ _ _ _ _ Hg Hw)). Qed.

(** A command that only reads. *)
Lemma xrefines_read m pk legacy id p o c :
  good m → stream_writable now m pk legacy id p o →
  (xstep now pk c o).2 = o → Runs (xcmd_op now id pk legacy c) m (outcome_of (xstep now pk c o).1) m → xrefines m pk legacy id p o c.
Proof. intros Hg Hw E Hr. exists m. split; [exact Hr|]. rewrite E. by eapply stream_unchanged. Qed.

Lemma refines_xlen m pk legacy id p o :
  good m → stream_writable now m pk legacy id p o → xrefines m pk legacy id p o XLen.
Proof.
  intros Hg Hw. pose proof (writable_stored _ _ _ _ _ _ Hg Hw) as Hst. eapply xrefines_read; [done..|].
  eapply (runs_on_stream Hnow); [exact Hst|]. pose proof (sw_log _ _ _ _ _ _ _ Hw) as Hl.
  destruct o as [l|]; [|apply runs_ret]. apply runs_ret_eq. cbn [xstep fst from_option meta_of sm_count].
  rewrite as_i64_id; [done|]. pose proof (lok_len _ Hl). unfold lg_len in *. width_lia.
Qed.

Lemma refines_xrange m pk legacy id p o start end_ count rev :
  good m → stream_writable now m pk legacy id p o → xregular (XRange start end_ count rev) o →
  xrefines m pk legacy id p o (XRange start end_ count rev).
Proof.
  intros Hg Hw [H1 H2]. pose proof (writable_stored _ _ _ _ _ _ Hg Hw) as Hst. eapply xrefines_read; [done..|].
  eapply runs_bind; [exact (stream_resolve_read Hnow _ _ _ _ _ _ Hw)|].
  eapply (runs_on_stream Hnow); [exact Hst|]. destruct Hw as [_ Hl He _ _].
  destruct o as [l|]; [|apply runs_ret_eq; by destruct rev].
  eapply runs_bind; [apply (runs_scan_entries Hnow); try done; apply Hg|]. apply runs_ret.
Qed.

Lemma runs_xread m pk legacy id p o name after count :
  good m → stream_writable now m pk legacy id p o → xregular (XRead name after count) o →
  Runs (XReadOp now [mkXStream pk legacy name] [after] count) m
    (Ret (RStreams [(name, from_option (λ l, log_after (default (lg_last l) after) count l) [] o)])) m.
Proof.
  intros Hg Hw [H1 H2]. pose proof (writable_stored _ _ _ _ _ _ Hg Hw) as Hst.
  assert (Runs (resolve_read_ids now [(mkXStream pk legacy name, after)]) m
    (Ret [match o with Some l => Some (default (lg_last l) after) | None => after end]) m) as Hids.
  { cbn [resolve_read_ids xs_public]. destruct after as [a|].
    - eapply runs_bind; [apply runs_ret|]. eapply runs_bind; [apply runs_ret|]. apply runs_ret_eq. by destruct o.
    - eapply runs_bind; [|eapply runs_bind; [apply runs_ret|apply runs_ret]].
      eapply (runs_on_stream Hnow); [exact Hst|]. destruct o; apply runs_ret. }
  unfold XReadOp. eapply runs_bind; [exact Hids|]. cbn [zip zip_with read_streams xs_public xs_legacy xs_name].
  eapply runs_bind; [|apply runs_ret]. eapply runs_bind; [|eapply runs_bind; [apply runs_ret|apply runs_ret]].
  eapply (runs_on_stream Hnow); [exact Hst|]. pose proof (stream_resolve_read Hnow _ _ _ _ _ _ Hw) as Hres.
  destruct Hw as [_ Hl He _ _]. destruct o as [l|]; [|apply runs_ret].
  eapply runs_bind; [exact Hres|]. cbn [fmap option_fmap option_map from_option]. change (last_of (Some l)) with (lg_last l) in H2.
  assert (sid_ok (default (lg_last l) after)) as Ha by (destruct after; [done|apply Hl]).
  rewrite <- log_after_range by done. apply (runs_scan_entries Hnow); try done; [apply Hg|]. by apply bump_seq_spec.
Qed.

Lemma refines_xread m pk legacy id p o name after count :
  good m → stream_writable now m pk legacy id p o → xregular (XRead name after count) o →
  xrefines m pk legacy id p o (XRead name after count).
Proof. intros Hg Hw Hr. eapply xrefines_read; [done..|]. by eapply runs_xread. Qed.

Lemma refines_xinfo m pk legacy id p o :
  good m → stream_writable now m pk legacy id p o → xrefines m pk legacy id p o XInfo.
Proof.
  intros Hg Hw. pose proof (writable_stored _ _ _ _ _ _ Hg Hw) as Hst.
  eapply xrefines_read; [done..|by destruct o|]. cbn [xcmd_op]. unfold XInfoStreamOp. pose proof (runs_read_stream Hnow pk m) as H.
  destruct Hst as [Hl _|i q l [Hl Hty Hpl _ Hlog _ _ _]].
  - rewrite Hl in H. apply runs_bind_fail, H.
  - eapply runs_bind; [by eapply (runs_read_log Hnow)|]. apply runs_ret.
Qed.

Lemma refines_xdel m pk legacy id p o ids :
  good m → stream_writable now m pk legacy id p o → xregular (XDel ids) o →
  xrefines m pk legacy id p o (XDel ids).
Proof.
  intros Hg Hw Hids. pose proof (writable_stored _ _ _ _ _ _ Hg Hw) as Hst. unfold xrefines.
  pose proof (stream_resolve_read (raw:=raw) (ok:=ok) Hnow _ _ _ _ _ _ Hw) as Hres.
  pose proof (runs_on_stream (raw:=raw) (ok:=ok) Hnow (A:=DbResult) pk legacy m o) as Hon.
  pose proof (sw_log _ _ _ _ _ _ _ Hw) as Hl. pose proof (sw_entries _ _ _ _ _ _ _ Hw) as He. cbn [xstep xcmd_op].
  destruct o as [l|].
  - destruct (runs_xdel_loop (raw:=raw) (ok:=ok) Hnow (prefix_bytes p) ids 0 m l Hg He Hl Hids) as (m1 & H1 & Hr1).
    destruct (runs_write_log (raw:=raw) (ok:=ok) Hnow m pk legacy id p _ m1 (log_delete ids l) Hw) as (m2 & H2 & Hu2).
    { unfold log_delete. by rewrite log_reset_entries. }
    { by apply log_reset_ok, log_remove_ok. }
    exists m2. split; [|done]. eapply runs_bind; [exact Hres|]. eapply Hon; [exact Hst|].
    eapply runs_bind; [exact H1|]. cbn [fst snd]. rewrite meta_reset. eapply runs_bind; [exact H2|]. apply runs_ret_eq. f_equal.
    unfold lg_len, log_delete. rewrite log_reset_entries. lia.
  - exists m. split; [|by eapply stream_unchanged]. eapply runs_bind; [exact Hres|]. eapply Hon; [exact Hst|]. apply runs_ret.
Qed.

Lemma lg_len_trim max_len min_id l : lg_len (log_trim max_len min_id l) ≤ lg_len l.
Proof.
  assert (∀ l, lg_len (match min_id, lg_entries l with Some min, _ :: _ => log_trim_id min l | _, _ => l end) ≤ lg_len l) as H.
  { intros l'. destruct min_id as [min|]; [|done]. destruct (lg_entries l') eqn:E; [done|]. unfold lg_len, log_trim_id. cbn [lg_entries].
    rewrite log_reset_entries. cbn [lg_entries]. pose proof (sublist_length _ _ (keep_sublist (λ id, bool_decide (id_le min id)) (lg_entries l'))). lia. }
  unfold log_trim. destruct max_len as [n|]; [|apply H]. destruct (_ <=? _); [done|]. etrans; [apply H|].
  unfold lg_len, log_trim_len. rewrite log_reset_entries. cbn [lg_entries]. rewrite length_drop. lia.
Qed.

Lemma refines_xtrim m pk legacy id p o max_len min_id :
  good m → stream_writable now m pk legacy id p o → xregular (XTrim max_len min_id) o →
  xrefines m pk legacy id p o (XTrim max_len min_id).
Proof.
  intros Hg Hw [Hmax Hmin]. pose proof (writable_stored _ _ _ _ _ _ Hg Hw) as Hst. unfold xrefines.
  pose proof (stream_resolve_read (raw:=raw) (ok:=ok) Hnow _ _ _ _ _ _ Hw) as Hres.
  pose proof (runs_on_stream (raw:=raw) (ok:=ok) Hnow (A:=DbResult) pk legacy m o) as Hon.
  pose proof (sw_log _ _ _ _ _ _ _ Hw) as Hl. pose proof (sw_entries _ _ _ _ _ _ _ Hw) as He. cbn [xstep xcmd_op].
  destruct o as [l|].
  - destruct (runs_do_trim (raw:=raw) (ok:=ok) Hnow m (prefix_bytes p) l max_len min_id Hg He Hl Hmax Hmin) as (m1 & H1 & Hr1).
    destruct (runs_write_log (raw:=raw) (ok:=ok) Hnow m pk legacy id p _ m1 _ Hw Hr1) as (m2 & H2 & Hu2).
    { by apply log_trim_ok. }
    exists m2. split; [|done]. eapply runs_bind; [exact Hres|]. eapply Hon; [exact Hst|].
    eapply runs_bind; [exact H1|]. eapply runs_bind; [exact H2|]. apply runs_ret_eq. f_equal. cbn [meta_of sm_count].
    pose proof (lg_len_trim max_len min_id l). pose proof (lok_len _ Hl).
    assert (0 ≤ lg_len (log_trim max_len min_id l)) by (unfold lg_len; lia).
    rewrite as_u64_id, as_i64_id by width_lia. done.
  - exists m. split; [|by eapply stream_unchanged]. eapply runs_bind; [exact Hres|]. eapply Hon; [exact Hst|]. apply runs_ret.
Qed.

Lemma refines_xsetid m pk legacy id p o last_id :
  good m → stream_writable now m pk legacy id p o → xregular (XSetId last_id) o →
  xrefines m pk legacy id p o (XSetId last_id).
Proof.
  intros Hg Hw [Hid Hle]. pose proof (writable_stored _ _ _ _ _ _ Hg Hw) as Hst. set (l := default log_new o).
  assert (log_ok l) as Hl by (pose proof (sw_log _ _ _ _ _ _ _ Hw); subst l; destruct o; [done|apply log_new_ok]).
  destruct (runs_write_log (raw:=raw) (ok:=ok) Hnow m pk legacy id p _ m
    (mkLog (lg_entries l) last_id (lg_first l) (lg_max_deleted l) (lg_added l)) Hw) as (m2 & H2 & Hu2).
  { apply rewritten_refl; [done|]. pose proof (sw_entries _ _ _ _ _ _ _ Hw). by destruct o. }
  { destruct Hl as [? ? ? ? (? & ? & ?) ? ?]. split; try done. cbn. by destruct o. }
  exists m2. split; [|done]. cbn [xcmd_op]. eapply runs_bind; [exact (stream_resolve Hnow _ _ _ _ _ _ Hw)|].
  eapply runs_bind; [eapply (runs_on_stream Hnow) with (r := Ret (meta_of l)); [exact Hst|subst l; destruct o; apply runs_ret]|].
  eapply runs_bind; [exact H2|]. apply runs_ret.
Qed.

(** The tail of XADD: the sentinel written, the stream trimmed, the sentinel written again. *)
Definition xadd_trim (pk : list Z) (p : ElementPrefix) (max_len : option Z) (min_id : option StreamEntryId) (meta : StreamMeta)
  : DbM T () :=
  if bool_decide (is_Some max_len) || bool_decide (is_Some min_id) then
    meta ← do_trim now (prefix_bytes p) meta max_len min_id;
    write_stream_sentinel now pk meta p
  else mret ().

Lemma runs_xadd_trim m pk legacy p l max_len min_id :
  good m → stream_stored now m pk legacy (Some l) → (∀ i, live now pk m = Some i → prefix_of i legacy = Ok p) →
  from_option (λ n, 0 ≤ n) True max_len → from_option sid_ok True min_id →
  ∃ m', Runs (xadd_trim pk p max_len min_id (meta_of l)) m (Ret ()) m' ∧
    stream_updated now m pk legacy p m' (Some (log_trim max_len min_id l)).
Proof.
  intros Hg Hst Hp Hmax Hmin. inversion Hst as [|i q l' Hat]; subst.
  assert (q = p) as ->. { pose proof (Hp i (sta_live _ _ _ _ _ _ _ Hat)) as H. rewrite (sta_prefix _ _ _ _ _ _ _ Hat) in H. by injection H. }
  pose proof (stream_at_writable _ _ _ _ [] _ _ _ Hat) as Hw. pose proof (sta_log _ _ _ _ _ _ _ Hat) as Hl.
  unfold xadd_trim. destruct (bool_decide (is_Some max_len) || bool_decide (is_Some min_id)) eqn:E.
  - destruct (runs_do_trim (raw:=raw) (ok:=ok) Hnow m (prefix_bytes p) l max_len min_id Hg (sta_entries _ _ _ _ _ _ _ Hat) Hl Hmax Hmin)
      as (m1 & H1 & Hr1).
    destruct (runs_write_log (raw:=raw) (ok:=ok) Hnow m pk legacy [] p _ m1 _ Hw Hr1) as (m2 & H2 & Hu2).
    { by apply log_trim_ok. }
    exists m2. split; [|done]. eapply runs_bind; [exact H1|exact H2].
  - assert (log_trim max_len min_id l = l) as ->.
    { destruct max_len as [n|], min_id as [x|]; try done; by rewrite !bool_decide_true in E by eauto. }
    exists m. split; [apply runs_ret|]. by eapply stream_unchanged.
Qed.

Lemma added_append eid fields l :
  log_ok l → lg_len l + 1 < 2 ^ 63 → added eid (meta_of l) = meta_of (log_append eid fields l).
Proof.
  intros Hl Hlen. unfold added, meta_of, log_append, lg_len in *. cbn. rewrite length_app. cbn [length].
  rewrite as_u64_id by lia. f_equal; [lia|]. destruct (lg_entries l) as [|e es]; [done|]. cbn [length].
  by rewrite (proj2 (Z.eqb_neq _ 0)) by lia.
Qed.

Lemma refines_xadd m pk legacy id p o nomk max_len min_id eid fvs :
  good m → stream_writable now m pk legacy id p o → xregular (XAdd nomk max_len min_id eid fvs) o →
  xrefines m pk legacy id p o (XAdd nomk max_len min_id eid fvs).
Proof.
  intros Hg Hw (Hmax & Hmin & Hfs & Hlen & Hid). pose proof (writable_stored _ _ _ _ _ _ Hg Hw) as Hst.
  pose proof (stream_unchanged _ _ _ _ _ _ _ Hg Hw) as Hun. unfold xrefines. cbn [xcmd_op xstep]. unfold xadd_step, XAddOp.
  pose proof (stream_resolve (raw:=raw) (ok:=ok) Hnow _ _ _ _ _ _ Hw) as Hres. unfold last_of in Hid. set (l := default log_new o) in *.
  assert (log_ok l) as Hl by (pose proof (sw_log _ _ _ _ _ _ _ Hw); subst l; destruct o; [done|apply log_new_ok]).
  assert (elements_at now m (prefix_bytes p) (names (lg_entries l))) as He.
  { pose proof (sw_entries _ _ _ _ _ _ _ Hw). subst l. by destruct o. }
  assert (lg_len l + 1 < 2 ^ 63) as Hlen' by (subst l; by destruct o). clear Hlen.
  destruct (bool_decide (o = None) && nomk) eqn:Enomk.
  { apply andb_true_iff in Enomk as [->%bool_decide_eq_true ->]. exists m. split; [|done]. eapply runs_bind; [exact Hres|].
    apply runs_bind_fail. eapply (runs_on_stream Hnow); [exact Hst|]. apply runs_fail. }
  assert (Runs (on_stream now pk (if nomk then fail (Redis (B "no such key")) else mret meta_new) mret) m (Ret (meta_of l)) m) as Hmeta.
  { eapply (runs_on_stream Hnow); [exact Hst|]. subst l. destruct o; [apply runs_ret|]. destruct nomk; [done|apply runs_ret]. }
  destruct (new_entry_id_spec now eid (lg_last l) Hnow (proj1 (lok_ids _ Hl)) Hid) as [Enew Hnew].
  destruct (next_id_of now eid (lg_last l)) as [x|e] eqn:Enext.
  2: { exists m. split; [|done]. eapply runs_bind; [exact Hres|]. eapply runs_bind; [exact Hmeta|]. cbn [meta_of sm_last_id].
       rewrite Enew. apply runs_bind_fail, runs_fail. }
  destruct (Hnew x eq_refl) as [Hx Hlt].
  destruct (Nat.odd (length fvs)) eqn:Eodd.
  { exists m. split; [|done]. eapply runs_bind; [exact Hres|]. eapply runs_bind; [exact Hmeta|]. cbn [meta_of sm_last_id].
    rewrite Enew. eapply runs_bind; [apply runs_ret|]. apply runs_fail. }
  destruct (runs_set_element (raw:=raw) (ok:=ok) Hnow (prefix_bytes p) (entry_name x) (encode_entry_value (field_pairs fvs)) TYPE_STREAM m _ Hg He)
    as (m1 & H1 & Hr1).
  rewrite <- names_snoc in Hr1; [|apply Hl|done|]; cycle 1.
  { intros Hin. pose proof (lok_last _ Hl) as H. rewrite Forall_forall in H. specialize (H x Hin). by apply id_lt_not_le in Hlt. }
  destruct (runs_write_log (raw:=raw) (ok:=ok) Hnow m pk legacy id p o m1 (log_append x (field_pairs fvs) l) Hw Hr1)
    as (m2 & H2 & Hu2); [by apply log_append_ok|].
  destruct (runs_xadd_trim m2 pk legacy p _ max_len min_id (su_good _ _ _ _ _ _ _ Hu2) (su_stored _ _ _ _ _ _ _ Hu2)) as (m3 & H3 & Hu3);
    [by intros i Hi; apply (su_key _ _ _ _ _ _ _ Hu2)|done..|].
  exists m3. split; [|by eapply stream_updated_trans]. eapply runs_bind; [exact Hres|]. eapply runs_bind; [exact Hmeta|].
  cbn [meta_of sm_last_id]. rewrite Enew. eapply runs_bind; [apply runs_ret|]. eapply runs_bind; [exact H1|]. cbv zeta.
  rewrite (added_append x (field_pairs fvs) l Hl Hlen'). eapply runs_bind; [exact H2|]. eapply runs_bind; [exact H3|]. apply runs_ret.
Qed.

Lemma xstep_refines m pk legacy id p o c :
  good m → stream_writable now m pk legacy id p o → xregular c o → xrefines m pk legacy id p o c.
Proof.
  intros Hg Hw Hr. destruct c.
  - by apply refines_xadd.
  - by apply refines_xlen.
  - by apply refines_xrange.
  - by apply refines_xread.
  - by apply refines_xdel.
  - by apply refines_xtrim.
  - by apply refines_xsetid.
  - by apply refines_xinfo.
Qed.
End Refines.

(** ** Sequences of commands *)

Fixpoint xrun (now : Z) (pk : list Z) (l : list (list Z * xcmd)) (o : option Log) : list (result DbResult DbError) * option Log :=
  match l with
  | [] => ([], o)
  | (_, c) :: l' => let '(r, o1) := xstep now pk c o in let '(rs, o2) := xrun now pk l' o1 in (r :: rs, o2)
  end.

Fixpoint xregular_run (now : Z) (pk : list Z) (l : list (list Z * xcmd)) (o : option Log) : Prop :=
  match l with
  | [] => True
  | (_, c) :: l' => xregular c o ∧ xregular_run now pk l' (xstep now pk c o).2
  end.

#[export] Instance sid_ok_dec id : Decision (sid_ok id).
Proof. unfold sid_ok. apply _. Defined.
#[export] Instance fields_ok_dec fields : Decision (fields_ok fields).
Proof. unfold fields_ok, small. apply _. Defined.
#[export] Instance from_option_dec {A} (P : A → Prop) `{!∀ x, Decision (P x)} o : Decision (from_option P True o).
Proof. destruct o; apply _. Defined.
#[export] Instance xregular_dec c o : Decision (xregular c o).
Proof. destruct c as [? ? ? [eid|] ?| | |? ? ?| | | |]; unfold xregular, bumpable; apply _. Defined.
#[export] Instance xregular_run_dec now pk l o : Decision (xregular_run now pk l o).
Proof. revert o. induction l as [|[id c] l IH]; intros o; cbn [xregular_run]; apply _. Defined.

(** The entries after an id. *)
Definition entries_after (id : StreamEntryId) (es : Entries) : Entries := List.filter (λ e, bool_decide (id_lt id e.1)) es.

Lemma entries_after_step id es k t e :
  StronglySorted id_lt es.*1 → take k (entries_after id es) = t ++ [e] → entries_after e.1 es = drop k (entries_after id es).
Proof.
  intros Hs Ht. set (L := entries_after id es) in *.
  assert (StronglySorted id_lt L.*1) as HL by (eapply sorted_sublist; [apply fmap_sublist, sublist_filter_bool|exact Hs]).
  assert (id_lt id e.1) as He.
  { assert (e ∈ L) as Hin by (rewrite <- (take_drop k L), Ht; set_solver). subst L. unfold entries_after in Hin.
    apply list_elem_of_In, filter_In in Hin as [_ Hin]. by apply bool_decide_eq_true in Hin. }
  transitivity (entries_after e.1 L).
  { subst L. unfold entries_after. clear -He. induction es as [|x es IH]; [done|]. cbn [List.filter].
    destruct (bool_decide (id_lt id x.1)) eqn:E; cbn [List.filter]; [by rewrite IH|].
    rewrite bool_decide_false; [done|]. intros H. apply bool_decide_eq_false in E. apply E. by etrans. }
  rewrite <- (take_drop k L) at 1. rewrite <- (take_drop k L), Ht in HL. rewrite !fmap_app in HL.
  apply StronglySorted_app in HL as (H1 & H2 & H3). rewrite Ht. unfold entries_after. rewrite List.filter_app.
  replace (List.filter (λ x, bool_decide (id_lt e.1 x.1)) (t ++ [e])) with (@nil (StreamEntryId * Fields)).
  - cbn [app]. apply filter_all. intros x Hx. apply bool_decide_eq_true, H1; [set_solver|by apply list_elem_of_fmap_2].
  - symmetry. apply StronglySorted_app in H2 as (H4 & _ & _). clear -H4. rewrite List.filter_app. cbn [List.filter].
    rewrite bool_decide_false by apply id_lt_irrefl. rewrite app_nil_r. induction t as [|x t IH]; [done|]. cbn [List.filter].
    rewrite bool_decide_false; [apply IH; intros a b Ha; apply H4; set_solver|]. intros H. apply (id_lt_irrefl x.1).
    etrans; [|exact H]. apply H4; set_solver.
Qed.

Section Session.
Context {T : Type} `{!TxOps T} {raw : T → gmap (list Z) Item} {ok : T → Prop}.
Context `{HT : !TxLaws T raw ok, HS : !TxScanLaws T raw ok} {now : Z} (Hnow : clock_ok now).
Context (s : Session T) (key : list Z) (Hs : session_ok s) (Hkey : key_ok key).
#[local] Abbreviation Runs := (Runs (raw:=raw) (ok:=ok)).
#[local] Abbreviation pk := (public_key s key).
#[local] Abbreviation legacy := (private_key s key).

(** The stream under [key]. *)
Definition stream_of (m : gmap (list Z) Item) (o : option Log) : Prop := stream_stored now m pk legacy o.

(** Each command of a transaction with the namespace id it would use; errors are confined. *)
Fixpoint stream_script (l : list (list Z * xcmd)) : DbM T (list (result DbResult DbError)) :=
  match l with
  | [] => mret []
  | (id, c) :: l' => r ← caught (xcmd_op now id pk legacy c); rs ← stream_script l'; mret (r :: rs)
  end.

Lemma stream_script_runs l m o :
  good m → stream_of m o → spare s key now m l.*1 → xregular_run now pk l o →
  ∃ m', Runs (stream_script l) m (Ret (xrun now pk l o).1) m' ∧ good m' ∧ stream_of m' (xrun now pk l o).2.
Proof.
  revert m o. induction l as [|[id c] l IH]; intros m o Hg Hst Hsp Hreg.
  { exists m. split; [apply runs_ret|done]. }
  cbn [xregular_run fmap list_fmap fst] in *. destruct Hreg as [Hc Hreg].
  assert (unused s now m id) as Hun by (pose proof (sp_unused _ _ _ _ _ Hsp) as Hu; by apply Forall_cons in Hu as [? _]).
  destruct (stream_stored_writable _ _ _ _ _ _ Hst (unused_fresh s Hs key Hkey _ _ _ Hun)) as [p Hw].
  destruct (xstep_refines (raw:=raw) (ok:=ok) Hnow m pk legacy id p o c Hg Hw Hc) as (m1 & H1 & Hu).
  assert (spare s key now m1 l.*1) as Hsp1.
  { eapply (frame_spare s Hs key Hkey); [exact Hsp|by eapply stream_writable_used|apply Hu|]. intros i Hi. by apply (su_key _ _ _ _ _ _ _ Hu). }
  destruct (IH m1 _ (su_good _ _ _ _ _ _ _ Hu) (su_stored _ _ _ _ _ _ _ Hu) Hsp1 Hreg) as (m2 & H2 & Hg2 & Hst2).
  cbn [xrun stream_script]. destruct (xstep now pk c o) as [r o1]. cbn [fst snd] in *. destruct (xrun now pk l o1) as [rs o2]. cbn [fst snd] in *.
  exists m2. split; [|done].
  assert (Runs (caught (xcmd_op now id pk legacy c)) m (Ret r) m1) as Hr by (destruct r; [by apply runs_caught|by apply runs_caught_fail]).
  eapply runs_bind; [exact Hr|]. eapply runs_bind; [exact H2|]. apply runs_ret.
Qed.

(** A client that reads on from the last entry it got until nothing comes. *)
Fixpoint xread_all (fuel : nat) (after : StreamEntryId) (count : Z) : DbM T (option Entries) :=
  match fuel with
  | O => mret None
  | S fuel' =>
      r ← XReadOp now [mkXStream pk legacy key] [Some after] count;
      match r with
      | RStreams [(_, entries)] =>
          match last entries with
          | None => mret (Some [])
          | Some e => rest ← xread_all fuel' e.1 count; mret (app entries <$> rest)
          end
      | _ => mret None
      end
  end.

Lemma xread_all_runs fuel after count m l :
  good m → stream_of m (Some l) → sid_ok after → bumpable after → Forall bumpable (lg_ids l) →
  (length (entries_after after (lg_entries l)) < fuel)%nat →
  Runs (xread_all fuel after count) m (Ret (Some (entries_after after (lg_entries l)))) m.
Proof.
  clear Hs Hkey. intros Hg Hst Ha Hb Hbs. inversion Hst as [|i p l' Hat]; subst. pose proof (sta_log _ _ _ _ _ _ _ Hat) as Hl.
  revert after Ha Hb. induction fuel as [|fuel IH]; intros after Ha Hb Hfuel; [lia|]. cbn [xread_all].
  assert (Runs (XReadOp now [mkXStream pk legacy key] [Some after] count) m
    (Ret (RStreams [(key, log_after after count l)])) m) as Hread.
  { eapply (runs_xread Hnow m pk legacy [] p (Some l) key (Some after) count Hg); [by eapply stream_at_writable|done]. }
  eapply runs_bind; [exact Hread|]. unfold log_after. fold (entries_after after (lg_entries l)). set (k := Z.to_nat (Z.max 1 count)).
  destruct (last (take k (entries_after after (lg_entries l)))) as [e|] eqn:El.
  - apply last_Some in El as [t Ht]. pose proof (entries_after_step _ _ _ _ _ (lok_sorted _ Hl) Ht) as Hstep.
    assert (e ∈ lg_entries l) as Hin.
    { assert (e ∈ entries_after after (lg_entries l)) as H by (rewrite <- (take_drop k (entries_after _ _)), Ht; set_solver).
      by apply list_elem_of_In, filter_In in H as [H%list_elem_of_In _]. }
    assert (sid_ok e.1 ∧ bumpable e.1) as [He1 He2].
    { pose proof (lok_entries _ Hl) as H. rewrite Forall_forall in H. rewrite Forall_forall in Hbs. split; [by apply H|]. apply Hbs. by apply list_elem_of_fmap_2. }
    eapply runs_bind; [apply IH; [done..|]|].
    + rewrite Hstep, length_drop. destruct (entries_after after (lg_entries l)) as [|x L]; [rewrite take_nil in Ht; by destruct t|].
      cbn [length] in *. assert (1 ≤ k)%nat by lia. lia.
    + apply runs_ret_eq. rewrite Hstep. cbn [fmap option_fmap option_map]. by rewrite take_drop.
  - apply last_None in El. apply runs_ret_eq. destruct (entries_after after (lg_entries l)) as [|x L]; [done|].
    assert (1 ≤ k)%nat by lia. destruct k; [lia|done].
Qed.
End Session.

(** ** Properties *)

(** C28: a sequence of stream commands on a key, inside a transaction of a store that
    keeps the transaction contract, returns the replies of the abstract log and leaves the
    stream that the abstract log describes: entries in strict order of their ids, as many
    as the sentinel says, none above the last id, none below the first, all of them under
    version 1, which no command changes (the module documentation says XTRIM raises it).
    Excluded are sequences in which (1) an explicit id slips past XADD's comparison of the
    two halves of an id; (2) XSETID goes below an entry of the stream, which the code
    accepts, so that entries are then above the last id; (3) XADD without an id finds the
    last sequence number at 2^64 - 1, where the next one wraps; (4) XREAD starts after the
    largest of all ids, whose successor wraps. Ids are pairs of 64-bit numbers, MAXLEN is
    not negative, field names and values are below 2^32 bytes, the stream holds less than
    2^63 entries, and the namespaces drawn for a new stream are unused and distinct. *)
Theorem stream_script_refines T `{!TxOps T} (raw : T → gmap (list Z) Item) (ok : T → Prop) (now : Z)
    (s : Session T) (key : list Z) (l : list (list Z * xcmd)) (m : gmap (list Z) Item) (o : option Log) :
  TxLaws T raw ok → TxScanLaws T raw ok → clock_ok now → session_ok s → key_ok key →
  good m → stream_of (now:=now) s key m o → spare s key now m l.*1 → xregular_run now (public_key s key) l o →
  ∃ m', Runs (raw:=raw) (ok:=ok) (stream_script (now:=now) s key l) m (Ret (xrun now (public_key s key) l o).1) m' ∧
    good m' ∧ stream_of (now:=now) s key m' (xrun now (public_key s key) l o).2.
Proof. intros HT HS Hnow Hs Hk. by apply (stream_script_runs Hnow). Qed.

(** Three entries, the second deleted, the rest trimmed to one; a range and a read see what is left. *)
Definition sample_script : list (list Z * xcmd) :=
  [(id_of 1, XAdd false None None (Some (mkId 1 1)) [B "f"; B "a"]);
   (id_of 2, XAdd false None None None [B "f"; B "b"]);
   (id_of 3, XDel [mkId 1 1; mkId 9 9]);
   (id_of 4, XAdd false (Some 1) None (Some (mkId 7 3)) [B "g"; B "c"]);
   (id_of 5, XLen);
   (id_of 6, XRange None None 10 false);
   (id_of 7, XAdd false None None (Some (mkId 7 2)) [B "f"; B "d"])].

Lemma stream_script_refines_witness :
  ∃ m', Runs (raw:=id) (ok:=λ _, True) (stream_script (now:=5) demo_session (B "s") sample_script) ∅
    (Ret [Ok (RXAdd (B "1-1") (stream_notification (B "0:s")));
          Ok (RXAdd (B "5-0") (stream_notification (B "0:s")));
          Ok (RInt 1);
          Ok (RXAdd (B "7-3") (stream_notification (B "0:s")));
          Ok (RInt 1);
          Ok (REntries [(mkId 7 3, [(B "g", B "c")])]);
          Err (Redis bad_top_item)]) m' ∧ good m'.
Proof.
  destruct (stream_script_refines (gmap (list Z) Item) id (λ _, True) 5 demo_session (B "s") sample_script ∅ None)
    as (m' & Hr & Hg & _).
  - apply _.
  - apply _.
  - done.
  - done.
  - done.
  - apply good_empty.
  - apply stream_none; [done|apply elements_at_empty].
  - apply spare_empty; [apply (bool_decide_unpack _); vm_compute; exact I|by repeat constructor].
  - apply (bool_decide_unpack _). vm_compute. exact I.
  - exists m'. split; [exact Hr|exact Hg].
Defined.

(** A client that reads a stream in pages, each from the last entry of the page before,
    until a page is empty, gets every entry after the id it started from, once and in
    order, whatever the page size; one read more than there are entries is enough. *)
Theorem xread_pages T `{!TxOps T} (raw : T → gmap (list Z) Item) (ok : T → Prop) (now : Z)
    (s : Session T) (key : list Z) (after : StreamEntryId) (count : Z) (m : gmap (list Z) Item) (l : Log) (fuel : nat) :
  TxLaws T raw ok → TxScanLaws T raw ok → clock_ok now → good m → stream_of (now:=now) s key m (Some l) →
  sid_ok after → bumpable after → Forall bumpable (lg_ids l) → (length (lg_entries l) < fuel)%nat →
  Runs (raw:=raw) (ok:=ok) (xread_all (now:=now) s key fuel after count) m
    (Ret (Some (entries_after after (lg_entries l)))) m.
Proof.
  intros HT HS Hnow Hg Hst Ha Hb Hbs Hfuel. apply (xread_all_runs Hnow); try done.
  eapply Nat.le_lt_trans; [|exact Hfuel]. apply sublist_length, sublist_filter_bool.
Qed.

(** Three entries read in pages of two. *)
Definition three_entries : list (list Z * xcmd) :=
  [(id_of 1, XAdd false None None (Some (mkId 1 1)) [B "f"; B "a"]);
   (id_of 2, XAdd false None None (Some (mkId 1 2)) [B "f"; B "b"]);
   (id_of 3, XAdd false None None (Some (mkId 4 0)) [B "f"; B "c"])].

Lemma xread_pages_witness :
  ∃ m, Runs (raw:=id) (ok:=λ _, True) (xread_all (now:=5) demo_session (B "s") 4 (mkId 1 0) 2) m
    (Ret (Some [(mkId 1 1, [(B "f", B "a")]); (mkId 1 2, [(B "f", B "b")]); (mkId 4 0, [(B "f", B "c")])])) m.
Proof.
  destruct (stream_script_runs (T:=gmap (list Z) Item) (raw:=id) (ok:=λ _, True) (now:=5) ltac:(done) demo_session (B "s")
    ltac:(done) ltac:(done) three_entries ∅ None) as (m & _ & Hg & Hst).
  - apply good_empty.
  - apply stream_none; [done|apply elements_at_empty].
  - apply spare_empty; by apply (bool_decide_unpack _).
  - apply (bool_decide_unpack _). vm_compute. exact I.
  - exists m.
    refine (xread_pages (gmap (list Z) Item) id (λ _, True) 5 demo_session (B "s") (mkId 1 0) 2 m _ 4 _ _ _ Hg Hst _ _ _ _).
    + done.
    + apply (bool_decide_unpack _). vm_compute. exact I.
    + left. done.
    + repeat (constructor; [left; done|]). constructor.
    + vm_compute. lia.
Defined.

(** ** Where the code departs from its documentation *)

(** The two halves of an id are compared separately: an id below the last one is accepted. *)
Lemma xadd_accepts_passed_id :
  new_entry_id 9 (Some (mkId 4 9)) (mkId 5 3) = Ok (mkId 4 9) ∧ id_lt (mkId 4 9) (mkId 5 3).
Proof. split; [by vm_compute|]. left. done. Qed.

Definition demo_log : Log :=
  mkLog [(mkId 1 0, []); (mkId 2 0, []); (mkId 3 0, [])] (mkId 3 0) (mkId 1 0) ID_ZERO 3.

(** XREVRANGE with COUNT 1 replies the oldest entry, not the newest. *)
Lemma xrevrange_counts_from_the_front :
  (xstep 9 [] (XRange None None 1 true) (Some demo_log)).1 = Ok (REntries [(mkId 1 0, [])]).
Proof. by vm_compute. Qed.

(** COUNT 0 returns an entry. *)
Lemma xrange_count_zero : log_range None None 0 demo_log = [(mkId 1 0, [])].
Proof. by vm_compute. Qed.

(** An emptied stream accepts ids that it gave out before. *)
Lemma emptied_stream_reuses_ids :
  (xstep 9 [] (XAdd false None None (Some (mkId 2 0)) []) (Some (log_delete [mkId 1 0; mkId 2 0; mkId 3 0] demo_log))).1 =
    Ok (RXAdd (B "2-0") (stream_notification [])).
Proof. by vm_compute. Qed.

(** XSETID goes below the entries of a stream; the ids they have are then given out again,
    and the stream is no longer in order. *)
Lemma xsetid_below_entries :
  let m := snd (XAddOp 9 (id_of 1) (B "0:s") (B "-0:s") false None None (Some (mkId 5 0)) [B "f"; B "a"] (∅ : gmap (list Z) Item)) in
  let '(r1, m1) := XSetIdOp 9 (id_of 2) (B "0:s") (B "-0:s") (mkId 3 0) m in
  let '(r2, m2) := XAddOp 9 (id_of 3) (B "0:s") (B "-0:s") false None None (Some (mkId 4 0)) [B "f"; B "b"] m1 in
  r1 = Ret RUnit ∧ r2 = Ret (RXAdd (B "4-0") (stream_notification (B "0:s"))) ∧
  fst (XRangeOp 9 (B "0:s") (B "-0:s") None None 10 false m2) =
    Ret (REntries [(mkId 4 0, [(B "f", B "b")]); (mkId 5 0, [(B "f", B "a")])]).
Proof. vm_compute. done. Qed.

(** The sequence number wraps, and the id it gives is below the last one. *)
Lemma generated_id_wraps : new_entry_id 9 None (mkId 9 u64_max) = Ok (mkId 9 0).
Proof. by vm_compute. Qed.

(** With both limits the second is not applied when the first is met. *)
Lemma maxlen_met_skips_minid : log_trim (Some 3) (Some (mkId 3 0)) demo_log = demo_log.
Proof. by vm_compute. Qed.

(** The first id recorded after XTRIM MINID need not belong to an entry. *)
Lemma minid_first_id_without_entry : lg_first (log_trim_id (mkId 2 5) demo_log) = mkId 2 5.
Proof. by vm_compute. Qed.

(** The reply to a refused id has its prefix twice. *)
Lemma refused_id_reply :
  err_resp (Redis bad_top_item) = Error (B "ERR ERR The ID specified in XADD is equal or smaller than the target stream top item").
Proof. by vm_compute. Qed.
