(* ===== verification/StreamBlock.v ===== *)
(** * XREAD BLOCK: src/redis/stream.rs

    The loop of a client that blocks in XREAD: register with the watch registry, begin a
    transaction, read, and wait only when nothing was there. Writers commit first and
    deliver their notification afterwards, other clients use the registry meanwhile, and
    all of this interleaves. Proved: a waiting client for which there is something to read
    has been woken, or a notification for it is on its way, unless a commit that announced
    nothing brought it; and once the notifications are delivered it returns what there
    is. *)
From S2P Require Import Prelude Bytes Resp Kv Registry StreamCodec Op Namespace Session Elements Ranges Stream StreamLog.
From S2P Require Keys.

Section Client.
Context {St T : Type} `{!TxOps T}.
(** [store.begin(false, TxIsolation::Snapshot)] on a committed state. *)
Context (begin_tx : St → result T KvError).
Context (streams : list XReadStream) (ids : list (option StreamEntryId)) (count : Z).

Definition public_keys : list (list Z) := xs_public <$> streams.

(** ** The loop *)

(** Where the client is: at the top of the loop; registered; with its own transaction
    begun; waiting, with the ids resolved; done. *)
Inductive client : Type :=
| CTop (resolved : option (list (option StreamEntryId)))
| CRegistered (w : Waiter) (resolved : option (list (option StreamEntryId)))
| CBegun (w : Waiter) (resolved : option (list (option StreamEntryId))) (now : Z) (t : T)
| CWaiting (w : Waiter) (resolved : list (option StreamEntryId))
| CReturned (r : outcome (list (list Z * Entries)) DbError).

(** [$] is resolved in the first turn only. *)
Definition resolve_ids (now : Z) (resolved : option (list (option StreamEntryId))) : DbM T (list (option StreamEntryId)) :=
  match resolved with
  | Some r => mret r
  | None => resolve_read_ids now (zip streams ids)
  end.

(** The transaction of a turn: the ids and what there is after them. *)
Definition turn (now : Z) (resolved : option (list (option StreamEntryId)))
  : DbM T (list (option StreamEntryId) * list (list Z * Entries)) :=
  ids_now ← resolve_ids now resolved;
  current ← read_streams now (zip streams ids_now) count;
  mret (ids_now, current).

(** Return, or wait with the ids pinned. The registration is dropped on every return. *)
Definition client_read (w : Waiter) (resolved : option (list (option StreamEntryId))) (now : Z) (t : T) (expired : bool)
    (r : WatchRegistry) : client * WatchRegistry :=
  match fst (turn now resolved t) with
  | Fail e => (CReturned (Fail e), drop_registration r w)
  | Panic => (CReturned Panic, drop_registration r w)
  | Ret (ids_now, current) =>
      if any_entries current || expired then (CReturned (Ret current), drop_registration r w)
      else (CWaiting w ids_now, r)
  end.

(** One step of the client, at a time when its deadline is [expired] or not; a waiting
    client that has nothing to receive and whose time is not up stays. *)
Definition client_step (c : client) (now : Z) (st : St) (expired : bool) (r : WatchRegistry) : client * WatchRegistry :=
  match c with
  | CTop resolved => let '(w, r') := register r public_keys Stream in (CRegistered w resolved, r')
  | CRegistered w resolved =>
      match begin_tx st with
      | Ok t => (CBegun w resolved now t, r)
      | Err e => (CReturned (Fail (Kv e)), drop_registration r w)
      end
  | CBegun w resolved now0 t => client_read w resolved now0 t expired r
  | CWaiting w resolved =>
      match poll r (w_id w) with
      | Some _ => (CTop (Some resolved), drop_registration r w)
      | None =>
          if expired then
            match on_timeout r w with
            | (GiveUp, r') => (CTop (Some resolved), drop_registration r' w)
            | (KeepWaiting, r') => (CWaiting w resolved, r')
            end
          else (c, r)
      end
  | CReturned _ => (c, r)
  end.

(** There is something to read after the ids, in a transaction and in a committed state.
    Ids are pairs of 64-bit numbers, and none comes after the greatest. *)
Definition valid_ids (resolved : list (option StreamEntryId)) : Prop :=
  Forall (from_option (λ id, sid_ok id ∧ bumpable id) True) resolved.
Definition tx_news (now : Z) (t : T) (resolved : list (option StreamEntryId)) : Prop :=
  valid_ids resolved ∧ ∃ current, fst (turn now (Some resolved) t) = Ret (resolved, current) ∧ any_entries current = true.
Definition news (now : Z) (st : St) (resolved : list (option StreamEntryId)) : Prop :=
  ∃ t, begin_tx st = Ok t ∧ tx_news now t resolved.

(** The same, computed. *)
Definition has_news (now : Z) (st : St) (resolved : list (option StreamEntryId)) : Prop :=
  match begin_tx st with
  | Ok t => valid_ids resolved ∧
      match fst (turn now (Some resolved) t) with
      | Ret (ids_now, current) => ids_now = resolved ∧ any_entries current = true
      | _ => False
      end
  | Err _ => False
  end.
Lemma has_news_iff now st resolved : has_news now st resolved ↔ news now st resolved.
Proof.
  unfold has_news, news, tx_news. split.
  - destruct (begin_tx st) as [t|]; [|done]. intros [Hv Ht]. exists t. split; [done|]. split; [done|].
    destruct (fst (turn now (Some resolved) t)) as [[ids_now current]| |]; [|done..]. destruct Ht as [-> Ha]. by exists current.
  - intros (t & -> & Hv & current & -> & Ha). done.
Qed.

#[export] Instance news_dec now st resolved : Decision (news now st resolved).
Proof.
  assert (Decision (has_news now st resolved)) as [H|H].
  - unfold has_news, valid_ids, sid_ok, bumpable. destruct (begin_tx st) as [t|]; [|apply _].
    apply and_dec; [|destruct (fst (turn now (Some resolved) t)) as [[]| |]; apply _].
    apply Forall_dec. intros [id|]; simpl; apply _.
  - left. by apply has_news_iff.
  - right. by rewrite <- has_news_iff.
Defined.

(** ** The world around it *)

(** The client, the time, the committed store, the notifications not delivered yet, the
    registry, and, to reason about, the commits since the client began its transaction that
    announced none of its streams, each as the time and the store before and after it. *)
Record World : Type := mkWorld {
  wd_client : client;
  wd_now : Z;
  wd_store : St;
  wd_pending : list (list Z);
  wd_sys : Sys;
  wd_unheard : list ((Z * St) * (Z * St))
}.

(** One of these commits brought what there is to read. *)
Definition unannounced_news (commits : list ((Z * St) * (Z * St))) (resolved : list (option StreamEntryId)) : Prop :=
  ∃ before after, (before, after) ∈ commits ∧ ¬ news before.1 before.2 resolved ∧ news after.1 after.2 resolved.

(** The waiter of the client, while it is registered. *)
Definition waiter_of (c : client) : option Waiter :=
  match c with CRegistered w _ | CBegun w _ _ _ | CWaiting w _ => Some w | _ => None end.
Definition not_ours (c : client) (id : Z) : Prop := ∀ w, waiter_of c = Some w → w_id w ≠ id.

(** What other clients and writers do to the registry. A claim is made for a client that
    waits for a member of a sorted set, so not for this one. *)
Inductive others (cl : client) : Sys → Sys → Prop :=
| o_register r cs keys kind :
    NoDup keys → others cl (mkSys r cs) (mkSys (snd (register r keys kind)) cs)
| o_claim r cs key c r' :
    try_claim r key = (Some c, r') → not_ours cl (claim_id c) → others cl (mkSys r cs) (mkSys r' (c :: cs))
| o_wake r cs1 c cs2 b : others cl (mkSys r (cs1 ++ c :: cs2)) (mkSys (wake r (set_result c b)) (cs1 ++ cs2))
| o_release r cs1 c cs2 : others cl (mkSys r (cs1 ++ c :: cs2)) (mkSys (release_front r c) (cs1 ++ cs2))
| o_remove r cs w :
    genuine r w → not_ours cl (w_id w) → others cl (mkSys r cs) (mkSys (drop_registration r w) cs)
| o_bump r cs keys : others cl (mkSys r cs) (mkSys (bump_versions r keys) cs)
| o_flush r cs : others cl (mkSys r cs) (mkSys (bump_flush_epoch r) cs).

(** A commit, or the passing of time, that brings news to the client only when a stream it
    reads is among the streams [ks] announced. *)
Definition announces (ks : list (list Z)) (now : Z) (st : St) (now' : Z) (st' : St) : Prop :=
  (∀ k, k ∈ public_keys → k ∉ ks) → ∀ resolved, news now' st' resolved → news now st resolved.

(** Any commit may happen, with any notifications to be delivered after it. *)
Inductive world_step : World → World → Prop :=
| ws_client c now st pending s u c' r' expired :
    client_step c now st expired (reg s) = (c', r') →
    world_step (mkWorld c now st pending s u)
      (mkWorld c' now st pending (mkSys r' (claims s)) (match c with CRegistered _ _ => [] | _ => u end))
| ws_commit c now st pending s u now' st' ks :
    world_step (mkWorld c now st pending s u)
      (mkWorld c now' st' (pending ++ ks) s
         (if decide (Exists (.∈ ks) public_keys) then u else u ++ [((now, st), (now', st'))]))
| ws_deliver c now st p1 k p2 s u :
    world_step (mkWorld c now st (p1 ++ k :: p2) s u)
      (mkWorld c now st (p1 ++ p2) (mkSys (wake (reg s) (stream_notification k)) (claims s)) u)
| ws_others c now st pending s s' u :
    others c s s' → world_step (mkWorld c now st pending s u) (mkWorld c now st pending s' u).

(** A client that starts its XREAD. *)
Definition starting (wd : World) : Prop := wd_client wd = CTop None ∧ sys_wf (wd_sys wd).
Definition world_reachable (wd : World) : Prop := ∃ wd0, starting wd0 ∧ rtc world_step wd0 wd.
End Client.

(** ** A waiter seen by the registry's operations *)

(** What an operation from [r] to [r'] keeps for the waiter [w]: nobody takes over its id,
    and while nothing was sent to it, it stays where it is queued. *)
Record keeps (w : Waiter) (r r' : WatchRegistry) : Prop := {
  kp_next : next_id r ≤ next_id r';
  kp_only k w' : w' ∈ queue (waiters r') k → w_id w' = w_id w → w' ∈ queue (waiters r) k;
  kp_open : poll r' (w_id w) = None → poll r (w_id w) = None;
  kp_queued k : poll r' (w_id w) = None → w ∈ queue (waiters r) k → w ∈ queue (waiters r') k
}.

Lemma keeps_refl w r : keeps w r r.
Proof. by split. Qed.

Lemma keeps_queues w r r' :
  next_id r' = next_id r → senders r' = senders r → sent r' = sent r →
  (∀ k w', w' ∈ queue (waiters r') k → w_id w' = w_id w → w' ∈ queue (waiters r) k) →
  (∀ k, w ∈ queue (waiters r) k → w ∈ queue (waiters r') k) → keeps w r r'.
Proof.
  intros Hn Hs Hst Ho Hq. split; [lia|done| |auto]. unfold poll. by rewrite Hs, Hst.
Qed.

Lemma keeps_register w r keys kind : w_id w < next_id r → NoDup keys → keeps w r (snd (register r keys kind)).
Proof.
  intros Hid Hnd. unfold register. cbn [snd]. set (x := mkWaiter (next_id r) keys kind).
  assert (∀ k, queue (fold_left (push_back x) keys (waiters r)) k =
    if decide (k ∈ keys) then push false x (queue (waiters r) k) else queue (waiters r) k) as Hk by (intros k; by apply (queue_push false)).
  split; cbn [waiters next_id].
  - lia.
  - intros k w'. rewrite Hk. case_decide; [|done]. rewrite elem_of_push. intros [->|?] E; [|done]. cbn in E. lia.
  - unfold poll. cbn [sent senders]. destruct (sent r !! w_id w); [done|].
    destruct (decide (w_id w ∈ senders r)), (decide (w_id w ∈ {[next_id r]} ∪ senders r)) as [Hx|]; try done.
    apply elem_of_union in Hx as [Hx%elem_of_singleton|]; [lia|done].
  - intros k _ Hw. rewrite Hk. case_decide; [|done]. apply elem_of_push. by right.
Qed.

Lemma keeps_send w r id b : id ≠ w_id w → keeps w r (send_to r id b).
Proof.
  intros Hne. unfold send_to. case_decide; [|apply keeps_refl]. split; cbn [waiters next_id]; [lia|done| |done].
  unfold poll. cbn [sent senders]. replace ((match b with Some b => <[id:=b]> (sent r) | None => sent r end) !! w_id w)
    with (sent r !! w_id w) by (destruct b; [by rewrite lookup_insert_ne|done]).
  destruct (sent r !! w_id w); [done|].
  destruct (decide (w_id w ∈ senders r)), (decide (w_id w ∈ senders r ∖ {[id]})); set_solver.
Qed.

Lemma keeps_trans w r1 r2 r3 : keeps w r1 r2 → keeps w r2 r3 → keeps w r1 r3.
Proof. intros [? ? ? ?] [? ? ? ?]. split; [lia|eauto..]. Qed.

Lemma keeps_others {T} (cl : client (T:=T)) w s s' :
  sys_wf s → others cl s s' → waiter_of cl = Some w → w_id w < next_id (reg s) → Forall (λ c, claim_id c ≠ w_id w) (claims s) →
  keeps w (reg s) (reg s') ∧ Forall (λ c, claim_id c ≠ w_id w) (claims s').
Proof.
  intros Hs Ho Hw Hid Hcl.
  destruct Ho as [r cs keys kind Hnd|r cs key c r' E Hn|r cs1 c cs2 b|r cs1 c cs2|r cs w' Hg Hn|r cs keys|r cs]; cbn [reg claims] in *.
  - split; [by apply keeps_register|done].
  - specialize (Hn w Hw). destruct (try_claim_spec _ _ _ _ Hs E) as (_ & _ & Hk & _ & ->). cbn [reg] in *.
    split; [|constructor; [congruence|done]]. apply keeps_queues; try done; cbn [set_waiters waiters].
    + intros k w'. rewrite Hk, elem_of_without. by intros [? _].
    + intros k ?. by rewrite Hk, elem_of_without.
  - rewrite Forall_app, Forall_cons in Hcl. destruct Hcl as (H1 & Hc & H2). split; [|by apply Forall_app].
    destruct (wf_drop_claim _ c cs1 cs2 Hs eq_refl) as (_ & (Hnot & _) & _).
    unfold wake, set_result. cbn [c_notify c_waiter c_result]. rewrite Hnot. by apply keeps_send.
  - rewrite Forall_app, Forall_cons in Hcl. destruct Hcl as (H1 & Hc & H2). split; [|by apply Forall_app].
    destruct (wf_drop_claim _ c cs1 cs2 Hs eq_refl) as (_ & (Hnot & Hnd & _) & _).
    unfold release_front. rewrite Hnot. pose proof (queue_push true (c_waiter c) (w_keys (c_waiter c)) (waiters r)) as Hk.
    apply keeps_queues; try done; cbn [set_waiters waiters]; intros k.
    + intros w'. rewrite Hk by done. case_decide; [|done]. rewrite elem_of_push. by intros [->|].
    + rewrite Hk by done. case_decide; [|done]. rewrite elem_of_push. by right.
  - specialize (Hn w Hw). split; [|done]. unfold drop_registration.
    assert (snd (remove_waiter r w') = set_waiters r (retain_keys (w_id w') (w_keys w') (waiters r))) as ->.
    { rewrite <- remove_waiter_queues. unfold remove_waiter. by destruct (fold_left _ _ _). }
    apply keeps_queues; try done; cbn [set_waiters waiters]; intros k.
    + intros x. rewrite queue_retain_keys. case_decide; [|done]. rewrite elem_of_without. by intros [? _].
    + rewrite queue_retain_keys. case_decide; [|done]. by rewrite elem_of_without.
  - split; [by apply keeps_queues|done].
  - split; [by apply keeps_queues|done].
Qed.

(** Sending to waiters one after the other. *)
Lemma send_all_queues ws b r : waiters (fold_left (λ r w, send_to r (w_id w) (Some b)) ws r) = waiters r.
Proof.
  revert r. induction ws as [|w ws IH]; intros r; [done|]. cbn [fold_left]. rewrite IH. unfold send_to. by case_decide.
Qed.
Lemma send_all_next ws b r : next_id (fold_left (λ r w, send_to r (w_id w) (Some b)) ws r) = next_id r.
Proof.
  revert r. induction ws as [|w ws IH]; intros r; [done|]. cbn [fold_left]. rewrite IH. unfold send_to. by case_decide.
Qed.
Lemma poll_send r id b id' :
  poll (send_to r id (Some b)) id' = if decide (id = id' ∧ id ∈ senders r) then Some (Some b) else poll r id'.
Proof.
  unfold send_to. destruct (decide (id ∈ senders r)) as [Hin|Hin].
  - destruct (decide (id = id')) as [<-|Hne].
    + rewrite decide_True by done. unfold poll. cbn [sent]. by rewrite lookup_insert_eq.
    + rewrite decide_False by naive_solver. unfold poll. cbn [sent senders]. rewrite lookup_insert_ne by done.
      destruct (sent r !! id'); [done|]. destruct (decide (id' ∈ senders r)), (decide (id' ∈ senders r ∖ {[id]})); set_solver.
  - rewrite decide_False by naive_solver. done.
Qed.
Lemma poll_send_open r id b id' : poll (send_to r id (Some b)) id' = None → poll r id' = None.
Proof. rewrite poll_send. by case_decide. Qed.
Lemma poll_send_all_open ws b r id :
  poll (fold_left (λ r w, send_to r (w_id w) (Some b)) ws r) id = None →
  poll r id = None ∧ ∀ w, w ∈ ws → w_id w = id → id ∉ senders r.
Proof.
  revert r. induction ws as [|w ws IH]; intros r H; [split; [done|set_solver]|]. cbn [fold_left] in H.
  apply IH in H as [H1 H2]. pose proof (poll_send_open _ _ _ _ H1) as H0. split; [done|].
  intros x [->|Hx]%elem_of_cons Hid.
  - rewrite poll_send in H1. intros Hin. by rewrite decide_True in H1 by (by rewrite Hid).
  - intros Hin. apply (H2 x Hx Hid). unfold send_to. destruct (decide (w_id w ∈ senders r)); [|done]. cbn [senders].
    apply elem_of_difference. split; [done|]. intros ->%elem_of_singleton.
    rewrite poll_send, decide_True in H1 by done. done.
Qed.

(** A notification wakes the stream waiters queued under its key and disturbs no other. *)
Lemma notify_keeps s key w :
  sys_wf s → genuine (reg s) w → keeps w (reg s) (wake (reg s) (stream_notification key)).
Proof.
  intros Hs Hg. unfold wake, stream_notification, wake_stream_waiters. cbn [c_notify c_waiter w_keys].
  destruct (waiters (reg s) !! key) as [q|] eqn:E; [|apply keeps_refl].
  assert (queue (waiters (reg s)) key = q) as Hq by (unfold queue; by rewrite E). set (ws := filter _ q).
  assert (∀ x, x ∈ ws → x ∈ queue (waiters (reg s)) key) as Hws by (intros x [_ Hx]%list_elem_of_filter; by rewrite Hq).
  destruct (wf_retain_all s ws Hs) as [_ Hin].
  { intros x Hx k x' Hx' Hid. by eapply (wf_unique _ Hs); [|by apply Hws|]. }
  set (m := fold_left _ ws (waiters (reg s))) in *.
  split; rewrite ?send_all_queues, ?send_all_next; cbn [set_waiters waiters next_id]; [lia| | |].
  - intros k x Hx _. by apply Hin in Hx as [? _].
  - by intros [? _]%poll_send_all_open.
  - intros k [_ Hno]%poll_send_all_open Hw.
    assert (∀ x, x ∈ ws → w_id x ≠ w_id w) as Hne.
    { intros x Hx Hid. apply (Hno x Hx Hid). cbn [set_waiters senders]. by apply (wf_queued _ Hs) in Hw as (_ & _ & _ & ?). }
    subst m. clear -Hw Hne. revert Hw. generalize (waiters (reg s)). induction ws as [|x ws IH]; intros m Hw; [done|]. cbn [fold_left].
    apply IH; [intros y Hy; apply Hne; by right|]. rewrite queue_retain_keys. case_decide; [|done]. apply elem_of_without.
    split; [done|]. intros Hid. by apply (Hne x ltac:(left)).
Qed.

Lemma notify_wakes s key w :
  sys_wf s → w_kind w = Stream → w ∈ queue (waiters (reg s)) key → poll (wake (reg s) (stream_notification key)) (w_id w) ≠ None.
Proof.
  intros Hs Hkind Hw. unfold wake, stream_notification, wake_stream_waiters. cbn [c_notify c_waiter w_keys].
  destruct (waiters (reg s) !! key) as [q|] eqn:E; [|unfold queue in Hw; rewrite E in Hw; by apply not_elem_of_nil in Hw].
  assert (queue (waiters (reg s)) key = q) as Hq by (unfold queue; by rewrite E).
  intros [_ Hno]%poll_send_all_open. eapply (Hno w); [|done|].
  - apply list_elem_of_filter. rewrite Hkind, <- Hq. done.
  - cbn [set_waiters senders]. by apply (wf_queued _ Hs) in Hw as (_ & _ & _ & ?).
Qed.

Lemma others_wf {T} (cl : client (T:=T)) s s' : sys_wf s → others cl s s' → sys_wf s'.
Proof.
  intros Hs Ho. eapply step_wf; [exact Hs|].
  destruct Ho; [by apply step_register|by eapply step_claim|apply step_wake|apply step_release|by apply step_remove|apply step_bump|apply step_flush].
Qed.

(** ** The invariant *)

Section Invariant.
Context {St T : Type} `{!TxOps T} (begin_tx : St → result T KvError).
Context (streams : list XReadStream) (ids : list (option StreamEntryId)) (count : Z).
Context (Hkeys : NoDup (public_keys streams)).
(** Reading in a snapshot is repeatable: resolving the ids does not change what is read. *)
Definition repeatable : Prop := ∀ now t ids_now t1 resolved,
  resolve_read_ids now (zip streams ids) t = (Ret ids_now, t1) →
  fst (read_streams now (zip streams resolved) count t1) = fst (read_streams now (zip streams resolved) count t).
Context (Hrep : repeatable).

#[local] Abbreviation World := (World (St:=St) (T:=T)).
#[local] Abbreviation keys := (public_keys streams).
#[local] Abbreviation news := (news begin_tx streams ids count).
#[local] Abbreviation tx_news := (tx_news streams ids count).
#[local] Abbreviation client_step := (client_step begin_tx streams ids count).
#[local] Abbreviation world_step := (world_step begin_tx streams ids count).
#[local] Abbreviation unannounced_news := (unannounced_news begin_tx streams ids count).

(** The registration of the client [w] is in order. *)
Record registered (s : Sys) (w : Waiter) : Prop := {
  rg_keys : w_keys w = keys;
  rg_kind : w_kind w = Stream;
  rg_id : w_id w < next_id (reg s);
  rg_genuine : genuine (reg s) w;
  rg_claims : Forall (λ c, claim_id c ≠ w_id w) (claims s);
  rg_queued : poll (reg s) (w_id w) = None → ∀ k, k ∈ keys → w ∈ queue (waiters (reg s)) k
}.

(** Nothing was sent to the client and nothing for it is on its way. *)
Definition silent (wd : World) (w : Waiter) : Prop :=
  poll (reg (wd_sys wd)) (w_id w) = None ∧ ∀ k, k ∈ keys → k ∉ wd_pending wd.

(** What there is to read, the transaction of the client sees, or a commit brought it that
    announced none of its streams. *)
Definition uptodate (wd : World) : Prop :=
  match wd_client wd with
  | CBegun w _ now0 t => silent wd w → ∀ resolved, news (wd_now wd) (wd_store wd) resolved →
      tx_news now0 t resolved ∨ unannounced_news (wd_unheard wd) resolved
  | CWaiting w resolved => silent wd w → news (wd_now wd) (wd_store wd) resolved →
      unannounced_news (wd_unheard wd) resolved
  | _ => True
  end.

Record world_ok (wd : World) : Prop := {
  wo_wf : sys_wf (wd_sys wd);
  wo_registered w : waiter_of (wd_client wd) = Some w → registered (wd_sys wd) w;
  wo_uptodate : uptodate wd
}.

Lemma keeps_registered s s' w :
  registered s w → keeps w (reg s) (reg s') → Forall (λ c, claim_id c ≠ w_id w) (claims s') → registered s' w.
Proof.
  intros [Hk Hkd Hid Hg _ Hq] [? Ho Hp Hqq] Hc. split; try done; [lia| |].
  - intros k w' Hw' E. eapply Hg; [|exact E]. by apply (Ho k).
  - intros Hx k Hk'. apply Hqq; [done|]. by apply Hq; [apply Hp|].
Qed.

(** The client drops its registration: the queues stay in order. *)
Lemma drop_wf s w : sys_wf s → registered s w → sys_wf (mkSys (drop_registration (reg s) w) (claims s)).
Proof. intros Hs Hr. by apply wf_remove, Hr. Qed.

Lemma drop_queues r w : drop_registration r w = set_waiters r (retain_keys (w_id w) (w_keys w) (waiters r)).
Proof. unfold drop_registration. rewrite <- remove_waiter_queues. unfold remove_waiter. by destruct (fold_left _ _ _). Qed.

Lemma drop_genuine r w : genuine r w → genuine (drop_registration r w) w.
Proof.
  intros Hg k w'. rewrite drop_queues. cbn [set_waiters waiters]. rewrite queue_retain_keys. case_decide; [|apply Hg].
  rewrite elem_of_without. intros [? _]. by eapply Hg.
Qed.

Lemma poll_drop r w id : poll (drop_registration r w) id = poll r id.
Proof. by rewrite drop_queues. Qed.

(** A client that has registered. *)
Lemma register_registered s :
  sys_wf s → let '(w, r') := register (reg s) keys Stream in registered (mkSys r' (claims s)) w.
Proof.
  intros Hs. pose proof (wf_register s keys Stream Hs Hkeys) as Hwf. unfold register in *. cbn [snd] in Hwf.
  set (w := mkWaiter (next_id (reg s)) keys Stream) in *.
  pose proof (queue_push false w keys (waiters (reg s))) as Hk. cbv iota in Hk.
  assert (∀ k x, x ∈ queue (waiters (reg s)) k → w_id x < next_id (reg s)) as Hlt.
  { intros k x Hx. apply (wf_queued _ Hs) in Hx as (_ & _ & _ & Hx). by apply (wf_channels _ Hs). }
  split; cbn [reg claims waiters next_id w_id w]; try done.
  - cbn. lia.
  - intros k w'. cbn [waiters reg]. rewrite Hk by done. case_decide.
    + rewrite elem_of_push. intros [->|Hw'] E; [done|]. apply Hlt in Hw'. cbn in E. lia.
    + intros Hw' E. apply Hlt in Hw'. cbn in E. lia.
  - eapply Forall_impl; [exact (wf_claims _ Hs)|]. intros c (_ & _ & Hc & _). apply (wf_channels _ Hs) in Hc as [Hc _].
    unfold claim_id. cbn. lia.
  - intros _ k Hkk. rewrite Hk, decide_True by done. apply elem_of_push. by left.
Qed.

Lemma client_read_cases w resolved now0 t expired r :
  (∃ res, client_read streams ids count w resolved now0 t expired r = (CReturned res, drop_registration r w)) ∨
  (∃ ids_now, client_read streams ids count w resolved now0 t expired r = (CWaiting w ids_now, r) ∧ ¬ tx_news now0 t ids_now).
Proof.
  unfold client_read. destruct (fst (turn streams ids count now0 resolved t)) as [[ids_now current]|e|] eqn:E; [|eauto..].
  destruct (any_entries current || expired) eqn:Ea; [eauto|]. right. exists ids_now. split; [done|].
  apply orb_false_iff in Ea as [Ea _]. intros (_ & cur & Hcur & Hany). unfold turn, resolve_ids, mbind, DbM_bind, mret, DbM_ret in *.
  destruct resolved as [rs|].
  - destruct (read_streams now0 (zip streams rs) count t) as [[cur'|e|] t'] eqn:E'; try done.
    injection E as -> ->. rewrite E' in Hcur. cbn in Hcur. congruence.
  - destruct (resolve_read_ids now0 (zip streams ids) t) as [[rs|e|] t1] eqn:Er; try done.
    pose proof (Hrep _ _ _ _ rs Er) as Hr. destruct (read_streams now0 (zip streams rs) count t1) as [[cur'|e|] t'] eqn:E'; try done.
    injection E as -> ->. destruct (read_streams now0 (zip streams ids_now) count t) as [o' t2]. cbn in Hr. subst o'.
    cbn in Hcur. congruence.
Qed.

Lemma client_step_ok c now st pending s u expired c' r' :
  world_ok (mkWorld c now st pending s u) → client_step c now st expired (reg s) = (c', r') →
  world_ok (mkWorld c' now st pending (mkSys r' (claims s)) (match c with CRegistered _ _ => [] | _ => u end)).
Proof.
  intros [Hs Hr Hu] E. cbn [wd_client wd_sys wd_now wd_store wd_pending wd_unheard] in *. unfold uptodate in Hu.
  cbn [wd_client wd_unheard wd_now wd_store] in Hu.
  destruct c as [resolved|w resolved|w resolved now0 t|w resolved|res]; cbn [StreamBlock.client_step waiter_of] in *.
  - pose proof (register_registered s Hs) as Hreg. pose proof (wf_register s keys Stream Hs Hkeys) as Hwf.
    destruct (register (reg s) keys Stream) as [w r1]. injection E as <- <-. split; [done| |done].
    intros ? [= <-]. done.
  - specialize (Hr w eq_refl). destruct (begin_tx st) as [t|e] eqn:Eb; injection E as <- <-.
    + split; [by destruct s|by intros ? [= <-]; destruct s|].
      intros _ rs (t' & Ht' & Hn). cbn [wd_store] in Ht'. rewrite Eb in Ht'. injection Ht' as <-. by left.
    + split; [by apply drop_wf|done|done].
  - specialize (Hr w eq_refl). destruct (client_read_cases w resolved now0 t expired (reg s)) as [[res Hc]|(ids_now & Hc & Hno)];
      rewrite Hc in E; injection E as <- <-.
    + split; [by apply drop_wf|done|done].
    + split; [by destruct s|by intros ? [= <-]; destruct s|]. intros Hsil Hn.
      destruct (Hu ltac:(by destruct s) ids_now Hn) as [Ht|Ht]; [by destruct Hno|exact Ht].
  - specialize (Hr w eq_refl). destruct (poll (reg s) (w_id w)) eqn:Ep.
    + injection E as <- <-. split; [by apply drop_wf|done|done].
    + destruct expired; [|injection E as <- <-; split; [by destruct s|by intros ? [= <-]; destruct s|by destruct s]].
      unfold on_timeout in E. destruct (remove_waiter (reg s) w) as [removed r1] eqn:Er.
      assert (r1 = drop_registration (reg s) w) as -> by (unfold drop_registration; by rewrite Er).
      destruct removed; injection E as <- <-.
      * split; [|done|done]. apply (wf_remove (mkSys _ _)); [by apply drop_wf|]. cbn [reg]. by apply drop_genuine, Hr.
      * split; [by apply drop_wf| |].
        -- intros ? [= <-]. destruct Hr as [? ? ? Hg ? Hq]. split; try done.
           ++ cbn [reg]. rewrite drop_queues. done.
           ++ by apply drop_genuine.
           ++ cbn [reg]. intros _ k Hk. exfalso. assert (fst (remove_waiter (reg s) w) = true) as Hf; [|by rewrite Er in Hf].
              apply remove_waiter_found. exists k, w. rewrite rg_keys0. auto.
        -- intros [Hp Hpend]. apply Hu. split; [done|exact Hpend].
  - injection E as <- <-. split; [by destruct s|done|done].
Qed.

(** A commit: the notifications are on their way, or it is remembered. *)
Lemma commit_ok c now st pending s u now' st' ks :
  world_ok (mkWorld c now st pending s u) →
  world_ok (mkWorld c now' st' (pending ++ ks) s
    (if decide (Exists (.∈ ks) keys) then u else u ++ [((now, st), (now', st'))])).
Proof.
  intros [Hs Hr Hu]. split; [done..|]. unfold uptodate in *. cbn [wd_client wd_now wd_store wd_unheard] in *.
  set (u' := if decide _ then _ else _).
  assert (∀ w, silent (mkWorld c now' st' (pending ++ ks) s u') w →
    silent (mkWorld c now st pending s u) w ∧ u' = u ++ [((now, st), (now', st'))]) as Hsil.
  { intros w [Hp Hpend]. cbn [wd_pending] in Hpend. split; [split; [done|]; intros k Hk Hin; apply (Hpend k Hk); set_solver|].
    unfold u'. rewrite decide_False; [done|]. intros (k & Hk & Hin)%Exists_exists. apply (Hpend k Hk). set_solver. }
  assert (∀ resolved, u' = u ++ [((now, st), (now', st'))] → news now' st' resolved →
    news now st resolved ∨ unannounced_news u' resolved) as Hnew.
  { intros resolved -> Hn. destruct (decide (news now st resolved)) as [|Hno]; [by left|right].
    exists (now, st), (now', st'). split_and!; [|done..]. set_solver. }
  assert (∀ resolved, u' = u ++ [((now, st), (now', st'))] → unannounced_news u resolved → unannounced_news u' resolved) as Hmono.
  { intros resolved -> (x & y & Hin & Hxy). exists x, y. split; [set_solver|done]. }
  destruct c as [| |w resolved now0 t|w resolved|]; try done; intros [H1 H2]%Hsil.
  - intros rs [Hn|Hn]%Hnew; [|by right|done]. destruct (Hu H1 rs Hn); [by left|right; auto].
  - intros [Hn|Hn]%Hnew; [|done..]. apply Hmono; [done|by apply Hu].
Qed.

Lemma world_step_ok wd wd' : world_ok wd → world_step wd wd' → world_ok wd'.
Proof.
  intros Hok Hst. destruct Hst as [c now st pending s u c' r' expired E|c now st pending s u now' st' ks|c now st p1 k p2 s u|c now st pending s s' u Ho].
  - by eapply client_step_ok.
  - by apply commit_ok.
  - destruct Hok as [Hs Hr Hu]. cbn [wd_client wd_sys] in *. pose proof (wf_notify s k Hs) as Hwf. split; [done| |].
    + intros w Hw. specialize (Hr w Hw). eapply keeps_registered; [exact Hr| |apply Hr]. apply notify_keeps; [done|apply Hr].
    + assert (∀ w, waiter_of c = Some w →
        silent (mkWorld c now st (p1 ++ p2) (mkSys (wake (reg s) (stream_notification k)) (claims s)) u) w →
        silent (mkWorld c now st (p1 ++ k :: p2) s u) w) as Hsil.
      { intros w Hw [Hp Hpend]. specialize (Hr w Hw). cbn [wd_sys wd_pending reg] in *.
        pose proof (kp_open _ _ _ (notify_keeps s k w Hs (rg_genuine _ _ Hr)) Hp) as Hp0. split; [done|].
        intros k' Hk' Hin. cbn [wd_pending] in Hin. apply elem_of_app in Hin as [Hin|[->|Hin]%elem_of_cons];
          [apply (Hpend k' Hk'); set_solver| |apply (Hpend k' Hk'); set_solver].
        apply (notify_wakes s k w Hs (rg_kind _ _ Hr)); [|done]. by apply (rg_queued _ _ Hr). }
      unfold uptodate in *. cbn [wd_client] in *. destruct c as [| |w resolved now0 t|w resolved|]; try done;
        intros Hx%Hsil; [by apply Hu|done|by apply Hu|done].
  - destruct Hok as [Hs Hr Hu]. cbn [wd_client wd_sys] in *. pose proof (others_wf _ _ _ Hs Ho) as Hwf. split; [done| |].
    + intros w Hw. specialize (Hr w Hw). destruct (keeps_others c w s s' Hs Ho Hw (rg_id _ _ Hr) (rg_claims _ _ Hr)) as [Hk Hc].
      by eapply keeps_registered.
    + assert (∀ w, waiter_of c = Some w → silent (mkWorld c now st pending s' u) w → silent (mkWorld c now st pending s u) w) as Hsil.
      { intros w Hw [Hp Hpend]. specialize (Hr w Hw). destruct (keeps_others c w s s' Hs Ho Hw (rg_id _ _ Hr) (rg_claims _ _ Hr)) as [Hk Hc].
        split; [by apply (kp_open _ _ _ Hk)|done]. }
      unfold uptodate in *. cbn [wd_client] in *. destruct c as [| |w resolved now0 t|w resolved|]; try done;
        intros Hx%Hsil; [by apply Hu|done|by apply Hu|done].
Qed.

Lemma world_steps_ok wd wd' : rtc world_step wd wd' → world_ok wd → world_ok wd'.
Proof. intros Hst. induction Hst as [|wd0 wd1 wd2 H1 _ IH]; [done|]. intros H0. apply IH. by eapply world_step_ok. Qed.

Lemma world_reachable_ok wd : world_reachable begin_tx streams ids count wd → world_ok wd.
Proof.
  intros (wd0 & [Hc Hs] & Hst). assert (world_ok wd0) as H0.
  { destruct wd0 as [c now st pending s u]. cbn in *. subst c. split; [done..|]. by unfold uptodate. }
  by eapply world_steps_ok.
Qed.

(** ** Serving the client *)

Definition deliver_all (pending : list (list Z)) (r : WatchRegistry) : WatchRegistry :=
  fold_left (λ r k, wake r (stream_notification k)) pending r.
Fixpoint client_run (n : nat) (c : client) (now : Z) (st : St) (r : WatchRegistry) : client * WatchRegistry :=
  match n with O => (c, r) | S n' => let '(c', r') := client_step c now st false r in client_run n' c' now st r' end.

Lemma deliver_all_steps c now st pending s u :
  rtc world_step (mkWorld c now st pending s u) (mkWorld c now st [] (mkSys (deliver_all pending (reg s)) (claims s)) u).
Proof.
  revert s. induction pending as [|k pending IH]; intros s; [by destruct s|].
  eapply rtc_l; [apply (ws_deliver begin_tx streams ids count c now st [] k pending)|].
  exact (IH (mkSys (wake (reg s) (stream_notification k)) (claims s))).
Qed.

(** A client that was woken reads what there is and returns it. *)
Lemma woken_returns w resolved now st r :
  poll r (w_id w) ≠ None → news now st resolved →
  ∃ results, fst (client_run 4 (CWaiting w resolved) now st r) = CReturned (Ret results) ∧ any_entries results = true.
Proof.
  intros Hp (t & Hb & _ & current & Hcur & Hany). exists current. split; [|done]. cbn [client_run StreamBlock.client_step].
  destruct (poll r (w_id w)); [|done]. cbn [client_run StreamBlock.client_step].
  destruct (register _ keys Stream) as [w' r2]. cbn [client_run StreamBlock.client_step]. rewrite Hb.
  cbn [client_run StreamBlock.client_step]. unfold client_read. rewrite Hcur, Hany. done.
Qed.

Lemma waiting_served c now st pending s u w resolved :
  world_ok (mkWorld c now st pending s u) → c = CWaiting w resolved → news now st resolved → ¬ unannounced_news u resolved →
  (poll (reg s) (w_id w) ≠ None ∨ ∃ k, k ∈ keys ∧ k ∈ pending) ∧
  ∃ results, fst (client_run 4 c now st (deliver_all pending (reg s))) = CReturned (Ret results) ∧ any_entries results = true.
Proof.
  intros Hok -> Hn Hu. split.
  - destruct (poll (reg s) (w_id w)) eqn:Ep; [by left|]. right. destruct (decide (Exists (.∈ pending) keys)) as [He|He].
    + apply Exists_exists in He. naive_solver.
    + exfalso. apply Hu, (wo_uptodate _ Hok); [|done]. split; [done|]. intros k Hk Hin. apply He, Exists_exists. eauto.
  - apply woken_returns; [|done]. intros Hp.
    assert (world_ok (mkWorld (CWaiting w resolved) now st [] (mkSys (deliver_all pending (reg s)) (claims s)) u)) as Hok'.
    { eapply world_steps_ok; [apply deliver_all_steps|done]. }
    apply Hu, (wo_uptodate _ Hok'); [|done]. split; [done|]. intros k _. apply not_elem_of_nil.
Qed.
End Invariant.

(** ** Which commands bring news *)

(** What XREAD shows of one stream. *)
Definition read_log (count : Z) (x : XReadStream * option StreamEntryId) (o : option Log) : list Z * Entries :=
  (xs_name x.1, from_option (log_range (bump_seq <$> x.2) None count) [] o).

Lemma log_range_mono start count o o' :
  (∀ e, e ∈ entries_of o' → e ∈ entries_of o) →
  from_option (log_range start None count) [] o' ≠ [] → from_option (log_range start None count) [] o ≠ [].
Proof.
  intros Hsub. assert (∀ o, from_option (log_range start None count) [] o ≠ [] ↔
    ∃ e, e ∈ entries_of o ∧ in_ids start None e.1 = true) as Hiff.
  { intros o0. destruct o0 as [l|]; cbn [from_option entries_of]; [|split; [done|intros (e & He & _); by apply not_elem_of_nil in He]].
    unfold log_range. transitivity (List.filter (λ e, in_ids start None e.1) (lg_entries l) ≠ []).
    - destruct (List.filter _ _) as [|x L]; [by rewrite take_nil|]. assert (1 ≤ Z.to_nat (Z.max 1 count))%nat by lia.
      destruct (Z.to_nat (Z.max 1 count)); [lia|done].
    - split.
      + destruct (List.filter _ _) as [|x L] eqn:E; [done|]. intros _. exists x. rewrite list_elem_of_In.
        apply (filter_In (λ e, in_ids start None e.1)). rewrite E. by left.
      + intros (e & He & Hin) E. assert (e ∈ List.filter (λ e, in_ids start None e.1) (lg_entries l)) as Hx.
        { apply list_elem_of_In, filter_In. split; [by apply list_elem_of_In|done]. }
        rewrite E in Hx. by apply not_elem_of_nil in Hx. }
  rewrite !Hiff. naive_solver.
Qed.

Lemma any_entries_mono count reads os os' :
  Forall2 (λ o' o, ∀ e, e ∈ entries_of o' → e ∈ entries_of o) os' os →
  any_entries (zip_with (read_log count) reads os') = true → any_entries (zip_with (read_log count) reads os) = true.
Proof.
  intros Hos. revert reads. induction Hos as [|o' o os' os Ho _ IH]; intros [|x reads]; try done.
  cbn [zip_with any_entries existsb]. rewrite !orb_true_iff. intros [H|H]; [left|right; by apply IH].
  apply negb_true_iff, bool_decide_eq_false in H. apply negb_true_iff, bool_decide_eq_false. by eapply log_range_mono.
Qed.

(** A command other than a successful XADD only removes entries. *)
Lemma xstep_shrinks now pk c o :
  (∀ id cl, (xstep now pk c o).1 ≠ Ok (RXAdd id cl)) → ∀ e, e ∈ entries_of (xstep now pk c o).2 → e ∈ entries_of o.
Proof.
  assert (∀ P es (e : StreamEntryId * Fields), e ∈ keep P es → e ∈ es) as Hkeep.
  { intros P es e He. eapply elem_of_sublist; [exact He|apply keep_sublist]. }
  intros Hr e. destruct c as [nomk ml mi eid fvs| |start en count rev|name after count|ids|ml mi|lid|]; cbn [xstep] in *; try done.
  - unfold xadd_step in *. repeat case_match; try done. by edestruct Hr.
  - destruct o as [l|]; [|done]. cbn [snd entries_of from_option]. unfold log_delete. rewrite log_reset_entries. apply Hkeep.
  - destruct o as [l|]; [|done]. cbn [snd entries_of from_option].
    assert (∀ l, e ∈ lg_entries (match mi, lg_entries l with Some min, _ :: _ => log_trim_id min l | _, _ => l end) → e ∈ lg_entries l) as Hid.
    { intros l0. destruct mi as [min|]; [|done]. destruct (lg_entries l0) eqn:E; [by rewrite E|]. rewrite <- E.
      unfold log_trim_id. cbn [lg_entries]. rewrite log_reset_entries. apply Hkeep. }
    unfold log_trim. destruct ml as [n|]; [|apply Hid]. destruct (_ <=? _); [done|]. intros He%Hid.
    unfold log_trim_len in He. rewrite log_reset_entries in He. cbn [lg_entries] in He.
    eapply elem_of_sublist; [exact He|apply sublist_drop].
  - destruct o; done.
  - destruct o; done.
Qed.

Lemma stream_stored_frame now m m' pk legacy o :
  (∀ k : list Z, in_value now m pk legacy k → m' !! k = m !! k) →
  stream_stored now m pk legacy o → stream_stored now m' pk legacy o.
Proof.
  intros Hf Hst.
  assert (∀ k, in_value now m pk legacy k → live now k m' = live now k m) as Hl.
  { intros k Hk. unfold live, lookup_live. by rewrite Hf. }
  destruct Hst as [Hn He|i p l [Hi Hty Hpl Hp Hlog He Hlay Hleg]].
  - apply stream_none; [rewrite Hl; [done|by left]|].
    intros f. rewrite Hl; [apply He|]. right. left. eauto.
  - eapply stream_some with i p. split; try done.
    + rewrite Hl; [done|by left].
    + intros f. rewrite Hl; [apply He|]. right. right. eauto 10.
    + intros Hx f. rewrite Hl; [by apply Hleg|]. right. left. eauto.
Qed.

Import MapTx.

Section News.
Context {now : Z} (Hnow : clock_ok now).
#[local] Abbreviation Runs := (Runs (T:=gmap (list Z) Item) (raw:=id) (ok:=λ _, True)).

Lemma runs_in_map {A} (op : DbM (gmap (list Z) Item) A) m r m' : Runs op m r m' → op m = (r, m').
Proof. intros H. destruct (H m I eq_refl) as (t & E & _ & Ht). rewrite E. f_equal. exact Ht. Qed.

Lemma runs_read_streams streams os resolved count m :
  good m → Forall2 (λ x o, stream_stored now m (xs_public x) (xs_legacy x) o) streams os → valid_ids resolved →
  Runs (read_streams now (zip streams resolved) count) m (Ret (zip_with (read_log count) (zip streams resolved) os)) m.
Proof.
  intros Hg Hst. revert resolved. induction Hst as [|x o streams os Hx _ IH]; intros [|a resolved] Hv; [apply runs_ret..|].
  apply Forall_cons in Hv as [Ha Hv]. cbn [zip zip_with read_streams].
  eapply runs_bind; [|eapply runs_bind; [apply IH, Hv|apply runs_ret]].
  eapply (runs_on_stream Hnow); [exact Hx|]. destruct Hx as [|i p l Hat]; [apply runs_ret|].
  eapply runs_bind; [exact (stream_resolve_read Hnow _ _ [] _ _ _ (stream_at_writable _ _ _ _ _ _ _ _ Hat))|].
  apply (runs_scan_entries Hnow); try done; [apply Hg|apply Hat|apply Hat|]. destruct a as [a|]; [|done].
  destruct Ha as [Ha1 Ha2]. exact (proj1 (bump_seq_spec a Ha1 Ha2)).
Qed.

Lemma news_spec streams ids os resolved count m :
  good m → Forall2 (λ x o, stream_stored now m (xs_public x) (xs_legacy x) o) streams os → valid_ids resolved →
  news Ok streams ids count now m resolved ↔ any_entries (zip_with (read_log count) (zip streams resolved) os) = true.
Proof.
  intros Hg Hst Hv. pose proof (runs_in_map _ _ _ _ (runs_read_streams streams os resolved count m Hg Hst Hv)) as Hr.
  assert (fst (turn streams ids count now (Some resolved) m) = Ret (resolved, zip_with (read_log count) (zip streams resolved) os)) as Ht.
  { unfold turn, mbind, DbM_bind. cbn. by rewrite Hr. }
  split.
  - intros (t & [= <-] & _ & cur & Hc & Ha). rewrite Ht in Hc. by injection Hc as <-.
  - intros Ha. exists m. split; [done|]. split; [done|]. eexists. done.
Qed.

Lemma command_announces streams ids count m os pk legacy nid p o c :
  good m → Forall2 (λ x o, stream_stored now m (xs_public x) (xs_legacy x) o) streams os →
  stream_writable now m pk legacy nid p o → xregular c o →
  Forall2 (λ x ox, (xs_public x = pk ∧ xs_legacy x = legacy ∧ ox = o) ∨
    (xs_public x ≠ pk ∧ apart now m (xs_public x) (xs_legacy x) pk (prefix_bytes p))) streams os →
  ∃ r m', xcmd_op now nid pk legacy c m = (outcome_of r, m') ∧ r = (xstep now pk c o).1 ∧
    announces Ok streams ids count (match r with Ok (RXAdd _ _) => [pk] | _ => [] end) now m now m'.
Proof.
  intros Hg Hst Hw Hreg Hap. destruct (xstep_refines (T:=gmap (list Z) Item) (raw:=id) (ok:=λ _, True) Hnow m pk legacy nid p o c Hg Hw Hreg)
    as (m' & Hrun & Hu).
  exists (xstep now pk c o).1, m'. split; [exact (runs_in_map _ _ _ _ Hrun)|]. split; [done|]. intros Hks resolved Hn.
  set (ks := match (xstep now pk c o).1 with Ok (RXAdd _ _) => [pk] | _ => [] end) in *.
  assert (∃ os', Forall2 (λ x o, stream_stored now m' (xs_public x) (xs_legacy x) o) streams os' ∧
    Forall2 (λ o' o, ∀ e, e ∈ entries_of o' → e ∈ entries_of o) os' os) as (os' & Hst' & Hsub).
  { clear Hn. induction Hap as [|x ox streams os Hx _ IH]; [exists []; by split|]. apply Forall2_cons in Hst as [Hsx Hst].
    destruct IH as (os' & H1 & H2); [done| |].
    { intros k Hk. apply Hks. unfold public_keys in *. cbn [fmap list_fmap]. by right. }
    destruct Hx as [(Hpk & Hleg & ->)|(Hpk & Hx)].
    - exists ((xstep now pk c o).2 :: os'). split; [|]; (constructor; [|done]).
      + rewrite Hpk, Hleg. apply Hu.
      + apply xstep_shrinks. intros id' cl' E. apply (Hks pk); [unfold public_keys; cbn [fmap list_fmap]; rewrite Hpk; by left|].
        unfold ks. rewrite E. by left.
    - exists (ox :: os'). split; (constructor; [|done]); [|done]. eapply stream_stored_frame; [|exact Hsx].
      intros k Hk. destruct (Hx k Hk) as [Hne Hf]. by apply (su_frame _ _ _ _ _ _ _ Hu). }
  assert (valid_ids resolved) as Hv by (destruct Hn as (t & _ & Hv & _); exact Hv).
  apply (news_spec streams ids os' resolved count m' (su_good _ _ _ _ _ _ _ Hu) Hst' Hv) in Hn.
  apply (news_spec streams ids os resolved count m Hg Hst Hv). by eapply any_entries_mono.
Qed.

End News.

(** Reading does not change a map. *)
Lemma on_stream_map {A} (now : Z) (pk : list Z) (missing : DbM (gmap (list Z) Item) A) (found : StreamMeta → DbM (gmap (list Z) Item) A)
    (m : gmap (list Z) Item) :
  snd (missing m) = m → (∀ x, snd (found x m) = m) → snd (on_stream now pk missing found m) = m.
Proof.
  intros Hm Hf. unfold on_stream, read_stream_sentinel, caught, get, try_kv, try_db, mbind, DbM_bind, mret, DbM_ret, fail. cbn.
  repeat (case_match; simplify_eq/=; try done).
Qed.

Lemma resolve_map (now : Z) (reads : list (XReadStream * option StreamEntryId)) (m : gmap (list Z) Item) : snd (resolve_read_ids now reads m) = m.
Proof.
  induction reads as [|[x [a|]] reads IH]; [done|..]; cbn [resolve_read_ids]; unfold mbind, DbM_bind, mret, DbM_ret.
  - destruct (resolve_read_ids now reads m) as [[]]; done.
  - pose proof (on_stream_map now (xs_public x) (λ t, (Ret None, t)) (λ m t, (Ret (Some (sm_last_id m)), t)) m eq_refl (λ _, eq_refl)) as H.
    destruct (on_stream _ _ _ _ _) as [[]]; cbn in H; subst; try done. by destruct (resolve_read_ids now reads m) as [[]].
Qed.

Lemma repeatable_map streams ids count : repeatable (T:=gmap (list Z) Item) streams ids count.
Proof. intros now t ids_now t1 resolved E. pose proof (resolve_map now (zip streams ids) t) as H. rewrite E in H. cbn in H. by subst. Qed.

(** ** Properties *)

(** C29: a client that blocks in XREAD misses no entry that was announced. Its steps
    interleave in any way with commits that change the store arbitrarily and announce any
    streams, with the delivery of these notifications after the commits, with other clients'
    use of the registry and with timeouts. When the client waits although there is something
    to read, and this was not brought by a commit since it began its last transaction that
    announced none of its streams, then it has been woken or a notification for one of its
    streams is on its way, and once the notifications are delivered its next four steps
    return what there is. Of the commands on streams only XADD brings entries, and it
    announces them ([only_xadd_brings_news]); RENAME, RENAMENX and MOVE can put a stream
    under a key that a client waits for and announce nothing ([rename_not_announced]), and
    then the client sleeps on. Assumes distinct streams, repeatable reads in a snapshot, and
    that no writer claims the client for a sorted set. *)
Theorem xread_no_lost_wakeup {St T : Type} `{!TxOps T} (begin_tx : St → result T KvError) (streams : list XReadStream)
    (ids : list (option StreamEntryId)) (count : Z) (wd : World (St:=St) (T:=T)) (w : Waiter) (resolved : list (option StreamEntryId)) :
  NoDup (public_keys streams) → repeatable streams ids count → world_reachable begin_tx streams ids count wd →
  wd_client wd = CWaiting w resolved → news begin_tx streams ids count (wd_now wd) (wd_store wd) resolved →
  ¬ unannounced_news begin_tx streams ids count (wd_unheard wd) resolved →
  (poll (reg (wd_sys wd)) (w_id w) ≠ None ∨ ∃ k, k ∈ public_keys streams ∧ k ∈ wd_pending wd) ∧
  ∃ results, fst (client_run begin_tx streams ids count 4 (wd_client wd) (wd_now wd) (wd_store wd)
      (deliver_all (wd_pending wd) (reg (wd_sys wd)))) = CReturned (Ret results) ∧ any_entries results = true.
Proof.
  intros Hnd Hrep Hreach Hc Hn Hu. destruct wd as [c now st pending s u]. cbn in Hc, Hn, Hu |- *.
  eapply (waiting_served begin_tx streams ids count Hnd Hrep); [|exact Hc|exact Hn|exact Hu]. by eapply world_reachable_ok in Hreach.
Qed.

(** The client starts on an empty store and waits; then an entry is added. *)
Definition demo_streams : list XReadStream := [mkXStream (B "0:s") (B "-0:s") (B "s")].
Definition demo_ids : list (option StreamEntryId) := [Some ID_ZERO].
Definition demo_registry : WatchRegistry := snd (register registry_new [B "0:s"] Stream).
Definition demo_store : gmap (list Z) Item :=
  snd (XAddOp 5 (id_of 1) (B "0:s") (B "-0:s") false None None (Some (mkId 1 1)) [B "f"; B "v"] (∅ : gmap (list Z) Item)).
Definition demo_world : World (St:=gmap (list Z) Item) (T:=gmap (list Z) Item) :=
  mkWorld (CWaiting (mkWaiter 1 [B "0:s"] Stream) demo_ids) 5 demo_store [B "0:s"] (mkSys demo_registry []) [].

Lemma demo_reachable : world_reachable Ok demo_streams demo_ids 10 demo_world.
Proof.
  exists (mkWorld (CTop None) 5 ∅ [] (mkSys registry_new []) []). split; [split; [done|apply init_wf]|].
  set (w := mkWaiter 1 [B "0:s"] Stream). set (s := mkSys demo_registry []).
  eapply rtc_l with (mkWorld (CRegistered w None) 5 ∅ [] s []).
  { apply (ws_client Ok demo_streams demo_ids 10 (CTop None) 5 ∅ [] (mkSys registry_new []) [] _ _ false). reflexivity. }
  eapply rtc_l with (mkWorld (CBegun w None 5 ∅) 5 ∅ [] s []).
  { apply (ws_client Ok demo_streams demo_ids 10 (CRegistered w None) 5 ∅ [] s [] _ _ false). reflexivity. }
  eapply rtc_l with (mkWorld (CWaiting w demo_ids) 5 ∅ [] s []).
  { apply (ws_client Ok demo_streams demo_ids 10 (CBegun w None 5 ∅) 5 ∅ [] s [] _ _ false). reflexivity. }
  eapply rtc_l; [|apply rtc_refl].
  apply (ws_commit Ok demo_streams demo_ids 10 (CWaiting w demo_ids) 5 ∅ [] s [] 5 demo_store [B "0:s"]).
Qed.

Lemma xread_no_lost_wakeup_witness :
  ∃ results, fst (client_run Ok demo_streams demo_ids 10 4 (wd_client demo_world) 5 demo_store
      (deliver_all [B "0:s"] demo_registry)) = CReturned (Ret results) ∧ any_entries results = true.
Proof.
  refine (proj2 (xread_no_lost_wakeup Ok demo_streams demo_ids 10 demo_world (mkWaiter 1 [B "0:s"] Stream) demo_ids _ _ _ _ _ _)).
  - apply (bool_decide_unpack _). vm_compute. exact I.
  - apply repeatable_map.
  - apply demo_reachable.
  - reflexivity.
  - exists demo_store. split; [reflexivity|]. split.
    + repeat constructor; unfold sid_ok, bumpable; cbn; lia.
    + eexists. split; [vm_compute; reflexivity|]. vm_compute. reflexivity.
  - intros (x & y & []%not_elem_of_nil & _).
Defined.

(** RENAME puts a stream under a key that the client waits for, and its reply does not touch
    the registry: the entries are there and nobody is told. *)
Lemma rename_not_announced :
  let m := snd (XAddOp 5 (id_of 1) (B "0:t") (B "-0:t") false None None (Some (mkId 1 1)) [B "f"; B "v"] (∅ : gmap (list Z) Item)) in
  let '(r, m') := Keys.RenameOp 5 (B "0:t") (B "0:s") m in
  r = Ret (ROptUnit (Some ())) ∧
  ¬ news Ok demo_streams demo_ids 10 5 m demo_ids ∧ news Ok demo_streams demo_ids 10 5 m' demo_ids ∧
  ∀ reply reg, snd (Keys.RenameWire reply reg) = reg.
Proof.
  set (m := snd _). destruct (Keys.RenameOp 5 (B "0:t") (B "0:s") m) as [r m'] eqn:E.
  assert (r = fst (Keys.RenameOp 5 (B "0:t") (B "0:s") m)) as -> by (by rewrite E).
  assert (m' = snd (Keys.RenameOp 5 (B "0:t") (B "0:s") m)) as -> by (by rewrite E).
  split; [vm_compute; reflexivity|]. split.
  { apply (bool_decide_eq_false_1 _). vm_compute. reflexivity. }
  split; [|done]. apply (bool_decide_eq_true_1 _). vm_compute. reflexivity.
Qed.

(** Of the stream commands only a successful XADD can bring news to a client in XREAD,
    and the notification it sends names the only stream that can have them: any other
    stream command, on the client's streams or on others, leaves the client with nothing
    it could not read before. *)
Theorem only_xadd_brings_news (now : Z) (streams : list XReadStream) (ids : list (option StreamEntryId)) (count : Z)
    (m : gmap (list Z) Item) (os : list (option Log)) (pk legacy nid : list Z) (p : ElementPrefix) (o : option Log) (c : xcmd) :
  clock_ok now → good m → Forall2 (λ x o, stream_stored now m (xs_public x) (xs_legacy x) o) streams os →
  stream_writable now m pk legacy nid p o → xregular c o →
  Forall2 (λ x ox, (xs_public x = pk ∧ xs_legacy x = legacy ∧ ox = o) ∨
    (xs_public x ≠ pk ∧ apart now m (xs_public x) (xs_legacy x) pk (prefix_bytes p))) streams os →
  ∃ r m', xcmd_op now nid pk legacy c m = (outcome_of r, m') ∧ r = (xstep now pk c o).1 ∧
    announces Ok streams ids count (match r with Ok (RXAdd _ _) => [pk] | _ => [] end) now m now m'.
Proof. intros Hnow. by apply command_announces. Qed.

Lemma only_xadd_brings_news_witness :
  ∃ r m', xcmd_op 5 (id_of 1) (B "0:s") (B "-0:s") (XAdd false None None (Some (mkId 1 1)) [B "f"; B "v"]) (∅ : gmap (list Z) Item) =
      (outcome_of r, m') ∧ r = Ok (RXAdd (B "1-1") (stream_notification (B "0:s"))) ∧
    announces Ok demo_streams demo_ids 10 [B "0:s"] 5 ∅ 5 m'.
Proof.
  assert (stream_stored 5 ∅ (B "0:s") (B "-0:s") None) as Hst by (apply stream_none; [reflexivity|apply elements_at_empty]).
  destruct (stream_stored_writable 5 ∅ (B "0:s") (B "-0:s") (id_of 1) None Hst) as [p Hw].
  { refine (unused_fresh demo_session _ (B "s") _ 5 ∅ (id_of 1) _).
    - unfold session_ok. simpl. width_lia.
    - vm_compute. reflexivity.
    - split; [reflexivity|apply elements_at_empty]. }
  destruct (only_xadd_brings_news 5 demo_streams demo_ids 10 ∅ [None] (B "0:s") (B "-0:s") (id_of 1) p None
    (XAdd false None None (Some (mkId 1 1)) [B "f"; B "v"])) as (r & m' & Hrun & Hr & Ha).
  - unfold clock_ok. width_lia.
  - apply good_empty.
  - constructor; [exact Hst|constructor].
  - exact Hw.
  - apply (bool_decide_unpack _). vm_compute. exact I.
  - constructor; [|constructor]. left. done.
  - exists r, m'. split; [exact Hrun|]. rewrite Hr in Ha |- *. split; [vm_compute; reflexivity|exact Ha].
Defined.
