(* ===== verification/Strings.v ===== *)
(** * String commands: src/redis/strings.rs

    The database half of every string command (SET with its options, GET, GETSET,
    GETDEL, STRLEN, GETRANGE, SETNX, APPEND, GETEX, MSET, MSETNX, SETRANGE and the
    INCR family), their wire halves and the queued commands built from them.
    INCRBYFLOAT is not modelled. Each operation is proved against the abstract store:
    its reply, the entry it leaves, that expiries survive updates, and that reads and
    failures change nothing. *)
From S2P Require Import Prelude Bytes Resp Kv Registry Op Session Atomic.
Import MapTx.

Definition TYPE_STRING : Z := type_byte VString.

(** [SetMode] *)
Inductive SetMode : Type :=
| SetAlways
| Nx
| Xx.

#[global] Instance SetMode_eq_dec : EqDecision SetMode.
Proof. solve_decision. Defined.

Definition string_entry (key value : list Z) : Entry := with_metadata (entry_new key value) TYPE_STRING.

Definition not_integer : DbError := Redis (B "value is not an integer or out of range").
Definition syntax_error : DbError := Redis (B "syntax error").

Section Ops.
Context {T : Type} `{!TxOps T} (now : Z).

Definition read_string (key : list Z) : DbM T (option (list Z)) :=
  r ← get now key;
  match r with
  | Ok item => if negb (item_meta item =? TYPE_STRING) then fail WrongType else mret (Some (item_value item))
  | Err KeyNotFound => mret None
  | Err e => fail (Kv e)
  end.

(** ** SET *)

Definition set_allowed (mode : SetMode) (existing : option Item) : bool :=
  match mode with
  | SetAlways => true
  | Nx => bool_decide (existing = None)
  | Xx => bool_decide (existing ≠ None)
  end.

(** With KEEPTTL the expiry comes from [existing.unwrap()], which panics on [None]. *)
Definition SetOp (key value : list Z) (ttl : option Z) (mode : SetMode) (get_old keepttl : bool)
  : DbM T DbResult :=
  r ← get now key;
  existing ← match r with
             | Ok item =>
                 if get_old && negb (item_meta item =? TYPE_STRING) then fail WrongType
                 else mret (Some item)
             | Err KeyNotFound => mret None
             | Err e => fail (Kv e)
             end;
  let allowed := set_allowed mode existing in
  let old := item_value <$> existing in
  if allowed then
    effective_ttl ← (if keepttl
                     then match existing with Some i => mret (item_ttl now i) | None => panic end
                     else mret ttl);
    set now (match effective_ttl with
             | Some d => with_ttl (string_entry key value) d
             | None => string_entry key value
             end) ;;
    mret (RSet allowed old)
  else mret (RSet allowed old).

(** ** Reads *)

Definition GetOp (key : list Z) : DbM T DbResult := v ← read_string key; mret (ROptBytes v).

Definition StrlenOp (key : list Z) : DbM T DbResult :=
  v ← read_string key;
  mret (RInt (match v with Some val => Z.of_nat (length val) | None => 0 end)).

(** The slice of [val] that [SubstrOp] returns. *)
Definition substr_slice (val : list Z) (start0 end0 : Z) : list Z :=
  let n := Z.of_nat (length val) in
  let start1 := if start0 <? 0 then start0 + n else start0 in
  let end1 := if end0 <? 0 then end0 + n else end0 in
  let start2 := if start1 <? 0 then 0 else start1 in
  let end2 := if n <=? end1 then n - 1 else end1 in
  if (end2 <? start2) || (n <=? start2) then []
  else take (Z.to_nat (end2 - start2 + 1)) (drop (Z.to_nat start2) val).

Definition SubstrOp (key : list Z) (start0 end0 : Z) : DbM T DbResult :=
  v ← read_string key; mret (RBytes (substr_slice (default [] v) start0 end0)).

(** ** Replacing writes *)

Definition GetSetOp (key value : list Z) : DbM T DbResult :=
  r ← get now key;
  match r with
  | Ok item =>
      let old := item_value item in
      set now (string_entry key value) ;; mret (ROptBytes (Some old))
  | Err KeyNotFound => set now (string_entry key value) ;; mret (ROptBytes None)
  | Err e => fail (Kv e)
  end.

Definition GetDelOp (key : list Z) : DbM T DbResult :=
  r ← get now key;
  match r with
  | Ok item =>
      if negb (item_meta item =? TYPE_STRING) then fail WrongType
      else
        d ← delete_res key;
        match d with
        | Err _ => mret (ROptBytes None)
        | Ok _ => mret (ROptBytes (Some (item_value item)))
        end
  | Err KeyNotFound => mret (ROptBytes None)
  | Err e => fail (Kv e)
  end.

Definition SetNXOp (key value : list Z) : DbM T DbResult :=
  r ← get now key;
  match r with
  | Ok _ => mret (RInt 0)
  | Err KeyNotFound => set now (string_entry key value) ;; mret (RInt 1)
  | Err e => fail (Kv e)
  end.

Fixpoint set_pairs (pairs : list (list Z * list Z)) : DbM T () :=
  match pairs with
  | [] => mret ()
  | (key, value) :: pairs' => set now (string_entry key value) ;; set_pairs pairs'
  end.

Definition MSetOp (pairs : list (list Z * list Z)) : DbM T DbResult := set_pairs pairs ;; mret RUnit.

(** Whether some key of [pairs] is live. *)
Fixpoint any_live (pairs : list (list Z * list Z)) : DbM T bool :=
  match pairs with
  | [] => mret false
  | (key, _) :: pairs' =>
      r ← get now key;
      match r with
      | Ok _ => mret true
      | Err KeyNotFound => any_live pairs'
      | Err e => fail (Kv e)
      end
  end.

Definition MSetNXOp (pairs : list (list Z * list Z)) : DbM T DbResult :=
  b ← any_live pairs;
  if (b : bool) then mret (RInt 0) else set_pairs pairs ;; mret (RInt 1).

(** ** Updates that keep the expiry *)

Definition AppendOp (key value : list Z) : DbM T DbResult :=
  v ← read_string key;
  let new_val := match v with Some old => old ++ value | None => value end in
  set_keeping_ttl now (string_entry key new_val) ;;
  mret (RInt (Z.of_nat (length new_val))).

(** [new_val[off..off + value.len()].copy_from_slice(value)] on a long enough buffer. *)
Definition overwrite (buf : list Z) (off : nat) (value : list Z) : list Z :=
  take off buf ++ value ++ drop (off + length value) buf.

(** The buffer [SetRangeOp] builds: zeros, the old value, then the new bytes. *)
Definition setrange_value (old : option (list Z)) (off : nat) (value : list Z) : list Z :=
  match old with
  | None => overwrite (replicate (off + length value) 0) off value
  | Some old =>
      let new_len := Nat.max (off + length value) (length old) in
      overwrite (overwrite (replicate new_len 0) 0 old) off value
  end.

(** [offset as usize]; a buffer of more than [isize::MAX] bytes panics. *)
Definition SetRangeOp (key : list Z) (offset : Z) (value : list Z) : DbM T DbResult :=
  let off := as_u64 offset in
  v ← read_string key;
  if i64_max <? off + Z.of_nat (length value) then panic
  else
    let new_val := setrange_value v (Z.to_nat off) value in
    set_keeping_ttl now (string_entry key new_val) ;;
    mret (RInt (Z.of_nat (length new_val))).

Definition IncrementOp (key : list Z) (amount : Z) : DbM T DbResult :=
  r ← get now key;
  match r with
  | Err KeyNotFound => set now (string_entry key (to_dec amount)) ;; mret (RInt amount)
  | Err e => fail (Kv e)
  | Ok item =>
      match parse_i64 (item_value item) with
      | None => fail not_integer
      | Some current =>
          let new_value := as_i64 (current + amount) in
          set now (keep_ttl_of now
                     (with_metadata (entry_new key (to_dec new_value)) (item_meta item)) item) ;;
          mret (RInt new_value)
      end
  end.
End Ops.

(** ** GETEX *)

Record GetExOpts : Type := mkGetEx {
  ex_sec : option Z;
  px_ms : option Z;
  exat_sec : option Z;
  pxat_ms : option Z;
  persist : bool
}.

Fixpoint getex_parse (args : list (list Z)) (o : GetExOpts) : result GetExOpts DbError :=
  match args with
  | [] => Ok o
  | a :: args' =>
      let opt := lowercase a in
      if bool_decide (opt = B "persist") then
        getex_parse args' (mkGetEx (ex_sec o) (px_ms o) (exat_sec o) (pxat_ms o) true)
      else if bool_decide (opt = B "ex") || bool_decide (opt = B "px")
              || bool_decide (opt = B "exat") || bool_decide (opt = B "pxat") then
        match args' with
        | [] => Err syntax_error
        | b :: args'' =>
            match parse_i64 b with
            | None => Err not_integer
            | Some v =>
                getex_parse args''
                  (if bool_decide (opt = B "ex") then mkGetEx (Some v) (px_ms o) (exat_sec o) (pxat_ms o) (persist o)
                   else if bool_decide (opt = B "px") then mkGetEx (ex_sec o) (Some v) (exat_sec o) (pxat_ms o) (persist o)
                   else if bool_decide (opt = B "exat") then mkGetEx (ex_sec o) (px_ms o) (Some v) (pxat_ms o) (persist o)
                   else mkGetEx (ex_sec o) (px_ms o) (exat_sec o) (Some v) (persist o))
            end
        end
      else Err syntax_error
  end.

(** The TTL to write, if any; zero means no expiry. *)
Definition getex_write (now : Z) (o : GetExOpts) : option Z :=
  if persist o then Some 0
  else match ex_sec o, px_ms o, exat_sec o, pxat_ms o with
       | Some secs, _, _, _ => if secs <? 0 then None else Some (from_secs secs)
       | None, Some ms, _, _ => if ms <? 0 then None else Some (from_millis ms)
       | None, None, Some secs, _ =>
           Some (from_millis (Z.max (saturating_sub (saturating_mul secs 1000) now) 0))
       | None, None, None, Some ms => Some (from_millis (Z.max (saturating_sub ms now) 0))
       | None, None, None, None => None
       end.

Definition GetExOp {T} `{!TxOps T} (now : Z) (key : list Z) (args : list (list Z)) : DbM T DbResult :=
  match getex_parse args (mkGetEx None None None None false) with
  | Err e => fail e
  | Ok o =>
      r ← get now key;
      match r with
      | Err KeyNotFound => mret (ROptBytes None)
      | Err e => fail (Kv e)
      | Ok item =>
          if negb (item_meta item =? TYPE_STRING) then fail WrongType
          else
            let val := item_value item in
            match getex_write now o with
            | Some ttl =>
                set now (if negb (is_zero ttl) then with_ttl (string_entry key val) ttl
                         else string_entry key val) ;;
                mret (ROptBytes (Some val))
            | None => mret (ROptBytes (Some val))
            end
      end
  end.

(** ** Wire halves *)

Definition SetWire (get_old : bool) : WireOp := pure_wire (λ r,
  match r with
  | Ok (RSet modified old) =>
      if get_old then BulkString old
      else if modified then SimpleString (B "OK") else BulkString None
  | Ok _ => Error (B "ERR internal error")
  | Err e => err_resp e
  end).

Definition OkWire : WireOp := pure_wire (λ r,
  match r with Ok _ => SimpleString (B "OK") | Err e => err_resp e end).

Definition IntWire : WireOp := pure_wire (λ r,
  match r with
  | Ok (RInt n) => Integer n
  | Ok _ => Error (B "ERR internal error: bad int result")
  | Err e => err_resp e
  end).

Definition NullableBulkWire : WireOp := pure_wire (λ r,
  match r with
  | Ok (ROptBytes v) => BulkString v
  | Ok _ => Error (B "ERR internal error: bad bulk result")
  | Err e => err_resp e
  end).

Definition BulkWire : WireOp := pure_wire (λ r,
  match r with
  | Ok (RBytes v) => BulkString (Some v)
  | Ok _ => Error (B "ERR internal error: bad bulk result")
  | Err e => err_resp e
  end).

(** ** The queued commands *)

Module Cmd.
Section Cmd.
Context {T : Type} `{!TxOps T}.
Implicit Types (s : Session T).

Definition set_full s (key value : list Z) (ttl : option Z) (mode : SetMode) (get_old keepttl : bool)
  : QueuedOp T :=
  let storage_key := public_key s key in
  mkQueuedOp (tx_op (λ now, SetOp now storage_key value ttl mode get_old keepttl)) (SetWire get_old)
    true true false (Some [from_utf8_lossy storage_key]).

(** [u64::try_from(n).ok().map(f).unwrap_or(Duration::ZERO)] *)
Definition set_ex s (key value : list Z) (seconds : Z) : QueuedOp T :=
  set_full s key value (Some (if seconds <? 0 then 0 else from_secs seconds)) SetAlways false false.

Definition pset_ex s (key value : list Z) (ms : Z) : QueuedOp T :=
  set_full s key value (Some (if ms <? 0 then 0 else from_millis ms)) SetAlways false false.

Definition get s (key : list Z) : QueuedOp T :=
  mkQueuedOp (tx_op (λ now, GetOp now (public_key s key))) NullableBulkWire false true false
    (Some (key_sv s key)).

Definition get_set s (key value : list Z) : QueuedOp T :=
  mkQueuedOp (tx_op (λ now, GetSetOp now (public_key s key) value)) NullableBulkWire true true false
    (Some (key_sv s key)).

Definition get_del s (key : list Z) : QueuedOp T :=
  mkQueuedOp (tx_op (λ now, GetDelOp now (public_key s key))) NullableBulkWire true true false
    (Some (key_sv s key)).

Definition strlen s (key : list Z) : QueuedOp T :=
  mkQueuedOp (tx_op (λ now, StrlenOp now (public_key s key))) IntWire false true false
    (Some (key_sv s key)).

Definition substr s (key : list Z) (start0 end0 : Z) : QueuedOp T :=
  mkQueuedOp (tx_op (λ now, SubstrOp now (public_key s key) start0 end0)) BulkWire false true false
    (Some (key_sv s key)).

Definition set_nx s (key value : list Z) : QueuedOp T :=
  mkQueuedOp (tx_op (λ now, SetNXOp now (public_key s key) value)) IntWire true true false
    (Some (key_sv s key)).

Definition append s (key value : list Z) : QueuedOp T :=
  mkQueuedOp (tx_op (λ now, AppendOp now (public_key s key) value)) IntWire true true false
    (Some (key_sv s key)).

(** [args[0]] is the key; the caller has checked that it is there. *)
Definition get_ex s (key : list Z) (args : list (list Z)) : QueuedOp T :=
  mkQueuedOp (tx_op (λ now, GetExOp now (public_key s key) args)) NullableBulkWire true true false
    (Some (key_sv s key)).

(** [args.chunks(2)] of an even list. *)
Fixpoint chunks2 (args : list (list Z)) : list (list Z * list Z) :=
  match args with
  | k :: v :: args' => (k, v) :: chunks2 args'
  | _ => []
  end.

Definition storage_pairs s (args : list (list Z)) : list (list Z * list Z) :=
  (λ kv, (public_key s kv.1, kv.2)) <$> chunks2 args.

Definition mset s (args : list (list Z)) : QueuedOp T :=
  mkQueuedOp (tx_op (λ now, MSetOp now (storage_pairs s args))) OkWire true true false
    (Some ((λ kv, from_utf8_lossy (public_key s kv.1)) <$> chunks2 args)).

Definition mset_nx s (args : list (list Z)) : QueuedOp T :=
  mkQueuedOp (tx_op (λ now, MSetNXOp now (storage_pairs s args))) IntWire true true false
    (Some ((λ kv, from_utf8_lossy (public_key s kv.1)) <$> chunks2 args)).

Definition set_range s (key : list Z) (offset : Z) (value : list Z) : QueuedOp T :=
  mkQueuedOp (tx_op (λ now, SetRangeOp now (public_key s key) offset value)) IntWire true true false
    (Some (key_sv s key)).

Definition increment s (key : list Z) (amount : Z) : QueuedOp T :=
  mkQueuedOp (tx_op (λ now, IncrementOp now (public_key s key) amount)) IntWire true true false
    (Some (key_sv s key)).
End Cmd.
End Cmd.

(** ** Lemmas *)

(** What reading [key] as a string yields. *)
Definition string_at (now : Z) (key : list Z) (m : gmap (list Z) Item) : outcome (option (list Z)) DbError :=
  match live now key m with
  | Some i => if item_meta i =? TYPE_STRING then Ret (Some (item_value i)) else Fail WrongType
  | None => Ret None
  end.

Section Specs.
Context {T : Type} `{!TxOps T} {raw : T → gmap (list Z) Item} {ok : T → Prop} `{!TxLaws T raw ok}.
Context {now : Z} (Hnow : clock_ok now).
Abbreviation Runs := (Runs (raw:=raw) (ok:=ok)).

Lemma runs_read_string key m : Runs (read_string now key) m (string_at now key m) m.
Proof.
  eapply runs_bind; [by apply runs_get|]. rewrite lookup_live_live. unfold string_at.
  destruct (live now key m) as [i|]; [|apply runs_ret].
  destruct (item_meta i =? TYPE_STRING); [apply runs_ret|apply runs_fail].
Qed.

(** A command that reads a string and goes on with it. *)
Lemma runs_on_string {A} key m (k : option (list Z) → DbM T A) r m' :
  match string_at now key m with
  | Ret v => Runs (k v) m r m'
  | Fail e => r = Fail e ∧ m' = m
  | Panic => False
  end → Runs (read_string now key ≫= k) m r m'.
Proof.
  intros H. pose proof (runs_read_string key m) as Hr. revert H Hr.
  destruct (string_at now key m) as [v|e|]; intros H Hr.
  - by eapply runs_bind.
  - destruct H as [-> ->]. by apply runs_bind_fail.
  - done.
Qed.

Lemma runs_set_pairs pairs m :
  Runs (set_pairs now pairs) m (Ret ())
    (fold_left (λ m kv, <[kv.1 := item_of now (string_entry kv.1 kv.2)]> m) pairs m).
Proof.
  revert m. induction pairs as [|[k v] pairs IH]; intros m; simpl; [apply runs_ret|].
  eapply runs_bind; [|apply IH]. apply (runs_set (raw:=raw) (ok:=ok) Hnow (string_entry k v)).
  by apply entry_ok_no_ttl.
Qed.

Lemma runs_any_live pairs m :
  Runs (any_live now pairs) m (Ret (existsb (λ kv, bool_decide (is_Some (live now kv.1 m))) pairs)) m.
Proof.
  induction pairs as [|[k v] pairs IH]; simpl; [apply runs_ret|].
  eapply runs_bind; [by apply runs_get|]. rewrite lookup_live_live.
  destruct (live now k m) as [i|]; [apply runs_ret|apply IH].
Qed.

Lemma runs_set_string key value m :
  Runs (set now (string_entry key value)) m (Ret ())
    (<[key := mkItem key value TYPE_STRING None]> m).
Proof. apply (runs_set (raw:=raw) (ok:=ok) Hnow (string_entry key value)). by apply entry_ok_no_ttl. Qed.
End Specs.

#[export] Hint Resolve runs_read_string runs_set_pairs runs_any_live runs_set_string : runs.

(** ** Slices *)

(** The bytes of [val] whose position lies between [lo] and [hi]. *)
Definition bytes_between (val : list Z) (lo hi : Z) : list Z :=
  snd <$> filter (λ pb, lo ≤ Z.of_nat pb.1 ∧ Z.of_nat pb.1 ≤ hi) (zip (seq 0 (length val)) val).

Lemma filter_between (val : list Z) (o : nat) (lo hi : Z) :
  snd <$> filter (λ pb : nat * Z, lo ≤ Z.of_nat pb.1 ∧ Z.of_nat pb.1 ≤ hi) (zip (seq o (length val)) val) =
  take (Z.to_nat (hi - Z.max lo (Z.of_nat o) + 1)) (drop (Z.to_nat (lo - Z.of_nat o)) val).
Proof.
  revert o. induction val as [|b val IH]; intros o; simpl.
  { by rewrite drop_nil, take_nil. }
  rewrite filter_cons. case_decide as Hd; simpl in *.
  - rewrite IH. replace (Z.to_nat (lo - Z.of_nat o)) with 0%nat by lia.
    replace (Z.to_nat (lo - Z.of_nat (S o))) with 0%nat by lia. rewrite !drop_0.
    replace (Z.to_nat (hi - Z.max lo (Z.of_nat o) + 1))
      with (S (Z.to_nat (hi - Z.max lo (Z.of_nat (S o)) + 1))) by lia. done.
  - rewrite IH. destruct (decide (Z.of_nat o < lo)) as [Hlt|Hge].
    + replace (Z.to_nat (lo - Z.of_nat o)) with (S (Z.to_nat (lo - Z.of_nat (S o)))) by lia. simpl.
      f_equal. lia.
    + replace (Z.to_nat (hi - Z.max lo (Z.of_nat o) + 1)) with 0%nat by lia.
      replace (Z.to_nat (hi - Z.max lo (Z.of_nat (S o)) + 1)) with 0%nat by lia. done.
Qed.

(** An index counted from the end when it is negative. *)
Definition from_end (n x : Z) : Z := if x <? 0 then x + n else x.

Lemma substr_slice_spec val s e :
  substr_slice val s e =
    bytes_between val (from_end (Z.of_nat (length val)) s) (from_end (Z.of_nat (length val)) e).
Proof.
  unfold bytes_between. rewrite filter_between. unfold substr_slice, from_end. cbv zeta.
  set (n := Z.of_nat (length val)).
  set (lo := if s <? 0 then s + n else s). set (hi := if e <? 0 then e + n else e).
  destruct (Z.ltb_spec lo 0), (Z.leb_spec n hi); cbn -[Z.add Z.sub];
  match goal with |- (if (?x <? ?y) || (n <=? ?y) then _ else _) = _ =>
    destruct (Z.ltb_spec x y), (Z.leb_spec n y); cbn -[Z.add Z.sub] end;
  try (rewrite drop_ge by (subst n; lia); by rewrite take_nil);
  try (replace (Z.to_nat (hi - Z.max lo (Z.of_nat 0) + 1)) with 0%nat by lia; done).
  all: rewrite ?(Z.max_l lo), ?(Z.max_r lo) by lia; change (Z.of_nat 0) with 0; rewrite ?Z.sub_0_r.
  all: try (replace (Z.to_nat lo) with 0%nat by lia).
  all: try done; try (rewrite drop_0).
  all: try (rewrite !take_ge by (rewrite ?length_drop; subst n; lia); done).
Qed.

Lemma lookup_overwrite buf off value p :
  (off + length value ≤ length buf)%nat →
  overwrite buf off value !! p =
    if decide (off ≤ p ∧ p < off + length value)%nat then value !! (p - off)%nat else buf !! p.
Proof.
  intros Hl. unfold overwrite. destruct (decide (p < off)%nat) as [Hp|Hp].
  - rewrite lookup_app_l by (rewrite length_take; lia). rewrite lookup_take_lt by done.
    by rewrite decide_False by lia.
  - rewrite lookup_app_r by (rewrite length_take; lia). rewrite length_take, Nat.min_l by lia.
    case_decide as Hc.
    + by rewrite lookup_app_l by lia.
    + rewrite lookup_app_r, lookup_drop by lia. f_equal. lia.
Qed.

Lemma length_overwrite buf off value :
  (off + length value ≤ length buf)%nat → length (overwrite buf off value) = length buf.
Proof.
  intros H. unfold overwrite. rewrite !length_app, length_take, length_drop. lia.
Qed.

(** Byte [p] of the buffer SETRANGE writes. *)
Definition setrange_byte (old : list Z) (off : nat) (value : list Z) (p : nat) : option Z :=
  if decide (off ≤ p ∧ p < off + length value)%nat then value !! (p - off)%nat
  else if decide (p < length old)%nat then old !! p
  else if decide (p < off)%nat then Some 0 else None.

Lemma setrange_value_spec old off value p :
  length (setrange_value old off value) = Nat.max (off + length value) (length (default [] old)) ∧
  setrange_value old off value !! p = setrange_byte (default [] old) off value p.
Proof.
  unfold setrange_value, setrange_byte. destruct old as [old|]; simpl.
  - assert (length (overwrite (replicate (Nat.max (off + length value) (length old)) 0) 0 old) =
      Nat.max (off + length value) (length old)) as Hl
      by (rewrite length_overwrite; rewrite length_replicate; lia).
    split; [by rewrite length_overwrite, Hl by lia|].
    rewrite lookup_overwrite by lia. case_decide; [done|].
    rewrite lookup_overwrite by (rewrite length_replicate; lia). rewrite Nat.sub_0_r.
    destruct (decide (p < length old)%nat); [by rewrite decide_True by lia|].
    rewrite decide_False by lia. case_decide.
    + apply lookup_replicate_2. lia.
    + apply lookup_replicate_None. lia.
  - split; [rewrite length_overwrite; rewrite length_replicate; lia|].
    rewrite lookup_overwrite by (rewrite length_replicate; lia). case_decide; [done|].
    case_decide.
    + apply lookup_replicate_2. lia.
    + apply lookup_replicate_None. lia.
Qed.

(** ** Theorems *)

(** The expiry a TTL argument asks for; zero means none. *)
Definition expiry_of (now : Z) (ttl : option Z) : option Z :=
  d ← ttl; if is_zero d then None else Some (saturating_add now (as_millis d)).

Definition ttl_ok (ttl : option Z) : Prop :=
  match ttl with Some d => 0 ≤ d ∧ as_millis d ≤ i64_max | None => True end.

(** The four ways SET ends, on an abstract store. *)
Definition set_effect (now : Z) (key value : list Z) (ttl : option Z) (mode : SetMode)
    (get_old keepttl : bool) (m : gmap (list Z) Item)
  : outcome DbResult DbError * gmap (list Z) Item :=
  let existing := live now key m in
  let old := item_value <$> existing in
  if get_old && match existing with Some i => negb (item_meta i =? TYPE_STRING) | None => false end
  then (Fail WrongType, m)
  else if negb (match mode with
                | SetAlways => true
                | Nx => bool_decide (existing = None)
                | Xx => bool_decide (existing ≠ None)
                end)
  then (Ret (RSet false old), m)
  else if keepttl then
    match existing with
    | None => (Panic, m)
    | Some i => (Ret (RSet true old), <[key := mkItem key value TYPE_STRING (item_expire_ts i)]> m)
    end
  else (Ret (RSet true old), <[key := mkItem key value TYPE_STRING (expiry_of now ttl)]> m).

Lemma runs_SetOp {T} `{!TxOps T} {raw ok} `{!TxLaws T raw ok} now key value ttl mode get_old keepttl m :
  clock_ok now → store_ok m → ttl_ok ttl →
  Runs (raw:=raw) (ok:=ok) (SetOp now key value ttl mode get_old keepttl) m
    (fst (set_effect now key value ttl mode get_old keepttl m))
    (snd (set_effect now key value ttl mode get_old keepttl m)).
Proof.
  intros Hn Hm Httl. eapply runs_bind; [by apply runs_get|]. rewrite lookup_live_live.
  unfold set_effect. destruct (live now key m) as [i|] eqn:El.
  - destruct (get_old && negb (item_meta i =? TYPE_STRING)) eqn:Eg;
      [apply runs_bind_fail, runs_fail|].
    eapply runs_bind; [apply runs_ret|]. change (set_allowed mode (Some i)) with
      (match mode with SetAlways => true | Nx => bool_decide (Some i = None) | Xx => bool_decide (Some i ≠ None) end).
    destruct (match mode with SetAlways => _ | Nx => _ | Xx => _ end); simpl; [|apply runs_ret].
    destruct keepttl.
    + eapply runs_bind; [apply runs_ret|]. eapply runs_bind; [|apply runs_ret].
      set (e := string_entry key value).
      pose proof (live_ok _ _ _ _ Hm El) as Hi. apply live_Some in El as [_ El].
      destruct (keep_ttl_of_expiry now e i Hn Hi El eq_refl) as [Hts Hok].
      unfold keep_ttl_of in Hts, Hok. revert Hts Hok.
      destruct (item_ttl now i) as [d|]; intros Hts Hok.
      * simpl in Hts. rewrite <- Hts. by apply (runs_set (raw:=raw) (ok:=ok) Hn (with_ttl e d)).
      * simpl in Hts. rewrite <- Hts. by apply (runs_set (raw:=raw) (ok:=ok) Hn e).
    + eapply runs_bind; [apply runs_ret|]. eapply runs_bind; [|apply runs_ret].
      destruct ttl as [d|]; [|by apply runs_set_string].
      by apply (runs_set (raw:=raw) (ok:=ok) Hn (with_ttl (string_entry key value) d)).
  - rewrite andb_false_r. eapply runs_bind; [apply runs_ret|].
    change (set_allowed mode None) with
      (match mode with SetAlways => true | Nx => bool_decide (@None Item = None) | Xx => bool_decide (@None Item ≠ None) end).
    destruct (match mode with SetAlways => _ | Nx => _ | Xx => _ end); simpl; [|apply runs_ret].
    destruct keepttl; [intros t Ht <-; by exists t|].
    eapply runs_bind; [apply runs_ret|]. eapply runs_bind; [|apply runs_ret].
    destruct ttl as [d|]; [|by apply runs_set_string].
    by apply (runs_set (raw:=raw) (ok:=ok) Hn (with_ttl (string_entry key value) d)).
Qed.

(** SET, in any lawful transaction and for every combination of its options. GET
    on a key of another type fails; NX and XX decide whether the value is written;
    the entry written has the new value, the string type and the requested expiry, or
    with KEEPTTL that of the old entry; the reply carries the old value; no other key
    changes. (KEEPTTL on a missing key panics.) *)
Theorem set_spec T `{!TxOps T} raw ok now key value ttl mode get_old keepttl m :
  TxLaws T raw ok → clock_ok now → store_ok m → ttl_ok ttl →
  Runs (raw:=raw) (ok:=ok) (SetOp now key value ttl mode get_old keepttl) m
    (fst (set_effect now key value ttl mode get_old keepttl m))
    (snd (set_effect now key value ttl mode get_old keepttl m)).
Proof. intros HT. apply runs_SetOp. Qed.

Lemma set_spec_witness :
  Runs (raw:=id) (ok:=λ _, True) (SetOp 5 (B "0:k") (B "v") (Some (from_secs 2)) Nx true false) ∅
    (Ret (RSet true None)) (<[B "0:k" := mkItem (B "0:k") (B "v") 0 (Some 2005)]> ∅).
Proof.
  assert (ttl_ok (Some (from_secs 2))) as Ht by (vm_compute; split; discriminate).
  exact (set_spec (gmap (list Z) Item) id (λ _, True) 5 (B "0:k") (B "v") (Some (from_secs 2)) Nx true false
    ∅ map_laws clock_ok_5 store_ok_empty Ht).
Defined.

(** SET with KEEPTTL on a missing key panics, which takes the connection down. *)
Theorem set_keepttl_missing_panics T `{!TxOps T} raw ok now key value ttl get_old m :
  TxLaws T raw ok → clock_ok now → store_ok m → ttl_ok ttl → live now key m = None →
  Runs (raw:=raw) (ok:=ok) (SetOp now key value ttl SetAlways get_old true) m Panic m.
Proof.
  intros HT Hn Hm Ht El.
  pose proof (runs_SetOp (raw:=raw) (ok:=ok) now key value ttl SetAlways get_old true m Hn Hm Ht) as H.
  unfold set_effect in H. rewrite El, andb_false_r in H. exact H.
Qed.

Lemma set_keepttl_missing_panics_witness :
  Runs (raw:=id) (ok:=λ _, True) (SetOp 5 (B "0:k") (B "v") None SetAlways false true)
    (∅ : gmap (list Z) Item) Panic ∅.
Proof.
  apply (set_keepttl_missing_panics (gmap (list Z) Item) id (λ _, True) 5 (B "0:k") (B "v") None false ∅).
  - apply map_laws.
  - apply clock_ok_5.
  - apply store_ok_empty.
  - exact I.
  - reflexivity.
Defined.

(** What SET wrote, GET reads back, as long as the TTL is at least a millisecond,
    and every other key is unchanged. *)
Theorem set_then_get T `{!TxOps T} raw ok now key value ttl m :
  TxLaws T raw ok → clock_ok now → now < i64_max → store_ok m → ttl_ok ttl →
  match ttl with Some d => (is_zero d || (1000000 <=? d)) = true | None => True end →
  ∃ m', Runs (raw:=raw) (ok:=ok)
    (SetOp now key value ttl SetAlways false false ≫= λ _, GetOp now key) m
    (Ret (ROptBytes (Some value))) m' ∧ ∀ k, k ≠ key → m' !! k = m !! k.
Proof.
  intros HT Hn Hmax Hm Ht Hlong.
  exists (<[key := mkItem key value TYPE_STRING (expiry_of now ttl)]> m).
  split; [|intros k Hk; by rewrite lookup_insert_ne].
  eapply runs_bind; [by apply (runs_SetOp now key value ttl SetAlways false false)|].
  unfold set_effect. cbn [snd andb negb]. eapply runs_bind; [|apply runs_ret].
  set (e := match ttl with Some d => with_ttl (string_entry key value) d | None => string_entry key value end).
  assert (item_of now e = mkItem key value TYPE_STRING (expiry_of now ttl)) as He by (by destruct ttl).
  assert (live now key (<[key := mkItem key value TYPE_STRING (expiry_of now ttl)]> m) =
    Some (mkItem key value TYPE_STRING (expiry_of now ttl))) as El.
  { rewrite <- He. replace key with (entry_key e) by (by destruct ttl). apply live_insert; try done.
    - destruct ttl; [done|]. by apply entry_ok_no_ttl.
    - by destruct ttl. }
  pose proof (runs_read_string (raw:=raw) (ok:=ok) Hn key
    (<[key := mkItem key value TYPE_STRING (expiry_of now ttl)]> m)) as Hr.
  unfold string_at in Hr. by rewrite El in Hr.
Qed.

Lemma set_then_get_witness :
  ∃ m', Runs (raw:=id) (ok:=λ _, True)
    (SetOp 5 (B "0:k") (B "v") (Some (from_secs 2)) SetAlways false false ≫= λ _, GetOp 5 (B "0:k"))
    (∅ : gmap (list Z) Item) (Ret (ROptBytes (Some (B "v")))) m' ∧ ∀ k, k ≠ B "0:k" → m' !! k = (∅ : gmap (list Z) Item) !! k.
Proof.
  apply (set_then_get (gmap (list Z) Item) id (λ _, True) 5 (B "0:k") (B "v") (Some (from_secs 2)) ∅).
  - apply map_laws.
  - apply clock_ok_5.
  - reflexivity.
  - apply store_ok_empty.
  - vm_compute. split; discriminate.
  - reflexivity.
Defined.

(** GETRANGE returns exactly the bytes whose position lies between its two
    indices, negative indices counting from the end, for all indices; a missing key
    reads as the empty string, a key of another type fails, nothing is written. *)
Theorem getrange_spec T `{!TxOps T} raw ok now key s e m :
  TxLaws T raw ok → clock_ok now →
  Runs (raw:=raw) (ok:=ok) (SubstrOp now key s e) m
    (match string_at now key m with
     | Ret v =>
         let val := default [] v in
         let n := Z.of_nat (length val) in
         Ret (RBytes (bytes_between val (from_end n s) (from_end n e)))
     | Fail err => Fail err
     | Panic => Panic
     end) m.
Proof.
  intros HT Hn. apply runs_on_string; [done|]. unfold string_at.
  destruct (live now key m) as [i|]; [destruct (item_meta i =? TYPE_STRING)|]; try done;
    rewrite <- substr_slice_spec; apply runs_ret.
Qed.

Lemma getrange_spec_witness :
  Runs (raw:=id) (ok:=λ _, True) (SubstrOp 5 (B "0:k") (-3) (-2))
    (<[B "0:k" := mkItem (B "0:k") (B "hello") 0 None]> ∅) (Ret (RBytes (B "ll")))
    (<[B "0:k" := mkItem (B "0:k") (B "hello") 0 None]> ∅).
Proof.
  exact (getrange_spec (gmap (list Z) Item) id (λ _, True) 5 (B "0:k") (-3) (-2)
    (<[B "0:k" := mkItem (B "0:k") (B "hello") 0 None]> ∅) map_laws clock_ok_5).
Defined.

(** The entry an update leaves: the new value under the old expiry. *)
Definition updated (now : Z) (key value : list Z) (m : gmap (list Z) Item) : gmap (list Z) Item :=
  <[key := mkItem key value TYPE_STRING (live now key m ≫= item_expire_ts)]> m.

Lemma runs_update {T} `{!TxOps T} {raw ok} `{!TxLaws T raw ok} now key value m :
  clock_ok now → store_ok m →
  Runs (raw:=raw) (ok:=ok) (set_keeping_ttl now (string_entry key value)) m (Ret ()) (updated now key value m).
Proof. intros Hn Hm. by apply (runs_set_keeping_ttl (raw:=raw) (ok:=ok) Hn (string_entry key value)). Qed.

(** APPEND concatenates and SETRANGE overwrites. On a string or missing key, both
    reply the new length and store the new value under the key's current expiry; byte
    [p] after SETRANGE is the new byte inside the written range, the old byte outside
    it, and zero in a gap. A key of another type fails and nothing changes. *)
Theorem append_setrange_spec T `{!TxOps T} raw ok now key value off m :
  TxLaws T raw ok → clock_ok now → store_ok m → Z.of_nat off + Z.of_nat (length value) ≤ i64_max →
  match string_at now key m with
  | Ret v =>
      let old := default [] v in
      Runs (raw:=raw) (ok:=ok) (AppendOp now key value) m
        (Ret (RInt (Z.of_nat (length old + length value)))) (updated now key (old ++ value) m) ∧
      ∃ new, Runs (raw:=raw) (ok:=ok) (SetRangeOp now key (Z.of_nat off) value) m
          (Ret (RInt (Z.of_nat (length new)))) (updated now key new m) ∧
        length new = Nat.max (off + length value) (length old) ∧
        ∀ p, new !! p = setrange_byte old off value p
  | Fail e =>
      Runs (raw:=raw) (ok:=ok) (AppendOp now key value) m (Fail e) m ∧
      Runs (raw:=raw) (ok:=ok) (SetRangeOp now key (Z.of_nat off) value) m (Fail e) m
  | Panic => False
  end.
Proof.
  intros HT Hn Hm Hlen. pose proof (runs_read_string (raw:=raw) (ok:=ok) Hn key m) as Hr.
  destruct (string_at now key m) as [v|e|] eqn:E; cbv zeta.
  - split.
    + eapply runs_bind; [exact Hr|]. cbv zeta.
      replace (match v with Some old => old ++ value | None => value end) with (default [] v ++ value)
        by (by destruct v).
      eapply runs_bind; [by apply runs_update|]. rewrite length_app. apply runs_ret.
    + exists (setrange_value v off value). split; [|split].
      * assert (as_u64 (Z.of_nat off) = Z.of_nat off) as Hu
          by (unfold as_u64; apply Z.mod_small; width_lia).
        eapply runs_bind; [exact Hr|]. cbv zeta. rewrite Hu, Nat2Z.id.
        destruct (Z.ltb_spec i64_max (Z.of_nat off + Z.of_nat (length value))); [lia|].
        eapply runs_bind; [by apply runs_update|]. apply runs_ret.
      * apply (setrange_value_spec v off value 0).
      * intros p. apply setrange_value_spec.
  - split; by apply runs_bind_fail.
  - unfold string_at in E. repeat case_match; done.
Qed.

Lemma append_setrange_spec_witness :
  Runs (raw:=id) (ok:=λ _, True) (AppendOp 5 (B "0:k") (B "lo"))
    (<[B "0:k" := mkItem (B "0:k") (B "hel") 0 (Some 9)]> ∅) (Ret (RInt 5))
    (updated 5 (B "0:k") (B "hello") (<[B "0:k" := mkItem (B "0:k") (B "hel") 0 (Some 9)]> ∅)).
Proof.
  assert (store_ok (<[B "0:k" := mkItem (B "0:k") (B "hel") 0 (Some 9)]> ∅)) as Hm.
  { apply store_ok_insert; [apply store_ok_empty|]. vm_compute. split; discriminate. }
  assert (Z.of_nat 1 + Z.of_nat (length (B "lo")) ≤ i64_max) as Hl by (vm_compute; discriminate).
  exact (proj1 (append_setrange_spec (gmap (list Z) Item) id (λ _, True) 5 (B "0:k") (B "lo") 1
    (<[B "0:k" := mkItem (B "0:k") (B "hel") 0 (Some 9)]> ∅) map_laws clock_ok_5 Hm Hl)).
Defined.

(** What INCRBY does to an abstract store. *)
Definition increment_effect (now : Z) (key : list Z) (amount : Z) (m : gmap (list Z) Item)
  : outcome DbResult DbError * gmap (list Z) Item :=
  match live now key m with
  | None => (Ret (RInt amount), <[key := mkItem key (to_dec amount) TYPE_STRING None]> m)
  | Some i =>
      match parse_i64 (item_value i) with
      | None => (Fail not_integer, m)
      | Some c =>
          (Ret (RInt (as_i64 (c + amount))),
           <[key := mkItem key (to_dec (as_i64 (c + amount))) (item_meta i) (item_expire_ts i)]> m)
      end
  end.

Lemma runs_IncrementOp {T} `{!TxOps T} {raw ok} `{!TxLaws T raw ok} now key amount m :
  clock_ok now → store_ok m →
  Runs (raw:=raw) (ok:=ok) (IncrementOp now key amount) m
    (fst (increment_effect now key amount m)) (snd (increment_effect now key amount m)).
Proof.
  intros Hn Hm. eapply runs_bind; [by apply runs_get|]. rewrite lookup_live_live.
  unfold increment_effect. destruct (live now key m) as [i|] eqn:El.
  - destruct (parse_i64 (item_value i)) as [c|]; [|apply runs_fail]. simpl.
    eapply runs_bind; [|apply runs_ret].
    set (e := with_metadata (entry_new key (to_dec (as_i64 (c + amount)))) (item_meta i)).
    destruct (item_of_kept now e m Hn Hm eq_refl) as [Hk Hok]. unfold kept in Hk.
    change (entry_key e) with key in Hk, Hok. rewrite El in Hk, Hok. simpl in Hk.
    pose proof (runs_set (raw:=raw) (ok:=ok) Hn _ m Hok) as H. rewrite Hk in H.
    replace (entry_key (keep_ttl_of now e i)) with key in H; [exact H|].
    unfold keep_ttl_of. by destruct (item_ttl now i).
  - eapply runs_bind; [|apply runs_ret]. by apply runs_set_string.
Qed.

Lemma increment_effect_ok now key amount m :
  store_ok m → store_ok (snd (increment_effect now key amount m)).
Proof.
  intros Hm. unfold increment_effect. destruct (live now key m) as [i|] eqn:El.
  - destruct (parse_i64 (item_value i)); [|done]. apply store_ok_insert; [done|]. exact (live_ok _ _ _ _ Hm El).
  - by apply store_ok_insert.
Qed.

Lemma increment_effect_local key amount : local_to key (λ now, increment_effect now key amount).
Proof.
  intros now m m' Hk. assert (live now key m = live now key m') as El by (unfold live, lookup_live; by rewrite Hk).
  unfold increment_effect. rewrite El. destruct (live now key m') as [i|]; [destruct (parse_i64 (item_value i))|];
    cbn [fst snd]; rewrite ?lookup_insert_eq; split_and!; try done; intros k' Hne; by rewrite lookup_insert_ne.
Qed.

Lemma increment_implements {S T} `{!TxOps T, !StoreOps S T} {abs raw ok} `{HS : !StoreLaws S T abs raw ok}
    (s : Session T) key amount :
  implements (raw:=raw) (ok:=ok) (Cmd.increment s key amount)
    (λ now, increment_effect now (public_key s key) amount).
Proof.
  apply implements_tx_op. intros now m x Hn Hm. pose proof (store_tx_laws (StoreLaws:=HS) x).
  split; [by apply runs_IncrementOp|by apply increment_effect_ok].
Qed.

(** C8: concurrent increments are not lost. Whatever other connections do meanwhile, an
    INCR command (INCRBY, DECR, DECRBY) outside MULTI either changes nothing and its
    client gets no number, or takes effect at one moment: a key missing at that moment
    counts from zero, otherwise its integer is replaced, under its type and expiry, by
    the sum wrapped to 64 bits, and that sum is the reply. *)
Theorem increment_linearizable S T `{!TxOps T, !StoreOps S T}
    (abs : S → gmap (list Z) Item) (raw : T → gmap (list Z) Item) (ok : TxStart → T → Prop)
    (R : relation (gmap (list Z) Item)) env clock (s : Session T) key amount (w : World S) replies s' w' :
  StoreLaws S T abs raw ok → PreOrder R → (∀ n, env_within (abs:=abs) R (env n)) →
  (∀ m m', R m m' → store_ok m → store_ok m') → (∀ n, clock_ok (clock n)) → store_ok (abs (w_store w)) →
  in_multi s = false → pending s = [Cmd.increment s key amount] →
  dispatch_pending_ops env clock false s w = (Replied replies, s', w') →
  let k := public_key s key in
  (R (abs (w_store w)) (abs (w_store w')) ∧ ∃ r, replies = [r] ∧ ∀ v, r ≠ Integer v) ∨
  ∃ now m0 v item, R (abs (w_store w)) m0 ∧ R (<[k := item]> m0) (abs (w_store w')) ∧
    replies = [Integer v] ∧ item_key item = k ∧ item_value item = to_dec v ∧
    match live now k m0 with
    | None => v = amount ∧ item_meta item = TYPE_STRING ∧ item_expire_ts item = None
    | Some i => ∃ c, parse_i64 (item_value i) = Some c ∧ v = as_i64 (c + amount) ∧
                     item_meta item = item_meta i ∧ item_expire_ts item = item_expire_ts i
    end.
Proof.
  intros HS HP He Hok Hc Hs Hm Hp H k. set (f := (λ now, increment_effect now k amount) : Effect).
  assert (Forall2 (implements (raw:=raw) (ok:=ok)) (pending s) [f]) as Hq.
  { rewrite Hp. constructor; [apply increment_implements|constructor]. }
  assert (Forall (local_to k) [f]) as Hl by (constructor; [apply increment_effect_local|constructor]).
  destruct (dispatch_local S T abs raw ok R k env clock false s [f] w replies s' w' HS HP He Hok Hc Hq Hl Hs H)
    as [[HR Href]|(n & outs & reg & m0 & m1 & H1 & H2 & H3 & H4)].
  - left. split; [done|]. rewrite Hm, Hp in Href. destruct Href as [?|[?|(r & -> & Hr)]]; [done..|].
    exists r. split; [done|]. intros v ->. destruct Hr as [[? ?]|[?|(op & e & reg & Hop & Hr)]]; try done.
    apply list_elem_of_singleton in Hop as ->. simpl in Hr. by destruct e.
  - right. exists (clock n), m0. rewrite Hp in H3. revert H2. simpl. unfold f, increment_effect.
    destruct (live (clock n) k m0) as [i|]; [destruct (parse_i64 (item_value i)) as [c|]|]; try done;
      intros [= <- <-]; simpl in H3; eexists _, _; split_and!; try done; eauto 10.
Qed.

Import MapStore.

Definition counting_session : Session OccTx :=
  with_queue (session_new 1) [Cmd.increment (session_new 1) (B "n") 7].

Lemma increment_linearizable_witness :
  ∃ replies s' w',
    dispatch_pending_ops busy noon false counting_session sample_world = (Replied replies, s', w') ∧
    ((only_o ∅ (w_store w') ∧ ∃ r, replies = [r] ∧ ∀ v, r ≠ Integer v) ∨
     ∃ now m0 v item, only_o ∅ m0 ∧ only_o (<[B "0:n" := item]> m0) (w_store w') ∧ replies = [Integer v] ∧
       item_key item = B "0:n" ∧ item_value item = to_dec v ∧
       match live now (B "0:n") m0 with
       | None => v = 7 ∧ item_meta item = TYPE_STRING ∧ item_expire_ts item = None
       | Some i => ∃ c, parse_i64 (item_value i) = Some c ∧ v = as_i64 (c + 7) ∧
                        item_meta item = item_meta i ∧ item_expire_ts item = item_expire_ts i
       end).
Proof.
  destruct (dispatch_pending_ops busy noon false counting_session sample_world)
    as [[[replies| |] s'] w'] eqn:E; [|vm_compute in E; discriminate E..].
  exists replies, s', w'. split; [reflexivity|].
  apply (increment_linearizable _ _ id occ_map occ_ok only_o busy noon counting_session (B "n") 7
    sample_world replies s' w').
  - apply occ_laws.
  - apply only_o_preorder.
  - apply busy_within.
  - intros m m' [_ H]. exact H.
  - intros n. apply clock_ok_5.
  - exact store_ok_empty.
  - reflexivity.
  - reflexivity.
  - exact E.
Defined.

Lemma as_i64_add_l a b : as_i64 (as_i64 a + b) = as_i64 (a + b).
Proof.
  unfold as_i64, wrap_signed. f_equal.
  replace ((a + 2 ^ (64 - 1)) mod 2 ^ 64 - 2 ^ (64 - 1) + b + 2 ^ (64 - 1))
    with ((a + 2 ^ (64 - 1)) mod 2 ^ 64 + b) by lia.
  rewrite Zplus_mod_idemp_l. f_equal. lia.
Qed.

(** Increments add up: two increments of a counter leave the same store and give
    the same final reply as one by the (wrapped) sum. The value written by the first
    is always one the second can parse. *)
Theorem increment_compose T `{!TxOps T} raw ok now key a b c i m :
  TxLaws T raw ok → clock_ok now → store_ok m →
  live now key m = Some i → parse_i64 (item_value i) = Some c →
  ∃ v m', Runs (raw:=raw) (ok:=ok) (IncrementOp now key a ≫= λ _, IncrementOp now key b) m (Ret v) m' ∧
          Runs (raw:=raw) (ok:=ok) (IncrementOp now key (as_i64 (a + b))) m (Ret v) m'.
Proof.
  intros HT Hn Hm El Ep.
  pose proof (runs_IncrementOp (raw:=raw) (ok:=ok) now key a m Hn Hm) as H1.
  pose proof (runs_IncrementOp (raw:=raw) (ok:=ok) now key (as_i64 (a + b)) m Hn Hm) as H2.
  unfold increment_effect in H1, H2. rewrite El, Ep in H1, H2. simpl in H1, H2.
  eexists _, _. split; [|exact H2]. eapply runs_bind; [exact H1|].
  set (i1 := mkItem key (to_dec (as_i64 (c + a))) (item_meta i) (item_expire_ts i)) in *.
  assert (live now key (<[key := i1]> m) = Some i1) as El1.
  { apply live_Some. split; [apply lookup_insert_eq|]. by apply live_Some in El as [_ El]. }
  assert (store_ok (<[key := i1]> m)) as Hm1.
  { apply store_ok_insert; [done|]. exact (live_ok _ _ _ _ Hm El). }
  pose proof (runs_IncrementOp (raw:=raw) (ok:=ok) now key b (<[key := i1]> m) Hn Hm1) as H3.
  unfold increment_effect in H3. rewrite El1 in H3. change (item_value i1) with (to_dec (as_i64 (c + a))) in H3.
  rewrite parse_i64_to_dec in H3 by apply as_i64_range. cbn [fst snd] in H3.
  assert (as_i64 (as_i64 (c + a) + b) = as_i64 (c + as_i64 (a + b))) as Hsum.
  { rewrite as_i64_add_l, (Z.add_comm c (as_i64 _)), as_i64_add_l. f_equal. lia. }
  rewrite Hsum in H3. by rewrite insert_insert_eq in H3.
Qed.

Definition sample_counter : gmap (list Z) Item :=
  <[B "0:n" := mkItem (B "0:n") (B "40") 0 (Some 9)]> ∅.

Lemma increment_compose_witness :
  ∃ v m', Runs (raw:=id) (ok:=λ _, True)
      (IncrementOp 5 (B "0:n") 1 ≫= λ _, IncrementOp 5 (B "0:n") 1) sample_counter (Ret v) m' ∧
    Runs (raw:=id) (ok:=λ _, True) (IncrementOp 5 (B "0:n") 2) sample_counter (Ret v) m'.
Proof.
  apply (increment_compose (gmap (list Z) Item) id (λ _, True) 5 (B "0:n") 1 1 40
    (mkItem (B "0:n") (B "40") 0 (Some 9)) sample_counter).
  - apply map_laws.
  - apply clock_ok_5.
  - apply store_ok_insert; [apply store_ok_empty|]. vm_compute. split; discriminate.
  - vm_compute. reflexivity.
  - vm_compute. reflexivity.
Defined.

(** The value MSET leaves under [k]: the last one given for it. *)
Fixpoint last_value (k : list Z) (pairs : list (list Z * list Z)) : option (list Z) :=
  match pairs with
  | [] => None
  | (k', v) :: pairs' =>
      match last_value k pairs' with
      | Some v' => Some v'
      | None => if decide (k' = k) then Some v else None
      end
  end.

Lemma fold_set_lookup (now : Z) (pairs : list (list Z * list Z)) (m : gmap (list Z) Item) (k : list Z) :
  fold_left (λ m kv, <[kv.1 := item_of now (string_entry kv.1 kv.2)]> m) pairs m !! k =
    match last_value k pairs with
    | Some v => Some (mkItem k v TYPE_STRING None)
    | None => m !! k
    end.
Proof.
  revert m. induction pairs as [|[k' v] pairs IH]; intros m; simpl; [done|]. rewrite IH.
  destruct (last_value k pairs); [done|]. rewrite lookup_insert. by case_decide; subst.
Qed.

(** MSET sets every key it names, the last value winning for a repeated key, with
    no expiry, and touches no other key. MSETNX does exactly that and replies 1 when
    none of its keys is live, and otherwise changes nothing and replies 0. *)
Theorem mset_spec T `{!TxOps T} raw ok now pairs m :
  TxLaws T raw ok → clock_ok now →
  ∃ m', Runs (raw:=raw) (ok:=ok) (MSetOp now pairs) m (Ret RUnit) m' ∧
    (∀ k, m' !! k = match last_value k pairs with
                    | Some v => Some (mkItem k v TYPE_STRING None)
                    | None => m !! k
                    end) ∧
    if existsb (λ kv, bool_decide (is_Some (live now kv.1 m))) pairs
    then Runs (raw:=raw) (ok:=ok) (MSetNXOp now pairs) m (Ret (RInt 0)) m
    else Runs (raw:=raw) (ok:=ok) (MSetNXOp now pairs) m (Ret (RInt 1)) m'.
Proof.
  intros HT Hn. pose proof (runs_set_pairs (raw:=raw) (ok:=ok) Hn pairs m) as Hs.
  eexists. split; [eapply runs_bind; [exact Hs|apply runs_ret]|].
  split; [intros k; apply fold_set_lookup|].
  pose proof (runs_any_live (raw:=raw) (ok:=ok) Hn pairs m) as Ha.
  destruct (existsb _ pairs).
  - eapply runs_bind; [exact Ha|]. apply runs_ret.
  - eapply runs_bind; [exact Ha|]. eapply runs_bind; [exact Hs|]. apply runs_ret.
Qed.

Lemma mset_spec_witness :
  ∃ m', Runs (raw:=id) (ok:=λ _, True) (MSetOp 5 [(B "a", B "1"); (B "a", B "2")]) ∅ (Ret RUnit) m' ∧
    m' !! B "a" = Some (mkItem (B "a") (B "2") 0 None).
Proof.
  destruct (mset_spec (gmap (list Z) Item) id (λ _, True) 5 [(B "a", B "1"); (B "a", B "2")] ∅
    map_laws clock_ok_5) as (m' & H1 & H2 & _).
  exists m'. split; [exact H1|]. rewrite H2. vm_compute. reflexivity.
Defined.

(** GETSET, GETDEL and SETNX. GETSET returns the old value and replaces the entry,
    dropping its expiry; GETDEL returns the value of a string and removes the key;
    SETNX writes only when no live key is there. *)
Theorem replace_spec T `{!TxOps T} raw ok now key value m :
  TxLaws T raw ok → clock_ok now →
  let fresh := <[key := mkItem key value TYPE_STRING None]> m in
  Runs (raw:=raw) (ok:=ok) (GetSetOp now key value) m (Ret (ROptBytes (item_value <$> live now key m))) fresh ∧
  Runs (raw:=raw) (ok:=ok) (GetDelOp now key) m
    (match string_at now key m with Ret v => Ret (ROptBytes v) | Fail e => Fail e | Panic => Panic end)
    (match string_at now key m with Ret (Some _) => delete key m | _ => m end) ∧
  Runs (raw:=raw) (ok:=ok) (SetNXOp now key value) m
    (Ret (RInt (match live now key m with Some _ => 0 | None => 1 end)))
    (match live now key m with Some _ => m | None => fresh end).
Proof.
  intros HT Hn fresh. unfold string_at.
  pose proof (runs_get (raw:=raw) (ok:=ok) Hn key m) as Hg. rewrite lookup_live_live in Hg.
  pose proof (runs_set_string (raw:=raw) (ok:=ok) Hn key value m) as Hs.
  destruct (live now key m) as [i|]; (split; [|split]); (eapply runs_bind; [exact Hg|]); cbn iota beta.
  - eapply runs_bind; [exact Hs|]. apply runs_ret.
  - destruct (item_meta i =? TYPE_STRING); simpl; [|apply runs_fail].
    eapply runs_bind; [by apply runs_delete_res|]. apply runs_ret.
  - apply runs_ret.
  - eapply runs_bind; [exact Hs|]. apply runs_ret.
  - apply runs_ret.
  - eapply runs_bind; [exact Hs|]. apply runs_ret.
Qed.

Lemma replace_spec_witness :
  Runs (raw:=id) (ok:=λ _, True) (GetDelOp 5 (B "0:n")) sample_counter (Ret (ROptBytes (Some (B "40"))))
    (delete (B "0:n") sample_counter).
Proof.
  exact (proj1 (proj2 (replace_spec (gmap (list Z) Item) id (λ _, True) 5 (B "0:n") (B "v") sample_counter
    map_laws clock_ok_5))).
Defined.

(** GETEX returns the value of a string; a TTL option rewrites the entry with the
    expiry it asks for, and without one nothing changes. *)
Theorem getex_spec T `{!TxOps T} raw ok now key args o m :
  TxLaws T raw ok → clock_ok now → getex_parse args (mkGetEx None None None None false) = Ok o →
  ttl_ok (getex_write now o) →
  Runs (raw:=raw) (ok:=ok) (GetExOp now key args) m
    (match string_at now key m with Ret v => Ret (ROptBytes v) | Fail e => Fail e | Panic => Panic end)
    (match string_at now key m, getex_write now o with
     | Ret (Some v), Some d => <[key := mkItem key v TYPE_STRING (expiry_of now (Some d))]> m
     | _, _ => m
     end).
Proof.
  intros HT Hn Hp Ht. unfold GetExOp. rewrite Hp.
  eapply runs_bind; [by apply runs_get|]. rewrite lookup_live_live. unfold string_at.
  destruct (live now key m) as [i|]; [|apply runs_ret].
  destruct (item_meta i =? TYPE_STRING); cbn [negb]; [|apply runs_fail].
  destruct (getex_write now o) as [d|]; [|apply runs_ret]. eapply runs_bind; [|apply runs_ret].
  destruct (is_zero d) eqn:Ez; cbn [negb].
  - unfold expiry_of. simpl. rewrite Ez. by apply runs_set_string.
  - unfold expiry_of. simpl. rewrite Ez.
    pose proof (runs_set (raw:=raw) (ok:=ok) Hn (with_ttl (string_entry key (item_value i)) d) m) as H.
    unfold item_of in H. simpl in H. rewrite Ez in H. by apply H.
Qed.

Lemma getex_spec_witness :
  Runs (raw:=id) (ok:=λ _, True) (GetExOp 5 (B "0:n") [B "EX"; B "2"]) sample_counter
    (Ret (ROptBytes (Some (B "40")))) (<[B "0:n" := mkItem (B "0:n") (B "40") 0 (Some 2005)]> sample_counter).
Proof.
  assert (ttl_ok (getex_write 5 (mkGetEx (Some 2) None None None false))) as Ht
    by (vm_compute; split; discriminate).
  exact (getex_spec (gmap (list Z) Item) id (λ _, True) 5 (B "0:n") [B "EX"; B "2"]
    (mkGetEx (Some 2) None None None false) sample_counter map_laws clock_ok_5 eq_refl Ht).
Defined.

(** A deadline in the past makes GETEX drop the expiry of the key instead of letting
    the key expire: the zero TTL it computes is written as "no TTL". *)
Theorem getex_past_deadline_persists :
  Runs (raw:=id) (ok:=λ _, True) (GetExOp 5 (B "0:n") [B "PXAT"; B "1"]) sample_counter
    (Ret (ROptBytes (Some (B "40")))) (<[B "0:n" := mkItem (B "0:n") (B "40") 0 None]> sample_counter).
Proof. intros t _ Ht. simpl in Ht. subst t. eexists. split; [vm_compute; reflexivity|]. by split. Qed.
