(* ===== verification/Bitmap.v ===== *)
(** * Bitmap commands: src/redis/bitmap.rs

    SETBIT, GETBIT, BITCOUNT, BITPOS and BITOP on string values indexed MSB-first.
    The byte-and-mask loops of the source are proved equivalent to their reading on
    the sequence of bits: which bit changes, how many bits are set in a range, where
    the first matching bit is, and what every BITOP operation computes per bit.
    Offsets are non-negative, as the command parser guarantees. *)
From S2P Require Import Prelude Bytes Resp Kv Registry Op Session.
From S2P Require Strings.
Import MapTx.

Definition TYPE_STRING : Z := type_byte VString.

(** ** Data *)

Inductive BitOpType : Type :=
| BAnd | BOr | BXor | BNot | BDiff | BDiff1 | BAndOr | BOne.

#[global] Instance BitOpType_eq_dec : EqDecision BitOpType.
Proof. solve_decision. Defined.

Definition parse_bit_op (op : list Z) : option BitOpType :=
  if eq_ignore_case op (B "AND") then Some BAnd
  else if eq_ignore_case op (B "OR") then Some BOr
  else if eq_ignore_case op (B "XOR") then Some BXor
  else if eq_ignore_case op (B "NOT") then Some BNot
  else if eq_ignore_case op (B "DIFF") then Some BDiff
  else if eq_ignore_case op (B "DIFF1") then Some BDiff1
  else if eq_ignore_case op (B "ANDOR") then Some BAndOr
  else if eq_ignore_case op (B "ONE") then Some BOne
  else None.

(** [1u8 << (7 - p)] for a bit position [p] within a byte, and [!b] on a [u8]. *)
Definition bit_mask (p : Z) : Z := Z.shiftl 1 (7 - p).
Definition not_u8 (b : Z) : Z := Z.lxor b 255.

Definition is_set (b p : Z) : bool := negb (Z.land b (bit_mask p) =? 0).

(** ** Scanning *)

(** The inner loop of [bit_pos_in_range]: bits [bit_pos..=bit_end] of byte [b]. *)
Fixpoint scan_bits (fuel : nat) (b byte_idx bit_pos bit_end bit : Z) : option Z :=
  match fuel with
  | O => None
  | S fuel =>
      if bit_end <? bit_pos then None
      else if ((bit =? 1) && is_set b bit_pos) || ((bit =? 0) && negb (is_set b bit_pos))
      then Some (byte_idx * 8 + bit_pos)
      else scan_bits fuel b byte_idx (bit_pos + 1) bit_end bit
  end.

(** The outer loop, over the bytes from [byte_idx] on. *)
Fixpoint scan_bytes (bytes : list Z) (byte_idx start_bit end_bit bit : Z) : Z :=
  match bytes with
  | [] => -1
  | b :: bytes' =>
      if Z.quot end_bit 8 <? byte_idx then -1
      else
        let bit_start := if byte_idx =? Z.quot start_bit 8 then Z.rem start_bit 8 else 0 in
        let bit_end := if byte_idx =? Z.quot end_bit 8 then Z.rem end_bit 8 else 7 in
        match scan_bits 8 b byte_idx bit_start bit_end bit with
        | Some p => p
        | None => scan_bytes bytes' (byte_idx + 1) start_bit end_bit bit
        end
  end.

Definition bit_pos_in_range (data : list Z) (start_bit end_bit bit : Z) : Z :=
  let byte_idx := Z.quot start_bit 8 in
  scan_bytes (drop (Z.to_nat byte_idx) data) byte_idx start_bit end_bit bit.

(** [u8::count_ones] *)
Definition count_ones (b : Z) : Z :=
  Z.of_nat (length (List.filter (Z.testbit b) [0; 1; 2; 3; 4; 5; 6; 7])).

(** [for x in start..=end]: the values the loop takes. *)
Definition range_incl (a b : Z) : list Z := seqZ a (b - a + 1).

Definition sum_Z (l : list Z) : Z := fold_left Z.add l 0.

(** Negative indices count from the end of [n] units; the range is then clamped. *)
Definition clamp_start (n start : Z) : Z :=
  let start := if start <? 0 then start + n else start in if start <? 0 then 0 else start.
Definition clamp_end (n end0 : Z) : Z :=
  let end0 := if end0 <? 0 then end0 + n else end0 in if n <=? end0 then n - 1 else end0.

(** The count [BitCountOp] computes once it has the value. *)
Definition bit_count_of (data : list Z) (start_given : bool) (start_val end_val : Z) (use_bit : bool) : Z :=
  if negb start_given then sum_Z (count_ones <$> data)
  else if use_bit then
    let total_bits := Z.of_nat (length data * 8) in
    let start := clamp_start total_bits start_val in
    let end0 := clamp_end total_bits end_val in
    if (end0 <? start) || (total_bits <=? start) then 0
    else Z.of_nat (length (List.filter
           (λ bit, is_set (byte_at data (Z.to_nat (Z.quot bit 8))) (Z.rem bit 8)) (range_incl start end0)))
  else
    let n := Z.of_nat (length data) in
    let start := clamp_start n start_val in
    let end0 := clamp_end n end_val in
    if (end0 <? start) || (n <=? start) then 0
    else sum_Z ((λ i, count_ones (byte_at data (Z.to_nat i))) <$> range_incl start end0).

(** The position [BitPosOp] computes once it has the value. *)
Definition bit_pos_of (data : list Z) (bit : Z) (start_given : bool) (start_val end_val : Z)
    (use_bit : bool) : Z :=
  let total_bits := Z.of_nat (length data * 8) in
  if negb start_given then
    let pos := bit_pos_in_range data 0 (total_bits - 1) bit in
    if 0 <=? pos then pos else if bit =? 0 then total_bits else -1
  else if use_bit then
    let start := clamp_start total_bits start_val in
    let end0 := clamp_end total_bits end_val in
    if end0 <? start then -1 else bit_pos_in_range data start end0 bit
  else
    let n := Z.of_nat (length data) in
    let start := clamp_start n start_val in
    let end0 := clamp_end n end_val in
    if end0 <? start then -1
    else
      let end_bit := end0 * 8 + 7 in
      let end_bit := if total_bits <=? end_bit then total_bits - 1 else end_bit in
      bit_pos_in_range data (start * 8) end_bit bit.

(** ** BITOP *)

Definition zeros (n : nat) : list Z := replicate n 0.
Definition ones (n : nat) : list Z := replicate n 255.

(** Byte [j] of the result buffer after [s] was merged into [acc] with [f], the
    positions beyond [s] being left alone ([for j in 0..s.len()]). *)
Fixpoint merge_short (f : Z → Z → Z) (acc s : list Z) : list Z :=
  match acc, s with
  | a :: acc', b :: s' => f a b :: merge_short f acc' s'
  | _, _ => acc
  end.

(** The same with the positions beyond [s] zeroed ([for j in 0..max_len]). *)
Fixpoint merge_zero (f : Z → Z → Z) (acc s : list Z) : list Z :=
  match acc, s with
  | a :: acc', b :: s' => f a b :: merge_zero f acc' s'
  | acc, [] => zeros (length acc)
  | [], _ => []
  end.

(** [result[..n].copy_from_slice(&s[..n])] into a zeroed buffer of [len] bytes. *)
Definition padded (len : nat) (s : list Z) : list Z := take len s ++ zeros (len - length s).

Definition longer (m : nat) (s : option (list Z)) : nat :=
  match s with Some s => if (m <? length s)%nat then length s else m | None => m end.

Definition max_len (sources : list (option (list Z))) : nat := fold_left longer sources 0%nat.

(** The sources that exist ([iter().flatten()]). *)
Definition present (sources : list (option (list Z))) : list (list Z) := omap id sources.

(** The AND loop, which stops at the first missing source. *)
Fixpoint and_loop (n : nat) (acc : list Z) (sources : list (option (list Z))) : list Z :=
  match sources with
  | [] => acc
  | None :: _ => zeros n
  | Some s :: sources' => and_loop n (merge_zero Z.land acc s) sources'
  end.

(** How many of [ss] have bit [p] set, and the ONE loop over all bit positions. *)
Definition count_with_bit (ss : list (list Z)) (p : nat) : nat :=
  length (List.filter (λ s, (p / 8 <? length s)%nat && is_set (byte_at s (p / 8)) (Z.of_nat (p mod 8))) ss).

Definition one_byte_of (ss : list (list Z)) (j : nat) : Z :=
  fold_left (λ acc q, if (count_with_bit ss (j * 8 + q) =? 1)%nat
                      then Z.lor acc (bit_mask (Z.of_nat q)) else acc) (seq 0 8) 0.

(** The result buffer of [BitOpOp]. [sources[0]] of an empty list would panic; the
    command always has a source. *)
Definition bit_op_result (op : BitOpType) (sources : list (option (list Z))) : list Z :=
  let n := max_len sources in
  let first := mjoin (head sources) in
  let rest := present (tail sources) in
  match op with
  | BAnd => and_loop n (ones n) sources
  | BOr => fold_left (merge_short Z.lor) (present sources) (zeros n)
  | BXor => fold_left (merge_short Z.lxor) (present sources) (zeros n)
  | BNot => match first with None => ones n | Some s => not_u8 <$> take n s end
  | BDiff =>
      fold_left (merge_short (λ a b, Z.land a (not_u8 b))) rest
        (match first with Some s => padded n s | None => zeros n end)
  | BDiff1 =>
      let start := match first with
                   | Some s => (not_u8 <$> take n s) ++ ones (n - length s)
                   | None => ones n
                   end in
      match rest with [] => zeros n | _ => fold_left (merge_zero Z.land) rest start end
  | BAndOr =>
      let start := match first with Some s => padded n s | None => zeros n end in
      match rest with
      | [] => zeros n
      | _ => zip_with Z.land start (fold_left (merge_short Z.lor) rest (zeros n))
      end
  | BOne => one_byte_of (present sources) <$> seq 0 n
  end.

(** ** Operations *)

Section Ops.
Context {T : Type} `{!TxOps T} (now : Z).

(** The old bit and the buffer SETBIT writes. *)
Definition set_bit_data (data : option (list Z)) (offset value : Z) : Z * list Z :=
  let byte_index := Z.to_nat (Z.quot offset 8) in
  let bit_pos := 7 - Z.rem offset 8 in
  let mask := Z.shiftl 1 bit_pos in
  let data := match data with Some d => d | None => zeros (byte_index + 1) end in
  let data := if (length data <=? byte_index)%nat
              then data ++ zeros (byte_index + 1 - length data) else data in
  let b := byte_at data byte_index in
  (Z.shiftr (Z.land b mask) bit_pos,
   <[byte_index := if value =? 1 then Z.lor b mask else Z.land b (not_u8 mask)]> data).

Definition SetBitOp (key : list Z) (offset value : Z) : DbM T DbResult :=
  existing ← get_opt now key;
  let '(old_bit, data) := set_bit_data (item_value <$> existing) offset value in
  set_keeping_ttl now (with_metadata (entry_new key data) TYPE_STRING) ;;
  mret (RInt old_bit).

Definition get_bit_of (data : list Z) (offset : Z) : Z :=
  let byte_index := Z.to_nat (Z.quot offset 8) in
  if (length data <=? byte_index)%nat then 0
  else if is_set (byte_at data byte_index) (Z.rem offset 8) then 1 else 0.

Definition GetBitOp (key : list Z) (offset : Z) : DbM T DbResult :=
  existing ← get_opt now key;
  mret (RInt (match existing with Some i => get_bit_of (item_value i) offset | None => 0 end)).

Definition BitCountOp (key : list Z) (start_given : bool) (start_val end_val : Z) (use_bit : bool)
  : DbM T DbResult :=
  existing ← get_opt now key;
  mret (RInt (match existing with
              | Some i => bit_count_of (item_value i) start_given start_val end_val use_bit
              | None => 0
              end)).

Definition BitPosOp (key : list Z) (bit : Z) (start_given : bool) (start_val end_val : Z) (use_bit : bool)
  : DbM T DbResult :=
  existing ← get_opt now key;
  mret (RInt (match existing with
              | Some i => bit_pos_of (item_value i) bit start_given start_val end_val use_bit
              | None => if bit =? 0 then 0 else -1
              end)).

Fixpoint read_sources (keys : list (list Z)) : DbM T (list (option (list Z))) :=
  match keys with
  | [] => mret []
  | k :: keys' =>
      existing ← get_opt now k;
      rest ← read_sources keys';
      mret ((item_value <$> existing) :: rest)
  end.

Definition BitOpOp (dest_key : list Z) (src_keys : list (list Z)) (op : BitOpType) : DbM T DbResult :=
  sources ← read_sources src_keys;
  set now (with_metadata (entry_new dest_key (bit_op_result op sources)) TYPE_STRING) ;;
  mret (RInt (Z.of_nat (max_len sources))).
End Ops.

(** ** The queued commands *)

Module Cmd.
Section Cmd.
Context {T : Type} `{!TxOps T}.
Implicit Types (s : Session T).

Definition set_bit s (key : list Z) (offset value : Z) : QueuedOp T :=
  mkQueuedOp (tx_op (λ now, SetBitOp now (public_key s key) offset value)) Strings.IntWire
    true true false (Some (key_sv s key)).

Definition get_bit s (key : list Z) (offset : Z) : QueuedOp T :=
  mkQueuedOp (tx_op (λ now, GetBitOp now (public_key s key) offset)) Strings.IntWire
    false true false (Some (key_sv s key)).

Definition bit_count s (key : list Z) (start_given end_given : bool) (start_val end_val : Z)
    (use_bit : bool) : QueuedOp T :=
  mkQueuedOp (tx_op (λ now, BitCountOp now (public_key s key) start_given start_val end_val use_bit))
    Strings.IntWire false true false (Some (key_sv s key)).

Definition bit_pos s (key : list Z) (bit : Z) (start_given : bool) (start_val end_val : Z)
    (use_bit : bool) : QueuedOp T :=
  mkQueuedOp (tx_op (λ now, BitPosOp now (public_key s key) bit start_given start_val end_val use_bit))
    Strings.IntWire false true false (Some (key_sv s key)).

Definition bit_op s (dest_key : list Z) (op : BitOpType) (src_keys : list (list Z)) : QueuedOp T :=
  mkQueuedOp (tx_op (λ now, BitOpOp now (public_key s dest_key) (public_key s <$> src_keys) op))
    Strings.IntWire true true false
    (Some (from_utf8_lossy (public_key s dest_key) :: keys_sv s src_keys)).
End Cmd.
End Cmd.

(** ** Bits *)

(** Bit [p] of a value, most significant bit of byte 0 first; false beyond its end. *)
Definition bit_at (data : list Z) (p : Z) : bool :=
  Z.testbit (byte_at data (Z.to_nat (p / 8))) (7 - p mod 8).

Lemma testbit_mask p k : 0 ≤ p ≤ 7 → 0 ≤ k → Z.testbit (bit_mask p) k = (k =? 7 - p).
Proof.
  intros Hp Hk. unfold bit_mask. rewrite Z.shiftl_1_l, Z.pow2_bits_eqb by lia. apply Z.eqb_sym.
Qed.

Lemma testbit_not_u8 b k : 0 ≤ k ≤ 7 → Z.testbit (not_u8 b) k = negb (Z.testbit b k).
Proof.
  intros Hk. unfold not_u8. rewrite Z.lxor_spec. change 255 with (Z.ones 8).
  rewrite Z.ones_spec_low by lia. by destruct (Z.testbit b k).
Qed.

Lemma is_set_testbit b p : 0 ≤ p ≤ 7 → is_set b p = Z.testbit b (7 - p).
Proof.
  intros Hp. unfold is_set. destruct (Z.testbit b (7 - p)) eqn:E.
  - apply negb_true_iff, Z.eqb_neq. intros H. apply (f_equal (λ z, Z.testbit z (7 - p))) in H.
    rewrite Z.land_spec, E, testbit_mask, Z.eqb_refl, Z.bits_0 in H by lia. done.
  - apply negb_false_iff, Z.eqb_eq. apply Z.bits_inj'. intros k Hk.
    rewrite Z.land_spec, testbit_mask, Z.bits_0 by lia.
    destruct (Z.eqb_spec k (7 - p)) as [->|]; [by rewrite E|]. by rewrite andb_false_r.
Qed.

Lemma quot_rem_8 p : 0 ≤ p → Z.quot p 8 = p / 8 ∧ Z.rem p 8 = p mod 8.
Proof. intros H. split; [apply Z.quot_div_nonneg|apply Z.rem_mod_nonneg]; lia. Qed.

Lemma div_mod_8 p : p = 8 * (p / 8) + p mod 8 ∧ 0 ≤ p mod 8 ≤ 7.
Proof. pose proof (Z.div_mod p 8). pose proof (Z.mod_pos_bound p 8). lia. Qed.

Lemma div_mod_8_intro i q : 0 ≤ q ≤ 7 → (8 * i + q) / 8 = i ∧ (8 * i + q) mod 8 = q.
Proof.
  intros H. pose proof (div_mod_8 (8 * i + q)) as [H1 H2].
  lia.
Qed.

Lemma bit_at_is_set data p :
  0 ≤ p → bit_at data p = is_set (byte_at data (Z.to_nat (Z.quot p 8))) (Z.rem p 8).
Proof.
  intros Hp. destruct (quot_rem_8 p Hp) as [-> ->]. pose proof (div_mod_8 p).
  rewrite is_set_testbit by lia. done.
Qed.

Lemma byte_at_app l1 l2 j :
  byte_at (l1 ++ l2) j = if (j <? length l1)%nat then byte_at l1 j else byte_at l2 (j - length l1).
Proof.
  unfold byte_at. destruct (Nat.ltb_spec j (length l1)).
  - by rewrite lookup_app_l.
  - by rewrite lookup_app_r.
Qed.

Lemma byte_at_ge l j : (length l ≤ j)%nat → byte_at l j = 0.
Proof. intros H. unfold byte_at. by rewrite lookup_ge_None_2. Qed.

Lemma byte_at_zeros n j : byte_at (zeros n) j = 0.
Proof.
  unfold byte_at, zeros. destruct (replicate n 0 !! j) eqn:E; [|done].
  by apply lookup_replicate in E as [-> _].
Qed.

Lemma bit_at_end data p : 8 * Z.of_nat (length data) ≤ p → bit_at data p = false.
Proof.
  intros H. unfold bit_at. rewrite byte_at_ge; [apply Z.bits_0|]. pose proof (div_mod_8 p). lia.
Qed.

Lemma bit_at_padded data n p : bit_at (data ++ zeros n) p = bit_at data p.
Proof.
  unfold bit_at. f_equal. rewrite byte_at_app. destruct (Nat.ltb_spec (Z.to_nat (p / 8)) (length data)); [done|].
  by rewrite byte_at_zeros, byte_at_ge.
Qed.

(** ** SETBIT *)

(** Writing byte [i] changes only its eight bits. *)
Lemma bit_at_insert data i x p :
  0 ≤ p → (i < length data)%nat →
  bit_at (<[i := x]> data) p =
    if decide (Z.to_nat (p / 8) = i) then Z.testbit x (7 - p mod 8) else bit_at data p.
Proof.
  intros Hp Hi. unfold bit_at, byte_at. case_decide as H.
  - by rewrite H, list_lookup_insert_eq.
  - by rewrite list_lookup_insert_ne.
Qed.

Lemma set_bit_data_spec data offset value :
  0 ≤ offset →
  let old := default [] data in
  let '(bit, new) := set_bit_data data offset value in
  bit = (if bit_at old offset then 1 else 0) ∧
  Z.of_nat (length new) = Z.max (Z.of_nat (length old)) (offset / 8 + 1) ∧
  ∀ p, 0 ≤ p → bit_at new p = if p =? offset then value =? 1 else bit_at old p.
Proof.
  intros Ho old. unfold set_bit_data. destruct (quot_rem_8 offset Ho) as [-> ->].
  set (i := Z.to_nat (offset / 8)).
  set (d0 := match data with Some d => d | None => zeros (i + 1) end).
  set (d1 := if (length d0 <=? i)%nat then d0 ++ zeros (i + 1 - length d0) else d0).
  pose proof (div_mod_8 offset) as [Hdm Hmod]. assert (0 ≤ offset / 8) as Hdiv by lia.
  assert ((i < length d1)%nat ∧ Z.of_nat (length d1) = Z.max (Z.of_nat (length old)) (offset / 8 + 1)) as [Hi Hl].
  { assert (length (zeros (i + 1)) = (i + 1)%nat) as Hz by apply length_replicate.
    assert (Z.of_nat i = offset / 8) as Hoi by (unfold i; lia).
    unfold d1, d0, old. destruct data as [d|]; simpl.
    - destruct (Nat.leb_spec (length d) i); [rewrite length_app; unfold zeros; rewrite length_replicate|]; lia.
    - rewrite Hz. destruct (Nat.leb_spec (i + 1) i); [lia|]. rewrite Hz. lia. }
  assert (∀ p, bit_at d1 p = bit_at old p) as Hd1.
  { intros p. unfold d1, d0, old. destruct data as [d|]; simpl.
    - destruct (length d <=? i)%nat; [apply bit_at_padded|done].
    - transitivity (bit_at (zeros (i + 1)) p); [destruct (_ <=? i)%nat; [apply bit_at_padded|done]|].
      apply (bit_at_padded []). }
  set (mask := Z.shiftl 1 (7 - offset mod 8)).
  assert (∀ k, 0 ≤ k → Z.testbit mask k = (k =? 7 - offset mod 8)) as Hmask.
  { intros k Hk. unfold mask. by apply (testbit_mask (offset mod 8)). }
  split; [|split].
  - rewrite <- Hd1. unfold bit_at. fold i. apply Z.bits_inj'. intros k Hk.
    rewrite Z.shiftr_spec, Z.land_spec, Hmask by lia.
    destruct (Z.eqb_spec (k + (7 - offset mod 8)) (7 - offset mod 8)) as [E|E].
    + replace k with 0 by lia. rewrite Z.add_0_l, andb_true_r.
      by destruct (Z.testbit (byte_at d1 i) (7 - offset mod 8)).
    + rewrite andb_false_r. symmetry. destruct (Z.testbit _ (7 - offset mod 8)); [|apply Z.bits_0].
      destruct k; [lia| |lia]. done.
  - by rewrite length_insert.
  - intros p Hp. rewrite bit_at_insert, <- Hd1 by done. pose proof (div_mod_8 p) as [Hpd Hpm].
    case_decide as Hpi.
    + assert (byte_at d1 i = byte_at d1 (Z.to_nat (p / 8))) as -> by (by rewrite Hpi).
      destruct (Z.eqb_spec p offset) as [->|Hne].
      * destruct (value =? 1); rewrite ?Z.lor_spec, ?Z.land_spec, ?testbit_not_u8, Hmask, Z.eqb_refl by lia;
          [apply orb_true_r|apply andb_false_r].
      * assert ((7 - p mod 8 =? 7 - offset mod 8) = false) as Hq by (apply Z.eqb_neq; unfold i in Hpi; lia).
        unfold bit_at. destruct (value =? 1); rewrite ?Z.lor_spec, ?Z.land_spec, ?testbit_not_u8, Hmask, Hq by lia;
          [apply orb_false_r|apply andb_true_r].
    + destruct (Z.eqb_spec p offset) as [->|]; [done|done].
Qed.

(** ** BITPOS *)

(** [r] is the first position of [lo..=hi] that holds [bit], or -1. *)
Definition first_bit (data : list Z) (lo hi bit r : Z) : Prop :=
  (r = -1 ∧ ∀ p, lo ≤ p ≤ hi → bit_at data p ≠ (bit =? 1)) ∨
  (lo ≤ r ≤ hi ∧ bit_at data r = (bit =? 1) ∧ ∀ p, lo ≤ p < r → bit_at data p ≠ (bit =? 1)).

Lemma wanted_bit bit x :
  bit = 0 ∨ bit = 1 → ((bit =? 1) && x) || ((bit =? 0) && negb x) = true ↔ x = (bit =? 1).
Proof. intros [-> | ->]; destruct x; simpl; split; congruence. Qed.

Lemma scan_bits_spec fuel b idx lo hi bit :
  bit = 0 ∨ bit = 1 → 0 ≤ lo → hi ≤ 7 → (Z.to_nat (hi - lo + 1) ≤ fuel)%nat →
  match scan_bits fuel b idx lo hi bit with
  | Some r => ∃ q, r = idx * 8 + q ∧ lo ≤ q ≤ hi ∧ Z.testbit b (7 - q) = (bit =? 1) ∧
                   ∀ q', lo ≤ q' < q → Z.testbit b (7 - q') ≠ (bit =? 1)
  | None => ∀ q, lo ≤ q ≤ hi → Z.testbit b (7 - q) ≠ (bit =? 1)
  end.
Proof.
  intros Hb. revert lo. induction fuel as [|fuel IH]; intros lo Hlo Hhi Hf; cbn [scan_bits].
  { intros q Hq. lia. }
  destruct (Z.ltb_spec hi lo); [intros q Hq; lia|].
  pose proof (wanted_bit bit (is_set b lo) Hb) as Hw. rewrite is_set_testbit in * by lia.
  destruct (((bit =? 1) && _) || _) eqn:E.
  - exists lo. split; [done|]. split; [lia|]. split; [by apply Hw|]. intros q' Hq'. lia.
  - assert (Z.testbit b (7 - lo) ≠ (bit =? 1)) as Hne by (intros H'; apply Hw in H'; congruence).
    specialize (IH (lo + 1) ltac:(lia) ltac:(lia) ltac:(lia)).
    destruct (scan_bits fuel b idx (lo + 1) hi bit) as [r|].
    + destruct IH as (q & -> & Hq & Hm & Hno). exists q. split; [done|]. split; [lia|]. split; [done|].
      intros q' Hq'. destruct (decide (q' = lo)) as [->|]; [done|]. apply Hno. lia.
    + intros q Hq. destruct (decide (q = lo)) as [->|]; [done|]. apply IH. lia.
Qed.

Lemma first_bit_skip data lo mid hi bit r :
  lo ≤ mid → (∀ p, lo ≤ p < mid → p ≤ hi → bit_at data p ≠ (bit =? 1)) → first_bit data mid hi bit r →
  first_bit data lo hi bit r.
Proof.
  intros Hm Hno [[-> H]|(Hr & Hb & H)].
  - left. split; [done|]. intros p Hp. destruct (decide (p < mid)); [apply Hno|apply H]; lia.
  - right. split; [lia|]. split; [done|]. intros p Hp.
    destruct (decide (p < mid)); [apply Hno|apply H]; lia.
Qed.

Lemma scan_bytes_spec data bytes idx lo hi bit :
  bit = 0 ∨ bit = 1 → 0 ≤ lo ≤ hi → hi < 8 * Z.of_nat (length data) →
  lo / 8 ≤ idx → bytes = drop (Z.to_nat idx) data →
  first_bit data (Z.max lo (8 * idx)) hi bit (scan_bytes bytes idx lo hi bit).
Proof.
  intros Hb Hlo Hhi. pose proof (div_mod_8 lo) as [Hl1 Hl2]. pose proof (div_mod_8 hi) as [Hh1 Hh2].
  revert idx. induction bytes as [|b bytes IH]; intros idx Hidx Hd; cbn [scan_bytes].
  { left. split; [done|]. intros p Hp.
    assert (length (drop (Z.to_nat idx) data) = 0%nat) as Hlen by (by rewrite <- Hd).
    rewrite length_drop in Hlen. lia. }
  destruct (quot_rem_8 lo ltac:(lia)) as [Eq1 Er1]. destruct (quot_rem_8 hi ltac:(lia)) as [Eq2 Er2].
  rewrite Eq1, Er1, Eq2, Er2.
  destruct (Z.ltb_spec (hi / 8) idx); [left; split; [done|]; intros p Hp; lia|].
  assert (byte_at data (Z.to_nat idx) = b ∧ bytes = drop (Z.to_nat (idx + 1)) data) as [Hbyte Hbs].
  { split.
    - unfold byte_at. rewrite <- (Nat.add_0_r (Z.to_nat idx)), <- lookup_drop, <- Hd. done.
    - replace (Z.to_nat (idx + 1)) with (Z.to_nat idx + 1)%nat by lia.
      rewrite <- drop_drop, <- Hd. by rewrite skipn_cons, drop_0. }
  assert (∀ q, 0 ≤ q ≤ 7 → bit_at data (8 * idx + q) = Z.testbit b (7 - q)) as Hbit.
  { intros q Hq. destruct (div_mod_8_intro idx q Hq) as [H1 H2]. unfold bit_at. by rewrite H1, H2, Hbyte. }
  set (bs := if idx =? lo / 8 then lo mod 8 else 0).
  set (be := if idx =? hi / 8 then hi mod 8 else 7).
  assert (0 ≤ bs ∧ be ≤ 7 ∧ Z.max lo (8 * idx) = 8 * idx + bs ∧ Z.min hi (8 * idx + 7) = 8 * idx + be)
    as (Hbs0 & Hbe7 & Hmax & Hmin).
  { unfold bs, be. destruct (Z.eqb_spec idx (lo / 8)), (Z.eqb_spec idx (hi / 8)); lia. }
  pose proof (scan_bits_spec 8 b idx bs be bit Hb Hbs0 Hbe7 ltac:(lia)) as Hs.
  destruct (scan_bits 8 b idx bs be bit) as [r|].
  - destruct Hs as (q & -> & Hq & Hm & Hno). right. replace (idx * 8 + q) with (8 * idx + q) by lia.
    split; [lia|]. split; [rewrite Hbit by lia; done|]. intros p Hp.
    replace p with (8 * idx + (p - 8 * idx)) by lia. rewrite Hbit by lia. apply Hno. lia.
  - apply (first_bit_skip data _ (Z.max lo (8 * (idx + 1)))); [lia| |apply IH; [lia|done]].
    intros p Hp Hph. replace p with (8 * idx + (p - 8 * idx)) by lia. rewrite Hbit by lia. apply Hs. lia.
Qed.

Lemma bit_pos_in_range_spec data lo hi bit :
  bit = 0 ∨ bit = 1 → 0 ≤ lo ≤ hi → hi < 8 * Z.of_nat (length data) →
  first_bit data lo hi bit (bit_pos_in_range data lo hi bit).
Proof.
  intros Hb Hlo Hhi. unfold bit_pos_in_range. destruct (quot_rem_8 lo ltac:(lia)) as [-> _].
  pose proof (div_mod_8 lo) as [Hl1 Hl2].
  replace lo with (Z.max lo (8 * (lo / 8))) at 1 by lia. by apply scan_bytes_spec.
Qed.

(** ** BITCOUNT *)

(** How many bits of [lo..=hi] are set. *)
Definition count_bits (data : list Z) (lo hi : Z) : Z :=
  Z.of_nat (length (List.filter (bit_at data) (range_incl lo hi))).

Lemma range_incl_app lo mid hi :
  lo ≤ mid + 1 → mid ≤ hi → range_incl lo hi = range_incl lo mid ++ range_incl (mid + 1) hi.
Proof.
  intros H1 H2. unfold range_incl. replace (hi - lo + 1) with ((mid - lo + 1) + (hi - (mid + 1) + 1)) by lia.
  rewrite seqZ_app by lia. f_equal. f_equal. lia.
Qed.

Lemma count_bits_app data lo mid hi :
  lo ≤ mid + 1 → mid ≤ hi → count_bits data lo hi = count_bits data lo mid + count_bits data (mid + 1) hi.
Proof.
  intros H1 H2. unfold count_bits. rewrite (range_incl_app lo mid hi) by done.
  rewrite List.filter_app, length_app. lia.
Qed.

Lemma length_filter_cons {A} (f : A → bool) x l :
  length (List.filter f (x :: l)) = (Nat.b2n (f x) + length (List.filter f l))%nat.
Proof. simpl. by destruct (f x). Qed.

Lemma count_ones_bits data i :
  0 ≤ i → count_ones (byte_at data (Z.to_nat i)) = count_bits data (8 * i) (8 * i + 7).
Proof.
  intros Hi. unfold count_bits, range_incl. replace (8 * i + 7 - 8 * i + 1) with 8 by lia.
  assert (∀ q, 0 ≤ q ≤ 7 → bit_at data (8 * i + q) = Z.testbit (byte_at data (Z.to_nat i)) (7 - q)) as Hb.
  { intros q Hq. destruct (div_mod_8_intro i q Hq) as [H1 H2]. unfold bit_at. by rewrite H1, H2. }
  assert (seqZ (8 * i) 8 = (λ q, 8 * i + q) <$> [0; 1; 2; 3; 4; 5; 6; 7]) as ->.
  { unfold seqZ. change (Z.to_nat 8) with 8%nat. simpl. repeat (apply f_equal2; [lia|]). done. }
  unfold count_ones. set (b := byte_at data (Z.to_nat i)) in *. cbn [fmap list_fmap].
  rewrite !length_filter_cons, !Hb by lia. cbn [List.filter length].
  change (7 - 0) with 7; change (7 - 1) with 6; change (7 - 2) with 5; change (7 - 3) with 4;
  change (7 - 4) with 3; change (7 - 5) with 2; change (7 - 6) with 1; change (7 - 7) with 0. lia.
Qed.

Lemma sum_Z_app l1 l2 : sum_Z (l1 ++ l2) = sum_Z l1 + sum_Z l2.
Proof.
  unfold sum_Z. rewrite fold_left_app. generalize (fold_left Z.add l1 0). induction l2 as [|x l2 IH] using rev_ind.
  - simpl. lia.
  - intros z. rewrite !fold_left_app. simpl. rewrite IH. lia.
Qed.

Lemma sum_count_ones data lo hi :
  0 ≤ lo → lo ≤ hi + 1 →
  sum_Z ((λ i, count_ones (byte_at data (Z.to_nat i))) <$> range_incl lo hi) =
    count_bits data (8 * lo) (8 * hi + 7).
Proof.
  intros Hlo Hhi. replace hi with (lo + Z.of_nat (Z.to_nat (hi - lo + 1)) - 1) by lia.
  generalize (Z.to_nat (hi - lo + 1)) as n. clear Hhi hi.
  induction n as [|n IH].
  - unfold count_bits, range_incl. replace (lo + Z.of_nat 0 - 1 - lo + 1) with 0 by lia.
    replace (8 * (lo + Z.of_nat 0 - 1) + 7 - 8 * lo + 1) with 0 by lia. done.
  - rewrite (range_incl_app lo (lo + Z.of_nat n - 1)) by lia.
    rewrite fmap_app, sum_Z_app, IH.
    rewrite (count_bits_app data _ (8 * (lo + Z.of_nat n - 1) + 7) (8 * (lo + Z.of_nat (S n) - 1) + 7)) by lia.
    f_equal.
    unfold range_incl. replace (lo + Z.of_nat (S n) - 1 - (lo + Z.of_nat n - 1 + 1) + 1) with 1 by lia.
    unfold seqZ. change (Z.to_nat 1) with 1%nat. cbn [seq fmap list_fmap].
    unfold sum_Z. cbn [fold_left]. replace (Z.of_nat 0 + (lo + Z.of_nat n - 1 + 1)) with (lo + Z.of_nat n) by lia.
    rewrite Z.add_0_l, count_ones_bits by lia. f_equal; lia.
Qed.

Lemma sum_all_ones data :
  sum_Z (count_ones <$> data) = count_bits data 0 (8 * Z.of_nat (length data) - 1).
Proof.
  pose proof (sum_count_ones data 0 (Z.of_nat (length data) - 1)) as H.
  replace (8 * (Z.of_nat (length data) - 1) + 7) with (8 * Z.of_nat (length data) - 1) in H by lia.
  rewrite Z.mul_0_r in H. rewrite <- H by lia. f_equal. apply list_eq. intros j. rewrite !list_lookup_fmap.
  unfold range_incl. destruct (decide (j < length data)%nat) as [Hj|Hj].
  - rewrite lookup_seqZ_lt by lia. simpl. rewrite Z.add_0_l, Nat2Z.id.
    destruct (data !! j) as [b|] eqn:E; [|by apply lookup_ge_None in E; lia].
    simpl. unfold byte_at. by rewrite E.
  - rewrite lookup_seqZ_ge by lia. by rewrite lookup_ge_None_2 by lia.
Qed.

(** ** BITOP, bit by bit *)
Lemma merge_short_byte f acc s j :
  (length s ≤ length acc)%nat →
  byte_at (merge_short f acc s) j =
    if (j <? length s)%nat then f (byte_at acc j) (byte_at s j) else byte_at acc j.
Proof.
  revert s j. induction acc as [|a acc IH]; intros [|b s] [|j]; simpl; try done; try lia.
  intros H. change (byte_at (f a b :: merge_short f acc s) (S j)) with (byte_at (merge_short f acc s) j).
  rewrite IH by lia. done.
Qed.

Lemma merge_zero_byte f acc s j :
  (length s ≤ length acc)%nat →
  byte_at (merge_zero f acc s) j =
    if (j <? length s)%nat then f (byte_at acc j) (byte_at s j) else 0.
Proof.
  revert s j. induction acc as [|a acc IH]; intros [|b s] j; intros H; simpl in H; try lia.
  - done.
  - change (merge_zero f (a :: acc) []) with (zeros (length (a :: acc))). apply byte_at_zeros.
  - destruct j as [|j]; [done|].
    change (byte_at (merge_zero f (a :: acc) (b :: s)) (S j)) with (byte_at (merge_zero f acc s) j).
    rewrite IH by lia. done.
Qed.

Lemma length_merge_short f acc s : length (merge_short f acc s) = length acc.
Proof. revert s. induction acc as [|a acc IH]; intros [|b s]; simpl; auto. Qed.

Lemma length_merge_zero f acc s : length (merge_zero f acc s) = length acc.
Proof.
  revert s. induction acc as [|a acc IH]; intros [|b s]; simpl; auto.
  f_equal. apply length_replicate.
Qed.

(** [f] acts on bits as [g], and a zero bit of the second operand is neutral. *)
Definition bitwise (f : Z → Z → Z) (g : bool → bool → bool) : Prop :=
  ∀ a b k, 0 ≤ k ≤ 7 → Z.testbit (f a b) k = g (Z.testbit a k) (Z.testbit b k).

Lemma bit_merge_short f g acc s p :
  bitwise f g → (∀ x, g x false = x) → (length s ≤ length acc)%nat →
  bit_at (merge_short f acc s) p = g (bit_at acc p) (bit_at s p).
Proof.
  intros Hf Hg Hl. pose proof (div_mod_8 p). unfold bit_at. rewrite merge_short_byte by done.
  destruct (Nat.ltb_spec (Z.to_nat (p / 8)) (length s)) as [Hj|Hj]; [apply Hf; lia|].
  rewrite (byte_at_ge s) by done. by rewrite Z.bits_0, Hg.
Qed.

Lemma bit_merge_and acc s p :
  (length s ≤ length acc)%nat → bit_at (merge_zero Z.land acc s) p = bit_at acc p && bit_at s p.
Proof.
  intros Hl. unfold bit_at. rewrite merge_zero_byte by done.
  destruct (Nat.ltb_spec (Z.to_nat (p / 8)) (length s)) as [Hj|Hj]; [apply Z.land_spec|].
  by rewrite (byte_at_ge s), Z.bits_0, andb_false_r.
Qed.

Lemma fold_merge_short f g ss acc p :
  bitwise f g → (∀ x, g x false = x) → Forall (λ s, (length s ≤ length acc)%nat) ss →
  length (fold_left (merge_short f) ss acc) = length acc ∧
  bit_at (fold_left (merge_short f) ss acc) p = fold_left g ((λ s, bit_at s p) <$> ss) (bit_at acc p).
Proof.
  intros Hf Hg. revert acc. induction ss as [|s ss IH]; intros acc Hl; [done|].
  apply Forall_cons in Hl as [Hs Hl]. cbn [fold_left fmap list_fmap].
  rewrite <- (bit_merge_short f g acc s p) by done.
  rewrite <- (length_merge_short f acc s) in Hl |- * at 1. apply IH.
  rewrite length_merge_short in Hl |- *. done.
Qed.

Lemma fold_merge_and ss acc p :
  Forall (λ s, (length s ≤ length acc)%nat) ss →
  length (fold_left (merge_zero Z.land) ss acc) = length acc ∧
  bit_at (fold_left (merge_zero Z.land) ss acc) p = bit_at acc p && forallb (λ s, bit_at s p) ss.
Proof.
  revert acc. induction ss as [|s ss IH]; intros acc Hl; simpl; [by rewrite andb_true_r|].
  apply Forall_cons in Hl as [Hs Hl].
  destruct (IH (merge_zero Z.land acc s)) as [IH1 IH2]; [by rewrite length_merge_zero|].
  split; [by rewrite IH1, length_merge_zero|].
  by rewrite IH2, bit_merge_and, andb_assoc.
Qed.

Lemma fold_orb l b : fold_left orb l b = b || existsb id l.
Proof. revert b. induction l as [|x l IH]; intros b; simpl; [by rewrite orb_false_r|]. by rewrite IH, orb_assoc. Qed.

Lemma fold_andn l b : fold_left (λ a x, a && negb x) l b = b && negb (existsb id l).
Proof.
  revert b. induction l as [|x l IH]; intros b; simpl; [by rewrite andb_true_r|].
  rewrite IH. unfold id. by destruct b, x, (existsb _ l).
Qed.

Lemma existsb_fmap {A} (f : A → bool) l : existsb id (f <$> l) = existsb f l.
Proof. induction l as [|x l IH]; simpl; [done|]. f_equal. exact IH. Qed.

Lemma max_len_ge sources s : Some s ∈ sources → (length s ≤ max_len sources)%nat.
Proof.
  unfold max_len.
  assert (∀ l m, (m ≤ fold_left longer l m)%nat) as Hmono.
  { intros l. induction l as [|[x|] l IH]; intros m; simpl; [lia| |apply IH].
    etrans; [|apply IH]. destruct (Nat.ltb_spec m (length x)); lia. }
  intros Hin. generalize 0%nat as m. induction sources as [|x l IH]; intros m; [by apply not_elem_of_nil in Hin|].
  apply elem_of_cons in Hin as [<-|Hin]; simpl; [|by apply IH].
  etrans; [|apply Hmono]. destruct (Nat.ltb_spec m (length s)); lia.
Qed.

Lemma present_le sources :
  Forall (λ s, (length s ≤ max_len sources)%nat) (present sources) ∧
  Forall (λ s, (length s ≤ max_len sources)%nat) (present (tail sources)).
Proof.
  split; apply Forall_forall; intros s Hs; apply max_len_ge;
    apply list_elem_of_omap in Hs as (x & Hx & Hs); cbv in Hs; subst x; [done|].
  destruct sources; [done|]. by right.
Qed.

Lemma bit_at_ones n p : 0 ≤ p → bit_at (ones n) p = (p <? 8 * Z.of_nat n).
Proof.
  intros Hp. pose proof (div_mod_8 p). unfold bit_at, byte_at, ones.
  destruct (Z.ltb_spec p (8 * Z.of_nat n)).
  - rewrite lookup_replicate_2 by lia. simpl. change 255 with (Z.ones 8). apply Z.ones_spec_low. lia.
  - rewrite lookup_ge_None_2 by (rewrite length_replicate; lia). apply Z.bits_0.
Qed.

Lemma bit_at_zeros n p : bit_at (zeros n) p = false.
Proof. unfold bit_at. rewrite byte_at_zeros. apply Z.bits_0. Qed.

Lemma bit_at_padded' n s p : (length s ≤ n)%nat → bit_at (padded n s) p = bit_at s p.
Proof. intros H. unfold padded. rewrite take_ge by done. apply bit_at_padded. Qed.

Lemma length_padded n s : (length s ≤ n)%nat → length (padded n s) = n.
Proof. intros H. unfold padded, zeros. rewrite take_ge, length_app, length_replicate by done. lia. Qed.

Lemma bit_at_not s p :
  0 ≤ p → bit_at (not_u8 <$> s) p = (p <? 8 * Z.of_nat (length s)) && negb (bit_at s p).
Proof.
  intros Hp. pose proof (div_mod_8 p). destruct (Z.ltb_spec p (8 * Z.of_nat (length s))) as [H1|H1].
  - unfold bit_at, byte_at. rewrite list_lookup_fmap.
    destruct (s !! Z.to_nat (p / 8)) as [b|] eqn:E; [|apply lookup_ge_None in E; lia].
    simpl. apply testbit_not_u8. lia.
  - apply bit_at_end. rewrite length_fmap. lia.
Qed.

(** What each operation computes for one bit position: [x] is the bit of the first
    source and [ys] are the further sources that exist; a missing source is all zeros. *)
Definition bit_op_spec (op : BitOpType) (sources : list (option (list Z))) (p : Z) : bool :=
  let bit (s : option (list Z)) := bit_at (default [] s) p in
  let x := match sources with s :: _ => bit s | [] => false end in
  let ys := present (tail sources) in
  match op with
  | BAnd => forallb bit sources
  | BOr => existsb bit sources
  | BXor => fold_left xorb (bit <$> sources) false
  | BNot => negb x
  | BDiff => x && negb (existsb (λ y, bit_at y p) ys)
  | BDiff1 => negb x && negb (bool_decide (ys = [])) && forallb (λ y, bit_at y p) ys
  | BAndOr => x && existsb (λ y, bit_at y p) ys
  | BOne => (length (List.filter bit sources) =? 1)%nat
  end.

Lemma and_loop_spec n acc sources p :
  length acc = n → Forall (λ s, (length s ≤ n)%nat) (present sources) →
  length (and_loop n acc sources) = n ∧
  bit_at (and_loop n acc sources) p = bit_at acc p && forallb (λ s, bit_at (default [] s) p) sources.
Proof.
  revert acc. induction sources as [|[s|] sources IH]; intros acc Hl Hs; simpl.
  - by rewrite andb_true_r.
  - apply Forall_cons in Hs as [Hs Hs'].
    destruct (IH (merge_zero Z.land acc s)) as [IH1 IH2]; [by rewrite length_merge_zero|done|].
    split; [done|]. rewrite IH2, bit_merge_and by lia. by rewrite andb_assoc.
  - split; [apply length_replicate|]. rewrite bit_at_zeros. change (bit_at [] p) with (bit_at (zeros 0) p).
    by rewrite bit_at_zeros, andb_false_r.
Qed.

Lemma present_existsb sources p :
  existsb (λ s, bit_at s p) (present sources) = existsb (λ s, bit_at (default [] s) p) sources.
Proof.
  induction sources as [|[s|] sources IH]; [done|simpl; f_equal; exact IH|].
  simpl. change (bit_at [] p) with (bit_at (zeros 0) p). rewrite bit_at_zeros. exact IH.
Qed.

Lemma present_xor sources p b :
  fold_left xorb ((λ s, bit_at s p) <$> present sources) b =
  fold_left xorb ((λ s, bit_at (default [] s) p) <$> sources) b.
Proof.
  revert b. induction sources as [|[s|] sources IH]; intros b; [done|exact (IH _)|].
  cbn [fmap list_fmap fold_left default]. change (bit_at [] p) with (bit_at (zeros 0) p).
  rewrite bit_at_zeros, xorb_false_r. exact (IH _).
Qed.

Lemma count_with_bit_spec sources p :
  0 ≤ p →
  count_with_bit (present sources) (Z.to_nat p) =
    length (List.filter (λ s, bit_at (default [] s) p) sources).
Proof.
  intros Hp. pose proof (div_mod_8 p).
  assert (∀ s, ((Z.to_nat p / 8 <? length s)%nat && is_set (byte_at s (Z.to_nat p / 8)) (Z.of_nat (Z.to_nat p mod 8)))
               = bit_at s p) as Hb.
  { intros s. assert (Z.of_nat (Z.to_nat p mod 8) = p mod 8) as -> by (rewrite Nat2Z.inj_mod, Z2Nat.id by lia; done).
    assert ((Z.to_nat p / 8)%nat = Z.to_nat (p / 8)) as -> by (rewrite Z2Nat.inj_div by lia; done).
    rewrite is_set_testbit by lia. change (Z.testbit _ _) with (bit_at s p).
    destruct (Nat.ltb_spec (Z.to_nat (p / 8)) (length s)); [done|]. by rewrite bit_at_end by lia. }
  unfold count_with_bit. induction sources as [|[s|] sources IH]; [done| |].
  - change (present (Some s :: sources)) with (s :: present sources).
    rewrite !length_filter_cons, Hb, IH. done.
  - change (present (None :: sources)) with (present sources). rewrite length_filter_cons.
    cbn [default]. change (bit_at [] p) with (bit_at (zeros 0) p). rewrite bit_at_zeros. exact IH.
Qed.

Lemma fold_masks (c : nat → bool) l a k :
  0 ≤ k → Forall (λ q, (q ≤ 7)%nat) l →
  Z.testbit (fold_left (λ acc q, if c q then Z.lor acc (bit_mask (Z.of_nat q)) else acc) l a) k =
    Z.testbit a k || existsb (λ q, c q && (k =? 7 - Z.of_nat q)) l.
Proof.
  intros Hk Hl. revert a. induction Hl as [|q l Hq _ IH]; intros a; simpl; [by rewrite orb_false_r|].
  rewrite IH. destruct (c q); simpl; [|done]. rewrite Z.lor_spec, testbit_mask, orb_assoc by lia. done.
Qed.

Lemma one_byte_spec ss j r :
  0 ≤ r ≤ 7 →
  Z.testbit (one_byte_of ss j) (7 - r) = (count_with_bit ss (j * 8 + Z.to_nat r) =? 1)%nat.
Proof.
  intros Hr. unfold one_byte_of.
  rewrite (fold_masks (λ q, (count_with_bit ss (j * 8 + q) =? 1)%nat)); [|lia|repeat constructor; lia].
  rewrite Z.bits_0. cbn [orb].
  assert (r = 0 ∨ r = 1 ∨ r = 2 ∨ r = 3 ∨ r = 4 ∨ r = 5 ∨ r = 6 ∨ r = 7) as Hc by lia.
  cbn [seq existsb].
  destruct Hc as [->|[->|[->|[->|[->|[->|[->| ->]]]]]]]; simpl;
    rewrite ?andb_false_r, ?andb_true_r, ?orb_false_r; done.
Qed.

Lemma bitwise_lor : bitwise Z.lor orb.
Proof. intros a b k _. apply Z.lor_spec. Qed.
Lemma bitwise_lxor : bitwise Z.lxor xorb.
Proof. intros a b k _. apply Z.lxor_spec. Qed.
Lemma bitwise_andn : bitwise (λ a b, Z.land a (not_u8 b)) (λ a x, a && negb x).
Proof. intros a b k Hk. by rewrite Z.land_spec, testbit_not_u8. Qed.

Lemma first_source_bits sources p :
  let first := mjoin (head sources) in
  let n := max_len sources in
  bit_at (match first with Some s => padded n s | None => zeros n end) p =
    match sources with s :: _ => bit_at (default [] s) p | [] => false end ∧
  length (match first with Some s => padded n s | None => zeros n end) = n.
Proof.
  destruct sources as [|[s|] sources]; cbn [head mjoin option_join default].
  - split; [apply bit_at_zeros|apply length_replicate].
  - assert (length s ≤ max_len (Some s :: sources))%nat by (apply max_len_ge; left).
    split; [by apply bit_at_padded'|by apply length_padded].
  - split; [|apply length_replicate]. change (bit_at [] p) with (bit_at (zeros 0) p). by rewrite !bit_at_zeros.
Qed.

(** The buffer DIFF1 starts from: the complement of the first source. *)
Lemma diff1_start sources p :
  let n := max_len sources in
  let start := match mjoin (head sources) with
               | Some s => (not_u8 <$> take n s) ++ ones (n - length s)
               | None => ones n
               end in
  length start = n ∧
  (0 ≤ p < 8 * Z.of_nat n →
   bit_at start p = negb (match sources with s :: _ => bit_at (default [] s) p | [] => false end)).
Proof.
  intros n. destruct sources as [|[s|] sources]; cbn [head mjoin option_join default].
  - split; [apply length_replicate|]. unfold n, max_len. simpl. lia.
  - assert (length s ≤ n)%nat as Hs by (apply max_len_ge; left). rewrite take_ge by done. split.
    { rewrite length_app, length_fmap. unfold ones. rewrite length_replicate. lia. }
    intros Hp. pose proof (div_mod_8 p). unfold bit_at at 1. rewrite byte_at_app, length_fmap.
    destruct (Nat.ltb_spec (Z.to_nat (p / 8)) (length s)) as [Hj|Hj].
    + change (bit_at (not_u8 <$> s) p = negb (bit_at s p)). rewrite bit_at_not by lia.
      by rewrite (proj2 (Z.ltb_lt _ _)) by lia.
    + rewrite (bit_at_end s) by lia. unfold byte_at, ones. rewrite lookup_replicate_2 by lia. simpl.
      change 255 with (Z.ones 8). apply Z.ones_spec_low. lia.
  - split; [apply length_replicate|]. intros Hp. rewrite bit_at_ones by lia.
    change (bit_at [] p) with (bit_at (zeros 0) p). rewrite bit_at_zeros. apply Z.ltb_lt. lia.
Qed.

Lemma bit_at_zip_and l1 l2 p :
  length l1 = length l2 → 0 ≤ p < 8 * Z.of_nat (length l1) →
  bit_at (zip_with Z.land l1 l2) p = bit_at l1 p && bit_at l2 p.
Proof.
  intros Hl Hp. unfold bit_at, byte_at. rewrite lookup_zip_with. pose proof (div_mod_8 p).
  destruct (l1 !! Z.to_nat (p / 8)) as [b1|] eqn:E1; [|apply lookup_ge_None in E1; lia].
  destruct (l2 !! Z.to_nat (p / 8)) as [b2|] eqn:E2; [|apply lookup_ge_None in E2; lia].
  simpl. apply Z.land_spec.
Qed.

(** The length and every bit of the result, operation by operation. *)
Lemma bit_op_result_spec op sources p :
  sources ≠ [] → (op = BNot → length sources = 1%nat) →
  length (bit_op_result op sources) = max_len sources ∧
  (0 ≤ p < 8 * Z.of_nat (max_len sources) →
   bit_at (bit_op_result op sources) p = bit_op_spec op sources p).
Proof.
  intros Hne Hnot. destruct (present_le sources) as [Hall Hrest].
  destruct (first_source_bits sources p) as [Hx Hxl]. cbv zeta in Hx, Hxl.
  set (n := max_len sources) in *.
  assert (length (zeros n) = n) as Hz by apply length_replicate.
  assert (length (ones n) = n) as Ho by apply length_replicate.
  assert (0 ≤ p < 8 * Z.of_nat n → bit_at (ones n) p = true) as Hones
    by (intros Hp; rewrite bit_at_ones by lia; apply Z.ltb_lt; lia).
  destruct op; unfold bit_op_result, bit_op_spec; cbv zeta; fold n.
  - destruct (and_loop_spec n (ones n) sources p Ho Hall) as [Hl ->]. split; [done|]. intros Hp. by rewrite Hones.
  - destruct (fold_merge_short Z.lor orb (present sources) (zeros n) p) as [-> ->];
      [apply bitwise_lor|apply orb_false_r|by rewrite Hz|].
    by rewrite fold_orb, bit_at_zeros, existsb_fmap, present_existsb.
  - destruct (fold_merge_short Z.lxor xorb (present sources) (zeros n) p) as [-> ->];
      [apply bitwise_lxor|apply xorb_false_r|by rewrite Hz|]. by rewrite bit_at_zeros, present_xor.
  - destruct sources as [|s [|]]; [done| |by specialize (Hnot eq_refl)]. cbn [head mjoin option_join].
    destruct s as [s|]; cbn [default].
    + assert (n = length s) as Hn by (unfold n, max_len; simpl; destruct (Nat.ltb_spec 0 (length s)); lia).
      rewrite Hn, firstn_all, length_fmap. split; [done|]. intros Hp. rewrite bit_at_not by lia.
      by rewrite (proj2 (Z.ltb_lt _ _)) by lia.
    + split; [done|]. intros Hp. rewrite Hones by done.
      change (bit_at [] p) with (bit_at (zeros 0) p). by rewrite bit_at_zeros.
  - match goal with |- length (fold_left _ _ ?start) = _ ∧ _ =>
      destruct (fold_merge_short _ _ (present (tail sources)) start p bitwise_andn) as [-> ->] end.
    { intros x. apply andb_true_r. } { by rewrite Hxl. }
    by rewrite Hx, fold_andn, existsb_fmap.
  - destruct (diff1_start sources p) as [Hsl Hsb]. fold n in Hsl, Hsb.
    destruct (present (tail sources)) as [|y ys] eqn:Ey.
    { rewrite bit_at_zeros, bool_decide_eq_true_2 by done. by rewrite andb_false_r. }
    rewrite <- Ey in *. rewrite bool_decide_eq_false_2 by (by rewrite Ey).
    match goal with |- length (fold_left _ _ ?start) = _ ∧ _ =>
      destruct (fold_merge_and (present (tail sources)) start p) as [-> ->] end; [by rewrite Hsl|].
    split; [done|]. intros Hp. by rewrite Hsb, andb_true_r.
  - destruct (present (tail sources)) as [|y ys] eqn:Ey; [by rewrite bit_at_zeros, andb_false_r|].
    rewrite <- Ey in *.
    destruct (fold_merge_short Z.lor orb (present (tail sources)) (zeros n) p) as [Hl Hb];
      [apply bitwise_lor|apply orb_false_r|by rewrite Hz|].
    rewrite fold_orb, bit_at_zeros, existsb_fmap in Hb. cbn [orb] in Hb. rewrite <- Hb, <- Hx.
    split; [rewrite length_zip_with; lia|]. intros Hp. apply bit_at_zip_and; lia.
  - rewrite length_fmap, length_seq. split; [done|]. intros Hp. pose proof (div_mod_8 p).
    unfold bit_at at 1, byte_at. rewrite list_lookup_fmap, lookup_seq_lt by lia.
    simpl. rewrite one_byte_spec by lia.
    replace (Z.to_nat (p / 8) * 8 + Z.to_nat (p mod 8))%nat with (Z.to_nat p) by lia.
    by rewrite count_with_bit_spec by lia.
Qed.

(** ** Ranges *)
Lemma clamp_spec n s e :
  0 ≤ n →
  clamp_start n s = Z.max 0 (Strings.from_end n s) ∧ clamp_end n e = Z.min (n - 1) (Strings.from_end n e).
Proof.
  intros Hn. unfold clamp_start, clamp_end, Strings.from_end.
  destruct (Z.ltb_spec s 0), (Z.ltb_spec e 0);
    repeat match goal with |- context [if ?x <? ?y then _ else _] => destruct (Z.ltb_spec x y)
           | |- context [if ?x <=? ?y then _ else _] => destruct (Z.leb_spec x y) end; lia.
Qed.

(** The bit positions that a range of bytes or bits selects in a value. *)
Definition range_lo (data : list Z) (use_bit : bool) (s : Z) : Z :=
  if use_bit then Z.max 0 (Strings.from_end (8 * Z.of_nat (length data)) s)
  else 8 * Z.max 0 (Strings.from_end (Z.of_nat (length data)) s).
Definition range_hi (data : list Z) (use_bit : bool) (e : Z) : Z :=
  if use_bit then Z.min (8 * Z.of_nat (length data) - 1) (Strings.from_end (8 * Z.of_nat (length data)) e)
  else 8 * Z.min (Z.of_nat (length data) - 1) (Strings.from_end (Z.of_nat (length data)) e) + 7.

Lemma count_bits_empty data lo hi : hi < lo → count_bits data lo hi = 0.
Proof.
  intros H. unfold count_bits, range_incl, seqZ. replace (Z.to_nat (hi - lo + 1)) with 0%nat by lia. done.
Qed.

Lemma bit_count_of_spec data s e use_bit :
  bit_count_of data false s e use_bit = count_bits data 0 (8 * Z.of_nat (length data) - 1) ∧
  bit_count_of data true s e use_bit = count_bits data (range_lo data use_bit s) (range_hi data use_bit e).
Proof.
  split; [apply sum_all_ones|]. unfold bit_count_of, range_lo, range_hi. cbn [negb].
  destruct use_bit; cbv zeta.
  - replace (Z.of_nat (length data * 8)) with (8 * Z.of_nat (length data)) by lia.
    destruct (clamp_spec (8 * Z.of_nat (length data)) s e ltac:(lia)) as [-> ->].
    set (lo := Z.max 0 _). set (hi := Z.min _ _).
    destruct (Z.ltb_spec hi lo), (Z.leb_spec (8 * Z.of_nat (length data)) lo); cbn [orb];
      [symmetry; apply count_bits_empty; lia..|].
    unfold count_bits. f_equal. f_equal. apply List.filter_ext_in. intros p Hp.
    apply list_elem_of_In, elem_of_seqZ in Hp. symmetry. apply bit_at_is_set. lia.
  - destruct (clamp_spec (Z.of_nat (length data)) s e ltac:(lia)) as [-> ->].
    set (lo := Z.max 0 _). set (hi := Z.min _ _).
    destruct (Z.ltb_spec hi lo), (Z.leb_spec (Z.of_nat (length data)) lo); cbn [orb];
      [symmetry; apply count_bits_empty; lia..|].
    apply sum_count_ones; lia.
Qed.

Lemma bit_pos_of_spec data bit s e use_bit :
  bit = 0 ∨ bit = 1 →
  first_bit data (range_lo data use_bit s) (range_hi data use_bit e) bit
    (bit_pos_of data bit true s e use_bit).
Proof.
  intros Hb. unfold bit_pos_of, range_lo, range_hi. cbn [negb]. cbv zeta.
  replace (Z.of_nat (length data * 8)) with (8 * Z.of_nat (length data)) by lia.
  destruct use_bit.
  - destruct (clamp_spec (8 * Z.of_nat (length data)) s e ltac:(lia)) as [-> ->].
    set (lo := Z.max 0 _). set (hi := Z.min _ _).
    destruct (Z.ltb_spec hi lo); [left; split; [done|intros p Hp; lia]|].
    apply bit_pos_in_range_spec; [done|lia|lia].
  - destruct (clamp_spec (Z.of_nat (length data)) s e ltac:(lia)) as [-> ->].
    set (lo := Z.max 0 _). set (hi := Z.min _ _).
    destruct (Z.ltb_spec hi lo); [left; split; [done|intros p Hp; lia]|].
    destruct (Z.leb_spec (8 * Z.of_nat (length data)) (hi * 8 + 7)); [lia|].
    replace (lo * 8) with (8 * lo) by lia. replace (hi * 8 + 7) with (8 * hi + 7) by lia.
    apply bit_pos_in_range_spec; [done|lia|lia].
Qed.

Lemma bit_pos_whole_spec data bit s e use_bit :
  bit = 0 ∨ bit = 1 →
  let r := bit_pos_of data bit false s e use_bit in
  let total := 8 * Z.of_nat (length data) in
  first_bit data 0 (total - 1) bit r ∨
  (bit = 0 ∧ r = total ∧ ∀ p, 0 ≤ p < total → bit_at data p = true).
Proof.
  intros Hb. unfold bit_pos_of. cbn [negb]. cbv zeta.
  replace (Z.of_nat (length data * 8)) with (8 * Z.of_nat (length data)) by lia.
  destruct data as [|b data].
  { destruct Hb as [-> | ->]; simpl; [right|left; left]; repeat split; try done; intros p Hp; simpl in Hp; lia. }
  set (d := b :: data) in *. assert (0 < Z.of_nat (length d)) as Hlen by (simpl; lia).
  assert (first_bit d 0 (8 * Z.of_nat (length d) - 1) bit
    (bit_pos_in_range d 0 (8 * Z.of_nat (length d) - 1) bit)) as H
    by (apply bit_pos_in_range_spec; [done|lia|lia]).
  destruct (Z.leb_spec 0 (bit_pos_in_range d 0 (8 * Z.of_nat (length d) - 1) bit)) as [H0|H0]; [by left|].
  destruct H as [[Hr Hno]|[Hr _]]; [|lia]. destruct Hb as [-> | ->]; simpl (_ =? _).
  - right. split; [done|]. split; [done|]. intros p Hp. specialize (Hno p ltac:(lia)).
    by destruct (bit_at d p).
  - left. left. split; [done|]. exact Hno.
Qed.

(** ** Theorems *)

(** SETBIT and GETBIT. SETBIT returns the old bit and stores a value, padded with
    zeros if needed and under the key's current expiry, in which that bit has the new
    value and every other bit is as before; GETBIT returns the bit, zero beyond the
    end or for a missing key, and changes nothing. *)
Theorem setbit_getbit_spec T `{!TxOps T} raw ok now key offset value m :
  TxLaws T raw ok → clock_ok now → store_ok m → 0 ≤ offset →
  let old := default [] (item_value <$> live now key m) in
  Runs (raw:=raw) (ok:=ok) (GetBitOp now key offset) m (Ret (RInt (if bit_at old offset then 1 else 0))) m ∧
  ∃ new, Runs (raw:=raw) (ok:=ok) (SetBitOp now key offset value) m
      (Ret (RInt (if bit_at old offset then 1 else 0))) (Strings.updated now key new m) ∧
    Z.of_nat (length new) = Z.max (Z.of_nat (length old)) (offset / 8 + 1) ∧
    ∀ p, 0 ≤ p → bit_at new p = if p =? offset then value =? 1 else bit_at old p.
Proof.
  intros HT Hn Hm Ho old. pose proof (runs_get_opt (raw:=raw) (ok:=ok) Hn key m) as Hg. split.
  - eapply runs_bind; [exact Hg|].
    replace (if bit_at old offset then 1 else 0) with
      (match live now key m with Some i => get_bit_of (item_value i) offset | None => 0 end);
      [apply runs_ret|].
    unfold old. destruct (live now key m) as [i|]; simpl.
    + unfold get_bit_of. rewrite <- bit_at_is_set by done. destruct (quot_rem_8 offset Ho) as [-> _].
      pose proof (div_mod_8 offset).
      destruct (Nat.leb_spec (length (item_value i)) (Z.to_nat (offset / 8))); [|done].
      by rewrite bit_at_end by lia.
    + change (bit_at [] offset) with (bit_at (zeros 0) offset). by rewrite bit_at_zeros.
  - pose proof (set_bit_data_spec (item_value <$> live now key m) offset value Ho) as Hs. cbv zeta in Hs.
    fold old in Hs. destruct (set_bit_data _ offset value) as [bit new] eqn:E.
    destruct Hs as (-> & Hl & Hb). exists new. split; [|split; done].
    eapply runs_bind; [exact Hg|]. rewrite E. eapply runs_bind; [|apply runs_ret].
    by apply (Strings.runs_update (raw:=raw) (ok:=ok)).
Qed.

Lemma setbit_getbit_spec_witness :
  Runs (raw:=id) (ok:=λ _, True) (GetBitOp 5 (B "0:b") 9)
    (<[B "0:b" := mkItem (B "0:b") [0; 64] 0 None]> ∅) (Ret (RInt 1))
    (<[B "0:b" := mkItem (B "0:b") [0; 64] 0 None]> ∅).
Proof.
  assert (store_ok (<[B "0:b" := mkItem (B "0:b") [0; 64] 0 None]> ∅)) as Hm
    by (apply store_ok_insert; [apply store_ok_empty|exact I]).
  assert (0 ≤ 9) as Ho by lia.
  exact (proj1 (setbit_getbit_spec (gmap (list Z) Item) id (λ _, True) 5 (B "0:b") 9 1
    (<[B "0:b" := mkItem (B "0:b") [0; 64] 0 None]> ∅) map_laws clock_ok_5 Hm Ho)).
Defined.

(** BITCOUNT and BITPOS agree with the sequence of bits. Without a range they look
    at the whole value, with one at the positions the byte or bit range selects,
    negative indices counting from the end: BITCOUNT returns the number of set bits
    there, BITPOS the first position holding the wanted bit, -1 if there is none, and
    when looking for a clear bit in a value of ones without a range, the position just
    past its end. *)
Theorem bitcount_bitpos_spec T `{!TxOps T} raw ok now key bit s e use_bit m i :
  TxLaws T raw ok → clock_ok now → live now key m = Some i → bit = 0 ∨ bit = 1 →
  let data := item_value i in
  let total := 8 * Z.of_nat (length data) in
  let lo := range_lo data use_bit s in
  let hi := range_hi data use_bit e in
  Runs (raw:=raw) (ok:=ok) (BitCountOp now key false s e use_bit) m
    (Ret (RInt (count_bits data 0 (total - 1)))) m ∧
  Runs (raw:=raw) (ok:=ok) (BitCountOp now key true s e use_bit) m (Ret (RInt (count_bits data lo hi))) m ∧
  (∃ r, Runs (raw:=raw) (ok:=ok) (BitPosOp now key bit true s e use_bit) m (Ret (RInt r)) m ∧
        first_bit data lo hi bit r) ∧
  (∃ r, Runs (raw:=raw) (ok:=ok) (BitPosOp now key bit false s e use_bit) m (Ret (RInt r)) m ∧
        (first_bit data 0 (total - 1) bit r ∨
         (bit = 0 ∧ r = total ∧ ∀ p, 0 ≤ p < total → bit_at data p = true))).
Proof.
  intros HT Hn El Hb data total lo hi.
  pose proof (runs_get_opt (raw:=raw) (ok:=ok) Hn key m) as Hg. rewrite El in Hg.
  destruct (bit_count_of_spec data s e use_bit) as [Hc1 Hc2].
  split; [eapply runs_bind; [exact Hg|]; unfold total; rewrite <- Hc1; apply runs_ret|].
  split; [eapply runs_bind; [exact Hg|]; unfold lo, hi; rewrite <- Hc2; apply runs_ret|].
  split; eexists; (split; [eapply runs_bind; [exact Hg|]; apply runs_ret|]).
  - by apply bit_pos_of_spec.
  - by apply bit_pos_whole_spec.
Qed.

Lemma bitcount_bitpos_spec_witness :
  Runs (raw:=id) (ok:=λ _, True) (BitCountOp 5 (B "0:b") true 1 (-1) false)
    (<[B "0:b" := mkItem (B "0:b") [255; 64] 0 None]> ∅) (Ret (RInt 1))
    (<[B "0:b" := mkItem (B "0:b") [255; 64] 0 None]> ∅).
Proof.
  exact (proj1 (proj2 (bitcount_bitpos_spec (gmap (list Z) Item) id (λ _, True) 5 (B "0:b") 1 1 (-1) false
    (<[B "0:b" := mkItem (B "0:b") [255; 64] 0 None]> ∅) (mkItem (B "0:b") [255; 64] 0 None)
    map_laws clock_ok_5 eq_refl (or_intror eq_refl)))).
Defined.

(** BITOP stores, under the destination key and without expiry, a value as long as
    the longest source whose every bit is what the operation says of the source bits
    (AND, OR, XOR, NOT, DIFF, DIFF1, ANDOR, ONE), and replies its length. *)
Theorem bitop_spec T `{!TxOps T} raw ok now dest keys op m :
  TxLaws T raw ok → clock_ok now → keys ≠ [] → (op = BNot → length keys = 1%nat) →
  let sources := (λ k, item_value <$> live now k m) <$> keys in
  ∃ new, Runs (raw:=raw) (ok:=ok) (BitOpOp now dest keys op) m
      (Ret (RInt (Z.of_nat (max_len sources)))) (<[dest := mkItem dest new TYPE_STRING None]> m) ∧
    length new = max_len sources ∧
    ∀ p, 0 ≤ p < 8 * Z.of_nat (max_len sources) → bit_at new p = bit_op_spec op sources p.
Proof.
  intros HT Hn Hk Hnot sources. exists (bit_op_result op sources). split.
  - assert (Runs (raw:=raw) (ok:=ok) (read_sources now keys) m (Ret sources) m) as Hr.
    { unfold sources. clear Hk Hnot sources. induction keys as [|k keys IH]; [apply runs_ret|].
      eapply runs_bind; [by apply runs_get_opt|]. eapply runs_bind; [exact IH|]. apply runs_ret. }
    eapply runs_bind; [exact Hr|]. eapply runs_bind; [|apply runs_ret].
    apply (Strings.runs_set_string (raw:=raw) (ok:=ok) Hn dest).
  - assert (sources ≠ []) as Hs by (unfold sources; by destruct keys).
    assert (op = BNot → length sources = 1%nat) as Hl by (unfold sources; by rewrite length_fmap).
    split; [by apply (bit_op_result_spec op sources 0)|]. intros p Hp. by apply bit_op_result_spec.
Qed.

Lemma bitop_spec_witness :
  ∃ new, Runs (raw:=id) (ok:=λ _, True) (BitOpOp 5 (B "d") [B "a"; B "b"] BAnd)
      (<[B "a" := mkItem (B "a") [240] 0 None]> ∅) (Ret (RInt 1))
      (<[B "d" := mkItem (B "d") new 0 None]> (<[B "a" := mkItem (B "a") [240] 0 None]> ∅)) ∧
    bit_at new 0 = false.
Proof.
  destruct (bitop_spec (gmap (list Z) Item) id (λ _, True) 5 (B "d") [B "a"; B "b"] BAnd
    (<[B "a" := mkItem (B "a") [240] 0 None]> ∅) map_laws clock_ok_5) as (new & H1 & _ & H2).
  - discriminate.
  - discriminate.
  - exists new. split; [exact H1|]. rewrite H2; [vm_compute; reflexivity|]. vm_compute. split; [discriminate|reflexivity].
Defined.
