(* ===== verification/Conn.v ===== *)
(** * Connection commands: src/redis/conn.rs

    PING, ECHO, TIME, MODULE, LOLWUT, SYNC, DBSIZE and the queued [+OK]. WAIT and
    BGSAVE await the store's durability and are not modelled. *)
From S2P Require Import Prelude Bytes Resp Kv Registry Op Session.
Import MapTx.

(** ** Wire halves *)

Definition OkWire : WireOp := pure_wire (λ _, SimpleString (B "OK")).

Definition LolwutWire (version commit : list Z) : WireOp := pure_wire (λ _,
  BulkString (Some (B "Invar version: " ++ version ++ B ", commit: " ++ commit ++ [10]))).

(** The time of the reply is an argument, in microseconds since the epoch. *)
Definition TimeWire (now_us : Z) : WireOp := pure_wire (λ _,
  Array (Some [BulkString (Some (to_dec (now_us / 1000000)));
               BulkString (Some (to_dec (now_us mod 1000000)))])).

Definition ModuleWire (args : list (list Z)) : WireOp := pure_wire (λ _,
  match args with
  | _ :: sub :: _ =>
      if eq_ignore_case sub (B "list") then Array (Some []) else Error (B "ERR unknown subcommand")
  | _ => Error (B "ERR wrong number of arguments for 'module' command")
  end).

Definition PingOp (msg : option (list Z)) : WireOp := pure_wire (λ _,
  match msg with Some msg => BulkString (Some msg) | None => SimpleString (B "PONG") end).

Definition EchoOp (msg : list Z) : WireOp := pure_wire (λ _, BulkString (Some msg)).

Definition DbSizeWire : WireOp := pure_wire (λ r,
  match r with
  | Ok (RInt count) => Integer count
  | Ok _ => Error (B "ERR: internal error: bad int result")
  | Err e => Error (B "ERR: " ++ db_error_text e)
  end).

(** ** DBSIZE *)

Definition DbSizeOp {T} `{!TxOps T} (now : Z) (prefix : list Z) : DbM T DbResult :=
  r ← prefix_iter now prefix;
  it ← try_kv r;
  match iter_err it with
  | Some e => fail (Kv e)
  | None => mret (RInt (Z.of_nat (length (iter_items it))))
  end.

(** ** The queued commands *)

Module Cmd.
Section Cmd.
Context {T : Type} `{!TxOps T}.

Definition sync : QueuedOp T := mkQueuedOp NoOp OkWire false false false None.
Definition lolwut (version commit : list Z) : QueuedOp T :=
  mkQueuedOp NoOp (LolwutWire version commit) false true false None.
Definition time (now_us : Z) : QueuedOp T := mkQueuedOp NoOp (TimeWire now_us) false true false None.
Definition module (args : list (list Z)) : QueuedOp T :=
  mkQueuedOp NoOp (ModuleWire args) false true false None.
Definition dbsize (s : Session T) : QueuedOp T :=
  mkQueuedOp (tx_op (λ now, DbSizeOp now (prefix s))) DbSizeWire false true false None.
Definition ok_op : QueuedOp T := mkQueuedOp NoOp OkWire true true false None.
Definition ping (msg : option (list Z)) : QueuedOp T :=
  mkQueuedOp NoOp (PingOp msg) false true false None.
Definition echo (msg : list Z) : QueuedOp T := mkQueuedOp NoOp (EchoOp msg) false true false None.
End Cmd.
End Cmd.

(** ** Theorems *)

(** DBSIZE returns the number of live entries whose key starts with the prefix of
    the current database, and changes nothing: expired entries and those of other
    databases do not count. *)
Theorem dbsize_spec T `{!TxOps T} (raw : T → gmap (list Z) Item) (ok : T → Prop) now prefix m :
  TxScanLaws T raw ok → clock_ok now → (∀ k i, m !! k = Some i → item_key i = k) →
  Runs (raw:=raw) (ok:=ok) (DbSizeOp now prefix) m
    (Ret (RInt (Z.of_nat (size (filter (λ ki, starts_with prefix ki.1 = true ∧ is_expired now ki.2 = false) m))))) m.
Proof.
  intros HT Hn Hkeys t Ht <-. destruct (tx_scan_law now prefix t Hn Ht) as (it & t' & E & Ht' & Hr & He & Hd & _).
  exists t'. split; [|done]. unfold DbSizeOp, mbind, DbM_bind, prefix_iter. rewrite E. simpl. rewrite He.
  unfold mret, DbM_ret. do 4 f_equal. apply (f_equal length) in Hd. rewrite !length_fmap in Hd. rewrite Hd.
  unfold scan_prefix, scan_where. rewrite (merge_sort_Permutation item_le).
  rewrite map_size_filter_list. apply length_filter_snd.
  intros k i Hki%elem_of_map_to_list. by rewrite (Hkeys k i Hki).
Qed.

Lemma dbsize_spec_witness :
  Runs (raw:=id) (ok:=λ _, True) (DbSizeOp 5 (B "0:"))
    (<[B "0:a" := mkItem (B "0:a") [] 0 None]> (<[B "1:b" := mkItem (B "1:b") [] 0 None]> ∅)) (Ret (RInt 1))
    (<[B "0:a" := mkItem (B "0:a") [] 0 None]> (<[B "1:b" := mkItem (B "1:b") [] 0 None]> ∅)).
Proof.
  assert (∀ k i, (<[B "0:a" := mkItem (B "0:a") [] 0 None]> (<[B "1:b" := mkItem (B "1:b") [] 0 None]> ∅)
    : gmap (list Z) Item) !! k = Some i → item_key i = k) as Hk.
  { intros k i. rewrite !lookup_insert. repeat case_decide; subst; by intros [= <-]. }
  exact (dbsize_spec (gmap (list Z) Item) id (λ _, True) 5 (B "0:")
    (<[B "0:a" := mkItem (B "0:a") [] 0 None]> (<[B "1:b" := mkItem (B "1:b") [] 0 None]> ∅))
    map_scan_laws clock_ok_5 Hk).
Defined.
