(* ===== verification/Commands.v ===== *)
(** * Command dispatch: src/redis/commands.rs

    [enqueue_command]: the MULTI/EXEC/DISCARD/WATCH lifecycle, the parsing of the
    connection, string and bitmap commands, and how a command is queued, rejected or
    run. The commands of the groups that are not modelled, the unknown-command error
    included, are the argument [other]. Integer arithmetic of the parsers wraps, as it
    does in a release build. *)
From S2P Require Import Prelude Bytes Resp Kv Registry Op Session.
From S2P Require Strings.
From S2P Require Bitmap.
From S2P Require Conn.
Import MapStore.

(** ** Errors *)

Definition wrong_args (name : list Z) : list Z :=
  B "ERR wrong number of arguments for '" ++ name ++ B "' command".
Definition not_an_integer : list Z := B "ERR value is not an integer or out of range".
Definition syntax_error : list Z := B "ERR syntax error".
Definition bad_expire : list Z := B "ERR invalid expire time in 'set' command".

Definition ErrorOp (msg : list Z) : WireOp := pure_wire (λ _, Error msg).
Definition OkOp : WireOp := pure_wire (λ _, ok_resp).

(** ** Options of SET *)

Record SetOpts : Type := mkSetOpts {
  so_ttl : option Z;
  so_mode : Strings.SetMode;
  so_get : bool;
  so_keepttl : bool;
  so_directive : option (list Z)
}.

Definition with_expiry (o : SetOpts) (ttl : Z) (directive : list Z) : SetOpts :=
  mkSetOpts (Some ttl) (so_mode o) (so_get o) (so_keepttl o) (Some directive).
Definition with_mode (o : SetOpts) (m : Strings.SetMode) : SetOpts :=
  mkSetOpts (so_ttl o) m (so_get o) (so_keepttl o) (so_directive o).

(** The TTL an expiry directive asks for at time [now]; [ts * 1000] and the difference
    wrap at 64 bits. *)
Definition expiry_ttl (now : Z) (directive : list Z) (v : Z) : Z :=
  if bool_decide (directive = B "EX") then from_secs v
  else if bool_decide (directive = B "PX") then from_millis v
  else
    let ms := if bool_decide (directive = B "EXAT") then as_i64 (v * 1000) else v in
    let remaining := as_i64 (ms - now) in
    if remaining <=? 0 then 0 else from_millis remaining.

Definition expiry_directives : list (list Z) := [B "EX"; B "PX"; B "EXAT"; B "PXAT"].

Fixpoint set_parse (now : Z) (args : list (list Z)) (o : SetOpts) : result SetOpts (list Z) :=
  match args with
  | [] => Ok o
  | a :: args' =>
      let opt := uppercase a in
      if bool_decide (opt ∈ expiry_directives) then
        match args' with
        | [] => Err syntax_error
        | v :: args'' =>
            match parse_i64 v with
            | None => Err not_an_integer
            | Some n =>
                if n <=? 0 then Err bad_expire
                else set_parse now args'' (with_expiry o (expiry_ttl now opt n) opt)
            end
        end
      else if bool_decide (opt = B "NX") then
        if bool_decide (so_mode o = Strings.Xx) then Err syntax_error
        else set_parse now args' (with_mode o Strings.Nx)
      else if bool_decide (opt = B "XX") then
        if bool_decide (so_mode o = Strings.Nx) then Err syntax_error
        else set_parse now args' (with_mode o Strings.Xx)
      else if bool_decide (opt = B "KEEPTTL") then
        match so_directive o with
        | Some directive => Err (B "ERR KEEPTTL and " ++ directive ++ B " are incompatible")
        | None => set_parse now args' (mkSetOpts (so_ttl o) (so_mode o) (so_get o) true (so_directive o))
        end
      else if bool_decide (opt = B "GET") then
        set_parse now args' (mkSetOpts (so_ttl o) (so_mode o) true (so_keepttl o) (so_directive o))
      else Err (B "ERR unknown option '" ++ from_utf8_lossy opt ++ B "' in 'set' command")
  end.

Section Commands.
Context {T : Type} `{!TxOps T}.
Implicit Types (s : Session T) (args : list (list Z)).

Definition ok : QueuedOp T := mkQueuedOp NoOp OkOp false true false None.

(** [error_op]: the error as a queued command; inside MULTI it dooms the transaction. *)
Definition error_op s (msg : list Z) : QueuedOp T * Session T :=
  (mkQueuedOp NoOp (ErrorOp msg) false true true None, if in_multi s then mark_dirty s else s).

(** [error]: the same for an immediate reply. *)
Definition error s (msg : list Z) : RespValue * Session T :=
  (Error msg, if in_multi s then mark_dirty s else s).

(** ** Parsing, per command *)

Definition set_cmd (now : Z) s args : result (QueuedOp T) (list Z) :=
  match args with
  | key :: value :: opts =>
      match set_parse now opts (mkSetOpts None Strings.SetAlways false false None) with
      | Ok o => Ok (Strings.Cmd.set_full s key value (so_ttl o) (so_mode o) (so_get o) (so_keepttl o))
      | Err e => Err e
      end
  | _ => Err (wrong_args (B "set"))
  end.

(** [SETEX] and [PSETEX], [SUBSTR] and [GETRANGE], the INCR family. *)
Definition setex_cmd (name : list Z) (make : Session T → list Z → list Z → Z → QueuedOp T) s args
  : result (QueuedOp T) (list Z) :=
  match args with
  | [key; n; value] =>
      match parse_i64 n with Some n => Ok (make s key value n) | None => Err not_an_integer end
  | _ => Err (wrong_args name)
  end.

Definition substr_cmd (name : list Z) s args : result (QueuedOp T) (list Z) :=
  match args with
  | [key; a; b] =>
      match parse_i64 a with
      | None => Err not_an_integer
      | Some start =>
          match parse_i64 b with
          | None => Err not_an_integer
          | Some end0 => Ok (Strings.Cmd.substr s key start end0)
          end
      end
  | _ => Err (wrong_args name)
  end.

Definition incrby_cmd (name : list Z) (sign : Z) s args : result (QueuedOp T) (list Z) :=
  match args with
  | [key; n] =>
      match parse_i64 n with
      | Some amount => Ok (Strings.Cmd.increment s key (as_i64 (sign * amount)))
      | None => Err not_an_integer
      end
  | _ => Err (wrong_args name)
  end.

Definition one_key_cmd (name : list Z) (make : Session T → list Z → QueuedOp T) s args
  : result (QueuedOp T) (list Z) :=
  match args with [key] => Ok (make s key) | _ => Err (wrong_args name) end.

Definition pair_cmd (name : list Z) (make : Session T → list Z → list Z → QueuedOp T) s args
  : result (QueuedOp T) (list Z) :=
  match args with [key; value] => Ok (make s key value) | _ => Err (wrong_args name) end.

(** [args.len() < 3 || !(args.len() - 1).is_multiple_of(2)], the name included in [len]. *)
Definition mset_cmd (name : list Z) (make : Session T → list (list Z) → QueuedOp T) s args
  : result (QueuedOp T) (list Z) :=
  if (length args <? 2)%nat || Nat.odd (length args) then Err (wrong_args name) else Ok (make s args).

Definition getex_cmd s args : result (QueuedOp T) (list Z) :=
  match args with key :: opts => Ok (Strings.Cmd.get_ex s key opts) | [] => Err (wrong_args (B "getex")) end.

Definition setrange_cmd s args : result (QueuedOp T) (list Z) :=
  match args with
  | [key; off; value] =>
      match parse_i64 off with
      | None => Err not_an_integer
      | Some offset =>
          if offset <? 0 then Err (B "ERR offset is out of range")
          else Ok (Strings.Cmd.set_range s key offset value)
      end
  | _ => Err (wrong_args (B "setrange"))
  end.

Definition bad_bit_offset : list Z := B "ERR bit offset is not an integer or out of range".
Definition bad_bit : list Z := B "ERR bit is not an integer or out of range".

Definition setbit_cmd s args : result (QueuedOp T) (list Z) :=
  match args with
  | [key; off; v] =>
      match parse_i64 off with
      | None => Err not_an_integer
      | Some offset =>
          if offset <? 0 then Err bad_bit_offset
          else match parse_i64 v with
               | None => Err not_an_integer
               | Some value =>
                   if negb (value =? 0) && negb (value =? 1) then Err bad_bit
                   else Ok (Bitmap.Cmd.set_bit s key offset value)
               end
      end
  | _ => Err (wrong_args (B "setbit"))
  end.

Definition getbit_cmd s args : result (QueuedOp T) (list Z) :=
  match args with
  | [key; off] =>
      match parse_i64 off with
      | None => Err not_an_integer
      | Some offset =>
          if offset <? 0 then Err bad_bit_offset else Ok (Bitmap.Cmd.get_bit s key offset)
      end
  | _ => Err (wrong_args (B "getbit"))
  end.

(** The optional [start], [end] and unit arguments of BITCOUNT and BITPOS: what was
    given, the values (0 when absent) and whether the unit is bits. *)
Definition parse_unit (args : list (list Z)) : result bool (list Z) :=
  match args with
  | [] => Ok false
  | [u] =>
      if bool_decide (lowercase u = B "bit") then Ok true
      else if bool_decide (lowercase u = B "byte") then Ok false
      else Err syntax_error
  | _ => Err syntax_error
  end.

Definition parse_range (args : list (list Z)) : result (bool * bool * Z * Z * bool) (list Z) :=
  match args with
  | [] => Ok (false, false, 0, 0, false)
  | a :: args' =>
      match parse_i64 a with
      | None => Err not_an_integer
      | Some start =>
          match args' with
          | [] => Ok (true, false, start, 0, false)
          | b :: args'' =>
              match parse_i64 b with
              | None => Err not_an_integer
              | Some end0 =>
                  match parse_unit args'' with
                  | Ok use_bit => Ok (true, true, start, end0, use_bit)
                  | Err e => Err e
                  end
              end
          end
      end
  end.

Definition bitcount_cmd s args : result (QueuedOp T) (list Z) :=
  match args with
  | key :: range =>
      match parse_range range with
      | Err e => Err e
      | Ok (start_given, end_given, start_val, end_val, use_bit) =>
          if negb (Bool.eqb start_given end_given) then Err syntax_error
          else Ok (Bitmap.Cmd.bit_count s key start_given end_given start_val end_val use_bit)
      end
  | [] => Err (wrong_args (B "bitcount"))
  end.

Definition bitpos_cmd s args : result (QueuedOp T) (list Z) :=
  match args with
  | key :: b :: range =>
      match parse_i64 b with
      | None => Err not_an_integer
      | Some bit =>
          if negb (bit =? 0) && negb (bit =? 1) then Err bad_bit
          else match parse_range range with
               | Err e => Err e
               | Ok (start_given, _, start_val, end_val, use_bit) =>
                   Ok (Bitmap.Cmd.bit_pos s key bit start_given start_val end_val use_bit)
               end
      end
  | _ => Err (wrong_args (B "bitpos"))
  end.

Definition bitop_cmd s args : result (QueuedOp T) (list Z) :=
  match args with
  | o :: dest :: src :: srcs =>
      match Bitmap.parse_bit_op o with
      | None => Err syntax_error
      | Some op =>
          if bool_decide (op = Bitmap.BNot) && negb (length srcs =? 0)%nat then Err (wrong_args (B "bitop"))
          else Ok (Bitmap.Cmd.bit_op s dest op (src :: srcs))
      end
  | _ => Err (wrong_args (B "bitop"))
  end.
End Commands.

(** ** Dispatch *)

Section Dispatch.
Context {T : Type} `{!TxOps T}.
Implicit Types (s : Session T) (args : list (list Z)).

(** The commands that only build an operation from their arguments. *)
Definition string_commands : list (list Z * (Z → Session T → list (list Z) → result (QueuedOp T) (list Z))) :=
  [ (B "setbit", λ _, setbit_cmd); (B "getbit", λ _, getbit_cmd);
    (B "bitcount", λ _, bitcount_cmd); (B "bitpos", λ _, bitpos_cmd); (B "bitop", λ _, bitop_cmd);
    (B "set", set_cmd);
    (B "get", λ _, one_key_cmd (B "get") Strings.Cmd.get);
    (B "setex", λ _, setex_cmd (B "setex") Strings.Cmd.set_ex);
    (B "psetex", λ _, setex_cmd (B "psetex") Strings.Cmd.pset_ex);
    (B "getset", λ _, pair_cmd (B "getset") Strings.Cmd.get_set);
    (B "getdel", λ _, one_key_cmd (B "getdel") Strings.Cmd.get_del);
    (B "strlen", λ _, one_key_cmd (B "strlen") Strings.Cmd.strlen);
    (B "substr", λ _, substr_cmd (B "substr")); (B "getrange", λ _, substr_cmd (B "getrange"));
    (B "setnx", λ _, pair_cmd (B "setnx") Strings.Cmd.set_nx);
    (B "append", λ _, pair_cmd (B "append") Strings.Cmd.append);
    (B "getex", λ _, getex_cmd);
    (B "mset", λ _, mset_cmd (B "mset") Strings.Cmd.mset);
    (B "msetnx", λ _, mset_cmd (B "msetnx") Strings.Cmd.mset_nx);
    (B "setrange", λ _, setrange_cmd);
    (B "incr", λ _, one_key_cmd (B "incr") (λ s key, Strings.Cmd.increment s key 1));
    (B "incrby", λ _, incrby_cmd (B "incrby") 1);
    (B "decr", λ _, one_key_cmd (B "decr") (λ s key, Strings.Cmd.increment s key (-1)));
    (B "decrby", λ _, incrby_cmd (B "decrby") (-1)) ].

Fixpoint find_command {A} (name : list Z) (table : list (list Z * A)) : option A :=
  match table with
  | [] => None
  | (n, h) :: table' => if bool_decide (n = name) then Some h else find_command name table'
  end.

Definition select_cmd s args : QueuedOp T * Session T :=
  match args with
  | [db] =>
      match parse_i64 db with
      | Some n =>
          if 0 <=? n then
            let s := switch_db s (as_i32 n) in
            (if in_multi s then Conn.Cmd.ok_op else ok, s)
          else error_op s (B "ERR invalid DB index")
      | None => error_op s (B "ERR invalid DB index")
      end
  | _ => error_op s (wrong_args (B "select"))
  end.

Definition ping_cmd s args : QueuedOp T * Session T :=
  match args with
  | [] => (Conn.Cmd.ping None, s)
  | [msg] => (Conn.Cmd.ping (Some msg), s)
  | _ => error_op s (wrong_args (B "ping"))
  end.

Definition echo_cmd s args : QueuedOp T * Session T :=
  match args with
  | [msg] => (Conn.Cmd.echo msg, s)
  | _ => error_op s (wrong_args (B "echo"))
  end.

(** Builds the operation for a command; [other] handles the remaining command groups. *)
Definition dispatch_command (other : list Z → Session T → list (list Z) → QueuedOp T * Session T)
    (now : Z) s args : QueuedOp T * Session T :=
  match args with
  | [] => error_op s (B "ERR empty command")
  | n :: rest =>
      let name := lowercase n in
      if bool_decide (name = B "ping") then ping_cmd s rest
      else if bool_decide (name = B "echo") then echo_cmd s rest
      else if bool_decide (name = B "select") then select_cmd s rest
      else if bool_decide (name = B "sync") || bool_decide (name = B "psync") then (Conn.Cmd.sync, s)
      else if bool_decide (name = B "module") then (Conn.Cmd.module args, s)
      else if bool_decide (name = B "dbsize") then (Conn.Cmd.dbsize s, s)
      else if bool_decide (name = B "quit") then (ok, request_close s)
      else
        match find_command name string_commands with
        | Some handler =>
            match handler now s rest with
            | Ok op => (op, s)
            | Err msg => error_op s msg
            end
        | None => other name s args
        end
  end.
End Dispatch.

(** ** The lifecycle of a command *)

Section Lifecycle.
Context {S T : Type} `{!TxOps T, !StoreOps S T}.
Context (other : list Z → Session T → list (list Z) → QueuedOp T * Session T).
Context (env : nat → Env S) (clock : nat → Z).
Implicit Types (s : Session T) (w : World S) (args : list (list Z)).

(** [dispatch_noscript]: the commands that act on the session itself. [None] when the
    command is none of them. *)
Definition dispatch_noscript s w args : option (dispatch_end * Session T * World S) :=
  match args with
  | [] => let '(reply, s') := error s (B "ERR empty command") in Some (Replied [reply], s', w)
  | n :: rest =>
      let name := lowercase n in
      if bool_decide (name = B "multi") then
        if in_multi s then Some (Replied [Error (B "ERR MULTI calls can not be nested")], s, w)
        else Some (Replied [ok_resp], enter_multi s, w)
      else if bool_decide (name = B "exec") then
        match exit_multi s false with
        | Some s' => Some (dispatch_pending_ops env clock true s' w)
        | None => let '(reply, s') := error s (B "ERR EXEC without MULTI") in Some (Replied [reply], s', w)
        end
      else if bool_decide (name = B "discard") then
        match exit_multi s true with
        | Some s' => Some (Replied [ok_resp], s', w)
        | None => let '(reply, s') := error s (B "DISCARD without MULTI") in Some (Replied [reply], s', w)
        end
      else if bool_decide (name = B "watch") then
        if (length args <? 2)%nat then
          let '(reply, s') := error s (wrong_args (B "watch")) in Some (Replied [reply], s', w)
        else if in_multi s then Some (Replied [Error (B "ERR WATCH inside MULTI is not allowed")], s, w)
        else
          let '(s', w') := snapshot_and_watch (clock 0%nat) s w rest in Some (Replied [ok_resp], s', w')
      else if bool_decide (name = B "unwatch") then Some (Replied [ok_resp], unwatch s, w)
      else None
  end.

Definition is_error (r : RespValue) : bool := match r with Error _ => true | _ => false end.

Definition is_flush args : bool :=
  match args with
  | a :: _ => bool_decide (lowercase a = B "flushdb") || bool_decide (lowercase a = B "flushall")
  | [] => false
  end.

Definition enqueue_command s w args : dispatch_end * Session T * World S :=
  match dispatch_noscript s w args with
  | Some r => r
  | None =>
      let '(cmd, s) := dispatch_command other (clock 0%nat) s args in
      if in_multi s && abort_in_tx cmd then
        let '(reply, reg) := wire_op cmd (Ok RUnit) (w_registry w) in
        (Replied [reply], s, mkWorld (w_store w) reg)
      else if in_multi s && negb (allowed_in_tx cmd) then
        let '(reply, s) := error s (B "Command not allowed inside a transaction") in
        (Replied [reply], s, w)
      else
        let '(queued, s) := enqueue_op s cmd in
        let pre := match queued with Some r => [r] | None => [] end in
        match dispatch_pending_ops env clock false s w with
        | (Replied rs, s', w') =>
            let replies := pre ++ rs in
            let w'' := if is_flush args && negb (existsb is_error replies)
                       then mkWorld (w_store w') (bump_flush_epoch (w_registry w')) else w' in
            (Replied replies, s', w'')
        | r => r
        end
  end.
End Lifecycle.

(** ** Inside MULTI *)

(** A dispatched command is either a parse error, which dooms the transaction, or an
    operation, and then the MULTI state is untouched. *)
Definition dispatched_ok {T} (s : Session T) (r : QueuedOp T * Session T) : Prop :=
  (∃ msg, r = error_op s msg) ∨
  (abort_in_tx r.1 = false ∧ in_multi r.2 = in_multi s ∧ pending r.2 = pending s ∧
   dirty_exec r.2 = dirty_exec s).

(** What is asked of the handlers of the other command groups. *)
Definition handler_ok {T} (other : list Z → Session T → list (list Z) → QueuedOp T * Session T) : Prop :=
  ∀ name s args, dispatched_ok s (other name s args).

Section DispatchOk.
Context {T : Type} `{!TxOps T}.
Implicit Types (s : Session T) (args : list (list Z)).

Lemma error_op_ok s msg : dispatched_ok s (error_op s msg).
Proof. left. eauto. Qed.

Lemma plain_ok s op : abort_in_tx op = false → dispatched_ok s (op, s).
Proof. intros H. right. auto. Qed.

Lemma select_ok s args : dispatched_ok s (select_cmd s args).
Proof.
  destruct args as [|db [|]]; simpl; try apply error_op_ok.
  destruct (parse_i64 db) as [n|]; [|apply error_op_ok].
  destruct (0 <=? n); [|apply error_op_ok]. right. simpl. by destruct (in_multi s).
Qed.

Lemma ping_echo_ok s args : dispatched_ok s (ping_cmd s args) ∧ dispatched_ok s (echo_cmd s args).
Proof. destruct args as [|? [|]]; simpl; split; apply error_op_ok || by apply plain_ok. Qed.

(** No handler of the table builds an aborting operation. *)
Lemma string_commands_ok :
  Forall (λ e, ∀ now s args op, e.2 now s args = Ok op → abort_in_tx op = false) (string_commands (T:=T)).
Proof.
  unfold string_commands. repeat (apply Forall_cons; split); [..|constructor]; cbn [snd];
    intros now s args op; unfold setbit_cmd, getbit_cmd, bitcount_cmd, bitpos_cmd, bitop_cmd, set_cmd,
      one_key_cmd, setex_cmd, pair_cmd, substr_cmd, getex_cmd, mset_cmd, setrange_cmd, incrby_cmd;
    repeat case_match; intros [= <-]; done.
Qed.

Lemma find_command_Forall {A} (P : list Z * A → Prop) name table h :
  Forall P table → find_command name table = Some h → ∃ n, P (n, h).
Proof.
  induction 1 as [|[n h'] table Hp _ IH]; simpl; [done|].
  case_bool_decide; [intros [= ->]; eauto|apply IH].
Qed.

Lemma dispatch_command_ok other now s args :
  handler_ok other → dispatched_ok s (dispatch_command other now s args).
Proof.
  intros Ho. unfold dispatch_command. destruct args as [|n rest]; [apply error_op_ok|]. cbv zeta.
  destruct (bool_decide _); [apply ping_echo_ok|].
  destruct (bool_decide _); [apply ping_echo_ok|].
  destruct (bool_decide _); [apply select_ok|].
  destruct (bool_decide _ || _); [by apply plain_ok|].
  do 2 (destruct (bool_decide _); [by apply plain_ok|]).
  destruct (bool_decide _); [right; auto|].
  destruct (find_command (lowercase n) string_commands) as [h|] eqn:Ef; [|apply Ho].
  destruct (find_command_Forall _ _ _ _ string_commands_ok Ef) as [n' Hh].
  destruct (h now s rest) as [op|msg] eqn:Eh; [|apply error_op_ok]. apply plain_ok. by eapply Hh.
Qed.
End DispatchOk.

(** Commands that are not handled by [dispatch_noscript] and are not flushes. *)
Definition plain_command (args : list (list Z)) : Prop :=
  match args with
  | [] => False
  | n :: _ => lowercase n ∉ [B "multi"; B "exec"; B "discard"; B "watch"; B "unwatch"; B "flushdb"; B "flushall"]
  end.

Lemma plain_noscript {S T} `{!TxOps T, !StoreOps S T} env clock (s : Session T) (w : World S) args :
  plain_command args → dispatch_noscript env clock s w args = None.
Proof.
  destruct args as [|n rest]; [done|]. intros Hp. unfold dispatch_noscript. cbv zeta.
  repeat (rewrite bool_decide_eq_false_2; [|intros E; apply Hp; rewrite E; set_solver]). done.
Qed.

Lemma plain_not_flush args : plain_command args → is_flush args = false.
Proof.
  destruct args as [|n rest]; [done|]. intros Hp. unfold is_flush.
  rewrite !bool_decide_eq_false_2; [done|..]; intros E; apply Hp; rewrite E; set_solver.
Qed.

(** The commands of a transaction that only act on the session, and all that do not end it. *)
Definition session_only (args : list (list Z)) : bool :=
  match args with
  | [] => false
  | n :: _ => bool_decide (lowercase n = B "multi") || bool_decide (lowercase n = B "watch") || bool_decide (lowercase n = B "unwatch")
  end.
Definition inside_block (args : list (list Z)) : Prop :=
  match args with [] => True | n :: _ => lowercase n ∉ [B "exec"; B "discard"] end.
Definition block_reply (args : list (list Z)) : RespValue :=
  match args with
  | [] => SimpleString (B "QUEUED")
  | n :: _ =>
      if bool_decide (lowercase n = B "multi") then Error (B "ERR MULTI calls can not be nested")
      else if bool_decide (lowercase n = B "watch") then Error (B "ERR WATCH inside MULTI is not allowed")
      else if bool_decide (lowercase n = B "unwatch") then ok_resp
      else SimpleString (B "QUEUED")
  end.

Section Multi.
Context {S T : Type} `{!TxOps T, !StoreOps S T}.
Context (other : list Z → Session T → list (list Z) → QueuedOp T * Session T).
Context (env : nat → Env S) (clock : nat → Z).
Context (Hother : handler_ok other).
Implicit Types (s : Session T) (w : World S).

(** Feeds commands one after the other, collecting the replies. *)
Fixpoint feed s w (cmds : list (list (list Z))) : list dispatch_end * Session T * World S :=
  match cmds with
  | [] => ([], s, w)
  | c :: cmds' =>
      let '(e, s1, w1) := enqueue_command other env clock s w c in
      let '(es, s2, w2) := feed s1 w1 cmds' in
      (e :: es, s2, w2)
  end.

(** What a command adds to the queue of a transaction, and how it is answered when it does
    not doom it. MULTI, WATCH and UNWATCH act on the session and are not queued. *)
Definition block_ops s (args : list (list Z)) : list (QueuedOp T) :=
  if session_only args then [] else [fst (dispatch_command other (clock 0%nat) s args)].

Fixpoint queued_by s w (cmds : list (list (list Z))) : list (QueuedOp T) :=
  match cmds with
  | [] => []
  | c :: cmds' => let '(_, s1, w1) := enqueue_command other env clock s w c in block_ops s c ++ queued_by s1 w1 cmds'
  end.

(** Inside MULTI a command is queued or answered by the session, or it dooms the transaction. *)
Lemma enqueue_in_block s w args :
  in_multi s = true → inside_block args →
  ∃ e s' reg, enqueue_command other env clock s w args = (e, s', mkWorld (w_store w) reg) ∧ in_multi s' = true ∧
    (is_flush args = false → reg = w_registry w) ∧
    ((e = Replied [block_reply args] ∧ dirty_exec s' = dirty_exec s ∧ pending s' = pending s ++ block_ops s args) ∨
     ((∃ msg, e = Replied [Error msg]) ∧ dirty_exec s' = true)).
Proof.
  intros Hm Hp. unfold enqueue_command, block_ops, block_reply, session_only, inside_block, dispatch_noscript in *.
  destruct args as [|n rest].
  { unfold error, mark_dirty. rewrite Hm. eexists _, _, (w_registry w). split; [by destruct w|]. eauto 10. }
  cbv zeta. rewrite Hm. cbn [andb].
  rewrite (bool_decide_eq_false_2 (lowercase n = B "exec")), (bool_decide_eq_false_2 (lowercase n = B "discard")) by set_solver.
  destruct (bool_decide (lowercase n = B "multi")).
  { eexists _, _, (w_registry w). split; [by destruct w|]. rewrite app_nil_r. eauto 10. }
  destruct (bool_decide (lowercase n = B "watch")).
  { destruct (_ <? _)%nat.
    - unfold error, mark_dirty. rewrite Hm. eexists _, _, (w_registry w). split; [by destruct w|]. eauto 10.
    - eexists _, _, (w_registry w). split; [by destruct w|]. rewrite app_nil_r. eauto 10. }
  destruct (bool_decide (lowercase n = B "unwatch")).
  { eexists _, _, (w_registry w). split; [by destruct w|]. rewrite app_nil_r. eauto 10. }
  cbn [orb]. pose proof (dispatch_command_ok other (clock 0%nat) s (n :: rest) Hother) as Hd.
  destruct (dispatch_command other (clock 0%nat) s (n :: rest)) as [cmd s1].
  destruct Hd as [[msg Hmsg]|(Ha & Hm1 & Hp1 & Hd1)]; simpl in *.
  - unfold error_op in Hmsg. rewrite Hm in Hmsg. injection Hmsg as -> ->.
    unfold mark_dirty. rewrite Hm. simpl. eexists _, _, (w_registry w). split; [by destruct w|]. eauto 10.
  - rewrite Hm1, Hm, Ha. simpl. destruct (allowed_in_tx cmd); simpl.
    + unfold enqueue_op, dispatch_pending_ops. simpl. rewrite Hm1, Hm. simpl. rewrite andb_true_r.
      set (flush := bool_decide (lowercase n = B "flushdb") || _).
      eexists _, _, (if flush then bump_flush_epoch (w_registry w) else w_registry w).
      split; [destruct flush; [done|by destruct w]|]. simpl. rewrite Hm1, Hp1.
      split; [done|]. split; [by intros ->|]. left. eauto.
    + unfold error, mark_dirty. rewrite Hm1, Hm. eexists _, _, (w_registry w). split; [by destruct w|]. simpl. eauto 10.
Qed.

Lemma feed_in_multi s w cmds :
  in_multi s = true → Forall inside_block cmds →
  ∃ es s' reg, feed s w cmds = (es, s', mkWorld (w_store w) reg) ∧ in_multi s' = true ∧
    (Forall (λ c, is_flush c = false) cmds → reg = w_registry w) ∧
    ((dirty_exec s' = dirty_exec s ∧ es = (λ c, Replied [block_reply c]) <$> cmds ∧
      pending s' = pending s ++ queued_by s w cmds) ∨
     (dirty_exec s' = true ∧ (dirty_exec s = true ∨ Exists (λ e, ∃ msg, e = Replied [Error msg]) es))).
Proof.
  intros Hm Hc. revert s w Hm. induction Hc as [|c cmds Hc _ IH]; intros s w Hm; cbn [feed queued_by].
  { exists [], s, (w_registry w). split; [by destruct w|]. split; [done|]. split; [done|]. left. by rewrite app_nil_r. }
  destruct (enqueue_in_block s w c Hm Hc) as (e & s1 & reg1 & -> & Hm1 & Hr1 & Hcase).
  destruct (IH s1 (mkWorld (w_store w) reg1) Hm1) as (es & s2 & reg2 & -> & Hm2 & Hr2 & Hcase2).
  exists (e :: es), s2, reg2. split; [done|]. split; [done|].
  split; [intros [Hf Hfs]%Forall_cons; rewrite Hr2 by done; by apply Hr1|].
  destruct Hcase as [(-> & Hd1 & Hp1)|(He & Hd1)].
  - destruct Hcase2 as [(Hd2 & -> & Hl)|(Hd2 & Hor)].
    + left. rewrite Hd2, Hl, Hp1, <- app_assoc. done.
    + right. split; [done|]. rewrite Hd1 in Hor. destruct Hor; [by left|right; by apply Exists_cons_tl].
  - right. destruct Hcase2 as [(Hd2 & _)|(Hd2 & _)]; (split; [congruence|]); right; by apply Exists_cons_hd.
Qed.
End Multi.

(** ** Theorems *)

(** C4: a transaction is all or nothing from MULTI to EXEC. Whatever commands other than
    EXEC and DISCARD follow MULTI, none of them runs before EXEC: the store is untouched, and
    so is the registry unless one of them is FLUSHDB or FLUSHALL, which move its flush epoch
    when they are queued. Either the transaction is not doomed: then the queue holds exactly
    the operations the commands were parsed to, in order, and each was answered QUEUED, apart
    from UNWATCH (OK), a nested MULTI and WATCH (an error that dooms nothing), which are not
    queued. Or some command was answered with an error, and then EXEC replies EXECABORT, runs
    nothing and leaves the connection out of MULTI with an empty queue and WATCH set. *)
Theorem multi_all_or_nothing S T `{!TxOps T, !StoreOps S T} other env clock (s : Session T) (w : World S) cmds :
  handler_ok other → in_multi s = false → pending s = [] → Forall inside_block cmds →
  ∃ es s' reg,
    let w' := mkWorld (w_store w) reg in
    feed other env clock (enter_multi s) w cmds = (es, s', w') ∧
    (Forall (λ c, is_flush c = false) cmds → w' = w) ∧
    ((es = (λ c, Replied [block_reply c]) <$> cmds ∧ dirty_exec s' = false ∧
      pending s' = queued_by other env clock (enter_multi s) w cmds) ∨
     (Exists (λ e, ∃ msg, e = Replied [Error msg]) es ∧
      ∃ s'', enqueue_command other env clock s' w' [B "EXEC"] =
          (Replied [Error (B "EXECABORT Transaction discarded because of previous errors.")], s'', w') ∧
        pending s'' = [] ∧ in_multi s'' = false ∧ dirty_exec s'' = false ∧ watched_keys s'' = ∅)).
Proof.
  intros Ho Hm Hp Hc.
  destruct (feed_in_multi other env clock Ho (enter_multi s) w cmds eq_refl Hc)
    as (es & s' & reg & Hf & Hm' & Hr & Hcase).
  exists es, s', reg. split; [done|]. split; [intros Hfl; destruct w; simpl; f_equal; by apply Hr|].
  destruct Hcase as [(Hd & Hes & Hl)|(Hd & [Hd0|Hex])]; [|done|].
  - left. simpl in Hl. rewrite Hp in Hl. split_and!; [done|exact Hd|exact Hl].
  - right. split; [done|].
    exists (unwatch (with_multi (clear_queue (with_multi s' false (dirty_exec s'))) false false)).
    split; [|repeat split]. unfold enqueue_command, dispatch_noscript. cbv zeta.
    rewrite bool_decide_eq_false_2 by (vm_compute; discriminate).
    rewrite bool_decide_eq_true_2 by (vm_compute; reflexivity).
    unfold exit_multi. rewrite Hm'. unfold dispatch_pending_ops. simpl. rewrite Hd. reflexivity.
Qed.

(** A dispatcher with no other command group. *)
Definition no_other (name : list Z) (s : Session OccTx) (args : list (list Z)) : QueuedOp OccTx * Session OccTx :=
  error_op s (B "ERR unknown command '" ++ from_utf8_lossy name ++ B "'").

Lemma no_other_ok : handler_ok no_other.
Proof. intros name s args. apply error_op_ok. Qed.

Lemma multi_all_or_nothing_witness :
  ∃ es s', feed no_other quiet noon (enter_multi (session_new 1)) sample_world
      [[B "SET"; B "k"; B "v"]; [B "GET"]] = (es, s', sample_world) ∧
    ∃ s'', enqueue_command no_other quiet noon s' sample_world [B "EXEC"] =
      (Replied [Error (B "EXECABORT Transaction discarded because of previous errors.")], s'', sample_world).
Proof.
  destruct (multi_all_or_nothing _ _ no_other quiet noon (session_new 1) sample_world
    [[B "SET"; B "k"; B "v"]; [B "GET"]] no_other_ok eq_refl eq_refl) as (es & s' & reg & Hf & Hw & Hcase).
  - repeat constructor; apply (bool_decide_unpack _); vm_compute; exact I.
  - rewrite Hw in Hf, Hcase by (repeat constructor). exists es, s'. split; [exact Hf|].
    destruct Hcase as [(Hes & Hd & Hl)|(_ & s'' & He & _)].
    + assert (true = dirty_exec s') as Hd'.
      { etrans; [|exact (f_equal (λ r, dirty_exec (snd (fst r))) Hf)]. vm_compute. reflexivity. }
      rewrite Hd in Hd'. discriminate Hd'.
    + exists s''. exact He.
Defined.

(** Outside MULTI, one command on the optimistic store. *)
Lemma dispatch_single clock (s : Session OccTx) op m reg v t :
  in_multi s = false → pending s = [op] → watched_keys s = ∅ →
  run (db_op op) (clock 0%nat) (occ_begin Snapshot m) reg = ((Ret v, t), reg) → occ_base t = m →
  dispatch_pending_ops quiet clock false s (mkWorld m reg) =
    (Replied [fst (wire_op op (Ok v) (bump_versions reg (changed_keys [op])))],
     clear_queue (with_latest_write s (Some 1)),
     mkWorld (occ_map t) (snd (wire_op op (Ok v) (bump_versions reg (changed_keys [op]))))).
Proof.
  intros Hm Hp Hw Hr Hb. unfold dispatch_pending_ops, needs_ssi. rewrite Hm, Hp, Hw. cbn [andb].
  rewrite bool_decide_eq_true_2 by done. cbn [negb andb].
  unfold commit_loop, attempt, quiet. cbn [st_begin occ_store w_store w_registry andb].
  rewrite Hp. unfold apply_and_commit. cbn [run_ops w_store w_registry]. rewrite Hr. cbn [app st_commit occ_store w_store].
  rewrite <- Hb at 1. rewrite occ_valid_base, Hb, overlay_same. cbn [render w_registry w_store].
  by destruct (wire_op op (Ok v) _).
Qed.

Lemma enqueue_single other clock (s : Session OccTx) op m reg v t args :
  in_multi s = false → pending s = [] → watched_keys s = ∅ → plain_command args →
  dispatch_command other (clock 0%nat) s args = (op, s) →
  run (db_op op) (clock 0%nat) (occ_begin Snapshot m) reg = ((Ret v, t), reg) → occ_base t = m →
  ∃ s', enqueue_command other quiet clock s (mkWorld m reg) args =
    (Replied [fst (wire_op op (Ok v) (bump_versions reg (changed_keys [op])))], s',
     mkWorld (occ_map t) (snd (wire_op op (Ok v) (bump_versions reg (changed_keys [op]))))) ∧
    in_multi s' = false ∧ pending s' = [] ∧ watched_keys s' = ∅ ∧ current_db s' = current_db s.
Proof.
  intros Hm Hp Hw Hpl Hd Hr Hb. unfold enqueue_command. rewrite plain_noscript by done.
  rewrite Hd, Hm. cbn [andb]. unfold enqueue_op. rewrite Hp. cbn [app].
  rewrite (dispatch_single clock (with_queue s [op]) op m reg v t) by done. cbn [in_multi with_queue]. rewrite Hm.
  rewrite plain_not_flush by done. cbn [andb app]. eexists. split; [reflexivity|]. done.
Qed.

(** The same for a command that fails: the store is as before. *)
Lemma enqueue_failed other clock (s : Session OccTx) op m reg e t args :
  in_multi s = false → pending s = [] → watched_keys s = ∅ → plain_command args →
  dispatch_command other (clock 0%nat) s args = (op, s) →
  run (db_op op) (clock 0%nat) (occ_begin Snapshot m) reg = ((Fail e, t), reg) → e ≠ Kv Conflict →
  ∃ s', enqueue_command other quiet clock s (mkWorld m reg) args =
    (Replied [fst (wire_op op (Err e) reg)], s', mkWorld m (snd (wire_op op (Err e) reg))) ∧
    in_multi s' = false ∧ pending s' = [] ∧ watched_keys s' = ∅ ∧ current_db s' = current_db s.
Proof.
  intros Hm Hp Hw Hpl Hd Hr He. unfold enqueue_command. rewrite plain_noscript by done.
  rewrite Hd, Hm. cbn [andb]. unfold enqueue_op. rewrite Hp. cbn [app].
  unfold dispatch_pending_ops, needs_ssi. cbn [in_multi with_queue pending watched_keys]. rewrite Hm, Hw. cbn [andb].
  rewrite bool_decide_eq_true_2 by done. cbn [negb andb].
  unfold commit_loop, attempt, quiet. cbn [st_begin occ_store w_store w_registry andb pending with_queue].
  unfold apply_and_commit. cbn [run_ops w_store w_registry]. rewrite Hr.
  assert (∀ A (x y : A), match e with Kv Conflict => x | _ => y end = y) as Hmatch by (intros; by destruct e as [[]| | |]).
  rewrite Hmatch. cbn [released discarded st_discard occ_store w_store w_registry release_claims].
  destruct (wire_op op (Err e) reg) as [reply reg']. rewrite plain_not_flush by done.
  cbn [andb app fst snd w_store w_registry]. eexists. split; [reflexivity|]. done.
Qed.

(** End to end on an optimistic store. A connection outside MULTI that sends SET
    and then GET gets +OK and then the value back, whatever the store held before and
    whatever database it has selected, and the SET changes exactly that key. *)
Theorem set_get_commands (clock : nat → Z) (s : Session OccTx) (m : gmap (list Z) Item) reg key value :
  clock_ok (clock 0%nat) → in_multi s = false → pending s = [] → watched_keys s = ∅ → store_ok m →
  ∃ s' w',
    enqueue_command no_other quiet clock s (mkWorld m reg) [B "SET"; key; value] =
      (Replied [SimpleString (B "OK")], s', w') ∧
    w_store w' = <[public_key s key := mkItem (public_key s key) value 0 None]> m ∧
    fst (fst (enqueue_command no_other quiet clock s' w' [B "GET"; key])) =
      Replied [BulkString (Some value)].
Proof.
  intros Hclock Hm Hp Hw Hok. set (k := public_key s key). set (m1 := <[k := mkItem k value 0 None]> m).
  pose proof (store_tx_laws (StoreLaws:=occ_laws) (mkStart m Snapshot ∅)) as HT.
  assert (∀ m, occ_ok (mkStart m Snapshot ∅) (occ_begin Snapshot m)) as Hbegin by (by intros; split_and!).
  destruct (Strings.runs_SetOp (raw:=occ_map) (ok:=occ_ok (mkStart m Snapshot ∅)) (clock 0%nat) k value None Strings.SetAlways
    false false m Hclock Hok I (occ_begin Snapshot m) (Hbegin m) eq_refl) as (t & Et & (Hb & _) & Hr).
  destruct (enqueue_single no_other clock s (Strings.Cmd.set_full s key value None Strings.SetAlways false false) m reg
    (RSet true (item_value <$> live (clock 0%nat) k m)) t [B "SET"; key; value]) as (s' & E1 & Hm' & Hp' & Hw' & Hdb);
    try done.
  { apply (bool_decide_unpack _). vm_compute. exact I. }
  { unfold Strings.Cmd.set_full. cbn [db_op run tx_op]. fold k. by rewrite Et. }
  eexists s', _. split; [exact E1|]. split; [exact Hr|].
  pose proof (store_tx_laws (StoreLaws:=occ_laws) (mkStart m1 Snapshot ∅)) as HT1.
  assert (∃ t1, Strings.GetOp (clock 0%nat) k (occ_begin Snapshot m1) = (Ret (ROptBytes (Some value)), t1) ∧
    occ_base t1 = m1) as (t1 & Et1 & Hb1).
  { destruct (Strings.runs_read_string (raw:=occ_map) (ok:=occ_ok (mkStart m1 Snapshot ∅)) Hclock k m1
      (occ_begin Snapshot m1) (Hbegin m1) eq_refl) as (t1 & Et1 & (Hb1 & _) & _).
    exists t1. split; [|done]. unfold Strings.GetOp, mbind, DbM_bind. rewrite Et1.
    unfold Strings.string_at. rewrite (proj2 (live_Some _ _ _ (mkItem k value 0 None))); [done|].
    split; [apply lookup_insert_eq|done]. }
  assert (occ_map t = m1) as -> by exact Hr.
  match goal with |- context [mkWorld m1 ?r] => set (reg1 := r) end.
  destruct (enqueue_single no_other clock s' (Strings.Cmd.get s' key) m1 reg1 (ROptBytes (Some value)) t1 [B "GET"; key])
    as (s'' & E2 & _); try done.
  { apply (bool_decide_unpack _). vm_compute. exact I. }
  { unfold Strings.Cmd.get. cbn [db_op run tx_op].
    replace (public_key s' key) with k by (unfold k, public_key, prefix; by rewrite Hdb).
    rewrite Et1. reflexivity. }
  rewrite E2. reflexivity.
Qed.

Lemma set_get_commands_witness :
  ∃ s' w',
    enqueue_command no_other quiet noon (session_new 1) sample_world [B "SET"; B "k"; B "v"] =
      (Replied [SimpleString (B "OK")], s', w') ∧
    fst (fst (enqueue_command no_other quiet noon s' w' [B "GET"; B "k"])) =
      Replied [BulkString (Some (B "v"))].
Proof.
  destruct (set_get_commands noon (session_new 1) ∅ registry_new (B "k") (B "v") clock_ok_5 eq_refl eq_refl eq_refl
    store_ok_empty) as (s' & w' & H1 & _ & H2).
  exists s', w'. split; [exact H1|exact H2].
Defined.

(** ** Where the parsers depart from Redis *)

(** [SELECT] truncates its argument to 32 bits, so a large index selects a negative
    database, whose public keys are the private keys of another one. *)
Theorem select_wraps_negative (s : Session OccTx) :
  current_db (snd (select_cmd s [B "4294967295"])) = -1.
Proof. reflexivity. Qed.

(** [BITPOS key bit start] without an end searches only up to byte 0: the end that was
    not given counts as 0, not as the end of the value. *)
Theorem bitpos_start_only (s : Session OccTx) :
  bitpos_cmd s [B "b"; B "1"; B "1"] = Ok (Bitmap.Cmd.bit_pos s (B "b") 1 true 1 0 false) ∧
  Bitmap.bit_pos_of [0; 255] 1 true 1 0 false = -1.
Proof. split; reflexivity. Qed.

(** KEEPTTL after EX is rejected, EX after KEEPTTL is accepted and ignored. *)
Theorem keepttl_order_matters now :
  is_err (set_parse now [B "EX"; B "10"; B "KEEPTTL"] (mkSetOpts None Strings.SetAlways false false None)) = true ∧
  is_err (set_parse now [B "KEEPTTL"; B "EX"; B "10"] (mkSetOpts None Strings.SetAlways false false None)) = false.
Proof. split; reflexivity. Qed.

(** A deadline in the past gives SET a zero TTL, which stores the key without expiry. *)
Theorem set_past_deadline_persists now ts :
  1000 * ts ≤ now → 0 < ts → in_i64 (1000 * ts) → in_i64 (1000 * ts - now) →
  Strings.expiry_of now (Some (expiry_ttl now (B "EXAT") ts)) = None.
Proof.
  intros Hpast Hts Hr1 Hr2. unfold expiry_ttl. cbn [bool_decide decide_rel].
  change (if bool_decide (B "EXAT" = B "EX") then ?x else ?y) with y.
  replace (ts * 1000) with (1000 * ts) by lia.
  change (bool_decide (B "EXAT" = B "EX")) with false. change (bool_decide (B "EXAT" = B "PX")) with false.
  change (bool_decide (B "EXAT" = B "EXAT")) with true. cbv iota zeta.
  rewrite (as_i64_id (1000 * ts)), as_i64_id by done.
  destruct (Z.leb_spec (1000 * ts - now) 0); [done|lia].
Qed.
