(* ===== verification/Listener.v ===== *)
(** * The connection loop: src/redis/listener.rs

    [loop_pass] is one pass of the loop of [handle_connection]. A connection that has
    subscriptions waits for a message of one of them or for a request, and takes messages
    first; any other connection reads requests and runs them through [enqueue_command].
    Handlers run in the monad [IO] over the connection's session and subscriptions, the
    shared store and registries, and the socket: frames written so far, and how many more
    the socket accepts before a write fails. A failed write ends the handler, and the
    connection with it ([?] in the source).

    [server_step] puts connections side by side: clients connect, the loop of any of them
    makes a pass, messages are published, and a connection that ends drops what it holds.
    A stream only ends when its registry entry is gone, which no sequence of these steps
    brings about; ended streams are therefore left out, and so is the arm that gives up a
    parked command when its client hangs up. *)
From S2P Require Import Prelude Bytes Resp Pattern Kv Registry Op PubSub Namespace Session Conn Commands.

(** ** Handlers *)

(** What the loop waits for: a message of a subscription, or the next request frame
    ([None]: the client closed the connection; [Some None]: a protocol error). *)
Inductive Input : Type :=
| Push (k : SubKind) (name : list Z)
| Frame (f : option (option RespValue)).

Section Listener.
Context {S T : Type} `{!TxOps T, !StoreOps S T}.
Context {Chan Rx : Type} `{!Broadcast Chan Rx} `{!Iteration}.
Context (other : list Z → Session T → list (list Z) → QueuedOp T * Session T).
Context (env : nat → Env S) (clock : nat → Z).
Context (between : PubSubRegistry Chan → PubSubRegistry Chan).

Record St : Type := mkSt {
  session : Session T;
  subs : ConnectionSubs Rx;
  world : World S;
  hub : PubSubRegistry Chan;
  sent : list RespValue;
  accepts : option nat
}.

Definition IO (A : Type) : Type := St → option A * St.
#[local] Instance IO_ret : MRet IO := λ A a st, (Some a, st).
#[local] Instance IO_bind : MBind IO := λ A C k m st,
  match m st with
  | (Some a, st') => k a st'
  | (None, st') => (None, st')
  end.

(** [framed.send(v).await?]. *)
Definition send (v : RespValue) : IO () := λ st,
  match accepts st with
  | Some O => (None, st)
  | Some (Datatypes.S n) => (Some (), mkSt (session st) (subs st) (world st) (hub st) (sent st ++ [v]) (Some n))
  | None => (Some (), mkSt (session st) (subs st) (world st) (hub st) (sent st ++ [v]) None)
  end.

(** [let _ = framed.send(v).await]. *)
Definition send_anyway (v : RespValue) : IO () := λ st, (Some (), snd (send v st)).

Fixpoint for_each {A} (l : list A) (body : A → IO ()) : IO () :=
  match l with
  | [] => mret ()
  | x :: l' => body x ≫= λ _, for_each l' body
  end.

(** Access to the connection's parts. *)
Definition with_subs {A} (f : ConnectionSubs Rx → PubSubRegistry Chan → A * ConnectionSubs Rx * PubSubRegistry Chan)
  : IO A := λ st,
  let '(a, s, h) := f (subs st) (hub st) in
  (Some a, mkSt (session st) s (world st) h (sent st) (accepts st)).
Definition get_total : IO nat := λ st, (Some (total (subs st)), st).
Definition get_session : IO (Session T) := λ st, (Some (session st), st).
Definition close_requested : IO () := λ st,
  (Some (), mkSt (request_close (session st)) (subs st) (world st) (hub st) (sent st) (accepts st)).
Definition stream_keys (k : SubKind) : IO (list (list Z)) := λ st, (Some (iter (streams k (subs st))).*1, st).

Definition unsubscribe_everything : IO () :=
  with_subs (unsubscribe_all_channels between) ≫= λ _,
  with_subs (unsubscribe_all_patterns between) ≫= λ _, mret ().

(** *** SUBSCRIBE and UNSUBSCRIBE *)

Definition handle_subscribe (channels : list (list Z)) (use_ssubscribe_frame : bool) : IO () :=
  for_each channels (λ ch,
    with_subs (subscribe_channel ch) ≫= λ _,
    get_total ≫= λ total,
    send ((if use_ssubscribe_frame then ssubscribe_resp else subscribe_resp) ch total)).

Definition handle_psubscribe (patterns : list (list Z)) : IO () :=
  for_each patterns (λ pat,
    with_subs (subscribe_pattern pat) ≫= λ _,
    get_total ≫= λ total,
    send (psubscribe_resp pat total)).

Definition null_frame (kind : list Z) : RespValue :=
  Array (Some [BulkString (Some kind); BulkString None; Integer 0]).

Definition handle_unsubscribe (channels : list (list Z)) (use_sunsubscribe_frame : bool) : IO () :=
  let one ch :=
    with_subs (unsubscribe_channel between ch) ≫= λ _,
    get_total ≫= λ total,
    send ((if use_sunsubscribe_frame then sunsubscribe_resp else unsubscribe_resp) ch total) in
  match channels with
  | [] =>
      stream_keys Channel ≫= λ all,
      match all with
      | [] => send (null_frame (if use_sunsubscribe_frame then B "sunsubscribe" else B "unsubscribe"))
      | _ => for_each all one
      end
  | _ => for_each channels one
  end.

Definition handle_punsubscribe (patterns : list (list Z)) : IO () :=
  let one pat :=
    with_subs (unsubscribe_pattern between pat) ≫= λ _,
    get_total ≫= λ total,
    send (punsubscribe_resp pat total) in
  match patterns with
  | [] =>
      stream_keys Pattern ≫= λ all,
      match all with
      | [] => send (null_frame (B "punsubscribe"))
      | _ => for_each all one
      end
  | _ => for_each patterns one
  end.

Definition not_in_subscribe_mode : RespValue :=
  Error (B "ERR only (P|S)SUBSCRIBE / (P|S)UNSUBSCRIBE / PING / QUIT are allowed in this context").

(** The lower-cased command name; empty for an empty request. *)
Definition command_name (args : list (list Z)) : list Z :=
  match args with a :: _ => lowercase a | [] => [] end.

(** [true]: the connection is to be closed. *)
Definition handle_subscribe_mode_command (args : list (list Z)) : IO bool :=
  let name := command_name args in
  let rest := tail args in
  if bool_decide (name = B "subscribe") then handle_subscribe rest false ≫= λ _, mret false
  else if bool_decide (name = B "ssubscribe") then handle_subscribe rest true ≫= λ _, mret false
  else if bool_decide (name = B "psubscribe") then handle_psubscribe rest ≫= λ _, mret false
  else if bool_decide (name = B "unsubscribe") then handle_unsubscribe rest false ≫= λ _, mret false
  else if bool_decide (name = B "sunsubscribe") then handle_unsubscribe rest true ≫= λ _, mret false
  else if bool_decide (name = B "punsubscribe") then handle_punsubscribe rest ≫= λ _, mret false
  else if bool_decide (name = B "ping") then
    send (Array (Some [bulk (B "pong"); bulk (default [] (args !! 1%nat))])) ≫= λ _, mret false
  else if bool_decide (name = B "quit") then send (SimpleString (B "OK")) ≫= λ _, mret true
  else if bool_decide (name = B "reset") then
    unsubscribe_everything ≫= λ _,
    close_requested ≫= λ _,
    send (SimpleString (B "RESET")) ≫= λ _, mret false
  else send not_in_subscribe_mode ≫= λ _, mret false.

(** ** Requests *)

Fixpoint extract_args (elements : list RespValue) : option (list (list Z)) :=
  match elements with
  | [] => Some []
  | BulkString (Some bytes) :: rest | SimpleString bytes :: rest => cons bytes <$> extract_args rest
  | _ :: _ => None
  end.

Definition bad_arguments : RespValue := Error (B "ERR command arguments must be bulk strings").
Definition not_an_array : RespValue := Error (B "ERR expected a request array").
Definition protocol_error : RespValue := Error (B "ERR protocol error").

(** [enqueue_command(&mut session, &args).await]; a panic ends the task. *)
Definition enqueue (args : list (list Z)) : IO (list RespValue) := λ st,
  let '(r, s', w') := enqueue_command other env clock (session st) (world st) args in
  let st' := mkSt s' (subs st) w' (hub st) (sent st) (accepts st) in
  match r with
  | Replied replies => (Some replies, st')
  | Panicked | OutOfFuel => (None, st')
  end.

Definition subscribe_family : list (list Z) :=
  [B "subscribe"; B "psubscribe"; B "ssubscribe"; B "unsubscribe"; B "punsubscribe"; B "sunsubscribe"].

(** A request outside subscribe mode; [true]: the connection is to be closed. *)
Definition handle_request (args : list (list Z)) : IO bool :=
  let name := command_name args in
  let rest := tail args in
  get_session ≫= λ s,
  if bool_decide (name ∈ subscribe_family) && in_multi s then
    enqueue args ≫= λ replies, for_each replies send ≫= λ _, mret false
  else if bool_decide (name = B "subscribe") then handle_subscribe rest false ≫= λ _, mret false
  else if bool_decide (name = B "psubscribe") then handle_psubscribe rest ≫= λ _, mret false
  else if bool_decide (name = B "ssubscribe") then handle_subscribe rest true ≫= λ _, mret false
  else if bool_decide (name ∈ subscribe_family) then
    send (null_frame (if bool_decide (name = B "punsubscribe") then B "punsubscribe"
                      else if bool_decide (name = B "sunsubscribe") then B "sunsubscribe"
                      else B "unsubscribe")) ≫= λ _, mret false
  else
    enqueue args ≫= λ replies,
    for_each replies send ≫= λ _,
    get_session ≫= λ s, mret (should_close s).

(** *** One pass of the loop *)

(** A message for a subscription. *)
Definition push_frame (k : SubKind) (name : list Z) (m : PubSubMsg) : RespValue :=
  match k with
  | Channel => message_resp (msg_channel m) (msg_payload m)
  | Pattern => pmessage_resp name (msg_channel m) (msg_payload m)
  end.

(** [StreamMap::next] yields the next item of the stream at a key. *)
Definition next_item (k : SubKind) (name : list Z) : IO (option Recv) :=
  with_subs (λ s h,
    match streams k s !! name with
    | Some lr => let '(item, h') := poll_rx lr h in (item, s, h')
    | None => (None, s, h)
    end).

Definition in_subscribe_mode (i : Input) : IO bool :=
  match i with
  | Push k name =>
      next_item k name ≫= λ item,
      match item with
      | Some (Received m) => send (push_frame k name m) ≫= λ _, mret false
      | Some (Lagged _) | None => mret false
      end
  | Frame None => unsubscribe_everything ≫= λ _, mret true
  | Frame (Some None) => send_anyway protocol_error ≫= λ _, unsubscribe_everything ≫= λ _, mret true
  | Frame (Some (Some (Array (Some elements)))) =>
      match extract_args elements with
      | None => send bad_arguments ≫= λ _, mret false
      | Some args =>
          handle_subscribe_mode_command args ≫= λ should_close,
          if should_close : bool then unsubscribe_everything ≫= λ _, mret true else mret false
      end
  | Frame (Some (Some _)) => send not_an_array ≫= λ _, mret false
  end.

Definition in_normal_mode (i : Input) : IO bool :=
  match i with
  | Push _ _ => mret false
  | Frame None => mret true
  | Frame (Some None) => send_anyway protocol_error ≫= λ _, mret true
  | Frame (Some (Some (Array (Some elements)))) =>
      match extract_args elements with
      | None => send bad_arguments ≫= λ _, mret false
      | Some args => handle_request args
      end
  | Frame (Some (Some _)) => send not_an_array ≫= λ _, mret false
  end.

(** [true]: the handler returns. *)
Definition loop_pass (i : Input) : IO bool := λ st,
  if is_subscribed (subs st) then in_subscribe_mode i st else in_normal_mode i st.

(** *** What the [biased] selection takes *)

Definition ready (k : SubKind) (name : list Z) (st : St) : bool :=
  match streams k (subs st) !! name with
  | Some lr => bool_decide (is_Some (fst (bc_recv lr.2 (chan_at (hub st) lr.1))))
  | None => false
  end.

Definition any_ready (k : SubKind) (st : St) : bool :=
  existsb (λ e, ready k e.1 st) (map_to_list (streams k (subs st))).

(** Messages of channels come before messages of patterns, and these before requests. *)
Definition enabled (i : Input) (st : St) : bool :=
  match i with
  | Push Channel name => ready Channel name st
  | Push Pattern name => negb (any_ready Channel st) && ready Pattern name st
  | Frame _ => negb (any_ready Channel st) && negb (any_ready Pattern st)
  end.

(** ** The server *)

Record Server : Type := mkServer {
  sv_world : World S;
  sv_hub : PubSubRegistry Chan;
  sv_conns : gmap Z (Session T * ConnectionSubs Rx)
}.

(** A client connects; the loop of a connection makes a pass, during which its socket
    accepts so many frames ([None]: all of them); a PUBLISH is executed. *)
Inductive Event : Type :=
| Connect (c : Z)
| Pass (c : Z) (i : Input) (frames : option nat)
| Publish (channel payload : list Z).

Definition server_new (w : World S) : Server := mkServer w hub_new ∅.

(** [RedisListener::spawn_conn] and the start of [handle_connection]. *)
Definition spawn_conn (retries : nat) (c : Z) (sv : Server) : Server :=
  match sv_conns sv !! c with
  | Some _ => sv
  | None =>
      mkServer (sv_world sv) (sv_hub sv)
        (<[c := (set_conflict_retry_count (session_new c) retries, subs_new)]> (sv_conns sv))
  end.

(** A pass for a connection; when its handler returns, its receivers are dropped. *)
Definition conn_pass (c : Z) (i : Input) (frames : option nat) (sv : Server) : Server :=
  match sv_conns sv !! c with
  | None => sv
  | Some (se, su) =>
      let st := mkSt se su (sv_world sv) (sv_hub sv) [] frames in
      if negb (enabled i st) then sv
      else
        match loop_pass i st with
        | (Some false, st') =>
            mkServer (world st') (hub st') (<[c := (session st', subs st')]> (sv_conns sv))
        | (_, st') =>
            mkServer (world st') (drop_subs (subs st') (hub st')) (delete c (sv_conns sv))
        end
  end.

Definition server_step (retries : nat) (sv : Server) (e : Event) : Server :=
  match e with
  | Connect c => spawn_conn retries c sv
  | Pass c i frames => conn_pass c i frames sv
  | Publish channel payload =>
      mkServer (sv_world sv) (snd (PublishWireOp channel payload (Ok RUnit) (sv_hub sv))) (sv_conns sv)
  end.

Definition server_run (retries : nat) (sv : Server) (es : list Event) : Server :=
  fold_left (server_step retries) es sv.

(** The subscriptions of all connections. *)
Definition client_subs (sv : Server) : gmap Z (ConnectionSubs Rx) := snd <$> sv_conns sv.
End Listener.

Arguments St : clear implicits.
Arguments IO : clear implicits.
Arguments Server : clear implicits.

(** ** What every handler keeps *)

Section Keeps.
Context {S T : Type} `{!TxOps T, !StoreOps S T}.
Context {Chan Rx : Type} `{!Broadcast Chan Rx} `{!EqDecision Rx} `{!Countable Rx} `{!Iteration, !IterationLaw}.
Context {view : Chan → gmap Rx (nat * list PubSubMsg)} {room : Chan → nat}.
Context `{!BroadcastLaws Chan Rx view room}.
Context (other : list Z → Session T → list (list Z) → QueuedOp T * Session T).
Context (env : nat → Env S) (clock : nat → Z).
#[local] Abbreviation state := (St S T Chan Rx).
#[local] Abbreviation io := (IO S T Chan Rx).
#[local] Abbreviation Link := (Linked (view:=view) (room:=room)).
#[local] Existing Instances IO_ret IO_bind.
Implicit Types (st : state).

(** The registry stays in agreement with this connection and the others [R], and what
    the others have to read stays. *)
Definition Keeps {A} (m : io A) : Prop :=
  ∀ R st, Link (hub st) (focus (subs st) R) →
    Link (hub (m st).2) (focus (subs (m st).2) R) ∧
    (Tight (view:=view) (hub st) → Tight (view:=view) (hub (m st).2)) ∧
    Quiet (view:=view) R (hub st) (hub (m st).2).

(** With a socket that works, the handler runs to its end. *)
Definition Completes {A} (m : io A) : Prop :=
  ∀ st, accepts st = None → ∃ a st', m st = (Some a, st') ∧ accepts st' = None.

(** The handler does not touch the subscriptions. *)
Definition Frozen {A} (m : io A) : Prop := ∀ st, subs (m st).2 = subs st ∧ hub (m st).2 = hub st.

Lemma frozen_keeps {A} (m : io A) : Frozen m → Keeps m.
Proof. intros Hf R st HL. destruct (Hf st) as [-> ->]. by split. Qed.

Lemma keeps_bind {A C} (m : io A) (k : A → io C) : Keeps m → (∀ a, Keeps (k a)) → Keeps (m ≫= k).
Proof.
  intros Hm Hk R st HL. destruct (Hm R st HL) as (HL1 & HT1 & HQ1).
  unfold mbind, IO_bind. destruct (m st) as [[a|] st1]; cbn [snd] in *; [|done].
  destruct (Hk a R st1 HL1) as (HL2 & HT2 & HQ2). split; [done|]. split; [auto|]. by eapply quiet_trans.
Qed.

Lemma frozen_bind {A C} (m : io A) (k : A → io C) : Frozen m → (∀ a, Frozen (k a)) → Frozen (m ≫= k).
Proof.
  intros Hm Hk st. destruct (Hm st) as [Hs Hh]. unfold mbind, IO_bind.
  destruct (m st) as [[a|] st1]; cbn [snd] in *; [|done]. destruct (Hk a st1) as [-> ->]. done.
Qed.

Lemma completes_bind {A C} (m : io A) (k : A → io C) :
  Completes m → (∀ a, Completes (k a)) → Completes (m ≫= k).
Proof.
  intros Hm Hk st Ha. destruct (Hm st Ha) as (a & st1 & He & Ha1). unfold mbind, IO_bind. rewrite He. by apply Hk.
Qed.

Lemma frozen_ret {A} (a : A) : Frozen (mret a : io A).
Proof. done. Qed.
Lemma completes_ret {A} (a : A) : Completes (mret a : io A).
Proof. intros st Ha. by exists a, st. Qed.

Lemma frozen_send v : Frozen (send v : io ()).
Proof. intros st. unfold send. by destruct (accepts st) as [[|n]|]. Qed.
Lemma completes_send v : Completes (send v : io ()).
Proof. intros st Ha. unfold send. rewrite Ha. eauto. Qed.
Lemma frozen_send_anyway v : Frozen (send_anyway v : io ()).
Proof. intros st. apply frozen_send. Qed.
Lemma completes_send_anyway v : Completes (send_anyway v : io ()).
Proof.
  intros st Ha. unfold send_anyway. destruct (completes_send v st Ha) as (a & st' & -> & Ha'). eauto.
Qed.

Lemma keeps_for_each {A} (l : list A) (body : A → io ()) : (∀ x, Keeps (body x)) → Keeps (for_each l body).
Proof.
  intros Hb. induction l as [|x l IH]; [by apply frozen_keeps, frozen_ret|]. cbn [for_each]. by apply keeps_bind.
Qed.
Lemma frozen_for_each {A} (l : list A) (body : A → io ()) : (∀ x, Frozen (body x)) → Frozen (for_each l body).
Proof. intros Hb. induction l as [|x l IH]; [apply frozen_ret|]. cbn [for_each]. by apply frozen_bind. Qed.
Lemma completes_for_each {A} (l : list A) (body : A → io ()) :
  (∀ x, Completes (body x)) → Completes (for_each l body).
Proof. intros Hb. induction l as [|x l IH]; [apply completes_ret|]. cbn [for_each]. by apply completes_bind. Qed.

Lemma completes_with_subs {A} (f : ConnectionSubs Rx → PubSubRegistry Chan → A * ConnectionSubs Rx * PubSubRegistry Chan) :
  Completes (with_subs f : io A).
Proof. intros st Ha. unfold with_subs. destruct (f (subs st) (hub st)) as [[a s] h]. eauto. Qed.

Lemma keeps_with_subs {A} (f : ConnectionSubs Rx → PubSubRegistry Chan → A * ConnectionSubs Rx * PubSubRegistry Chan) :
  (∀ R s h a s' h', Link h (focus s R) → f s h = (a, s', h') →
     Link h' (focus s' R) ∧ (Tight (view:=view) h → Tight (view:=view) h') ∧ Quiet (view:=view) R h h') →
  Keeps (with_subs f : io A).
Proof.
  intros Hf R st HL. unfold with_subs. destruct (f (subs st) (hub st)) as [[a s] h] eqn:E. by eapply Hf.
Qed.

Lemma quiet_weaken R R' (h h' : PubSubRegistry Chan) :
  (∀ k name lr, lr ∈ R k name → lr ∈ R' k name) → Quiet (view:=view) R' h h' → Quiet (view:=view) R h h'.
Proof. intros Hw HQ k name lr Hin. by eapply HQ, Hw. Qed.

Lemma quiet_focus s R (h h' : PubSubRegistry Chan) :
  Quiet (view:=view) (focus s R) h h' → Quiet (view:=view) R h h'.
Proof. apply quiet_weaken. intros k name lr Hin. apply elem_of_app. by right. Qed.

Lemma keeps_subscribe k name : Keeps (with_subs (subs_subscribe k name) : io bool).
Proof.
  apply keeps_with_subs. intros R s h b s' h' HL He.
  destruct (focus_subscribe k name s h R b s' h' HL He) as (? & ? & HQ & _). split; [done|]. split; [done|].
  by apply quiet_focus in HQ.
Qed.

Lemma keeps_unsubscribe k name : Keeps (with_subs (subs_unsubscribe k id name) : io bool).
Proof.
  apply keeps_with_subs. intros R s h b s' h' HL He.
  destruct (focus_unsubscribe k name s h R b s' h' HL He) as (? & ? & HQ & _). split; [done|]. split; [done|].
  by apply quiet_focus in HQ.
Qed.

Lemma keeps_unsubscribe_all k : Keeps (with_subs (unsubscribe_all k id) : io (list (list Z))).
Proof.
  apply keeps_with_subs. intros R s h b s' h' HL He.
  destruct (focus_unsubscribe_all k s h R b s' h' HL He) as (? & ? & HQ & _). split; [done|]. split; [done|].
  by apply quiet_focus in HQ.
Qed.

Lemma keeps_next_item k name : Keeps (next_item k name : io (option Recv)).
Proof.
  apply keeps_with_subs. intros R s h a s' h' HL. destruct (streams k s !! name) as [lr|] eqn:Es.
  - destruct (focus_poll k name lr s h R HL Es) as (HL1 & HT1 & u & _ & _ & _ & HQ).
    destruct (poll_rx lr h) as [item h1]. intros [= <- <- <-]. split; [done|]. split; [done|]. by apply quiet_focus in HQ.
  - by intros [= <- <- <-].
Qed.

Lemma frozen_enqueue args : Frozen (enqueue other env clock args : io (list RespValue)).
Proof.
  intros st. unfold enqueue. destruct (enqueue_command _ _ _ _ _ _) as [[r s'] w']. by destruct r.
Qed.

Lemma frozen_get_total : Frozen (get_total : io nat).
Proof. done. Qed.
Lemma completes_get_total : Completes (get_total : io nat).
Proof. intros st Ha. by exists (total (subs st)), st. Qed.
Lemma frozen_get_session : Frozen (get_session : io (Session T)).
Proof. done. Qed.
Lemma frozen_stream_keys k : Frozen (stream_keys k : io (list (list Z))).
Proof. done. Qed.
Lemma completes_stream_keys k : Completes (stream_keys k : io (list (list Z))).
Proof. intros st Ha. by eexists _, st. Qed.
Lemma frozen_close_requested : Frozen (close_requested : io ()).
Proof. done. Qed.
Lemma completes_close_requested : Completes (close_requested : io ()).
Proof. intros st Ha. by eexists _, _. Qed.
End Keeps.

Create HintDb listener.
#[export] Hint Resolve frozen_send frozen_send_anyway frozen_enqueue frozen_get_total frozen_get_session
  frozen_stream_keys frozen_close_requested frozen_ret frozen_bind frozen_for_each : listener.
#[export] Hint Resolve keeps_bind keeps_for_each keeps_subscribe keeps_unsubscribe keeps_unsubscribe_all
  keeps_next_item : listener.
#[export] Hint Resolve completes_send completes_send_anyway completes_get_total completes_stream_keys
  completes_close_requested completes_ret completes_bind completes_for_each completes_with_subs : listener.

(** Follows the shape of a handler. *)
Ltac handler :=
  repeat first
    [ progress intros
    | progress cbv zeta
    | match goal with |- context [if ?b then _ else _] => destruct b end
    | match goal with |- context [match ?l with [] => _ | _ :: _ => _ end] => destruct l end
    | match goal with |- context [match ?r with Some _ => _ | None => _ end] => destruct r end
    | match goal with |- context [match ?r with Received _ => _ | Lagged _ => _ end] => destruct r end
    | solve [eauto 3 with listener]
    | apply keeps_bind | apply frozen_bind | apply completes_bind
    | apply keeps_for_each | apply frozen_for_each | apply completes_for_each
    | solve [apply frozen_keeps; eauto 3 with listener] ].

Section Passes.
Context {S T : Type} `{!TxOps T, !StoreOps S T}.
Context {Chan Rx : Type} `{!Broadcast Chan Rx} `{!EqDecision Rx} `{!Countable Rx} `{!Iteration, !IterationLaw}.
Context {view : Chan → gmap Rx (nat * list PubSubMsg)} {room : Chan → nat}.
Context `{!BroadcastLaws Chan Rx view room}.
Context (other : list Z → Session T → list (list Z) → QueuedOp T * Session T).
Context (env : nat → Env S) (clock : nat → Z).
#[local] Abbreviation state := (St S T Chan Rx).
#[local] Abbreviation io := (IO S T Chan Rx).
#[local] Abbreviation Link := (Linked (view:=view) (room:=room)).
#[local] Abbreviation Kept := (Keeps (view:=view) (room:=room)).
#[local] Existing Instances IO_ret IO_bind.
Implicit Types (st : state).

Lemma keeps_everything : Kept (unsubscribe_everything id : io ()).
Proof. unfold unsubscribe_everything, unsubscribe_all_channels, unsubscribe_all_patterns. handler. Qed.

Lemma keeps_handle_subscribe chs b : Kept (handle_subscribe chs b : io ()).
Proof. unfold handle_subscribe, subscribe_channel. handler. Qed.

Lemma keeps_handle_psubscribe pats : Kept (handle_psubscribe pats : io ()).
Proof. unfold handle_psubscribe, subscribe_pattern. handler. Qed.

Lemma keeps_handle_unsubscribe chs b : Kept (handle_unsubscribe id chs b : io ()).
Proof. unfold handle_unsubscribe, unsubscribe_channel. handler. Qed.

Lemma keeps_handle_punsubscribe pats : Kept (handle_punsubscribe id pats : io ()).
Proof. unfold handle_punsubscribe, unsubscribe_pattern. handler. Qed.

#[local] Hint Resolve keeps_everything keeps_handle_subscribe keeps_handle_psubscribe keeps_handle_unsubscribe
  keeps_handle_punsubscribe : listener.

Lemma keeps_subscribe_mode_command args : Kept (handle_subscribe_mode_command id args : io bool).
Proof. unfold handle_subscribe_mode_command. handler. Qed.

Lemma keeps_handle_request args : Kept (handle_request other env clock args : io bool).
Proof. unfold handle_request. handler. Qed.

#[local] Hint Resolve keeps_subscribe_mode_command keeps_handle_request : listener.

Lemma keeps_loop_pass i : Kept (loop_pass other env clock id i : io bool).
Proof.
  assert (Kept (in_subscribe_mode id i : io bool)) as H1.
  { destruct i as [k name|[[[| | | |[l|]]|]|]]; cbn [in_subscribe_mode]; handler. }
  assert (Kept (in_normal_mode other env clock i : io bool)) as H2.
  { destruct i as [k name|[[[| | | |[l|]]|]|]]; cbn [in_normal_mode]; handler. }
  intros R st HL. unfold loop_pass. destruct (is_subscribed (subs st)); [by apply H1|by apply H2].
Qed.

(** *** A connection whose socket works ends only with nothing subscribed *)
Lemma completes_everything : Completes (unsubscribe_everything id : io ()).
Proof. unfold unsubscribe_everything. handler. Qed.

Lemma completes_handle_subscribe chs b : Completes (handle_subscribe chs b : io ()).
Proof. unfold handle_subscribe. handler. Qed.
Lemma completes_handle_psubscribe pats : Completes (handle_psubscribe pats : io ()).
Proof. unfold handle_psubscribe. handler. Qed.
Lemma completes_handle_unsubscribe chs b : Completes (handle_unsubscribe id chs b : io ()).
Proof. unfold handle_unsubscribe. handler. Qed.
Lemma completes_handle_punsubscribe pats : Completes (handle_punsubscribe id pats : io ()).
Proof. unfold handle_punsubscribe. handler. Qed.

#[local] Hint Resolve completes_everything completes_handle_subscribe completes_handle_psubscribe
  completes_handle_unsubscribe completes_handle_punsubscribe : listener.

Lemma completes_subscribe_mode_command args : Completes (handle_subscribe_mode_command id args : io bool).
Proof. unfold handle_subscribe_mode_command. handler. Qed.

#[local] Hint Resolve completes_subscribe_mode_command : listener.

(** The connection's maps are empty. *)
Definition no_subs (s : ConnectionSubs Rx) : Prop := ∀ k, streams k s = ∅.

(** The handler goes on, or ends with nothing subscribed. *)
Definition Ending (m : io bool) : Prop :=
  ∀ R st, accepts st = None → Link (hub st) (focus (subs st) R) →
    (m st).1 = Some false ∨ no_subs (subs (m st).2).

Lemma ending_bind {A} (m : io A) (k : A → io bool) :
  Completes m → Kept m → (∀ a, Ending (k a)) → Ending (m ≫= k).
Proof.
  intros Hc Hm Hk R st Ha HL. destruct (Hc st Ha) as (a & st1 & He & Ha1). destruct (Hm R st HL) as [HL1 _].
  unfold mbind, IO_bind. rewrite He in HL1 |- *. by eapply Hk.
Qed.

Lemma ending_continue : Ending (mret false).
Proof. intros R st _ _. by left. Qed.

Lemma ending_everything : Ending (unsubscribe_everything id ≫= λ _, mret true).
Proof.
  intros R st Ha HL. right. unfold unsubscribe_everything, with_subs, mbind, IO_bind, mret, IO_ret.
  destruct (unsubscribe_all_channels id (subs st) (hub st)) as [[keys1 s1] h1] eqn:E1. cbn [subs hub].
  destruct (focus_unsubscribe_all Channel _ _ R _ _ _ HL E1) as (HL1 & _ & _ & _ & Hs1).
  destruct (unsubscribe_all_patterns id s1 h1) as [[keys2 s2] h2] eqn:E2. cbn [subs hub snd].
  destruct (focus_unsubscribe_all Pattern _ _ R _ _ _ HL1 E2) as (_ & _ & _ & _ & Hs2).
  intros k. rewrite Hs2, Hs1. by destruct k.
Qed.

#[local] Hint Resolve ending_continue ending_everything : listener.

Lemma frozen_no_subs {A} (m : io A) st : Frozen m → no_subs (subs st) → no_subs (subs (m st).2).
Proof. intros Hf Hs. by destruct (Hf st) as [-> _]. Qed.

Lemma is_subscribed_spec (s : ConnectionSubs Rx) : is_subscribed s = false ↔ no_subs s.
Proof.
  unfold is_subscribed, no_subs. rewrite orb_false_iff, !negb_false_iff, !bool_decide_eq_true. split.
  - intros [H1 H2] [|]; done.
  - intros He. split; [apply (He Channel)|apply (He Pattern)].
Qed.

Lemma ending_handle_request args R st :
  accepts st = None → Link (hub st) (focus (subs st) R) → no_subs (subs st) →
  (handle_request other env clock args st).1 = Some false ∨
  no_subs (subs (handle_request other env clock args st).2).
Proof.
  intros Ha HL Hn. unfold handle_request. cbv zeta.
  change ((get_session ≫= ?k) st) with (k (session st) st). cbv beta.
  assert (∀ m : io (), Completes m → Kept m → (((m ≫= λ _, mret false) : io bool) st).1 = Some false ∨
    no_subs (subs (((m ≫= λ _, mret false) : io bool) st).2)) as Hgo.
  { intros m Hc Hk. eapply (ending_bind m (λ _, mret false)); eauto using ending_continue. }
  repeat case_match; first [right; by apply frozen_no_subs; [handler|] | apply Hgo; handler].
Qed.

Lemma loop_pass_ends i R st :
  accepts st = None → Link (hub st) (focus (subs st) R) →
  (loop_pass other env clock id i st).1 = Some false ∨ no_subs (subs (loop_pass other env clock id i st).2).
Proof.
  intros Ha HL. unfold loop_pass. destruct (is_subscribed (subs st)) eqn:Es.
  - assert (Ending (in_subscribe_mode id i : io bool)) as He; [|by eapply He].
    destruct i as [k name|[[[| | | |[l|]]|]|]]; cbn [in_subscribe_mode]; try apply ending_everything;
      repeat first [ apply ending_continue | apply ending_everything | apply ending_bind | progress intros
                   | case_match | solve [handler] ].
  - apply is_subscribed_spec in Es. destruct i as [k name|[[[| | | |[l|]]|]|]]; cbn [in_normal_mode];
      [..|destruct (extract_args l)| | |]; try (by right; apply frozen_no_subs; [handler|]).
    by eapply ending_handle_request.
Qed.

(** *** The server *)
Lemma drop_no_subs (s : ConnectionSubs Rx) (h : PubSubRegistry Chan) : no_subs s → drop_subs s h = h.
Proof.
  intros Hn. unfold drop_subs. pose proof (Hn Channel) as H1. pose proof (Hn Pattern) as H2. simpl in H1, H2.
  assert (∀ A, iter (∅ : gmap (list Z) A) = []) as He.
  { intros A. apply Permutation_nil. by rewrite iter_perm, map_to_list_empty. }
  by rewrite H1, H2, !He.
Qed.

#[local] Abbreviation server := (Server S T Chan Rx).
Implicit Types (sv : server).

(** The registry agrees with the connections. *)
Definition SvLinked sv : Prop := Link (sv_hub sv) (held (client_subs sv)).

(** An event whose socket accepts everything. *)
Definition writes_succeed (e : Event) : Prop :=
  match e with Pass _ _ frames => frames = None | _ => True end.

Lemma conn_pass_linked c i frames sv :
  SvLinked sv →
  SvLinked (conn_pass other env clock id c i frames sv) ∧
  (frames = None → Tight (view:=view) (sv_hub sv) → Tight (view:=view) (sv_hub (conn_pass other env clock id c i frames sv))).
Proof.
  intros HL. unfold conn_pass. destruct (sv_conns sv !! c) as [[se su]|] eqn:Ec; [|by split].
  case_match; [by split|]. set (st := mkSt se su (sv_world sv) (sv_hub sv) [] frames).
  assert (client_subs sv !! c = Some su) as Hc by (unfold client_subs; by rewrite lookup_fmap, Ec).
  pose proof (linked_focus _ c su _ Hc HL : Link (hub st) (focus (subs st) (held (delete c (client_subs sv))))) as HF.
  destruct (keeps_loop_pass i _ st HF) as (HL1 & HT1 & _).
  pose proof (λ Ha, loop_pass_ends i _ st Ha HF) as Hend.
  destruct (loop_pass other env clock id i st) as [r st1]. cbn [fst snd] in *.
  assert (r = Some false ∨ r ≠ Some false) as [->|Hr] by (destruct r as [[]|]; auto).
  - split; [|by intros _]. unfold SvLinked, client_subs. cbn [sv_hub sv_conns]. rewrite fmap_insert.
    by apply linked_unfocus.
  - assert (match r with
            | Some false => mkServer (world st1) (hub st1) (<[c := (session st1, subs st1)]> (sv_conns sv))
            | _ => mkServer (world st1) (drop_subs (subs st1) (hub st1)) (delete c (sv_conns sv))
            end = mkServer (world st1) (drop_subs (subs st1) (hub st1)) (delete c (sv_conns sv))) as ->
      by (by destruct r as [[]|]).
    split.
    + unfold SvLinked, client_subs. cbn [sv_hub sv_conns]. rewrite fmap_delete. by apply focus_drop.
    + intros Hf HT. cbn [sv_hub]. destruct (Hend Hf) as [?|Hn]; [done|]. rewrite drop_no_subs by done. by apply HT1.
Qed.

Lemma server_step_linked retries sv e :
  SvLinked sv →
  SvLinked (server_step other env clock id retries sv e) ∧
  (writes_succeed e → Tight (view:=view) (sv_hub sv) →
   Tight (view:=view) (sv_hub (server_step other env clock id retries sv e))).
Proof.
  intros HL. destruct e as [c|c i frames|channel payload]; cbn [server_step writes_succeed].
  - unfold spawn_conn. destruct (sv_conns sv !! c) eqn:Ec; [by split|]. split; [|by intros _].
    unfold SvLinked, client_subs. cbn [sv_hub sv_conns]. rewrite fmap_insert.
    apply linked_connect; [by rewrite lookup_fmap, Ec|done].
  - by apply conn_pass_linked.
  - unfold PublishWireOp. pose proof (linked_publish (sv_hub sv) _ channel payload HL) as HL1.
    pose proof (tight_publish (sv_hub sv) _ channel payload HL) as HT1.
    destruct (publish channel payload (sv_hub sv)) as [n h]. by split.
Qed.

Lemma server_run_linked retries sv es :
  SvLinked sv →
  SvLinked (server_run other env clock id retries sv es) ∧
  (Forall writes_succeed es → Tight (view:=view) (sv_hub sv) →
   Tight (view:=view) (sv_hub (server_run other env clock id retries sv es))).
Proof.
  revert sv. induction es as [|e es IH]; intros sv HL; [by split|]. cbn [server_run fold_left].
  destruct (server_step_linked retries sv e HL) as [HL1 HT1].
  destruct (IH _ HL1) as [HL2 HT2]. split; [done|]. intros Hw. inversion Hw. subst. eauto.
Qed.

Lemma server_new_linked (w : World S) :
  SvLinked (server_new w) ∧ Tight (view:=view) (sv_hub (server_new w : server)).
Proof.
  split; [|apply tight_new]. unfold SvLinked, client_subs, server_new. cbn [sv_hub sv_conns].
  rewrite fmap_empty, held_empty. apply linked_new.
Qed.

(** *** Delivery *)

(** The messages a subscription hears. *)
Definition heard_by (k : SubKind) (name : list Z) (msgs : list PubSubMsg) : list PubSubMsg :=
  List.filter (λ m, hears k name (msg_channel m)) msgs.

Definition publish_events (msgs : list PubSubMsg) : list Event :=
  (λ m, Publish (msg_channel m) (msg_payload m)) <$> msgs.

Lemma publishes_unread retries msgs sv c se su k name lr q :
  SvLinked sv → sv_conns sv !! c = Some (se, su) → streams k su !! name = Some lr →
  unread (view:=view) (sv_hub sv) lr = Some (O, q) →
  (length q + length (heard_by k name msgs) ≤ BROADCAST_CAPACITY)%nat →
  let sv' := server_run other env clock id retries sv (publish_events msgs) in
  SvLinked sv' ∧ sv_conns sv' = sv_conns sv ∧ sv_world sv' = sv_world sv ∧
  unread (view:=view) (sv_hub sv') lr = Some (O, q ++ heard_by k name msgs).
Proof.
  intros HL Hc Hs. revert sv HL Hc q. induction msgs as [|m msgs IH]; intros sv HL Hc q Hu Hlen.
  { cbn. by rewrite app_nil_r. }
  cbn [publish_events fmap list_fmap server_run fold_left]. set (e := Publish (msg_channel m) (msg_payload m)).
  destruct (server_step_linked retries sv e HL) as [HL1 _].
  assert (lr ∈ held (client_subs sv) k name) as Hin.
  { eapply elem_of_held; [|done]. unfold client_subs. by rewrite lookup_fmap, Hc. }
  assert (unread (view:=view) (sv_hub (server_step other env clock id retries sv e)) lr =
    Some (O, if hears k name (msg_channel m) then q ++ [m] else q)) as Hu1.
  { subst e. cbn [server_step sv_hub PublishWireOp].
    pose proof (publish_unread (sv_hub sv) _ (msg_channel m) (msg_payload m) k name lr (O, q) HL Hin Hu) as Hp.
    destruct (publish _ _ _) as [n h]. cbn [snd] in *. rewrite Hp. f_equal.
    unfold heard_by in Hlen. cbn [List.filter] in Hlen. destruct (hears k name (msg_channel m)); [|done].
    cbn [length] in Hlen. unfold PubSub.enqueue. rewrite (proj2 (Nat.ltb_lt _ _)) by lia. by destruct m. }
  destruct (IH _ HL1 Hc _ Hu1) as (HL2 & Hc2 & Hw2 & Hu2).
  { unfold heard_by in Hlen. cbn [List.filter] in Hlen. fold (heard_by k name msgs) in Hlen.
    destruct (hears k name (msg_channel m)); rewrite ?length_app; cbn [length] in *; lia. }
  split; [exact HL2|]. split; [exact Hc2|]. split; [exact Hw2|]. unfold server_run in Hu2. unfold publish_events in Hu2.
  rewrite Hu2. f_equal. f_equal. unfold heard_by. cbn [List.filter].
  destruct (hears k name (msg_channel m)); [|done]. by rewrite <- app_assoc.
Qed.

(** Consecutive passes of the loop that take one subscription. *)
Definition pushes (n : nat) (k : SubKind) (name : list Z) : io () :=
  for_each (replicate n (Push k name)) (λ i, loop_pass other env clock id i ≫= λ _, mret ()).

Lemma pushes_deliver k name lr R q st :
  Link (hub st) (focus (subs st) R) → streams k (subs st) !! name = Some lr → accepts st = None →
  unread (view:=view) (hub st) lr = Some (O, q) →
  ∃ st', pushes (length q) k name st = (Some (), st') ∧ sent st' = sent st ++ (push_frame k name <$> q) ∧
    subs st' = subs st ∧ session st' = session st ∧ world st' = world st ∧ unread (view:=view) (hub st') lr = Some (O, []) ∧
    Quiet (view:=view) (focus (with_streams k (delete name (streams k (subs st))) (subs st)) R) (hub st) (hub st').
Proof.
  intros HL Hs Ha Hu. revert st HL Hs Ha Hu. induction q as [|m q IH]; intros st HL Hs Ha Hu.
  { exists st. split; [done|]. by rewrite app_nil_r. }
  assert (is_subscribed (subs st) = true) as Hsub.
  { destruct (is_subscribed (subs st)) eqn:E; [done|]. apply is_subscribed_spec in E. by rewrite E in Hs. }
  destruct (focus_poll k name lr (subs st) (hub st) R HL Hs) as (HL1 & _ & u & Hu' & Hi & Hu1 & HQ1).
  rewrite Hu in Hu'. injection Hu' as <-. cbn [dequeue fst snd] in Hi, Hu1.
  destruct (poll_rx lr (hub st)) as [item h1] eqn:Ep. cbn [fst snd] in *. subst item.
  set (st1 := mkSt (session st) (subs st) (world st) h1 (sent st ++ [push_frame k name m]) None).
  destruct (IH st1 HL1 Hs eq_refl Hu1) as (st' & Hrun & Hsent & Hsu & Hse & Hw & Hun & HQ).
  exists st'. split.
  - assert (loop_pass other env clock id (Push k name) st = (Some false, st1)) as Hpass.
    { unfold loop_pass. rewrite Hsub. cbn [in_subscribe_mode]. unfold next_item, with_subs, mbind, IO_bind.
      rewrite Hs, Ep. unfold send. cbn [accepts]. by rewrite Ha. }
    unfold pushes in *. cbn [length replicate for_each]. unfold mbind, IO_bind. rewrite Hpass. exact Hrun.
  - split; [rewrite Hsent; simpl; by rewrite <- app_assoc|]. split; [done|]. split; [done|]. split; [done|].
    split; [done|]. by eapply quiet_trans.
Qed.

(** *** Messages before requests *)
Lemma ready_unread k name lr R st :
  Link (hub st) (focus (subs st) R) → streams k (subs st) !! name = Some lr →
  ready k name st = true ↔ unread (view:=view) (hub st) lr ≠ Some (O, []).
Proof.
  intros HL Hs. unfold ready. rewrite Hs, bool_decide_eq_true.
  assert (lr ∈ focus (subs st) R k name) as Hin by (unfold focus, own; rewrite Hs; set_solver).
  destruct (linked_held _ _ _ _ _ HL Hin) as [_ [u Hu]]. rewrite (recv_item _ _ _ Hu), Hu.
  destruct u as [[|n] [|m q]]; cbn; split; try done; by intros [].
Qed.

Lemma any_ready_false k name lr R st :
  Link (hub st) (focus (subs st) R) → any_ready k st = false → streams k (subs st) !! name = Some lr →
  unread (view:=view) (hub st) lr = Some (O, []).
Proof.
  intros HL Hany Hs. destruct (decide (unread (view:=view) (hub st) lr = Some (O, []))) as [|Hne]; [done|].
  apply (ready_unread k name lr R st HL Hs) in Hne. exfalso. apply not_true_iff_false in Hany. apply Hany.
  apply existsb_exists. exists (name, lr). split; [|done]. by apply list_elem_of_In, elem_of_map_to_list.
Qed.

(** *** Subscribing and unsubscribing by name *)

Definition other_kind (k : SubKind) : SubKind := match k with Channel => Pattern | Pattern => Channel end.

(** The number a frame reports when the connection has [names] of one kind. *)
Definition report (k : SubKind) (names : gset (list Z)) (s : ConnectionSubs Rx) : nat :=
  (size names + size (streams (other_kind k) s))%nat.

Lemma total_report k (s : ConnectionSubs Rx) : total s = report k (dom (streams k s)) s.
Proof. unfold total, report. rewrite size_dom. destruct k; simpl; lia. Qed.

Definition subscribe_each (k : SubKind) (frame : list Z → nat → RespValue) (l : list (list Z)) : io () :=
  for_each l (λ n, with_subs (subs_subscribe k n) ≫= λ _, get_total ≫= λ t, send (frame n t)).
Definition unsubscribe_each (k : SubKind) (frame : list Z → nat → RespValue) (l : list (list Z)) : io () :=
  for_each l (λ n, with_subs (subs_unsubscribe k id n) ≫= λ _, get_total ≫= λ t, send (frame n t)).

(** What a loop over names leaves: [upd] is the set of names after a prefix of them. *)
Definition NamesLoop (k : SubKind) (frame : list Z → nat → RespValue) (l : list (list Z))
    (upd : gset (list Z) → list (list Z) → gset (list Z)) (m : io ()) : Prop :=
  ∀ st, accepts st = None →
    let d := dom (streams k (subs st)) in
    ∃ st', m st = (Some (), st') ∧ accepts st' = None ∧
      sent st' = sent st ++ imap (λ i n, frame n (report k (upd d (take (Datatypes.S i) l)) (subs st))) l ∧
      dom (streams k (subs st')) = upd d l ∧
      streams (other_kind k) (subs st') = streams (other_kind k) (subs st) ∧
      session st' = session st ∧ world st' = world st.

Lemma names_loop k frame f upd (l : list (list Z)) :
  (∀ d, upd d [] = d) → (∀ d n l, upd d (n :: l) = upd (upd d [n]) l) →
  (∀ n s h b s' h', f n s h = (b, s', h') →
     dom (streams k s') = upd (dom (streams k s)) [n] ∧ streams (other_kind k) s' = streams (other_kind k) s) →
  NamesLoop k frame l upd
    (for_each l (λ n, (with_subs (f n) : io bool) ≫= λ _, get_total ≫= λ t, send (frame n t))).
Proof.
  intros Hnil Hcons Hf. induction l as [|n l IH]; intros st Ha d.
  { exists st. subst d. rewrite Hnil. split; [done|]. simpl. by rewrite app_nil_r. }
  destruct (f n (subs st) (hub st)) as [[b s1] h1] eqn:E. destruct (Hf _ _ _ _ _ _ E) as [Hd Ho].
  set (st1 := mkSt (session st) s1 (world st) h1 (sent st ++ [frame n (total s1)]) None : state).
  destruct (IH st1 eq_refl) as (st' & Hrun & Ha' & Hsent & Hdom & Hoth & Hse & Hw).
  exists st'. split.
  { cbn [for_each]. unfold mbind, IO_bind, with_subs, get_total, send. rewrite E. cbn [accepts]. rewrite Ha.
    exact Hrun. }
  split; [done|]. cbn [st1 subs] in *. rewrite Hd in Hdom, Hsent. rewrite <- Hcons in Hdom.
  split; [|split; [done|split; [by rewrite Hoth|done]]].
  rewrite Hsent. cbn [sent st1 imap]. rewrite <- app_assoc. f_equal. cbn [app]. f_equal.
  - rewrite (total_report k), Hd. unfold report. by rewrite Ho.
  - apply imap_ext. intros i n' _. unfold report. cbn [Datatypes.id Basics.compose take]. rewrite Ho.
    by rewrite (Hcons d n (take (Datatypes.S i) l)).
Qed.

Lemma subscribe_each_spec k frame l :
  NamesLoop k frame l (λ d l, d ∪ list_to_set l) (subscribe_each k frame l).
Proof.
  apply names_loop; [set_solver|set_solver|]. intros n s h b s' h'. unfold subs_subscribe.
  destruct (streams k s !! n) as [lr|] eqn:Es.
  - intros [= _ <- _]. split; [|done]. assert (n ∈ dom (streams k s)) by (apply elem_of_dom; eauto). set_solver.
  - destruct (subscribe_name k n h) as [lr h1]. intros [= _ <- _]. rewrite !streams_with_streams.
    rewrite decide_True, decide_False by (by destruct k). split; [|done]. rewrite dom_insert_L. set_solver.
Qed.

Lemma unsubscribe_each_spec k frame l :
  NamesLoop k frame l (λ d l, d ∖ list_to_set l) (unsubscribe_each k frame l).
Proof.
  apply names_loop; [set_solver|set_solver|]. intros n s h b s' h'. unfold subs_unsubscribe.
  destruct (streams k s !! n) as [lr|] eqn:Es.
  - intros [= _ <- _]. rewrite !streams_with_streams.
    rewrite decide_True, decide_False by (by destruct k). split; [|done]. rewrite dom_delete_L. set_solver.
  - intros [= _ <- _]. split; [|done]. assert (n ∉ dom (streams k s)) by (by apply not_elem_of_dom). set_solver.
Qed.

(** The commands of subscribe mode that work name by name. *)
Definition subscribing : list (list Z * (SubKind * (list Z → nat → RespValue))) :=
  [(B "subscribe", (Channel, subscribe_resp)); (B "ssubscribe", (Channel, ssubscribe_resp));
   (B "psubscribe", (Pattern, psubscribe_resp))].
Definition unsubscribing : list (list Z * (SubKind * (list Z → nat → RespValue))) :=
  [(B "unsubscribe", (Channel, unsubscribe_resp)); (B "sunsubscribe", (Channel, sunsubscribe_resp));
   (B "punsubscribe", (Pattern, punsubscribe_resp))].

(** Evaluates the comparisons of a command name. *)
Ltac run_name Hn :=
  unfold handle_subscribe_mode_command; cbn [command_name tail]; rewrite Hn; cbv zeta;
  repeat (rewrite bool_decide_eq_false_2 by (vm_compute; discriminate));
  rewrite ?bool_decide_eq_true_2 by reflexivity.

Lemma subscribing_runs cmd rest k frame :
  (lowercase cmd, (k, frame)) ∈ subscribing →
  handle_subscribe_mode_command id (cmd :: rest) = (subscribe_each k frame rest ≫= λ _, mret false : io bool).
Proof.
  unfold subscribing. rewrite !elem_of_cons, elem_of_nil.
  intros [He|[He|[He|[]]]]; injection He as Hn -> ->; by run_name Hn.
Qed.

Lemma unsubscribing_runs cmd rest k frame :
  (lowercase cmd, (k, frame)) ∈ unsubscribing →
  handle_subscribe_mode_command id (cmd :: rest) =
    ((match rest with
      | [] => stream_keys k ≫= λ all,
          match all with [] => send (null_frame (lowercase cmd)) | _ => unsubscribe_each k frame all end
      | _ => unsubscribe_each k frame rest
      end) ≫= λ _, mret false : io bool).
Proof.
  unfold unsubscribing. rewrite !elem_of_cons, elem_of_nil.
  intros [He|[He|[He|[]]]]; injection He as Hn -> ->; run_name Hn; by destruct rest.
Qed.

Lemma refused_runs cmd rest :
  lowercase cmd ∉ (subscribing.*1 ++ unsubscribing.*1 ++ [B "ping"; B "quit"; B "reset"]) →
  handle_subscribe_mode_command id (cmd :: rest) = (send not_in_subscribe_mode ≫= λ _, mret false : io bool).
Proof.
  intros Hn. unfold subscribing, unsubscribing in Hn. cbn [fmap list_fmap app fst] in Hn.
  rewrite !not_elem_of_cons in Hn. destruct_and! Hn.
  unfold handle_subscribe_mode_command. cbn [command_name]. cbv zeta.
  by rewrite !bool_decide_eq_false_2 by done.
Qed.
End Passes.

(** ** Dispatch of the pub/sub commands *)

Section PubSubCommands.
Context {T : Type} {Chan Rx : Type} `{!Broadcast Chan Rx} `{!Iteration}.
Implicit Types (s : Session T).

(** The arms of [dispatch_command]: PUBLISH, SPUBLISH and PUBSUB build the wire half of
    their operation, whose database half does nothing. *)
Definition publish_cmd (name : list Z) (args : list (list Z)) : result (HubWire (Chan:=Chan)) (list Z) :=
  match args with
  | [_; channel; payload] => Ok (PublishWireOp channel payload)
  | _ => Err (wrong_args (from_utf8_lossy name))
  end.

Definition pubsub_cmd (args : list (list Z)) : result (HubWire (Chan:=Chan)) (list Z) :=
  match args with
  | _ :: sub :: rest =>
      let sub_cmd := lowercase sub in
      if bool_decide (sub_cmd = B "channels") then Ok (ChannelsOp (head rest))
      else if bool_decide (sub_cmd = B "numsub") then Ok (NumSubOp rest)
      else if bool_decide (sub_cmd = B "numpat") then Ok NumPatOp
      else if bool_decide (sub_cmd = B "help") then Ok HelpOp
      else Err (B "ERR unknown subcommand '" ++ from_utf8_lossy sub_cmd ++ B "'. Try PUBSUB HELP.")
  | _ => Err (wrong_args (B "pubsub"))
  end.

(** SUBSCRIBE and its relatives are refused when they reach [dispatch_command]. *)
Definition refuse_subscribe (other : list Z → Session T → list (list Z) → QueuedOp T * Session T)
    (name : list Z) s (args : list (list Z)) : QueuedOp T * Session T :=
  if bool_decide (name ∈ subscribe_family) then error_op s (B "ERR Command not allowed inside a transaction")
  else other name s args.

Lemma refuse_subscribe_ok other : handler_ok other → handler_ok (refuse_subscribe other).
Proof.
  intros Ho name s args. unfold refuse_subscribe. case_bool_decide; [apply error_op_ok|apply Ho].
Qed.
End PubSubCommands.

(** ** Theorems *)

Section Theorems.
Context {S T : Type} `{!TxOps T, !StoreOps S T}.
Context {Chan Rx : Type} `{!Broadcast Chan Rx} `{!EqDecision Rx} `{!Countable Rx} `{!Iteration, !IterationLaw}.
Context {view : Chan → gmap Rx (nat * list PubSubMsg)} {room : Chan → nat}.
Context `{!BroadcastLaws Chan Rx view room}.
Context (other : list Z → Session T → list (list Z) → QueuedOp T * Session T).
Context (env : nat → Env S) (clock : nat → Z).
#[local] Abbreviation state := (St S T Chan Rx).
#[local] Abbreviation server := (Server S T Chan Rx).
#[local] Existing Instances IO_ret IO_bind.

(** C35: after any sequence of connections, loop passes (requests of every kind, pushed
    messages, closed sockets, protocol errors, failing writes) and published messages, the
    registry agrees with the clients: the receivers of each channel and pattern are as many
    as the clients subscribed to it, so PUBLISH replies with the number of subscriptions
    that hear the channel. If no write failed, an entry exists exactly while some client is
    subscribed: no dead entries are left behind, and a publish creates none (the module
    documentation of pubsub.rs says that the first publish creates an entry). The steps are
    serialised: a pass of one connection or a publish runs to its end before the next one
    begins, so nothing comes between the check of cleanup_channel or cleanup_pattern that an
    entry is dead and its removal. The code does not ensure this: a client that subscribes
    to the same name just in between loses its entry, which [cleanup_race] shows. *)
Theorem registry_tracks_clients retries w es channel payload :
  let sv : server := server_run other env clock id retries (server_new w) es in
  (∀ k name, match names k (sv_hub sv) !! name with
             | Some l => bc_receiver_count (chan_at (sv_hub sv) l)
             | None => O
             end = subscribers k name (client_subs sv)) ∧
  fst (PublishWireOp channel payload (Ok RUnit) (sv_hub sv)) =
    Integer (Z.of_nat (sum_list_with (hearing channel) (map_to_list (client_subs sv)).*2)) ∧
  (Forall writes_succeed es →
   ∀ k name, is_Some (names k (sv_hub sv) !! name) ↔ (0 < subscribers k name (client_subs sv))%nat).
Proof.
  intros sv. destruct (server_new_linked (view:=view) (room:=room) (T:=T) (Rx:=Rx) w) as [HL0 HT0].
  destruct (server_run_linked other env clock retries _ es HL0) as [HL HT]. fold sv in HL, HT.
  pose proof (λ k name, receiver_count_held _ _ k name HL) as Hcount. split; [done|]. split.
  - unfold PublishWireOp. pose proof (publish_count _ _ channel payload HL) as Hn.
    destruct (publish channel payload (sv_hub sv)) as [n h]. cbn [fst] in *. by rewrite Hn.
  - intros Hw k name. specialize (HT Hw HT0). rewrite <- Hcount. split.
    + intros [l Hl]. rewrite Hl, count_view. specialize (HT k name l Hl).
      destruct (size (view (chan_at (sv_hub sv) l))) eqn:E; [|lia]. by apply map_size_empty_inv in E.
    + destruct (names k (sv_hub sv) !! name); [eauto|lia].
Qed.

(** C36: a subscriber that keeps up misses nothing. From any state the server can be in,
    take a client with a subscription that has [q] to read and missed nothing, and publish
    any messages; as long as at most 512 messages wait, passes of its loop on that
    subscription write exactly the waiting messages and those published that it hears, in
    order, as message frames (pmessage frames naming the pattern for a pattern), and leave
    nothing to read and every other subscription as it was. A request of a subscribed client
    is read only when none of its subscriptions has a message waiting. *)
Theorem messages_delivered_in_order retries (sv : server) c se su k name lr q msgs :
  SvLinked (view:=view) (room:=room) sv → sv_conns sv !! c = Some (se, su) → streams k su !! name = Some lr →
  unread (view:=view) (sv_hub sv) lr = Some (O, q) →
  (length q + length (heard_by k name msgs) ≤ BROADCAST_CAPACITY)%nat →
  let sv' := server_run other env clock id retries sv (publish_events msgs) in
  let st : state := mkSt se su (sv_world sv') (sv_hub sv') [] None in
  sv_conns sv' !! c = Some (se, su) ∧
  (∃ st', pushes other env clock (length q + length (heard_by k name msgs)) k name st = (Some (), st') ∧
     sent st' = (push_frame k name <$> q ++ heard_by k name msgs) ∧ subs st' = su ∧ session st' = se ∧
     unread (view:=view) (hub st') lr = Some (O, []) ∧
     (∀ k' name' lr', (k', name') ≠ (k, name) → streams k' su !! name' = Some lr' →
        unread (view:=view) (hub st') lr' = unread (view:=view) (sv_hub sv') lr')) ∧
  (∀ f, enabled (Frame f) st = true → q ++ heard_by k name msgs = []).
Proof.
  intros HL Hc Hs Hu Hlen sv' st.
  destruct (publishes_unread other env clock retries msgs sv c se su k name lr q HL Hc Hs Hu Hlen)
    as (HL' & Hcs & Hw & Hu'). fold sv' in HL', Hcs, Hw, Hu'.
  assert (client_subs sv' !! c = Some su) as Hc' by (unfold client_subs; by rewrite lookup_fmap, Hcs, Hc).
  pose proof (linked_focus _ c su _ Hc' HL' : Linked (view:=view) (room:=room) (hub st)
    (focus (subs st) (held (delete c (client_subs sv'))))) as HF.
  split; [by rewrite Hcs|]. split.
  - destruct (pushes_deliver other env clock k name lr _ _ st HF Hs eq_refl Hu')
      as (st' & Hrun & Hsent & Hsu & Hse & _ & Hun & HQ).
    rewrite length_app in Hrun. exists st'. split; [exact Hrun|]. split; [exact Hsent|]. split; [done|].
    split; [done|]. split; [done|]. intros k' name' lr' Hne Hs'. apply (HQ k' name' lr'). apply elem_of_app. left.
    rewrite own_with_streams. unfold own. cbn [subs st]. case_decide as Hk; [|rewrite Hs'; set_solver].
    subst k'. rewrite lookup_delete_ne, Hs' by congruence. set_solver.
  - intros f. cbn [enabled]. rewrite andb_true_iff, !negb_true_iff. intros [H1 H2].
    assert (any_ready k st = false) as Hk by (by destruct k).
    pose proof (any_ready_false other k name lr _ st HF Hk Hs) as He. cbn [hub st] in He. rewrite Hu' in He.
    by injection He.
Qed.

(** What a client in subscribe mode can do, when its socket works. SUBSCRIBE,
    SSUBSCRIBE and PSUBSCRIBE add the names given and answer one frame per name with the
    number of subscriptions it then has; UNSUBSCRIBE, SUNSUBSCRIBE and PUNSUBSCRIBE take
    names away in the same way, all of them when none is given (a single frame with a null
    name if there was none). Any other command except PING, QUIT and RESET is refused and
    changes nothing. *)
Theorem subscribe_mode_spec cmd rest (st : state) :
  accepts st = None →
  let run := handle_subscribe_mode_command id (cmd :: rest) st in
  (∀ k (frame : list Z → nat → RespValue), (lowercase cmd, (k, frame)) ∈ subscribing →
     let d : gset (list Z) := dom (streams k (subs st)) in
     fst run = Some false ∧ dom (streams k (subs (snd run))) = d ∪ list_to_set rest ∧
     streams (other_kind k) (subs (snd run)) = streams (other_kind k) (subs st) ∧
     sent (snd run) = sent st ++
       imap (λ i n, frame n (report k (d ∪ list_to_set (take (Datatypes.S i) rest)) (subs st))) rest) ∧
  (∀ k (frame : list Z → nat → RespValue), (lowercase cmd, (k, frame)) ∈ unsubscribing →
     let d : gset (list Z) := dom (streams k (subs st)) in
     ∃ l : list (list Z), (if decide (rest = []) then l ≡ₚ base.elements d else l = rest) ∧
       fst run = Some false ∧ dom (streams k (subs (snd run))) = d ∖ list_to_set l ∧
       streams (other_kind k) (subs (snd run)) = streams (other_kind k) (subs st) ∧
       sent (snd run) = sent st ++
         (if decide (l = []) then [null_frame (lowercase cmd)]
          else imap (λ i n, frame n (report k (d ∖ list_to_set (take (Datatypes.S i) l)) (subs st))) l)) ∧
  (lowercase cmd ∉ (subscribing.*1 ++ unsubscribing.*1 ++ [B "ping"; B "quit"; B "reset"]) →
     run = (Some false, mkSt (session st) (subs st) (world st) (hub st) (sent st ++ [not_in_subscribe_mode]) None)).
Proof.
  intros Ha run. split; [|split].
  - intros k frame Hin d. subst run. rewrite (subscribing_runs cmd rest k frame Hin).
    destruct (subscribe_each_spec other k frame rest st Ha) as (st' & He & _ & Hsent & Hd & Ho & _).
    unfold mbind, IO_bind. rewrite He. by cbn [fst snd].
  - intros k frame Hin d. subst run. rewrite (unsubscribing_runs cmd rest k frame Hin).
    destruct (decide (rest = [])) as [->|Hr].
    + exists (iter (streams k (subs st))).*1.
      assert ((iter (streams k (subs st))).*1 ≡ₚ base.elements d) as Hp.
      { rewrite iter_perm. apply NoDup_Permutation; [apply NoDup_fst_map_to_list|apply NoDup_elements|].
        intros n. rewrite elem_of_elements. subst d. rewrite list_elem_of_fmap, elem_of_dom. split.
        - intros ([n' lr] & -> & Hl). apply elem_of_map_to_list in Hl. eauto.
        - intros [lr Hl]. exists (n, lr). split; [done|]. by apply elem_of_map_to_list. }
      split; [done|]. cbn [stream_keys]. unfold mbind, IO_bind, stream_keys. cbn [fst snd].
      destruct (iter (streams k (subs st))).*1 as [|n l] eqn:El.
      * unfold send. rewrite Ha. cbn [fst snd subs sent]. rewrite decide_True by done. split; [done|]. set_solver.
      * destruct (unsubscribe_each_spec other k frame (n :: l) st Ha) as (st' & He & _ & Hsent & Hd & Ho & _).
        rewrite He. cbn [fst snd]. by rewrite decide_False.
    + exists rest. split; [done|]. destruct rest as [|n l]; [done|].
      destruct (unsubscribe_each_spec other k frame (n :: l) st Ha) as (st' & He & _ & Hsent & Hd & Ho & _).
      unfold mbind, IO_bind. rewrite He. cbn [fst snd]. by rewrite decide_False.
  - intros Hn. subst run. rewrite (refused_runs cmd rest Hn). unfold mbind, IO_bind, send. by rewrite Ha.
Qed.
End Theorems.

(** ** Witnesses and edge cases *)

Import MapStore.

Section Samples.
#[local] Abbreviation occ_server := (Server (gmap (list Z) Item) OccTx Simple.Chan nat).
#[local] Abbreviation occ_state := (St (gmap (list Z) Item) OccTx Simple.Chan nat).

Definition request (words : list (list Z)) : Input := Frame (Some (Some (Array (Some (bulk <$> words))))).

Definition sample_events : list Event :=
  [Connect 1; Pass 1 (request [B "SUBSCRIBE"; B "news"; B "olds"]) None;
   Connect 2; Pass 2 (request [B "psubscribe"; B "n*"]) None;
   Pass 1 (request [B "unsubscribe"; B "olds"]) None;
   Connect 3; Pass 3 (request [B "subscribe"; B "gone"]) None; Pass 3 (Frame None) None].

Definition sample_run (es : list Event) : occ_server :=
  server_run no_other quiet noon id 16 (server_new sample_world) es.

Lemma registry_tracks_clients_witness :
  fst (PublishWireOp (B "news") (B "hi") (Ok RUnit) (sv_hub (sample_run sample_events))) = Integer 2 ∧
  is_Some (names Channel (sv_hub (sample_run sample_events)) !! B "news") ∧
  ¬ is_Some (names Channel (sv_hub (sample_run sample_events)) !! B "gone").
Proof.
  destruct (registry_tracks_clients (view:=Simple.queues) (room:=Simple.capacity) no_other quiet noon 16 sample_world
    sample_events (B "news") (B "hi")) as (_ & Hpub & Hent).
  assert (Forall writes_succeed sample_events) as Hw by (repeat constructor). specialize (Hent Hw).
  split; [|split].
  - etransitivity; [exact Hpub|]. vm_compute. reflexivity.
  - apply Hent. apply Nat.ltb_lt. vm_compute. reflexivity.
  - rewrite Hent. apply Nat.ltb_nlt. vm_compute. reflexivity.
Defined.

(** One client, subscribed to [n*]. *)
Definition sample_sv : occ_server :=
  sample_run [Connect 1; Pass 1 (request [B "psubscribe"; B "n*"]) None].
Definition sample_subs : ConnectionSubs nat :=
  default subs_new (client_subs sample_sv !! 1).
Definition sample_sess : Session OccTx := set_conflict_retry_count (session_new 1) 16.
Definition sample_msgs : list PubSubMsg :=
  [mkMsg (B "news") (B "a"); mkMsg (B "olds") (B "b"); mkMsg (B "now") (B "c")].

Lemma messages_delivered_in_order_witness :
  ∃ st' : occ_state, sent st' =
    [pmessage_resp (B "n*") (B "news") (B "a"); pmessage_resp (B "n*") (B "now") (B "c")].
Proof.
  destruct (messages_delivered_in_order (view:=Simple.queues) (room:=Simple.capacity) no_other quiet noon 16 sample_sv 1
    sample_sess sample_subs Pattern (B "n*") (0%nat, 0%nat) [] sample_msgs) as (_ & (st' & _ & Hsent & _) & _).
  - apply server_run_linked, server_new_linked.
  - vm_compute. reflexivity.
  - vm_compute. reflexivity.
  - vm_compute. reflexivity.
  - apply Nat.leb_le. vm_compute. reflexivity.
  - exists st'. rewrite Hsent. vm_compute. reflexivity.
Defined.

Definition sample_st : occ_state := mkSt sample_sess sample_subs sample_world (sv_hub sample_sv) [] None.

Lemma subscribe_mode_spec_witness :
  fst (handle_subscribe_mode_command id [B "SUBSCRIBE"; B "x"; B "x"] sample_st) = Some false ∧
  sent (snd (handle_subscribe_mode_command id [B "SUBSCRIBE"; B "x"; B "x"] sample_st)) =
    [subscribe_resp (B "x") 2; subscribe_resp (B "x") 2] ∧
  handle_subscribe_mode_command id [B "GET"; B "k"] sample_st =
    (Some false, mkSt sample_sess sample_subs sample_world (sv_hub sample_sv) [not_in_subscribe_mode] None).
Proof.
  destruct (subscribe_mode_spec no_other (B "SUBSCRIBE") [B "x"; B "x"] sample_st eq_refl) as [Hsub _].
  destruct (subscribe_mode_spec no_other (B "GET") [B "k"] sample_st eq_refl) as (_ & _ & Hno).
  destruct (Hsub Channel subscribe_resp) as (Hr & _ & _ & Hs); [by left|].
  split; [exact Hr|]. split; [rewrite Hs; vm_compute; reflexivity|]. apply Hno. apply (bool_decide_unpack _). vm_compute. exact I.
Defined.

(** A connection that ends because a write failed leaves its registry entries behind. *)
Lemma failed_write_leaves_entry :
  let sv := sample_run [Connect 1; Pass 1 (request [B "SUBSCRIBE"; B "news"]) (Some 0%nat)] in
  sv_conns sv = ∅ ∧ names Channel (sv_hub sv) !! B "news" = Some 0%nat ∧
  subscribers Channel (B "news") (client_subs sv) = 0%nat.
Proof. vm_compute. done. Qed.

(** RESET in subscribe mode marks the session for closing without closing it: the next
    request is answered, and then the connection is closed. *)
Lemma reset_closes_after_next_request :
  let '(r, st) := loop_pass no_other quiet noon id (request [B "RESET"]) sample_st in
  let '(r', st') := loop_pass no_other quiet noon id (request [B "PING"]) st in
  r = Some false ∧ r' = Some true ∧ sent st' = [SimpleString (B "RESET"); SimpleString (B "PONG")].
Proof. vm_compute. done. Qed.

(** SUBSCRIBE inside MULTI is refused and dooms the transaction; nothing is subscribed. *)
Lemma subscribe_in_multi_refused :
  let st : occ_state := mkSt (enter_multi sample_sess) subs_new sample_world hub_new [] None in
  let '(r, st') := loop_pass (refuse_subscribe no_other) quiet noon id (request [B "subscribe"; B "news"]) st in
  r = Some false ∧ sent st' = [Error (B "ERR Command not allowed inside a transaction")] ∧
  dirty_exec (session st') = true ∧ subs st' = subs_new ∧ pending (session st') = [].
Proof. vm_compute. done. Qed.

(** SUBSCRIBE without a channel is not answered at all. *)
Lemma subscribe_without_channel_silent (st : occ_state) :
  handle_subscribe_mode_command id [B "SUBSCRIBE"] st = (Some false, st).
Proof. reflexivity. Qed.

(** Outside subscribe mode UNSUBSCRIBE answers a single null frame, whatever it names. *)
Lemma unsubscribe_outside_names_ignored :
  sent (snd (loop_pass no_other quiet noon id (request [B "UNSUBSCRIBE"; B "a"; B "b"])
    (mkSt sample_sess subs_new sample_world hub_new [] None : occ_state))) = [null_frame (B "unsubscribe")].
Proof. vm_compute. done. Qed.
End Samples.
