(* ===== verification/ServerCmds.v ===== *)
(** * Server commands: src/redis/server.rs

    INFO, HELLO, CLIENT, SAVE, FLUSHALL and FLUSHDB, and the process-wide state they
    report: the counters of connections and the registry of connected clients. The
    identity of the build and of the process, the clocks and the address of a client are
    arguments. SAVE and the FLUSH commands act on the store itself, outside the transaction
    of their batch; its administration is the class [StoreAdmin], which the Fjall backend
    implements ([fjall_drop_prefix]) over the library class [FjallDb]. *)
From S2P Require Import Prelude Bytes Resp Kv Fjall Registry Op Namespace Session.
From S2P Require Import Commands.

(** ** Process-wide state *)

Definition REDIS_VERSION : list Z := B "6.2.0".
Definition DEFAULT_TCP_PORT : Z := 6379.

Record ClientEntry : Type := mkClient {
  ce_id : Z;
  ce_name : list Z;
  ce_lib_name : list Z;
  ce_lib_ver : list Z;
  ce_db : Z;
  ce_addr : list Z
}.

(** The counters are [AtomicI64]s; the registry is in order of registration. *)
Record Process : Type := mkProcess {
  tcp_port : Z;
  connected_clients : Z;
  total_connections_received : Z;
  client_registry : list ClientEntry
}.

Definition process_new : Process := mkProcess DEFAULT_TCP_PORT 0 0 [].

Definition set_tcp_port (port : Z) (p : Process) : Process :=
  mkProcess port (connected_clients p) (total_connections_received p) (client_registry p).

Definition conn_opened (p : Process) : Process :=
  mkProcess (tcp_port p) (as_i64 (connected_clients p + 1)) (as_i64 (total_connections_received p + 1))
    (client_registry p).

Definition conn_closed (p : Process) : Process :=
  mkProcess (tcp_port p) (as_i64 (connected_clients p - 1)) (total_connections_received p) (client_registry p).

Definition with_registry (reg : list ClientEntry) (p : Process) : Process :=
  mkProcess (tcp_port p) (connected_clients p) (total_connections_received p) reg.

(** [iter_mut().find(pred)] and an assignment through it: changes the first match. *)
Fixpoint set_first {A} (p : A → bool) (f : A → A) (l : list A) : list A :=
  match l with
  | [] => []
  | x :: l' => if p x then f x :: l' else x :: set_first p f l'
  end.

Definition has_id (id : Z) (e : ClientEntry) : bool := ce_id e =? id.

(** The address shown for a client. *)
Definition addr_of (peer : option (list Z)) : list Z := default (B "127.0.0.1:0") peer.

Section Sessions.
Context {T : Type}.
Implicit Types (s : Session T) (args : list (list Z)) (reg : list ClientEntry).

Definition snapshot_entry s (peer : option (list Z)) : ClientEntry :=
  mkClient (sess_id s) (client_name s) (lib_name s) (lib_ver s) (current_db s) (addr_of peer).

Definition register_session s (peer : option (list Z)) reg : list ClientEntry :=
  let entry := snapshot_entry s peer in
  if existsb (has_id (ce_id entry)) reg then set_first (has_id (ce_id entry)) (λ _, entry) reg
  else reg ++ [entry].

Definition unregister_session (id : Z) reg : list ClientEntry :=
  List.filter (λ e, negb (has_id id e)) reg.

Definition update_client_name (id : Z) (name : list Z) reg : list ClientEntry :=
  set_first (has_id id)
    (λ e, mkClient (ce_id e) name (ce_lib_name e) (ce_lib_ver e) (ce_db e) (ce_addr e)) reg.

Definition update_client_meta (id : Z) (lib ver : list Z) reg : list ClientEntry :=
  set_first (has_id id) (λ e, mkClient (ce_id e) (ce_name e) lib ver (ce_db e) (ce_addr e)) reg.

(** ** HELLO *)

Definition hello_arity : RespValue := Error (wrong_args (B "hello")).

(** The tokens after the command name: the protocol version they end with, or an error.
    Names are set as they are met. *)
Fixpoint hello_loop (rest : list (list Z)) (proto : Z) s : result Z RespValue * Session T :=
  match rest with
  | [] => (Ok proto, s)
  | token :: rest' =>
      let token_upper := uppercase token in
      if bool_decide (token_upper = B "AUTH") then
        match rest' with
        | _ :: _ :: rest'' => hello_loop rest'' proto s
        | _ => (Err hello_arity, s)
        end
      else if bool_decide (token_upper = B "SETNAME") then
        match rest' with
        | name :: rest'' => hello_loop rest'' proto (set_client_name s (from_utf8_lossy name))
        | [] => (Err hello_arity, s)
        end
      else
        match parse_i64 token with
        | None => (Err (Error (B "ERR syntax error in 'hello' command")), s)
        | Some v => hello_loop rest' v s
        end
  end.

Definition bulk (b : list Z) : RespValue := BulkString (Some b).

Definition hello_reply (version : list Z) s args : RespValue * Session T :=
  match hello_loop (drop 1 args) 2 s with
  | (Err e, s') => (e, s')
  | (Ok proto, s') =>
      if negb (proto =? 2) then (Error (B "NOPROTO unsupported protocol version"), s')
      else
        (Array (Some [bulk (B "server"); bulk (B "redis"); bulk (B "version"); bulk version;
                      bulk (B "proto"); Integer 2; bulk (B "id"); bulk (to_dec (sess_id s'));
                      bulk (B "mode"); bulk (B "standalone"); bulk (B "role"); bulk (B "master");
                      bulk (B "modules"); Array (Some [])]), s')
  end.

(** ** CLIENT *)

Definition render_client_info (id : Z) (name lib ver : list Z) (db : Z) (addr : list Z) : list Z :=
  B "id=" ++ to_dec id ++ B " addr=" ++ addr ++ B " laddr=" ++ addr ++ B " fd=-1 name=" ++ name ++
  B " age=0 idle=0 flags=N db=" ++ to_dec db ++
  B " sub=0 psub=0 ssub=0 multi=-1 watch=0 qbuf=0 qbuf-free=0 argv-mem=0 multi-mem=0 tot-mem=0 redir=-1 resp=2 user=default lib-name=" ++
  lib ++ B " lib-ver=" ++ ver ++ B " tot-net-in=0 tot-net-out=0 events=r cmd=client".

Definition client_info_string s (peer : option (list Z)) : list Z :=
  render_client_info (sess_id s) (client_name s) (lib_name s) (lib_ver s) (current_db s) (addr_of peer).

Definition render_entry (e : ClientEntry) : list Z :=
  render_client_info (ce_id e) (ce_name e) (ce_lib_name e) (ce_lib_ver e) (ce_db e) (ce_addr e).

Definition client_list_string reg : list Z := flat_map (λ e, render_entry e ++ [10]) reg.

(** [name.contains([' ', '\n', '\r'])]. *)
Definition bad_name (name : list Z) : bool :=
  existsb (λ b, (b =? 32) || (b =? 10) || (b =? 13)) name.

Definition unrecognized (attr : list Z) : RespValue :=
  Error (B "ERR Unrecognized option '" ++ from_utf8_lossy attr ++ B "'").

Definition client_reply s (peer : option (list Z)) args reg : RespValue * Session T * list ClientEntry :=
  match args with
  | _ :: subcommand :: rest =>
      let sub := lowercase subcommand in
      if bool_decide (sub = B "id") then (Integer (as_i64 (sess_id s)), s, reg)
      else if bool_decide (sub = B "info") then (bulk (client_info_string s peer), s, reg)
      else if bool_decide (sub = B "list") then (bulk (client_list_string reg), s, reg)
      else if bool_decide (sub = B "setname") then
        match rest with
        | [n] =>
            let name := from_utf8_lossy n in
            if bad_name name then
              (Error (B "ERR Client names cannot contain spaces, newlines or special characters."), s, reg)
            else (SimpleString (B "OK"), set_client_name s name, update_client_name (sess_id s) name reg)
        | _ => (Error (wrong_args (B "client|setname")), s, reg)
        end
      else if bool_decide (sub = B "getname") then
        (if bool_decide (client_name s = []) then BulkString None else bulk (client_name s), s, reg)
      else if bool_decide (sub = B "setinfo") then
        match rest with
        | [attr; v] =>
            if bool_decide (uppercase attr = B "LIB-NAME") then
              let s' := set_lib_name s (from_utf8_lossy v) in
              (SimpleString (B "OK"), s', update_client_meta (sess_id s') (lib_name s') (lib_ver s') reg)
            else if bool_decide (uppercase attr = B "LIB-VER") then
              let s' := set_lib_ver s (from_utf8_lossy v) in
              (SimpleString (B "OK"), s', update_client_meta (sess_id s') (lib_name s') (lib_ver s') reg)
            else (unrecognized attr, s, reg)
        | _ => (Error (wrong_args (B "client|setinfo")), s, reg)
        end
      else if bool_decide (sub = B "getinfo") then
        match rest with
        | [attr] =>
            (if bool_decide (uppercase attr = B "LIB-NAME") then bulk (lib_name s)
             else if bool_decide (uppercase attr = B "LIB-VER") then bulk (lib_ver s)
             else unrecognized attr, s, reg)
        | _ => (Error (wrong_args (B "client|getinfo")), s, reg)
        end
      else
        (Error (B "ERR unknown subcommand '" ++ from_utf8_lossy subcommand ++ B "'. Try CLIENT HELP."), s, reg)
  | _ => (Error (wrong_args (B "client")), s, reg)
  end.
End Sessions.

(** [FixedReply]: a reply computed when the command is queued. *)
Definition FixedReply (reply : RespValue) : WireOp := pure_wire (λ _, reply).
Definition fixed_op {T} (reply : RespValue) : QueuedOp T := mkQueuedOp NoOp (FixedReply reply) false true false None.


(** Both act on the session, and CLIENT on the registry, when they are queued. *)
Definition hello {T} (version : list Z) (s : Session T) (args : list (list Z)) : QueuedOp T * Session T :=
  let '(reply, s') := hello_reply version s args in (fixed_op reply, s').

Definition client {T} (s : Session T) (peer : option (list Z)) (args : list (list Z)) (reg : list ClientEntry)
  : QueuedOp T * Session T * list ClientEntry :=
  let '(reply, s', reg') := client_reply s peer args reg in (fixed_op reply, s', reg').

(** ** INFO *)

(** What identifies the build and the process. *)
Record Build : Type := mkBuild {
  b_version : list Z;
  b_os : list Z;
  b_arch : list Z;
  b_pid : Z;
  b_run_id : list Z
}.

(** The uptime is read twice. *)
Definition info_lines (b : Build) (p : Process) (uptime uptime' now_secs : Z) : list (list Z) :=
   [B "# Server"; B "redis_version:" ++ REDIS_VERSION; B "invar_version:" ++ b_version b;
    B "redis_git_sha1:00000000"; B "redis_git_dirty:0"; B "redis_build_id:0000000000000000";
    B "redis_mode:standalone"; B "os:" ++ b_os b ++ B " " ++ b_arch b; B "arch_bits:64";
    B "multiplexing_api:epoll"; B "process_id:" ++ to_dec (b_pid b); B "run_id:" ++ b_run_id b;
    B "tcp_port:" ++ to_dec (tcp_port p); B "uptime_in_seconds:" ++ to_dec uptime;
    B "uptime_in_days:" ++ to_dec (uptime' / 86400); B "hz:10"; B "configured_hz:10"; B "lru_clock:0";
    B "executable:invar"; B "config_file:"; B "io_threads_active:0";
    []; B "# Clients"; B "connected_clients:" ++ to_dec (connected_clients p); B "cluster_connections:0";
    B "maxclients:10000"; B "client_recent_max_input_buffer:0"; B "client_recent_max_output_buffer:0";
    B "blocked_clients:0"; B "tracking_clients:0"; B "pubsub_clients:0"; B "watching_clients:0";
    B "clients_in_timeout_table:0"; B "total_watched_keys:0"; B "total_blocking_keys:0";
    B "total_blocking_keys_on_nokey:0";
    []; B "# Memory"; B "used_memory:0"; B "used_memory_human:0B"; B "used_memory_rss:0";
    B "used_memory_peak:0"; B "used_memory_peak_human:0B"; B "used_memory_lua:0"; B "maxmemory:0";
    B "maxmemory_human:0B"; B "maxmemory_policy:noeviction"; B "mem_fragmentation_ratio:1.00";
    B "mem_allocator:libc";
    []; B "# Persistence"; B "loading:0"; B "async_loading:0"; B "rdb_changes_since_last_save:0";
    B "rdb_bgsave_in_progress:0"; B "rdb_last_save_time:" ++ to_dec now_secs; B "rdb_last_bgsave_status:ok";
    B "rdb_last_bgsave_time_sec:0"; B "rdb_current_bgsave_time_sec:-1"; B "rdb_saves:0"; B "aof_enabled:0";
    B "aof_rewrite_in_progress:0"; B "aof_rewrite_scheduled:0"; B "aof_last_rewrite_time_sec:-1";
    B "aof_current_rewrite_time_sec:-1"; B "aof_last_bgrewrite_status:ok"; B "aof_rewrites:0";
    []; B "# Stats"; B "total_connections_received:" ++ to_dec (total_connections_received p);
    B "total_commands_processed:0"; B "instantaneous_ops_per_sec:0"; B "total_net_input_bytes:0";
    B "total_net_output_bytes:0"; B "rejected_connections:0"; B "sync_full:0"; B "sync_partial_ok:0";
    B "sync_partial_err:0"; B "expired_keys:0"; B "evicted_keys:0"; B "keyspace_hits:0"; B "keyspace_misses:0";
    B "pubsub_channels:0"; B "pubsub_patterns:0"; B "latest_fork_usec:0"; B "total_forks:0";
    []; B "# Replication"; B "role:master"; B "connected_slaves:0"; B "master_failover_state:no-failover";
    B "master_replid:" ++ b_run_id b; B "master_replid2:0000000000000000000000000000000000000000";
    B "master_repl_offset:0"; B "second_repl_offset:-1"; B "repl_backlog_active:0";
    B "repl_backlog_size:1048576"; B "repl_backlog_first_byte_offset:0"; B "repl_backlog_histlen:0";
    []; B "# CPU"; B "used_cpu_sys:0.000000"; B "used_cpu_user:0.000000"; B "used_cpu_sys_children:0.000000";
    B "used_cpu_user_children:0.000000"; B "used_cpu_sys_main_thread:0.000000";
    B "used_cpu_user_main_thread:0.000000";
    []; B "# Modules";
    []; B "# Cluster"; B "cluster_enabled:0";
    []; B "# Keyspace"].

Definition info_string (b : Build) (p : Process) (uptime uptime' now_secs : Z) : list Z :=
  flat_map (λ line, line ++ CRLF) (info_lines b p uptime uptime' now_secs).

Definition info {T} (b : Build) (p : Process) (uptime uptime' now_secs : Z) : QueuedOp T :=
  fixed_op (bulk (info_string b p uptime uptime' now_secs)).

Definition hex_encode (bytes : list Z) : list Z :=
  flat_map (λ b, [hex_digit (Z.shiftr b 4); hex_digit (Z.land b 15)]) bytes.

(** ** SAVE and FLUSH *)

(** [KeyValueStore::sync], [destroy] and [drop_prefix]. *)
Class StoreAdmin (D : Type) : Type := {
  sa_sync : D → result () KvError * D;
  sa_destroy : D → result () KvError * D;
  sa_drop_prefix : list Z → D → result () KvError * D
}.

Section Flush.
Context {D : Type} `{!StoreAdmin D}.

(** [store.call().await?]. *)
Definition on_store (call : D → result () KvError * D) (k : D → result DbResult DbError * D) (d : D)
  : result DbResult DbError * D :=
  match call d with
  | (Ok _, d') => k d'
  | (Err e, d') => (Err (Kv e), d')
  end.

Definition SaveOp : D → result DbResult DbError * D := on_store sa_sync (λ d, (Ok RUnit, d)).

Definition FlushAllOp : D → result DbResult DbError * D := on_store sa_destroy (λ d, (Ok RUnit, d)).

Definition FlushDbOp (prefix private_prefix namespace_prefix : list Z) : D → result DbResult DbError * D :=
  on_store (sa_drop_prefix prefix) (
  on_store (sa_drop_prefix private_prefix) (
  on_store (sa_drop_prefix namespace_prefix) (λ d, (Ok RUnit, d)))).

Definition flushdb {T} (s : Session T) : D → result DbResult DbError * D :=
  FlushDbOp (prefix s) (private_prefix s) (B "+" ++ prefix s).
End Flush.

(** ** The administration of a Fjall store *)

(** [OptimisticTxDatabase] and its keyspace: persisting, clearing, the keys of a prefix
    outside any transaction, and optimistic transactions; a commit may find a conflict. *)
Class FjallDb (D F : Type) : Type := {
  fd_persist : D → result () () * D;
  fd_clear : D → result () () * D;
  fd_prefix_keys : list Z → D → list (result (list Z) ());
  fd_write_tx : D → result F () * D;
  fd_commit : F → D → result (result () ()) () * D
}.

Section FjallAdmin.
Context {D F : Type} `{!FjallLib F, !FjallDb D F}.

(** The keys yielded before the first error. *)
Fixpoint collect_keys (guards : list (result (list Z) ())) : result (list (list Z)) KvError :=
  match guards with
  | [] => Ok []
  | Err e :: _ => Err (map_fjall_error e)
  | Ok k :: rest => match collect_keys rest with Ok ks => Ok (k :: ks) | Err e => Err e end
  end.

Definition map_err {A} (r : result A () * D) : result A KvError * D :=
  match r with (Ok a, d) => (Ok a, d) | (Err e, d) => (Err (map_fjall_error e), d) end.

Definition fjall_sync (d : D) : result () KvError * D := map_err (fd_persist d).

Definition fjall_destroy (d : D) : result () KvError * D := map_err (fd_clear d).

Definition fjall_drop_prefix (prefix : list Z) (d : D) : result () KvError * D :=
  match collect_keys (fd_prefix_keys prefix d) with
  | Err e => (Err e, d)
  | Ok [] => (Ok (), d)
  | Ok keys =>
      match map_err (fd_write_tx d) with
      | (Err e, d) => (Err e, d)
      | (Ok tx, d) =>
          match map_err (fd_commit (fold_left (λ tx key, fj_remove key tx) keys tx) d) with
          | (Ok (Ok _), d) => (Ok (), d)
          | (Ok (Err _), d) => (Err Conflict, d)
          | (Err e, d) => (Err e, d)
          end
      end
  end.

#[export] Instance fjall_admin : StoreAdmin D := {|
  sa_sync := fjall_sync;
  sa_destroy := fjall_destroy;
  sa_drop_prefix := fjall_drop_prefix
|}.
End FjallAdmin.

(** ** What the store promises *)

(** The entries outside a prefix. *)
Definition outside {V} (p : list Z) (m : gmap (list Z) V) : gmap (list Z) V :=
  filter (λ kv, starts_with p kv.1 = false) m.

Class StoreAdminLaws (D : Type) `{!StoreAdmin D} {V : Type} (stored : D → gmap (list Z) V) (healthy : D → Prop)
  : Prop := {
  destroy_law d : healthy d → ∃ d', sa_destroy d = (Ok (), d') ∧ healthy d' ∧ stored d' = ∅;
  drop_prefix_law p d : healthy d →
    ∃ d', sa_drop_prefix p d = (Ok (), d') ∧ healthy d' ∧ stored d' = outside p (stored d)
}.

(** Documented behaviour of the database: with no other writer at work, a transaction
    starts from what is stored and its commit stores what it holds. *)
Class FjallDbLaws (D F : Type) `{!FjallLib F, !FjallDb D F}
    (contents : F → gmap (list Z) (list Z)) (tx_healthy : F → Prop)
    (stored : D → gmap (list Z) (list Z)) (healthy : D → Prop) : Prop := {
  fd_clear_law d : healthy d → ∃ d', fd_clear d = (Ok (), d') ∧ healthy d' ∧ stored d' = ∅;
  fd_prefix_keys_law p d : healthy d →
    ∃ l, fd_prefix_keys p d = Ok <$> l ∧ ∀ k, k ∈ l ↔ is_Some (stored d !! k) ∧ starts_with p k = true;
  fd_write_tx_law d : healthy d →
    ∃ tx d', fd_write_tx d = (Ok tx, d') ∧ healthy d' ∧ stored d' = stored d ∧ tx_healthy tx ∧ contents tx = stored d;
  fd_commit_law tx d : healthy d → tx_healthy tx →
    ∃ d', fd_commit tx d = (Ok (Ok ()), d') ∧ healthy d' ∧ stored d' = contents tx
}.

Section FjallAdminLaws.
Context {D F : Type} `{!FjallLib F, !FjallDb D F}.
Context {contents : F → gmap (list Z) (list Z)} {tx_healthy : F → Prop}.
Context {stored : D → gmap (list Z) (list Z)} {healthy : D → Prop}.
Context `{!FjallLaws F contents tx_healthy, !FjallDbLaws D F contents tx_healthy stored healthy}.

Lemma collect_keys_ok (l : list (list Z)) : collect_keys (Ok <$> l) = Ok l.
Proof. induction l as [|k l IH]; [done|]. cbn [fmap list_fmap collect_keys] in *. by rewrite IH. Qed.

Lemma remove_all (keys : list (list Z)) (tx : F) :
  tx_healthy tx →
  tx_healthy (fold_left (λ tx key, fj_remove key tx) keys tx) ∧
  ∀ k, contents (fold_left (λ tx key, fj_remove key tx) keys tx) !! k =
    if decide (k ∈ keys) then None else contents tx !! k.
Proof.
  revert tx. induction keys as [|k0 keys IH]; intros tx Ht; cbn [fold_left].
  { split; [done|]. intros k. by rewrite decide_False by set_solver. }
  destruct (fj_remove_law k0 tx Ht) as [Ht1 Hc1]. destruct (IH _ Ht1) as [Ht2 Hc2]. split; [done|].
  intros k. rewrite Hc2, Hc1. destruct (decide (k ∈ keys)); [by rewrite decide_True by set_solver|].
  destruct (decide (k = k0)) as [->|Hne].
  - rewrite decide_True by set_solver. apply lookup_delete_eq.
  - rewrite decide_False by set_solver. by apply lookup_delete_ne.
Qed.

Lemma lookup_outside {V} (p k : list Z) (m : gmap (list Z) V) :
  outside p m !! k = if starts_with p k then None else m !! k.
Proof.
  unfold outside. destruct (starts_with p k) eqn:E.
  - apply map_lookup_filter_None. right. intros x _. simpl. congruence.
  - destruct (m !! k) as [v|] eqn:Em.
    + by apply map_lookup_filter_Some.
    + apply map_lookup_filter_None. by left.
Qed.

Lemma fjall_drop_prefix_spec p d :
  healthy d → ∃ d', fjall_drop_prefix p d = (Ok (), d') ∧ healthy d' ∧ stored d' = outside p (stored d).
Proof.
  intros Hd. unfold fjall_drop_prefix. destruct (fd_prefix_keys_law p d Hd) as (l & -> & Hl).
  rewrite collect_keys_ok. destruct l as [|k0 l0] eqn:El.
  - exists d. split; [done|]. split; [done|]. apply map_eq. intros k. rewrite lookup_outside.
    destruct (starts_with p k) eqn:E; [|done]. destruct (stored d !! k) eqn:Ek; [|done].
    assert (k ∈ @nil (list Z)) by (apply Hl; eauto). set_solver.
  - rewrite <- El in *. clear El.
    destruct (fd_write_tx_law d Hd) as (tx & d1 & -> & Hd1 & Hs1 & Ht & Hc). cbn [map_err].
    destruct (remove_all l tx Ht) as [Ht' Hrm].
    destruct (fd_commit_law _ d1 Hd1 Ht') as (d2 & -> & Hd2 & Hs2). cbn [map_err].
    exists d2. split; [done|]. split; [done|]. rewrite Hs2. apply map_eq. intros k. rewrite Hrm, Hc, lookup_outside.
    destruct (decide (k ∈ l)) as [Hin|Hout].
    + apply Hl in Hin as [_ ->]. done.
    + destruct (starts_with p k) eqn:E; [|done]. destruct (stored d !! k) eqn:Ek; [|done].
      exfalso. apply Hout, Hl. eauto.
Qed.

#[export] Instance fjall_admin_laws : StoreAdminLaws D (StoreAdmin0:=fjall_admin (F:=F)) stored healthy.
Proof.
  split; [|apply fjall_drop_prefix_spec]. intros d Hd. unfold sa_destroy. simpl. unfold fjall_destroy.
  destruct (fd_clear_law d Hd) as (d' & -> & ?). by exists d'.
Qed.
End FjallAdminLaws.

(** ** Connected clients *)

Section Clients.
Context {T : Type} (version : list Z).
#[local] Abbreviation conn := (Session T * option (list Z))%type.

(** The process; the connections that are being served, in the order they registered; the
    static [NEXT_CONNECTION_ID]; and how many tasks are spawned and have not made their
    session yet, have left [handle_connection] and not been counted off yet, and have
    panicked in it. *)
Record Sys : Type := mkSys {
  proc : Process;
  clients : list conn;
  next_connection_id : Z;
  starting : nat;
  ending : nat;
  crashed : nat
}.

Definition sys_new : Sys := mkSys process_new [] 1 0 0 0.

(** A socket is accepted and its task spawned; the task makes its session and registers it;
    a client sends CLIENT or HELLO; a client changes its database; the handler of a client
    returns, which drops its guard; the task then counts it off; or the handler panics, which
    drops its guard too but unwinds past the counting. *)
Inductive ClientEvent : Type :=
| Accept
| Start (peer : option (list Z))
| ClientCmd (id : Z) (args : list (list Z))
| HelloCmd (id : Z) (args : list (list Z))
| Select (id db : Z)
| Close (id : Z)
| CountOff
| Crash (id : Z).

Definition is_client (id : Z) (c : conn) : bool := sess_id c.1 =? id.
Definition find_client (id : Z) (l : list conn) : option conn := List.find (is_client id) l.
Definition put_client (id : Z) (s : Session T) (l : list conn) : list conn :=
  set_first (is_client id) (λ c, (s, c.2)) l.

Definition with_clients (p : Process) (l : list conn) (y : Sys) : Sys :=
  mkSys p l (next_connection_id y) (starting y) (ending y) (crashed y).

(** The guard of a client is dropped. *)
Definition dropped (id : Z) (y : Sys) : Sys :=
  with_clients (with_registry (unregister_session id (client_registry (proc y))) (proc y))
    (List.filter (λ c, negb (is_client id c)) (clients y)) y.

Definition sys_step (y : Sys) (e : ClientEvent) : Sys :=
  let p := proc y in
  match e with
  | Accept => mkSys (conn_opened p) (clients y) (next_connection_id y) (S (starting y)) (ending y) (crashed y)
  | Start peer =>
      match starting y with
      | O => y
      | S n =>
          let s := session_new (next_connection_id y) in
          mkSys (with_registry (register_session s peer (client_registry p)) p) (clients y ++ [(s, peer)])
            (as_u64 (next_connection_id y + 1)) n (ending y) (crashed y)
      end
  | ClientCmd id args =>
      match find_client id (clients y) with
      | Some (s, peer) =>
          let '(_, s', reg') := client_reply s peer args (client_registry p) in
          with_clients (with_registry reg' p) (put_client id s' (clients y)) y
      | None => y
      end
  | HelloCmd id args =>
      match find_client id (clients y) with
      | Some (s, _) => with_clients p (put_client id (snd (hello_reply version s args)) (clients y)) y
      | None => y
      end
  | Select id db =>
      match find_client id (clients y) with
      | Some (s, _) => with_clients p (put_client id (switch_db s db) (clients y)) y
      | None => y
      end
  | Close id =>
      match find_client id (clients y) with
      | Some _ =>
          let y' := dropped id y in
          mkSys (proc y') (clients y') (next_connection_id y') (starting y') (S (ending y')) (crashed y')
      | None => y
      end
  | CountOff =>
      match ending y with
      | O => y
      | S n => mkSys (conn_closed p) (clients y) (next_connection_id y) (starting y) n (crashed y)
      end
  | Crash id =>
      match find_client id (clients y) with
      | Some _ =>
          let y' := dropped id y in
          mkSys (proc y') (clients y') (next_connection_id y') (starting y') (ending y') (S (crashed y'))
      | None => y
      end
  end.

Definition sys_run (es : list ClientEvent) : Sys := fold_left sys_step es sys_new.

(** What the registry shows of a client: its database is the one it started with. *)
Definition shown (c : conn) : ClientEntry :=
  mkClient (sess_id c.1) (client_name c.1) (lib_name c.1) (lib_ver c.1) 0 (addr_of c.2).

(** HELLO renames a client without telling the registry. *)
Definition tells_registry (e : ClientEvent) : Prop :=
  match e with HelloCmd _ args => B "SETNAME" ∉ (uppercase <$> args) | _ => True end.

(** *** Lemmas *)
Lemma has_id_shown id c : has_id id (shown c) = is_client id c.
Proof. done. Qed.

Lemma set_first_fmap {A C} (g : A → C) p p' f f' (l : list A) x :
  (∀ y, p (g y) = p' y) → List.find p' l = Some x → f (g x) = g (f' x) →
  set_first p f (g <$> l) = g <$> set_first p' f' l.
Proof.
  intros Hp Hx Hf. induction l as [|y l IH]; [done|]. cbn [fmap list_fmap set_first List.find] in *. rewrite Hp.
  destruct (p' y) eqn:E; [injection Hx as ->; cbn [list_fmap]; by rewrite Hf|]. cbn [list_fmap]. by rewrite IH.
Qed.

Lemma set_first_id {A} (p : A → bool) f (l : list A) x :
  List.find p l = Some x → f x = x → set_first p f l = l.
Proof.
  intros Hx Hf. induction l as [|y l IH]; simpl in *; [done|].
  destruct (p y) eqn:E; [injection Hx as ->; by rewrite Hf|]. by rewrite IH.
Qed.

Lemma filter_fmap_b {A C} (g : A → C) p (l : list A) :
  List.filter p (g <$> l) = g <$> List.filter (λ x, p (g x)) l.
Proof.
  induction l as [|x l IH]; [done|]. cbn [fmap list_fmap List.filter]. rewrite IH. by destruct (p (g x)).
Qed.

Lemma find_client_id id (l : list conn) s peer : find_client id l = Some (s, peer) → sess_id s = id.
Proof. intros Hf. apply find_some in Hf as [_ Hf]. by apply Z.eqb_eq in Hf. Qed.

Lemma put_shown id s s' peer (l : list conn) :
  find_client id l = Some (s, peer) → shown (s', peer) = shown (s, peer) → shown <$> put_client id s' l = shown <$> l.
Proof.
  intros Hf He. unfold put_client.
  rewrite <- (set_first_fmap shown (has_id id) (is_client id) (λ e, shown (s, peer)) _ l (s, peer)); [|done|done|symmetry; exact He].
  apply (set_first_id _ _ _ (shown (s, peer))); [|done]. revert Hf. unfold find_client.
  induction l as [|c l IH]; [done|]. cbn [fmap list_fmap List.find]. rewrite has_id_shown. destruct (is_client id c); [by intros [= ->]|apply IH].
Qed.

(** HELLO without SETNAME leaves the session alone. *)
Lemma hello_loop_keeps rest proto (s : Session T) :
  B "SETNAME" ∉ (uppercase <$> rest) → snd (hello_loop rest proto s) = s.
Proof.
  remember (length rest) as n eqn:Hn. assert (length rest ≤ n)%nat as Hlen by lia. clear Hn.
  revert rest Hlen proto. induction n as [|n IH]; intros [|token rest] Hlen proto Hs; simpl in Hlen; try done; [lia|].
  cbn [hello_loop]. cbn [fmap list_fmap] in Hs. apply not_elem_of_cons in Hs as [Ht Hs].
  case_bool_decide.
  - destruct rest as [|a [|b rest]]; [done..|]. apply IH; [simpl in Hlen; lia|]. cbn [fmap list_fmap] in Hs. set_solver.
  - rewrite bool_decide_eq_false_2 by congruence. destruct (parse_i64 token); [|done]. by apply IH; [lia|].
Qed.

Lemma client_reply_tracks id (s : Session T) peer args (l : list conn) :
  find_client id l = Some (s, peer) →
  snd (client_reply s peer args (shown <$> l)) = shown <$> put_client id (snd (fst (client_reply s peer args (shown <$> l)))) l.
Proof.
  intros Hf. pose proof (find_client_id _ _ _ _ Hf) as Hid.
  assert (shown <$> put_client id s l = shown <$> l) as Hsame by (by eapply put_shown).
  unfold client_reply. destruct args as [|a0 [|sub rest]]; [cbn [fst snd]; by rewrite Hsame..|]. cbv zeta.
  repeat case_match; cbn [fst snd]; try (by rewrite Hsame).
  all: unfold update_client_name, update_client_meta, put_client; cbn [sess_id set_lib_name set_lib_ver set_client];
    rewrite ?Hid; eapply (set_first_fmap shown (has_id id) (is_client id) _ _ l (s, peer)); done.
Qed.

(** *** The invariant *)

Definition client_ids (l : list conn) : list Z := (λ c, sess_id c.1) <$> l.

(** What the counter of connections counts: besides the clients those on their way in and
    out, and for ever those whose handler panicked. *)
Definition counted_clients (y : Sys) : nat := length (clients y) + starting y + ending y + crashed y.

(** Ids are unique and below the next one, which [n] steps leave at most at [n + 1], and the
    counter counts. *)
Record counted (n : nat) (y : Sys) : Prop := {
  ct_nodup : NoDup (client_ids (clients y));
  ct_ids : Forall (λ id, id < next_connection_id y) (client_ids (clients y));
  ct_next : 1 ≤ next_connection_id y ≤ Z.of_nat n + 1;
  ct_count : connected_clients (proc y) = as_i64 (Z.of_nat (counted_clients y))
}.

Lemma as_i64_add n k : as_i64 (as_i64 n + k) = as_i64 (n + k).
Proof.
  unfold as_i64, wrap_signed. f_equal.
  replace ((n + 2 ^ (64 - 1)) mod 2 ^ 64 - 2 ^ (64 - 1) + k + 2 ^ (64 - 1)) with ((n + 2 ^ (64 - 1)) mod 2 ^ 64 + k) by lia.
  rewrite Zplus_mod_idemp_l. f_equal. lia.
Qed.

Lemma find_client_None id (l : list conn) : find_client id l = None → id ∉ client_ids l.
Proof.
  intros Hf Hin. apply list_elem_of_fmap in Hin as (c & -> & Hc). apply list_elem_of_In in Hc.
  pose proof (find_none _ _ Hf c Hc) as Hn. unfold is_client in Hn. by rewrite Z.eqb_refl in Hn.
Qed.

Lemma put_client_ids id (s : Session T) (l : list conn) : sess_id s = id → client_ids (put_client id s l) = client_ids l.
Proof.
  intros Hs. unfold client_ids, put_client. induction l as [|c l IH]; [done|]. cbn [set_first].
  destruct (is_client id c) eqn:E; rewrite !fmap_cons; [|by rewrite IH]. apply Z.eqb_eq in E. simpl. by rewrite Hs, E.
Qed.

Lemma close_ids id (l : list conn) c :
  NoDup (client_ids l) → find_client id l = Some c →
  length l = S (length (List.filter (λ c, negb (is_client id c)) l)) ∧
  NoDup (client_ids (List.filter (λ c, negb (is_client id c)) l)).
Proof.
  unfold client_ids. intros Hnd Hf. split.
  - induction l as [|c' l IH]; [done|]. cbn [fmap list_fmap List.find List.filter length] in *.
    apply NoDup_cons in Hnd as [Hn Hnd]. unfold find_client in *. cbn [List.find] in Hf.
    destruct (is_client id c') eqn:E; cbn [negb].
    + f_equal. apply Z.eqb_eq in E. clear -Hn E. induction l as [|d l IH]; [done|]. cbn [fmap list_fmap List.filter] in *.
      apply not_elem_of_cons in Hn as [Hne Hn]. unfold is_client at 1. rewrite (proj2 (Z.eqb_neq _ _)) by congruence.
      cbn [negb length]. f_equal. by apply IH.
    + cbn [length]. f_equal. by apply IH.
  - eapply sublist_NoDup; [exact Hnd|]. apply fmap_sublist. clear. induction l as [|d l IH]; simpl; [constructor|].
    destruct (negb (is_client id d)); by constructor.
Qed.

Lemma client_reply_id (s : Session T) peer args reg : sess_id (snd (fst (client_reply s peer args reg))) = sess_id s.
Proof. unfold client_reply. by repeat case_match. Qed.

Lemma hello_loop_id rest proto (s : Session T) : sess_id (snd (hello_loop rest proto s)) = sess_id s.
Proof.
  remember (length rest) as n eqn:Hn. assert (length rest ≤ n)%nat as Hlen by lia. clear Hn.
  revert rest Hlen proto s. induction n as [|n IH]; intros [|token rest] Hlen proto s; simpl in Hlen; try done; [lia|].
  cbn [hello_loop]. repeat case_match; subst; try done; cbn [length] in *; rewrite IH by lia; done.
Qed.

Lemma hello_reply_session (s : Session T) args : snd (hello_reply version s args) = snd (hello_loop (drop 1 args) 2 s).
Proof.
  unfold hello_reply. destruct (hello_loop (drop 1 args) 2 s) as [[proto|e] s']; [|done]. by destruct (negb (proto =? 2)).
Qed.

Lemma put_client_length id (s : Session T) (l : list conn) : length (put_client id s l) = length l.
Proof.
  unfold put_client. induction l as [|c l IH]; [done|]. cbn [set_first]. destruct (is_client id c); cbn [length]; by rewrite ?IH.
Qed.

Lemma filter_ids P id (l : list conn) :
  Forall P (client_ids l) → Forall P (client_ids (List.filter (λ c, negb (is_client id c)) l)).
Proof.
  unfold client_ids. rewrite !Forall_forall. intros H x (c & -> & Hc)%list_elem_of_fmap.
  apply H, list_elem_of_fmap. exists c. split; [done|]. apply list_elem_of_In in Hc. apply filter_In in Hc as [Hc _].
  by apply list_elem_of_In.
Qed.

(** A client's session changes. *)
Lemma put_counted n p' id (s : Session T) y :
  counted n y → connected_clients p' = connected_clients (proc y) → sess_id s = id →
  counted n (with_clients p' (put_client id s (clients y)) y).
Proof.
  intros [Hnd Hids Hnext Hc] Hp Hs. split; cbn [clients proc next_connection_id with_clients].
  - by rewrite put_client_ids.
  - by rewrite put_client_ids.
  - done.
  - rewrite Hp, Hc. unfold counted_clients. cbn [clients starting ending crashed with_clients]. by rewrite put_client_length.
Qed.

(** A client's guard is dropped. *)
Lemma dropped_counted n id c y :
  counted n y → find_client id (clients y) = Some c →
  NoDup (client_ids (clients (dropped id y))) ∧
  Forall (λ id, id < next_connection_id y) (client_ids (clients (dropped id y))) ∧
  length (clients y) = S (length (clients (dropped id y))).
Proof.
  intros [Hnd Hids _ _] Hf. destruct (close_ids id (clients y) c Hnd Hf) as [Hlen Hnd'].
  cbn [dropped with_clients clients]. split_and!; [done|by apply filter_ids|done].
Qed.

Lemma counted_later n n' y : counted n y → (n ≤ n')%nat → counted n' y.
Proof. intros [H1 H2 H3 H4] Hle. split; [done..|lia|done]. Qed.

Lemma sys_step_counted n y e : Z.of_nat n + 2 < 2 ^ 64 → counted n y → counted (S n) (sys_step y e).
Proof.
  intros Hn Hy. pose proof (counted_later n (S n) y Hy ltac:(lia)) as Hy'. destruct Hy as [Hnd Hids Hnext Hc].
  destruct e as [|peer|id args|id args|id db|id| |id]; cbn [sys_step];
    try (destruct (find_client id (clients y)) as [[s0 peer0]|] eqn:Ef; [|done]).
  - split; cbn [clients proc next_connection_id]; [done|done|apply Hy'|].
    cbn [conn_opened connected_clients]. rewrite Hc, as_i64_add. unfold counted_clients. cbn. f_equal. lia.
  - destruct (starting y) as [|k] eqn:Est; [done|]. rewrite as_u64_id by lia.
    split; cbn [clients proc next_connection_id].
    + unfold client_ids. rewrite fmap_app. apply NoDup_app. split; [done|]. split; [|apply NoDup_singleton].
      intros x Hx Hin. apply list_elem_of_singleton in Hin as ->. rewrite Forall_forall in Hids. specialize (Hids _ Hx). cbn in Hids. lia.
    + unfold client_ids. rewrite fmap_app. apply Forall_app. split; [eapply Forall_impl; [exact Hids|]; cbn; lia|].
      apply Forall_singleton. cbn. lia.
    + lia.
    + cbn [with_registry connected_clients]. rewrite Hc. unfold counted_clients. cbn [clients starting ending crashed].
      rewrite Est, length_app. cbn [length]. f_equal. lia.
  - pose proof (client_reply_id s0 peer0 args (client_registry (proc y))) as Hid.
    destruct (client_reply s0 peer0 args (client_registry (proc y))) as [[r s'] reg']. cbn [fst snd] in Hid.
    apply put_counted; [done..|]. rewrite Hid. by eapply find_client_id.
  - apply put_counted; [done..|]. rewrite hello_reply_session, hello_loop_id. by eapply find_client_id.
  - apply put_counted; [done..|]. exact (find_client_id id (clients y) s0 peer0 Ef).
  - destruct (dropped_counted _ id _ y Hy' Ef) as (H1 & H2 & H3).
    split; cbn [clients proc next_connection_id] in *; [done|done|apply Hy'|].
    unfold counted_clients in *. cbn [clients starting ending crashed dropped with_clients proc with_registry connected_clients] in *.
    rewrite Hc. f_equal. lia.
  - destruct (ending y) as [|k] eqn:Een; [done|].
    split; cbn [clients proc next_connection_id]; [done|done|apply Hy'|].
    cbn [conn_closed connected_clients]. rewrite Hc. unfold Z.sub. rewrite as_i64_add. unfold counted_clients. cbn. rewrite Een. f_equal. lia.
  - destruct (dropped_counted _ id _ y Hy' Ef) as (H1 & H2 & H3).
    split; cbn [clients proc next_connection_id] in *; [done|done|apply Hy'|].
    unfold counted_clients in *. cbn [clients starting ending crashed dropped with_clients proc with_registry connected_clients] in *.
    rewrite Hc. f_equal. lia.
Qed.

(** The registry shows the clients, in order. *)
Lemma dropped_shown id y :
  client_registry (proc y) = shown <$> clients y →
  client_registry (proc (dropped id y)) = shown <$> clients (dropped id y).
Proof.
  intros Hr. cbn [dropped with_clients proc clients with_registry client_registry]. unfold unregister_session.
  rewrite Hr, filter_fmap_b. done.
Qed.

Lemma sys_step_shown n y e :
  tells_registry e → counted n y → client_registry (proc y) = shown <$> clients y →
  client_registry (proc (sys_step y e)) = shown <$> clients (sys_step y e).
Proof.
  intros Ht Hy Hr. destruct e as [|peer|id args|id args|id db|id| |id]; cbn [sys_step];
    try (destruct (find_client id (clients y)) as [[s0 peer0]|] eqn:Ef; [|done]); cbn [proc clients].
  - done.
  - destruct (starting y) as [|k]; [done|]. cbn [proc clients with_registry client_registry]. unfold register_session. rewrite Hr, fmap_app.
    assert (existsb (has_id (ce_id (snapshot_entry (session_new (next_connection_id y)) peer))) (shown <$> clients y) = false)
      as ->; [|done].
    apply not_true_iff_false. intros He. apply existsb_exists in He as (e & Hin & He).
    apply list_elem_of_In, list_elem_of_fmap in Hin as (c & -> & Hc). apply Z.eqb_eq in He. simpl in He.
    pose proof (ct_ids _ _ Hy) as Hids. rewrite Forall_forall in Hids.
    specialize (Hids (sess_id c.1) ltac:(apply list_elem_of_fmap; by exists c)). cbn in Hids. lia.
  - rewrite Hr. pose proof (client_reply_tracks id s0 peer0 args (clients y) Ef) as Hcr.
    destruct (client_reply s0 peer0 args (shown <$> clients y)) as [[r s'] reg']. exact Hcr.
  - cbn [with_clients proc clients]. rewrite (put_shown id s0 _ peer0); [done|done|]. rewrite hello_reply_session, hello_loop_keeps; [done|].
    simpl in Ht. intros Hin. apply Ht. destruct args as [|a args]; [done|]. cbn [drop] in Hin. rewrite fmap_cons.
    rewrite drop_0 in Hin. by right.
  - cbn [with_clients proc clients]. by rewrite (put_shown id s0 _ peer0).
  - by apply dropped_shown.
  - by destruct (ending y).
  - by apply dropped_shown.
Qed.

Lemma sys_run_ok es :
  Z.of_nat (length es) + 2 < 2 ^ 64 →
  counted (length es) (sys_run es) ∧
  (Forall tells_registry es → client_registry (proc (sys_run es)) = shown <$> clients (sys_run es)).
Proof.
  unfold sys_run.
  assert (∀ n y, counted n y → Z.of_nat n + Z.of_nat (length es) + 2 < 2 ^ 64 →
    counted (n + length es) (fold_left sys_step es y) ∧
    (client_registry (proc y) = shown <$> clients y → Forall tells_registry es →
     client_registry (proc (fold_left sys_step es y)) = shown <$> clients (fold_left sys_step es y))) as H.
  { induction es as [|e es IH]; intros n y Hy Hlen; [rewrite Nat.add_0_r; by split|]. cbn [fold_left length] in *.
    destruct (IH (S n) (sys_step y e)) as [H1 H2]; [apply sys_step_counted; [lia|done]|lia|].
    rewrite Nat.add_succ_r. split; [done|]. intros Hr [Ht Hts]%Forall_cons. apply H2; [|done]. by eapply sys_step_shown. }
  assert (counted 0 sys_new) as H0 by (split; [constructor|constructor|cbn; lia|done]).
  intros Hlen. destruct (H 0%nat sys_new H0 ltac:(lia)) as [H1 H2]. split; [done|auto].
Qed.
End Clients.

(** ** Databases under FLUSHDB *)
Lemma starts_with_not (p l : list Z) : (∀ r, l ≠ p ++ r) → starts_with p l = false.
Proof. intros Hn. apply not_true_iff_false. rewrite starts_with_spec. intros [r Hr]. by eapply Hn. Qed.

(** A key of one kind and database is under the prefix of that kind and database only. *)
Lemma kind_prefix (kind kind' : list Z) db db' rest :
  (kind = [] ∨ kind = B "-" ∨ kind = B "+") → (kind' = [] ∨ kind' = B "-" ∨ kind' = B "+") →
  0 ≤ db → 0 ≤ db' → (kind ≠ kind' ∨ db ≠ db') →
  starts_with (kind ++ to_dec db ++ B ":") (kind' ++ to_dec db' ++ B ":" ++ rest) = false.
Proof.
  intros Hk Hk' Hdb Hdb' Hne. apply starts_with_not. intros r E. rewrite <- !app_assoc in E. change (B ":") with [58] in E. cbn [app] in E.
  destruct Hk as [->|[->| ->]], Hk' as [->|[->| ->]]; cbn [B app] in E;
    try (injection E as E); try (apply db_key_inj in E as [E _]; [naive_solver|done|done]); try done.
  all: try (eapply (db_first_digit db') in E; [done|done]).
  all: symmetry in E; eapply (db_first_digit db) in E; [done|done].
Qed.

Section FlushLemmas.
Context {D : Type} `{!StoreAdmin D} {V : Type} {stored : D → gmap (list Z) V} {healthy : D → Prop}.
Context `{!StoreAdminLaws D stored healthy}.

Lemma flush_db_runs p1 p2 p3 d :
  healthy d →
  ∃ d', FlushDbOp p1 p2 p3 d = (Ok RUnit, d') ∧ healthy d' ∧
    stored d' = outside p3 (outside p2 (outside p1 (stored d))).
Proof.
  intros Hd. unfold FlushDbOp, on_store.
  destruct (drop_prefix_law p1 d Hd) as (d1 & -> & Hd1 & <-).
  destruct (drop_prefix_law p2 d1 Hd1) as (d2 & -> & Hd2 & <-).
  destruct (drop_prefix_law p3 d2 Hd2) as (d3 & -> & Hd3 & <-). by exists d3.
Qed.
End FlushLemmas.

(** The three kinds of keys of a database. *)
Definition db_key (kind : list Z) (db : Z) (rest : list Z) : list Z := kind ++ to_dec db ++ B ":" ++ rest.
Definition key_kind (kind : list Z) : Prop := kind = [] ∨ kind = B "-" ∨ kind = B "+".

(** ** Theorems *)

(** FLUSHDB clears one database and nothing else. On a store that works, it
    succeeds, and afterwards no public key, no private key and no key under a namespace of
    the session's database is left, while every key of every other database is as it was
    (for non-negative database numbers). *)
Theorem flushdb_spec D `{!StoreAdmin D} V (stored : D → gmap (list Z) V) healthy T (s : Session T) d :
  StoreAdminLaws D stored healthy → healthy d → 0 ≤ current_db s →
  ∃ d', flushdb s d = (Ok RUnit, d') ∧ healthy d' ∧
    (∀ k, stored d' !! public_key s k = None ∧ stored d' !! private_key s k = None) ∧
    (∀ id k p suffix, new_namespace id (private_key s k) = Ok p → stored d' !! (prefix_bytes p ++ suffix) = None) ∧
    (∀ kind db rest, key_kind kind → 0 ≤ db → db ≠ current_db s →
       stored d' !! db_key kind db rest = stored d !! db_key kind db rest).
Proof.
  intros HL Hd Hdb. unfold flushdb.
  destruct (flush_db_runs (prefix s) (private_prefix s) (B "+" ++ prefix s) d Hd) as (d' & Hr & Hd' & Hs).
  exists d'. split; [done|]. split; [done|]. rewrite Hs. split; [|split].
  - intros k. rewrite !lookup_outside.
    assert (starts_with (prefix s) (public_key s k) = true) as -> by (apply starts_with_app).
    assert (starts_with (private_prefix s) (private_key s k) = true) as ->.
    { unfold private_prefix, private_key. rewrite app_assoc. apply starts_with_app. }
    split; by repeat case_match.
  - intros id k p suffix Hp. unfold private_key, prefix in Hp. rewrite <- app_assoc in Hp.
    change (INTERNAL_PREFIX ++ ?x) with (45 :: x) in Hp. rewrite (new_namespace_db 45) in Hp by done.
    assert (p = explicit_prefix (B "+" ++ to_dec (current_db s) ++ B ":" ++ id)) as -> by congruence. rewrite lookup_outside, (proj2 (starts_with_spec _ _)); [done|].
    exists (id ++ suffix). unfold prefix. cbn [prefix_bytes explicit_prefix]. by rewrite <- !app_assoc.
  - intros kind db rest Hk Hdb' Hne. rewrite !lookup_outside. unfold db_key, private_prefix, prefix.
    change (to_dec (current_db s) ++ B ":") with ([] ++ to_dec (current_db s) ++ B ":") at 3.
    rewrite !kind_prefix by (unfold INTERNAL_PREFIX; auto). done.
Qed.

Lemma client_list_reply T (s : Session T) peer reg :
  fst (fst (client_reply s peer [B "CLIENT"; B "LIST"] reg)) = bulk (client_list_string reg).
Proof. reflexivity. Qed.

Lemma client_list_shown T (l : list (Session T * option (list Z))) :
  client_list_string (shown <$> l) =
    flat_map (λ c, render_client_info (sess_id c.1) (client_name c.1) (lib_name c.1) (lib_ver c.1) 0
                     (addr_of c.2) ++ [10]) l.
Proof.
  unfold client_list_string. induction l as [|c l IH]; [done|].
  rewrite fmap_cons. cbn [flat_map]. by rewrite IH.
Qed.

(** C37: CLIENT LIST tells which clients are connected, and INFO counts the connections. After
    any sequence of accepted sockets, sessions made, CLIENT and HELLO commands, changes of
    database, disconnections and panics, in which no HELLO renames a client, CLIENT LIST
    prints, for each client being served, in the order they registered, its id, current name,
    library and address, followed by a line break; the ids, drawn from the process-wide
    counter, are all different (for less than 2^64 - 2 steps, after which the counter could
    wrap). This is a line of its own for each client unless a library name or version set by
    CLIENT SETINFO contains a line break ([setinfo_breaks_lines]), and the database printed
    is always 0. The number in INFO is that of the clients, plus the connections accepted but
    not registered yet and those closed but not counted off yet, plus one for every handler
    that has ever panicked, because a panic unwinds past conn_closed. *)
Theorem client_list_tracks_clients T version es id (s : Session T) peer b uptime uptime' now :
  let y := sys_run version es in
  Z.of_nat (length es) + 2 < 2 ^ 64 → Forall tells_registry es → find_client id (clients y) = Some (s, peer) →
  fst (fst (client_reply s peer [B "CLIENT"; B "LIST"] (client_registry (proc y)))) =
    bulk (flat_map (λ c, render_client_info (sess_id c.1) (client_name c.1) (lib_name c.1) (lib_ver c.1) 0
                           (addr_of c.2) ++ [10]) (clients y)) ∧
  (s, peer) ∈ clients y ∧ NoDup (client_ids (clients y)) ∧
  (B "connected_clients:" ++ to_dec (as_i64 (Z.of_nat (length (clients y) + starting y + ending y + crashed y))))
    ∈ info_lines b (proc y) uptime uptime' now.
Proof.
  intros y Hlen Ht Hf. destruct (sys_run_ok (T:=T) version es Hlen) as [[Hnd _ _ Hc] Hr]. specialize (Hr Ht). fold y in Hnd, Hc, Hr.
  split; [|split; [|split; [done|]]].
  - by rewrite client_list_reply, Hr, client_list_shown.
  - apply find_some in Hf as [Hf _]. by apply list_elem_of_In.
  - unfold counted_clients in Hc. rewrite <- Hc. unfold info_lines. do 23 apply list_elem_of_further. left.
Qed.

(** ** Witnesses and edge cases *)

Module MapDb.
(** A map as the database and as its transactions. *)
#[export] Instance map_db : FjallDb (gmap (list Z) (list Z)) (gmap (list Z) (list Z)) := {|
  fd_persist m := (Ok (), m);
  fd_clear m := (Ok (), ∅);
  fd_prefix_keys p m := Ok <$> (MapLib.sorted_where (starts_with p) m).*1;
  fd_write_tx m := (Ok m, m);
  fd_commit tx m := (Ok (Ok ()), tx)
|}.

#[export] Instance map_db_laws :
  FjallDbLaws (gmap (list Z) (list Z)) (gmap (list Z) (list Z)) (FjallLib0:=MapLib.map_lib) id (λ _, True) id (λ _, True).
Proof.
  split; try (simpl; eauto 10; fail). intros p m _. eexists. split; [reflexivity|]. intros k.
  destruct (MapLib.sorted_where_spec (starts_with p) m) as (_ & _ & Hin). rewrite list_elem_of_fmap. split.
  - intros ([k' v] & -> & Hk). apply Hin in Hk as [Hk Hp]. simpl. eauto.
  - intros [[v Hv] Hp]. exists (k, v). split; [done|]. by apply Hin.
Qed.
End MapDb.

#[local] Abbreviation map_store := (gmap (list Z) (list Z)).
#[local] Abbreviation map_admin := (fjall_admin (D:=map_store) (F:=map_store) (FjallLib0:=MapLib.map_lib) (FjallDb0:=MapDb.map_db)).

Definition two_dbs : map_store := {[B "0:a" := B "x"; B "-0:a" := B "y"; B "1:a" := B "z"; B "-1:b" := B "w"]}.

Lemma flushdb_spec_witness :
  ∃ d', flushdb (StoreAdmin0:=map_admin) (session_new (T:=()) 1) two_dbs = (Ok RUnit, d') ∧
    d' !! B "0:a" = None ∧ d' !! B "1:a" = Some (B "z").
Proof.
  destruct (flushdb_spec map_store (StoreAdmin0:=map_admin) (list Z) id (λ _, True) () (session_new 1) two_dbs)
    as (d' & Hr & _ & Hown & _ & Hother).
  - exact (fjall_admin_laws (FjallLaws0:=MapLib.map_lib_laws) (FjallDbLaws0:=MapDb.map_db_laws)).
  - exact I.
  - simpl. lia.
  - exists d'. split; [exact Hr|]. split; [exact (proj1 (Hown (B "a")))|].
    refine (eq_trans (Hother [] 1 (B "a") _ _ _) _); [by left|lia|done|]. vm_compute. reflexivity.
Defined.

Definition sample_clients : list ClientEvent :=
  [Accept; Start None; Accept; Accept; Start (Some (B "10.0.0.1:5")); ClientCmd 2 [B "client"; B "SETNAME"; B "worker"];
   Select 2 3; Start None; Close 1; CountOff; Accept; Start None; Crash 4].

Lemma client_list_tracks_clients_witness :
  let y : Sys (T:=()) := sys_run (B "1.0") sample_clients in
  client_ids (clients y) = [2; 3] ∧ crashed y = 1%nat ∧ NoDup (client_ids (clients y)) ∧
  (B "connected_clients:" ++ B "3") ∈ info_lines (mkBuild [] [] [] 0 []) (proc y) 0 0 0.
Proof.
  split; [vm_compute; reflexivity|]. split; [vm_compute; reflexivity|].
  destruct (find_client (T:=()) 3 (clients (sys_run (B "1.0") sample_clients))) as [[s peer]|] eqn:Ef; [|vm_compute in Ef; discriminate].
  refine (proj2 (proj2 (client_list_tracks_clients () (B "1.0") sample_clients 3 s peer
    (mkBuild [] [] [] 0 []) 0 0 0 _ _ Ef))).
  - vm_compute. reflexivity.
  - repeat constructor.
Defined.

(** A handler that panics is counted for ever. *)
Lemma panic_keeps_count :
  let y : Sys (T:=()) := sys_run (B "1.0") [Accept; Start None; Crash 1] in
  clients y = [] ∧ client_registry (proc y) = [] ∧ connected_clients (proc y) = 1.
Proof. vm_compute. done. Qed.

(** A database number can be negative, and then FLUSHDB of its positive counterpart also
    clears it: the private keys of database 1 look like public keys of database -1. *)
Lemma flushdb_clears_negative_db :
  snd (flushdb (StoreAdmin0:=map_admin) (switch_db (session_new (T:=()) 1) 1)
    {[public_key (switch_db (session_new (T:=()) 1) (-1)) (B "k") := B "v"]}) = ∅.
Proof. vm_compute. reflexivity. Qed.

(** HELLO SETNAME changes the session's name but not the registry, so CLIENT GETNAME and
    CLIENT LIST disagree. *)
Lemma hello_setname_not_listed :
  let y : Sys (T:=()) := sys_run (B "1.0") [Accept; Start None; HelloCmd 1 [B "HELLO"; B "2"; B "SETNAME"; B "w"]] in
  (client_name ∘ fst <$> clients y) = [B "w"] ∧ (ce_name <$> client_registry (proc y)) = [[]].
Proof. vm_compute. done. Qed.

(** HELLO sets the name even when it then refuses the protocol version. *)
Lemma hello_renames_then_refuses :
  let '(reply, s) := hello_reply (B "1.0") (session_new (T:=()) 1) [B "HELLO"; B "SETNAME"; B "w"; B "3"] in
  reply = Error (B "NOPROTO unsupported protocol version") ∧ client_name s = B "w".
Proof. vm_compute. done. Qed.

(** SELECT is not reflected in CLIENT LIST. *)
Lemma select_not_listed :
  let y : Sys (T:=()) := sys_run (B "1.0") [Accept; Start None; Select 1 3] in
  (current_db ∘ fst <$> clients y) = [3] ∧ (ce_db <$> client_registry (proc y)) = [0].
Proof. vm_compute. done. Qed.

(** CLIENT SETINFO takes a library name with a line break, which then breaks the line of
    the client in CLIENT LIST. *)
Lemma setinfo_breaks_lines :
  let y : Sys (T:=()) := sys_run (B "1.0") [Accept; Start None; ClientCmd 1 [B "client"; B "setinfo"; B "lib-name"; [10]]] in
  length (clients y) = 1%nat ∧
  length (List.filter (Z.eqb 10) (client_list_string (client_registry (proc y)))) = 2%nat.
Proof. vm_compute. done. Qed.
