(* ===== verification/CollectionCmds.v ===== *)
(** * Dispatch of the collection commands: src/redis/commands.rs

    The parsing of the list, set, hash and key commands. [with_collections] is a handler
    for the command groups [Commands] leaves open, itself open for the groups that remain.
    The words a command draws at random when it runs are the argument [draws]. *)
From S2P Require Import Prelude Bytes Resp Kv Registry Op Namespace Session Elements Linked Commands.
From S2P Require Hash SetCmds ListCmds Keys.
Import MapStore.

(** What a command draws: the id of a namespace, the seeds of its random choices and node
    keys, and the order in which it goes through a hash set. *)
Record Draws : Type := mkDraws {
  d_id : list Z;
  d_rng : nat → Z * Z;
  d_order : gset (list Z) → list (list Z)
}.

(** ** Options of SCAN, SSCAN and HSCAN *)

Record ScanOpts : Type := mkScanOpts { sc_count : Z; sc_pattern : option (list Z); sc_type : option Z }.

Fixpoint scan_parse (args : list (list Z)) (o : ScanOpts) : result ScanOpts (list Z) :=
  match args with
  | [] => Ok o
  | a :: args' =>
      if eq_ignore_case a (B "match") then
        match args' with
        | [] => Err syntax_error
        | p :: args'' => scan_parse args'' (mkScanOpts (sc_count o) (Some p) (sc_type o))
        end
      else if eq_ignore_case a (B "count") then
        match args' with
        | [] => Err syntax_error
        | c :: args'' =>
            match parse_i64 c with
            | None => Err not_an_integer
            | Some n =>
                if n <? 1 then Err syntax_error
                else scan_parse args'' (mkScanOpts n (sc_pattern o) (sc_type o))
            end
        end
      else if eq_ignore_case a (B "type") then
        match args' with
        | [] => Err syntax_error
        | t :: args'' => scan_parse args'' (mkScanOpts (sc_count o) (sc_pattern o) (Keys.type_byte_of t))
        end
      else Err syntax_error
  end.

Fixpoint sscan_parse (args : list (list Z)) (count : Z) (pattern : option (list Z))
  : result (Z * option (list Z)) (list Z) :=
  match args with
  | [] => Ok (count, pattern)
  | a :: args' =>
      if eq_ignore_case a (B "match") then
        match args' with [] => Err syntax_error | p :: args'' => sscan_parse args'' count (Some p) end
      else if eq_ignore_case a (B "count") then
        match args' with
        | [] => Err syntax_error
        | c :: args'' =>
            match parse_i64 c with
            | None => Err not_an_integer
            | Some n => sscan_parse args'' (Z.max n 1) pattern
            end
        end
      else sscan_parse args' count pattern
  end.

Fixpoint hscan_parse (args : list (list Z)) (pattern : list Z) (count : Z) : result (list Z * Z) (list Z) :=
  match args with
  | [] => Ok (pattern, count)
  | a :: args' =>
      match args' with
      | [] => Err syntax_error
      | v :: args'' =>
          if eq_ignore_case a (B "match") then hscan_parse args'' v count
          else if eq_ignore_case a (B "count") then
            match parse_i64 v with
            | None => Err not_an_integer
            | Some n => hscan_parse args'' pattern n
            end
          else Err syntax_error
      end
  end.

Section Commands.
Context {T : Type} `{!TxOps T} (draws : Draws).
Implicit Types (s : Session T) (args : list (list Z)).
#[local] Abbreviation handler := (Session T → list (list Z) → result (QueuedOp T) (list Z)).

(** ** Shapes of arguments *)

(** One or more keys; a key and one or more values. *)
Definition keys_cmd (name : list Z) (make : Session T → list (list Z) → QueuedOp T) : handler := λ s args,
  match args with [] => Err (wrong_args name) | _ => Ok (make s args) end.
Definition key_rest_cmd (name : list Z) (make : Session T → list Z → list (list Z) → QueuedOp T) : handler := λ s args,
  match args with key :: (_ :: _) as rest => Ok (make s key rest) | _ => Err (wrong_args name) end.
Definition triple_cmd (name : list Z) (make : Session T → list Z → list Z → list Z → QueuedOp T) : handler := λ s args,
  match args with [a; b; c] => Ok (make s a b c) | _ => Err (wrong_args name) end.

(** A key and one or two integers, or an integer and a value. *)
Definition key_int_cmd (name : list Z) (make : Session T → list Z → Z → QueuedOp T) : handler := λ s args,
  match args with
  | [key; n] => match parse_i64 n with Some n => Ok (make s key n) | None => Err not_an_integer end
  | _ => Err (wrong_args name)
  end.
Definition key_range_cmd (name : list Z) (make : Session T → list Z → Z → Z → QueuedOp T) : handler := λ s args,
  match args with
  | [key; a; b] =>
      match parse_i64 a with
      | None => Err not_an_integer
      | Some start => match parse_i64 b with None => Err not_an_integer | Some stop => Ok (make s key start stop) end
      end
  | _ => Err (wrong_args name)
  end.
Definition key_int_value_cmd (name : list Z) (make : Session T → list Z → Z → list Z → QueuedOp T) : handler := λ s args,
  match args with
  | [key; n; value] => match parse_i64 n with Some n => Ok (make s key n value) | None => Err not_an_integer end
  | _ => Err (wrong_args name)
  end.

(** A key and pairs: [args.len() < 4 || !(args.len() - 2).is_multiple_of(2)], the name
    included in [len]. *)
Definition hset_cmd (name : list Z) (make : Session T → list Z → list (list Z) → QueuedOp T) : handler := λ s args,
  match args with
  | key :: rest => if (length args <? 3)%nat || Nat.odd (length rest) then Err (wrong_args name) else Ok (make s key rest)
  | [] => Err (wrong_args name)
  end.

(** ** Commands with arguments of their own *)

Definition lpos_cmd : handler := λ s args,
  match args with key :: element :: _ => Ok (ListCmds.Cmd.lpos s key element) | _ => Err (wrong_args (B "lpos")) end.
Definition linsert_cmd : handler := λ s args,
  match args with
  | [key; place; pivot; value] =>
      Ok (ListCmds.Cmd.linsert s (d_rng draws) key (eq_ignore_case place (B "before")) pivot value)
  | _ => Err (wrong_args (B "linsert"))
  end.

Definition sscan_cmd : handler := λ s args,
  match args with
  | key :: cursor :: opts =>
      match sscan_parse opts 10 None with
      | Ok (count, pattern) => Ok (SetCmds.Cmd.sscan s key cursor count pattern)
      | Err e => Err e
      end
  | _ => Err (wrong_args (B "sscan"))
  end.

Definition object_cmd : handler := λ s args,
  match args with _ :: _ :: _ => Ok Keys.Cmd.idle_time | _ => Err (wrong_args (B "object")) end.
Definition move_cmd : handler := λ s args,
  match args with
  | [key; db] =>
      match parse_i64 db with
      | None => Err not_an_integer
      | Some target_db =>
          if target_db <? 0 then Err (B "ERR invalid DB index") else Ok (Keys.Cmd.move_op s key (as_i32 target_db))
      end
  | _ => Err (wrong_args (B "move"))
  end.
Definition scan_cmd : handler := λ s args,
  match args with
  | cursor :: opts =>
      match scan_parse opts (mkScanOpts 10 None None) with
      | Ok o =>
          let pattern := if bool_decide (sc_pattern o = Some (B "*")) then None else sc_pattern o in
          Ok (Keys.Cmd.scan s cursor (sc_count o) pattern (sc_type o))
      | Err e => Err e
      end
  | [] => Err (wrong_args (B "scan"))
  end.

Definition hincrby_cmd : handler := λ s args,
  match args with
  | [key; field; n] =>
      match parse_i64 n with
      | Some amount => Ok (Hash.Cmd.hincrby s (d_id draws) key field amount)
      | None => Err not_an_integer
      end
  | _ => Err (wrong_args (B "hincrby"))
  end.
Definition hrandfield_cmd : handler := λ s args,
  match args with
  | [] => Err (wrong_args (B "hrandfield"))
  | key :: rest =>
      match rest with
      | [] => Ok (Hash.Cmd.hrandfield s (d_rng draws) key 1 false)
      | c :: rest' =>
          match parse_i64 c with
          | None => Err not_an_integer
          | Some count =>
              match rest' with
              | [] => Ok (Hash.Cmd.hrandfield s (d_rng draws) key count false)
              | w :: _ =>
                  if eq_ignore_case w (B "withvalues") then Ok (Hash.Cmd.hrandfield s (d_rng draws) key count true)
                  else Err syntax_error
              end
          end
      end
  end.
Definition hscan_cmd : handler := λ s args,
  match args with
  | key :: cursor :: opts =>
      match hscan_parse opts [] 0 with
      | Ok (pattern, count) => Ok (Hash.Cmd.hscan s key cursor pattern count)
      | Err e => Err e
      end
  | _ => Err (wrong_args (B "hscan"))
  end.

(** ** The table *)

Definition list_commands : list (list Z * handler) :=
  let id := d_id draws in
  let rng := d_rng draws in
  [ (B "lpush", key_rest_cmd (B "lpush") (λ s, ListCmds.Cmd.lpush s id rng));
    (B "rpush", key_rest_cmd (B "rpush") (λ s, ListCmds.Cmd.rpush s id rng));
    (B "lpop", one_key_cmd (B "lpop") ListCmds.Cmd.lpop);
    (B "rpop", one_key_cmd (B "rpop") ListCmds.Cmd.rpop);
    (B "rpoplpush", pair_cmd (B "rpoplpush") (λ s, ListCmds.Cmd.rpoplpush s id rng));
    (B "lpos", lpos_cmd);
    (B "llen", one_key_cmd (B "llen") ListCmds.Cmd.llen);
    (B "lrange", key_range_cmd (B "lrange") ListCmds.Cmd.lrange);
    (B "lindex", key_int_cmd (B "lindex") ListCmds.Cmd.lindex);
    (B "lset", key_int_value_cmd (B "lset") ListCmds.Cmd.lset);
    (B "lrem", key_int_value_cmd (B "lrem") ListCmds.Cmd.lrem);
    (B "ltrim", key_range_cmd (B "ltrim") ListCmds.Cmd.ltrim);
    (B "linsert", linsert_cmd);
    (B "lpushx", pair_cmd (B "lpushx") (λ s, ListCmds.Cmd.lpushx s id rng));
    (B "rpushx", pair_cmd (B "rpushx") (λ s, ListCmds.Cmd.rpushx s id rng)) ].

Definition set_commands : list (list Z * handler) :=
  let id := d_id draws in
  let order := d_order draws in
  [ (B "sadd", key_rest_cmd (B "sadd") (λ s, SetCmds.Cmd.sadd s id));
    (B "srem", key_rest_cmd (B "srem") SetCmds.Cmd.srem);
    (B "scard", one_key_cmd (B "scard") SetCmds.Cmd.scard);
    (B "smembers", one_key_cmd (B "smembers") (SetCmds.Cmd.smembers order));
    (B "sismember", pair_cmd (B "sismember") SetCmds.Cmd.sismember);
    (B "spop", one_key_cmd (B "spop") (λ s, SetCmds.Cmd.spop s (d_rng draws 0%nat)));
    (B "srandmember", one_key_cmd (B "srandmember") (λ s key, SetCmds.Cmd.srandmember order s (d_rng draws) key 1));
    (B "smove", triple_cmd (B "smove") (λ s, SetCmds.Cmd.smove s id));
    (B "sdiff", keys_cmd (B "sdiff") (SetCmds.Cmd.sdiff order));
    (B "sinter", keys_cmd (B "sinter") (SetCmds.Cmd.sinter order));
    (B "sunion", keys_cmd (B "sunion") (SetCmds.Cmd.sunion order));
    (B "sdiffstore", key_rest_cmd (B "sdiffstore") (λ s, SetCmds.Cmd.sdiffstore order s id));
    (B "sinterstore", key_rest_cmd (B "sinterstore") (λ s, SetCmds.Cmd.sinterstore order s id));
    (B "sunionstore", key_rest_cmd (B "sunionstore") (λ s, SetCmds.Cmd.sunionstore order s id));
    (B "sscan", sscan_cmd) ].

Definition key_commands : list (list Z * handler) :=
  [ (B "exists", keys_cmd (B "exists") Keys.Cmd.exists_);
    (B "mget", keys_cmd (B "mget") Keys.Cmd.mget);
    (B "object", object_cmd);
    (B "move", move_cmd);
    (B "rename", pair_cmd (B "rename") Keys.Cmd.rename);
    (B "renamenx", pair_cmd (B "renamenx") Keys.Cmd.rename_nx);
    (B "pttl", one_key_cmd (B "pttl") Keys.Cmd.pttl);
    (B "ttl", one_key_cmd (B "ttl") Keys.Cmd.ttl);
    (B "expire", key_int_cmd (B "expire") Keys.Cmd.expire);
    (B "pexpire", key_int_cmd (B "pexpire") Keys.Cmd.pexpire);
    (B "persist", one_key_cmd (B "persist") Keys.Cmd.persist);
    (B "type", one_key_cmd (B "type") Keys.Cmd.key_type);
    (B "del", keys_cmd (B "del") Keys.Cmd.del);
    (B "unlink", keys_cmd (B "unlink") Keys.Cmd.del);
    (B "keys", one_key_cmd (B "keys") Keys.Cmd.keys);
    (B "scan", scan_cmd) ].

(** HINCRBYFLOAT is not among them. *)
Definition hash_commands : list (list Z * handler) :=
  let id := d_id draws in
  [ (B "hset", hset_cmd (B "hset") (λ s, Hash.Cmd.hset s id));
    (B "hsetnx", triple_cmd (B "hsetnx") (λ s, Hash.Cmd.hsetnx s id));
    (B "hget", pair_cmd (B "hget") Hash.Cmd.hget);
    (B "hmget", key_rest_cmd (B "hmget") Hash.Cmd.hmget);
    (B "hdel", key_rest_cmd (B "hdel") Hash.Cmd.hdel);
    (B "hexists", pair_cmd (B "hexists") Hash.Cmd.hexists);
    (B "hlen", one_key_cmd (B "hlen") Hash.Cmd.hlen);
    (B "hkeys", one_key_cmd (B "hkeys") Hash.Cmd.hkeys);
    (B "hvals", one_key_cmd (B "hvals") Hash.Cmd.hvals);
    (B "hgetall", one_key_cmd (B "hgetall") Hash.Cmd.hgetall);
    (B "hmset", hset_cmd (B "hmset") (λ s, Hash.Cmd.hmset s id));
    (B "hincrby", hincrby_cmd);
    (B "hrandfield", hrandfield_cmd);
    (B "hstrlen", pair_cmd (B "hstrlen") Hash.Cmd.hstrlen);
    (B "hscan", hscan_cmd) ].

Definition collection_commands : list (list Z * handler) :=
  list_commands ++ set_commands ++ key_commands ++ hash_commands.

(** The arms of [dispatch_command] for these commands, then those that remain. *)
Definition with_collections (rest : list Z → Session T → list (list Z) → QueuedOp T * Session T)
    (name : list Z) s args : QueuedOp T * Session T :=
  match find_command name collection_commands with
  | Some h => match h s (drop 1 args) with Ok op => (op, s) | Err msg => error_op s msg end
  | None => rest name s args
  end.
End Commands.

(** ** Handlers *)

Section HandlersOk.
Context {T : Type} `{!TxOps T} (draws : Draws).

Lemma collection_commands_ok :
  Forall (λ e, ∀ s args op, e.2 s args = Ok op → abort_in_tx op = false) (collection_commands (T:=T) draws).
Proof.
  unfold collection_commands, list_commands, set_commands, key_commands, hash_commands.
  repeat (apply Forall_cons; split); [..|constructor]; cbn [snd]; intros s args op;
    unfold key_rest_cmd, one_key_cmd, pair_cmd, keys_cmd, triple_cmd, key_int_cmd, key_range_cmd, key_int_value_cmd,
      hset_cmd, lpos_cmd, linsert_cmd, sscan_cmd, object_cmd, move_cmd, scan_cmd, hincrby_cmd, hrandfield_cmd, hscan_cmd;
    repeat case_match; intros [= <-]; done.
Qed.

(** A command of these groups either dooms a transaction by its parse error or leaves it alone. *)
Lemma with_collections_ok rest : handler_ok rest → handler_ok (with_collections (T:=T) draws rest).
Proof.
  intros Hr name s args. unfold with_collections.
  destruct (find_command name (collection_commands draws)) as [h|] eqn:Ef; [|apply Hr].
  destruct (find_command_Forall _ _ _ _ collection_commands_ok Ef) as [n' Hh].
  destruct (h s (drop 1 args)) as [op|msg] eqn:Eh; [|apply error_op_ok]. apply plain_ok. by eapply Hh.
Qed.

(** Every name has one arm. *)
Lemma command_names_unique :
  NoDup ((string_commands (T:=T)).*1 ++ (collection_commands (T:=T) draws).*1).
Proof. apply (bool_decide_unpack _). vm_compute. exact I. Qed.
End HandlersOk.

(** ** List commands end to end *)

(** The arguments a client sends, and the reply it expects. *)
Definition lcmd_args (key : list Z) (c : ListCmds.lcmd) : list (list Z) :=
  match c with
  | ListCmds.CPush true false vs => B "RPUSH" :: key :: vs
  | ListCmds.CPush false false vs => B "LPUSH" :: key :: vs
  | ListCmds.CPush true true vs => B "RPUSHX" :: key :: vs
  | ListCmds.CPush false true vs => B "LPUSHX" :: key :: vs
  | ListCmds.CPop true => [B "RPOP"; key]
  | ListCmds.CPop false => [B "LPOP"; key]
  | ListCmds.CLen => [B "LLEN"; key]
  | ListCmds.CRange start stop => [B "LRANGE"; key; to_dec start; to_dec stop]
  | ListCmds.CIndex i => [B "LINDEX"; key; to_dec i]
  | ListCmds.CSet i v => [B "LSET"; key; to_dec i; v]
  | ListCmds.CRem count v => [B "LREM"; key; to_dec count; v]
  | ListCmds.CTrim start stop => [B "LTRIM"; key; to_dec start; to_dec stop]
  | ListCmds.CInsert before pivot v => [B "LINSERT"; key; if before then B "BEFORE" else B "AFTER"; pivot; v]
  | ListCmds.CPos v => [B "LPOS"; key; v]
  end.
Definition lcmd_sendable (c : ListCmds.lcmd) : Prop :=
  match c with
  | ListCmds.CPush _ true vs => length vs = 1%nat
  | ListCmds.CPush _ false vs => vs ≠ []
  | ListCmds.CRange a b | ListCmds.CTrim a b => in_i64 a ∧ in_i64 b
  | ListCmds.CIndex i | ListCmds.CSet i _ => in_i64 i
  | ListCmds.CRem n _ => in_i64 n ∧ i64_min < n
  | _ => True
  end.
Definition value_reply (r : result DbResult DbError) : RespValue :=
  match r with
  | Ok (RInt n) => Integer n
  | Ok (ROptBytes v) => BulkString v
  | Ok (RList vs) => Array (Some ((λ v, BulkString (Some v)) <$> vs))
  | Ok (ROptInt (Some n)) => Integer n
  | Ok (ROptInt None) => BulkString None
  | Ok _ => SimpleString (B "OK")
  | Err _ => Error (B "ERR no such key")
  end.

(** The arguments after those that have no effect: all that follow the element in LPOS. *)
Definition lcmd_ignores (c : ListCmds.lcmd) (opts : list (list Z)) : Prop :=
  match c with ListCmds.CPos _ => True | _ => opts = [] end.

Section EndToEnd.
Context (draws : Draws) (clock : nat → Z) (rest : list Z → Session OccTx → list (list Z) → QueuedOp OccTx * Session OccTx).

Lemma dispatch_collection (s : Session OccTx) n args h :
  find_command (lowercase n) (collection_commands draws) = Some h →
  dispatch_command (with_collections draws rest) (clock 0%nat) s (n :: args)
  = match h s args with Ok op => (op, s) | Err msg => error_op s msg end.
Proof.
  intros Hf.
  assert (∃ h', (lowercase n, h') ∈ collection_commands (T:=OccTx) draws) as [h' Hin].
  { revert Hf. generalize (collection_commands (T:=OccTx) draws). intros l. induction l as [|[m g] l IH]; simpl; [done|].
    case_bool_decide; [intros [= ->]; subst; exists h; by left|]. intros H1. destruct (IH H1) as [h' ?]. exists h'. by right. }
  assert (lowercase n ∈ (collection_commands (T:=OccTx) draws).*1) as Hname by (apply list_elem_of_fmap; by exists (lowercase n, h')).
  assert (∀ x, x ∉ (collection_commands (T:=OccTx) draws).*1 → lowercase n ≠ x) as Hne by congruence.
  unfold dispatch_command. cbv zeta.
  repeat (rewrite bool_decide_eq_false_2 by (apply Hne; apply (bool_decide_unpack _); vm_compute; exact I)). cbn [orb].
  assert (find_command (lowercase n) string_commands = None) as ->.
  { clear Hf Hin. assert (∀ (l : list (list Z * (Z → Session OccTx → list (list Z) → result (QueuedOp OccTx) (list Z)))),
      lowercase n ∉ l.*1 → find_command (lowercase n) l = None) as H.
    { intros l. induction l as [|[m g] l IH]; simpl; [done|]. intros Hl. rewrite bool_decide_eq_false_2 by set_solver.
      apply IH. set_solver. }
    apply H. intros Hs. pose proof (command_names_unique (T:=OccTx) draws) as Hnd.
    apply NoDup_app in Hnd as (_ & Hd & _). exact (Hd _ Hs Hname). }
  unfold with_collections. by rewrite Hf.
Qed.

Lemma lcmd_dispatch (s : Session OccTx) key c opts :
  lcmd_sendable c → lcmd_ignores c opts →
  ∃ op w, dispatch_command (with_collections draws rest) (clock 0%nat) s (lcmd_args key c ++ opts) = (op, s) ∧
    db_op op = tx_op (λ now, ListCmds.lcmd_op now (d_id draws) (d_rng draws) (public_key s key) (private_key s key) c) ∧
    wire_op op = pure_wire w ∧ ∀ vs, w (ListCmds.lstep c vs).1 = value_reply (ListCmds.lstep c vs).1.
Proof.
  intros Hc Ho.
  destruct c as [[] [] vs|[]| |a b|i|i v|n v|a b|[] pv v|v]; cbn [lcmd_args lcmd_sendable lcmd_ignores] in *;
    try (subst opts; rewrite app_nil_r); cbn [app]; (erewrite dispatch_collection; [|reflexivity]);
    try (destruct vs as [|v1 vs]; [done|]); try (destruct vs as [|]; [|done]);
    cbn [key_rest_cmd pair_cmd]; unfold pair_cmd, key_range_cmd, key_int_cmd, key_int_value_cmd.
  all: rewrite ?parse_i64_to_dec by (exact Hc || apply Hc).
  all: eexists _, _; split; [reflexivity|]; split; [reflexivity|]; split; [reflexivity|].
  all: intros ws; cbn [ListCmds.lstep]; repeat case_match; simplify_eq/=; done.
Qed.
Lemma lcmd_plain key c opts : plain_command (lcmd_args key c ++ opts).
Proof.
  destruct c as [[] [] vs|[]| |a b|i|i v|n v|a b|[] pv v|v]; apply (bool_decide_unpack _); vm_compute; exact I.
Qed.

(** A command whose database half runs as [Runs] says, outside MULTI. *)
Lemma enqueue_runs (s : Session OccTx) op f w m reg args res m' :
  in_multi s = false → pending s = [] → watched_keys s = ∅ → plain_command args →
  dispatch_command (with_collections draws rest) (clock 0%nat) s args = (op, s) → db_op op = tx_op f → wire_op op = pure_wire w →
  Runs (raw:=occ_map) (ok:=occ_ok (mkStart m Snapshot ∅)) (f (clock 0%nat)) m (outcome_of res) m' → res ≠ Err (Kv Conflict) →
  ∃ s' reg', enqueue_command (with_collections draws rest) quiet clock s (mkWorld m reg) args =
      (Replied [w res], s', mkWorld (match res with Ok _ => m' | Err _ => m end) reg') ∧
    in_multi s' = false ∧ pending s' = [] ∧ watched_keys s' = ∅ ∧ current_db s' = current_db s.
Proof.
  intros Hm Hp Hw Hpl Hd Hop Hwire Hrun Hne.
  destruct (Hrun (occ_begin Snapshot m)) as (t & Et & (Hb & _) & Hr); [by split_and!|done|].
  assert (∀ reg, run (db_op op) (clock 0%nat) (occ_begin Snapshot m) reg = ((outcome_of res, t), reg)) as Hrun'.
  { intros r. rewrite Hop. cbn [run tx_op]. by rewrite Et. }
  destruct res as [v|e]; cbn [outcome_of] in Hrun'.
  - destruct (enqueue_single (with_collections draws rest) clock s op m reg v t args) as (s' & E & H); [done..|].
    rewrite Hwire in E. cbn [pure_wire fst snd] in E. rewrite Hr in E. by eexists s', _.
  - destruct (enqueue_failed (with_collections draws rest) clock s op m reg e t args) as (s' & E & H); [done..|congruence|].
    rewrite Hwire in E. by eexists s', _.
Qed.
End EndToEnd.

(** C33: list commands end to end. RPUSH, LPUSH, RPUSHX, LPUSHX, RPOP, LPOP, LLEN, LRANGE,
    LINDEX, LSET, LREM, LTRIM, LINSERT and LPOS sent as text (command words in capitals,
    numbers in decimal) on a connection outside MULTI, with no watched key, at any time of
    day, are parsed, run in a transaction of an optimistic store and answered with the
    reply the abstract list gives, and the committed store holds the abstract result under
    the key: its nodes relinked, the nodes of removed elements deleted (also those of a
    list that empties, although the comment at the top of list.rs says these are left
    behind), everything else unchanged. A command that fails replies its error and leaves
    the store as it was. What follows the element in LPOS has no effect. Nothing else
    runs on the store meanwhile (what happens when it does is dispatch_atomic), RPOPLPUSH,
    which has two keys, is not among the commands, the count of LREM is not -2^63, the
    node keys drawn are new ones, and the list stays below 2^32 elements. *)
Theorem list_commands_end_to_end (draws : Draws) (clock : nat → Z)
    (rest : list Z → Session OccTx → list (list Z) → QueuedOp OccTx * Session OccTx) (s : Session OccTx) (key : list Z) (c : ListCmds.lcmd)
    (opts : list (list Z)) (m : gmap (list Z) Item) (reg : WatchRegistry) (p : ElementPrefix) (l : list (list Z * list Z)) :
  clock_ok (clock 0%nat) → in_multi s = false → pending s = [] → watched_keys s = ∅ → good m →
  ListCmds.list_at (clock 0%nat) m (public_key s key) (private_key s key) (d_id draws) p l →
  lcmd_sendable c → lcmd_ignores c opts →
  NoDup (l.*1 ++ ListCmds.lcmd_draws (d_rng draws) c) →
  ListCmds.zlen l + ListCmds.zlen (ListCmds.lcmd_draws (d_rng draws) c) < 2 ^ 32 →
  let '(r, vs') := ListCmds.lstep c l.*2 in
  ∃ s' w', enqueue_command (with_collections draws rest) quiet clock s (mkWorld m reg) (lcmd_args key c ++ opts)
      = (Replied [value_reply r], s', w') ∧
    in_multi s' = false ∧ pending s' = [] ∧ current_db s' = current_db s ∧
    match r with
    | Ok _ => ∃ l', l'.*2 = vs' ∧
        ListCmds.list_updated (clock 0%nat) m (public_key s key) (private_key s key) p (w_store w') l'
    | Err _ => w_store w' = m
    end.
Proof.
  intros Hclock Hm Hp Hw Hg Hat Hc Ho Hnd Hsz. destruct (ListCmds.lstep c l.*2) as [r vs'] eqn:Estep.
  destruct (lcmd_dispatch draws clock rest s key c opts Hc Ho) as (op & w & Hd & Hop & Hwire & Hreply).
  specialize (Hreply l.*2). rewrite Estep in Hreply. cbn [fst] in Hreply.
  assert (ListCmds.lcmd_ok c) as Hok.
  { destruct c as [? [] vs| | | | | | | | |]; simpl in *; try done; [by destruct vs|tauto]. }
  pose proof (store_tx_laws (StoreLaws:=occ_laws) (mkStart m Snapshot ∅)) as HT.
  destruct (ListCmds.list_refines (HT:=HT) Hclock (public_key s key) (private_key s key) (d_id draws) (d_rng draws) p c m l
    Hg Hat Hok Hnd Hsz) as (m' & l' & Hrun & Hup & Hv & _). rewrite Estep in Hrun, Hv. cbn [fst snd] in Hrun, Hv.
  destruct (enqueue_runs draws clock rest s op _ w m reg (lcmd_args key c ++ opts) r m' Hm Hp Hw (lcmd_plain key c opts)
    Hd Hop Hwire Hrun) as (s' & reg' & E & H1 & H2 & H3 & H4).
  - intros ->. destruct c as [? [] vs|[]| | | | | | | |]; simpl in Estep; repeat case_match; simplify_eq.
  - rewrite Hreply in E. exists s'. eexists. split_and!; [exact E|done..|]. cbn [w_store].
    destruct r; [|done]. by exists l'.
Qed.

Definition demo_draws : Draws := mkDraws (id_of 1) (ListCmds.demo_rng 1) base.elements.

Lemma list_commands_end_to_end_witness :
  ∃ s' w', enqueue_command (with_collections demo_draws no_other) quiet noon (session_new 1) sample_world
      [B "RPUSH"; B "l"; B "a"; B "b"] = (Replied [Integer 2], s', w') ∧
    ∃ l', l'.*2 = [B "a"; B "b"] ∧
      ListCmds.list_updated 5 ∅ (B "0:l") (B "-0:l") (ListCmds.demo_prefix 1) (w_store w') l'.
Proof.
  pose proof (list_commands_end_to_end demo_draws noon no_other (session_new 1) (B "l")
    (ListCmds.CPush true false [B "a"; B "b"]) [] ∅ registry_new (ListCmds.demo_prefix 1) []) as H.
  destruct H as (s' & w' & H1 & _ & _ & _ & H2).
  - apply clock_ok_5.
  - done.
  - done.
  - done.
  - apply good_empty.
  - by apply (ListCmds.demo_empty_at (B "l") 1).
  - done.
  - done.
  - apply (bool_decide_unpack _). vm_compute. exact I.
  - vm_compute. done.
  - exists s', w'. split; [exact H1|exact H2].
Defined.

(** ** Where the parsers depart from their comments *)

(** A TYPE that SCAN does not know filters nothing, where it should match nothing. *)
Lemma scan_unknown_type_unfiltered :
  scan_parse [B "TYPE"; B "nosuch"] (mkScanOpts 10 None None) = Ok (mkScanOpts 10 None None).
Proof. reflexivity. Qed.

(** LPOS ignores what follows the element, RANK and COUNT included. *)
Lemma lpos_ignores_options (s : Session OccTx) key element opts :
  lpos_cmd s (key :: element :: opts) = lpos_cmd s [key; element].
Proof. reflexivity. Qed.
