(* ===== verification/ZSetCmds.v ===== *)
(** * Dispatch of the sorted set commands: src/redis/commands.rs

    The parsing of the sorted set commands. [with_zsets] is a handler to put behind
    [with_collections]; BZPOPMIN and BZPOPMAX, which may wait, are parsed to a call.
    Proved: a sorted set command sent as text is answered as the map machine [zstep] says
    and leaves the store with the machine's set. *)
From S2P Require Import Prelude Bytes Float64 Resp Kv Registry StreamCodec Op Namespace Session Elements ZSet ZSetStore ZSetSpec Commands CollectionCmds.
Import MapStore.

(** ** Arguments *)

Definition not_a_float_arg : list Z := B "ERR value is not a float".

Definition parse_f64 (a : list Z) : option Z := if utf8_valid a then f64_from_str (trim a) else None.

(** Two integers, one after the other. *)
Definition two_ints (a b : list Z) : result (Z * Z) (list Z) :=
  match parse_i64 a with
  | None => Err not_an_integer
  | Some x => match parse_i64 b with None => Err not_an_integer | Some y => Ok (x, y) end
  end.

(** ** Options of ZRANGE *)

Inductive ZRangeKind : Type := Rank | Score | Lex.
Record ZRangeOptions : Type := mkZRangeOptions {
  zo_kind : option ZRangeKind;
  zo_reverse : bool;
  zo_with_scores : bool;
  zo_limit : option (Z * Z)
}.

Fixpoint zrange_loop (opts : list (list Z)) (o : ZRangeOptions) : result ZRangeOptions (list Z) :=
  match opts with
  | [] => Ok o
  | opt :: opts' =>
      let with_scores := mkZRangeOptions (zo_kind o) (zo_reverse o) true (zo_limit o) in
      let rest :=
        if eq_ignore_case opt (B "rev") && negb (zo_reverse o)
        then zrange_loop opts' (mkZRangeOptions (zo_kind o) true (zo_with_scores o) (zo_limit o))
        else if eq_ignore_case opt (B "byscore") && bool_decide (zo_kind o = None)
        then zrange_loop opts' (mkZRangeOptions (Some Score) (zo_reverse o) (zo_with_scores o) (zo_limit o))
        else if eq_ignore_case opt (B "bylex") && bool_decide (zo_kind o = None)
        then zrange_loop opts' (mkZRangeOptions (Some Lex) (zo_reverse o) (zo_with_scores o) (zo_limit o))
        else Err syntax_error in
      if eq_ignore_case opt (B "withscores") then zrange_loop opts' with_scores
      else if eq_ignore_case opt (B "limit") then
        match opts' with
        | a :: b :: opts'' =>
            match two_ints a b with
            | Ok l => zrange_loop opts'' (mkZRangeOptions (zo_kind o) (zo_reverse o) (zo_with_scores o) (Some l))
            | Err e => Err e
            end
        | _ => rest
        end
      else rest
  end.

Definition limit_needs_by : list Z :=
  B "ERR syntax error, LIMIT is only supported in combination with either BYSCORE or BYLEX".
Definition scores_with_lex : list Z := B "ERR syntax error, WITHSCORES not supported in combination with BYLEX".

Definition parse_zrange_options (opts : list (list Z)) : result (ZRangeKind * ZRangeOptions) (list Z) :=
  match zrange_loop opts (mkZRangeOptions None false false None) with
  | Err e => Err e
  | Ok o =>
      let kind := default Rank (zo_kind o) in
      match kind, zo_limit o with
      | Rank, Some _ => Err limit_needs_by
      | _, _ => match kind with Lex => if zo_with_scores o then Err scores_with_lex else Ok (kind, o) | _ => Ok (kind, o) end
      end
  end.

(** WITHSCORES and LIMIT of ZRANGEBYSCORE and ZREVRANGEBYSCORE; anything else is skipped. *)
Fixpoint score_opts (opts : list (list Z)) (with_scores : bool) (limit : option (Z * Z))
  : result (bool * option (Z * Z)) (list Z) :=
  match opts with
  | [] => Ok (with_scores, limit)
  | opt :: opts' =>
      if eq_ignore_case opt (B "withscores") then score_opts opts' true limit
      else if eq_ignore_case opt (B "limit") then
        match opts' with
        | a :: b :: opts'' =>
            match two_ints a b with Ok l => score_opts opts'' with_scores (Some l) | Err e => Err e end
        | _ => score_opts opts' with_scores limit
        end
      else score_opts opts' with_scores limit
  end.

(** LIMIT of ZRANGEBYLEX and ZREVRANGEBYLEX, which counts only in the first place. *)
Definition lex_limit (opts : list (list Z)) : result (option (Z * Z)) (list Z) :=
  match opts with
  | opt :: a :: b :: _ =>
      if eq_ignore_case opt (B "limit") then match two_ints a b with Ok l => Ok (Some l) | Err e => Err e end else Ok None
  | _ => Ok None
  end.

(** ** Keys, weights and aggregate of ZINTER and ZUNION *)

(** At most [n] weights, and the arguments after them. *)
Fixpoint take_weights (n : nat) (args : list (list Z)) : result (list Z * list (list Z)) (list Z) :=
  match n, args with
  | S n', a :: args' =>
      match parse_f64 a with
      | None => Err not_a_float_arg
      | Some w => match take_weights n' args' with Ok (ws, rest) => Ok (w :: ws, rest) | Err e => Err e end
      end
  | _, _ => Ok ([], args)
  end.

Definition weight_count : list Z := B "ERR weight count does not match number of keys".
Definition is_aggregate (a : list Z) : bool :=
  eq_ignore_case a (B "sum") || eq_ignore_case a (B "min") || eq_ignore_case a (B "max").

(** [num_keys] may be far more than there are arguments, so the loop is bounded by those. *)
Fixpoint combine_opts (fuel : nat) (is_store : bool) (num_keys : Z) (args : list (list Z)) (weights aggregate : list Z)
  : result (list Z * list Z) (list Z) :=
  match fuel, args with
  | S fuel', a :: args' =>
      if eq_ignore_case a (B "weights") then
        match take_weights (Z.to_nat (Z.min num_keys (Z.of_nat (length args')))) args' with
        | Err e => Err e
        | Ok (ws, rest) =>
            let weights := weights ++ ws in
            if bool_decide (Z.of_nat (length weights) = num_keys)
            then combine_opts fuel' is_store num_keys rest weights aggregate else Err weight_count
        end
      else if eq_ignore_case a (B "aggregate") then
        match args' with
        | [] => Err syntax_error
        | g :: args'' =>
            if is_aggregate g then combine_opts fuel' is_store num_keys args'' weights g else Err syntax_error
        end
      else if eq_ignore_case a (B "withscores") && negb is_store then
        combine_opts fuel' is_store num_keys args' weights aggregate
      else Err syntax_error
  | _, _ => Ok (weights, aggregate)
  end.

(** The number of keys and the keys; then what follows. *)
Definition counted_keys (name : list Z) (args : list (list Z)) : result (Z * list (list Z) * list (list Z)) (list Z) :=
  match args with
  | [] => Err (wrong_args name)
  | n :: rest =>
      match parse_i64 n with
      | None => Err not_an_integer
      | Some num_keys =>
          if num_keys <? 0 then Err not_an_integer
          else if Z.of_nat (length rest) <? num_keys then Err (wrong_args name)
          else Ok (num_keys, take (Z.to_nat num_keys) rest, drop (Z.to_nat num_keys) rest)
      end
  end.

Section Commands.
Context {T : Type} `{!TxOps T} (draws : Draws).
Implicit Types (s : Session T) (args : list (list Z)).
#[local] Abbreviation handler := (Session T → list (list Z) → result (QueuedOp T) (list Z)).

(** ** Shapes of arguments *)

(** A key and two bounds, converted to text. *)
Definition bounds_cmd (name : list Z) (make : Session T → list Z → list Z → list Z → QueuedOp T) : handler :=
  triple_cmd name (λ s key a b, make s key (from_utf8_lossy a) (from_utf8_lossy b)).

(** A key, two bounds and options. *)
Definition by_score_cmd (name : list Z)
    (make : Session T → list Z → list Z → list Z → bool → option (Z * Z) → QueuedOp T) : handler := λ s args,
  match args with
  | key :: a :: b :: opts =>
      match score_opts opts false None with
      | Ok (with_scores, limit) => Ok (make s key (from_utf8_lossy a) (from_utf8_lossy b) with_scores limit)
      | Err e => Err e
      end
  | _ => Err (wrong_args name)
  end.
Definition by_lex_cmd (name : list Z)
    (make : Session T → list Z → list Z → list Z → option (Z * Z) → QueuedOp T) : handler := λ s args,
  match args with
  | key :: a :: b :: opts =>
      match lex_limit opts with
      | Ok limit => Ok (make s key (from_utf8_lossy a) (from_utf8_lossy b) limit)
      | Err e => Err e
      end
  | _ => Err (wrong_args name)
  end.

(** ** The commands *)

Definition zadd_cmd : handler := λ s args,
  match args with key :: (_ :: _ :: _) as rest => Ok (Cmd.zadd s (d_id draws) key rest) | _ => Err (wrong_args (B "zadd")) end.

Definition zincrby_cmd : handler := λ s args,
  match args with
  | [key; n; member] =>
      match parse_f64 n with
      | Some incr => Ok (Cmd.zincrby s (d_id draws) key incr member)
      | None => Err not_a_float_arg
      end
  | _ => Err (wrong_args (B "zincrby"))
  end.

Definition zpop_cmd (name : list Z) (make : Session T → list Z → Z → QueuedOp T) : handler := λ s args,
  match args with
  | [] => Err (wrong_args name)
  | [key] => Ok (make s key 1)
  | key :: n :: _ =>
      match parse_i64 n with
      | Some v => if 0 <=? v then Ok (make s key v) else Err not_an_integer
      | None => Err not_an_integer
      end
  end.

Definition zrange_cmd : handler := λ s args,
  match args with
  | key :: a :: b :: opts =>
      match parse_zrange_options opts with
      | Err e => Err e
      | Ok (kind, o) =>
          match kind with
          | Rank =>
              match two_ints a b with
              | Err e => Err e
              | Ok (start, stop) =>
                  Ok (if zo_reverse o then Cmd.zrevrange s key start stop (zo_with_scores o)
                      else Cmd.zrange s key start stop (zo_with_scores o))
              end
          | Score =>
              let first := from_utf8_lossy a in
              let second := from_utf8_lossy b in
              Ok (if zo_reverse o then Cmd.zrevrangebyscore s key first second (zo_with_scores o) (zo_limit o)
                  else Cmd.zrangebyscore s key first second (zo_with_scores o) (zo_limit o))
          | Lex =>
              let first := from_utf8_lossy a in
              let second := from_utf8_lossy b in
              Ok (if zo_reverse o then Cmd.zrevrangebylex s key first second (zo_limit o)
                  else Cmd.zrangebylex s key first second (zo_limit o))
          end
      end
  | _ => Err (wrong_args (B "zrange"))
  end.

Definition zrevrange_cmd : handler := λ s args,
  match args with
  | key :: a :: b :: opts =>
      match two_ints a b with
      | Err e => Err e
      | Ok (start, stop) =>
          let with_scores := match opts with o :: _ => eq_ignore_case o (B "withscores") | [] => false end in
          Ok (Cmd.zrevrange s key start stop with_scores)
      end
  | _ => Err (wrong_args (B "zrevrange"))
  end.

Definition zrandmember_cmd : handler := λ s args,
  match args with
  | [] => Err (wrong_args (B "zrandmember"))
  | [key] => Ok (Cmd.zrandmember s (d_rng draws) key 1)
  | key :: n :: _ =>
      match parse_i64 n with
      | Some count => Ok (Cmd.zrandmember s (d_rng draws) key count)
      | None => Err not_an_integer
      end
  end.

Definition zdiff_cmd : handler := λ s args,
  match args with
  | _ :: _ :: _ =>
      match counted_keys (B "zdiff") args with
      | Err e => Err e
      | Ok (_, keys, rest) =>
          let with_scores := match rest with o :: _ => eq_ignore_case o (B "withscores") | [] => false end in
          Ok (Cmd.zdiff s with_scores keys)
      end
  | _ => Err (wrong_args (B "zdiff"))
  end.

Definition zdiffstore_cmd : handler := λ s args,
  match args with
  | dest :: (_ :: _ :: _) as rest =>
      match counted_keys (B "zdiffstore") rest with
      | Err e => Err e
      | Ok (_, keys, _) => Ok (Cmd.zdiffstore s (d_id draws) dest keys)
      end
  | _ => Err (wrong_args (B "zdiffstore"))
  end.

(** ZINTER and ZUNION. WITHSCORES is looked for among all arguments, the keys included. *)
Definition combine_cmd (name : list Z)
    (make : Session T → list Z → list Z → bool → list (list Z) → QueuedOp T) : handler := λ s args,
  if (length args <? 3)%nat then Err (wrong_args name)
  else
    match counted_keys name args with
    | Err e => Err e
    | Ok (num_keys, keys, rest) =>
        match combine_opts (length rest) false num_keys rest [] (B "SUM") with
        | Err e => Err e
        | Ok (weights, aggregate) =>
            Ok (make s aggregate weights (existsb (λ a, eq_ignore_case a (B "withscores")) args) keys)
        end
    end.
Definition combine_store_cmd (name : list Z)
    (make : Session T → list Z → list Z → list Z → list (list Z) → QueuedOp T) : handler := λ s args,
  match args with
  | dest :: (_ :: _ :: _) as args' =>
      match counted_keys name args' with
      | Err e => Err e
      | Ok (num_keys, keys, rest) =>
          match combine_opts (length rest) true num_keys rest [] (B "SUM") with
          | Err e => Err e
          | Ok (weights, aggregate) => Ok (make s dest aggregate weights keys)
          end
      end
  | _ => Err (wrong_args name)
  end.

Definition zrangestore_cmd : handler := λ s args,
  match args with
  | [dest; src; a; b] =>
      match two_ints a b with
      | Ok (start, stop) => Ok (Cmd.zrangestore s (d_id draws) dest src start stop)
      | Err e => Err e
      end
  | _ => Err (wrong_args (B "zrangestore"))
  end.

Definition zset_commands : list (list Z * handler) :=
  let id := d_id draws in
  [ (B "zadd", zadd_cmd);
    (B "zcard", one_key_cmd (B "zcard") Cmd.zcard);
    (B "zcount", bounds_cmd (B "zcount") Cmd.zcount);
    (B "zincrby", zincrby_cmd);
    (B "zinter", combine_cmd (B "zinter") Cmd.zinter);
    (B "zinterstore", combine_store_cmd (B "zinterstore") (λ s, Cmd.zinterstore s id));
    (B "zlexcount", bounds_cmd (B "zlexcount") Cmd.zlexcount);
    (B "zpopmin", zpop_cmd (B "zpopmin") Cmd.zpopmin);
    (B "zpopmax", zpop_cmd (B "zpopmax") Cmd.zpopmax);
    (B "zrange", zrange_cmd);
    (B "zrangebylex", by_lex_cmd (B "zrangebylex") Cmd.zrangebylex);
    (B "zrangebyscore", by_score_cmd (B "zrangebyscore") Cmd.zrangebyscore);
    (B "zrank", pair_cmd (B "zrank") Cmd.zrank);
    (B "zrem", key_rest_cmd (B "zrem") Cmd.zrem);
    (B "zremrangebylex", bounds_cmd (B "zremrangebylex") Cmd.zremrangebylex);
    (B "zremrangebyrank", key_range_cmd (B "zremrangebyrank") Cmd.zremrangebyrank);
    (B "zremrangebyscore", bounds_cmd (B "zremrangebyscore") Cmd.zremrangebyscore);
    (B "zrevrange", zrevrange_cmd);
    (B "zrevrangebylex", by_lex_cmd (B "zrevrangebylex") Cmd.zrevrangebylex);
    (B "zrevrangebyscore", by_score_cmd (B "zrevrangebyscore") Cmd.zrevrangebyscore);
    (B "zrevrank", pair_cmd (B "zrevrank") Cmd.zrevrank);
    (B "zscore", pair_cmd (B "zscore") Cmd.zscore);
    (B "zdiff", zdiff_cmd);
    (B "zdiffstore", zdiffstore_cmd);
    (B "zmscore", key_rest_cmd (B "zmscore") Cmd.zmscore);
    (B "zrandmember", zrandmember_cmd);
    (B "zunion", combine_cmd (B "zunion") Cmd.zunion);
    (B "zunionstore", combine_store_cmd (B "zunionstore") (λ s, Cmd.zunionstore s id));
    (B "zrangestore", zrangestore_cmd) ].

(** The arms of [dispatch_command] for these commands, then those that remain. *)
Definition with_zsets (rest : list Z → Session T → list (list Z) → QueuedOp T * Session T)
    (name : list Z) s args : QueuedOp T * Session T :=
  match find_command name zset_commands with
  | Some h => match h s (drop 1 args) with Ok op => (op, s) | Err msg => error_op s msg end
  | None => rest name s args
  end.

(** ** BZPOPMIN and BZPOPMAX *)

Definition bad_timeout : list Z := B "ERR timeout is not a float or out of range".

(** The keys and the timeout; the last argument is the timeout. *)
Definition bzpop_args (name : list Z) args : result (list (list Z) * Z) (list Z) :=
  if (length args <? 2)%nat then Err (wrong_args name)
  else
    match parse_f64 (default [] (last args)) with
    | None => Err bad_timeout
    | Some timeout => if f64_lt timeout f64_zero then Err bad_timeout else Ok (take (length args - 1) args, timeout)
    end.
End Commands.

(** ** Handlers *)

Section HandlersOk.
Context {T : Type} `{!TxOps T} (draws : Draws).

Lemma zset_commands_ok :
  Forall (λ e, ∀ s args op, e.2 s args = Ok op → abort_in_tx op = false) (zset_commands (T:=T) draws).
Proof.
  unfold zset_commands. repeat (apply Forall_cons; split); [..|constructor]; cbn [snd]; intros s args op;
    unfold zadd_cmd, one_key_cmd, bounds_cmd, triple_cmd, zincrby_cmd, combine_cmd, combine_store_cmd, zpop_cmd, zrange_cmd,
      by_lex_cmd, by_score_cmd, pair_cmd, key_rest_cmd, key_range_cmd, zrevrange_cmd, zdiff_cmd, zdiffstore_cmd, zrandmember_cmd,
      zrangestore_cmd;
    repeat case_match; intros [= <-]; done.
Qed.

(** A command of this group either dooms a transaction by its parse error or leaves it alone. *)
Lemma with_zsets_ok rest : handler_ok rest → handler_ok (with_zsets (T:=T) draws rest).
Proof.
  intros Hr name s args. unfold with_zsets.
  destruct (find_command name (zset_commands draws)) as [h|] eqn:Ef; [|apply Hr].
  destruct (find_command_Forall _ _ _ _ zset_commands_ok Ef) as [n' Hh].
  destruct (h s (drop 1 args)) as [op|msg] eqn:Eh; [|apply error_op_ok]. apply plain_ok. by eapply Hh.
Qed.

(** Every name has one arm. *)
Lemma zset_names_unique :
  NoDup ((zset_commands (T:=T) draws).*1 ++ (string_commands (T:=T)).*1 ++ (collection_commands (T:=T) draws).*1).
Proof. apply (bool_decide_unpack _). vm_compute. exact I. Qed.
End HandlersOk.

(** ** What a client sends *)

Definition limit_args (limit : option (Z * Z)) : list (list Z) :=
  match limit with Some (offset, count) => [B "LIMIT"; to_dec offset; to_dec count] | None => [] end.
Definition limit_ok (limit : option (Z * Z)) : Prop :=
  match limit with Some (offset, count) => in_i64 offset ∧ in_i64 count | None => True end.
Definition text (a : list Z) : Prop := utf8_valid a = true.

(** The arguments of a command. A bound of a range is text; an increment is any text that
    reads as the number. *)
Definition zcmd_sent (key : list Z) (c : zcmd) (args : list (list Z)) : Prop :=
  match c with
  | CAdd l => args = B "ZADD" :: key :: l ∧ (2 ≤ length l)%nat
  | CRem fs => args = B "ZREM" :: key :: fs ∧ fs ≠ []
  | CIncrBy increment f => ∃ n, args = [B "ZINCRBY"; key; n; f] ∧ parse_f64 n = Some increment
  | CPop n want_min => args = [if want_min then B "ZPOPMIN" else B "ZPOPMAX"; key; to_dec n] ∧ in_i64 n ∧ 0 ≤ n
  | CRemByRank a b => args = [B "ZREMRANGEBYRANK"; key; to_dec a; to_dec b] ∧ in_i64 a ∧ in_i64 b
  | CRemByScore a b => args = [B "ZREMRANGEBYSCORE"; key; a; b] ∧ text a ∧ text b
  | CRemByLex a b => args = [B "ZREMRANGEBYLEX"; key; a; b] ∧ text a ∧ text b
  | CCard => args = [B "ZCARD"; key]
  | CScore f => args = [B "ZSCORE"; key; f]
  | CMScore fs => args = B "ZMSCORE" :: key :: fs ∧ fs ≠ []
  | CRange a b ws rv =>
      args = [B "ZRANGE"; key; to_dec a; to_dec b] ++ (if rv then [B "REV"] else []) ++ (if ws then [B "WITHSCORES"] else []) ∧
      in_i64 a ∧ in_i64 b
  | CRank f rv => args = [if rv then B "ZREVRANK" else B "ZRANK"; key; f]
  | CCount a b => args = [B "ZCOUNT"; key; a; b] ∧ text a ∧ text b
  | CRangeByScore a b ws limit rv =>
      args = [B "ZRANGE"; key; if rv then b else a; if rv then a else b; B "BYSCORE"] ++ (if rv then [B "REV"] else []) ++
             limit_args limit ++ (if ws then [B "WITHSCORES"] else []) ∧ text a ∧ text b ∧ limit_ok limit
  | CRangeByLex a b limit rv =>
      args = [if rv then B "ZREVRANGEBYLEX" else B "ZRANGEBYLEX"; key; if rv then b else a; if rv then a else b] ++ limit_args limit ∧
      text a ∧ text b ∧ limit_ok limit
  | CLexCount a b => args = [B "ZLEXCOUNT"; key; a; b] ∧ text a ∧ text b
  end.

(** The other ways to send some commands: without the count, by the older names of the
    reversed and of the score ranges, and through ZRANGE BYLEX. *)
Definition zcmd_also (key : list Z) (c : zcmd) (args : list (list Z)) : Prop :=
  match c with
  | CPop n want_min => args = [if want_min then B "ZPOPMIN" else B "ZPOPMAX"; key] ∧ n = 1
  | CRange a b ws rv =>
      args = [B "ZREVRANGE"; key; to_dec a; to_dec b] ++ (if ws then [B "WITHSCORES"] else []) ∧
      in_i64 a ∧ in_i64 b ∧ rv = true
  | CRangeByScore a b ws limit rv =>
      args = [if rv then B "ZREVRANGEBYSCORE" else B "ZRANGEBYSCORE"; key; if rv then b else a; if rv then a else b] ++
             limit_args limit ++ (if ws then [B "WITHSCORES"] else []) ∧ text a ∧ text b ∧ limit_ok limit
  | CRangeByLex a b limit rv =>
      args = [B "ZRANGE"; key; if rv then b else a; if rv then a else b; B "BYLEX"] ++ (if rv then [B "REV"] else []) ++
             limit_args limit ∧ text a ∧ text b ∧ limit_ok limit
  | _ => False
  end.

(** The reply to a command. *)
Definition bulk_score (score : option Z) : RespValue :=
  match score with Some score => BulkString (Some (format_f64 score)) | None => BulkString None end.
Definition zreply (r : result DbResult DbError) : RespValue :=
  match r with
  | Ok (RInt n) | Ok (RZAdd n _) | Ok (ROptInt (Some n)) => Integer n
  | Ok (ROptF64 score) => bulk_score score
  | Ok (RF64 score) => bulk_score (Some score)
  | Ok (RList vs) => Array (Some ((λ v, BulkString (Some v)) <$> vs))
  | Ok (RMembers ms) => Array (Some (concat ((λ e : list Z * Z, [BulkString (Some e.1); bulk_score (Some e.2)]) <$> ms)))
  | Ok (RScores scores) => Array (Some (bulk_score <$> scores))
  | Ok _ => BulkString None
  | Err e => err_resp e
  end.

#[export] Instance occ_scan_laws x : TxScanLaws OccTx occ_map (occ_ok x).
Proof. split; simpl; intros; eexists _, _; eauto 8 using scan_where_live. Qed.

Section EndToEnd.
Context (draws : Draws) (clock : nat → Z) (rest : list Z → Session OccTx → list (list Z) → QueuedOp OccTx * Session OccTx).
#[local] Abbreviation other := (with_collections draws (with_zsets draws rest)).

Lemma find_command_name {A} (name : list Z) (l : list (list Z * A)) h : find_command name l = Some h → name ∈ l.*1.
Proof.
  induction l as [|[m g] l IH]; simpl; [done|]. case_bool_decide as E; [intros _; subst; by left|]. intros H. right. by apply IH.
Qed.
Lemma find_command_missing {A} (name : list Z) (l : list (list Z * A)) : name ∉ l.*1 → find_command name l = None.
Proof.
  intros Hn. destruct (find_command name l) as [h|] eqn:E; [|done]. by apply find_command_name in E.
Qed.

Lemma dispatch_zset (s : Session OccTx) n args h :
  find_command (lowercase n) (zset_commands draws) = Some h →
  dispatch_command other (clock 0%nat) s (n :: args) = match h s args with Ok op => (op, s) | Err msg => error_op s msg end.
Proof.
  intros Hf. pose proof (find_command_name _ _ _ Hf) as Hname.
  assert (∀ x, x ∉ (zset_commands (T:=OccTx) draws).*1 → lowercase n ≠ x) as Hne by congruence.
  pose proof (zset_names_unique (T:=OccTx) draws) as Hnd. apply NoDup_app in Hnd as (_ & Hd & _).
  specialize (Hd _ Hname). rewrite not_elem_of_app in Hd. destruct Hd as [Hs Hc].
  unfold dispatch_command. cbv zeta.
  repeat (rewrite bool_decide_eq_false_2 by (apply Hne; apply (bool_decide_unpack _); vm_compute; exact I)). cbn [orb].
  rewrite find_command_missing by done. unfold with_collections. rewrite find_command_missing by done.
  unfold with_zsets. by rewrite Hf.
Qed.

Lemma two_ints_dec a b : in_i64 a → in_i64 b → two_ints (to_dec a) (to_dec b) = Ok (a, b).
Proof. intros Ha Hb. unfold two_ints. by rewrite !parse_i64_to_dec. Qed.

Lemma zrange_options_rank (rv ws : bool) :
  parse_zrange_options ((if rv then [B "REV"] else []) ++ (if ws then [B "WITHSCORES"] else [])) =
  Ok (Rank, mkZRangeOptions None rv ws None).
Proof. by destruct rv, ws. Qed.

Lemma zrange_loop_limit a b l opts o :
  two_ints a b = Ok l →
  zrange_loop (B "LIMIT" :: a :: b :: opts) o = zrange_loop opts (mkZRangeOptions (zo_kind o) (zo_reverse o) (zo_with_scores o) (Some l)).
Proof.
  intros Hl. cbn [zrange_loop]. change (eq_ignore_case (B "LIMIT") (B "withscores")) with false.
  change (eq_ignore_case (B "LIMIT") (B "limit")) with true. cbv iota. by rewrite Hl.
Qed.

Lemma zrange_options_score (rv ws : bool) limit :
  limit_ok limit →
  parse_zrange_options (B "BYSCORE" :: (if rv then [B "REV"] else []) ++ limit_args limit ++ (if ws then [B "WITHSCORES"] else [])) =
  Ok (Score, mkZRangeOptions (Some Score) rv ws limit).
Proof.
  intros Hl. destruct limit as [[o c]|]; [|by destruct rv, ws]. destruct Hl as [Ho Hc]. unfold parse_zrange_options.
  assert (zrange_loop (B "BYSCORE" :: (if rv then [B "REV"] else []) ++ limit_args (Some (o, c)) ++ (if ws then [B "WITHSCORES"] else []))
    (mkZRangeOptions None false false None) =
    zrange_loop (limit_args (Some (o, c)) ++ (if ws then [B "WITHSCORES"] else [])) (mkZRangeOptions (Some Score) rv false None)) as ->
    by (generalize (limit_args (Some (o, c)) ++ (if ws then [B "WITHSCORES"] else [])); intros l; by destruct rv).
  cbn [limit_args app]. rewrite (zrange_loop_limit _ _ (o, c)) by (by apply two_ints_dec). by destruct ws.
Qed.

Lemma lex_limit_args limit : limit_ok limit → lex_limit (limit_args limit) = Ok limit.
Proof.
  intros Hl. destruct limit as [[o c]|]; [|done]. destruct Hl as [Ho Hc]. cbn [limit_args lex_limit].
  rewrite two_ints_dec by done. reflexivity.
Qed.

(** ZADD with nobody waiting. *)
Lemma zadd_write_public {T} `{!TxOps T} now id node args (t t' : T) node' r :
  zadd_write now id node args t = (Ret (node', r), t') → n_public node' = n_public node.
Proof.
  unfold zadd_write, mbind, DbM_bind. destruct (resolved_for_write now id node t) as [[n|e|] t1] eqn:E; try done.
  assert (n_public n = n_public node) as Hn.
  { unfold resolved_for_write, mbind, DbM_bind, mret, DbM_ret in E. destruct (explicit (n_prefix node)); [by injection E as -> _|].
    destruct (resolve_prefix_for_write now id (n_public node) (node_bytes node) t) as [[p|e|] t2]; try done. by injection E as <- _. }
  rewrite <- Hn. case_bool_decide; [done|]. destruct (zadd_flags args no_flags) as [f remaining].
  destruct (flags_error f); [done|]. destruct (_ || _); [done|]. unfold zadd_apply, mbind, DbM_bind, mret, DbM_ret.
  destruct (zset_count now (n_public n) t1) as [[count|e|] t2]; try done.
  destruct (_ && xx f); [by intros [= <- _ _]|]. destruct (zadd_loop _ _ _ _ _ _ t2) as [[tally|e|] t3]; try done.
  destruct (_ || _); [destruct (write_zset_sentinel now _ _ _ t3) as [[|e|] t4]; try done|]; by intros [= <- _ _].
Qed.

Lemma zadd_run_alone {T} `{!TxOps T} now id node key args (t : T) reg :
  try_claim reg (n_public node) = (None, reg) →
  ZAddOp_run now id node key args t reg = (zadd_alone now id node args t, reg).
Proof.
  intros Hc. unfold ZAddOp_run, zadd_alone, mbind, DbM_bind, mret, DbM_ret.
  destruct (zadd_write now id node args t) as [[[n [[f tally]|]]|e|] t1] eqn:E; try done.
  rewrite (zadd_write_public _ _ _ _ _ _ _ _ E). destruct (0 <? t_added tally); [by rewrite Hc|done].
Qed.

(** What a command is parsed to: an operation that does what [zcmd_op] does and replies what
    [zreply] says. *)
Lemma zcmd_dispatch (s : Session OccTx) key c args :
  zcmd_sent key c args →
  ∃ op, dispatch_command other (clock 0%nat) s args = (op, s) ∧
    (∀ now t reg, try_claim reg (public_key s key) = (None, reg) →
       run (db_op op) now t reg = (zcmd_op now (d_id draws) (node_new s key) c t, reg)) ∧
    (∀ z reg, wire_op op (zstep c z).1 reg = (zreply (zstep c z).1, reg)).
Proof.
  intros Hsent.
  destruct c as [l|fs|inc f|n []|a b|a b|a b| |f|fs|a b ws rv|f []|a b|a b ws lim rv|a b lim []|a b]; cbn [zcmd_sent] in Hsent;
    try (subst args); try destruct Hsent as (-> & Ha & Hb & Hl); try destruct Hsent as (-> & Ha & Hb); try destruct Hsent as (-> & Hl);
    try destruct Hsent as (n & -> & Hn);
    try (destruct l as [|x [|y l]]; [cbn in Hl; lia..|]); try (destruct fs as [|f fs]; [done|]);
    cbn [app]; (erewrite dispatch_zset; [|reflexivity]);
    unfold zincrby_cmd, zpop_cmd, key_range_cmd, bounds_cmd, triple_cmd, zrange_cmd, by_lex_cmd, text in *;
    rewrite ?zrange_options_rank, ?zrange_options_score, ?lex_limit_args by done;
    rewrite ?two_ints_dec, ?parse_i64_to_dec by done; rewrite ?from_utf8_lossy_valid by (done || (destruct rv; done));
    rewrite ?Hn, ?(proj2 (Z.leb_le _ _) Hb);
    try (destruct rv; cbn [zo_reverse zo_with_scores zo_limit]);
    (eexists; split; [reflexivity|]; split; [intros; reflexivity || by apply zadd_run_alone|]);
    intros z reg; cbn [zstep]; unfold zadd_step; repeat case_match; simplify_eq/=; try done;
    first [by destruct (by_score a b z)|by destruct (by_lex a b z)].
Qed.

Lemma score_opts_args (ws : bool) limit :
  limit_ok limit → score_opts (limit_args limit ++ (if ws then [B "WITHSCORES"] else [])) false None = Ok (ws, limit).
Proof.
  intros Hl. destruct limit as [[o c]|]; [|by destruct ws]. destruct Hl as [Ho Hc]. cbn [limit_args app score_opts].
  change (eq_ignore_case (B "LIMIT") (B "withscores")) with false.
  change (eq_ignore_case (B "LIMIT") (B "limit")) with true. cbv iota. rewrite two_ints_dec by done. by destruct ws.
Qed.

Lemma zrange_options_lex (rv : bool) limit :
  limit_ok limit →
  parse_zrange_options (B "BYLEX" :: (if rv then [B "REV"] else []) ++ limit_args limit) =
  Ok (Lex, mkZRangeOptions (Some Lex) rv false limit).
Proof.
  intros Hl. destruct limit as [[o c]|]; [|by destruct rv]. destruct Hl as [Ho Hc]. unfold parse_zrange_options.
  assert (zrange_loop (B "BYLEX" :: (if rv then [B "REV"] else []) ++ limit_args (Some (o, c)))
    (mkZRangeOptions None false false None) =
    zrange_loop (limit_args (Some (o, c)) ++ []) (mkZRangeOptions (Some Lex) rv false None)) as ->
    by (rewrite app_nil_r; generalize (limit_args (Some (o, c))); intros l; by destruct rv).
  cbn [limit_args app]. by rewrite (zrange_loop_limit _ _ (o, c)) by (by apply two_ints_dec).
Qed.

(** The same for the other ways to send it. *)
Lemma zcmd_also_dispatch (s : Session OccTx) key c args :
  zcmd_also key c args →
  ∃ op, dispatch_command other (clock 0%nat) s args = (op, s) ∧
    (∀ now t reg, run (db_op op) now t reg = (zcmd_op now (d_id draws) (node_new s key) c t, reg)) ∧
    (∀ z reg, wire_op op (zstep c z).1 reg = (zreply (zstep c z).1, reg)).
Proof.
  intros Hsent.
  destruct c as [| | |n []| | | | | | |a b ws rv| | |a b ws lim []|a b lim rv|]; cbn [zcmd_also] in Hsent; try done;
    first [destruct Hsent as (-> & Ha & Hb & Hl)|destruct Hsent as (-> & ->)]; try subst rv;
    cbn [app]; (erewrite dispatch_zset; [|reflexivity]);
    unfold zpop_cmd, zrevrange_cmd, zrange_cmd, by_score_cmd, text in *;
    rewrite ?zrange_options_lex, ?score_opts_args, ?two_ints_dec by done;
    rewrite ?from_utf8_lossy_valid by (done || (destruct rv; done));
    try (destruct rv; cbn [zo_reverse zo_with_scores zo_limit]);
    try (destruct ws);
    (eexists; split; [reflexivity|]; split; [intros; reflexivity|]);
    intros z reg; cbn [zstep]; repeat case_match; simplify_eq/=; try done;
    first [by destruct (by_score a b z)|by destruct (by_lex a b z)].
Qed.

Lemma zcmd_also_plain key c args : zcmd_also key c args → plain_command args.
Proof.
  intros Hsent.
  destruct c as [| | |n []| | | | | | |a b ws rv| | |a b ws lim []|a b lim rv|]; cbn [zcmd_also] in Hsent; try done;
    destruct Hsent as [-> _]; apply (bool_decide_unpack _); vm_compute; exact I.
Qed.

Lemma zcmd_plain key c args : zcmd_sent key c args → plain_command args.
Proof.
  intros Hsent.
  destruct c as [l|fs|inc f|n []|a b|a b|a b| |f|fs|a b ws rv|f []|a b|a b ws lim rv|a b lim []|a b]; cbn [zcmd_sent] in Hsent;
    try (subst args); try destruct Hsent as [-> _]; try destruct Hsent as (n & -> & _);
    apply (bool_decide_unpack _); vm_compute; exact I.
Qed.

(** Either way. *)
Lemma zcmd_parsed (s : Session OccTx) key c args :
  zcmd_sent key c args ∨ zcmd_also key c args →
  ∃ op, plain_command args ∧ dispatch_command other (clock 0%nat) s args = (op, s) ∧
    (∀ now t reg, try_claim reg (public_key s key) = (None, reg) →
       run (db_op op) now t reg = (zcmd_op now (d_id draws) (node_new s key) c t, reg)) ∧
    (∀ z reg, wire_op op (zstep c z).1 reg = (zreply (zstep c z).1, reg)).
Proof.
  intros [Hsent|Hsent].
  - destruct (zcmd_dispatch s key c args Hsent) as (op & H). exists op. split; [by eapply zcmd_plain|done].
  - destruct (zcmd_also_dispatch s key c args Hsent) as (op & H1 & H2 & H3). exists op.
    split_and!; [by eapply zcmd_also_plain|done|auto|done].
Qed.

(** An error of the machine is a message, not a conflict. *)
Definition is_message (e : DbError) : Prop := match e with Redis _ => True | _ => False end.

Lemma parse_float_bound_message a e : parse_float_bound a = Err e → is_message e.
Proof.
  unfold parse_float_bound. destruct (_ || _); [done|]. destruct (bool_decide _); [done|].
  assert (∀ (o : option Z) (x : bool), match o with Some v => Ok (v, x) | None => Err not_a_float end = Err e → is_message e) as H
    by (intros [] ?; [done|by intros [= <-]]).
  destruct a as [|c l]; [apply H|]. destruct (decide (c = 40)) as [->|Hc]; [apply H|].
  intros E. apply (H (f64_from_str (c :: l)) false). rewrite <- E. destruct c as [|q|q]; try done. do 6 (destruct q as [q|q|]; try done).
Qed.

Lemma parse_lex_bound_message a e : parse_lex_bound a = Err e → is_message e.
Proof.
  unfold parse_lex_bound. destruct (_ || _); [done|]. destruct a as [|c l]; [by intros [= <-]|].
  destruct c as [|q|q]; try (by intros [= <-]). do 7 (try destruct q as [q|q|]; try done; try (by intros [= <-])).
Qed.

Lemma with_bounds_message {A C} (parse : list Z → result A DbError) a b (k : A → A → C) e :
  (∀ x e, parse x = Err e → is_message e) → with_bounds parse a b k = Err e → is_message e.
Proof.
  intros Hp. unfold with_bounds. destruct (parse a) eqn:Ea; [|intros [= <-]; by eapply Hp].
  destruct (parse b) eqn:Eb; [done|intros [= <-]; by eapply Hp].
Qed.

Lemma zadd_step_message args z e z' : zadd_step args z = (Err e, z') → is_message e.
Proof.
  unfold zadd_step. case_bool_decide; [by intros [= <- _]|]. destruct (zadd_flags args no_flags) as [f pairs].
  destruct (flags_error f) as [e'|] eqn:Ef.
  - intros [= <- _]. unfold flags_error in Ef. repeat case_match; simplify_eq; done.
  - destruct (_ || _); [by intros [= <- _]|]. by destruct (add_pairs f pairs (z, 0, 0)) as [[? ?] ?].
Qed.

Lemma zstep_no_conflict c z : (zstep c z).1 ≠ Err (Kv Conflict).
Proof.
  assert (∀ a b, by_score a b z ≠ Err (Kv Conflict)) as Hs by (intros a b E; exact (with_bounds_message _ _ _ _ _ parse_float_bound_message E)).
  assert (∀ a b, by_lex a b z ≠ Err (Kv Conflict)) as Hl by (intros a b E; exact (with_bounds_message _ _ _ _ _ parse_lex_bound_message E)).
  destruct c as [l|fs|inc f|n wm|a b|a b|a b| |f|fs|a b ws rv|f rv|a b|a b ws lim rv|a b lim rv|a b]; cbn [zstep]; try done;
    try (specialize (Hs a b); destruct (by_score a b z); cbn in *; congruence);
    try (specialize (Hl a b); destruct (by_lex a b z); cbn in *; congruence).
  - intros E. destruct (zadd_step l z) as [[r|e] z'] eqn:Ez; cbn in E; [done|]. injection E as ->. by apply zadd_step_message in Ez.
  - by destruct (is_nan _).
Qed.
End EndToEnd.

(** C23: sorted set commands end to end. ZADD with its options, ZREM, ZINCRBY, ZPOPMIN,
    ZPOPMAX, the three ZREMRANGEBY commands, ZCARD, ZSCORE, ZMSCORE, ZRANGE by rank, score
    and name, ZREVRANGE, ZRANGEBYSCORE, ZREVRANGEBYSCORE, ZRANGEBYLEX, ZREVRANGEBYLEX,
    ZRANK, ZREVRANK, ZCOUNT and ZLEXCOUNT sent as text (command words in capitals, ranks
    and limits in decimal, the options in the order BYSCORE or BYLEX, REV, LIMIT,
    WITHSCORES) on a connection outside MULTI with no watched key, at any time of day, on
    a key nobody waits for, are parsed, run in a transaction of an optimistic store and
    answered with the reply the map machine gives; the committed store holds the machine's
    set under the key, everything else unchanged but the set's own entries. A command that
    fails replies its error and leaves the store as it was. Nothing else runs on the store
    meanwhile (what happens when it does is dispatch_atomic); the namespace drawn is not in
    use, the scores of ZADD parse, a ZADD that creates the set names no member twice, and
    the set stays below 2^32 members. The commands on several keys (ZUNION, ZINTER, ZDIFF,
    their STORE forms and ZRANGESTORE), ZRANDMEMBER and the blocking ones are not among
    these. *)
Theorem zset_commands_end_to_end (draws : Draws) (clock : nat → Z)
    (rest : list Z → Session OccTx → list (list Z) → QueuedOp OccTx * Session OccTx) (s : Session OccTx) (key : list Z) (c : zcmd)
    (args : list (list Z)) (m : gmap (list Z) Item) (reg : WatchRegistry) (z : gmap (list Z) Z) :
  clock_ok (clock 0%nat) → in_multi s = false → pending s = [] → watched_keys s = ∅ → session_ok s → key_ok key → good m →
  zset_at (now:=clock 0%nat) s key m z → zunused (now:=clock 0%nat) s m (d_id draws) → regular c z →
  zsize z + zcmd_room c < 2 ^ 32 →
  zcmd_sent key c args ∨ zcmd_also key c args → try_claim reg (public_key s key) = (None, reg) →
  ∃ s' w', enqueue_command (with_collections draws (with_zsets draws rest)) quiet clock s (mkWorld m reg) args
      = (Replied [zreply (zstep c z).1], s', w') ∧
    in_multi s' = false ∧ pending s' = [] ∧ current_db s' = current_db s ∧
    match (zstep c z).1 with
    | Ok _ => ∃ p, zupdated (clock 0%nat) m (public_key s key) (private_key s key) p (w_store w') (zstep c z).2
    | Err _ => w_store w' = m
    end.
Proof.
  intros Hclock Hm Hp Hw Hs Hk Hg Hz Hun Hreg Hroom Hsent Hcl.
  destruct (zcmd_parsed draws clock rest s key c args Hsent) as (op & Hpl & Hd & Hrun & Hwire). specialize (Hwire z).
  destruct (zstored_writable _ _ _ _ _ _ Hz (zunused_fresh s key Hs Hk m (d_id draws) Hun)) as [p Hwr].
  pose proof (store_tx_laws (StoreLaws:=occ_laws) (mkStart m Snapshot ∅)) as HT.
  destruct (zset_refines (HT:=HT) (HS:=occ_scan_laws (mkStart m Snapshot ∅)) Hclock c m _ _ (d_id draws) p z Hg Hwr Hreg Hroom)
    as (m' & H & Hu).
  destruct (H (occ_begin Snapshot m)) as (t & Et & (Hb & _) & Hmap); [by split_and!|done|].
  specialize (Hrun (clock 0%nat) (occ_begin Snapshot m) reg Hcl). unfold node_new in Hrun.
  rewrite Et in Hrun. pose proof (zstep_no_conflict c z) as Hne. destruct (zstep c z) as [r z'] eqn:Estep. cbn [fst snd] in *.
  destruct r as [v|e]; cbn [outcome_of] in Hrun.
  - destruct (enqueue_single (with_collections draws (with_zsets draws rest)) clock s op m reg v t args)
      as (s' & E & H1 & H2 & H3 & H4); [done..|].
    rewrite Hwire in E. exists s'. eexists. split_and!; [exact E|done..|]. cbn [w_store]. exists p. by rewrite Hmap.
  - destruct (enqueue_failed (with_collections draws (with_zsets draws rest)) clock s op m reg e t args)
      as (s' & E & H1 & H2 & H3 & H4); [done..|congruence|].
    rewrite Hwire in E. exists s'. eexists. by split_and!.
Qed.

Definition zdraws : Draws := mkDraws (id_of 1) (λ _, (0, 0)) base.elements.

Lemma zset_commands_end_to_end_witness :
  ∃ s' w', enqueue_command (with_collections zdraws (with_zsets zdraws no_other)) quiet noon (session_new 1) sample_world
      [B "ZADD"; B "z"; B "ch"; B "2.5"; B "b"; B "-1e3"; B "a"] = (Replied [Integer 2], s', w') ∧
    ∃ p, zupdated 5 ∅ (B "0:z") (B "-0:z") p (w_store w') {[B "a" := f64_of (B "-1000"); B "b" := f64_of (B "2.5")]}.
Proof.
  pose proof (zset_commands_end_to_end zdraws noon no_other (session_new 1) (B "z") (CAdd [B "ch"; B "2.5"; B "b"; B "-1e3"; B "a"])
    [B "ZADD"; B "z"; B "ch"; B "2.5"; B "b"; B "-1e3"; B "a"] ∅ registry_new ∅) as H.
  destruct H as (s' & w' & H1 & _ & _ & _ & H2).
  - apply clock_ok_5.
  - done.
  - done.
  - done.
  - unfold session_ok. simpl. width_lia.
  - vm_compute. done.
  - apply good_empty.
  - by apply zstored_none.
  - split; [done|apply zentries_empty].
  - apply (bool_decide_unpack _). vm_compute. exact I.
  - vm_compute. done.
  - left. split; [done|]. cbn. lia.
  - vm_compute. reflexivity.
  - assert (zstep (CAdd [B "ch"; B "2.5"; B "b"; B "-1e3"; B "a"]) ∅ =
      (Ok (RZAdd 2 None), {[B "a" := f64_of (B "-1000"); B "b" := f64_of (B "2.5")]})) as E by (vm_compute; reflexivity).
    rewrite E in H1, H2. exists s', w'. split; [exact H1|exact H2].
Defined.

(** ** Where the parsers depart from what they mean *)

(** A key that is called like the option turns scores on. *)
Lemma withscores_among_keys (s : Session OccTx) :
  combine_cmd (B "zunion") Cmd.zunion s [B "1"; B "withscores"; B "AGGREGATE"; B "max"] =
  Ok (Cmd.zunion s (B "max") [] true [B "withscores"]).
Proof. reflexivity. Qed.

(** NaN passes for a timeout that is not negative. *)
Lemma nan_timeout : bzpop_args (B "bzpopmin") [B "z"; B "nan"] = Ok ([B "z"], f64_nan).
Proof. vm_compute. reflexivity. Qed.

(** Unknown options of ZRANGEBYSCORE are skipped, where ZRANGE refuses them. *)
Lemma unknown_options_skipped :
  score_opts [B "bogus"; B "LIMIT"; B "1"] false None = Ok (false, None) ∧ parse_zrange_options [B "bogus"] = Err syntax_error.
Proof. vm_compute. done. Qed.
