(* ===== verification/SketchCmds.v ===== *)
(** * Dispatch of the Bloom filter and HyperLogLog commands: src/redis/commands.rs

    The parsing of the bf.* and pf* commands. [with_sketches] is a handler to put behind
    [with_zsets]. Proved: every command of the machines of BloomSpec and HllSpec, written as
    text, is dispatched to the operation that refines it. *)
From S2P Require Import Prelude Bytes Float64 Resp Kv Registry Op Namespace Session Elements Commands CollectionCmds ZSetCmds.
From S2P Require Bloom BloomSpec Hll HllSpec.
Import MapStore BloomSpec HllSpec.

(** ** Options *)

Definition capacity_positive : list Z := B "ERR capacity must be positive".
Definition items_required : list Z := B "ERR ITEMS argument required".
Definition syntax_error_at (a : list Z) : list Z := B "ERR syntax error at " ++ from_utf8_lossy a.

(** EXPANSION and NONSCALING of BF.RESERVE; anything else is skipped. *)
Fixpoint reserve_opts (opts : list (list Z)) (expansion : Z) (non_scaling : bool) : result (Z * bool) (list Z) :=
  match opts with
  | [] => Ok (expansion, non_scaling)
  | opt :: opts' =>
      let flag := reserve_opts opts' expansion (if eq_ignore_case opt (B "nonscaling") then true else non_scaling) in
      if eq_ignore_case opt (B "expansion") then
        match opts' with
        | v :: opts'' => match parse_i64 v with Some v => reserve_opts opts'' v non_scaling | None => Err not_an_integer end
        | [] => flag
        end
      else flag
  end.

(** The options of BF.INSERT up to ITEMS. *)
Fixpoint insert_opts (opts : list (list Z)) (info : Bloom.InsertInfo) : result Bloom.InsertInfo (list Z) :=
  match opts with
  | [] => Ok info
  | opt :: opts' =>
      let '(Bloom.mkInsertInfo capacity error expansion no_create non_scaling items) := info in
      let flags :=
        if eq_ignore_case opt (B "nocreate") then insert_opts opts' (Bloom.mkInsertInfo capacity error expansion true non_scaling items)
        else if eq_ignore_case opt (B "nonscaling") then insert_opts opts' (Bloom.mkInsertInfo capacity error expansion no_create true items)
        else if eq_ignore_case opt (B "items") then Ok (Bloom.mkInsertInfo capacity error expansion no_create non_scaling opts')
        else Err (syntax_error_at opt) in
      match opts' with
      | v :: opts'' =>
          if eq_ignore_case opt (B "capacity") then
            match parse_i64 v with
            | Some v => insert_opts opts'' (Bloom.mkInsertInfo (Z.max v 0) error expansion no_create non_scaling items)
            | None => Err not_an_integer
            end
          else if eq_ignore_case opt (B "error") then
            match parse_f64 v with
            | Some v => insert_opts opts'' (Bloom.mkInsertInfo capacity v expansion no_create non_scaling items)
            | None => Err not_a_float_arg
            end
          else if eq_ignore_case opt (B "expansion") then
            match parse_i64 v with
            | Some v => insert_opts opts'' (Bloom.mkInsertInfo capacity error v no_create non_scaling items)
            | None => Err not_an_integer
            end
          else flags
      | [] => flags
      end
  end.

Section Commands.
Context {T : Type} `{!TxOps T} (ln : Z → Z) (draws : Draws).
Implicit Types (s : Session T) (args : list (list Z)).
#[local] Abbreviation handler := (Session T → list (list Z) → result (QueuedOp T) (list Z)).

Definition bf_reserve_cmd : handler := λ s args,
  match args with
  | key :: e :: c :: opts =>
      match parse_f64 e with
      | None => Err not_a_float_arg
      | Some err_rate =>
          match parse_i64 c with
          | None => Err not_an_integer
          | Some capacity =>
              if capacity <? 1 then Err capacity_positive
              else match reserve_opts opts 2 false with
                   | Err e => Err e
                   | Ok (expansion, non_scaling) => Ok (Bloom.Cmd.reserve ln s (d_id draws) key err_rate (as_u64 capacity) expansion non_scaling)
                   end
          end
      end
  | _ => Err (wrong_args (B "bf.reserve"))
  end.

Definition bf_insert_cmd : handler := λ s args,
  match args with
  | key :: (_ :: _) as opts =>
      match insert_opts opts (Bloom.mkInsertInfo 0 f64_zero 0 false false []) with
      | Err e => Err e
      | Ok info => if bool_decide (Bloom.ii_items info = []) then Err items_required else Ok (Bloom.Cmd.insert ln s (d_id draws) key info)
      end
  | _ => Err (wrong_args (B "bf.insert"))
  end.

(** [args.get(1)]: more arguments are ignored. *)
Definition bf_info_cmd : handler := λ s args,
  match args with key :: _ => Ok (Bloom.Cmd.info s key) | [] => Err (wrong_args (B "bf.info")) end.

Definition pfcount_cmd : handler := λ s args,
  match args with [] => Err (wrong_args (B "pfcount")) | keys => Ok (Hll.Cmd.pfcount s keys) end.
Definition pfmerge_cmd : handler := λ s args,
  match args with [] => Err (wrong_args (B "pfmerge")) | dest :: sources => Ok (Hll.Cmd.pfmerge s dest sources) end.

Definition sketch_commands : list (list Z * handler) :=
  let id := d_id draws in
  [ (B "bf.reserve", bf_reserve_cmd);
    (B "bf.add", pair_cmd (B "bf.add") (λ s, Bloom.Cmd.add ln s id));
    (B "bf.exists", pair_cmd (B "bf.exists") Bloom.Cmd.exists_);
    (B "bf.madd", key_rest_cmd (B "bf.madd") (λ s, Bloom.Cmd.madd ln s id));
    (B "bf.mexists", key_rest_cmd (B "bf.mexists") Bloom.Cmd.mexists);
    (B "bf.insert", bf_insert_cmd);
    (B "bf.info", bf_info_cmd);
    (B "pfadd", key_rest_cmd (B "pfadd") Hll.Cmd.pfadd);
    (B "pfcount", pfcount_cmd);
    (B "pfmerge", pfmerge_cmd) ].

(** The arms of [dispatch_command] for these commands, then those that remain. *)
Definition with_sketches (rest : list Z → Session T → list (list Z) → QueuedOp T * Session T)
    (name : list Z) s args : QueuedOp T * Session T :=
  match find_command name sketch_commands with
  | Some h => match h s (drop 1 args) with Ok op => (op, s) | Err msg => error_op s msg end
  | None => rest name s args
  end.

Lemma sketch_commands_ok : Forall (λ e, ∀ s args op, e.2 s args = Ok op → abort_in_tx op = false) sketch_commands.
Proof.
  unfold sketch_commands. repeat (apply Forall_cons; split); [..|by apply Forall_nil]; cbn [snd]; intros s args op;
    unfold bf_reserve_cmd, pair_cmd, key_rest_cmd, bf_insert_cmd, bf_info_cmd, pfcount_cmd, pfmerge_cmd;
    repeat case_match; intros [= <-]; done.
Qed.

(** A command of this group either dooms a transaction by its parse error or leaves it alone. *)
Lemma with_sketches_ok rest : handler_ok rest → handler_ok (with_sketches rest).
Proof.
  intros Hr name s args. unfold with_sketches. destruct (find_command name sketch_commands) as [h|] eqn:Ef; [|apply Hr].
  destruct (find_command_Forall _ _ _ _ sketch_commands_ok Ef) as [n' Hh].
  destruct (h s (drop 1 args)) as [op|msg] eqn:Eh; [|apply error_op_ok]. apply plain_ok. by eapply Hh.
Qed.
End Commands.

Lemma sketch_names_unique {T} `{!TxOps T} ln draws :
  NoDup ((sketch_commands (T:=T) ln draws).*1 ++ (zset_commands (T:=T) draws).*1 ++ (string_commands (T:=T)).*1 ++ (collection_commands (T:=T) draws).*1).
Proof. apply (bool_decide_unpack _). vm_compute. exact I. Qed.

(** ** What a client sends *)

Definition flag_arg (b : bool) (name : list Z) : list (list Z) := if b then [name] else [].

Definition bcmd_sent (key : list Z) (c : bcmd) (args : list (list Z)) : Prop :=
  match c with
  | BReserve err cap exp ns =>
      ∃ e, args = [B "BF.RESERVE"; key; e; to_dec cap; B "EXPANSION"; to_dec exp] ++ flag_arg ns (B "NONSCALING") ∧
        parse_f64 e = Some err ∧ 1 ≤ cap ≤ i64_max ∧ in_i64 exp
  | BAdd item => args = [B "BF.ADD"; key; item]
  | BExists item => args = [B "BF.EXISTS"; key; item]
  | BMAdd items => args = [B "BF.MADD"; key] ++ items ∧ items ≠ []
  | BMExists items => args = [B "BF.MEXISTS"; key] ++ items ∧ items ≠ []
  | BInsert info =>
      ∃ e, args = [B "BF.INSERT"; key; B "CAPACITY"; to_dec (Bloom.ii_capacity info); B "ERROR"; e; B "EXPANSION"; to_dec (Bloom.ii_expansion info)] ++
        flag_arg (Bloom.ii_no_create info) (B "NOCREATE") ++ flag_arg (Bloom.ii_non_scaling info) (B "NONSCALING") ++ [B "ITEMS"] ++ Bloom.ii_items info ∧
        parse_f64 e = Some (Bloom.ii_error info) ∧ 0 ≤ Bloom.ii_capacity info ≤ i64_max ∧ in_i64 (Bloom.ii_expansion info) ∧ Bloom.ii_items info ≠ []
  | BInfo => args = [B "BF.INFO"; key]
  end.

Definition pfcmd_sent (c : pfcmd) (args : list (list Z)) : Prop :=
  match c with
  | PAdd key els => args = [B "PFADD"; key] ++ els ∧ els ≠ []
  | PCount keys => args = B "PFCOUNT" :: keys ∧ keys ≠ []
  | PMerge dest sources => args = [B "PFMERGE"; dest] ++ sources
  end.

Section Dispatch.
Context {T : Type} `{!TxOps T} (ln : Z → Z) (draws : Draws) (rest : list Z → Session T → list (list Z) → QueuedOp T * Session T).
#[local] Abbreviation other := (with_collections draws (with_zsets draws (with_sketches ln draws rest))).

Lemma dispatch_sketch (s : Session T) now n args h :
  find_command (lowercase n) (sketch_commands ln draws) = Some h →
  dispatch_command other now s (n :: args) = match h s args with Ok op => (op, s) | Err msg => error_op s msg end.
Proof.
  intros Hf. pose proof (find_command_name _ _ _ Hf) as Hname.
  assert (∀ x, x ∉ (sketch_commands (T:=T) ln draws).*1 → lowercase n ≠ x) as Hne by congruence.
  pose proof (sketch_names_unique (T:=T) ln draws) as Hnd. apply NoDup_app in Hnd as (_ & Hd & _).
  specialize (Hd _ Hname). rewrite !not_elem_of_app in Hd. destruct Hd as (Hz & Hs & Hc).
  unfold dispatch_command. cbv zeta.
  repeat (rewrite bool_decide_eq_false_2 by (apply Hne; apply (bool_decide_unpack _); vm_compute; exact I)). cbn [orb].
  rewrite find_command_missing by done. unfold with_collections. rewrite find_command_missing by done.
  unfold with_zsets. rewrite find_command_missing by done. unfold with_sketches. by rewrite Hf.
Qed.

Lemma reserve_opts_sent exp ns : in_i64 exp → reserve_opts ([B "EXPANSION"; to_dec exp] ++ flag_arg ns (B "NONSCALING")) 2 false = Ok (exp, ns).
Proof.
  intros Hexp. cbn [app reserve_opts]. change (eq_ignore_case (B "EXPANSION") (B "expansion")) with true. cbv iota.
  rewrite parse_i64_to_dec by done. by destruct ns.
Qed.

Lemma insert_opts_sent info e :
  parse_f64 e = Some (Bloom.ii_error info) → 0 ≤ Bloom.ii_capacity info ≤ i64_max → in_i64 (Bloom.ii_expansion info) →
  insert_opts ([B "CAPACITY"; to_dec (Bloom.ii_capacity info); B "ERROR"; e; B "EXPANSION"; to_dec (Bloom.ii_expansion info)] ++
      flag_arg (Bloom.ii_no_create info) (B "NOCREATE") ++ flag_arg (Bloom.ii_non_scaling info) (B "NONSCALING") ++ [B "ITEMS"] ++ Bloom.ii_items info)
    (Bloom.mkInsertInfo 0 f64_zero 0 false false []) = Ok info.
Proof.
  destruct info as [cap err exp nc ns items].
  cbn [Bloom.ii_capacity Bloom.ii_error Bloom.ii_expansion Bloom.ii_no_create Bloom.ii_non_scaling Bloom.ii_items]. intros He Hc Hexp.
  cbn [app insert_opts]. change (eq_ignore_case (B "CAPACITY") (B "capacity")) with true. cbv iota.
  rewrite parse_i64_to_dec by (unfold in_i64; width_lia). rewrite Z.max_l by lia.
  change (eq_ignore_case (B "ERROR") (B "capacity")) with false. change (eq_ignore_case (B "ERROR") (B "error")) with true. cbv iota. rewrite He.
  change (eq_ignore_case (B "EXPANSION") (B "capacity")) with false. change (eq_ignore_case (B "EXPANSION") (B "error")) with false.
  change (eq_ignore_case (B "EXPANSION") (B "expansion")) with true. cbv iota. rewrite parse_i64_to_dec by done.
  destruct nc, ns, items; reflexivity.
Qed.

(** Every command on Bloom filters and sketches, sent as text, is dispatched to the operation
    of its machine; the arguments may be any bytes. *)
Lemma bcmd_dispatch (s : Session T) now key c args :
  bcmd_sent key c args →
  ∃ op, dispatch_command other now s args = (op, s) ∧
    db_op op = tx_op (λ now, bcmd_op ln now (d_id draws) (public_key s key) (private_key s key) c).
Proof.
  intros Hsent. destruct c as [err cap exp ns|item|item|items|items|info|]; cbn [bcmd_sent] in Hsent.
  - destruct Hsent as (e & -> & He & Hc & Hexp). cbn [app]. erewrite dispatch_sketch by reflexivity. unfold bf_reserve_cmd.
    rewrite He, parse_i64_to_dec by (unfold in_i64; width_lia). rewrite (proj2 (Z.ltb_ge _ _)) by lia.
    pose proof (reserve_opts_sent exp ns Hexp) as Ho. cbn [app] in Ho. rewrite Ho, as_u64_id by width_lia. eexists. by split.
  - subst args. erewrite dispatch_sketch by reflexivity. eexists. by split.
  - subst args. erewrite dispatch_sketch by reflexivity. eexists. by split.
  - destruct Hsent as [-> Hne]. destruct items; [done|]. cbn [app]. erewrite dispatch_sketch by reflexivity. eexists. by split.
  - destruct Hsent as [-> Hne]. destruct items; [done|]. cbn [app]. erewrite dispatch_sketch by reflexivity. eexists. by split.
  - destruct Hsent as (e & -> & He & Hc & Hexp & Hne). pose proof (insert_opts_sent info e He Hc Hexp) as Ho. cbn [app] in *.
    erewrite dispatch_sketch by reflexivity. unfold bf_insert_cmd. rewrite Ho, (bool_decide_eq_false_2 (Bloom.ii_items info = [])) by done. eexists. by split.
  - subst args. erewrite dispatch_sketch by reflexivity. eexists. by split.
Qed.

Lemma pfcmd_dispatch (s : Session T) now c args :
  pfcmd_sent c args →
  ∃ op, dispatch_command other now s args = (op, s) ∧ db_op op = tx_op (λ now, pf_op (now:=now) s c).
Proof.
  intros Hsent. destruct c as [key els|keys|dest sources]; cbn [pfcmd_sent] in Hsent.
  - destruct Hsent as [-> Hne]. destruct els; [done|]. cbn [app]. erewrite dispatch_sketch by reflexivity. eexists. by split.
  - destruct Hsent as [-> Hne]. destruct keys; [done|]. erewrite dispatch_sketch by reflexivity. eexists. by split.
  - subst args. cbn [app]. erewrite dispatch_sketch by reflexivity. eexists. by split.
Qed.
End Dispatch.

(** ** Where the parsers are lenient *)

(** BF.RESERVE takes options it does not know, and EXPANSION without a value, for granted;
    BF.INSERT rejects both. *)
Lemma bf_reserve_skips_unknown :
  reserve_opts [B "EXPANSIN"; B "4"; B "EXPANSION"] 2 false = Ok (2, false) ∧
  insert_opts [B "EXPANSION"] (Bloom.mkInsertInfo 0 f64_zero 0 false false []) = Err (B "ERR syntax error at EXPANSION").
Proof. split; vm_compute; reflexivity. Qed.
