(* ===== verification/StreamCmds.v ===== *)
(** * Dispatch of the stream commands: src/redis/commands.rs

    The parsing of XADD, XLEN, XRANGE, XREVRANGE, XREAD, XDEL, XTRIM, XSETID and XINFO. An
    id without a dash makes the parser panic, and so does XREAD without the word STREAMS,
    so a parse is an outcome: the queued command, an error reply or a panic. Proved: the
    arguments of a stream command are parsed to that command. *)
From S2P Require Import Prelude Bytes Resp Kv Registry StreamCodec Op Namespace Session Elements Stream StreamLog Commands.

Definition parse_bind {A C E} (o : outcome A E) (f : A → outcome C E) : outcome C E :=
  match o with Ret a => f a | Fail e => Fail e | Panic => Panic end.
#[local] Notation "'let*' x := o 'in' k" := (parse_bind o (λ x, k)) (at level 10, x name, o at level 100, k at level 200).
#[local] Abbreviation Parse A := (outcome A (list Z)).

(** ** Arguments *)

(** [let Some(id) = from_str_bytes(..) else return error_op(..)]. *)
Definition id_arg (msg a : list Z) : Parse StreamEntryId :=
  match from_str_bytes a with
  | Ret (Some id) => Ret id
  | Ret None => Fail msg
  | Fail e => Fail e
  | Panic => Panic
  end.
Definition int_arg (a : list Z) : Parse Z :=
  match parse_i64 a with Some n => Ret n | None => Fail not_an_integer end.
Definition at_least (n : Z) (msg : list Z) (v : Z) : Parse Z := if v <? n then Fail msg else Ret v.

(** An id, or the word for the open end of a range. *)
Definition bound_arg (open msg a : list Z) : Parse (option StreamEntryId) :=
  if bool_decide (a = open) then Ret None
  else match id_arg msg a with Ret id => Ret (Some id) | Fail e => Fail e | Panic => Panic end.

Definition drop_tilde (args : list (list Z)) : list (list Z) :=
  match args with a :: args' => if bool_decide (a = B "~") then args' else args | [] => [] end.

Definition maxlen_error : list Z := B "ERR MAXLEN positive integer argument required".
Definition count_error : list Z := B "ERR COUNT must be positive".
Definition minid_error : list Z := B "ERR invalid stream ID specified as MINID argument".
Definition usize_max : Z := 2 ^ 64 - 1.

(** ** XADD *)

Record XAddOpts : Type := mkXAddOpts { xa_nomkstream : bool; xa_max_len : option Z; xa_min_id : option StreamEntryId }.

(** The options, and the arguments from the id on. *)
Fixpoint xadd_opts (fuel : nat) (args : list (list Z)) (o : XAddOpts) : Parse (XAddOpts * list (list Z)) :=
  match fuel, args with
  | S fuel', a :: args' =>
      if eq_ignore_case a (B "nomkstream") then xadd_opts fuel' args' (mkXAddOpts true (xa_max_len o) (xa_min_id o))
      else if eq_ignore_case a (B "maxlen") then
        match drop_tilde args' with
        | [] => Fail syntax_error
        | v :: args'' =>
            let* n := int_arg v in
            let* n := at_least 0 maxlen_error n in
            xadd_opts fuel' args'' (mkXAddOpts (xa_nomkstream o) (Some n) (xa_min_id o))
        end
      else if eq_ignore_case a (B "minid") then
        match drop_tilde args' with
        | [] => Fail syntax_error
        | v :: args'' =>
            let* id := id_arg minid_error v in
            xadd_opts fuel' args'' (mkXAddOpts (xa_nomkstream o) (xa_max_len o) (Some id))
        end
      else Ret (o, args)
  | _, _ => Ret (o, args)
  end.

(** ** XREAD *)

Record XReadArgs : Type := mkXReadArgs {
  xr_keys : list (list Z);
  xr_ids : list (option StreamEntryId);
  xr_count : Z;
  xr_block_ms : option Z
}.

(** The options up to STREAMS; indexing past the last argument panics. *)
Fixpoint xread_opts (fuel : nat) (args : list (list Z)) (count : Z) (block_ms : option Z)
  : Parse (Z * option Z * list (list Z)) :=
  match fuel, args with
  | S fuel', a :: args' =>
      if eq_ignore_case a (B "streams") then Ret (count, block_ms, args')
      else if eq_ignore_case a (B "count") then
        match args' with
        | [] => Fail syntax_error
        | v :: args'' => let* n := int_arg v in let* n := at_least 1 count_error n in xread_opts fuel' args'' n block_ms
        end
      else if eq_ignore_case a (B "block") then
        match args' with
        | [] => Fail syntax_error
        | v :: args'' =>
            let* n := int_arg v in let* n := at_least 0 (B "ERR timeout is negative") n in xread_opts fuel' args'' count (Some n)
        end
      else Fail syntax_error
  | _, _ => Panic
  end.

Fixpoint read_id_args (args : list (list Z)) : Parse (list (option StreamEntryId)) :=
  match args with
  | [] => Ret []
  | a :: args' =>
      match parse_stream_id_arg a with
      | Ret (Some id) => let* rest := read_id_args args' in Ret (id :: rest)
      | Ret None => Fail (B "ERR invalid stream ID specified in XREAD argument")
      | Fail e => Fail e
      | Panic => Panic
      end
  end.

Definition xread_args (args : list (list Z)) : Parse XReadArgs :=
  if (length args <? 3)%nat then Fail (wrong_args (B "xread"))
  else
    let* p := xread_opts (S (length args)) args usize_max None in
    let '(count, block_ms, rest) := p in
    if (length rest <? 2)%nat || Nat.odd (length rest) then Fail (wrong_args (B "xread"))
    else
      let half := (length rest / 2)%nat in
      let* ids := read_id_args (drop half rest) in
      Ret (mkXReadArgs (take half rest) ids count block_ms).

(** A stream command is queued, but an XREAD that may wait runs the loop of a blocked
    client, with a deadline unless the time given is 0. *)
Inductive StreamCmd (T : Type) : Type :=
| Run (op : QueuedOp T)
| Block (streams : list XReadStream) (ids : list (option StreamEntryId)) (count : Z) (deadline_ms : option Z).
Arguments Run {T} _.
Arguments Block {T} _ _ _ _.

Section Commands.
Context {T : Type} `{!TxOps T} (id : list Z).
Implicit Types (s : Session T) (args : list (list Z)).
#[local] Abbreviation handler := (Session T → list (list Z) → Parse (QueuedOp T)).

Definition xadd_cmd : handler := λ s args,
  match args with
  | key :: ((_ :: _ :: _) as rest) =>
      let* p := xadd_opts (S (length rest)) rest (mkXAddOpts false None None) in
      let '(o, rest) := p in
      match rest with
      | [] => Fail (wrong_args (B "xadd"))
      | a :: field_values =>
          let* eid := bound_arg (B "*") (B "ERR invalid stream ID specified as XADD argument") a in
          if bool_decide (field_values = []) || Nat.odd (length field_values) then Fail (wrong_args (B "xadd"))
          else Ret (Stream.Cmd.xadd s id key (xa_nomkstream o) (xa_max_len o) (xa_min_id o) eid field_values)
      end
  | _ => Fail (wrong_args (B "xadd"))
  end.

Definition xlen_cmd : handler := λ s args,
  match args with [key] => Ret (Stream.Cmd.xlen s key) | _ => Fail (wrong_args (B "xlen")) end.

(** COUNT at the fourth place, with its number. *)
Definition range_count (opts : list (list Z)) : Parse Z :=
  match opts with
  | a :: v :: _ => if eq_ignore_case a (B "count") then let* n := int_arg v in at_least 0 count_error n else Ret usize_max
  | _ => Ret usize_max
  end.
Definition xrange_cmd : handler := λ s args,
  match args with
  | key :: a :: b :: opts =>
      let* start := bound_arg (B "-") (B "ERR invalid stream ID specified as XRANGE argument") a in
      let* end_ := bound_arg (B "+") (B "ERR invalid stream ID specified as XRANGE argument") b in
      let* count := range_count opts in
      Ret (Stream.Cmd.xrange s key start end_ count)
  | _ => Fail (wrong_args (B "xrange"))
  end.
Definition xrevrange_cmd : handler := λ s args,
  match args with
  | key :: b :: a :: opts =>
      let* start := bound_arg (B "-") (B "ERR invalid stream ID specified as XREVRANGE argument") a in
      let* end_ := bound_arg (B "+") (B "ERR invalid stream ID specified as XREVRANGE argument") b in
      let* count := range_count opts in
      Ret (Stream.Cmd.xrevrange s key start end_ count)
  | _ => Fail (wrong_args (B "xrevrange"))
  end.

Definition xread_cmd s args : Parse (StreamCmd T) :=
  let* x := xread_args args in
  Ret (match xr_block_ms x with
        | Some ms =>
            if should_block s
            then Block (Stream.Cmd.xread_stream s <$> xr_keys x) (xr_ids x) (xr_count x) (if 0 <? ms then Some ms else None)
            else Run (Stream.Cmd.xread s (xr_keys x) (xr_ids x) (xr_count x))
        | None => Run (Stream.Cmd.xread s (xr_keys x) (xr_ids x) (xr_count x))
        end).

Fixpoint id_args (msg : list Z) args : Parse (list StreamEntryId) :=
  match args with
  | [] => Ret []
  | a :: args' => let* x := id_arg msg a in let* rest := id_args msg args' in Ret (x :: rest)
  end.
Definition xdel_cmd : handler := λ s args,
  match args with
  | key :: ((_ :: _) as rest) =>
      let* ids := id_args (B "ERR invalid stream ID specified in XDEL") rest in
      Ret (Stream.Cmd.xdel s key ids)
  | _ => Fail (wrong_args (B "xdel"))
  end.

Definition xtrim_cmd : handler := λ s args,
  match args with
  | key :: strategy :: ((_ :: _) as rest) =>
      let maxlen := eq_ignore_case strategy (B "maxlen") in
      if negb maxlen && negb (eq_ignore_case strategy (B "minid")) then Fail syntax_error
      else
        match drop_tilde rest with
        | [] => Fail syntax_error
        | v :: _ =>
            if maxlen then
              let* n := int_arg v in
              let* n := at_least 0 maxlen_error n in
              Ret (Stream.Cmd.xtrim_maxlen s key n)
            else let* x := id_arg minid_error v in Ret (Stream.Cmd.xtrim_minid s key x)
        end
  | _ => Fail (wrong_args (B "xtrim"))
  end.

Definition xsetid_cmd : handler := λ s args,
  match args with
  | [key; a] => let* x := id_arg (B "ERR invalid stream ID specified in XSETID") a in Ret (Stream.Cmd.xsetid s id key x)
  | _ => Fail (wrong_args (B "xsetid"))
  end.

Definition xinfo_cmd : handler := λ s args,
  match args with
  | sub :: key :: _ =>
      if eq_ignore_case sub (B "stream") then Ret (Stream.Cmd.xinfo_stream s key)
      else Fail (B "ERR unknown XINFO subcommand '" ++ from_utf8_lossy sub ++ B "'")
  | _ => Fail (wrong_args (B "xinfo"))
  end.

(** The arms of [dispatch_command] for streams. *)
Definition plain (h : handler) : Session T → list (list Z) → Parse (StreamCmd T) := λ s args,
  let* op := h s args in Ret (Run op).
Definition stream_commands : list (list Z * (Session T → list (list Z) → Parse (StreamCmd T))) :=
  [ (B "xadd", plain xadd_cmd); (B "xlen", plain xlen_cmd); (B "xrange", plain xrange_cmd);
    (B "xrevrange", plain xrevrange_cmd); (B "xread", xread_cmd); (B "xdel", plain xdel_cmd);
    (B "xtrim", plain xtrim_cmd); (B "xsetid", plain xsetid_cmd); (B "xinfo", plain xinfo_cmd) ].
End Commands.

Import MapTx.

(** ** The text of a command *)

Definition id_text (o : option StreamEntryId) (open : list Z) : list Z := from_option display open o.

Definition xcmd_args (key : list Z) (c : xcmd) : list (list Z) :=
  match c with
  | XAdd nomk max_len min_id eid fvs =>
      [B "XADD"; key] ++ (if nomk then [B "NOMKSTREAM"] else []) ++
      from_option (λ n, [B "MAXLEN"; to_dec n]) [] max_len ++ from_option (λ x, [B "MINID"; B "~"; display x]) [] min_id ++
      id_text eid (B "*") :: fvs
  | XLen => [B "XLEN"; key]
  | XRange start end_ count false => [B "XRANGE"; key; id_text start (B "-"); id_text end_ (B "+"); B "COUNT"; to_dec count]
  | XRange start end_ count true => [B "XREVRANGE"; key; id_text end_ (B "+"); id_text start (B "-"); B "COUNT"; to_dec count]
  | XRead _ after count => [B "XREAD"; B "COUNT"; to_dec count; B "STREAMS"; key; id_text after (B "$")]
  | XDel ids => [B "XDEL"; key] ++ (display <$> ids)
  | XTrim (Some n) _ => [B "XTRIM"; key; B "MAXLEN"; to_dec n]
  | XTrim None (Some x) => [B "XTRIM"; key; B "MINID"; display x]
  | XTrim None None => []
  | XSetId x => [B "XSETID"; key; display x]
  | XInfo => [B "XINFO"; B "STREAM"; key]
  end.

(** Commands a client can send. *)
Definition xcmd_sendable (key : list Z) (c : xcmd) : Prop :=
  match c with
  | XAdd _ max_len min_id eid fvs =>
      from_option (λ n, 0 ≤ n ≤ i64_max) True max_len ∧ from_option sid_ok True min_id ∧ from_option sid_ok True eid ∧
      fvs ≠ [] ∧ Nat.odd (length fvs) = false
  | XRange start end_ count _ => from_option sid_ok True start ∧ from_option sid_ok True end_ ∧ 0 ≤ count ≤ i64_max
  | XRead name after count => name = key ∧ from_option sid_ok True after ∧ 1 ≤ count ≤ i64_max
  | XDel ids => ids ≠ [] ∧ Forall sid_ok ids
  | XTrim (Some n) min_id => 0 ≤ n ≤ i64_max ∧ min_id = None
  | XTrim None (Some x) => sid_ok x
  | XTrim None None => False
  | XSetId x => sid_ok x
  | XLen | XInfo => True
  end.

Lemma display_head x : sid_ok x → ∃ d l, display x = d :: l ∧ is_digit d = true.
Proof.
  intros [Hx _]. unfold display. destruct (to_dec (sid_ms x) ++ B "-" ++ to_dec (sid_seq x)) as [|d l] eqn:E.
  - by apply app_nil in E as [_ [E _]%app_nil].
  - exists d, l. split; [done|]. eapply db_first_digit; [|exact E]. lia.
Qed.

Lemma display_not x c w : sid_ok x → is_digit c = false → display x ≠ c :: w.
Proof. intros Hx Hc E. destruct (display_head x Hx) as (d & l & Hd & Hdig). congruence. Qed.

Lemma display_not_word x w :
  sid_ok x → from_option (λ c, 97 <=? to_lower c) false (head w) = true → eq_ignore_case (display x) w = false.
Proof.
  intros Hx Hc. destruct w as [|c w]; [done|]. cbn [head from_option] in Hc. apply Z.leb_le in Hc. destruct (display_head x Hx) as (d & l & Hd & Hdig). unfold eq_ignore_case. rewrite Hd.
  apply bool_decide_eq_false. unfold lowercase. cbn [fmap list_fmap]. intros [= E _]. apply is_digit_bounds in Hdig.
  unfold to_lower in E at 1. destruct (_ && _) eqn:Eb in E; [apply andb_true_iff in Eb as [?%Z.leb_le _]|]; lia.
Qed.

Lemma id_arg_display msg x : sid_ok x → id_arg msg (display x) = Ret x.
Proof. intros Hx. unfold id_arg. by rewrite from_str_display. Qed.

Lemma int_arg_dec n : 0 ≤ n ≤ i64_max → int_arg (to_dec n) = Ret n.
Proof. intros Hn. unfold int_arg. rewrite parse_i64_to_dec; [done|width_lia]. Qed.

Lemma at_least_ok n msg v : n ≤ v → at_least n msg v = Ret v.
Proof. intros H. unfold at_least. by rewrite (proj2 (Z.ltb_ge _ _)). Qed.

Lemma bound_arg_text (c : Z) msg o :
  from_option sid_ok True o → is_digit c = false → bound_arg [c] msg (id_text o [c]) = Ret o.
Proof.
  intros Ho Hc. destruct o as [x|]; cbn [id_text from_option] in *; unfold bound_arg; [|by rewrite bool_decide_true].
  rewrite bool_decide_false by (by apply display_not). by rewrite id_arg_display.
Qed.

Lemma dec_not_tilde n : 0 ≤ n → to_dec n ≠ B "~".
Proof.
  intros Hn E. pose proof (db_first_digit n [] 126 [] Hn) as H. rewrite app_nil_r in H. by specialize (H E).
Qed.

(** The options of XADD are read up to the id. *)
Lemma xadd_opts_text fuel (nomk : bool) max_len min_id eid fvs :
  from_option (λ n, 0 ≤ n ≤ i64_max) True max_len → from_option sid_ok True min_id → from_option sid_ok True eid →
  xadd_opts (S (S (S (S fuel)))) ((if nomk then [B "NOMKSTREAM"] else []) ++
      from_option (λ n, [B "MAXLEN"; to_dec n]) [] max_len ++ from_option (λ x, [B "MINID"; B "~"; display x]) [] min_id ++
      id_text eid (B "*") :: fvs) (mkXAddOpts false None None)
  = Ret (mkXAddOpts nomk max_len min_id, id_text eid (B "*") :: fvs).
Proof.
  intros Hn Hm He.
  assert (∀ fuel o, xadd_opts fuel (id_text eid (B "*") :: fvs) o = Ret (o, id_text eid (B "*") :: fvs)) as Hend.
  { intros fuel' o. destruct fuel' as [|fuel']; [done|]. cbn [xadd_opts]. destruct eid as [x|]; [|done]. cbn [id_text from_option].
    rewrite !(display_not_word x) by done. done. }
  assert (∀ fuel o, xadd_opts (S fuel) (from_option (λ x, [B "MINID"; B "~"; display x]) [] min_id ++ id_text eid (B "*") :: fvs) o
    = Ret (mkXAddOpts (xa_nomkstream o) (xa_max_len o) (match min_id with Some x => Some x | None => xa_min_id o end), id_text eid (B "*") :: fvs)) as Hmin.
  { intros fuel' o. destruct min_id as [x|]; cbn [from_option app]; [|rewrite Hend; by destruct o].
    cbn [xadd_opts]. change (eq_ignore_case (B "MINID") (B "nomkstream")) with false. change (eq_ignore_case (B "MINID") (B "maxlen")) with false.
    change (eq_ignore_case (B "MINID") (B "minid")) with true. cbn [drop_tilde]. change (bool_decide (B "~" = B "~")) with true. cbv iota.
    rewrite id_arg_display by done. cbn [parse_bind]. by rewrite Hend. }
  assert (∀ fuel o, xadd_opts (S (S fuel)) (from_option (λ n, [B "MAXLEN"; to_dec n]) [] max_len ++
      from_option (λ x, [B "MINID"; B "~"; display x]) [] min_id ++ id_text eid (B "*") :: fvs) o
    = Ret (mkXAddOpts (xa_nomkstream o) (match max_len with Some n => Some n | None => xa_max_len o end)
        (match min_id with Some x => Some x | None => xa_min_id o end), id_text eid (B "*") :: fvs)) as Hmax.
  { intros fuel' o. destruct max_len as [n|]; cbn [from_option app]; [|apply Hmin]. simpl in Hn.
    remember (S fuel') as f1. cbn [xadd_opts]. change (eq_ignore_case (B "MAXLEN") (B "nomkstream")) with false.
    change (eq_ignore_case (B "MAXLEN") (B "maxlen")) with true. cbn [drop_tilde].
    rewrite bool_decide_false by (apply dec_not_tilde; lia). cbv iota. rewrite int_arg_dec by done. cbn [parse_bind].
    rewrite at_least_ok by lia. cbn [parse_bind]. subst f1. by rewrite Hmin. }
  destruct nomk; cbn [app].
  - remember (S (S (S fuel))) as f1. cbn [xadd_opts]. change (eq_ignore_case (B "NOMKSTREAM") (B "nomkstream")) with true. cbv iota.
    subst f1. rewrite Hmax. by destruct max_len, min_id.
  - rewrite Hmax. by destruct max_len, min_id.
Qed.

Section Parse.
Context {T : Type} `{!TxOps T} (s : Session T) (id key : list Z).

(** The command [c] is parsed and its database half is the operation of [c]. *)
Definition parsed (c : xcmd) : Prop :=
  ∃ name rest h op, xcmd_args key c = name :: rest ∧ find_command (lowercase name) (stream_commands id) = Some h ∧
    h s rest = Ret (Run op) ∧
    ∀ now t reg, run (db_op op) now t reg = (xcmd_op now id (public_key s key) (private_key s key) c t, reg).

Lemma parsed_by c name rest h op :
  xcmd_args key c = name :: rest → find_command (lowercase name) (stream_commands id) = Some (plain h) → h s rest = Ret op →
  (∀ now t reg, run (db_op op) now t reg = (xcmd_op now id (public_key s key) (private_key s key) c t, reg)) → parsed c.
Proof. intros Ha Hf Hh Hr. exists name, rest, (plain h), op. split_and!; [done..| |done]. unfold plain. by rewrite Hh. Qed.

Lemma xadd_cmd_rest rest nomk max_len min_id eid fvs :
  (3 ≤ length rest)%nat →
  (∀ fuel, xadd_opts (S (S (S (S fuel)))) rest (mkXAddOpts false None None) = Ret (mkXAddOpts nomk max_len min_id, id_text eid (B "*") :: fvs)) →
  from_option sid_ok True eid → fvs ≠ [] → Nat.odd (length fvs) = false →
  xadd_cmd id s (key :: rest) = Ret (Stream.Cmd.xadd s id key nomk max_len min_id eid fvs).
Proof.
  intros Hlen Hopts He Hne Hodd. destruct rest as [|a [|b [|c rest]]]; [cbn in Hlen; lia..|].
  cbn [xadd_cmd]. cbn [length]. rewrite Hopts. cbn [parse_bind].
  rewrite (bound_arg_text 42) by done. cbn [parse_bind]. rewrite bool_decide_false by done. by rewrite Hodd.
Qed.

Lemma parse_xadd nomk max_len min_id eid fvs :
  xcmd_sendable key (XAdd nomk max_len min_id eid fvs) → parsed (XAdd nomk max_len min_id eid fvs).
Proof.
  intros (Hn & Hm & He & Hne & Hodd).
  eapply parsed_by with (h := xadd_cmd id) (op := Stream.Cmd.xadd s id key nomk max_len min_id eid fvs); [reflexivity|reflexivity| |done].
  apply xadd_cmd_rest; [|intros fuel; by apply xadd_opts_text|done..].
  rewrite !length_app. cbn [length]. destruct fvs as [|f [|v fvs]]; cbn [length] in *; [done|done|lia].
Qed.

Lemma parse_xrange start end_ count rev :
  xcmd_sendable key (XRange start end_ count rev) → parsed (XRange start end_ count rev).
Proof.
  intros (Hs & He & Hc).
  assert (range_count [B "COUNT"; to_dec count] = Ret count) as Hcount.
  { unfold range_count. change (eq_ignore_case (B "COUNT") (B "count")) with true. cbv iota. rewrite int_arg_dec by done.
    cbn [parse_bind]. by rewrite at_least_ok by lia. }
  destruct rev.
  - eapply parsed_by with (h := xrevrange_cmd) (op := Stream.Cmd.xrevrange s key start end_ count); [reflexivity|reflexivity| |done].
    cbn [xrevrange_cmd]. rewrite (bound_arg_text 45), (bound_arg_text 43) by done. cbn [parse_bind]. by rewrite Hcount.
  - eapply parsed_by with (h := xrange_cmd) (op := Stream.Cmd.xrange s key start end_ count); [reflexivity|reflexivity| |done].
    cbn [xrange_cmd]. rewrite (bound_arg_text 45), (bound_arg_text 43) by done. cbn [parse_bind]. by rewrite Hcount.
Qed.

Lemma parse_xread name after count :
  xcmd_sendable key (XRead name after count) → parsed (XRead name after count).
Proof.
  intros (-> & Ha & Hc).
  assert (read_id_args [id_text after (B "$")] = Ret [after]) as Hid.
  { cbn [read_id_args]. unfold parse_stream_id_arg. destruct after as [x|]; cbn [id_text from_option] in *; [|done].
    rewrite bool_decide_false by (by apply (display_not x 36)). by rewrite from_str_display. }
  eexists _, _, _, (Stream.Cmd.xread s [key] [after] count). split; [reflexivity|]. split; [reflexivity|]. split; [|done].
  unfold xread_cmd, xread_args. cbn [length Nat.ltb Nat.leb]. remember 5%nat as f1. cbn [xread_opts].
  change (eq_ignore_case (B "COUNT") (B "streams")) with false. change (eq_ignore_case (B "COUNT") (B "count")) with true. cbv iota.
  rewrite int_arg_dec by lia. cbn [parse_bind]. rewrite at_least_ok by lia. cbn [parse_bind]. subst f1. cbn [xread_opts].
  change (eq_ignore_case (B "STREAMS") (B "streams")) with true. cbv iota. cbn [parse_bind length Nat.ltb Nat.leb Nat.odd Nat.even negb orb].
  change (2 / 2)%nat with 1%nat. cbn [take drop]. rewrite Hid. done.
Qed.

Lemma parse_ids msg ids : Forall sid_ok ids → id_args msg (display <$> ids) = Ret ids.
Proof.
  induction 1 as [|x ids Hx _ IH]; [done|]. cbn [fmap list_fmap id_args]. rewrite id_arg_display by done. cbn [parse_bind].
  fold (display <$> ids). by rewrite IH.
Qed.

Lemma parse_stream_command c : xcmd_sendable key c → parsed c.
Proof.
  intros Hc. destruct c as [nomk ml mi eid fvs| |start en count rev|name after count|ids|[n|] [x|]|x|].
  - by apply parse_xadd.
  - by eapply parsed_by with (h := xlen_cmd) (op := Stream.Cmd.xlen s key).
  - by apply parse_xrange.
  - by apply parse_xread.
  - destruct Hc as [Hne Hids]. eapply parsed_by with (h := xdel_cmd) (op := Stream.Cmd.xdel s key ids); [reflexivity|reflexivity| |done].
    pose proof (parse_ids (B "ERR invalid stream ID specified in XDEL") ids Hids) as Hp.
    destruct ids as [|x ids]; [done|]. cbn [app fmap list_fmap xdel_cmd] in *. by rewrite Hp.
  - by destruct Hc.
  - destruct Hc as [Hn _]. eapply parsed_by with (h := xtrim_cmd) (op := Stream.Cmd.xtrim_maxlen s key n); [reflexivity|reflexivity| |done].
    cbn [xtrim_cmd]. change (eq_ignore_case (B "MAXLEN") (B "maxlen")) with true. cbn [negb andb drop_tilde].
    rewrite bool_decide_false by (apply dec_not_tilde; lia). cbv iota. rewrite int_arg_dec by done. cbn [parse_bind].
    rewrite at_least_ok by lia. done.
  - eapply parsed_by with (h := xtrim_cmd) (op := Stream.Cmd.xtrim_minid s key x); [reflexivity|reflexivity| |done].
    cbn [xtrim_cmd]. change (eq_ignore_case (B "MINID") (B "maxlen")) with false. change (eq_ignore_case (B "MINID") (B "minid")) with true.
    cbn [negb andb drop_tilde]. rewrite bool_decide_false by (by apply (display_not x 126)). cbv iota.
    rewrite id_arg_display by done. done.
  - done.
  - eapply parsed_by with (h := xsetid_cmd id) (op := Stream.Cmd.xsetid s id key x); [reflexivity|reflexivity| |done].
    cbn [xsetid_cmd]. by rewrite id_arg_display.
  - by eapply parsed_by with (h := xinfo_cmd) (op := Stream.Cmd.xinfo_stream s key).
Qed.
End Parse.

(** ** Properties *)

(** Every stream command a client can send, with any combination of its options, is
    parsed from its text to that command: the name finds its handler, the handler accepts
    the arguments, and the database half of the queued command is the operation the
    command stands for, on the keys of the session's database. *)
Theorem stream_commands_parse T `{!TxOps T} (s : Session T) (id key : list Z) (c : xcmd) :
  xcmd_sendable key c →
  ∃ name rest h op, xcmd_args key c = name :: rest ∧ find_command (lowercase name) (stream_commands id) = Some h ∧
    h s rest = Ret (Run op) ∧
    ∀ now t reg, run (db_op op) now t reg = (xcmd_op now id (public_key s key) (private_key s key) c t, reg).
Proof. apply parse_stream_command. Qed.

Lemma stream_commands_parse_witness :
  ∃ op : QueuedOp (gmap (list Z) Item),
    xadd_cmd (id_of 1) demo_session [B "s"; B "NOMKSTREAM"; B "MAXLEN"; B "10"; B "5-1"; B "f"; B "v"] = Ret op.
Proof.
  destruct (stream_commands_parse (gmap (list Z) Item) demo_session (id_of 1) (B "s")
    (XAdd true (Some 10) None (Some (mkId 5 1)) [B "f"; B "v"])) as (name & rest & h & op & Ha & Hf & Hh & _).
  - cbn. unfold sid_ok. cbn. split_and!; try done; width_lia.
  - injection Ha as <- <-. injection Hf as <-. exists op. unfold plain, parse_bind in Hh.
    destruct (xadd_cmd _ _ _) as [op'|e|] eqn:E in Hh; [|done..]. injection Hh as <-. exact E.
Defined.

(** ** Where the parser departs from its documentation *)

(** XREAD without the word STREAMS indexes past its arguments. *)
Lemma xread_without_streams_panics : xread_args [B "COUNT"; B "1"; B "BLOCK"; B "0"] = Panic.
Proof. by vm_compute. Qed.
(** An id without a dash, which Redis completes with a sequence number, panics. *)
Lemma bare_id_panics {T} `{!TxOps T} (s : Session T) : xrange_cmd s [B "s"; B "5"; B "+"] = Panic.
Proof. done. Qed.
