(* ===== verification/Typed.v ===== *)
(** * Results and replies agree in type

    The database half of a command boxes its result, and the wire half unboxes it with a
    checked downcast; when the types do not match, the client reads an internal error. Here
    it is proved, for every command of the dispatch tables, that this never happens:
    whatever the arguments and the store, what the database half returns is of the type
    its wire half expects. *)
From S2P Require Import Prelude Bytes Resp Kv Registry Op Namespace Session.
From S2P Require Strings.
From S2P Require Bitmap.
From S2P Require Conn.
From S2P Require Hash.
From S2P Require SetCmds.
From S2P Require ListCmds.
From S2P Require Keys.
From S2P Require Stream.
From S2P Require Import Commands CollectionCmds StreamCmds.

(** ** Post-conditions on results *)

(** The reply to a result of an unexpected type. *)
Definition is_internal_error (r : RespValue) : bool :=
  match r with
  | Error msg => starts_with (B "ERR internal error") msg || starts_with (B "ERR: internal error") msg
  | _ => false
  end.

(** Whatever [m] returns satisfies [P]. *)
Definition Returns {T A} (P : A → Prop) (m : DbM T A) : Prop := ∀ t a t', m t = (Ret a, t') → P a.

(** The wire half understands a result. *)
Definition accepts_result (wire : WireOp) (r : DbResult) : Prop :=
  ∀ reg, is_internal_error (fst (wire (Ok r) reg)) = false.

(** The two halves of an operation agree. *)
Definition well_typed {T} (op : QueuedOp T) : Prop :=
  ∀ now t reg r t' reg',
    run (db_op op) now t reg = ((Ret r, t'), reg') → accepts_result (wire_op op) r.

Section Returns.
Context {T : Type}.

Lemma returns_bind {A C} (P : C → Prop) (m : DbM T A) (k : A → DbM T C) :
  (∀ a, Returns P (k a)) → Returns P (m ≫= k).
Proof.
  intros Hk t c t'. unfold mbind, DbM_bind. destruct (m t) as [[a|e|] t1]; [|done..]. apply Hk.
Qed.

Lemma returns_bind_post {A C} (P : C → Prop) (Q : A → Prop) (m : DbM T A) (k : A → DbM T C) :
  Returns Q m → (∀ a, Q a → Returns P (k a)) → Returns P (m ≫= k).
Proof.
  intros Hm Hk t c t'. unfold mbind, DbM_bind. destruct (m t) as [[a|e|] t1] eqn:E; [|done..].
  apply Hk. by eapply Hm.
Qed.

Lemma returns_ret {A} (P : A → Prop) (a : A) : P a → Returns (T:=T) P (mret a).
Proof. intros Ha t b t' [= <- <-]. done. Qed.

Lemma returns_fail {A} (P : A → Prop) e : Returns (T:=T) P (fail e).
Proof. done. Qed.

Lemma returns_panic {A} (P : A → Prop) : Returns (T:=T) P panic.
Proof. done. Qed.

Lemma typed_tx_op (op : Z → DbM T DbResult) wire mut allowed abort keys :
  (∀ now, Returns (accepts_result wire) (op now)) →
  well_typed (mkQueuedOp (tx_op op) wire mut allowed abort keys).
Proof. intros Hop now t reg r t' reg' Hr. simpl in *. injection Hr as Hr _. by eapply Hop. Qed.
End Returns.

(** Follows the shape of a database half down to the results it returns. *)
Ltac returns :=
  repeat match goal with
  | |- Returns _ (mbind _ _) => apply returns_bind; intros
  | |- Returns _ (mret _) => apply returns_ret; solve [intros ?; first [reflexivity | cbn; repeat case_match; reflexivity]]
  | |- Returns _ (fail _) => apply returns_fail
  | |- Returns _ panic => apply returns_panic
  | |- Returns _ (match ?x with _ => _ end) => destruct x
  | |- Returns _ (let '(_, _) := ?x in _) => destruct x
  | |- Returns ?P ?m => let m' := eval red in m in progress change (Returns P m')
  end.

Ltac typed := apply typed_tx_op; intros; returns.

(** ** Errors of the option parsers *)

(** By induction on the number of arguments left. *)
Ltac by_length args :=
  let n := fresh "n" in
  remember (length args) as n eqn:Hn; assert (length args ≤ n)%nat as Hlen by lia; clear Hn;
  revert args Hlen; induction n as [|n IH]; intros [|a args] Hlen; cbn [length] in Hlen; try lia.

Lemma set_parse_errors now args o msg : set_parse now args o = Err msg → is_internal_error (Error msg) = false.
Proof.
  revert o. by_length args; intros o; cbn [set_parse]; repeat case_match; subst; try (by intros [= <-]); apply IH; cbn [length] in *; lia.
Qed.

Lemma scan_parse_errors args o msg : scan_parse args o = Err msg → is_internal_error (Error msg) = false.
Proof.
  revert o. by_length args; intros o; cbn [scan_parse]; repeat case_match; subst; try (by intros [= <-]); apply IH; cbn [length] in *; lia.
Qed.

Lemma sscan_parse_errors args c p msg : sscan_parse args c p = Err msg → is_internal_error (Error msg) = false.
Proof.
  revert c p. by_length args; intros c p; cbn [sscan_parse]; repeat case_match; subst; try (by intros [= <-]); apply IH; cbn [length] in *; lia.
Qed.

Lemma hscan_parse_errors args p c msg : hscan_parse args p c = Err msg → is_internal_error (Error msg) = false.
Proof.
  revert p c. by_length args; intros p c; cbn [hscan_parse]; repeat case_match; subst; try (by intros [= <-]); apply IH; cbn [length] in *; lia.
Qed.

Section Tables.
Context {T : Type} `{!TxOps T} (draws : Draws).

Lemma string_commands_typed :
  Forall (λ e, ∀ now s args op, e.2 now s args = Ok op → well_typed op) (string_commands (T:=T)).
Proof.
  unfold string_commands. repeat (apply Forall_cons; split); [..|constructor]; cbn [snd]; intros now s args op;
    unfold setbit_cmd, getbit_cmd, bitcount_cmd, bitpos_cmd, bitop_cmd, set_cmd, one_key_cmd, setex_cmd, pair_cmd,
      substr_cmd, getex_cmd, mset_cmd, setrange_cmd, incrby_cmd;
    repeat case_match; intros [= <-].
  all: typed.
Qed.

Lemma collection_commands_typed :
  Forall (λ e, ∀ s args op, e.2 s args = Ok op → well_typed op) (collection_commands (T:=T) draws).
Proof.
  unfold collection_commands, list_commands, set_commands, key_commands, hash_commands.
  repeat (apply Forall_cons; split); [..|constructor]; cbn [snd]; intros s args op;
    unfold key_rest_cmd, one_key_cmd, pair_cmd, keys_cmd, triple_cmd, key_int_cmd, key_range_cmd, key_int_value_cmd,
      hset_cmd, lpos_cmd, linsert_cmd, sscan_cmd, object_cmd, move_cmd, scan_cmd, hincrby_cmd, hrandfield_cmd, hscan_cmd;
    repeat case_match; intros [= <-].
  all: typed.
Qed.

Lemma typed_xadd s id key nomk max_len min_id eid fvs :
  well_typed (Stream.Cmd.xadd (T:=T) s id key nomk max_len min_id eid fvs).
Proof.
  intros now t reg r t' reg' Hr. simpl in Hr. injection Hr as Hr _. revert t r t' Hr.
  change (Returns (accepts_result Stream.XAddWire) (Stream.XAddOp now id (public_key s key) (private_key s key)
    nomk max_len min_id eid fvs)).
  returns.
Qed.

Lemma stream_commands_typed id :
  Forall (λ e, ∀ s args op, e.2 s args = Ret (Run op) → well_typed op) (stream_commands (T:=T) id).
Proof.
  unfold stream_commands. repeat (apply Forall_cons; split); [..|constructor]; cbn [snd]; intros s args op;
    unfold plain, xadd_cmd, xlen_cmd, xrange_cmd, xrevrange_cmd, xread_cmd, xdel_cmd, xtrim_cmd, xsetid_cmd, xinfo_cmd,
      parse_bind; repeat case_match; intros [= <-]; simplify_eq.
  all: first [apply typed_xadd|typed].
Qed.

(** The errors the parsers report are not internal errors. *)
Lemma string_commands_errors :
  Forall (λ e, ∀ now s args msg, e.2 now s args = Err msg → is_internal_error (Error msg) = false) (string_commands (T:=T)).
Proof.
  unfold string_commands. repeat (apply Forall_cons; split); [..|constructor]; cbn [snd]; intros now s args msg;
    unfold setbit_cmd, getbit_cmd, bitcount_cmd, bitpos_cmd, bitop_cmd, set_cmd, one_key_cmd, setex_cmd, pair_cmd,
      substr_cmd, getex_cmd, mset_cmd, setrange_cmd, incrby_cmd, parse_range, parse_unit;
    repeat case_match; intros [= <-]; simplify_eq.
  all: first [reflexivity|by eapply set_parse_errors].
Qed.

Lemma collection_commands_errors :
  Forall (λ e, ∀ s args msg, e.2 s args = Err msg → is_internal_error (Error msg) = false) (collection_commands (T:=T) draws).
Proof.
  unfold collection_commands, list_commands, set_commands, key_commands, hash_commands.
  repeat (apply Forall_cons; split); [..|constructor]; cbn [snd]; intros s args msg;
    unfold key_rest_cmd, one_key_cmd, pair_cmd, keys_cmd, triple_cmd, key_int_cmd, key_range_cmd, key_int_value_cmd,
      hset_cmd, lpos_cmd, linsert_cmd, sscan_cmd, object_cmd, move_cmd, scan_cmd, hincrby_cmd, hrandfield_cmd, hscan_cmd;
    repeat case_match; intros [= <-]; simplify_eq.
  all: first [reflexivity|by eapply scan_parse_errors|by eapply sscan_parse_errors|by eapply hscan_parse_errors].
Qed.
End Tables.

(** ** From the command to its reply *)

Section Lifecycle.
Context {S T : Type} `{!TxOps T, !StoreOps S T} (draws : Draws).
Context (rest : list Z → Session T → list (list Z) → QueuedOp T * Session T).
Context (env : nat → Env S) (clock : nat → Z).
Context (Hrest : ∀ name s args, well_typed (fst (rest name s args))).
Implicit Types (s : Session T) (w : World S) (q : list (QueuedOp T)).

Lemma typed_pure (f : result DbResult DbError → RespValue) mut allowed abort keys :
  (∀ r, is_internal_error (f (Ok r)) = false) →
  well_typed (T:=T) (mkQueuedOp NoOp (pure_wire f) mut allowed abort keys).
Proof. intros Hf now t reg r t' reg' _ reg''. apply Hf. Qed.

(** Error messages of the parsers are not internal errors. *)
Lemma typed_error_op s msg :
  is_internal_error (Error msg) = false → well_typed (fst (error_op s msg)).
Proof. intros Hm. by apply typed_pure. Qed.

(** A queue that grew, or was taken over, or emptied. *)
Lemma dispatch_pending_ops_queue batch s w e s' w' :
  dispatch_pending_ops env clock batch s w = (e, s', w') → pending s' = pending s ∨ pending s' = [].
Proof.
  unfold dispatch_pending_ops. repeat case_match; intros [= <- <- <-]; subst; simpl; auto.
Qed.

(** Results that fit the wire halves. *)
Definition fits (op : QueuedOp T) (o : result DbResult DbError) : Prop :=
  match o with Ok r => accepts_result (wire_op op) r | Err _ => True end.

Lemma run_ops_fits env1 now batch q outs t w outs' t' w' :
  Forall well_typed q → run_ops env1 now batch q outs t w = (OpsDone outs' t', w') →
  ∃ new, outs' = outs ++ new ∧ Forall2 fits q new.
Proof.
  intros Hq. revert outs t w. induction Hq as [|op q Hop _ IH]; intros outs t w; cbn [run_ops].
  { intros [= <- <- <-]. exists []. by rewrite app_nil_r. }
  destruct (run (db_op op) now t _) as [[o t1] reg1] eqn:Er.
  assert (∀ o w1, fits op o → run_ops env1 now batch q (outs ++ [o]) t1 w1 = (OpsDone outs' t', w') →
    ∃ new, outs' = outs ++ new ∧ Forall2 fits (op :: q) new) as Hgo.
  { intros o1 w1 Ho Hrun. destruct (IH _ _ _ Hrun) as (new & -> & Hnew). exists (o1 :: new).
    split; [by rewrite <- app_assoc|by constructor]. }
  destruct o as [r|err|]; [apply Hgo; by eapply Hop| |done]. repeat case_match; try done; by apply Hgo.
Qed.

Lemma render_fits q outcomes reg i r reply :
  Forall2 fits q outcomes → outcomes !! i = Some (Ok r) → (render q outcomes reg).1 !! i = Some reply →
  is_internal_error reply = false.
Proof.
  intros Hf. revert reg i. induction Hf as [|op o q outcomes Ho _ IH]; intros reg i; [done|]. cbn [render].
  destruct (wire_op op o reg) as [reply1 reg1] eqn:Ew. destruct (render q outcomes reg1) as [replies reg2] eqn:Er.
  cbn [fst]. destruct i as [|i]; cbn.
  - intros [= ->] [= <-]. specialize (Ho reg). by rewrite Ew in Ho.
  - intros Hi Hr. apply (IH reg1 i Hi). by rewrite Er.
Qed.

Lemma apply_and_commit_fits env1 now batch q iso retries t w outcomes handle w' :
  Forall well_typed q → apply_and_commit env1 now batch q iso retries t w = (Committed outcomes handle, w') →
  Forall2 fits q outcomes.
Proof.
  intros Hq. unfold apply_and_commit. destruct (run_ops env1 now batch q [] t w) as [[outs t1|outs t1|op e outs t1|t1] w1] eqn:Er.
  - destruct (run_ops_fits _ _ _ _ _ _ _ _ _ _ Hq Er) as (new & Hnew & Hf). simpl in Hnew. subst outs.
    destruct (st_commit t1 _) as [[h|err] st']; [by intros [= <- _ _]|].
    destruct err; try done; intros [= He _]; by destruct (on_conflict_cases iso retries) as [[? Ho]|[[? Ho]|Ho]]; rewrite Ho in He.
  - intros [= He _]. by destruct (on_conflict_cases iso retries) as [[? Ho]|[[? Ho]|Ho]]; rewrite Ho in He.
  - by destruct (wire_op op (Err e) _).
  - done.
Qed.

Lemma commit_loop_fits fuel n batch s mutating iso retries w outcomes handle w' :
  Forall well_typed (pending s) →
  commit_loop fuel env clock n batch s mutating iso retries w = Some (Committed outcomes handle, w') →
  Forall2 fits (pending s) outcomes.
Proof.
  intros Hq. revert n retries w. induction fuel as [|fuel IH]; intros n retries w; [done|]. cbn [commit_loop].
  destruct (attempt (env n) (clock n) batch s mutating iso retries w) as [a w1] eqn:Ea.
  destruct a as [rs u|outs h|r|]; [done| |apply IH|done]. intros [= -> -> ->]. revert Ea. unfold attempt.
  repeat case_match; try done; intros Ha; by eapply apply_and_commit_fits.
Qed.

(** Every command of the tables builds an operation whose halves agree. *)
Lemma dispatch_command_typed now s args :
  well_typed (fst (dispatch_command (with_collections draws rest) now s args)).
Proof.
  unfold dispatch_command. destruct args as [|n args]; [by apply typed_error_op|]. cbv zeta.
  repeat (case_bool_decide; [|]); cbn [orb]; cbn [fst].
  all: try (unfold ping_cmd, echo_cmd, select_cmd; repeat case_match; first [by apply typed_error_op|by apply typed_pure]).
  - apply typed_pure. intros r. by repeat case_match.
  - typed.
  - destruct (find_command (lowercase n) string_commands) as [h|] eqn:Ef.
    + destruct (find_command_Forall _ _ _ _ string_commands_typed Ef) as [n1 Hop].
      destruct (find_command_Forall _ _ _ _ string_commands_errors Ef) as [n2 Herr].
      destruct (h now s args) as [op|msg] eqn:Eh; [by eapply Hop|]. apply typed_error_op. by eapply Herr.
    + unfold with_collections. destruct (find_command (lowercase n) (collection_commands draws)) as [h|] eqn:Ec; [|apply Hrest].
      destruct (find_command_Forall _ _ _ _ (collection_commands_typed draws) Ec) as [n1 Hop].
      destruct (find_command_Forall _ _ _ _ (collection_commands_errors draws) Ec) as [n2 Herr].
      destruct (h s (drop 1 (n :: args))) as [op|msg] eqn:Eh; [by eapply Hop|]. apply typed_error_op. by eapply Herr.
Qed.

Lemma dispatch_command_pending now s args :
  handler_ok rest → pending (snd (dispatch_command (with_collections draws rest) now s args)) = pending s.
Proof.
  intros Ho. pose proof (dispatch_command_ok _ now s args (with_collections_ok draws rest Ho)) as Hd.
  destruct (dispatch_command _ now s args) as [cmd s1]. destruct Hd as [[msg Hm]|(_ & _ & Hp & _)]; [|exact Hp].
  unfold error_op in Hm. injection Hm as _ ->. simpl. unfold mark_dirty. by destruct (in_multi s) eqn:E; rewrite ?E.
Qed.

Lemma snapshot_and_watch_pending now s w keys s1 w1 :
  snapshot_and_watch now s w keys = (s1, w1) → pending s1 = pending s.
Proof.
  unfold snapshot_and_watch. destruct (st_begin _ _ _) as [r st]. destruct (fold_left _ _ _) as [wk tx].
  by intros [= <- <-].
Qed.

(** Executing or queueing a command keeps the queue well typed. *)
Lemma enqueue_command_typed s w args e s' w' :
  handler_ok rest → Forall well_typed (pending s) →
  enqueue_command (with_collections draws rest) env clock s w args = (e, s', w') → Forall well_typed (pending s').
Proof.
  intros Ho Hq.
  assert (∀ batch s1 w1 e1 s2 w2, Forall well_typed (pending s1) →
    dispatch_pending_ops env clock batch s1 w1 = (e1, s2, w2) → Forall well_typed (pending s2)) as Hd.
  { intros batch s1 w1 e1 s2 w2 H1 He. by destruct (dispatch_pending_ops_queue _ _ _ _ _ _ He) as [->| ->]. }
  unfold enqueue_command. destruct (dispatch_noscript env clock s w args) as [[[e1 s1] w1]|] eqn:En.
  - intros [= <- <- <-]. revert En. unfold dispatch_noscript, error, exit_multi, enter_multi, mark_dirty, unwatch.
    repeat case_match; intros En; simplify_eq; try exact Hq; try done.
    all: match goal with
         | E : dispatch_pending_ops _ _ _ _ _ = _ |- _ => by eapply Hd, E
         | E : snapshot_and_watch _ _ _ _ = _ |- _ => by rewrite (snapshot_and_watch_pending _ _ _ _ _ _ E)
         end.
  - pose proof (dispatch_command_typed (clock 0%nat) s args) as Hc.
    pose proof (dispatch_command_pending (clock 0%nat) s args Ho) as Hp.
    destruct (dispatch_command _ (clock 0%nat) s args) as [cmd s1]. cbn [fst snd] in Hc, Hp. rewrite <- Hp in Hq.
    destruct (in_multi s1 && abort_in_tx cmd); [destruct (wire_op cmd _ _); by intros [= _ <- _]|].
    destruct (in_multi s1 && negb (allowed_in_tx cmd)).
    { unfold error, mark_dirty. by destruct (in_multi s1); intros [= _ <- _]. }
    unfold enqueue_op. destruct (dispatch_pending_ops env clock false _ w) as [[e1 s2] w2] eqn:Ed.
    apply Hd in Ed; [|simpl; apply Forall_app; split; [done|by constructor]].
    by destruct e1; intros [= _ <- _].
Qed.
End Lifecycle.

(** ** Theorem *)

(** C13: results never meet a wire half that does not understand them. With any dispatcher
    for the remaining command groups whose operations are well typed, starting from a queue
    of well-typed operations (an empty one, say): every command that a client sends, whatever
    its arguments, leaves such a queue; and when a batch commits, no operation that succeeded
    is answered with the internal error that a failed downcast produces. The operations that
    the stream commands build are well typed too. *)
Theorem results_fit_replies S T `{!TxOps T, !StoreOps S T} draws rest env clock (s : Session T) (w : World S) :
  handler_ok rest → (∀ name s args, well_typed (fst (rest name s args))) → Forall well_typed (pending s) →
  (∀ args e s' w', enqueue_command (with_collections draws rest) env clock s w args = (e, s', w') →
     Forall well_typed (pending s')) ∧
  (∀ fuel n batch mutating iso retries outcomes handle w' i r reply,
     commit_loop fuel env clock n batch s mutating iso retries w = Some (Committed outcomes handle, w') →
     outcomes !! i = Some (Ok r) → fst (render (pending s) outcomes (w_registry w')) !! i = Some reply →
     is_internal_error reply = false) ∧
  (∀ id name h args op, find_command name (stream_commands id) = Some h → h s args = Ret (Run op) → well_typed op).
Proof.
  intros Ho Hrest Hq. split; [|split].
  - intros args e s' w'. by apply enqueue_command_typed.
  - intros fuel n batch mutating iso retries outcomes handle w' i r reply Hc Hi Hr.
    eapply render_fits; [|exact Hi|exact Hr]. by eapply commit_loop_fits.
  - intros id name h args op Hf Hop. destruct (find_command_Forall _ _ _ _ (stream_commands_typed id) Hf) as [n Hn].
    by eapply Hn.
Qed.

Import MapStore.

Lemma results_fit_replies_witness :
  Forall well_typed (pending (snd (fst (enqueue_command (with_collections demo_draws no_other) quiet noon
    (enter_multi (session_new 1)) sample_world [B "LPUSH"; B "k"; B "v"])))).
Proof.
  destruct (enqueue_command (with_collections demo_draws no_other) quiet noon (enter_multi (session_new 1)) sample_world
    [B "LPUSH"; B "k"; B "v"]) as [[e s'] w'] eqn:E.
  refine (proj1 (results_fit_replies _ _ demo_draws no_other quiet noon (enter_multi (session_new 1)) sample_world
    no_other_ok _ _) _ e s' w' E).
  - intros name s args. by apply typed_error_op.
  - constructor.
Defined.
